(* ===== verification/_CoqProject ===== *)
-Q . S2P
Prelude.v
Leases.v
LeaderLeases.v
Json.v
Journal.v
Streams.v
SignalTokens.v
Events.v
RunState.v
Storage.v
StorageRows.v
StorageLifecycle.v
StorageCascade.v
StepQueue.v
SchedulerStorage.v
Dag.v
Dates.v
Exits.v
Retry.v
JournalStore.v
Replay.v
ReplayLemmas.v
Resume.v
Rollback.v
Wakeups.v
StartQueue.v
Versions.v
RollbackOrder.v
StepBody.v
Checkpoint.v
AsyncRel.v
Waves.v
WaveLaws.v
WaveLoop.v
WaveResults.v
Compensate.v
RollbackRun.v
RunRel.v
Orchestrate.v
Outcome.v
MemoryWorld.v
MemoryOutcome.v
MachineStorage.v
StateMachine.v
MachineLaws.v
MachineSend.v
MachineTypes.v
MachineMemory.v
VersionRegistry.v
VersionRouting.v
Steps.v
StoreSteps.v
LoopLaws.v
MapLaws.v
MemorySteps.v
StepLaws.v
BuilderState.v
Builder.v
Compiler.v
CycleLaws.v
CompilerLaws.v
Cache.v
Queries.v
Namespaces.v
Planning.v
Programs.v
PollLoop.v
WorkerRegistry.v
QueueCalls.v
Worker.v
StepQueueExecutor.v
QueueSystem.v
QueueLog.v
QueueSafety.v
QueueResults.v
DurableScheduler.v
SchedulerSystem.v
SchedulerDelivery.v
SchedulerRedelivery.v
MemoryScheduler.v
