(* ===== verification/Prelude.v ===== *)
(** * promin: the reference semantics of the workflow engine

    promin runs durable workflows: a run is a graph of steps, a step may be a
    journaled generator whose side effects are replayed from a journal, and
    any number of processes drive runs over a shared storage. The storage,
    queue and scheduler contracts are given by in-memory classes that the
    repository itself calls the executable spec of the SQL and Redis
    backends. This library models those classes method by method, with the
    pure algorithms around them, and proves what the rest relies on.
    Paths below are relative to [src/packages/workflow/src/lib/].

    ** Files

    - [Prelude]: results, the state and error monad [ST], schedules of
      operations ([run_ops]: a list of calls with the clock reading of each),
      JavaScript's insertion-ordered [Map] ([jmap]), the stable sort
      ([jsort]), strings, [slice] and truthiness.
    - [Leases]: run locks with fence tokens ([durable/in-memory/lease-table.ts],
      [durable/storage/fencing.ts]).
    - [LeaderLeases]: fenced leader leases and the elector
      ([scheduler/leader-lease.ts]); the store contract is the class
      [LeaderLeaseStore] with its laws, and election is proved over any store.
    - [Json]: JSON values, canonical text and equality of stored values,
      metadata matching ([durable/storage/same-value.ts],
      [durable/storage/metadata.ts], [scheduler/metadata-filter.ts]).
    - [Journal]: the activity journal ([durable/in-memory/journal.ts]) and its
      abstract map from slot to entry.
    - [Streams], [SignalTokens], [Events]: durable streams, external signal
      tokens, run event streams ([durable/in-memory/streams.ts],
      [signal-tokens.ts], [run-events.ts], [durable/workflow-event-stream.ts]).
    - [RunState]: run, step and task rows, listing filters and order
      ([durable/workflow-state.ts], [durable/in-memory/run-record.ts],
      [durable/storage/ordering.ts]).
    - [Storage]: every method of [durable/in-memory-storage.ts];
      [StorageRows] what each does to the run rows, [StorageLifecycle] the
      status machine and fencing, [StorageCascade] the cascading cancel.
    - [StepQueue]: the step queue ([distributed/in-memory-step-queue.ts],
      [distributed/step-queue.ts]).
    - [SchedulerStorage]: schedules, fire state and tick log
      ([scheduler/in-memory-scheduler-storage.ts]); it implements
      [LeaderLeaseStore] and its laws.
    - [Dag]: topological sort, ready set and incremental tracker
      ([durable/workflow-dag.ts]).
    - [Dates]: the JavaScript [Date] text of an instant and its parser;
      [Exits]: thrown values and how failures and signal outcomes are stored
      ([durable/journal-exit.ts]); [Retry]: the retry policy and loop
      ([shared/retry-policy.ts]).
    - [JournalStore]: the storage interface of a journaled step as a class
      with its contract, and the in-memory storage as an instance
      ([durable/storage/journal-store.ts]).
    - [Replay]: journaled step bodies and their runner over any such store
      ([durable/journal-cursor.ts], [journaled-ctx-activity.ts],
      [journaled-ctx-suspend.ts], [journaled-ctx-compose.ts],
      [compensation-stack.ts], [journaled-step.ts]); [ReplayLemmas] what one
      yield may change and records, [Resume] replay after a crash, [Rollback]
      the end of a failed attempt.
    - [Wakeups]: a signal delivery and the sweep of due sleeps against a
      storage that others use in between ([durable/journal-wakeups.ts]).
    - [StartQueue]: the queue of runs to drive
      ([distributed/workflow-start-queue.ts]); [Versions]: the order of
      workflow versions ([durable/workflow-version-order.ts]).
    - [RollbackOrder]: the order of a saga rollback
      ([durable/runner/compensation.ts]).
    - [StepBody]: step definitions and one step body under its timeout,
      retry and failure policies ([durable/step-policy.ts],
      [durable/runner/step-policies.ts], [durable/runner/step-body.ts]).
    - [Checkpoint]: the storage interface of a driver as the class [RunStore],
      asynchronous code over a world, and checkpoints of step outcomes
      ([durable/runner/step-checkpoint.ts], [run-status.ts], [hooks.ts]).
    - [Waves]: waves and the loop of the DAG executor
      ([durable/runner/wave.ts], [inline-wave.ts], [dag-executor.ts]);
      [WaveLaws] the contract [RunWorld] between a driver and its world,
      [WaveLoop] why the loop ends and how, [WaveResults] what it leaves in
      the storage.
    - [Compensate]: the run of a saga rollback
      ([durable/runner/compensation.ts]); [RollbackRun] its contract
      [RollbackWorld] and what a rollback, interrupted or not, leaves.
    - [AsyncRel], [RunRel]: relations that every part of a driver keeps,
      established once per storage and host call.
    - [Orchestrate]: one driver of a run from the moment it holds the lock
      ([durable/runner/orchestrate.ts], [run-status.ts], [idempotency.ts],
      [dlq.ts]); [Outcome] its contract [OutcomeWorld] and how what it tells
      its caller relates to what is stored.
    - [MemoryWorld], [MemoryOutcome]: the in-memory storage as an instance of
      the driver's interface and of these contracts.
    - [MachineStorage], [StateMachine]: the storage of state machines and the
      builder and methods of an instance ([durable/state-machine-storage.ts],
      [durable/state-machine.ts]); [MachineLaws] the contract [MachineWorld]
      of a world that others act in, [MachineSend] what a method commits,
      [MachineTypes] the theorems, [MachineMemory] the in-memory storage as
      such a world.
    - [VersionRegistry]: the registry of workflow versions
      ([durable/workflow-version-registry.ts]); [VersionRouting] what it
      routes new runs to.

    - [Steps], [StoreSteps]: the step kinds of the builder as effects, those
      that need no storage and those that do, with the step cache
      ([durable/steps/], [durable/step-cache.ts], [durable/child-wake.ts]);
      [LoopLaws] and [MapLaws] how a loop and
      a map resume over any world that keeps their rows ([LoopWorld],
      [MapWorld]), [MemorySteps] the in-memory storage as such a world,
      [StepLaws] the smaller contracts.
    - [BuilderState]: the shared step arrays of builders, refined by lists
      ([durable/builder-state.ts]); [Builder]: the methods of the builder and
      fragments ([durable/workflow-builder.ts], [workflow-fragment.ts]).
    - [Compiler]: schemas, their checks and their compilation to a workflow
      ([durable/workflow-compiler.ts], [activity-registry.ts],
      [workflow-schema.ts], [workflow-schema-validator.ts]); [CycleLaws] the
      cycle check, [CompilerLaws] what every answer of the compiler means.

    - [Cache]: the in-memory cache with expiry and eviction
      ([shared/cache-store.ts]), against a map of the last writes.
    - [Queries]: the query handlers of the runs a process hosts
      ([durable/query-registry.ts]).
    - [Namespaces]: the registry of namespaces and its validation
      ([namespaces/namespace-registry.ts]).
    - [Planning]: what due schedules fire ([scheduler/schedule-config.ts] and
      the planning functions of [scheduler/durable-scheduler.ts]), over the
      class [Recurrence] of the cron and RRULE libraries.
    - [Programs]: programs split at their calls, and a logic of what every
      run of one keeps however others interleave ([Contract], [safe]).
    - [PollLoop]: the background loop with its backoff, jitter and wake
      ([shared/poll-loop.ts]), over any host ([LoopHost]).
    - [WorkerRegistry]: who works ([distributed/worker-registry.ts]).
    - [QueueCalls]: handlers, middleware and step registry
      ([distributed/step-registry.ts], [distributed/middleware.ts]), the
      variables of workers and waits, and the calls they make;
      [Worker]: [DefaultWorker], method by method
      ([distributed/worker.ts]); [StepQueueExecutor]: the wait for a queued
      step ([distributed/step-queue-executor.ts]).
    - [QueueSystem]: any number of workers and waits over one queue, storage
      and worker registry, one call at a time, with timers that fire at any
      time, calls that fail before or after their effect and processes that
      die. [QueueLog] how a queue may change and what the log of a system
      says about it, [QueueSafety] that every program of
      workers and waits keeps that, [QueueResults] where the result of a
      step comes from.
    - [DurableScheduler]: the poll-based scheduler as programs that are split
      at every call; [SchedulerSystem] many of them over one storage, step by
      step, with consumers that stop and processes that die;
      [SchedulerDelivery] no number is counted undelivered,
      [SchedulerRedelivery] an unacknowledged tick comes back.
    - [MemoryScheduler]: the in-process scheduler
      ([scheduler/in-memory-scheduler.ts]).

    ** How the code is represented

    A class is a record of its fields, a method a function from arguments and
    state to result and state; a method that throws returns [Err]. The
    methods of the in-memory classes run without an [await] between their
    reads and their writes, so one call is one step and an interleaving of
    processes is a list of calls. The one exception is the cascading cancel,
    which awaits the call for each child: [cancel_body] is the cascade that
    nothing interrupts, with one reading of the clock, and [cascade_step] in
    [StorageCascade] the same cascade child by child, with other operations in
    between. The clock is read once per call, and a schedule may give
    any readings, decreasing ones included. Objects that the code shares by
    reference where it matters (stream arrays, task arrays, event streams)
    live in heaps and are addressed by number. JavaScript numbers that are
    counters, indices and epoch times are [Z]; averages and percentiles are
    exact rationals. Dates are their epoch milliseconds.

    A driver awaits the storage, the user's steps and its timers. Its code is
    modelled over a world of any type, which everything outside of the
    driver's own variables belongs to; a call resolves, rejects, or the
    process is dead before it returns ([outcome]). The steps of a wave are
    run one after the other in an order that may be any.

    Recursion: the cancel cascade, the [while] loops of the sort and of the
    rollback order and the wave loop are on fuel: the number of runs, of
    nodes, of steps. The loop of a retry policy has an iteration to spare, so
    that it is the code's own check that ends it ([count_attempt]). [cancel_fuel_enough], [topologicalSort_total],
    [compensationOrder_correct] and [executeWorkflowDag_ends] show that more
    is never needed. The retries of a run are bounded by its policy and the
    runs of a continue-as-new chain by the limit of the code
    ([MAX_CONTINUE_AS_NEW_CHAIN]).

    Schedulers, workers and step waits run side by side. Each of their
    methods is a program split at every call ([Programs]); a system holds the
    programs of all processes, and an event lets one of them take its next
    call. In [QueueSystem] the middleware and handler of an attempt are one
    call on the host's state, which sees the reason its signal was aborted
    for, if it was, when the call is made; the timer of the step may win the
    race against it, with or without its effects. The interval of a
    heartbeat may fire whenever it is set. [releaseUnfinished] makes its
    calls one after the other.

    ** What the theorems show

    Fencing and mutual exclusion (locks, leaders, queue claims): a superseded
    holder is refused for ever and changes nothing. State machines: how a
    run's status may move, that ended runs and settled tasks keep their
    outcome, that a token, a journal row and a tick number are completed
    once. Refinement: the indexed journal is a map, the ready tracker is the
    ready set, streams are gap-free logs. Exactness of sweeps: claim,
    requeue, due schedules, cascade. Drivers: what replay serves from the
    journal, that activities and steps are not run again once recorded, that
    each ending of a run has its cause, in which order a run is rolled back,
    that no step is rolled back again once that is recorded, and that a
    driver tells its caller what is stored. Workers: a result that a wait
    ends with was computed for that step by a worker that claimed its task,
    and no task is settled twice. Schedulers: no tick number is counted
    before it was delivered, and one that was not comes back. What the code
    does on cases its documentation excludes is kept apart as an [Example]
    next to the theorem: a second root step is chained
    ([second_root_is_chained]), a repeated name is a cycle
    ([duplicate_is_a_cycle]), an ended child ends the cascade
    ([cascade_stops_at_ended_child]), a late query handler passes to the next
    scope ([late_handler_taken_over]), occurrences before the start of a
    schedule fire ([fires_before_start]), a cache without room holds one
    entry ([zero_bound_holds_one]). State machines: a send commits
    the one transition its definition decides, and contexts keep the types
    of their states.
    Every hypothesis of a theorem is met by
    a concrete run, the lemma of the same name ending in [_witness].

    ** Not modelled

    The SQL, Redis and HTTP backends (the same contracts in other systems),
    the agent, data, evaluation and server packages, the static types of the
    builder, the coordinator with its scanners and shared reads, the step
    policies around queued attempts ([executeStep]), the timers of the wall
    clocks, and whatever a user's step does.
    Third-party code ([LosslessJsonCodec], cron and RRULE evaluation,
    [crypto.randomUUID]) is a parameter where a definition needs it. *)
From Stdlib Require Export ZArith Lia.
From stdpp Require Export base gmap strings list list_numbers pretty sorting.

Open Scope Z_scope.

(** ** Results and the state-and-error monad

    A method of a store either resolves with a value or throws (rejects). It
    runs against a state and, also when it throws, leaves a state behind: that
    a rejected call changed nothing is a theorem about the method, not a
    consequence of its type. *)
Inductive res (E A : Type) : Type :=
| Ok (a : A)
| Err (e : E).
Arguments Ok {E A} a.
Arguments Err {E A} e.

Definition ST (S E A : Type) : Type := S -> res E A * S.

Definition st_ret {S E A} (a : A) : ST S E A := fun s => (Ok a, s).
Definition st_throw {S E A} (e : E) : ST S E A := fun s => (Err e, s).
Definition st_get {S E} : ST S E S := fun s => (Ok s, s).
Definition st_put {S E} (s' : S) : ST S E unit := fun _ => (Ok tt, s').
Definition st_modify {S E} (f : S -> S) : ST S E unit := fun s => (Ok tt, f s).
Definition st_lift {S E A} (r : res E A) : ST S E A := fun s => (r, s).
Definition st_bind {S E A B} (m : ST S E A) (k : A -> ST S E B) : ST S E B :=
  fun s => match m s with
           | (Ok a, s') => k a s'
           | (Err e, s') => (Err e, s')
           end.

Declare Scope promin_scope.
Delimit Scope promin_scope with promin.
Open Scope promin_scope.
Notation "'let*' x := m 'in' k" := (st_bind m (fun x => k))
  (at level 10, x name, m at level 200, k at level 200) : promin_scope.
Notation "'do*' m 'in' k" := (st_bind m (fun _ => k))
  (at level 10, m at level 200, k at level 200) : promin_scope.

Definition is_ok {E A} (r : res E A) : bool :=
  match r with Ok _ => true | Err _ => false end.

(** ** Schedules

    The operations a component serves, one after the other, each at the time
    its clock reads. Invariants hold after a schedule when every step keeps
    them. *)
Section schedules.
Context {Op St : Type} (step : Z -> Op -> St -> St).

Fixpoint run_ops (sched : list (Z * Op)) (s : St) : St :=
  match sched with
  | [] => s
  | (now, op) :: rest => run_ops rest (step now op s)
  end.

Lemma run_ops_app a b s : run_ops (a ++ b) s = run_ops b (run_ops a s).
Proof. revert s. induction a as [|[now op] a IH]; intros s; cbn; auto. Qed.

(** An invariant kept by the allowed operations. *)
Lemma run_ops_inv (ok : Z * Op -> Prop) (P : St -> Prop) sched s :
  (forall now op s, ok (now, op) -> P s -> P (step now op s)) ->
  Forall ok sched -> P s -> P (run_ops sched s).
Proof.
  intros Hstep. revert s. induction sched as [|[now op] sched IH]; intros s; cbn; [done|].
  intros [Hop Hs]%Forall_cons HP. apply IH; [done|]. by apply Hstep.
Qed.

Lemma run_ops_inv_all (P : St -> Prop) sched s :
  (forall now op s, P s -> P (step now op s)) -> P s -> P (run_ops sched s).
Proof.
  intros Hstep. apply (run_ops_inv (fun _ => True)); [by auto|]. by apply Forall_true.
Qed.
End schedules.

(** The clock does not run backwards, and reads at most [now] in the end. *)
Fixpoint clock_until {Op} (from : Z) (sched : list (Z * Op)) (now : Z) : Prop :=
  match sched with
  | [] => from <= now
  | (t, _) :: sched => from <= t /\ clock_until t sched now
  end.

(** ** JavaScript maps

    A [Map] iterates in insertion order: [set] on a present key keeps the
    key's position, on an absent key appends it. *)
Record jmap (K V : Type) : Type := JMap { jm_entries : list (K * V) }.
Arguments JMap {K V} jm_entries.
Arguments jm_entries {K V} j.

Section jmap_ops.
Context {K V : Type} `{EqDecision K}.

Fixpoint alist_get (k : K) (l : list (K * V)) : option V :=
  match l with
  | [] => None
  | (k', v) :: l' => if decide (k = k') then Some v else alist_get k l'
  end.

Fixpoint alist_set (k : K) (v : V) (l : list (K * V)) : list (K * V) :=
  match l with
  | [] => [(k, v)]
  | (k', v') :: l' =>
      if decide (k = k') then (k', v) :: l' else (k', v') :: alist_set k v l'
  end.

Fixpoint alist_del (k : K) (l : list (K * V)) : list (K * V) :=
  match l with
  | [] => []
  | (k', v') :: l' =>
      if decide (k = k') then alist_del k l' else (k', v') :: alist_del k l'
  end.

#[global] Instance jmap_empty : Empty (jmap K V) := JMap [].
#[global] Instance jmap_lookup : Lookup K V (jmap K V) :=
  fun k m => alist_get k (jm_entries m).
#[global] Instance jmap_insert : Insert K V (jmap K V) :=
  fun k v m => JMap (alist_set k v (jm_entries m)).
#[global] Instance jmap_delete : Delete K (jmap K V) :=
  fun k m => JMap (alist_del k (jm_entries m)).

Definition jm_keys (m : jmap K V) : list K := (jm_entries m).*1.
Definition jm_values (m : jmap K V) : list V := (jm_entries m).*2.

(** Every key occurs once: what [set] and [delete] maintain. *)
Definition jm_wf (m : jmap K V) : Prop := NoDup (jm_keys m).
End jmap_ops.

(** Change every value in place ([for (const v of map.values()) v.x = ...]). *)
Definition jm_map {K V W} (f : V -> W) (m : jmap K V) : jmap K W :=
  JMap (map (fun kv => (kv.1, f kv.2)) (jm_entries m)).

Section jmap_lemmas.
Context {K V : Type} `{EqDecision K}.
Implicit Types (m : jmap K V) (k i j : K) (v : V).

Lemma jlookup_empty k : (∅ : jmap K V) !! k = None.
Proof. reflexivity. Qed.

Lemma jlookup_insert m i j v :
  <[i := v]> m !! j = if decide (i = j) then Some v else m !! j.
Proof.
  destruct m as [l]; unfold insert, jmap_insert, lookup, jmap_lookup; cbn.
  induction l as [|[k' v'] l IH]; cbn.
  - repeat case_decide; congruence.
  - repeat (case_decide; cbn); try congruence; rewrite ?IH;
      repeat case_decide; congruence.
Qed.

Lemma jlookup_insert_eq m i v : <[i := v]> m !! i = Some v.
Proof. rewrite jlookup_insert. by rewrite decide_True. Qed.

Lemma jlookup_insert_ne m i j v : i <> j -> <[i := v]> m !! j = m !! j.
Proof. intros. rewrite jlookup_insert. by rewrite decide_False. Qed.

Lemma jlookup_delete m i j :
  delete i m !! j = if decide (i = j) then None else m !! j.
Proof.
  destruct m as [l]; unfold delete, jmap_delete, lookup, jmap_lookup; cbn.
  induction l as [|[k' v'] l IH]; cbn.
  - by case_decide.
  - repeat (case_decide; cbn); try congruence; rewrite ?IH;
      repeat case_decide; congruence.
Qed.

Lemma jlookup_delete_eq m i : delete i m !! i = None.
Proof. rewrite jlookup_delete. by rewrite decide_True. Qed.

Lemma jlookup_delete_ne m i j : i <> j -> delete i m !! j = m !! j.
Proof. intros. rewrite jlookup_delete. by rewrite decide_False. Qed.

Lemma jlookup_elem m k v : m !! k = Some v -> (k, v) ∈ jm_entries m.
Proof.
  destruct m as [l]; unfold lookup, jmap_lookup; cbn.
  induction l as [|[k' v'] l IH]; cbn; [done|].
  case_decide; [intros [= ->]; subst; left | right; auto].
Qed.

Lemma jlookup_key m k v : m !! k = Some v -> k ∈ jm_keys m.
Proof. intros H%jlookup_elem. apply list_elem_of_fmap. by exists (k, v). Qed.

Lemma jlookup_None m k : m !! k = None <-> k ∉ jm_keys m.
Proof.
  destruct m as [l]; unfold lookup, jmap_lookup, jm_keys; cbn.
  induction l as [|[k' v'] l IH]; cbn.
  - split; [intros _; apply not_elem_of_nil | done].
  - case_decide; rewrite not_elem_of_cons; [|rewrite IH]; split; (congruence || tauto).
Qed.

Lemma jlookup_Some_key m k : k ∈ jm_keys m <-> m !! k <> None.
Proof.
  destruct (decide (k ∈ jm_keys m)) as [Hk|Hk]; rewrite jlookup_None; [|done].
  split; [by intros _ Hn|done].
Qed.

Lemma jlookup_wf_elem m k v : jm_wf m -> (k, v) ∈ jm_entries m -> m !! k = Some v.
Proof.
  destruct m as [l]; unfold jm_wf, lookup, jmap_lookup, jm_keys; cbn.
  induction l as [|[k' v'] l IH]; cbn; [intros _ []%not_elem_of_nil|].
  rewrite NoDup_cons. intros [Hni Hnd] Hin.
  apply elem_of_cons in Hin as [[= -> ->]|Hin].
  - by rewrite decide_True.
  - rewrite decide_False; [by apply IH|].
    intros ->. apply Hni, list_elem_of_fmap. by exists (k', v).
Qed.

Lemma jm_wf_empty : jm_wf (∅ : jmap K V).
Proof. apply NoDup_nil_2. Qed.

Lemma jm_keys_insert m k v :
  jm_keys (<[k := v]> m) = if decide (k ∈ jm_keys m) then jm_keys m else jm_keys m ++ [k].
Proof.
  destruct m as [l]; unfold insert, jmap_insert, jm_keys; cbn.
  induction l as [|[k' v'] l IH]; cbn.
  - rewrite decide_False; [done|apply not_elem_of_nil].
  - destruct (decide (k = k')) as [->|Hk]; cbn.
    + rewrite decide_True; [done|apply list_elem_of_here].
    + rewrite IH. destruct (decide (k ∈ l.*1)) as [Hin|Hin].
      * rewrite decide_True; [done|by apply list_elem_of_further].
      * rewrite decide_False; [done|]. by intros [->|?]%elem_of_cons.
Qed.

Lemma jm_wf_insert m k v : jm_wf m -> jm_wf (<[k := v]> m).
Proof.
  unfold jm_wf. rewrite jm_keys_insert. case_decide; [done|].
  intros ?. apply NoDup_app. split_and!; [done| |apply NoDup_singleton].
  intros x ? ->%list_elem_of_singleton. done.
Qed.

Lemma jm_keys_delete m k : jm_keys (delete k m) = filter (.≠ k) (jm_keys m).
Proof.
  destruct m as [l]; unfold delete, jmap_delete, jm_keys; cbn.
  induction l as [|[k' v'] l IH]; cbn; [done|].
  destruct (decide (k = k')) as [->|Hk]; case_decide; try congruence; [exact IH|cbn; f_equal; exact IH].
Qed.

Lemma jm_wf_delete m k : jm_wf m -> jm_wf (delete k m).
Proof. unfold jm_wf. rewrite jm_keys_delete. apply NoDup_filter. Qed.

Lemma jlookup_map {W} (f : V -> W) m k : jm_map f m !! k = f <$> (m !! k).
Proof.
  destruct m as [l]; unfold lookup, jmap_lookup; cbn.
  induction l as [|[k' v'] l IH]; cbn; [done|]. by case_decide.
Qed.

Lemma jm_keys_map {W} (f : V -> W) m : jm_keys (jm_map f m) = jm_keys m.
Proof.
  destruct m as [l]; unfold jm_keys; cbn. induction l as [|[? ?] l IH]; cbn; congruence.
Qed.

Lemma jm_wf_map {W} (f : V -> W) m : jm_wf m -> jm_wf (jm_map f m).
Proof. unfold jm_wf. by rewrite jm_keys_map. Qed.

Lemma jm_map_insert {W} (f : V -> W) m k v :
  jm_map f (<[k := v]> m) = <[k := f v]> (jm_map f m).
Proof.
  destruct m as [l]; unfold insert, jmap_insert, jm_map; cbn. f_equal.
  induction l as [|[k' v'] l IH]; cbn; [done|].
  destruct (decide (k = k')); cbn; congruence.
Qed.

Lemma jm_map_delete {W} (f : V -> W) m k : jm_map f (delete k m) = delete k (jm_map f m).
Proof.
  destruct m as [l]; unfold delete, jmap_delete, jm_map; cbn. f_equal.
  induction l as [|[k' v'] l IH]; cbn; [done|].
  destruct (decide (k = k')); cbn; congruence.
Qed.

Lemma jm_insert_id m k v : m !! k = Some v -> <[k := v]> m = m.
Proof.
  destruct m as [l]; unfold insert, jmap_insert, lookup, jmap_lookup; cbn. intros H. f_equal.
  induction l as [|[k' v'] l IH]; cbn in *; [done|].
  destruct (decide (k = k')); [congruence|]. f_equal. auto.
Qed.

Lemma jm_insert_insert m k v w : <[k := v]> (<[k := w]> m) = <[k := v]> m.
Proof.
  destruct m as [l]; unfold insert, jmap_insert; cbn. f_equal.
  induction l as [|[k' v'] l IH]; cbn.
  - by rewrite decide_True.
  - destruct (decide (k = k')) as [->|]; cbn; [by rewrite decide_True|].
    rewrite decide_False by done. by f_equal.
Qed.

Lemma jm_values_elem m v : v ∈ jm_values m <-> exists k, (k, v) ∈ jm_entries m.
Proof.
  unfold jm_values. rewrite list_elem_of_fmap. split.
  - intros ([k v'] & -> & H). by exists k.
  - intros [k H]. by exists (k, v).
Qed.

(** Deleting a list of keys, one after the other. *)
Definition jm_delete_all (ks : list K) m : jmap K V := foldl (fun d k => delete k d) m ks.

Lemma jlookup_delete_all ks m k :
  jm_delete_all ks m !! k = if decide (k ∈ ks) then None else m !! k.
Proof.
  unfold jm_delete_all. revert m. induction ks as [|k' ks IH]; intros m; cbn.
  - by rewrite decide_False by apply not_elem_of_nil.
  - rewrite IH, jlookup_delete. repeat case_decide; rewrite ?elem_of_cons in *; try done; exfalso; intuition congruence.
Qed.

Lemma jm_wf_delete_all ks m : jm_wf m -> jm_wf (jm_delete_all ks m).
Proof.
  unfold jm_delete_all. revert m. induction ks as [|k' ks IH]; intros m; cbn; [done|].
  intros. by apply IH, jm_wf_delete.
Qed.
End jmap_lemmas.

#[global] Arguments jm_values : simpl never.
#[global] Arguments jm_keys : simpl never.

Lemma jm_map_delete_all {K V W} `{EqDecision K} (f : V -> W) ks (m : jmap K V) :
  jm_map f (jm_delete_all ks m) = jm_delete_all ks (jm_map f m).
Proof.
  unfold jm_delete_all. revert m. induction ks as [|k ks IH]; intros m; cbn; [done|].
  by rewrite IH, jm_map_delete.
Qed.

(** How many values of a map a test selects. *)
Definition jm_count {K V} (P : V -> bool) (m : jmap K V) : Z :=
  Z.of_nat (length (List.filter P (jm_values m))).

Section counting.
Context {K V : Type} `{EqDecision K} (P : V -> bool).
Implicit Types m : jmap K V.

Lemma jm_count_insert m k w :
  jm_count P (<[k := w]> m) =
    jm_count P m - from_option (fun v => Z.b2z (P v)) 0 (m !! k) + Z.b2z (P w).
Proof.
  destruct m as [l]. unfold jm_count, jm_values, lookup, jmap_lookup, insert, jmap_insert. cbn [jm_entries].
  induction l as [|[k' v'] l IH]; cbn [alist_set alist_get].
  - cbn. destruct (P w); cbn; lia.
  - case_decide as Hk; cbn [fmap list_fmap snd List.filter from_option].
    + destruct (P v'), (P w); cbn [length Z.b2z]; lia.
    + destruct (P v'); cbn [length]; cbn in IH; lia.
Qed.

Lemma jm_count_delete m k :
  jm_wf m ->
  jm_count P (delete k m) = jm_count P m - from_option (fun v => Z.b2z (P v)) 0 (m !! k).
Proof.
  destruct m as [l]. unfold jm_wf, jm_count, jm_keys, jm_values, lookup, jmap_lookup, delete, jmap_delete.
  cbn [jm_entries].
  induction l as [|[k' v'] l IH]; cbn [alist_del alist_get]; [done|].
  intros [Hn Hd]%NoDup_cons. specialize (IH Hd).
  case_decide as Hk; cbn [fmap list_fmap snd List.filter from_option].
  - subst k'. apply (jlookup_None (JMap l)) in Hn. unfold lookup, jmap_lookup in Hn. cbn in Hn.
    rewrite Hn in IH. cbn [from_option] in IH. destruct (P v'); cbn [length Z.b2z]; lia.
  - destruct (P v'); cbn [length]; cbn in IH; lia.
Qed.

Lemma jm_count_nonneg m : 0 <= jm_count P m.
Proof. unfold jm_count. lia. Qed.
End counting.

Create HintDb promin.
Create Rewrite HintDb promin.
#[export] Hint Resolve jm_wf_empty jm_wf_insert jm_wf_delete jm_wf_map : promin.
#[export] Hint Rewrite @jlookup_empty @jlookup_insert_eq @jlookup_delete_eq : promin.

(** Normalise lookups in updated maps and split on key equality. *)
Ltac jmap_simp :=
  repeat match goal with
  | _ => progress autorewrite with promin in *
  | H : context [ (<[_ := _]> _) !! _ ] |- _ =>
      rewrite jlookup_insert in H; case_decide; simplify_eq
  | |- context [ (<[_ := _]> _) !! _ ] =>
      rewrite jlookup_insert; case_decide; simplify_eq
  | H : context [ delete _ _ !! _ ] |- _ =>
      rewrite jlookup_delete in H; case_decide; simplify_eq
  | |- context [ delete _ _ !! _ ] =>
      rewrite jlookup_delete; case_decide; simplify_eq
  end.

(** ** Array.prototype.sort

    A comparator answers a number; the array is sorted stably. The result is
    specified by the language only for a consistent comparator, which the
    class below states; [jsort] is then the stable sort. *)
Class ConsistentCmp {A} (cmp : A -> A -> Z) : Prop := {
  cmp_antisym : forall x y, cmp x y <= 0 \/ cmp y x <= 0;
  cmp_trans : forall x y z, cmp x y <= 0 -> cmp y z <= 0 -> cmp x z <= 0;
}.

Section jsort.
Context {A : Type} (cmp : A -> A -> Z).

Fixpoint jinsert (x : A) (l : list A) : list A :=
  match l with
  | [] => [x]
  | y :: l' => if bool_decide (cmp x y <= 0) then x :: l else y :: jinsert x l'
  end.

Fixpoint jsort (l : list A) : list A :=
  match l with
  | [] => []
  | x :: l' => jinsert x (jsort l')
  end.

Definition cmp_le (x y : A) : Prop := cmp x y <= 0.

Lemma jinsert_perm x l : jinsert x l ≡ₚ x :: l.
Proof.
  induction l as [|y l IH]; cbn; [done|]. case_bool_decide; [done|].
  rewrite IH. apply Permutation_swap.
Qed.

Lemma jsort_perm l : jsort l ≡ₚ l.
Proof. induction l as [|x l IH]; cbn; [done|]. by rewrite jinsert_perm, IH. Qed.

Lemma jsort_length l : length (jsort l) = length l.
Proof. by rewrite (Permutation_length (jsort_perm l)). Qed.

Lemma elem_of_jsort x l : x ∈ jsort l <-> x ∈ l.
Proof. by rewrite (jsort_perm l). Qed.

Context `{!ConsistentCmp cmp}.

Lemma jinsert_sorted x l :
  StronglySorted cmp_le l -> StronglySorted cmp_le (jinsert x l).
Proof.
  induction l as [|y l IH]; cbn; intros Hs.
  - repeat constructor.
  - apply StronglySorted_inv in Hs as [Hs Hy]. case_bool_decide as Hc.
    + constructor; [by constructor|]. constructor; [exact Hc|].
      eapply Forall_impl; [exact Hy|]. intros z Hz. eapply cmp_trans; [exact Hc|exact Hz].
    + constructor; [by apply IH|]. rewrite jinsert_perm. constructor; [|done].
      destruct (cmp_antisym x y); [done|done].
Qed.

Lemma jsort_sorted l : StronglySorted cmp_le (jsort l).
Proof. induction l; cbn; [constructor|by apply jinsert_sorted]. Qed.

(** Stability: two elements that compare equal keep their order. *)
Lemma jinsert_stable (P : A -> Prop) `{forall x, Decision (P x)} x l :
  (forall y, P x -> P y -> cmp x y <= 0) ->
  filter P (jinsert x l) = filter P (x :: l).
Proof.
  intros Heq. induction l as [|y l IH]; [done|]. cbn [jinsert].
  case_bool_decide as Hc; [done|].
  rewrite (filter_cons P y (jinsert x l)), IH, !filter_cons.
  destruct (decide (P x)), (decide (P y)); try done.
  destruct Hc. by apply Heq.
Qed.

Lemma jsort_stable (P : A -> Prop) `{forall x, Decision (P x)} l :
  (forall x y, P x -> P y -> cmp x y <= 0) ->
  filter P (jsort l) = filter P l.
Proof.
  intros Heq. induction l as [|x l IH]; [done|]. cbn [jsort].
  rewrite jinsert_stable by auto. rewrite !filter_cons, IH. done.
Qed.
End jsort.

Lemma NoDup_fmap_finer {A B C} (f : A -> B) (g : A -> C) l :
  (forall x y, g x = g y -> f x = f y) -> NoDup (f <$> l) -> NoDup (g <$> l).
Proof.
  intros Hfg. induction l as [|x l IH]; [intros; apply NoDup_nil_2|]. rewrite !fmap_cons, !NoDup_cons.
  intros [Hx Hl]. split; [|by apply IH]. intros (y & Hy & Hin)%list_elem_of_fmap.
  apply Hx. rewrite (Hfg _ _ Hy). by apply list_elem_of_fmap_2.
Qed.

(** Sorted lists under sublists and element-wise maps. *)
Lemma StronglySorted_sublist {A} (R : A -> A -> Prop) l l' :
  sublist l l' -> StronglySorted R l' -> StronglySorted R l.
Proof.
  induction 1 as [|x l l' Hs IH|x l l' Hs IH]; intros H; [done|apply StronglySorted_inv in H as [H Hx]..].
  - constructor; [by apply IH|]. rewrite Forall_forall in Hx |- *. intros y Hy. by eapply Hx, elem_of_sublist.
  - by apply IH.
Qed.

Lemma StronglySorted_Forall2 {A B} (R : A -> A -> Prop) (R' : B -> B -> Prop) (S : A -> B -> Prop) l l' :
  (forall a a' b b', S a b -> S a' b' -> R a a' -> R' b b') ->
  Forall2 S l l' -> StronglySorted R l -> StronglySorted R' l'.
Proof.
  intros HR. induction 1 as [|a b l l' Hab Hl IH]; intros H; [constructor|].
  apply StronglySorted_inv in H as [H Hx]. constructor; [by apply IH|].
  apply Forall_forall. intros b' Hb'. apply list_elem_of_lookup in Hb' as [i Hi].
  destruct (Forall2_lookup_r _ _ _ _ _ Hl Hi) as (a' & Ha' & Hs').
  rewrite Forall_forall in Hx. eapply HR; [exact Hab|exact Hs'|]. eapply Hx, list_elem_of_lookup_2, Ha'.
Qed.

#[export] Hint Resolve jsort_perm jsort_sorted : promin.

(** Code-unit order of strings, as [a < b ? -1 : a > b ? 1 : 0]. *)
Definition string_cmp (a b : string) : Z :=
  match String.compare a b with Lt => -1 | Eq => 0 | Gt => 1 end.

Definition string_ltb (a b : string) : bool := bool_decide (string_cmp a b = -1).

Definition num_cmp (a b : Z) : Z := a - b.

#[global] Instance num_cmp_consistent : ConsistentCmp num_cmp.
Proof. unfold num_cmp. split; intros; lia. Qed.

Lemma ascii_compare_N a b : Ascii.compare a b = N.compare (Ascii.N_of_ascii a) (Ascii.N_of_ascii b).
Proof. reflexivity. Qed.

Lemma string_compare_refl a : String.compare a a = Eq.
Proof.
  induction a as [|x a IH]; [done|]. cbn. rewrite ascii_compare_N, N.compare_refl. exact IH.
Qed.

Lemma string_cmp_refl a : string_cmp a a = 0.
Proof. unfold string_cmp. by rewrite string_compare_refl.
Qed.

Lemma string_cmp_sym a b : string_cmp b a = - string_cmp a b.
Proof.
  unfold string_cmp. rewrite (String.compare_antisym a b). by destruct (String.compare b a).
Qed.

Lemma string_cmp_eq a b : string_cmp a b = 0 <-> a = b.
Proof.
  split; [|intros ->; apply string_cmp_refl].
  unfold string_cmp. destruct (String.compare a b) eqn:E; try done.
  intros _. by apply String.compare_eq_iff.
Qed.

(** Sorted by the name, and no name twice: strictly in order. *)
Lemma sorted_strict {A} (f : A -> string) l :
  StronglySorted (cmp_le (fun a b => string_cmp (f a) (f b))) l -> NoDup (f <$> l) ->
  StronglySorted (fun a b => string_cmp (f a) (f b) < 0) l.
Proof.
  induction l as [|a l IH]; [constructor|]. intros [Hs Hall]%StronglySorted_inv [Hni Hnd]%NoDup_cons.
  constructor; [by apply IH|]. rewrite Forall_forall in Hall |- *. intros b Hb. specialize (Hall b Hb).
  unfold cmp_le in Hall. destruct (decide (string_cmp (f a) (f b) = 0)) as [Hz|]; [|lia].
  apply string_cmp_eq in Hz. destruct Hni. rewrite Hz. by apply list_elem_of_fmap_2.
Qed.

Lemma string_cmp_cons x a y b :
  string_cmp (String x a) (String y b) =
    match N.compare (Ascii.N_of_ascii x) (Ascii.N_of_ascii y) with
    | Lt => -1 | Gt => 1 | Eq => string_cmp a b end.
Proof.
  unfold string_cmp. cbn [String.compare]. rewrite ascii_compare_N.
  by destruct (N.compare _ _).
Qed.

Lemma string_cmp_range a b : string_cmp a b = -1 \/ string_cmp a b = 0 \/ string_cmp a b = 1.
Proof. unfold string_cmp. destruct (String.compare a b); auto. Qed.

Lemma string_cmp_trans a b c :
  string_cmp a b <= 0 -> string_cmp b c <= 0 -> string_cmp a c <= 0.
Proof.
  revert b c. induction a as [|x a IH]; intros [|y b] [|z c]; try (unfold string_cmp; cbn; lia).
  rewrite !string_cmp_cons.
  destruct (N.compare_spec (Ascii.N_of_ascii x) (Ascii.N_of_ascii y)) as [H1|H1|H1];
  destruct (N.compare_spec (Ascii.N_of_ascii y) (Ascii.N_of_ascii z)) as [H2|H2|H2];
  destruct (N.compare_spec (Ascii.N_of_ascii x) (Ascii.N_of_ascii z)) as [H3|H3|H3];
    try lia; eauto.
Qed.

#[global] Instance string_cmp_consistent : ConsistentCmp string_cmp.
Proof.
  split; [|apply string_cmp_trans].
  intros x y. rewrite (string_cmp_sym x y). lia.
Qed.

(** A comparator that looks at a key of its arguments. *)
#[global] Instance cmp_on_consistent {A B} (f : A -> B) (cmp : B -> B -> Z) :
  ConsistentCmp cmp -> ConsistentCmp (fun x y => cmp (f x) (f y)).
Proof. intros [Ha Ht]. split; [intros; apply Ha | intros x y z; apply Ht]. Qed.

(** [cmp1(a, b) || cmp2(a, b)]: the second decides the ties of the first. *)
Definition cmp_or {A} (c1 c2 : A -> A -> Z) (x y : A) : Z :=
  if bool_decide (c1 x y = 0) then c2 x y else c1 x y.

(** ** Array.prototype.slice, with its relative (negative) indices *)
Definition rel_index (len i : Z) : Z := if i <? 0 then Z.max (len + i) 0 else Z.min i len.

Definition js_slice {A} (l : list A) (from : Z) (to : option Z) : list A :=
  let len := Z.of_nat (length l) in
  let f := rel_index len from in
  let t := match to with None => len | Some z => rel_index len z end in
  take (Z.to_nat (t - f)) (drop (Z.to_nat f) l).

Lemma js_slice_all {A} (l : list A) : js_slice l 0 None = l.
Proof.
  unfold js_slice, rel_index; cbn. rewrite Z.min_l by lia. cbn.
  rewrite drop_0. apply take_ge. lia.
Qed.

Lemma js_slice_length_le {A} (l : list A) (limit : Z) :
  0 <= limit -> Z.of_nat (length (js_slice l 0 (Some limit))) <= limit.
Proof. intros. unfold js_slice, rel_index. rewrite length_take. repeat case_match; lia. Qed.

Lemma js_slice_take {A} (l : list A) (n : nat) : js_slice l 0 (Some (Z.of_nat n)) = take n l.
Proof.
  unfold js_slice, rel_index. cbn [Z.ltb Z.compare].
  rewrite (Z.min_l 0) by lia. cbn [Z.to_nat drop].
  destruct (Z.ltb_spec (Z.of_nat n) 0); [lia|].
  destruct (decide (n <= length l)%nat).
  - rewrite Z.min_l by lia. f_equal. lia.
  - rewrite Z.min_r by lia. rewrite Z.sub_0_r, Nat2Z.id, (take_ge l n) by lia. by rewrite take_ge by done.
Qed.

(** ** Small helpers of the source language *)

(** Truthiness of an optional string: [undefined] and the empty string fail. *)
Definition truthy_str (o : option string) : bool :=
  match o with Some s => negb (bool_decide (s = ""%string)) | None => false end.

Definition opt_or {A} (o : option A) (d : A) : A := from_option id d o.

(** [a ?? b] on two optional values. *)
Definition opt_else {A} (o d : option A) : option A :=
  match o with Some _ => o | None => d end.

Lemma opt_else_None {A} (o d : option A) : opt_else o d = None -> d = None.
Proof. by destruct o. Qed.

Lemma filter_all {A} (P : A -> Prop) `{forall x, Decision (P x)} (l : list A) : Forall P l -> filter P l = l.
Proof. induction 1 as [|x l Hx _ IH]; [done|]. by rewrite filter_cons_True, IH. Qed.

Lemma filter_ext_elem {A} (P Q : A -> Prop) `{forall x, Decision (P x)} `{forall x, Decision (Q x)} (l : list A) :
  (forall x, x ∈ l -> P x <-> Q x) -> base.filter P l = base.filter Q l.
Proof.
  induction l as [|x l IH]; intros Hl; [done|]. pose proof (Hl x ltac:(left)) as Hx.
  rewrite !filter_cons. rewrite IH by (intros y Hy; apply Hl; by right). repeat case_decide; tauto.
Qed.

(** [Set.prototype.add] on an insertion-ordered set. *)
Definition set_add {A} `{EqDecision A} (x : A) (s : list A) : list A :=
  if bool_decide (x ∈ s) then s else s ++ [x].

Definition set_remove {A} `{EqDecision A} (x : A) (s : list A) : list A :=
  filter (fun y => y <> x) s.

Lemma elem_of_set_add {A} `{EqDecision A} (x y : A) s : y ∈ set_add x s <-> y = x \/ y ∈ s.
Proof.
  unfold set_add. case_bool_decide as Hx.
  - split; [auto|intros [->|]; done].
  - rewrite elem_of_app, list_elem_of_singleton. tauto.
Qed.

Lemma NoDup_set_add {A} `{EqDecision A} (x : A) s : NoDup s -> NoDup (set_add x s).
Proof.
  unfold set_add. case_bool_decide; [done|]. intros.
  apply NoDup_app. split_and!; [done| |apply NoDup_singleton].
  by intros y ? ->%list_elem_of_singleton.
Qed.

Lemma elem_of_set_remove {A} `{EqDecision A} (x y : A) s : y ∈ set_remove x s <-> y <> x /\ y ∈ s.
Proof. unfold set_remove. by rewrite list_elem_of_filter. Qed.

Definition str_of_Z (z : Z) : string := pretty z.

#[global] Instance str_of_Z_inj : Inj (=) (=) str_of_Z.
Proof. apply _. Qed.

(** ** Decimal printing of integers *)
Abbreviation ascii := Ascii.ascii.
Open Scope string_scope.
Open Scope list_scope.
Open Scope Z_scope.

Definition is_digit (c : ascii) : bool :=
  (48 <=? Z.of_N (Ascii.N_of_ascii c)) && (Z.of_N (Ascii.N_of_ascii c) <=? 57).

Fixpoint string_forallb (p : ascii -> bool) (s : string) : bool :=
  match s with EmptyString => true | String c s' => p c && string_forallb p s' end.

Lemma string_app_nil (b : string) : "" +:+ b = b.
Proof. reflexivity. Qed.

Lemma string_app_cons x (a b : string) : String x a +:+ b = String x (a +:+ b).
Proof. reflexivity. Qed.

Create Rewrite HintDb str.
#[export] Hint Rewrite string_app_nil string_app_cons : str.

Lemma string_app_assoc (a b c : string) : (a +:+ b) +:+ c = a +:+ (b +:+ c).
Proof. induction a as [|x a IH]; autorewrite with str; congruence. Qed.

Lemma string_app_nil_r (a : string) : a +:+ "" = a.
Proof. induction a as [|x a IH]; autorewrite with str; congruence. Qed.

Lemma string_forallb_app p (a b : string) :
  string_forallb p (a +:+ b) = string_forallb p a && string_forallb p b.
Proof.
  induction a as [|x a IH]; autorewrite with str; cbn; [done|]. by rewrite IH, andb_assoc.
Qed.

Lemma string_app_inj_l (a b c : string) : a +:+ b = a +:+ c -> b = c.
Proof. induction a as [|x a IH]; autorewrite with str; [done|]. intros [= ?]; auto. Qed.

Lemma pretty_N_char_digit x : (x < 10)%N -> is_digit (pretty_N_char x) = true.
Proof.
  intros. assert (x = 0 \/ x = 1 \/ x = 2 \/ x = 3 \/ x = 4 \/ x = 5 \/ x = 6 \/ x = 7
    \/ x = 8 \/ x = 9)%N as Hx by lia.
  by repeat (destruct Hx as [->|Hx]); subst.
Qed.

Lemma pretty_N_go_digits x s :
  exists d, pretty_N_go x s = d +:+ s /\ string_forallb is_digit d = true /\
    ((0 < x)%N -> d <> "").
Proof.
  revert s. induction (N.lt_wf_0 x) as [x _ IH]; intros s.
  assert (x = 0 \/ 0 < x)%N as [->|Hx] by lia.
  { exists ""%string. split_and!; [done..|intros; lia]. }
  rewrite pretty_N_go_step by done.
  assert (x `div` 10 < x)%N as Hlt by (apply N.div_lt; lia).
  set (c := pretty_N_char (x `mod` 10)).
  destruct (IH _ Hlt (String c s)) as (d & -> & Hd & _).
  exists (d +:+ String c ""). split_and!.
  - by rewrite string_app_assoc.
  - rewrite string_forallb_app, Hd; cbn. subst c. by rewrite pretty_N_char_digit by (by apply N.mod_lt).
  - intros _. by destruct d.
Qed.

Lemma pretty_pos_digits (p : positive) :
  string_forallb is_digit (pretty p) = true /\ pretty p <> ""%string.
Proof.
  change (pretty p) with (pretty_N_go (Npos p) "").
  destruct (pretty_N_go_digits (Npos p) "") as (d & -> & Hd & Hne).
  rewrite string_app_nil_r. split; [done|]. apply Hne. lia.
Qed.

Lemma str_of_Z_nonempty z : str_of_Z z <> ""%string.
Proof.
  unfold str_of_Z. destruct z as [|p|p]; [done| |done]. apply (pretty_pos_digits p).
Qed.

(** The text of an integer uses digits and at most a leading minus sign. *)
Definition is_num_char (c : ascii) : bool := is_digit c || (Ascii.N_of_ascii c =? 45)%N.

Lemma string_forallb_impl (p q : ascii -> bool) s :
  (forall c, p c = true -> q c = true) -> string_forallb p s = true -> string_forallb q s = true.
Proof.
  intros Hpq. induction s as [|c s IH]; cbn; [done|].
  intros [Hc Hs]%andb_true_iff. by rewrite Hpq, IH.
Qed.

Lemma str_of_Z_chars z : string_forallb is_num_char (str_of_Z z) = true.
Proof.
  unfold str_of_Z. destruct z as [|p|p]; [done| |].
  - eapply string_forallb_impl; [|apply (pretty_pos_digits p)].
    intros c Hc. unfold is_num_char. by rewrite Hc.
  - change (string_forallb is_num_char (pretty p) = true).
    eapply string_forallb_impl; [|apply (pretty_pos_digits p)].
    intros c Hc. unfold is_num_char. by rewrite Hc.
Qed.

(** Two texts separated from what follows by a character neither contains
    are equal when the whole texts are. *)
Lemma string_split_unique (p : ascii -> bool) (a b r s : string) :
  string_forallb p a = true -> string_forallb p b = true ->
  match r with EmptyString => True | String c _ => p c = false end ->
  match s with EmptyString => True | String c _ => p c = false end ->
  a +:+ r = b +:+ s -> a = b /\ r = s.
Proof.
  revert b. induction a as [|x a IH]; intros [|y b]; autorewrite with str; cbn.
  - done.
  - intros _ [Hy _]%andb_true_iff Hr _ ->. congruence.
  - intros [Hx _]%andb_true_iff _ _ Hs <-. congruence.
  - intros [_ Ha]%andb_true_iff [_ Hb]%andb_true_iff Hr Hs [= -> H].
    destruct (IH b Ha Hb Hr Hs H) as [-> ->]. done.
Qed.
