(* ===== verification/Leases.v ===== *)
(** Run locks with monotonic fence tokens: [in-memory/lease-table.ts] and the
    fencing contract of [storage/fencing.ts].

    A table is a map from workflow id to lease plus the token counter. Each
    method is one synchronous block, so it reads the clock once: [now]. *)
From S2P Require Import Prelude.
Open Scope string_scope.
Open Scope list_scope.
Open Scope Z_scope.

(** Errors the in-memory stores throw. *)
Record LeaderLease : Type := mkLeaderLease {
  ll_key : string;
  ll_instanceId : string;
  ll_epoch : Z;
}.

Inductive StoreError : Type :=
| FenceTokenMismatchError (workflowId expected provided message : string)
| StaleLeaseError (lease : LeaderLease) (currentEpoch : option Z)
| JsError (message : string).

Definition dquote : string := String (Ascii.ascii_of_nat 34) "".
Definition quoted (s : string) : string := dquote +:+ s +:+ dquote.

(** [FenceGuard]; a method's [guard] field is an optional one. *)
Record FenceGuard : Type := mkFenceGuard { fenceToken : option string }.

(** [guard?.fenceToken] when it is truthy: the token of a fenced call. *)
Definition guard_token (guard : option FenceGuard) : option string :=
  match guard with
  | Some g => if truthy_str (fenceToken g) then fenceToken g else None
  | None => None
  end.

Record Lease : Type := mkLease {
  expiresAt : Z;
  lockedBy : string;
  token : string;
  attemptId : option string;
}.

Record InMemoryLeaseTable : Type := mkLeaseTable {
  leases : jmap string Lease;
  nextFenceToken : Z;
  lt_instanceId : string;
}.

Definition new_lease_table (instanceId : string) : InMemoryLeaseTable :=
  {| leases := ∅; nextFenceToken := 1; lt_instanceId := instanceId |}.

Definition with_leases (t : InMemoryLeaseTable) (m : jmap string Lease) : InMemoryLeaseTable :=
  {| leases := m; nextFenceToken := nextFenceToken t; lt_instanceId := lt_instanceId t |}.

Record TryLockResult : Type := mkTryLock {
  acquired : bool;
  tl_token : option string;
}.

Definition tryAcquire (now : Z) (workflowId : string) (lockDurationMs : Z)
    (attempt : option string) (t : InMemoryLeaseTable) : TryLockResult * InMemoryLeaseTable :=
  let fresh :=
    let tok := str_of_Z (nextFenceToken t) in
    (mkTryLock true (Some tok),
     {| leases := <[workflowId := mkLease (now + lockDurationMs) (lt_instanceId t) tok attempt]>
                    (leases t);
        nextFenceToken := nextFenceToken t + 1;
        lt_instanceId := lt_instanceId t |}) in
  match leases t !! workflowId with
  | Some lease =>
      if expiresAt lease >? now then
        if bool_decide (attempt <> None) && bool_decide (attemptId lease = attempt)
        then (mkTryLock true (Some (token lease)), t)
        else (mkTryLock false None, t)
      else fresh
  | None => fresh
  end.

Definition release (workflowId : string) (guard : option FenceGuard)
    (t : InMemoryLeaseTable) : InMemoryLeaseTable :=
  match leases t !! workflowId with
  | None => t
  | Some lease =>
      let drop := with_leases t (delete workflowId (leases t)) in
      match guard_token guard with
      | Some tok => if bool_decide (token lease = tok) then drop else t
      | None => if bool_decide (lockedBy lease = lt_instanceId t) then drop else t
      end
  end.

Definition fence_error (workflowId expected provided why : string) : StoreError :=
  FenceTokenMismatchError workflowId expected provided
    ("Fenced write for " +:+ quoted workflowId +:+ " rejected — " +:+ why).

(** [checkFence]: a write without a token is unfenced. *)
Definition checkFence (now : Z) (workflowId : string) (guard : option FenceGuard)
    (t : InMemoryLeaseTable) : res StoreError unit :=
  match guard_token guard with
  | None => Ok tt
  | Some tok =>
      match leases t !! workflowId with
      | None => Err (fence_error workflowId "(no lock)" tok "no active lock")
      | Some lease =>
          if bool_decide (token lease <> tok) then
            Err (fence_error workflowId (token lease) tok
                   ("token mismatch (expected " +:+ quoted (token lease) +:+ ", got "
                      +:+ quoted tok +:+ ")"))
          else if expiresAt lease <=? now then
            Err (fence_error workflowId "(expired)" tok
                   ("the lock for token " +:+ quoted tok +:+ " expired"))
          else Ok tt
      end
  end.

Definition extend (now : Z) (workflowId : string) (lockDurationMs : Z)
    (guard : option FenceGuard) (t : InMemoryLeaseTable)
    : res StoreError unit * InMemoryLeaseTable :=
  match checkFence now workflowId guard t with
  | Err e => (Err e, t)
  | Ok _ =>
      match leases t !! workflowId with
      | None => (Ok tt, t)
      | Some lease =>
          if bool_decide (guard_token guard = None) && bool_decide (lockedBy lease <> lt_instanceId t)
          then (Ok tt, t)
          else (Ok tt, with_leases t
                  (<[workflowId := mkLease (now + lockDurationMs) (lockedBy lease)
                                     (token lease) (attemptId lease)]> (leases t)))
      end
  end.

Definition isHeld (workflowId : string) (nowMs : Z) (t : InMemoryLeaseTable) : bool :=
  match leases t !! workflowId with
  | Some lease => expiresAt lease >? nowMs
  | None => false
  end.

Definition forget (workflowId : string) (t : InMemoryLeaseTable) : InMemoryLeaseTable :=
  with_leases t (delete workflowId (leases t)).

Definition clear (t : InMemoryLeaseTable) : InMemoryLeaseTable := with_leases t ∅.

(** *** Calls on a table, as a step relation *)
Inductive lease_op : Type :=
| OpAcquire (workflowId : string) (lockDurationMs : Z) (attempt : option string)
| OpRelease (workflowId : string) (guard : option FenceGuard)
| OpExtend (workflowId : string) (lockDurationMs : Z) (guard : option FenceGuard)
| OpForget (workflowId : string)
| OpClear.

Definition run_lease_op (now : Z) (op : lease_op) (t : InMemoryLeaseTable) : InMemoryLeaseTable :=
  match op with
  | OpAcquire w d a => (tryAcquire now w d a t).2
  | OpRelease w g => release w g t
  | OpExtend w d g => (extend now w d g t).2
  | OpForget w => forget w t
  | OpClear => clear t
  end.

(** A schedule is a list of calls, each with the clock reading it sees. The
    readings need not be ordered: every safety result below holds for a clock
    that jumps. *)
Definition run_lease_ops : list (Z * lease_op) -> InMemoryLeaseTable -> InMemoryLeaseTable :=
  run_ops run_lease_op.

(** The invariant: every live token was minted by the counter, and no two
    workflows share one. *)
Record lease_inv (t : InMemoryLeaseTable) : Prop := {
  li_counter : 1 <= nextFenceToken t;
  li_minted : forall w l, leases t !! w = Some l ->
      exists n, token l = str_of_Z n /\ 1 <= n < nextFenceToken t;
  li_unique : forall w1 w2 l1 l2, leases t !! w1 = Some l1 -> leases t !! w2 = Some l2 ->
      token l1 = token l2 -> w1 = w2;
  li_owner : forall w l, leases t !! w = Some l -> lockedBy l = lt_instanceId t;
}.

Lemma str_of_Z_truthy n : truthy_str (Some (str_of_Z n)) = true.
Proof.
  unfold truthy_str. rewrite bool_decide_false; [done|apply str_of_Z_nonempty].
Qed.

(** *** Functional behaviour *)
Lemma guard_token_str n : guard_token (Some (mkFenceGuard (Some (str_of_Z n)))) = Some (str_of_Z n).
Proof. unfold guard_token. cbn [fenceToken]. by rewrite str_of_Z_truthy. Qed.

(** A fenced write passes exactly when its token is the current lease's and
    that lease has not expired. *)
Lemma checkFence_ok now w g t :
  checkFence now w g t = Ok tt <->
    guard_token g = None \/
    exists tok l, guard_token g = Some tok /\ leases t !! w = Some l /\ token l = tok /\
      now < expiresAt l.
Proof.
  unfold checkFence. destruct (guard_token g) as [tok|]; [|by split; [left|]].
  destruct (leases t !! w) as [l|]; [|by split; [|intros [|(?&?&?&?&_)]]].
  case_bool_decide as Ht; [split; [done|]|].
  { intros [|(?&?&[=]&[=]&?&_)]; [done|]. subst. done. }
  destruct (Z.leb_spec (expiresAt l) now).
  - split; [done|]. intros [|(?&?&[=]&[=]&?&?)]; [done|]. subst. lia.
  - split; [|done]. intros _. right. exists tok, l. split_and!; done.
Qed.

Lemma checkFence_err now w g t e :
  checkFence now w g t = Err e -> exists expected provided m,
    e = FenceTokenMismatchError w expected provided m /\ guard_token g = Some provided.
Proof.
  unfold checkFence, fence_error. intros H. repeat case_match; naive_solver.
Qed.

Lemma tryAcquire_held now w d a t l :
  leases t !! w = Some l -> now < expiresAt l ->
  (tryAcquire now w d a t).2 = t.
Proof.
  intros Hl Hn. unfold tryAcquire. rewrite Hl.
  destruct (Z.gtb_spec (expiresAt l) now); [|lia]. by case_match.
Qed.

Lemma tryAcquire_free now w d a t :
  (forall l, leases t !! w = Some l -> expiresAt l <= now) ->
  tryAcquire now w d a t =
    (mkTryLock true (Some (str_of_Z (nextFenceToken t))),
     mkLeaseTable (<[w := mkLease (now + d) (lt_instanceId t) (str_of_Z (nextFenceToken t)) a]>
                     (leases t)) (nextFenceToken t + 1) (lt_instanceId t)).
Proof.
  intros Hf. unfold tryAcquire. destruct (leases t !! w) as [l|] eqn:E; [|done].
  specialize (Hf l eq_refl). by destruct (Z.gtb_spec (expiresAt l) now); [lia|].
Qed.

Lemma tryAcquire_cases now w d a t :
  (tryAcquire now w d a t).2 = t \/
  tryAcquire now w d a t =
    (mkTryLock true (Some (str_of_Z (nextFenceToken t))),
     mkLeaseTable (<[w := mkLease (now + d) (lt_instanceId t) (str_of_Z (nextFenceToken t)) a]>
                     (leases t)) (nextFenceToken t + 1) (lt_instanceId t)).
Proof.
  unfold tryAcquire. destruct (leases t !! w); [|by right].
  case_match; [by left; case_match|by right].
Qed.

(** [release], [forget] and [clear] only drop leases; [extend] only moves an
    expiry. *)
Definition lease_same_token (l l' : Lease) : Prop :=
  token l = token l' /\ lockedBy l = lockedBy l' /\ attemptId l = attemptId l'.

Lemma extend_lookup now w d g t w' l :
  leases (extend now w d g t).2 !! w' = Some l ->
  exists l0, leases t !! w' = Some l0 /\ lease_same_token l0 l /\
    (w <> w' -> l0 = l).
Proof.
  unfold extend. intros H.
  destruct (checkFence now w g t); [|by exists l]; cbn in H.
  destruct (leases t !! w) as [l1|] eqn:E; [|by exists l].
  case_match; cbn in H; [by exists l|].
  rewrite jlookup_insert in H. case_decide; simplify_eq; [|by exists l].
  exists l1. by split_and!.
Qed.

Lemma release_lookup w g t w' l :
  leases (release w g t) !! w' = Some l -> leases t !! w' = Some l.
Proof.
  unfold release. intros H. repeat case_match; cbn in H; try done;
    rewrite jlookup_delete in H; by case_decide.
Qed.

(** What any one call can leave at a workflow: the lease it had, with at most
    its expiry moved, or a fresh lease under the next token. *)
Lemma run_lease_op_lookup now op t w l :
  leases (run_lease_op now op t) !! w = Some l ->
  (exists l0, leases t !! w = Some l0 /\ lease_same_token l0 l) \/
  (token l = str_of_Z (nextFenceToken t) /\ lockedBy l = lt_instanceId t /\
   nextFenceToken (run_lease_op now op t) = nextFenceToken t + 1 /\
   exists d a, op = OpAcquire w d a).
Proof.
  intros H. destruct op as [w' d a|w' g|w' d g|w'|]; cbn in *.
  - destruct (tryAcquire_cases now w' d a t) as [E|E]; rewrite E in H |- *.
    { left. by exists l. }
    cbn in H |- *. rewrite jlookup_insert in H. case_decide; simplify_eq.
    + right. split_and!; [done..|]. by exists d, a.
    + left. by exists l.
  - left. exists l. split; [|done]. by eapply release_lookup.
  - left. destruct (extend_lookup _ _ _ _ _ _ _ H) as (l0 & ? & ? & _). by exists l0.
  - left. exists l. split; [|done]. rewrite jlookup_delete in H. by case_decide.
  - done.
Qed.

Lemma run_lease_op_counter now op t :
  nextFenceToken t <= nextFenceToken (run_lease_op now op t).
Proof.
  destruct op as [w d a|w g|w d g|w|]; cbn; try lia.
  - destruct (tryAcquire_cases now w d a t) as [-> | ->]; cbn; lia.
  - unfold release. repeat case_match; cbn; lia.
  - unfold extend. repeat case_match; cbn; lia.
Qed.

Lemma run_lease_op_instance now op t :
  lt_instanceId (run_lease_op now op t) = lt_instanceId t.
Proof.
  destruct op as [w d a|w g|w d g|w|]; cbn; try done.
  - by destruct (tryAcquire_cases now w d a t) as [-> | ->].
  - unfold release. by repeat case_match.
  - unfold extend. by repeat case_match.
Qed.

Lemma lease_inv_new i : lease_inv (new_lease_table i).
Proof. by split; cbn. Qed.

Lemma run_lease_op_inv now op t : lease_inv t -> lease_inv (run_lease_op now op t).
Proof.
  intros [Hc Hm Hu Ho]. pose proof (run_lease_op_counter now op t) as Hmono. split.
  - lia.
  - intros w l H%run_lease_op_lookup. destruct H as [(l0 & H0 & Ht & _)|(Ht & _ & Hn & _)].
    + destruct (Hm _ _ H0) as (n & Hn & ?). exists n. rewrite <- Ht. split; [done|lia].
    + exists (nextFenceToken t). split; [done|lia].
  - intros w1 w2 l1 l2 H1%run_lease_op_lookup H2%run_lease_op_lookup Heq.
    destruct H1 as [(l10 & H1 & Ht1 & _)|(Ht1 & _ & Hn1 & d1 & a1 & ->)],
             H2 as [(l20 & H2 & Ht2 & _)|(Ht2 & _ & Hn2 & d2 & a2 & E2)].
    + eapply Hu; [exact H1|exact H2|congruence].
    + destruct (Hm _ _ H1) as (n & Hn & ?).
      assert (str_of_Z n = str_of_Z (nextFenceToken t)) as ?%str_of_Z_inj by congruence. lia.
    + destruct (Hm _ _ H2) as (n & Hn & ?).
      assert (str_of_Z n = str_of_Z (nextFenceToken t)) as ?%str_of_Z_inj by congruence. lia.
    + by injection E2.
  - intros w l H%run_lease_op_lookup. rewrite run_lease_op_instance.
    destruct H as [(l0 & H0 & _ & <- & _)|(_ & -> & _)]; [by eapply Ho|done].
Qed.

Lemma run_lease_ops_inv sched t : lease_inv t -> lease_inv (run_lease_ops sched t).
Proof. apply run_ops_inv_all. intros. by apply run_lease_op_inv. Qed.

(** Token number [n] has been handed out and does not hold [w]. *)
Definition superseded (w : string) (n : Z) (t : InMemoryLeaseTable) : Prop :=
  n < nextFenceToken t /\ forall l, leases t !! w = Some l -> token l <> str_of_Z n.

Lemma run_lease_op_superseded now op t w n :
  superseded w n t -> superseded w n (run_lease_op now op t).
Proof.
  intros [Hn Hw]. split; [pose proof (run_lease_op_counter now op t); lia|].
  intros l H%run_lease_op_lookup. destruct H as [(l0 & H0 & Ht & _)|(-> & _)].
  - rewrite <- Ht. by apply Hw.
  - intros ?%str_of_Z_inj. lia.
Qed.

Lemma run_lease_ops_superseded sched t w n :
  superseded w n t -> superseded w n (run_lease_ops sched t).
Proof. apply (run_ops_inv_all _ (superseded w n)). intros. by apply run_lease_op_superseded. Qed.

Lemma superseded_rejected now w n t :
  superseded w n t ->
  exists e, checkFence now w (Some (mkFenceGuard (Some (str_of_Z n)))) t = Err e.
Proof.
  intros [_ Hw]. destruct (checkFence now w _ t) as [[]|e] eqn:E; [|by exists e].
  apply checkFence_ok in E. rewrite guard_token_str in E.
  destruct E as [|(tok & l & [= <-] & Hl & Ht & _)]; [done|]. by destruct (Hw l Hl).
Qed.

(** Taking over a lock supersedes every earlier token. *)
Lemma acquire_supersedes now w d a t n :
  1 <= n < nextFenceToken t ->
  (tryAcquire now w d a t).1 <> mkTryLock true (Some (str_of_Z n)) ->
  acquired (tryAcquire now w d a t).1 = true ->
  superseded w n (tryAcquire now w d a t).2.
Proof.
  intros Hn Hne Hacq. unfold tryAcquire in *.
  destruct (leases t !! w) as [l|] eqn:E.
  - destruct (expiresAt l >? now); [destruct (_ && _)|]; cbn in *; try done.
    + split; [lia|]. rewrite E. intros ? [= <-] Ht. by rewrite Ht in Hne.
    + split; cbn; [lia|]. rewrite jlookup_insert_eq. intros ? [= <-]; cbn.
      intros ?%str_of_Z_inj. lia.
  - split; cbn in *; [lia|]. rewrite jlookup_insert_eq. intros ? [= <-]; cbn.
    intros ?%str_of_Z_inj. lia.
Qed.

(** C22. Fencing: take a lease table reached from an empty one, and let a
    successful acquire of [w] take over from an earlier holder whose token was
    number [n]. Whatever calls follow (by anyone, at any clock readings), a
    write fenced with the old token is rejected: a stalled worker never
    commits after its run moved on. *)
Theorem stale_token_rejected_forever i before now w d a n after now' :
  1 <= n < nextFenceToken (run_lease_ops before (new_lease_table i)) ->
  (tryAcquire now w d a (run_lease_ops before (new_lease_table i))).1 <>
    mkTryLock true (Some (str_of_Z n)) ->
  acquired (tryAcquire now w d a (run_lease_ops before (new_lease_table i))).1 = true ->
  exists e, checkFence now' w (Some (mkFenceGuard (Some (str_of_Z n))))
    (run_lease_ops after
       (tryAcquire now w d a (run_lease_ops before (new_lease_table i))).2) = Err e.
Proof.
  intros Hn Hne Hacq.
  by apply superseded_rejected, run_lease_ops_superseded, acquire_supersedes.
Qed.

Lemma stale_token_rejected_forever_witness :
  exists e, checkFence 30 "wf" (Some (mkFenceGuard (Some "1")))
    (run_lease_ops [(21, OpExtend "wf" 100 None); (22, OpRelease "wf" None)]
       (tryAcquire 20 "wf" 10 None
          (run_lease_ops [(0, OpAcquire "wf" 10 None)] (new_lease_table "i"))).2) = Err e.
Proof.
  apply (stale_token_rejected_forever "i" [(0, OpAcquire "wf" 10 None)] 20 "wf" 10 None 1
           [(21, OpExtend "wf" 100 None); (22, OpRelease "wf" None)] 30).
  - vm_compute. split; congruence.
  - vm_compute. congruence.
  - reflexivity.
Defined.

(** A call by someone other than the holder of lease [l] on [w]: an acquire,
    a release or heartbeat fenced with another token, or a call on another
    workflow. *)
Definition foreign_op (w : string) (l : Lease) (op : lease_op) : Prop :=
  match op with
  | OpAcquire _ _ _ => True
  | OpRelease w' g | OpExtend w' _ g =>
      w' <> w \/ exists tok, guard_token g = Some tok /\ tok <> token l
  | OpForget w' => w' <> w
  | OpClear => False
  end.

Lemma run_lease_op_foreign now op w l t :
  leases t !! w = Some l -> now < expiresAt l -> foreign_op w l op ->
  leases (run_lease_op now op t) !! w = Some l.
Proof.
  intros Hl Hn Hop. destruct op as [w' d a|w' g|w' d g|w'|]; cbn in *; try done.
  - destruct (decide (w' = w)) as [->|Hne]; [by rewrite (tryAcquire_held _ _ _ _ _ l)|].
    destruct (tryAcquire_cases now w' d a t) as [-> | ->]; [done|]; cbn.
    by rewrite jlookup_insert_ne.
  - unfold release. destruct Hop as [Hne|(tok & -> & Htok)].
    + repeat case_match; cbn; try done; by rewrite jlookup_delete_ne.
    + destruct (decide (w' = w)) as [->|Hne].
      * rewrite Hl. by rewrite bool_decide_false by congruence.
      * repeat case_match; cbn; try done; by rewrite jlookup_delete_ne.
  - unfold extend. destruct (decide (w' = w)) as [->|Hne].
    + destruct Hop as [|(tok & Hg & Htok)]; [done|]. unfold checkFence.
      by rewrite Hg, Hl, bool_decide_true by congruence.
    + repeat case_match; cbn; try done; by rewrite jlookup_insert_ne.
  - by rewrite jlookup_delete_ne.
Qed.

(** Mutual exclusion: while a lease is unexpired, no sequence of calls by
    others (acquires, releases and heartbeats with other tokens, calls on
    other workflows) changes it, and every acquire that does not repeat the
    holder's own attempt id answers [acquired: false] without a token. *)
Theorem lease_exclusive w l sched t now d a :
  leases t !! w = Some l ->
  Forall (fun c => c.1 < expiresAt l /\ foreign_op w l c.2) sched ->
  now < expiresAt l -> (a = None \/ a <> attemptId l) ->
  leases (run_lease_ops sched t) !! w = Some l /\
  (tryAcquire now w d a (run_lease_ops sched t)).1 = mkTryLock false None.
Proof.
  intros Hl Hs Hn Ha.
  assert (leases (run_lease_ops sched t) !! w = Some l) as H.
  { revert Hs Hl. apply (run_ops_inv run_lease_op _ (fun t => leases t !! w = Some l)).
    intros n op s [Hn' Hf] Hs. by apply run_lease_op_foreign. }
  split; [done|]. unfold tryAcquire. rewrite H.
  destruct (Z.gtb_spec (expiresAt l) now); [|lia].
  rewrite (proj2 (andb_false_iff _ _)); [done|].
  rewrite !bool_decide_eq_false. destruct Ha as [->|Ha]; [left|right]; naive_solver.
Qed.

Lemma lease_exclusive_witness :
  let t := (tryAcquire 0 "wf" 10 (Some "a1") (new_lease_table "i")).2 in
  leases (run_lease_ops [(3, OpAcquire "wf" 50 None)] t) !! "wf"
    = Some (mkLease 10 "i" "1" (Some "a1")) /\
  (tryAcquire 9 "wf" 10 (Some "a2")
     (run_lease_ops [(3, OpAcquire "wf" 50 None)] t)).1 = mkTryLock false None.
Proof.
  cbn zeta.
  apply (lease_exclusive "wf" (mkLease 10 "i" "1" (Some "a1")) [(3, OpAcquire "wf" 50 None)]).
  - reflexivity.
  - constructor; [|constructor]. split; [cbn; lia|exact I].
  - cbn; lia.
  - right. cbn. congruence.
Defined.
