(* ===== verification/LeaderLeases.v ===== *)
(** Leader leases over string keys: [scheduler/leader-lease.ts].

    - [LeaderLeaseStore]: the interface, with its laws as a class, against
      which the election and the scheduler storage are verified;
    - [InMemoryLeaderLeases]: the reference store, an instance of the laws;
    - [schedulerLeaderKey]: the key of a poll loop, and its injectivity;
    - [LeaseLeaderElection]: a boolean election for one key, proved against
      the laws only. *)
From S2P Require Import Prelude Leases.
Open Scope string_scope.
Open Scope list_scope.
Open Scope Z_scope.

(** ** The interface *)
Class LeaderLeaseStore (S : Type) : Type := {
  tryAcquireLeader : Z -> string -> string -> Z -> S -> option LeaderLease * S;
  releaseLeader : Z -> LeaderLease -> S -> S;
}.

(** What a store promises. [live_holder] observes who holds an unexpired
    lease of a key, [key_epoch] the key's current epoch (0: never leased). *)
Class LeaderLeaseLaws (S : Type) `{LeaderLeaseStore S} : Type := {
  live_holder : Z -> string -> S -> option string;
  key_epoch : string -> S -> Z;

  acquire_busy : forall now k i j ttl s,
    live_holder now k s = Some j -> j <> i ->
    tryAcquireLeader now k i ttl s = (None, s);
  acquire_free : forall now k i ttl s,
    (live_holder now k s = None \/ live_holder now k s = Some i) ->
    exists s', tryAcquireLeader now k i ttl s
        = (Some (mkLeaderLease k i (key_epoch k s')), s') /\
      key_epoch k s' = (if bool_decide (live_holder now k s = None) then 1 else 0) + key_epoch k s /\
      (forall t, live_holder t k s' = if t <? now + Z.max 0 ttl then Some i else None) /\
      (forall k', k' <> k -> key_epoch k' s' = key_epoch k' s /\
         forall t, live_holder t k' s' = live_holder t k' s);
  release_current : forall now l s,
    live_holder now (ll_key l) s = Some (ll_instanceId l) ->
    key_epoch (ll_key l) s = ll_epoch l ->
    forall t, live_holder t (ll_key l) (releaseLeader now l s) = None;
  release_stale : forall now l s,
    key_epoch (ll_key l) s <> ll_epoch l -> releaseLeader now l s = s;
  release_epoch : forall now l s k, key_epoch k (releaseLeader now l s) = key_epoch k s;
  release_other : forall now l s k t,
    k <> ll_key l -> live_holder t k (releaseLeader now l s) = live_holder t k s;
  release_owner : forall now l s t j,
    live_holder t (ll_key l) s = Some j -> j <> ll_instanceId l ->
    live_holder t (ll_key l) (releaseLeader now l s) = Some j;
}.

(** ** [InMemoryLeaderLeases] *)
Record LeaseRecord : Type := mkLeaseRecord {
  lr_instanceId : option string;
  lr_epoch : Z;
  lr_expiresAt : Z;
}.

Record InMemoryLeaderLeases : Type := mkLeaderLeases { records : jmap string LeaseRecord }.

Definition acquire (now : Z) (key instanceId : string) (ttlMs : Z) (s : InMemoryLeaderLeases)
    : option LeaderLease * InMemoryLeaderLeases :=
  let expires := now + Z.max 0 ttlMs in
  match records s !! key with
  | None =>
      (Some (mkLeaderLease key instanceId 1),
       mkLeaderLeases (<[key := mkLeaseRecord (Some instanceId) 1 expires]> (records s)))
  | Some record =>
      let live := bool_decide (lr_instanceId record <> None) && (lr_expiresAt record >? now) in
      if live && bool_decide (lr_instanceId record <> Some instanceId) then (None, s)
      else
        let epoch := if live then lr_epoch record else lr_epoch record + 1 in
        (Some (mkLeaderLease key instanceId epoch),
         mkLeaderLeases (<[key := mkLeaseRecord (Some instanceId) epoch expires]> (records s)))
  end.

Definition releaseLeaderLease (now : Z) (lease : LeaderLease) (s : InMemoryLeaderLeases)
    : InMemoryLeaderLeases :=
  match records s !! ll_key lease with
  | None => s
  | Some record =>
      if bool_decide (lr_epoch record <> ll_epoch lease) then s
      else if bool_decide (lr_instanceId record <> Some (ll_instanceId lease)) then s
      else mkLeaderLeases (<[ll_key lease := mkLeaseRecord None (lr_epoch record) now]> (records s))
  end.

Definition currentEpoch (key : string) (s : InMemoryLeaderLeases) : option Z :=
  lr_epoch <$> records s !! key.

(** The fence check of a write made under leadership. *)
Definition assertCurrent (lease : LeaderLease) (s : InMemoryLeaderLeases) : res StoreError unit :=
  let current := currentEpoch (ll_key lease) s in
  if bool_decide (current <> Some (ll_epoch lease))
  then Err (StaleLeaseError lease current)
  else Ok tt.

#[export] Instance InMemoryLeaderLeases_store : LeaderLeaseStore InMemoryLeaderLeases := {
  tryAcquireLeader := acquire;
  releaseLeader := releaseLeaderLease;
}.

Definition mem_live_holder (now : Z) (k : string) (s : InMemoryLeaderLeases) : option string :=
  match records s !! k with
  | Some r => if lr_expiresAt r >? now then lr_instanceId r else None
  | None => None
  end.

Definition mem_key_epoch (k : string) (s : InMemoryLeaderLeases) : Z :=
  from_option lr_epoch 0 (records s !! k).

#[local] Ltac provide_state :=
  match goal with
  | |- exists s', (_, ?b) = _ /\ _ => exists b
  end.

(** The reference store keeps the interface's laws. *)
#[export] Instance InMemoryLeaderLeases_laws : LeaderLeaseLaws InMemoryLeaderLeases.
Proof.
  refine {| live_holder := mem_live_holder; key_epoch := mem_key_epoch |};
    cbn [tryAcquireLeader releaseLeader InMemoryLeaderLeases_store].
  - intros now k i j ttl s. unfold mem_live_holder, acquire.
    destruct (records s !! k) as [r|]; [|done].
    destruct (lr_expiresAt r >? now); [|done]. intros -> Hne.
    by rewrite !bool_decide_true by congruence.
  - intros now k i ttl s. unfold mem_live_holder, acquire, mem_key_epoch.
    destruct (records s !! k) as [r|] eqn:E.
    + intros Hh.
      assert (bool_decide (lr_instanceId r <> None) && (lr_expiresAt r >? now)
        && bool_decide (lr_instanceId r <> Some i) = false) as ->.
      { destruct (lr_expiresAt r >? now); [|by rewrite andb_false_r].
        destruct Hh as [-> | ->]; [done|]. by rewrite (bool_decide_false (Some i <> Some i)) by congruence. }
      provide_state. split_and!.
      * cbn. by rewrite jlookup_insert_eq.
      * cbn. rewrite jlookup_insert_eq; cbn.
        destruct (lr_expiresAt r >? now); [destruct Hh as [-> | ->]|]; cbn;
          repeat case_bool_decide; cbn; congruence || lia.
      * intros t. cbn. rewrite jlookup_insert_eq; cbn. by rewrite Z.gtb_ltb.
      * intros k' Hne. cbn. by rewrite jlookup_insert_ne by congruence.
    + intros _. provide_state. split_and!.
      * cbn. by rewrite jlookup_insert_eq.
      * cbn. by rewrite jlookup_insert_eq.
      * intros t. cbn. rewrite jlookup_insert_eq; cbn. by rewrite Z.gtb_ltb.
      * intros k' Hne. cbn. by rewrite jlookup_insert_ne by congruence.
  - intros now l s. unfold mem_live_holder, mem_key_epoch, releaseLeaderLease.
    destruct (records s !! ll_key l) as [r|]; [|done]; cbn.
    destruct (lr_expiresAt r >? now); [|done]. intros Hi He t.
    rewrite !bool_decide_false by congruence. cbn. rewrite jlookup_insert_eq; cbn. by case_match.
  - intros now l s. unfold mem_key_epoch, releaseLeaderLease.
    destruct (records s !! ll_key l) as [r|]; [|done]; cbn. intros.
    by rewrite bool_decide_true.
  - intros now l s k. unfold mem_key_epoch, releaseLeaderLease.
    destruct (records s !! ll_key l) as [r|] eqn:E; [|done].
    repeat case_bool_decide; try done. cbn. rewrite jlookup_insert.
    case_decide; [|done]. subst. by rewrite E.
  - intros now l s k t Hne. unfold mem_live_holder, releaseLeaderLease.
    destruct (records s !! ll_key l) as [r|] eqn:E; [|done].
    repeat case_bool_decide; try done. cbn. by rewrite jlookup_insert_ne by congruence.
  - intros now l s t j. unfold mem_live_holder, releaseLeaderLease.
    destruct (records s !! ll_key l) as [r|] eqn:E; [|done].
    destruct (lr_expiresAt r >? t) eqn:Ht; [|done]. intros Hj Hne.
    case_bool_decide; [by rewrite E, Ht|]. case_bool_decide; [by rewrite E, Ht|].
    congruence.
Defined.

(** *** Epochs only move forward *)
Inductive leader_op : Type :=
| LAcquire (key instanceId : string) (ttlMs : Z)
| LRelease (lease : LeaderLease).

Definition run_leader_op (now : Z) (op : leader_op) (s : InMemoryLeaderLeases)
    : InMemoryLeaderLeases :=
  match op with
  | LAcquire k i ttl => (acquire now k i ttl s).2
  | LRelease l => releaseLeaderLease now l s
  end.

Definition run_leader_ops : list (Z * leader_op) -> InMemoryLeaderLeases -> InMemoryLeaderLeases :=
  run_ops run_leader_op.

Lemma mem_acquire_free now k i ttl s :
  (mem_live_holder now k s = None \/ mem_live_holder now k s = Some i) ->
  exists s', acquire now k i ttl s = (Some (mkLeaderLease k i (mem_key_epoch k s')), s') /\
    mem_key_epoch k s' =
      (if bool_decide (mem_live_holder now k s = None) then 1 else 0) + mem_key_epoch k s /\
    (forall k', k' <> k -> mem_key_epoch k' s' = mem_key_epoch k' s).
Proof.
  intros Hh. destruct (@acquire_free _ _ InMemoryLeaderLeases_laws now k i ttl s Hh)
    as (s' & Hs & He & _ & Ho).
  exists s'. split_and!; [exact Hs|exact He|]. intros k' Hk. apply (Ho k' Hk).
Qed.

Lemma mem_acquire_busy now k i j ttl s :
  mem_live_holder now k s = Some j -> j <> i -> acquire now k i ttl s = (None, s).
Proof. exact (@acquire_busy _ _ InMemoryLeaderLeases_laws now k i j ttl s). Qed.

Lemma run_leader_op_epoch now op s k :
  mem_key_epoch k s <= mem_key_epoch k (run_leader_op now op s).
Proof.
  destruct op as [k' i ttl|l]; cbn [run_leader_op].
  - assert (mem_live_holder now k' s = None \/ mem_live_holder now k' s = Some i \/
      exists j, mem_live_holder now k' s = Some j /\ j <> i) as [Hh|[Hh|(j & Hh & Hj)]].
    { destruct (mem_live_holder now k' s) as [j|]; [|by left].
      destruct (decide (j = i)) as [->|]; [by right; left|right; right; by exists j]. }
    3: { rewrite (mem_acquire_busy _ _ _ _ _ _ Hh Hj). cbn; lia. }
    all: destruct (mem_acquire_free now k' i ttl s ltac:(tauto)) as (s' & -> & He & Ho); cbn.
    all: destruct (decide (k = k')) as [->|Hk]; [rewrite He; case_bool_decide; lia|].
    all: rewrite (Ho k Hk); lia.
  - pose proof (@release_epoch _ _ InMemoryLeaderLeases_laws now l s k) as Hr. cbn in Hr. lia.
Qed.

Lemma run_leader_ops_epoch sched s k :
  mem_key_epoch k s <= mem_key_epoch k (run_leader_ops sched s).
Proof.
  apply (run_ops_inv_all run_leader_op (fun s' => mem_key_epoch k s <= mem_key_epoch k s')); [|lia].
  intros now op s' Hs. pose proof (run_leader_op_epoch now op s' k). lia.
Qed.

Lemma assertCurrent_ok l s :
  assertCurrent l s = Ok tt <-> currentEpoch (ll_key l) s = Some (ll_epoch l).
Proof.
  unfold assertCurrent. case_bool_decide as H; split; try done.
Qed.

Lemma currentEpoch_key k s e : currentEpoch k s = Some e -> mem_key_epoch k s = e.
Proof. unfold currentEpoch, mem_key_epoch. by destruct (records s !! k); intros [=]. Qed.

Lemma acquire_epoch now k i ttl s l s' :
  acquire now k i ttl s = (Some l, s') -> ll_key l = k /\ currentEpoch k s' = Some (ll_epoch l).
Proof.
  unfold acquire, currentEpoch. destruct (records s !! k) as [r|]; [case_match; [done|]|];
    intros [= <- <-]; cbn; by rewrite jlookup_insert_eq.
Qed.

Lemma past_epoch_rejected l s :
  ll_epoch l < mem_key_epoch (ll_key l) s -> exists e, assertCurrent l s = Err e.
Proof.
  intros H. destruct (assertCurrent l s) as [[]|e] eqn:E; [|by exists e].
  apply assertCurrent_ok, currentEpoch_key in E. lia.
Qed.

(** A lease on the key that is not [l] puts [l] behind. *)
Lemma acquire_supersedes_epoch now k j ttl s l l2 s2 :
  ll_key l = k -> ll_epoch l <= mem_key_epoch k s ->
  acquire now k j ttl s = (Some l2, s2) -> ll_epoch l2 <> ll_epoch l ->
  ll_epoch l < ll_epoch l2 /\ ll_epoch l < mem_key_epoch k s2.
Proof.
  intros Hk Hle Hacq Hne. destruct (acquire_epoch _ _ _ _ _ _ _ Hacq) as [_ He%currentEpoch_key].
  pose proof (run_leader_op_epoch now (LAcquire k j ttl) s k) as Hm.
  cbn [run_leader_op] in Hm. rewrite Hacq in Hm; cbn in Hm. lia.
Qed.

(** Fenced leadership: a lease obtained by an acquire passes the fence
    check; and once a later acquire answers a lease with another epoch, that
    is once a new lease started on the key, every write fenced with the old
    lease is rejected from then on, whatever acquires and releases follow and
    whatever the clock reads. *)
Theorem superseded_lease_rejected now k i ttl s l s1 mid now2 j ttl2 l2 s2 after :
  acquire now k i ttl s = (Some l, s1) ->
  acquire now2 k j ttl2 (run_leader_ops mid s1) = (Some l2, s2) ->
  ll_epoch l2 <> ll_epoch l ->
  assertCurrent l s1 = Ok tt /\ ll_epoch l < ll_epoch l2 /\
  exists e, assertCurrent l (run_leader_ops after s2) = Err e.
Proof.
  intros H1 H2 Hne. destruct (acquire_epoch _ _ _ _ _ _ _ H1) as [Hk1 He1].
  pose proof (run_leader_ops_epoch mid s1 k) as Hmid. rewrite (currentEpoch_key _ _ _ He1) in Hmid.
  destruct (acquire_supersedes_epoch _ _ _ _ _ _ _ _ Hk1 Hmid H2 Hne) as [Hlt Hs2].
  split_and!; [rewrite assertCurrent_ok; congruence|done|].
  apply past_epoch_rejected. rewrite Hk1. pose proof (run_leader_ops_epoch after s2 k). lia.
Qed.

Lemma superseded_lease_rejected_witness :
  assertCurrent (mkLeaderLease "k" "a" 1) (acquire 0 "k" "a" 5 (mkLeaderLeases ∅)).2 = Ok tt /\
  1 < 2 /\
  exists e, assertCurrent (mkLeaderLease "k" "a" 1)
    (run_leader_ops [(9, LAcquire "k" "b" 5)]
       (acquire 7 "k" "b" 5 (acquire 0 "k" "a" 5 (mkLeaderLeases ∅)).2).2) = Err e.
Proof.
  apply (superseded_lease_rejected 0 "k" "a" 5 (mkLeaderLeases ∅) (mkLeaderLease "k" "a" 1)
    (acquire 0 "k" "a" 5 (mkLeaderLeases ∅)).2 [] 7 "b" 5 (mkLeaderLease "k" "b" 2)
    (acquire 7 "k" "b" 5 (acquire 0 "k" "a" 5 (mkLeaderLeases ∅)).2).2); [reflexivity..|].
  cbn; lia.
Defined.

(** ** [schedulerLeaderKey] *)

(** [encodeURIComponent] on 8-bit code units: unreserved characters stay,
    others become the percent-encoded bytes of their UTF-8 form. *)
Definition hex_digit (n : N) : ascii :=
  Ascii.ascii_of_N (if (n <? 10)%N then 48 + n else 55 + n)%N.

Definition pct (n : N) : string :=
  String (Ascii.ascii_of_N 37)
    (String (hex_digit (n / 16)%N) (String (hex_digit (n mod 16)%N) "")).

Definition uri_unreserved (n : N) : bool :=
  ((48 <=? n) && (n <=? 57) || (65 <=? n) && (n <=? 90) || (97 <=? n) && (n <=? 122)
   || (n =? 45) || (n =? 95) || (n =? 46) || (n =? 33) || (n =? 126) || (n =? 42)
   || (n =? 39) || (n =? 40) || (n =? 41))%N.

Definition encode_unit (c : ascii) : string :=
  let n := Ascii.N_of_ascii c in
  if uri_unreserved n then String c ""
  else if (n <? 128)%N then pct n
  else pct (192 + n / 64)%N +:+ pct (128 + n mod 64)%N.

Fixpoint encodeURIComponent (s : string) : string :=
  match s with
  | EmptyString => ""
  | String c s' => encode_unit c +:+ encodeURIComponent s'
  end.

Definition schedulerLeaderKey (namespace : option string) (partition : option (Z * Z)) : string :=
  let ns := match namespace with
            | None => "-"
            | Some n => "ns:" +:+ encodeURIComponent n
            end in
  let part := match partition with
              | Some (index, count) => "/p" +:+ str_of_Z index +:+ "of" +:+ str_of_Z count
              | None => ""
              end in
  "scheduler/" +:+ ns +:+ part.

(** One unit can be read back off the front of an encoded text. *)
Definition unhex (c : ascii) : N :=
  let n := Ascii.N_of_ascii c in if (n <? 58)%N then (n - 48)%N else (n - 55)%N.

Definition decode_unit (s : string) : option (ascii * string) :=
  match s with
  | EmptyString => None
  | String c r =>
      if (Ascii.N_of_ascii c =? 37)%N then
        match r with
        | String h1 (String h2 r1) =>
            let b := (16 * unhex h1 + unhex h2)%N in
            if (b <? 128)%N then Some (Ascii.ascii_of_N b, r1)
            else match r1 with
                 | String _ (String g1 (String g2 r2)) =>
                     let b2 := (16 * unhex g1 + unhex g2)%N in
                     Some (Ascii.ascii_of_N ((b - 192) * 64 + (b2 - 128))%N, r2)
                 | _ => None
                 end
        | _ => None
        end
      else Some (c, r)
  end.

Lemma decode_encode_unit c r : decode_unit (encode_unit c +:+ r) = Some (c, r).
Proof. destruct c as [[] [] [] [] [] [] [] []]; reflexivity. Qed.

Definition uri_safe (c : ascii) : bool := negb (Ascii.N_of_ascii c =? 47)%N.

Lemma encode_unit_safe c : string_forallb uri_safe (encode_unit c) = true.
Proof. destruct c as [[] [] [] [] [] [] [] []]; reflexivity. Qed.

Lemma encodeURIComponent_safe s : string_forallb uri_safe (encodeURIComponent s) = true.
Proof.
  induction s as [|c s IH]; cbn; [done|]. by rewrite string_forallb_app, encode_unit_safe.
Qed.

Lemma encodeURIComponent_inj s1 s2 : encodeURIComponent s1 = encodeURIComponent s2 -> s1 = s2.
Proof.
  revert s2. induction s1 as [|c1 s1 IH]; intros [|c2 s2]; cbn [encodeURIComponent]; intros H.
  - done.
  - pose proof (decode_encode_unit c2 (encodeURIComponent s2)) as Hd. by rewrite <- H in Hd.
  - pose proof (decode_encode_unit c1 (encodeURIComponent s1)) as Hd. by rewrite H in Hd.
  - pose proof (decode_encode_unit c1 (encodeURIComponent s1)) as Hd.
    rewrite H, decode_encode_unit in Hd. injection Hd as -> Hs. f_equal. by apply IH.
Qed.

Lemma partition_suffix_inj (i1 c1 i2 c2 : Z) :
  str_of_Z i1 +:+ "of" +:+ str_of_Z c1 = str_of_Z i2 +:+ "of" +:+ str_of_Z c2 ->
  i1 = i2 /\ c1 = c2.
Proof.
  intros [Hi Hr]%(string_split_unique is_num_char); try done; try apply str_of_Z_chars.
  apply str_of_Z_inj in Hi. apply (string_app_inj_l "of") in Hr.
  by apply str_of_Z_inj in Hr.
Qed.

(** Scheduler leader keys never collide: two poll loops share a lease key
    exactly when they have the same namespace and the same partition. *)
Lemma schedulerLeaderKey_injective ns1 p1 ns2 p2 :
  schedulerLeaderKey ns1 p1 = schedulerLeaderKey ns2 p2 <-> ns1 = ns2 /\ p1 = p2.
Proof.
  split; [|by intros [-> ->]]. unfold schedulerLeaderKey.
  intros H%(string_app_inj_l "scheduler/").
  apply (string_split_unique uri_safe) in H as [Hn Hp].
  - split.
    + destruct ns1 as [n1|], ns2 as [n2|]; [|by injection Hn..|done].
      apply (string_app_inj_l "ns:") in Hn. f_equal. by apply encodeURIComponent_inj.
    + destruct p1 as [[i1 c1]|], p2 as [[i2 c2]|]; [|done..].
      apply (string_app_inj_l "/p") in Hp. by apply partition_suffix_inj in Hp as [-> ->].
  - destruct ns1; [|done]. apply (encodeURIComponent_safe s).
  - destruct ns2; [|done]. apply (encodeURIComponent_safe s).
  - by destruct p1 as [[]|].
  - by destruct p2 as [[]|].
Qed.

(** ** [LeaseLeaderElection] *)
Record LeaseLeaderElection : Type := mkElection {
  el_key : string;
  el_instanceId : string;
  el_ttlMs : Z;
  el_current : option LeaderLease;
}.

Section election.
Context {S : Type} `{LeaderLeaseStore S}.

Definition election_tryAcquire (now : Z) (el : LeaseLeaderElection) (s : S)
    : bool * LeaseLeaderElection * S :=
  let '(current, s') := tryAcquireLeader now (el_key el) (el_instanceId el) (el_ttlMs el) s in
  (bool_decide (current <> None),
   mkElection (el_key el) (el_instanceId el) (el_ttlMs el) current, s').

Definition election_release (now : Z) (el : LeaseLeaderElection) (s : S)
    : LeaseLeaderElection * S :=
  let el' := mkElection (el_key el) (el_instanceId el) (el_ttlMs el) None in
  match el_current el with
  | Some lease => (el', releaseLeader now lease s)
  | None => (el', s)
  end.

Context `{!LeaderLeaseLaws S}.

Lemma election_tryAcquire_true now el s el' s' :
  election_tryAcquire now el s = (true, el', s') ->
  el_current el' = Some (mkLeaderLease (el_key el) (el_instanceId el) (key_epoch (el_key el) s')) /\
  el_key el' = el_key el /\ el_instanceId el' = el_instanceId el /\
  forall t, live_holder t (el_key el) s' =
    if t <? now + Z.max 0 (el_ttlMs el) then Some (el_instanceId el) else None.
Proof.
  unfold election_tryAcquire. destruct (live_holder now (el_key el) s) as [j|] eqn:E.
  - destruct (decide (j = el_instanceId el)) as [->|Hne].
    + destruct (acquire_free now (el_key el) (el_instanceId el) (el_ttlMs el) s (or_intror E))
        as (s0 & -> & _ & Hl & _). by intros [= <- <-].
    + by rewrite (acquire_busy now (el_key el) (el_instanceId el) j (el_ttlMs el) s E Hne).
  - destruct (acquire_free now (el_key el) (el_instanceId el) (el_ttlMs el) s (or_introl E))
        as (s0 & -> & _ & Hl & _). by intros [= <- <-].
Qed.

(** Leader election over any store that keeps the interface's laws:
    after one instance wins a key, another instance loses until the first
    one's TTL has run out, its attempt leaving the store as it is; and once
    the winner releases, the other wins at once. *)
Theorem election_exclusive now a b s a' s1 t t' :
  el_key a = el_key b -> el_instanceId a <> el_instanceId b ->
  election_tryAcquire now a s = (true, a', s1) ->
  now <= t < now + el_ttlMs a ->
  (exists b', election_tryAcquire t b s1 = (false, b', s1) /\ el_current b' = None) /\
  (exists b', election_tryAcquire t' b (election_release t a' s1).2
     = (true, b', (election_tryAcquire t' b (election_release t a' s1).2).2)).
Proof.
  intros Hk Hi Ha Ht. destruct (election_tryAcquire_true _ _ _ _ _ Ha) as (Hc & Hk' & Hi' & Hl).
  split.
  - eexists. unfold election_tryAcquire. rewrite <- Hk.
    rewrite (acquire_busy t (el_key a) (el_instanceId b) (el_instanceId a)).
    + split; [by rewrite bool_decide_false by congruence|done].
    + rewrite Hl. by rewrite (proj2 (Z.ltb_lt _ _)) by lia.
    + done.
  - unfold election_release. rewrite Hc. cbn [snd].
    set (l := mkLeaderLease _ _ _).
    assert (live_holder t' (el_key b) (releaseLeader t l s1) = None) as Hn.
    { rewrite <- Hk. apply (release_current t l s1); cbn; [|done].
      rewrite Hl. by rewrite (proj2 (Z.ltb_lt _ _)) by lia. }
    unfold election_tryAcquire.
    destruct (acquire_free t' (el_key b) (el_instanceId b) (el_ttlMs b) _ (or_introl Hn))
      as (s2 & -> & _).
    by eexists.
Qed.
End election.

Lemma election_exclusive_witness :
  (exists b', election_tryAcquire 4 (mkElection "k" "b" 10 None)
      (acquire 0 "k" "a" 10 (mkLeaderLeases ∅)).2
     = (false, b', (acquire 0 "k" "a" 10 (mkLeaderLeases ∅)).2) /\ el_current b' = None) /\
  (exists b', election_tryAcquire 5 (mkElection "k" "b" 10 None)
      (election_release 4 (mkElection "k" "a" 10 (Some (mkLeaderLease "k" "a" 1)))
         (acquire 0 "k" "a" 10 (mkLeaderLeases ∅)).2).2
     = (true, b', (election_tryAcquire 5 (mkElection "k" "b" 10 None)
        (election_release 4 (mkElection "k" "a" 10 (Some (mkLeaderLease "k" "a" 1)))
         (acquire 0 "k" "a" 10 (mkLeaderLeases ∅)).2).2).2)).
Proof.
  apply (election_exclusive 0 (mkElection "k" "a" 10 None) (mkElection "k" "b" 10 None)
    (mkLeaderLeases ∅) (mkElection "k" "a" 10 (Some (mkLeaderLease "k" "a" 1)))
    (acquire 0 "k" "a" 10 (mkLeaderLeases ∅)).2 4 5); [reflexivity|discriminate|reflexivity|].
  cbn; lia.
Defined.
