(* ===== verification/Json.v ===== *)
(** JSON-shaped values ([unknown] in the source) and the comparisons the
    stores make on them: [storage/same-value.ts], [storage/metadata.ts] and
    [scheduler/metadata-filter.ts].

    Numbers are the integers (the doubles the engine stores are counts and
    millisecond times), strings are sequences of 8-bit code units, an object
    is its list of own properties in insertion order. Functions, symbols,
    bigints and cyclic values are outside the model. *)
From S2P Require Import Prelude Leases.
Open Scope string_scope.
Open Scope list_scope.
Open Scope Z_scope.

#[warnings="-register-all"]
Inductive json : Type :=
| JUndef
| JNull
| JBool (b : bool)
| JNum (n : Z)
| JStr (s : string)
| JDate (ms : Z)
| JArr (l : list json)
| JObj (fields : list (string * json)).

Section json_ind.
Variable P : json -> Prop.
Hypothesis Hundef : P JUndef.
Hypothesis Hnull : P JNull.
Hypothesis Hbool : forall b, P (JBool b).
Hypothesis Hnum : forall n, P (JNum n).
Hypothesis Hstr : forall s, P (JStr s).
Hypothesis Hdate : forall ms, P (JDate ms).
Hypothesis Harr : forall l, Forall P l -> P (JArr l).
Hypothesis Hobj : forall fs, Forall (fun kv => P kv.2) fs -> P (JObj fs).

Fixpoint json_ind' (v : json) : P v :=
  match v with
  | JUndef => Hundef
  | JNull => Hnull
  | JBool b => Hbool b
  | JNum n => Hnum n
  | JStr s => Hstr s
  | JDate ms => Hdate ms
  | JArr l => Harr l
      ((fix go (l : list json) : Forall P l :=
          match l with
          | [] => List.Forall_nil _
          | x :: l' => List.Forall_cons _ _ _ (json_ind' x) (go l')
          end) l)
  | JObj fs => Hobj fs
      ((fix go (fs : list (string * json)) : Forall (fun kv => P kv.2) fs :=
          match fs with
          | [] => List.Forall_nil _
          | kv :: fs' => List.Forall_cons _ _ _ (json_ind' kv.2) (go fs')
          end) fs)
  end.
End json_ind.

Lemma json_eq_dec (v w : json) : {v = w} + {v <> w}.
Proof.
  revert v w. fix IH 1. intros [| |b|n|s|ms|l|fs] [| |b'|n'|s'|ms'|l'|fs'];
    try (right; discriminate); try (left; reflexivity).
  - destruct (decide (b = b')) as [->|]; [by left|right; congruence].
  - destruct (decide (n = n')) as [->|]; [by left|right; congruence].
  - destruct (decide (s = s')) as [->|]; [by left|right; congruence].
  - destruct (decide (ms = ms')) as [->|]; [by left|right; congruence].
  - assert ({l = l'} + {l <> l'}) as [->|]; [|by left|right; congruence].
    revert l'. induction l as [|x l IHl]; intros [|x' l'];
      try (right; discriminate); [by left|].
    destruct (IH x x') as [->|]; [|right; congruence].
    destruct (IHl l') as [->|]; [by left|right; congruence].
  - assert ({fs = fs'} + {fs <> fs'}) as [->|]; [|by left|right; congruence].
    revert fs'. induction fs as [|[k x] fs IHfs]; intros [|[k' x'] fs'];
      try (right; discriminate); [by left|].
    destruct (decide (k = k')) as [->|]; [|right; congruence].
    destruct (IH x x') as [->|]; [|right; congruence].
    destruct (IHfs fs') as [->|]; [by left|right; congruence].
Defined.
#[global] Instance json_eq_decision : EqDecision json := json_eq_dec.

(** [v[key]] of an object: its property, or [undefined]. *)
Definition prop (key : string) (fs : list (string * json)) : json :=
  from_option id JUndef (alist_get key fs).

(** ** [Date.prototype.toISOString]
    Days are split into civil years, months and days of the proleptic
    Gregorian calendar; years outside 0..9999 print signed with six digits. *)
Fixpoint zeros (n : nat) : string :=
  match n with O => "" | S n' => "0" +:+ zeros n' end.

Definition pad (width : nat) (n : Z) : string :=
  let s := str_of_Z n in zeros (width - String.length s) +:+ s.

Definition civil_from_days (days : Z) : Z * Z * Z :=
  let z := days + 719468 in
  let era := z / 146097 in
  let doe := z mod 146097 in
  let yoe := (doe - doe / 1460 + doe / 36524 - doe / 146096) / 365 in
  let doy := doe - (365 * yoe + yoe / 4 - yoe / 100) in
  let mp := (5 * doy + 2) / 153 in
  let d := doy - (153 * mp + 2) / 5 + 1 in
  let m := if mp <? 10 then mp + 3 else mp - 9 in
  ((yoe + era * 400 + if m <=? 2 then 1 else 0), m, d).

Definition iso_year (y : Z) : string :=
  if (0 <=? y) && (y <=? 9999) then pad 4 y
  else if y <? 0 then "-" +:+ pad 6 (- y) else "+" +:+ pad 6 y.

Definition toISOString (ms : Z) : string :=
  let '(y, m, d) := civil_from_days (ms / 86400000) in
  let t := ms mod 86400000 in
  iso_year y +:+ "-" +:+ pad 2 m +:+ "-" +:+ pad 2 d +:+ "T" +:+
  pad 2 (t / 3600000) +:+ ":" +:+ pad 2 (t / 60000 mod 60) +:+ ":" +:+
  pad 2 (t / 1000 mod 60) +:+ "." +:+ pad 3 (t mod 1000) +:+ "Z".

Example toISOString_epoch : toISOString 0 = "1970-01-01T00:00:00.000Z".
Proof. reflexivity. Qed.
Example toISOString_leap : toISOString 951782399999 = "2000-02-28T23:59:59.999Z".
Proof. reflexivity. Qed.
Example toISOString_before : toISOString (-1) = "1969-12-31T23:59:59.999Z".
Proof. reflexivity. Qed.

(** ** [JSON.stringify] *)
Definition hex_low (n : N) : ascii :=
  Ascii.ascii_of_N (if (n <? 10)%N then 48 + n else 87 + n)%N.

Definition backslash : ascii := Ascii.ascii_of_N 92.
Definition dq_char : ascii := Ascii.ascii_of_N 34.

(** A code unit inside a JSON string: quotes, backslashes and control
    characters are escaped. *)
Definition escape_unit (c : ascii) : string :=
  let n := Ascii.N_of_ascii c in
  let two d := String backslash (String (Ascii.ascii_of_N d) "") in
  if (n =? 34)%N then two 34%N
  else if (n =? 92)%N then two 92%N
  else if (n =? 8)%N then two 98%N
  else if (n =? 9)%N then two 116%N
  else if (n =? 10)%N then two 110%N
  else if (n =? 12)%N then two 102%N
  else if (n =? 13)%N then two 114%N
  else if (n <? 32)%N then
    String backslash ("u00" +:+ String (hex_low (n / 16)) (String (hex_low (n mod 16)) ""))
  else String c "".

Fixpoint escape (s : string) : string :=
  match s with EmptyString => "" | String c s' => escape_unit c +:+ escape s' end.

Definition json_quote (s : string) : string := String dq_char (escape s +:+ String dq_char "").

Fixpoint string_join (sep : string) (l : list string) : string :=
  match l with
  | [] => ""
  | [x] => x
  | x :: l' => x +:+ sep +:+ string_join sep l'
  end.

(** [None] is the answer [undefined]: in an array it prints as [null], as a
    member it is left out. *)
Fixpoint stringify (v : json) : option string :=
  match v with
  | JUndef => None
  | JNull => Some "null"
  | JBool b => Some (if b then "true" else "false")
  | JNum n => Some (str_of_Z n)
  | JStr s => Some (json_quote s)
  | JDate ms => Some (json_quote (toISOString ms))
  | JArr l => Some ("[" +:+ string_join "," (map (fun x => opt_or (stringify x) "null") l) +:+ "]")
  | JObj fs => Some ("{" +:+ string_join ","
      (omap (fun kv => (fun t => json_quote kv.1 +:+ ":" +:+ t) <$> stringify kv.2) fs) +:+ "}")
  end.

(** ** [sameStoredValue] *)
Definition field_cmp (a b : string * json) : Z := string_cmp a.1 b.1.

Fixpoint canonical (v : json) : json :=
  match v with
  | JDate ms => JStr (toISOString ms)
  | JArr l => JArr (map canonical l)
  | JObj fs => JObj (jsort field_cmp
      (omap (fun kv => match kv.2 with
                       | JUndef => None
                       | _ => Some (kv.1, canonical kv.2)
                       end) fs))
  | _ => v
  end.

Definition canonicalJson (v : json) : string := opt_or (stringify (canonical v)) "undefined".

Definition sameStoredValue (stored requested : json) : bool :=
  bool_decide (canonicalJson stored = canonicalJson requested).

Record token_identity : Type := mkTokenIdentity {
  ti_workflowId : string;
  ti_signalName : string;
  ti_bearer : string;
}.

Definition sameSignalTokenCreate (existing requested : token_identity) : bool :=
  bool_decide (ti_workflowId existing = ti_workflowId requested) &&
  bool_decide (ti_signalName existing = ti_signalName requested) &&
  bool_decide (ti_bearer existing = ti_bearer requested).

(** ** [workflowMetadataMatches] *)
Definition js_typeof (v : json) : nat :=
  match v with
  | JUndef => 0
  | JBool _ => 1
  | JNum _ => 2
  | JStr _ => 3
  | JNull | JDate _ | JArr _ | JObj _ => 4
  end.

(** Own enumerable properties; a [Date] has none. *)
Definition own_props (v : json) : list (string * json) :=
  match v with JObj fs => fs | _ => [] end.

(** [deepEqual]. The identity test [a === b] on two objects only short-cuts
    the recursion, which answers [true] on equal values anyway. *)
Fixpoint deepEqual (a b : json) {struct a} : bool :=
  match a with
  | JUndef | JNull | JBool _ | JNum _ | JStr _ => bool_decide (a = b)
  | JArr l =>
      match b with
      | JArr l' =>
          (fix go (l l' : list json) : bool :=
             match l, l' with
             | [], [] => true
             | x :: l, y :: l' => deepEqual x y && go l l'
             | _, _ => false
             end) l l'
      | _ => false
      end
  | JDate _ | JObj _ =>
      match b with
      | JDate _ | JObj _ =>
          let br := own_props b in
          bool_decide (length (own_props a) = length br) &&
          match a with
          | JObj ar =>
              (fix go (ar : list (string * json)) : bool :=
                 match ar with
                 | [] => true
                 | (k, x) :: ar' => deepEqual x (prop k br) && go ar'
                 end) ar
          | _ => true
          end
      | _ => false
      end
  end.

Definition workflowMetadataMatches (actual : option (list (string * json)))
    (filter : list (string * json)) : bool :=
  match filter with
  | [] => true
  | _ =>
      match actual with
      | None => false
      | Some a => forallb (fun kv => deepEqual (prop kv.1 a) kv.2) filter
      end
  end.

(** [setWorkflowMetadata] semantics: a shallow merge, [null] removes. *)
Definition applyMetadataPatch (current : option (list (string * json)))
    (patch : list (string * json)) : list (string * json) :=
  foldl (fun merged kv => match kv.2 with
                          | JNull => alist_del kv.1 merged
                          | v => alist_set kv.1 v merged
                          end) (opt_or current []) patch.

(** ** Schedule metadata containment *)
Fixpoint contains (actual filter : json) {struct filter} : bool :=
  match filter with
  | JNull => bool_decide (actual = JNull)
  | JUndef | JBool _ | JNum _ | JStr _ => bool_decide (actual = filter)
  | JArr l =>
      match actual with
      | JArr l' =>
          (fix go (l' l : list json) {struct l} : bool :=
             match l, l' with
             | [], [] => true
             | y :: l, x :: l' => contains x y && go l' l
             | _, _ => false
             end) l' l
      | _ => false
      end
  | JDate _ => match actual with JDate _ | JObj _ => true | _ => false end
  | JObj fs =>
      match actual with
      | JDate _ | JObj _ =>
          (fix go (fs : list (string * json)) : bool :=
             match fs with
             | [] => true
             | (k, y) :: fs' => contains (prop k (own_props actual)) y && go fs'
             end) fs
      | _ => false
      end
  end.

Definition scheduleMetadataContains (actual : option (list (string * json)))
    (filter : list (string * json)) : bool :=
  match filter with
  | [] => true
  | _ => match actual with
         | None => false
         | Some a => contains (JObj a) (JObj filter)
         end
  end.

Fixpoint walk (node : json) (path : list string) {struct node} : list (list string * json) :=
  match node with
  | JObj fs =>
      (fix go (fs : list (string * json)) : list (list string * json) :=
         match fs with
         | [] => []
         | (k, v) :: fs' => walk v (path ++ [k]) ++ go fs'
         end) fs
  | JDate _ => []
  | _ => [(path, node)]
  end.

Definition flattenLeafPaths (filter : list (string * json)) : list (list string * json) :=
  walk (JObj filter) [].

(** ** The stored form of a value

    What two values must share to count as the same stored value: dates are
    their ISO text, an [undefined] array element is [null], [undefined]
    members are gone and keys are sorted. [None] is [undefined] itself. *)
Fixpoint erase_holes (v : json) : json :=
  match v with
  | JUndef => JNull
  | JArr l => JArr (map erase_holes l)
  | JObj fs => JObj (map (fun kv => (kv.1, erase_holes kv.2)) fs)
  | _ => v
  end.

Definition stored_form (v : json) : option json :=
  match v with JUndef => None | _ => Some (erase_holes (canonical v)) end.

(** Texts that reach the printer: no date and no [undefined] left. *)
Fixpoint printable (v : json) : bool :=
  match v with
  | JUndef | JDate _ => false
  | JArr l => forallb printable l
  | JObj fs => forallb (fun kv => printable kv.2) fs
  | _ => true
  end.

Definition text (v : json) : string := opt_or (stringify v) "null".

Lemma stringify_printable v : printable v = true -> stringify v = Some (text v).
Proof. destruct v; done. Qed.

Definition member_text (kv : string * json) : string := json_quote kv.1 +:+ ":" +:+ text kv.2.

Lemma text_arr l : text (JArr l) = "[" +:+ string_join "," (map text l) +:+ "]".
Proof. reflexivity. Qed.

Lemma text_obj fs : forallb (fun kv => printable kv.2) fs = true ->
  text (JObj fs) = "{" +:+ string_join "," (map member_text fs) +:+ "}".
Proof.
  intros H. unfold text at 1. cbn [stringify opt_or from_option id]. do 3 f_equal.
  induction fs as [|[k v] fs IH]; [done|]. cbn in H |- *.
  apply andb_true_iff in H as [Hv Hfs]. rewrite (stringify_printable v Hv); cbn.
  unfold member_text at 1; cbn. f_equal. by apply IH.
Qed.

(** A delimited list prints unambiguously when its items do. *)
Definition ends_item (r : string) : Prop :=
  match r with EmptyString => True | String c _ => is_num_char c = false end.

Section separated.
Context {A : Type} (pr : A -> string) (close : ascii).
Hypothesis Hclose : is_num_char close = false.

Fixpoint items_tail (l : list A) (r : string) : string :=
  match l with
  | [] => String close r
  | x :: l' => "," +:+ pr x +:+ items_tail l' r
  end.

Definition items_text (l : list A) (r : string) : string :=
  match l with [] => String close r | x :: l' => pr x +:+ items_tail l' r end.

Lemma join_items l r :
  string_join "," (map pr l) +:+ String close "" +:+ r = items_text l r.
Proof.
  destruct l as [|x l]; [done|]. cbn [map items_text].
  revert x. induction l as [|y l IH]; intros x; [done|].
  cbn [map string_join items_tail] in *. rewrite !string_app_assoc. do 2 f_equal. apply IH.
Qed.

Lemma items_tail_ends l r : ends_item (items_tail l r).
Proof. destruct l; cbn; done. Qed.

Hypothesis Hclose_comma : close <> Ascii.ascii_of_N 44.

Lemma items_tail_inj (l l' : list A) r s :
  Forall (fun x => forall y r s, y ∈ l' -> ends_item r -> ends_item s ->
            pr x +:+ r = pr y +:+ s -> x = y /\ r = s) l ->
  items_tail l r = items_tail l' s -> l = l' /\ r = s.
Proof.
  intros Hl. revert l'  Hl. induction l as [|x l IH]; intros [|y l'] Hl; cbn [items_tail]; intros H.
  - injection H as ->. done.
  - injection H as Hc _. by destruct Hclose_comma.
  - injection H as Hc _. by destruct Hclose_comma.
  - apply Forall_cons in Hl as [Hx Hl]. apply (string_app_inj_l ",") in H.
    destruct (Hx y _ _ (list_elem_of_here _ _) (items_tail_ends _ _) (items_tail_ends _ _) H)
      as [-> H'].
    destruct (IH l') as [-> ->]; [|done|done].
    eapply Forall_impl; [exact Hl|]. intros z Hz w r' s' Hw. apply Hz. by right.
Qed.

Hypothesis Hopen : forall x r s, pr x +:+ r <> String close s.

Lemma items_text_inj (l l' : list A) r s :
  Forall (fun x => forall y r s, y ∈ l' -> ends_item r -> ends_item s ->
            pr x +:+ r = pr y +:+ s -> x = y /\ r = s) l ->
  items_text l r = items_text l' s -> l = l' /\ r = s.
Proof.
  intros Hl. destruct l as [|x l], l' as [|y l']; cbn [items_text]; intros H.
  - by injection H as ->.
  - by destruct (Hopen _ _ _ (eq_sym H)).
  - by destruct (Hopen _ _ _ H).
  - apply Forall_cons in Hl as [Hx Hl].
    destruct (Hx y _ _ (list_elem_of_here _ _) (items_tail_ends _ _) (items_tail_ends _ _) H)
      as [-> H'].
    destruct (items_tail_inj l l' r s) as [-> ->]; [|done|done].
    eapply Forall_impl; [exact Hl|]. intros z Hz w r' s' Hw. apply Hz. by right.
Qed.
End separated.

(** Strings: a code unit can be read back off the front of an escaped text. *)
Definition unescape_unit (s : string) : option (ascii * string) :=
  match s with
  | EmptyString => None
  | String c r =>
      if (Ascii.N_of_ascii c =? 34)%N then None
      else if (Ascii.N_of_ascii c =? 92)%N then
        match r with
        | EmptyString => None
        | String d r1 =>
            match Ascii.N_of_ascii d with
            | 98%N => Some (Ascii.ascii_of_N 8, r1)
            | 116%N => Some (Ascii.ascii_of_N 9, r1)
            | 110%N => Some (Ascii.ascii_of_N 10, r1)
            | 102%N => Some (Ascii.ascii_of_N 12, r1)
            | 114%N => Some (Ascii.ascii_of_N 13, r1)
            | 117%N =>
                match r1 with
                | String _ (String _ (String h (String g r2))) =>
                    let dec x := let n := Ascii.N_of_ascii x in
                                 if (n <? 58)%N then (n - 48)%N else (n - 87)%N in
                    Some (Ascii.ascii_of_N (16 * dec h + dec g), r2)
                | _ => None
                end
            | _ => Some (d, r1)
            end
        end
      else Some (c, r)
  end.

Lemma unescape_escape_unit c r : unescape_unit (escape_unit c +:+ r) = Some (c, r).
Proof. destruct c as [[] [] [] [] [] [] [] []]; reflexivity. Qed.

Lemma json_quote_inj a b r s : json_quote a +:+ r = json_quote b +:+ s -> a = b /\ r = s.
Proof.
  unfold json_quote. rewrite !string_app_cons, !string_app_assoc. intros [= H].
  autorewrite with str in H. revert b H.
  induction a as [|c a IH]; intros [|d b]; cbn [escape]; autorewrite with str; intros H.
  - by injection H as ->.
  - pose proof (unescape_escape_unit d (escape b +:+ String dq_char s)) as E.
    rewrite string_app_assoc in H. by rewrite <- H in E.
  - pose proof (unescape_escape_unit c (escape a +:+ String dq_char r)) as E.
    rewrite string_app_assoc in H. by rewrite H in E.
  - rewrite !string_app_assoc in H.
    pose proof (unescape_escape_unit c (escape a +:+ String dq_char r)) as E.
    rewrite H, unescape_escape_unit in E. injection E as -> E.
    by destruct (IH b (eq_sym E)) as [-> ->].
Qed.

(** The first character of a text tells the kind of the value. *)
Definition head_kind (s : string) : N :=
  match s with
  | EmptyString => 0
  | String c _ => if is_num_char c then 1 else Ascii.N_of_ascii c
  end%N.

Definition json_kind (v : json) : N :=
  match v with
  | JNull | JUndef => 110
  | JBool true => 116
  | JBool false => 102
  | JNum _ => 1
  | JStr _ | JDate _ => 34
  | JArr _ => 91
  | JObj _ => 123
  end%N.

Lemma text_head v r : head_kind (text v +:+ r) = json_kind v.
Proof.
  destruct v as [| |[]|n|s|ms|l|fs]; try reflexivity.
  unfold text; cbn [stringify opt_or from_option id].
  pose proof (str_of_Z_chars n) as Hc. pose proof (str_of_Z_nonempty n) as Hn.
  destruct (str_of_Z n) as [|c t]; [done|]. autorewrite with str. cbn in *.
  apply andb_true_iff in Hc as [-> _]. done.
Qed.

Lemma printable_elem l x : printable (JArr l) = true -> x ∈ l -> printable x = true.
Proof.
  cbn. intros H Hx. induction Hx as [|y l' Hx IH]; cbn in H;
    apply andb_true_iff in H as [H1 H2]; auto.
Qed.

Lemma printable_member fs kv : printable (JObj fs) = true -> kv ∈ fs -> printable kv.2 = true.
Proof.
  cbn. intros H Hx. induction Hx as [|y l' Hx IH]; cbn in H;
    apply andb_true_iff in H as [H1 H2]; auto.
Qed.

Lemma text_inj v : printable v = true -> forall w r s, printable w = true ->
  ends_item r -> ends_item s -> text v +:+ r = text w +:+ s -> v = w /\ r = s.
Proof.
  induction v as [| |b|n|t|ms|l IH|fs IH] using json_ind'; intros Hv w r s Hw Hr Hs H;
    pose proof (text_head w s) as Hk; rewrite <- H, text_head in Hk; try done.
  - destruct w as [| |[]|?|?|?|?|?]; try done. by apply (string_app_inj_l "null") in H.
  - destruct w as [| |b'|?|?|?|?|?]; try (by destruct b); try done.
    destruct b, b'; try done; [by apply (string_app_inj_l "true") in H
      |by apply (string_app_inj_l "false") in H].
  - destruct w as [| |[]|n'|?|?|?|?]; try done.
    apply (string_split_unique is_num_char) in H as [H ->];
      [|apply str_of_Z_chars|apply str_of_Z_chars|done|done].
    by apply str_of_Z_inj in H as ->.
  - destruct w as [| |[]|n'|?|?|?|?]; try done. by apply json_quote_inj in H as [-> ->].
  - destruct w as [| |[]|n'|?|?|l'|?]; try done.
    rewrite !text_arr, !string_app_assoc in H. apply (string_app_inj_l "[") in H.
    rewrite !(join_items text (Ascii.ascii_of_N 93)) in H.
    apply items_text_inj in H as [-> ->]; try done.
    + intros x r0 s0 E. pose proof (text_head x r0) as E'. rewrite E in E'. by destruct x as [| |[]| | | | |].
    + apply Forall_forall. intros x Hx y r0 s0 Hy. rewrite Forall_forall in IH.
      apply IH; [done|exact (printable_elem _ _ Hv Hx)|exact (printable_elem _ _ Hw Hy)].
  - destruct w as [| |[]|n'|?|?|?|fs']; try done.
    rewrite !text_obj, !string_app_assoc in H by done. apply (string_app_inj_l "{") in H.
    rewrite !(join_items member_text (Ascii.ascii_of_N 125)) in H.
    apply items_text_inj in H as [-> ->]; try done.
    apply Forall_forall. intros [k x] Hx [k' y] r0 s0 Hy Hr0 Hs0.
    unfold member_text; cbn. rewrite !string_app_assoc. intros [-> E]%json_quote_inj.
    apply (string_app_inj_l ":") in E. rewrite Forall_forall in IH.
    destruct (IH (k', x) Hx (printable_member _ _ Hv Hx) y r0 s0
      (printable_member _ _ Hw Hy) Hr0 Hs0 E) as [Hxy ->]. cbn in Hxy. by subst.
Qed.

(** Erasing holes changes nothing in the printed text. *)
Lemma canonical_no_date v : forall ms, canonical v <> JDate ms.
Proof. by destruct v. Qed.

Fixpoint date_free (v : json) : bool :=
  match v with
  | JDate _ => false
  | JArr l => forallb date_free l
  | JObj fs => forallb (fun kv => date_free kv.2 && negb (bool_decide (kv.2 = JUndef))) fs
  | _ => true
  end.

Lemma forallb_Forall {A} (p : A -> bool) l : forallb p l = true <-> Forall (fun x => p x = true) l.
Proof.
  induction l as [|x l IH]; cbn; [by split|]. rewrite andb_true_iff, Forall_cons, IH. done.
Qed.

Lemma canonical_date_free v : date_free (canonical v) = true.
Proof.
  induction v as [| |b|n|t|ms|l IH|fs IH] using json_ind'; try done.
  - cbn. rewrite forallb_Forall. by apply Forall_map.
  - cbn. rewrite forallb_Forall. rewrite (jsort_perm field_cmp).
    induction IH as [|[k x] fs Hx Hfs IH]; cbn; [constructor|].
    destruct x; cbn; try exact IH; constructor; try exact IH; cbn in *; by rewrite ?Hx.
Qed.

Lemma stringify_erase v : date_free v = true ->
  printable (erase_holes v) = true /\ text (erase_holes v) = text v.
Proof.
  induction v as [| |b|n|t|ms|l IH|fs IH] using json_ind'; intros Hd; try done.
  - cbn in Hd. rewrite forallb_Forall in Hd.
    assert (Forall (fun v => printable (erase_holes v) = true /\ text (erase_holes v) = text v) l)
      as Hl.
    { apply Forall_forall. intros x Hx. rewrite Forall_forall in IH, Hd. by apply IH, Hd. }
    split.
    + cbn. rewrite forallb_Forall. apply Forall_map. eapply Forall_impl; [exact Hl|]. by intros ? [].
    + cbn [erase_holes]. rewrite !text_arr. do 3 f_equal.
      clear -Hl. induction Hl as [|x l [_ Hx] Hl IH]; cbn; [done|]. by rewrite Hx, IH.
  - cbn in Hd. rewrite forallb_Forall in Hd.
    assert (Forall (fun kv => printable (erase_holes kv.2) = true /\
        text (erase_holes kv.2) = text kv.2 /\ kv.2 <> JUndef) fs) as Hl.
    { apply Forall_forall. intros x Hx. rewrite Forall_forall in IH, Hd.
      specialize (Hd x Hx). apply andb_true_iff in Hd as [Hd Hu].
      destruct (IH x Hx Hd). split_and!; try done.
      intros E. by rewrite E in Hu. }
    assert (forallb (fun kv => printable kv.2)
      (map (fun kv : string * json => (kv.1, erase_holes kv.2)) fs) = true) as Hp.
    { rewrite forallb_Forall. apply Forall_map. eapply Forall_impl; [exact Hl|]. by intros ? []. }
    split; [exact Hp|]. cbn [erase_holes]. rewrite text_obj by exact Hp.
    unfold text at 1. cbn [stringify opt_or from_option id]. do 3 f_equal.
    clear -Hl. induction Hl as [|[k x] fs (Hp & Hx & Hu) Hl IH]; cbn; [done|]. cbn in *.
    unfold member_text at 1; cbn. rewrite Hx, IH. unfold text. by destruct x.
Qed.

Lemma canonicalJson_text v : v <> JUndef ->
  canonicalJson v = text (erase_holes (canonical v)) /\
  printable (erase_holes (canonical v)) = true.
Proof.
  intros Hv. destruct (stringify_erase (canonical v) (canonical_date_free v)) as [Hp Ht].
  split; [|done]. rewrite Ht. unfold canonicalJson, text. by destruct v.
Qed.

Lemma canonicalJson_undefined v : canonicalJson v = "undefined" <-> v = JUndef.
Proof.
  split; [|by intros ->]. intros H. destruct (decide (v = JUndef)) as [|Hv]; [done|].
  destruct (canonicalJson_text v Hv) as [Ht _].
  pose proof (text_head (erase_holes (canonical v)) "") as Hh.
  rewrite string_app_nil_r, <- Ht, H in Hh.
  by destruct (erase_holes (canonical v)) as [| |[]| | | | |].
Qed.

Lemma same_stored_forms stored requested :
  sameStoredValue stored requested = true <-> stored_form stored = stored_form requested.
Proof.
  unfold sameStoredValue. rewrite bool_decide_eq_true.
  assert (forall v, v <> JUndef -> stored_form v = Some (erase_holes (canonical v))) as Hsf
    by (by intros []).
  destruct (decide (stored = JUndef)) as [->|Hs], (decide (requested = JUndef)) as [->|Hr].
  - done.
  - rewrite (Hsf _ Hr). split; [|done]. intros E. symmetry in E.
    by apply canonicalJson_undefined in E.
  - rewrite (Hsf _ Hs). split; [|done]. intros E. by apply canonicalJson_undefined in E.
  - rewrite (Hsf _ Hs), (Hsf _ Hr).
    destruct (canonicalJson_text _ Hs) as [-> Hp1], (canonicalJson_text _ Hr) as [-> Hp2].
    split; [|by intros [= ->]]. intros E.
    destruct (text_inj _ Hp1 (erase_holes (canonical requested)) "" "" Hp2 I I) as [-> _];
      [by rewrite !string_app_nil_r|done].
Qed.

(** [sameStoredValue] decides equality of stored values: it answers true
    exactly when both values have the same stored form (dates as ISO text,
    members sorted and without [undefined], holes as [null]). In particular
    the comparison of printed texts never confuses two different values. *)
Theorem sameStoredValue_iff stored requested :
  sameStoredValue stored requested = true <-> stored_form stored = stored_form requested.
Proof. apply same_stored_forms. Qed.

(** Key order does not matter to the stores. *)
Example sameStoredValue_reordered :
  sameStoredValue (JObj [("a", JNum 1); ("b", JArr [JUndef; JDate 0])])
    (JObj [("b", JArr [JNull; JStr "1970-01-01T00:00:00.000Z"]); ("c", JUndef); ("a", JNum 1)])
  = true.
Proof. reflexivity. Qed.

(** [deepEqual] compares two dates by their (no) own properties, and a
    member that is [undefined] with one that is missing. *)
Example dates_all_match :
  workflowMetadataMatches (Some [("at", JDate 0)]) [("at", JDate 86400000)] = true.
Proof. reflexivity. Qed.

Example undefined_matches_other_key :
  workflowMetadataMatches (Some [("m", JObj [("a", JUndef)])]) [("m", JObj [("b", JNum 1)])] = true.
Proof. reflexivity. Qed.
