(* ===== verification/Journal.v ===== *)
(** The activity journal of [.journaled()] steps: [activity-journal.ts],
    [in-memory/journal.ts] and the branch-path grammar of [journal-format.ts].

    A step's journal keeps its entries in write order, a position index by
    slot and a cached sorted view. The file shows that this representation
    is an insertion-ordered map from slot to entry ([slots_map]), and states
    the journal's guarantees on that view. *)
From S2P Require Import Prelude Leases Json.
Open Scope string_scope.
Open Scope list_scope.
Open Scope Z_scope.

(** ** Entries *)
Inductive JournalStepType : Type :=
| StActivity | StSleep | StSignal | StCompensation | StChild.
#[global] Instance JournalStepType_eq_dec : EqDecision JournalStepType.
Proof. solve_decision. Defined.

Inductive JournalPhase : Type := PhPending | PhCompleted.
#[global] Instance JournalPhase_eq_dec : EqDecision JournalPhase.
Proof. solve_decision. Defined.

Record JournalFailureExit : Type := mkFailure {
  jf_error : string;
  jf_errorTag : option string;
  jf_errorName : option string;
  jf_errorData : option json;
}.

Inductive JournalExit : Type :=
| ExSuccess (value : json)
| ExFailure (failure : JournalFailureExit).

Record CompletePendingResult : Type := mkCompletePending {
  cp_completed : bool;
  cp_exit : option JournalExit;
}.

Record JournalSlot : Type := mkSlot {
  js_activityIndex : Z;
  js_branchPath : string;
}.

Record JournalEntry : Type := mkEntry {
  je_activityIndex : Z;
  je_branchPath : string;
  je_activityName : string;
  je_stepType : option JournalStepType;
  je_phase : option JournalPhase;
  je_payloadHash : option string;
  je_exit : option JournalExit;
  je_wakeAt : option Z;
  je_createdAt : Z;
}.

Definition entry_slot (e : JournalEntry) : JournalSlot :=
  mkSlot (je_activityIndex e) (je_branchPath e).

(** An exit as the value [sameStoredValue] compares. *)
Definition opt_str (o : option string) : json := from_option JStr JUndef o.

Definition exit_json (x : JournalExit) : json :=
  match x with
  | ExSuccess v => JObj [("tag", JStr "Success"); ("value", v)]
  | ExFailure f => JObj [("tag", JStr "Failure"); ("error", JStr (jf_error f));
      ("errorTag", opt_str (jf_errorTag f)); ("errorName", opt_str (jf_errorName f));
      ("errorData", opt_or (jf_errorData f) JUndef)]
  end.

(** ** Branch paths *)
Definition branchPrefix (parallelPath : string) (branch : Z) : string :=
  parallelPath +:+ "/" +:+ str_of_Z branch.

Definition pathInBranch (prefix : string) (seq : Z) : string :=
  prefix +:+ "." +:+ str_of_Z seq.

(** ** The store *)
Definition slotKey (slot : JournalSlot) : string :=
  str_of_Z (js_activityIndex slot) +:+ ":" +:+ js_branchPath slot.

Definition journalKey (workflowId stepName : string) : string :=
  workflowId +:+ "::" +:+ stepName.

Record JournalSlots : Type := mkSlots {
  entries : list JournalEntry;
  position : jmap string nat;
  sorted : option (list JournalEntry);
}.

Record InMemoryJournal : Type := mkJournal {
  journal : jmap string JournalSlots;
  journalKeys : jmap string (list string);
  sleepKeys : list string;
}.

Definition new_journal : InMemoryJournal := mkJournal ∅ ∅ [].

(** [putEntry]: replace the entry at the slot, or append. *)
Definition putEntry (slots : JournalSlots) (entry : JournalEntry) : JournalSlots :=
  let key := slotKey (entry_slot entry) in
  match position slots !! key with
  | Some at_ => mkSlots (<[at_ := entry]> (entries slots)) (position slots) None
  | None => mkSlots (entries slots ++ [entry])
              (<[key := length (entries slots)]> (position slots)) None
  end.

(** The loop that re-indexes [entries] from position [i]. *)
Fixpoint index_from (i : nat) (l : list JournalEntry) (m : jmap string nat) : jmap string nat :=
  match l with
  | [] => m
  | e :: l' => index_from (S i) l' (<[slotKey (entry_slot e) := i]> m)
  end.

Definition filterEntries (slots : JournalSlots) (keep : JournalEntry -> bool) : JournalSlots :=
  let kept := base.filter (fun e => Is_true (keep e)) (entries slots) in
  mkSlots kept (index_from 0 kept ∅) None.

Definition journalOf (workflowId stepName : string) (j : InMemoryJournal) : option JournalSlots :=
  journal j !! journalKey workflowId stepName.

Definition openJournal (workflowId stepName : string) (j : InMemoryJournal)
    : JournalSlots * InMemoryJournal :=
  let key := journalKey workflowId stepName in
  match journal j !! key with
  | Some slots => (slots, j)
  | None =>
      let slots := mkSlots [] ∅ None in
      let keys := opt_or (journalKeys j !! workflowId) [] in
      (slots, mkJournal (<[key := slots]> (journal j))
                (<[workflowId := set_add key keys]> (journalKeys j)) (sleepKeys j))
  end.

Definition set_slots (workflowId stepName : string) (slots : JournalSlots) (j : InMemoryJournal)
    : InMemoryJournal :=
  mkJournal (<[journalKey workflowId stepName := slots]> (journal j)) (journalKeys j) (sleepKeys j).

Definition entry_at (slots : JournalSlots) (slot : JournalSlot) : option JournalEntry :=
  at_ ← position slots !! slotKey slot; entries slots !! at_.

Section store.
(** [String.prototype.localeCompare], an argument of the model: the order
    of branch paths within an activity index is the host's collation. *)
Variable localeCompare : string -> string -> Z.

Definition entry_cmp (a b : JournalEntry) : Z :=
  if bool_decide (je_activityIndex a <> je_activityIndex b)
  then je_activityIndex a - je_activityIndex b
  else localeCompare (je_branchPath a) (je_branchPath b).

Definition load (workflowId stepName : string) (j : InMemoryJournal)
    : list JournalEntry * InMemoryJournal :=
  match journalOf workflowId stepName j with
  | None => ([], j)
  | Some slots =>
      let view := match sorted slots with
                  | Some s => s
                  | None => jsort entry_cmp (entries slots)
                  end in
      (view, set_slots workflowId stepName
               (mkSlots (entries slots) (position slots) (Some view)) j)
  end.

(** [appendEntry]'s body: idempotent on a completed slot. *)
Definition append (now : Z) (workflowId stepName : string) (slot : JournalSlot)
    (activityName : string) (payloadHash : option string) (exit : JournalExit)
    (j : InMemoryJournal) : InMemoryJournal :=
  let '(slots, j) := openJournal workflowId stepName j in
  let existing := entry_at slots slot in
  match existing with
  | Some e => if bool_decide (je_phase e <> Some PhPending) then j else
      set_slots workflowId stepName (putEntry slots
        (mkEntry (js_activityIndex slot) (js_branchPath slot) activityName (Some StActivity)
           (Some PhCompleted) (opt_else payloadHash (je_payloadHash e)) (Some exit) None now)) j
  | None =>
      set_slots workflowId stepName (putEntry slots
        (mkEntry (js_activityIndex slot) (js_branchPath slot) activityName (Some StActivity)
           (Some PhCompleted) payloadHash (Some exit) None now)) j
  end.

(** [appendPendingEntry]'s body: idempotent on the slot. *)
Definition appendPending (now : Z) (workflowId stepName : string) (slot : JournalSlot)
    (activityName : string) (payloadHash : option string) (stepType : JournalStepType)
    (wakeAt : option Z) (j : InMemoryJournal) : InMemoryJournal :=
  let '(slots, j) := openJournal workflowId stepName j in
  match position slots !! slotKey slot with
  | Some _ => j
  | None =>
      let j := set_slots workflowId stepName (putEntry slots
        (mkEntry (js_activityIndex slot) (js_branchPath slot) activityName (Some stepType)
           (Some PhPending) payloadHash None wakeAt now)) j in
      if bool_decide (stepType = StSleep)
      then mkJournal (journal j) (journalKeys j)
             (set_add (journalKey workflowId stepName) (sleepKeys j))
      else j
  end.

(** [completePendingEntry]'s body: first writer wins. *)
Definition completePending (workflowId stepName : string) (slot : JournalSlot)
    (exit : JournalExit) (j : InMemoryJournal) : CompletePendingResult * InMemoryJournal :=
  match journalOf workflowId stepName j with
  | None => (mkCompletePending false None, j)
  | Some slots =>
      match entry_at slots slot with
      | None => (mkCompletePending false None, j)
      | Some existing =>
          if bool_decide (je_phase existing <> Some PhPending) then
            let again := match je_exit existing with
                         | Some x => sameStoredValue (exit_json x) (exit_json exit)
                         | None => false
                         end in
            (mkCompletePending again (je_exit existing), j)
          else
            (mkCompletePending true (Some exit),
             set_slots workflowId stepName (putEntry slots
               (mkEntry (je_activityIndex existing) (je_branchPath existing)
                  (je_activityName existing) (je_stepType existing) (Some PhCompleted)
                  (je_payloadHash existing) (Some exit) (je_wakeAt existing)
                  (je_createdAt existing))) j)
      end
  end.

Definition discard (workflowId stepName : string) (slots : list JournalSlot)
    (j : InMemoryJournal) : InMemoryJournal :=
  match journalOf workflowId stepName j with
  | None => j
  | Some s =>
      let drop := slotKey <$> slots in
      set_slots workflowId stepName
        (filterEntries s (fun e => bool_decide (slotKey (entry_slot e) ∉ drop))) j
  end.

Definition discardIndex (workflowId stepName : string) (activityIndex : Z)
    (j : InMemoryJournal) : InMemoryJournal :=
  match journalOf workflowId stepName j with
  | None => j
  | Some s =>
      set_slots workflowId stepName
        (filterEntries s (fun e => bool_decide (je_activityIndex e <> activityIndex))) j
  end.

(** *** Scanner hooks *)
Record DueSleep : Type := mkDueSleep {
  ds_workflowId : string;
  ds_stepName : string;
  ds_activityIndex : Z;
  ds_branchPath : string;
  ds_wakeAt : Z;
}.

(** [key.split("::")]. *)
Fixpoint split_colons (cur s : string) : list string :=
  match s with
  | String a (String b r as r') =>
      if bool_decide (a = Ascii.ascii_of_N 58) && bool_decide (b = Ascii.ascii_of_N 58)
      then cur :: split_colons "" r
      else split_colons (cur +:+ String a "") r'
  | _ => [cur +:+ s]
  end.

Definition is_pending_sleep (e : JournalEntry) : bool :=
  bool_decide (je_stepType e = Some StSleep) && bool_decide (je_phase e = Some PhPending).

(** The inner loop over one step's entries: the hits so far, the number of
    pending sleeps seen, and whether the limit was reached. *)
Fixpoint scan_entries (now limit : Z) (workflowId stepName : string)
    (es : list JournalEntry) (due : list DueSleep) (pendingSleeps : nat)
    : list DueSleep * nat * bool :=
  match es with
  | [] => (due, pendingSleeps, false)
  | e :: es' =>
      if is_pending_sleep e then
        match je_wakeAt e with
        | Some w =>
            if w <=? now then
              let due' := due ++ [mkDueSleep workflowId stepName (je_activityIndex e)
                                    (je_branchPath e) w] in
              if Z.of_nat (length due') >=? limit then (due', S pendingSleeps, true)
              else scan_entries now limit workflowId stepName es' due' (S pendingSleeps)
            else scan_entries now limit workflowId stepName es' due (S pendingSleeps)
        | None => scan_entries now limit workflowId stepName es' due (S pendingSleeps)
        end
      else scan_entries now limit workflowId stepName es' due pendingSleeps
  end.

(** The outer loop over the scan set. *)
Fixpoint scan_keys (now limit : Z) (entries_of : string -> list JournalEntry) (keys : list string)
    (due : list DueSleep) (live : list string) : list DueSleep * list string :=
  match keys with
  | [] => (due, live)
  | key :: keys' =>
      let parts := split_colons "" key in
      let '(due', pendingSleeps, full) :=
        scan_entries now limit (nth 0 parts "") (nth 1 parts "") (entries_of key) due 0 in
      if full then (due', live)
      else scan_keys now limit entries_of keys' due'
             (if (pendingSleeps =? 0)%nat then set_remove key live else live)
  end.

Definition findDueSleeps (now limit : Z) (j : InMemoryJournal)
    : list DueSleep * InMemoryJournal :=
  let '(due, live) :=
    scan_keys now limit (fun key => from_option entries [] (journal j !! key))
      (sleepKeys j) [] (sleepKeys j) in
  (due, mkJournal (journal j) (journalKeys j) live).

Definition findPendingSignal (workflowId stepName signalName : string) (j : InMemoryJournal)
    : option JournalEntry :=
  match journalOf workflowId stepName j with
  | None => None
  | Some s => List.find (fun e => bool_decide (je_stepType e = Some StSignal) &&
                bool_decide (je_phase e = Some PhPending) &&
                bool_decide (je_activityName e = signalName)) (entries s)
  end.

(** *** Deletion *)
Definition deleteStep (workflowId stepName : string) (j : InMemoryJournal) : InMemoryJournal :=
  mkJournal (delete (journalKey workflowId stepName) (journal j)) (journalKeys j) (sleepKeys j).

Definition deleteWorkflow (workflowId : string) (j : InMemoryJournal) : InMemoryJournal :=
  mkJournal (jm_delete_all (opt_or (journalKeys j !! workflowId) []) (journal j))
    (delete workflowId (journalKeys j)) (sleepKeys j).

Definition clear : InMemoryJournal := new_journal.

(** *** Calls as steps *)
Inductive journal_op : Type :=
| JLoad (workflowId stepName : string)
| JAppend (workflowId stepName : string) (slot : JournalSlot) (activityName : string)
    (payloadHash : option string) (exit : JournalExit)
| JAppendPending (workflowId stepName : string) (slot : JournalSlot) (activityName : string)
    (payloadHash : option string) (stepType : JournalStepType) (wakeAt : option Z)
| JCompletePending (workflowId stepName : string) (slot : JournalSlot) (exit : JournalExit)
| JDiscard (workflowId stepName : string) (slots : list JournalSlot)
| JDiscardIndex (workflowId stepName : string) (activityIndex : Z)
| JFindDueSleeps (now limit : Z)
| JDeleteStep (workflowId stepName : string)
| JDeleteWorkflow (workflowId : string)
| JClear
| JFindPendingSignal (workflowId stepName signalName : string).

(** What a call answers. *)
Inductive journal_out : Type :=
| ONone
| OEntries (l : list JournalEntry)
| OComplete (r : CompletePendingResult)
| ODue (l : list DueSleep)
| OEntry (e : option JournalEntry).

Definition exec_journal_op (now : Z) (op : journal_op) (j : InMemoryJournal)
    : journal_out * InMemoryJournal :=
  match op with
  | JLoad w s => let '(l, j) := load w s j in (OEntries l, j)
  | JAppend w s sl n h x => (ONone, append now w s sl n h x j)
  | JAppendPending w s sl n h t wk => (ONone, appendPending now w s sl n h t wk j)
  | JCompletePending w s sl x => let '(r, j) := completePending w s sl x j in (OComplete r, j)
  | JDiscard w s sls => (ONone, discard w s sls j)
  | JDiscardIndex w s i => (ONone, discardIndex w s i j)
  | JFindDueSleeps n l => let '(d, j) := findDueSleeps n l j in (ODue d, j)
  | JDeleteStep w s => (ONone, deleteStep w s j)
  | JDeleteWorkflow w => (ONone, deleteWorkflow w j)
  | JClear => (ONone, clear)
  | JFindPendingSignal w s n => (OEntry (findPendingSignal w s n j), j)
  end.

Definition run_journal_op (now : Z) (op : journal_op) (j : InMemoryJournal) : InMemoryJournal :=
  (exec_journal_op now op j).2.

Definition run_journal_ops : list (Z * journal_op) -> InMemoryJournal -> InMemoryJournal :=
  run_ops run_journal_op.

(** ** The representation invariant *)
Definition keys_of (l : list JournalEntry) : list string := (fun e => slotKey (entry_slot e)) <$> l.

Record slots_ok (s : JournalSlots) : Prop := {
  so_position : forall k i, position s !! k = Some i <-> keys_of (entries s) !! i = Some k;
  so_nodup : NoDup (keys_of (entries s));
  so_sorted : forall l, sorted s = Some l -> l = jsort entry_cmp (entries s);
}.

Record journal_ok (j : InMemoryJournal) : Prop := {
  jo_slots : forall k s, journal j !! k = Some s -> slots_ok s;
  jo_keys : forall k s, journal j !! k = Some s -> exists w t, k = journalKey w t /\
              k ∈ opt_or (journalKeys j !! w) [];
  jo_wf : jm_wf (journal j);
}.

Lemma slots_ok_empty : slots_ok (mkSlots [] ∅ None).
Proof. split; cbn; [|constructor|done]. intros k i. by destruct i. Qed.

(** What a slot holds, through the position index or by search. *)
Lemma entry_at_Some s slot e : slots_ok s ->
  entry_at s slot = Some e <-> e ∈ entries s /\ slotKey (entry_slot e) = slotKey slot.
Proof.
  intros [Hp Hn _]. unfold entry_at. split.
  - intros H. destruct (position s !! slotKey slot) as [i|] eqn:E; [|done]. cbn in H.
    apply Hp in E. unfold keys_of in E. rewrite list_lookup_fmap, H in E. injection E as E.
    split; [by eapply list_elem_of_lookup_2|done].
  - intros [[i Hi]%list_elem_of_lookup Hk].
    assert (position s !! slotKey slot = Some i) as ->; [|done].
    apply Hp. unfold keys_of. by rewrite list_lookup_fmap, Hi, <- Hk.
Qed.

Lemma position_None s slot : slots_ok s ->
  position s !! slotKey slot = None <-> slotKey slot ∉ keys_of (entries s).
Proof.
  intros [Hp Hn _]. split.
  - intros H [i Hi]%list_elem_of_lookup. apply Hp in Hi. congruence.
  - intros H. destruct (position s !! slotKey slot) as [i|] eqn:E; [|done].
    apply Hp, list_elem_of_lookup_2 in E. done.
Qed.

Lemma putEntry_ok s e : slots_ok s -> slots_ok (putEntry s e).
Proof.
  intros Hok. pose proof Hok as [Hp Hn _]. unfold putEntry.
  destruct (position s !! slotKey (entry_slot e)) as [i|] eqn:E.
  - pose proof E as Hi. apply Hp in Hi.
    assert (keys_of (<[i := e]> (entries s)) = keys_of (entries s)) as Hk.
    { unfold keys_of. rewrite list_fmap_insert. apply list_insert_id. exact Hi. }
    split; cbn [entries position sorted]; rewrite ?Hk; done.
  - assert (slotKey (entry_slot e) ∉ keys_of (entries s)) as Hni by (by apply position_None).
    assert (keys_of (entries s ++ [e]) = keys_of (entries s) ++ [slotKey (entry_slot e)]) as Hk
      by (unfold keys_of; by rewrite fmap_app).
    assert (length (keys_of (entries s)) = length (entries s)) as Hlen
      by (unfold keys_of; by rewrite length_fmap).
    split; cbn [entries position sorted]; rewrite ?Hk.
    + intros k i. rewrite jlookup_insert. case_decide as Hd; subst.
      * rewrite <- Hlen. split.
        -- intros [= <-]. by apply list_lookup_middle.
        -- intros [Hi|[Hge Hi]]%lookup_app_Some.
           ++ apply list_elem_of_lookup_2 in Hi. done.
           ++ apply list_lookup_singleton_Some in Hi as [? _]. f_equal. lia.
      * rewrite Hp. split; [intros Hi; by apply lookup_app_l_Some|].
        intros [Hi|[Hge Hi]]%lookup_app_Some; [done|].
        apply list_lookup_singleton_Some in Hi as [_ <-]. done.
    + apply NoDup_app. split_and!; [done| |apply NoDup_singleton].
      by intros x ? ->%list_elem_of_singleton.
    + done.
Qed.

Lemma index_from_notin i l m k : k ∉ keys_of l -> index_from i l m !! k = m !! k.
Proof.
  revert i m. induction l as [|e l IH]; intros i m; cbn [index_from]; [done|].
  unfold keys_of. rewrite fmap_cons, not_elem_of_cons. intros [Hne Hni].
  rewrite IH by exact Hni. by rewrite jlookup_insert_ne by congruence.
Qed.

Lemma index_from_lookup i l m n k : NoDup (keys_of l) -> keys_of l !! n = Some k ->
  index_from i l m !! k = Some (i + n)%nat.
Proof.
  revert i m n. induction l as [|e l IH]; intros i m n; [done|].
  unfold keys_of. rewrite fmap_cons, NoDup_cons. intros [Hni Hnd] Hk.
  cbn [index_from]. destruct n as [|n]; cbn in Hk.
  - injection Hk as <-. rewrite index_from_notin by exact Hni.
    rewrite jlookup_insert_eq. f_equal. lia.
  - rewrite (IH _ _ n) by done. f_equal. lia.
Qed.

Lemma keys_of_filter (P : JournalEntry -> Prop) `{forall e, Decision (P e)} l :
  sublist (keys_of (base.filter P l)) (keys_of l).
Proof. apply fmap_sublist, sublist_filter. Qed.

Lemma filterEntries_ok s keep : slots_ok s -> slots_ok (filterEntries s keep).
Proof.
  intros [Hp Hn _]. unfold filterEntries. set (kept := base.filter _ _).
  assert (NoDup (keys_of kept)) as Hk by (by eapply sublist_NoDup, keys_of_filter).
  split; cbn [entries position sorted]; [|done|done].
  intros k i. split.
  - intros Hi. destruct (decide (k ∈ keys_of kept)) as [[n Hkn]%list_elem_of_lookup|Hni].
    + rewrite (index_from_lookup _ _ _ n) in Hi by done. injection Hi as <-. exact Hkn.
    + by rewrite index_from_notin in Hi.
  - intros Hi. rewrite (index_from_lookup _ _ _ i) by done. done.
Qed.

(** ** The abstract journal

    Per step an insertion-ordered map from slot key to entry: no position
    index, no cached view. *)
Record JournalSpec : Type := mkSpec {
  sp_steps : jmap string (jmap string JournalEntry);
  sp_keys : jmap string (list string);
  sp_sleep : list string;
}.

Definition spec_put (key : string) (t : jmap string JournalEntry) (m : JournalSpec)
    : JournalSpec := mkSpec (<[key := t]> (sp_steps m)) (sp_keys m) (sp_sleep m).

Definition spec_open (w s : string) (m : JournalSpec) : jmap string JournalEntry * JournalSpec :=
  match sp_steps m !! journalKey w s with
  | Some t => (t, m)
  | None => (∅, mkSpec (<[journalKey w s := ∅]> (sp_steps m))
              (<[w := set_add (journalKey w s) (opt_or (sp_keys m !! w) [])]> (sp_keys m))
              (sp_sleep m))
  end.

Definition spec_set (w s : string) (t : jmap string JournalEntry) (e : JournalEntry)
    (m : JournalSpec) : JournalSpec :=
  spec_put (journalKey w s) (<[slotKey (entry_slot e) := e]> t) m.

Definition spec_keep (keep : JournalEntry -> bool) (t : jmap string JournalEntry) :=
  JMap (base.filter (fun kv => Is_true (keep kv.2)) (jm_entries t)).

(** The entry [append] writes over [old]. *)
Definition appended (now : Z) (sl : JournalSlot) (name : string) (hash : option string)
    (exit : JournalExit) (old : option JournalEntry) : JournalEntry :=
  mkEntry (js_activityIndex sl) (js_branchPath sl) name (Some StActivity) (Some PhCompleted)
    (opt_else hash (old ≫= je_payloadHash)) (Some exit) None now.

Definition completed_with (exit : JournalExit) (e : JournalEntry) : JournalEntry :=
  mkEntry (je_activityIndex e) (je_branchPath e) (je_activityName e) (je_stepType e)
    (Some PhCompleted) (je_payloadHash e) (Some exit) (je_wakeAt e) (je_createdAt e).

Definition is_pending (e : JournalEntry) : bool := bool_decide (je_phase e = Some PhPending).

Definition exec_spec (now : Z) (op : journal_op) (m : JournalSpec) : journal_out * JournalSpec :=
  match op with
  | JLoad w s =>
      (OEntries (from_option (fun t => jsort entry_cmp (jm_values t)) []
                   (sp_steps m !! journalKey w s)), m)
  | JAppend w s sl n h x =>
      let '(t, m) := spec_open w s m in
      let old := t !! slotKey sl in
      if from_option is_pending true old then (ONone, spec_set w s t (appended now sl n h x old) m)
      else (ONone, m)
  | JAppendPending w s sl n h ty wk =>
      let '(t, m) := spec_open w s m in
      match t !! slotKey sl with
      | Some _ => (ONone, m)
      | None =>
          let m := spec_set w s t (mkEntry (js_activityIndex sl) (js_branchPath sl) n (Some ty)
                     (Some PhPending) h None wk now) m in
          (ONone, if bool_decide (ty = StSleep)
                  then mkSpec (sp_steps m) (sp_keys m) (set_add (journalKey w s) (sp_sleep m))
                  else m)
      end
  | JCompletePending w s sl x =>
      match sp_steps m !! journalKey w s with
      | None => (OComplete (mkCompletePending false None), m)
      | Some t =>
          match t !! slotKey sl with
          | None => (OComplete (mkCompletePending false None), m)
          | Some e =>
              if is_pending e
              then (OComplete (mkCompletePending true (Some x)),
                    spec_set w s t (completed_with x e) m)
              else (OComplete (mkCompletePending
                      (from_option (fun y => sameStoredValue (exit_json y) (exit_json x))
                         false (je_exit e)) (je_exit e)), m)
          end
      end
  | JDiscard w s sls =>
      match sp_steps m !! journalKey w s with
      | None => (ONone, m)
      | Some t => (ONone, spec_put (journalKey w s)
          (spec_keep (fun e => bool_decide (slotKey (entry_slot e) ∉ slotKey <$> sls)) t) m)
      end
  | JDiscardIndex w s i =>
      match sp_steps m !! journalKey w s with
      | None => (ONone, m)
      | Some t => (ONone, spec_put (journalKey w s)
          (spec_keep (fun e => bool_decide (je_activityIndex e <> i)) t) m)
      end
  | JFindDueSleeps n l =>
      let '(due, live) := scan_keys n l (fun k => from_option jm_values [] (sp_steps m !! k))
                            (sp_sleep m) [] (sp_sleep m) in
      (ODue due, mkSpec (sp_steps m) (sp_keys m) live)
  | JDeleteStep w s => (ONone, mkSpec (delete (journalKey w s) (sp_steps m)) (sp_keys m) (sp_sleep m))
  | JDeleteWorkflow w =>
      (ONone, mkSpec (jm_delete_all (opt_or (sp_keys m !! w) []) (sp_steps m))
                (delete w (sp_keys m)) (sp_sleep m))
  | JClear => (ONone, mkSpec ∅ ∅ [])
  | JFindPendingSignal w s n =>
      (OEntry (sp_steps m !! journalKey w s ≫= fun t =>
         List.find (fun e => bool_decide (je_stepType e = Some StSignal) &&
           bool_decide (je_phase e = Some PhPending) && bool_decide (je_activityName e = n))
           (jm_values t)), m)
  end.

Definition slots_map (s : JournalSlots) : jmap string JournalEntry :=
  JMap ((fun e => (slotKey (entry_slot e), e)) <$> entries s).

#[local] Arguments slots_map : simpl never.
#[local] Arguments spec_set : simpl never.

Definition journal_abs (j : InMemoryJournal) : JournalSpec :=
  mkSpec (jm_map slots_map (journal j)) (journalKeys j) (sleepKeys j).

Lemma slots_map_keys s : jm_keys (slots_map s) = keys_of (entries s).
Proof. unfold slots_map, jm_keys, keys_of; cbn. by rewrite <- list_fmap_compose. Qed.

Lemma slots_map_values s : jm_values (slots_map s) = entries s.
Proof.
  unfold slots_map, jm_values; cbn. rewrite <- list_fmap_compose. apply list_fmap_id.
Qed.

Lemma slots_map_lookup s slot : slots_ok s -> slots_map s !! slotKey slot = entry_at s slot.
Proof.
  intros Hok. assert (jm_wf (slots_map s)) as Hwf.
  { unfold jm_wf. rewrite slots_map_keys. apply Hok. }
  destruct (entry_at s slot) as [e|] eqn:E.
  - apply entry_at_Some in E as [He Hk]; [|done]. rewrite <- Hk.
    apply jlookup_wf_elem; [done|]. cbn. apply list_elem_of_fmap. by exists e.
  - apply jlookup_None. rewrite slots_map_keys. intros [e [Hk He]]%list_elem_of_fmap.
    assert (entry_at s slot = Some e); [|congruence]. by apply entry_at_Some.
Qed.

Lemma slots_map_put s e : slots_ok s ->
  slots_map (putEntry s e) = <[slotKey (entry_slot e) := e]> (slots_map s).
Proof.
  intros Hok. pose proof Hok as [Hp Hn _]. unfold putEntry.
  destruct (position s !! slotKey (entry_slot e)) as [i|] eqn:E.
  - apply Hp in E. unfold slots_map; cbn [entries].
    unfold insert, jmap_insert; cbn [jm_entries]. f_equal.
    clear -E Hn. revert i E Hn. induction (entries s) as [|a l IH]; intros i E Hn; [done|].
    cbn in Hn. apply NoDup_cons in Hn as [Hni Hn]. destruct i as [|i].
    + cbn in E |- *. injection E as E. by rewrite decide_True, E.
    + cbn in E |- *. rewrite decide_False.
      { f_equal. by apply IH. }
      intros He. apply Hni. rewrite <- He. by eapply list_elem_of_lookup_2.
  - apply position_None in E; [|done].
    unfold slots_map; cbn [entries]. unfold insert, jmap_insert; cbn [jm_entries]. f_equal.
    rewrite fmap_app; cbn. clear -E. induction (entries s) as [|a l IH]; [done|].
    cbn in E |- *. apply not_elem_of_cons in E as [Hne E].
    rewrite decide_False by done. f_equal. by apply IH.
Qed.

Lemma slots_map_filter s keep : slots_map (filterEntries s keep) = spec_keep keep (slots_map s).
Proof.
  unfold slots_map, filterEntries, spec_keep; cbn [entries jm_entries]. f_equal.
  induction (entries s) as [|a l IH]; [done|].
  rewrite fmap_cons, !filter_cons; cbn [snd]. case_decide; [|done]. rewrite fmap_cons. by f_equal.
Qed.

(** ** Every call keeps the invariant and refines the abstract call *)
Lemma journal_ok_new : journal_ok new_journal.
Proof. split; [done|done|apply jm_wf_empty]. Qed.

Lemma set_slots_ok w st s j :
  journal_ok j -> slots_ok s -> is_Some (journalOf w st j) -> journal_ok (set_slots w st s j).
Proof.
  intros [Hs Hk Hw] Hok [s0 H0]. split; cbn.
  - intros k s'. rewrite jlookup_insert. case_decide; [by intros [= <-]|apply Hs].
  - intros k s'. rewrite jlookup_insert. case_decide; [|apply Hk]. intros _. subst. by eapply Hk.
  - by apply jm_wf_insert.
Qed.

Lemma journal_abs_set w st s j :
  journal_abs (set_slots w st s j) = spec_put (journalKey w st) (slots_map s) (journal_abs j).
Proof. unfold journal_abs, set_slots, spec_put; cbn. by rewrite jm_map_insert. Qed.

Lemma openJournal_spec w st j : journal_ok j ->
  let r := openJournal w st j in
  slots_ok r.1 /\ journal_ok r.2 /\ journalOf w st r.2 = Some r.1 /\
  spec_open w st (journal_abs j) = (slots_map r.1, journal_abs r.2).
Proof.
  intros Hok. pose proof Hok as [Hs Hk Hw]. unfold openJournal, spec_open, journalOf.
  cbn [journal_abs sp_steps]. rewrite jlookup_map.
  destruct (journal j !! journalKey w st) as [s|] eqn:E; cbn.
  - split_and!; [by eapply Hs|done|done|done].
  - split_and!.
    + apply slots_ok_empty.
    + split; cbn.
      * intros k s'. rewrite jlookup_insert. case_decide; [|apply Hs].
        intros [= <-]. apply slots_ok_empty.
      * intros k s'. rewrite jlookup_insert. case_decide as Hkk.
        -- intros _. subst. exists w, st. split; [done|]. rewrite jlookup_insert_eq. cbn.
           apply elem_of_set_add. by left.
        -- intros (w' & t & -> & Hin)%Hk. exists w', t. split; [done|].
           rewrite jlookup_insert. case_decide as Hww; [subst; cbn|done].
           apply elem_of_set_add. by right.
      * by apply jm_wf_insert.
    + by rewrite jlookup_insert_eq.
    + unfold journal_abs; cbn. by rewrite jm_map_insert.
Qed.

Lemma set_slots_get w st s j : journalOf w st (set_slots w st s j) = Some s.
Proof. unfold journalOf; cbn. apply jlookup_insert_eq. Qed.

Lemma entry_slot_eta sl n ty ph h x wk t :
  entry_slot (mkEntry (js_activityIndex sl) (js_branchPath sl) n ty ph h x wk t) = sl.
Proof. by destruct sl. Qed.

(** The write of one entry, seen from both sides. *)
Lemma put_refines w st s e j :
  journal_ok j -> journalOf w st j = Some s ->
  journal_ok (set_slots w st (putEntry s e) j) /\
  journal_abs (set_slots w st (putEntry s e) j) = spec_set w st (slots_map s) e (journal_abs j).
Proof.
  intros Hok Hs. assert (slots_ok s) as Hsok by (by eapply jo_slots).
  split; [apply set_slots_ok; [done|by apply putEntry_ok|by exists s]|].
  rewrite journal_abs_set, slots_map_put by done. done.
Qed.

Lemma is_pending_neg e : bool_decide (je_phase e <> Some PhPending) = negb (is_pending e).
Proof. unfold is_pending. repeat case_bool_decide; done. Qed.

Definition refines_op (now : Z) (op : journal_op) : Prop :=
  forall j, journal_ok j ->
    journal_ok (exec_journal_op now op j).2 /\
    exec_spec now op (journal_abs j) =
      ((exec_journal_op now op j).1, journal_abs (exec_journal_op now op j).2).

Lemma load_refines now w st : refines_op now (JLoad w st).
Proof.
  intros j Hok. cbn. unfold load, journalOf. rewrite jlookup_map.
  destruct (journal j !! journalKey w st) as [s|] eqn:E; cbn; [|done].
  assert (slots_ok s) as Hs by (by eapply jo_slots).
  assert (match sorted s with Some x => x | None => jsort entry_cmp (entries s) end
          = jsort entry_cmp (entries s)) as ->.
  { destruct (sorted s) eqn:Es; [|done]. by apply Hs in Es. }
  split.
  - apply set_slots_ok; [done| |by exists s]. destruct Hs as [? ? ?]. split; cbn; try done.
    by intros l [= <-].
  - rewrite slots_map_values. f_equal. rewrite journal_abs_set. unfold journal_abs, spec_put; cbn.
    rewrite (jm_insert_id (jm_map slots_map (journal j))); [done|].
    by rewrite jlookup_map, E.
Qed.

Lemma append_refines now w st sl n h x : refines_op now (JAppend w st sl n h x).
Proof.
  intros j Hok. cbn. unfold append.
  destruct (openJournal_spec w st j Hok) as (Hs & Hok' & Hof & ->).
  destruct (openJournal w st j) as [s j']. cbn in *.
  rewrite slots_map_lookup by done.
  destruct (entry_at s sl) as [e|]; cbn [from_option].
  - rewrite is_pending_neg. destruct (is_pending e); [|done]. cbn.
    match goal with |- context [putEntry s ?e'] => destruct (put_refines w st s e' j' Hok' Hof) as [? ->] end.
    done.
  - match goal with |- context [putEntry s ?e'] => destruct (put_refines w st s e' j' Hok' Hof) as [? ->] end.
    split; [done|]. do 3 f_equal. by destruct h.
Qed.

Lemma appendPending_refines now w st sl n h ty wk :
  refines_op now (JAppendPending w st sl n h ty wk).
Proof.
  intros j Hok. cbn. unfold appendPending.
  destruct (openJournal_spec w st j Hok) as (Hs & Hok' & Hof & ->).
  destruct (openJournal w st j) as [s j']. cbn in *.
  rewrite slots_map_lookup by done. unfold entry_at.
  destruct (position s !! slotKey sl) as [i|] eqn:E; cbn.
  - apply (so_position _ Hs) in E. unfold keys_of in E. rewrite list_lookup_fmap in E.
    by destruct (entries s !! i).
  - match goal with |- context [putEntry s ?e'] => destruct (put_refines w st s e' j' Hok' Hof) as [[? ? ?] Habs] end.
    case_bool_decide; cbn; rewrite <- Habs; (split; [by split|done]).
Qed.

Lemma completePending_refines now w st sl x : refines_op now (JCompletePending w st sl x).
Proof.
  intros j Hok. cbn. unfold completePending, journalOf. rewrite jlookup_map.
  destruct (journal j !! journalKey w st) as [s|] eqn:E; cbn; [|done].
  assert (slots_ok s) as Hs by (by eapply jo_slots).
  rewrite slots_map_lookup by done.
  destruct (entry_at s sl) as [e|]; cbn; [|done].
  rewrite is_pending_neg. destruct (is_pending e); cbn; [|by destruct (je_exit e)].
  match goal with |- context [putEntry s ?e'] => destruct (put_refines w st s e' j Hok E) as [? ->] end.
  done.
Qed.

Lemma filter_refines w st s keep j :
  journal_ok j -> journal j !! journalKey w st = Some s ->
  journal_ok (set_slots w st (filterEntries s keep) j) /\
  journal_abs (set_slots w st (filterEntries s keep) j) =
    spec_put (journalKey w st) (spec_keep keep (slots_map s)) (journal_abs j).
Proof.
  intros Hok E. assert (slots_ok s) by (by eapply jo_slots). split.
  - apply set_slots_ok; [done|by apply filterEntries_ok|by exists s].
  - by rewrite journal_abs_set, slots_map_filter.
Qed.

Lemma discard_refines now w st sls : refines_op now (JDiscard w st sls).
Proof.
  intros j Hok. cbn. unfold discard, journalOf. rewrite jlookup_map.
  destruct (journal j !! journalKey w st) as [s|] eqn:E; cbn; [|done].
  edestruct filter_refines as [? ->]; [exact Hok|exact E|]. done.
Qed.

Lemma discardIndex_refines now w st i : refines_op now (JDiscardIndex w st i).
Proof.
  intros j Hok. cbn. unfold discardIndex, journalOf. rewrite jlookup_map.
  destruct (journal j !! journalKey w st) as [s|] eqn:E; cbn; [|done].
  edestruct filter_refines as [? ->]; [exact Hok|exact E|]. done.
Qed.

Lemma scan_keys_ext n l f g keys due live :
  (forall k, f k = g k) -> scan_keys n l f keys due live = scan_keys n l g keys due live.
Proof.
  intros Hfg. revert due live. induction keys as [|k keys IH]; intros due live; cbn; [done|].
  rewrite Hfg. destruct (scan_entries _ _ _ _ _ _ _) as [[? ?] []]; [done|]. by rewrite IH.
Qed.

Lemma findDueSleeps_refines now n l : refines_op now (JFindDueSleeps n l).
Proof.
  intros j [? ? ?]. cbn. unfold findDueSleeps.
  rewrite (scan_keys_ext _ _ (fun k => from_option jm_values [] (jm_map slots_map (journal j) !! k))
             (fun k => from_option entries [] (journal j !! k))).
  - by destruct (scan_keys _ _ _ _ _ _).
  - intros k. rewrite jlookup_map. destruct (journal j !! k); cbn; [apply slots_map_values|done].
Qed.

Lemma delete_refines now w st : refines_op now (JDeleteStep w st).
Proof.
  intros j [Hs Hk Hw]. cbn. split.
  - split; cbn; [| |by apply jm_wf_delete].
    + intros k s. rewrite jlookup_delete. case_decide; [done|apply Hs].
    + intros k s. rewrite jlookup_delete. case_decide; [done|apply Hk].
  - unfold journal_abs; cbn. by rewrite jm_map_delete.
Qed.

Lemma deleteWorkflow_refines now w : refines_op now (JDeleteWorkflow w).
Proof.
  intros j [Hs Hk Hw]. cbn. split.
  - split; cbn; [| |by apply jm_wf_delete_all].
    + intros k s. rewrite jlookup_delete_all. case_decide; [done|apply Hs].
    + intros k s. rewrite jlookup_delete_all. case_decide as Hni; [done|].
      intros (w' & t & -> & Hin)%Hk. exists w', t. split; [done|].
      rewrite jlookup_delete. by case_decide; subst.
  - unfold journal_abs; cbn. by rewrite jm_map_delete_all.
Qed.

Lemma findPendingSignal_refines now w st n : refines_op now (JFindPendingSignal w st n).
Proof.
  intros j Hok. cbn. split; [done|]. unfold findPendingSignal, journalOf. rewrite jlookup_map.
  destruct (journal j !! journalKey w st) as [s|]; cbn; [|done]. by rewrite slots_map_values.
Qed.

Lemma exec_journal_op_refines now op : refines_op now op.
Proof.
  destruct op.
  - apply load_refines.
  - apply append_refines.
  - apply appendPending_refines.
  - apply completePending_refines.
  - apply discard_refines.
  - apply discardIndex_refines.
  - apply findDueSleeps_refines.
  - apply delete_refines.
  - apply deleteWorkflow_refines.
  - intros j _. split; [apply journal_ok_new|done].
  - apply findPendingSignal_refines.
Qed.

Lemma run_journal_ops_ok sched j : journal_ok j -> journal_ok (run_journal_ops sched j).
Proof.
  apply run_ops_inv_all. intros now op s Hs. by apply exec_journal_op_refines.
Qed.

(** C31. The journal store refines the abstract journal: from an empty store,
    after any schedule of calls, every further call answers what the
    abstract call answers on the abstract state and leaves the state the
    abstract call leaves. So the position index and the cached sorted view
    never show: no call reads a stale index or a stale order. *)
Theorem journal_refines_spec sched now op :
  let j := run_journal_ops sched new_journal in
  exec_spec now op (journal_abs j) =
    ((exec_journal_op now op j).1, journal_abs (exec_journal_op now op j).2).
Proof.
  cbn zeta. apply exec_journal_op_refines, run_journal_ops_ok, journal_ok_new.
Qed.
(** ** Guarantees on the recorded entries *)

(** The entry recorded in a slot of a step, as the replay looks it up. *)
Definition recorded (w st : string) (sl : JournalSlot) (j : InMemoryJournal)
    : option JournalEntry := journalOf w st j ≫= fun s => entry_at s sl.

Definition spec_recorded (w st : string) (sl : JournalSlot) (m : JournalSpec)
    : option JournalEntry := sp_steps m !! journalKey w st ≫= fun t => t !! slotKey sl.

Lemma recorded_abs w st sl j : journal_ok j ->
  recorded w st sl j = spec_recorded w st sl (journal_abs j).
Proof.
  intros Hok. unfold recorded, spec_recorded, journalOf; cbn. rewrite jlookup_map.
  destruct (journal j !! journalKey w st) as [s|] eqn:E; cbn; [|done].
  rewrite slots_map_lookup; [done|by eapply jo_slots].
Qed.

(** Calls that write or read entries but never drop one. *)
Definition keeps_entries (op : journal_op) : Prop :=
  match op with
  | JDiscard _ _ _ | JDiscardIndex _ _ _ | JDeleteStep _ _ | JDeleteWorkflow _ | JClear => False
  | _ => True
  end.

Lemma spec_recorded_put w st sl w' st' t e m :
  spec_recorded w st sl (spec_set w' st' t e m) =
    if decide (journalKey w' st' = journalKey w st)
    then (if decide (slotKey (entry_slot e) = slotKey sl) then Some e else t !! slotKey sl)
    else spec_recorded w st sl m.
Proof.
  unfold spec_recorded, spec_set, spec_put; cbn. rewrite jlookup_insert.
  case_decide; [|done]. cbn. by rewrite jlookup_insert.
Qed.

Lemma spec_open_recorded w st sl w' st' m :
  let r := spec_open w' st' m in
  spec_recorded w st sl r.2 = spec_recorded w st sl m /\
  (journalKey w' st' = journalKey w st -> r.1 !! slotKey sl = spec_recorded w st sl m).
Proof.
  unfold spec_open, spec_recorded. destruct (sp_steps m !! journalKey w' st') as [t|] eqn:E; cbn.
  - split; [done|]. intros <-. by rewrite E.
  - split.
    + rewrite jlookup_insert. case_decide as Hk; [|done]. by rewrite <- Hk, E.
    + intros <-. by rewrite E.
Qed.


(** Every entry sits under the key of its own slot. *)
Definition spec_keyed (m : JournalSpec) : Prop :=
  forall key t k e, sp_steps m !! key = Some t -> t !! k = Some e -> slotKey (entry_slot e) = k.

Lemma journal_abs_keyed j : spec_keyed (journal_abs j).
Proof.
  intros key t k e. cbn. rewrite jlookup_map.
  destruct (journal j !! key) as [s|]; cbn; [|done]. intros [= <-] He%jlookup_elem.
  unfold slots_map in He; cbn in He. by apply list_elem_of_fmap in He as (e' & [= -> ->] & _).
Qed.

Lemma exec_spec_keeps now op m w st sl e :
  spec_keyed m -> keeps_entries op -> spec_recorded w st sl m = Some e -> is_pending e = false ->
  spec_recorded w st sl (exec_spec now op m).2 = Some e.
Proof.
  intros Hkey Hop He Hp. destruct op as [| w' st' sl' n h x | w' st' sl' n h ty wk | w' st' sl' x
    | | | n l | | | |]; try done; cbn [exec_spec].
  - destruct (spec_open_recorded w st sl w' st' m) as [Hr Ht].
    destruct (spec_open w' st' m) as [t m']. cbn in Hr, Ht.
    destruct (from_option is_pending true (t !! slotKey sl')) eqn:Hpe; cbn [snd]; [|congruence].
    rewrite spec_recorded_put. case_decide as Hk; [|congruence].
    case_decide as Hs; [|by rewrite Ht].
    unfold appended in Hs. rewrite entry_slot_eta in Hs.
    rewrite Hs, Ht, He in Hpe by done. cbn in Hpe. congruence.
  - destruct (spec_open_recorded w st sl w' st' m) as [Hr Ht].
    destruct (spec_open w' st' m) as [t m']. cbn in Hr, Ht.
    destruct (t !! slotKey sl') eqn:Hpe; cbn [snd]; [congruence|].
    set (ent := mkEntry _ _ _ _ _ _ _ _ _).
    assert (spec_recorded w st sl (spec_set w' st' t ent m') = Some e) as Hgoal.
    { rewrite spec_recorded_put. case_decide as Hk; [|congruence].
      case_decide as Hs; [|by rewrite Ht].
      subst ent. rewrite entry_slot_eta in Hs. rewrite Hs, Ht, He in Hpe by done. done. }
    by case_bool_decide.
  - destruct (sp_steps m !! journalKey w' st') as [t|] eqn:E; [|done].
    destruct (t !! slotKey sl') as [e'|] eqn:Ee; [|done].
    destruct (is_pending e') eqn:Hpe; cbn [snd]; [|done].
    rewrite spec_recorded_put. case_decide as Hk; [|done].
    assert (t !! slotKey sl = Some e) as Hte
      by (unfold spec_recorded in He; by rewrite <- Hk, E in He).
    case_decide as Hs; [|done].
    exfalso. cbn in Hs. change (slotKey (entry_slot e') = slotKey sl) in Hs.
    rewrite (Hkey _ _ _ _ E Ee) in Hs. rewrite <- Hs in Hte. congruence.
  - by destruct (scan_keys _ _ _ _ _ _).
Qed.

Lemma exec_keeps now op j w st sl e :
  journal_ok j -> keeps_entries op -> recorded w st sl j = Some e -> is_pending e = false ->
  recorded w st sl (run_journal_op now op j) = Some e.
Proof.
  intros Hok Hop He Hp. destruct (exec_journal_op_refines now op j Hok) as [Hok' Hex].
  unfold run_journal_op. rewrite recorded_abs in He |- * by done.
  pose proof (exec_spec_keeps now op _ w st sl e (journal_abs_keyed j) Hop He Hp) as H.
  by rewrite Hex in H.
Qed.

Lemma run_keeps sched j w st sl e :
  journal_ok j -> Forall (fun c => keeps_entries c.2) sched ->
  recorded w st sl j = Some e -> is_pending e = false ->
  recorded w st sl (run_journal_ops sched j) = Some e.
Proof.
  intros Hok Hs He Hp.
  apply (run_ops_inv run_journal_op (fun c => keeps_entries c.2)
           (fun j => journal_ok j /\ recorded w st sl j = Some e)); [|done|done].
  intros now op s Hop [Hok' He']. split; [by apply exec_journal_op_refines|by apply exec_keeps].
Qed.

(** What a completion answers and leaves, from the entry in the slot. *)
Lemma completePending_pending w st sl x j e :
  journal_ok j -> recorded w st sl j = Some e -> is_pending e = true ->
  (completePending w st sl x j).1 = mkCompletePending true (Some x) /\
  recorded w st sl (completePending w st sl x j).2 = Some (completed_with x e).
Proof.
  intros Hok He Hp. pose proof He as Hr. unfold recorded in He. unfold completePending.
  destruct (journalOf w st j) as [s|] eqn:E; [|done]. cbn in He. rewrite He, is_pending_neg, Hp.
  cbn [negb fst snd]. split; [done|].
  unfold recorded. rewrite set_slots_get. cbn.
  apply (entry_at_Some s) in He as [He Hk]; [|by eapply jo_slots].
  assert (slots_ok s) by (by eapply jo_slots).
  rewrite <- slots_map_lookup by (by apply putEntry_ok).
  rewrite slots_map_put by done. rewrite <- Hk. apply jlookup_insert_eq.
Qed.

Lemma completePending_settled w st sl x j e :
  recorded w st sl j = Some e -> is_pending e = false ->
  completePending w st sl x j =
    (mkCompletePending (from_option (fun y => sameStoredValue (exit_json y) (exit_json x))
       false (je_exit e)) (je_exit e), j).
Proof.
  intros He Hp. unfold recorded in He. unfold completePending.
  destruct (journalOf w st j) as [s|]; [|done]. cbn in He. rewrite He, is_pending_neg, Hp.
  by destruct (je_exit e).
Qed.

(** A completion race has one winner: after the call that completed a
    pending entry, whatever non-discarding calls run in between (other
    completions and appends of the same slot included), a further completion
    reports the winner's exit, [completed] exactly when it repeats the
    winner's exit, and changes nothing; and the slot replays the winner's
    exit. *)
Theorem completion_race before w st sl x1 mid x2 e :
  let j := run_journal_ops before new_journal in
  recorded w st sl j = Some e -> is_pending e = true ->
  Forall (fun c => keeps_entries c.2) mid ->
  let j1 := (completePending w st sl x1 j).2 in
  let j2 := run_journal_ops mid j1 in
  (completePending w st sl x1 j).1 = mkCompletePending true (Some x1) /\
  completePending w st sl x2 j2 =
    (mkCompletePending (sameStoredValue (exit_json x1) (exit_json x2)) (Some x1), j2) /\
  recorded w st sl j2 = Some (completed_with x1 e).
Proof.
  intros j He Hp Hmid. cbn zeta.
  assert (journal_ok j) as Hok by apply run_journal_ops_ok, journal_ok_new.
  destruct (completePending_pending w st sl x1 j e Hok He Hp) as [-> Hr].
  assert (journal_ok (completePending w st sl x1 j).2) as Hok1.
  { destruct (exec_journal_op_refines 0 (JCompletePending w st sl x1) j Hok) as [H _].
    cbn in H. by destruct (completePending w st sl x1 j). }
  assert (recorded w st sl (run_journal_ops mid (completePending w st sl x1 j).2)
          = Some (completed_with x1 e)) as Hr2 by (by apply run_keeps).
  split_and!; [done| |done].
  by rewrite (completePending_settled _ _ _ _ _ _ Hr2).
Qed.

(** Slots have distinct keys: the index is decimal text, which has no colon. *)
Lemma slotKey_inj s1 s2 : slotKey s1 = slotKey s2 -> s1 = s2.
Proof.
  destruct s1 as [i b], s2 as [i' b']. unfold slotKey; cbn. intros H.
  apply (string_split_unique is_num_char) in H as [Hi Hb];
    [|apply str_of_Z_chars|apply str_of_Z_chars|done|done].
  apply (inj str_of_Z) in Hi. autorewrite with str in Hb. congruence.
Qed.

Lemma entry_cmp_consistent : ConsistentCmp localeCompare -> ConsistentCmp entry_cmp.
Proof.
  intros [Ha Ht]. unfold entry_cmp. split.
  - intros x y. repeat case_bool_decide; try lia. apply Ha.
  - intros x y z. repeat case_bool_decide; try lia. apply Ht.
Qed.

(** [load] is faithful: it lists exactly the recorded entries, each slot
    once, ordered by activity index and then by branch path in the collation
    order, from every state reached from an empty store. *)
Theorem load_faithful sched w st :
  ConsistentCmp localeCompare ->
  let j := run_journal_ops sched new_journal in
  let l := (load w st j).1 in
  StronglySorted (cmp_le entry_cmp) l /\ NoDup (entry_slot <$> l) /\
  (forall e, e ∈ l <-> recorded w st (entry_slot e) j = Some e).
Proof.
  intros Hc j. cbn zeta.
  assert (journal_ok j) as Hok by apply run_journal_ops_ok, journal_ok_new.
  pose proof (entry_cmp_consistent Hc) as Hcmp.
  unfold load, recorded. destruct (journalOf w st j) as [s|] eqn:E; cbn [fst].
  2:{ split_and!; [constructor|constructor|]. intros e; cbn. split; [|done]. by intros ?%not_elem_of_nil. }
  assert (slots_ok s) as Hs by (by eapply jo_slots).
  assert (match sorted s with Some v => v | None => jsort entry_cmp (entries s) end
          = jsort entry_cmp (entries s)) as ->.
  { destruct (sorted s) eqn:Es; [|done]. by apply Hs in Es. }
  split_and!; [by apply jsort_sorted| |].
  - rewrite (jsort_perm entry_cmp (entries s)).
    eapply (NoDup_fmap_1 slotKey). rewrite <- list_fmap_compose. apply Hs.
  - intros e. cbn. rewrite elem_of_jsort. split.
    + intros He. by apply entry_at_Some.
    + intros He. by apply entry_at_Some in He as [??].
Qed.

End store.

(** The witnesses run a suspended sleep, completed twice, under the code-unit
    collation. *)
Lemma completion_race_witness :
  let before := [(5, JAppendPending "w" "s" (mkSlot 0 "") "sleep" None StSleep (Some 9))] in
  let mid := [(6, JAppend "w" "s" (mkSlot 0 "") "late" None (ExSuccess JNull));
              (7, JCompletePending "w" "s" (mkSlot 0 "") (ExSuccess (JNum 3)))] in
  let j1 := (completePending "w" "s" (mkSlot 0 "") (ExSuccess (JNum 1))
               (run_journal_ops string_cmp before new_journal)).2 in
  (completePending "w" "s" (mkSlot 0 "") (ExSuccess (JNum 2)) (run_journal_ops string_cmp mid j1)).1
    = mkCompletePending false (Some (ExSuccess (JNum 1))).
Proof.
  intros before mid j1.
  destruct (completion_race string_cmp before "w" "s" (mkSlot 0 "") (ExSuccess (JNum 1)) mid
              (ExSuccess (JNum 2))
              (mkEntry 0 "" "sleep" (Some StSleep) (Some PhPending) None None (Some 9) 5))
    as (_ & H & _).
  - vm_compute. reflexivity.
  - reflexivity.
  - repeat constructor.
  - subst j1. rewrite H. reflexivity.
Defined.

Lemma load_faithful_witness :
  let j := run_journal_ops string_cmp
    [(1, JAppend "w" "s" (mkSlot 1 "") "b" None (ExSuccess JNull));
     (2, JAppend "w" "s" (mkSlot 0 "/1.0") "a1" None (ExSuccess JNull));
     (3, JAppend "w" "s" (mkSlot 0 "/0.0") "a0" None (ExSuccess JNull))] new_journal in
  je_activityName <$> (load string_cmp "w" "s" j).1 = ["a0"; "a1"; "b"] /\
  NoDup (entry_slot <$> (load string_cmp "w" "s" j).1).
Proof.
  intros j. split; [vm_compute; reflexivity|].
  apply (load_faithful string_cmp _ "w" "s" string_cmp_consistent).
Defined.

(** Two different steps can share a journal: ids are joined by two colons and
    nothing keeps the separator out of an id. *)
Lemma journalKey_collides : journalKey "a" "b::c" = journalKey "a::b" "c".
Proof. reflexivity. Qed.

