(* ===== verification/Streams.v ===== *)
(** Workflow streams: [in-memory/streams.ts].

    Chunks are kept in one array per stream. The arrays live in a store of
    their own ([arrays]) because [read] without a cursor and without a limit
    answers the stream's own array: a caller then holds a reference, not a
    copy. *)
From S2P Require Import Prelude Json.
Open Scope string_scope.
Open Scope list_scope.
Open Scope Z_scope.

Inductive Appender : Type := ByWorkflow | ByExternal.

Record StreamChunk : Type := mkChunk {
  chunkIndex : Z;
  payload : json;
  appendedBy : Appender;
  appendedAt : Z;
}.

Definition streamKey (workflowId streamId : string) : string := workflowId +:+ "::" +:+ streamId.

Record InMemoryStreams : Type := mkStreams {
  chunks : jmap string nat;
  arrays : list (list StreamChunk);
  byChunkId : jmap string Z;
}.

Definition new_streams : InMemoryStreams := mkStreams ∅ [] ∅.

Definition chunk_id_key (key chunkId : string) : string := key +:+ "::" +:+ chunkId.

(** The stream's array, a new empty one for a stream without chunks. *)
Definition open_array (key : string) (s : InMemoryStreams) : nat * list (list StreamChunk) :=
  match chunks s !! key with
  | Some r => (r, arrays s)
  | None => (length (arrays s), arrays s ++ [[]])
  end.

Definition append (now : Z) (workflowId streamId : string) (data : json) (by_ : Appender)
    (chunkId : option string) (s : InMemoryStreams) : Z * InMemoryStreams :=
  let key := streamKey workflowId streamId in
  let idKey := chunk_id_key key <$> chunkId in
  match idKey ≫= fun k => byChunkId s !! k with
  | Some seen => (seen, s)
  | None =>
      let '(r, heap) := open_array key s in
      let existing := opt_or (heap !! r) [] in
      let index := Z.of_nat (length existing) in
      (index,
       mkStreams (<[key := r]> (chunks s))
         (<[r := existing ++ [mkChunk index data by_ now]]> heap)
         match idKey with Some k => <[k := index]> (byChunkId s) | None => byChunkId s end)
  end.

(** What [read] answers: an array of its own, or the stream's array. *)
Inductive read_view : Type :=
| ViewCopy (l : list StreamChunk)
| ViewArray (r : nat).

Definition view_contents (v : read_view) (s : InMemoryStreams) : list StreamChunk :=
  match v with
  | ViewCopy l => l
  | ViewArray r => opt_or (arrays s !! r) []
  end.

Definition read (workflowId streamId : string) (since limit : option Z) (s : InMemoryStreams)
    : read_view :=
  let all := match chunks s !! streamKey workflowId streamId with
             | Some r => ViewArray r
             | None => ViewCopy []
             end in
  let filtered := match since with
                  | Some n => ViewCopy (base.filter (fun c => chunkIndex c > n) (view_contents all s))
                  | None => all
                  end in
  match limit with
  | Some l => ViewCopy (js_slice (view_contents filtered s) 0 (Some l))
  | None => filtered
  end.

Definition has_prefix (prefix : string) (key : string) : bool := String.prefix prefix key.

Definition deleteWorkflow (workflowId : string) (s : InMemoryStreams) : InMemoryStreams :=
  let prefix := workflowId +:+ "::" in
  mkStreams (jm_delete_all (List.filter (has_prefix prefix) (jm_keys (chunks s))) (chunks s))
    (arrays s)
    (jm_delete_all (List.filter (has_prefix prefix) (jm_keys (byChunkId s))) (byChunkId s)).

Definition clear (s : InMemoryStreams) : InMemoryStreams := mkStreams ∅ (arrays s) ∅.

Inductive stream_op : Type :=
| SAppend (workflowId streamId : string) (data : json) (by_ : Appender) (chunkId : option string)
| SDeleteWorkflow (workflowId : string)
| SClear.

Definition run_stream_op (now : Z) (op : stream_op) (s : InMemoryStreams) : InMemoryStreams :=
  match op with
  | SAppend w st d b c => (append now w st d b c s).2
  | SDeleteWorkflow w => deleteWorkflow w s
  | SClear => clear s
  end.

Definition run_stream_ops : list (Z * stream_op) -> InMemoryStreams -> InMemoryStreams :=
  run_ops run_stream_op.

(** ** The invariant *)

(** The chunks of a stream, whoever holds the array. *)
Definition contents (key : string) (s : InMemoryStreams) : list StreamChunk :=
  from_option (fun r => opt_or (arrays s !! r) []) [] (chunks s !! key).

Definition gap_free (l : list StreamChunk) : Prop := chunkIndex <$> l = Z.of_nat <$> seq 0 (length l).

Record streams_ok (s : InMemoryStreams) : Prop := {
  sk_ref : forall k r, chunks s !! k = Some r -> (r < length (arrays s))%nat;
  sk_inj : forall k k' r, chunks s !! k = Some r -> chunks s !! k' = Some r -> k = k';
  sk_gap : forall k, gap_free (contents k s);
}.

Lemma gap_free_snoc l p b t :
  gap_free l -> gap_free (l ++ [mkChunk (Z.of_nat (length l)) p b t]).
Proof.
  unfold gap_free. intros H. rewrite length_app, Nat.add_1_r, seq_S, !fmap_app, H. done.
Qed.

Lemma gap_free_lookup l i c : gap_free l -> l !! i = Some c -> chunkIndex c = Z.of_nat i.
Proof.
  intros H Hi. assert ((chunkIndex <$> l) !! i = Some (chunkIndex c)) as Hc
    by (by rewrite list_lookup_fmap, Hi).
  rewrite H, list_lookup_fmap in Hc. destruct (seq 0 (length l) !! i) as [n|] eqn:E; [|done].
  apply lookup_seq in E as [-> _]. cbn in Hc. congruence.
Qed.

Lemma streams_ok_new : streams_ok new_streams.
Proof. split; [done|done|]. intros k. reflexivity. Qed.

(** Opening a stream's array: it holds the stream's chunks, and no other
    stream's array is touched or shared. *)
Lemma open_array_spec key s : streams_ok s ->
  let '(r, heap) := open_array key s in
  heap !! r = Some (contents key s) /\ (length (arrays s) <= length heap)%nat /\
  forall k r', k <> key -> chunks s !! k = Some r' -> r' <> r /\ heap !! r' = arrays s !! r'.
Proof.
  intros [Hr Hi _]. unfold open_array, contents. destruct (chunks s !! key) as [r|] eqn:E; cbn.
  - destruct (lookup_lt_is_Some_2 (arrays s) r) as [l Hl]; [by eauto|]. rewrite Hl.
    split_and!; [done|done|]. intros k r' Hk Hk'. split; [|done].
    intros ->. by apply Hk, (Hi k key r).
  - split_and!; [by apply list_lookup_middle|rewrite length_app; lia|].
    intros k r' Hk Hk'%Hr. split; [lia|by apply lookup_app_l].
Qed.

(** Every stream after one chunk is written at the end of [key]'s array. *)
Lemma contents_put key c ids s : streams_ok s ->
  let '(r, heap) := open_array key s in
  let s' := mkStreams (<[key := r]> (chunks s)) (<[r := contents key s ++ [c]]> heap) ids in
  forall k, contents k s' = if decide (k = key) then contents key s ++ [c] else contents k s.
Proof.
  intros Hok. pose proof (open_array_spec key s Hok) as H.
  destruct (open_array key s) as [r heap]. destruct H as (Hr & _ & Ho).
  intros s' k. subst s'. unfold contents at 1; cbn [chunks arrays]. rewrite jlookup_insert.
  destruct (decide (key = k)) as [<-|Hne]; [rewrite decide_True by done|rewrite decide_False by done].
  - cbn. rewrite list_lookup_insert_eq; [done|]. by eapply lookup_lt_Some.
  - unfold contents. destruct (chunks s !! k) as [r'|] eqn:E; cbn; [|done].
    destruct (Ho k r') as [Hr' <-]; [done..|]. by rewrite list_lookup_insert_ne.
Qed.

Lemma put_chunk_ok key p b now ids s : streams_ok s ->
  let '(r, heap) := open_array key s in
  streams_ok (mkStreams (<[key := r]> (chunks s))
    (<[r := contents key s ++ [mkChunk (Z.of_nat (length (contents key s))) p b now]]> heap) ids).
Proof.
  intros Hok. set (c := mkChunk _ p b now).
  pose proof (contents_put key c ids s Hok) as Hc.
  pose proof (open_array_spec key s Hok) as Ho. destruct Hok as [Hr Hi Hg].
  destruct (open_array key s) as [r heap]. destruct Ho as (Hkey & Hlen & Ho).
  split; cbn [chunks arrays].
  - intros k r'. rewrite jlookup_insert, length_insert.
    case_decide; [intros [= <-]; by eapply lookup_lt_Some|]. intros ?%Hr. lia.
  - intros k k' r'. rewrite !jlookup_insert. repeat case_decide; intros; simplify_eq; [done| | |eauto].
    + by destruct (Ho k' r').
    + by destruct (Ho k r').
  - intros k. rewrite Hc. case_decide; [by apply gap_free_snoc|apply Hg].
Qed.

(** A repeated append: the chunk id is known. *)
Definition seen_chunk (key : string) (chunkId : option string) (s : InMemoryStreams) : option Z :=
  (chunk_id_key key <$> chunkId) ≫= fun k => byChunkId s !! k.

Lemma append_seen now w st d b c s n :
  seen_chunk (streamKey w st) c s = Some n -> append now w st d b c s = (n, s).
Proof. unfold seen_chunk, append. by intros ->. Qed.

Lemma append_eq now w st d b c s : streams_ok s -> seen_chunk (streamKey w st) c s = None ->
  let key := streamKey w st in
  let n := Z.of_nat (length (contents key s)) in
  let '(r, heap) := open_array key s in
  append now w st d b c s =
    (n, mkStreams (<[key := r]> (chunks s)) (<[r := contents key s ++ [mkChunk n d b now]]> heap)
          match chunk_id_key key <$> c with
          | Some k => <[k := n]> (byChunkId s) | None => byChunkId s end).
Proof.
  intros Hok Hs key n. unfold append. fold key. unfold seen_chunk in Hs. fold key in Hs.
  rewrite Hs. pose proof (open_array_spec key s Hok) as Ho.
  destruct (open_array key s) as [r heap]. destruct Ho as [-> _]. done.
Qed.

(** An append that is not a repeat: its answer and every stream after it. *)
Lemma append_fresh now w st d b c s :
  streams_ok s -> seen_chunk (streamKey w st) c s = None ->
  let key := streamKey w st in
  let n := Z.of_nat (length (contents key s)) in
  let s' := (append now w st d b c s).2 in
  (append now w st d b c s).1 = n /\ streams_ok s' /\
  forall k, contents k s' = if decide (k = key) then contents key s ++ [mkChunk n d b now]
                            else contents k s.
Proof.
  intros Hok Hs key n s'. subst s'. pose proof (append_eq now w st d b c s Hok Hs) as He.
  fold key n in He. cbv zeta in He.
  pose proof (fun ids => contents_put key (mkChunk n d b now) ids s Hok) as Hc.
  pose proof (fun ids => put_chunk_ok key d b now ids s Hok) as Hp.
  destruct (open_array key s) as [r heap]. rewrite He. split_and!; [done|apply Hp|apply Hc].
Qed.

Lemma append_ok now w st d b c s : streams_ok s -> streams_ok (append now w st d b c s).2.
Proof.
  intros Hok. destruct (seen_chunk (streamKey w st) c s) as [n|] eqn:E.
  - by rewrite (append_seen _ _ _ _ _ _ _ _ E).
  - by apply append_fresh.
Qed.

Lemma contents_delete_all ks k s ids :
  contents k (mkStreams (jm_delete_all ks (chunks s)) (arrays s) ids) =
    if decide (k ∈ ks) then [] else contents k s.
Proof.
  unfold contents; cbn [chunks arrays]. rewrite jlookup_delete_all. by case_decide.
Qed.

Lemma run_stream_op_ok now op s : streams_ok s -> streams_ok (run_stream_op now op s).
Proof.
  destruct op as [w st d b c|w|]; intros Hok; cbn [run_stream_op].
  - by apply append_ok.
  - destruct Hok as [Hr Hi Hg]. split; cbn [chunks arrays deleteWorkflow].
    + intros k r. rewrite jlookup_delete_all. case_decide; [done|apply Hr].
    + intros k k' r. rewrite !jlookup_delete_all. repeat case_decide; try done. apply Hi.
    + intros k. unfold deleteWorkflow. rewrite contents_delete_all. case_decide; [done|apply Hg].
  - split; [done|done|]. intros k. reflexivity.
Qed.

Lemma run_stream_ops_ok sched s : streams_ok s -> streams_ok (run_stream_ops sched s).
Proof. apply run_ops_inv_all. intros. by apply run_stream_op_ok. Qed.

(** The chunks of a gap-free array after index [n] are its tail. *)
Lemma filter_after l i n :
  chunkIndex <$> l = Z.of_nat <$> seq i (length l) ->
  base.filter (fun c => chunkIndex c > Z.of_nat n) l = drop (S n - i) l.
Proof.
  revert i. induction l as [|c l IH]; intros i H; [by rewrite drop_nil|].
  injection H as Hc Hl. rewrite filter_cons, (IH (S i) Hl).
  case_decide.
  - replace (S n - i)%nat with 0%nat by lia. replace (S n - S i)%nat with 0%nat by lia. done.
  - by replace (S n - i)%nat with (S (S n - S i)) by lia.
Qed.

Lemma read_contents w st since limit s :
  view_contents (read w st since limit s) s =
    let l := contents (streamKey w st) s in
    let l := from_option (fun n => base.filter (fun c => chunkIndex c > n) l) l since in
    from_option (fun n => js_slice l 0 (Some n)) l limit.
Proof.
  unfold read, contents. destruct (chunks s !! streamKey w st), since, limit; done.
Qed.

(** Streams are gap-free logs with resumable reads. From every reachable
    state: an append with an unknown chunk id answers the stream's length,
    puts one chunk with that index at the end and leaves every other stream
    alone; a read returns the chunks in order, indexed 0, 1, 2, ...; and
    reading a first page of [k] chunks and then everything after index [k-1]
    gives the whole stream, without a gap and without a repeat. *)
Theorem stream_log sched w st :
  let s := run_stream_ops sched new_streams in
  let key := streamKey w st in
  let all := view_contents (read w st None None s) s in
  (forall now d b c, seen_chunk key c s = None ->
     let '(n, s') := append now w st d b c s in
     n = Z.of_nat (length all) /\ contents key s' = all ++ [mkChunk n d b now] /\
     forall k, k <> key -> contents k s' = contents k s) /\
  chunkIndex <$> all = Z.of_nat <$> seq 0 (length all) /\
  (forall k, view_contents (read w st None (Some (Z.of_nat (S k))) s) s ++
             view_contents (read w st (Some (Z.of_nat k)) None s) s = all).
Proof.
  intros s key all.
  assert (streams_ok s) as Hok by apply run_stream_ops_ok, streams_ok_new.
  assert (all = contents key s) as Hall by (subst all; by rewrite read_contents).
  rewrite !Hall. split_and!.
  - intros now d b c Hc. pose proof (append_fresh now w st d b c s Hok Hc) as H.
    fold key in H. destruct (append now w st d b c s) as [n s']. cbn in H.
    destruct H as (-> & _ & H). split_and!; [done|by rewrite H, decide_True|].
    intros k Hk. by rewrite H, decide_False.
  - apply Hok.
  - intros k. rewrite !read_contents. cbn [from_option]. fold key.
    rewrite js_slice_take, (filter_after _ 0) by apply Hok. rewrite Nat.sub_0_r. apply take_drop.
Qed.

(** Calls that append. *)
Definition appends_only (op : stream_op) : Prop :=
  match op with SAppend _ _ _ _ _ => True | _ => False end.

Lemma append_seen_stable now w st d b c s key c' n :
  seen_chunk key c' s = Some n -> seen_chunk key c' (append now w st d b c s).2 = Some n.
Proof.
  intros Hs. destruct (seen_chunk (streamKey w st) c s) as [m|] eqn:E.
  - by rewrite (append_seen _ _ _ _ _ _ _ _ E).
  - unfold append. pose proof E as E'. unfold seen_chunk in E'. rewrite E'.
    destruct (open_array _ s) as [r heap]. unfold seen_chunk in *; cbn [snd byChunkId].
    destruct c as [c|]; [|done]. destruct c' as [c'|]; [|done]. cbn in *.
    rewrite jlookup_insert. case_decide as Hk; [|done]. congruence.
Qed.

Lemma append_remembers now w st d b c s : streams_ok s ->
  seen_chunk (streamKey w st) (Some c) (append now w st d b (Some c) s).2
    = Some (append now w st d b (Some c) s).1.
Proof.
  intros Hok. destruct (seen_chunk (streamKey w st) (Some c) s) as [n|] eqn:E.
  - by rewrite (append_seen _ _ _ _ _ _ _ _ E).
  - pose proof (append_eq now w st d b (Some c) s Hok E) as He. cbv zeta in He.
    destruct (open_array _ s) as [r heap]. rewrite He.
    unfold seen_chunk; cbn. apply jlookup_insert_eq.
Qed.

(** A retried append is idempotent: after an append with a chunk id,
    whatever appends run in between, an append of any payload with the same
    chunk id answers the first index and changes nothing. *)
Lemma append_retry before now w st d b c mid now' d' b' :
  let s0 := run_stream_ops before new_streams in
  Forall (fun x => appends_only x.2) mid ->
  let s := run_stream_ops mid (append now w st d b (Some c) s0).2 in
  append now' w st d' b' (Some c) s = ((append now w st d b (Some c) s0).1, s).
Proof.
  intros s0 Hmid. cbn zeta. apply append_seen.
  apply (run_ops_inv run_stream_op (fun x => appends_only x.2)
    (fun s => seen_chunk (streamKey w st) (Some c) s = Some (append now w st d b (Some c) s0).1)).
  - intros n [] s Hop Hs; try done. by apply append_seen_stable.
  - done.
  - apply append_remembers, run_stream_ops_ok, streams_ok_new.
Qed.

Lemma append_retry_witness :
  let s1 := (append 1 "w" "s" (JNum 1) ByWorkflow (Some "c") new_streams).2 in
  let s2 := run_stream_ops [(2, SAppend "w" "s" (JNum 2) ByExternal None)] s1 in
  append 3 "w" "s" (JNum 9) ByWorkflow (Some "c") s2 = (0, s2).
Proof.
  intros s1 s2.
  apply (append_retry [] 1 "w" "s" (JNum 1) ByWorkflow "c"
           [(2, SAppend "w" "s" (JNum 2) ByExternal None)] 3 (JNum 9) ByWorkflow).
  repeat constructor.
Defined.

(** ** What the keys and the shared array let through *)

(** A read without a cursor and without a limit is a live view: a later
    append shows in it. *)
Example read_is_live :
  let s1 := (append 1 "w" "s" JNull ByWorkflow None new_streams).2 in
  let v := read "w" "s" None None s1 in
  let s2 := (append 2 "w" "s" JNull ByWorkflow None s1).2 in
  length (view_contents v s1) = 1%nat /\ length (view_contents v s2) = 2%nat.
Proof. by vm_compute. Qed.

(** Deleting workflow "a" drops the streams of workflow "a::b". *)
Example delete_reaches_prefix_sibling :
  let s := (append 1 "a::b" "s" JNull ByWorkflow None new_streams).2 in
  contents (streamKey "a::b" "s") (deleteWorkflow "a" s) = [].
Proof. by vm_compute. Qed.

(** Chunk "x::y" of stream "s" and chunk "y" of stream "s::x" share their
    id key: the second append is taken for a repeat and writes nothing. *)
Example chunk_ids_collide :
  let s := (append 1 "w" "s" (JNum 1) ByWorkflow (Some "x::y") new_streams).2 in
  append 2 "w" "s::x" (JNum 2) ByWorkflow (Some "y") s = (0, s).
Proof. by vm_compute. Qed.
