(* ===== verification/SignalTokens.v ===== *)
(** Public-bearer signal tokens: [in-memory/signal-tokens.ts].

    A token is created once, may be found by an idempotency key, and is
    completed once. Records handed to callers are copies, so they are values
    of the model. *)
From S2P Require Import Prelude Leases Json.
Open Scope string_scope.
Open Scope list_scope.
Open Scope Z_scope.

Record SignalToken : Type := mkToken {
  tokenId : string;
  tk_workflowId : string;
  tk_signalName : string;
  bearer : string;
  tags : list string;
  idempotencyKey : option string;
  tk_expiresAt : Z;
  completedAt : option Z;
  completedValue : json;
  createdAt : Z;
}.

Record CreateSignalTokenParams : Type := mkCreateToken {
  ct_tokenId : string;
  ct_workflowId : string;
  ct_signalName : string;
  ct_bearer : string;
  ct_tags : list string;
  ct_idempotencyKey : option string;
  ct_expiresAt : Z;
}.

Inductive CompletionOutcome : Type := Delivered | AlreadyCompleted.

Record InMemorySignalTokens : Type := mkTokens { tokens : jmap string SignalToken }.

Definition new_tokens : InMemorySignalTokens := mkTokens ∅.

Definition token_identity_of (t : SignalToken) : token_identity :=
  mkTokenIdentity (tk_workflowId t) (tk_signalName t) (bearer t).

Definition params_identity (p : CreateSignalTokenParams) : token_identity :=
  mkTokenIdentity (ct_workflowId p) (ct_signalName p) (ct_bearer p).

(** The row another create with the same idempotency key left, if any. *)
Definition find_idempotent (p : CreateSignalTokenParams) (s : InMemorySignalTokens)
    : option SignalToken :=
  if truthy_str (ct_idempotencyKey p)
  then List.find (fun t => bool_decide (tk_workflowId t = ct_workflowId p) &&
                           bool_decide (idempotencyKey t = ct_idempotencyKey p))
         (jm_values (tokens s))
  else None.

Definition new_token (now : Z) (p : CreateSignalTokenParams) : SignalToken :=
  mkToken (ct_tokenId p) (ct_workflowId p) (ct_signalName p) (ct_bearer p) (ct_tags p)
    (ct_idempotencyKey p) (ct_expiresAt p) None JNull now.

(** [create]: the record and [isCached]. *)
Definition create (now : Z) (p : CreateSignalTokenParams)
    : ST InMemorySignalTokens StoreError (SignalToken * bool) := fun s =>
  match tokens s !! ct_tokenId p with
  | Some taken =>
      if sameSignalTokenCreate (token_identity_of taken) (params_identity p)
      then (Ok (taken, false), s)
      else (Err (JsError ("createSignalToken: token id " +:+ ct_tokenId p +:+ " already exists")), s)
  | None =>
      match find_idempotent p s with
      | Some t => (Ok (t, true), s)
      | None =>
          let record := new_token now p in
          (Ok (record, false), mkTokens (<[ct_tokenId p := record]> (tokens s)))
      end
  end.

Definition findById (id : string) (s : InMemorySignalTokens) : option SignalToken := tokens s !! id.

Definition complete_with (t : SignalToken) (at_ : Z) (value : json) : SignalToken :=
  mkToken (tokenId t) (tk_workflowId t) (tk_signalName t) (bearer t) (tags t) (idempotencyKey t)
    (tk_expiresAt t) (Some at_) value (createdAt t).

Definition markCompleted (id : string) (value : json) (at_ : Z)
    : ST InMemorySignalTokens StoreError (CompletionOutcome * SignalToken) := fun s =>
  match tokens s !! id with
  | None => (Err (JsError ("signal token " +:+ id +:+ " not found")), s)
  | Some t =>
      match completedAt t with
      | Some _ =>
          let again := sameStoredValue (completedValue t) value in
          (Ok ((if again then Delivered else AlreadyCompleted), t), s)
      | None =>
          let t' := complete_with t at_ value in
          (Ok (Delivered, t'), mkTokens (<[id := t']> (tokens s)))
      end
  end.

Definition newest_first (a b : SignalToken) : Z := createdAt b - createdAt a.

Definition listForWorkflow (workflowId : string) (s : InMemorySignalTokens) : list SignalToken :=
  jsort newest_first
    (List.filter (fun t => bool_decide (tk_workflowId t = workflowId)) (jm_values (tokens s))).

Definition deleteWorkflow (workflowId : string) (s : InMemorySignalTokens) : InMemorySignalTokens :=
  mkTokens (jm_delete_all
    (List.filter (fun kv => bool_decide (tk_workflowId kv.2 = workflowId)) (jm_entries (tokens s))).*1
    (tokens s)).

Definition clear : InMemorySignalTokens := new_tokens.

Inductive token_op : Type :=
| TCreate (p : CreateSignalTokenParams)
| TMarkCompleted (id : string) (value : json) (at_ : Z)
| TDeleteWorkflow (workflowId : string)
| TClear.

Definition run_token_op (now : Z) (op : token_op) (s : InMemorySignalTokens)
    : InMemorySignalTokens :=
  match op with
  | TCreate p => (create now p s).2
  | TMarkCompleted id v a => (markCompleted id v a s).2
  | TDeleteWorkflow w => deleteWorkflow w s
  | TClear => clear
  end.

Definition run_token_ops : list (Z * token_op) -> InMemorySignalTokens -> InMemorySignalTokens :=
  run_ops run_token_op.

(** ** The invariant *)
Record tokens_ok (s : InMemorySignalTokens) : Prop := {
  to_wf : jm_wf (tokens s);
  to_id : forall k t, tokens s !! k = Some t -> tokenId t = k;
  to_idem : forall k1 k2 t1 t2, tokens s !! k1 = Some t1 -> tokens s !! k2 = Some t2 ->
    truthy_str (idempotencyKey t1) = true -> tk_workflowId t1 = tk_workflowId t2 ->
    idempotencyKey t1 = idempotencyKey t2 -> k1 = k2;
}.

Lemma find_idempotent_Some p s t :
  find_idempotent p s = Some t ->
  truthy_str (ct_idempotencyKey p) = true /\ tk_workflowId t = ct_workflowId p /\
  idempotencyKey t = ct_idempotencyKey p /\ exists k, (k, t) ∈ jm_entries (tokens s).
Proof.
  unfold find_idempotent. destruct (truthy_str _); [|done]. intros [Hin Hp]%find_some.
  rewrite andb_true_iff, !bool_decide_eq_true in Hp. destruct Hp.
  apply list_elem_of_In, jm_values_elem in Hin. done.
Qed.

Lemma find_idempotent_None p s k t :
  find_idempotent p s = None -> truthy_str (ct_idempotencyKey p) = true ->
  tokens s !! k = Some t -> tk_workflowId t = ct_workflowId p ->
  idempotencyKey t <> ct_idempotencyKey p.
Proof.
  unfold find_idempotent. intros H Hk Ht%jlookup_elem Hw Hi. rewrite Hk in H.
  assert (t ∈ jm_values (tokens s)) as Hin by (apply jm_values_elem; by exists k).
  apply list_elem_of_In, (find_none _ _ H) in Hin.
  by rewrite !bool_decide_true in Hin.
Qed.

Lemma tokens_ok_new : tokens_ok new_tokens.
Proof. split; [apply jm_wf_empty|done|done]. Qed.

Lemma tokens_ok_delete ks s : tokens_ok s -> tokens_ok (mkTokens (jm_delete_all ks (tokens s))).
Proof.
  intros [Hw Hid Hi]. split; cbn.
  - by apply jm_wf_delete_all.
  - intros k t. rewrite jlookup_delete_all. case_decide; [done|apply Hid].
  - intros k1 k2 t1 t2. rewrite !jlookup_delete_all. repeat case_decide; try done. apply Hi.
Qed.

(** Putting a row whose identity, owner and idempotency key the old row had. *)
Lemma tokens_ok_update id t t' s :
  tokens_ok s -> tokens s !! id = Some t -> tokenId t' = tokenId t ->
  tk_workflowId t' = tk_workflowId t -> idempotencyKey t' = idempotencyKey t ->
  tokens_ok (mkTokens (<[id := t']> (tokens s))).
Proof.
  intros [Hw Hid Hi] Ht Ei Ew Ek. split; cbn.
  - by apply jm_wf_insert.
  - intros k u. rewrite jlookup_insert. case_decide; [|apply Hid]. intros [= <-]. subst.
    rewrite Ei. by apply Hid.
  - intros k1 k2 t1 t2. rewrite !jlookup_insert.
    repeat case_decide; intros; simplify_eq; try done.
    + eapply (Hi _ _ _ _ Ht); [done| | |]; congruence.
    + eapply (Hi _ _ _ _); [done|exact Ht|done| |]; congruence.
    + by eapply Hi.
Qed.

Lemma create_cases now p s :
  (exists t, tokens s !! ct_tokenId p = Some t /\
     create now p s = (if sameSignalTokenCreate (token_identity_of t) (params_identity p)
                       then Ok (t, false)
                       else Err (JsError ("createSignalToken: token id " +:+ ct_tokenId p
                                  +:+ " already exists")), s)) \/
  tokens s !! ct_tokenId p = None /\
    (match find_idempotent p s with
     | Some t => create now p s = (Ok (t, true), s)
     | None => create now p s = (Ok (new_token now p, false),
                 mkTokens (<[ct_tokenId p := new_token now p]> (tokens s)))
     end).
Proof.
  unfold create. destruct (tokens s !! ct_tokenId p) as [t|].
  - left. exists t. split; [done|]. by destruct (sameSignalTokenCreate _ _).
  - right. split; [done|]. by destruct (find_idempotent p s).
Qed.

Lemma create_ok now p s : tokens_ok s -> tokens_ok (create now p s).2.
Proof.
  intros Hok. pose proof Hok as [Hw Hid Hi].
  destruct (create_cases now p s) as [(t & _ & ->)|(Hn & H)]; [done|].
  destruct (find_idempotent p s) as [t|] eqn:E; rewrite H; [done|]. split; cbn.
  - by apply jm_wf_insert.
  - intros k t. rewrite jlookup_insert. case_decide; [by intros [= <-]|apply Hid].
  - intros k1 k2 t1 t2. rewrite !jlookup_insert. repeat case_decide; intros; simplify_eq; try done.
    + edestruct find_idempotent_None; [exact E|done|done|done|done].
    + edestruct find_idempotent_None; [exact E| |done|done|done].
      cbn in *. congruence.
    + by eapply Hi.
Qed.

Lemma markCompleted_ok id v a s : tokens_ok s -> tokens_ok (markCompleted id v a s).2.
Proof.
  intros Hok. unfold markCompleted. destruct (tokens s !! id) as [t|] eqn:E; [|done].
  destruct (completedAt t); [done|]. by eapply tokens_ok_update.
Qed.

Lemma run_token_op_ok now op s : tokens_ok s -> tokens_ok (run_token_op now op s).
Proof.
  destruct op; intros Hok; cbn.
  - by apply create_ok.
  - by apply markCompleted_ok.
  - by apply tokens_ok_delete.
  - apply tokens_ok_new.
Qed.

Lemma run_token_ops_ok sched s : tokens_ok s -> tokens_ok (run_token_ops sched s).
Proof. apply run_ops_inv_all. intros. by apply run_token_op_ok. Qed.

(** ** Guarantees *)

(** Calls that leave rows in place. *)
Definition keeps_tokens (op : token_op) : Prop :=
  match op with TCreate _ | TMarkCompleted _ _ _ => True | _ => False end.

Lemma completed_stays now op s id t :
  keeps_tokens op -> tokens s !! id = Some t -> is_Some (completedAt t) ->
  tokens (run_token_op now op s) !! id = Some t.
Proof.
  intros Hop Ht [a Ha]. destruct op as [p|id' v a'| |]; try done; cbn.
  - destruct (create_cases now p s) as [(t' & _ & ->)|(Hn & H)]; [done|].
    destruct (find_idempotent p s); rewrite H; [done|]. cbn.
    rewrite jlookup_insert_ne; [done|congruence].
  - unfold markCompleted. destruct (tokens s !! id') as [t'|] eqn:E; [|done].
    destruct (completedAt t') eqn:Ec; [done|]. cbn. rewrite jlookup_insert_ne; congruence.
Qed.

(** A token is consumed once: after the completion that found it
    pending, whatever creates and completions follow, a further completion
    leaves every row alone, answers the winning record with its value and
    time, and says [delivered] exactly when it repeats the winning value. *)
Theorem token_completed_once s id t v1 a1 mid v2 a2 :
  tokens s !! id = Some t -> completedAt t = None ->
  Forall (fun x => keeps_tokens x.2) mid ->
  let s1 := (markCompleted id v1 a1 s).2 in
  let s2 := run_token_ops mid s1 in
  (markCompleted id v1 a1 s).1 = Ok (Delivered, complete_with t a1 v1) /\
  markCompleted id v2 a2 s2 =
    (Ok ((if sameStoredValue v1 v2 then Delivered else AlreadyCompleted), complete_with t a1 v1), s2).
Proof.
  intros Ht Hc Hmid. cbn zeta.
  assert (markCompleted id v1 a1 s = (Ok (Delivered, complete_with t a1 v1),
    mkTokens (<[id := complete_with t a1 v1]> (tokens s)))) as ->
    by (unfold markCompleted; by rewrite Ht, Hc).
  split; [done|]. set (s2 := run_token_ops mid _).
  assert (tokens s2 !! id = Some (complete_with t a1 v1)) as H2.
  { apply (run_ops_inv run_token_op (fun x => keeps_tokens x.2)
      (fun s => tokens s !! id = Some (complete_with t a1 v1))); [|done|apply jlookup_insert_eq].
    intros n op s' Hop Hs'. by apply completed_stays. }
  unfold markCompleted. rewrite H2. done.
Qed.

Lemma token_completed_once_witness :
  let p := mkCreateToken "t" "w" "go" "secret" [] None 100 in
  let s := (create 1 p new_tokens).2 in
  let s1 := (markCompleted "t" (JNum 1) 5 s).2 in
  (markCompleted "t" (JNum 2) 7 (run_token_ops [(6, TCreate p)] s1)).1 =
    Ok (AlreadyCompleted, complete_with (new_token 1 p) 5 (JNum 1)).
Proof.
  intros p s s1.
  destruct (token_completed_once s "t" (new_token 1 p) (JNum 1) 5 [(6, TCreate p)] (JNum 2) 7)
    as [_ H]; [reflexivity|reflexivity|repeat constructor|].
  subst s1. rewrite H. reflexivity.
Defined.

Lemma stored_stays now op s id t :
  keeps_tokens op -> tokens s !! id = Some t ->
  exists t', tokens (run_token_op now op s) !! id = Some t' /\ bearer t' = bearer t /\
    tokenId t' = tokenId t /\ tk_workflowId t' = tk_workflowId t /\
    idempotencyKey t' = idempotencyKey t.
Proof.
  intros Hop Ht. destruct op as [p|id' v a'| |]; try done; cbn.
  - exists t. split; [|done]. destruct (create_cases now p s) as [(t' & _ & ->)|(Hn & H)]; [done|].
    destruct (find_idempotent p s); rewrite H; [done|]. cbn.
    rewrite jlookup_insert_ne; [done|congruence].
  - unfold markCompleted. destruct (tokens s !! id') as [t'|] eqn:E; [|by exists t].
    destruct (completedAt t') eqn:Ec; [by exists t|]. cbn.
    rewrite jlookup_insert. case_decide; [|by exists t]. subst.
    exists (complete_with t' a' v). by simplify_eq.
Qed.

Lemma stored_stays_run mid s id t :
  Forall (fun x => keeps_tokens x.2) mid -> tokens s !! id = Some t ->
  exists t', tokens (run_token_ops mid s) !! id = Some t' /\ bearer t' = bearer t /\
    tokenId t' = tokenId t /\ tk_workflowId t' = tk_workflowId t /\
    idempotencyKey t' = idempotencyKey t.
Proof.
  intros Hmid Ht.
  apply (run_ops_inv run_token_op (fun x => keeps_tokens x.2)
    (fun s => exists t', tokens s !! id = Some t' /\ bearer t' = bearer t /\
      tokenId t' = tokenId t /\ tk_workflowId t' = tk_workflowId t /\
      idempotencyKey t' = idempotencyKey t)); [|done|by exists t].
  intros n op s' Hop (u & Hu & ? & ? & ? & ?).
  destruct (stored_stays n op s' _ u Hop Hu) as (u' & ? & ? & ? & ? & ?). exists u'.
  split_and!; congruence.
Qed.

(** The row a create answers is in the table, under its own id. *)
Lemma create_stored now p s t c :
  tokens_ok s -> (create now p s).1 = Ok (t, c) ->
  tokens (create now p s).2 !! tokenId t = Some t /\ tk_workflowId t = ct_workflowId p.
Proof.
  intros Hok Hc. destruct (create_cases now p s) as [(u & Hu & Hcr)|(Hn & Hcr)].
  - rewrite Hcr in Hc |- *. cbn in *. destruct (sameSignalTokenCreate _ _) eqn:Es; [|done].
    injection Hc as -> _. unfold sameSignalTokenCreate in Es.
    rewrite !andb_true_iff, !bool_decide_eq_true in Es. destruct Es as [[Ew _] _].
    by rewrite (to_id _ Hok _ _ Hu).
  - destruct (find_idempotent p s) as [u|] eqn:E; rewrite Hcr in Hc |- *; cbn in *.
    + injection Hc as <- _. apply find_idempotent_Some in E as (_ & Ew & _ & k & Hin).
      apply jlookup_wf_elem in Hin; [|apply Hok]. by rewrite (to_id _ Hok _ _ Hin).
    + injection Hc as <- _. cbn. by rewrite jlookup_insert_eq.
Qed.

(** A retried create reuses the credentials: from every reachable
    state, after a create under a non-empty idempotency key that answered a
    row, whatever creates and completions run in between, another create
    under the same key and workflow with a new token id answers that same
    token id and bearer as cached and writes nothing. *)
Lemma create_idempotent before now p mid now' p' t c :
  let s0 := run_token_ops before new_tokens in
  (create now p s0).1 = Ok (t, c) ->
  idempotencyKey t = ct_idempotencyKey p -> truthy_str (ct_idempotencyKey p) = true ->
  ct_workflowId p' = ct_workflowId p -> ct_idempotencyKey p' = ct_idempotencyKey p ->
  Forall (fun x => keeps_tokens x.2) mid ->
  let s := run_token_ops mid (create now p s0).2 in
  tokens s !! ct_tokenId p' = None ->
  exists t', create now' p' s = (Ok (t', true), s) /\ tokenId t' = tokenId t /\
    bearer t' = bearer t.
Proof.
  intros s0 Hc Hk Htr Hw' Hk' Hmid s Hnone.
  assert (tokens_ok s0) as Hok0 by apply run_token_ops_ok, tokens_ok_new.
  assert (tokens_ok s) as Hok by (by apply run_token_ops_ok, create_ok).
  destruct (create_stored now p s0 t c) as [Hst Hwt]; [done..|].
  destruct (stored_stays_run mid (create now p s0).2 _ t Hmid Hst)
    as (t' & Ht' & Hb & Hid & Hww & Hkk).
  destruct (create_cases now' p' s) as [(u & Hu & _)|(_ & Hcr)]; [congruence|].
  destruct (find_idempotent p' s) as [u|] eqn:E.
  - exists u. split; [done|]. apply find_idempotent_Some in E as (_ & Ew & Ek & k & Hin).
    apply jlookup_wf_elem in Hin; [|apply Hok].
    assert (k = tokenId t) as -> by (apply (to_idem _ Hok _ _ u t' Hin Ht'); congruence).
    split; [by apply (to_id _ Hok)|]. fold s in Ht'. congruence.
  - exfalso. eapply (find_idempotent_None p' s); [exact E| |exact Ht'| |]; congruence.
Qed.

Lemma create_idempotent_witness :
  let p := mkCreateToken "t1" "w" "go" "b1" [] (Some "k") 100 in
  let p' := mkCreateToken "t2" "w" "go" "b2" [] (Some "k") 100 in
  let s := run_token_ops [(2, TMarkCompleted "t1" JNull 2)] (create 1 p new_tokens).2 in
  exists t', create 3 p' s = (Ok (t', true), s) /\ tokenId t' = "t1" /\ bearer t' = "b1".
Proof.
  intros p p' s.
  apply (create_idempotent [] 1 p [(2, TMarkCompleted "t1" JNull 2)] 3 p' (new_token 1 p) false);
    try reflexivity. repeat constructor.
Defined.
