(* ===== verification/Events.v ===== *)
(** Run events: the event stream of [workflow-event-stream.ts] and the
    in-process bus of [in-memory/run-events.ts].

    A subscriber's iterator resolves a parked [next()] in a microtask, so the
    model keeps the resolved continuations ([es_micro]) apart from the answers
    already given ([es_results]), and running one continuation is a step of
    its own. Calls of [next()] are numbered in call order. *)
From S2P Require Import Prelude Json.
Open Scope string_scope.
Open Scope list_scope.
Open Scope Z_scope.

Inductive WorkflowRunEvent : Type :=
| StepStarted (stepName : string) (at_ : Z)
| StepCompleted (stepName : string) (result : json) (durationMs : Z) (at_ : Z)
| StepFailed (stepName error : string) (at_ : Z)
| WorkflowCompleted (result : json) (at_ : Z)
| WorkflowFailed (error : string) (at_ : Z)
| WorkflowTripwire (stepName : string) (reason : json) (at_ : Z).

(** ** One subscriber's stream *)
Inductive next_result : Type :=
| NValue (e : WorkflowRunEvent)
| NDone
| NThrow (error : json).

Record EventStream : Type := mkStream {
  es_queue : list WorkflowRunEvent;
  es_waiters : list nat;
  es_done : bool;
  es_failure : option json;
  es_disposed : bool;
  es_micro : list (nat * option WorkflowRunEvent);
  es_results : list (nat * next_result);
  es_calls : nat;
}.

Definition new_stream : EventStream := mkStream [] [] false None false [] [] 0.

Definition push (e : WorkflowRunEvent) (s : EventStream) : EventStream :=
  if es_done s then s else
  match es_waiters s with
  | w :: ws => mkStream (es_queue s) ws (es_done s) (es_failure s) (es_disposed s)
                 (es_micro s ++ [(w, Some e)]) (es_results s) (es_calls s)
  | [] => mkStream (es_queue s ++ [e]) [] (es_done s) (es_failure s) (es_disposed s)
            (es_micro s) (es_results s) (es_calls s)
  end.

(** [producer.end()]. *)
Definition end_ (s : EventStream) : EventStream :=
  if es_done s then s else
  mkStream (es_queue s) [] true (es_failure s) (es_disposed s)
    (es_micro s ++ map (fun w => (w, None)) (es_waiters s)) (es_results s) (es_calls s).

Definition fail (error : json) (s : EventStream) : EventStream :=
  if es_done s then s else
  end_ (mkStream (es_queue s) (es_waiters s) (es_done s) (Some error) (es_disposed s)
          (es_micro s) (es_results s) (es_calls s)).

Definition answer (id : nat) (r : next_result) (s : EventStream) : EventStream :=
  mkStream (es_queue s) (es_waiters s) (es_done s) (es_failure s) (es_disposed s)
    (es_micro s) (es_results s ++ [(id, r)]) (es_calls s).

(** [finish()], called for call [id]: dispose, then reject once with the
    stream's failure, if any. *)
Definition finish (id : nat) (s : EventStream) : EventStream :=
  answer id (from_option NThrow NDone (es_failure s))
    (mkStream (es_queue s) (es_waiters s) (es_done s) None true
       (es_micro s) (es_results s) (es_calls s)).

(** The synchronous part of [next()]. *)
Definition next (s : EventStream) : EventStream :=
  let id := es_calls s in
  let s := mkStream (es_queue s) (es_waiters s) (es_done s) (es_failure s) (es_disposed s)
             (es_micro s) (es_results s) (S id) in
  match es_queue s with
  | e :: q => answer id (NValue e)
                (mkStream q (es_waiters s) (es_done s) (es_failure s) (es_disposed s)
                   (es_micro s) (es_results s) (es_calls s))
  | [] => if es_done s then finish id s
          else mkStream [] (es_waiters s ++ [id]) (es_done s) (es_failure s) (es_disposed s)
                 (es_micro s) (es_results s) (es_calls s)
  end.

(** The rest of [next()], once its promise is resolved. *)
Definition microtask (s : EventStream) : EventStream :=
  match es_micro s with
  | [] => s
  | (id, val) :: rest =>
      let s := mkStream (es_queue s) (es_waiters s) (es_done s) (es_failure s) (es_disposed s)
                 rest (es_results s) (es_calls s) in
      match val with
      | Some e => answer id (NValue e) s
      | None => finish id s
      end
  end.

(** [return()]: its own promise answers done. *)
Definition return_ (s : EventStream) : EventStream :=
  let s := end_ s in
  mkStream (es_queue s) (es_waiters s) (es_done s) (es_failure s) true
    (es_micro s) (es_results s) (es_calls s).

Inductive stream_call : Type :=
| CPush (e : WorkflowRunEvent)
| CEnd
| CFail (error : json)
| CNext
| CMicrotask
| CReturn.

Definition stream_step (c : stream_call) (s : EventStream) : EventStream :=
  match c with
  | CPush e => push e s
  | CEnd => end_ s
  | CFail error => fail error s
  | CNext => next s
  | CMicrotask => microtask s
  | CReturn => return_ s
  end.

(** Run a sequence of calls, noting the events the stream accepted. *)
Fixpoint stream_run (cs : list stream_call) (s : EventStream) (log : list WorkflowRunEvent)
    : EventStream * list WorkflowRunEvent :=
  match cs with
  | [] => (s, log)
  | c :: cs' =>
      let log' := match c with
                  | CPush e => if es_done s then log else log ++ [e]
                  | _ => log
                  end in
      stream_run cs' (stream_step c s) log'
  end.

(** ** Delivery: call number [i] gets event number [i] *)

(** What is known about a call: its answer, or the continuation that will
    give it. *)
Definition settled (s : EventStream) (id : nat) (v : option WorkflowRunEvent) : Prop :=
  (id, v) ∈ es_micro s \/
  exists r, (id, r) ∈ es_results s /\
    match v with Some e => r = NValue e | None => r = NDone \/ exists x, r = NThrow x end.

(** With [log] the accepted events, [n] of them are assigned: to the calls
    [0 .. n-1], in order. The others are queued; calls beyond [n] are parked,
    or ended once the stream is done. *)
Record stream_inv (s : EventStream) (log : list WorkflowRunEvent) (n : nat) : Prop := {
  si_le : (n <= length log)%nat;
  si_calls : (n <= es_calls s)%nat;
  si_queue : es_queue s = drop n log;
  si_waiters : es_waiters s = if es_done s then [] else seq n (es_calls s - n);
  si_parked : (n < es_calls s)%nat -> n = length log;
  si_value : forall id e, settled s id (Some e) -> log !! id = Some e;
  si_ended : forall id, settled s id None -> (length log <= id)%nat /\ es_done s = true;
  si_assigned : forall id, (id < n)%nat -> exists e, settled s id (Some e);
}.

Lemma settled_answer s id r id' v :
  settled (answer id r s) id' v <->
  settled s id' v \/ id' = id /\
    match v with Some e => r = NValue e | None => r = NDone \/ exists x, r = NThrow x end.
Proof.
  unfold settled, answer; cbn. setoid_rewrite elem_of_app. setoid_rewrite list_elem_of_singleton.
  split.
  - intros [H|(r' & [H|[= -> ->]] & Hr)]; [by do 2 left|left; right; by exists r'|by right].
  - intros [[H|(r' & H & Hr)]|[-> Hr]]; [by left|right; exists r'; auto|right; exists r; auto].
Qed.

Lemma settled_micro q ws d f x m r c id v extra :
  settled (mkStream q ws d f x (m ++ extra) r c) id v <->
  settled (mkStream q ws d f x m r c) id v \/ (id, v) ∈ extra.
Proof. unfold settled; cbn. rewrite elem_of_app. tauto. Qed.

(** [settled] reads the continuations and the answers only. *)
Lemma settled_eq s s' id v : es_micro s = es_micro s' -> es_results s = es_results s' ->
  settled s id v <-> settled s' id v.
Proof. unfold settled. by intros -> ->. Qed.

Lemma settled_finish s id id' v :
  settled (finish id s) id' v <-> settled s id' v \/ (id' = id /\ v = None).
Proof.
  unfold finish. rewrite settled_answer.
  rewrite (settled_eq _ s id' v) by done.
  split.
  - intros [H|[-> H]]; [by left|]. right. split; [done|].
    by destruct v, (es_failure s).
  - intros [H|[-> ->]]; [by left|]. right. split; [done|].
    destruct (es_failure s) as [x|]; [right; by exists x|by left].
Qed.

Lemma settled_end s id v : es_done s = false ->
  settled (end_ s) id v <-> settled s id v \/ (v = None /\ id ∈ es_waiters s).
Proof.
  intros Hd. unfold end_. rewrite Hd, settled_micro.
  rewrite (settled_eq _ s id v) by done. rewrite list_elem_of_fmap. split.
  - intros [H|(w & [= -> ->] & Hw)]; [by left|by right].
  - intros [H|[-> Hw]]; [by left|right; by exists id].
Qed.

Ltac stream_goal := constructor; cbn [es_queue es_waiters es_done es_calls].

Lemma push_inv e s log n : stream_inv s log n ->
  exists n', stream_inv (push e s) (if es_done s then log else log ++ [e]) n'.
Proof.
  intros Hinv. unfold push. destruct (es_done s) eqn:Hd; [by exists n|].
  destruct Hinv as [Hle Hc Hq Hw Hp Hv He Ha]. rewrite Hd in Hw.
  destruct (es_waiters s) as [|w ws] eqn:Ew.
  - exists n. assert (es_calls s = n) as Hcn.
    { destruct (decide (n < es_calls s)%nat) as [Hlt|]; [|lia].
      destruct (es_calls s - n)%nat eqn:E; [lia|done]. }
    stream_goal; rewrite ?length_app; try lia.
    + by rewrite Hq, drop_app_le.
    + by rewrite Hcn, Nat.sub_diag.
    + intros id e' H. apply lookup_app_l_Some. by apply Hv.
    + intros id H. destruct (He id H). congruence.
    + exact Ha.
  - destruct (es_calls s - n)%nat as [|k] eqn:Ek; [done|]. injection Hw as -> ->.
    assert (n = length log) as Hn by (apply Hp; lia). exists (S n).
    stream_goal; rewrite ?length_app; cbn; try lia.
    + rewrite Hq, drop_app_ge, !drop_ge by (cbn; lia). done.
    + by replace (es_calls s - S n)%nat with k by lia.
    + intros id e'. rewrite settled_micro, list_elem_of_singleton. intros [H|[= -> ->]].
      * apply lookup_app_l_Some. by apply Hv.
      * rewrite Hn. by apply list_lookup_middle.
    + intros id. rewrite settled_micro, list_elem_of_singleton. intros [H|[=]].
      destruct (He id H). congruence.
    + intros id Hid. setoid_rewrite settled_micro. destruct (decide (id = n)) as [->|].
      * exists e. right. by left.
      * destruct (Ha id) as [e' He']; [lia|]. exists e'. by left.
Qed.

Lemma end_inv s log n : stream_inv s log n -> stream_inv (end_ s) log n.
Proof.
  intros Hinv. destruct (es_done s) eqn:Hd; [unfold end_; by rewrite Hd|].
  destruct Hinv as [Hle Hc Hq Hw Hp Hv He Ha]. rewrite Hd in Hw.
  assert (Hset := fun id v => settled_end s id v Hd).
  assert (es_queue (end_ s) = es_queue s /\ es_waiters (end_ s) = [] /\ es_done (end_ s) = true /\
    es_calls (end_ s) = es_calls s) as (E1 & E2 & E3 & E4) by (unfold end_; by rewrite Hd).
  constructor; rewrite ?E1, ?E2, ?E3, ?E4; try done.
  - intros id e. rewrite Hset. intros [H|[H _]]; [by apply Hv|done].
  - intros id. rewrite Hset. intros [H|[_ H]]; [by destruct (He id H)|].
    rewrite Hw in H. apply elem_of_seq in H. split; [|done]. rewrite <- Hp; lia.
  - intros id Hid. destruct (Ha id Hid) as [e H]. exists e. rewrite Hset. by left.
Qed.

(** The invariant reads the failure, the disposal and the order of the
    pending continuations and answers only through [settled]. *)
Lemma stream_inv_ext s s' log n : stream_inv s log n ->
  es_queue s' = es_queue s -> es_waiters s' = es_waiters s -> es_done s' = es_done s ->
  es_calls s' = es_calls s -> (forall id v, settled s' id v <-> settled s id v) ->
  stream_inv s' log n.
Proof.
  intros [Hle Hc Hq Hw Hp Hv He Ha] E1 E2 E3 E4 Hs.
  constructor; rewrite ?E1, ?E2, ?E3, ?E4; try done.
  - intros id e. rewrite Hs. apply Hv.
  - intros id. rewrite Hs. apply He.
  - intros id Hid. destruct (Ha id Hid) as [e H]. exists e. by apply Hs.
Qed.

Lemma next_inv s log n : stream_inv s log n -> exists n', stream_inv (next s) log n'.
Proof.
  intros [Hle Hc Hq Hw Hp Hv He Ha]. unfold next. cbn [es_queue es_done es_waiters es_calls].
  assert (Hset : forall id v, settled (mkStream (es_queue s) (es_waiters s) (es_done s)
    (es_failure s) (es_disposed s) (es_micro s) (es_results s) (S (es_calls s))) id v
    <-> settled s id v) by (intros; by apply settled_eq).
  destruct (es_queue s) as [|e q] eqn:Eq.
  - assert (n = length log) as Hn.
    { assert (length (drop n log) = 0%nat) as H0 by (by rewrite <- Hq). rewrite length_drop in H0. lia. }
    exists n. destruct (es_done s) eqn:Hd.
    + constructor.
      1-5: unfold finish, answer; cbn [es_queue es_waiters es_done es_calls]; try done; lia.
      * intros id e. rewrite settled_finish, Hset. intros [H|[_ H]]; [by apply Hv|done].
      * intros id. rewrite settled_finish, Hset. intros [H|[-> _]]; [by apply He|].
        split; [lia|done].
      * intros id Hid. destruct (Ha id Hid) as [e H]. exists e. rewrite settled_finish, Hset. by left.
    + stream_goal; try done; try lia.
      * rewrite Hw. replace (S (es_calls s) - n)%nat with (S (es_calls s - n)) by lia.
        rewrite seq_S. do 2 f_equal. lia.
  - assert (n < length log)%nat as Hn.
    { destruct (decide (n < length log)%nat) as [|]; [done|]. rewrite drop_ge in Hq by lia. done. }
    assert (es_calls s = n) as Hcn by (destruct (decide (n < es_calls s)%nat); [specialize (Hp l); lia|lia]).
    destruct (lookup_lt_is_Some_2 log n Hn) as [e' He'].
    rewrite (drop_S _ _ _ He') in Hq. injection Hq as -> ->.
    exists (S n). constructor.
    1-5: unfold answer; cbn [es_queue es_waiters es_done es_calls]; try done; try lia.
    + by rewrite Hw, Hcn, !Nat.sub_diag.
    + intros id e. setoid_rewrite settled_answer. setoid_rewrite Hset.
      intros [H|[-> [= ->]]]; [by apply Hv|]. by rewrite Hcn.
    + intros id. setoid_rewrite settled_answer. setoid_rewrite Hset.
      intros [H|[_ [H|[x H]]]]; [by apply He|done|done].
    + intros id Hid. setoid_rewrite settled_answer. setoid_rewrite Hset.
      destruct (decide (id = n)) as [->|]; [exists e'; right; by rewrite Hcn|].
      destruct (Ha id) as [e H]; [lia|]. exists e. by left.
Qed.

Lemma microtask_settled s id v : settled (microtask s) id v <-> settled s id v.
Proof.
  unfold microtask. destruct (es_micro s) as [|[id' [e|]] rest] eqn:E; [done| |].
  - rewrite settled_answer. unfold settled; cbn. rewrite E. setoid_rewrite elem_of_cons.
    split; [intros [[H|H]|[-> H]]|intros [[[= -> ->]|H]|H]]; try tauto.
    left. left. destruct v; [by injection H as ->|]. by destruct H as [H|[x H]].
  - rewrite settled_finish. unfold settled; cbn. rewrite E. setoid_rewrite elem_of_cons.
    split; [intros [[H|H]|[-> ->]]|intros [[[= -> ->]|H]|H]]; tauto.
Qed.

Lemma microtask_inv s log n : stream_inv s log n -> stream_inv (microtask s) log n.
Proof.
  intros H. eapply stream_inv_ext; [exact H|..|intros; apply microtask_settled];
    unfold microtask, finish, answer; by destruct (es_micro s) as [|[? []] ?].
Qed.

Lemma stream_step_inv c s log n : stream_inv s log n ->
  exists n', stream_inv (stream_step c s)
    match c with CPush e => if es_done s then log else log ++ [e] | _ => log end n'.
Proof.
  intros H. destruct c; cbn.
  - by eapply push_inv.
  - exists n. by apply end_inv.
  - exists n. unfold fail. destruct (es_done s) eqn:Hd; [done|]. apply end_inv.
    eapply stream_inv_ext; [exact H|by rewrite ?Hd..].
  - by eapply next_inv.
  - exists n. by apply microtask_inv.
  - exists n. unfold return_. eapply stream_inv_ext; [apply end_inv, H|done..].
Qed.

Lemma stream_run_inv cs s log n : stream_inv s log n ->
  exists n', stream_inv (stream_run cs s log).1 (stream_run cs s log).2 n'.
Proof.
  revert s log n. induction cs as [|c cs IH]; intros s log n H; cbn; [by exists n|].
  destruct (stream_step_inv c s log n H) as [n' H']. by eapply IH.
Qed.

Lemma new_stream_inv : stream_inv new_stream [] 0.
Proof.
  constructor; cbn; try done; try lia.
  - intros id e [H|(r & H & _)]; by apply not_elem_of_nil in H.
  - intros id [H|(r & H & _)]; by apply not_elem_of_nil in H.
Qed.

(** C33. Exactly-once delivery in order: however pushes, ends, failures,
    [next()] calls and microtasks interleave, call number [i] of [next()]
    can only be answered with event number [i] that the stream accepted, an
    answer of done (or the failure) only reaches calls past the last accepted
    event, every event is either assigned to its call or still queued, and
    no event waits in the queue while a call is parked. *)
Theorem stream_delivery cs :
  let '(s, log) := stream_run cs new_stream [] in
  (forall id e, (id, NValue e) ∈ es_results s -> log !! id = Some e) /\
  (forall id r, (id, r) ∈ es_results s -> (forall e, r <> NValue e) ->
     (length log <= id)%nat /\ es_done s = true) /\
  (exists n, es_queue s = drop n log /\ forall id, (id < n)%nat ->
     exists e, log !! id = Some e /\ ((id, Some e) ∈ es_micro s \/ (id, NValue e) ∈ es_results s)) /\
  (es_queue s = [] \/ es_waiters s = []).
Proof.
  destruct (stream_run_inv cs new_stream [] 0 new_stream_inv) as [n [Hle Hc Hq Hw Hp Hv He Ha]].
  destruct (stream_run cs new_stream []) as [s log]. cbn in *. split_and!.
  - intros id e H. apply Hv. right. by exists (NValue e).
  - intros id r H Hr. apply He. right. exists r. split; [done|].
    destruct r as [e| |x]; [by destruct (Hr e)|by left|right; by exists x].
  - exists n. split; [done|]. intros id Hid. destruct (Ha id Hid) as [e H]. exists e.
    split; [by apply Hv|]. destruct H as [H|(r & H & ->)]; auto.
  - destruct (es_done s); [by right|].
    destruct (decide (n < es_calls s)%nat) as [Hlt|].
    + left. rewrite Hq, drop_ge; [done|]. rewrite Hp; lia.
    + right. rewrite Hw. replace (es_calls s - n)%nat with 0%nat by lia. done.
Qed.

(** ** The bus *)
Record InMemoryRunEvents : Type := mkRunEvents {
  subscribers : jmap string (list nat);
  streams : list EventStream;
}.

Definition new_run_events : InMemoryRunEvents := mkRunEvents ∅ [].

Definition on_stream (r : nat) (f : EventStream -> EventStream) (s : InMemoryRunEvents)
    : InMemoryRunEvents :=
  mkRunEvents (subscribers s) (alter f r (streams s)).

(** A subscriber's push function: [null] ends its stream. *)
Definition adapt (e : option WorkflowRunEvent) (st : EventStream) : EventStream :=
  match e with Some e => push e st | None => end_ st end.

Definition emit (workflowId : string) (event : WorkflowRunEvent) (terminal : bool)
    (s : InMemoryRunEvents) : InMemoryRunEvents :=
  match subscribers s !! workflowId with
  | None | Some [] => s
  | Some subs =>
      let deliver st := let st := adapt (Some event) st in if terminal then adapt None st else st in
      let s := foldl (fun s r => on_stream r deliver s) s subs in
      if terminal then mkRunEvents (delete workflowId (subscribers s)) (streams s) else s
  end.

(** [subscribe]: a new stream, its push function added to the set. *)
Definition subscribe (workflowId : string) (s : InMemoryRunEvents) : nat * InMemoryRunEvents :=
  let r := length (streams s) in
  let subs := opt_or (subscribers s !! workflowId) [] in
  (r, mkRunEvents (<[workflowId := set_add r subs]> (subscribers s)) (streams s ++ [new_stream])).

(** The disposer of subscription [r], run when its stream finishes. *)
Definition unsubscribe (workflowId : string) (r : nat) (s : InMemoryRunEvents)
    : InMemoryRunEvents :=
  match subscribers s !! workflowId with
  | None => s
  | Some cur =>
      match set_remove r cur with
      | [] => mkRunEvents (delete workflowId (subscribers s)) (streams s)
      | cur' => mkRunEvents (<[workflowId := cur']> (subscribers s)) (streams s)
      end
  end.

Definition forget (workflowId : string) (s : InMemoryRunEvents) : InMemoryRunEvents :=
  mkRunEvents (delete workflowId (subscribers s)) (streams s).

(** A call on one subscription's iterator; the disposer runs at most once. *)
Definition call_stream (workflowId : string) (r : nat) (c : stream_call) (s : InMemoryRunEvents)
    : InMemoryRunEvents :=
  match streams s !! r with
  | None => s
  | Some st =>
      let st' := stream_step c st in
      let s := on_stream r (fun _ => st') s in
      if es_disposed st' && negb (es_disposed st) then unsubscribe workflowId r s else s
  end.

Inductive bus_op : Type :=
| BEmit (workflowId : string) (event : WorkflowRunEvent) (terminal : bool)
| BSubscribe (workflowId : string)
| BCall (workflowId : string) (r : nat) (c : stream_call)
| BForget (workflowId : string).

Definition run_bus_op (_ : Z) (op : bus_op) (s : InMemoryRunEvents) : InMemoryRunEvents :=
  match op with
  | BEmit w e t => emit w e t s
  | BSubscribe w => (subscribe w s).2
  | BCall w r c => call_stream w r c s
  | BForget w => forget w s
  end.

Definition run_bus_ops : list (Z * bus_op) -> InMemoryRunEvents -> InMemoryRunEvents :=
  run_ops run_bus_op.

(** Subscriptions of [workflowId]. *)
Definition subs_of (workflowId : string) (s : InMemoryRunEvents) : list nat :=
  opt_or (subscribers s !! workflowId) [].

Record bus_ok (s : InMemoryRunEvents) : Prop := {
  bo_nodup : forall w, NoDup (subs_of w s);
  bo_bound : forall w r, r ∈ subs_of w s -> (r < length (streams s))%nat;
}.

Lemma bus_ok_new : bus_ok new_run_events.
Proof. split; [intros; constructor|intros w r H; by apply not_elem_of_nil in H]. Qed.

Lemma on_streams_subscribers f rs s :
  subscribers (foldl (fun s r => on_stream r f s) s rs) = subscribers s.
Proof. revert s. induction rs as [|r rs IH]; intros s; cbn; [done|]. by rewrite IH. Qed.

Lemma on_streams_length f rs s :
  length (streams (foldl (fun s r => on_stream r f s) s rs)) = length (streams s).
Proof.
  revert s. induction rs as [|r rs IH]; intros s; cbn; [done|]. by rewrite IH; cbn; rewrite length_alter.
Qed.

Lemma on_streams_lookup f rs s r : NoDup rs ->
  streams (foldl (fun s r => on_stream r f s) s rs) !! r =
    if decide (r ∈ rs) then f <$> streams s !! r else streams s !! r.
Proof.
  revert s. induction rs as [|r' rs IH]; intros s; cbn.
  - intros _. by rewrite decide_False by apply not_elem_of_nil.
  - intros [Hni Hnd]%NoDup_cons. rewrite IH by done. cbn.
    destruct (decide (r = r')) as [->|Hne].
    + rewrite decide_False by done. rewrite decide_True by apply list_elem_of_here.
      apply list_lookup_alter_eq.
    + rewrite list_lookup_alter_ne by done.
      destruct (decide (r ∈ rs)); [rewrite decide_True by (by right)|rewrite decide_False]; try done.
      by intros [?|?]%elem_of_cons.
Qed.

Lemma emit_eq w e t s : subs_of w s <> [] ->
  let deliver st := let st := push e st in if (t : bool) then end_ st else st in
  let s' := foldl (fun s r => on_stream r deliver s) s (subs_of w s) in
  emit w e t s = if t then mkRunEvents (delete w (subscribers s')) (streams s') else s'.
Proof.
  intros Hs. unfold emit. unfold subs_of in *. by destruct (subscribers s !! w) as [[|r l]|].
Qed.

Lemma subs_of_delete w w' s l :
  subs_of w' (mkRunEvents (delete w (subscribers s)) l) = if decide (w = w') then [] else subs_of w' s.
Proof. unfold subs_of; cbn. rewrite jlookup_delete. by case_decide. Qed.

Lemma subs_of_emit w e t s w' :
  subs_of w' (emit w e t s) = if decide (w = w') then (if t : bool then [] else subs_of w' s)
                              else subs_of w' s.
Proof.
  destruct (decide (subs_of w s = [])) as [Hn|Hn].
  - assert (emit w e t s = s) as ->.
    { unfold emit. unfold subs_of in Hn. by destruct (subscribers s !! w) as [[|]|]. }
    case_decide; [subst|done]. destruct t; [done|done].
  - rewrite emit_eq by done. destruct t.
    + rewrite subs_of_delete. case_decide; [done|]. unfold subs_of. by rewrite on_streams_subscribers.
    + unfold subs_of. rewrite on_streams_subscribers. by case_decide.
Qed.

Lemma streams_emit w e t s r : bus_ok s ->
  streams (emit w e t s) !! r =
    if decide (r ∈ subs_of w s)
    then (fun st => let st := push e st in if (t : bool) then end_ st else st) <$> streams s !! r
    else streams s !! r.
Proof.
  intros [Hn _]. destruct (decide (subs_of w s = [])) as [He|He].
  - rewrite He. rewrite decide_False by apply not_elem_of_nil.
    unfold emit. unfold subs_of in He. by destruct (subscribers s !! w) as [[|]|].
  - rewrite emit_eq by done. destruct t; cbn [streams]; by rewrite on_streams_lookup.
Qed.

Lemma emit_length w e t s : length (streams (emit w e t s)) = length (streams s).
Proof.
  unfold emit. destruct (subscribers s !! w) as [[|r l]|]; [done| |done].
  destruct t; cbn [streams]; apply on_streams_length.
Qed.

Lemma unsubscribe_subs w r s w' :
  streams (unsubscribe w r s) = streams s /\
  subs_of w' (unsubscribe w r s) = if decide (w = w') then set_remove r (subs_of w' s) else subs_of w' s.
Proof.
  unfold unsubscribe, subs_of. destruct (subscribers s !! w) as [cur|] eqn:E.
  - destruct (set_remove r cur) as [|x l] eqn:Er; (split; [done|]); cbn;
      rewrite ?jlookup_delete, ?jlookup_insert; case_decide; subst; rewrite ?E; cbn; by rewrite ?Er.
  - split; [done|]. case_decide; [subst; by rewrite E|done].
Qed.

Lemma run_bus_op_ok now op s : bus_ok s -> bus_ok (run_bus_op now op s).
Proof.
  intros Hok. pose proof Hok as [Hn Hb]. destruct op as [w e t|w|w r c|w]; cbn [run_bus_op].
  - split; intros w'; rewrite subs_of_emit; [|rewrite emit_length]; case_decide; destruct t;
      eauto using NoDup_nil_2; intros r Hr; by apply not_elem_of_nil in Hr.
  - unfold subscribe; cbn [snd]. assert (forall w' l, subs_of w' (mkRunEvents
      (<[w := set_add (length (streams s)) (subs_of w s)]> (subscribers s)) l) =
      if decide (w = w') then set_add (length (streams s)) (subs_of w s) else subs_of w' s) as Hsub.
    { intros w' l. unfold subs_of; cbn. rewrite jlookup_insert. by case_decide. }
    change (opt_or (subscribers s !! w) []) with (subs_of w s).
    split; intros w'; rewrite Hsub; case_decide; auto; cbn [streams].
    + by apply NoDup_set_add.
    + intros r [->|Hr%Hb]%elem_of_set_add; rewrite length_app; cbn; lia.
    + intros r Hr%Hb. rewrite length_app. lia.
  - unfold call_stream. destruct (streams s !! r) as [st|]; [|done].
    set (s1 := on_stream r _ s).
    assert (bus_ok s1) as Hok1 by (split; [exact Hn|intros w' r' H%Hb; cbn; by rewrite length_alter]).
    destruct (es_disposed _ && _); [|done]. destruct Hok1 as [Hn1 Hb1].
    split; intros w'; destruct (unsubscribe_subs w r s1 w') as [E1 E2]; rewrite ?E1, E2;
      case_decide; auto.
    + by apply NoDup_filter.
    + intros r' [_ Hr]%elem_of_set_remove. by eapply Hb1.
    + apply Hb1.
  - split; intros w'; unfold forget; rewrite subs_of_delete; case_decide; auto using NoDup_nil_2.
    + intros r Hr. by apply not_elem_of_nil in Hr.
    + apply Hb.
Qed.

Lemma run_bus_ops_ok sched s : bus_ok s -> bus_ok (run_bus_ops sched s).
Proof. apply run_ops_inv_all. apply run_bus_op_ok. Qed.

(** Fan-out: from every reachable state, an emit on a workflow reaches
    each of that workflow's subscriptions exactly once and no other stream; a
    terminal event also ends those streams and drops the whole set, so a
    later emit on that workflow reaches no stream at all. *)
Theorem emit_fan_out sched w e t :
  let s := run_bus_ops sched new_run_events in
  let s' := emit w e t s in
  (forall r, streams s' !! r =
     if decide (r ∈ subs_of w s)
     then (fun st => if (t : bool) then end_ (push e st) else push e st) <$> streams s !! r
     else streams s !! r) /\
  (forall w', subs_of w' s' = if bool_decide (w = w') && t then [] else subs_of w' s) /\
  (t = true -> forall e' t', emit w e' t' s' = s').
Proof.
  intros s s'. assert (bus_ok s) as Hok by (by apply run_bus_ops_ok, bus_ok_new).
  split_and!.
  - intros r. subst s'. rewrite streams_emit by done. case_decide; [|done]. by destruct t.
  - intros w'. subst s'. rewrite subs_of_emit. repeat case_decide; case_bool_decide; try done; by destruct t.
  - intros -> e' t'. assert (subs_of w s' = []) as Hs.
    { subst s'. rewrite subs_of_emit. by rewrite decide_True. }
    unfold emit at 1. unfold subs_of in Hs. by destruct (subscribers s' !! w) as [[|]|].
Qed.
