(* ===== verification/RunState.v ===== *)
(** The run row: the state types of [workflow-state.ts], the in-memory row
    and its helpers ([in-memory/run-record.ts]) and the list order of
    [storage/ordering.ts].

    A map step's task rows live in a JavaScript array that the storage
    appends to in place and also hands out to callers, so the arrays are kept
    in a store of their own ([task_arrays]) and a step row holds a reference.
    A run row is split by how its fields change: its identity never does, its
    lifecycle fields do together. *)
From S2P Require Import Prelude Json.
Open Scope string_scope.
Open Scope list_scope.
Open Scope Z_scope.

(** ** Statuses *)
Inductive WorkflowStatus : Type :=
| Pending | Running | Completed | Failed | Suspended | Compensating | Tripwire.
#[global] Instance WorkflowStatus_eq_dec : EqDecision WorkflowStatus.
Proof. solve_decision. Defined.

Definition WORKFLOW_STATUSES : list WorkflowStatus :=
  [Pending; Running; Completed; Failed; Suspended; Compensating; Tripwire].

Definition status_name (s : WorkflowStatus) : string :=
  match s with
  | Pending => "pending" | Running => "running" | Completed => "completed" | Failed => "failed"
  | Suspended => "suspended" | Compensating => "compensating" | Tripwire => "tripwire"
  end.

Definition TERMINAL_WORKFLOW_STATUSES : list WorkflowStatus := [Completed; Failed; Tripwire].

Definition isTerminalWorkflowStatus (s : WorkflowStatus) : bool :=
  match s with Completed | Failed | Tripwire => true | _ => false end.

Definition CANCELLED_ERROR_TAG : string := "WorkflowCancelledError".
Definition CANCELLED_ERROR : string := "Cancelled".
Definition MARKED_FAILED_ERROR_TAG : string := "WorkflowMarkedFailedError".

Record WorkflowStatusSnapshot : Type := mkStatusSnapshot {
  sn_status : WorkflowStatus;
  sn_error : option string;
  sn_errorTag : option string;
}.

Definition isCancelledRun (s : WorkflowStatusSnapshot) : bool :=
  bool_decide (sn_status s = Failed) && bool_decide (sn_errorTag s = Some CANCELLED_ERROR_TAG).

Definition isMarkedFailedRun (s : WorkflowStatusSnapshot) : bool :=
  bool_decide (sn_status s = Failed) && bool_decide (sn_errorTag s = Some MARKED_FAILED_ERROR_TAG).

Definition isFinalFailedRun (s : WorkflowStatusSnapshot) : bool :=
  isCancelledRun s || isMarkedFailedRun s.

Inductive StepStatus : Type :=
| SPending | SRunning | SCompleted | SFailed | SSkipped | SSleeping | SWaitingForSignal
| SCompensated | SCompensationFailed.
#[global] Instance StepStatus_eq_dec : EqDecision StepStatus.
Proof. solve_decision. Defined.

Inductive StepType : Type := TySingle | TyMap | TySleep | TySignal.
#[global] Instance StepType_eq_dec : EqDecision StepType.
Proof. solve_decision. Defined.

Inductive RunSource : Type := SrcManual | SrcSchedule | SrcApi | SrcWebhook | SrcParent | SrcAgent.
#[global] Instance RunSource_eq_dec : EqDecision RunSource.
Proof. solve_decision. Defined.

(** [RUN_SOURCE_CODES], as its list of entries. *)
Definition RUN_SOURCE_CODES : list (RunSource * Z) :=
  [(SrcManual, 0); (SrcSchedule, 1); (SrcApi, 2); (SrcWebhook, 3); (SrcParent, 4); (SrcAgent, 5)].

Definition encodeRunSource (source : option RunSource) : option Z :=
  source ≫= fun s => snd <$> List.find (fun e => bool_decide (e.1 = s)) RUN_SOURCE_CODES.

Definition decodeRunSource (code : option Z) : option RunSource :=
  code ≫= fun c => fst <$> List.find (fun e => bool_decide (e.2 = c)) RUN_SOURCE_CODES.

(** ** Step and task rows *)
Definition metadata : Type := list (string * json).

Record StepTaskState : Type := mkTask {
  ta_taskIndex : Z;
  ta_status : StepStatus;
  ta_input : json;
  ta_result : json;
  ta_error : option string;
  ta_startedAt : option Z;
  ta_completedAt : option Z;
  ta_attempt : Z;
}.

(** The compensation-ledger fields of a step row. *)
Inductive StepCompensationStatus : Type := LPending | LCompensated | LCompensationFailed.

Record CompensationLedger : Type := mkLedger {
  compensationStatus : option StepCompensationStatus;
  compensationError : option string;
  compensatedAt : option Z;
}.

Definition no_ledger : CompensationLedger := mkLedger None None None.

(** [status] is [undefined] on a row that [suspendWorkflow] built from an
    update without one; [undefined] results are [JUndef]. *)
Record StepState : Type := mkStep {
  st_stepName : string;
  st_run : Z;
  st_status : option StepStatus;
  st_dependsOn : list string;
  st_stepType : StepType;
  st_result : json;
  st_error : option string;
  st_errorTag : option string;
  st_startedAt : option Z;
  st_completedAt : option Z;
  st_durationMs : option Z;
  st_attempt : Z;
  st_tasks : option nat;
  st_wakeAt : option Z;
  st_signalName : option string;
  st_signalTimeoutAt : option Z;
  st_signalJsonSchema : json;
  st_ledger : CompensationLedger;
  st_metadata : option metadata;
}.

Definition with_ledger (l : CompensationLedger) (s : StepState) : StepState :=
  mkStep (st_stepName s) (st_run s) (st_status s) (st_dependsOn s) (st_stepType s) (st_result s)
    (st_error s) (st_errorTag s) (st_startedAt s) (st_completedAt s) (st_durationMs s)
    (st_attempt s) (st_tasks s) (st_wakeAt s) (st_signalName s) (st_signalTimeoutAt s)
    (st_signalJsonSchema s) l (st_metadata s).

Definition with_tasks (r : nat) (s : StepState) : StepState :=
  mkStep (st_stepName s) (st_run s) (st_status s) (st_dependsOn s) (st_stepType s) (st_result s)
    (st_error s) (st_errorTag s) (st_startedAt s) (st_completedAt s) (st_durationMs s)
    (st_attempt s) (Some r) (st_wakeAt s) (st_signalName s) (st_signalTimeoutAt s)
    (st_signalJsonSchema s) (st_ledger s) (st_metadata s).

Definition withoutCompensationLedger (s : StepState) : StepState := with_ledger no_ledger s.

(** ** The run row *)
Record OwnedTasks : Type := mkOwned {
  ot_tasks : nat;
  ot_position : jmap Z nat;
  ot_epoch : Z;
}.

(** What [createWorkflow] fixes for good. *)
Record RunIdentity : Type := mkIdentity {
  ri_workflowId : string;
  ri_workflowName : string;
  ri_workflowType : option string;
  ri_parentWorkflowId : option string;
  ri_namespace : option string;
  ri_version : option string;
  ri_runSource : option RunSource;
  ri_runSourceId : option string;
  ri_createdAt : Z;
}.

(** What the lifecycle transitions write. *)
Record Lifecycle : Type := mkLife {
  lc_status : WorkflowStatus;
  lc_result : json;
  lc_error : option string;
  lc_errorTag : option string;
  lc_tripwire : json;
  lc_startedAt : option Z;
  lc_completedAt : option Z;
}.

Record MutableWorkflow : Type := mkWorkflow {
  wf_ident : RunIdentity;
  wf_run : Z;
  wf_input : json;
  wf_life : Lifecycle;
  wf_metadata : option metadata;
  wf_idempotencyKey : option string;
  wf_idempotencyExpiresAt : option Z;
  wf_steps : jmap string StepState;
  wf_ownedTasks : jmap string OwnedTasks;
  wf_handedOut : Z;
  wf_updatedAt : Z;
}.

Definition wf_status (wf : MutableWorkflow) : WorkflowStatus := lc_status (wf_life wf).

Definition with_life (l : Lifecycle) (now : Z) (wf : MutableWorkflow) : MutableWorkflow :=
  mkWorkflow (wf_ident wf) (wf_run wf) (wf_input wf) l (wf_metadata wf)
    (wf_idempotencyKey wf) (wf_idempotencyExpiresAt wf) (wf_steps wf)
    (wf_ownedTasks wf) (wf_handedOut wf) now.

Definition with_steps (steps : jmap string StepState) (now : Z) (wf : MutableWorkflow)
    : MutableWorkflow :=
  mkWorkflow (wf_ident wf) (wf_run wf) (wf_input wf) (wf_life wf) (wf_metadata wf)
    (wf_idempotencyKey wf) (wf_idempotencyExpiresAt wf) steps
    (wf_ownedTasks wf) (wf_handedOut wf) now.

Definition with_metadata (m : metadata) (now : Z) (wf : MutableWorkflow) : MutableWorkflow :=
  mkWorkflow (wf_ident wf) (wf_run wf) (wf_input wf) (wf_life wf) (Some m)
    (wf_idempotencyKey wf) (wf_idempotencyExpiresAt wf) (wf_steps wf)
    (wf_ownedTasks wf) (wf_handedOut wf) now.

(** ** What callers get *)

(** A handed-out run: the row with its step rows, whose [tasks] references
    the caller now shares. *)
Record WorkflowState : Type := mkState {
  ws_ident : RunIdentity;
  ws_run : Z;
  ws_input : json;
  ws_life : Lifecycle;
  ws_metadata : option metadata;
  ws_steps : list (string * StepState);
  ws_updatedAt : Z;
}.

Record WorkflowRunSummary : Type := mkSummary {
  rs_run : Z;
  rs_version : option string;
  rs_status : WorkflowStatus;
  rs_result : json;
  rs_error : option string;
  rs_tripwire : json;
  rs_steps : list (string * StepState);
  rs_createdAt : Z;
  rs_startedAt : option Z;
  rs_completedAt : option Z;
}.

Definition handOutSteps (wf : MutableWorkflow) : list (string * StepState) * MutableWorkflow :=
  (jm_entries (wf_steps wf),
   mkWorkflow (wf_ident wf) (wf_run wf) (wf_input wf) (wf_life wf) (wf_metadata wf)
     (wf_idempotencyKey wf) (wf_idempotencyExpiresAt wf) (wf_steps wf)
     (wf_ownedTasks wf) (wf_handedOut wf + 1) (wf_updatedAt wf)).

Definition toWorkflowState (wf : MutableWorkflow) : WorkflowState * MutableWorkflow :=
  let '(steps, wf) := handOutSteps wf in
  (mkState (wf_ident wf) (wf_run wf) (wf_input wf) (wf_life wf) (wf_metadata wf) steps
     (wf_updatedAt wf), wf).

Definition currentRunSummary (wf : MutableWorkflow) : WorkflowRunSummary * MutableWorkflow :=
  let '(steps, wf) := handOutSteps wf in
  let life := wf_life wf in
  (mkSummary (wf_run wf) (ri_version (wf_ident wf)) (lc_status life) (lc_result life)
     (lc_error life) (lc_tripwire life) steps (ri_createdAt (wf_ident wf)) (lc_startedAt life)
     (lc_completedAt life), wf).

Definition statusSnapshot (wf : MutableWorkflow) : WorkflowStatusSnapshot :=
  mkStatusSnapshot (wf_status wf) (lc_error (wf_life wf)) (lc_errorTag (wf_life wf)).

(** The key of the idempotency index: [JSON.stringify] of a three-element
    array. *)
Definition idempotencyIndexKey (namespace : option string) (workflowName key : string) : string :=
  opt_or (stringify (JArr [from_option JStr JNull namespace; JStr workflowName; JStr key])) "".

(** Steps sorted by name. *)
Definition step_name_cmp (a b : StepState) : Z := string_cmp (st_stepName a) (st_stepName b).

Definition stepsByName (wf : MutableWorkflow) : list StepState :=
  jsort step_name_cmp (jm_values (wf_steps wf)).

(** ** Listing: filter and order *)
Record WorkflowListFilter : Type := mkFilter {
  fl_status : option WorkflowStatus;
  fl_name : option string;
  fl_version : option string;
  fl_type : option string;
  fl_parentId : option string;
  fl_runSource : option RunSource;
  fl_runSourceId : option string;
  fl_metadata : option metadata;
}.

Definition no_filter : WorkflowListFilter := mkFilter None None None None None None None None.

(** [f === undefined || x === f] on an optional filter field, and its form
    for a field tested by truthiness. *)
Definition passes {A} `{EqDecision A} (f x : option A) : bool :=
  match f with None => true | Some _ => bool_decide (x = f) end.

Definition passes_truthy (f x : option string) : bool :=
  if truthy_str f then bool_decide (x = f) else true.

Definition matchesListFilter (wf : MutableWorkflow) (filter : option WorkflowListFilter)
    (namespace : option string) : bool :=
  let id := wf_ident wf in
  passes_truthy namespace (ri_namespace id) &&
  match filter with
  | None => true
  | Some f =>
      passes (fl_status f) (Some (wf_status wf)) &&
      passes_truthy (fl_name f) (Some (ri_workflowName id)) &&
      passes (fl_version f) (ri_version id) &&
      passes_truthy (fl_type f) (ri_workflowType id) &&
      passes_truthy (fl_parentId f) (ri_parentWorkflowId id) &&
      passes (fl_runSource f) (ri_runSource id) &&
      passes (fl_runSourceId f) (ri_runSourceId id) &&
      match fl_metadata f with
      | None => true
      | Some m => workflowMetadataMatches (wf_metadata wf) m
      end
  end.

Record WorkflowSortFields : Type := mkSortFields {
  sf_workflowName : string;
  sf_status : string;
  sf_createdAtMs : Z;
  sf_startedAtMs : option Z;
  sf_completedAtMs : option Z;
}.

Definition sortFieldsOf (wf : MutableWorkflow) : WorkflowSortFields :=
  mkSortFields (ri_workflowName (wf_ident wf)) (status_name (wf_status wf))
    (ri_createdAt (wf_ident wf)) (lc_startedAt (wf_life wf)) (lc_completedAt (wf_life wf)).

Inductive WorkflowOrderBy : Type :=
| ByCreatedAt | ByStartedAt | ByCompletedAt | ByDuration | ByStatus | ByName.

Inductive OrderDir : Type := Asc | Desc.

Inductive sort_value : Type := VNum (n : Z) | VStr (s : string).

Definition workflowSortKey (f : WorkflowSortFields) (orderBy : WorkflowOrderBy)
    : option sort_value :=
  match orderBy with
  | ByCreatedAt => Some (VNum (sf_createdAtMs f))
  | ByStartedAt => VNum <$> sf_startedAtMs f
  | ByCompletedAt => VNum <$> sf_completedAtMs f
  | ByDuration => (fun c => VNum (c - sf_createdAtMs f)) <$> sf_completedAtMs f
  | ByStatus => Some (VStr (sf_status f))
  | ByName => Some (VStr (sf_workflowName f))
  end.

(** [a < b] and [a > b] on two keys of one kind, as -1, 0 or 1. *)
Definition sort_value_cmp (a b : sort_value) : Z :=
  match a, b with
  | VNum x, VNum y => match x ?= y with Lt => -1 | Eq => 0 | Gt => 1 end
  | VStr x, VStr y => string_cmp x y
  | VNum _, VStr _ => -1
  | VStr _, VNum _ => 1
  end.

Definition sort_key_cmp (dir : OrderDir) (a b : option sort_value) : Z :=
  let sign := match dir with Asc => 1 | Desc => -1 end in
  match a, b with
  | None, None => 0
  | None, Some _ => 1
  | Some _, None => -1
  | Some x, Some y => sort_value_cmp x y * sign
  end.

Definition sortWorkflowRows {T} (fields : T -> WorkflowSortFields) (orderBy : WorkflowOrderBy)
    (dir : OrderDir) (rows : list T) : list T :=
  let key row := workflowSortKey (fields row) orderBy in
  jsort (fun a b => sort_key_cmp dir (key a) (key b)) rows.

Lemma sort_value_cmp_sym a b : sort_value_cmp b a = - sort_value_cmp a b.
Proof.
  destruct a as [x|x], b as [y|y]; cbn; try done; [|apply string_cmp_sym].
  rewrite (Z.compare_antisym x y). by destruct (x ?= y).
Qed.

Lemma sort_value_cmp_trans a b c :
  sort_value_cmp a b <= 0 -> sort_value_cmp b c <= 0 -> sort_value_cmp a c <= 0.
Proof.
  destruct a as [x|x], b as [y|y], c as [z|z]; cbn; try lia; [|apply string_cmp_trans].
  destruct (Z.compare_spec x y), (Z.compare_spec y z), (Z.compare_spec x z); lia.
Qed.

#[global] Instance sort_key_cmp_consistent dir : ConsistentCmp (sort_key_cmp dir).
Proof.
  split.
  - intros [x|] [y|]; cbn; try lia. rewrite (sort_value_cmp_sym x y). destruct dir; lia.
  - intros [x|] [y|] [z|]; cbn; try lia. destruct dir.
    + rewrite !Z.mul_1_r. apply sort_value_cmp_trans.
    + intros H1 H2. cut (sort_value_cmp z x <= 0); [rewrite (sort_value_cmp_sym x z); lia|].
      apply (sort_value_cmp_trans z y x);
        [rewrite (sort_value_cmp_sym y z)|rewrite (sort_value_cmp_sym x y)]; lia.
Qed.

(** Rows with a value come first in either direction: once a row without one
    is listed, no later row has one. *)
Lemma sort_missing_last dir a b :
  sort_key_cmp dir a b <= 0 -> a = None -> b = None.
Proof. by destruct a, b. Qed.

(** ** Task rows *)
Abbreviation task_arrays := (list (list StepTaskState)).

Inductive TaskOutcome : Type :=
| TaskCompleted (result : json)
| TaskFailed (error : string).

(** The loop that indexes the tasks from position [i]. *)
Fixpoint index_tasks (i : nat) (l : list StepTaskState) (m : jmap Z nat) : jmap Z nat :=
  match l with
  | [] => m
  | t :: l' => index_tasks (S i) l' (<[ta_taskIndex t := i]> m)
  end.

Definition heap_tasks (h : task_arrays) (r : option nat) : list StepTaskState :=
  from_option (fun r => opt_or (h !! r) []) [] r.

(** The array to write into: the owned one while nobody else holds it, else
    a copy. *)
Definition own_tasks (wf : MutableWorkflow) (stepName : string) (h : task_arrays)
    : OwnedTasks * task_arrays :=
  let existing := wf_steps wf !! stepName in
  let fresh :=
    let tasks := heap_tasks h (existing ≫= st_tasks) in
    (mkOwned (length h) (index_tasks 0 tasks ∅) (wf_handedOut wf), h ++ [tasks]) in
  match wf_ownedTasks wf !! stepName with
  | Some owned =>
      if bool_decide (ot_epoch owned = wf_handedOut wf) &&
         bool_decide (existing ≫= st_tasks = Some (ot_tasks owned))
      then (owned, h) else fresh
  | None => fresh
  end.

Definition written_task (taskIndex : Z) (outcome : TaskOutcome) (now : Z)
    (prev : option StepTaskState) : StepTaskState :=
  mkTask taskIndex
    (match outcome with TaskCompleted _ => SCompleted | TaskFailed _ => SFailed end)
    JUndef (match outcome with TaskCompleted r => r | TaskFailed _ => JUndef end)
    (match outcome with TaskCompleted _ => None | TaskFailed e => Some e end)
    (Some (opt_or (prev ≫= ta_startedAt) now)) (Some now) (from_option ta_attempt 0 prev + 1).

(** The [running] map step row of a step that has none. *)
Definition new_map_step (stepName : string) (run : Z) : StepState :=
  mkStep stepName run (Some SRunning) [] TyMap JUndef None None None None None 1 None None None
    None JUndef no_ledger None.

Definition writeTaskRow (stepName : string) (taskIndex : Z) (outcome : TaskOutcome) (now : Z)
    (wf : MutableWorkflow) (h : task_arrays) : MutableWorkflow * task_arrays :=
  let existing := wf_steps wf !! stepName in
  let '(owned, h) := own_tasks wf stepName h in
  let tasks := heap_tasks h (Some (ot_tasks owned)) in
  let at_ := ot_position owned !! taskIndex in
  let task := written_task taskIndex outcome now (at_ ≫= fun i => tasks !! i) in
  let '(owned, tasks) :=
    match at_ with
    | Some i => (owned, <[i := task]> tasks)
    | None => (mkOwned (ot_tasks owned) (<[taskIndex := length tasks]> (ot_position owned))
                 (ot_epoch owned), tasks ++ [task])
    end in
  (mkWorkflow (wf_ident wf) (wf_run wf) (wf_input wf) (wf_life wf) (wf_metadata wf)
     (wf_idempotencyKey wf) (wf_idempotencyExpiresAt wf)
     (<[stepName := with_tasks (ot_tasks owned)
          (from_option id (new_map_step stepName (wf_run wf)) existing)]> (wf_steps wf))
     (<[stepName := owned]> (wf_ownedTasks wf)) (wf_handedOut wf) now,
   <[ot_tasks owned := tasks]> h).

(** ** A task write is an upsert by task index *)

(** The reference definition: linear search, functional update. *)
Fixpoint upsert_task (taskIndex : Z) (write : option StepTaskState -> StepTaskState)
    (l : list StepTaskState) : list StepTaskState :=
  match l with
  | [] => [write None]
  | t :: l' =>
      if bool_decide (ta_taskIndex t = taskIndex) then write (Some t) :: l'
      else t :: upsert_task taskIndex write l'
  end.

Definition indexed_by (position : jmap Z nat) (l : list StepTaskState) : Prop :=
  forall k i, position !! k = Some i <-> (ta_taskIndex <$> l) !! i = Some k.

Lemma index_tasks_notin i l m k :
  k ∉ ta_taskIndex <$> l -> index_tasks i l m !! k = m !! k.
Proof.
  revert i m. induction l as [|t l IH]; intros i m; cbn [index_tasks]; [done|].
  rewrite fmap_cons, not_elem_of_cons. intros [Hne Hni].
  rewrite IH by done. by rewrite jlookup_insert_ne.
Qed.

Lemma index_tasks_lookup i l m n k : NoDup (ta_taskIndex <$> l) ->
  (ta_taskIndex <$> l) !! n = Some k -> index_tasks i l m !! k = Some (i + n)%nat.
Proof.
  revert i m n. induction l as [|t l IH]; intros i m n; [done|].
  rewrite fmap_cons, NoDup_cons. intros [Hni Hnd] Hk. cbn [index_tasks].
  destruct n as [|n]; cbn in Hk.
  - injection Hk as <-. rewrite index_tasks_notin by done. rewrite jlookup_insert_eq. f_equal. lia.
  - rewrite (IH _ _ n) by done. f_equal. lia.
Qed.

Lemma index_tasks_indexed l : NoDup (ta_taskIndex <$> l) -> indexed_by (index_tasks 0 l ∅) l.
Proof.
  intros Hnd k i. split.
  - intros Hi. destruct (decide (k ∈ ta_taskIndex <$> l)) as [[n Hn]%list_elem_of_lookup|Hni].
    + rewrite (index_tasks_lookup _ _ _ n) in Hi by done. injection Hi as <-. done.
    + by rewrite index_tasks_notin in Hi.
  - intros Hi. by rewrite (index_tasks_lookup _ _ _ i).
Qed.

(** The write through the position index is the reference upsert. *)
Lemma upsert_indexed position k write l :
  NoDup (ta_taskIndex <$> l) -> indexed_by position l ->
  upsert_task k write l =
    match position !! k with
    | Some i => <[i := write (l !! i)]> l
    | None => l ++ [write None]
    end.
Proof.
  intros Hnd Hp. destruct (position !! k) as [i|] eqn:E.
  - apply Hp in E. clear Hp position. revert i E Hnd.
    induction l as [|t l IH]; intros i E Hnd; [done|]. rewrite fmap_cons in E, Hnd.
    apply NoDup_cons in Hnd as [Hni Hnd]. cbn [upsert_task]. destruct i as [|i]; cbn in E.
    + injection E as ->. by rewrite bool_decide_true.
    + rewrite bool_decide_false; [cbn; f_equal; by apply IH|].
      intros <-. apply Hni. by eapply list_elem_of_lookup_2.
  - assert (k ∉ ta_taskIndex <$> l) as Hni.
    { intros [i Hi]%list_elem_of_lookup. apply Hp in Hi. congruence. }
    clear E Hp Hnd. induction l as [|t l IH]; [done|]. rewrite fmap_cons, not_elem_of_cons in Hni.
    cbn [upsert_task app]. rewrite bool_decide_false by (intros ?; destruct Hni; congruence).
    f_equal. apply IH. tauto.
Qed.

Lemma upsert_task_keys k write l :
  (forall o, ta_taskIndex (write o) = k) ->
  ta_taskIndex <$> upsert_task k write l =
    if decide (k ∈ ta_taskIndex <$> l) then ta_taskIndex <$> l else (ta_taskIndex <$> l) ++ [k].
Proof.
  intros Hw. induction l as [|t l IH]; cbn [upsert_task].
  - rewrite decide_False by apply not_elem_of_nil. cbn. by rewrite Hw.
  - rewrite !fmap_cons. case_bool_decide as Hk; rewrite fmap_cons.
    + rewrite Hw, Hk. by rewrite decide_True by apply list_elem_of_here.
    + rewrite IH. destruct (decide (k ∈ ta_taskIndex <$> l)).
      * rewrite decide_True by (by right). done.
      * rewrite decide_False; [done|]. by intros [->|?]%elem_of_cons.
Qed.

Lemma heap_tasks_Some h r l : h !! r = Some l -> heap_tasks h (Some r) = l.
Proof. unfold heap_tasks, opt_or. simpl. by intros ->. Qed.

#[local] Arguments heap_tasks : simpl never.

(** *** The ownership of a run's task arrays

    An owned array is indexed, and it is writable only while its epoch is
    current; every row's array has one task per index. *)
Record tasks_wf (wf : MutableWorkflow) (h : task_arrays) : Prop := {
  tw_rows : forall s row r, wf_steps wf !! s = Some row -> st_tasks row = Some r ->
    (r < length h)%nat /\ NoDup (ta_taskIndex <$> heap_tasks h (Some r));
  tw_owned : forall s o, wf_ownedTasks wf !! s = Some o ->
    (ot_tasks o < length h)%nat /\ ot_epoch o <= wf_handedOut wf /\
    (ot_epoch o = wf_handedOut wf ->
       indexed_by (ot_position o) (heap_tasks h (Some (ot_tasks o))));
}.

Definition row_tasks (wf : MutableWorkflow) (stepName : string) : option nat :=
  wf_steps wf !! stepName ≫= st_tasks.

(** The array a write goes to holds the step's tasks and is indexed; it is
    new, or owned in the current epoch. *)
Lemma own_tasks_spec wf s h : tasks_wf wf h ->
  let '(o, h') := own_tasks wf s h in
  NoDup (ta_taskIndex <$> heap_tasks h (row_tasks wf s)) /\
  h' !! ot_tasks o = Some (heap_tasks h (row_tasks wf s)) /\
  indexed_by (ot_position o) (heap_tasks h (row_tasks wf s)) /\
  ot_epoch o = wf_handedOut wf /\
  ((ot_tasks o = length h /\ h' = h ++ [heap_tasks h (row_tasks wf s)]) \/
   (h' = h /\ wf_ownedTasks wf !! s = Some o /\ row_tasks wf s = Some (ot_tasks o))).
Proof.
  intros [Hr Ho]. set (ts := heap_tasks h (row_tasks wf s)).
  assert (NoDup (ta_taskIndex <$> ts)) as Hnd.
  { subst ts. unfold row_tasks. destruct (wf_steps wf !! s) as [row|] eqn:E; [|constructor]. cbn.
    destruct (st_tasks row) as [r|] eqn:Er; [|constructor]. by eapply Hr. }
  set (fresh := (mkOwned (length h) (index_tasks 0 ts ∅) (wf_handedOut wf), h ++ [ts])).
  assert (own_tasks wf s h = match wf_ownedTasks wf !! s with
    | Some owned => if bool_decide (ot_epoch owned = wf_handedOut wf) &&
                      bool_decide (row_tasks wf s = Some (ot_tasks owned)) then (owned, h) else fresh
    | None => fresh end) as -> by done.
  assert (let '(o, h') := fresh in NoDup (ta_taskIndex <$> ts) /\ h' !! ot_tasks o = Some ts /\
    indexed_by (ot_position o) ts /\ ot_epoch o = wf_handedOut wf /\
    ((ot_tasks o = length h /\ h' = h ++ [ts]) \/
     (h' = h /\ wf_ownedTasks wf !! s = Some o /\ row_tasks wf s = Some (ot_tasks o)))) as Hfresh.
  { cbn. split_and!; [done|by apply list_lookup_middle|by apply index_tasks_indexed|done|by left]. }
  destruct (wf_ownedTasks wf !! s) as [o|] eqn:E; [|exact Hfresh].
  destruct (bool_decide (ot_epoch o = _)) eqn:E1; [|exact Hfresh].
  destruct (bool_decide (row_tasks wf s = _)) eqn:E2; [|exact Hfresh]. cbn [andb].
  apply bool_decide_eq_true in E1, E2. destruct (Ho _ _ E) as (Hlt & _ & Hix).
  assert (ts = heap_tasks h (Some (ot_tasks o))) as Hts by (subst ts; by rewrite E2).
  split_and!; [done| |rewrite Hts; auto|done|right; done].
  rewrite Hts. destruct (lookup_lt_is_Some_2 h _ Hlt) as [x Hx].
  by rewrite (heap_tasks_Some _ _ _ Hx).
Qed.

Lemma index_update position l i p t w :
  indexed_by position l -> position !! i = Some p -> l !! p = Some t -> ta_taskIndex w = i ->
  indexed_by position (<[p := w]> l).
Proof.
  intros Hix Hp Ht Hw k n. rewrite (Hix k n), list_fmap_insert.
  apply Hix in Hp. rewrite list_lookup_fmap, Ht in Hp. injection Hp as Hp.
  destruct (decide (n = p)) as [->|Hne]; [|by rewrite list_lookup_insert_ne].
  rewrite list_lookup_insert_eq by (rewrite length_fmap; by eapply lookup_lt_Some).
  rewrite list_lookup_fmap, Ht. cbn. by rewrite Hp, Hw.
Qed.

Lemma index_append position l i w :
  indexed_by position l -> position !! i = None -> ta_taskIndex w = i ->
  indexed_by (<[i := length l]> position) (l ++ [w]).
Proof.
  intros Hix Hp Hw k n. rewrite jlookup_insert, fmap_app. cbn.
  assert (length (ta_taskIndex <$> l) = length l) as Hlen by apply length_fmap.
  case_decide as Hk.
  - subst k. rewrite <- Hlen, <- Hw. split; [intros [= <-]; by apply list_lookup_middle|].
    intros [Hn|[Hge Hn]]%lookup_app_Some; [apply Hix in Hn; congruence|].
    apply list_lookup_singleton_Some in Hn as [? _]. f_equal. lia.
  - rewrite (Hix k n). split; [apply lookup_app_l_Some|].
    intros [Hn|[Hge Hn]]%lookup_app_Some; [done|].
    apply list_lookup_singleton_Some in Hn as [_ <-]. done.
Qed.

(** The store after array [r] was made to hold [l]: [r] is new, or it is the
    step's array and owned in the current epoch. *)
Record array_written (wf : MutableWorkflow) (s : string) (h : task_arrays) (r : nat)
    (l : list StepTaskState) (h' : task_arrays) : Prop := {
  aw_at : h' !! r = Some l;
  aw_frame : forall r', r' <> r -> (r' < length h)%nat -> h' !! r' = h !! r';
  aw_place : (r = length h /\ length h' = S (length h)) \/
    (length h' = length h /\ row_tasks wf s = Some r /\
     exists o, wf_ownedTasks wf !! s = Some o /\ ot_tasks o = r /\ ot_epoch o = wf_handedOut wf);
}.

Lemma own_tasks_write wf s h l : tasks_wf wf h ->
  let '(o, h1) := own_tasks wf s h in
  array_written wf s h (ot_tasks o) l (<[ot_tasks o := l]> h1).
Proof.
  intros Hok. pose proof (own_tasks_spec wf s h Hok) as Hown.
  destruct (own_tasks wf s h) as [o h1]. destruct Hown as (_ & Hh1 & _ & Hep & Hwhere). split.
  - apply list_lookup_insert_eq. by eapply lookup_lt_Some.
  - intros r' Hne Hlt. rewrite list_lookup_insert_ne by done.
    destruct Hwhere as [[_ ->]|[-> _]]; [by apply lookup_app_l|done].
  - rewrite length_insert. destruct Hwhere as [[Hl ->]|(-> & Hw1 & Hw2)].
    + left. rewrite length_app; cbn. split; [done|lia].
    + right. split_and!; [done|done|]. by exists o.
Qed.

(** What a task write leaves: the step's row points to an array that holds
    the reference upsert of the step's tasks, owned and indexed; no other
    array of the store and no other row changes. *)
Lemma writeTaskRow_spec s i out now wf h : tasks_wf wf h ->
  let '(wf', h') := writeTaskRow s i out now wf h in
  exists o, let r := ot_tasks o in
    row_tasks wf' s = Some r /\
    array_written wf s h r
      (upsert_task i (written_task i out now) (heap_tasks h (row_tasks wf s))) h' /\
    wf_ownedTasks wf' = <[s := o]> (wf_ownedTasks wf) /\ ot_epoch o = wf_handedOut wf /\
    indexed_by (ot_position o) (heap_tasks h' (Some r)) /\
    wf_handedOut wf' = wf_handedOut wf /\
    (forall s', s' <> s -> wf_steps wf' !! s' = wf_steps wf !! s').
Proof.
  intros Hok. unfold writeTaskRow. pose proof (own_tasks_spec wf s h Hok) as Hown.
  pose proof (fun l => own_tasks_write wf s h l Hok) as Hput.
  destruct (own_tasks wf s h) as [o h1]. destruct Hown as (Hnd & Hh1 & Hix & Hep & _).
  set (ts := heap_tasks h (row_tasks wf s)) in *.
  assert (heap_tasks h1 (Some (ot_tasks o)) = ts) as -> by (by apply heap_tasks_Some).
  rewrite (upsert_indexed (ot_position o)) by done. set (w := written_task i out now).
  destruct (ot_position o !! i) as [p|] eqn:Ep; cbn [option_bind].
  - exists o. split_and!; try done.
    + unfold row_tasks; cbn. by rewrite jlookup_insert_eq.
    + rewrite (heap_tasks_Some _ _ _ (aw_at _ _ _ _ _ _ (Hput _))).
      apply Hix in Ep as Hp. rewrite list_lookup_fmap in Hp.
      destruct (ts !! p) as [t|] eqn:Et; [|done]. by eapply index_update.
    + intros s' Hs'. cbn. by rewrite jlookup_insert_ne.
  - eexists (mkOwned _ _ _). cbn [ot_tasks ot_position ot_epoch]. split_and!; try done.
    + unfold row_tasks; cbn. by rewrite jlookup_insert_eq.
    + rewrite (heap_tasks_Some _ _ _ (aw_at _ _ _ _ _ _ (Hput _))). by apply index_append.
    + intros s' Hs'. cbn. by rewrite jlookup_insert_ne.
Qed.

(** The status order is that of the names, not that of the declaration. *)
Example status_sorts_by_name :
  map sf_status (sortWorkflowRows id ByStatus Asc
    (map (fun s => mkSortFields "w" (status_name s) 0 None None) WORKFLOW_STATUSES)) =
  ["compensating"; "completed"; "failed"; "pending"; "running"; "suspended"; "tripwire"].
Proof. vm_compute. reflexivity. Qed.
