(* ===== verification/Storage.v ===== *)
(** The in-memory workflow storage: [in-memory-storage.ts].

    The facade owns the run rows and composes the lease table, the journal,
    the signal tokens, the streams and the event bus. A method is a function
    of the clock reading of its synchronous block and of the storage; it
    answers a value or throws, and leaves a storage either way. *)
From S2P Require Import Prelude Leases Json Journal Streams SignalTokens Events RunState.
Open Scope string_scope.
Open Scope list_scope.
Open Scope Z_scope.

(** ** State *)
Record SignalState : Type := mkSignal {
  sg_signalName : string;
  sg_payload : json;
  sg_deliveredAt : Z;
}.

Inductive StepAttemptType : Type := AtExecution | AtCompensation.

Definition attempt_type_name (t : StepAttemptType) : string :=
  match t with AtExecution => "execution" | AtCompensation => "compensation" end.

Record StepAttemptRecord : Type := mkAttempt {
  at_workflowId : string;
  at_stepName : string;
  at_attempt : Z;
  at_type : StepAttemptType;
  at_completed : bool;
  at_result : json;
  at_error : option string;
  at_durationMs : Z;
  at_startedAt : Z;
  at_completedAt : Z;
  at_executorId : option string;
}.

Record AttemptRow : Type := mkAttemptRow {
  ar_key : string;
  ar_run : Z;
  ar_record : StepAttemptRecord;
}.

Record InMemoryWorkflowStorage : Type := mkStorage {
  db_namespace : option string;
  db_workflows : jmap string MutableWorkflow;
  db_arrays : task_arrays;
  db_leases : InMemoryLeaseTable;
  db_journal : InMemoryJournal;
  db_signalTokens : InMemorySignalTokens;
  db_streams : InMemoryStreams;
  db_events : InMemoryRunEvents;
  db_signals : jmap string (list SignalState);
  db_attempts : jmap string (list AttemptRow);
  db_runHistory : jmap string (list WorkflowRunSummary);
  db_idempotencyIndex : jmap string string;
  db_children : jmap string (list string);
}.

Definition new_storage (namespace : option string) (instanceId : string) : InMemoryWorkflowStorage :=
  mkStorage namespace ∅ [] (new_lease_table instanceId) new_journal new_tokens new_streams
    new_run_events ∅ ∅ ∅ ∅ ∅.

Definition set_workflows (x : jmap string MutableWorkflow) (s : InMemoryWorkflowStorage) :=
  mkStorage (db_namespace s) x (db_arrays s) (db_leases s) (db_journal s) (db_signalTokens s)
    (db_streams s) (db_events s) (db_signals s) (db_attempts s) (db_runHistory s)
    (db_idempotencyIndex s) (db_children s).
Definition set_arrays (x : task_arrays) (s : InMemoryWorkflowStorage) :=
  mkStorage (db_namespace s) (db_workflows s) x (db_leases s) (db_journal s) (db_signalTokens s)
    (db_streams s) (db_events s) (db_signals s) (db_attempts s) (db_runHistory s)
    (db_idempotencyIndex s) (db_children s).
Definition set_leases (x : InMemoryLeaseTable) (s : InMemoryWorkflowStorage) :=
  mkStorage (db_namespace s) (db_workflows s) (db_arrays s) x (db_journal s) (db_signalTokens s)
    (db_streams s) (db_events s) (db_signals s) (db_attempts s) (db_runHistory s)
    (db_idempotencyIndex s) (db_children s).
Definition set_journal (x : InMemoryJournal) (s : InMemoryWorkflowStorage) :=
  mkStorage (db_namespace s) (db_workflows s) (db_arrays s) (db_leases s) x (db_signalTokens s)
    (db_streams s) (db_events s) (db_signals s) (db_attempts s) (db_runHistory s)
    (db_idempotencyIndex s) (db_children s).
Definition set_signalTokens (x : InMemorySignalTokens) (s : InMemoryWorkflowStorage) :=
  mkStorage (db_namespace s) (db_workflows s) (db_arrays s) (db_leases s) (db_journal s) x
    (db_streams s) (db_events s) (db_signals s) (db_attempts s) (db_runHistory s)
    (db_idempotencyIndex s) (db_children s).
Definition set_streams (x : InMemoryStreams) (s : InMemoryWorkflowStorage) :=
  mkStorage (db_namespace s) (db_workflows s) (db_arrays s) (db_leases s) (db_journal s)
    (db_signalTokens s) x (db_events s) (db_signals s) (db_attempts s) (db_runHistory s)
    (db_idempotencyIndex s) (db_children s).
Definition set_events (x : InMemoryRunEvents) (s : InMemoryWorkflowStorage) :=
  mkStorage (db_namespace s) (db_workflows s) (db_arrays s) (db_leases s) (db_journal s)
    (db_signalTokens s) (db_streams s) x (db_signals s) (db_attempts s) (db_runHistory s)
    (db_idempotencyIndex s) (db_children s).
Definition set_signals (x : jmap string (list SignalState)) (s : InMemoryWorkflowStorage) :=
  mkStorage (db_namespace s) (db_workflows s) (db_arrays s) (db_leases s) (db_journal s)
    (db_signalTokens s) (db_streams s) (db_events s) x (db_attempts s) (db_runHistory s)
    (db_idempotencyIndex s) (db_children s).
Definition set_attempts (x : jmap string (list AttemptRow)) (s : InMemoryWorkflowStorage) :=
  mkStorage (db_namespace s) (db_workflows s) (db_arrays s) (db_leases s) (db_journal s)
    (db_signalTokens s) (db_streams s) (db_events s) (db_signals s) x (db_runHistory s)
    (db_idempotencyIndex s) (db_children s).
Definition set_runHistory (x : jmap string (list WorkflowRunSummary)) (s : InMemoryWorkflowStorage) :=
  mkStorage (db_namespace s) (db_workflows s) (db_arrays s) (db_leases s) (db_journal s)
    (db_signalTokens s) (db_streams s) (db_events s) (db_signals s) (db_attempts s) x
    (db_idempotencyIndex s) (db_children s).
Definition set_idempotencyIndex (x : jmap string string) (s : InMemoryWorkflowStorage) :=
  mkStorage (db_namespace s) (db_workflows s) (db_arrays s) (db_leases s) (db_journal s)
    (db_signalTokens s) (db_streams s) (db_events s) (db_signals s) (db_attempts s)
    (db_runHistory s) x (db_children s).
Definition set_children (x : jmap string (list string)) (s : InMemoryWorkflowStorage) :=
  mkStorage (db_namespace s) (db_workflows s) (db_arrays s) (db_leases s) (db_journal s)
    (db_signalTokens s) (db_streams s) (db_events s) (db_signals s) (db_attempts s)
    (db_runHistory s) (db_idempotencyIndex s) x.

Abbreviation DB := InMemoryWorkflowStorage.
Abbreviation call A := (ST InMemoryWorkflowStorage StoreError A).

(** Put a run row back after a mutation. *)
Definition put_wf (w : string) (wf : MutableWorkflow) (s : DB) : DB :=
  set_workflows (<[w := wf]> (db_workflows s)) s.

(** [emit], with the run's id. *)
Definition emit_event (w : string) (event : WorkflowRunEvent) (terminal : bool) (s : DB) : DB :=
  set_events (emit w event terminal (db_events s)) s.

(** [checkFence]: throws, and never changes anything. *)
Definition fence (now : Z) (w : string) (guard : option FenceGuard) : call unit :=
  fun s => (checkFence now w guard (db_leases s), s).

Definition resolveNamespace (namespace : option string) (s : DB) : option string :=
  opt_else namespace (db_namespace s).

(** ** Create and load *)
Record CreateWorkflowParams : Type := mkCreate {
  cw_workflowId : string;
  cw_workflowName : string;
  cw_workflowType : option string;
  cw_parentWorkflowId : option string;
  cw_namespace : option string;
  cw_version : option string;
  cw_input : json;
  cw_metadata : option metadata;
  cw_runSource : option RunSource;
  cw_runSourceId : option string;
  cw_idempotencyKey : option string;
  cw_idempotencyExpiresAt : option Z;
}.

(** [toWorkflowState] of a row of the map: the row's hand-out count moves. *)
Definition hand_out_run (wf : MutableWorkflow) (s : DB) : WorkflowState * DB :=
  let '(st, wf') := toWorkflowState wf in
  (st, put_wf (ri_workflowId (wf_ident wf)) wf' s).

Definition loadWorkflow (w : string) : call (option WorkflowState) := fun s =>
  match db_workflows s !! w with
  | None => (Ok None, s)
  | Some wf => let '(st, s') := hand_out_run wf s in (Ok (Some st), s')
  end.

Definition loadWorkflowStatus (w : string) (s : DB) : option WorkflowStatusSnapshot :=
  statusSnapshot <$> db_workflows s !! w.

Definition idempotencyClaim (namespace : option string) (workflowName key : string) (now : Z)
    (s : DB) : option MutableWorkflow :=
  match db_idempotencyIndex s !! idempotencyIndexKey namespace workflowName key with
  | None => None
  | Some id =>
      match db_workflows s !! id with
      | None => None
      | Some wf =>
          if bool_decide (ri_namespace (wf_ident wf) = namespace) &&
             bool_decide (ri_workflowName (wf_ident wf) = workflowName) &&
             bool_decide (wf_idempotencyKey wf = Some key) &&
             match wf_idempotencyExpiresAt wf with Some e => e >? now | None => false end
          then Some wf else None
      end
  end.

Definition new_run (now : Z) (namespace : option string) (p : CreateWorkflowParams)
    : MutableWorkflow :=
  mkWorkflow
    (mkIdentity (cw_workflowId p) (cw_workflowName p) (cw_workflowType p) (cw_parentWorkflowId p)
       namespace (cw_version p) (cw_runSource p) (cw_runSourceId p) now)
    1 (cw_input p) (mkLife Pending JUndef None None JUndef None None) (cw_metadata p)
    (cw_idempotencyKey p) (cw_idempotencyExpiresAt p) ∅ ∅ 0 now.

(** The writes of a create that found no conflict. *)
Definition insert_run (now : Z) (p : CreateWorkflowParams) (s : DB) : DB :=
  let namespace := resolveNamespace (cw_namespace p) s in
  let s := match cw_idempotencyKey p with
           | Some key =>
               if truthy_str (Some key)
               then set_idempotencyIndex
                      (<[idempotencyIndexKey namespace (cw_workflowName p) key := cw_workflowId p]>
                         (db_idempotencyIndex s)) s
               else s
           | None => s
           end in
  let s := match cw_parentWorkflowId p with
           | Some parent =>
               set_children (<[parent := set_add (cw_workflowId p)
                                 (opt_or (db_children s !! parent) [])]> (db_children s)) s
           | None => s
           end in
  put_wf (cw_workflowId p) (new_run now namespace p) s.

(** The fence of a child create is on the parent's lock. *)
Definition create_fence (now : Z) (guard : option FenceGuard) (p : CreateWorkflowParams)
    : call unit :=
  if truthy_str (guard_token guard) then
    match cw_parentWorkflowId p with
    | None => st_throw (JsError "createWorkflow: a fenced create needs parentWorkflowId")
    | Some parent => fence now parent guard
    end
  else st_ret tt.

(** [createWorkflow]: [None] when the row was created, else the existing run. *)
Definition createWorkflow (now : Z) (guard : option FenceGuard) (p : CreateWorkflowParams)
    : call (option WorkflowState) :=
  do* create_fence now guard p in
  fun s =>
    let claimed :=
      match cw_idempotencyKey p with
      | Some key =>
          if truthy_str (Some key)
          then idempotencyClaim (resolveNamespace (cw_namespace p) s) (cw_workflowName p) key now s
          else None
      | None => None
      end in
    match opt_else claimed (db_workflows s !! cw_workflowId p) with
    | Some wf => let '(st, s') := hand_out_run wf s in (Ok (Some st), s')
    | None => (Ok None, insert_run now p s)
    end.

Definition findWorkflowByIdempotencyKey (namespace : option string) (workflowName key : string)
    (now : Z) (s : DB) : option string :=
  (fun wf => ri_workflowId (wf_ident wf)) <$>
    idempotencyClaim (resolveNamespace namespace s) workflowName key now s.

(** ** Step outcomes *)
Definition markRunning (now : Z) (wf : MutableWorkflow) : MutableWorkflow :=
  let l := wf_life wf in
  match lc_status l with
  | Pending => with_life (mkLife Running (lc_result l) (lc_error l) (lc_errorTag l) (lc_tripwire l)
                            (Some now) (lc_completedAt l)) (wf_updatedAt wf) wf
  | _ => wf
  end.

Record StepResultRecord : Type := mkStepResult {
  sr_workflowId : string;
  sr_stepName : string;
  sr_result : json;
  sr_durationMs : Z;
  sr_startedAt : Z;
  sr_metadata : option metadata;
}.

Record StepFailureRecord : Type := mkStepFailure {
  sf_workflowId : string;
  sf_stepName : string;
  sf_error : string;
  sf_errorTag : option string;
  sf_durationMs : Z;
  sf_startedAt : Z;
  sf_metadata : option metadata;
}.

Definition result_row (now run : Z) (p : StepResultRecord) (existing : option StepState) : StepState :=
  mkStep (sr_stepName p) run (Some SCompleted) (from_option st_dependsOn [] existing)
    (from_option st_stepType TySingle existing) (sr_result p) None None (Some (sr_startedAt p))
    (Some now) (Some (sr_durationMs p)) (from_option st_attempt 0 existing + 1)
    (existing ≫= st_tasks) None None None JUndef no_ledger
    (opt_else (sr_metadata p) (existing ≫= st_metadata)).

Definition failure_row (now run : Z) (p : StepFailureRecord) (existing : option StepState)
    : StepState :=
  mkStep (sf_stepName p) run (Some SFailed) (from_option st_dependsOn [] existing)
    (from_option st_stepType TySingle existing) JUndef (Some (sf_error p)) (sf_errorTag p)
    (Some (sf_startedAt p)) (Some now) (Some (sf_durationMs p))
    (from_option st_attempt 0 existing + 1) (existing ≫= st_tasks) None None None JUndef no_ledger
    (opt_else (sf_metadata p) (existing ≫= st_metadata)).

Definition put_step (now : Z) (stepName : string) (row : StepState) (wf : MutableWorkflow)
    : MutableWorkflow := with_steps (<[stepName := row]> (wf_steps wf)) now wf.

Definition writeStepResult (now : Z) (p : StepResultRecord) (s : DB) : DB :=
  match db_workflows s !! sr_workflowId p with
  | None => s
  | Some wf =>
      let wf := markRunning now wf in
      let row := result_row now (wf_run wf) p (wf_steps wf !! sr_stepName p) in
      emit_event (sr_workflowId p)
        (StepCompleted (sr_stepName p) (sr_result p) (sr_durationMs p) now) false
        (put_wf (sr_workflowId p) (put_step now (sr_stepName p) row wf) s)
  end.

Definition saveStepResult (now : Z) (guard : option FenceGuard) (p : StepResultRecord) : call unit :=
  do* fence now (sr_workflowId p) guard in st_modify (writeStepResult now p).

(** Every fence of the batch, in order, each workflow once. *)
Fixpoint fence_all (now : Z) (guard : option FenceGuard) (ws : list string) : call unit :=
  match ws with
  | [] => st_ret tt
  | w :: ws' => do* fence now w guard in fence_all now guard ws'
  end.

(** [new Set(...)], in insertion order. *)
Definition js_set (l : list string) : list string := foldl (fun acc x => set_add x acc) [] l.

Definition batchSaveStepResults (now : Z) (guard : option FenceGuard)
    (records : list StepResultRecord) : call unit :=
  do* fence_all now guard (js_set (sr_workflowId <$> records)) in
  st_modify (fun s => foldl (fun s r => writeStepResult now r s) s records).

Definition writeStepFailure (now : Z) (p : StepFailureRecord) (s : DB) : DB :=
  match db_workflows s !! sf_workflowId p with
  | None => s
  | Some wf =>
      let wf := markRunning now wf in
      let row := failure_row now (wf_run wf) p (wf_steps wf !! sf_stepName p) in
      put_wf (sf_workflowId p) (put_step now (sf_stepName p) row wf)
        (emit_event (sf_workflowId p) (StepFailed (sf_stepName p) (sf_error p) now) false s)
  end.

Definition saveStepFailure (now : Z) (guard : option FenceGuard) (p : StepFailureRecord)
    : call unit :=
  do* fence now (sf_workflowId p) guard in st_modify (writeStepFailure now p).

Definition write_task (now : Z) (w stepName : string) (taskIndex : Z) (outcome : TaskOutcome)
    (s : DB) : DB :=
  match db_workflows s !! w with
  | None => s
  | Some wf =>
      let '(wf', h) := writeTaskRow stepName taskIndex outcome now wf (db_arrays s) in
      set_arrays h (put_wf w wf' s)
  end.

(** [saveTask], the body of [saveTaskResult] and [saveTaskFailure]. *)
Definition saveTask (now : Z) (guard : option FenceGuard) (w stepName : string) (taskIndex : Z)
    (outcome : TaskOutcome) : call unit :=
  do* fence now w guard in st_modify (write_task now w stepName taskIndex outcome).

Definition saveTaskResult (now : Z) (guard : option FenceGuard) (w stepName : string)
    (taskIndex : Z) (result : json) : call unit :=
  saveTask now guard w stepName taskIndex (TaskCompleted result).

Definition saveTaskFailure (now : Z) (guard : option FenceGuard) (w stepName : string)
    (taskIndex : Z) (error : string) : call unit :=
  saveTask now guard w stepName taskIndex (TaskFailed error).

(** ** Lifecycle transitions *)

(** Write the lifecycle fields of run [w] and announce it. *)
Definition end_run (now : Z) (w : string) (l : Lifecycle) (event : WorkflowRunEvent)
    (wf : MutableWorkflow) (s : DB) : DB :=
  emit_event w event true (put_wf w (with_life l now wf) s).

Definition complete_body (now : Z) (w : string) (result : json) (s : DB) : DB :=
  match db_workflows s !! w with
  | None => s
  | Some wf =>
      if isTerminalWorkflowStatus (wf_status wf) then s else
      let l := wf_life wf in
      end_run now w (mkLife Completed result (lc_error l) (lc_errorTag l) (lc_tripwire l)
                       (lc_startedAt l) (Some now)) (WorkflowCompleted result now) wf s
  end.

Definition completeWorkflow (now : Z) (guard : option FenceGuard) (w : string) (result : json)
    : call unit :=
  do* fence now w guard in st_modify (complete_body now w result).

Definition fail_body (now : Z) (w error : string) (errorTag : option string) (s : DB) : DB :=
  match db_workflows s !! w with
  | None => s
  | Some wf =>
      if isTerminalWorkflowStatus (wf_status wf) then s else
      let l := wf_life wf in
      end_run now w (mkLife Failed (lc_result l) (Some error) errorTag (lc_tripwire l)
                       (lc_startedAt l) (Some now)) (WorkflowFailed error now) wf s
  end.

Definition failWorkflow (now : Z) (guard : option FenceGuard) (w error : string)
    (errorTag : option string) : call unit :=
  do* fence now w guard in st_modify (fail_body now w error errorTag).

(** The step that fired: the first row whose metadata says so. *)
Definition fired_step (wf : MutableWorkflow) : string :=
  from_option st_stepName "unknown"
    (List.find (fun st => bool_decide
       (from_option (prop "tripwireFired") JUndef (st_metadata st) = JBool true))
       (jm_values (wf_steps wf))).

Definition tripwire_body (now : Z) (w : string) (reason : json) (s : DB) : DB :=
  match db_workflows s !! w with
  | None => s
  | Some wf =>
      if isTerminalWorkflowStatus (wf_status wf) then s else
      let l := wf_life wf in
      end_run now w (mkLife Tripwire (lc_result l) (lc_error l) (lc_errorTag l) reason
                       (lc_startedAt l) (Some now))
        (WorkflowTripwire (fired_step wf) reason now) wf s
  end.

Definition tripwireWorkflow (now : Z) (guard : option FenceGuard) (w : string) (reason : json)
    : call unit :=
  do* fence now w guard in st_modify (tripwire_body now w reason).

(** A run [cancelWorkflow] ends. *)
Definition cancellable (wf : MutableWorkflow) : bool :=
  match wf_status wf with Pending | Running | Suspended => true | _ => false end.

Definition cancelled_life (now : Z) (l : Lifecycle) : Lifecycle :=
  mkLife Failed (lc_result l) (Some CANCELLED_ERROR) (Some CANCELLED_ERROR_TAG) (lc_tripwire l)
    (lc_startedAt l) (Some now).

(** The unfenced body of [cancelWorkflow]. The recursion into the children
    ends because each call that recurses has first ended a cancellable run:
    [fuel] above their number is enough ([cancel_fuel_enough]). This is the
    cascade that nothing interrupts; the code awaits the call for each child,
    and [cascade_step] lets other operations in between. *)
Fixpoint cancel_body (fuel : nat) (now : Z) (w : string) (cascade : bool) (s : DB) : DB :=
  match fuel with
  | O => s
  | S fuel =>
      match db_workflows s !! w with
      | None => s
      | Some wf =>
          if cancellable wf then
            let s := end_run now w (cancelled_life now (wf_life wf))
                       (WorkflowFailed CANCELLED_ERROR now) wf s in
            if cascade
            then foldl (fun s child => cancel_body fuel now child true s) s
                   (opt_or (db_children s !! w) [])
            else s
          else s
      end
  end.

Definition cancel_fuel (s : DB) : nat := S (length (jm_entries (db_workflows s))).

Definition cancelWorkflow (now : Z) (guard : option FenceGuard) (w : string) (cascade : bool)
    : call unit :=
  do* fence now w guard in st_modify (fun s => cancel_body (cancel_fuel s) now w cascade s).

(** [stepUpdate]: the fields the caller sets; [tasks] is not among them. *)
Record StepUpdate : Type := mkStepUpdate {
  su_status : option (option StepStatus);
  su_dependsOn : option (list string);
  su_stepType : option StepType;
  su_result : option json;
  su_error : option (option string);
  su_errorTag : option (option string);
  su_startedAt : option (option Z);
  su_completedAt : option (option Z);
  su_durationMs : option (option Z);
  su_attempt : option Z;
  su_wakeAt : option (option Z);
  su_signalName : option (option string);
  su_signalTimeoutAt : option (option Z);
  su_signalJsonSchema : option json;
  su_metadata : option (option metadata);
}.

(** [{ ...base, ...stepUpdate }]. *)
Definition merge_step (base : StepState) (u : StepUpdate) : StepState :=
  mkStep (st_stepName base) (st_run base) (opt_or (su_status u) (st_status base))
    (opt_or (su_dependsOn u) (st_dependsOn base)) (opt_or (su_stepType u) (st_stepType base))
    (opt_or (su_result u) (st_result base)) (opt_or (su_error u) (st_error base))
    (opt_or (su_errorTag u) (st_errorTag base)) (opt_or (su_startedAt u) (st_startedAt base))
    (opt_or (su_completedAt u) (st_completedAt base))
    (opt_or (su_durationMs u) (st_durationMs base)) (opt_or (su_attempt u) (st_attempt base))
    (st_tasks base) (opt_or (su_wakeAt u) (st_wakeAt base))
    (opt_or (su_signalName u) (st_signalName base))
    (opt_or (su_signalTimeoutAt u) (st_signalTimeoutAt base))
    (opt_or (su_signalJsonSchema u) (st_signalJsonSchema base)) (st_ledger base)
    (opt_or (su_metadata u) (st_metadata base)).

(** What a suspend keeps of the row it replaces. *)
Definition suspend_base (now run : Z) (stepName : string) (existing : option StepState) : StepState :=
  mkStep stepName run None (from_option st_dependsOn [] existing)
    (from_option st_stepType TySingle existing) JUndef None None
    (Some (opt_or (existing ≫= st_startedAt) now)) None None (from_option st_attempt 1 existing)
    None None None None JUndef no_ledger None.

Definition suspend_body (now : Z) (w stepName : string) (u : StepUpdate) (s : DB) : DB :=
  match db_workflows s !! w with
  | None => s
  | Some wf =>
      let row := merge_step (suspend_base now (wf_run wf) stepName (wf_steps wf !! stepName)) u in
      let l := wf_life wf in
      put_wf w (with_life (mkLife Suspended (lc_result l) (lc_error l) (lc_errorTag l)
                             (lc_tripwire l) (lc_startedAt l) (lc_completedAt l)) now
                  (put_step now stepName row wf)) s
  end.

Definition suspendWorkflow (now : Z) (guard : option FenceGuard) (w stepName : string)
    (u : StepUpdate) : call unit :=
  do* fence now w guard in st_modify (suspend_body now w stepName u).

Definition metadata_body (now : Z) (w : string) (patch : metadata) (s : DB) : DB :=
  match db_workflows s !! w with
  | None => s
  | Some wf => put_wf w (with_metadata (applyMetadataPatch (wf_metadata wf) patch) now wf) s
  end.

Definition setWorkflowMetadata (now : Z) (guard : option FenceGuard) (w : string)
    (patch : metadata) : call unit :=
  do* fence now w guard in st_modify (metadata_body now w patch).

(** The row of the next run. *)
Definition fresh_run (now : Z) (nextInput : option json) (wf : MutableWorkflow) : MutableWorkflow :=
  mkWorkflow (wf_ident wf) (wf_run wf + 1) (opt_or nextInput (wf_input wf))
    (mkLife Pending JUndef None None JUndef None None) (wf_metadata wf) (wf_idempotencyKey wf)
    (wf_idempotencyExpiresAt wf) ∅ ∅ (wf_handedOut wf) now.

Definition startFreshRun (now : Z) (guard : option FenceGuard) (w : string)
    (expectedRun : option Z) (nextInput : option json) : call Z :=
  do* fence now w guard in
  fun s =>
    match db_workflows s !! w with
    | None => (Err (JsError ("Workflow " +:+ w +:+ " not found")), s)
    | Some wf =>
        if from_option (fun e => bool_decide (wf_run wf <> e)) false expectedRun
        then (Ok (wf_run wf), s)
        else
          let '(summary, wf) := currentRunSummary wf in
          let runs := opt_or (db_runHistory s !! w) [] ++ [summary] in
          let s := set_runHistory (<[w := runs]> (db_runHistory s)) s in
          let wf := fresh_run now nextInput wf in
          let s := put_wf w wf s in
          let s := set_journal (Journal.deleteWorkflow w (db_journal s)) s in
          let s := set_signals (delete w (db_signals s)) s in
          (Ok (wf_run wf), s)
    end.

(** The kept steps start a fresh ledger. *)
Definition clear_ledger (row : StepState) : StepState :=
  match compensationStatus (st_ledger row) with
  | Some _ => withoutCompensationLedger row
  | None => row
  end.

Definition reset_life (l : Lifecycle) : Lifecycle :=
  if isTerminalWorkflowStatus (lc_status l)
  then mkLife Running JUndef None None JUndef (lc_startedAt l) None
  else l.

Definition resetSteps (now : Z) (w : string) (stepNames : list string) : call unit := fun s =>
  match db_workflows s !! w with
  | None => (Err (JsError ("Workflow " +:+ w +:+ " not found")), s)
  | Some wf =>
      match stepNames with
      | [] => (Ok tt, s)
      | _ =>
          let steps := jm_map clear_ledger (jm_delete_all stepNames (wf_steps wf)) in
          let wf := with_life (reset_life (wf_life wf)) now (with_steps steps now wf) in
          let journal := foldl (fun j name => deleteStep w name j) (db_journal s) stepNames in
          (Ok tt, set_journal journal (put_wf w wf s))
      end
  end.

(** ** Locks *)
Definition tryLock (now : Z) (w : string) (lockDurationMs : Z) (attemptId : option string)
    : call TryLockResult := fun s =>
  let '(r, t) := tryAcquire now w lockDurationMs attemptId (db_leases s) in
  (Ok r, set_leases t s).

Definition tryLockAndLoad (now : Z) (w : string) (lockDurationMs : Z) (attemptId : option string)
    : call (TryLockResult * option WorkflowState) :=
  let* r := tryLock now w lockDurationMs attemptId in
  let* st := loadWorkflow w in
  st_ret (r, st).

Definition releaseLock (w : string) (guard : option FenceGuard) : call unit := fun s =>
  (Ok tt, set_leases (release w guard (db_leases s)) s).

Definition heartbeat (now : Z) (w : string) (lockDurationMs : Z) (guard : option FenceGuard)
    : call unit := fun s =>
  let '(r, t) := extend now w lockDurationMs guard (db_leases s) in (r, set_leases t s).

(** ** Queries *)
Definition scoped_namespace (namespace : option string) (s : DB) : option string :=
  opt_else namespace (db_namespace s).

Definition matching_runs (filter : option WorkflowListFilter) (namespace : option string) (s : DB)
    : list MutableWorkflow :=
  List.filter (fun wf => matchesListFilter wf filter (scoped_namespace namespace s))
    (jm_values (db_workflows s)).

Definition listed_runs (filter : option WorkflowListFilter) (namespace : option string)
    (orderBy : WorkflowOrderBy) (dir : OrderDir) (offset : Z) (limit : option Z) (s : DB)
    : list MutableWorkflow :=
  js_slice (sortWorkflowRows sortFieldsOf orderBy dir (matching_runs filter namespace s))
    offset ((fun l => offset + l) <$> limit).

Fixpoint hand_out_all (wfs : list MutableWorkflow) (s : DB) : list WorkflowState * DB :=
  match wfs with
  | [] => ([], s)
  | wf :: wfs' =>
      let '(st, s) := hand_out_run wf s in
      let '(sts, s) := hand_out_all wfs' s in
      (st :: sts, s)
  end.

Definition listWorkflows (filter : option WorkflowListFilter) (namespace : option string)
    (orderBy : option WorkflowOrderBy) (dir : option OrderDir) (offset limit : option Z)
    : call (list WorkflowState) := fun s =>
  let '(sts, s') := hand_out_all
    (listed_runs filter namespace (opt_or orderBy ByStartedAt) (opt_or dir Desc)
       (opt_or offset 0) limit s) s in
  (Ok sts, s').

Definition countWorkflows (filter : option WorkflowListFilter) (namespace : option string) (s : DB)
    : Z := Z.of_nat (length (matching_runs filter namespace s)).

(** [distinct]: non-empty picks of the runs in scope, sorted. *)
Definition distinct_of (ns : option string) (pick : MutableWorkflow -> option string) (s : DB)
    : list string :=
  let in_scope wf := passes_truthy ns (ri_namespace (wf_ident wf)) in
  let values := omap (fun wf => if in_scope wf && truthy_str (pick wf) then pick wf else None)
                  (jm_values (db_workflows s)) in
  jsort string_cmp (js_set values).

Definition distinctWorkflowNames (namespace : option string) (s : DB) : list string :=
  distinct_of (scoped_namespace namespace s) (fun wf => Some (ri_workflowName (wf_ident wf))) s.

Definition distinctWorkflowTypes (namespace : option string) (s : DB) : list string :=
  distinct_of (scoped_namespace namespace s) (fun wf => ri_workflowType (wf_ident wf)) s.

Definition distinctNamespaces (s : DB) : list string :=
  distinct_of None (fun wf => ri_namespace (wf_ident wf)) s.

Definition newest_run_first (a b : WorkflowRunSummary) : Z := rs_run b - rs_run a.

Definition loadRunHistory (w : string) (limit offset : option Z)
    : call (list WorkflowRunSummary) := fun s =>
  match db_workflows s !! w with
  | None => (Ok [], s)
  | Some wf =>
      let archived := opt_or (db_runHistory s !! w) [] in
      let '(current, wf') := currentRunSummary wf in
      let runs := jsort newest_run_first (current :: archived) in
      let from := opt_or offset 0 in
      (Ok (js_slice runs from (Some (from + opt_or limit (Z.of_nat (length runs))))),
       put_wf w wf' s)
  end.

(** ** Retention *)
Inductive PurgeCompletedParams : Type :=
| OlderThan (olderThanMs limit : Z)
| Window (from to limit : Z).

Definition purge_window (now : Z) (p : PurgeCompletedParams) : Z * Z * Z :=
  match p with
  | OlderThan ms limit => (0, now - ms, limit)
  | Window from to limit => (from, to, limit)
  end.

Definition purgeable (fromMs toMs : Z) (wf : MutableWorkflow) : bool :=
  isTerminalWorkflowStatus (wf_status wf) &&
  match lc_completedAt (wf_life wf) with
  | None => false
  | Some t => negb ((t <? fromMs) || (t >=? toMs))
  end.

(** Drop a deleted run from the idempotency and parent indexes. *)
Definition forgetIndexes (wf : MutableWorkflow) (s : DB) : DB :=
  let id := wf_ident wf in
  let s := match wf_idempotencyKey wf with
           | None => s
           | Some k =>
               let key := idempotencyIndexKey (ri_namespace id) (ri_workflowName id) k in
               if bool_decide (db_idempotencyIndex s !! key = Some (ri_workflowId id))
               then set_idempotencyIndex (delete key (db_idempotencyIndex s)) s else s
           end in
  match ri_parentWorkflowId id with
  | None => s
  | Some parent =>
      match db_children s !! parent with
      | None => s
      | Some siblings =>
          match set_remove (ri_workflowId id) siblings with
          | [] => set_children (delete parent (db_children s)) s
          | siblings' => set_children (<[parent := siblings']> (db_children s)) s
          end
      end
  end.

Definition purge_run (id : string) (wf : MutableWorkflow) (s : DB) : DB :=
  let s := set_workflows (delete id (db_workflows s)) s in
  let s := forgetIndexes wf s in
  let s := set_leases (Leases.forget id (db_leases s)) s in
  let s := set_signals (delete id (db_signals s)) s in
  let s := set_attempts (delete id (db_attempts s)) s in
  let s := set_runHistory (delete id (db_runHistory s)) s in
  let s := set_events (Events.forget id (db_events s)) s in
  let s := set_journal (Journal.deleteWorkflow id (db_journal s)) s in
  let s := set_signalTokens (SignalTokens.deleteWorkflow id (db_signalTokens s)) s in
  set_streams (Streams.deleteWorkflow id (db_streams s)) s.

Fixpoint purge_loop (fromMs toMs limit : Z) (entries : list (string * MutableWorkflow))
    (deleted : Z) (s : DB) : Z * DB :=
  match entries with
  | [] => (deleted, s)
  | (id, wf) :: rest =>
      if deleted >=? limit then (deleted, s)
      else if purgeable fromMs toMs wf
      then purge_loop fromMs toMs limit rest (deleted + 1) (purge_run id wf s)
      else purge_loop fromMs toMs limit rest deleted s
  end.

Definition purgeCompleted (now : Z) (p : PurgeCompletedParams) : call Z := fun s =>
  let '(fromMs, toMs, limit) := purge_window now p in
  let '(n, s') := purge_loop fromMs toMs limit (jm_entries (db_workflows s)) 0 s in
  (Ok n, s').

(** ** Scanners *)
Definition after_cursor (after : option string) (id : string) : bool :=
  match after with None => true | Some a => bool_decide (string_cmp id a = 1) end.

(** The ids of the scan, after the cursor and in order. *)
Definition scan_ids (after : option string) (s : DB) : list string :=
  jsort string_cmp (List.filter (after_cursor after) (jm_keys (db_workflows s))).

(** The loop over the ids; it stops once [limit] rows are collected. *)
Fixpoint scan_rows {T} (limit : Z) (pick : string -> option T) (ids : list string) (out : list T)
    : list T :=
  match ids with
  | [] => out
  | id :: ids' =>
      if Z.of_nat (length out) >=? limit then out
      else scan_rows limit pick ids' (match pick id with Some row => out ++ [row] | None => out end)
  end.

Definition scoped_pick {T} (pick : MutableWorkflow -> option T) (s : DB) (id : string) : option T :=
  wf ← db_workflows s !! id;
  if passes_truthy (db_namespace s) (ri_namespace (wf_ident wf)) then pick wf else None.

Definition scanWorkflows {T} (limit : Z) (after : option string)
    (pick : MutableWorkflow -> option T) (s : DB) : list T :=
  scan_rows limit (scoped_pick pick s) (scan_ids after s) [].

Inductive WakeupReason : Type := WakeSleep | WakeSignalTimeout | WakeSignal.

Record WorkflowWakeup : Type := mkWakeup {
  wk_workflowId : string;
  wk_workflowName : string;
  wk_version : option string;
  wk_input : json;
  wk_stepName : string;
  wk_reason : WakeupReason;
  wk_signalName : option string;
  wk_signalPayload : option json;
}.

Definition toWakeup (wf : MutableWorkflow) (stepName : string) (reason : WakeupReason)
    (signalName : option string) (signalPayload : json) : WorkflowWakeup :=
  let id := wf_ident wf in
  mkWakeup (ri_workflowId id) (ri_workflowName id) (ri_version id) (wf_input wf) stepName reason
    signalName (match reason with WakeSignal => Some signalPayload | _ => None end).

Definition due (nowMs : Z) (at_ : option Z) : bool :=
  match at_ with Some t => t <=? nowMs | None => false end.

(** The first step [f] accepts. *)
Fixpoint first_step {T} (f : StepState -> option T) (steps : list StepState) : option T :=
  match steps with
  | [] => None
  | st :: rest => match f st with Some x => Some x | None => first_step f rest end
  end.

Definition timer_wakeup (nowMs : Z) (wf : MutableWorkflow) (st : StepState) : option WorkflowWakeup :=
  if bool_decide (st_status st = Some SSleeping) && due nowMs (st_wakeAt st)
  then Some (toWakeup wf (st_stepName st) WakeSleep None JUndef)
  else if bool_decide (st_status st = Some SWaitingForSignal) && due nowMs (st_signalTimeoutAt st)
  then Some (toWakeup wf (st_stepName st) WakeSignalTimeout (st_signalName st) JUndef)
  else None.

Definition listDueTimers (now limit : Z) (after : option string) (s : DB) : list WorkflowWakeup :=
  scanWorkflows limit after (fun wf =>
    if bool_decide (wf_status wf = Suspended)
    then first_step (timer_wakeup now wf) (stepsByName wf) else None) s.

Definition delivered_to (w : string) (s : DB) : list SignalState := opt_or (db_signals s !! w) [].

Definition signal_wakeup (delivered : list SignalState) (wf : MutableWorkflow) (st : StepState)
    : option WorkflowWakeup :=
  match st_status st, st_signalName st with
  | Some SWaitingForSignal, Some name =>
      match List.find (fun sg => bool_decide (sg_signalName sg = name)) delivered with
      | Some sg => Some (toWakeup wf (st_stepName st) WakeSignal (Some name) (sg_payload sg))
      | None => None
      end
  | _, _ => None
  end.

Definition listSignalWakeups (limit : Z) (after : option string) (s : DB) : list WorkflowWakeup :=
  scanWorkflows limit after (fun wf =>
    if bool_decide (wf_status wf = Suspended) then
      match delivered_to (ri_workflowId (wf_ident wf)) s with
      | [] => None
      | delivered => first_step (signal_wakeup delivered wf) (stepsByName wf)
      end
    else None) s.

Definition CHILD_ENDED_SIGNAL_PREFIX : string := "workflow.child-ended:".

Definition child_wait (delivered : list SignalState) (st : StepState) : option (string * string) :=
  match st_status st, st_signalName st with
  | Some SWaitingForSignal, Some name =>
      if String.prefix CHILD_ENDED_SIGNAL_PREFIX name &&
         negb (existsb (fun sg => bool_decide (sg_signalName sg = name)) delivered)
      then Some (st_stepName st, name) else None
  | _, _ => None
  end.

Definition listChildEndedWaits (limit : Z) (after : option string) (s : DB)
    : list (string * list (string * string)) :=
  scanWorkflows limit after (fun wf =>
    if bool_decide (wf_status wf = Suspended) then
      match omap (child_wait (delivered_to (ri_workflowId (wf_ident wf)) s)) (stepsByName wf) with
      | [] => None
      | waits => Some (ri_workflowId (wf_ident wf), waits)
      end
    else None) s.

Record OrphanedRun : Type := mkOrphan {
  or_workflowId : string;
  or_workflowName : string;
  or_version : option string;
  or_status : WorkflowStatus;
  or_input : json;
  or_metadata : option metadata;
}.

Definition orphan_of (now updatedBefore : Z) (s : DB) (wf : MutableWorkflow) : option OrphanedRun :=
  match wf_status wf with
  | Pending | Running | Compensating =>
      if wf_updatedAt wf >=? updatedBefore then None
      else if isHeld (ri_workflowId (wf_ident wf)) now (db_leases s) then None
      else Some (mkOrphan (ri_workflowId (wf_ident wf)) (ri_workflowName (wf_ident wf))
                   (ri_version (wf_ident wf)) (wf_status wf) (wf_input wf) (wf_metadata wf))
  | _ => None
  end.

Definition listOrphanedRuns (now updatedBefore limit : Z) (after : option string) (s : DB)
    : list OrphanedRun := scanWorkflows limit after (orphan_of now updatedBefore s) s.

(** ** Signals and tokens *)
Definition putSignal (now : Z) (w signalName : string) (data : json) (s : DB) : DB :=
  let others := base.filter (fun sg => sg_signalName sg <> signalName) (delivered_to w s) in
  set_signals (<[w := others ++ [mkSignal signalName data now]]> (db_signals s)) s.

Definition deliverSignal (now : Z) (w signalName : string) (data : json) : call unit :=
  st_modify (putSignal now w signalName data).

Definition loadSignals (w : string) (s : DB) : list SignalState := delivered_to w s.

Definition createSignalToken (now : Z) (p : CreateSignalTokenParams) : call (SignalToken * bool) :=
  fun s => let '(r, t) := SignalTokens.create now p (db_signalTokens s) in
           (r, set_signalTokens t s).

Definition findSignalTokenById (id : string) (s : DB) : option SignalToken :=
  findById id (db_signalTokens s).

(** One block: the claim and the delivery land together. *)
Definition completeSignalToken (now : Z) (id : string) (value : json) (at_ : Z)
    : call (CompletionOutcome * SignalToken) := fun s =>
  let before := findById id (db_signalTokens s) in
  let '(r, t) := markCompleted id value at_ (db_signalTokens s) in
  let s := set_signalTokens t s in
  match r with
  | Ok (Delivered, record) =>
      if bool_decide (completedAt <$> before = Some None)
      then (r, putSignal now (tk_workflowId record) (tk_signalName record) value s)
      else (r, s)
  | _ => (r, s)
  end.

Definition listSignalTokensForWorkflow (w : string) (s : DB) : list SignalToken :=
  listForWorkflow w (db_signalTokens s).

(** ** Streams and events *)
Definition appendStreamChunk (now : Z) (guard : option FenceGuard) (w streamId : string)
    (data : json) (by_ : Appender) (chunkId : option string) : call Z :=
  do* fence now w guard in
  fun s => let '(i, t) := Streams.append now w streamId data by_ chunkId (db_streams s) in
           (Ok i, set_streams t s).

Definition readStreamChunks (w streamId : string) (since limit : option Z) (s : DB) : read_view :=
  Streams.read w streamId since limit (db_streams s).

Definition notifyStepStarted (now : Z) (w stepName : string) : call unit :=
  st_modify (emit_event w (StepStarted stepName now) false).

Definition subscribeToWorkflow (w : string) : call nat := fun s =>
  let '(r, t) := subscribe w (db_events s) in (Ok r, set_events t s).

(** ** Attempts and checkpoints *)
Definition attempt_key (run : Z) (r : StepAttemptRecord) : string :=
  str_of_Z run +:+ "|" +:+ str_of_Z (at_attempt r) +:+ "|" +:+ attempt_type_name (at_type r)
  +:+ "|" +:+ at_stepName r.

(** Replace the row with the key, or append. *)
Fixpoint upsert_attempt (row : AttemptRow) (l : list AttemptRow) : list AttemptRow :=
  match l with
  | [] => [row]
  | r :: l' => if bool_decide (ar_key r = ar_key row) then row :: l' else r :: upsert_attempt row l'
  end.

Definition appendAttempt (r : StepAttemptRecord) (s : DB) : DB :=
  let w := at_workflowId r in
  let run := from_option wf_run 1 (db_workflows s !! w) in
  let row := mkAttemptRow (attempt_key run r) run r in
  set_attempts (<[w := upsert_attempt row (opt_or (db_attempts s !! w) [])]> (db_attempts s)) s.

Definition saveStepAttempt (now : Z) (guard : option FenceGuard) (r : StepAttemptRecord)
    : call unit :=
  do* fence now (at_workflowId r) guard in st_modify (appendAttempt r).

Definition loadStepAttempts (w : string) (stepName : option string) (s : DB)
    : list StepAttemptRecord :=
  let all := ar_record <$> opt_or (db_attempts s !! w) [] in
  if truthy_str stepName
  then List.filter (fun a => bool_decide (Some (at_stepName a) = stepName)) all else all.

Inductive StepOutcome : Type :=
| OutCompleted (result : json)
| OutFailed (error : string) (errorTag : option string).

Record StepCheckpoint : Type := mkCheckpoint {
  cp_workflowId : string;
  cp_stepName : string;
  cp_outcome : StepOutcome;
  cp_durationMs : Z;
  cp_startedAt : Z;
  cp_metadata : option metadata;
  cp_attempts : list StepAttemptRecord;
}.

Definition write_outcome (now : Z) (c : StepCheckpoint) (s : DB) : DB :=
  match cp_outcome c with
  | OutCompleted r => writeStepResult now (mkStepResult (cp_workflowId c) (cp_stepName c) r
                        (cp_durationMs c) (cp_startedAt c) (cp_metadata c)) s
  | OutFailed e t => writeStepFailure now (mkStepFailure (cp_workflowId c) (cp_stepName c) e t
                       (cp_durationMs c) (cp_startedAt c) (cp_metadata c)) s
  end.

Definition checkpointStep (now : Z) (guard : option FenceGuard) (c : StepCheckpoint)
    : call (option WorkflowStatusSnapshot) :=
  do* fence now (cp_workflowId c) guard in
  fun s =>
    match db_workflows s !! cp_workflowId c with
    | None => (Ok None, s)
    | Some _ =>
        let s := foldl (fun s a => appendAttempt a s) s (cp_attempts c) in
        let s := write_outcome now c s in
        (Ok (loadWorkflowStatus (cp_workflowId c) s), s)
    end.

(** ** Compensation *)
Definition compensating_life (error : string) (errorTag : option string) (l : Lifecycle) : Lifecycle :=
  mkLife Compensating (lc_result l) (Some error) errorTag (lc_tripwire l) (lc_startedAt l)
    (lc_completedAt l).

Definition beginCompensation (now : Z) (guard : option FenceGuard) (w error : string)
    (errorTag : option string) : call bool :=
  do* fence now w guard in
  fun s =>
    match db_workflows s !! w with
    | None => (Ok false, s)
    | Some wf =>
        match wf_status wf with
        | Compensating => (Ok true, s)
        | Pending | Running | Suspended =>
            (Ok true, put_wf w (with_life (compensating_life error errorTag (wf_life wf)) now wf) s)
        | _ => (Ok false, s)
        end
    end.

Definition compensation_row (now : Z) (status : StepCompensationStatus) (error : option string)
    (row : StepState) : StepState :=
  with_ledger (mkLedger (Some status) error (Some now)) (withoutCompensationLedger row).

Definition save_compensation (now : Z) (w stepName : string) (status : StepCompensationStatus)
    (error : option string) (s : DB) : DB :=
  match db_workflows s !! w with
  | None => s
  | Some wf =>
      match wf_steps wf !! stepName with
      | None => s
      | Some row => put_wf w (put_step now stepName (compensation_row now status error row) wf) s
      end
  end.

Definition saveStepCompensation (now : Z) (guard : option FenceGuard) (w stepName : string)
    (status : StepCompensationStatus) (error : option string) : call unit :=
  do* fence now w guard in st_modify (save_compensation now w stepName status error).

(** ** Journal *)
Definition on_journal (f : InMemoryJournal -> InMemoryJournal) (s : DB) : DB :=
  set_journal (f (db_journal s)) s.

Definition loadJournal (localeCompare : string -> string -> Z) (w stepName : string)
    : call (list JournalEntry) := fun s =>
  let '(l, j) := load localeCompare w stepName (db_journal s) in (Ok l, set_journal j s).

Definition appendEntry (now : Z) (guard : option FenceGuard) (w stepName : string)
    (slot : JournalSlot) (activityName : string) (payloadHash : option string)
    (exit : JournalExit) : call unit :=
  do* fence now w guard in
  st_modify (on_journal (Journal.append now w stepName slot activityName payloadHash exit)).

Definition appendPendingEntry (now : Z) (guard : option FenceGuard) (w stepName : string)
    (slot : JournalSlot) (activityName : string) (payloadHash : option string)
    (stepType : JournalStepType) (wakeAt : option Z) : call unit :=
  do* fence now w guard in
  st_modify (on_journal (appendPending now w stepName slot activityName payloadHash stepType wakeAt)).

Definition completePendingEntry (now : Z) (guard : option FenceGuard) (w stepName : string)
    (slot : JournalSlot) (exit : JournalExit) : call CompletePendingResult :=
  do* fence now w guard in
  fun s => let '(r, j) := completePending w stepName slot exit (db_journal s) in
           (Ok r, set_journal j s).

Definition discardJournalEntries (now : Z) (guard : option FenceGuard) (w stepName : string)
    (slots : list JournalSlot) : call unit :=
  do* fence now w guard in st_modify (on_journal (discard w stepName slots)).

Definition findDueJournalSleeps (now limit : Z) : call (list DueSleep) := fun s =>
  let '(d, j) := findDueSleeps now limit (db_journal s) in (Ok d, set_journal j s).

Definition findPendingJournalSignal (w stepName signalName : string) (s : DB)
    : option JournalEntry := findPendingSignal w stepName signalName (db_journal s).

(** ** Test helpers *)
Definition getStepHistory (w : string) (s : DB) : list StepState :=
  concat (map (fun r => (rs_steps r).*2) (opt_or (db_runHistory s !! w) [])).

Definition deleteJournalEntry (w stepName : string) (activityIndex : Z) : call unit :=
  st_modify (on_journal (discardIndex w stepName activityIndex)).

Definition getWorkflow (w : string) : call (option WorkflowState) := loadWorkflow w.

(** [clear]: everything but the event subscriptions. *)
Definition clear (s : DB) : DB :=
  mkStorage (db_namespace s) ∅ (db_arrays s) (Leases.clear (db_leases s)) Journal.clear
    SignalTokens.clear (Streams.clear (db_streams s)) (db_events s) ∅ ∅ ∅ ∅ ∅.
