(* ===== verification/StorageRows.v ===== *)
(** The storage's methods as one operation type, and what each of them does
    to the run rows: which rows exist, which lifecycle moves are possible and
    which fields never change. The other files about the storage build on
    these facts. *)
From S2P Require Import Prelude Leases Json Journal Streams SignalTokens Events RunState Storage.
Open Scope string_scope.
Open Scope list_scope.
Open Scope Z_scope.

(** ** Operations *)

(** The methods that take a fence guard. *)
Inductive fenced_op : Type :=
| FCreateWorkflow (p : CreateWorkflowParams)
| FSaveStepResult (p : StepResultRecord)
| FBatchSaveStepResults (records : list StepResultRecord)
| FSaveStepFailure (p : StepFailureRecord)
| FSaveTask (w stepName : string) (taskIndex : Z) (outcome : TaskOutcome)
| FCompleteWorkflow (w : string) (result : json)
| FFailWorkflow (w error : string) (errorTag : option string)
| FTripwireWorkflow (w : string) (reason : json)
| FCancelWorkflow (w : string) (cascade : bool)
| FSuspendWorkflow (w stepName : string) (u : StepUpdate)
| FSetWorkflowMetadata (w : string) (patch : metadata)
| FStartFreshRun (w : string) (expectedRun : option Z) (nextInput : option json)
| FAppendStreamChunk (w streamId : string) (data : json) (by_ : Appender) (chunkId : option string)
| FSaveStepAttempt (r : StepAttemptRecord)
| FCheckpointStep (c : StepCheckpoint)
| FBeginCompensation (w error : string) (errorTag : option string)
| FSaveStepCompensation (w stepName : string) (status : StepCompensationStatus)
    (error : option string)
| FAppendEntry (w stepName : string) (slot : JournalSlot) (activityName : string)
    (payloadHash : option string) (exit : JournalExit)
| FAppendPendingEntry (w stepName : string) (slot : JournalSlot) (activityName : string)
    (payloadHash : option string) (stepType : JournalStepType) (wakeAt : option Z)
| FCompletePendingEntry (w stepName : string) (slot : JournalSlot) (exit : JournalExit)
| FDiscardJournalEntries (w stepName : string) (slots : list JournalSlot).

(** The others that can change the storage. *)
Inductive free_op : Type :=
| OLoadWorkflow (w : string)
| OResetSteps (w : string) (stepNames : list string)
| OTryLock (w : string) (lockDurationMs : Z) (attemptId : option string)
| OTryLockAndLoad (w : string) (lockDurationMs : Z) (attemptId : option string)
| OReleaseLock (w : string) (guard : option FenceGuard)
| OHeartbeat (w : string) (lockDurationMs : Z) (guard : option FenceGuard)
| OListWorkflows (filter : option WorkflowListFilter) (namespace : option string)
    (orderBy : option WorkflowOrderBy) (dir : option OrderDir) (offset limit : option Z)
| OLoadRunHistory (w : string) (limit offset : option Z)
| OPurgeCompleted (p : PurgeCompletedParams)
| ODeliverSignal (w signalName : string) (data : json)
| OCreateSignalToken (p : CreateSignalTokenParams)
| OCompleteSignalToken (id : string) (value : json) (at_ : Z)
| ONotifyStepStarted (w stepName : string)
| OSubscribe (w : string)
| OLoadJournal (w stepName : string)
| OFindDueSleeps (due_at limit : Z)
| ODeleteJournalEntry (w stepName : string) (activityIndex : Z)
| OClear.

Inductive storage_op : Type :=
| Fenced (guard : option FenceGuard) (op : fenced_op)
| Free (op : free_op).

(** A call whose answer is dropped. *)
Definition void {A} (m : call A) : call unit := do* m in st_ret tt.

Definition run_fenced (now : Z) (g : option FenceGuard) (op : fenced_op) : call unit :=
  match op with
  | FCreateWorkflow p => void (createWorkflow now g p)
  | FSaveStepResult p => saveStepResult now g p
  | FBatchSaveStepResults rs => batchSaveStepResults now g rs
  | FSaveStepFailure p => saveStepFailure now g p
  | FSaveTask w st i o => saveTask now g w st i o
  | FCompleteWorkflow w r => completeWorkflow now g w r
  | FFailWorkflow w e t => failWorkflow now g w e t
  | FTripwireWorkflow w r => tripwireWorkflow now g w r
  | FCancelWorkflow w c => cancelWorkflow now g w c
  | FSuspendWorkflow w st u => suspendWorkflow now g w st u
  | FSetWorkflowMetadata w p => setWorkflowMetadata now g w p
  | FStartFreshRun w e i => void (startFreshRun now g w e i)
  | FAppendStreamChunk w st d b c => void (appendStreamChunk now g w st d b c)
  | FSaveStepAttempt r => saveStepAttempt now g r
  | FCheckpointStep c => void (checkpointStep now g c)
  | FBeginCompensation w e t => void (beginCompensation now g w e t)
  | FSaveStepCompensation w st x e => saveStepCompensation now g w st x e
  | FAppendEntry w st sl n h x => appendEntry now g w st sl n h x
  | FAppendPendingEntry w st sl n h t wk => appendPendingEntry now g w st sl n h t wk
  | FCompletePendingEntry w st sl x => void (completePendingEntry now g w st sl x)
  | FDiscardJournalEntries w st sls => discardJournalEntries now g w st sls
  end.

(** The workflows whose lock fences the call. *)
Definition fence_targets (op : fenced_op) : list string :=
  match op with
  | FCreateWorkflow p => from_option (fun x => [x]) [] (cw_parentWorkflowId p)
  | FSaveStepResult p => [sr_workflowId p]
  | FBatchSaveStepResults rs => sr_workflowId <$> rs
  | FSaveStepFailure p => [sf_workflowId p]
  | FSaveStepAttempt r => [at_workflowId r]
  | FCheckpointStep c => [cp_workflowId c]
  | FSaveTask w _ _ _ | FCompleteWorkflow w _ | FFailWorkflow w _ _ | FTripwireWorkflow w _
  | FCancelWorkflow w _ | FSuspendWorkflow w _ _ | FSetWorkflowMetadata w _
  | FStartFreshRun w _ _ | FAppendStreamChunk w _ _ _ _ | FBeginCompensation w _ _
  | FSaveStepCompensation w _ _ _ | FAppendEntry w _ _ _ _ _ | FAppendPendingEntry w _ _ _ _ _ _
  | FCompletePendingEntry w _ _ _ | FDiscardJournalEntries w _ _ => [w]
  end.

Section ops.
Variable localeCompare : string -> string -> Z.

Definition run_free (now : Z) (op : free_op) : call unit :=
  match op with
  | OLoadWorkflow w => void (loadWorkflow w)
  | OResetSteps w l => resetSteps now w l
  | OTryLock w d a => void (tryLock now w d a)
  | OTryLockAndLoad w d a => void (tryLockAndLoad now w d a)
  | OReleaseLock w g => releaseLock w g
  | OHeartbeat w d g => heartbeat now w d g
  | OListWorkflows f n o d off lim => void (listWorkflows f n o d off lim)
  | OLoadRunHistory w l o => void (loadRunHistory w l o)
  | OPurgeCompleted p => void (purgeCompleted now p)
  | ODeliverSignal w n d => deliverSignal now w n d
  | OCreateSignalToken p => void (createSignalToken now p)
  | OCompleteSignalToken id v a => void (completeSignalToken now id v a)
  | ONotifyStepStarted w st => notifyStepStarted now w st
  | OSubscribe w => void (subscribeToWorkflow w)
  | OLoadJournal w st => void (loadJournal localeCompare w st)
  | OFindDueSleeps n l => void (findDueJournalSleeps n l)
  | ODeleteJournalEntry w st i => deleteJournalEntry w st i
  | OClear => st_modify clear
  end.

Definition exec_storage_op (now : Z) (op : storage_op) : call unit :=
  match op with
  | Fenced g op => run_fenced now g op
  | Free op => run_free now op
  end.

Definition run_storage_op (now : Z) (op : storage_op) (s : DB) : DB := (exec_storage_op now op s).2.

Definition run_storage_ops : list (Z * storage_op) -> DB -> DB := run_ops run_storage_op.
End ops.

(** ** The fence in front of a call *)

Lemma fence_Ok now w g s u : checkFence now w g (db_leases s) = Ok u -> fence now w g s = (Ok u, s).
Proof. unfold fence. by intros ->. Qed.

(** A fenced body runs or is skipped as a whole. *)
Lemma fenced_cases {A} now w g (k : call A) s :
  (exists u, checkFence now w g (db_leases s) = Ok u /\ (do* fence now w g in k) s = k s) \/
  (exists e, checkFence now w g (db_leases s) = Err e /\ (do* fence now w g in k) s = (Err e, s)).
Proof.
  unfold st_bind, fence. destruct (checkFence now w g (db_leases s)) as [u|e]; [left|right]; eauto.
Qed.

Lemma void_state {A} (m : call A) s : (void m s).2 = (m s).2.
Proof. unfold void, st_bind. by destruct (m s) as [[] ?]. Qed.

Lemma void_Err {A} (m : call A) s e : (m s).1 = Err e -> (void m s).1 = Err e.
Proof. unfold void, st_bind. destruct (m s) as [[] ?]; cbn; congruence. Qed.

Lemma bind_Err {A B} (m : call A) (k : A -> call B) s e s' :
  m s = (Err e, s') -> st_bind m k s = (Err e, s').
Proof. unfold st_bind. by intros ->. Qed.

(** Inherit a property of the state from the body and the skipped call. *)
Lemma fenced_state {A} (P : DB -> Prop) now w g (k : call A) s :
  P s -> P (k s).2 -> P ((do* fence now w g in k) s).2.
Proof. intros. destruct (fenced_cases now w g k s) as [(u & _ & ->)|(e & _ & ->)]; done. Qed.

Lemma fence_all_state now g ws s : (fence_all now g ws s).2 = s.
Proof.
  revert s. induction ws as [|w ws IH]; intros s; cbn [fence_all]; [done|].
  destruct (fenced_cases now w g (fence_all now g ws) s) as [(u & _ & ->)|(e & _ & ->)]; [apply IH|done].
Qed.

Lemma fence_all_Err now g ws s :
  (exists w e, w ∈ ws /\ checkFence now w g (db_leases s) = Err e) ->
  exists e, fence_all now g ws s = (Err e, s).
Proof.
  intros (w & e & Hin & He). induction ws as [|w' ws IH]; [by apply not_elem_of_nil in Hin|].
  cbn [fence_all].
  destruct (fenced_cases now w' g (fence_all now g ws) s) as [(u & Hu & ->)|(e' & _ & ->)].
  - apply IH. apply elem_of_cons in Hin as [->|]; [congruence|done].
  - by exists e'.
Qed.

Lemma elem_of_js_set x l : x ∈ js_set l <-> x ∈ l.
Proof.
  unfold js_set. assert (forall acc, x ∈ foldl (fun acc x => set_add x acc) acc l <-> x ∈ acc \/ x ∈ l) as H.
  { induction l as [|y l IH]; intros acc; cbn.
    - split; [by left|]. intros [H|H]; [done|by apply not_elem_of_nil in H].
    - rewrite IH, elem_of_set_add, elem_of_cons. tauto. }
  rewrite H. split; [|by right]. intros [H'|H']; [by apply not_elem_of_nil in H'|done].
Qed.

(** ** Rows before and after *)

(** The same rows exist, in the same order, each related to its old version. *)
Record rows_map (R : string -> MutableWorkflow -> MutableWorkflow -> Prop)
    (m m' : jmap string MutableWorkflow) : Prop := {
  rm_rows : forall id, option_Forall2 (R id) (m !! id) (m' !! id);
  rm_keys : jm_keys m' = jm_keys m;
}.

Lemma rows_refl R `{!forall id, Reflexive (R id)} m : rows_map R m m.
Proof. split; [|done]. intros id. destruct (m !! id); by constructor. Qed.

Lemma rows_trans R `{!forall id, Transitive (R id)} m1 m2 m3 : rows_map R m1 m2 -> rows_map R m2 m3 -> rows_map R m1 m3.
Proof.
  intros [H1 K1] [H2 K2]. split; [|congruence]. intros id. specialize (H1 id). specialize (H2 id).
  inversion H1 as [x y Hxy E1 E2|E1 E2]; rewrite <- E2 in H2; inversion H2; constructor; by etrans.
Qed.

Lemma rows_impl (R R' : string -> MutableWorkflow -> MutableWorkflow -> Prop) m m' :
  (forall id x y, R id x y -> R' id x y) -> rows_map R m m' -> rows_map R' m m'.
Proof. intros HR [H K]. split; [|done]. intros id. specialize (H id). inversion H; constructor; auto. Qed.

Lemma rows_put R `{!forall id, Reflexive (R id)} m w wf wf' :
  m !! w = Some wf -> R w wf wf' -> rows_map R m (<[w := wf']> m).
Proof.
  intros Hw HR. split.
  - intros id. rewrite jlookup_insert. case_decide; [subst; rewrite Hw; by constructor|].
    destruct (m !! id); by constructor.
  - rewrite jm_keys_insert. rewrite decide_True; [done|]. by eapply jlookup_key.
Qed.

(** A fold of steps that each keep the relation. *)
Lemma rows_fold {A} R `{!forall id, Reflexive (R id), !forall id, Transitive (R id)}
    (f : DB -> A -> DB) (l : list A) s :
  (forall s a, a ∈ l -> rows_map R (db_workflows s) (db_workflows (f s a))) ->
  rows_map R (db_workflows s) (db_workflows (foldl f s l)).
Proof.
  revert s. induction l as [|a l IH]; intros s Hf; cbn; [by apply rows_refl|].
  eapply rows_trans; [done|apply Hf; left|apply IH]. intros s' x Hx. apply Hf. by right.
Qed.

(** The moves of a cancel or of the start of a rollback. *)
Definition active (a : WorkflowStatus) : bool := bool_decide (a ∈ [Pending; Running; Suspended]).

(** The status moves an operation can make on run [id]. *)
Definition moves (op : storage_op) (id : string) (a b : WorkflowStatus) : bool :=
  let starts w := bool_decide (id = w) && bool_decide (a = Pending) && bool_decide (b = Running) in
  let ends w c := bool_decide (id = w) && negb (isTerminalWorkflowStatus a) && bool_decide (b = c) in
  match op with
  | Fenced _ (FSaveStepResult p) => starts (sr_workflowId p)
  | Fenced _ (FBatchSaveStepResults rs) => existsb (fun p => starts (sr_workflowId p)) rs
  | Fenced _ (FSaveStepFailure p) => starts (sf_workflowId p)
  | Fenced _ (FCheckpointStep c) => starts (cp_workflowId c)
  | Fenced _ (FCompleteWorkflow w _) => ends w Completed
  | Fenced _ (FFailWorkflow w _ _) => ends w Failed
  | Fenced _ (FTripwireWorkflow w _) => ends w Tripwire
  | Fenced _ (FCancelWorkflow w cascade) =>
      (bool_decide (id = w) || cascade) && active a && bool_decide (b = Failed)
  | Fenced _ (FSuspendWorkflow w _ _) => bool_decide (id = w) && bool_decide (b = Suspended)
  | Fenced _ (FStartFreshRun w _ _) => bool_decide (id = w) && bool_decide (b = Pending)
  | Fenced _ (FBeginCompensation w _ _) =>
      bool_decide (id = w) && active a && bool_decide (b = Compensating)
  | Free (OResetSteps w _) =>
      bool_decide (id = w) && isTerminalWorkflowStatus a && bool_decide (b = Running)
  | _ => false
  end.

Lemma moves_trans op id a b c :
  moves op id a b = true -> moves op id b c = true -> moves op id a c = true.
Proof.
  destruct op as [g op|op]; destruct op; cbn [moves]; try done.
  2:{ rewrite existsb_exists. intros (p & _ & Hp) H2. revert H2. rewrite existsb_exists.
      intros (q & _ & Hq). rewrite !andb_true_iff, !bool_decide_eq_true in Hp, Hq.
      destruct Hp as [_ ->], Hq as [[_ ?] _]. done. }
  all: repeat case_bool_decide; rewrite ?andb_false_r, ?andb_false_l, ?orb_false_l; try done;
    try (destruct cascade; cbn; try done); destruct a, b; vm_compute; try done; by destruct c.
Qed.

(** What an operation may change in row [id] when it stays. *)
Record row_rel (op : storage_op) (id : string) (wf wf' : MutableWorkflow) : Prop := {
  rr_ident : wf_ident wf' = wf_ident wf;
  rr_key : wf_idempotencyKey wf' = wf_idempotencyKey wf;
  rr_expires : wf_idempotencyExpiresAt wf' = wf_idempotencyExpiresAt wf;
  rr_life : wf_life wf' = wf_life wf \/ moves op id (wf_status wf) (wf_status wf') = true;
}.

#[global] Instance row_rel_refl op id : Reflexive (row_rel op id).
Proof. intros wf. split; auto. Qed.

#[global] Instance row_rel_trans op id : Transitive (row_rel op id).
Proof.
  intros a b c [I1 K1 E1 L1] [I2 K2 E2 L2]. split; [congruence..|].
  destruct L1 as [L1|L1], L2 as [L2|L2].
  - left. congruence.
  - right. unfold wf_status in *. by rewrite <- L1.
  - right. unfold wf_status in *. by rewrite L2.
  - right. by eapply moves_trans.
Qed.

(** The row's task arrays: none is newly referenced or newly owned, and the
    hand-out count does not go back. *)
Record own_frame (wf wf' : MutableWorkflow) : Prop := {
  of_handed : wf_handedOut wf <= wf_handedOut wf';
  of_owned : forall s o, wf_ownedTasks wf' !! s = Some o -> wf_ownedTasks wf !! s = Some o;
  of_rows : forall s r, row_tasks wf' s = Some r -> row_tasks wf s = Some r;
}.

#[global] Instance own_frame_refl : Reflexive own_frame.
Proof. intros wf. split; auto with lia. Qed.

#[global] Instance own_frame_trans : Transitive own_frame.
Proof. intros a b c [H1 O1 R1] [H2 O2 R2]. split; [lia|auto|auto]. Qed.

Definition quiet (op : storage_op) (id : string) (wf wf' : MutableWorkflow) : Prop :=
  row_rel op id wf wf' /\ own_frame wf wf'.

#[global] Instance quiet_refl op id : Reflexive (quiet op id).
Proof. intros wf. split; reflexivity. Qed.

#[global] Instance quiet_trans op id : Transitive (quiet op id).
Proof. intros a b c [H1 H2] [H3 H4]. split; by etrans. Qed.

Lemma own_frame_step wf wf' st row :
  wf_handedOut wf' = wf_handedOut wf -> wf_ownedTasks wf' = wf_ownedTasks wf ->
  wf_steps wf' = <[st := row]> (wf_steps wf) ->
  (forall r, st_tasks row = Some r -> row_tasks wf st = Some r) -> own_frame wf wf'.
Proof.
  intros Hh Ho Hs Hr. split; rewrite ?Hh, ?Ho; [lia|auto|]. unfold row_tasks at 1.
  intros s r. rewrite Hs, jlookup_insert. case_decide; [subst; apply Hr|done].
Qed.

Lemma own_frame_same wf wf' :
  wf_handedOut wf <= wf_handedOut wf' -> wf_ownedTasks wf' = wf_ownedTasks wf ->
  wf_steps wf' = wf_steps wf -> own_frame wf wf'.
Proof. intros Hh Ho Hs. split; [done|by rewrite Ho|]. unfold row_tasks. by rewrite Hs. Qed.

(** ** The bodies, one by one *)
Section bodies.
Variable op : storage_op.

(** The operation may start run [id]. *)
Definition starts_running (id : string) : Prop := moves op id Pending Running = true.

Lemma markRunning_frame now wf : own_frame wf (markRunning now wf).
Proof. unfold markRunning. destruct (lc_status (wf_life wf)); try reflexivity. by apply own_frame_same. Qed.

Lemma markRunning_rel id now wf : starts_running id -> row_rel op id wf (markRunning now wf).
Proof.
  intros Hm. unfold markRunning. destruct (lc_status (wf_life wf)) eqn:E; try reflexivity.
  split; try done. right. unfold wf_status. by rewrite E.
Qed.

Lemma put_step_rel id now st row wf : row_rel op id wf (put_step now st row wf).
Proof. split; auto. Qed.

Lemma put_step_frame now st row wf :
  (forall r, st_tasks row = Some r -> row_tasks wf st = Some r) -> own_frame wf (put_step now st row wf).
Proof. by apply own_frame_step. Qed.

Lemma markRunning_steps now wf : wf_steps (markRunning now wf) = wf_steps wf.
Proof. unfold markRunning. by destruct (lc_status (wf_life wf)). Qed.

(** A step outcome: the row keeps the task array it had. *)
Lemma outcome_quiet id now st row wf :
  starts_running id -> st_tasks row = row_tasks wf st ->
  quiet op id wf (put_step now st row (markRunning now wf)).
Proof.
  intros Hm Hr. split.
  - etrans; [by apply (markRunning_rel id now)|apply put_step_rel].
  - etrans; [apply (markRunning_frame now)|]. apply put_step_frame. intros r Hr'.
    unfold row_tasks in *. rewrite markRunning_steps. congruence.
Qed.

Lemma writeStepResult_rows now p s : starts_running (sr_workflowId p) ->
  rows_map (quiet op) (db_workflows s) (db_workflows (writeStepResult now p s)).
Proof.
  intros Hm. unfold writeStepResult. destruct (db_workflows s !! sr_workflowId p) as [wf|] eqn:E;
    [|by apply rows_refl, _]. cbn. apply (rows_put _ _ _ wf); [done|].
  apply outcome_quiet; [done|]. cbn. by rewrite markRunning_steps.
Qed.

Lemma writeStepFailure_rows now p s : starts_running (sf_workflowId p) ->
  rows_map (quiet op) (db_workflows s) (db_workflows (writeStepFailure now p s)).
Proof.
  intros Hm. unfold writeStepFailure. destruct (db_workflows s !! sf_workflowId p) as [wf|] eqn:E;
    [|by apply rows_refl, _]. cbn. apply (rows_put _ _ _ wf); [done|].
  apply outcome_quiet; [done|]. cbn. by rewrite markRunning_steps.
Qed.

(** A lifecycle write on one row. *)
Lemma life_quiet id l now wf : moves op id (wf_status wf) (lc_status l) = true -> quiet op id wf (with_life l now wf).
Proof. intros Hm. split; [split; auto|by apply own_frame_same]. Qed.

Lemma end_run_rows now w l e wf s :
  db_workflows s !! w = Some wf -> moves op w (wf_status wf) (lc_status l) = true ->
  rows_map (quiet op) (db_workflows s) (db_workflows (end_run now w l e wf s)).
Proof. intros Hw Hm. cbn. apply (rows_put _ _ _ wf); [done|]. by apply life_quiet. Qed.

Lemma cancel_body_rows fuel now w cascade s :
  (forall a, active a = true -> moves op w a Failed = true) ->
  (cascade = true -> forall id a, active a = true -> moves op id a Failed = true) ->
  rows_map (quiet op) (db_workflows s) (db_workflows (cancel_body fuel now w cascade s)).
Proof.
  revert w cascade s. induction fuel as [|fuel IH]; intros w cascade s Hw Hc; cbn [cancel_body];
    [by apply rows_refl, _|].
  destruct (db_workflows s !! w) as [wf|] eqn:E; [|by apply rows_refl, _].
  destruct (cancellable wf) eqn:Ec; [|by apply rows_refl, _].
  set (s1 := end_run _ _ _ _ _ s).
  assert (rows_map (quiet op) (db_workflows s) (db_workflows s1)) as H1.
  { apply end_run_rows; [done|]. apply Hw. unfold cancellable in Ec. by destruct (wf_status wf). }
  destruct cascade; [|done]. eapply rows_trans; [apply _|exact H1|].
  apply (rows_fold (quiet op) (fun s child => cancel_body fuel now child true s)). auto.
Qed.

Lemma hand_out_frame wf : own_frame wf (toWorkflowState wf).2.
Proof. apply own_frame_same; cbn; [lia|done|done]. Qed.

Lemma hand_out_quiet id wf : quiet op id wf (toWorkflowState wf).2.
Proof. split; [split; auto|apply hand_out_frame]. Qed.
End bodies.

(** Rows sit under their own id, each id once. *)
Record db_ok (s : DB) : Prop := {
  do_wf : jm_wf (db_workflows s);
  do_keyed : forall id wf, db_workflows s !! id = Some wf -> ri_workflowId (wf_ident wf) = id;
}.

Lemma hand_out_run_rows op wf s :
  db_workflows s !! ri_workflowId (wf_ident wf) = Some wf ->
  rows_map (quiet op) (db_workflows s) (db_workflows (hand_out_run wf s).2).
Proof. intros H. cbn. apply (rows_put _ _ _ wf); [done|]. apply hand_out_quiet. Qed.

Lemma hand_out_all_rows op wfs s :
  NoDup ((fun wf => ri_workflowId (wf_ident wf)) <$> wfs) ->
  Forall (fun wf => db_workflows s !! ri_workflowId (wf_ident wf) = Some wf) wfs ->
  rows_map (quiet op) (db_workflows s) (db_workflows (hand_out_all wfs s).2).
Proof.
  revert s. induction wfs as [|wf wfs IH]; intros s Hnd Hin; cbn [hand_out_all]; [by apply rows_refl, _|].
  rewrite fmap_cons in Hnd. apply NoDup_cons in Hnd as [Hni Hnd]. apply Forall_cons in Hin as [Hwf Hin].
  pose proof (hand_out_run_rows op wf s Hwf) as H1.
  specialize (IH (hand_out_run wf s).2 Hnd).
  destruct (hand_out_run wf s) as [st s1] eqn:E. cbn [snd] in *.
  destruct (hand_out_all wfs s1) as [sts s2]. cbn [snd] in *.
  eapply rows_trans; [apply _|exact H1|]. apply IH.
  injection E as <- <-. apply Forall_forall. intros x Hx. rewrite Forall_forall in Hin. cbn.
  rewrite jlookup_insert_ne; [by apply Hin|]. intros He. apply Hni. rewrite He.
  by apply (list_elem_of_fmap_2 (fun wf => ri_workflowId (wf_ident wf))).
Qed.

Lemma values_rows s : db_ok s ->
  NoDup ((fun wf => ri_workflowId (wf_ident wf)) <$> jm_values (db_workflows s)) /\
  Forall (fun wf => db_workflows s !! ri_workflowId (wf_ident wf) = Some wf) (jm_values (db_workflows s)).
Proof.
  intros [Hw Hk].
  assert (Forall (fun kv => ri_workflowId (wf_ident kv.2) = kv.1 /\ db_workflows s !! kv.1 = Some kv.2)
    (jm_entries (db_workflows s))) as Hall.
  { apply Forall_forall. intros [k wf] Hin. apply jlookup_wf_elem in Hin as Hl; [|done].
    split; [by apply Hk|done]. }
  assert ((fun wf => ri_workflowId (wf_ident wf)) <$> jm_values (db_workflows s) = jm_keys (db_workflows s))
    as ->.
  { unfold jm_values, jm_keys. rewrite <- list_fmap_compose. apply list_fmap_ext.
    intros i x Hx. eapply Forall_lookup_1 in Hall; [|exact Hx]. apply Hall. }
  split; [exact Hw|]. unfold jm_values. apply Forall_fmap. eapply Forall_impl; [exact Hall|].
  cbn. intros x [H1 H2]. by rewrite H1.
Qed.

Lemma List_filter_sublist {A} (p : A -> bool) l : sublist (List.filter p l) l.
Proof. induction l as [|x l IH]; cbn; [constructor|]. destruct (p x); by constructor. Qed.

Lemma js_slice_sublist {A} (l : list A) from to : sublist (js_slice l from to) l.
Proof. unfold js_slice. etrans; [apply sublist_take|apply sublist_drop]. Qed.

Lemma listed_runs_sub f ns o d off lim s :
  listed_runs f ns o d off lim s ⊆+ jm_values (db_workflows s).
Proof.
  unfold listed_runs. etrans; [apply sublist_submseteq, js_slice_sublist|].
  unfold sortWorkflowRows. rewrite jsort_perm. apply sublist_submseteq, List_filter_sublist.
Qed.

Lemma listed_runs_rows f ns o d off lim s : db_ok s ->
  NoDup ((fun wf => ri_workflowId (wf_ident wf)) <$> listed_runs f ns o d off lim s) /\
  Forall (fun wf => db_workflows s !! ri_workflowId (wf_ident wf) = Some wf)
    (listed_runs f ns o d off lim s).
Proof.
  intros [Hnd Hall]%values_rows.
  destruct (submseteq_Permutation _ _ (listed_runs_sub f ns o d off lim s)) as [k Hk].
  rewrite Hk in Hnd, Hall. rewrite fmap_app, NoDup_app in Hnd. rewrite Forall_app in Hall.
  split; [apply Hnd|apply Hall].
Qed.

(** ** What each operation does to the rows *)

Lemma suspend_rows op now w st u s : (forall a, moves op w a Suspended = true) ->
  rows_map (quiet op) (db_workflows s) (db_workflows (suspend_body now w st u s)).
Proof.
  intros Hm. unfold suspend_body. destruct (db_workflows s !! w) as [wf|] eqn:E; [|by apply rows_refl, _].
  apply (rows_put _ _ _ wf); [done|]. split; [split; auto|].
  by eapply own_frame_step.
Qed.

Lemma fresh_rows op now g w e i s : (forall a, moves op w a Pending = true) ->
  rows_map (quiet op) (db_workflows s) (db_workflows (startFreshRun now g w e i s).2).
Proof.
  intros Hm. unfold startFreshRun.
  apply (fenced_state (fun s' => rows_map (quiet op) (db_workflows s) (db_workflows s')));
    [by apply rows_refl, _|].
  destruct (db_workflows s !! w) as [wf|] eqn:E; [|by apply rows_refl, _].
  destruct (from_option _ _ e); [by apply rows_refl, _|]. cbn.
  apply (rows_put _ _ _ wf); [done|]. split; [split; cbn; auto|]. split; cbn; [lia|done|done].
Qed.

Lemma reset_rows op now w l s :
  (forall a, isTerminalWorkflowStatus a = true -> moves op w a Running = true) ->
  rows_map (quiet op) (db_workflows s) (db_workflows (resetSteps now w l s).2).
Proof.
  intros Hm. unfold resetSteps. destruct (db_workflows s !! w) as [wf|] eqn:E; [|by apply rows_refl, _].
  destruct l as [|st l]; [by apply rows_refl, _|]. cbn [snd].
  apply (rows_put _ _ _ wf); [done|]. split.
  - split; try done. cbn. unfold reset_life, wf_status; cbn.
    destruct (isTerminalWorkflowStatus (lc_status (wf_life wf))) eqn:Et; [right; by apply Hm|by left].
  - split; [cbn; lia|done|]. intros s' r. unfold row_tasks. cbn [wf_steps with_life with_steps].
    rewrite jlookup_map, jlookup_delete_all. case_decide; [done|].
    destruct (wf_steps wf !! s') as [row|]; [|done]. cbn. unfold clear_ledger.
    by destruct (compensationStatus (st_ledger row)).
Qed.

Lemma begin_rows op now g w e t s :
  (forall a, active a = true -> moves op w a Compensating = true) ->
  rows_map (quiet op) (db_workflows s) (db_workflows (beginCompensation now g w e t s).2).
Proof.
  intros Hm. unfold beginCompensation.
  apply (fenced_state (fun s' => rows_map (quiet op) (db_workflows s) (db_workflows s')));
    [by apply rows_refl, _|].
  destruct (db_workflows s !! w) as [wf|] eqn:E; [|by apply rows_refl, _].
  destruct (wf_status wf) eqn:Es; try (by apply rows_refl, _);
    (apply (rows_put _ _ _ wf); [done|]; apply life_quiet; rewrite Es; by apply Hm).
Qed.

Lemma compensation_rows op now w st x e s :
  rows_map (quiet op) (db_workflows s) (db_workflows (save_compensation now w st x e s)).
Proof.
  unfold save_compensation. destruct (db_workflows s !! w) as [wf|] eqn:E; [|by apply rows_refl, _].
  destruct (wf_steps wf !! st) as [row|] eqn:Er; [|by apply rows_refl, _].
  apply (rows_put _ _ _ wf); [done|]. split; [apply put_step_rel|]. apply put_step_frame.
  intros r Hr. unfold row_tasks. by rewrite Er.
Qed.

Lemma attempts_workflows l s : db_workflows (foldl (fun s a => appendAttempt a s) s l) = db_workflows s.
Proof. revert s. induction l as [|a l IH]; intros s; cbn; [done|]. by rewrite IH. Qed.

Lemma checkpoint_rows op now g c s : starts_running op (cp_workflowId c) ->
  rows_map (quiet op) (db_workflows s) (db_workflows (checkpointStep now g c s).2).
Proof.
  intros Hm. unfold checkpointStep.
  apply (fenced_state (fun s' => rows_map (quiet op) (db_workflows s) (db_workflows s')));
    [by apply rows_refl, _|].
  destruct (db_workflows s !! cp_workflowId c) as [wf|] eqn:E; [|by apply rows_refl, _]. cbn [snd].
  rewrite <- (attempts_workflows (cp_attempts c) s) at 1. unfold write_outcome.
  destruct (cp_outcome c); [by apply writeStepResult_rows|by apply writeStepFailure_rows].
Qed.

Lemma task_rows op now w st i o s :
  rows_map (row_rel op) (db_workflows s) (db_workflows (write_task now w st i o s)).
Proof.
  unfold write_task. destruct (db_workflows s !! w) as [wf|] eqn:E; [|by apply rows_refl, _].
  destruct (writeTaskRow st i o now wf (db_arrays s)) as [wf' h] eqn:Ew. cbn.
  apply (rows_put _ _ _ wf); [done|]. unfold writeTaskRow in Ew.
  destruct (own_tasks wf st (db_arrays s)) as [ow h0]. destruct (ot_position ow !! i);
    injection Ew as <- <-; split; auto.
Qed.

(** A create either hands out an existing run or adds a new one. *)
Lemma create_rows op now g p s : db_ok s ->
  rows_map (quiet op) (db_workflows s) (db_workflows (createWorkflow now g p s).2) \/
  (db_workflows s !! cw_workflowId p = None /\
   (createWorkflow now g p s).2 = insert_run now p s).
Proof.
  intros [Hw Hk]. unfold createWorkflow.
  assert (forall (k : call (option WorkflowState)), (st_bind (create_fence now g p) (fun _ => k)) s = k s \/
    exists e, (st_bind (create_fence now g p) (fun _ => k)) s = (Err e, s)) as Hf.
  { intros k. unfold create_fence. destruct (truthy_str (guard_token g)); [|by left].
    destruct (cw_parentWorkflowId p) as [parent|]; [|right; by eexists].
    destruct (fenced_cases now parent g k s) as [(u & _ & ->)|(e & _ & ->)]; eauto. }
  match goal with |- context [st_bind (create_fence now g p) (fun _ => ?k)] =>
    destruct (Hf k) as [->|[e ->]] end; [|left; by apply rows_refl, _].
  cbn beta zeta. destruct (opt_else _ _) as [wf|] eqn:E.
  - left. assert (db_workflows s !! ri_workflowId (wf_ident wf) = Some wf) as Hwf.
    { assert (forall key, idempotencyClaim (resolveNamespace (cw_namespace p) s) (cw_workflowName p) key now s
        = Some wf -> db_workflows s !! ri_workflowId (wf_ident wf) = Some wf) as Hc.
      { intros key. unfold idempotencyClaim. destruct (db_idempotencyIndex s !! _) as [id|]; [|done].
        destruct (db_workflows s !! id) as [wf'|] eqn:Ei; [|done].
        destruct (_ && _); [|done]. intros [= <-]. by rewrite (Hk _ _ Ei). }
      unfold opt_else in E. destruct (cw_idempotencyKey p) as [key|].
      - destruct (truthy_str _); [destruct (idempotencyClaim _ _ _ _ _) eqn:Ei|]; simplify_eq.
        + by eapply Hc.
        + by rewrite (Hk _ _ E).
        + by rewrite (Hk _ _ E).
      - by rewrite (Hk _ _ E). }
    by apply (hand_out_run_rows op wf s).
  - right. split; [by apply opt_else_None in E|done].
Qed.

(** ** Purging: the loop deletes a selection of the entries *)
Definition purge_selection (fromMs toMs limit : Z) (entries : list (string * MutableWorkflow)) :=
  take (Z.to_nat limit) (List.filter (fun kv => purgeable fromMs toMs kv.2) entries).

Definition purge_all (sel : list (string * MutableWorkflow)) (s : DB) : DB :=
  foldl (fun s kv => purge_run kv.1 kv.2 s) s sel.

Lemma purge_loop_eq fromMs toMs limit entries deleted s :
  purge_loop fromMs toMs limit entries deleted s =
    let sel := purge_selection fromMs toMs (limit - deleted) entries in
    (deleted + Z.of_nat (length sel), purge_all sel s).
Proof.
  unfold purge_selection. cbn zeta. revert deleted s.
  induction entries as [|[id wf] rest IH]; intros deleted s; cbn [purge_loop List.filter].
  - rewrite take_nil. cbn. by rewrite Z.add_0_r.
  - rewrite Z.geb_leb. destruct (Z.leb_spec limit deleted).
    + replace (Z.to_nat (limit - deleted)) with 0%nat by lia. cbn. by rewrite Z.add_0_r.
    + cbn [snd]. destruct (purgeable fromMs toMs wf); [|apply IH]. rewrite IH.
      replace (Z.to_nat (limit - deleted)) with (S (Z.to_nat (limit - (deleted + 1)))) by lia.
      cbn [take length purge_all foldl fst snd]. f_equal. lia.
Qed.

Lemma forgetIndexes_workflows wf s : db_workflows (forgetIndexes wf s) = db_workflows s.
Proof.
  unfold forgetIndexes. destruct (wf_idempotencyKey wf), (ri_parentWorkflowId (wf_ident wf));
    repeat case_match; done.
Qed.

Lemma purge_run_workflows id wf s : db_workflows (purge_run id wf s) = delete id (db_workflows s).
Proof. unfold purge_run. cbn. by rewrite forgetIndexes_workflows. Qed.

Lemma purge_all_workflows sel s :
  db_workflows (purge_all sel s) = jm_delete_all sel.*1 (db_workflows s).
Proof.
  unfold purge_all, jm_delete_all. revert s. induction sel as [|[id wf] sel IH]; intros s; cbn; [done|].
  rewrite IH. by rewrite purge_run_workflows.
Qed.

(** ** The summary *)

(** Rows may disappear, the others stay as they are. *)
Record rows_shrink (m m' : jmap string MutableWorkflow) : Prop := {
  rsh_rows : forall id, m' !! id = m !! id \/ m' !! id = None;
  rsh_wf : jm_wf m -> jm_wf m';
}.

(** What the operation did to the rows, by kind of operation. *)
Definition rows_effect (op : storage_op) (now : Z) (s s' : DB) : Prop :=
  let m := db_workflows s in
  let m' := db_workflows s' in
  match op with
  | Fenced _ (FCreateWorkflow p) =>
      rows_map (quiet op) m m' \/ (m !! cw_workflowId p = None /\ s' = insert_run now p s)
  | Fenced _ (FSaveTask _ _ _ _) => rows_map (row_rel op) m m'
  | Free (OPurgeCompleted _) | Free OClear => rows_shrink m m'
  | _ => rows_map (quiet op) m m'
  end.

Section effects.
Variable localeCompare : string -> string -> Z.

(** The addressed run: its own move is one of the operation's. *)
Ltac own_move := unfold starts_running; intros; cbn [moves]; rewrite ?bool_decide_true by done;
  cbn [andb orb]; repeat match goal with H : _ = true |- _ => rewrite H end; try done.

Lemma fenced_rows now g op s : db_ok s ->
  rows_effect (Fenced g op) now s (run_fenced now g op s).2.
Proof.
  intros Hok. pose proof (fun op => rows_refl (quiet op) (db_workflows s)) as Hr.
  destruct op; cbn [run_fenced rows_effect]; rewrite ?void_state;
    try (unfold saveStepResult, saveStepFailure, saveTask, completeWorkflow, failWorkflow,
           tripwireWorkflow, cancelWorkflow, suspendWorkflow, setWorkflowMetadata,
           appendStreamChunk, saveStepAttempt, saveStepCompensation, appendEntry,
           appendPendingEntry, completePendingEntry, discardJournalEntries;
         match goal with |- rows_map ?R _ (db_workflows (st_bind (fence _ _ _) _ s).2) =>
           apply (fenced_state (fun s' => rows_map R (db_workflows s) (db_workflows s')));
             [apply rows_refl, _|] end; cbn [st_modify snd]).
  - by apply create_rows.
  - apply writeStepResult_rows; own_move.
  - unfold batchSaveStepResults, st_bind.
    pose proof (fence_all_state now g (js_set (sr_workflowId <$> records)) s) as Hs.
    destruct (fence_all _ _ _ s) as [[[]|e] s1]; cbn in Hs |- *; subst s1; [|apply Hr].
    apply (rows_fold (quiet _) (fun s r => writeStepResult now r s)).
    intros s' r Hin. apply writeStepResult_rows. unfold starts_running; cbn [moves].
    apply existsb_exists. exists r. rewrite bool_decide_true by done.
    split; [by apply list_elem_of_In|done].
  - apply writeStepFailure_rows; own_move.
  - by apply task_rows.
  - unfold complete_body. destruct (db_workflows s !! w) as [wf|] eqn:E; [|apply Hr].
    destruct (isTerminalWorkflowStatus _) eqn:Et; [apply Hr|]. apply end_run_rows; [done|]. own_move; by rewrite Et.
  - unfold fail_body. destruct (db_workflows s !! w) as [wf|] eqn:E; [|apply Hr].
    destruct (isTerminalWorkflowStatus _) eqn:Et; [apply Hr|]. apply end_run_rows; [done|]. own_move; by rewrite Et.
  - unfold tripwire_body. destruct (db_workflows s !! w) as [wf|] eqn:E; [|apply Hr].
    destruct (isTerminalWorkflowStatus _) eqn:Et; [apply Hr|]. apply end_run_rows; [done|]. own_move; by rewrite Et.
  - apply cancel_body_rows; [own_move|]. intros ->. intros id a Ha. cbn [moves].
    by rewrite orb_true_r, Ha.
  - apply suspend_rows; own_move.
  - unfold metadata_body. destruct (db_workflows s !! w) as [wf|] eqn:E; [|apply Hr].
    apply (rows_put _ _ _ wf); [done|]. split; [split; auto|by apply own_frame_same].
  - apply fresh_rows; own_move.
  - destruct (Streams.append _ _ _ _ _ _ _). apply Hr.
  - apply Hr.
  - apply checkpoint_rows; own_move.
  - apply begin_rows; own_move.
  - by apply compensation_rows.
  - apply Hr.
  - apply Hr.
  - destruct (completePending _ _ _ _ _). apply Hr.
  - apply Hr.
Qed.

Lemma load_rows op w s : db_ok s ->
  rows_map (quiet op) (db_workflows s) (db_workflows (loadWorkflow w s).2).
Proof.
  intros [_ Hk]. unfold loadWorkflow. destruct (db_workflows s !! w) as [wf|] eqn:E; [|by apply rows_refl, _].
  apply (hand_out_run_rows op wf s). by rewrite (Hk _ _ E).
Qed.

Lemma free_rows now op s : db_ok s -> rows_effect (Free op) now s (run_free localeCompare now op s).2.
Proof.
  intros Hok. pose proof (fun op => rows_refl (quiet op) (db_workflows s)) as Hr.
  destruct op; cbn [run_free rows_effect]; rewrite ?void_state; try (by apply Hr).
  - by apply load_rows.
  - apply reset_rows; own_move.
  - unfold tryLock. destruct (tryAcquire _ _ _ _ _). apply Hr.
  - unfold tryLockAndLoad, tryLock, st_bind. destruct (tryAcquire _ _ _ _ _) as [r t].
    pose proof (load_rows (Free (OTryLockAndLoad w lockDurationMs attemptId)) w (set_leases t s)) as Hl.
    destruct (loadWorkflow w (set_leases t s)) as [[] s1]; cbn in *; apply Hl; by destruct Hok.
  - unfold heartbeat. destruct (extend _ _ _ _ _). apply Hr.
  - unfold listWorkflows.
    match goal with |- context [hand_out_all ?l s] =>
      pose proof (hand_out_all_rows (Free (OListWorkflows filter namespace orderBy dir offset limit)) l s) as Hl;
      destruct (hand_out_all l s) end. apply Hl; apply listed_runs_rows, Hok.
  - unfold loadRunHistory. destruct (db_workflows s !! w) as [wf|] eqn:E; [|apply Hr]. cbn.
    apply (rows_put _ _ _ wf); [done|]. split; [split; auto|]. apply own_frame_same; cbn; [lia|done|done].
  - unfold purgeCompleted. destruct (purge_window now p) as [[f t] l]. rewrite purge_loop_eq. cbn [snd].
    rewrite purge_all_workflows. split; [|apply jm_wf_delete_all].
    intros id. rewrite jlookup_delete_all. case_decide; auto.
  - unfold createSignalToken. destruct (SignalTokens.create _ _ _). apply Hr.
  - unfold completeSignalToken. destruct (markCompleted _ _ _ _) as [[[[] ?]|] t]; try apply Hr.
    case_bool_decide; apply Hr.
  - unfold loadJournal. destruct (load _ _ _ _). apply Hr.
  - unfold findDueJournalSleeps. destruct (findDueSleeps _ _ _). apply Hr.
  - split; [|intros _; apply jm_wf_empty]. intros id. by right.
Qed.

Lemma run_storage_op_rows now op s : db_ok s ->
  rows_effect op now s (run_storage_op localeCompare now op s).
Proof. destruct op; intros; [by apply fenced_rows|by apply free_rows]. Qed.
End effects.

(** ** The rows stay well-formed *)
Lemma db_ok_new ns i : db_ok (new_storage ns i).
Proof. split; [apply jm_wf_empty|done]. Qed.

Lemma insert_run_workflows now p s : db_workflows (insert_run now p s) =
  <[cw_workflowId p := new_run now (resolveNamespace (cw_namespace p) s) p]> (db_workflows s).
Proof.
  unfold insert_run. destruct (cw_idempotencyKey p) as [key|], (cw_parentWorkflowId p);
    try destruct (truthy_str _); done.
Qed.

Lemma rows_map_ok R s s' :
  (forall id x y, R id x y -> wf_ident y = wf_ident x) ->
  rows_map R (db_workflows s) (db_workflows s') -> db_ok s -> db_ok s'.
Proof.
  intros HR [H K] [Hw Hk]. split; [unfold jm_wf; by rewrite K|].
  intros id wf' Hwf. specialize (H id). rewrite Hwf in H. inversion H as [wf ? Hx E|].
  subst. rewrite (HR _ _ _ Hx). by apply Hk.
Qed.

Lemma rows_effect_ok op now s s' : rows_effect op now s s' -> db_ok s -> db_ok s'.
Proof.
  assert (forall op id x y, quiet op id x y -> wf_ident y = wf_ident x) as Hq
    by (intros ? ? ? ? [[]]; done).
  assert (forall op id x y, row_rel op id x y -> wf_ident y = wf_ident x) as Hr
    by (intros ? ? ? ? []; done).
  intros H Hok. pose proof (rows_map_ok _ s s' (Hq op)) as Hm.
  destruct op as [g []|[]]; cbn in H; eauto using rows_map_ok.
  - destruct H as [H|[Hn ->]]; [eauto|]. destruct Hok as [Hw Hk]. split; rewrite insert_run_workflows.
    + by apply jm_wf_insert.
    + intros id wf. rewrite jlookup_insert. case_decide; [by intros [= <-]|apply Hk].
  - destruct H as [H Hwf], Hok as [Hw Hk]. split; [auto|].
    intros id wf E. destruct (H id) as [E'|E']; [|congruence]. apply Hk. congruence.
  - destruct H as [H Hwf], Hok as [Hw Hk]. split; [auto|].
    intros id wf E. destruct (H id) as [E'|E']; [|congruence]. apply Hk. congruence.
Qed.

Lemma run_storage_op_ok lc now op s : db_ok s -> db_ok (run_storage_op lc now op s).
Proof. intros H. eapply rows_effect_ok; [by apply run_storage_op_rows|done]. Qed.

Lemma run_storage_ops_ok lc sched s : db_ok s -> db_ok (run_storage_ops lc sched s).
Proof. apply run_ops_inv_all. intros. by apply run_storage_op_ok. Qed.

(** The storages a client can meet. *)
Definition reachable (lc : string -> string -> Z) (s : DB) : Prop :=
  exists ns i sched, s = run_storage_ops lc sched (new_storage ns i).

Lemma reachable_ok lc s : reachable lc s -> db_ok s.
Proof. intros (ns & i & sched & ->). apply run_storage_ops_ok, db_ok_new. Qed.

(** ** Parts of the storage a call leaves alone

    A view of the storage that none of the listed writes shows ([view] is the
    lease table or the store of task arrays below). *)
Section views.
Context {X : Type} (view : DB -> X).
Hypothesis view_workflows : forall x s, view (set_workflows x s) = view s.
Hypothesis view_journal : forall x s, view (set_journal x s) = view s.
Hypothesis view_tokens : forall x s, view (set_signalTokens x s) = view s.
Hypothesis view_streams : forall x s, view (set_streams x s) = view s.
Hypothesis view_events : forall x s, view (set_events x s) = view s.
Hypothesis view_signals : forall x s, view (set_signals x s) = view s.
Hypothesis view_attempts : forall x s, view (set_attempts x s) = view s.
Hypothesis view_history : forall x s, view (set_runHistory x s) = view s.
Hypothesis view_idempotency : forall x s, view (set_idempotencyIndex x s) = view s.
Hypothesis view_children : forall x s, view (set_children x s) = view s.

Ltac view_simp := unfold end_run, put_wf, emit_event, on_journal, putSignal, appendAttempt;
  repeat first [rewrite view_workflows | rewrite view_journal | rewrite view_tokens
    | rewrite view_streams | rewrite view_events | rewrite view_signals | rewrite view_attempts
    | rewrite view_history | rewrite view_idempotency | rewrite view_children]; try done.

Lemma view_fold {A} (f : DB -> A -> DB) l s :
  (forall s a, view (f s a) = view s) -> view (foldl f s l) = view s.
Proof. intros Hf. revert s. induction l as [|a l IH]; intros s; cbn; [done|]. by rewrite IH. Qed.

Lemma view_hand_out wf s : view (hand_out_run wf s).2 = view s.
Proof. unfold hand_out_run. destruct (toWorkflowState wf). cbn [snd]. view_simp. Qed.

Lemma view_hand_out_all wfs s : view (hand_out_all wfs s).2 = view s.
Proof.
  revert s. induction wfs as [|wf wfs IH]; intros s; cbn [hand_out_all]; [done|].
  pose proof (view_hand_out wf s) as H1. destruct (hand_out_run wf s) as [st s1].
  specialize (IH s1). destruct (hand_out_all wfs s1). cbn in *. congruence.
Qed.

Lemma view_load w s : view (loadWorkflow w s).2 = view s.
Proof.
  unfold loadWorkflow. destruct (db_workflows s !! w) as [wf|]; [|done].
  pose proof (view_hand_out wf s) as H. by destruct (hand_out_run wf s).
Qed.

Lemma view_result now p s : view (writeStepResult now p s) = view s.
Proof. unfold writeStepResult. destruct (db_workflows s !! _); view_simp. Qed.

Lemma view_failure now p s : view (writeStepFailure now p s) = view s.
Proof. unfold writeStepFailure. destruct (db_workflows s !! _); view_simp. Qed.

Lemma view_cancel fuel now w c s : view (cancel_body fuel now w c s) = view s.
Proof.
  revert w c s. induction fuel as [|fuel IH]; intros w c s; cbn [cancel_body]; [done|].
  destruct (db_workflows s !! w) as [wf|]; [|done]. destruct (cancellable wf); [|done].
  destruct c; [|view_simp]. rewrite (view_fold (fun s child => cancel_body fuel now child true s)) by done.
  view_simp.
Qed.

Lemma view_insert now p s : view (insert_run now p s) = view s.
Proof.
  unfold insert_run. destruct (cw_idempotencyKey p) as [key|], (cw_parentWorkflowId p);
    try destruct (truthy_str (Some key)); view_simp.
Qed.

Lemma view_forgetIndexes wf s : view (forgetIndexes wf s) = view s.
Proof.
  unfold forgetIndexes. destruct (wf_idempotencyKey wf), (ri_parentWorkflowId (wf_ident wf));
    repeat case_match; view_simp.
Qed.

Lemma view_create now g p s : view (createWorkflow now g p s).2 = view s.
Proof.
  unfold createWorkflow, st_bind at 1, create_fence.
  destruct (truthy_str _); [destruct (cw_parentWorkflowId p)|]; unfold fence;
    try destruct (checkFence _ _ _ _); cbn -[hand_out_run insert_run]; try done;
    (destruct (opt_else _ _) as [wf|]; [|apply view_insert];
     pose proof (view_hand_out wf s) as H; by destruct (hand_out_run wf s)).
Qed.

(** No fenced method but a task write shows. *)
Lemma view_fenced now g op s :
  match op with FSaveTask w st i o => view (write_task now w st i o s) = view s | _ => True end ->
  view (run_fenced now g op s).2 = view s.
Proof.
  intros Htask. destruct op; cbn [run_fenced]; rewrite ?void_state;
    unfold saveStepResult, saveStepFailure, saveTask, completeWorkflow, failWorkflow,
      tripwireWorkflow, cancelWorkflow, suspendWorkflow, setWorkflowMetadata, startFreshRun,
      appendStreamChunk, saveStepAttempt, checkpointStep, beginCompensation, saveStepCompensation,
      appendEntry, appendPendingEntry, completePendingEntry, discardJournalEntries;
    try (apply (fenced_state (fun s' => view s' = view s)); [done|]; cbn [st_modify snd]).
  - apply view_create.
  - apply view_result.
  - unfold batchSaveStepResults, st_bind.
    pose proof (fence_all_state now g (js_set (sr_workflowId <$> records)) s) as Hs.
    destruct (fence_all _ _ _ s) as [[[]|e] s1]; cbn in Hs |- *; subst s1; [|done].
    apply (view_fold (fun s r => writeStepResult now r s)). intros. apply view_result.
  - apply view_failure.
  - exact Htask.
  - unfold complete_body. repeat case_match; view_simp.
  - unfold fail_body. repeat case_match; view_simp.
  - unfold tripwire_body. repeat case_match; view_simp.
  - apply view_cancel.
  - unfold suspend_body. repeat case_match; view_simp.
  - unfold metadata_body. repeat case_match; view_simp.
  - destruct (db_workflows s !! w) as [wf|]; [|done]. destruct (from_option _ _ expectedRun); [done|].
    destruct (currentRunSummary wf). cbn [snd]. view_simp.
  - destruct (Streams.append _ _ _ _ _ _ _). cbn [snd]. view_simp.
  - view_simp.
  - destruct (db_workflows s !! _); [|done]. cbn [snd]. unfold write_outcome.
    destruct (cp_outcome c); rewrite ?view_result, ?view_failure;
      apply (view_fold (fun s a => appendAttempt a s)); intros; view_simp.
  - repeat case_match; cbn [snd]; view_simp.
  - unfold save_compensation. repeat case_match; view_simp.
  - view_simp.
  - view_simp.
  - destruct (completePending _ _ _ _ _). cbn [snd]. view_simp.
  - view_simp.
Qed.

(** The unfenced methods, those that work on locks or delete runs aside. *)
Definition lock_or_delete (op : free_op) : bool :=
  match op with
  | OTryLock _ _ _ | OTryLockAndLoad _ _ _ | OReleaseLock _ _ | OHeartbeat _ _ _
  | OPurgeCompleted _ | OClear => true
  | _ => false
  end.

Lemma view_free lc now op s : lock_or_delete op = false -> view (run_free lc now op s).2 = view s.
Proof.
  intros Hop. destruct op; try discriminate Hop; cbn [run_free]; rewrite ?void_state.
  - apply view_load.
  - unfold resetSteps. destruct (db_workflows s !! w); [|done]. destruct stepNames; [done|].
    cbn [snd]. view_simp.
  - unfold listWorkflows. match goal with |- context [hand_out_all ?l s] =>
      pose proof (view_hand_out_all l s) as Hl; by destruct (hand_out_all l s) end.
  - unfold loadRunHistory. destruct (db_workflows s !! w) as [wf|]; [|done].
    destruct (currentRunSummary wf). cbn [snd]. view_simp.
  - cbn [deliverSignal st_modify snd]. view_simp.
  - unfold createSignalToken. destruct (SignalTokens.create _ _ _). cbn [snd]. view_simp.
  - unfold completeSignalToken. destruct (markCompleted _ _ _ _) as [[[[] ?]|] t];
      try case_bool_decide; cbn [snd]; view_simp.
  - cbn [notifyStepStarted st_modify snd]. view_simp.
  - unfold subscribeToWorkflow. destruct (subscribe _ _). cbn [snd]. view_simp.
  - unfold loadJournal. destruct (load _ _ _ _). cbn [snd]. view_simp.
  - unfold findDueJournalSleeps. destruct (findDueSleeps _ _ _). cbn [snd]. view_simp.
  - cbn [deleteJournalEntry st_modify snd]. view_simp.
Qed.
End views.
