(* ===== verification/StorageLifecycle.v ===== *)
(** Lifecycle and fencing of runs: what a stale driver can do (nothing), how
    a run's status may move, what a terminal outcome survives, cascade
    cancel, and the methods that move a run on. *)
From S2P Require Import Prelude Leases Json Journal Streams SignalTokens Events RunState Storage StorageRows.
Open Scope string_scope.
Open Scope list_scope.
Open Scope Z_scope.

(** ** The lease table under storage operations *)
Definition leases_reach (t t' : InMemoryLeaseTable) : Prop := exists sched, t' = run_lease_ops sched t.

Lemma leases_reach_refl t : leases_reach t t.
Proof. by exists []. Qed.

Lemma leases_reach_step now op t : leases_reach t (run_lease_op now op t).
Proof. by exists [(now, op)]. Qed.

Lemma leases_reach_trans t1 t2 t3 : leases_reach t1 t2 -> leases_reach t2 t3 -> leases_reach t1 t3.
Proof. intros [a ->] [b ->]. exists (a ++ b). symmetry. apply run_ops_app. Qed.

Lemma purge_all_leases sel s : leases_reach (db_leases s) (db_leases (purge_all sel s)).
Proof.
  unfold purge_all. revert s. induction sel as [|[id wf] sel IH]; intros s; cbn [foldl];
    [apply leases_reach_refl|]. eapply leases_reach_trans; [|apply IH].
  cbn. rewrite (view_forgetIndexes db_leases) by done. apply (leases_reach_step 0 (OpForget id)).
Qed.

Lemma run_storage_op_leases lc now op s :
  leases_reach (db_leases s) (db_leases (run_storage_op lc now op s)).
Proof.
  unfold run_storage_op. destruct op as [g op|op]; cbn [exec_storage_op].
  { rewrite (view_fenced db_leases); try done; [apply leases_reach_refl|].
    destruct op; try done. unfold write_task.
    destruct (db_workflows s !! _); [|done]. by destruct (writeTaskRow _ _ _ _ _ _). }
  destruct (lock_or_delete op) eqn:Hop;
    [|rewrite (view_free db_leases) by done; apply leases_reach_refl].
  destruct op; try discriminate Hop; cbn [run_free]; rewrite ?void_state.
  - unfold tryLock. pose proof (leases_reach_step now (OpAcquire w lockDurationMs attemptId) (db_leases s)) as H.
    cbn in H. by destruct (tryAcquire _ _ _ _ _).
  - unfold tryLockAndLoad, tryLock, st_bind.
    pose proof (leases_reach_step now (OpAcquire w lockDurationMs attemptId) (db_leases s)) as H.
    cbn in H. destruct (tryAcquire _ _ _ _ _) as [r t]. cbn in H.
    assert (db_leases (loadWorkflow w (set_leases t s)).2 = t) as Hl by (by rewrite (view_load db_leases)).
    destruct (loadWorkflow w (set_leases t s)) as [[] s1]; cbn in *; by rewrite Hl.
  - apply (leases_reach_step now (OpRelease w guard)).
  - unfold heartbeat. pose proof (leases_reach_step now (OpExtend w lockDurationMs guard) (db_leases s)) as H.
    cbn in H. by destruct (extend _ _ _ _ _).
  - unfold purgeCompleted. destruct (purge_window now p) as [[f t] l]. rewrite purge_loop_eq.
    apply purge_all_leases.
  - apply (leases_reach_step 0 OpClear).
Qed.

Lemma storage_superseded lc sched s w n :
  superseded w n (db_leases s) -> superseded w n (db_leases (run_storage_ops lc sched s)).
Proof.
  apply (run_ops_inv_all _ (fun s => superseded w n (db_leases s))). intros now op s' H.
  destruct (run_storage_op_leases lc now op s') as [l ->]. by apply run_lease_ops_superseded.
Qed.

(** ** A rejected fence rejects the whole call *)
Lemma fenced_rejected now g op s :
  truthy_str (guard_token g) = true ->
  (exists w e, w ∈ fence_targets op /\ checkFence now w g (db_leases s) = Err e) ->
  exists e, run_fenced now g op s = (Err e, s).
Proof.
  intros Hg (w & e & Hw & He).
  assert (forall A (k : call A) w', w ∈ [w'] -> (do* fence now w' g in k) s = (Err e, s)) as Hf.
  { intros A k w' ->%list_elem_of_singleton. unfold st_bind, fence. by rewrite He. }
  assert (forall A (m : call A), m s = (Err e, s) -> exists e', void m s = (Err e', s)) as Hv.
  { intros A m Hm. exists e. unfold void, st_bind. by rewrite Hm. }
  destruct op; cbn [run_fenced fence_targets] in *; try (by eexists; apply Hf);
    try (by apply Hv, Hf).
  - apply Hv. unfold createWorkflow, create_fence. rewrite Hg.
    destruct (cw_parentWorkflowId p) as [parent|]; [|by apply not_elem_of_nil in Hw]. by apply Hf.
  - destruct (fence_all_Err now g (js_set (sr_workflowId <$> records)) s) as [e' He'].
    { exists w, e. by rewrite elem_of_js_set. }
    exists e'. unfold batchSaveStepResults. by apply bind_Err.
Qed.

(** C34. A stalled driver writes nothing: from any reachable storage, once
    another holder has taken the lock of [w] over from the driver whose fence
    token was number [n], every fenced method that writes on behalf of [w]
    under the old token - step, task and batch results, checkpoints,
    lifecycle transitions, child creates, journal and stream appends - throws
    and leaves the whole storage exactly as it was, however much later and
    whatever ran in between. *)
Theorem stale_driver_writes_nothing lc ns i before now w d a n r after now' op :
  let s0 := run_storage_ops lc before (new_storage ns i) in
  let s1 := (tryLock now w d a s0).2 in
  let s := run_storage_ops lc after s1 in
  1 <= n < nextFenceToken (db_leases s0) ->
  (tryLock now w d a s0).1 = Ok r -> acquired r = true -> tl_token r <> Some (str_of_Z n) ->
  w ∈ fence_targets op ->
  exists e, run_fenced now' (Some (mkFenceGuard (Some (str_of_Z n)))) op s = (Err e, s).
Proof.
  intros s0 s1 s Hn Hr Hacq Htok Hop.
  assert (superseded w n (db_leases s)) as Hs.
  { apply storage_superseded. subst s1. unfold tryLock in *.
    pose proof (acquire_supersedes now w d a (db_leases s0) n Hn) as Hsup.
    destruct (tryAcquire now w d a (db_leases s0)) as [r' t]. cbn in *. injection Hr as ->.
    apply Hsup; [|done]. intros ->. by apply Htok. }
  destruct (superseded_rejected now' w n _ Hs) as [e He].
  apply fenced_rejected; [|by exists w, e]. rewrite guard_token_str.
  apply str_of_Z_truthy.
Qed.

(** A small run for the witnesses. *)
Definition sample_create (w : string) (parent : option string) : CreateWorkflowParams :=
  mkCreate w "orders" None parent None None (JNum 7) None None None None None.

Lemma stale_driver_writes_nothing_witness :
  let s0 := run_storage_ops string_cmp
    [(0, Fenced None (FCreateWorkflow (sample_create "wf" None))); (0, Free (OTryLock "wf" 10 None))]
    (new_storage None "i") in
  let s := run_storage_ops string_cmp [(25, Free (ODeliverSignal "wf" "go" JNull))]
    (tryLock 20 "wf" 10 None s0).2 in
  exists e, run_fenced 30 (Some (mkFenceGuard (Some "1"))) (FCompleteWorkflow "wf" JNull) s = (Err e, s).
Proof.
  apply (stale_driver_writes_nothing string_cmp None "i"
    [(0, Fenced None (FCreateWorkflow (sample_create "wf" None))); (0, Free (OTryLock "wf" 10 None))]
    20 "wf" 10 None 1 (mkTryLock true (Some "2")) [(25, Free (ODeliverSignal "wf" "go" JNull))] 30
    (FCompleteWorkflow "wf" JNull)).
  - vm_compute. split; congruence.
  - reflexivity.
  - reflexivity.
  - vm_compute. congruence.
  - apply list_elem_of_here.
Defined.

(** ** Status moves *)
Lemma rows_effect_rel op now s s' id wf wf' :
  rows_effect op now s s' -> db_workflows s !! id = Some wf -> db_workflows s' !! id = Some wf' ->
  row_rel op id wf wf'.
Proof.
  intros H Hwf Hwf'.
  assert (forall R, rows_map R (db_workflows s) (db_workflows s') -> R id wf wf') as Hm.
  { intros R [HR _]. specialize (HR id). rewrite Hwf, Hwf' in HR. by inversion HR. }
  destruct op as [g []|[]]; cbn in H; try (by apply (Hm (quiet _))); try (by apply (Hm (row_rel _))).
  - destruct H as [H|[Hn ->]]; [by apply (Hm (quiet _))|].
    rewrite insert_run_workflows, jlookup_insert_ne in Hwf' by congruence. simplify_eq. reflexivity.
  - destruct H as [H _]. destruct (H id); [|congruence]. assert (wf' = wf) as -> by congruence. reflexivity.
  - destruct H as [H _]. destruct (H id); [|congruence]. assert (wf' = wf) as -> by congruence. reflexivity.
Qed.

(** C35. The run state machine: on every reachable storage, whatever method
    is called, a run that is still there keeps its identity and idempotency
    claim, and either none of its lifecycle fields (status, result, error,
    error tag, tripwire, start and end time) changed or its status moved
    along one of the moves of that method - a step outcome only starts a
    pending run, completion, failure and tripwire only end a run that has not
    ended, a cancel only ends a pending, running or suspended one, a reset
    only reopens an ended one - and only on the run the call addresses (a
    cascading cancel aside). *)
Theorem lifecycle_moves lc ns i sched now op id wf wf' :
  let s := run_storage_ops lc sched (new_storage ns i) in
  db_workflows s !! id = Some wf ->
  db_workflows (run_storage_op lc now op s) !! id = Some wf' ->
  wf_ident wf' = wf_ident wf /\ wf_idempotencyKey wf' = wf_idempotencyKey wf /\
  wf_idempotencyExpiresAt wf' = wf_idempotencyExpiresAt wf /\
  (wf_life wf' = wf_life wf \/ moves op id (wf_status wf) (wf_status wf') = true).
Proof.
  intros s Hwf Hwf'.
  assert (db_ok s) as Hok by apply run_storage_ops_ok, db_ok_new.
  by destruct (rows_effect_rel op now s _ id wf wf' (run_storage_op_rows lc now op s Hok) Hwf Hwf').
Qed.

Lemma lifecycle_moves_witness :
  let s := run_storage_ops string_cmp [(0, Fenced None (FCreateWorkflow (sample_create "wf" None)))]
    (new_storage None "i") in
  moves (Fenced None (FCompleteWorkflow "wf" (JNum 1))) "wf" Pending Completed = true.
Proof.
  set (s := run_storage_ops string_cmp [(0, Fenced None (FCreateWorkflow (sample_create "wf" None)))]
    (new_storage None "i")).
  set (wf := new_run 0 None (sample_create "wf" None)).
  destruct (lifecycle_moves string_cmp None "i"
    [(0, Fenced None (FCreateWorkflow (sample_create "wf" None)))] 1
    (Fenced None (FCompleteWorkflow "wf" (JNum 1))) "wf" wf
    (with_life (mkLife Completed (JNum 1) None None JUndef None (Some 1)) 1 wf))
    as (_ & _ & _ & [H|H]); [vm_compute; reflexivity|vm_compute; reflexivity|discriminate H|exact H].
Defined.

(** Operations that neither reopen run [id] nor delete runs. *)
Definition keeps_outcome (id : string) (op : storage_op) : Prop :=
  match op with
  | Fenced _ (FSuspendWorkflow w _ _) | Fenced _ (FStartFreshRun w _ _) | Free (OResetSteps w _) => w <> id
  | Free (OPurgeCompleted _) | Free OClear => False
  | _ => True
  end.

Lemma keeps_outcome_moves id op a b :
  keeps_outcome id op -> isTerminalWorkflowStatus a = true -> moves op id a b = false.
Proof.
  intros Hk Ha. assert (active a = false) as Hact by (by destruct a).
  assert (a <> Pending) as Hp by (by intros ->).
  destruct op as [g op|op]; destruct op; cbn [moves keeps_outcome] in *; rewrite ?Ha, ?Hact, ?andb_false_r;
    rewrite ?(bool_decide_false (a = Pending)) by done; rewrite ?andb_false_r; try done;
    try (rewrite bool_decide_false by congruence; done).
  apply not_true_iff_false. rewrite existsb_exists. intros (p & _ & H). by rewrite andb_false_r in H.
Qed.

Lemma rows_effect_stays op now s s' id wf :
  rows_effect op now s s' -> keeps_outcome id op -> db_workflows s !! id = Some wf ->
  is_Some (db_workflows s' !! id).
Proof.
  intros H Hk Hwf.
  assert (forall R, rows_map R (db_workflows s) (db_workflows s') -> is_Some (db_workflows s' !! id)) as Hm.
  { intros R [HR _]. specialize (HR id). rewrite Hwf in HR. inversion HR. by eexists. }
  destruct op as [g []|[]]; cbn in H, Hk; try done; try (by eapply Hm).
  destruct H as [H|[Hn ->]]; [by eapply Hm|]. rewrite insert_run_workflows, jlookup_insert.
  case_decide; [done|by eexists].
Qed.

(** A terminal outcome is final: once a run is completed, failed
    (cancelled included) or ended by a tripwire, no sequence of calls changes
    its status, result, error, error tag, tripwire reason or times, short of
    the three that reopen this run (suspend, fresh run, step reset) and the
    two that delete runs. A cancel is never overwritten by a late completion,
    and a completion never by a late failure. *)
Theorem terminal_outcome_final lc ns i before after id wf :
  let s := run_storage_ops lc before (new_storage ns i) in
  db_workflows s !! id = Some wf -> isTerminalWorkflowStatus (wf_status wf) = true ->
  Forall (fun c => keeps_outcome id c.2) after ->
  exists wf', db_workflows (run_storage_ops lc after s) !! id = Some wf' /\
    wf_life wf' = wf_life wf /\ wf_ident wf' = wf_ident wf.
Proof.
  intros s Hwf Ht Hafter.
  assert (db_ok s) as Hok by apply run_storage_ops_ok, db_ok_new.
  apply (run_ops_inv (run_storage_op lc) (fun c => keeps_outcome id c.2)
    (fun s => db_ok s /\ exists wf', db_workflows s !! id = Some wf' /\ wf_life wf' = wf_life wf /\
       wf_ident wf' = wf_ident wf)); [|done|by eauto].
  intros now op s1 Hop (Hok1 & wf1 & Hwf1 & Hl & Hi). split; [by apply run_storage_op_ok|].
  pose proof (run_storage_op_rows lc now op s1 Hok1) as Heff.
  destruct (rows_effect_stays op now s1 _ id wf1 Heff Hop Hwf1) as [wf2 Hwf2].
  exists wf2. split; [done|].
  destruct (rows_effect_rel op now s1 _ id wf1 wf2 Heff Hwf1 Hwf2) as [Hi2 _ _ [Hl2|Hm]].
  - split; congruence.
  - rewrite keeps_outcome_moves in Hm; [done|done|]. unfold wf_status in *. by rewrite Hl.
Qed.

Lemma terminal_outcome_final_witness :
  let s := run_storage_ops string_cmp
    [(0, Fenced None (FCreateWorkflow (sample_create "wf" None)));
     (1, Fenced None (FCancelWorkflow "wf" false))] (new_storage None "i") in
  exists wf', db_workflows (run_storage_ops string_cmp
    [(2, Fenced None (FCompleteWorkflow "wf" (JNum 1)));
     (3, Fenced None (FSuspendWorkflow "other" "s" (mkStepUpdate None None None None None None None
            None None None None None None None None)))] s) !! "wf" = Some wf' /\
    lc_error (wf_life wf') = Some CANCELLED_ERROR.
Proof.
  intros s.
  set (wf := with_life (cancelled_life 1 (wf_life (new_run 0 None (sample_create "wf" None)))) 1
    (new_run 0 None (sample_create "wf" None))).
  edestruct (terminal_outcome_final string_cmp None "i"
    [(0, Fenced None (FCreateWorkflow (sample_create "wf" None)));
     (1, Fenced None (FCancelWorkflow "wf" false))]
    [(2, Fenced None (FCompleteWorkflow "wf" (JNum 1)));
     (3, Fenced None (FSuspendWorkflow "other" "s" (mkStepUpdate None None None None None None None
            None None None None None None None None)))] "wf" wf) as (wf' & H1 & H2 & _).
  - vm_compute. reflexivity.
  - reflexivity.
  - constructor; [exact I|]. constructor; [cbn; discriminate|constructor].
  - exists wf'. split; [exact H1|]. rewrite H2. reflexivity.
Defined.

(** The documented exception list misses one: a late suspend does move a run
    out of a terminal status. *)
Example suspend_reopens :
  let s := run_storage_ops string_cmp
    [(0, Fenced None (FCreateWorkflow (sample_create "wf" None)));
     (1, Fenced None (FCancelWorkflow "wf" false));
     (2, Fenced None (FSuspendWorkflow "wf" "s" (mkStepUpdate (Some (Some SSleeping)) None None None
            None None None None None None None None None None None)))] (new_storage None "i") in
  wf_status <$> db_workflows s !! "wf" = Some Suspended.
Proof. vm_compute. reflexivity. Qed.
