(* ===== verification/StorageCascade.v ===== *)
(** Cascading cancel: the recursion of [cancelWorkflow] terminates, and it
    ends exactly the runs reachable from the cancelled one through runs that
    were still cancellable. [cascade_step] is the same cascade child by child,
    with other operations on the storage in between. *)
From S2P Require Import Prelude Leases Json Journal Streams SignalTokens Events RunState Storage StorageRows.
Open Scope string_scope.
Open Scope list_scope.
Open Scope Z_scope.

Section cascade.
Variable now : Z.

Definition cancelled (wf : MutableWorkflow) : MutableWorkflow :=
  with_life (cancelled_life now (wf_life wf)) now wf.

(** A row the call left alone, or one it ended. *)
Definition maybe_cancelled (_ : string) (wf wf' : MutableWorkflow) : Prop :=
  wf' = wf \/ (cancellable wf = true /\ wf' = cancelled wf).

#[local] Instance maybe_cancelled_refl id : Reflexive (maybe_cancelled id).
Proof. intros wf. by left. Qed.

#[local] Instance maybe_cancelled_trans id : Transitive (maybe_cancelled id).
Proof. intros a b c [->|[Ha ->]] [->|[Hb ->]]; unfold maybe_cancelled; auto. Qed.

Abbreviation step_rows s s' := (rows_map maybe_cancelled (db_workflows s) (db_workflows s')).

(** A run that exists and can still be cancelled. *)
Definition open_run (s : DB) (id : string) : Prop :=
  exists wf, db_workflows s !! id = Some wf /\ cancellable wf = true.

#[local] Instance open_run_dec s id : Decision (open_run s id).
Proof.
  unfold open_run. destruct (db_workflows s !! id) as [wf|].
  - destruct (cancellable wf) eqn:E; [left; eauto|right; intros (? & [= <-] & ?); congruence].
  - right. by intros (? & ? & _).
Defined.

Definition children_of (s : DB) (w : string) : list string := opt_or (db_children s !! w) [].

Definition end_one (w : string) (wf : MutableWorkflow) (s : DB) : DB :=
  end_run now w (cancelled_life now (wf_life wf)) (WorkflowFailed CANCELLED_ERROR now) wf s.

Abbreviation cascade_to fuel := (fun s child => cancel_body fuel now child true s).

(** One unfolding of the recursion. *)
Lemma cancel_unfold fuel w s :
  cancel_body (S fuel) now w true s =
    match db_workflows s !! w with
    | Some wf => if cancellable wf
                 then foldl (cascade_to fuel) (end_one w wf s) (children_of s w) else s
    | None => s
    end.
Proof. cbn [cancel_body]. by destruct (db_workflows s !! w). Qed.

Lemma end_one_rows w wf s : db_workflows s !! w = Some wf -> cancellable wf = true ->
  step_rows s (end_one w wf s).
Proof. intros Hw Hc. cbn. apply (rows_put _ _ _ wf); [done|]. by right. Qed.

Lemma cancel_rows fuel w s : step_rows s (cancel_body fuel now w true s).
Proof.
  revert w s. induction fuel as [|fuel IH]; intros w s; [by apply rows_refl, _|].
  rewrite cancel_unfold. destruct (db_workflows s !! w) as [wf|] eqn:E; [|by apply rows_refl, _].
  destruct (cancellable wf) eqn:Ec; [|by apply rows_refl, _].
  eapply rows_trans; [apply _|by apply (end_one_rows w wf)|]. by apply rows_fold; try apply _.
Qed.

Lemma fold_rows fuel l s : step_rows s (foldl (cascade_to fuel) s l).
Proof. apply rows_fold; try apply _. intros. apply cancel_rows. Qed.

Lemma cancel_children fuel w c s : db_children (cancel_body fuel now w c s) = db_children s.
Proof.
  revert w c s. induction fuel as [|fuel IH]; intros w c s; cbn [cancel_body]; [done|].
  destruct (db_workflows s !! w) as [wf|]; [|done]. destruct (cancellable wf); [|done].
  destruct c; [|done].
  assert (forall l s', db_children (foldl (cascade_to fuel) s' l) = db_children s') as ->; [|done].
  induction l as [|x l IHl]; intros s'; cbn; [done|]. by rewrite IHl, IH.
Qed.

Lemma step_rows_open s s' id : step_rows s s' -> open_run s' id ->
  open_run s id /\ db_workflows s' !! id = db_workflows s !! id.
Proof.
  intros [H _] (wf' & Hwf' & Hc). specialize (H id). rewrite Hwf' in H.
  inversion H as [x y Hxy E1 E2|E1 E2]. destruct Hxy as [->|[_ ->]]; [|done].
  split; [by exists x|congruence].
Qed.

(** ** Fuel *)
Definition open_count (s : DB) : nat := length (base.filter (open_run s) (jm_keys (db_workflows s))).

Lemma filter_length_le {A} (P Q : A -> Prop) `{forall x, Decision (P x), forall x, Decision (Q x)} l :
  (forall x, P x -> Q x) -> (length (base.filter P l) <= length (base.filter Q l))%nat.
Proof.
  intros HPQ. induction l as [|x l IH]; [done|]. rewrite !filter_cons.
  repeat case_decide; cbn; try lia. exfalso. auto.
Qed.

Lemma filter_length_lt {A} (P Q : A -> Prop) `{forall x, Decision (P x), forall x, Decision (Q x)} l y :
  (forall x, P x -> Q x) -> y ∈ l -> Q y -> ~ P y ->
  (length (base.filter P l) < length (base.filter Q l))%nat.
Proof.
  intros HPQ Hin HQ HP. induction l as [|x l IH]; [by apply not_elem_of_nil in Hin|].
  rewrite !filter_cons. apply elem_of_cons in Hin as [->|Hin].
  - rewrite decide_False, decide_True by done. cbn. pose proof (filter_length_le P Q l HPQ). lia.
  - specialize (IH Hin). repeat case_decide; cbn; try lia. exfalso. auto.
Qed.

Lemma open_count_le s s' : step_rows s s' -> (open_count s' <= open_count s)%nat.
Proof.
  intros H. unfold open_count. rewrite (rm_keys _ _ _ H). apply filter_length_le.
  intros id Hid. by destruct (step_rows_open s s' id H Hid).
Qed.

Lemma end_one_closed w wf s : ~ open_run (end_one w wf s) w.
Proof. intros (wf' & Hwf' & Hc). cbn in Hwf'. rewrite jlookup_insert_eq in Hwf'. by simplify_eq. Qed.

Lemma open_count_end w wf s : db_workflows s !! w = Some wf -> cancellable wf = true ->
  (open_count (end_one w wf s) < open_count s)%nat.
Proof.
  intros Hw Hc. pose proof (end_one_rows w wf s Hw Hc) as H.
  unfold open_count. rewrite (rm_keys _ _ _ H). apply (filter_length_lt _ _ _ w).
  - intros id Hid. by destruct (step_rows_open _ _ id H Hid).
  - by eapply jlookup_key.
  - by exists wf.
  - apply end_one_closed.
Qed.

(** Above the number of open runs the fuel does not matter. *)
Lemma cancel_fuel_irrelevant f1 f2 w s :
  (open_count s < f1)%nat -> (open_count s < f2)%nat ->
  cancel_body f1 now w true s = cancel_body f2 now w true s.
Proof.
  revert f2 w s. induction f1 as [|f1 IH]; intros f2 w s H1 H2; [lia|].
  destruct f2 as [|f2]; [lia|]. rewrite !cancel_unfold.
  destruct (db_workflows s !! w) as [wf|] eqn:E; [|done].
  destruct (cancellable wf) eqn:Ec; [|done].
  pose proof (open_count_end w wf s E Ec) as Hlt.
  generalize (children_of s w). intros l.
  assert (open_count (end_one w wf s) < f1 /\ open_count (end_one w wf s) < f2)%nat as [Hf1 Hf2] by lia.
  revert Hf1 Hf2. generalize (end_one w wf s). induction l as [|x l IHl]; intros s' Hf1 Hf2; cbn; [done|].
  rewrite (IH f2) by done. apply IHl; (eapply Nat.le_lt_trans; [apply open_count_le, cancel_rows|done]).
Qed.

Lemma open_count_fuel s : (open_count s < cancel_fuel s)%nat.
Proof.
  unfold open_count, cancel_fuel. pose proof (length_filter (open_run s) (jm_keys (db_workflows s))) as H.
  unfold jm_keys in *. rewrite length_fmap in H. lia.
Qed.

(** The cascade terminates: the recursion depth the code needs never
    exceeds the number of runs that can still be cancelled, so with the fuel
    of the model, or any more, the result is the same - also when the parent
    links form a cycle. *)
Theorem cancel_fuel_enough extra w s :
  cancel_body (cancel_fuel s + extra) now w true s = cancel_body (cancel_fuel s) now w true s.
Proof. pose proof (open_count_fuel s). apply cancel_fuel_irrelevant; lia. Qed.

(** ** What the cascade ends *)

(** Reachable from [w] through open runs, by the parent index. *)
Inductive open_path (s : DB) : string -> string -> Prop :=
| path_here w : open_run s w -> open_path s w w
| path_child w c id : open_run s w -> c ∈ children_of s w -> open_path s c id -> open_path s w id.

Definition was_cancelled (s s' : DB) (id : string) : Prop :=
  exists wf, db_workflows s !! id = Some wf /\ cancellable wf = true /\
    db_workflows s' !! id = Some (cancelled wf).

(** A run the call ended has no open child left. *)
Definition closed_below (s s' : DB) (x : string) : Prop :=
  forall c, c ∈ children_of s x -> ~ open_run s' c.

Lemma not_open_mono s s' id : step_rows s s' -> ~ open_run s id -> ~ open_run s' id.
Proof. intros H Hn Ho. by destruct (step_rows_open s s' id H Ho). Qed.

Lemma was_cancelled_cases s s' id : step_rows s s' -> open_run s id ->
  open_run s' id \/ was_cancelled s s' id.
Proof.
  intros [H _] (wf & Hwf & Hc). specialize (H id). rewrite Hwf in H.
  inversion H as [x y Hxy E1 E2|E1 E2]. simplify_eq.
  destruct Hxy as [->|[_ ->]]; [left|right]; exists wf; split_and?; congruence.
Qed.

Lemma open_path_mono s s' w id : step_rows s s' -> db_children s' = db_children s ->
  open_path s' w id -> open_path s w id.
Proof.
  intros H Hch. induction 1 as [w Ho|w c id Ho Hc Hp IH].
  - apply path_here. by apply (step_rows_open s s').
  - eapply path_child; [by apply (step_rows_open s s')| |exact IH].
    unfold children_of in *. by rewrite Hch in Hc.
Qed.

(** The outcome of a cascade from [w]: it ends only what is reachable, ends
    [w], and every run it ended is closed below. *)
Record cascaded (s s' : DB) (w : string) : Prop := {
  ca_rows : step_rows s s';
  ca_children : db_children s' = db_children s;
  ca_only : forall id, was_cancelled s s' id -> open_path s w id;
  ca_root : ~ open_run s' w;
  ca_below : forall x, was_cancelled s s' x -> closed_below s s' x;
}.

(** Through the children list: what the calls so far ended is reachable from
    one of the children, the children visited are closed. *)
Record folded (s s' : DB) (done : list string) : Prop := {
  fo_rows : step_rows s s';
  fo_children : db_children s' = db_children s;
  fo_only : forall id, was_cancelled s s' id -> exists c, c ∈ done /\ open_path s c id;
  fo_done : forall c, c ∈ done -> ~ open_run s' c;
  fo_below : forall x, was_cancelled s s' x -> closed_below s s' x;
}.

Lemma was_cancelled_split s s1 s2 id : step_rows s s1 -> step_rows s1 s2 ->
  was_cancelled s s2 id -> was_cancelled s s1 id \/ was_cancelled s1 s2 id.
Proof.
  intros [H1 _] [H2 _] (wf & Hwf & Hc & H). specialize (H1 id). rewrite Hwf in H1.
  inversion H1 as [x y Hxy E1 E2|E1 E2]. simplify_eq.
  destruct Hxy as [->|[_ ->]]; [right|left]; exists wf; split_and!; congruence.
Qed.

Lemma folded_step s s1 s2 done c : folded s s1 done -> cascaded s1 s2 c -> folded s s2 (done ++ [c]).
Proof.
  intros [R1 C1 O1 D1 B1] [R2 C2 O2 Root2 B2].
  split; [by eapply rows_trans; [apply _|exact R1|exact R2]|congruence|..].
  - intros id [H|H]%(was_cancelled_split s s1 s2); [| |done..].
    + destruct (O1 id H) as (c' & Hc' & Hp). exists c'. split; [|done]. apply elem_of_app. by left.
    + exists c. split; [apply elem_of_app; right; apply list_elem_of_here|].
      eapply open_path_mono; [exact R1|done|by apply O2].
  - intros c' [Hc'|Hc'%list_elem_of_singleton]%elem_of_app; [|by subst].
    by apply (not_open_mono s1); [|apply D1].
  - intros x [H|H]%(was_cancelled_split s s1 s2) c' Hc'; [| |done..].
    + apply (not_open_mono s1); [done|]. by apply (B1 x H).
    + apply (B2 x H). unfold children_of in *. by rewrite C1.
Qed.

Lemma was_cancelled_irrefl s id : ~ was_cancelled s s id.
Proof.
  intros (wf & Hwf & Hc & Hwf'). assert (wf = cancelled wf) as E by congruence.
  rewrite E in Hc. done.
Qed.

Lemma end_one_only w wf s id : was_cancelled s (end_one w wf s) id -> id = w.
Proof.
  intros H. destruct (decide (w = id)) as [|Hne]; [done|].
  destruct (was_cancelled_irrefl s id). destruct H as (wf' & Hwf' & Hc & H). exists wf'.
  cbn in H. by rewrite jlookup_insert_ne in H.
Qed.

Lemma cancel_cascaded fuel w s : (open_count s < fuel)%nat ->
  cascaded s (cancel_body fuel now w true s) w.
Proof.
  revert w s. induction fuel as [|fuel IH]; intros w s Hf; [lia|].
  assert (~ open_run s w -> cascaded s s w) as Hskip.
  { intros Hn. split; [by apply rows_refl, _|done| |done|];
      intros x Hx; by apply was_cancelled_irrefl in Hx. }
  rewrite cancel_unfold. destruct (db_workflows s !! w) as [wf|] eqn:E.
  2:{ apply Hskip. intros (wf & Hwf & _). congruence. }
  destruct (cancellable wf) eqn:Ec.
  2:{ apply Hskip. intros (wf' & Hwf' & ?). congruence. }
  set (s1 := end_one w wf s).
  pose proof (end_one_rows w wf s E Ec) as R1.
  assert (forall done rest s2, folded s1 s2 done ->
    folded s1 (foldl (cascade_to fuel) s2 rest) (done ++ rest)) as Hfold.
  { intros done rest. revert done. induction rest as [|c rest IHr]; intros done s2 H; cbn.
    - by rewrite app_nil_r.
    - replace (done ++ c :: rest) with ((done ++ [c]) ++ rest) by (by rewrite <- app_assoc).
      apply IHr. eapply folded_step; [exact H|]. apply IH.
      assert (open_count s1 < open_count s)%nat by (by apply open_count_end).
      pose proof (open_count_le _ _ (fo_rows _ _ _ H)). lia. }
  destruct (Hfold [] (children_of s w) s1) as [R2 C2 O2 D2 B2].
  { split; [by apply rows_refl, _|done| |by intros c ?%not_elem_of_nil|];
      intros x Hx; by apply was_cancelled_irrefl in Hx. }
  cbn [app] in *. set (s2 := foldl _ s1 _) in *.
  split.
  - by eapply rows_trans; [apply _|exact R1|exact R2].
  - by rewrite C2.
  - intros id [H|H]%(was_cancelled_split s s1 s2); [| |done..].
    + assert (id = w) as ->; [|apply path_here; by exists wf].
      by apply (end_one_only w wf s).
    + destruct (O2 id H) as (c & Hc & Hp). eapply path_child; [by exists wf|exact Hc|].
      by eapply open_path_mono; [exact R1| |].
  - apply (not_open_mono s1); [done|]. apply end_one_closed.
  - intros x [H|H]%(was_cancelled_split s s1 s2) c Hc; [| |done..]; [|by apply (B2 x H)].
    assert (x = w) as -> by (by apply (end_one_only w wf s)). by apply D2.
Qed.

(** Uninterrupted, the cascade ends exactly the runs that a path of parent
    links leads to from the cancelled run through runs that were all still
    pending, running or suspended, each with the cancel error, tag and time,
    and leaves every other run as it was. *)
Lemma cascade_exact w s :
  let s' := cancel_body (cancel_fuel s) now w true s in
  (forall id wf, open_path s w id -> db_workflows s !! id = Some wf ->
     db_workflows s' !! id = Some (cancelled wf)) /\
  (forall id, ~ open_path s w id -> db_workflows s' !! id = db_workflows s !! id).
Proof.
  intros s'. destruct (cancel_cascaded (cancel_fuel s) w s (open_count_fuel s)) as [R C O Root B].
  fold s' in R, C, O, Root, B. split.
  - intros id wf Hp Hwf. assert (was_cancelled s s' id) as (wf' & Hwf' & _ & H); [|congruence].
    clear wf Hwf. assert (forall x, open_path s x id -> ~ open_run s' x -> was_cancelled s s' id) as H.
    { intros x Hx. induction Hx as [x Ho|x c id Ho Hc Hx IH]; intros Hn.
      - by destruct (was_cancelled_cases s s' x R Ho).
      - destruct (was_cancelled_cases s s' x R Ho) as [|Hw]; [done|]. by apply IH, (B x Hw). }
    by apply (H w).
  - intros id Hn. destruct R as [R _]. specialize (R id).
    inversion R as [x y Hxy E1 E2|E1 E2]; [|done].
    destruct Hxy as [->|[Hc ->]]; [done|]. destruct Hn. apply O. by exists x.
Qed.
End cascade.

(** ** The cascade as it runs

    [cancelWorkflow] awaits the call for each child, so other operations come
    between two children. [ca_frames]: the loops over children that are
    running, innermost first, each with its position in the live set;
    [ca_ended]: the runs the cascade has ended; [ca_swept]: the loops that are
    through, with the children each found. *)
Record Cascade : Type := mkCascade {
  ca_frames : list (string * nat);
  ca_ended : list string;
  ca_swept : list (string * list string);
}.

(** One call up to its first [await]: it ends the run and opens its loop. *)
Definition enter (now : Z) (w : string) (k : Cascade) (s : DB) : Cascade * DB :=
  match db_workflows s !! w with
  | Some wf =>
      if cancellable wf
      then (mkCascade ((w, O) :: ca_frames k) (ca_ended k ++ [w]) (ca_swept k), end_one now w wf s)
      else (k, s)
  | None => (k, s)
  end.

(** The innermost loop takes its next child, or is through. *)
Definition cascade_step (now : Z) (k : Cascade) (s : DB) : Cascade * DB :=
  match ca_frames k with
  | [] => (k, s)
  | (p, i) :: frames =>
      match children_of s p !! i with
      | Some c => enter now c (mkCascade ((p, S i) :: frames) (ca_ended k) (ca_swept k)) s
      | None => (mkCascade frames (ca_ended k) (ca_swept k ++ [(p, children_of s p)]), s)
      end
  end.

Definition start_cascade (now : Z) (w : string) (s : DB) : Cascade * DB := enter now w (mkCascade [] [] []) s.

Inductive own_step : Cascade * DB -> Cascade * DB -> Prop :=
| own_step_at now k s : ca_frames k <> [] -> own_step (k, s) (cascade_step now k s).

(** What other operations may do between two steps: create runs, add
    children, end runs; not bring a run back that had ended. *)
Definition known_run (s : DB) (id : string) : Prop :=
  is_Some (db_workflows s !! id) \/ exists p, id ∈ children_of s p.

Record others (s s' : DB) : Prop := {
  ot_children : forall p, children_of s p `prefix_of` children_of s' p;
  ot_known : forall id, known_run s id -> known_run s' id;
  ot_ended : forall id, known_run s id -> ~ open_run s id -> ~ open_run s' id;
}.

Inductive interleaved : Cascade * DB -> Cascade * DB -> Prop :=
| interleaved_own c c' : own_step c c' -> interleaved c c'
| interleaved_others k s s' : others s s' -> interleaved (k, s) (k, s').

(** *** Uninterrupted *)
Section alone.
Variable now : Z.

Inductive alone : Cascade * DB -> Cascade * DB -> Prop :=
| alone_step k s : ca_frames k <> [] -> alone (k, s) (cascade_step now k s).

Lemma enter_runs fuel w k s : (open_count s < fuel)%nat -> exists ended swept,
  rtc alone (enter now w k s) (mkCascade (ca_frames k) ended swept, cancel_body fuel now w true s).
Proof.
  revert w k s. induction fuel as [|fuel IH]; intros w [frames ended0 swept0] s Hf; [lia|].
  rewrite cancel_unfold. unfold enter. destruct (db_workflows s !! w) as [wf|] eqn:E; [|by do 2 eexists].
  destruct (cancellable wf) eqn:Ec; [|by do 2 eexists]. cbn [ca_frames ca_ended ca_swept].
  pose proof (open_count_end now w wf s E Ec) as Hlt. set (s1 := end_one now w wf s) in *.
  enough (forall rest i s2 ended swept, drop i (children_of s w) = rest -> db_children s2 = db_children s ->
    (open_count s2 < fuel)%nat -> exists ended' swept',
    rtc alone (mkCascade ((w, i) :: frames) ended swept, s2)
      (mkCascade frames ended' swept', foldl (fun s child => cancel_body fuel now child true s) s2 rest)) as Hloop.
  { apply (Hloop _ O s1); [by rewrite drop_0|done|lia]. }
  clear ended0 swept0. intros rest. induction rest as [|c rest IHr]; intros i s2 ended swept Hr Hch Hc; cbn [foldl].
  - do 2 eexists. apply rtc_once. assert (children_of s2 w !! i = None) as Hi.
    { unfold children_of in *. rewrite Hch. apply lookup_ge_None. apply (f_equal length) in Hr. rewrite length_drop in Hr.
      cbn in Hr. lia. }
    pose proof (alone_step (mkCascade ((w, i) :: frames) ended swept) s2 ltac:(done)) as Hs.
    unfold cascade_step in Hs. cbn [ca_frames] in Hs. rewrite Hi in Hs. exact Hs.
  - assert (children_of s2 w !! i = Some c) as Hi.
    { unfold children_of in *. rewrite Hch. rewrite <- (Nat.add_0_r i), <- lookup_drop, Hr. done. }
    destruct (IH c (mkCascade ((w, S i) :: frames) ended swept) s2 Hc) as (ended1 & swept1 & H1).
    destruct (IHr (S i) (cancel_body fuel now c true s2) ended1 swept1) as (ended' & swept' & H2).
    + rewrite <- Nat.add_1_r, <- drop_drop, Hr. done.
    + by rewrite cancel_children.
    + eapply Nat.le_lt_trans; [eapply open_count_le, cancel_rows|exact Hc].
    + exists ended', swept'. eapply rtc_l; [|etrans; [exact H1|exact H2]].
      pose proof (alone_step (mkCascade ((w, i) :: frames) ended swept) s2 ltac:(done)) as Hs.
      unfold cascade_step in Hs. cbn [ca_frames ca_ended ca_swept] in Hs. by rewrite Hi in Hs.
Qed.
End alone.

(** *** With others in between *)
Section between.
Context (s0 : DB) (w : string).

(** A run that is there, or is listed as a child, and cannot be cancelled. *)
Definition shut (s : DB) (id : string) : Prop := known_run s id /\ ~ open_run s id.

Record cascade_inv (k : Cascade) (s : DB) : Prop := {
  ci_ended : forall x, x ∈ ca_ended k -> shut s x;
  ci_frames : forall x i, (x, i) ∈ ca_frames k -> x ∈ ca_ended k /\ (i <= length (children_of s x))%nat /\
    forall j c, (j < i)%nat -> children_of s x !! j = Some c -> shut s c;
  ci_loops : forall x, x ∈ ca_ended k -> x ∈ (ca_frames k).*1 \/ x ∈ (ca_swept k).*1;
  ci_swept : forall x l, (x, l) ∈ ca_swept k ->
    children_of s0 x `prefix_of` l /\ l `prefix_of` children_of s x /\ forall c, c ∈ l -> shut s c;
  ci_children : forall p, children_of s0 p `prefix_of` children_of s p;
  ci_parents : forall x, x ∈ ca_ended k -> x = w \/ exists p, p ∈ ca_ended k /\ x ∈ children_of s p;
}.

(** Closed runs stay closed and loops stay where they are. *)
Lemma inv_grows k s s' : others s s' -> cascade_inv k s -> cascade_inv k s'.
Proof.
  intros [Hch Hkn Hcl] [He Hf Hl Hs Hc Hp].
  assert (forall id, shut s id -> shut s' id) as Hshut by (intros id [Hk Hn]; split; [by apply Hkn|by apply Hcl]).
  split.
  - intros x Hx. by apply Hshut, He.
  - intros x i Hx. destruct (Hf x i Hx) as (Hin & Hi & Hj). split; [done|].
    split; [eapply Nat.le_trans; [exact Hi|apply prefix_length, Hch]|]. intros j c Hlt Hc'. apply Hshut, (Hj j); [done|].
    destruct (lookup_lt_is_Some_2 (children_of s x) j) as [c' E]; [lia|].
    pose proof (prefix_lookup_Some _ _ _ _ E (Hch x)). congruence.
  - done.
  - intros x l Hx. destruct (Hs x l Hx) as (H0 & H1 & H2). split_and!; [done| |].
    + etrans; [exact H1|apply Hch].
    + intros c Hc'. by apply Hshut, H2.
  - intros p. etrans; [apply Hc|apply Hch].
  - intros x Hx. destruct (Hp x Hx) as [?|(p & Hin & Hx')]; [by left|right]. exists p. split; [done|].
    destruct (Hch p) as [l ->]. apply elem_of_app. by left.
Qed.

Lemma inv_push k s c : cascade_inv k s -> shut s c -> c = w \/ (exists p, p ∈ ca_ended k /\ c ∈ children_of s p) ->
  cascade_inv (mkCascade ((c, O) :: ca_frames k) (ca_ended k ++ [c]) (ca_swept k)) s.
Proof.
  intros [He Hf Hl Hs Hc Hp] Hshut Hpar. split; cbn [ca_frames ca_ended ca_swept]; try done.
  - intros x [Hx| ->%list_elem_of_singleton]%elem_of_app; [by apply He|done].
  - intros x i [[= -> ->]|Hx]%elem_of_cons.
    + split; [apply elem_of_app; right; left|]. split; [lia|]. intros; lia.
    + destruct (Hf x i Hx) as (Hin & ?). split; [apply elem_of_app; by left|done].
  - intros x [Hx| ->%list_elem_of_singleton]%elem_of_app; [|left; left].
    destruct (Hl x Hx); [left; by right|by right].
  - intros x [Hx| ->%list_elem_of_singleton]%elem_of_app; [apply Hp in Hx|]; [destruct Hx as [?|(p & ? & ?)]|destruct Hpar as [?|(p & ? & ?)]];
      try (by left); right; exists p; (split; [apply elem_of_app; by left|done]).
Qed.

Lemma inv_next frames ended swept s p i c : cascade_inv (mkCascade ((p, i) :: frames) ended swept) s ->
  children_of s p !! i = Some c -> shut s c -> cascade_inv (mkCascade ((p, S i) :: frames) ended swept) s.
Proof.
  intros [He Hf Hl Hs Hc Hp] Hi Hshut. split; cbn [ca_frames ca_ended ca_swept] in *; try done.
  intros x j [[= -> ->]|Hx]%elem_of_cons; [|apply Hf; by right].
  destruct (Hf p i) as (Hin & Hlen & Hj); [left|]. split; [done|]. apply lookup_lt_Some in Hi as Hlt. split; [lia|].
  intros j c' Hji Hc'. destruct (decide (j = i)) as [->|Hne]; [congruence|]. apply (Hj j); [lia|done].
Qed.

Lemma inv_pop frames ended swept s p i : cascade_inv (mkCascade ((p, i) :: frames) ended swept) s ->
  children_of s p !! i = None -> cascade_inv (mkCascade frames ended (swept ++ [(p, children_of s p)])) s.
Proof.
  intros [He Hf Hl Hs Hc Hp] Hi. split; cbn [ca_frames ca_ended ca_swept] in *; try done.
  - intros x j Hx. apply Hf. by right.
  - intros x Hx. rewrite fmap_app, elem_of_app. cbn. destruct (Hl x Hx) as [[->|Hx']%elem_of_cons|Hx'].
    + right. right. left.
    + by left.
    + right. by left.
  - intros x l [Hx|[= -> ->]%list_elem_of_singleton]%elem_of_app; [by apply Hs|]. split_and!; [done|done|].
    intros c [j Hj]%list_elem_of_lookup. destruct (Hf p i) as (_ & _ & Hall); [left|]. apply (Hall j); [|done].
    apply lookup_lt_Some in Hj. apply lookup_ge_None in Hi. lia.
Qed.

(** The cascade's own write is one the others might make. *)
Lemma end_one_others now c wf s : db_workflows s !! c = Some wf -> cancellable wf = true -> others s (end_one now c wf s).
Proof.
  intros Hc Ho. pose proof (end_one_rows now c wf s Hc Ho) as R. split; [done| |].
  - intros id [[x Hx]|Hx]; [left|by right]. cbn. rewrite jlookup_insert. case_decide; by eexists.
  - intros id _ Hn Ho'. by destruct (step_rows_open now s _ id R Ho').
Qed.

Lemma ended_shut now c wf s : db_workflows s !! c = Some wf -> cancellable wf = true -> shut (end_one now c wf s) c.
Proof.
  intros Hc Ho. split; [|apply end_one_closed]. apply (ot_known _ _ (end_one_others now c wf s Hc Ho)). left. by eexists.
Qed.

Lemma own_step_inv k s k' s' : own_step (k, s) (k', s') -> cascade_inv k s -> cascade_inv k' s'.
Proof.
  intros H. inversion H as [now k1 s1 Hne E1 E2]. subst. clear H Hne. intros Hi. unfold cascade_step in E2.
  destruct k as [[|[p i] frames] ended swept]; cbn [ca_frames ca_ended ca_swept] in E2; [by injection E2 as <- <-|].
  destruct (children_of s p !! i) as [c|] eqn:Ec; [|injection E2 as <- <-; by eapply inv_pop].
  destruct (ci_frames _ _ Hi p i) as [Hp _]; [left|]. pose proof (list_elem_of_lookup_2 _ _ _ Ec) as Hc.
  set (k1 := mkCascade ((p, S i) :: frames) ended swept) in *.
  assert (c = w \/ exists p, p ∈ ca_ended k1 /\ c ∈ children_of s p) as Hpar by (right; by exists p).
  unfold enter in E2. destruct (db_workflows s !! c) as [wf|] eqn:E; [destruct (cancellable wf) eqn:Eo|]; injection E2 as <- <-.
  2, 3: eapply inv_next; [exact Hi|done|]; split; [right; by exists p|intros (wf' & ? & ?); congruence].
  pose proof (end_one_others now c wf s E Eo) as Hoth.
  pose proof (ended_shut now c wf s E Eo) as Hshut.
  apply (inv_push k1); [by eapply inv_next; [by apply (inv_grows _ s)|..]|done|done].
Qed.

Lemma interleaved_inv k s k' s' : rtc interleaved (k, s) (k', s') -> cascade_inv k s -> cascade_inv k' s'.
Proof.
  intros H. remember (k, s) as a eqn:Ea. remember (k', s') as b eqn:Eb. revert k s Ea.
  induction H as [a|a [k1 s1] b Hs _ IH]; intros k s ->; [by injection Eb as -> ->|].
  intros Hi. apply (IH Eb k1 s1 eq_refl). inversion Hs as [c c' Ho|k2 s2 s2' Ho]; subst.
  - by eapply own_step_inv.
  - by eapply inv_grows.
Qed.

Lemma start_inv now : cascade_inv (start_cascade now w s0).1 (start_cascade now w s0).2.
Proof.
  assert (cascade_inv (mkCascade [] [] []) s0) as Hnew.
  { split; cbn [ca_frames ca_ended ca_swept]; try done; by intros ? **; exfalso; eapply not_elem_of_nil. }
  unfold start_cascade, enter. destruct (db_workflows s0 !! w) as [wf|] eqn:E; [|done].
  destruct (cancellable wf) eqn:Ec; [|done].
  apply (inv_push (mkCascade [] [] [])); [by eapply inv_grows; [apply (end_one_others now w wf s0)|]|by apply ended_shut|by left].
Qed.

(** What was ended stays in the log. *)
Lemma interleaved_ended k s k' s' x : rtc interleaved (k, s) (k', s') -> x ∈ ca_ended k -> x ∈ ca_ended k'.
Proof.
  intros H. remember (k, s) as a eqn:Ea. remember (k', s') as b eqn:Eb. revert k s Ea.
  induction H as [a|a [k1 s1] b Hs _ IH]; intros k s ->; [by injection Eb as -> ->|].
  intros Hx. apply (IH Eb k1 s1 eq_refl). inversion Hs as [c c' Ho|k2 s2 s2' Ho]; subst; [|done].
  inversion Ho as [now k2 s2 _ E1 E2]. subst. unfold cascade_step in E2.
  destruct k as [[|[p i] frames] ended swept]; cbn [ca_frames ca_ended ca_swept] in *; [by injection E2 as <- <-|].
  destruct (children_of s p !! i) as [c|]; [|by injection E2 as <- <-]. unfold enter in E2.
  destruct (db_workflows s !! c) as [wf|]; [destruct (cancellable wf)|]; injection E2 as <- <-; [|done..].
  apply elem_of_app. by left.
Qed.
End between.


(** Runs with parents, for the examples. *)
Definition sample_run (w : string) (parent : option string) : CreateWorkflowParams :=
  mkCreate w "orders" None parent None None JNull None None None None None.

Definition sample_family : DB := run_storage_ops string_cmp
  [(0, Fenced None (FCreateWorkflow (sample_run "a" None)));
   (0, Fenced None (FCreateWorkflow (sample_run "b" (Some "a"))));
   (0, Fenced None (FCreateWorkflow (sample_run "c" (Some "b"))))] (new_storage None "i").

Example cascade_reaches_grandchild :
  (fun wf => (wf_status wf, lc_error (wf_life wf))) <$>
    db_workflows (cancel_body (cancel_fuel sample_family) 5 "a" true sample_family) !! "c"
  = Some (Failed, Some CANCELLED_ERROR).
Proof. vm_compute. reflexivity. Qed.

(** A child that has ended shields its own children: the contract promises
    every descendant, transitively. *)
Example cascade_stops_at_ended_child :
  let s := complete_body 3 "b" JNull sample_family in
  wf_status <$> db_workflows (cancel_body (cancel_fuel s) 5 "a" true s) !! "c" = Some Pending.
Proof. vm_compute. reflexivity. Qed.

(** *** A child that is added while the cascade runs *)
Lemma insert_others now p s : ~ known_run s (cw_workflowId p) -> others s (insert_run now p s).
Proof.
  intros Hnew. set (id := cw_workflowId p) in *.
  assert (forall x, children_of (insert_run now p s) x =
    if decide (cw_parentWorkflowId p = Some x) then set_add id (children_of s x) else children_of s x) as Hch.
  { intros x. unfold insert_run, children_of. destruct (cw_idempotencyKey p) as [key|]; [destruct (truthy_str (Some key))|];
      (destruct (cw_parentWorkflowId p) as [q|]; cbn; [rewrite jlookup_insert; repeat case_decide; simplify_eq; done|by case_decide]). }
  assert (forall x, db_workflows (insert_run now p s) !! x = db_workflows s !! x \/ x = id) as Hrows.
  { intros x. unfold insert_run. destruct (cw_idempotencyKey p) as [key|]; [destruct (truthy_str (Some key))|];
      (destruct (cw_parentWorkflowId p) as [q|]; cbn; rewrite jlookup_insert; case_decide; auto). }
  assert (forall x, children_of s x `prefix_of` children_of (insert_run now p s) x) as Hpre.
  { intros x. rewrite Hch. case_decide; [|done]. unfold set_add. case_bool_decide; [done|by eexists]. }
  assert (forall x, known_run s x -> x <> id) as Hne by (by intros x Hx ->).
  split; [done|..].
  - intros x Hx. pose proof (Hne x Hx) as Hxi. destruct Hx as [Hx|[q Hx]].
    + left. by destruct (Hrows x) as [->|].
    + right. exists q. destruct (Hpre q) as [l ->]. apply elem_of_app. by left.
  - intros x Hx Ho (wf & Hwf & Hc). apply Ho. exists wf. split; [|done].
    destruct (Hrows x) as [<-|]; [done|]. by apply Hne in Hx.
Qed.

Lemma own_steps n now c : rtc interleaved c (Nat.iter n (fun c => cascade_step now c.1 c.2) c).
Proof.
  induction n as [|n IH]; [done|]. etrans; [exact IH|]. rewrite Nat.iter_succ. destruct (Nat.iter n _ c) as [k s].
  cbn [fst snd]. destruct (decide (ca_frames k = [])) as [E|E]; [unfold cascade_step; by rewrite E|].
  by apply rtc_once, interleaved_own, own_step_at.
Qed.

Lemma not_known s c : db_workflows s !! c = None -> Forall (fun e => c ∉ e.2) (jm_entries (db_children s)) -> ~ known_run s c.
Proof.
  intros Hrow Hlist [[wf Hwf]|[p Hp]]; [congruence|]. unfold children_of in Hp.
  destruct (db_children s !! p) as [l|] eqn:E; [|by apply not_elem_of_nil in Hp]. apply jlookup_elem in E.
  rewrite Forall_forall in Hlist. by apply (Hlist _ E).
Qed.

Definition late_child : CreateWorkflowParams := sample_run "d" (Some "b").

(** The first child is ended, its own child [d] is added, the rest runs. *)
Definition interrupted : Cascade * DB :=
  let '(k, s) := cascade_step 5 (start_cascade 5 "a" sample_family).1 (start_cascade 5 "a" sample_family).2 in
  Nat.iter 7 (fun c => cascade_step 7 c.1 c.2) (k, insert_run 6 late_child s).

