(* ===== verification/StepQueue.v ===== *)
(** The step queue: [distributed/step-queue.ts] (task and parameter types,
    dead-letter error, [percentileCont]) and its reference implementation
    [distributed/in-memory-step-queue.ts].

    A coordinator enqueues one task per (workflow, step); workers claim
    tasks, and settle or give back what they claimed under the claim's token.
    Every method is one synchronous block and reads the clock once, [now].
    The objects of [tasks] are mutated in place, which here is an update of
    the map at the task's id; what [claim] and [get] hand out are copies. *)
From S2P Require Import Prelude Leases LeaderLeases Json.
From Stdlib Require Import QArith Qround.
Open Scope string_scope.
Open Scope list_scope.
Open Scope Z_scope.

(** ** Tasks *)
Inductive StepTaskStatus : Type := TPending | TRunning | TCompleted | TFailed.

#[global] Instance StepTaskStatus_eq_dec : EqDecision StepTaskStatus.
Proof. solve_decision. Defined.

(** What a task is enqueued with and never changes. *)
Record TaskSpec : Type := mkTaskSpec {
  ts_workflowId : string;
  ts_stepName : string;
  ts_needs : list string;
  ts_priority : Z;
  ts_input : json;
  ts_deps : list (string * json);
  ts_dependsOn : list string;
  ts_timeoutMs : option Z;
  ts_attempt : Z;
  ts_run : Z;
  ts_version : option string;
  ts_metadata : option (list (string * json));
  ts_concurrencyKey : option string;
  ts_concurrencyScope : option string;
  ts_concurrencyLimit : option Z;
}.

(** The claim a task is under. *)
Record TaskClaim : Type := mkTaskClaim {
  tc_claimedBy : option string;
  tc_claimedAt : option Z;
  tc_heartbeatAt : option Z;
  tc_claimToken : option string;
}.

(** How it ended. *)
Record TaskOutcome : Type := mkTaskOutcome {
  to_result : option json;
  to_error : option string;
  to_errorTag : option string;
  to_stepMetadata : option (list (string * json));
  to_durationMs : option Z;
  to_completedAt : option Z;
}.

Definition no_claim : TaskClaim := mkTaskClaim None None None None.
Definition no_outcome : TaskOutcome := mkTaskOutcome None None None None None None.

Record MutableTask : Type := mkTask {
  tk_id : string;
  tk_spec : TaskSpec;
  tk_namespace : option string;
  tk_createdAt : Z;
  tk_deliveries : Z;
  tk_status : StepTaskStatus;
  tk_claim : TaskClaim;
  tk_outcome : TaskOutcome;
  tk_consumedAt : option Z;
}.

(** What [claim] hands to a worker. *)
Record StepTask : Type := mkStepTask {
  sk_id : string;
  sk_spec : TaskSpec;
  sk_deliveries : Z;
  sk_status : StepTaskStatus;
  sk_createdAt : Z;
  sk_claimToken : option string;
}.

Definition toTask (t : MutableTask) : StepTask :=
  mkStepTask (tk_id t) (tk_spec t) (tk_deliveries t) (tk_status t) (tk_createdAt t)
    (tc_claimToken (tk_claim t)).

(** [StepTaskRecord]: the stored task less its namespace. *)
Definition hide_namespace (t : MutableTask) : MutableTask :=
  mkTask (tk_id t) (tk_spec t) None (tk_createdAt t) (tk_deliveries t) (tk_status t) (tk_claim t)
    (tk_outcome t) (tk_consumedAt t).

Definition with_status (st : StepTaskStatus) (c : TaskClaim) (d : Z) (o : TaskOutcome)
    (t : MutableTask) : MutableTask :=
  mkTask (tk_id t) (tk_spec t) (tk_namespace t) (tk_createdAt t) d st c o (tk_consumedAt t).

Definition DEFAULT_MAX_DELIVERIES : Z := 10.

Definition deadLetterError (maxDeliveries : Z) : string :=
  "poisoned: exceeded " +:+ str_of_Z maxDeliveries +:+ " deliveries".

Record InMemoryStepQueue : Type := mkQueue {
  q_tasks : jmap string MutableTask;
  activeByKey : jmap string string;
  q_counter : Z;
  q_maxDeliveries : Z;
}.

Definition new_queue (maxDeliveries : option Z) : InMemoryStepQueue :=
  mkQueue ∅ ∅ 0 (opt_or maxDeliveries DEFAULT_MAX_DELIVERIES).

Definition set_tasks (m : jmap string MutableTask) (q : InMemoryStepQueue) : InMemoryStepQueue :=
  mkQueue m (activeByKey q) (q_counter q) (q_maxDeliveries q).

(** The in-place update of the task object [t]. *)
Definition put_task (t : MutableTask) (q : InMemoryStepQueue) : InMemoryStepQueue :=
  set_tasks (<[tk_id t := t]> (q_tasks q)) q.

Definition activeKey (workflowId stepName : string) : string := workflowId +:+ "::" +:+ stepName.

Definition task_key (t : MutableTask) : string :=
  activeKey (ts_workflowId (tk_spec t)) (ts_stepName (tk_spec t)).

(** ** Enqueue *)
Record StepQueueEnqueueParams : Type := mkEnqueue {
  en_workflowId : string;
  en_stepName : string;
  en_input : json;
  en_deps : option (list (string * json));
  en_dependsOn : option (list string);
  en_timeoutMs : option Z;
  en_needs : option (list string);
  en_priority : option Z;
  en_namespace : option string;
  en_version : option string;
  en_attempt : option Z;
  en_run : option Z;
  en_metadata : option (list (string * json));
  en_concurrencyKey : option string;
  en_concurrencyScope : option string;
  en_concurrencyLimit : option Z;
}.

Definition task_id (n : Z) : string := "task-" +:+ str_of_Z n.
Definition claim_token (n : Z) : string := "claim-" +:+ str_of_Z n.

Definition new_task (now : Z) (id : string) (p : StepQueueEnqueueParams) : MutableTask :=
  mkTask id
    (mkTaskSpec (en_workflowId p) (en_stepName p) (opt_or (en_needs p) []) (opt_or (en_priority p) 5)
       (en_input p) (opt_or (en_deps p) []) (opt_or (en_dependsOn p) []) (en_timeoutMs p)
       (opt_or (en_attempt p) 1) (opt_or (en_run p) 1) (en_version p) (en_metadata p)
       (en_concurrencyKey p) (en_concurrencyScope p) (en_concurrencyLimit p))
    (en_namespace p) now 0 TPending no_claim no_outcome None.

Definition enqueue (now : Z) (p : StepQueueEnqueueParams) (q : InMemoryStepQueue)
    : string * InMemoryStepQueue :=
  let key := activeKey (en_workflowId p) (en_stepName p) in
  match activeByKey q !! key with
  | Some existing => (existing, q)
  | None =>
      let counter := q_counter q + 1 in
      let id := task_id counter in
      (id, mkQueue (<[id := new_task now id p]> (q_tasks q)) (<[key := id]> (activeByKey q)) counter
             (q_maxDeliveries q))
  end.

(** ** Claim *)
Record StepQueueClaimParams : Type := mkClaim {
  cl_workerId : string;
  cl_limit : Z;
  cl_capabilities : option (list string);
  cl_stepNames : option (list string);
  cl_versions : option (list string);
}.

Definition is_status (st : StepTaskStatus) (t : MutableTask) : bool := bool_decide (tk_status t = st).

Definition claimable (p : StepQueueClaimParams) (t : MutableTask) : bool :=
  is_status TPending t
  && match cl_stepNames p with
     | Some names => bool_decide (ts_stepName (tk_spec t) ∈ names)
     | None => true
     end
  && match cl_versions p, ts_version (tk_spec t) with
     | Some versions, Some v => bool_decide (v ∈ versions)
     | _, _ => true
     end
  && forallb (fun n => bool_decide (n ∈ opt_or (cl_capabilities p) [])) (ts_needs (tk_spec t)).

(** [b.priority - a.priority || a.createdAt - b.createdAt]. *)
Definition claim_order (a b : MutableTask) : Z :=
  let c := ts_priority (tk_spec b) - ts_priority (tk_spec a) in
  if c =? 0 then tk_createdAt a - tk_createdAt b else c.

(** The [(scope, key)] a task counts under, when both are non-empty. *)
Definition spec_slot (s : TaskSpec) : option string :=
  match ts_concurrencyScope s, ts_concurrencyKey s with
  | Some scope, Some key =>
      if truthy_str (Some scope) && truthy_str (Some key) then Some (scope +:+ "::" +:+ key) else None
  | _, _ => None
  end.

Definition slot_of (t : MutableTask) : option string := spec_slot (tk_spec t).

(** The slot and limit a claim of the task is held against. *)
Definition cap_of (t : MutableTask) : option (string * Z) :=
  match slot_of t, ts_concurrencyLimit (tk_spec t) with
  | Some k, Some l => Some (k, l)
  | _, _ => None
  end.

Definition count_running (m : jmap string Z) (t : MutableTask) : jmap string Z :=
  match slot_of t with
  | Some k => if is_status TRunning t then <[k := opt_or (m !! k) 0 + 1]> m else m
  | None => m
  end.

Definition runningPerKey (q : InMemoryStepQueue) : jmap string Z :=
  foldl count_running ∅ (jm_values (q_tasks q)).

(** The task under a fresh claim. *)
Definition claimed_task (now : Z) (workerId : string) (n : Z) (t : MutableTask) : MutableTask :=
  with_status TRunning (mkTaskClaim (Some workerId) (Some now) None (Some (claim_token n)))
    (tk_deliveries t + 1) (tk_outcome t) t.

Definition claim_task (now : Z) (workerId : string) (t : MutableTask) (q : InMemoryStepQueue)
    : StepTask * InMemoryStepQueue :=
  let counter := q_counter q + 1 in
  let t' := claimed_task now workerId counter t in
  (toTask t', mkQueue (<[tk_id t' := t']> (q_tasks q)) (activeByKey q) counter (q_maxDeliveries q)).

Fixpoint claim_loop (now : Z) (p : StepQueueClaimParams) (ordered : list MutableTask)
    (running : jmap string Z) (claimed : list StepTask) (q : InMemoryStepQueue)
    : list StepTask * InMemoryStepQueue :=
  match ordered with
  | [] => (claimed, q)
  | task :: rest =>
      if Z.of_nat (length claimed) >=? cl_limit p then (claimed, q)
      else
        let take running :=
          let c := claim_task now (cl_workerId p) task q in
          claim_loop now p rest running (claimed ++ [c.1]) c.2 in
        match cap_of task with
        | Some (k, limit) =>
            let r := opt_or (running !! k) 0 in
            if r >=? limit then claim_loop now p rest running claimed q
            else take (<[k := r + 1]> running)
        | None => take running
        end
  end.

Definition claim_candidates (p : StepQueueClaimParams) (q : InMemoryStepQueue) : list MutableTask :=
  jsort claim_order (base.filter (fun t => claimable p t = true) (jm_values (q_tasks q))).

Definition claim (now : Z) (p : StepQueueClaimParams) (q : InMemoryStepQueue)
    : list StepTask * InMemoryStepQueue :=
  claim_loop now p (claim_candidates p q) (runningPerKey q) [] q.

(** ** Settling and giving back a claim *)
Definition isCurrentClaim (task : option MutableTask) (claimToken : option string) : bool :=
  match task with
  | Some t =>
      is_status TRunning t
      && (bool_decide (claimToken = None) || bool_decide (tc_claimToken (tk_claim t) = claimToken))
  | None => false
  end.

Definition backToPending (t : MutableTask) : MutableTask :=
  with_status TPending no_claim (tk_deliveries t) (tk_outcome t) t.

(** The shape of the four guarded writes: [f] on the task under the claim. *)
Definition on_claim (taskId : string) (claimToken : option string) (f : MutableTask -> MutableTask)
    (q : InMemoryStepQueue) : bool * InMemoryStepQueue :=
  match q_tasks q !! taskId with
  | Some t =>
      if isCurrentClaim (Some t) claimToken then (true, put_task (f t) q) else (false, q)
  | None => (false, q)
  end.

Definition release_task (t : MutableTask) : MutableTask :=
  let t := backToPending t in
  with_status (tk_status t) (tk_claim t) (Z.max 0 (tk_deliveries t - 1)) (tk_outcome t) t.

Definition release (taskId claimToken : string) : InMemoryStepQueue -> bool * InMemoryStepQueue :=
  on_claim taskId (Some claimToken) release_task.

Definition get (taskId : string) (q : InMemoryStepQueue) : option MutableTask :=
  hide_namespace <$> q_tasks q !! taskId.

Record StepQueueCompleteParams : Type := mkComplete {
  co_taskId : string;
  co_claimToken : option string;
  co_result : json;
  co_durationMs : Z;
  co_stepMetadata : option (list (string * json));
}.

Record StepQueueFailParams : Type := mkFail {
  fa_taskId : string;
  fa_claimToken : option string;
  fa_error : string;
  fa_errorTag : option string;
  fa_durationMs : Z;
  fa_stepMetadata : option (list (string * json));
}.

Definition completed_task (now : Z) (p : StepQueueCompleteParams) (t : MutableTask) : MutableTask :=
  let o := tk_outcome t in
  with_status TCompleted (tk_claim t) (tk_deliveries t)
    (mkTaskOutcome (Some (co_result p)) (to_error o) (to_errorTag o) (co_stepMetadata p)
       (Some (co_durationMs p)) (Some now)) t.

Definition complete (now : Z) (p : StepQueueCompleteParams)
    : InMemoryStepQueue -> bool * InMemoryStepQueue :=
  on_claim (co_taskId p) (co_claimToken p) (completed_task now p).

Definition beating_task (now : Z) (t : MutableTask) : MutableTask :=
  let c := tk_claim t in
  with_status (tk_status t) (mkTaskClaim (tc_claimedBy c) (tc_claimedAt c) (Some now) (tc_claimToken c))
    (tk_deliveries t) (tk_outcome t) t.

Definition heartbeat (now : Z) (taskId : string) (claimToken : option string)
    : InMemoryStepQueue -> bool * InMemoryStepQueue :=
  on_claim taskId claimToken (beating_task now).

Definition failed_task (now : Z) (p : StepQueueFailParams) (t : MutableTask) : MutableTask :=
  let o := tk_outcome t in
  with_status TFailed (tk_claim t) (tk_deliveries t)
    (mkTaskOutcome (to_result o) (Some (fa_error p)) (fa_errorTag p) (fa_stepMetadata p)
       (Some (fa_durationMs p)) (Some now)) t.

Definition fail (now : Z) (p : StepQueueFailParams) : InMemoryStepQueue -> bool * InMemoryStepQueue :=
  on_claim (fa_taskId p) (fa_claimToken p) (failed_task now p).

(** ** Sweeps *)
Inductive requeue_mode : Type :=
| ByWorker (workerId : string)
| Stale (olderThanMs : Z).

Record StepQueueRequeueResult : Type := mkRequeue { rq_requeued : Z; rq_deadLettered : Z }.

(** Whether the sweep takes the task. A running task always has a
    [claimedAt]; one without any activity is not taken. *)
Definition stuck (now : Z) (mode : requeue_mode) (t : MutableTask) : bool :=
  is_status TRunning t
  && match mode with
     | ByWorker w => bool_decide (tc_claimedBy (tk_claim t) = Some w)
     | Stale olderThanMs =>
         match opt_else (tc_heartbeatAt (tk_claim t)) (tc_claimedAt (tk_claim t)) with
         | Some lastActivity => lastActivity <? now - olderThanMs
         | None => false
         end
     end.

Definition dead_letter (now : Z) (maxDeliveries : Z) (t : MutableTask) : MutableTask :=
  let c := tk_claim t in
  let o := tk_outcome t in
  with_status TFailed (mkTaskClaim (tc_claimedBy c) (tc_claimedAt c) (tc_heartbeatAt c) None)
    (tk_deliveries t)
    (mkTaskOutcome (to_result o) (Some (deadLetterError maxDeliveries)) (to_errorTag o)
       (to_stepMetadata o) (to_durationMs o) (Some now)) t.

Definition requeue_one (now : Z) (mode : requeue_mode)
    (acc : StepQueueRequeueResult * InMemoryStepQueue) (t : MutableTask)
    : StepQueueRequeueResult * InMemoryStepQueue :=
  let '(r, q) := acc in
  if stuck now mode t then
    if tk_deliveries t >=? q_maxDeliveries q
    then (mkRequeue (rq_requeued r) (rq_deadLettered r + 1),
          put_task (dead_letter now (q_maxDeliveries q) t) q)
    else (mkRequeue (rq_requeued r + 1) (rq_deadLettered r), put_task (backToPending t) q)
  else acc.

(** [leases] is the store the queue was configured with, as it stands. *)
Definition requeueStuck (now : Z) (mode : requeue_mode) (lease : option LeaderLease)
    (leases : option InMemoryLeaderLeases) : ST InMemoryStepQueue StoreError StepQueueRequeueResult :=
  let* _ := match lease, leases with
            | Some l, Some store => st_lift (assertCurrent l store)
            | _, _ => st_ret tt
            end in
  fun q => let '(r, q') := foldl (requeue_one now mode) (mkRequeue 0 0, q) (jm_values (q_tasks q)) in
           (Ok r, q').

(** [freeSlot]: give up the slot if the task [id] holds it. *)
Definition freeSlot (t : MutableTask) (q : InMemoryStepQueue) : InMemoryStepQueue :=
  if bool_decide (activeByKey q !! task_key t = Some (tk_id t))
  then mkQueue (q_tasks q) (delete (task_key t) (activeByKey q)) (q_counter q) (q_maxDeliveries q)
  else q.

Definition is_settled (t : MutableTask) : bool := is_status TCompleted t || is_status TFailed t.

Definition purge_task (completedBefore : Z) (acc : Z * InMemoryStepQueue)
    (e : string * MutableTask) : Z * InMemoryStepQueue :=
  let '(purged, q) := acc in
  let '(id, t) := e in
  if is_settled t && match to_completedAt (tk_outcome t) with
                     | Some at_ => at_ <? completedBefore
                     | None => false
                     end
  then (purged + 1, freeSlot t (set_tasks (delete id (q_tasks q)) q))
  else acc.

Definition purge (completedBefore : Z) (q : InMemoryStepQueue) : Z * InMemoryStepQueue :=
  foldl (purge_task completedBefore) (0, q) (jm_entries (q_tasks q)).

Definition consumed_task (now : Z) (t : MutableTask) : MutableTask :=
  mkTask (tk_id t) (tk_spec t) (tk_namespace t) (tk_createdAt t) (tk_deliveries t) (tk_status t)
    (tk_claim t) (tk_outcome t) (Some now).

Definition consume (now : Z) (taskId : string) (q : InMemoryStepQueue) : bool * InMemoryStepQueue :=
  match q_tasks q !! taskId with
  | Some t =>
      if bool_decide (tk_consumedAt t <> None) then (false, q)
      else if is_settled t
      then let t' := consumed_task now t in (true, freeSlot t' (put_task t' q))
      else (false, q)
  | None => (false, q)
  end.

Definition consume_key (now : Z) (workflowId : string) (acc : Z * InMemoryStepQueue)
    (stepName : string) : Z * InMemoryStepQueue :=
  let '(n, q) := acc in
  match activeByKey q !! activeKey workflowId stepName with
  | Some id => let '(b, q') := consume now id q in (if b : bool then n + 1 else n, q')
  | None => acc
  end.

Definition consumeSettled (now : Z) (workflowId : string) (stepNames : list string)
    (q : InMemoryStepQueue) : Z * InMemoryStepQueue :=
  foldl (consume_key now workflowId) (0, q) stepNames.

Definition getAllTasks (q : InMemoryStepQueue) : list MutableTask :=
  hide_namespace <$> jm_values (q_tasks q).

(** ** Metrics *)
(** Exact rationals where the code uses doubles. [None] is the arithmetic
    on [undefined] of an empty list. *)
Definition percentileCont (values : list Z) (p : Q) : option Q :=
  let sorted := jsort num_cmp values in
  let rank := Qmult p (inject_Z (Z.of_nat (length sorted) - 1)) in
  let lo := Qfloor rank in
  let hi := Qceiling rank in
  let at_ (i : Z) : option Z := if i <? 0 then None else sorted !! Z.to_nat i in
  match at_ lo, at_ hi with
  | Some a, Some b =>
      if lo =? hi then Some (inject_Z a)
      else Some (Qplus (inject_Z a) (Qmult (inject_Z (b - a)) (Qminus rank (inject_Z lo))))
  | _, _ => None
  end.

Record QueueMetrics : Type := mkMetrics {
  m_pending : Z;
  m_running : Z;
  m_completed : Z;
  m_failed : Z;
  m_avgWaitMs : Q;
  m_avgExecMs : Q;
  m_p95ExecMs : option Q;
}.

Record metrics_acc : Type := mkAcc {
  a_pending : Z; a_running : Z; a_completed : Z; a_failed : Z;
  a_waitSum : Z; a_waitN : Z; a_execTimes : list Z;
}.

Definition in_window (sinceMs untilMs : Z) (d : option Z) : bool :=
  match d with Some t => (sinceMs <=? t) && (t <=? untilMs) | None => false end.

Definition count_task (sinceMs untilMs : Z) (a : metrics_acc) (t : MutableTask) : metrics_acc :=
  let inW := in_window sinceMs untilMs in
  let o := tk_outcome t in
  if is_status TPending t && inW (Some (tk_createdAt t))
  then mkAcc (a_pending a + 1) (a_running a) (a_completed a) (a_failed a) (a_waitSum a) (a_waitN a)
         (a_execTimes a)
  else if is_status TRunning t && inW (tc_claimedAt (tk_claim t))
  then mkAcc (a_pending a) (a_running a + 1) (a_completed a) (a_failed a) (a_waitSum a) (a_waitN a)
         (a_execTimes a)
  else if is_settled t && inW (to_completedAt o)
  then
    let done := is_status TCompleted t in
    let '(ws, wn) := match tc_claimedAt (tk_claim t) with
                     | Some at_ => (a_waitSum a + (at_ - tk_createdAt t), a_waitN a + 1)
                     | None => (a_waitSum a, a_waitN a)
                     end in
    mkAcc (a_pending a) (a_running a) (a_completed a + if done then 1 else 0)
      (a_failed a + if done then 0 else 1) ws wn
      (match to_durationMs o with Some d => a_execTimes a ++ [d] | None => a_execTimes a end)
  else a.

Definition mean (sum n : Z) : Q := if 0 <? n then Qdiv (inject_Z sum) (inject_Z n) else 0%Q.

Definition metrics (now since : Z) (until : option Z) (q : InMemoryStepQueue) : QueueMetrics :=
  let untilMs := opt_or until now in
  let a := foldl (count_task since untilMs) (mkAcc 0 0 0 0 0 0 []) (jm_values (q_tasks q)) in
  let n := Z.of_nat (length (a_execTimes a)) in
  mkMetrics (a_pending a) (a_running a) (a_completed a) (a_failed a)
    (mean (a_waitSum a) (a_waitN a))
    (mean (foldl Z.add 0 (a_execTimes a)) n)
    (if 0 <? n then percentileCont (a_execTimes a) (19 # 20) else Some 0%Q).

(** ** Schedules *)
Inductive queue_op : Type :=
| QEnqueue (p : StepQueueEnqueueParams)
| QClaim (p : StepQueueClaimParams)
| QRelease (taskId claimToken : string)
| QComplete (p : StepQueueCompleteParams)
| QFail (p : StepQueueFailParams)
| QHeartbeat (taskId : string) (claimToken : option string)
| QRequeue (mode : requeue_mode) (lease : option LeaderLease) (leases : option InMemoryLeaderLeases)
| QPurge (completedBefore : Z)
| QConsume (taskId : string)
| QConsumeSettled (workflowId : string) (stepNames : list string).

Definition run_queue_op (now : Z) (op : queue_op) (q : InMemoryStepQueue) : InMemoryStepQueue :=
  match op with
  | QEnqueue p => (enqueue now p q).2
  | QClaim p => (claim now p q).2
  | QRelease id tok => (release id tok q).2
  | QComplete p => (complete now p q).2
  | QFail p => (fail now p q).2
  | QHeartbeat id tok => (heartbeat now id tok q).2
  | QRequeue mode lease leases => (requeueStuck now mode lease leases q).2
  | QPurge before => (purge before q).2
  | QConsume id => (consume now id q).2
  | QConsumeSettled w steps => (consumeSettled now w steps q).2
  end.

Definition run_queue_ops : list (Z * queue_op) -> InMemoryStepQueue -> InMemoryStepQueue :=
  run_ops run_queue_op.

(** ** Every method is a sequence of single-task moves *)
Definition on_slot (k : string) (t : MutableTask) : bool := bool_decide (slot_of t = Some k).

(** Running tasks of a concurrency slot. *)
Definition running_in (k : string) (q : InMemoryStepQueue) : Z :=
  jm_count (fun t => is_status TRunning t && on_slot k t) (q_tasks q).

(** Every task of the slot has a limit: then [claim]'s counter is exact. *)
Definition slot_limited (k : string) (q : InMemoryStepQueue) : Prop :=
  forall id t, q_tasks q !! id = Some t -> slot_of t = Some k ->
    ts_concurrencyLimit (tk_spec t) <> None.

(** The writes to a running task. *)
Inductive task_write (now maxDeliveries : Z) (t : MutableTask) : MutableTask -> Prop :=
| w_release : task_write now maxDeliveries t (release_task t)
| w_complete p : task_write now maxDeliveries t (completed_task now p t)
| w_fail p : task_write now maxDeliveries t (failed_task now p t)
| w_beat : task_write now maxDeliveries t (beating_task now t)
| w_requeue : tk_deliveries t < maxDeliveries -> task_write now maxDeliveries t (backToPending t)
| w_dead : maxDeliveries <= tk_deliveries t ->
    task_write now maxDeliveries t (dead_letter now maxDeliveries t).

(** The moves of schedules whose enqueues are all admitted by [adm]. *)
Section moves.
Context (adm : StepQueueEnqueueParams -> Prop).

Inductive move (now : Z) (q : InMemoryStepQueue) : InMemoryStepQueue -> Prop :=
| m_enqueue p :
    adm p ->
    activeByKey q !! activeKey (en_workflowId p) (en_stepName p) = None ->
    move now q (enqueue now p q).2
| m_claim w t :
    q_tasks q !! tk_id t = Some t -> tk_status t = TPending ->
    (forall k limit, cap_of t = Some (k, limit) -> slot_limited k q -> running_in k q < limit) ->
    move now q (claim_task now w t q).2
| m_write t t' :
    q_tasks q !! tk_id t = Some t -> tk_status t = TRunning ->
    task_write now (q_maxDeliveries q) t t' -> move now q (put_task t' q)
| m_drop t :
    q_tasks q !! tk_id t = Some t -> is_settled t = true ->
    move now q (freeSlot t (set_tasks (delete (tk_id t) (q_tasks q)) q))
| m_consume t :
    q_tasks q !! tk_id t = Some t -> is_settled t = true -> tk_consumedAt t = None ->
    move now q (freeSlot (consumed_task now t) (put_task (consumed_task now t) q)).

(** Tasks are stored under their ids. *)
Definition ids_ok (q : InMemoryStepQueue) : Prop :=
  jm_wf (q_tasks q) /\
  forall id t, q_tasks q !! id = Some t ->
    tk_id t = id /\ exists n, 1 <= n <= q_counter q /\ id = task_id n.

(** The tasks a loop runs over are still as they were when it started. *)
Definition snapshot (l : list MutableTask) (q : InMemoryStepQueue) : Prop :=
  NoDup (tk_id <$> l) /\ Forall (fun t => q_tasks q !! tk_id t = Some t) l.

Lemma freeSlot_tasks t q : q_tasks (freeSlot t q) = q_tasks q.
Proof. unfold freeSlot. by case_bool_decide. Qed.

Lemma freeSlot_counter t q : q_counter (freeSlot t q) = q_counter q.
Proof. unfold freeSlot. by case_bool_decide. Qed.

Lemma freeSlot_max t q : q_maxDeliveries (freeSlot t q) = q_maxDeliveries q.
Proof. unfold freeSlot. by case_bool_decide. Qed.

Lemma task_write_static now max t t' :
  task_write now max t t' ->
  tk_id t' = tk_id t /\ tk_spec t' = tk_spec t /\ tk_consumedAt t' = tk_consumedAt t.
Proof. by intros []. Qed.

Lemma task_id_inj m n : task_id m = task_id n -> m = n.
Proof. by intros ?%string_app_inj_l%(inj str_of_Z). Qed.

Lemma claim_token_inj m n : claim_token m = claim_token n -> m = n.
Proof. by intros ?%string_app_inj_l%(inj str_of_Z). Qed.

Lemma move_max now q q' : move now q q' -> q_maxDeliveries q' = q_maxDeliveries q.
Proof.
  intros []; cbn; rewrite ?freeSlot_max; try done. unfold enqueue. by case_match.
Qed.

Lemma snapshot_values q : ids_ok q -> snapshot (jm_values (q_tasks q)) q.
Proof.
  intros [Hwf Hid]. split.
  - unfold jm_wf, jm_keys in Hwf. unfold jm_values.
    assert (tk_id <$> (jm_entries (q_tasks q)).*2 = (jm_entries (q_tasks q)).*1) as ->; [|done].
    rewrite <- list_fmap_compose. apply list_fmap_ext. intros i [k t] Hi. cbn.
    apply list_elem_of_lookup_2, jlookup_wf_elem in Hi; [|done]. by apply Hid in Hi as [? _].
  - apply Forall_forall. intros t [k Hk]%jm_values_elem. apply jlookup_wf_elem in Hk; [|done].
    pose proof (Hid _ _ Hk) as [-> _]. done.
Qed.

Lemma snapshot_cons t l q :
  snapshot (t :: l) q -> q_tasks q !! tk_id t = Some t /\ (tk_id t ∉ (tk_id <$> l)) /\ snapshot l q.
Proof. intros [[Hn Hd]%NoDup_cons [Ht Hl]%Forall_cons]. by repeat split. Qed.

(** A step on one task leaves the others' snapshots true. *)
Lemma snapshot_frame id l q q' :
  snapshot l q -> id ∉ (tk_id <$> l) ->
  (forall i, i <> id -> q_tasks q' !! i = q_tasks q !! i) -> snapshot l q'.
Proof.
  intros [Hd Hl] Hid Hq. split; [done|]. rewrite Forall_forall in Hl |- *. intros t Ht.
  rewrite Hq; [by apply Hl|]. intros <-. by apply Hid, list_elem_of_fmap_2.
Qed.

Lemma put_task_frame t q i : i <> tk_id t -> q_tasks (put_task t q) !! i = q_tasks q !! i.
Proof. intros. cbn. by rewrite jlookup_insert_ne. Qed.

Lemma snapshot_sublist l l' q : snapshot l q -> l' ⊆+ l -> snapshot l' q.
Proof.
  intros [Hd Hl] Hs. split.
  - apply submseteq_Permutation in Hs as [k Hk]. rewrite Hk, fmap_app in Hd.
    by apply NoDup_app in Hd as [? _].
  - rewrite Forall_forall in Hl |- *. intros t Ht. apply Hl. by eapply elem_of_submseteq.
Qed.

Lemma candidates_submseteq p q : claim_candidates p q ⊆+ jm_values (q_tasks q).
Proof.
  unfold claim_candidates. rewrite jsort_perm. apply sublist_submseteq, sublist_filter.
Qed.

Lemma ids_ok_put t' q :
  ids_ok q -> (exists t, q_tasks q !! tk_id t' = Some t) -> ids_ok (put_task t' q).
Proof.
  intros [Hwf Hid] [t Ht]. split; [by apply jm_wf_insert|]. intros id u. cbn.
  rewrite jlookup_insert. case_decide as Hi; [|apply Hid].
  intros [= <-]. subst id. by pose proof (Hid _ _ Ht) as [_ ?].
Qed.

Lemma ids_ok_tasks q q' :
  ids_ok q -> q_tasks q' = q_tasks q -> q_counter q <= q_counter q' -> ids_ok q'.
Proof.
  intros [Hwf Hid] Ht Hc. unfold ids_ok. rewrite Ht. split; [done|]. intros id t H.
  apply Hid in H as (-> & n & ? & ->). split; [done|]. exists n. split; [lia|done].
Qed.

Lemma ids_ok_drop t q : ids_ok q -> ids_ok (freeSlot t (set_tasks (delete (tk_id t) (q_tasks q)) q)).
Proof.
  intros [Hwf Hid]. eapply ids_ok_tasks; [|apply freeSlot_tasks|rewrite freeSlot_counter; cbn; lia].
  split; [by apply jm_wf_delete|]. intros id u. cbn. rewrite jlookup_delete.
  case_decide; [done|apply Hid].
Qed.

Lemma ids_ok_move now q q' : ids_ok q -> move now q q' -> 0 <= q_counter q -> ids_ok q'.
Proof.
  intros Hq Hm Hc0. pose proof Hq as [Hwf Hid]. destruct Hm as [p _ Hp|w t Ht _ _|t t' Ht _ Hw|t Ht _|t Ht _ _].
  - unfold enqueue. rewrite Hp. cbn [snd]. split; [by apply jm_wf_insert|]. intros id u. cbn.
    rewrite jlookup_insert. case_decide as Hi.
    + intros [= <-]. split; [done|]. exists (q_counter q + 1). by split; [lia|].
    + intros (-> & n & ? & ->)%Hid. split; [done|]. exists n. by split; [lia|].
  - eapply (ids_ok_tasks (put_task (claimed_task now w (q_counter q + 1) t) q));
      [apply ids_ok_put; [done|by exists t]|done|cbn; lia].
  - apply ids_ok_put; [done|]. destruct (task_write_static _ _ _ _ Hw) as (-> & _). by exists t.
  - by apply ids_ok_drop.
  - eapply (ids_ok_tasks (put_task (consumed_task now t) q));
      [apply ids_ok_put; [done|by exists t]|by rewrite freeSlot_tasks|by rewrite freeSlot_counter].
Qed.

Lemma counter_move now q q' : move now q q' -> q_counter q <= q_counter q'.
Proof.
  intros []; cbn; rewrite ?freeSlot_counter; cbn; try lia. unfold enqueue. case_match; cbn; lia.
Qed.

Lemma claim_task_frame now w t q i :
  i <> tk_id t -> q_tasks (claim_task now w t q).2 !! i = q_tasks q !! i.
Proof. intros Hi. unfold claim_task. cbn [snd q_tasks]. by apply jlookup_insert_ne. Qed.

(** [claim]'s counter, read after the count, per slot. *)
Lemma count_running_fold l m k :
  opt_or (foldl count_running m l !! k) 0 =
    opt_or (m !! k) 0 + Z.of_nat (length (List.filter (fun t => is_status TRunning t && on_slot k t) l)).
Proof.
  revert m. induction l as [|t l IH]; intros m; cbn [foldl List.filter length]; [lia|].
  rewrite IH. unfold count_running, on_slot.
  destruct (slot_of t) as [k'|]; cbn [from_option];
    [|rewrite bool_decide_false by done; rewrite andb_false_r; lia].
  destruct (is_status TRunning t); cbn [andb]; [|lia].
  rewrite jlookup_insert. case_decide as Hk.
  - subst k'. rewrite bool_decide_true by done. cbn [length opt_or from_option]. unfold id. lia.
  - rewrite bool_decide_false by congruence. lia.
Qed.

Lemma runningPerKey_exact q k : opt_or (runningPerKey q !! k) 0 = running_in k q.
Proof. unfold runningPerKey. rewrite count_running_fold, jlookup_empty. cbn. unfold running_in, jm_count. lia. Qed.

Lemma running_in_claim now w k t q :
  q_tasks q !! tk_id t = Some t -> tk_status t = TPending ->
  running_in k (claim_task now w t q).2 = running_in k q + Z.b2z (on_slot k t).
Proof.
  intros Ht Hs. unfold running_in, claim_task. cbn [snd q_tasks]. rewrite jm_count_insert.
  cbn [tk_id claimed_task with_status]. rewrite Ht. cbn [from_option].
  unfold is_status at 2 3. rewrite Hs. cbn. unfold on_slot, slot_of, claimed_task, with_status. cbn.
  rewrite (bool_decide_false (TPending = TRunning)), (bool_decide_true (TRunning = TRunning)) by done.
  cbn [andb Z.b2z]. lia.
Qed.

Lemma slot_limited_claim now w k t q :
  q_tasks q !! tk_id t = Some t -> slot_limited k (claim_task now w t q).2 <-> slot_limited k q.
Proof.
  intros Ht. unfold slot_limited, claim_task. cbn [snd q_tasks]. split; intros H id u; specialize (H id).
  - intros Hu. destruct (decide (id = tk_id t)) as [->|Hne].
    + rewrite Ht in Hu. injection Hu as <-.
      apply (H (claimed_task now w (q_counter q + 1) t)). cbn. by rewrite jlookup_insert_eq.
    + apply H. cbn. by rewrite jlookup_insert_ne.
  - cbn. rewrite jlookup_insert. case_decide as Hi; [|apply H]. intros [= <-]. subst id. by apply (H t).
Qed.

Lemma claim_loop_moves now p l running claimed q :
  snapshot l q -> Forall (fun t => tk_status t = TPending) l ->
  (forall k, slot_limited k q -> opt_or (running !! k) 0 = running_in k q) ->
  rtc (move now) q (claim_loop now p l running claimed q).2.
Proof.
  revert running claimed q.
  induction l as [|t l IH]; intros running claimed q Hs Hp Hr; cbn [claim_loop]; [apply rtc_refl|].
  destruct (_ >=? cl_limit p); [apply rtc_refl|].
  apply snapshot_cons in Hs as (Ht & Hn & Hs). apply Forall_cons in Hp as [Hpt Hp].
  assert (snapshot l (claim_task now (cl_workerId p) t q).2) as Hs'.
  { eapply snapshot_frame; [exact Hs|exact Hn|]. intros i Hi. by apply claim_task_frame. }
  destruct (cap_of t) as [[k limit]|] eqn:Hcap.
  - destruct (_ >=? limit) eqn:Hlim; [by apply IH|]. apply rtc_l with (claim_task now (cl_workerId p) t q).2.
    + apply m_claim; [done..|]. rewrite Hcap. intros k' limit' [= <- <-] Hk. rewrite <- Hr by done. lia.
    + apply IH; [done..|]. intros k' Hk'. apply (slot_limited_claim _ _ _ _ _ Ht) in Hk'.
      rewrite running_in_claim by done. unfold on_slot.
      assert (slot_of t = Some k) as Hslot.
      { unfold cap_of in Hcap. repeat case_match; naive_solver. }
      rewrite Hslot. rewrite jlookup_insert. case_decide as Hk.
      * subst k'. rewrite bool_decide_true by done. cbn [opt_or from_option Z.b2z].
        rewrite <- Hr by done. done.
      * rewrite bool_decide_false by congruence. cbn [Z.b2z]. rewrite Hr by done. lia.
  - apply rtc_l with (claim_task now (cl_workerId p) t q).2.
    + apply m_claim; [done..|]. by rewrite Hcap.
    + apply IH; [done..|]. intros k' Hk'. apply (slot_limited_claim _ _ _ _ _ Ht) in Hk'.
      rewrite running_in_claim, Hr by done. unfold on_slot. rewrite bool_decide_false; [cbn; lia|].
      intros Hslot. unfold cap_of in Hcap. rewrite Hslot in Hcap.
      destruct (ts_concurrencyLimit (tk_spec t)) eqn:Hl; [done|]. by apply (Hk' _ _ Ht Hslot).
Qed.

Lemma candidates_pending p q : Forall (fun t => tk_status t = TPending) (claim_candidates p q).
Proof.
  apply Forall_forall. intros t [Hc _]%elem_of_jsort%list_elem_of_filter.
  unfold claimable in Hc. rewrite !andb_true_iff in Hc.
  destruct Hc as [[[Hc _] _] _]. by apply bool_decide_eq_true in Hc.
Qed.

Lemma candidates_snapshot p q : ids_ok q -> snapshot (claim_candidates p q) q.
Proof. intros H. eapply snapshot_sublist; [by apply snapshot_values|apply candidates_submseteq]. Qed.

Lemma claim_moves now p q : ids_ok q -> rtc (move now) q (claim now p q).2.
Proof.
  intros Hq. apply claim_loop_moves; [by apply candidates_snapshot|apply candidates_pending|].
  intros k _. apply runningPerKey_exact.
Qed.

Lemma requeue_moves now mode l r q :
  snapshot l q -> rtc (move now) q (foldl (requeue_one now mode) (r, q) l).2.
Proof.
  revert r q. induction l as [|t l IH]; intros r q Hs; cbn [foldl]; [apply rtc_refl|].
  apply snapshot_cons in Hs as (Ht & Hn & Hs). unfold requeue_one at 2.
  destruct (stuck now mode t) eqn:Hst; [|by apply IH].
  assert (tk_status t = TRunning) as Hrun.
  { unfold stuck, is_status in Hst. apply andb_true_iff in Hst as [H _]. by apply bool_decide_eq_true in H. }
  assert (forall t', task_write now (q_maxDeliveries q) t t' ->
    move now q (put_task t' q) /\ snapshot l (put_task t' q)) as Hw.
  { intros t' H. split; [by apply (m_write _ _ t)|]. eapply snapshot_frame; [done|exact Hn|].
    intros i Hi. apply put_task_frame. by destruct (task_write_static _ _ _ _ H) as (-> & _). }
  destruct (tk_deliveries t >=? q_maxDeliveries q) eqn:Hd.
  - destruct (Hw _ (w_dead now (q_maxDeliveries q) t ltac:(lia))). eapply rtc_l; [done|by apply IH].
  - destruct (Hw _ (w_requeue now (q_maxDeliveries q) t ltac:(lia))). eapply rtc_l; [done|by apply IH].
Qed.

Lemma on_claim_moves now id tok f q :
  ids_ok q -> (forall t, task_write now (q_maxDeliveries q) t (f t)) ->
  rtc (move now) q (on_claim id tok f q).2.
Proof.
  intros [_ Hid] Hf. unfold on_claim. destruct (q_tasks q !! id) as [t|] eqn:Ht; [|apply rtc_refl].
  destruct (isCurrentClaim _ _) eqn:Hc; [|apply rtc_refl]. apply rtc_once.
  pose proof (Hid _ _ Ht) as [<- _]. apply (m_write _ _ t); [done| |apply Hf].
  cbn in Hc. apply andb_true_iff in Hc as [Hr _]. by apply bool_decide_eq_true in Hr.
Qed.

Lemma consume_moves now id q : ids_ok q -> rtc (move now) q (consume now id q).2.
Proof.
  intros [_ Hid]. unfold consume. destruct (q_tasks q !! id) as [t|] eqn:Ht; [|apply rtc_refl].
  case_bool_decide as Hc; [apply rtc_refl|]. destruct (is_settled t) eqn:Hs; [|apply rtc_refl].
  pose proof (Hid _ _ Ht) as [<- _]. apply rtc_once, m_consume; [done..|].
  destruct (tk_consumedAt t); [|done]. by destruct Hc.
Qed.

Lemma purge_moves now before l n q :
  snapshot l.*2 q -> Forall (fun e => e.1 = tk_id e.2) l ->
  rtc (move now) q (foldl (purge_task before) (n, q) l).2.
Proof.
  revert n q. induction l as [|[id t] l IH]; intros n q Hs Hi; cbn [foldl]; [apply rtc_refl|].
  apply snapshot_cons in Hs as (Ht & Hn & Hs). apply Forall_cons in Hi as [Hid Hi]. cbn in Hid. subst id.
  unfold purge_task at 2. destruct (is_settled t) eqn:Hst; cbn [andb]; [|by apply IH].
  destruct (match to_completedAt (tk_outcome t) with Some _ => _ | None => _ end); [|by apply IH].
  eapply rtc_l; [by apply m_drop|]. apply IH; [|done].
  eapply snapshot_frame; [exact Hs|exact Hn|]. intros i Hne. rewrite freeSlot_tasks. cbn.
  by apply jlookup_delete_ne.
Qed.

Lemma rtc_moves_inv now (P : InMemoryStepQueue -> Prop) q q' :
  (forall a b, P a -> move now a b -> P b) -> P q -> rtc (move now) q q' -> P q'.
Proof. intros HP Hq Hr. induction Hr; eauto. Qed.

Definition counted (q : InMemoryStepQueue) : Prop := 0 <= q_counter q /\ ids_ok q.

Lemma counted_move now q q' : counted q -> move now q q' -> counted q'.
Proof.
  intros [H0 Hq] Hm. split; [pose proof (counter_move _ _ _ Hm); lia|by eapply ids_ok_move].
Qed.

Lemma consumeSettled_moves now w steps n q :
  counted q -> rtc (move now) q (foldl (consume_key now w) (n, q) steps).2.
Proof.
  revert n q. induction steps as [|step steps IH]; intros n q Hq; cbn [foldl]; [apply rtc_refl|].
  unfold consume_key at 2. destruct (activeByKey q !! activeKey w step) as [id|]; [|by apply IH].
  pose proof (consume_moves now id q (proj2 Hq)) as Hm. destruct (consume now id q) as [b q'].
  cbn [snd] in Hm. etrans; [exact Hm|]. apply IH.
  eapply rtc_moves_inv; [apply counted_move|exact Hq|exact Hm].
Qed.

Definition admitted (op : queue_op) : Prop :=
  match op with QEnqueue p => adm p | _ => True end.

(** The simulation: a method only ever makes the moves above. *)
Lemma run_queue_op_moves now op q : admitted op -> counted q -> rtc (move now) q (run_queue_op now op q).
Proof.
  intros Hadm Hq. pose proof (proj2 Hq) as Hid. destruct op; cbn [run_queue_op].
  - unfold enqueue. destruct (activeByKey q !! _) eqn:Ha; [apply rtc_refl|].
    apply rtc_once. pose proof (m_enqueue now q p Hadm Ha) as H. unfold enqueue in H. by rewrite Ha in H.
  - by apply claim_moves.
  - apply on_claim_moves; [done|]. intros t. apply w_release.
  - apply on_claim_moves; [done|]. intros t. apply w_complete.
  - apply on_claim_moves; [done|]. intros t. apply w_fail.
  - apply on_claim_moves; [done|]. intros t. apply w_beat.
  - unfold requeueStuck, st_bind, st_lift, st_ret.
    pose proof (requeue_moves now mode _ (mkRequeue 0 0) q (snapshot_values _ Hid)) as Hr.
    assert (rtc (move now) q (let '(r, q') := foldl (requeue_one now mode) (mkRequeue 0 0, q)
      (jm_values (q_tasks q)) in (Ok (E:=StoreError) r, q')).2) as H.
    { by destruct (foldl _ _ _). }
    destruct lease as [l|], leases as [store|]; [|exact H..].
    destruct (assertCurrent l store); [exact H|apply rtc_refl].
  - apply purge_moves.
    + apply snapshot_values. done.
    + destruct Hid as [Hwf Hid]. apply Forall_forall. intros [id t] He.
      apply jlookup_wf_elem in He; [|done]. by apply Hid in He as [? _].
  - by apply consume_moves.
  - by apply consumeSettled_moves.
Qed.

(** Hence an invariant of the moves is an invariant of every schedule. *)
Lemma run_queue_ops_inv (P : InMemoryStepQueue -> Prop) sched q :
  (forall now a b, counted a -> P a -> move now a b -> P b) ->
  Forall (fun e => admitted e.2) sched -> counted q -> P q -> counted (run_queue_ops sched q) /\ P (run_queue_ops sched q).
Proof.
  intros HP Hadm Hc Hq. apply (run_ops_inv _ (fun e => admitted e.2) (fun q => counted q /\ P q));
    [|done..]. intros now op s Ho [Hs Ps]. apply (rtc_moves_inv now (fun q => counted q /\ P q) s); [|done|].
  - intros a b [Ha Pa] Hm. split; [by eapply counted_move|by eapply HP].
  - by apply run_queue_op_moves.
Qed.
End moves.


(** Every schedule is one of admitted enqueues, when all are. *)
Lemma run_queue_ops_inv_all (P : InMemoryStepQueue -> Prop) sched q :
  (forall now a b, counted a -> P a -> move (fun _ => True) now a b -> P b) ->
  counted q -> P q -> counted (run_queue_ops sched q) /\ P (run_queue_ops sched q).
Proof.
  intros HP. apply (run_queue_ops_inv (fun _ => True)); [exact HP|].
  apply Forall_forall. by intros [now []] _.
Qed.

Lemma counted_new max : counted (new_queue max).
Proof. split; [cbn; lia|]. split; [apply jm_wf_empty|]. intros id t. done. Qed.

(** ** The invariant *)
(** What a task's fields may be in each status. *)
Definition task_ok (maxDeliveries : Z) (t : MutableTask) : Prop :=
  let cap := Z.max 1 maxDeliveries in
  0 <= tk_deliveries t /\
  match tk_status t with
  | TPending => tk_claim t = no_claim /\ tk_outcome t = no_outcome /\ tk_consumedAt t = None /\
                tk_deliveries t < cap
  | TRunning => tc_claimToken (tk_claim t) <> None /\ tc_claimedBy (tk_claim t) <> None /\
                tc_claimedAt (tk_claim t) <> None /\ tk_outcome t = no_outcome /\
                tk_consumedAt t = None /\ 1 <= tk_deliveries t <= cap
  | TCompleted => to_result (tk_outcome t) <> None /\ to_error (tk_outcome t) = None /\
                  to_completedAt (tk_outcome t) <> None /\ 1 <= tk_deliveries t <= cap
  | TFailed => to_error (tk_outcome t) <> None /\ to_result (tk_outcome t) = None /\
               to_completedAt (tk_outcome t) <> None /\ 1 <= tk_deliveries t <= cap
  end.

Record queue_ok (q : InMemoryStepQueue) : Prop := {
  (** tasks are stored once, under ids the queue issued *)
  qk_ids : ids_ok q;
  qk_tasks : forall id t, q_tasks q !! id = Some t -> task_ok (q_maxDeliveries q) t;
  (** the index holds exactly the unconsumed tasks, each under its key:
      at most one task per key is unconsumed *)
  qk_active : forall k id, activeByKey q !! k = Some id <->
    exists t, q_tasks q !! id = Some t /\ tk_consumedAt t = None /\ task_key t = k;
  (** claim tokens were issued by the queue, to one task each *)
  qk_tokens : forall id t c, q_tasks q !! id = Some t -> tc_claimToken (tk_claim t) = Some c ->
    exists n, n <= q_counter q /\ c = claim_token n;
  qk_token_owner : forall id id' t t' c, q_tasks q !! id = Some t -> q_tasks q !! id' = Some t' ->
    tc_claimToken (tk_claim t) = Some c -> tc_claimToken (tk_claim t') = Some c -> id = id';
}.

Lemma task_ok_write now max t t' :
  tk_status t = TRunning -> task_write now max t t' -> task_ok max t -> task_ok max t'.
Proof.
  intros Hs Hw [H0 H]. rewrite Hs in H. destruct H as (? & ? & ? & Ho & ? & ?).
  destruct Hw; split; cbn; try rewrite Hs; try (rewrite Ho; cbn);
    repeat match goal with |- _ /\ _ => split end; try done; lia.
Qed.

(** The token a task's claim has after a write: the same, or none. *)
Lemma task_write_token now max t t' c :
  task_write now max t t' -> tc_claimToken (tk_claim t') = Some c ->
  tc_claimToken (tk_claim t) = Some c.
Proof. by intros []. Qed.

(** [freeSlot] of a task that has the index right removes its entry only. *)
Lemma active_freeSlot t q k id :
  activeByKey (freeSlot t q) !! k = Some id <->
  activeByKey q !! k = Some id /\ ~ (k = task_key t /\ id = tk_id t).
Proof.
  unfold freeSlot. case_bool_decide as Hb; cbn.
  - rewrite jlookup_delete. case_decide as Hk.
    + subst k. split; [done|]. intros [H Hn]. exfalso. apply Hn. split; congruence.
    + split; [|by intros [? _]]. intros H. split; [done|]. by intros [-> _].
  - split; [|by intros [? _]]. intros H. split; [done|]. intros [-> ->]. done.
Qed.

Lemma token_fresh q id t n :
  queue_ok q -> q_tasks q !! id = Some t -> q_counter q < n ->
  tc_claimToken (tk_claim t) <> Some (claim_token n).
Proof.
  intros Hq Ht Hn Hc. destruct (qk_tokens _ Hq _ _ _ Ht Hc) as (m & Hm & <-%claim_token_inj). lia.
Qed.

(** Replacing a task that stays unconsumed (or consumed) under its key. *)
Lemma queue_ok_put t t' n q :
  queue_ok q -> q_tasks q !! tk_id t = Some t ->
  tk_id t' = tk_id t -> tk_spec t' = tk_spec t -> tk_consumedAt t' = tk_consumedAt t ->
  task_ok (q_maxDeliveries q) t' -> q_counter q <= n ->
  (forall c, tc_claimToken (tk_claim t') = Some c ->
     tc_claimToken (tk_claim t) = Some c \/ c = claim_token n /\ q_counter q < n) ->
  queue_ok (mkQueue (<[tk_id t' := t']> (q_tasks q)) (activeByKey q) n (q_maxDeliveries q)).
Proof.
  intros Hq Ht Hid Hsp Hcons Hok Hn Htok. split; cbn.
  - eapply (ids_ok_tasks (put_task t' q)); [|done|done].
    apply ids_ok_put; [apply Hq|]. rewrite Hid. by exists t.
  - intros id u. rewrite jlookup_insert. case_decide; [by intros [= <-]|apply (qk_tasks _ Hq)].
  - intros k id. rewrite (qk_active _ Hq). rewrite jlookup_insert. rewrite Hid.
    case_decide as Hi; [subst id|done]. unfold task_key. rewrite Ht.
    split; intros (u & [= <-] & Hc & Hk); eexists; (split; [done|]); unfold task_key in *;
      rewrite Hsp, Hcons in *; done.
  - intros id u c. rewrite jlookup_insert. case_decide as Hi.
    + intros [= <-] Hc. apply Htok in Hc as [Hc|[-> _]]; [|by exists n].
      destruct (qk_tokens _ Hq _ _ _ Ht Hc) as (m & ? & ->). exists m. split; [lia|done].
    + intros Hu Hc. destruct (qk_tokens _ Hq _ _ _ Hu Hc) as (m & ? & ->). exists m. split; [lia|done].
  - assert (forall id u c, q_tasks q !! id = Some u -> tc_claimToken (tk_claim u) = Some c ->
      tc_claimToken (tk_claim t') = Some c -> id = tk_id t') as Hown.
    { intros id u c Hu Hc Hc'. rewrite Hid. destruct (Htok _ Hc') as [Hct|[-> Hlt]].
      - by apply (qk_token_owner _ Hq _ _ _ _ _ Hu Ht Hc).
      - by destruct (token_fresh _ _ _ _ Hq Hu Hlt). }
    intros id id' u u' c. rewrite !jlookup_insert. do 2 case_decide; [congruence|..].
    + intros [= <-] Hu' Hc Hc'. subst id. symmetry. by eapply Hown.
    + intros Hu [= <-] Hc Hc'. subst id'. by eapply Hown.
    + apply (qk_token_owner _ Hq).
Qed.

(** Removing a task, or taking it out of the index. *)
Lemma queue_ok_drop t q :
  queue_ok q -> q_tasks q !! tk_id t = Some t ->
  queue_ok (freeSlot t (set_tasks (delete (tk_id t) (q_tasks q)) q)).
Proof.
  intros Hq Ht. split.
  - apply ids_ok_drop, Hq.
  - rewrite freeSlot_tasks, freeSlot_max. cbn. intros id u. rewrite jlookup_delete.
    case_decide; [done|apply (qk_tasks _ Hq)].
  - intros k id. rewrite active_freeSlot. cbn. rewrite (qk_active _ Hq), freeSlot_tasks. cbn.
    rewrite jlookup_delete. split.
    + intros [(u & Hu & Hc & <-) Hne]. exists u. case_decide as Hi; [|done]. subst id.
      destruct Hne. by simplify_eq.
    + intros (u & Hu & Hc & <-). case_decide as Hi; [done|]. split; [by exists u|]. by intros [_ ->].
  - rewrite freeSlot_tasks, freeSlot_counter. cbn. intros id u c. rewrite jlookup_delete.
    case_decide; [done|apply (qk_tokens _ Hq)].
  - rewrite freeSlot_tasks. cbn. intros id id' u u' c. rewrite !jlookup_delete.
    do 2 case_decide; try done. apply (qk_token_owner _ Hq).
Qed.

Lemma queue_ok_consume now t q :
  queue_ok q -> q_tasks q !! tk_id t = Some t ->
  task_ok (q_maxDeliveries q) (consumed_task now t) ->
  queue_ok (freeSlot (consumed_task now t) (put_task (consumed_task now t) q)).
Proof.
  intros Hq Ht Hok. set (t' := consumed_task now t).
  assert (ids_ok (put_task t' q)) as Hids by (apply ids_ok_put; [apply Hq|by exists t]).
  split.
  - eapply ids_ok_tasks; [exact Hids|apply freeSlot_tasks|by rewrite freeSlot_counter].
  - rewrite freeSlot_tasks, freeSlot_max. cbn. intros id u. rewrite jlookup_insert.
    case_decide; [by intros [= <-]|apply (qk_tasks _ Hq)].
  - intros k id. rewrite active_freeSlot. cbn. rewrite (qk_active _ Hq), freeSlot_tasks. cbn.
    rewrite jlookup_insert. split.
    + intros [(u & Hu & Hc & <-) Hne]. exists u. case_decide as Hi; [|done]. subst id.
      destruct Hne. by simplify_eq.
    + intros (u & Hu & Hc & <-). case_decide as Hi; [by simplify_eq|]. split; [by exists u|]. by intros [_ ->].
  - rewrite freeSlot_tasks, freeSlot_counter. cbn. intros id u c. rewrite jlookup_insert.
    case_decide; [intros [= <-]; by apply (qk_tokens _ Hq (tk_id t) t)|apply (qk_tokens _ Hq)].
  - rewrite freeSlot_tasks. cbn. intros id id' u u' c. rewrite !jlookup_insert.
    intros Hu Hu'. pose proof (qk_token_owner _ Hq id id') as Ho.
    do 2 case_decide; simplify_eq; try done; cbn; eauto.
Qed.

Lemma queue_ok_enqueue now p q :
  queue_ok q -> 0 <= q_counter q -> queue_ok (enqueue now p q).2.
Proof.
  intros Hq H0. unfold enqueue. destruct (activeByKey q !! _) as [id|] eqn:Ha; [done|]. cbn [snd].
  set (id := task_id (q_counter q + 1)). set (k0 := activeKey _ _) in *.
  assert (q_tasks q !! id = None) as Hid.
  { destruct (q_tasks q !! id) as [u|] eqn:Hu; [|done].
    apply (qk_ids _ Hq) in Hu as (_ & n & Hn & Hni). apply task_id_inj in Hni. lia. }
  split; cbn.
  - split; [apply jm_wf_insert, Hq|]. intros i u. cbn. rewrite jlookup_insert. case_decide as Hi.
    + intros [= <-]. split; [done|]. exists (q_counter q + 1). by split; [lia|].
    + intros (-> & n & ? & ->)%(qk_ids _ Hq). split; [done|]. exists n. by split; [lia|].
  - intros i u. rewrite jlookup_insert. case_decide; [|apply (qk_tasks _ Hq)].
    intros [= <-]. unfold task_ok. cbn. repeat split; lia.
  - intros k i. rewrite !jlookup_insert. case_decide as Hk.
    + subst k. split.
      * intros [= <-]. eexists. rewrite decide_True by done. by split.
      * intros (u & Hu & Hc & Hk). case_decide as Hi; [by subst|].
        assert (activeByKey q !! k0 = Some i) by (apply (qk_active _ Hq); by exists u). congruence.
    + rewrite (qk_active _ Hq). case_decide as Hi; [|done]. subst i. split.
      * intros (u & Hu & _). congruence.
      * intros (u & [= <-] & _ & Hku). by destruct Hk.
  - intros i u c. rewrite jlookup_insert. case_decide; [by intros [= <-]|]. intros Hu Hc.
    destruct (qk_tokens _ Hq _ _ _ Hu Hc) as (n & ? & ->). exists n. by split; [lia|].
  - intros i i' u u' c. rewrite !jlookup_insert. repeat case_decide; try (by intros [= <-]);
      [by intros _ [= <-]|]. apply (qk_token_owner _ Hq).
Qed.

Lemma queue_ok_move adm now q q' : counted q -> queue_ok q -> move adm now q q' -> queue_ok q'.
Proof.
  intros [H0 _] Hq Hm. destruct Hm as [p _ Hp|w t Ht Hs _|t t' Ht Hs Hw|t Ht _|t Ht Hs Hc].
  - by apply queue_ok_enqueue.
  - apply (queue_ok_put t); try done; [|lia|].
    + pose proof (qk_tasks _ Hq _ _ Ht) as [Hd Ht']. rewrite Hs in Ht'.
      destruct Ht' as (_ & Ho & ? & ?). unfold task_ok. cbn. rewrite Ho. repeat split; done || lia.
    + intros c [= <-]. right. split; [done|lia].
  - destruct (task_write_static _ _ _ _ Hw) as (Hi & Hsp & Hcs).
    apply (queue_ok_put t t' (q_counter q)); try done.
    + eapply task_ok_write; [done|exact Hw|]. by apply (qk_tasks _ Hq _ _ Ht).
    + intros c Hc. left. by eapply task_write_token.
  - by apply queue_ok_drop.
  - apply queue_ok_consume; [done..|]. pose proof (qk_tasks _ Hq _ _ Ht) as [Hd Ht'].
    split; [done|]. unfold is_settled, is_status in Hs. cbn.
    destruct (tk_status t); try done; by repeat case_bool_decide.
Qed.

Lemma queue_ok_new max : queue_ok (new_queue max).
Proof.
  split; try done; [apply (counted_new max)|]. intros k id. cbn. split; [done|]. by intros (t & ? & _).
Qed.

(** C39. Every reachable queue is consistent: tasks have the fields of their
    status and at most [maxDeliveries] deliveries, claim tokens belong to one
    task, and the index of live tasks holds exactly the unconsumed ones, so
    a (workflow, step) pair has at most one. *)
Theorem queue_invariant max sched : queue_ok (run_queue_ops sched (new_queue max)).
Proof.
  eapply (run_queue_ops_inv_all queue_ok); [|apply counted_new|apply queue_ok_new].
  intros now a b. apply queue_ok_move.
Qed.

(** ** What [claim] hands out *)
#[global] Instance claim_order_consistent : ConsistentCmp claim_order.
Proof.
  unfold claim_order. split; intros *; repeat (case_match; rewrite ?Z.eqb_eq, ?Z.eqb_neq in *); try lia.
Qed.

(** The outcome of the loop on the candidates [l]: the tasks [taken], in
    order, each now under a fresh claim of the worker. *)
Record loop_post (now : Z) (p : StepQueueClaimParams) (l : list MutableTask) (q : InMemoryStepQueue)
    (already : nat) (taken : list MutableTask) (out : list StepTask) (q' : InMemoryStepQueue) : Prop := {
  lp_sub : sublist taken l;
  lp_out : Forall2 (fun t st => exists n, q_counter q < n <= q_counter q' /\
    st = toTask (claimed_task now (cl_workerId p) n t) /\
    q_tasks q' !! tk_id t = Some (claimed_task now (cl_workerId p) n t)) taken out;
  lp_rest : forall id, id ∉ (tk_id <$> taken) -> q_tasks q' !! id = q_tasks q !! id;
  lp_limit : Z.of_nat (already + length out) <= Z.max (Z.of_nat already) (cl_limit p);
  lp_full : Z.of_nat (already + length out) < cl_limit p -> forall t, t ∈ l -> t ∉ taken ->
    exists k limit, cap_of t = Some (k, limit) /\ limit <= running_in k q';
  lp_running : forall k, running_in k q <= running_in k q';
  lp_counter : q_counter q <= q_counter q';
}.

Lemma loop_post_stop now p l q already :
  cl_limit p <= Z.of_nat already -> loop_post now p l q already [] [] q.
Proof.
  intros H. split; cbn; try done; try lia.
  - apply sublist_nil_l.
Qed.

Lemma loop_post_skip now p t l q already taken out q' k limit :
  cap_of t = Some (k, limit) -> limit <= running_in k q ->
  loop_post now p l q already taken out q' -> loop_post now p (t :: l) q already taken out q'.
Proof.
  intros Hcap Hlim [H1 H2 H3 H4 H5 H6 H7]. split; try done.
  - by constructor.
  - intros Hlt u [->|Hu]%elem_of_cons Hn; [|by apply H5]. exists k, limit. split; [done|].
    specialize (H6 k). lia.
Qed.

Lemma loop_post_take now p t l q already taken out q' :
  snapshot (t :: l) q -> tk_status t = TPending -> Z.of_nat already < cl_limit p ->
  let c := claim_task now (cl_workerId p) t q in
  loop_post now p l c.2 (S already) taken out q' ->
  loop_post now p (t :: l) q already (t :: taken) (c.1 :: out) q'.
Proof.
  intros (Ht & Hn & Hs)%snapshot_cons Hp Hal c [H1 H2 H3 H4 H5 H6 H7].
  assert (tk_id t ∉ (tk_id <$> taken)) as Hnt.
  { intros Hin. apply Hn. by eapply elem_of_sublist, fmap_sublist, H1. }
  assert (q_counter c.2 = q_counter q + 1) as Hc by done.
  split.
  - by constructor.
  - constructor.
    + exists (q_counter q + 1). split; [lia|]. split; [done|]. rewrite H3 by done.
      unfold c, claim_task. cbn [snd q_tasks tk_id claimed_task with_status]. by rewrite jlookup_insert_eq.
    + eapply Forall2_impl; [exact H2|]. intros u st (n & ? & ? & ?). exists n. split; [lia|done].
  - intros id [Hi Hi']%not_elem_of_cons. rewrite H3 by done. by apply claim_task_frame.
  - cbn [length]. lia.
  - cbn [length]. intros Hlt u [->|Hu]%elem_of_cons [? ?]%not_elem_of_cons; [done|].
    apply H5; [lia|done..].
  - intros k. specialize (H6 k). unfold c in H6. rewrite running_in_claim in H6 by done.
    destruct (on_slot k t); cbn in H6; lia.
  - lia.
Qed.

Lemma claim_loop_post now p l running claimed q :
  snapshot l q -> Forall (fun t => tk_status t = TPending) l ->
  (forall k, opt_or (running !! k) 0 <= running_in k q) ->
  exists taken out, (claim_loop now p l running claimed q).1 = claimed ++ out /\
    loop_post now p l q (length claimed) taken out (claim_loop now p l running claimed q).2.
Proof.
  revert running claimed q.
  induction l as [|t l IH]; intros running claimed q Hs Hp Hr; cbn [claim_loop].
  { exists [], []. rewrite app_nil_r. split; [done|]. split; try done; cbn; lia. }
  destruct (_ >=? cl_limit p) eqn:Hlim.
  { exists [], []. rewrite app_nil_r. split; [done|]. apply loop_post_stop. lia. }
  pose proof (snapshot_cons _ _ _ Hs) as (Ht & Hn & Hs'). apply Forall_cons in Hp as [Hpt Hp].
  assert (forall running', (forall k, opt_or (running' !! k) 0 <= running_in k q + Z.b2z (on_slot k t)) ->
    let c := claim_task now (cl_workerId p) t q in
    exists taken out, (claim_loop now p l running' (claimed ++ [c.1]) c.2).1 = claimed ++ out /\
      loop_post now p (t :: l) q (length claimed) taken out
        (claim_loop now p l running' (claimed ++ [c.1]) c.2).2) as Htake.
  { intros running' Hr' c. destruct (IH running' (claimed ++ [c.1]) c.2) as (taken & out & -> & Hpost).
    - eapply snapshot_frame; [exact Hs'|exact Hn|]. intros i Hi. by apply claim_task_frame.
    - done.
    - intros k. unfold c. rewrite running_in_claim by done. apply Hr'.
    - exists (t :: taken), (c.1 :: out). rewrite <- app_assoc. split; [done|].
      apply loop_post_take; [done..|lia|]. rewrite length_app in Hpost. cbn in Hpost.
      by rewrite Nat.add_1_r in Hpost. }
  destruct (cap_of t) as [[k limit]|] eqn:Hcap.
  - destruct (_ >=? limit) eqn:Hl.
    + destruct (IH running claimed q) as (taken & out & -> & Hpost); [done..|].
      exists taken, out. split; [done|]. eapply loop_post_skip; [done| |done].
      specialize (Hr k). lia.
    + apply Htake. intros k'. specialize (Hr k'). rewrite jlookup_insert. case_decide as Hk.
      * subst k'. unfold on_slot. unfold cap_of in Hcap. destruct (slot_of t) as [k'|]; [|done].
        destruct (ts_concurrencyLimit _); [|done]. injection Hcap as -> _.
        rewrite bool_decide_true by done. cbn [opt_or from_option Z.b2z]. unfold id. lia.
      * destruct (on_slot k' t); cbn; lia.
  - apply Htake. intros k'. specialize (Hr k'). destruct (on_slot k' t); cbn; lia.
Qed.

(** What [claim] promises of the queue [q] it is called on. *)
Record claim_post (now : Z) (p : StepQueueClaimParams) (q : InMemoryStepQueue)
    (out : list StepTask) (q' : InMemoryStepQueue) : Prop := {
  (** at most [limit] tasks, none twice, most urgent first, oldest first *)
  cp_limit : Z.of_nat (length out) <= Z.max 0 (cl_limit p);
  cp_nodup : NoDup (sk_id <$> out);
  cp_order : StronglySorted (fun a b => ts_priority (sk_spec b) < ts_priority (sk_spec a) \/
    ts_priority (sk_spec a) = ts_priority (sk_spec b) /\ sk_createdAt a <= sk_createdAt b) out;
  (** each one was claimable and is now running under a fresh claim *)
  cp_claimed : forall st, st ∈ out -> exists t n, q_tasks q !! sk_id st = Some t /\
    claimable p t = true /\ q_counter q < n <= q_counter q' /\
    q_tasks q' !! sk_id st = Some (claimed_task now (cl_workerId p) n t) /\
    st = toTask (claimed_task now (cl_workerId p) n t);
  (** nothing else changed *)
  cp_rest : forall id, id ∉ (sk_id <$> out) -> q_tasks q' !! id = q_tasks q !! id;
  (** a claimable task is left only at the limit, or at its slot's cap *)
  cp_conserving : Z.of_nat (length out) < cl_limit p -> forall id t, q_tasks q !! id = Some t ->
    claimable p t = true -> id ∉ (sk_id <$> out) ->
    exists k limit, cap_of t = Some (k, limit) /\ limit <= running_in k q';
}.

(** C37. On a reachable queue, [claim] hands out claimable tasks in order of
    priority and age, at most [limit], each under a fresh claim, changes
    nothing else, and leaves a claimable task only for the limit or for the
    concurrency cap of its slot. *)
Theorem claim_correct max sched now p :
  let q := run_queue_ops sched (new_queue max) in
  claim_post now p q (claim now p q).1 (claim now p q).2.
Proof.
  intros q.
  assert (ids_ok q) as Hids by (destruct (run_queue_ops_inv_all (fun _ => True) sched (new_queue max))
    as [[_ ?] _]; [done|apply counted_new|done|done]).
  destruct (claim_loop_post now p (claim_candidates p q) (runningPerKey q) [] q) as (taken & out & Hout & Hpost).
  { by apply candidates_snapshot. }
  { apply candidates_pending. }
  { intros k. by rewrite runningPerKey_exact. }
  unfold claim. rewrite Hout, app_nil_l. clear Hout.
  set (q' := (claim_loop _ _ _ _ _ _).2) in *. destruct Hpost as [Hsub Hf Hrest Hlim Hfull _ _].
  destruct (snapshot_sublist _ _ _ (candidates_snapshot p q Hids) (sublist_submseteq _ _ Hsub)) as [Hnd Hsnap].
  assert (sk_id <$> out = tk_id <$> taken) as Hids'.
  { clear -Hf. induction Hf as [|t st taken out (n & _ & -> & _) _ IH]; cbn; [done|]. by f_equal. }
  split.
  - exact Hlim.
  - by rewrite Hids'.
  - eapply StronglySorted_Forall2; [|exact Hf|
      eapply StronglySorted_sublist; [exact Hsub|apply (jsort_sorted claim_order)]].
    intros a a' b b' (n & _ & -> & _) (n' & _ & -> & _). unfold cmp_le, claim_order. cbn.
    case_match; rewrite ?Z.eqb_eq, ?Z.eqb_neq in *; lia.
  - intros st Hst. apply list_elem_of_lookup in Hst as [i Hi].
    destruct (Forall2_lookup_r _ _ _ _ _ Hf Hi) as (t & Ht & n & Hn & -> & Hq').
    apply list_elem_of_lookup_2 in Ht as Hin. rewrite Forall_forall in Hsnap.
    exists t, n. split; [by apply (Hsnap t)|]. split; [|split; [done|split; [exact Hq'|done]]].
    eapply elem_of_sublist in Hin; [|exact Hsub].
    by apply elem_of_jsort, list_elem_of_filter in Hin as [? _].
  - rewrite Hids'. exact Hrest.
  - intros Hlt id t Ht Hc Hn. apply Hfull; [done| |].
    + apply elem_of_jsort, list_elem_of_filter. split; [done|].
      apply jm_values_elem. exists id. by apply jlookup_elem.
    + intros Hin. apply Hn. rewrite Hids'. apply Hids in Ht as [<- _]. by apply list_elem_of_fmap_2.
Qed.

(** ** Fencing *)
(** No move brings a claim back: a token that is not current stays so. *)
Lemma stale_claim_move adm now id m q q' :
  counted q -> move adm now q q' -> m <= q_counter q ->
  isCurrentClaim (q_tasks q !! id) (Some (claim_token m)) = false ->
  isCurrentClaim (q_tasks q' !! id) (Some (claim_token m)) = false.
Proof.
  intros [H0 Hids] Hm Hle Hst.
  assert (forall t', (id = tk_id t' -> isCurrentClaim (Some t') (Some (claim_token m)) = false) ->
    isCurrentClaim (<[tk_id t' := t']> (q_tasks q) !! id) (Some (claim_token m)) = false) as Hput.
  { intros t' H. rewrite jlookup_insert. case_decide; [by apply H|done]. }
  destruct Hm as [p _ Hp|w t Ht Hs _|t t' Ht Hs Hw|t Ht _|t Ht Hs Hc].
  - unfold enqueue. rewrite Hp. by apply (Hput (new_task now (task_id (q_counter q + 1)) p)).
  - apply (Hput (claimed_task now w (q_counter q + 1) t)). intros _. cbn.
    rewrite bool_decide_false; [done|]. intros Heq%(inj Some)%claim_token_inj. lia.
  - apply (Hput t'). destruct (task_write_static _ _ _ _ Hw) as (-> & _). intros ->.
    rewrite Ht in Hst. unfold isCurrentClaim, is_status in Hst |- *. rewrite Hs in Hst. cbn in Hst.
    apply bool_decide_eq_false in Hst. apply andb_false_iff. right. cbn. apply bool_decide_eq_false.
    by intros H%(task_write_token _ _ _ _ _ Hw).
  - rewrite freeSlot_tasks. cbn. rewrite jlookup_delete. by case_decide.
  - rewrite freeSlot_tasks. apply Hput. intros _. cbn. unfold is_status. cbn.
    unfold is_settled, is_status in Hs. destruct (tk_status t); by repeat case_bool_decide.
Qed.

Lemma on_claim_rejected id tok f q :
  isCurrentClaim (q_tasks q !! id) tok = false -> on_claim id tok f q = (false, q).
Proof. unfold on_claim. destruct (q_tasks q !! id) as [t|]; [|done]. by intros ->. Qed.

(** Every call a worker can make with a claim token is refused. *)
Definition claim_refused (taskId tok : string) (q : InMemoryStepQueue) : Prop :=
  release taskId tok q = (false, q) /\
  (forall now, heartbeat now taskId (Some tok) q = (false, q)) /\
  (forall now p, co_taskId p = taskId -> co_claimToken p = Some tok -> complete now p q = (false, q)) /\
  (forall now p, fa_taskId p = taskId -> fa_claimToken p = Some tok -> fail now p q = (false, q)).

Lemma refused_of_stale taskId tok q :
  isCurrentClaim (q_tasks q !! taskId) (Some tok) = false -> claim_refused taskId tok q.
Proof.
  intros H. split; [by apply on_claim_rejected|]. split; [by intros; apply on_claim_rejected|].
  split; intros now p <- Hp; unfold complete, fail; rewrite Hp; by apply on_claim_rejected.
Qed.

(** A claim that stopped being current (settled, released, requeued or
    dead-lettered; or its task purged) never becomes current again: whatever
    is run from there, the worker that held it can neither settle, extend
    nor release the task, and its calls change nothing. *)
Theorem stale_claim_refused max s1 now p task tok s2 s3 :
  let q1 := run_queue_ops s1 (new_queue max) in
  task ∈ (claim now p q1).1 -> sk_claimToken task = Some tok ->
  let q2 := run_queue_ops s2 (claim now p q1).2 in
  isCurrentClaim (q_tasks q2 !! sk_id task) (Some tok) = false ->
  claim_refused (sk_id task) tok (run_queue_ops s3 q2).
Proof.
  intros q1 Htask Htok q2 Hst. apply refused_of_stale.
  assert (counted q1) as Hc1 by (eapply (run_queue_ops_inv_all (fun _ => True)); done || apply counted_new).
  destruct (claim_loop_post now p (claim_candidates p q1) (runningPerKey q1) [] q1) as (taken & out & Hout & Hpost).
  { apply candidates_snapshot, Hc1. }
  { apply candidates_pending. }
  { intros k. by rewrite runningPerKey_exact. }
  unfold claim in Htask, q2. rewrite Hout, app_nil_l in Htask.
  apply list_elem_of_lookup in Htask as [i Hi].
  destruct (Forall2_lookup_r _ _ _ _ _ (lp_out _ _ _ _ _ _ _ _ Hpost) Hi) as (t & _ & n & Hn & -> & _).
  apply (inj Some) in Htok. cbn in Htok. subst tok. clear Hout Hpost Hi i.
  assert (counted (claim now p q1).2 /\ n <= q_counter (claim now p q1).2) as Hc.
  { split; [|unfold claim; lia]. eapply rtc_moves_inv; [apply (counted_move (fun _ => True))|exact Hc1|].
    apply claim_moves, Hc1. }
  assert (counted q2 /\ n <= q_counter q2) as [Hc2 Hn2].
  { apply (run_queue_ops_inv_all (fun q => n <= q_counter q)); [|apply Hc..]. intros now' a b _ Ha Hm.
    pose proof (counter_move _ _ _ _ Hm). lia. }
  set (P := fun q => n <= q_counter q /\
    isCurrentClaim (q_tasks q !! tk_id t) (Some (claim_token n)) = false).
  destruct (run_queue_ops_inv_all P s3 q2) as [_ [_ H]]; [|done|done|exact H].
  intros now' a b Ha [Hna Hsa] Hm. split; [pose proof (counter_move _ _ _ _ Hm); lia|].
  by eapply stale_claim_move.
Qed.

(** ** A settled task *)
Definition same_outcome (t u : MutableTask) : Prop :=
  tk_status u = tk_status t /\ tk_outcome u = tk_outcome t /\ tk_spec u = tk_spec t /\
  tk_deliveries u = tk_deliveries t.

Lemma settled_move adm now q q' id t :
  counted q -> move adm now q q' -> is_settled t = true ->
  (forall u, q_tasks q !! id = Some u -> same_outcome t u) ->
  (exists n, n <= q_counter q /\ id = task_id n) ->
  forall u, q_tasks q' !! id = Some u -> same_outcome t u.
Proof.
  intros [H0 Hids] Hm Hst Hsame (n & Hn & ->) u.
  assert (forall v, q_tasks q !! task_id n = Some v -> tk_status v <> TPending /\ tk_status v <> TRunning) as Hns.
  { intros v Hv%Hsame. destruct Hv as [-> _]. unfold is_settled, is_status in Hst.
    destruct (tk_status t); by repeat case_bool_decide. }
  destruct Hm as [p _ Hp|w v Hv Hs _|v v' Hv Hs Hw|v Hv _|v Hv Hs Hc].
  - unfold enqueue. rewrite Hp. cbn. rewrite jlookup_insert. case_decide as Hi; [|apply Hsame].
    apply task_id_inj in Hi. lia.
  - cbn. rewrite jlookup_insert. case_decide as Hi; [|apply Hsame]. rewrite Hi in Hv. by apply Hns in Hv as [? _].
  - cbn. rewrite jlookup_insert. destruct (task_write_static _ _ _ _ Hw) as (-> & _).
    case_decide as Hi; [|apply Hsame]. rewrite Hi in Hv. by apply Hns in Hv as [_ ?].
  - rewrite freeSlot_tasks. cbn. rewrite jlookup_delete. by case_decide; [|apply Hsame].
  - rewrite freeSlot_tasks. cbn. rewrite jlookup_insert. case_decide as Hi; [|apply Hsame].
    intros [= <-]. rewrite Hi in Hv. apply Hsame in Hv. exact Hv.
Qed.

(** A settled task is final: from then on its id names that task with
    that status, outcome and delivery count, or nothing (it was purged);
    no later claim, write or sweep touches it and its id is not reused. *)
Theorem settled_task_final max s1 s2 id t :
  let q := run_queue_ops s1 (new_queue max) in
  q_tasks q !! id = Some t -> is_settled t = true ->
  forall u, q_tasks (run_queue_ops s2 q) !! id = Some u -> same_outcome t u.
Proof.
  intros q Ht Hst.
  assert (counted q) as Hq by (eapply (run_queue_ops_inv_all (fun _ => True)); done || apply counted_new).
  pose proof (proj2 (proj2 Hq) _ _ Ht) as (_ & n & Hn & Hid).
  set (P := fun q => n <= q_counter q /\ forall u, q_tasks q !! id = Some u -> same_outcome t u).
  destruct (run_queue_ops_inv_all P s2 q) as [_ [_ H]]; [|done| |exact H].
  - intros now a b Ha [Hna Hsa] Hm. split; [pose proof (counter_move _ _ _ _ Hm); lia|].
    eapply settled_move; [done..|]. by exists n.
  - split; [lia|]. intros u Hu. rewrite Ht in Hu. by injection Hu as <-.
Qed.

(** ** Concurrency caps *)
(** Enqueues into slot [k] carry a limit of at most [cap]. *)
Definition capped (k : string) (cap : Z) (p : StepQueueEnqueueParams) : Prop :=
  slot_of (new_task 0 "" p) = Some k ->
  exists l, en_concurrencyLimit p = Some l /\ l <= cap.

Definition within_cap (k : string) (cap : Z) (q : InMemoryStepQueue) : Prop :=
  (forall id t, q_tasks q !! id = Some t -> slot_of t = Some k ->
     exists l, ts_concurrencyLimit (tk_spec t) = Some l /\ l <= cap) /\
  running_in k q <= cap.

Lemma running_in_put k t t' q :
  q_tasks q !! tk_id t' = Some t -> tk_status t = TRunning \/ is_status TRunning t' = false ->
  tk_spec t' = tk_spec t -> running_in k (put_task t' q) <= running_in k q.
Proof.
  intros Ht Hs Hsp. unfold running_in, put_task, set_tasks. cbn [q_tasks].
  rewrite jm_count_insert, Ht. cbn [from_option]. unfold on_slot, slot_of. rewrite Hsp.
  destruct Hs as [Hs| ->].
  - unfold is_status at 2. rewrite Hs, bool_decide_true by done.
    destruct (is_status TRunning t'), (bool_decide (_ = Some k)); cbn; lia.
  - destruct (is_status TRunning t), (bool_decide (_ = Some k)); cbn; lia.
Qed.

Lemma within_cap_put k cap t t' q :
  q_tasks q !! tk_id t' = Some t -> tk_status t = TRunning \/ is_status TRunning t' = false ->
  tk_spec t' = tk_spec t -> within_cap k cap q -> within_cap k cap (put_task t' q).
Proof.
  intros Ht Hs Hsp [Hl Hr]. split; [|pose proof (running_in_put k t t' q Ht Hs Hsp); lia].
  intros id u. cbn. rewrite jlookup_insert. case_decide as Hi; [|apply Hl].
  intros [= <-]. unfold slot_of. rewrite Hsp. by apply (Hl (tk_id t')).
Qed.

Lemma within_cap_same k cap q q' :
  q_tasks q' = q_tasks q -> within_cap k cap q -> within_cap k cap q'.
Proof. intros Hq [Hl Hr]. unfold within_cap, running_in. by rewrite Hq. Qed.

Lemma within_cap_move k cap now q q' :
  0 <= cap -> counted q -> within_cap k cap q -> move (capped k cap) now q q' -> within_cap k cap q'.
Proof.
  intros H0 [Hc [Hwf Hid]] Hcap Hm. destruct Hm as [p Hadm Hp|w t Ht Hs Hroom|t t' Ht Hs Hw|t Ht _|t Ht Hs _].
  - unfold enqueue. rewrite Hp. destruct Hcap as [Hl Hr]. split.
    + intros id u. cbn. rewrite jlookup_insert. case_decide; [|apply Hl]. intros [= <-]. apply Hadm.
    + unfold running_in. cbn [snd q_tasks]. rewrite jm_count_insert. cbn.
      destruct (q_tasks q !! _) as [u|] eqn:Hu; cbn [from_option].
      2: { unfold running_in in Hr. unfold is_status at 2. rewrite bool_decide_false by done. cbn. lia. }
      apply Hid in Hu as (_ & n & Hn & Heq). apply task_id_inj in Heq. lia.
  - destruct Hcap as [Hl Hr]. split.
    + intros id u. cbn. rewrite jlookup_insert. case_decide as Hi; [|apply Hl].
      intros [= <-]. apply (Hl _ _ Ht).
    + rewrite running_in_claim by done. unfold on_slot. case_bool_decide as Hk; cbn; [|lia].
      destruct (Hl _ _ Ht Hk) as (l & Hl' & Hle).
      assert (running_in k q < l); [|lia]. apply Hroom.
      * unfold cap_of. by rewrite Hk, Hl'.
      * intros id u Hu Hk'. by destruct (Hl _ _ Hu Hk') as (? & -> & _).
  - destruct (task_write_static _ _ _ _ Hw) as (Hi & Hsp & _).
    apply (within_cap_put k cap t); rewrite ?Hi; auto.
  - eapply within_cap_same; [apply freeSlot_tasks|]. destruct Hcap as [Hl Hr]. split.
    + intros id u. cbn. rewrite jlookup_delete. case_decide; [done|apply Hl].
    + unfold running_in in *. cbn [set_tasks q_tasks]. rewrite jm_count_delete, Ht by done. cbn.
      destruct (_ && _); cbn; lia.
  - eapply within_cap_same; [apply freeSlot_tasks|]. apply (within_cap_put k cap t); auto. right.
    unfold is_settled, is_status in *. cbn. destruct (tk_status t); by repeat case_bool_decide.
Qed.

(** C38. The concurrency cap holds in every reachable state: when all tasks
    of a [(scope, key)] slot are enqueued with a limit of at most [cap], no
    interleaving of enqueues, claims by any workers, settlements, releases
    and sweeps ever has more than [cap] of them running. *)
Theorem concurrency_cap max sched k cap :
  0 <= cap -> Forall (fun e => admitted (capped k cap) e.2) sched ->
  running_in k (run_queue_ops sched (new_queue max)) <= cap.
Proof.
  intros H0 Hadm.
  destruct (run_queue_ops_inv (capped k cap) (within_cap k cap) sched (new_queue max))
    as [_ [_ H]]; [|done|apply counted_new|by split|exact H].
  intros now a b Ha Hw Hm. by eapply within_cap_move.
Qed.

(** ** The recovery sweep *)
(** What the sweep does to one task. *)
Definition swept (now : Z) (mode : requeue_mode) (maxDeliveries : Z) (t : MutableTask) : MutableTask :=
  if stuck now mode t then
    if tk_deliveries t >=? maxDeliveries then dead_letter now maxDeliveries t else backToPending t
  else t.

Definition dead_lettered_by (now : Z) (mode : requeue_mode) (max : Z) (t : MutableTask) : bool :=
  stuck now mode t && (tk_deliveries t >=? max).

Definition requeued_by (now : Z) (mode : requeue_mode) (max : Z) (t : MutableTask) : bool :=
  stuck now mode t && negb (tk_deliveries t >=? max).

Lemma requeue_one_swept now mode r q t :
  q_tasks q !! tk_id t = Some t ->
  requeue_one now mode (r, q) t =
    (mkRequeue (rq_requeued r + Z.b2z (requeued_by now mode (q_maxDeliveries q) t))
       (rq_deadLettered r + Z.b2z (dead_lettered_by now mode (q_maxDeliveries q) t)),
     put_task (swept now mode (q_maxDeliveries q) t) q).
Proof.
  intros Ht. unfold requeue_one, swept, requeued_by, dead_lettered_by.
  destruct (stuck now mode t); cbn [andb]; [|].
  - destruct (tk_deliveries t >=? q_maxDeliveries q); cbn [negb Z.b2z]; by rewrite ?Z.add_0_r.
  - cbn. rewrite !Z.add_0_r. destruct r as [a b], q as [ts act c m]. unfold put_task, set_tasks. cbn in *.
    by rewrite jm_insert_id.
Qed.

Lemma requeue_fold_swept now mode l r q :
  snapshot l q ->
  let '(r', q') := foldl (requeue_one now mode) (r, q) l in
  let count f := Z.of_nat (length (List.filter (f now mode (q_maxDeliveries q)) l)) in
  r' = mkRequeue (rq_requeued r + count requeued_by) (rq_deadLettered r + count dead_lettered_by) /\
  activeByKey q' = activeByKey q /\
  forall id, q_tasks q' !! id =
    if decide (id ∈ (tk_id <$> l)) then swept now mode (q_maxDeliveries q) <$> q_tasks q !! id
    else q_tasks q !! id.
Proof.
  revert r q. induction l as [|t l IH]; intros r q Hs; cbn [foldl].
  { cbn. rewrite !Z.add_0_r. split; [by destruct r|]. done. }
  apply snapshot_cons in Hs as (Ht & Hn & Hs). rewrite requeue_one_swept by done.
  set (t' := swept now mode (q_maxDeliveries q) t).
  assert (tk_id t' = tk_id t) as Hid by (unfold t', swept; by repeat case_match).
  assert (snapshot l (put_task t' q)) as Hs'.
  { eapply snapshot_frame; [done|exact Hn|]. intros i Hi. apply put_task_frame. congruence. }
  specialize (IH (mkRequeue (rq_requeued r + Z.b2z (requeued_by now mode (q_maxDeliveries q) t))
    (rq_deadLettered r + Z.b2z (dead_lettered_by now mode (q_maxDeliveries q) t))) (put_task t' q) Hs').
  destruct (foldl _ _ l) as [r' q']. cbn [q_maxDeliveries put_task set_tasks] in IH.
  destruct IH as (-> & Ha & IH). split; [|split; [done|]].
  - cbn [rq_requeued rq_deadLettered List.filter]. f_equal;
      [destruct (requeued_by _ _ _ t)|destruct (dead_lettered_by _ _ _ t)]; cbn [length Z.b2z]; lia.
  - intros id. rewrite IH. unfold put_task, set_tasks. cbn [q_tasks]. rewrite fmap_cons, jlookup_insert, Hid.
    destruct (decide (id = tk_id t)) as [->|Hne].
    + rewrite decide_False by done. rewrite !decide_True by (done || apply list_elem_of_here).
      by rewrite Ht.
    + rewrite !(decide_False (P := tk_id t = id)) by congruence.
      case_decide as H1; case_decide as H2; try done.
      * by destruct H2; apply list_elem_of_further.
      * by apply elem_of_cons in H2 as [?|?].
Qed.

(** The recovery sweep of a reachable queue: under a superseded leader
    lease it fails and changes nothing; otherwise it gives back exactly the
    stuck tasks that have deliveries left, dead-letters exactly those that
    have not, leaves every other task as it was, and reports both counts. *)
Theorem requeueStuck_correct max sched now mode lease leases :
  let q := run_queue_ops sched (new_queue max) in
  let '(r, q') := requeueStuck now mode lease leases q in
  let count f := jm_count (f now mode (q_maxDeliveries q)) (q_tasks q) in
  match lease, leases with
  | Some l, Some store =>
      match assertCurrent l store with
      | Err e => r = Err e /\ q' = q
      | Ok _ => r = Ok (mkRequeue (count requeued_by) (count dead_lettered_by))
      end
  | _, _ => r = Ok (mkRequeue (count requeued_by) (count dead_lettered_by))
  end /\
  (is_ok r = true -> forall id,
     q_tasks q' !! id = swept now mode (q_maxDeliveries q) <$> q_tasks q !! id).
Proof.
  intros q. assert (counted q) as Hq
    by (eapply (run_queue_ops_inv_all (fun _ => True)); done || apply counted_new).
  pose proof (requeue_fold_swept now mode _ (mkRequeue 0 0) q (snapshot_values _ (proj2 Hq))) as H.
  assert (forall id, q_tasks q !! id <> None -> id ∈ (tk_id <$> jm_values (q_tasks q))) as Hall.
  { intros id Hid. destruct (q_tasks q !! id) as [t|] eqn:Ht; [|done].
    apply (proj2 Hq) in Ht as Hi. destruct Hi as [<- _]. apply list_elem_of_fmap_2.
    apply jm_values_elem. exists (tk_id t). by apply jlookup_elem. }
  unfold requeueStuck, st_bind, st_lift, st_ret.
  assert (let '(r, q') := foldl (requeue_one now mode) (mkRequeue 0 0, q) (jm_values (q_tasks q)) in
    r = mkRequeue (jm_count (requeued_by now mode (q_maxDeliveries q)) (q_tasks q))
          (jm_count (dead_lettered_by now mode (q_maxDeliveries q)) (q_tasks q)) /\
    forall id, q_tasks q' !! id = swept now mode (q_maxDeliveries q) <$> q_tasks q !! id) as Hf.
  { destruct (foldl _ _ _) as [r q']. destruct H as (-> & _ & H). split; [done|]. intros id.
    rewrite H. case_decide as Hin; [done|]. destruct (q_tasks q !! id) eqn:Ht; [|done].
    destruct Hin. apply Hall. congruence. }
  destruct lease as [l|], leases as [store|]; try destruct (assertCurrent l store) as [[]|e] eqn:He;
    try (destruct (foldl _ _ _) as [r q']; destruct Hf as [-> Hf]; by split).
Qed.

(** ** Concrete runs *)
Definition sample_enqueue (w step : string) (limit : option Z) : StepQueueEnqueueParams :=
  mkEnqueue w step JNull None None None None None None None None None None
    (Some "k") (Some "global") limit.

Definition sample_claim (w : string) : StepQueueClaimParams := mkClaim w 10 None None None.

Lemma stale_claim_refused_witness :
  exists tok q, claim_refused "task-1" tok q /\
    tc_claimToken <$> (tk_claim <$> q_tasks q !! "task-1") <> Some (Some tok).
Proof.
  exists "claim-2".
  eexists. split.
  - apply (stale_claim_refused None [(0, QEnqueue (sample_enqueue "w" "s" None))] 1 (sample_claim "a")
      (mkStepTask "task-1" (tk_spec (new_task 0 "" (sample_enqueue "w" "s" None))) 1 TRunning 0
         (Some "claim-2")) "claim-2"
      [(50, QRequeue (Stale 10) None None); (60, QClaim (sample_claim "b"))]
      [(70, QComplete (mkComplete "task-1" (Some "claim-3") JNull 5 None))]).
    + vm_compute. apply list_elem_of_here.
    + reflexivity.
    + vm_compute. reflexivity.
  - vm_compute. discriminate.
Defined.

Lemma settled_task_final_witness :
  let q := run_queue_ops [(0, QEnqueue (sample_enqueue "w" "s" None)); (1, QClaim (sample_claim "a"));
             (2, QComplete (mkComplete "task-1" (Some "claim-2") (JNum 7) 1 None))] (new_queue None) in
  exists t, q_tasks q !! "task-1" = Some t /\ forall u,
    q_tasks (run_queue_ops [(3, QFail (mkFail "task-1" (Some "claim-2") "late" None 1 None));
                            (4, QClaim (sample_claim "b"))] q) !! "task-1" = Some u -> same_outcome t u.
Proof.
  intros q. eexists. split; [vm_compute; reflexivity|].
  apply (settled_task_final None [(0, QEnqueue (sample_enqueue "w" "s" None)); (1, QClaim (sample_claim "a"));
             (2, QComplete (mkComplete "task-1" (Some "claim-2") (JNum 7) 1 None))]);
    vm_compute; reflexivity.
Defined.

Lemma concurrency_cap_witness :
  running_in "global::k" (run_queue_ops
    [(0, QEnqueue (sample_enqueue "w1" "s" (Some 1))); (0, QEnqueue (sample_enqueue "w2" "s" (Some 1)));
     (1, QClaim (sample_claim "a")); (2, QClaim (sample_claim "b"))] (new_queue None)) <= 1.
Proof.
  apply concurrency_cap; [lia|].
  repeat constructor; cbn; intros _; eexists; by split.
Defined.

(** The counter of [claim] only counts what it claims itself under a limit:
    in one batch a task without a limit takes a place of the slot that the
    next one, whose limit is 1, does not see. *)
Example batch_overshoots_cap :
  running_in "global::k" (run_queue_ops
    [(0, QEnqueue (sample_enqueue "w1" "s" None)); (1, QEnqueue (sample_enqueue "w2" "s" (Some 1)));
     (2, QClaim (sample_claim "a"))] (new_queue None)) = 2.
Proof. vm_compute. reflexivity. Qed.

(** The index key joins workflow and step with [::] unescaped, so distinct
    steps can share one: the second enqueue returns the first one's task. *)
Example step_keys_collide :
  (enqueue 1 (sample_enqueue "w" "a::b" None)
     (enqueue 0 (sample_enqueue "w::a" "b" None) (new_queue None)).2).1 = "task-1".
Proof. vm_compute. reflexivity. Qed.

Example percentile_interpolates :
  Qeq (opt_or (percentileCont [40; 10; 30; 20] (1 # 2)) 0%Q) 25%Q.
Proof. vm_compute. reflexivity. Qed.
