(* ===== verification/SchedulerStorage.v ===== *)
(** The scheduler's store: [scheduler/types.ts], [scheduler/scheduler-storage.ts]
    and the reference implementation [scheduler/in-memory-scheduler-storage.ts].

    Schedules, their fire state, due-tracking and tick log, written by poll
    loops through [commitPoll] under a leader lease. Each method is one
    synchronous block. [newScheduleIncarnation] draws a random token: it is an
    argument, [fresh], of the methods that call it. *)
From S2P Require Import Prelude Leases LeaderLeases Json.
Open Scope string_scope.
Open Scope list_scope.
Open Scope Z_scope.

Record DurableScheduleConfig : Type := mkConfig {
  sc_id : string;
  sc_name : option string;
  sc_namespace : option string;
  sc_cron : option string;
  sc_rrule : option string;
  sc_intervalMs : option Z;
  sc_timezone : option string;
  sc_enabled : option bool;
  sc_startAt : option Z;
  sc_endAt : option Z;
  sc_jitterMs : option Z;
  sc_metadata : option (list (string * json));
  sc_maxCatchUp : option Z;
}.

Record ScheduleTick : Type := mkTick {
  ti_scheduleId : string;
  ti_scheduleName : option string;
  ti_scheduledAt : Z;
  ti_firedAt : Z;
  ti_incarnation : string;
  ti_tickNumber : Z;
  ti_metadata : option (list (string * json));
}.

Definition scheduleTickRunId (scheduleId incarnation : string) (tickNumber : Z) : string :=
  scheduleId +:+ "." +:+ incarnation +:+ "." +:+ str_of_Z tickNumber.

Record ScheduleError : Type := mkScheduleError { se_message : string; se_at : Z }.

Record ScheduleState : Type := mkScheduleState {
  ss_lastFired : option Z;
  ss_tickCount : Z;
  ss_incarnation : string;
  ss_lastError : option ScheduleError;
}.

(** One entry of a [commitPoll] batch. The outer option is [undefined], the
    inner one [null]. *)
Record ScheduleCommit : Type := mkCommit {
  su_id : string;
  su_firedAt : option Z;
  su_tickIncrement : option Z;
  su_nextRun : option (option Z);
  su_expectedTickCount : option Z;
  su_expectedIncarnation : option string;
  su_lastError : option (option ScheduleError);
  su_ticks : option (list ScheduleTick);
}.

Record InMemorySchedulerStorage : Type := mkScheduler {
  schedules : jmap string DurableScheduleConfig;
  sched_state : jmap string ScheduleState;
  nextRun : jmap string Z;
  sched_ticks : jmap string (list ScheduleTick);
  sched_leases : InMemoryLeaderLeases;
}.

Definition new_scheduler : InMemorySchedulerStorage := mkScheduler ∅ ∅ ∅ ∅ (mkLeaderLeases ∅).

Definition set_schedules (x : jmap string DurableScheduleConfig) (s : InMemorySchedulerStorage) :=
  mkScheduler x (sched_state s) (nextRun s) (sched_ticks s) (sched_leases s).
Definition set_state (x : jmap string ScheduleState) (s : InMemorySchedulerStorage) :=
  mkScheduler (schedules s) x (nextRun s) (sched_ticks s) (sched_leases s).
Definition set_nextRun (x : jmap string Z) (s : InMemorySchedulerStorage) :=
  mkScheduler (schedules s) (sched_state s) x (sched_ticks s) (sched_leases s).
Definition set_ticks (x : jmap string (list ScheduleTick)) (s : InMemorySchedulerStorage) :=
  mkScheduler (schedules s) (sched_state s) (nextRun s) x (sched_leases s).
Definition set_leases (x : InMemoryLeaderLeases) (s : InMemorySchedulerStorage) :=
  mkScheduler (schedules s) (sched_state s) (nextRun s) (sched_ticks s) x.

(** ** Due schedules *)
Definition is_enabled (cfg : DurableScheduleConfig) : bool := bool_decide (sc_enabled cfg <> Some false).

Record due_row : Type := mkDue { du_id : string; du_namespace : option string; du_nextRun : Z }.

(** The loop both due queries make over [nextRun]; [ok] tests the namespace. *)
Definition due_rows (now : Z) (ok : option string -> bool) (s : InMemorySchedulerStorage)
    : list due_row :=
  omap (fun e : string * Z =>
    if e.2 >? now then None else
    cfg ← schedules s !! e.1;
    if is_enabled cfg && ok (sc_namespace cfg) then Some (mkDue e.1 (sc_namespace cfg) e.2) else None)
    (jm_entries (nextRun s)).

Definition by_nextRun (a b : due_row) : Z := du_nextRun a - du_nextRun b.

Definition findDue (now limit : Z) (namespace : option string) (s : InMemorySchedulerStorage)
    : list string :=
  du_id <$> js_slice (jsort by_nextRun (due_rows now (fun n => bool_decide (n = namespace)) s))
              0 (Some limit).

Definition findDueAcross (now limit : Z) (namespaces : option (list (option string)))
    (s : InMemorySchedulerStorage) : list (string * option string) :=
  let ok n := match namespaces with Some f => bool_decide (n ∈ f) | None => true end in
  (fun d => (du_id d, du_namespace d)) <$>
    js_slice (jsort by_nextRun (due_rows now ok s)) 0 (Some limit).

(** ** Loads *)
Definition loadSchedule (id : string) (s : InMemorySchedulerStorage) : option DurableScheduleConfig :=
  schedules s !! id.

Definition collect {V} (find : string -> option V) (ids : list string) : jmap string V :=
  foldl (fun out id => match find id with Some v => <[id := v]> out | None => out end) ∅ ids.

Definition loadSchedules (ids : list string) (s : InMemorySchedulerStorage)
    : jmap string DurableScheduleConfig :=
  collect (fun id => schedules s !! id) ids.

Definition loadScheduleState (id : string) (s : InMemorySchedulerStorage) : option ScheduleState :=
  if bool_decide (schedules s !! id = None) then None else sched_state s !! id.

Definition loadScheduleStates (ids : list string) (s : InMemorySchedulerStorage)
    : jmap string ScheduleState :=
  collect (fun id => loadScheduleState id s) ids.

(** ** Hot-path writes *)
Definition fired (firedAt count : Z) (st : ScheduleState) : ScheduleState :=
  mkScheduleState (Some firedAt) (ss_tickCount st + count) (ss_incarnation st) (ss_lastError st).

Definition recordFire (id : string) (firedAt : Z) (count : option Z) (s : InMemorySchedulerStorage)
    : InMemorySchedulerStorage :=
  match sched_state s !! id with
  | None => s
  | Some prev => set_state (<[id := fired firedAt (opt_or count 1) prev]> (sched_state s)) s
  end.

Definition setNextRun (id : string) (next : option Z) (s : InMemorySchedulerStorage)
    : InMemorySchedulerStorage :=
  match next with
  | None => set_nextRun (delete id (nextRun s)) s
  | Some t => set_nextRun (<[id := t]> (nextRun s)) s
  end.

Definition guarded (u : ScheduleCommit) : bool :=
  bool_decide (su_expectedTickCount u <> None) || bool_decide (su_expectedIncarnation u <> None).

(** The row is not the one the poll loaded. *)
Definition conflicting (u : ScheduleCommit) (state : option ScheduleState) : bool :=
  guarded u &&
  match state with
  | None => true
  | Some st =>
      match su_expectedTickCount u with
      | Some n => bool_decide (ss_tickCount st <> n)
      | None => false
      end
      || match su_expectedIncarnation u with
         | Some i => bool_decide (ss_incarnation st <> i)
         | None => false
         end
  end.

Definition committed_state (u : ScheduleCommit) (st : ScheduleState) : ScheduleState :=
  let next :=
    match su_firedAt u, su_tickIncrement u with
    | Some at_, Some n => if n >? 0 then fired at_ n st else st
    | _, _ => st
    end in
  match su_lastError u with
  | Some e => mkScheduleState (ss_lastFired next) (ss_tickCount next) (ss_incarnation next) e
  | None => next
  end.

Definition tick_key (t : ScheduleTick) : string :=
  ti_incarnation t +:+ "." +:+ str_of_Z (ti_tickNumber t).

(** The log after a commit: the ticks whose keys it did not have before the
    commit are appended (the key set is not extended as it goes). *)
Definition logged (log ticks : list ScheduleTick) : list ScheduleTick :=
  let existing := tick_key <$> log in
  log ++ base.filter (fun t => tick_key t ∉ existing) ticks.

Definition commit_one (acc : list string * InMemorySchedulerStorage) (u : ScheduleCommit)
    : list string * InMemorySchedulerStorage :=
  let '(conflicts, s) := acc in
  let id := su_id u in
  let cfg := schedules s !! id in
  let state := if bool_decide (cfg = None) then None else sched_state s !! id in
  if conflicting u state then (conflicts ++ [id], s)
  else
    match cfg, state with
    | Some cfg, Some st =>
        let s := set_state (<[id := committed_state u st]> (sched_state s)) s in
        let s :=
          if negb (is_enabled cfg) || bool_decide (su_nextRun u = Some None)
          then set_nextRun (delete id (nextRun s)) s
          else match su_nextRun u with
               | Some (Some t) => set_nextRun (<[id := t]> (nextRun s)) s
               | _ => s
               end in
        let s :=
          match su_ticks u with
          | Some ((_ :: _) as ticks) =>
              set_ticks (<[id := logged (opt_or (sched_ticks s !! id) []) ticks]> (sched_ticks s)) s
          | _ => s
          end in
        (conflicts, s)
    | _, _ => (conflicts, set_nextRun (delete id (nextRun s)) s)
    end.

Definition commitPoll (updates : list ScheduleCommit) (lease : option LeaderLease)
    : ST InMemorySchedulerStorage StoreError (list string) := fun s =>
  match match lease with Some l => assertCurrent l (sched_leases s) | None => Ok tt end with
  | Err e => (Err e, s)
  | Ok _ => let '(conflicts, s') := foldl commit_one ([], s) updates in (Ok conflicts, s')
  end.

(** ** Tick log *)
Definition newest_tick_first (a b : ScheduleTick) : Z := ti_firedAt b - ti_firedAt a.

Definition listTicks (scheduleId : string) (limit offset : option Z) (s : InMemorySchedulerStorage)
    : list ScheduleTick :=
  let log := opt_or (sched_ticks s !! scheduleId) [] in
  let rows := jsort newest_tick_first log in
  let offset := opt_or offset 0 in
  let limit := opt_or limit (Z.of_nat (length rows)) in
  js_slice rows offset (Some (offset + limit)).

Definition countTicks (scheduleId : string) (s : InMemorySchedulerStorage) : Z :=
  from_option (fun log => Z.of_nat (length log)) 0 (sched_ticks s !! scheduleId).

(** ** Schedules *)
Definition with_enabled (b : bool) (cfg : DurableScheduleConfig) : DurableScheduleConfig :=
  mkConfig (sc_id cfg) (sc_name cfg) (sc_namespace cfg) (sc_cron cfg) (sc_rrule cfg)
    (sc_intervalMs cfg) (sc_timezone cfg) (Some b) (sc_startAt cfg) (sc_endAt cfg) (sc_jitterMs cfg)
    (sc_metadata cfg) (sc_maxCatchUp cfg).

Definition seedNextRun (now : Z) (cfg : DurableScheduleConfig) (s : InMemorySchedulerStorage)
    : InMemorySchedulerStorage :=
  if bool_decide (nextRun s !! sc_id cfg <> None) then s
  else set_nextRun (<[sc_id cfg := Z.max now (opt_or (sc_startAt cfg) 0)]> (nextRun s)) s.

Definition upserted_state (fresh : string) (prev : option ScheduleState) : ScheduleState :=
  match prev with
  | Some st => mkScheduleState (ss_lastFired st) (ss_tickCount st) (ss_incarnation st) None
  | None => mkScheduleState None 0 fresh None
  end.

Definition upsertSchedule (now : Z) (fresh : string) (cfg : DurableScheduleConfig)
    (s : InMemorySchedulerStorage) : InMemorySchedulerStorage :=
  let enabled := is_enabled cfg in
  let s := set_schedules (<[sc_id cfg := with_enabled enabled cfg]> (schedules s)) s in
  let s := set_state (<[sc_id cfg := upserted_state fresh (sched_state s !! sc_id cfg)]>
                        (sched_state s)) s in
  if negb enabled then set_nextRun (delete (sc_id cfg) (nextRun s)) s else seedNextRun now cfg s.

Definition insertSchedule (now : Z) (fresh : string) (cfg : DurableScheduleConfig)
    (s : InMemorySchedulerStorage) : bool * InMemorySchedulerStorage :=
  if bool_decide (schedules s !! sc_id cfg <> None) then (false, s)
  else (true, upsertSchedule now fresh cfg s).

Definition deleteSchedule (id : string) (s : InMemorySchedulerStorage) : InMemorySchedulerStorage :=
  mkScheduler (delete id (schedules s)) (delete id (sched_state s)) (delete id (nextRun s))
    (delete id (sched_ticks s)) (sched_leases s).

Definition setEnabled (now : Z) (id : string) (enabled : bool) (s : InMemorySchedulerStorage)
    : InMemorySchedulerStorage :=
  match schedules s !! id with
  | None => s
  | Some cfg =>
      let s := set_schedules (<[id := with_enabled enabled cfg]> (schedules s)) s in
      if negb enabled then set_nextRun (delete id (nextRun s)) s else seedNextRun now cfg s
  end.

Definition applyFilters (enabled : option bool) (namespace : option string)
    (metadata : option (list (string * json))) (s : InMemorySchedulerStorage)
    : list DurableScheduleConfig :=
  base.filter (fun cfg =>
      Is_true (match enabled with Some b => bool_decide (opt_or (sc_enabled cfg) true = b) | None => true end
               && match namespace with Some n => bool_decide (sc_namespace cfg = Some n) | None => true end
               && match metadata with
                  | Some f => scheduleMetadataContains (sc_metadata cfg) f
                  | None => true
                  end))
    (jm_values (schedules s)).

Definition listSchedules (enabled : option bool) (namespace : option string)
    (metadata : option (list (string * json))) (limit offset : option Z) (s : InMemorySchedulerStorage)
    : list DurableScheduleConfig :=
  let offset := opt_or offset 0 in
  js_slice (applyFilters enabled namespace metadata s) offset (Some (offset + opt_or limit 100)).

Definition countSchedules (enabled : option bool) (namespace : option string)
    (metadata : option (list (string * json))) (s : InMemorySchedulerStorage) : Z :=
  Z.of_nat (length (applyFilters enabled namespace metadata s)).

(** ** Leader leases *)
Definition on_leases {A} (r : A * InMemoryLeaderLeases) (s : InMemorySchedulerStorage)
    : A * InMemorySchedulerStorage := (r.1, set_leases r.2 s).

#[export] Instance InMemorySchedulerStorage_leases : LeaderLeaseStore InMemorySchedulerStorage := {
  tryAcquireLeader now key instanceId ttlMs s := on_leases (acquire now key instanceId ttlMs (sched_leases s)) s;
  releaseLeader now lease s := set_leases (releaseLeaderLease now lease (sched_leases s)) s;
}.

(** ** Schedules of calls *)
Inductive scheduler_op : Type :=
| SRecordFire (id : string) (firedAt : Z) (count : option Z)
| SSetNextRun (id : string) (next : option Z)
| SCommitPoll (updates : list ScheduleCommit) (lease : option LeaderLease)
| SUpsert (fresh : string) (cfg : DurableScheduleConfig)
| SInsert (fresh : string) (cfg : DurableScheduleConfig)
| SDelete (id : string)
| SSetEnabled (id : string) (enabled : bool)
| SAcquire (key instanceId : string) (ttlMs : Z)
| SRelease (lease : LeaderLease).

Definition run_scheduler_op (now : Z) (op : scheduler_op) (s : InMemorySchedulerStorage)
    : InMemorySchedulerStorage :=
  match op with
  | SRecordFire id at_ n => recordFire id at_ n s
  | SSetNextRun id next => setNextRun id next s
  | SCommitPoll us lease => (commitPoll us lease s).2
  | SUpsert fresh cfg => upsertSchedule now fresh cfg s
  | SInsert fresh cfg => (insertSchedule now fresh cfg s).2
  | SDelete id => deleteSchedule id s
  | SSetEnabled id b => setEnabled now id b s
  | SAcquire key i ttl => (tryAcquireLeader now key i ttl s).2
  | SRelease lease => releaseLeader now lease s
  end.

Definition run_scheduler_ops : list (Z * scheduler_op) -> InMemorySchedulerStorage ->
    InMemorySchedulerStorage := run_ops run_scheduler_op.

(** ** The lease store inside *)
#[export] Instance InMemorySchedulerStorage_laws : LeaderLeaseLaws InMemorySchedulerStorage.
Proof.
  pose proof InMemoryLeaderLeases_laws as [h e busy free rc rs re ro rw].
  refine {| live_holder now k s := h now k (sched_leases s); key_epoch k s := e k (sched_leases s) |};
    cbn [tryAcquireLeader releaseLeader InMemorySchedulerStorage_leases InMemoryLeaderLeases_store] in *.
  - intros now k i j ttl s Hh Hj. unfold on_leases. rewrite (busy _ _ _ _ _ _ Hh Hj). by destruct s.
  - intros now k i ttl s Hh. destruct (free now k i ttl _ Hh) as (s' & Hs & H).
    exists (set_leases s' s). unfold on_leases. rewrite Hs. by split.
  - intros now l s. apply rc.
  - intros now l s H. rewrite rs by done. by destruct s.
  - intros now l s k. apply re.
  - intros now l s k t. apply ro.
  - intros now l s t j. apply rw.
Qed.

Lemma commit_one_leases acc u : sched_leases (commit_one acc u).2 = sched_leases acc.2.
Proof. destruct acc as [c s]. unfold commit_one. by repeat case_match. Qed.

Lemma commit_fold_leases us acc : sched_leases (foldl commit_one acc us).2 = sched_leases acc.2.
Proof.
  revert acc. induction us as [|u us IH]; intros acc; cbn; [done|]. by rewrite IH, commit_one_leases.
Qed.

Lemma upsert_leases now fresh cfg s : sched_leases (upsertSchedule now fresh cfg s) = sched_leases s.
Proof. unfold upsertSchedule, seedNextRun. by repeat case_match. Qed.

Lemma run_scheduler_op_leases now op s :
  sched_leases (run_scheduler_op now op s) =
    match op with
    | SAcquire key i ttl => run_leader_op now (LAcquire key i ttl) (sched_leases s)
    | SRelease lease => run_leader_op now (LRelease lease) (sched_leases s)
    | _ => sched_leases s
    end.
Proof.
  destruct op; cbn [run_scheduler_op]; try done.
  - unfold recordFire. by case_match.
  - by destruct next.
  - unfold commitPoll. destruct lease as [l|]; [destruct (assertCurrent _ _)|];
      try (pose proof (commit_fold_leases updates ([], s)) as H; destruct (foldl _ _ _); exact H); done.
  - apply upsert_leases.
  - unfold insertSchedule. case_match; [done|]. apply upsert_leases.
  - unfold setEnabled, seedNextRun. by repeat case_match.
Qed.

Lemma run_scheduler_ops_epoch sched s k :
  mem_key_epoch k (sched_leases s) <= mem_key_epoch k (sched_leases (run_scheduler_ops sched s)).
Proof.
  apply (run_ops_inv_all _ (fun s' => mem_key_epoch k (sched_leases s) <= mem_key_epoch k (sched_leases s')));
    [|lia].
  intros now op s' Hs. rewrite run_scheduler_op_leases.
  destruct op; try done; (etrans; [exact Hs|apply run_leader_op_epoch]).
Qed.

(** A deposed leader commits nothing: once a new lease started on its
    key, every [commitPoll] under the old lease fails as a whole and leaves
    schedules, fire state, due-tracking and tick log as they were, whatever
    calls follow. *)
Theorem deposed_leader_commits_nothing now k i ttl s l s1 mid now2 j ttl2 l2 s2 after us :
  tryAcquireLeader now k i ttl s = (Some l, s1) ->
  tryAcquireLeader now2 k j ttl2 (run_scheduler_ops mid s1) = (Some l2, s2) ->
  ll_epoch l2 <> ll_epoch l ->
  let s3 := run_scheduler_ops after s2 in
  exists e, commitPoll us (Some l) s3 = (Err e, s3).
Proof.
  intros H1 H2 Hne s3. cbn in H1, H2. unfold on_leases in H1, H2.
  destruct (acquire now k i ttl (sched_leases s)) as [o1 t1] eqn:E1. cbn [fst snd] in H1. injection H1 as -> <-.
  destruct (acquire now2 k j ttl2 _) as [o2 t2] eqn:E2. cbn [fst snd] in H2. injection H2 as -> <-.
  destruct (acquire_epoch _ _ _ _ _ _ _ E1) as [Hk He%currentEpoch_key].
  pose proof (run_scheduler_ops_epoch mid (set_leases t1 s) k) as Hmid. cbn [set_leases sched_leases] in Hmid.
  rewrite He in Hmid.
  destruct (acquire_supersedes_epoch _ _ _ _ _ l _ _ Hk Hmid E2 Hne) as [_ Hlt].
  pose proof (run_scheduler_ops_epoch after (set_leases t2 (run_scheduler_ops mid (set_leases t1 s))) k) as Haft.
  cbn [set_leases sched_leases] in Haft.
  destruct (past_epoch_rejected l (sched_leases s3)) as [e He']; [rewrite Hk; unfold s3; cbn in *; lia|].
  exists e. unfold commitPoll. by rewrite He'.
Qed.

Lemma deposed_leader_commits_nothing_witness :
  exists e, commitPoll [] (Some (mkLeaderLease "k" "a" 1))
    (run_scheduler_ops [(9, SDelete "x")]
       (tryAcquireLeader 7 "k" "b" 5 (tryAcquireLeader 0 "k" "a" 5 new_scheduler).2).2)
  = (Err e, run_scheduler_ops [(9, SDelete "x")]
       (tryAcquireLeader 7 "k" "b" 5 (tryAcquireLeader 0 "k" "a" 5 new_scheduler).2).2).
Proof.
  eapply (deposed_leader_commits_nothing 0 "k" "a" 5 new_scheduler (mkLeaderLease "k" "a" 1) _ [] 7 "b" 5
    (mkLeaderLease "k" "b" 2)); try reflexivity. discriminate.
Defined.

(** ** Tick numbers are committed once *)
(** The fire state of [id] is past tick [n] of incarnation [i], if it still
    is that incarnation's. *)
Definition past_tick (id i : string) (n : Z) (s : InMemorySchedulerStorage) : Prop :=
  forall st, sched_state s !! id = Some st -> ss_incarnation st = i -> n < ss_tickCount st.

(** Counts do not go backwards and no new incarnation takes the token [i]. *)
Definition forward (i : string) (op : scheduler_op) : Prop :=
  match op with
  | SRecordFire _ _ count => 0 <= opt_or count 1
  | SUpsert fresh _ | SInsert fresh _ => fresh <> i
  | _ => True
  end.

Lemma past_tick_put id i n id' st st' s m :
  past_tick id i n s -> sched_state s !! id' = Some st ->
  ss_incarnation st' = ss_incarnation st -> ss_tickCount st <= ss_tickCount st' ->
  sched_state m = <[id' := st']> (sched_state s) -> past_tick id i n m.
Proof.
  intros Hp Hst Hi Hc Hm u. rewrite Hm, jlookup_insert. case_decide as Hid; [|apply Hp].
  subst id'. intros [= <-] Hu. specialize (Hp _ Hst). rewrite <- Hi in Hp. specialize (Hp Hu). lia.
Qed.

Lemma past_tick_state id i n s m : past_tick id i n s -> sched_state m = sched_state s -> past_tick id i n m.
Proof. intros Hp Hm u. rewrite Hm. apply Hp. Qed.

Lemma committed_state_forward u st :
  ss_incarnation (committed_state u st) = ss_incarnation st /\
  ss_tickCount st <= ss_tickCount (committed_state u st).
Proof. unfold committed_state. repeat case_match; cbn; split; try done; lia. Qed.

(** The fire state after one entry of a batch. *)
Lemma commit_one_state acc u :
  let s' := (commit_one acc u).2 in
  sched_state s' = sched_state acc.2 \/
  exists st, sched_state acc.2 !! su_id u = Some st /\ conflicting u (Some st) = false /\
    sched_state s' = <[su_id u := committed_state u st]> (sched_state acc.2).
Proof.
  destruct acc as [c s]. unfold commit_one. case_bool_decide as Hcfg.
  { rewrite Hcfg. destruct (conflicting u None); by left. }
  destruct (conflicting u _) eqn:Hc; [by left|].
  destruct (schedules s !! su_id u); [|done]. destruct (sched_state s !! su_id u) as [st|] eqn:Hst; [|by left].
  right. exists st. split; [done|]. split; [done|]. by repeat case_match.
Qed.

Lemma past_tick_commit id i n acc u :
  past_tick id i n acc.2 -> past_tick id i n (commit_one acc u).2.
Proof.
  intros Hp. destruct (commit_one_state acc u) as [Hs|(st & Hst & _ & Hs)].
  - by eapply past_tick_state.
  - destruct (committed_state_forward u st). by eapply past_tick_put.
Qed.

Lemma past_tick_fold id i n us acc :
  past_tick id i n acc.2 -> past_tick id i n (foldl commit_one acc us).2.
Proof.
  revert acc. induction us as [|u us IH]; intros acc Hp; cbn; [done|]. by apply IH, past_tick_commit.
Qed.

Lemma upsert_sched_state now fresh cfg s :
  sched_state (upsertSchedule now fresh cfg s) =
    <[sc_id cfg := upserted_state fresh (sched_state s !! sc_id cfg)]> (sched_state s).
Proof. unfold upsertSchedule, seedNextRun. by repeat case_match. Qed.

Lemma past_tick_upsert id i n now fresh cfg s :
  fresh <> i -> past_tick id i n s -> past_tick id i n (upsertSchedule now fresh cfg s).
Proof.
  intros Hf Hp u. rewrite upsert_sched_state, jlookup_insert. case_decide as Hid; [|apply Hp].
  intros [= <-]. subst id. destruct (sched_state s !! sc_id cfg) as [st|] eqn:Hst; cbn; [|done].
  by apply Hp.
Qed.

Lemma past_tick_run id i n now op s :
  forward i op -> past_tick id i n s -> past_tick id i n (run_scheduler_op now op s).
Proof.
  intros Hf Hp. destruct op; cbn [run_scheduler_op]; try done.
  - unfold recordFire. destruct (sched_state s !! id0) as [st|] eqn:Hst; [|done].
    eapply past_tick_put; [done|done| | |done]; cbn; [done|cbn in Hf; lia].
  - destruct next; by eapply past_tick_state.
  - unfold commitPoll. pose proof (past_tick_fold id i n updates ([], s) Hp) as H.
    destruct lease as [l|]; [destruct (assertCurrent _ _)|]; destruct (foldl _ _ _); done.
  - by apply past_tick_upsert.
  - unfold insertSchedule. case_match; [done|]. by apply past_tick_upsert.
  - intros u. cbn. rewrite jlookup_delete. case_decide; [done|apply Hp].
  - unfold setEnabled, seedNextRun. destruct (schedules s !! id0); [|done].
    eapply past_tick_state; [done|]. by repeat case_match.
Qed.

Lemma past_tick_conflicts u id i n s :
  past_tick id i n s -> su_id u = id -> su_expectedTickCount u = Some n ->
  su_expectedIncarnation u = Some i -> forall c, commit_one (c, s) u = (c ++ [id], s).
Proof.
  intros Hp Hid Hn Hi c. unfold commit_one. rewrite Hid.
  match goal with |- context [conflicting u ?st] => assert (conflicting u st = true) as ->; [|done] end.
  unfold conflicting, guarded. rewrite Hn, Hi. cbn [andb]. rewrite bool_decide_true by done. cbn [orb andb].
  case_bool_decide; [done|]. destruct (sched_state s !! id) as [st|] eqn:Hst; [|done].
  apply orb_true_iff. destruct (decide (ss_incarnation st = i)) as [He|He].
  - left. apply bool_decide_true. specialize (Hp _ Hst He). lia.
  - right. by apply bool_decide_true.
Qed.

(** The conflicts so far do not influence a batch. *)
Lemma commit_one_acc c s u :
  commit_one (c, s) u = (c ++ (commit_one ([], s) u).1, (commit_one ([], s) u).2).
Proof.
  unfold commit_one. destruct (conflicting u _); [done|].
  destruct (schedules s !! su_id u); [|by rewrite app_nil_r].
  case_bool_decide; [done|]. destruct (sched_state s !! su_id u); by rewrite app_nil_r.
Qed.

Lemma commit_fold_acc us c s :
  foldl commit_one (c, s) us = (c ++ (foldl commit_one ([], s) us).1, (foldl commit_one ([], s) us).2).
Proof.
  revert c s. induction us as [|u us IH]; intros c s; cbn [foldl]; [by rewrite app_nil_r|].
  rewrite (commit_one_acc c). destruct (commit_one ([], s) u) as [c' s']. cbn [fst snd].
  rewrite (IH (c ++ c') s'), (IH c' s'). cbn [fst snd]. by rewrite app_assoc.
Qed.

Lemma commit_fold_app us1 us2 s :
  foldl commit_one ([], s) (us1 ++ us2) =
    let '(c1, s1) := foldl commit_one ([], s) us1 in
    let '(c2, s2) := foldl commit_one ([], s1) us2 in (c1 ++ c2, s2).
Proof.
  rewrite foldl_app. destruct (foldl commit_one ([], s) us1) as [c1 s1].
  rewrite commit_fold_acc. by destruct (foldl commit_one ([], s1) us2).
Qed.

(** An entry that advances tick [n] of incarnation [i]. *)
Record advances (i : string) (n : Z) (u : ScheduleCommit) : Prop := {
  adv_count : su_expectedTickCount u = Some n;
  adv_incarnation : su_expectedIncarnation u = Some i;
  adv_fired : su_firedAt u <> None;
  adv_by : exists k, su_tickIncrement u = Some k /\ 0 < k;
}.

Lemma advance_commits i n u s :
  advances i n u ->
  (commit_one ([], s) u).1 = [su_id u] \/ past_tick (su_id u) i n (commit_one ([], s) u).2.
Proof.
  intros [Hn Hi Hf (k & Hk & Hpos)]. destruct (su_firedAt u) as [at_|] eqn:Hat; [|done].
  assert (guarded u = true) as Hg by (unfold guarded; by rewrite Hn).
  destruct (commit_one_state ([], s) u) as [Hs|(st & Hst & Hc & Hs)].
  - unfold commit_one in *. destruct (conflicting u _) eqn:Hc; [by left|].
    unfold conflicting in Hc. rewrite Hg in Hc. case_bool_decide; [done|].
    destruct (sched_state s !! su_id u) as [st|] eqn:Hst; [|done].
    destruct (schedules s !! su_id u); [|done]. cbn [andb] in Hc. rewrite Hn, Hi in Hc.
    apply orb_false_iff in Hc as [Hc1 Hc2]. apply bool_decide_eq_false in Hc1, Hc2.
    right. intros st' Hst'. exfalso. cbn [snd] in Hs.
    assert (sched_state s !! su_id u = Some (committed_state u st)) as Heq.
    { rewrite <- Hs at 1. repeat case_match; cbn; by rewrite jlookup_insert_eq. }
    rewrite Hst in Heq. injection Heq as Heq. apply (f_equal ss_tickCount) in Heq.
    unfold committed_state in Heq. rewrite Hat, Hk in Heq.
    assert ((k >? 0) = true) as Hk0 by lia. rewrite Hk0 in Heq. destruct (su_lastError u); cbn in Heq; lia.
  - right. intros st'. rewrite Hs, jlookup_insert_eq. intros [= <-] _.
    unfold conflicting in Hc. rewrite Hg in Hc. cbn [andb] in Hc. rewrite Hn, Hi in Hc.
    apply orb_false_iff in Hc as [Hc1%bool_decide_eq_false _].
    unfold committed_state. rewrite Hat, Hk. assert ((k >? 0) = true) as -> by lia.
    destruct (su_lastError u); cbn; lia.
Qed.

Lemma commitPoll_Ok us lease s cs s' :
  commitPoll us lease s = (Ok cs, s') -> foldl commit_one ([], s) us = (cs, s').
Proof.
  unfold commitPoll. destruct (match lease with Some _ => _ | None => _ end); [|done].
  destruct (foldl _ _ _). by intros [= <- <-].
Qed.

(** A tick number is committed once. After a poll committed the entry
    that advances schedule [id] from tick [n] of incarnation [i], every later
    entry expecting that tick and incarnation, from a retry, a second poll
    loop or a stale leader, is reported as a conflict and changes nothing:
    its batch does what it does without the entry. *)
Theorem tick_committed_once us1 u us2 lease s cs s1 sched i n :
  commitPoll (us1 ++ u :: us2) lease s = (Ok cs, s1) ->
  advances i n u -> (su_id u ∉ cs) -> Forall (fun e => forward i e.2) sched ->
  let s2 := run_scheduler_ops sched s1 in
  forall us1' u' us2' lease' cs' s3,
    su_id u' = su_id u -> su_expectedTickCount u' = Some n -> su_expectedIncarnation u' = Some i ->
    commitPoll (us1' ++ u' :: us2') lease' s2 = (Ok cs', s3) ->
    (su_id u ∈ cs') /\ (commitPoll (us1' ++ us2') lease' s2).2 = s3.
Proof.
  intros H1%commitPoll_Ok Hadv Hcs Hsched s2 us1' u' us2' lease' cs' s3 Hid Hn Hi H2.
  assert (past_tick (su_id u) i n s1) as Hp.
  { rewrite commit_fold_app in H1. destruct (foldl commit_one ([], s) us1) as [c0 s0]. cbn [foldl] in H1.
    destruct (advance_commits i n u s0 Hadv) as [Hc|Hp]; destruct (commit_one ([], s0) u) as [c0' s0'];
      cbn [fst snd] in *; rewrite commit_fold_acc in H1;
      pose proof (past_tick_fold (su_id u) i n us2 ([], s0')) as Hf;
      destruct (foldl commit_one ([], s0') us2) as [c3 s3']; cbn [fst snd] in *; simplify_eq.
    - destruct Hcs. apply elem_of_app. right. apply list_elem_of_here.
    - by apply Hf. }
  assert (past_tick (su_id u) i n s2) as Hp2.
  { apply (run_ops_inv _ (fun e => forward i e.2) (past_tick (su_id u) i n)); [|done|done].
    intros now op s' Hf Hs'. by apply past_tick_run. }
  unfold commitPoll in H2 |- *. destruct (match lease' with Some _ => _ | None => _ end); [|done].
  rewrite commit_fold_app in H2 |- *. pose proof (past_tick_fold _ i n us1' ([], s2) Hp2) as Hp3.
  destruct (foldl commit_one ([], s2) us1') as [c0 s0]. cbn [foldl snd] in *.
  rewrite (past_tick_conflicts u' _ i n s0 Hp3 Hid Hn Hi) in H2. rewrite commit_fold_acc in H2.
  destruct (foldl commit_one ([], s0) us2') as [c3 s3']. cbn [fst snd] in *. simplify_eq.
  split; [|done]. apply elem_of_app. right. apply list_elem_of_here.
Qed.

Definition sample_config (id : string) : DurableScheduleConfig :=
  mkConfig id None None None None (Some 60) None None None None None None None.

Definition sample_tick (n : Z) : ScheduleTick := mkTick "s" None 60 60 "inc" n None.

Definition sample_commit (ticks : list ScheduleTick) : ScheduleCommit :=
  mkCommit "s" (Some 60) (Some 1) (Some (Some 120)) (Some 0) (Some "inc") None (Some ticks).

Definition sample_scheduler : InMemorySchedulerStorage :=
  upsertSchedule 0 "inc" (sample_config "s") new_scheduler.

Lemma tick_committed_once_witness :
  ("s" ∈ (["s"] : list string)) /\
  (commitPoll [] None (run_scheduler_ops [(70, SSetNextRun "s" (Some 70))]
     (commitPoll [sample_commit [sample_tick 0]] None sample_scheduler).2)).2 =
  (commitPoll [sample_commit [sample_tick 0]] None (run_scheduler_ops [(70, SSetNextRun "s" (Some 70))]
     (commitPoll [sample_commit [sample_tick 0]] None sample_scheduler).2)).2.
Proof.
  eapply (tick_committed_once [] (sample_commit [sample_tick 0]) [] None sample_scheduler []
    _ [(70, SSetNextRun "s" (Some 70))] "inc" 0 eq_refl) with (us1' := []) (us2' := [])
      (u' := sample_commit [sample_tick 0]); try reflexivity.
  - split; try done. by exists 1.
  - apply not_elem_of_nil.
  - by repeat constructor.
Defined.

(** ** Due schedules *)
Record scheduler_ok (s : InMemorySchedulerStorage) : Prop := {
  sok_next : jm_wf (nextRun s);
  sok_cfg : forall id cfg, schedules s !! id = Some cfg -> sc_id cfg = id;
  (** a schedule and its fire state come and go together *)
  sok_state : forall id, schedules s !! id = None <-> sched_state s !! id = None;
}.

Lemma commit_one_ok acc u : scheduler_ok acc.2 -> scheduler_ok (commit_one acc u).2.
Proof.
  destruct acc as [c s]. cbn [snd]. intros [Hn Hc Hs]. unfold commit_one.
  destruct (conflicting u _); [done|].
  destruct (schedules s !! su_id u) as [cfg|] eqn:Hcfg;
    [|split; cbn; [by apply jm_wf_delete|done..]].
  rewrite bool_decide_false by done.
  destruct (sched_state s !! su_id u) as [st|] eqn:Hst; [|split; cbn; [by apply jm_wf_delete|done..]].
  assert (forall m, schedules m = schedules s ->
    sched_state m = <[su_id u := committed_state u st]> (sched_state s) ->
    jm_wf (nextRun m) -> scheduler_ok m) as Hok.
  { intros m Hm1 Hm2 Hm3. split; rewrite ?Hm1, ?Hm2; try done. intros id. rewrite jlookup_insert.
    case_decide as Hid; [|apply Hs]. subst id. rewrite Hcfg. by split. }
  apply Hok; repeat case_match; try done; cbn; by auto using jm_wf_delete, jm_wf_insert.
Qed.

Lemma seed_ok now cfg s : scheduler_ok s -> scheduler_ok (seedNextRun now cfg s).
Proof. intros [Hn Hc Hs]. unfold seedNextRun. case_bool_decide; [done|]. split; cbn; auto with promin. Qed.

Lemma upsert_ok now fresh cfg s : scheduler_ok s -> scheduler_ok (upsertSchedule now fresh cfg s).
Proof.
  intros [Hn Hc Hs]. unfold upsertSchedule.
  match goal with |- context [seedNextRun now cfg ?m] => assert (scheduler_ok m) as Hm end.
  { split; cbn; [done| |].
    - intros id c. rewrite jlookup_insert. case_decide; [by intros [= <-]|apply Hc].
    - intros id. rewrite !jlookup_insert. case_decide; [done|apply Hs]. }
  destruct (negb (is_enabled cfg)); [|by apply seed_ok].
  destruct Hm as [H1 H2 H3]. split; [by apply jm_wf_delete|exact H2|exact H3].
Qed.

Lemma run_scheduler_op_ok now op s : scheduler_ok s -> scheduler_ok (run_scheduler_op now op s).
Proof.
  intros Hok. pose proof Hok as [Hn Hc Hs]. destruct op; cbn [run_scheduler_op].
  - unfold recordFire. destruct (sched_state s !! id) as [st|] eqn:Hst; [|done]. split; cbn; [done..|].
    intros i. rewrite jlookup_insert. case_decide as Hi; [|apply Hs]. subst i. rewrite Hs, Hst. by split.
  - destruct next; split; cbn; auto with promin.
  - unfold commitPoll. assert (scheduler_ok (foldl commit_one ([], s) updates).2) as H.
    { generalize (@nil string). clear -Hok. revert s Hok.
      induction updates as [|u us IH]; intros s Hok c; cbn [foldl]; [done|].
      pose proof (commit_one_ok (c, s) u Hok) as H. destruct (commit_one (c, s) u) as [c' s']. by apply IH. }
    destruct lease as [l|]; [destruct (assertCurrent _ _)|]; destruct (foldl _ _ _); done.
  - by apply upsert_ok.
  - unfold insertSchedule. case_bool_decide; [done|]. by apply upsert_ok.
  - split; cbn; [by apply jm_wf_delete| |].
    + intros i c. rewrite jlookup_delete. case_decide; [done|apply Hc].
    + intros i. rewrite !jlookup_delete. case_decide; [done|apply Hs].
  - unfold setEnabled. destruct (schedules s !! id) as [cfg|] eqn:Hcfg; [|done].
    match goal with |- context [seedNextRun now cfg ?m] => assert (scheduler_ok m) as Hm end.
    { split; cbn; [done| |].
      - intros i c. rewrite jlookup_insert. case_decide; [|apply Hc]. intros [= <-]. cbn. subst i. by apply Hc.
      - intros i. rewrite jlookup_insert. case_decide as Hi; [|apply Hs]. subst i. rewrite <- Hs, Hcfg. by split. }
    destruct enabled; cbn [negb]; [by apply seed_ok|]. destruct Hm as [H1 H2 H3].
    split; [by apply jm_wf_delete|exact H2|exact H3].
  - done.
  - done.
Qed.

Lemma run_scheduler_ops_ok sched : scheduler_ok (run_scheduler_ops sched new_scheduler).
Proof.
  apply (run_ops_inv_all _ scheduler_ok); [intros; by apply run_scheduler_op_ok|].
  split; [apply jm_wf_empty|done|by split].
Qed.

(** A schedule a poll at [now] in [namespace] has to fire. *)
Definition is_due (now : Z) (namespace : option string) (s : InMemorySchedulerStorage)
    (id : string) (at_ : Z) : Prop :=
  nextRun s !! id = Some at_ /\ at_ <= now /\
  exists cfg, schedules s !! id = Some cfg /\ sc_enabled cfg <> Some false /\ sc_namespace cfg = namespace.

Lemma elem_of_due_rows now ok s d :
  jm_wf (nextRun s) ->
  d ∈ due_rows now ok s <->
    nextRun s !! du_id d = Some (du_nextRun d) /\ du_nextRun d <= now /\
    exists cfg, schedules s !! du_id d = Some cfg /\ sc_enabled cfg <> Some false /\
      ok (sc_namespace cfg) = true /\ du_namespace d = sc_namespace cfg.
Proof.
  intros Hwf. unfold due_rows. rewrite list_elem_of_omap. split.
  - intros ([id t] & He & Hd). cbn in Hd. destruct (t >? now) eqn:Ht; [done|].
    destruct (schedules s !! id) as [cfg|] eqn:Hcfg; [|done]. cbn in Hd.
    destruct (is_enabled cfg) eqn:Hen; [|done]. destruct (ok _) eqn:Hok; [|done]. injection Hd as <-. cbn.
    split; [by apply jlookup_wf_elem|]. split; [lia|]. exists cfg. split; [done|].
    split; [by apply bool_decide_eq_true in Hen|done].
  - intros (Hn & Hle & cfg & Hcfg & Hen & Hok & Hns). exists (du_id d, du_nextRun d).
    split; [by apply jlookup_elem|]. cbn. assert ((du_nextRun d >? now) = false) as -> by lia.
    rewrite Hcfg. cbn. unfold is_enabled. rewrite bool_decide_true, Hok by done. cbn.
    destruct d; cbn in *. by subst.
Qed.

Lemma due_rows_ids now ok s : jm_wf (nextRun s) -> NoDup (du_id <$> due_rows now ok s).
Proof.
  unfold jm_wf, jm_keys, due_rows. induction (jm_entries (nextRun s)) as [|[id t] l IH]; [done|].
  intros [Hni Hnd]%NoDup_cons. specialize (IH Hnd). cbn [omap list_omap fst snd].
  assert (forall d, d ∈ omap (fun e : string * Z => if e.2 >? now then None else
    cfg ← schedules s !! e.1; if is_enabled cfg && ok (sc_namespace cfg)
    then Some (mkDue e.1 (sc_namespace cfg) e.2) else None) l -> du_id d ∈ l.*1) as Hin.
  { intros d ([i u] & He & Hd)%list_elem_of_omap. cbn in Hd.
    destruct (u >? now); [done|]. destruct (schedules s !! i); [|done]. cbn in Hd.
    destruct (_ && _); [|done]. injection Hd as <-. cbn. by apply (list_elem_of_fmap_2 fst) in He. }
  destruct (t >? now); [exact IH|]. destruct (schedules s !! id) as [cfg|]; [|exact IH]. cbn.
  destruct (_ && _); [|exact IH]. cbn. apply NoDup_cons. split; [|exact IH].
  intros ([] & Hd & Hd')%list_elem_of_fmap. cbn in Hd. subst. apply Hin in Hd'. by apply Hni.
Qed.

#[global] Instance by_nextRun_consistent : ConsistentCmp by_nextRun := cmp_on_consistent du_nextRun num_cmp _.

(** What a poll finds: [findDue] reports the first [limit], by due time,
    of exactly the enabled schedules of the namespace whose next run has
    come: only such, none twice, earliest first, and one is left out only
    when [limit] others are reported that are due no later. *)
Theorem findDue_exact sched now limit ns :
  0 <= limit ->
  let s := run_scheduler_ops sched new_scheduler in
  let due := findDue now limit ns s in
  NoDup due /\ Z.of_nat (length due) <= limit /\
  (forall id, id ∈ due -> exists at_, is_due now ns s id at_) /\
  (forall id at_, is_due now ns s id at_ -> (id ∉ due) ->
     Z.of_nat (length due) = limit /\
     forall id' at', id' ∈ due -> nextRun s !! id' = Some at' -> at' <= at_) /\
  StronglySorted (fun a b => opt_or (nextRun s !! a) 0 <= opt_or (nextRun s !! b) 0) due.
Proof.
  intros H0 s due. destruct (run_scheduler_ops_ok sched) as [Hwf _ _]. fold s in Hwf.
  set (ok := fun n => bool_decide (n = ns)). set (rows := jsort by_nextRun (due_rows now ok s)).
  assert (due = du_id <$> take (Z.to_nat limit) rows) as Hdue.
  { unfold due, findDue. rewrite <- (Z2Nat.id limit) at 1 by done. by rewrite js_slice_take. }
  assert (forall d, d ∈ rows <-> is_due now ns s (du_id d) (du_nextRun d) /\ du_namespace d = ns) as Hrows.
  { intros d. unfold rows. rewrite elem_of_jsort, elem_of_due_rows by done. unfold ok, is_due. split.
    - intros (? & ? & cfg & ? & ? & Hok%bool_decide_eq_true & ?). split; [|congruence]. eauto 10.
    - intros ((? & ? & cfg & ? & ? & ?) & ?). split; [done|]. split; [done|]. exists cfg.
      split_and!; [done..|by apply bool_decide_true|congruence]. }
  assert (StronglySorted (cmp_le by_nextRun) rows) as Hsort by (apply (jsort_sorted by_nextRun)).
  split_and!.
  - rewrite Hdue. eapply sublist_NoDup; [|apply fmap_sublist, sublist_take].
    unfold rows. rewrite jsort_perm. by apply due_rows_ids.
  - rewrite Hdue, length_fmap, length_take. lia.
  - rewrite Hdue. intros id (d & -> & Hd)%list_elem_of_fmap.
    eapply elem_of_sublist in Hd; [|apply sublist_take]. apply Hrows in Hd as [? _]. eauto.
  - intros id at_ Hd Hni. destruct Hd as (Hn & Hle & Hcfg).
    assert (mkDue id ns at_ ∈ rows) as Hin by (by apply Hrows).
    rewrite <- (take_drop (Z.to_nat limit) rows) in Hin, Hsort. apply elem_of_app in Hin as [Hin|Hin].
    { destruct Hni. rewrite Hdue. by apply (list_elem_of_fmap_2 du_id) in Hin. }
    split.
    + rewrite Hdue, length_fmap, length_take. pose proof (length_drop rows (Z.to_nat limit)) as Hl.
      destruct (drop (Z.to_nat limit) rows); [by apply not_elem_of_nil in Hin|]. cbn in Hl. lia.
    + rewrite Hdue. intros id' at' (d & -> & Hd)%list_elem_of_fmap Hn'.
      pose proof (StronglySorted_app_1_elem_of _ _ _ _ _ Hsort Hd Hin) as Hc.
      eapply elem_of_sublist in Hd; [|apply sublist_take]. apply Hrows in Hd as [[Hn2 _] _].
      unfold cmp_le, by_nextRun in Hc. cbn in Hc. rewrite Hn' in Hn2. injection Hn2 as ->. lia.
  - rewrite Hdue. eapply StronglySorted_sublist in Hsort; [|apply (sublist_take _ (Z.to_nat limit))].
    eapply (StronglySorted_Forall2 _ _ (fun d id => id = du_id d /\ nextRun s !! id = Some (du_nextRun d)));
      [| |exact Hsort].
    + intros a a' b b' [-> Ha] [-> Hb]. rewrite Ha, Hb. unfold cmp_le, by_nextRun. cbn. unfold id. lia.
    + apply Forall2_fmap_r, Forall_Forall2_diag, Forall_forall. intros d Hd.
      eapply elem_of_sublist in Hd; [|apply sublist_take]. by apply Hrows in Hd as [[Hn _] _].
Qed.

Lemma findDue_exact_witness :
  let s := run_scheduler_ops [(0, SUpsert "i" (sample_config "a")); (5, SUpsert "i" (sample_config "b"))]
             new_scheduler in
  findDue 9 1 None s = ["a"] /\ NoDup (findDue 9 1 None s).
Proof. split; [vm_compute; reflexivity|]. apply (findDue_exact _ 9 1 None); lia. Defined.

(** ** The tick log *)
Definition tick_number (t : ScheduleTick) : string * Z := (ti_incarnation t, ti_tickNumber t).

Lemma app_dot_inj (a a' : string) m n :
  a +:+ "." +:+ str_of_Z m = a' +:+ "." +:+ str_of_Z n -> a = a' /\ m = n.
Proof.
  revert a'. induction a as [|x a IH]; intros [|x' a'] H; autorewrite with str in H.
  - injection H as H. apply (inj str_of_Z) in H. by split.
  - exfalso. injection H as <- H. pose proof (str_of_Z_chars m) as Hm. rewrite H in Hm.
    rewrite !string_forallb_app in Hm. apply andb_prop in Hm as [_ Hm]. discriminate Hm.
  - exfalso. injection H as -> H. pose proof (str_of_Z_chars n) as Hn. rewrite <- H in Hn.
    rewrite !string_forallb_app in Hn. apply andb_prop in Hn as [_ Hn]. discriminate Hn.
  - injection H as -> H. destruct (IH a') as [-> ->]; [|done]. by autorewrite with str.
Qed.

(** The log's key tells incarnation and number apart. *)
Lemma tick_key_inj t t' : tick_key t = tick_key t' -> tick_number t = tick_number t'.
Proof. intros [H1 H2]%app_dot_inj. unfold tick_number. by rewrite H1, H2. Qed.

Lemma tick_number_key t t' : tick_number t = tick_number t' -> tick_key t = tick_key t'.
Proof. unfold tick_number, tick_key. by intros [= -> ->]. Qed.

Lemma logged_NoDup log ticks :
  NoDup (tick_key <$> log) -> NoDup (tick_key <$> ticks) -> NoDup (tick_key <$> logged log ticks).
Proof.
  intros Hl Ht. unfold logged. rewrite fmap_app. apply NoDup_app. split; [done|]. split.
  - intros k Hk (t & -> & [Hn _]%list_elem_of_filter)%list_elem_of_fmap. done.
  - eapply sublist_NoDup; [exact Ht|]. apply fmap_sublist, sublist_filter.
Qed.

Definition ticks_of (u : ScheduleCommit) : list ScheduleTick := opt_or (su_ticks u) [].

(** The ticks of each entry have distinct numbers. *)
Definition distinct_ticks (op : scheduler_op) : Prop :=
  match op with
  | SCommitPoll us _ => Forall (fun u => NoDup (tick_number <$> ticks_of u)) us
  | _ => True
  end.

Definition log_of (id : string) (s : InMemorySchedulerStorage) : list ScheduleTick :=
  opt_or (sched_ticks s !! id) [].

Definition log_ok (s : InMemorySchedulerStorage) : Prop :=
  forall id, NoDup (tick_key <$> log_of id s).

Lemma NoDup_tick_keys l : NoDup (tick_number <$> l) <-> NoDup (tick_key <$> l).
Proof.
  split; apply NoDup_fmap_finer; intros; [by apply tick_key_inj|by apply tick_number_key].
Qed.

Lemma commit_one_log acc u id :
  log_of id (commit_one acc u).2 = log_of id acc.2 \/
  id = su_id u /\ log_of id (commit_one acc u).2 = logged (log_of id acc.2) (ticks_of u).
Proof.
  destruct acc as [c s]. unfold commit_one. destruct (conflicting u _); [by left|].
  destruct (schedules s !! su_id u); [|by left].
  destruct (if bool_decide _ then None else _) as [st|]; [|by left]. unfold log_of, ticks_of.
  destruct (su_ticks u) as [[|t ts]|]; try (left; by repeat case_match).
  destruct (decide (id = su_id u)) as [->|Hid].
  - right. split; [done|]. repeat case_match; cbn; by rewrite jlookup_insert_eq.
  - left. repeat case_match; cbn; by rewrite jlookup_insert_ne by congruence.
Qed.

Lemma commit_one_log_ok acc u :
  NoDup (tick_number <$> ticks_of u) -> log_ok acc.2 -> log_ok (commit_one acc u).2.
Proof.
  intros Hu%NoDup_tick_keys Hok id. destruct (commit_one_log acc u id) as [->|[_ ->]]; [apply Hok|].
  by apply logged_NoDup.
Qed.

Lemma run_scheduler_op_log now op s : distinct_ticks op -> log_ok s -> log_ok (run_scheduler_op now op s).
Proof.
  intros Hd Hok. assert (forall m, sched_ticks m = sched_ticks s -> log_ok m) as Hsame.
  { intros m Hm id. unfold log_of. rewrite Hm. apply Hok. }
  destruct op; cbn [run_scheduler_op]; try (apply Hsame; reflexivity).
  - apply Hsame. unfold recordFire. by case_match.
  - apply Hsame. by destruct next.
  - unfold commitPoll. assert (log_ok (foldl commit_one ([], s) updates).2) as H.
    { generalize (@nil string). clear Hsame. revert s Hok. cbn in Hd.
      induction Hd as [|u us Hu _ IH]; intros s Hok c; cbn [foldl]; [done|].
      pose proof (commit_one_log_ok (c, s) u Hu Hok) as H. destruct (commit_one (c, s) u) as [c' s'].
      by apply IH. }
    destruct lease as [l|]; [destruct (assertCurrent _ _)|]; destruct (foldl _ _ _); done.
  - apply Hsame. unfold upsertSchedule, seedNextRun. by repeat case_match.
  - apply Hsame. unfold insertSchedule, upsertSchedule, seedNextRun. by repeat case_match.
  - intros i. unfold log_of. cbn. rewrite jlookup_delete. case_decide; [apply NoDup_nil_2|apply Hok].
  - apply Hsame. unfold setEnabled, seedNextRun. by repeat case_match.
Qed.

(** The tick log records each tick once: as long as every entry carries
    distinct ticks, no log ever holds a tick number of an incarnation twice,
    however often commits are retried; and after an entry was committed all
    its ticks are in the schedule's log. *)
Theorem tick_log_exact sched :
  Forall (fun e => distinct_ticks e.2) sched ->
  let s := run_scheduler_ops sched new_scheduler in
  (forall id, NoDup (tick_number <$> log_of id s)) /\
  forall u s', commit_one ([], s) u = ([], s') -> schedules s !! su_id u <> None ->
    forall t, t ∈ ticks_of u -> tick_number t ∈ (tick_number <$> log_of (su_id u) s').
Proof.
  intros Hd s. split.
  { intros id. apply NoDup_tick_keys. revert id.
    apply (run_ops_inv _ (fun e => distinct_ticks e.2) log_ok); [|done|intros id; apply NoDup_nil_2].
    intros now op s'. apply run_scheduler_op_log. }
  intros u s' Hc Hcfg t Ht.
  assert (log_of (su_id u) s' = logged (log_of (su_id u) s) (ticks_of u)) as ->.
  { destruct (run_scheduler_ops_ok sched) as [_ _ Hst]. fold s in Hst.
    unfold commit_one in Hc. destruct (conflicting u _); [done|].
    destruct (schedules s !! su_id u) as [cfg|] eqn:E; [|done]. rewrite bool_decide_false in Hc by done.
    destruct (sched_state s !! su_id u) as [st|] eqn:E2; [|apply Hst in E2; congruence].
    unfold ticks_of in Ht |- *. destruct (su_ticks u) as [[|t0 ts]|]; try by apply not_elem_of_nil in Ht.
    injection Hc as <-. unfold log_of. cbn. rewrite jlookup_insert_eq. by repeat case_match. }
  unfold logged. rewrite fmap_app. apply elem_of_app.
  destruct (decide (tick_key t ∈ (tick_key <$> log_of (su_id u) s))) as [Hin|Hin].
  - left. apply list_elem_of_fmap in Hin as (t' & Hk & Ht'). apply tick_key_inj in Hk. rewrite Hk.
    by apply list_elem_of_fmap_2.
  - right. apply list_elem_of_fmap_2, list_elem_of_filter. by split.
Qed.

Lemma tick_log_exact_witness :
  NoDup (tick_number <$> log_of "s" (run_scheduler_ops
    [(0, SUpsert "inc" (sample_config "s")); (60, SCommitPoll [sample_commit [sample_tick 0]] None);
     (61, SCommitPoll [sample_commit [sample_tick 0]] None)] new_scheduler)).
Proof.
  refine (proj1 (tick_log_exact _ _) "s").
  repeat constructor; cbn; apply not_elem_of_nil.
Defined.

(** The key set is not extended while a batch is appended: a tick that an
    entry carries twice is logged twice. *)
Example duplicate_in_batch_logged_twice :
  countTicks "s" (commitPoll [sample_commit [sample_tick 0; sample_tick 0]] None sample_scheduler).2 = 2.
Proof. vm_compute. reflexivity. Qed.

(** [setNextRun] does not look at the schedule: it puts a paused one back
    into due-tracking, where [findDue] still skips it. *)
Example paused_not_due :
  let s := run_scheduler_ops [(1, SSetEnabled "s" false); (2, SSetNextRun "s" (Some 3))] sample_scheduler in
  nextRun s !! "s" = Some 3 /\ findDue 10 5 None s = [].
Proof. by vm_compute. Qed.
