(* ===== verification/Dag.v ===== *)
(** Step graphs: [durable/workflow-dag.ts].

    [topologicalSort] is Kahn's algorithm over mutable maps, [computeReadySet]
    the reference definition of the steps that can run, [createReadyTracker]
    its incremental version over typed arrays. The [while] loop of the sort
    is recursion on fuel; [topologicalSort] gives it one unit per node, and
    [topo_fuel_enough] shows that no graph needs more. *)
From S2P Require Import Prelude.
Open Scope string_scope.
Open Scope list_scope.
Open Scope Z_scope.

Record DagNode : Type := mkNode { dn_name : string; dependsOn : list string }.

Inductive DagError : Type :=
| UnknownStep (step dep : string)
| CycleDetected (remaining : list string).

(** ** [topologicalSort] *)
(** The first dependency that is not a step. *)
Definition unknown_dep (names : list string) (nodes : list DagNode) : option (string * string) :=
  head (n ← nodes; omap (fun dep => if bool_decide (dep ∈ names) then None else Some (dn_name n, dep))
                     (dependsOn n)).

Definition in_degrees (nodes : list DagNode) : jmap string Z :=
  foldl (fun m n => <[dn_name n := Z.of_nat (length (dependsOn n))]> m) ∅ nodes.

(** [if (!map.has(k)) map.set(k, [])]. *)
Definition ensure (k : string) (m : jmap string (list string)) : jmap string (list string) :=
  match m !! k with Some _ => m | None => <[k := []]> m end.

Definition add_dependent (name : string) (m : jmap string (list string)) (dep : string)
    : jmap string (list string) :=
  <[dep := opt_or (m !! dep) [] ++ [name]]> (ensure dep m).

Definition dependents_of (nodes : list DagNode) : jmap string (list string) :=
  foldl (fun m n => foldl (add_dependent (dn_name n)) (ensure (dn_name n) m) (dependsOn n)) ∅ nodes.

Definition relax (acc : jmap string Z * list string) (dependent : string)
    : jmap string Z * list string :=
  let '(deg, queue) := acc in
  let newDegree := opt_or (deg !! dependent) 0 - 1 in
  (<[dependent := newDegree]> deg, if newDegree =? 0 then queue ++ [dependent] else queue).

Fixpoint topo_loop (fuel : nat) (dependents : jmap string (list string)) (deg : jmap string Z)
    (queue sorted : list string) : option (list string) :=
  match queue with
  | [] => Some sorted
  | current :: queue =>
      match fuel with
      | O => None
      | S fuel =>
          let '(deg, queue) := foldl relax (deg, queue) (opt_or (dependents !! current) []) in
          topo_loop fuel dependents deg queue (sorted ++ [current])
      end
  end.

Definition initial_queue (deg : jmap string Z) : list string :=
  omap (fun e : string * Z => if e.2 =? 0 then Some e.1 else None) (jm_entries deg).

Definition topologicalSort (nodes : list DagNode) : option (res DagError (list string)) :=
  let names := dn_name <$> nodes in
  match unknown_dep names nodes with
  | Some (step, dep) => Some (Err (UnknownStep step dep))
  | None =>
      let deg := in_degrees nodes in
      sorted ← topo_loop (length nodes) (dependents_of nodes) deg (initial_queue deg) [];
      Some (if bool_decide (length sorted <> length nodes)
            then Err (CycleDetected (base.filter (fun n => n ∉ sorted) names))
            else Ok sorted)
  end.

(** ** [computeReadySet] *)
Definition computeReadySet (nodes : list DagNode) (completed running : list string) : list string :=
  dn_name <$> base.filter (fun n => Is_true (
    negb (bool_decide (dn_name n ∈ completed) || bool_decide (dn_name n ∈ running))
    && forallb (fun dep => bool_decide (dep ∈ completed)) (dependsOn n))) nodes.

(** ** [createReadyTracker] *)
Record ReadyTracker : Type := mkTracker {
  pendingDeps : list Z;
  done : list bool;
  readyNow : list nat;
  completedCount : Z;
}.

(** [indexOf]: later nodes of a name overwrite earlier ones. *)
Definition index_of_nodes (nodes : list DagNode) : jmap string nat :=
  foldl (fun m e => <[dn_name e.2 := e.1]> m) ∅ (imap pair nodes).

Definition add_index (i : nat) (indexOf : jmap string nat) (acc : list (list nat)) (dep : string)
    : list (list nat) :=
  match indexOf !! dep with
  | Some d => alter (fun l => l ++ [i]) d acc
  | None => acc
  end.

Definition dependent_indices (nodes : list DagNode) : list (list nat) :=
  let indexOf := index_of_nodes nodes in
  foldl (fun acc e => foldl (add_index e.1 indexOf) acc (dependsOn e.2))
    ((fun _ => []) <$> nodes) (imap pair nodes).

Definition tick_dependent (t : ReadyTracker) (dependent : nat) : ReadyTracker :=
  let p := opt_or (pendingDeps t !! dependent) 0 - 1 in
  mkTracker (<[dependent := p]> (pendingDeps t)) (done t)
    (if (p =? 0) && negb (opt_or (done t !! dependent) false)
     then set_add dependent (readyNow t) else readyNow t)
    (completedCount t).

Definition markCompleted (nodes : list DagNode) (t : ReadyTracker) (name : string) : ReadyTracker :=
  match index_of_nodes nodes !! name with
  | None => t
  | Some i =>
      if opt_or (done t !! i) false then t
      else
        foldl tick_dependent
          (mkTracker (pendingDeps t) (<[i := true]> (done t)) (set_remove i (readyNow t))
             (completedCount t + 1))
          (opt_or (dependent_indices nodes !! i) [])
  end.

Definition fresh_tracker (nodes : list DagNode) : ReadyTracker :=
  let pending := (fun n => Z.of_nat (length (dependsOn n))) <$> nodes in
  mkTracker pending ((fun _ => false) <$> nodes)
    (base.filter (fun i => pending !! i = Some 0) (seq 0 (length nodes))) 0.

Definition createReadyTracker (nodes : list DagNode) (completed : list string) : ReadyTracker :=
  foldl (markCompleted nodes) (fresh_tracker nodes) completed.

Definition index_cmp (a b : nat) : Z := Z.of_nat a - Z.of_nat b.

Definition ready (nodes : list DagNode) (t : ReadyTracker) : list string :=
  omap (fun i => dn_name <$> nodes !! i) (jsort index_cmp (readyNow t)).

Example diamond : topologicalSort [mkNode "d" ["b"; "c"]; mkNode "b" ["a"]; mkNode "c" ["a"; "a"]; mkNode "a" []]
  = Some (Ok ["a"; "b"; "c"; "d"]).
Proof. vm_compute. reflexivity. Qed.

Example cycle : topologicalSort [mkNode "a" []; mkNode "b" ["c"; "a"]; mkNode "c" ["b"]]
  = Some (Err (CycleDetected ["b"; "c"])).
Proof. vm_compute. reflexivity. Qed.

(** Two steps of one name are reported as a cycle of no steps. *)
Example duplicate_names : topologicalSort [mkNode "a" []; mkNode "a" []] = Some (Err (CycleDetected [])).
Proof. vm_compute. reflexivity. Qed.

(** ** Occurrence counts *)
Definition occ {A} `{EqDecision A} (x : A) (l : list A) : Z :=
  Z.of_nat (length (base.filter (x =.) l)).

Section occ.
Context {A : Type} `{EqDecision A}.
Implicit Types (x y : A) (l : list A).

Lemma occ_nil x : occ x [] = 0.
Proof. done. Qed.

Lemma occ_cons x y l : occ x (y :: l) = (if decide (x = y) then 1 else 0) + occ x l.
Proof. unfold occ. rewrite filter_cons. case_decide; cbn [length]; lia. Qed.

Lemma occ_app x l l' : occ x (l ++ l') = occ x l + occ x l'.
Proof. unfold occ. rewrite filter_app, length_app. lia. Qed.

Lemma occ_nonneg x l : 0 <= occ x l.
Proof. unfold occ. lia. Qed.

Lemma occ_pos x l : 0 < occ x l <-> x ∈ l.
Proof.
  induction l as [|y l IH]; [rewrite occ_nil; split; [lia|by intros ?%not_elem_of_nil]|].
  rewrite occ_cons, elem_of_cons. pose proof (occ_nonneg x l). case_decide; [split; [by left|lia]|].
  split; [intros; right; apply IH; lia|]. intros [?|?%IH]; [done|lia].
Qed.

Lemma occ_zero x l : (x ∉ l) -> occ x l = 0.
Proof. intros H. pose proof (occ_nonneg x l). pose proof (occ_pos x l). destruct (decide (0 < occ x l)); [tauto|lia]. Qed.

(** Counting the occurrences in [l] of the elements outside [s]. *)
Definition outside (s l : list A) : Z := Z.of_nat (length (base.filter (fun x => x ∉ s) l)).

Lemma outside_zero s l : outside s l = 0 <-> forall x, x ∈ l -> x ∈ s.
Proof.
  unfold outside. induction l as [|y l IH]; [split; [by intros _ x ?%not_elem_of_nil|done]|].
  rewrite filter_cons. case_decide as Hy; cbn [length].
  - split; [lia|]. intros H. destruct Hy. apply H, list_elem_of_here.
  - rewrite IH. split.
    + intros H x [->|Hx]%elem_of_cons; [done|by apply H].
    + intros H x Hx. by apply H, list_elem_of_further.
Qed.

Lemma outside_nil l : outside [] l = Z.of_nat (length l).
Proof.
  unfold outside. induction l as [|x l IH]; [done|]. rewrite filter_cons, decide_True by apply not_elem_of_nil.
  cbn [length]. lia.
Qed.

Lemma outside_add s l x : (x ∉ s) -> outside (s ++ [x]) l = outside s l - occ x l.
Proof.
  intros Hx. unfold outside. induction l as [|y l IH]; [done|]. rewrite occ_cons, !filter_cons.
  destruct (decide (x = y)) as [->|Hne].
  - rewrite (decide_True (P := y ∉ s)) by done. rewrite decide_False; [cbn [length]; lia|].
    intros Hn. apply Hn, elem_of_app. right. apply list_elem_of_here.
  - destruct (decide (y ∈ s)) as [Hy|Hy].
    + rewrite !decide_False; [lia|tauto|]. intros Hn. apply Hn, elem_of_app. by left.
    + rewrite !decide_True; [cbn [length]; lia|done|].
      intros [? | ->%list_elem_of_singleton]%elem_of_app; done.
Qed.
End occ.

(** ** The graph the maps hold *)
Definition degree (deg : jmap string Z) (x : string) : Z := opt_or (deg !! x) 0.
Definition depends (m : jmap string (list string)) (x : string) : list string := opt_or (m !! x) [].

(** How often the nodes named [y] depend on [x]. *)
Fixpoint edges (nodes : list DagNode) (x y : string) : Z :=
  match nodes with
  | [] => 0
  | n :: nodes => (if decide (dn_name n = y) then occ x (dependsOn n) else 0) + edges nodes x y
  end.

Lemma depends_ensure k m x : depends (ensure k m) x = depends m x.
Proof.
  unfold depends, ensure. destruct (m !! k) as [l|] eqn:Hk; [done|].
  rewrite jlookup_insert. case_decide as Hx; [|done]; rewrite <- Hx, Hk; done.
Qed.

Lemma depends_add name m dep x :
  depends (add_dependent name m dep) x = depends m x ++ (if decide (dep = x) then [name] else []).
Proof.
  unfold add_dependent, depends at 1. rewrite jlookup_insert. case_decide as Hx.
  - by subst.
  - rewrite app_nil_r. apply depends_ensure.
Qed.

Lemma depends_add_all name deps m x y :
  occ y (depends (foldl (add_dependent name) m deps) x) =
    occ y (depends m x) + (if decide (name = y) then occ x deps else 0).
Proof.
  revert m. induction deps as [|d deps IH]; intros m; cbn [foldl]; [rewrite occ_nil; case_decide; lia|].
  rewrite IH, depends_add, occ_app, occ_cons.
  destruct (decide (d = x)) as [->|Hd]; [rewrite occ_cons, occ_nil|rewrite occ_nil];
    destruct (decide (name = y)) as [->|Hn]; repeat case_decide; try congruence; lia.
Qed.

Lemma dependents_occ nodes x y : occ y (depends (dependents_of nodes) x) = edges nodes x y.
Proof.
  unfold dependents_of.
  enough (forall m, occ y (depends (foldl (fun m n => foldl (add_dependent (dn_name n))
    (ensure (dn_name n) m) (dependsOn n)) m nodes) x) = occ y (depends m x) + edges nodes x y) as H.
  { rewrite H. change (depends ∅ x) with (@nil string). rewrite occ_nil. lia. }
  induction nodes as [|n nodes IH]; intros m; cbn [foldl edges]; [lia|].
  rewrite IH, depends_add_all, depends_ensure. lia.
Qed.

Lemma edges_absent nodes x y : (y ∉ (dn_name <$> nodes)) -> edges nodes x y = 0.
Proof.
  induction nodes as [|n nodes IH]; cbn; [done|]. intros [Hy Hn]%not_elem_of_cons.
  rewrite decide_False by congruence. by rewrite IH.
Qed.

Lemma edges_node nodes n x :
  NoDup (dn_name <$> nodes) -> n ∈ nodes -> edges nodes x (dn_name n) = occ x (dependsOn n).
Proof.
  induction nodes as [|m nodes IH]; cbn [edges]; [by intros _ ?%not_elem_of_nil|].
  rewrite fmap_cons. intros [Hm Hnd]%NoDup_cons [->|Hn]%elem_of_cons.
  - rewrite decide_True by done. by rewrite edges_absent, Z.add_0_r.
  - rewrite decide_False; [by rewrite IH|]. intros Heq. apply Hm. rewrite Heq. by apply list_elem_of_fmap_2.
Qed.

(** ** Termination of the sort *)
(** Names enter the queue once: their degree is spent when they do. *)
Record queued (nodes : list DagNode) (deg : jmap string Z) (q : list string) : Prop := {
  qd_nodup : NoDup q;
  qd_names : forall x, x ∈ q -> x ∈ (dn_name <$> nodes);
  qd_spent : forall x, x ∈ q -> degree deg x <= 0;
}.

Lemma degree_insert deg x y v : degree (<[x := v]> deg) y = if decide (x = y) then v else degree deg y.
Proof. unfold degree. rewrite jlookup_insert. by case_decide. Qed.

Lemma relax_queued nodes s D deg q :
  (forall x, x ∈ D -> x ∈ (dn_name <$> nodes)) -> queued nodes deg (s ++ q) ->
  let '(deg', q') := foldl relax (deg, q) D in queued nodes deg' (s ++ q').
Proof.
  revert deg q. induction D as [|d D IH]; intros deg q HD Hq; cbn [foldl]; [done|].
  apply IH; [intros x Hx; by apply HD, list_elem_of_further|]. fold (degree deg d).
  assert (d ∈ (dn_name <$> nodes)) as Hd by apply HD, list_elem_of_here.
  destruct Hq as [Hnd Hnm Hsp]. destruct (degree deg d - 1 =? 0) eqn:Hz.
  - assert (d ∉ s ++ q) as Hni by (intros Hin; apply Hsp in Hin; lia). rewrite app_assoc.
    split.
    + apply NoDup_app. split; [done|]. split; [|apply NoDup_singleton].
      by intros x Hx ->%list_elem_of_singleton.
    + intros x [Hx | ->%list_elem_of_singleton]%elem_of_app; [by apply Hnm|done].
    + intros x Hx. rewrite degree_insert. case_decide as He; [lia|].
      apply elem_of_app in Hx as [Hx | ->%list_elem_of_singleton]; [by apply Hsp|done].
  - split; [done..|]. intros x Hx. rewrite degree_insert. specialize (Hsp x Hx).
    case_decide; [subst; lia|done].
Qed.

Lemma dependents_names nodes x y : y ∈ depends (dependents_of nodes) x -> y ∈ (dn_name <$> nodes).
Proof.
  intros Hy%occ_pos. rewrite dependents_occ in Hy. apply dec_stable. intros Hn.
  rewrite edges_absent in Hy by done. lia.
Qed.

Lemma queued_length nodes deg q : queued nodes deg q -> (length q <= length nodes)%nat.
Proof.
  intros [Hnd Hnm _]. rewrite <- (length_fmap dn_name nodes). by apply submseteq_length, NoDup_submseteq.
Qed.

Lemma topo_loop_total nodes fuel deg q s :
  queued nodes deg (s ++ q) -> (length nodes <= fuel + length s)%nat ->
  is_Some (topo_loop fuel (dependents_of nodes) deg q s).
Proof.
  revert deg q s. induction fuel as [|fuel IH]; intros deg [|x q] s Hq Hf; cbn [topo_loop]; try by eexists.
  - apply queued_length in Hq. rewrite length_app in Hq. cbn in Hq. lia.
  - replace (s ++ x :: q) with ((s ++ [x]) ++ q) in Hq by (by rewrite <- app_assoc).
    pose proof (relax_queued nodes (s ++ [x]) (depends (dependents_of nodes) x) deg q) as Hr.
    unfold depends in Hr at 2. destruct (foldl relax (deg, q) _) as [deg' q']. apply IH.
    + apply Hr; [|done]. intros y. apply dependents_names.
    + rewrite length_app. cbn. lia.
Qed.

Lemma in_degrees_spec nodes :
  jm_wf (in_degrees nodes) /\
  forall x v, in_degrees nodes !! x = Some v -> exists n, n ∈ nodes /\ dn_name n = x /\ v = Z.of_nat (length (dependsOn n)).
Proof.
  unfold in_degrees. induction nodes as [|n nodes [Hwf IH]] using rev_ind; [by split; [apply jm_wf_empty|]|].
  rewrite foldl_app. cbn [foldl]. split; [by apply jm_wf_insert|]. intros x v. rewrite jlookup_insert.
  case_decide as Hx.
  - intros [= <-]. exists n. split; [|done]. apply elem_of_app. right. apply list_elem_of_here.
  - intros (m & Hm & Hmx)%IH. exists m. split; [|done]. apply elem_of_app. by left.
Qed.

Lemma elem_of_initial deg x : jm_wf deg -> x ∈ initial_queue deg <-> deg !! x = Some 0.
Proof.
  intros Hwf. unfold initial_queue. rewrite list_elem_of_omap. split.
  - intros ([y v] & He & Hx). cbn in Hx. destruct (v =? 0) eqn:Hv; [|done]. injection Hx as <-.
    apply jlookup_wf_elem in He; [|done]. rewrite He. f_equal. lia.
  - intros Hx%jlookup_elem. by exists (x, 0).
Qed.

Lemma initial_NoDup deg : jm_wf deg -> NoDup (initial_queue deg).
Proof.
  intros Hwf. eapply sublist_NoDup; [exact Hwf|]. unfold initial_queue, jm_keys.
  induction (jm_entries deg) as [|[k v] l IH]; cbn; [done|]. destruct (v =? 0); by constructor.
Qed.

Lemma initial_queued nodes : queued nodes (in_degrees nodes) (initial_queue (in_degrees nodes)).
Proof.
  destruct (in_degrees_spec nodes) as [Hwf Hs]. split; [by apply initial_NoDup| |].
  - intros x (n & Hn & <- & _)%(elem_of_initial _ _ Hwf)%Hs. by apply list_elem_of_fmap_2.
  - intros x Hx%(elem_of_initial _ _ Hwf). unfold degree. rewrite Hx. done.
Qed.

Lemma sort_ends nodes : is_Some (topologicalSort nodes).
Proof.
  unfold topologicalSort. destruct (unknown_dep _ _) as [[]|]; [done|].
  destruct (topo_loop_total nodes (length nodes) (in_degrees nodes) (initial_queue (in_degrees nodes)) [])
    as [l ->]; [apply initial_queued|lia|done].
Qed.

(** The sort ends on every list of nodes, well-formed or not: the loop
    takes each name at most once, so one unit of fuel per node is enough. *)
Theorem topologicalSort_total nodes : topologicalSort nodes <> None.
Proof. destruct (sort_ends nodes) as [r ->]. done. Qed.

(** ** Correctness of the sort *)
(** Every step of [l] comes after its dependencies. *)
Definition ordered (nodes : list DagNode) (l : list string) : Prop :=
  forall l1 x l2, l = l1 ++ x :: l2 -> forall n, n ∈ nodes -> dn_name n = x ->
    forall d, d ∈ dependsOn n -> d ∈ l1.

Lemma occ_outside {A} `{EqDecision A} (x : A) s l : (x ∉ s) -> occ x l <= outside s l.
Proof. intros H. pose proof (outside_add s l x H). unfold outside in *. lia. Qed.

Lemma relax_spec D deg q :
  (forall x, occ x D <= degree deg x) ->
  exists deg' new, foldl relax (deg, q) D = (deg', q ++ new) /\
    (forall x, degree deg' x = degree deg x - occ x D) /\
    NoDup new /\ (forall x, x ∈ new <-> x ∈ D /\ degree deg x = occ x D).
Proof.
  revert deg q. induction D as [|d D IH]; intros deg q HD; cbn [foldl].
  { exists deg, []. rewrite app_nil_r. split; [done|]. split; [intros x; rewrite occ_nil; lia|].
    split; [apply NoDup_nil_2|]. intros x. split; [by intros ?%not_elem_of_nil|by intros [?%not_elem_of_nil _]]. }
  set (deg1 := <[d := degree deg d - 1]> deg).
  assert (forall x, degree deg1 x = degree deg x - if decide (d = x) then 1 else 0) as Hdeg1.
  { intros x. unfold deg1. rewrite degree_insert. case_decide; [by subst|lia]. }
  assert (forall x, occ x D <= degree deg1 x) as HD1.
  { intros x. specialize (HD x). rewrite occ_cons in HD. rewrite Hdeg1. repeat case_decide; congruence || lia. }
  pose proof (HD d) as Hd. rewrite occ_cons, decide_True in Hd by done.
  set (q1 := if degree deg d - 1 =? 0 then q ++ [d] else q).
  change (relax (deg, q) d) with (deg1, q1).
  destruct (IH deg1 q1 HD1) as (deg' & new & -> & Hdeg' & Hnd & Hnew).
  assert (forall x, degree deg' x = degree deg x - occ x (d :: D)) as Hfin.
  { intros x. rewrite Hdeg', Hdeg1, occ_cons. repeat case_decide; congruence || lia. }
  exists deg', ((if degree deg d - 1 =? 0 then [d] else []) ++ new). unfold q1.
  destruct (degree deg d - 1 =? 0) eqn:Hz.
  - assert (occ d D = 0) as Hocc by (pose proof (occ_nonneg d D); lia).
    assert (d ∉ D) as HdD by (intros H%occ_pos; lia).
    rewrite <- app_assoc. split; [done|]. split; [exact Hfin|]. split.
    + apply NoDup_cons. split; [|done]. by intros [? _]%Hnew.
    + intros x. cbn. rewrite !elem_of_cons, Hnew, Hdeg1, occ_cons.
      destruct (decide (x = d)) as [->|Hx].
      * rewrite !decide_True by done. rewrite Hocc. split; [intros _; split; [by left|lia]|by left].
      * rewrite !decide_False by congruence. split; intros H; [|right].
        -- destruct H as [|[? ?]]; [done|]. split; [by right|lia].
        -- destruct H as [[|] ?]; [done|]. split; [done|lia].
  - split; [done|]. split; [exact Hfin|]. split; [done|].
    intros x. cbn. rewrite Hnew, Hdeg1, occ_cons, elem_of_cons.
    destruct (decide (x = d)) as [->|Hx].
    + rewrite !decide_True by done. split; [intros [? ?]; split; [by left|lia]|].
      intros [_ He]. split; [|lia]. apply occ_pos. pose proof (occ_nonneg d D). lia.
    + rewrite !decide_False by congruence. split; intros [? ?]; (split; [tauto|lia]).
Qed.

Section kahn.
Context (nodes : list DagNode) (Hnames : NoDup (dn_name <$> nodes)).

Record topo_inv (deg : jmap string Z) (q s : list string) : Prop := {
  ti_nodup : NoDup (s ++ q);
  ti_names : forall x, x ∈ s ++ q -> x ∈ (dn_name <$> nodes);
  (** a degree counts the dependencies not sorted yet *)
  ti_deg : forall n, n ∈ nodes -> degree deg (dn_name n) = outside s (dependsOn n);
  ti_other : forall x, (x ∉ (dn_name <$> nodes)) -> 0 <= degree deg x;
  ti_zero : forall n, n ∈ nodes -> (dn_name n ∈ s ++ q) <-> degree deg (dn_name n) = 0;
  ti_order : ordered nodes s;
}.

Lemma ordered_snoc s x :
  ordered nodes s -> (forall n, n ∈ nodes -> dn_name n = x -> forall d, d ∈ dependsOn n -> d ∈ s) ->
  ordered nodes (s ++ [x]).
Proof.
  intros Ho Hx l1 y l2 Hl. destruct l2 as [|z l2 _] using rev_ind.
  - apply app_inj_tail in Hl as [-> <-]. exact Hx.
  - rewrite app_comm_cons, app_assoc in Hl. apply app_inj_tail in Hl as [Hl _]. by apply (Ho l1 y l2).
Qed.

Lemma topo_step deg x q s :
  topo_inv deg (x :: q) s ->
  let '(deg', q') := foldl relax (deg, q) (depends (dependents_of nodes) x) in
  topo_inv deg' q' (s ++ [x]).
Proof.
  intros [Hnd Hnm Hdeg Hoth Hz Ho].
  assert (x ∉ s) as Hxs.
  { apply NoDup_app in Hnd as (_ & Hd & _). intros Hin. apply (Hd x Hin), list_elem_of_here. }
  assert (forall n, n ∈ nodes -> occ (dn_name n) (depends (dependents_of nodes) x) = occ x (dependsOn n)) as Hocc.
  { intros n Hn. by rewrite dependents_occ, edges_node. }
  assert (forall y, (y ∉ (dn_name <$> nodes)) -> occ y (depends (dependents_of nodes) x) = 0) as Hocc0.
  { intros y Hy. by rewrite dependents_occ, edges_absent. }
  assert (forall y, y ∈ (dn_name <$> nodes) -> exists n, n ∈ nodes /\ dn_name n = y) as Hnode.
  { intros y (n & -> & Hn)%list_elem_of_fmap. by exists n. }
  destruct (relax_spec (depends (dependents_of nodes) x) deg q) as (deg' & new & -> & Hdeg' & Hndn & Hnew).
  { intros y. destruct (decide (y ∈ (dn_name <$> nodes))) as [(n & Hn & <-)%Hnode|Hy].
    - rewrite Hocc, Hdeg by done. by apply occ_outside.
    - rewrite Hocc0 by done. by apply Hoth. }
  assert (forall n, n ∈ nodes -> degree deg' (dn_name n) = outside (s ++ [x]) (dependsOn n)) as Hdeg2.
  { intros n Hn. by rewrite Hdeg', Hdeg, Hocc, outside_add. }
  assert ((s ++ [x]) ++ q ++ new = (s ++ x :: q) ++ new) as Hassoc by (by rewrite <- !app_assoc).
  split; rewrite ?Hassoc.
  - apply NoDup_app. split; [done|]. split; [|done]. intros y Hy (Hin%occ_pos & He)%Hnew.
    apply Hnm in Hy as Hy'. apply Hnode in Hy' as (n & Hn & <-). apply Hz in Hy; [lia|done].
  - intros y [Hy|Hy]%elem_of_app; [by apply Hnm|]. apply Hnew in Hy as [Hy _]. by eapply dependents_names.
  - exact Hdeg2.
  - intros y Hy. rewrite Hdeg', Hocc0 by done. specialize (Hoth y Hy). lia.
  - intros n Hn. rewrite elem_of_app, Hz, Hnew, Hdeg' by done.
    rewrite <- occ_pos. pose proof (occ_nonneg (dn_name n) (depends (dependents_of nodes) x)).
    assert (occ (dn_name n) (depends (dependents_of nodes) x) <= degree deg (dn_name n)).
    { rewrite Hocc, Hdeg by done. by apply occ_outside. }
    lia.
  - apply ordered_snoc; [done|]. intros n Hn <-. apply outside_zero. rewrite <- Hdeg by done.
    apply Hz; [done|]. apply elem_of_app. right. apply list_elem_of_here.
Qed.

Lemma topo_loop_inv fuel deg q s l :
  topo_inv deg q s -> topo_loop fuel (dependents_of nodes) deg q s = Some l ->
  exists deg', topo_inv deg' [] l.
Proof.
  revert deg q s. induction fuel as [|fuel IH]; intros deg [|x q] s Hi; cbn [topo_loop];
    try (intros [= <-]; by exists deg).
  pose proof (topo_step deg x q s Hi) as Hs. unfold depends in Hs.
  destruct (foldl relax (deg, q) _) as [deg' q']. by apply IH.
Qed.

Lemma in_degrees_node n : n ∈ nodes -> in_degrees nodes !! dn_name n = Some (Z.of_nat (length (dependsOn n))).
Proof.
  unfold in_degrees. clear -Hnames. induction nodes as [|m l IH] using rev_ind; [by intros ?%not_elem_of_nil|].
  rewrite fmap_app in Hnames. apply NoDup_app in Hnames as (Hl & Hd & _).
  rewrite foldl_app. cbn [foldl]. intros [Hn | ->%list_elem_of_singleton]%elem_of_app.
  - rewrite jlookup_insert_ne; [by apply IH|]. intros Heq. apply (Hd (dn_name n)).
    + by apply list_elem_of_fmap_2.
    + rewrite <- Heq. apply list_elem_of_here.
  - by rewrite jlookup_insert_eq.
Qed.

Lemma topo_inv_initial : topo_inv (in_degrees nodes) (initial_queue (in_degrees nodes)) [].
Proof.
  destruct (initial_queued nodes) as [Hnd Hnm _]. destruct (in_degrees_spec nodes) as [Hwf Hs].
  assert (forall n, n ∈ nodes -> degree (in_degrees nodes) (dn_name n) = Z.of_nat (length (dependsOn n))) as Hdeg.
  { intros n Hn. unfold degree. by rewrite in_degrees_node. }
  split; cbn [app]; [done|done| | | |].
  - intros n Hn. by rewrite Hdeg, outside_nil.
  - intros x Hx. unfold degree. destruct (in_degrees nodes !! x) as [v|] eqn:Hv; [|done].
    apply Hs in Hv as (n & Hn & <- & _). destruct Hx. by apply list_elem_of_fmap_2.
  - intros n Hn. rewrite elem_of_initial, in_degrees_node, Hdeg by done. split; [by intros [= ->]|by intros ->].
  - intros [|? ?] x l2; discriminate.
Qed.
End kahn.

Lemma unknown_dep_None nodes names :
  unknown_dep names nodes = None -> forall n d, n ∈ nodes -> d ∈ dependsOn n -> d ∈ names.
Proof.
  unfold unknown_dep. intros Hh%head_None n d Hn Hd. apply dec_stable. intros Hni.
  assert ((dn_name n, d) ∈ (n ← nodes; omap (fun dep => if bool_decide (dep ∈ names) then None
    else Some (dn_name n, dep)) (dependsOn n))) as Hin; [|rewrite Hh in Hin; by apply not_elem_of_nil in Hin].
  apply list_elem_of_bind. exists n. split; [|done]. apply list_elem_of_omap. exists d. split; [done|].
  by rewrite bool_decide_false.
Qed.

Lemma unknown_dep_Some nodes names s d :
  unknown_dep names nodes = Some (s, d) ->
  exists n, n ∈ nodes /\ dn_name n = s /\ d ∈ dependsOn n /\ (d ∉ names).
Proof.
  unfold unknown_dep. intros Hh%head_Some_elem_of. apply list_elem_of_bind in Hh as (n & Hd & Hn).
  apply list_elem_of_omap in Hd as (d' & Hd & He). case_bool_decide; [done|]. injection He as <- <-.
  by exists n.
Qed.

(** No order exists when a set of steps depends on itself. *)
Lemma trapped_no_order nodes rem :
  (forall x, x ∈ rem -> exists n, n ∈ nodes /\ dn_name n = x /\ exists d, d ∈ dependsOn n /\ d ∈ rem) ->
  rem <> [] -> forall l, (forall x, x ∈ rem -> x ∈ l) -> ordered nodes l -> False.
Proof.
  intros Htrap Hne l Hl Ho. destruct rem as [|x0 rem0] eqn:Hr; [done|]. rewrite <- Hr in *.
  assert (Exists (fun x => x ∈ rem) l) as Hex.
  { apply Exists_exists. exists x0. split; [apply Hl|]; rewrite Hr; apply list_elem_of_here. }
  destruct (list_find (fun x => x ∈ rem) l) as [[i x]|] eqn:Hf.
  - apply list_find_Some in Hf as (Hi & Hx & Hfirst).
    destruct (Htrap x Hx) as (n & Hn & Hnx & d & Hd & Hdr).
    assert (d ∈ take i l) as Hdt.
    { apply (Ho (take i l) x (drop (S i) l)) with n; [|done..]. by rewrite take_drop_middle. }
    apply elem_of_take in Hdt as (j & Hj & Hlt). by apply (Hfirst j d).
  - apply list_find_None in Hf. apply Exists_exists in Hex as (x & Hx & Hr').
    rewrite Forall_forall in Hf. by apply (Hf x).
Qed.

(** What [topologicalSort] promises of a graph of distinctly named steps. *)
Definition sort_post (nodes : list DagNode) (r : option (res DagError (list string))) : Prop :=
  let names := dn_name <$> nodes in
  match r with
  | Some (Ok l) => l ≡ₚ names /\ ordered nodes l
  | Some (Err (UnknownStep step dep)) =>
      exists n, n ∈ nodes /\ dn_name n = step /\ dep ∈ dependsOn n /\ (dep ∉ names)
  | Some (Err (CycleDetected rem)) =>
      rem <> [] /\
      (forall x, x ∈ rem -> exists n, n ∈ nodes /\ dn_name n = x /\ exists d, d ∈ dependsOn n /\ d ∈ rem) /\
      forall l, l ≡ₚ names -> ~ ordered nodes l
  | None => False
  end.

(** What the loop leaves: sorted steps, in order, and every step whose
    dependencies they are. *)
Lemma topo_loop_result nodes :
  NoDup (dn_name <$> nodes) ->
  exists l, topo_loop (length nodes) (dependents_of nodes) (in_degrees nodes)
      (initial_queue (in_degrees nodes)) [] = Some l /\
    l ⊆+ (dn_name <$> nodes) /\ ordered nodes l /\
    forall n, n ∈ nodes -> (forall d, d ∈ dependsOn n -> d ∈ l) -> dn_name n ∈ l.
Proof.
  intros Hnd.
  destruct (topo_loop_total nodes (length nodes) (in_degrees nodes) (initial_queue (in_degrees nodes)) [])
    as [l Hl]; [apply initial_queued|cbn; lia|]. exists l. split; [done|].
  destruct (topo_loop_inv nodes Hnd _ _ _ _ _ (topo_inv_initial nodes Hnd) Hl) as [deg [Hndl Hnm Hdeg _ Hz Ho]].
  rewrite app_nil_r in *. split; [by apply NoDup_submseteq|]. split; [done|].
  intros n Hn Hd. apply Hz; [done|]. rewrite Hdeg by done. by apply outside_zero.
Qed.

(** A sort that answers: every step once, dependencies first. *)
Lemma topologicalSort_sorted nodes l :
  NoDup (dn_name <$> nodes) -> topologicalSort nodes = Some (Ok l) ->
  l ≡ₚ (dn_name <$> nodes) /\ ordered nodes l.
Proof.
  intros Hnd. unfold topologicalSort. destruct (unknown_dep _ _) as [[]|]; [done|].
  destruct (topo_loop_result nodes Hnd) as (l' & -> & Hsub & Ho & _). cbn [mbind option_bind].
  case_bool_decide as Hlen; intros [= <-]. split; [|done].
  apply submseteq_length_Permutation; [done|]. rewrite length_fmap. by rewrite Hlen.
Qed.

(** Every outcome of the sort. *)
Lemma sort_post_holds nodes :
  NoDup (dn_name <$> nodes) -> sort_post nodes (topologicalSort nodes).
Proof.
  intros Hnd. unfold topologicalSort.
  destruct (unknown_dep (dn_name <$> nodes) nodes) as [[s d]|] eqn:Hu; [by apply unknown_dep_Some|].
  pose proof (unknown_dep_None _ _ Hu) as Hknown.
  destruct (topo_loop_result nodes Hnd) as (l & -> & Hsub & Ho & Hall). cbn [mbind option_bind].
  case_bool_decide as Hlen.
  - set (rem := base.filter (fun n => n ∉ l) (dn_name <$> nodes)).
    assert (forall x, x ∈ rem -> exists n, n ∈ nodes /\ dn_name n = x /\ exists d, d ∈ dependsOn n /\ d ∈ rem) as Htrap.
    { intros x [Hxl (n & -> & Hn)%list_elem_of_fmap]%list_elem_of_filter. exists n. split; [done|]. split; [done|].
      apply Exists_exists. apply dec_stable. intros Hno. apply Hxl, Hall; [done|].
      intros d Hd. apply dec_stable. intros Hdl. apply Hno, Exists_exists. exists d.
      split; [done|]. apply list_elem_of_filter. split; [done|]. by apply (Hknown n). }
    assert (rem <> []) as Hrem.
    { intros Hnil. apply Hlen. rewrite <- (length_fmap dn_name nodes). apply Permutation_length.
      symmetry. apply submseteq_length_Permutation; [|by apply submseteq_length].
      apply NoDup_submseteq; [done|]. intros x Hx. apply dec_stable. intros Hxl.
      assert (x ∈ rem) as Hin by (by apply list_elem_of_filter). rewrite Hnil in Hin.
      by apply not_elem_of_nil in Hin. }
    split; [done|]. split; [done|]. intros l' Hl' Ho'.
    apply (trapped_no_order nodes rem Htrap Hrem l'); [|done].
    intros x [_ Hx]%list_elem_of_filter. by rewrite Hl'.
  - split; [|done]. apply submseteq_length_Permutation; [done|]. rewrite length_fmap.
    by rewrite Hlen.
Qed.

(** The sort is right in every outcome, for distinctly named steps: it
    returns every step once with its dependencies before it; or it names a
    dependency that is not a step; or it reports steps each of which waits
    for another of them, and then no order of the steps exists at all. *)
Theorem topologicalSort_correct nodes :
  NoDup (dn_name <$> nodes) -> sort_post nodes (topologicalSort nodes).
Proof. apply sort_post_holds. Qed.

Lemma topologicalSort_correct_witness :
  sort_post [mkNode "b" ["a"]; mkNode "a" []] (Some (Ok ["a"; "b"])).
Proof.
  apply (topologicalSort_correct [mkNode "b" ["a"]; mkNode "a" []]).
  apply NoDup_cons. split; [|apply NoDup_singleton]. by intros ?%list_elem_of_singleton.
Defined.

(** ** The incremental tracker agrees with [computeReadySet] *)
Section tracker.
Context (nodes : list DagNode) (Hnames : NoDup (dn_name <$> nodes)).

Lemma index_of_lookup x i :
  index_of_nodes nodes !! x = Some i <-> exists n, nodes !! i = Some n /\ dn_name n = x.
Proof.
  unfold index_of_nodes. clear -Hnames. induction nodes as [|n l IH] using rev_ind.
  { cbn. split; [done|]. by intros (? & ? & ?). }
  rewrite fmap_app in Hnames. apply NoDup_app in Hnames as (Hl & Hd & _).
  rewrite imap_app, foldl_app. cbn [foldl imap fst snd]. rewrite jlookup_insert, Nat.add_0_r.
  case_decide as Hx.
  - split.
    + intros [= <-]. exists n. by rewrite list_lookup_middle.
    + intros (m & Hm & Hmx). apply lookup_app_Some in Hm as [Hm|[Hge Hm]].
      * exfalso. apply (Hd (dn_name m)); [by eapply list_elem_of_fmap_2, list_elem_of_lookup_2|].
        rewrite Hmx, <- Hx. apply list_elem_of_here.
      * apply list_lookup_singleton_Some in Hm as [Hm _]. f_equal. lia.
  - rewrite IH by done. split; intros (m & Hm & Hmx); exists m; (split; [|done]).
    + by apply lookup_app_l_Some.
    + apply lookup_app_Some in Hm as [Hm|[_ Hm]]; [done|].
      apply list_lookup_singleton_Some in Hm as [_ ->]. done.
Qed.

Lemma add_index_lookup i (indexOf : jmap string nat) acc deps j l :
  acc !! j = Some l ->
  exists l', foldl (add_index i indexOf) acc deps !! j = Some l' /\
    forall k, occ k l' = occ k l + if decide (k = i)
      then Z.of_nat (length (base.filter (fun d => indexOf !! d = Some j) deps)) else 0.
Proof.
  revert acc l. induction deps as [|d deps IH]; intros acc l Hl; cbn [foldl].
  { exists l. split; [done|]. intros k. cbn. case_decide; lia. }
  assert (exists l1, add_index i indexOf acc d !! j = Some l1 /\
    l1 = l ++ if decide (indexOf !! d = Some j) then [i] else []) as (l1 & Hl1 & Heq).
  { unfold add_index. destruct (indexOf !! d) as [m|]; [|by exists l; rewrite app_nil_r].
    case_decide as Hm; [injection Hm as ->; rewrite list_lookup_alter_eq, Hl; by eexists|].
    rewrite list_lookup_alter_ne by congruence. exists l. by rewrite app_nil_r. }
  destruct (IH _ _ Hl1) as (l' & Hl' & Hocc). exists l'. split; [done|]. intros k. rewrite Hocc, Heq, occ_app.
  rewrite filter_cons. destruct (decide (indexOf !! d = Some j)); cbn [length];
    [rewrite occ_cons, occ_nil|rewrite occ_nil]; repeat case_decide; try congruence; lia.
Qed.

(** The occurrences of [k] that the nodes [es], with their indices, add. *)
Definition back_edges (x : string) (es : list (nat * DagNode)) (k : nat) : Z :=
  foldr (fun e acc => (if decide (k = e.1) then occ x (dependsOn e.2) else 0) + acc) 0 es.

Lemma back_edges_imap x l off k :
  back_edges x (imap (fun i n => ((off + i)%nat, n)) l) k =
    if decide (off <= k)%nat then from_option (fun m => occ x (dependsOn m)) 0 (l !! (k - off)%nat) else 0.
Proof.
  revert off. induction l as [|n l IH]; intros off; cbn; [by case_decide|].
  rewrite Nat.add_0_r. rewrite (imap_ext _ (fun i n => ((S off + i)%nat, n))) by (intros; cbn; f_equal; lia).
  unfold back_edges in IH. rewrite IH.
  destruct (decide (k = off)) as [->|Hk].
  - rewrite (decide_False (P := (S off <= off)%nat)), (decide_True (P := (off <= off)%nat)) by lia.
    rewrite Nat.sub_diag. cbn. lia.
  - destruct (decide (S off <= k)%nat).
    + rewrite (decide_True (P := (off <= k)%nat)) by lia. by replace (k - off)%nat with (S (k - S off)) by lia.
    + by rewrite decide_False by lia.
Qed.

Lemma dependent_indices_occ j n :
  nodes !! j = Some n ->
  exists l, dependent_indices nodes !! j = Some l /\
    forall k, occ k l = from_option (fun m => occ (dn_name n) (dependsOn m)) 0 (nodes !! k).
Proof.
  intros Hj. unfold dependent_indices.
  enough (forall es acc l, acc !! j = Some l ->
    exists l', foldl (fun acc e => foldl (add_index e.1 (index_of_nodes nodes)) acc (dependsOn e.2)) acc es !! j
      = Some l' /\ forall k, occ k l' = occ k l + back_edges (dn_name n) es k) as H.
  { destruct (H (imap pair nodes) ((fun _ => []) <$> nodes) []) as (l & Hl & Hocc).
    { rewrite list_lookup_fmap, Hj. done. }
    exists l. split; [exact Hl|]. intros k. rewrite Hocc, occ_nil.
    change (imap pair nodes) with (imap (fun i n => ((0 + i)%nat, n)) nodes).
    rewrite back_edges_imap. rewrite decide_True by lia.
    by rewrite Nat.sub_0_r. }
  induction es as [|[i m] es IH]; intros acc l Hl; cbn [foldl fst snd].
  { exists l. split; [done|]. intros k. cbn. lia. }
  destruct (add_index_lookup i (index_of_nodes nodes) acc (dependsOn m) j l Hl) as (l1 & Hl1 & Hocc1).
  destruct (IH _ _ Hl1) as (l2 & Hl2 & Hocc2). exists l2. split; [exact Hl2|]. intros k.
  rewrite Hocc2, Hocc1. cbn [back_edges foldr fst snd]. fold (back_edges (dn_name n) es k).
  assert (base.filter (fun d => index_of_nodes nodes !! d = Some j) (dependsOn m) =
    base.filter (dn_name n =.) (dependsOn m)) as ->.
  { apply list_filter_iff. intros d. rewrite index_of_lookup. rewrite Hj. split; [by intros (? & [= <-] & ?)|].
    intros <-. by exists n. }
  unfold occ. lia.
Qed.

Record tracker_ok (marked : list string) (t : ReadyTracker) : Prop := {
  tko_marked : NoDup marked;
  tko_names : forall x, x ∈ marked -> x ∈ (dn_name <$> nodes);
  tko_done : forall i n, nodes !! i = Some n -> done t !! i = Some (bool_decide (dn_name n ∈ marked));
  tko_pending : forall i, pendingDeps t !! i = (fun n => outside marked (dependsOn n)) <$> nodes !! i;
  tko_nodup : NoDup (readyNow t);
  tko_ready : forall i, i ∈ readyNow t <-> exists n, nodes !! i = Some n /\ (dn_name n ∉ marked) /\
    outside marked (dependsOn n) = 0;
  tko_count : completedCount t = Z.of_nat (length marked);
}.

Lemma tick_fold ds t :
  (forall i, i ∈ ds -> exists p, pendingDeps t !! i = Some p /\ occ i ds <= p) -> NoDup (readyNow t) ->
  let t' := foldl tick_dependent t ds in
  done t' = done t /\ completedCount t' = completedCount t /\ NoDup (readyNow t') /\
  (forall i, pendingDeps t' !! i = (fun p => p - occ i ds) <$> pendingDeps t !! i) /\
  (forall i, i ∈ readyNow t' <-> i ∈ readyNow t \/
     i ∈ ds /\ pendingDeps t !! i = Some (occ i ds) /\ done t !! i <> Some true).
Proof.
  revert t. induction ds as [|d ds IH]; intros t Hds Hnd; cbn [foldl].
  { split_and!; [done..| |]; intros i.
    - rewrite occ_nil. destruct (pendingDeps t !! i) eqn:E; cbn; [|done]. f_equal. lia.
    - split; [by left|]. by intros [?|[?%not_elem_of_nil _]]. }
  destruct (Hds d) as (pd & Hpd & Hle); [apply list_elem_of_here|]. rewrite occ_cons, decide_True in Hle by done.
  set (t1 := tick_dependent t d).
  assert (forall i, pendingDeps t1 !! i = (fun p => p - if decide (i = d) then 1 else 0) <$> pendingDeps t !! i) as Hp1.
  { intros i. unfold t1, tick_dependent. cbn [pendingDeps]. rewrite Hpd. cbn [opt_or from_option id].
    destruct (decide (i = d)) as [->|Hi].
    - rewrite list_lookup_insert_eq by (by eapply lookup_lt_Some). by rewrite Hpd.
    - rewrite list_lookup_insert_ne by congruence. destruct (pendingDeps t !! i); cbn; [f_equal; lia|done]. }
  assert (forall i, i ∈ readyNow t1 <-> i ∈ readyNow t \/ i = d /\ pd = 1 /\ done t !! d <> Some true) as Hr1.
  { intros i. unfold t1, tick_dependent. cbn [readyNow]. rewrite Hpd. cbn [opt_or from_option id].
    assert (negb (opt_or (done t !! d) false) = true <-> done t !! d <> Some true) as Hneg.
    { destruct (done t !! d) as [[]|]; cbn; split; done || congruence. }
    destruct (pd - 1 =? 0) eqn:Hz, (negb (opt_or (done t !! d) false)); cbn [andb]; rewrite ?elem_of_set_add.
    - split; [intros [->|?]; [right; split_and!; [done|lia|by apply Hneg]|by left]|].
      intros [?|[-> _]]; [by right|by left].
    - split; [by left|]. intros [?|(_ & _ & H%Hneg)]; done.
    - split; [by left|]. intros [?|(_ & ? & _)]; [done|lia].
    - split; [by left|]. intros [?|(_ & ? & _)]; [done|lia]. }
  destruct (IH t1) as (Hd' & Hc' & Hnd' & Hp' & Hr').
  { intros i Hi. destruct (Hds i) as (p & Hp & Hpi); [by apply list_elem_of_further|].
    rewrite Hp1, Hp. cbn. eexists. split; [done|]. rewrite occ_cons in Hpi. case_decide; lia. }
  { unfold t1, tick_dependent. cbn [readyNow]. case_match; [by apply NoDup_set_add|done]. }
  split_and!; [done|done|done| |].
  - intros i. rewrite Hp', Hp1. destruct (pendingDeps t !! i); cbn; [|done]. f_equal.
    rewrite occ_cons. case_decide; lia.
  - intros i. rewrite Hr', Hr1, Hp1, occ_cons, elem_of_cons. change (done t1) with (done t).
    pose proof (occ_nonneg i ds) as H0. pose proof (occ_pos i ds) as Hpos.
    destruct (decide (i = d)) as [->|Hi].
    + rewrite Hpd. cbn. split.
      * intros [[?|(_ & -> & ?)]|(? & [= ?] & ?)]; [by left|right; split_and!; [by left|f_equal; lia|done]|].
        right. split_and!; [by left|f_equal; lia|done].
      * intros [?|(_ & [= ->] & ?)]; [by left; left|].
        destruct (decide (d ∈ ds)) as [Hin|Hin]; [right; split_and!; [done|f_equal; lia|done]|].
        left; right. apply occ_zero in Hin. split_and!; [done|lia|done].
    + split.
      * intros [[?|(? & _)]|(? & Hp & ?)]; [by left|done|right; split_and!; [by right| |done]].
        destruct (pendingDeps t !! i); [|done]. cbn in Hp. injection Hp as Hp. f_equal. lia.
      * intros [?|([?|?] & Hp & ?)]; [by left; left|done|]. right. rewrite Hp. cbn.
        split_and!; [done|f_equal; lia|done].
Qed.

(** The marks so far: names of nodes, each once. *)
Definition add_mark (marked : list string) (x : string) : list string :=
  if bool_decide (x ∈ (dn_name <$> nodes)) && negb (bool_decide (x ∈ marked))
  then marked ++ [x] else marked.

Lemma tracker_ok_mark marked t x :
  tracker_ok marked t -> tracker_ok (add_mark marked x) (markCompleted nodes t x).
Proof.
  intros Hok. unfold add_mark. pose proof Hok as [Hnd Hnm Hdone Hpend Hrnd Hready Hcount]. unfold markCompleted.
  destruct (index_of_nodes nodes !! x) as [i|] eqn:Hi.
  2: { rewrite bool_decide_false; [done|]. intros (n & -> & Hn)%list_elem_of_fmap.
       apply list_elem_of_lookup in Hn as [i Hn].
       assert (index_of_nodes nodes !! dn_name n = Some i) by (apply index_of_lookup; by exists n). congruence. }
  apply index_of_lookup in Hi as (n & Hn & <-).
  rewrite bool_decide_true by (by eapply list_elem_of_fmap_2, list_elem_of_lookup_2). cbn [andb].
  rewrite (Hdone _ _ Hn). cbn [opt_or from_option id]. case_bool_decide as Hx; cbn [negb]; [done|].
  destruct (dependent_indices_occ i n Hn) as (ds & Hds & Hocc). rewrite Hds. cbn [opt_or from_option id].
  set (t0 := mkTracker _ _ _ _).
  destruct (tick_fold ds t0) as (Hd' & Hc' & Hrnd' & Hp' & Hr').
  { intros k Hk%occ_pos. rewrite Hocc in Hk. unfold t0. cbn [pendingDeps]. rewrite Hpend, Hocc.
    destruct (nodes !! k) as [m|]; [|cbn in Hk; lia]. cbn. eexists. split; [done|]. by apply occ_outside. }
  { unfold t0. cbn [readyNow]. by apply NoDup_filter. }
  assert (forall k m, nodes !! k = Some m -> (dn_name m = dn_name n <-> k = i)) as Hsame.
  { intros k m Hm. split; [|intros ->; congruence]. intros He.
    assert (index_of_nodes nodes !! dn_name n = Some k) as H1 by (apply index_of_lookup; by exists m).
    assert (index_of_nodes nodes !! dn_name n = Some i) as H2 by (apply index_of_lookup; by exists n). congruence. }
  assert (forall k m, nodes !! k = Some m -> (dn_name m ∈ marked ++ [dn_name n]) <-> dn_name m ∈ marked \/ k = i) as Hin.
  { intros k m Hm. rewrite elem_of_app, list_elem_of_singleton. by rewrite (Hsame k m Hm). }
  split.
  - apply NoDup_app. split; [done|]. split; [|apply NoDup_singleton]. by intros y Hy ->%list_elem_of_singleton.
  - intros y [Hy | ->%list_elem_of_singleton]%elem_of_app; [by apply Hnm|].
    by eapply list_elem_of_fmap_2, list_elem_of_lookup_2.
  - intros k m Hm. rewrite Hd'. unfold t0. cbn [done].
    destruct (decide (k = i)) as [->|Hk].
    + rewrite list_lookup_insert_eq by (eapply lookup_lt_Some, Hdone, Hm). f_equal. symmetry.
      apply bool_decide_true, (Hin i m); [done|by right].
    + rewrite list_lookup_insert_ne, (Hdone _ _ Hm) by congruence. f_equal. apply bool_decide_ext.
      rewrite (Hin k m Hm). tauto.
  - intros k. rewrite Hp'. unfold t0. cbn [pendingDeps]. rewrite Hpend, Hocc.
    destruct (nodes !! k) as [m|]; [|done]. cbn. f_equal. by rewrite outside_add.
  - done.
  - intros k. rewrite Hr'. unfold t0. cbn [readyNow pendingDeps done]. rewrite elem_of_set_remove, Hready, Hpend, Hocc.
    rewrite <- occ_pos, Hocc. destruct (nodes !! k) as [m|] eqn:Hm.
    2: { cbn. split; [intros [[_ (? & [=] & _)]|[? _]]; lia|by intros (? & [=] & _)]. }
    cbn [from_option fmap option_fmap option_map].
    assert (<[i:=true]> (done t) !! k <> Some true <-> k <> i /\ (dn_name m ∉ marked)) as Hdk.
    { destruct (decide (k = i)) as [->|Hk].
      - rewrite list_lookup_insert_eq by (eapply lookup_lt_Some, Hdone, Hm). split; [done|by intros [? _]].
      - rewrite list_lookup_insert_ne, (Hdone _ _ Hm) by congruence. case_bool_decide; split; try tauto; congruence. }
    rewrite Hdk. pose proof (outside_add marked (dependsOn m) (dn_name n) Hx) as Hadd.
    pose proof (occ_nonneg (dn_name n) (dependsOn m)). pose proof (occ_outside _ _ (dependsOn m) Hx).
    split.
    + intros [[Hk (m' & [= <-] & Hmm & Hz)]|(Hpos & [= Hz] & Hk & Hmm)]; exists m;
        (split; [done|split; [rewrite (Hin k m Hm); tauto|lia]]).
    + intros (m' & [= <-] & Hmm & Hz). rewrite (Hin k m Hm) in Hmm.
      destruct (decide (occ (dn_name n) (dependsOn m) = 0)).
      * left. split; [tauto|]. exists m. split; [done|]. split; [tauto|lia].
      * right. split; [lia|]. split; [f_equal; lia|tauto].
  - rewrite Hc'. unfold t0. cbn [completedCount]. rewrite Hcount, length_app. cbn. lia.
Qed.

Lemma fresh_ok : tracker_ok [] (fresh_tracker nodes).
Proof.
  split; unfold fresh_tracker; cbn [pendingDeps done readyNow completedCount].
  - apply NoDup_nil_2.
  - by intros x ?%not_elem_of_nil.
  - intros i n Hn. by rewrite list_lookup_fmap, Hn.
  - intros i. rewrite list_lookup_fmap. destruct (nodes !! i); [|done]. cbn. by rewrite outside_nil.
  - apply NoDup_filter, NoDup_seq.
  - intros i. rewrite list_elem_of_filter, elem_of_seq, list_lookup_fmap. split.
    + intros [Hp Hi]. destruct (nodes !! i) as [n|]; [|done]. cbn in Hp. injection Hp as Hp.
      exists n. rewrite outside_nil. split; [done|]. split; [apply not_elem_of_nil|done].
    + intros (n & Hn & _ & Hz). rewrite outside_nil in Hz. rewrite Hn. cbn. rewrite Hz. split; [done|].
      apply lookup_lt_Some in Hn. lia.
  - done.
Qed.

Lemma tracker_ok_all names :
  tracker_ok (foldl add_mark [] names) (foldl (markCompleted nodes) (fresh_tracker nodes) names).
Proof.
  enough (forall t m, tracker_ok m t ->
    tracker_ok (foldl add_mark m names) (foldl (markCompleted nodes) t names)) as H by (apply H, fresh_ok).
  induction names as [|x names IH]; intros t m Hok; cbn [foldl]; [done|]. by apply IH, tracker_ok_mark.
Qed.

Lemma elem_of_marks names x :
  x ∈ foldl add_mark [] names <-> x ∈ names /\ x ∈ (dn_name <$> nodes).
Proof.
  enough (forall acc, x ∈ foldl add_mark acc names <-> x ∈ acc \/ x ∈ names /\ x ∈ (dn_name <$> nodes)) as H.
  { rewrite H. split; [intros [?%not_elem_of_nil|?]; done|by right]. }
  induction names as [|y names IH]; intros acc; cbn [foldl].
  { split; [by left|]. by intros [?|[?%not_elem_of_nil _]]. }
  rewrite IH, elem_of_cons. unfold add_mark. repeat case_bool_decide; cbn [andb negb];
    rewrite ?elem_of_app, ?list_elem_of_singleton; (destruct (decide (x = y)) as [-> |]; tauto).
Qed.
End tracker.

Lemma filter_by_index {B} (P : DagNode -> bool) (f : DagNode -> B) l :
  omap (fun i => f <$> l !! i)
    (base.filter (fun i => Is_true (from_option P false (l !! i))) (seq 0 (length l))) =
  f <$> base.filter (fun n => Is_true (P n)) l.
Proof.
  induction l as [|n l IH] using rev_ind; [done|].
  rewrite length_app, seq_app, !filter_app, omap_app, fmap_app. cbn [length seq Nat.add]. f_equal.
  - rewrite <- IH.
    assert (forall i, i ∈ seq 0 (length l) -> (l ++ [n]) !! i = l !! i) as Hi.
    { intros i Hi%elem_of_seq. apply lookup_app_l. lia. }
    revert Hi. generalize (seq 0 (length l)) as idx. induction idx as [|i idx IHi]; intros Hi; [done|].
    rewrite !filter_cons, Hi by apply list_elem_of_here.
    assert (forall j, j ∈ idx -> (l ++ [n]) !! j = l !! j) as Hi' by (intros; by apply Hi, list_elem_of_further).
    specialize (IHi Hi'). case_decide; [|exact IHi]. cbn. rewrite Hi by apply list_elem_of_here.
    destruct (l !! i); cbn; [by f_equal|exact IHi].
  - rewrite !filter_cons, list_lookup_middle by done. cbn. case_decide; [|done]. cbn.
    by rewrite list_lookup_middle.
Qed.

#[global] Instance index_cmp_consistent : ConsistentCmp index_cmp.
Proof. unfold index_cmp. split; intros; lia. Qed.

#[global] Instance index_le_antisymm : AntiSymm eq (cmp_le index_cmp).
Proof. intros i j. unfold cmp_le, index_cmp. lia. Qed.

Lemma seq_sorted k n : StronglySorted (cmp_le index_cmp) (seq k n).
Proof.
  revert k. induction n as [|n IH]; intros k; cbn; constructor; [apply IH|].
  apply Forall_forall. intros i Hi%elem_of_seq. unfold cmp_le, index_cmp. lia.
Qed.

Lemma sorted_indices (P : nat -> Prop) `{forall i, Decision (P i)} l n :
  NoDup l -> (forall i, i ∈ l <-> P i /\ (i < n)%nat) -> jsort index_cmp l = base.filter P (seq 0 n).
Proof.
  intros Hnd Hl. eapply (StronglySorted_unique (cmp_le index_cmp)).
  - apply (jsort_sorted index_cmp).
  - eapply StronglySorted_sublist; [apply sublist_filter|apply seq_sorted].
  - rewrite jsort_perm. apply NoDup_Permutation; [done|apply NoDup_filter, NoDup_seq|].
    intros i. rewrite list_elem_of_filter, elem_of_seq, Hl. split; intros [? ?]; split; done || lia.
Qed.

Lemma computeReadySet_ext nodes known known' running :
  (forall x, x ∈ known <-> x ∈ known') -> computeReadySet nodes known running = computeReadySet nodes known' running.
Proof.
  intros H. unfold computeReadySet. f_equal. apply list_filter_iff. intros n.
  assert (forall x, bool_decide (x ∈ known) = bool_decide (x ∈ known')) as Hb by (intros; by apply bool_decide_ext).
  rewrite Hb. assert (forall l, forallb (fun d => bool_decide (d ∈ known)) l =
    forallb (fun d => bool_decide (d ∈ known')) l) as ->; [|done].
  induction l as [|d l IH]; cbn; [done|]. by rewrite Hb, IH.
Qed.

Lemma elem_of_ready_set nodes known x :
  x ∈ computeReadySet nodes known [] <->
  exists n, n ∈ nodes /\ dn_name n = x /\ (x ∉ known) /\ forall d, d ∈ dependsOn n -> d ∈ known.
Proof.
  unfold computeReadySet. rewrite list_elem_of_fmap. setoid_rewrite list_elem_of_filter.
  setoid_rewrite Is_true_true. setoid_rewrite andb_true_iff. setoid_rewrite forallb_forall. split.
  - intros (n & -> & [Hu Hd] & Hn). exists n. split_and!; [done|done| |].
    + intros Hin. by rewrite bool_decide_true in Hu.
    + intros d Hdn. eapply bool_decide_eq_true, Hd. by apply list_elem_of_In.
  - intros (n & Hn & <- & Hu & Hd). exists n. split; [done|]. split; [|done]. split.
    + rewrite (bool_decide_false (dn_name n ∈ known)), bool_decide_false; [done|apply not_elem_of_nil|done].
    + intros d Hdn%list_elem_of_In. by apply bool_decide_true, Hd.
Qed.

(** A tracker that has these marks reports their ready set. *)
Lemma tracker_ready nodes marked t :
  tracker_ok nodes marked t -> ready nodes t = computeReadySet nodes marked [].
Proof.
  intros [_ _ _ _ Hrnd Hready _]. unfold ready, computeReadySet.
  set (P := fun n => negb (bool_decide (dn_name n ∈ marked) || bool_decide (dn_name n ∈ [])) &&
    forallb (fun dep => bool_decide (dep ∈ marked)) (dependsOn n)).
  rewrite <- (filter_by_index P).
  erewrite (sorted_indices (fun i => Is_true (from_option P false (nodes !! i)))); [done|done|].
  intros i. rewrite Hready. unfold P. split.
  - intros (n & Hn & Hu & Hz). split; [|by eapply lookup_lt_Some]. rewrite Hn. cbn [from_option].
    apply Is_true_true. apply andb_true_iff. split.
    + rewrite (bool_decide_false (dn_name n ∈ marked)), bool_decide_false; [done|apply not_elem_of_nil|done].
    + apply forallb_forall. intros d Hd%list_elem_of_In. apply bool_decide_true.
      by apply (proj1 (outside_zero _ _) Hz).
  - intros [Hp _]. destruct (nodes !! i) as [n|] eqn:Hn; [|done]. cbn [from_option] in Hp.
    apply Is_true_true in Hp. apply andb_true_iff in Hp as [Hu Hd]. exists n. split; [done|]. split.
    + intros Hin. by rewrite bool_decide_true in Hu.
    + apply outside_zero. intros d Hdn. rewrite forallb_forall in Hd.
      eapply bool_decide_eq_true, Hd. by apply list_elem_of_In.
Qed.

(** C40. The incremental tracker is the reference definition: for distinctly
    named steps, whatever names were completed up front and marked since,
    known or not and in any order, it reports the same steps in the same
    order as [computeReadySet] over the marked steps with nothing running. *)
Theorem ready_tracker_correct nodes completed marks :
  NoDup (dn_name <$> nodes) ->
  let t := foldl (markCompleted nodes) (createReadyTracker nodes completed) marks in
  let known := base.filter (fun x => x ∈ (dn_name <$> nodes)) (completed ++ marks) in
  ready nodes t = computeReadySet nodes known [] /\
  completedCount t = Z.of_nat (length (remove_dups known)).
Proof.
  intros Hnd t known.
  assert (t = (foldl (markCompleted nodes) (fresh_tracker nodes) (completed ++ marks))) as Ht.
  { unfold t, createReadyTracker. by rewrite foldl_app. }
  pose proof (tracker_ok_all nodes Hnd (completed ++ marks)) as Hok. rewrite <- Ht in Hok.
  pose proof (tko_marked _ _ _ Hok) as Hmn. pose proof (tko_count _ _ _ Hok) as Hcount. set (marked := foldl (add_mark nodes) [] (completed ++ marks)) in *.
  assert (forall x, x ∈ marked <-> x ∈ known) as Hmk.
  { intros x. unfold marked, known. rewrite elem_of_marks, list_elem_of_filter. tauto. }
  split.
  - rewrite (tracker_ready nodes marked t) by done. by apply computeReadySet_ext.
  - rewrite Hcount. f_equal. apply Permutation_length, NoDup_Permutation; [done|apply NoDup_remove_dups|].
    intros x. by rewrite elem_of_remove_dups.
Qed.

Definition sample_nodes : list DagNode :=
  [mkNode "a" []; mkNode "b" ["a"; "a"]; mkNode "c" ["a"]; mkNode "d" ["b"; "ghost"]].

Lemma ready_tracker_correct_witness :
  let t := foldl (markCompleted sample_nodes) (createReadyTracker sample_nodes ["ghost"]) ["a"; "c"; "a"] in
  let known := base.filter (fun x => x ∈ (dn_name <$> sample_nodes)) (["ghost"] ++ ["a"; "c"; "a"]) in
  ready sample_nodes t = ["b"] /\ ready sample_nodes t = computeReadySet sample_nodes known [] /\
  completedCount t = Z.of_nat (length (remove_dups known)).
Proof.
  split; [vm_compute; reflexivity|]. apply (ready_tracker_correct sample_nodes ["ghost"] ["a"; "c"; "a"]).
  by apply (bool_decide_unpack (NoDup (dn_name <$> sample_nodes))).
Defined.
