(* ===== verification/Dates.v ===== *)
(** [new Date(text)] on the texts [toISOString] prints (the simplified ISO
    8601 format of the language), and that the two are inverse on the time
    values a [Date] can hold. The engine stores wake times as such texts. *)
From S2P Require Import Prelude Leases Json.
Open Scope string_scope.
Open Scope list_scope.
Open Scope Z_scope.
#[local] Ltac Zify.zify_post_hook ::= Z.div_mod_to_equations.

(** ** Parsing *)
Definition digit_value (c : ascii) : option Z :=
  let n := Z.of_N (Ascii.N_of_ascii c) in
  if (48 <=? n) && (n <=? 57) then Some (n - 48) else None.

(** [w] decimal digits from the front. *)
Fixpoint take_digits (w : nat) (acc : Z) (s : string) : option (Z * string) :=
  match w with
  | O => Some (acc, s)
  | S w' =>
      match s with
      | EmptyString => None
      | String c r => match digit_value c with
                      | Some d => take_digits w' (10 * acc + d) r
                      | None => None
                      end
      end
  end.

Definition expect (t s : string) : option string :=
  match t, s with
  | String c EmptyString, String c' r => if bool_decide (c = c') then Some r else None
  | _, _ => None
  end.

Definition days_from_civil (y m d : Z) : Z :=
  let y' := if m <=? 2 then y - 1 else y in
  let era := y' / 400 in
  let yoe := y' - era * 400 in
  let mp := (m + 9) mod 12 in
  let doy := (153 * mp + 2) / 5 + d - 1 in
  let doe := yoe * 365 + yoe / 4 - yoe / 100 + doy in
  era * 146097 + doe - 719468.

Definition parse_year (s : string) : option (Z * string) :=
  match s with
  | String c r =>
      if bool_decide (c = Ascii.ascii_of_N 45) then
        '(y, r) ← take_digits 6 0 r; Some (- y, r)
      else if bool_decide (c = Ascii.ascii_of_N 43) then take_digits 6 0 r
      else take_digits 4 0 s
  | EmptyString => None
  end.

(** [None] is [Invalid Date]: the text is not in the format. *)
Definition Date_parse (s : string) : option Z :=
  '(y, s) ← parse_year s; s ← expect "-" s;
  '(m, s) ← take_digits 2 0 s; s ← expect "-" s;
  '(d, s) ← take_digits 2 0 s; s ← expect "T" s;
  '(h, s) ← take_digits 2 0 s; s ← expect ":" s;
  '(mi, s) ← take_digits 2 0 s; s ← expect ":" s;
  '(sec, s) ← take_digits 2 0 s; s ← expect "." s;
  '(ms, s) ← take_digits 3 0 s; s ← expect "Z" s;
  if bool_decide (s = "") then
    Some (days_from_civil y m d * 86400000 + h * 3600000 + mi * 60000 + sec * 1000 + ms)
  else None.

(** ** The calendar is inverted *)

(** [p] on the [n] integers from [lo]. *)
Fixpoint all_from (p : Z -> bool) (n : positive) (lo : Z) : bool :=
  match n with
  | xH => p lo
  | xO n' => all_from p n' lo && all_from p n' (lo + Z.pos n')
  | xI n' => p lo && all_from p n' (lo + 1) && all_from p n' (lo + 1 + Z.pos n')
  end.

Lemma all_from_spec p n lo : all_from p n lo = true -> forall x, lo <= x < lo + Z.pos n -> p x = true.
Proof.
  revert lo. induction n as [n IH|n IH|]; intros lo; cbn [all_from];
    rewrite ?andb_true_iff.
  - intros [[H0 H1] H2] x Hx. destruct (decide (x = lo)) as [->|]; [done|].
    destruct (decide (x < lo + 1 + Z.pos n)); [apply (IH _ H1)|apply (IH _ H2)]; lia.
  - intros [H1 H2] x Hx.
    destruct (decide (x < lo + Z.pos n)); [apply (IH _ H1)|apply (IH _ H2)]; lia.
  - intros H x Hx. by replace x with lo by lia.
Qed.

(** The year of era of a day of era: the quotient is monotone, and right on
    the first and the last day of each of the 400 years. *)
Definition year_days (doe : Z) : Z := doe - doe / 1460 + doe / 36524 - doe / 146096.
Definition first_day (yoe : Z) : Z := 365 * yoe + yoe / 4 - yoe / 100.
Definition last_day (yoe : Z) : Z := if yoe =? 399 then 146096 else first_day (yoe + 1) - 1.

Definition year_check (yoe : Z) : bool :=
  (year_days (first_day yoe) / 365 =? yoe) && (year_days (last_day yoe) / 365 =? yoe) &&
  (last_day yoe - first_day yoe <=? 365).

Lemma year_check_all : all_from year_check 400 0 = true.
Proof. vm_compute. reflexivity. Qed.

Lemma year_days_mono x n : 0 <= x -> x + Z.of_nat n < 146097 ->
  year_days x <= year_days (x + Z.of_nat n).
Proof.
  intros Hx. induction n as [|n IH]; intros Hn; [by rewrite Z.add_0_r|].
  etrans; [apply IH; lia|]. replace (x + Z.of_nat (S n)) with (x + Z.of_nat n + 1) by lia.
  assert (0 <= x + Z.of_nat n < 146096) as Hb by lia. revert Hb. generalize (x + Z.of_nat n).
  clear. intros x Hx. destruct (decide (x = 146095)) as [->|]; [done|]. unfold year_days.
  rewrite !(Z.div_small _ 146096) by lia.
  lia.
Qed.

Lemma year_cover n doe : (n <= 400)%nat -> 0 <= doe < first_day (Z.of_nat n) ->
  exists y, 0 <= y < 400 /\ first_day y <= doe <= last_day y.
Proof.
  induction n as [|n IH]; intros Hn Hd; [unfold first_day in Hd; lia|].
  destruct (decide (doe < first_day (Z.of_nat n))); [apply IH; lia|].
  exists (Z.of_nat n). split; [lia|]. split; [lia|]. unfold last_day.
  replace (Z.of_nat (S n)) with (Z.of_nat n + 1) in Hd by lia.
  case_match; [|lia]. assert (Z.of_nat n = 399) as E by lia. rewrite E in Hd.
  change (first_day (399 + 1)) with 146096 in Hd. lia.
Qed.

Lemma year_of_era doe : 0 <= doe < 146097 ->
  let yoe := year_days doe / 365 in 0 <= yoe < 400 /\ 0 <= doe - first_day yoe <= 365.
Proof.
  intros Hd. assert (exists y, 0 <= y < 400 /\ first_day y <= doe <= last_day y) as (y & Hy & Hr).
  { destruct (decide (doe = 146096)) as [->|]; [by exists 399|].
    apply (year_cover 400); [lia|]. change (first_day (Z.of_nat 400)) with 146096. lia. }
  pose proof (all_from_spec _ _ _ year_check_all y ltac:(lia)) as H. unfold year_check in H.
  rewrite !andb_true_iff, !Z.eqb_eq, Z.leb_le in H. destruct H as ((H1 & H2) & H3).
  assert (0 <= first_day y) as Hf by (unfold first_day; lia).
  assert (last_day y < 146097) as Hl by (unfold last_day, first_day; case_match; lia).
  pose proof (year_days_mono (first_day y) (Z.to_nat (doe - first_day y)) Hf ltac:(lia)) as M1.
  pose proof (year_days_mono doe (Z.to_nat (last_day y - doe)) ltac:(lia) ltac:(lia)) as M2.
  rewrite Z2Nat.id, Zplus_minus in M1, M2 by lia.
  assert (year_days doe / 365 = y) as ->; [|cbn zeta; lia].
  apply Z.le_antisymm.
  - rewrite <- H2. by apply Z.div_le_mono.
  - rewrite <- H1 at 1. by apply Z.div_le_mono.
Qed.

(** Month and day of a day of the year counted from March. *)
Definition month_check (doy : Z) : bool :=
  let mp := (5 * doy + 2) / 153 in
  let d := doy - (153 * mp + 2) / 5 + 1 in
  let m := if mp <? 10 then mp + 3 else mp - 9 in
  (1 <=? m) && (m <=? 12) && (1 <=? d) && (d <=? 31) &&
  ((153 * ((m + 9) mod 12) + 2) / 5 + d - 1 =? doy).

Lemma month_check_all : all_from month_check 366 0 = true.
Proof. vm_compute. reflexivity. Qed.

Lemma civil_roundtrip days :
  let '(y, m, d) := civil_from_days days in
  days_from_civil y m d = days /\ 1 <= m <= 12 /\ 1 <= d <= 31 /\
  400 * ((days + 719468) / 146097) <= y <= 400 * ((days + 719468) / 146097) + 400.
Proof.
  unfold civil_from_days. set (z := days + 719468). set (era := z / 146097).
  set (doe := z mod 146097). assert (0 <= doe < 146097) as Hdoe by (apply Z.mod_pos_bound; lia).
  assert (z = era * 146097 + doe) as Hz by (subst era doe; pose proof (Z_div_mod_eq_full z 146097); lia).
  set (yoe := (doe - doe / 1460 + doe / 36524 - doe / 146096) / 365) in *.
  set (doy := doe - (365 * yoe + yoe / 4 - yoe / 100)) in *.
  destruct (year_of_era doe Hdoe) as [Hyoe Hdoy].
  change (year_days doe / 365) with yoe in Hyoe, Hdoy.
  change (doe - first_day yoe) with doy in Hdoy.
  pose proof (all_from_spec _ _ _ month_check_all doy ltac:(lia)) as H. unfold month_check in H.
  set (mp := (5 * doy + 2) / 153) in *.
  set (d := doy - (153 * mp + 2) / 5 + 1) in *.
  set (m := if mp <? 10 then mp + 3 else mp - 9) in *.
  rewrite !andb_true_iff, !Z.leb_le, Z.eqb_eq in H.
  destruct H as ((((H3 & H4) & H5) & H6) & H7).
  split_and!; try lia; try (destruct (m <=? 2); lia).
  unfold days_from_civil.
  assert ((if m <=? 2 then yoe + era * 400 + (if m <=? 2 then 1 else 0) - 1
           else yoe + era * 400 + (if m <=? 2 then 1 else 0)) = yoe + era * 400) as ->
    by (destruct (m <=? 2); lia).
  assert ((yoe + era * 400) / 400 = era) as -> by (symmetry; apply (Z.div_unique _ _ _ yoe); lia).
  replace (yoe + era * 400 - era * 400) with yoe by lia. lia.
Qed.

(** ** Digits *)
Lemma take_digits_app w acc s n r t :
  take_digits w acc s = Some (n, r) -> take_digits w acc (s +:+ t) = Some (n, r +:+ t).
Proof.
  revert acc s. induction w as [|w IH]; intros acc s; cbn; [by intros [= <- <-]|].
  destruct s as [|c s]; [done|]. rewrite string_app_cons. destruct (digit_value c); [apply IH|done].
Qed.

Definition pad_check (w : nat) (n : Z) : bool :=
  bool_decide (take_digits w 0 (pad w n) = Some (n, "")).

Lemma pad_check_2 : all_from (pad_check 2) 100 0 = true.
Proof. vm_compute. reflexivity. Qed.
Lemma pad_check_3 : all_from (pad_check 3) 1000 0 = true.
Proof. vm_compute. reflexivity. Qed.
Lemma pad_check_4 : all_from (pad_check 4) 10000 0 = true.
Proof. vm_compute. reflexivity. Qed.
Lemma take_pad w b n r : all_from (pad_check w) b 0 = true -> 0 <= n < Z.pos b ->
  take_digits w 0 (pad w n +:+ r) = Some (n, r).
Proof.
  intros Hall Hn. pose proof (all_from_spec _ _ _ Hall n Hn) as H.
  apply bool_decide_eq_true in H. by rewrite (take_digits_app _ _ _ _ _ r H).
Qed.

Lemma parse_iso_year y r : 0 <= y <= 9999 -> parse_year (iso_year y +:+ r) = Some (y, r).
Proof.
  intros Hy. unfold iso_year.
  assert (((0 <=? y) && (y <=? 9999)) = true) as -> by lia.
  pose proof (take_pad 4 10000 y r pad_check_4 ltac:(lia)) as Ht.
  destruct (pad 4 y +:+ r) as [|c t] eqn:E; [done|]. unfold parse_year.
  assert (forall n, (n < 48)%N -> c <> Ascii.ascii_of_N n) as Hc.
  { intros n Hn ->. cbn [take_digits] in Ht. unfold digit_value in Ht.
    rewrite Ascii.N_ascii_embedding in Ht by lia.
    assert ((48 <=? Z.of_N n) = false) as Hf by lia. by rewrite Hf in Ht. }
  rewrite !bool_decide_false by (apply Hc; lia). exact Ht.
Qed.

(** The time values from March of the year 0 up to February of the year 9600:
    whole eras, printed with four digits. *)
Definition time_value (ms : Z) : Prop := -62162035200000 <= ms < 240784704000000.

Lemma Date_parse_toISOString ms : time_value ms -> Date_parse (toISOString ms) = Some ms.
Proof.
  intros Hms. unfold time_value in Hms. unfold toISOString.
  pose proof (civil_roundtrip (ms / 86400000)) as Hc.
  destruct (civil_from_days (ms / 86400000)) as [[y m] d]. destruct Hc as (Hd & Hm & Hdd & Hy).
  assert (0 <= ms mod 86400000 < 86400000) as Ht by (apply Z.mod_pos_bound; lia).
  assert (ms = 86400000 * (ms / 86400000) + ms mod 86400000) as Hsplit by apply Z_div_mod_eq_full.
  set (t := ms mod 86400000) in *. cbn zeta.
  set (days := ms / 86400000) in *.
  clearbody t days.
  assert (0 <= days + 719468 < 24 * 146097) as Hdays by lia.
  assert (0 <= (days + 719468) / 146097 <= 23) as Hera by lia.
  unfold Date_parse. rewrite parse_iso_year by lia. cbn [mbind option_bind].
  repeat first
    [ rewrite (take_pad 2 100) by (apply pad_check_2 || lia)
    | rewrite (take_pad 3 1000) by (apply pad_check_3 || lia)
    | match goal with |- context [expect (String ?c "") (String ?c "" +:+ ?r)] =>
        change (expect (String c "") (String c "" +:+ r)) with (Some r) end
    | progress cbn [mbind option_bind] ].
  change (expect "Z" "Z") with (Some ""). cbn [mbind option_bind].
  rewrite bool_decide_true by done. f_equal. lia.
Qed.
