(* ===== verification/Exits.v ===== *)
(** Thrown values and journal exits: [durable/journal-exit.ts], the error
    tags of [durable/durable-pipeline-error.ts] and the unwind policy of
    [durable/compensation-stack.ts].

    A failure is journaled as message, tag or name, and encoded fields, and
    replay rebuilds an error from them. The file shows what survives the
    round trip. [LosslessJsonCodec] and the constructors of the tagged error
    classes are third-party code: arguments with their documented laws. An
    [errorName] that names a member of [Object.prototype] is outside the
    model. *)
From S2P Require Import Prelude Leases Json Journal.
Open Scope string_scope.
Open Scope list_scope.
Open Scope Z_scope.

(** ** Thrown values

    An [Error] with its class, its [_tag] when that is a string, and its
    other own enumerable fields; or any other thrown value. *)
Record js_error : Type := mkError {
  err_class : string;
  err_tag : option string;
  err_name : string;
  err_message : string;
  err_fields : list (string * json);
}.

Inductive thrown : Type :=
| TError (e : js_error)
| TValue (v : json).

(** [new Error(message)] and the built-in subclasses. *)
Definition new_error (cls message : string) : js_error := mkError cls None cls message [].

Definition str_prop (key : string) (v : json) : option string :=
  match v with
  | JObj fs => match prop key fs with JStr s => Some s | _ => None end
  | _ => None
  end.

Definition errorTag (err : thrown) : option string :=
  match err with TError e => err_tag e | TValue v => str_prop "_tag" v end.

(** ** The unwind policy *)
Definition NON_COMPENSATING_EXITS : list string :=
  ["WorkflowSuspendedError"; "WorkflowContinueAsNewError"; "WorkflowTripwireError";
   "JournalNonDeterminismError"; "AmbiguousActivityOutcome"; "WorkflowLockError";
   "FenceTokenMismatchError"; "WorkflowLockLostError"; "CheckpointError"].

Definition runsCompensations (bodyError : thrown) : bool :=
  match errorTag bodyError with
  | Some tag => bool_decide (tag ∉ NON_COMPENSATING_EXITS)
  | None => true
  end.

(** ** Signal outcomes *)
Definition SIGNAL_EXIT_KEY : string := "$signal".

Definition deliveredSignalExitValue (value : json) : json :=
  JObj [(SIGNAL_EXIT_KEY, JStr "delivered"); ("value", value)].

Definition timedOutSignalExitValue : json := JObj [(SIGNAL_EXIT_KEY, JStr "timeout")].

Inductive SignalOutcome : Type :=
| SigDelivered (value : json)
| SigTimeout.

Definition untagged_signal : thrown :=
  TError (new_error "Error" ("signal journal entry holds an untagged value; expected { " +:+
    SIGNAL_EXIT_KEY +:+ ": " +:+ json_quote "delivered" +:+ " | " +:+ json_quote "timeout" +:+ " }")).

Definition decodeSignalExitValue (stored : json) : res thrown SignalOutcome :=
  match stored with
  | JObj fs =>
      if bool_decide (prop SIGNAL_EXIT_KEY fs = JStr "timeout") then Ok SigTimeout
      else if bool_decide (prop SIGNAL_EXIT_KEY fs = JStr "delivered")
      then Ok (SigDelivered (prop "value" fs))
      else Err untagged_signal
  | _ => Err untagged_signal
  end.

(** ** Failures *)
Definition KNOWN_TAGGED_ERRORS : list string :=
  ["TerminalError"; "RetryableError"; "AmbiguousActivityOutcome"; "FenceTokenMismatchError";
   "GuardError"; "LoopLimitExceededError"; "StepError"; "StepTimeoutError"; "StorageError";
   "WorkflowDeadlineError"; "WorkflowError"; "WorkflowLockError"; "WorkflowTimeoutError"].

Definition BUILTIN_ERRORS : list string :=
  ["TypeError"; "RangeError"; "SyntaxError"; "ReferenceError"; "EvalError"; "URIError"].

(** [BUILTIN_ERRORS] is a plain object, so a lookup by name also finds what
    every object inherits; [fields.__proto__ = v] replaces the prototype. A
    thrown value with such a name or field is outside of the model
    ([thrown_ok]). *)
Definition object_prototype_names : list string :=
  ["constructor"; "__proto__"; "__defineGetter__"; "__defineSetter__"; "__lookupGetter__";
   "__lookupSetter__"; "hasOwnProperty"; "isPrototypeOf"; "propertyIsEnumerable"; "toString";
   "valueOf"; "toLocaleString"].

Definition RESERVED_ERROR_KEYS : list string := ["_tag"; "name"; "message"; "stack"].

(** [Object.assign(err, fields)]. *)
Definition assign_field (e : js_error) (kv : string * json) : js_error :=
  let '(k, v) := kv in
  if bool_decide (k = "message") then
    mkError (err_class e) (err_tag e) (err_name e)
      (match v with JStr s => s | _ => err_message e end) (err_fields e)
  else if bool_decide (k = "name") then
    mkError (err_class e) (err_tag e) (match v with JStr s => s | _ => err_name e end)
      (err_message e) (err_fields e)
  else if bool_decide (k = "_tag") then
    mkError (err_class e) (match v with JStr s => Some s | _ => None end) (err_name e)
      (err_message e) (err_fields e)
  else if bool_decide (k = "stack") then e
  else mkError (err_class e) (err_tag e) (err_name e) (err_message e)
         (alist_set k v (err_fields e)).

Definition assign_fields (fields : list (string * json)) (e : js_error) : js_error :=
  foldl assign_field e fields.

Section exits.
(** [LosslessJsonCodec.encode] and [decode], [Date.prototype.toString]
    (the host's time zone), and [new cls(props)] for the class of a known
    tag. *)
Variable ll_encode : json -> res thrown json.
Variable ll_decode : json -> res thrown json.
Variable date_string : Z -> string.
Variable new_tagged : string -> list (string * json) -> js_error.

(** [String(value)]. *)
Fixpoint js_String (v : json) : string :=
  match v with
  | JUndef => "undefined"
  | JNull => "null"
  | JBool b => if b then "true" else "false"
  | JNum n => str_of_Z n
  | JStr s => s
  | JDate ms => date_string ms
  | JArr l => string_join ","
      (map (fun x => match x with JUndef | JNull => "" | _ => js_String x end) l)
  | JObj _ => "[object Object]"
  end.

Definition encodable (v : json) : bool := is_ok (ll_encode v).

Definition encodeErrorFields (err : js_error) : res thrown (option json) :=
  let fields := base.filter (fun kv => kv.1 ∉ RESERVED_ERROR_KEYS) (err_fields err) in
  match fields with
  | [] => Ok None
  | _ =>
      match ll_encode (JObj fields) with
      | Ok data => Ok (Some data)
      | Err _ =>
          let kept := base.filter (fun kv => Is_true (encodable kv.2)) fields in
          match kept with
          | [] => Ok None
          | _ => match ll_encode (JObj kept) with
                 | Ok data => Ok (Some data)
                 | Err e => Err e
                 end
          end
      end
  end.

Definition failureExit (err : thrown) : res thrown JournalFailureExit :=
  match err with
  | TValue v =>
      Ok (mkFailure (opt_or (str_prop "message" v) (js_String v)) (str_prop "_tag" v) None None)
  | TError e =>
      let errorName :=
        match err_tag e with
        | Some _ => None
        | None => if bool_decide (err_name e <> "") && bool_decide (err_name e <> "Error")
                  then Some (err_name e) else None
        end in
      match encodeErrorFields e with
      | Ok errorData => Ok (mkFailure (err_message e) (err_tag e) errorName errorData)
      | Err x => Err x
      end
  end.

Definition decodeErrorFields (exit : JournalFailureExit) : list (string * json) :=
  match jf_errorData exit with
  | None => []
  | Some data => match ll_decode data with
                 | Ok v => own_props v
                 | Err _ => []
                 end
  end.

Definition rehydrateFailure (exit : JournalFailureExit) : js_error :=
  let fields := decodeErrorFields exit in
  match jf_errorTag exit with
  | Some tag =>
      if bool_decide (tag ∈ KNOWN_TAGGED_ERRORS)
      then new_tagged tag (alist_set "message" (JStr (jf_error exit)) fields)
      else
        let err := assign_fields fields (new_error "Error" (jf_error exit)) in
        mkError (err_class err) (Some tag) tag (err_message err) (err_fields err)
  | None =>
      match jf_errorName exit with
      | Some n =>
          if bool_decide (n ∈ BUILTIN_ERRORS)
          then assign_fields fields (new_error n (jf_error exit))
          else
            let err := assign_fields fields (new_error "Error" (jf_error exit)) in
            mkError (err_class err) (err_tag err) n (err_message err) (err_fields err)
      | None => assign_fields fields (new_error "Error" (jf_error exit))
      end
  end.

(** ** What survives the round trip *)

(** Own enumerable fields: each key once, the reserved ones apart. *)
Definition fields_ok (fs : list (string * json)) : Prop :=
  NoDup fs.*1 /\ Forall (fun kv => kv.1 ∉ RESERVED_ERROR_KEYS) fs.

#[global] Instance fields_ok_dec fs : Decision (fields_ok fs).
Proof. unfold fields_ok. apply _. Defined.

Definition thrown_ok (err : thrown) : Prop :=
  match err with
  | TError e => fields_ok (err_fields e) /\ ("__proto__" ∉ (err_fields e).*1) /\
                (err_name e ∉ object_prototype_names)
  | TValue _ => True
  end.

(** The documented behaviour of the third-party code. *)
Record exit_laws : Prop := {
  el_roundtrip : forall v w, ll_encode v = Ok w -> ll_decode w = Ok v;
  el_tagged : forall tag fs message, fields_ok fs ->
    exists name, new_tagged tag (fs ++ [("message", JStr message)]) =
      mkError tag (Some tag) name message fs;
}.

Lemma fields_ok_filter (P : string * json -> Prop) `{forall kv, Decision (P kv)} fs :
  fields_ok fs -> fields_ok (base.filter P fs).
Proof.
  intros [Hn Hr]. split.
  - eapply sublist_NoDup; [exact Hn|]. apply fmap_sublist, sublist_filter.
  - rewrite Forall_forall in Hr |- *. intros kv [_ Hkv]%list_elem_of_filter. by apply Hr.
Qed.

Lemma alist_set_absent k v (l : list (string * json)) :
  k ∉ l.*1 -> alist_set k v l = l ++ [(k, v)].
Proof.
  induction l as [|[k' v'] l IH]; cbn; [done|]. rewrite not_elem_of_cons. intros [Hne Hni].
  rewrite decide_False by done. by rewrite IH.
Qed.

Lemma assign_fields_ok fs e : fields_ok (err_fields e ++ fs) ->
  assign_fields fs e =
    mkError (err_class e) (err_tag e) (err_name e) (err_message e) (err_fields e ++ fs).
Proof.
  revert e. induction fs as [|[k v] fs IH]; intros e [Hn Hr].
  - rewrite app_nil_r. by destruct e.
  - assert (assign_field e (k, v) = mkError (err_class e) (err_tag e) (err_name e) (err_message e)
              (err_fields e ++ [(k, v)])) as Hk.
    { apply Forall_app in Hr as [_ [Hk _]%Forall_cons]. cbn in Hk.
      unfold assign_field. unfold RESERVED_ERROR_KEYS in Hk.
      rewrite !not_elem_of_cons in Hk. destruct Hk as (? & ? & ? & ? & _).
      rewrite !bool_decide_false by done. f_equal. apply alist_set_absent.
      rewrite fmap_app in Hn. apply NoDup_app in Hn as (_ & Hd & _). intros Hin.
      apply (Hd k); [exact Hin|]. apply list_elem_of_here. }
    unfold assign_fields. cbn [foldl]. rewrite Hk.
    fold (assign_fields fs (mkError (err_class e) (err_tag e) (err_name e) (err_message e)
            (err_fields e ++ [(k, v)]))).
    rewrite IH; cbn; rewrite <- app_assoc; done.
Qed.

(** The fields a recorded failure gives back: all of them, or those that
    can be encoded on their own. *)
Definition kept_fields (e : js_error) : list (string * json) :=
  if encodable (JObj (err_fields e)) then err_fields e
  else base.filter (fun kv => Is_true (encodable kv.2)) (err_fields e).

Lemma kept_fields_ok e : fields_ok (err_fields e) -> fields_ok (kept_fields e).
Proof. unfold kept_fields. destruct (encodable _); [done|apply fields_ok_filter]. Qed.

Lemma filter_reserved e : fields_ok (err_fields e) ->
  base.filter (fun kv => kv.1 ∉ RESERVED_ERROR_KEYS) (err_fields e) = err_fields e.
Proof. intros [_ Hr]. by apply filter_all. Qed.

(** The codec gives back the fields that were kept, and keeps them again. *)
Lemma encodeErrorFields_kept e d f : exit_laws -> fields_ok (err_fields e) ->
  encodeErrorFields e = Ok d -> jf_errorData f = d ->
  decodeErrorFields f = kept_fields e /\
  forall e', err_fields e' = kept_fields e -> encodeErrorFields e' = Ok d.
Proof.
  intros Hl Hok He Hd. pose proof (kept_fields_ok e Hok) as Hk.
  assert (forall e', err_fields e' = kept_fields e ->
    encodeErrorFields e' = match kept_fields e with
                           | [] => Ok None
                           | _ => match ll_encode (JObj (kept_fields e)) with
                                  | Ok data => Ok (Some data)
                                  | Err _ => encodeErrorFields e'
                                  end
                           end) as Hunf.
  { intros e' E. unfold encodeErrorFields at 1. rewrite filter_reserved, E by (by rewrite E).
    destruct (kept_fields e) as [|kv l] eqn:Ek; [done|].
    destruct (ll_encode (JObj (kv :: l))) eqn:Eenc; [done|].
    unfold encodeErrorFields. by rewrite filter_reserved, E, Eenc by (by rewrite E). }
  unfold encodeErrorFields in He. rewrite filter_reserved in He by done.
  unfold decodeErrorFields. rewrite Hd. unfold kept_fields, encodable in *.
  destruct (err_fields e) as [|kv fs] eqn:Ef.
  - injection He as <-. cbn [base.filter list_filter]. destruct (is_ok _); split; try done;
      intros e' E; rewrite (Hunf e' E); by destruct (is_ok _).
  - destruct (ll_encode (JObj (kv :: fs))) as [w|] eqn:Ew; cbn [is_ok] in *.
    + injection He as <-. rewrite (el_roundtrip Hl _ _ Ew). split; [done|].
      intros e' E. rewrite (Hunf e' E). by rewrite Ew.
    + match type of He with context [match ?k with [] => _ | _ => _ end] => set (kept := k) in * end.
      destruct kept as [|kv' kept'].
      * injection He as <-. split; [done|]. intros e' E. by rewrite (Hunf e' E).
      * destruct (ll_encode (JObj (kv' :: kept'))) as [w|] eqn:Ew'; [|done]. injection He as <-.
        rewrite (el_roundtrip Hl _ _ Ew'). split; [done|].
        done.
Qed.

(** The error a recorded failure gives back, in closed form. *)
Lemma rehydrateFailure_eq f : exit_laws -> fields_ok (decodeErrorFields f) ->
  exists cls name,
    rehydrateFailure f =
      mkError cls (jf_errorTag f) name (jf_error f) (decodeErrorFields f) /\
    (jf_errorTag f = None -> name = opt_or (jf_errorName f) "Error") /\
    (forall t, jf_errorTag f = Some t -> t ∈ KNOWN_TAGGED_ERRORS -> cls = t).
Proof.
  intros Hl Hok. unfold rehydrateFailure.
  assert (forall cls, assign_fields (decodeErrorFields f) (new_error cls (jf_error f)) =
            mkError cls None cls (jf_error f) (decodeErrorFields f)) as Ha
    by (intros cls; by rewrite assign_fields_ok).
  destruct (jf_errorTag f) as [t|] eqn:Et.
  - destruct (decide (t ∈ KNOWN_TAGGED_ERRORS)) as [Hk|Hk].
    + rewrite bool_decide_true by done.
      destruct (el_tagged Hl t _ (jf_error f) Hok) as [name Hn].
      rewrite alist_set_absent, Hn.
      * exists t, name. split_and!; try done. by intros ? [= ->].
      * intros Hin. destruct Hok as [_ Hr]. apply list_elem_of_fmap in Hin as (kv & Hk1 & Hkv).
        rewrite Forall_forall in Hr. apply (Hr kv Hkv). rewrite <- Hk1.
        by apply (bool_decide_unpack _).
    + rewrite bool_decide_false, Ha by done. cbn. exists "Error", t. split_and!; try done.
      by intros ? [= ->].
  - destruct (jf_errorName f) as [n|]; [case_bool_decide|]; rewrite Ha; cbn.
    + by exists n, n.
    + by exists "Error", n.
    + by exists "Error", "Error".
Qed.

(** C26. Replay rethrows an error of the same kind: rebuilding the error of a
    recorded failure keeps the tag, the message, the fields that could be
    encoded and, for an untagged error, the name; the unwind policy treats
    the rebuilt error as it treated the original; and recording the rebuilt
    error writes the same row again, so a replayed failure that escapes and
    is recorded anew does not drift. *)
Theorem failure_roundtrip err f :
  exit_laws -> thrown_ok err -> failureExit err = Ok f ->
  let e' := rehydrateFailure f in
  failureExit (TError e') = Ok f /\
  errorTag (TError e') = errorTag err /\
  runsCompensations (TError e') = runsCompensations err /\
  match err with
  | TError e => err_message e' = err_message e /\ err_fields e' = kept_fields e /\
                (err_tag e = None -> err_name e <> "" -> err_name e' = err_name e)
  | TValue v => err_message e' = opt_or (str_prop "message" v) (js_String v) /\ err_fields e' = []
  end.
Proof.
  intros Hl Hok Hf. cbn zeta.
  assert (errorTag (TError (rehydrateFailure f)) = errorTag err ->
          runsCompensations (TError (rehydrateFailure f)) = runsCompensations err) as Hrun
    by (unfold runsCompensations; by intros ->).
  destruct err as [e|v]; cbn in Hf.
  - destruct (encodeErrorFields e) as [d|] eqn:Ed; [|done]. injection Hf as <-.
    set (f := mkFailure _ _ _ _) in *.
    destruct (encodeErrorFields_kept e d f Hl (proj1 Hok) Ed eq_refl) as [Hdec Hagain].
    destruct (rehydrateFailure_eq f Hl) as (cls & name & Hre & Hname & _).
    { rewrite Hdec. apply kept_fields_ok, Hok. }
    rewrite Hre in *. cbn in Hrun, Hname |- *.
    match goal with |- context [encodeErrorFields ?x] => rewrite (Hagain x Hdec) end.
    split_and!; try done; try by apply Hrun.
    + unfold f. destruct (err_tag e); [done|]. rewrite Hname by done. do 2 f_equal.
      repeat case_bool_decide; cbn; try done; repeat case_bool_decide; cbn; done.
    + intros Ht Hne. rewrite Ht in Hname. rewrite Hname by done.
      rewrite bool_decide_true by done. cbn.
      destruct (decide (err_name e = "Error")) as [->|Hn]; [done|]. by rewrite bool_decide_true.
  - injection Hf as <-. set (f := mkFailure _ _ _ _) in *.
    destruct (rehydrateFailure_eq f Hl) as (cls & name & Hre & Hname & _).
    { split; constructor. }
    rewrite Hre in *. cbn in Hrun, Hname |- *. split_and!; try done; try by apply Hrun.
    unfold f. destruct (str_prop "_tag" v); [done|]. by rewrite Hname.
Qed.
End exits.

(** The laws hold of a codec that refuses [undefined] and boxes the rest. *)
Definition sample_encode (v : json) : res thrown json :=
  match v with
  | JUndef => Err (TError (new_error "TypeError" "cannot encode undefined"))
  | JObj fs => if existsb (fun kv => bool_decide (kv.2 = JUndef)) fs
               then Err (TError (new_error "TypeError" "cannot encode undefined"))
               else Ok (JArr [v])
  | _ => Ok (JArr [v])
  end.

Definition sample_decode (v : json) : res thrown json :=
  match v with
  | JArr [v] => Ok v
  | _ => Err (TError (new_error "SyntaxError" "not encoded"))
  end.

Definition sample_tagged (tag : string) (props : list (string * json)) : js_error :=
  mkError tag (Some tag) tag
    (match prop "message" props with JStr s => s | _ => "" end) (alist_del "message" props).

Lemma sample_exit_laws : exit_laws sample_encode sample_decode sample_tagged.
Proof.
  split.
  - intros v w. destruct v; cbn; try (by intros [= <-]).
    case_match; [done|]. by intros [= <-].
  - intros tag fs message [Hn Hr]. exists tag. unfold sample_tagged.
    assert ("message" ∉ fs.*1) as Hni.
    { intros (kv & Hk & Hkv)%list_elem_of_fmap. rewrite Forall_forall in Hr.
      apply (Hr kv Hkv). rewrite <- Hk. by apply (bool_decide_unpack _). }
    clear Hn Hr. f_equal; induction fs as [|[k v] fs IH]; cbn in Hni |- *; try done;
      apply not_elem_of_cons in Hni as [Hne Hni].
    + unfold prop in *. cbn. rewrite decide_False by done. by apply IH.
    + rewrite decide_False by done. f_equal. by apply IH.
Qed.

(** A terminal error with a field that cannot be encoded. *)
Lemma failure_roundtrip_witness :
  let e := mkError "TerminalError" (Some "TerminalError") "TerminalError" "card declined"
             [("code", JNum 402); ("cause", JUndef)] in
  let f := mkFailure "card declined" (Some "TerminalError") None
             (Some (JArr [JObj [("code", JNum 402)]])) in
  err_fields (rehydrateFailure sample_decode sample_tagged f) = [("code", JNum 402)].
Proof.
  intros e f.
  destruct (failure_roundtrip sample_encode sample_decode str_of_Z sample_tagged (TError e) f)
    as (_ & _ & _ & _ & Hfields & _).
  - apply sample_exit_laws.
  - split; [apply (bool_decide_unpack (fields_ok _)); vm_compute; exact I|].
    split; apply (bool_decide_unpack _); vm_compute; exact I.
  - reflexivity.
  - rewrite Hfields. reflexivity.
Defined.
