(* ===== verification/Retry.v ===== *)
(** The retry policy and the retry loop: [shared/retry-policy.ts], with the
    activity's classification of errors ([runWithRetry] of
    [durable/journaled-ctx-activity.ts]).

    Counts and milliseconds are integers, a jittered delay is a rational.
    The loop runs over any state [T] that the clock, the timer, the random
    source and the retried call read and change. *)
From Stdlib Require Import QArith Lqa.
From S2P Require Import Prelude Leases Json Journal Exits.
Open Scope string_scope.
Open Scope list_scope.
Open Scope Z_scope.

(** How an awaited promise ends: it resolves, it rejects, or the process
    stops first. *)
Inductive outcome (A : Type) : Type :=
| Ret (a : A)
| Throws (e : thrown)
| Died.
Arguments Ret {A} a.
Arguments Throws {A} e.
Arguments Died {A}.

Record RetryPolicy : Type := mkPolicy {
  rp_maxRetries : option Z;
  rp_baseDelayMs : option Z;
  rp_when : option (thrown -> bool);
  rp_jitter : bool;
  rp_maxDelayMs : option Z;
  rp_timeBudgetMs : option Z;
}.

(** [RETRY_POLICY_DEFAULTS]. *)
Definition default_maxRetries : Z := 3.
Definition default_baseDelayMs : Z := 250.
Definition jitterRatio : Q := 1 # 4.

Definition max_retries (policy : RetryPolicy) : Z :=
  opt_or (rp_maxRetries policy) default_maxRetries.

(** The delay before jitter. *)
Definition base_delay (policy : RetryPolicy) (retry : nat) : Z :=
  let delay := opt_or (rp_baseDelayMs policy) default_baseDelayMs * 2 ^ Z.of_nat retry in
  match rp_maxDelayMs policy with
  | Some m => if bool_decide (m = 0) then delay else Z.min delay m
  | None => delay
  end.

Section loop.
Context {T A : Type}.
Variable now : T -> Z * T.
Variable random : T -> Q * T.
Variable wait : Q -> T -> outcome unit * T.
Variable aborted : T -> bool.
Variable run : nat -> T -> outcome A * T.
Variable policy : RetryPolicy.

Definition retryDelayMs (retry : nat) (s : T) : Q * T :=
  let delay := inject_Z (base_delay policy retry) in
  if rp_jitter policy then
    let '(r, s) := random s in
    ((delay * (1 - jitterRatio + r * 2 * jitterRatio))%Q, s)
  else (delay, s).

Definition nextRetryDelayMs (retry : nat) (error : thrown) (firstFailureMs nowMs : Z) (s : T)
    : option Q * T :=
  if Z.of_nat retry >=? max_retries policy then (None, s)
  else if match rp_timeBudgetMs policy with
          | Some budget => (budget >? 0) && (nowMs - firstFailureMs >=? budget)
          | None => false
          end then (None, s)
  else if match rp_when policy with Some w => negb (w error) | None => false end then (None, s)
  else let '(d, s) := retryDelayMs retry s in (Some d, s).

(** The loop, on [spare] iterations more. [retryAsync] has one to spare over
    the retries that the policy grants; [attempt_unfold] shows that it is
    never used up, so it is the policy that ends the loop. *)
Fixpoint attempt (spare retry : nat) (firstFailureMs : option Z) (s : T) : outcome A * T :=
  match run retry s with
  | (Throws error, s) =>
      if aborted s then (Throws error, s)
      else
        let '(nowMs, s) := now s in
        let first := opt_or firstFailureMs nowMs in
        match nextRetryDelayMs retry error first nowMs s with
        | (None, s) => (Throws error, s)
        | (Some delay, s) =>
            match wait delay s with
            | (Ret _, s) => match spare with
                            | O => (Throws error, s)
                            | S spare => attempt spare (S retry) (Some first) s
                            end
            | (Throws reason, s) => (Throws reason, s)
            | (Died, s) => (Died, s)
            end
        end
  | r => r
  end.

Definition retryAsync (s : T) : outcome A * T := attempt (S (Z.to_nat (max_retries policy))) 0 None s.

(** The iteration [for (let retry = 0; ; retry++)] as the code has it: try
    number [retry] and, when the policy grants a retry, the next iteration. *)
Definition iteration (retry : nat) (firstFailureMs : option Z) (s : T) : outcome A * T :=
  attempt (S (Z.to_nat (max_retries policy) - retry)) retry firstFailureMs s.

(** What every call of the loop's functions keeps, the loop keeps. *)
Section keeps.
Context (R : T -> T -> Prop) `{!PreOrder R}.
Hypothesis now_keeps : forall s, R s (now s).2.
Hypothesis random_keeps : forall s, R s (random s).2.
Hypothesis wait_keeps : forall d s, R s (wait d s).2.
Hypothesis run_keeps : forall n s, R s (run n s).2.

Lemma next_delay_keeps retry e first t s : R s (nextRetryDelayMs retry e first t s).2.
Proof using random_keeps PreOrder0.
  unfold nextRetryDelayMs.
  do 3 (match goal with |- context [if ?b then (None, s) else _] => destruct b end; [done|]).
  unfold retryDelayMs. destruct (rp_jitter policy); [|done].
  pose proof (random_keeps s) as Hr. by destruct (random s).
Qed.

Lemma loop_keeps spare retry first s : R s (attempt spare retry first s).2.
Proof using now_keeps random_keeps wait_keeps run_keeps PreOrder0.
  revert retry first s. induction spare as [|spare IH]; intros retry first s; cbn [attempt];
    pose proof (run_keeps retry s) as H1; destruct (run retry s) as [[a|e|] s1]; cbn in H1; try done;
    destruct (aborted s1); try done;
    pose proof (now_keeps s1) as H2; destruct (now s1) as [t s2]; cbn in H2;
    pose proof (next_delay_keeps retry e (opt_or first t) t s2) as H3;
    destruct (nextRetryDelayMs _ _ _ _ s2) as [[d|] s3]; cbn in H3; try (by do 2 etrans);
    pose proof (wait_keeps d s3) as H4; destruct (wait d s3) as [[[]|e'|] s4]; cbn in H4;
    try (by do 3 etrans).
Qed.

(** The first try is made whatever comes after it. *)
Lemma loop_first spare retry first s : R (run retry s).2 (attempt spare retry first s).2.
Proof using now_keeps random_keeps wait_keeps run_keeps PreOrder0.
  destruct spare as [|spare]; cbn [attempt]; destruct (run retry s) as [[a|e|] s1]; try done;
    destruct (aborted s1); try done; cbn [snd];
    pose proof (now_keeps s1) as H2; destruct (now s1) as [t s2]; cbn in H2;
    pose proof (next_delay_keeps retry e (opt_or first t) t s2) as H3;
    destruct (nextRetryDelayMs _ _ _ _ s2) as [[d|] s3]; cbn in H3; try (by etrans);
    pose proof (wait_keeps d s3) as H4; destruct (wait d s3) as [[[]|e'|] s4]; cbn in H4;
    try (by do 2 etrans). do 3 (etrans; [eassumption|]). apply loop_keeps.
Qed.

(** An answer is that of a try, after what the loop keeps. *)
Lemma loop_returns spare retry first s a s' : attempt spare retry first s = (Ret a, s') ->
  exists n s1, R s s1 /\ run n s1 = (Ret a, s').
Proof using now_keeps random_keeps wait_keeps run_keeps PreOrder0.
  revert retry first s. induction spare as [|spare IH]; intros retry first s; cbn [attempt];
    pose proof (run_keeps retry s) as H1; destruct (run retry s) as [[b|e|] s1] eqn:Er; cbn in H1;
    try (intros [= <- <-]; by exists retry, s); try done;
    destruct (aborted s1); try done;
    pose proof (now_keeps s1) as H2; destruct (now s1) as [t s2]; cbn in H2;
    pose proof (next_delay_keeps retry e (opt_or first t) t s2) as H3;
    destruct (nextRetryDelayMs _ _ _ _ s2) as [[d|] s3]; cbn in H3; try done;
    pose proof (wait_keeps d s3) as H4; destruct (wait d s3) as [[[]|e'|] s4]; cbn in H4; try done.
  intros (n & s5 & H5 & Hr)%IH. exists n, s5. split; [|done]. by do 4 (etrans; [eassumption|]).
Qed.
End keeps.

(** What the loop answers with is the answer of a try, or of a wait. *)
Lemma loop_result spare retry first s r s' : attempt spare retry first s = (r, s') ->
  match r with
  | Ret a => exists n s1, run n s1 = (Ret a, s')
  | Throws e => (exists n s1 s2, run n s1 = (Throws e, s2)) \/ (exists d s1 s2, wait d s1 = (Throws e, s2))
  | Died => True
  end.
Proof.
  revert retry first s. induction spare as [|spare IH]; intros retry first s; cbn [attempt];
    destruct (run retry s) as [[a|e|] s1] eqn:Er; try (intros [= <- <-]; by eauto);
    destruct (aborted s1); try (intros [= <- <-]; by eauto);
    destruct (now s1) as [t s2]; destruct (nextRetryDelayMs _ _ _ _ s2) as [[d|] s3];
    try (intros [= <- <-]; by eauto);
    destruct (wait d s3) as [[[]|e'|] s4] eqn:Ew; try (intros [= <- <-]; by eauto 6).
  apply IH.
Qed.

Lemma granted_retries retry error first now_ s d s' :
  nextRetryDelayMs retry error first now_ s = (Some d, s') ->
  Z.of_nat retry < max_retries policy.
Proof. unfold nextRetryDelayMs. destruct (Z.geb_spec (Z.of_nat retry) (max_retries policy)); done. Qed.

Lemma attempt_unfold retry first s :
  iteration retry first s =
  match run retry s with
  | (Throws error, s) =>
      if aborted s then (Throws error, s)
      else
        let '(nowMs, s) := now s in
        match nextRetryDelayMs retry error (opt_or first nowMs) nowMs s with
        | (None, s) => (Throws error, s)
        | (Some delay, s) =>
            match wait delay s with
            | (Ret _, s) => iteration (S retry) (Some (opt_or first nowMs)) s
            | (Throws reason, s) => (Throws reason, s)
            | (Died, s) => (Died, s)
            end
        end
  | r => r
  end.
Proof.
  unfold iteration. cbn [attempt].
  destruct (run retry s) as [[a|e|] s1]; try done. destruct (aborted s1); [done|]. destruct (now s1) as [t s2].
  destruct (nextRetryDelayMs _ _ _ _ _) as [[d|] s3] eqn:En; [|done]. apply granted_retries in En.
  destruct (wait d s3) as [[[]|e'|] s4]; try done.
  by replace (Z.to_nat (max_retries policy) - retry)%nat with (S (Z.to_nat (max_retries policy) - S retry)) by lia.
Qed.

Lemma retryAsync_iteration s : retryAsync s = iteration 0 None s.
Proof. unfold retryAsync, iteration. by rewrite Nat.sub_0_r. Qed.

(** *** How often the call runs *)
Section count.
Variable count : T -> nat.
Hypothesis count_run : forall r s, count (run r s).2 = S (count s).
Hypothesis count_now : forall s, count (now s).2 = count s.
Hypothesis count_random : forall s, count (random s).2 = count s.
Hypothesis count_wait : forall d s, count (wait d s).2 = count s.

Lemma count_next retry e f n s : count (nextRetryDelayMs retry e f n s).2 = count s.
Proof.
  unfold nextRetryDelayMs. 
  do 3 (match goal with |- context [if ?b then (None, s) else _] => destruct b end; [done|]).
  unfold retryDelayMs. destruct (rp_jitter policy); [|done].
  pose proof (count_random s) as Hr. by destruct (random s).
Qed.

(** A retry past the policy's last is never granted, whatever the fuel. *)
Lemma count_attempt spare retry first s :
  let s' := (attempt spare retry first s).2 in
  (S (count s) <= count s' <= count s + S (Z.to_nat (max_retries policy) - retry))%nat.
Proof.
  revert retry first s. induction spare as [|spare IH]; intros retry first s; cbn [attempt];
    pose proof (count_run retry s) as Hr; destruct (run retry s) as [[a|e|] s1]; cbn in Hr |- *;
    try lia; destruct (aborted s1); cbn; try lia;
    pose proof (count_now s1) as Hn; destruct (now s1) as [t s2]; cbn in Hn |- *;
    pose proof (count_next retry e (opt_or first t) t s2) as Hx;
    destruct (nextRetryDelayMs _ _ _ _ _) as [[d|] s3] eqn:En; cbn in Hx |- *; try lia;
    pose proof (count_wait d s3) as Hw; destruct (wait d s3) as [[[]|e'|] s4]; cbn in Hw |- *; try lia.
  apply granted_retries in En. specialize (IH (S retry) (Some (opt_or first t)) s4). cbn zeta in IH. lia.
Qed.

(** Why the loop gives up before the policy's last retry. *)
Definition given_up (e : thrown) : Prop :=
  rp_timeBudgetMs policy <> None \/ (exists w, rp_when policy = Some w /\ w e = false) \/
  exists d s1 s2, wait d s1 = (Throws e, s2).

Lemma loop_gives_up spare retry first s e s' : (forall s, aborted s = false) ->
  (Z.to_nat (max_retries policy) - retry < spare)%nat -> attempt spare retry first s = (Throws e, s') ->
  count s' = (count s + S (Z.to_nat (max_retries policy) - retry))%nat \/ given_up e.
Proof using count_run count_now count_random count_wait.
  intros Hab. revert retry first s. induction spare as [|spare IH]; intros retry first s Hs; [lia|]. cbn [attempt].
  pose proof (count_run retry s) as Hr. destruct (run retry s) as [[a|e1|] s1]; cbn in Hr; try done. rewrite Hab.
  pose proof (count_now s1) as Hn. destruct (now s1) as [t s2]; cbn in Hn.
  pose proof (count_next retry e1 (opt_or first t) t s2) as Hx.
  destruct (nextRetryDelayMs _ _ _ _ _) as [[d|] s3] eqn:En; cbn in Hx.
  - pose proof (count_wait d s3) as Hw. destruct (wait d s3) as [[[]|e2|] s4] eqn:Ew; cbn in Hw; [|intros [= <- <-]|done].
    + intros E. apply granted_retries in En. apply IH in E as [Hc|?]; [left; lia|by right|lia].
    + right. right. right. by do 3 eexists.
  - intros [= <- <-]. unfold nextRetryDelayMs in En. destruct (Z.geb_spec (Z.of_nat retry) (max_retries policy)).
    + left. lia.
    + right. destruct (rp_timeBudgetMs policy) eqn:Eb; [unfold given_up; left; by rewrite Eb|].
      destruct (rp_when policy) as [f|] eqn:Ef; [|by destruct (retryDelayMs retry s2)].
      destruct (f e1) eqn:Efe; cbn in En; [by destruct (retryDelayMs retry s2)|]. right. left. by exists f.
Qed.
End count.
End loop.

(** ** Activities: the class of the error decides first *)
Definition instance_of (cls : string) (err : thrown) : bool :=
  match err with TError e => bool_decide (err_class e = cls) | TValue _ => false end.

Definition activity_when (userWhen : option (thrown -> bool)) (err : thrown) : bool :=
  if instance_of "TerminalError" err then false
  else if instance_of "RetryableError" err then true
  else match userWhen with Some w => w err | None => true end.

Definition activity_policy (p : RetryPolicy) : RetryPolicy :=
  mkPolicy (rp_maxRetries p) (rp_baseDelayMs p) (Some (activity_when (rp_when p))) (rp_jitter p)
    (rp_maxDelayMs p) (rp_timeBudgetMs p).

Section activity.
Context {T A : Type}.
Variable now : T -> Z * T.
Variable random : T -> Q * T.
Variable wait : Q -> T -> outcome unit * T.
Variable fn : T -> outcome A * T.

(** No abort signal reaches an activity. *)
Definition runWithRetry (p : RetryPolicy) : T -> outcome A * T :=
  retryAsync now random wait (fun _ => false) (fun _ => fn) (activity_policy p).
End activity.

Lemma jitter_range (d : Z) (r : Q) : 0 <= d -> (0 <= r)%Q -> (r < 1)%Q ->
  let j := (inject_Z d * (1 - jitterRatio + r * 2 * jitterRatio))%Q in
  (inject_Z d * (3 # 4) <= j)%Q /\ (j <= inject_Z d * (5 # 4))%Q.
Proof.
  intros Hd H0 H1. cbn zeta. unfold jitterRatio.
  assert (0 <= inject_Z d)%Q as Hq by (change 0%Q with (inject_Z 0); by rewrite <- Zle_Qle).
  split; rewrite !(Qmult_comm (inject_Z d)); apply Qmult_le_compat_r; try done; lra.
Qed.

(** Errors that end an activity at once. *)
Definition not_retryable (p : RetryPolicy) (e : thrown) : Prop :=
  instance_of "TerminalError" e = true \/
  (instance_of "RetryableError" e = false /\ exists w, rp_when p = Some w /\ w e = false).


(** An activity that fails twice, under two retries with jitter. *)
Definition flaky (s : nat) : outcome Z * nat :=
  (if (s <? 2)%nat then Throws (TError (new_error "Error" "busy")) else Ret 7, S s).

