(* ===== verification/JournalStore.v ===== *)
(** The storage interface of a journaled step: [durable/storage/journal-store.ts]
    and the suspend call of [durable/workflow-storage.ts], as a class of
    operations with the contract the replay engine relies on.

    The contract speaks of the journal as a map from slot to entry
    ([js_view]). A call may find that other writers completed waits since
    the last one - a due sleep, a delivered signal - and nothing else: the
    caller holds the run's lock. A call that rejects may or may not have
    written. The in-memory storage meets the contract. *)
From S2P Require Import Prelude Leases Json Journal Streams SignalTokens Events RunState Storage StorageRows Exits.
Open Scope string_scope.
Open Scope list_scope.
Open Scope Z_scope.

#[global] Instance JournalSlot_eq_dec : EqDecision JournalSlot.
Proof. solve_decision. Defined.

(** ** Operations *)
Class JournalStore (S : Type) : Type := {
  js_loadJournal : string -> string -> S -> res thrown (list JournalEntry) * S;
  js_appendPendingEntry : option FenceGuard -> string -> string -> JournalSlot -> string ->
    option string -> JournalStepType -> option Z -> S -> res thrown unit * S;
  js_completePendingEntry : option FenceGuard -> string -> string -> JournalSlot -> JournalExit ->
    S -> res thrown CompletePendingResult * S;
  js_discardJournalEntries : option FenceGuard -> string -> string -> list JournalSlot ->
    S -> res thrown unit * S;
  js_suspendWorkflow : option FenceGuard -> string -> string -> StepUpdate ->
    S -> res thrown unit * S;
}.

(** ** The contract *)
Definition view : Type := JournalSlot -> option JournalEntry.

(** An entry is pending without an exit or completed with one. *)
Definition entry_wf (e : JournalEntry) : Prop :=
  match je_phase e with
  | Some PhPending => je_exit e = None
  | Some PhCompleted => je_exit e <> None
  | None => False
  end.

(** What [completeDueSleeps] and [completeSignal] write. *)
Definition foreign_exit (e : JournalEntry) (x : JournalExit) : Prop :=
  match je_stepType e with
  | Some StSleep => exists w, je_wakeAt e = Some w /\ x = ExSuccess (JStr (toISOString w))
  | Some StSignal => exists v, x = ExSuccess (deliveredSignalExitValue v)
  | _ => False
  end.

Definition grows_at (o o' : option JournalEntry) : Prop :=
  o' = o \/ exists e x, o = Some e /\ is_pending e = true /\ foreign_exit e x /\
                   o' = Some (completed_with x e).

Definition grows (v v' : view) : Prop := forall sl, grows_at (v sl) (v' sl).

(** The row [appendPendingEntry] writes when the slot is free. *)
Definition pending_entry (sl : JournalSlot) (name : string) (hash : option string)
    (kind : JournalStepType) (wake : option Z) (createdAt : Z) : JournalEntry :=
  mkEntry (js_activityIndex sl) (js_branchPath sl) name (Some kind) (Some PhPending) hash None wake
    createdAt.

Definition pending_spec (sl : JournalSlot) (name : string) (hash : option string)
    (kind : JournalStepType) (wake : option Z) (v v' : view) : Prop :=
  exists t, forall sl', v' sl' =
    if decide (sl' = sl) then Some (opt_or (v sl) (pending_entry sl name hash kind wake t))
    else v sl'.

Definition complete_spec (sl : JournalSlot) (x : JournalExit) (v v' : view) : Prop :=
  forall sl', v' sl' =
    if decide (sl' = sl) then (fun e => if is_pending e then completed_with x e else e) <$> v sl
    else v sl'.

Definition complete_answer (sl : JournalSlot) (x : JournalExit) (v : view)
    (c : CompletePendingResult) : Prop :=
  match v sl with
  | None => c = mkCompletePending false None
  | Some e =>
      if is_pending e then c = mkCompletePending true (Some x)
      else cp_exit c = je_exit e /\
           (cp_completed c = true ->
            exists y, je_exit e = Some y /\ sameStoredValue (exit_json y) (exit_json x) = true)
  end.

Definition discard_spec (sls : list JournalSlot) (v v' : view) : Prop :=
  forall sl, v' sl = if decide (sl ∈ sls) then None else v sl.

(** A write as the store served it: after the other writers', and, when the
    call rejected, possibly not at all. *)
Definition served {A} (v v' : view) (r : res thrown A) (spec : view -> view -> Prop)
    (answer : view -> A -> Prop) : Prop :=
  exists v1, grows v v1 /\
    match r with
    | Ok a => spec v1 v' /\ answer v1 a
    | Err _ => spec v1 v' \/ (forall sl, v' sl = v1 sl)
    end.

(** [new Map(journal.map((e) => [slotKey(e), e]))]. *)
Definition snapshot (l : list JournalEntry) : jmap string JournalEntry :=
  foldl (fun m e => <[slotKey (entry_slot e) := e]> m) ∅ l.

Class JournalStoreLaws (S : Type) `{JournalStore S} : Type := {
  js_ok : S -> Prop;
  js_view : string -> string -> S -> view;
  js_view_wf : forall w st s sl e, js_ok s -> js_view w st s sl = Some e ->
    entry_wf e /\ entry_slot e = sl;
  js_load_law : forall w st s, js_ok s ->
    let '(r, s') := js_loadJournal w st s in
    js_ok s' /\ grows (js_view w st s) (js_view w st s') /\
    forall l, r = Ok l ->
      (forall sl, snapshot l !! slotKey sl = js_view w st s' sl) /\
      (forall e, e ∈ l -> js_view w st s' (entry_slot e) = Some e);
  js_pending_law : forall g w st sl name hash kind wake s, js_ok s ->
    let '(r, s') := js_appendPendingEntry g w st sl name hash kind wake s in
    js_ok s' /\ served (js_view w st s) (js_view w st s') r
      (pending_spec sl name hash kind wake) (fun _ _ => True);
  js_complete_law : forall g w st sl x s, js_ok s ->
    let '(r, s') := js_completePendingEntry g w st sl x s in
    js_ok s' /\ served (js_view w st s) (js_view w st s') r (complete_spec sl x)
      (complete_answer sl x);
  js_discard_law : forall g w st sls s, js_ok s ->
    let '(r, s') := js_discardJournalEntries g w st sls s in
    js_ok s' /\ served (js_view w st s) (js_view w st s') r (discard_spec sls) (fun _ _ => True);
  js_suspend_law : forall g w st u s, js_ok s ->
    let '(r, s') := js_suspendWorkflow g w st u s in
    js_ok s' /\ grows (js_view w st s) (js_view w st s');
}.

(** ** How a slot may change *)
Lemma is_pending_completed x e : is_pending (completed_with x e) = false.
Proof. reflexivity. Qed.

Lemma completed_wf e : entry_wf e -> is_pending e = false ->
  je_phase e = Some PhCompleted /\ exists x, je_exit e = Some x.
Proof.
  unfold entry_wf, is_pending. destruct (je_phase e) as [[]|]; [by cbn| |done].
  intros Hx _. split; [done|]. destruct (je_exit e) as [x|]; [by exists x|done].
Qed.

Lemma pending_wf e : entry_wf e -> is_pending e = true ->
  je_phase e = Some PhPending /\ je_exit e = None.
Proof. unfold entry_wf, is_pending. destruct (je_phase e) as [[]|]; done. Qed.

Lemma grows_at_refl o : grows_at o o.
Proof. by left. Qed.

Lemma grows_refl v : grows v v.
Proof. intros sl. apply grows_at_refl. Qed.

Lemma grows_at_trans o1 o2 o3 : grows_at o1 o2 -> grows_at o2 o3 -> grows_at o1 o3.
Proof.
  intros [->|(e & x & -> & Hp & Hx & ->)] H; [done|].
  destruct H as [->|(e' & x' & [= <-] & Hp' & _)]; [|by rewrite is_pending_completed in Hp'].
  right. by exists e, x.
Qed.

Lemma grows_trans v1 v2 v3 : grows v1 v2 -> grows v2 v3 -> grows v1 v3.
Proof. intros H1 H2 sl. by eapply grows_at_trans. Qed.

Lemma grows_at_completed o e o' : grows_at o o' -> o = Some e -> is_pending e = false -> o' = Some e.
Proof. intros [->|(e' & x & -> & Hp & _)] [= <-] Hp'; congruence. Qed.

Lemma grows_at_None o o' : grows_at o o' -> o = None <-> o' = None.
Proof. intros [->|(e & x & -> & _ & _ & ->)]; done. Qed.

(** An entry stays what it is, except that a pending one may be completed. *)
Definition later_at (o o' : option JournalEntry) : Prop :=
  forall e, o = Some e ->
    o' = Some e \/ (is_pending e = true /\ exists x, o' = Some (completed_with x e)).

Lemma grows_later o o' : grows_at o o' -> later_at o o'.
Proof.
  intros [->|(e & x & -> & Hp & Hx & ->)] e' [= <-]; [by left|]. right. split; [done|]. by exists x.
Qed.

Lemma later_refl o : later_at o o.
Proof. intros e ->. by left. Qed.

Lemma later_trans o1 o2 o3 : later_at o1 o2 -> later_at o2 o3 -> later_at o1 o3.
Proof.
  intros H1 H2 e He. destruct (H1 e He) as [H|(Hp & x & H)].
  - by apply H2.
  - right. split; [done|]. destruct (H2 _ H) as [->|(Hp' & _)]; [by exists x|].
    by rewrite is_pending_completed in Hp'.
Qed.

Lemma later_completed o o' e : later_at o o' -> o = Some e -> is_pending e = false -> o' = Some e.
Proof. intros H He Hp. destruct (H e He) as [?|[? _]]; [done|congruence]. Qed.

#[export] Hint Resolve grows_at_refl grows_refl later_refl grows_later : core.

(** A served write touches its slot only. *)
Lemma served_pending {A} sl name hash kind wake v v' (r : res thrown A) ans :
  served v v' r (pending_spec sl name hash kind wake) ans ->
  later_at (v sl) (v' sl) /\ forall sl', sl' <> sl -> grows_at (v sl') (v' sl').
Proof.
  intros (v1 & Hg & H).
  assert (pending_spec sl name hash kind wake v1 v' \/ forall sl', v' sl' = v1 sl') as Hs
    by (destruct r; tauto). clear H. destruct Hs as [[t Hv]|Hv].
  - split.
    + rewrite Hv, decide_True by done. eapply later_trans; [apply grows_later, Hg|].
      intros e ->. by left.
    + intros sl' Hne. rewrite Hv, decide_False by done. apply Hg.
  - split; [rewrite Hv; apply grows_later, Hg|]. intros sl' _. rewrite Hv. apply Hg.
Qed.

Lemma served_complete {A} sl x v v' (r : res thrown A) ans :
  served v v' r (complete_spec sl x) ans ->
  later_at (v sl) (v' sl) /\ (v sl = None -> v' sl = None) /\
  forall sl', sl' <> sl -> grows_at (v sl') (v' sl').
Proof.
  intros (v1 & Hg & H).
  assert (complete_spec sl x v1 v' \/ forall sl', v' sl' = v1 sl') as Hs
    by (destruct r; tauto). clear H. destruct Hs as [Hv|Hv].
  - split_and!.
    + rewrite Hv, decide_True by done. eapply later_trans; [apply grows_later, Hg|].
      intros e ->. cbn. destruct (is_pending e); [|by left]. right. split; [done|]. by exists x.
    + intros Hn. rewrite Hv, decide_True by done.
      apply (grows_at_None _ _ (Hg sl)) in Hn. by rewrite Hn.
    + intros sl' Hne. rewrite Hv, decide_False by done. apply Hg.
  - split_and!; [rewrite Hv; apply grows_later, Hg| |intros sl' _; rewrite Hv; apply Hg].
    intros Hn. rewrite Hv. by apply (grows_at_None _ _ (Hg sl)).
Qed.

(** ** The in-memory storage

    Its clock is a sequence of readings; each call takes the next one. *)
Record ClockedStorage : Type := mkClocked {
  cs_db : InMemoryWorkflowStorage;
  cs_readings : nat -> Z;
  cs_reads : nat;
}.

Definition store_error (e : StoreError) : thrown :=
  match e with
  | FenceTokenMismatchError w expected provided message =>
      TError (mkError "FenceTokenMismatchError" (Some "FenceTokenMismatchError")
        "FenceTokenMismatchError" message
        [("workflowId", JStr w); ("expected", JStr expected); ("provided", JStr provided)])
  | StaleLeaseError lease _ =>
      TError (mkError "StaleLeaseError" (Some "StaleLeaseError") "StaleLeaseError"
        ("stale lease for " +:+ ll_key lease) [])
  | JsError message => TError (new_error "Error" message)
  end.

Definition clocked {A} (c : Z -> call A) (s : ClockedStorage) : res thrown A * ClockedStorage :=
  let '(r, d) := c (cs_readings s (cs_reads s)) (cs_db s) in
  (match r with Ok a => Ok a | Err e => Err (store_error e) end,
   mkClocked d (cs_readings s) (S (cs_reads s))).

Section memory.
Variable localeCompare : string -> string -> Z.

#[export] Instance memory_journal_store : JournalStore ClockedStorage := {|
  js_loadJournal w st := clocked (fun _ => loadJournal localeCompare w st);
  js_appendPendingEntry g w st sl n h k wk :=
    clocked (fun now => appendPendingEntry now g w st sl n h k wk);
  js_completePendingEntry g w st sl x := clocked (fun now => completePendingEntry now g w st sl x);
  js_discardJournalEntries g w st sls := clocked (fun now => discardJournalEntries now g w st sls);
  js_suspendWorkflow g w st u := clocked (fun now => suspendWorkflow now g w st u);
|}.
End memory.

(** *** The journal map under each call *)
Definition entries_wf (j : InMemoryJournal) : Prop :=
  forall k s, journal j !! k = Some s -> Forall entry_wf (entries s).

Lemma open_wf w st j : entries_wf j ->
  Forall entry_wf (entries (openJournal w st j).1) /\ entries_wf (openJournal w st j).2.
Proof.
  intros H. unfold openJournal. destruct (journal j !! journalKey w st) as [s|] eqn:E.
  - split; [by eapply H|done].
  - split; [constructor|]. intros k s. cbn. rewrite jlookup_insert.
    case_decide; [intros [= <-]; constructor|apply H].
Qed.

Lemma put_wf s e : Forall entry_wf (entries s) -> entry_wf e -> Forall entry_wf (entries (putEntry s e)).
Proof.
  intros Hs He. unfold putEntry. destruct (position s !! _); cbn.
  - by apply Forall_insert.
  - apply Forall_app. split; [done|]. by constructor.
Qed.

Lemma set_slots_wf w st s j : entries_wf j -> Forall entry_wf (entries s) ->
  entries_wf (set_slots w st s j).
Proof.
  intros Hj Hs k s'. cbn. rewrite jlookup_insert. case_decide; [by intros [= <-]|apply Hj].
Qed.

Lemma load_wf lc w st j : entries_wf j -> entries_wf (load lc w st j).2.
Proof.
  intros H. unfold load, journalOf. destruct (journal j !! journalKey w st) as [s|] eqn:E; [|done].
  apply set_slots_wf; [done|]. cbn. by eapply H.
Qed.

Lemma pending_entry_wf now w st sl n h k wk j :
  entries_wf j -> entries_wf (appendPending now w st sl n h k wk j).
Proof.
  intros H. unfold appendPending. destruct (open_wf w st j H) as [Hs Hj].
  destruct (openJournal w st j) as [s j']. cbn in Hs, Hj.
  destruct (position s !! slotKey sl); [done|].
  assert (entries_wf (set_slots w st (putEntry s (pending_entry sl n h k wk now)) j')) as Hp
    by (apply set_slots_wf; [done|by apply put_wf]).
  by case_bool_decide.
Qed.

Lemma complete_entry_wf w st sl x j :
  entries_wf j -> entries_wf (completePending w st sl x j).2.
Proof.
  intros H. unfold completePending, journalOf.
  destruct (journal j !! journalKey w st) as [s|] eqn:E; [|done].
  destruct (entry_at s sl); [|done]. case_bool_decide; [done|].
  apply set_slots_wf; [done|]. apply put_wf; [by eapply H|done].
Qed.

Lemma discard_wf w st sls j : entries_wf j -> entries_wf (discard w st sls j).
Proof.
  intros H. unfold discard, journalOf. destruct (journal j !! journalKey w st) as [s|] eqn:E; [|done].
  apply set_slots_wf; [done|]. cbn. apply Forall_forall. intros e [_ He]%list_elem_of_filter.
  specialize (H _ _ E). rewrite Forall_forall in H. by apply H.
Qed.

Section memory_laws.
Variable localeCompare : string -> string -> Z.
#[local] Existing Instance memory_journal_store.

Lemma recorded_put w st s e sl j :
  journal_ok localeCompare j -> journalOf w st j = Some s ->
  recorded w st sl (set_slots w st (putEntry s e) j) =
    if decide (sl = entry_slot e) then Some e else entry_at s sl.
Proof.
  intros Hok Hs. assert (slots_ok localeCompare s) as Hsok by (by eapply jo_slots).
  unfold recorded. rewrite set_slots_get. cbn.
  rewrite <- (slots_map_lookup localeCompare), (slots_map_put localeCompare), jlookup_insert
    by (done || by apply putEntry_ok).
  rewrite (slots_map_lookup localeCompare) by done. repeat case_decide; try done.
  - by destruct (slotKey_inj (entry_slot e) sl).
  - by subst.
Qed.

Lemma recorded_pending now w st sl n h k wk j : journal_ok localeCompare j ->
  forall sl', recorded w st sl' (appendPending now w st sl n h k wk j) =
    if decide (sl' = sl) then Some (opt_or (recorded w st sl j) (pending_entry sl n h k wk now))
    else recorded w st sl' j.
Proof.
  intros Hok sl'. destruct (openJournal_spec localeCompare w st j Hok) as (Hs & Hok' & Hof & _).
  assert (forall x, recorded w st x j = entry_at (openJournal w st j).1 x) as Hr.
  { intros x. unfold recorded, openJournal, journalOf.
    by destruct (journal j !! journalKey w st). }
  rewrite !Hr. unfold appendPending. destruct (openJournal w st j) as [s j'] eqn:Eo. cbn in *.
  destruct (position s !! slotKey sl) as [i|] eqn:E.
  - assert (recorded w st sl' j' = entry_at s sl') as Hj'.
    { unfold recorded. by rewrite Hof. }
    rewrite Hj'. case_decide as Hd; [subst|done]. unfold entry_at. rewrite E; cbn.
    apply (so_position _ _ Hs) in E. unfold keys_of in E. rewrite list_lookup_fmap in E.
    by destruct (entries s !! i).
  - assert (entry_at s sl = None) as -> by (unfold entry_at; by rewrite E).
    change (recorded w st sl' (if bool_decide (k = StSleep) then
        mkJournal (journal (set_slots w st (putEntry s (pending_entry sl n h k wk now)) j'))
          (journalKeys j') (set_add (journalKey w st) (sleepKeys j'))
        else set_slots w st (putEntry s (pending_entry sl n h k wk now)) j') =
      if decide (sl' = sl) then Some (pending_entry sl n h k wk now) else entry_at s sl').
    transitivity (recorded w st sl' (set_slots w st (putEntry s (pending_entry sl n h k wk now)) j')).
    { by case_bool_decide. }
    rewrite recorded_put by done. by destruct sl.
Qed.

Lemma recorded_complete w st sl x j : journal_ok localeCompare j ->
  complete_answer sl x (fun y => recorded w st y j) (completePending w st sl x j).1 /\
  complete_spec sl x (fun y => recorded w st y j)
    (fun y => recorded w st y (completePending w st sl x j).2).
Proof.
  intros Hok. unfold complete_answer, complete_spec, completePending.
  unfold recorded at 1 3. destruct (journalOf w st j) as [s|] eqn:E; cbn.
  2:{ split; [done|]. intros sl'. case_decide; [|done]. subst. unfold recorded. by rewrite E. }
  assert (slots_ok localeCompare s) as Hs by (by eapply jo_slots).
  destruct (entry_at s sl) as [e|] eqn:Ee; cbn.
  2:{ split; [done|]. intros sl'. case_decide; [|done]. subst. unfold recorded. by rewrite E. }
  rewrite is_pending_neg. destruct (is_pending e) eqn:Hp; cbn.
  - split; [done|]. intros sl'.
    change (recorded w st sl' (set_slots w st (putEntry s (completed_with x e)) j) =
      if decide (sl' = sl) then Some (completed_with x e) else recorded w st sl' j).
    rewrite recorded_put by done.
    apply (entry_at_Some localeCompare) in Ee as [_ Hk]; [|done]. apply slotKey_inj in Hk.
    change (entry_slot (completed_with x e)) with (entry_slot e). rewrite Hk.
    case_decide; [done|]. unfold recorded. by rewrite E.
  - split.
    + split; [done|]. destruct (je_exit e) as [y|]; [|done]. intros. by exists y.
    + intros sl'. case_decide as Hd; [|done]. subst. unfold recorded. by rewrite E.
Qed.

Lemma recorded_discard w st sls j : journal_ok localeCompare j ->
  discard_spec sls (fun y => recorded w st y j) (fun y => recorded w st y (discard w st sls j)).
Proof.
  intros Hok sl. unfold discard. unfold recorded at 2. destruct (journalOf w st j) as [s|] eqn:E; cbn.
  2:{ unfold recorded. rewrite E. by case_decide. }
  assert (slots_ok localeCompare s) as Hs by (by eapply jo_slots).
  set (keep := fun e : JournalEntry => bool_decide (slotKey (entry_slot e) ∉ slotKey <$> sls)).
  unfold recorded. rewrite set_slots_get. cbn.
  pose proof (filterEntries_ok localeCompare s keep Hs) as Hf.
  assert (forall e, entry_at (filterEntries s keep) sl = Some e <->
            entry_at s sl = Some e /\ sl ∉ sls) as Hiff.
  { intros e. rewrite !(entry_at_Some localeCompare) by done. cbn.
    rewrite list_elem_of_filter. unfold keep. rewrite bool_decide_spec. split.
    - intros ((Hk & He) & Hsl). split; [done|]. intros Hin. apply Hk. rewrite Hsl.
      by apply list_elem_of_fmap_2.
    - intros ((He & Hsl) & Hin). split_and!; try done. rewrite Hsl.
      intros (x & Hx & Hxin)%list_elem_of_fmap. apply slotKey_inj in Hx. by subst. }
  case_decide as Hd.
  - destruct (entry_at (filterEntries s keep) sl) as [e|] eqn:Ee; [|done].
    by destruct (proj1 (Hiff e) eq_refl).
  - destruct (entry_at s sl) as [e|] eqn:Ee; [by apply Hiff|].
    destruct (entry_at (filterEntries s keep) sl) as [e|] eqn:Ef; [|done].
    by destruct (proj1 (Hiff e) eq_refl).
Qed.

Lemma snapshot_lookup l (m : jmap string JournalEntry) (k : string) :
  NoDup (keys_of l) -> (forall e, e ∈ l -> m !! slotKey (entry_slot e) = None) ->
  foldl (fun m e => <[slotKey (entry_slot e) := e]> m) m l !! k =
    opt_else (List.find (fun e => bool_decide (slotKey (entry_slot e) = k)) l) (m !! k).
Proof.
  revert m. induction l as [|e l IH]; intros m; cbn; [done|].
  rewrite NoDup_cons. intros [Hni Hn] Hm. rewrite IH; [|done|].
  - rewrite jlookup_insert. destruct (decide (slotKey (entry_slot e) = k)) as [He|He].
    + rewrite bool_decide_true by done.
      destruct (List.find _ l) as [e'|] eqn:Ef; [|done]. exfalso.
      apply List.find_some in Ef as [Hin Hk]. apply list_elem_of_In in Hin.
      apply bool_decide_eq_true in Hk. apply Hni. rewrite He, <- Hk.
      by apply (list_elem_of_fmap_2 (fun e => slotKey (entry_slot e))).
    + by rewrite bool_decide_false.
  - intros e' He'. rewrite jlookup_insert_ne; [apply Hm; by right|]. intros E. apply Hni.
    rewrite E. by apply (list_elem_of_fmap_2 (fun e => slotKey (entry_slot e))).
Qed.

(** What [load] lists, from the recorded entries. *)
Lemma load_lists w st j : journal_ok localeCompare j ->
  let l := (load localeCompare w st j).1 in
  NoDup (keys_of l) /\ (forall e, e ∈ l <-> recorded w st (entry_slot e) j = Some e) /\
  forall sl, recorded w st sl (load localeCompare w st j).2 = recorded w st sl j.
Proof.
  intros Hok. cbn zeta. unfold load. destruct (journalOf w st j) as [s|] eqn:E; cbn [fst snd].
  2:{ split_and!; [constructor| |done]. intros e. unfold recorded. rewrite E. cbn.
      split; [by intros ?%not_elem_of_nil|done]. }
  assert (slots_ok localeCompare s) as Hs by (by eapply jo_slots).
  assert (match sorted s with Some v => v | None => jsort (entry_cmp localeCompare) (entries s) end
          = jsort (entry_cmp localeCompare) (entries s)) as ->.
  { destruct (sorted s) eqn:Es; [|done]. by apply Hs in Es. }
  split_and!.
  - unfold keys_of. rewrite (jsort_perm (entry_cmp localeCompare) (entries s)). apply Hs.
  - intros e. rewrite elem_of_jsort. unfold recorded. rewrite E. cbn.
    rewrite (entry_at_Some localeCompare) by done. split; [done|by intros []].
  - intros sl. unfold recorded. by rewrite set_slots_get, E.
Qed.

Lemma snapshot_recorded w st j sl : journal_ok localeCompare j ->
  snapshot (load localeCompare w st j).1 !! slotKey sl = recorded w st sl j.
Proof.
  intros Hok. destruct (load_lists w st j Hok) as (Hn & Hl & _). unfold snapshot.
  rewrite snapshot_lookup by done.
  destruct (List.find _ _) as [e|] eqn:Ef; cbn.
  - apply List.find_some in Ef as [Hin Hk]. apply list_elem_of_In, Hl in Hin.
    apply bool_decide_eq_true, slotKey_inj in Hk. by rewrite <- Hk.
  - destruct (recorded w st sl j) as [e|] eqn:Er; [|done]. exfalso.
    assert (entry_slot e = sl) as Hsl.
    { unfold recorded in Er. destruct (journalOf w st j) as [s|] eqn:E; [|done]. cbn in Er.
      apply (entry_at_Some localeCompare) in Er as [_ Hk]; [|by eapply jo_slots].
      by apply slotKey_inj. }
    rewrite <- Hsl in Er. apply Hl in Er. apply list_elem_of_In in Er.
    pose proof (List.find_none _ _ Ef e Er) as Hx. cbn in Hx.
    by rewrite Hsl, bool_decide_true in Hx.
Qed.

Definition memory_ok (s : ClockedStorage) : Prop :=
  journal_ok localeCompare (db_journal (cs_db s)) /\ entries_wf (db_journal (cs_db s)).

Definition memory_view (w st : string) (s : ClockedStorage) : view :=
  fun sl => recorded w st sl (db_journal (cs_db s)).

Lemma memory_view_wf w st s sl e : memory_ok s -> memory_view w st s sl = Some e ->
  entry_wf e /\ entry_slot e = sl.
Proof.
  intros [Hok Hwf] He. unfold memory_view, recorded in He.
  destruct (journalOf w st _) as [t|] eqn:E; [|done]. cbn in He.
  apply (entry_at_Some localeCompare) in He as [Hin Hk]; [|by eapply jo_slots].
  split; [|by apply slotKey_inj]. specialize (Hwf _ _ E). rewrite Forall_forall in Hwf. by apply Hwf.
Qed.

(** A fenced write of the journal runs or is refused as a whole. *)
Lemma fenced_served {A} w g (k : Z -> call A) (op : journal_op) st spec answer s :
  let now := cs_readings s (cs_reads s) in
  memory_ok s ->
  (forall d, db_journal (k now d).2 = run_journal_op localeCompare now op (db_journal d)) ->
  (forall j, entries_wf j -> entries_wf (run_journal_op localeCompare now op j)) ->
  (forall d, exists a, (k now d).1 = Ok a /\
     (journal_ok localeCompare (db_journal d) -> answer (fun y => recorded w st y (db_journal d)) a)) ->
  (forall j, journal_ok localeCompare j -> spec (fun y => recorded w st y j)
     (fun y => recorded w st y (run_journal_op localeCompare now op j))) ->
  let '(r, s') := clocked (fun now => do* fence now w g in k now) s in
  memory_ok s' /\ served (memory_view w st s) (memory_view w st s') r spec answer.
Proof.
  intros now [Hok Hwf] Hk Hkeep Ha Hspec. unfold clocked. fold now.
  destruct (fenced_cases now w g (k now) (cs_db s)) as [(u & _ & ->)|(e & _ & ->)].
  - destruct (Ha (cs_db s)) as (a & Hka & Hans). specialize (Hk (cs_db s)).
    destruct (k now (cs_db s)) as [r d]. cbn in Hk, Hka. subst r. split.
    + split; cbn; rewrite Hk; [by apply exec_journal_op_refines|by apply Hkeep].
    + exists (memory_view w st s). split; [apply grows_refl|]. split; [|by apply Hans].
      unfold memory_view; cbn. rewrite Hk. by apply Hspec.
  - split; [done|]. exists (memory_view w st s). split; [apply grows_refl|]. by right.
Qed.

#[export] Instance memory_journal_laws :
  @JournalStoreLaws ClockedStorage (memory_journal_store localeCompare).
Proof.
  refine (@Build_JournalStoreLaws _ (memory_journal_store localeCompare) memory_ok memory_view
            memory_view_wf _ _ _ _ _).
  - intros w st s [Hok Hwf]. unfold js_loadJournal, memory_journal_store, clocked, loadJournal.
    destruct (load_lists w st _ Hok) as (_ & Hl & Hv).
    pose proof (fun sl => snapshot_recorded w st _ sl Hok) as Hs.
    destruct (exec_journal_op_refines localeCompare 0 (JLoad w st) _ Hok) as [Hok' _].
    pose proof (load_wf localeCompare w st _ Hwf) as Hwf'. cbn in Hok'.
    destruct (load localeCompare w st (db_journal (cs_db s))) as [l j']. cbn in *.
    split_and!; [done|intros sl; left; apply Hv|].
    intros ? [= <-]. unfold memory_view; cbn. split; intros; rewrite Hv; [apply Hs|by apply Hl].
  - intros g w st sl n h k wk s Hok.
    apply (fenced_served w g (fun now => st_modify (on_journal
             (appendPending now w st sl n h k wk))) (JAppendPending w st sl n h k wk)); try done.
    + intros j. apply pending_entry_wf.
    + intros d. by exists tt.
    + intros j Hj. exists (cs_readings s (cs_reads s)). by apply recorded_pending.
  - intros g w st sl x s Hok.
    apply (fenced_served w g (fun _ s => let '(r, j) := completePending w st sl x (db_journal s) in
             (Ok r, set_journal j s)) (JCompletePending w st sl x)); try done.
    + intros d. unfold run_journal_op; cbn. by destruct (completePending _ _ _ _ _).
    + intros j Hj. unfold run_journal_op; cbn. pose proof (complete_entry_wf w st sl x j Hj).
      by destruct (completePending _ _ _ _ _).
    + intros d. exists (completePending w st sl x (db_journal d)).1.
      split; [by destruct (completePending _ _ _ _ _)|]. intros Hj. by apply recorded_complete.
    + intros j Hj. unfold run_journal_op; cbn. pose proof (recorded_complete w st sl x j Hj) as [_ H].
      by destruct (completePending _ _ _ _ _).
  - intros g w st sls s Hok.
    apply (fenced_served w g (fun _ => st_modify (on_journal (discard w st sls)))
             (JDiscard w st sls)); try done.
    + intros j. apply discard_wf.
    + intros d. by exists tt.
    + intros j Hj. by apply recorded_discard.
  - intros g w st u s [Hok Hwf]. unfold js_suspendWorkflow, memory_journal_store, clocked.
    assert (db_journal (suspendWorkflow (cs_readings s (cs_reads s)) g w st u (cs_db s)).2
            = db_journal (cs_db s)) as Hj.
    { unfold suspendWorkflow. apply (fenced_state (fun d => db_journal d = db_journal (cs_db s))); [done|].
      cbn. unfold suspend_body. by destruct (db_workflows (cs_db s) !! w). }
    destruct (suspendWorkflow _ g w st u (cs_db s)) as [r d]. cbn in Hj. unfold memory_ok, memory_view.
    cbn. rewrite Hj. done.
Defined.
End memory_laws.
