(* ===== verification/Replay.v ===== *)
(** Journaled step bodies: [durable/journal-cursor.ts],
    [journaled-ctx-activity.ts], [journaled-ctx-suspend.ts],
    [journaled-ctx-compose.ts] (the loops), [compensation-stack.ts] and
    [journaled-step.ts].

    A body is the generator as a tree: it returns, throws, or yields a
    request and goes on from the answer. A run of it is a function over the
    process memory (the cursor's slot counter and the compensation stack)
    and what outlives the process: the storage, the outside world that the
    activities act on, and the clock. A process may die before any call of
    the storage or of an activity; what it held in memory is lost. Bodies
    that read [ctx.isReplay], parallel branches and child workflows are not
    modelled here; a body's answers always come, so a body is a well-founded
    tree. *)
From Stdlib Require Import QArith.
From S2P Require Import Prelude Leases Json Journal Storage Dates Exits Retry JournalStore.
Open Scope string_scope.
Open Scope list_scope.
Open Scope Z_scope.

(** ** What the caller passes *)
Record Codec : Type := mkCodec {
  codec_encode : json -> res thrown json;
  codec_decode : json -> res thrown json;
}.

(** Host and third-party functions: [LosslessJsonCodec], the time zone's
    [Date] text, the constructors of the tagged errors, [payloadHash], the
    clock's and the random source's readings, [Invalid Date]. *)
Record Host : Type := mkHost {
  ho_encode : json -> res thrown json;
  ho_decode : json -> res thrown json;
  ho_date_string : Z -> string;
  ho_new_tagged : string -> list (string * json) -> js_error;
  ho_payloadHash : json -> string;
  ho_clock : nat -> Z;
  ho_random : nat -> Q;
  ho_invalidDate : json;
}.

Record StepEnv : Type := mkStepEnv {
  se_workflowId : string;
  se_stepName : string;
  se_guard : option FenceGuard;
  se_workflowStorage : bool;
  se_stepCodec : Codec;
  se_defaultPayloadHash : option bool;
}.

Inductive event : Type :=
| ERan (slot : JournalSlot) (idempotent : bool)
| EDiscard (slots : list JournalSlot).

Section world.
Context {W : Type}.

Record ActivityOptions : Type := mkOptions {
  ao_retry : option RetryPolicy;
  ao_codec : option Codec;
  ao_idempotent : bool;
  ao_compensate : option (json -> W -> res thrown unit * W);
  ao_payloadHash : option bool;
}.

Definition no_options : ActivityOptions := mkOptions None None false None None.

(** A duration in milliseconds or an absolute date. *)
Inductive wait_arg : Type :=
| ForMs (ms : Z)
| Until (date : Z).

(** [ctx.activity], [ctx.sleep] and [ctx.signal]. An activity's [input] is
    present in its three-argument form, where [fn] is already applied. *)
Inductive request : Type :=
| RActivity (name : string) (input : option json) (fn : W -> res thrown json * W)
    (options : ActivityOptions)
| RSleep (duration : wait_arg)
| RSignal (signalName : string) (timeout : option wait_arg) (jsonSchema : option json).

Inductive body : Type :=
| BReturn (v : json)
| BThrow (e : thrown)
| BYield (r : request) (k : res thrown json -> body).

Record Compensation : Type := mkCompensation {
  co_activityIndex : Z;
  co_sourceActivityIndex : Z;
  co_activityName : string;
  co_run : W -> res thrown unit * W;
}.

(** Process memory. *)
Record memory : Type := mkMemory {
  m_nextIndex : Z;
  m_compensations : list Compensation;
}.

Definition new_memory : memory := mkMemory 0 [].

(** [ctx.validatedSignal] and [ctx.approval]. *)
Definition validatedSignal (name : string) (jsonSchema : json) (timeout : option wait_arg) : request :=
  RSignal name timeout (Some jsonSchema).

Definition APPROVAL_NAME_PREFIX : string := "approve:".

Definition approval (approvalSchema : json) (id : string) (timeout : option wait_arg) : request :=
  validatedSignal (APPROVAL_NAME_PREFIX +:+ id) approvalSchema timeout.

(** [yield*] of a generator inside another. *)
Fixpoint body_bind (b : body) (k : res thrown json -> body) : body :=
  match b with
  | BReturn v => k (Ok v)
  | BThrow e => k (Err e)
  | BYield r f => BYield r (fun a => body_bind (f a) k)
  end.
End world.
Arguments ActivityOptions : clear implicits.
Arguments request : clear implicits.
Arguments body : clear implicits.
Arguments memory : clear implicits.
Arguments Compensation : clear implicits.

Record process (S W : Type) : Type := mkProcess {
  p_store : S;
  p_world : W;
  p_budget : nat;
  p_reads : nat;
  p_draws : nat;
  p_log : list event;
}.
Arguments mkProcess {S W}.
Arguments p_store {S W}.
Arguments p_world {S W}.
Arguments p_budget {S W}.
Arguments p_reads {S W}.
Arguments p_draws {S W}.
Arguments p_log {S W}.

(** ** The monad of a run *)
Section monad.
Context {S W : Type}.

Definition cfg : Type := memory W * process S W.
Definition R (A : Type) : Type := cfg -> outcome A * cfg.

Definition r_ret {A} (a : A) : R A := fun c => (Ret a, c).
Definition r_throw {A} (e : thrown) : R A := fun c => (Throws e, c).
Definition r_bind {A B} (m : R A) (k : A -> R B) : R B := fun c =>
  match m c with
  | (Ret a, c) => k a c
  | (Throws e, c) => (Throws e, c)
  | (Died, c) => (Died, c)
  end.

(** [try { ... } catch]: the settled result as a value. *)
Definition r_catch {A} (m : R A) : R (res thrown A) := fun c =>
  match m c with
  | (Ret a, c) => (Ret (Ok a), c)
  | (Throws e, c) => (Ret (Err e), c)
  | (Died, c) => (Died, c)
  end.

Definition r_lift {A} (r : res thrown A) : R A :=
  match r with Ok a => r_ret a | Err e => r_throw e end.

Definition with_store (s : S) (p : process S W) : process S W :=
  mkProcess s (p_world p) (p_budget p) (p_reads p) (p_draws p) (p_log p).
Definition with_world (w : W) (p : process S W) : process S W :=
  mkProcess (p_store p) w (p_budget p) (p_reads p) (p_draws p) (p_log p).
Definition with_budget (n : nat) (p : process S W) : process S W :=
  mkProcess (p_store p) (p_world p) n (p_reads p) (p_draws p) (p_log p).
Definition with_reads (n : nat) (p : process S W) : process S W :=
  mkProcess (p_store p) (p_world p) (p_budget p) n (p_draws p) (p_log p).
Definition with_draws (n : nat) (p : process S W) : process S W :=
  mkProcess (p_store p) (p_world p) (p_budget p) (p_reads p) n (p_log p).
Definition with_log (l : list event) (p : process S W) : process S W :=
  mkProcess (p_store p) (p_world p) (p_budget p) (p_reads p) (p_draws p) l.

(** A step that reaches outside of the process: the process may be dead. *)
Definition effect {A} (f : process S W -> outcome A * process S W) : R A := fun '(m, p) =>
  match p_budget p with
  | O => (Died, (m, p))
  | Datatypes.S n => let '(o, p) := f (with_budget n p) in (o, (m, p))
  end.

Definition settled {A} (r : res thrown A) : outcome A :=
  match r with Ok a => Ret a | Err e => Throws e end.

Definition call_store {A} (f : S -> res thrown A * S) : R A :=
  effect (fun p => let '(r, s) := f (p_store p) in (settled r, with_store s p)).

Definition call_world {A} (f : W -> res thrown A * W) : R A :=
  effect (fun p => let '(r, w) := f (p_world p) in (settled r, with_world w p)).

Definition note (e : event) : R unit := fun '(m, p) => (Ret tt, (m, with_log (e :: p_log p) p)).

Definition get_memory : R (memory W) := fun c => (Ret c.1, c).
Definition put_memory (m : memory W) : R unit := fun c => (Ret tt, (m, c.2)).
End monad.
Arguments cfg : clear implicits.
Arguments R : clear implicits.

Notation "'let!' x := m 'in' k" := (r_bind m (fun x => k))
  (at level 10, x name, m at level 200, k at level 200) : promin_scope.
Notation "'do!' m 'in' k" := (r_bind m (fun _ => k))
  (at level 10, m at level 200, k at level 200) : promin_scope.

Section run.
Context {S W : Type} `{JournalStore S}.
Context (host : Host) (env : StepEnv).

(** [clock.currentTimeMs()] and [Math.random()]. *)
Definition currentTimeMs : R S W Z := fun '(m, p) =>
  (Ret (ho_clock host (p_reads p)), (m, with_reads (Datatypes.S (p_reads p)) p)).

Definition clock_reading (c : cfg S W) : Z * cfg S W :=
  (ho_clock host (p_reads c.2), (c.1, with_reads (Datatypes.S (p_reads c.2)) c.2)).

Definition random_reading (c : cfg S W) : Q * cfg S W :=
  (ho_random host (p_draws c.2), (c.1, with_draws (Datatypes.S (p_draws c.2)) c.2)).

(** Awaiting a timer. *)
Definition await_timer : R S W unit := effect (fun p => (Ret tt, p)).

(** ** Errors of the engine *)
Definition tagged (tag : string) (fields : list (string * json)) (message : string) : thrown :=
  TError (ho_new_tagged host tag (fields ++ [("message", JStr message)])).

Definition JournalNonDeterminismError (activityIndex : Z) (expected actual : string) : thrown :=
  TError (mkError "JournalNonDeterminismError" (Some "JournalNonDeterminismError") "Error"
    ("journaled step " +:+ quoted (se_stepName env) +:+ " diverged at activity " +:+
     str_of_Z activityIndex +:+ ": expected " +:+ quoted expected +:+ ", got " +:+ quoted actual +:+
     ". This usually means workflow code changed between runs. " +:+
     "Either bump the workflow `version` (strict policy throws cleanly) or use `onVersionMismatch: " +:+
     quoted "drain" +:+
     "` + `previousVersions` to let in-flight workflows finish on their original code.")
    [("stepName", JStr (se_stepName env)); ("activityIndex", JNum activityIndex);
     ("expected", JStr expected); ("actual", JStr actual)]).

Definition AmbiguousActivityOutcome (activityIndex : Z) (name : string) : thrown :=
  tagged "AmbiguousActivityOutcome"
    [("workflowId", JStr (se_workflowId env)); ("stepName", JStr (se_stepName env));
     ("activityIndex", JNum activityIndex); ("activityName", JStr name)]
    ("activity " +:+ quoted name +:+ " (step " +:+ quoted (se_stepName env) +:+ ", index " +:+
     str_of_Z activityIndex +:+
     ") was interrupted after starting but before completing, and is not marked idempotent. " +:+
     "Inspect the external system and either mark idempotent, compensate, or fail the workflow.").

Definition WorkflowSuspendedError (reason message : string) : thrown :=
  tagged "WorkflowSuspendedError"
    [("workflowId", JStr (se_workflowId env)); ("stepName", JStr (se_stepName env));
     ("reason", JStr reason)] message.

(** ** The cursor *)
Definition entries_map : Type := jmap string JournalEntry.

Definition allocateSlot : R S W JournalSlot :=
  let! m := get_memory in
  do! put_memory (mkMemory (m_nextIndex m + 1) (m_compensations m)) in
  r_ret (mkSlot (m_nextIndex m) "").

Definition reserveTopLevelIndex : R S W Z :=
  let! m := get_memory in
  do! put_memory (mkMemory (m_nextIndex m + 1) (m_compensations m)) in
  r_ret (m_nextIndex m).

Definition cursor_recorded (snap : entries_map) (slot : JournalSlot) : option JournalEntry :=
  snap !! slotKey slot.

Inductive JournalYieldKind : Type := KActivity | KSleep | KSignal | KChild.

Definition kind_type (k : JournalYieldKind) : JournalStepType :=
  match k with
  | KActivity => StActivity | KSleep => StSleep | KSignal => StSignal | KChild => StChild
  end.

Definition step_type_name (t : JournalStepType) : string :=
  match t with
  | StActivity => "activity" | StSleep => "sleep" | StSignal => "signal"
  | StCompensation => "compensation" | StChild => "child"
  end.

Definition expectRecorded (snap : entries_map) (slot : JournalSlot) (kind : JournalYieldKind)
    (name : string) : res thrown (option JournalEntry) :=
  match cursor_recorded snap slot with
  | None => Ok None
  | Some recorded =>
      let nonDeterminism := JournalNonDeterminismError (js_activityIndex slot) in
      let recordedName := je_activityName recorded in
      let recordedKind := opt_or (je_stepType recorded) StActivity in
      if match kind with KActivity => bool_decide (recordedName <> name) | _ => false end
      then Err (nonDeterminism recordedName name)
      else if bool_decide (recordedKind <> kind_type kind)
      then Err (nonDeterminism (step_type_name recordedKind +:+ ":" +:+ recordedName)
                  (match kind with
                   | KSleep => "sleep"
                   | _ => step_type_name (kind_type kind) +:+ ":" +:+ name
                   end))
      else if match kind with KSleep => false | _ => bool_decide (recordedName <> name) end
      then Err (match kind with
                | KChild => nonDeterminism ("child:" +:+ recordedName) ("child:" +:+ name)
                | _ => nonDeterminism recordedName name
                end)
      else Ok (Some recorded)
  end.

Definition writePending (slot : JournalSlot) (kind : JournalStepType) (name : string)
    (payloadHash : option string) (wakeAt : option Z) : R S W unit :=
  call_store (js_appendPendingEntry (se_guard env) (se_workflowId env) (se_stepName env) slot name
                payloadHash kind wakeAt).

(** Whether this call's exit stands, and the exit the journal now holds. *)
Definition complete (slot : JournalSlot) (exit : JournalExit) : R S W (bool * JournalExit) :=
  let! result := call_store (js_completePendingEntry (se_guard env) (se_workflowId env)
                               (se_stepName env) slot exit) in
  r_ret (if cp_completed result then (true, exit)
         else match cp_exit result with
              | None => (true, exit)
              | Some x => (false, x)
              end).

Inductive RecordedOutcome : Type :=
| Stored (exit : JournalExit)
| Failed (error : thrown).

Definition failure_exit (e : thrown) : res thrown JournalExit :=
  match failureExit (ho_encode host) (ho_date_string host) e with
  | Ok f => Ok (ExFailure f)
  | Err x => Err x
  end.

(** [recordOutcome]; no activity passes a [passThrough]. *)
Definition recordOutcome (slot : JournalSlot) (kind : JournalStepType) (name : string)
    (payloadHash : option string) (run : R S W json) (encode : json -> res thrown json)
    : R S W RecordedOutcome :=
  do! writePending slot kind name payloadHash None in
  let! r := r_catch run in
  match r with
  | Err err =>
      let! x := r_lift (failure_exit err) in
      let! stored := complete slot x in
      r_ret (if stored.1 then Failed err else Stored stored.2)
  | Ok value =>
      let! v := r_lift (encode value) in
      let! stored := complete slot (ExSuccess v) in
      r_ret (Stored stored.2)
  end.

(** ** The compensation stack *)
Definition register (sourceActivityIndex : Z) (activityName : string)
    (compensate : W -> res thrown unit * W) : R S W unit :=
  let! i := reserveTopLevelIndex in
  let! m := get_memory in
  put_memory (mkMemory (m_nextIndex m)
    (m_compensations m ++ [mkCompensation i sourceActivityIndex activityName compensate])).

(** ** [ctx.activity]

    A recorded or journaled outcome is a value of the answer, [Ok] or [Err];
    a rejection that no journal entry holds is [Throws]. Both reach the body
    alike (see [drive]). *)
Definition settle (slot : JournalSlot) (name : string) (codec : Codec)
    (compensate : option (json -> W -> res thrown unit * W)) (exit : JournalExit)
    : R S W (res thrown json) :=
  match exit with
  | ExFailure f => r_ret (Err (TError (rehydrateFailure (ho_decode host) (ho_new_tagged host) f)))
  | ExSuccess v =>
      let! value := r_lift (codec_decode codec v) in
      match compensate with
      | Some c => do! register (js_activityIndex slot) name (c value) in r_ret (Ok value)
      | None => r_ret (Ok value)
      end
  end.

(** The activity itself, under its retry policy. The event marks that it
    starts. *)
Definition run_activity (slot : JournalSlot) (fn : W -> res thrown json * W)
    (options : ActivityOptions W) : R S W json :=
  do! note (ERan slot (ao_idempotent options)) in
  match ao_retry options with
  | Some policy => runWithRetry clock_reading random_reading (fun _ => await_timer) (call_world fn) policy
  | None => call_world fn
  end.

Definition hash_mismatch (recorded computed : option string) : bool :=
  truthy_str recorded && truthy_str computed && bool_decide (recorded <> computed).

Definition show_hash (h : option string) : string := "payloadHash=" +:+ opt_or h "undefined".

Definition activity (snap : entries_map) (name : string) (input : option json)
    (fn : W -> res thrown json * W) (options : ActivityOptions W) : R S W (res thrown json) :=
  let! slot := allocateSlot in
  let codec := opt_or (ao_codec options) (se_stepCodec env) in
  let wantsHash := opt_or (opt_else (ao_payloadHash options) (se_defaultPayloadHash env)) false in
  if wantsHash && bool_decide (input = None) && bool_decide (ao_payloadHash options = Some true)
  then r_throw (TError (new_error "Error"
    ("ctx.activity(" +:+ quoted name +:+
     "): `payloadHash` requires the 3-arg form ctx.activity(name, input, fn). " +:+
     "The 2-arg form captures inputs inside a closure, so there's nothing separate to hash.")))
  else
  let hash := if wantsHash then ho_payloadHash host <$> input else None in
  let settle_ := settle slot name codec (ao_compensate options) in
  let fresh :=
    let! outcome := recordOutcome slot StActivity name hash (run_activity slot fn options)
                      (codec_encode codec) in
    match outcome with
    | Failed e => r_ret (Err e)
    | Stored x => settle_ x
    end in
  let! found := r_lift (expectRecorded snap slot KActivity name) in
  match found with
  | None => fresh
  | Some recorded =>
      if hash_mismatch (je_payloadHash recorded) hash
      then r_throw (JournalNonDeterminismError (js_activityIndex slot)
                      (show_hash (je_payloadHash recorded)) (show_hash hash))
      else
      match opt_or (je_phase recorded) PhCompleted with
      | PhCompleted =>
          match je_exit recorded with
          | None => r_throw (TError (new_error "Error"
              ("journal entry " +:+ str_of_Z (js_activityIndex slot) +:+ " for step " +:+
               quoted (se_stepName env) +:+ " is completed but has no exit")))
          | Some x => settle_ x
          end
      | PhPending =>
          if ao_idempotent options then fresh
          else r_throw (AmbiguousActivityOutcome (js_activityIndex slot) name)
      end
  end.

(** ** [ctx.sleep] and [ctx.signal] *)
Definition new_Date (text : string) : json :=
  match Date_parse text with Some ms => JDate ms | None => ho_invalidDate host end.

Definition wokeAt (exit : JournalExit) : res thrown json :=
  match exit with
  | ExFailure f => Err (TError (rehydrateFailure (ho_decode host) (ho_new_tagged host) f))
  | ExSuccess (JStr s) => Ok (new_Date s)
  | ExSuccess v => Ok v
  end.

Definition deadline (w : wait_arg) : R S W Z :=
  match w with
  | Until d => r_ret d
  | ForMs ms => let! now := currentTimeMs in r_ret (now + ms)
  end.

Definition suspend (u : StepUpdate) (reason message : string) : R S W (res thrown json) :=
  do! (if se_workflowStorage env
       then call_store (js_suspendWorkflow (se_guard env) (se_workflowId env) (se_stepName env) u)
       else r_ret tt) in
  r_throw (WorkflowSuspendedError reason message).

Definition sleeping_update (wakeAt : Z) : StepUpdate :=
  mkStepUpdate (Some (Some RunState.SSleeping)) None None None None None None None None None
    (Some (Some wakeAt)) None None None None.

Definition signal_update (signalName : string) (wakeAt : option Z) (jsonSchema : option json)
    : StepUpdate :=
  mkStepUpdate (Some (Some RunState.SWaitingForSignal)) None None None None None None None None None
    None (Some (Some signalName)) (Some <$> wakeAt) jsonSchema None.

(** A completed entry's exit. *)
Definition completed_exit (e : option JournalEntry) : option JournalExit :=
  match e with
  | Some e => if bool_decide (je_phase e = Some PhCompleted) then je_exit e else None
  | None => None
  end.

Definition sleep (snap : entries_map) (duration : wait_arg) : R S W (res thrown json) :=
  let! slot := allocateSlot in
  let! recorded := r_lift (expectRecorded snap slot KSleep "sleep") in
  match completed_exit recorded with
  | Some x => r_ret (wokeAt x)
  | None =>
      let! wakeAt := match recorded ≫= je_wakeAt with
                     | Some w => r_ret w
                     | None => deadline duration
                     end in
      do! (match recorded with
           | None => writePending slot StSleep "sleep" None (Some wakeAt)
           | Some _ => r_ret tt
           end) in
      let! now := currentTimeMs in
      if now >=? wakeAt then
        let! stored := complete slot (ExSuccess (JStr (toISOString wakeAt))) in
        r_ret (wokeAt stored.2)
      else suspend (sleeping_update wakeAt) "sleep" ("sleeping until " +:+ toISOString wakeAt)
  end.

(** What a completed signal entry answers. *)
Definition outcomeOf (slot : JournalSlot) (signalName : string) (hasTimeout : bool)
    (exit : JournalExit) : R S W (res thrown json) :=
  match exit with
  | ExFailure f => r_ret (Err (TError (rehydrateFailure (ho_decode host) (ho_new_tagged host) f)))
  | ExSuccess v =>
      let! outcome := r_lift (decodeSignalExitValue v) in
      match outcome with
      | SigTimeout =>
          if hasTimeout then r_ret (Ok (JObj [("ok", JBool false); ("error", JStr "timeout")]))
          else r_throw (JournalNonDeterminismError (js_activityIndex slot)
                 ("signal:" +:+ signalName +:+ " (timed out)")
                 ("signal:" +:+ signalName +:+ " (no timeout)"))
      | SigDelivered value =>
          r_ret (Ok (if hasTimeout then JObj [("ok", JBool true); ("value", value)] else value))
      end
  end.

Definition signal (snap : entries_map) (signalName : string) (timeout : option wait_arg)
    (jsonSchema : option json) : R S W (res thrown json) :=
  let! slot := allocateSlot in
  let hasTimeout := bool_decide (is_Some timeout) in
  let! recorded := r_lift (expectRecorded snap slot KSignal signalName) in
  match completed_exit recorded with
  | Some x => outcomeOf slot signalName hasTimeout x
  | None =>
      let! wakeAt := match recorded ≫= je_wakeAt with
                     | Some w => r_ret (Some w)
                     | None => match timeout with
                               | Some t => let! d := deadline t in r_ret (Some d)
                               | None => r_ret None
                               end
                     end in
      do! (match recorded with
           | None => writePending slot StSignal signalName None wakeAt
           | Some _ => r_ret tt
           end) in
      let park := suspend (signal_update signalName wakeAt jsonSchema) "signal"
        (match wakeAt with
         | Some w => "waiting for signal " +:+ quoted signalName +:+ " (timeout at " +:+
                     toISOString w +:+ ")"
         | None => "waiting for signal " +:+ quoted signalName
         end) in
      match wakeAt with
      | Some w =>
          let! now := currentTimeMs in
          if now >=? w then
            let! stored := complete slot (ExSuccess timedOutSignalExitValue) in
            outcomeOf slot signalName hasTimeout stored.2
          else park
      | None => park
      end
  end.

Definition perform (snap : entries_map) (r : request W) : R S W (res thrown json) :=
  match r with
  | RActivity name input fn options => activity snap name input fn options
  | RSleep duration => sleep snap duration
  | RSignal signalName timeout jsonSchema => signal snap signalName timeout jsonSchema
  end.

(** ** Driving the generator *)
Fixpoint drive (snap : entries_map) (b : body W) : R S W json :=
  match b with
  | BReturn v => r_ret v
  | BThrow e => r_throw e
  | BYield r k => fun c =>
      match perform snap r c with
      | (Ret a, c) => drive snap (k a) c
      | (Throws e, c) => drive snap (k (Err e)) c
      | (Died, c) => (Died, c)
      end
  end.

(** ** When a failure escapes *)
Definition comp_slot (index : Z) : JournalSlot := mkSlot index "".

Definition mark (comp : Compensation W) : list JournalSlot :=
  [comp_slot (co_sourceActivityIndex comp); comp_slot (co_activityIndex comp)].

(** One iteration of [unwind]: the slots it marks as rolled back. *)
Definition unwind_one (snap : entries_map) (comp : Compensation W) : R S W (list JournalSlot) :=
  let slot := comp_slot (co_activityIndex comp) in
  let run :=
    let! w := r_catch (writePending slot StCompensation
                         ("compensation:" +:+ co_activityName comp) None None) in
    match w with
    | Err _ => r_ret []
    | Ok _ =>
        let! r := r_catch (call_world (co_run comp)) in
        let! exit := match r with
                     | Ok _ => r_ret (ExSuccess JNull)
                     | Err e => r_lift (failure_exit e)
                     end in
        let! c := r_catch (complete slot exit) in
        r_ret (match c, exit with Ok _, ExSuccess _ => mark comp | _, _ => [] end)
    end in
  match cursor_recorded snap slot with
  | Some recorded =>
      match opt_or (je_phase recorded) PhCompleted with
      | PhCompleted => r_ret (match je_exit recorded with
                              | Some (ExSuccess _) => mark comp
                              | _ => []
                              end)
      | PhPending => run
      end
  | None => run
  end.

(** The stack, last registered first. *)
Fixpoint unwind_all (snap : entries_map) (comps : list (Compensation W)) : R S W (list JournalSlot) :=
  match comps with
  | [] => r_ret []
  | c :: cs => let! a := unwind_one snap c in let! b := unwind_all snap cs in r_ret (a ++ b)
  end.

Definition unwind (snap : entries_map) : R S W (list JournalSlot) :=
  let! m := get_memory in unwind_all snap (rev (m_compensations m)).

Definition is_failed_attempt (e : JournalEntry) : bool :=
  bool_decide (opt_or (je_stepType e) StActivity ∈ [StActivity; StChild; StCompensation]) &&
  bool_decide (opt_or (je_phase e) PhCompleted = PhCompleted) &&
  match je_exit e with Some (ExFailure _) => true | _ => false end.

(** The values of [new Map<string, JournalSlot>()] after every [add]. *)
Definition slots_to_discard (journal : list JournalEntry) (rolledBack : list JournalSlot)
    : list JournalSlot :=
  jm_values (foldl (fun m sl => <[slotKey sl := sl]> m) (∅ : jmap string JournalSlot)
    ((entry_slot <$> base.filter (fun e => Is_true (is_failed_attempt e)) journal) ++ rolledBack)).

Definition discardFailedAttempt (rolledBack : list JournalSlot) : R S W unit :=
  let! _r := r_catch (
    let! journal := call_store (js_loadJournal (se_workflowId env) (se_stepName env)) in
    match slots_to_discard journal rolledBack with
    | [] => r_ret tt
    | slots =>
        do! note (EDiscard slots) in
        call_store (js_discardJournalEntries (se_guard env) (se_workflowId env) (se_stepName env) slots)
    end) in
  r_ret tt.

Definition rollback (snap : entries_map) : R S W unit :=
  let! rolledBack := unwind snap in discardFailedAttempt rolledBack.

(** ** [runJournaledStep] *)
Definition runJournaledStep (b : body W) : R S W json :=
  let! journal := call_store (js_loadJournal (se_workflowId env) (se_stepName env)) in
  let snap := snapshot journal in
  let! r := r_catch (drive snap b) in
  match r with
  | Ok v => r_ret v
  | Err bodyError =>
      do! (if runsCompensations bodyError then rollback snap else r_ret tt) in
      r_throw bodyError
  end.

(** A run in a new process. *)
Definition start (b : body W) (p : process S W) : outcome json * process S W :=
  let '(o, (_, p)) := runJournaledStep b (new_memory, p) in (o, p).

(** Runs one after the other, each by a process that may die after
    [budget] effects, the outside world moving on in between. *)
Definition attempt_run : Type := body W * nat * (W -> W).

Fixpoint run_attempts (l : list attempt_run) (p : process S W) : process S W :=
  match l with
  | [] => p
  | (b, budget, moved) :: l =>
      run_attempts l (start b (with_world (moved (p_world p)) (with_budget budget p))).2
  end.

(** ** [ctx.dowhile] and [ctx.dountil] *)
Definition LoopLimitExceededError (max : Z) (message : string) : thrown :=
  tagged "LoopLimitExceededError"
    [("workflowId", JStr (se_workflowId env)); ("stepName", JStr (se_stepName env));
     ("maxIterations", JNum max)] message.

Fixpoint loop_body (left_ iter : nat) (max : Z) (name : string) (fn : Z -> W -> res thrown json * W)
    (condition : json -> Z -> bool) : body W :=
  match left_ with
  | O => BThrow (LoopLimitExceededError max ("ctx.dowhile(" +:+ quoted name +:+ ") exceeded " +:+
           str_of_Z max +:+ " iterations without converging"))
  | Datatypes.S left_ =>
      let i := Z.of_nat iter in
      BYield (RActivity (name +:+ "-iter-" +:+ str_of_Z i) None (fn i) no_options)
        (fun r => match r with
                  | Err e => BThrow e
                  | Ok v => if condition v i
                            then loop_body left_ (Datatypes.S iter) max name fn condition
                            else BReturn v
                  end)
  end.

Definition dowhile (name : string) (fn : Z -> W -> res thrown json * W)
    (condition : json -> Z -> bool) (maxIterations : option Z) : body W :=
  let max := opt_or maxIterations 100 in
  if max <? 1 then
    BThrow (LoopLimitExceededError max
      ("ctx.dowhile(" +:+ quoted name +:+ "): maxIterations must be >= 1"))
  else loop_body (Z.to_nat max) 0 max name fn condition.

Definition dountil (name : string) (fn : Z -> W -> res thrown json * W)
    (condition : json -> Z -> bool) (maxIterations : option Z) : body W :=
  dowhile name fn (fun r i => negb (condition r i)) maxIterations.
End run.
