(* ===== verification/ReplayLemmas.v ===== *)
(** Lemmas on runs of journaled bodies ([Replay]): invariants kept by a
    computation, what each yield may change, what a yield records and what a
    recorded yield answers. *)
From Stdlib Require Import QArith.
From S2P Require Import Prelude Leases Json Journal Storage Dates Exits Retry JournalStore Replay.
Open Scope string_scope.
Open Scope list_scope.
Open Scope Z_scope.

(** ** Invariants of a computation *)
Create HintDb keeps.

Section keeps.
Context {S W : Type}.

(** [m] keeps [I], however it ends. *)
Definition keeps {A} (I : cfg S W -> Prop) (m : R S W A) : Prop := forall c, I c -> I (m c).2.

Lemma keeps_ret {A} I (a : A) : keeps I (r_ret a).
Proof. by intros c Hc. Qed.

Lemma keeps_throw {A} I e : keeps I (@r_throw S W A e).
Proof. by intros c Hc. Qed.

Lemma keeps_lift {A} I (r : res thrown A) : keeps I (r_lift r).
Proof. by destruct r; intros c Hc. Qed.

Lemma keeps_bind {A B} I (m : R S W A) (k : A -> R S W B) :
  keeps I m -> (forall a, keeps I (k a)) -> keeps I (r_bind m k).
Proof.
  intros Hm Hk c Hc. unfold r_bind. pose proof (Hm c Hc) as H.
  destruct (m c) as [[a|e|] c']; [by apply Hk|done|done].
Qed.

Lemma keeps_catch {A} I (m : R S W A) : keeps I m -> keeps I (r_catch m).
Proof. intros Hm c Hc. unfold r_catch. pose proof (Hm c Hc). by destruct (m c) as [[] ?]. Qed.

Lemma keeps_effect {A} I (f : process S W -> outcome A * process S W) :
  (forall m p n, I (m, p) -> I (m, (f (with_budget n p)).2)) -> keeps I (effect f).
Proof.
  intros Hf [m p] Hc. unfold effect. destruct (p_budget p) as [|n]; [done|].
  specialize (Hf m p n Hc). by destruct (f (with_budget n p)).
Qed.
End keeps.
#[export] Hint Resolve keeps_ret keeps_throw keeps_lift keeps_bind keeps_catch : keeps.

(** Go through a computation, down to its primitive steps. *)
Ltac keep := repeat first
  [ progress auto with keeps
  | match goal with
    | |- keeps _ (r_bind _ _) => apply keeps_bind; [|intros ?]
    | |- keeps _ (r_catch _) => apply keeps_catch
    | |- keeps _ (match ?x with _ => _ end) => destruct x
    | |- keeps _ (if ?x then _ else _) => destruct x
    | |- keeps _ (let _ := _ in _) => cbn zeta
    end ].

Section lemmas.
Context {S W : Type} `{JournalStoreLaws S}.
Context (host : Host) (env : StepEnv).
Implicit Types (m : memory W) (p : process S W) (c : cfg S W) (sl : JournalSlot).

(** The journal of the step, as the store holds it. *)
Definition vw p : view := js_view (se_workflowId env) (se_stepName env) (p_store p).

(** From [p] to [p'] only the slot [sl] was written, and other writers
    completed waits. *)
Definition framed sl p p' : Prop :=
  js_ok (p_store p') /\ later_at (vw p sl) (vw p' sl) /\
  forall sl', sl' <> sl -> grows_at (vw p sl') (vw p' sl').

(** Memory untouched and the store framed. *)
Definition inside sl m0 p0 : cfg S W -> Prop := fun c => c.1 = m0 /\ framed sl p0 c.2.

Lemma framed_refl sl p : js_ok (p_store p) -> framed sl p p.
Proof. intros. split_and!; [done|apply later_refl|intros; apply grows_at_refl]. Qed.

Lemma framed_trans sl p1 p2 p3 : framed sl p1 p2 -> framed sl p2 p3 -> framed sl p1 p3.
Proof.
  intros (_ & H1 & G1) (Hok & H2 & G2). split_and!; [done|by eapply later_trans|].
  intros sl' Hne. eapply grows_at_trans; [by apply G1|by apply G2].
Qed.

(** Steps that leave the store alone. *)
Lemma framed_store sl p0 p s' : framed sl p0 p ->
  (js_ok (p_store p) -> js_ok s' /\
    later_at (vw p sl) (js_view (se_workflowId env) (se_stepName env) s' sl) /\
    forall sl', sl' <> sl ->
      grows_at (vw p sl') (js_view (se_workflowId env) (se_stepName env) s' sl')) ->
  forall p', p_store p' = s' -> framed sl p0 p'.
Proof.
  intros Hf Hs p' <-. destruct (Hs (proj1 Hf)) as (Hok & Hl & Hg).
  eapply framed_trans; [exact Hf|]. by split_and!.
Qed.

Lemma framed_same sl p0 p p' : framed sl p0 p -> p_store p' = p_store p -> framed sl p0 p'.
Proof. intros Hf Hs. unfold framed, vw in *. by rewrite Hs. Qed.

Lemma keeps_call_store {A} I (f : S -> res thrown A * S) :
  (forall m p p', I (m, p) -> p_store p' = (f (p_store p)).2 -> p_world p' = p_world p ->
     p_log p' = p_log p -> I (m, p')) ->
  keeps I (call_store f).
Proof.
  intros Hf. apply keeps_effect. intros m p n Hc. specialize (Hf m p).
  cbn. destruct (f (p_store p)) as [r s]. cbn. by apply Hf.
Qed.

Lemma keeps_same {A} I (x : R S W A) :
  (forall m p p', I (m, p) -> p_store p' = p_store p -> I (m, p')) ->
  (forall c, (x c).2.1 = c.1 /\ p_store (x c).2.2 = p_store c.2) -> keeps I x.
Proof.
  intros HI Hx [m p] Hc. destruct (Hx (m, p)) as [Hm Hs]. cbn in Hm, Hs.
  destruct (x (m, p)) as [o [m' p']]. cbn in *. subst. by eapply HI.
Qed.

(** Computations that change neither memory nor store. *)
Definition quiet {A} (x : R S W A) : Prop :=
  forall c, (x c).2.1 = c.1 /\ p_store (x c).2.2 = p_store c.2.

Lemma quiet_keeps {A} I (x : R S W A) : quiet x ->
  (forall m p p', I (m, p) -> p_store p' = p_store p -> I (m, p')) -> keeps I x.
Proof. intros Hx HI. by apply keeps_same. Qed.

Lemma quiet_iff {A} (x : R S W A) :
  quiet x <-> forall m0 s0, keeps (fun c => c.1 = m0 /\ p_store c.2 = s0) x.
Proof.
  split.
  - intros Hx m0 s0 c [<- <-]. apply Hx.
  - intros Hx c. by apply (Hx c.1 (p_store c.2) c).
Qed.

Lemma quiet_call_world {A} (f : W -> res thrown A * W) : quiet (call_world f).
Proof.
  intros [m p]. unfold call_world, effect. destruct (p_budget p); [done|]. cbn.
  by destruct (f (p_world p)).
Qed.

Lemma quiet_note e : quiet (note e).
Proof. by intros [m p]. Qed.

Lemma quiet_now : quiet (currentTimeMs host).
Proof. by intros [m p]. Qed.

Lemma quiet_timer : quiet await_timer.
Proof. intros [m p]. unfold await_timer, effect. by destruct (p_budget p). Qed.

(** A retry loop keeps what its parts keep. *)
Lemma next_keeps (I : cfg S W -> Prop) policy retry e first t c :
  (forall c, I c -> I (random_reading host c).2) -> I c ->
  I (nextRetryDelayMs (random_reading host) policy retry e first t c).2.
Proof.
  intros Hrandom Hc. unfold nextRetryDelayMs.
  do 3 (match goal with |- I (snd (if ?b then _ else _)) => destruct b end; [done|]).
  unfold retryDelayMs. destruct (rp_jitter policy); [|done].
  pose proof (Hrandom c Hc). by destruct (random_reading host c).
Qed.

Lemma attempt_keeps {A} I (run : nat -> R S W A) policy spare retry first :
  (forall r, keeps I (run r)) ->
  (forall c, I c -> I (clock_reading host c).2) -> (forall c, I c -> I (random_reading host c).2) ->
  keeps I await_timer ->
  keeps I (attempt (clock_reading host) (random_reading host) (fun _ => await_timer)
             (fun _ => false) run policy spare retry first).
Proof.
  intros Hrun Hclock Hrandom Htimer. revert retry first.
  induction spare as [|spare IH]; intros retry first c Hc; cbn [attempt];
    pose proof (Hrun retry c Hc) as H1; destruct (run retry c) as [[a|e|] c1]; cbn in H1 |- *; try done;
    pose proof (Hclock c1 H1) as H2; unfold clock_reading in *; cbn in H2 |- *;
    match goal with |- context [nextRetryDelayMs ?r ?p ?n ?e ?f ?t ?c'] =>
      pose proof (next_keeps I p n e f t c' Hrandom H2) as H3;
      destruct (nextRetryDelayMs r p n e f t c') as [[d|] c3] end; cbn in H3 |- *; try done;
    pose proof (Htimer c3 H3) as H4; destruct (await_timer c3) as [[[]|e'|] c4]; cbn in H4 |- *; try done.
  by apply IH.
Qed.

Lemma quiet_run_activity sl fn options : quiet (run_activity host sl fn options).
Proof.
  apply quiet_iff. intros m0 s0. unfold run_activity.
  assert (forall A (x : R S W A), quiet x -> keeps (fun c => c.1 = m0 /\ p_store c.2 = s0) x) as Hq
    by (intros A x Hx; by apply quiet_iff).
  apply keeps_bind; [apply Hq, quiet_note|]. intros _.
  destruct (ao_retry options); [|apply Hq, quiet_call_world].
  unfold runWithRetry, retryAsync. apply attempt_keeps; try done.
  - intros _. apply Hq, quiet_call_world.
  - apply Hq, quiet_timer.
Qed.

(** *** The calls of the cursor *)
Lemma quiet_inside {A} (x : R S W A) sl m0 p0 : quiet x -> keeps (inside sl m0 p0) x.
Proof.
  intros Hx. apply quiet_keeps; [done|]. intros m p p' [Hm Hf] Hs. split; [done|].
  by eapply framed_same.
Qed.

Lemma writePending_inside sl kind name hash wake m0 p0 :
  keeps (inside sl m0 p0) (writePending env sl kind name hash wake).
Proof.
  apply keeps_call_store. intros m p p' [Hm Hf] Hs _ _. split; [done|].
  eapply framed_store; [exact Hf| |exact Hs]. intros Hok.
  pose proof (js_pending_law (se_guard env) (se_workflowId env) (se_stepName env) sl name hash kind
                wake (p_store p) Hok) as Hl.
  destruct (js_appendPendingEntry _ _ _ _ _ _ _ _ _) as [r s]. cbn in *.
  destruct Hl as [Hok' Hserved]. split; [done|]. by eapply served_pending.
Qed.

Lemma complete_inside sl x m0 p0 : keeps (inside sl m0 p0) (complete env sl x).
Proof.
  apply keeps_bind; [|intros r; apply keeps_ret].
  apply keeps_call_store. intros m p p' [Hm Hf] Hs _ _. split; [done|].
  eapply framed_store; [exact Hf| |exact Hs]. intros Hok.
  pose proof (js_complete_law (se_guard env) (se_workflowId env) (se_stepName env) sl x (p_store p) Hok)
    as Hl.
  destruct (js_completePendingEntry _ _ _ _ _ _) as [r s]. cbn in *.
  destruct Hl as [Hok' Hserved]. split; [done|].
  apply served_complete in Hserved. tauto.
Qed.

Lemma suspend_inside u reason message sl m0 p0 :
  keeps (inside sl m0 p0) (suspend host env u reason message).
Proof.
  apply keeps_bind; [|intros _; apply keeps_throw].
  destruct (se_workflowStorage env); [|apply keeps_ret].
  apply keeps_call_store. intros m p p' [Hm Hf] Hs _ _. split; [done|].
  eapply framed_store; [exact Hf| |exact Hs]. intros Hok.
  pose proof (js_suspend_law (se_guard env) (se_workflowId env) (se_stepName env) u (p_store p) Hok)
    as Hl.
  destruct (js_suspendWorkflow _ _ _ _ _) as [r s]. cbn in *.
  destruct Hl as [Hok' Hg]. split_and!; [done|apply grows_later, Hg|intros; apply Hg].
Qed.

Lemma recordOutcome_inside sl kind name hash (run : R S W json) encode m0 p0 :
  quiet run -> keeps (inside sl m0 p0) (recordOutcome host env sl kind name hash run encode).
Proof.
  intros Hrun. unfold recordOutcome. apply keeps_bind; [apply writePending_inside|]. intros _.
  apply keeps_bind; [by apply keeps_catch, quiet_inside|].
  intros [v|e]; (apply keeps_bind; [apply keeps_lift|]; intros x;
    apply keeps_bind; [apply complete_inside|]; intros r); [apply keeps_ret|].
  apply keeps_ret.
Qed.

(** *** What a yield may change: its slot and the slot counter *)
Definition within sl (n : Z) p0 : cfg S W -> Prop :=
  fun c => n <= m_nextIndex c.1 /\ framed sl p0 c.2.

Lemma inside_within {A} (x : R S W A) sl n p0 :
  (forall m0, keeps (inside sl m0 p0) x) -> keeps (within sl n p0) x.
Proof.
  intros Hx [m p] [Hn Hf]. destruct (Hx m (m, p) (conj eq_refl Hf)) as [Hm Hf'].
  split; [by rewrite Hm|done].
Qed.

Lemma put_memory_within sl n p0 (m : memory W) :
  n <= m_nextIndex m -> keeps (within sl n p0) (put_memory (S := S) m).
Proof. intros Hn [m1 p1] [_ Hf]. by split. Qed.

Lemma register_within sl n p0 i name comp :
  keeps (within sl n p0) (register (S := S) i name comp).
Proof.
  intros [m p] [Hn Hf]. split; [|done]. cbn in *. lia.
Qed.

Lemma settle_within sl n p0 slot name codec comp x :
  keeps (within sl n p0) (settle host slot name codec comp x).
Proof.
  destruct x as [v|f]; cbn; [|apply keeps_ret]. apply keeps_bind; [apply keeps_lift|].
  intros value. destruct comp as [c|]; [|apply keeps_ret].
  apply keeps_bind; [apply register_within|intros _; apply keeps_ret].
Qed.

Lemma activity_fresh_within sl n p0 name hash fn options codec :
  keeps (within sl n p0)
    (let! outcome := recordOutcome host env sl StActivity name hash (run_activity host sl fn options)
                       (codec_encode codec) in
     match outcome with
     | Failed e => r_ret (Err e)
     | Stored x => settle host sl name codec (ao_compensate options) x
     end).
Proof.
  apply keeps_bind.
  - apply inside_within. intros m0. apply recordOutcome_inside, quiet_run_activity.
  - intros [x|e]; [apply settle_within|apply keeps_ret].
Qed.

Lemma deadline_inside w sl m0 p0 : keeps (inside sl m0 p0) (deadline (W := W) host w).
Proof.
  destruct w; [|apply keeps_ret]. apply keeps_bind; [apply quiet_inside, quiet_now|].
  intros; apply keeps_ret.
Qed.
#[local] Hint Resolve settle_within activity_fresh_within : keeps.

Lemma outcomeOf_within sl n p0 slot name t x :
  keeps (within sl n p0) (outcomeOf host env slot name t x).
Proof. destruct x; cbn; keep. Qed.
#[local] Hint Resolve outcomeOf_within : keeps.

#[local] Hint Extern 2 (keeps (within _ _ _) (writePending _ _ _ _ _ _)) =>
  apply inside_within; intros ?; apply writePending_inside : keeps.
#[local] Hint Extern 2 (keeps (within _ _ _) (complete _ _ _)) =>
  apply inside_within; intros ?; apply complete_inside : keeps.
#[local] Hint Extern 2 (keeps (within _ _ _) (suspend _ _ _ _ _)) =>
  apply inside_within; intros ?; apply suspend_inside : keeps.
#[local] Hint Extern 2 (keeps (within _ _ _) (deadline _ _)) =>
  apply inside_within; intros ?; apply deadline_inside : keeps.
#[local] Hint Extern 2 (keeps (within _ _ _) (currentTimeMs _)) =>
  apply inside_within; intros ?; apply quiet_inside, quiet_now : keeps.

Definition next_slot m : JournalSlot := mkSlot (m_nextIndex m) "".
Definition bumped m : memory W := mkMemory (m_nextIndex m + 1) (m_compensations m).

Lemma perform_framed snap r m p : js_ok (p_store p) ->
  let c' := (perform host env snap r (m, p)).2 in
  m_nextIndex m < m_nextIndex c'.1 /\ framed (next_slot m) p c'.2.
Proof.
  intros Hok. cbn zeta.
  assert (forall A (k : JournalSlot -> R S W A),
    keeps (within (next_slot m) (m_nextIndex m + 1) p) (k (next_slot m)) ->
    m_nextIndex m < m_nextIndex (r_bind allocateSlot k (m, p)).2.1 /\
    framed (next_slot m) p (r_bind allocateSlot k (m, p)).2.2) as Halloc.
  { intros A k Hk. destruct (Hk (bumped m, p)) as [Hn Hf].
    - split; [cbn; lia|by apply framed_refl].
    - change (r_bind allocateSlot k (m, p)) with (k (next_slot m) (bumped m, p)). split; [lia|done]. }
  destruct r as [name input fn options|duration|name timeout schema]; cbn [perform];
    apply Halloc; keep.
Qed.

(** ** What a recorded yield answers *)
Definition agrees (kind : JournalYieldKind) (name : string) (e : JournalEntry) : Prop :=
  opt_or (je_stepType e) StActivity = kind_type kind /\ (kind = KSleep \/ je_activityName e = name).

#[local] Instance yield_kind_dec : EqDecision JournalYieldKind.
Proof. solve_decision. Defined.

#[local] Instance agrees_dec kind name e : Decision (agrees kind name e).
Proof. unfold agrees. apply _. Defined.

Lemma expectRecorded_agrees snap sl kind name e :
  snap !! slotKey sl = Some e -> agrees kind name e ->
  expectRecorded env snap sl kind name = Ok (Some e).
Proof.
  intros He [Hk Hn]. unfold expectRecorded, cursor_recorded. rewrite He, Hk.
  rewrite (bool_decide_false (kind_type kind <> kind_type kind)) by auto.
  destruct Hn as [->| ->]; [done|]. by destruct kind; rewrite ?(bool_decide_false (name <> name)) by auto.
Qed.

Lemma expectRecorded_Ok snap sl kind name o :
  expectRecorded env snap sl kind name = Ok o ->
  o = snap !! slotKey sl /\ forall e, o = Some e -> agrees kind name e.
Proof.
  unfold expectRecorded, cursor_recorded. destruct (snap !! slotKey sl) as [e|];
    [|intros Ho; injection Ho as <-; by split].
  intros Ho. assert (o = Some e /\ agrees kind name e) as [-> Ha].
  { unfold agrees. destruct kind; cbn in Ho |- *;
      repeat (destruct (bool_decide _) eqn:? in Ho; [done|]); injection Ho as <-;
      repeat match goal with E : bool_decide _ = false |- _ =>
        apply bool_decide_eq_false, dec_stable in E end; auto. }
  split; [done|]. by intros e' [= <-].
Qed.

(** A completed entry settles the yield without touching anything outside
    of memory: same answer, same memory, whatever the process. *)
Definition settles {A} (x : R S W A) : Prop :=
  forall m p p2, x (m, p2) = ((x (m, p)).1, ((x (m, p)).2.1, p2)).

Lemma settles_ret {A} (a : A) : settles (r_ret a).
Proof. by intros m p p2. Qed.

Lemma settles_throw {A} e : settles (@r_throw S W A e).
Proof. by intros m p p2. Qed.

Lemma settles_lift {A} (r : res thrown A) : settles (r_lift r).
Proof. by destruct r; intros m p p2. Qed.

Lemma settles_bind {A B} (x : R S W A) (k : A -> R S W B) :
  settles x -> (forall a, settles (k a)) -> settles (r_bind x k).
Proof.
  intros Hx Hk m p p2. unfold r_bind. rewrite (Hx m p p2).
  pose proof (Hx m p p) as Hp. destruct (x (m, p)) as [o [m' p']]. cbn in *.
  injection Hp as ->. destruct o as [a|e|]; cbn; [|done|done]. apply Hk.
Qed.

Lemma settles_memory {A} (f : memory W -> A * memory W) :
  settles (fun c : cfg S W => (Ret (f c.1).1, ((f c.1).2, c.2))).
Proof. by intros m p p2. Qed.

Lemma settles_settle sl name codec comp x : settles (settle host sl name codec comp x).
Proof.
  destruct x as [v|f]; cbn; [|apply settles_ret]. apply settles_bind; [apply settles_lift|].
  intros value. destruct comp as [c|]; [|apply settles_ret].
  apply settles_bind; [|intros; apply settles_ret]. by intros m p p2.
Qed.

Lemma settles_outcomeOf sl name t x : settles (outcomeOf (S := S) (W := W) host env sl name t x).
Proof.
  destruct x as [v|f]; cbn; [|apply settles_ret]. apply settles_bind; [apply settles_lift|].
  intros [value|]; [apply settles_ret|]. destruct t; [apply settles_ret|apply settles_throw].
Qed.

Definition completed_entry (e : JournalEntry) (x : JournalExit) : Prop :=
  je_phase e = Some PhCompleted /\ je_exit e = Some x.

Lemma completed_exit_Some e x : completed_entry e x -> completed_exit (Some e) = Some x.
Proof. intros [Hp Hx]. unfold completed_exit. by rewrite bool_decide_true. Qed.

Lemma completed_exit_inv o x : completed_exit o = Some x -> exists e, o = Some e /\ completed_entry e x.
Proof.
  destruct o as [e|]; [|done]. unfold completed_exit, completed_entry.
  case_bool_decide; [|done]. intros. by exists e.
Qed.

(** A yield reads the snapshot at its own slot only. *)
Lemma expectRecorded_ext snap snap' sl kind name :
  snap !! slotKey sl = snap' !! slotKey sl ->
  expectRecorded env snap sl kind name = expectRecorded env snap' sl kind name.
Proof. unfold expectRecorded, cursor_recorded. by intros ->. Qed.

Lemma perform_ext snap snap' r m p :
  snap !! slotKey (next_slot m) = snap' !! slotKey (next_slot m) ->
  perform host env snap r (m, p) = perform host env snap' r (m, p).
Proof.
  intros Hs. destruct r as [name input fn options|duration|name timeout schema]; cbn [perform].
  - unfold activity, r_bind at 1 5. cbn [allocateSlot r_bind get_memory put_memory r_ret fst snd].
    fold (next_slot m). by rewrite (expectRecorded_ext snap snap').
  - unfold sleep, r_bind at 1 10. cbn [allocateSlot r_bind get_memory put_memory r_ret fst snd].
    fold (next_slot m). by rewrite (expectRecorded_ext snap snap').
  - unfold signal, r_bind at 1 10. cbn [allocateSlot r_bind get_memory put_memory r_ret fst snd].
    fold (next_slot m). by rewrite (expectRecorded_ext snap snap').
Qed.

(** On a completed entry it only computes. *)
Lemma perform_settles snap r m e x : snap !! slotKey (next_slot m) = Some e -> completed_entry e x ->
  forall p p2, perform host env snap r (m, p2) =
    ((perform host env snap r (m, p)).1, ((perform host env snap r (m, p)).2.1, p2)).
Proof.
  intros He Hx p p2.
  assert (forall A (k : JournalSlot -> R S W A), settles (k (next_slot m)) ->
    r_bind allocateSlot k (m, p2) =
      ((r_bind allocateSlot k (m, p)).1, ((r_bind allocateSlot k (m, p)).2.1, p2))) as Halloc.
  { intros A k Hk. apply (Hk (bumped m) p p2). }
  assert (forall A kind name (k : option JournalEntry -> R S W A), settles (k (Some e)) ->
    settles (r_bind (r_lift (expectRecorded env snap (next_slot m) kind name)) k)) as Hexp.
  { intros A kind name k Hk.
    destruct (expectRecorded env snap (next_slot m) kind name) as [o|err] eqn:E; cbn.
    - apply expectRecorded_Ok in E as [-> _]. rewrite He. exact Hk.
    - by intros m1 p1 p3. }
  pose proof (completed_exit_Some e x Hx) as Hc. destruct Hx as [Hp Hx].
  destruct r as [name input fn options|duration|name timeout schema]; cbn [perform]; apply Halloc.
  - cbn zeta. match goal with |- settles (if ?b then _ else _) => destruct b end;
      [apply settles_throw|]. apply Hexp.
    match goal with |- settles (if ?b then _ else _) => destruct b end; [apply settles_throw|]. rewrite Hp, Hx. cbn. apply settles_settle.
  - apply Hexp. rewrite Hc. apply settles_ret.
  - cbn zeta. apply Hexp. rewrite Hc. apply settles_outcomeOf.
Qed.

(** ** What a yield records *)
Lemma r_bind_Ret {A B} (x : R S W A) (k : A -> R S W B) c b c' :
  r_bind x k c = (Ret b, c') -> exists a c1, x c = (Ret a, c1) /\ k a c1 = (Ret b, c').
Proof. unfold r_bind. destruct (x c) as [[a|e|] c1]; [eauto|done|done]. Qed.

Lemma r_lift_Ret {A} (r : res thrown A) c a c' :
  @r_lift S W A r c = (Ret a, c') -> r = Ok a /\ c' = c.
Proof. destruct r; cbn; [by intros [= -> ->]|done]. Qed.

Lemma call_store_Ret {A} (f : S -> res thrown A * S) m p a m' p' :
  call_store f (m, p) = (Ret a, (m', p')) ->
  m' = m /\ exists s', f (p_store p) = (Ok a, s') /\ p_store p' = s'.
Proof.
  unfold call_store, effect. destruct (p_budget p); [done|]. cbn.
  destruct (f (p_store p)) as [[x|e] s]; cbn; [|done]. intros [= <- <- <-]. eauto.
Qed.

Lemma quiet_Ret {A} (x : R S W A) m p a m' p' : quiet x -> x (m, p) = (Ret a, (m', p')) ->
  m' = m /\ p_store p' = p_store p.
Proof. intros Hx E. pose proof (Hx (m, p)) as [H1 H2]. by rewrite E in H1, H2. Qed.

Lemma vw_same p p' : p_store p' = p_store p -> vw p' = vw p.
Proof. unfold vw. by intros ->. Qed.

Lemma writePending_Ret sl kind name hash wake m p u m' p' : js_ok (p_store p) ->
  writePending env sl kind name hash wake (m, p) = (Ret u, (m', p')) ->
  m' = m /\ js_ok (p_store p') /\ exists e0, vw p' sl = Some e0 /\
    ((vw p sl = None /\ exists t, e0 = pending_entry sl name hash kind wake t) \/
     exists e, vw p sl = Some e /\ grows_at (Some e) (Some e0)).
Proof.
  intros Hok Hw. apply call_store_Ret in Hw as (-> & s' & Hf & Hs').
  pose proof (js_pending_law (se_guard env) (se_workflowId env) (se_stepName env) sl name hash kind
                wake (p_store p) Hok) as Hl.
  rewrite Hf in Hl. destruct Hl as (Hok' & v1 & Hg & [t Hspec] & _).
  split_and!; [done|by rewrite Hs'|]. unfold vw at 1. rewrite Hs', Hspec, decide_True by done.
  specialize (Hg sl). change (js_view _ _ (p_store p) sl) with (vw p sl) in Hg.
  destruct (vw p sl) as [e|] eqn:E.
  - destruct (v1 sl) as [e1|] eqn:E1; [|by destruct Hg as [?|(? & ? & _ & _ & _ & ?)]].
    exists e1. split; [done|]. right. by exists e.
  - pose proof (proj1 (grows_at_None _ _ Hg) eq_refl) as E1. rewrite E1. cbn. eexists. split; [done|].
    left. split; [done|]. by exists t.
Qed.

Lemma complete_Ret sl x m p r m' p' e0 : js_ok (p_store p) ->
  complete env sl x (m, p) = (Ret r, (m', p')) -> grows_at (Some e0) (vw p sl) ->
  is_pending e0 = true ->
  m' = m /\ js_ok (p_store p') /\
  ((vw p' sl = Some (completed_with x e0) /\ r = (true, x)) \/
   exists z, foreign_exit e0 z /\ vw p' sl = Some (completed_with z e0) /\
     ((r = (true, x) /\ sameStoredValue (exit_json z) (exit_json x) = true) \/ r = (false, z))).
Proof.
  intros Hok Hc Hv Hp. apply r_bind_Ret in Hc as (a & [m1 p1] & Hf & Hr).
  injection Hr as <- <- <-. apply call_store_Ret in Hf as (-> & s' & Hf & Hs').
  pose proof (js_complete_law (se_guard env) (se_workflowId env) (se_stepName env) sl x (p_store p) Hok)
    as Hl.
  rewrite Hf in Hl. destruct Hl as (Hok' & v1 & Hg & Hspec & Hans).
  split_and!; [done|by rewrite Hs'|]. unfold vw at 1 2. rewrite Hs', Hspec, decide_True by done.
  specialize (Hg sl). change (js_view _ _ (p_store p) sl) with (vw p sl) in Hg.
  apply (grows_at_trans _ _ _ Hv) in Hg.
  unfold complete_answer in Hans. destruct Hg as [E|(e & z & [= <-] & _ & Hz & E)]; rewrite E in Hans |- *.
  - left. cbn. rewrite Hp in Hans |- *. by rewrite Hans.
  - right. exists z. cbn in Hans |- *. split_and!; [done|done|]. destruct Hans as [Hx Hsame].
    destruct (cp_completed a) eqn:Ec.
    + left. split; [done|]. destruct (Hsame eq_refl) as (y & [= <-] & ?). done.
    + right. by rewrite Hx.
Qed.

(** An entry of an activity is completed by the activity's run alone. *)
Definition own_kind (e : JournalEntry) : Prop :=
  match je_stepType e with Some StSleep | Some StSignal => False | _ => True end.

Lemma foreign_own e z : own_kind e -> foreign_exit e z -> False.
Proof. unfold own_kind, foreign_exit. by destruct (je_stepType e) as [[]|]. Qed.

Lemma grows_own e e0 : own_kind e -> grows_at (Some e) (Some e0) -> e0 = e.
Proof.
  intros Ho [[= ->]|(e' & z & [= <-] & _ & Hz & _)]; [done|]. by destruct (foreign_own e z Ho Hz).
Qed.

Lemma recordOutcome_Ret sl kind name hash (run : R S W json) encode m p out m' p' :
  js_ok (p_store p) -> quiet run -> kind <> StSleep -> kind <> StSignal ->
  (forall e, vw p sl = Some e -> is_pending e = true /\ own_kind e) ->
  recordOutcome host env sl kind name hash run encode (m, p) = (Ret out, (m', p')) ->
  m' = m /\ exists e0 x, vw p' sl = Some (completed_with x e0) /\
    (vw p sl = Some e0 \/ (vw p sl = None /\ exists t, e0 = pending_entry sl name hash kind None t)) /\
    (out = Stored x \/ exists err, out = Failed err /\ failure_exit host err = Ok x).
Proof.
  intros Hok Hrun Hk1 Hk2 Hpre Hr.
  apply r_bind_Ret in Hr as (u & [m1 p1] & Hw & Hr).
  apply writePending_Ret in Hw as (-> & Hok1 & e0 & Hv1 & He0); [|done].
  assert (is_pending e0 = true /\ own_kind e0 /\ (vw p sl = Some e0 \/
    (vw p sl = None /\ exists t, e0 = pending_entry sl name hash kind None t))) as (Hp0 & Ho0 & Hsrc).
  { destruct He0 as [[Hn [t ->]]|(e & He & Hg)].
    - split_and!; [done|by destruct kind|]. right. eauto.
    - destruct (Hpre e He) as [Hp Ho]. rewrite (grows_own e e0 Ho Hg). auto. }
  apply r_bind_Ret in Hr as (r & [m2 p2] & Hcatch & Hr).
  assert (m2 = m /\ p_store p2 = p_store p1) as [-> Hs2].
  { unfold r_catch in Hcatch. pose proof (Hrun (m, p1)) as [H1 H2].
    destruct (run (m, p1)) as [[v|e|] c]; cbn in H1, H2; [| |done];
      injection Hcatch as <- ->; done. }
  assert (forall x r m' p', complete env sl x (m, p2) = (Ret r, (m', p')) ->
    m' = m /\ vw p' sl = Some (completed_with x e0) /\ r = (true, x)) as Hcomp.
  { intros x r' m3 p3 Hc. apply (complete_Ret _ _ _ _ _ _ _ e0) in Hc as (-> & _ & Hc);
      [|by rewrite Hs2|rewrite (vw_same p1 p2), Hv1 by done; apply grows_at_refl|done].
    destruct Hc as [[H1 H2]|(z & Hz & _)]; [done|by destruct (foreign_own e0 z)]. }
  destruct r as [v|err]; apply r_bind_Ret in Hr as (x & c3 & Hl & Hr);
    apply r_lift_Ret in Hl as [Hl ->]; apply r_bind_Ret in Hr as (st & [m4 p4] & Hc & Hr);
    apply Hcomp in Hc as (-> & Hv & ->); injection Hr as <- <- <-; split; try done;
    exists e0; eexists; (split; [exact Hv|]); (split; [exact Hsrc|]).
  - by left.
  - right. by exists err.
Qed.

(** A delivery is never mistaken for a repeated timeout. *)
Lemma delivered_not_timeout v :
  sameStoredValue (exit_json (ExSuccess (deliveredSignalExitValue v)))
    (exit_json (ExSuccess timedOutSignalExitValue)) = false.
Proof.
  apply not_true_is_false. intros Hs. apply same_stored_forms in Hs. by destruct v.
Qed.

(** The answer on replay: the recorded one; a failure is rebuilt from the
    journal. *)
Definition same_answer (a a' : res thrown json) : Prop :=
  a' = a \/ exists e f, a = Err e /\ failureExit (ho_encode host) (ho_date_string host) e = Ok f /\
              a' = Err (TError (rehydrateFailure (ho_decode host) (ho_new_tagged host) f)).

(** The yield's slot holds a completed entry from which every later run
    answers [a'] and goes on with the same memory. *)
Definition recorded_as (r : request W) m p' m' (a : res thrown json) : Prop :=
  exists e x a', vw p' (next_slot m) = Some e /\ completed_entry e x /\ same_answer a a' /\
    forall snap p2, snap !! slotKey (next_slot m) = Some e ->
      perform host env snap r (m, p2) = (Ret a', (m', p2)).

Lemma recorded_at_once snap r m p e x a m' p' :
  snap !! slotKey (next_slot m) = Some e -> completed_entry e x ->
  vw p (next_slot m) = Some e ->
  perform host env snap r (m, p) = (Ret a, (m', p')) -> recorded_as r m p' m' a.
Proof.
  intros He Hx Hv Hr. pose proof (perform_settles snap r m e x He Hx p p) as Hp.
  rewrite Hr in Hp. injection Hp as ->. exists e, x, a. split_and!; [done|done|by left|].
  intros snap2 p2 He2. rewrite (perform_ext snap2 snap) by congruence.
  rewrite (perform_settles snap r m e x He Hx p p2), Hr. done.
Qed.

Lemma settle_Ret sl name codec comp x m p a m' p' :
  settle host sl name codec comp x (m, p) = (Ret a, (m', p')) ->
  p' = p /\ forall p2, settle host sl name codec comp x (m, p2) = (Ret a, (m', p2)).
Proof.
  intros Hr. pose proof (settles_settle sl name codec comp x m p p) as Hp. rewrite Hr in Hp.
  injection Hp as ->. split; [done|]. intros p2.
  by rewrite (settles_settle sl name codec comp x m p p2), Hr.
Qed.

Lemma hash_mismatch_refl h : hash_mismatch h h = false.
Proof. unfold hash_mismatch. rewrite bool_decide_false by auto. by rewrite andb_false_r. Qed.

(** The snapshot a run took of a slot and what the store holds of it since. *)
Definition fresh_view (snap : entries_map) m p : Prop :=
  grows_at (snap !! slotKey (next_slot m)) (vw p (next_slot m)) /\ js_ok (p_store p).

Lemma fresh_settled snap m p e : fresh_view snap m p -> snap !! slotKey (next_slot m) = Some e ->
  is_pending e = false ->
  vw p (next_slot m) = Some e /\ exists x, completed_entry e x.
Proof.
  intros [Hg Hok] He Hp. rewrite He in Hg.
  pose proof (grows_at_completed _ e _ Hg eq_refl Hp) as Hv. split; [done|].
  pose proof (js_view_wf _ _ _ _ _ Hok Hv) as [Hwf _]. unfold completed_entry.
  destruct (completed_wf e Hwf Hp) as [? [x ?]]. by exists x.
Qed.

Lemma activity_on_completed snap name input fn options m p e x :
  let wantsHash := opt_or (opt_else (ao_payloadHash options) (se_defaultPayloadHash env)) false in
  snap !! slotKey (next_slot m) = Some e -> agrees KActivity name e -> completed_entry e x ->
  wantsHash && bool_decide (input = None) && bool_decide (ao_payloadHash options = Some true) = false ->
  hash_mismatch (je_payloadHash e) (if wantsHash then ho_payloadHash host <$> input else None) = false ->
  perform host env snap (RActivity name input fn options) (m, p) =
    settle host (next_slot m) name (opt_or (ao_codec options) (se_stepCodec env))
      (ao_compensate options) x (bumped m, p).
Proof.
  intros wantsHash He Ha [Hp Hx] Hg Hh. cbn [perform]. unfold activity.
  match goal with |- r_bind allocateSlot ?k _ = _ =>
    change (k (next_slot m) (bumped m, p) = settle host (next_slot m) name
      (opt_or (ao_codec options) (se_stepCodec env)) (ao_compensate options) x (bumped m, p)) end.
  cbn beta zeta. fold wantsHash. rewrite Hg.
  unfold r_bind at 1. rewrite (expectRecorded_agrees snap (next_slot m) KActivity name e) by done.
  cbn. rewrite Hh, Hp, Hx. done.
Qed.

Lemma sleep_on_completed snap d m p e x :
  snap !! slotKey (next_slot m) = Some e -> agrees KSleep "sleep" e -> completed_entry e x ->
  perform host env snap (RSleep d) (m, p) = (Ret (wokeAt host x), (bumped m, p)).
Proof.
  intros He Ha Hx. cbn [perform]. unfold sleep.
  match goal with |- r_bind allocateSlot ?k _ = _ =>
    change (k (next_slot m) (bumped m, p) = (Ret (wokeAt host x), (bumped m, p))) end.
  cbn beta. unfold r_bind at 1. rewrite (expectRecorded_agrees snap (next_slot m) KSleep "sleep" e) by done.
  cbn -[completed_exit]. by rewrite (completed_exit_Some e x).
Qed.

Lemma signal_on_completed snap name t schema m p e x :
  snap !! slotKey (next_slot m) = Some e -> agrees KSignal name e -> completed_entry e x ->
  perform host env snap (RSignal name t schema) (m, p) =
    outcomeOf host env (next_slot m) name (bool_decide (is_Some t)) x (bumped m, p).
Proof.
  intros He Ha Hx. cbn [perform]. unfold signal.
  match goal with |- r_bind allocateSlot ?k _ = _ =>
    change (k (next_slot m) (bumped m, p) =
      outcomeOf host env (next_slot m) name (bool_decide (is_Some t)) x (bumped m, p)) end.
  cbn beta zeta. unfold r_bind at 1.
  rewrite (expectRecorded_agrees snap (next_slot m) KSignal name e) by done.
  cbn -[completed_exit]. by rewrite (completed_exit_Some e x).
Qed.

Lemma agrees_completed kind name e x : agrees kind name e -> agrees kind name (completed_with x e).
Proof. done. Qed.

Lemma completed_with_entry x e : completed_entry (completed_with x e) x.
Proof. done. Qed.

Lemma agrees_own name e : agrees KActivity name e -> own_kind e.
Proof. intros [Hk _]. unfold own_kind. by destruct (je_stepType e) as [[]|]. Qed.

Lemma activity_records snap name input fn options m p a m' p' : fresh_view snap m p ->
  perform host env snap (RActivity name input fn options) (m, p) = (Ret a, (m', p')) ->
  recorded_as (RActivity name input fn options) m p' m' a.
Proof.
  intros Hfresh Hr. pose proof Hr as Hperf. pose proof Hfresh as [Hg Hok].
  cbn [perform] in Hr. unfold activity in Hr.
  set (wantsHash := opt_or (opt_else (ao_payloadHash options) (se_defaultPayloadHash env)) false) in *.
  set (hash := if wantsHash then ho_payloadHash host <$> input else None) in *.
  set (codec := opt_or (ao_codec options) (se_stepCodec env)) in *.
  match type of Hr with r_bind allocateSlot ?k _ = _ =>
    change (k (next_slot m) (bumped m, p) = (Ret a, (m', p'))) in Hr end.
  cbn beta zeta in Hr. fold wantsHash hash codec in Hr.
  match type of Hr with (if ?b then _ else _) _ = _ => destruct b eqn:Eg end; [done|].
  (* what a fresh run records *)
  assert (forall c1, (forall e, vw p (next_slot m) = Some e -> is_pending e = true /\ own_kind e) ->
    (forall e0, vw p (next_slot m) = Some e0 \/ (vw p (next_slot m) = None /\
       exists t, e0 = pending_entry (next_slot m) name hash StActivity None t) ->
       agrees KActivity name e0 /\ hash_mismatch (je_payloadHash e0) hash = false) ->
    (let! outcome := recordOutcome host env (next_slot m) StActivity name hash
         (run_activity host (next_slot m) fn options) (codec_encode codec) in
     match outcome with
     | Failed e => r_ret (Err e)
     | Stored x => settle host (next_slot m) name codec (ao_compensate options) x
     end) (bumped m, p) = (Ret a, c1) ->
    c1 = (m', p') -> recorded_as (RActivity name input fn options) m p' m' a) as Hfreshrun.
  { intros c1 Hpre Hsrc Hrun ->.
    apply r_bind_Ret in Hrun as (out & [m1 p1] & Hrec & Hrun).
    apply recordOutcome_Ret in Hrec as (-> & e0 & x & Hv & He0 & Hout);
      [|done|apply quiet_run_activity|done|done|done].
    destruct (Hsrc e0 He0) as [Hag Hh].
    assert (forall a' m2, (forall p2, settle host (next_slot m) name codec (ao_compensate options) x
        (bumped m, p2) = (Ret a', (m2, p2))) -> same_answer a a' -> p1 = p' -> m2 = m' ->
        recorded_as (RActivity name input fn options) m p' m' a) as Hdone.
    { intros a' m2 Hs Hsame -> ->. exists (completed_with x e0), x, a'. split_and!; try done.
      intros snap2 p2 He2. by rewrite (activity_on_completed snap2 _ _ _ _ _ _ _ x He2). }
    destruct Hout as [->|(err & -> & Hx)].
    - apply settle_Ret in Hrun as [-> Hs]. apply (Hdone a m'); try done. by left.
    - injection Hrun as <- <- <-. unfold failure_exit in Hx.
      destruct (failureExit _ _ err) as [f|] eqn:Ef; [|done]. injection Hx as <-.
      apply (Hdone (Err (TError (rehydrateFailure (ho_decode host) (ho_new_tagged host) f)))
               (bumped m)); try done. right. by exists err, f. }
  apply r_bind_Ret in Hr as (found & c1 & Hl & Hr). apply r_lift_Ret in Hl as [Hl ->].
  apply expectRecorded_Ok in Hl as [Hfound Hag]. destruct found as [e|].
  - symmetry in Hfound. specialize (Hag e eq_refl).
    destruct (hash_mismatch (je_payloadHash e) hash) eqn:Eh; [done|].
    destruct (is_pending e) eqn:Ep.
    + assert (je_phase e = Some PhPending) as Hph
        by (unfold is_pending in Ep; by apply bool_decide_eq_true in Ep).
      rewrite Hph in Hr. cbn in Hr. destruct (ao_idempotent options); [|done].
      rewrite Hfound in Hg.
      assert (vw p (next_slot m) = Some e) as Hv.
      { destruct Hg as [?|(e' & z & [= <-] & _ & Hz & _)]; [done|].
        by destruct (foreign_own e z (agrees_own _ _ Hag)). }
      apply (Hfreshrun (m', p')); try done.
      * intros e1 He1. rewrite Hv in He1. injection He1 as <-. split; [done|by eapply agrees_own].
      * intros e0 [E|[E _]]; rewrite Hv in E; [|done]. by injection E as <-.
    + destruct (fresh_settled snap m p e Hfresh Hfound Ep) as [Hv [x Hx]].
      by apply (recorded_at_once snap _ _ p e x).
  - symmetry in Hfound. rewrite Hfound in Hg.
    assert (vw p (next_slot m) = None) as Hv by (by apply (grows_at_None _ _ Hg)).
    apply (Hfreshrun (m', p')); try done.
    + intros e He. congruence.
    + intros e0 [E|[_ [t ->]]]; [congruence|]. split; [by split; [|right]|apply hash_mismatch_refl].
Qed.

(** *** Waits *)
Lemma quiet_ret {A} (a : A) : quiet (@r_ret S W A a).
Proof. by intros c. Qed.

Lemma quiet_bind {A B} (x : R S W A) (k : A -> R S W B) :
  quiet x -> (forall a, quiet (k a)) -> quiet (r_bind x k).
Proof.
  intros Hx Hk. apply quiet_iff. intros m0 s0. apply keeps_bind; [by apply quiet_iff|].
  intros a. by apply quiet_iff.
Qed.

Lemma quiet_deadline w : quiet (deadline (S := S) (W := W) host w).
Proof.
  destruct w; [|apply quiet_ret]. apply quiet_bind; [apply quiet_now|intros; apply quiet_ret].
Qed.

Lemma suspend_not_Ret u reason message c a c' :
  suspend (W := W) host env u reason message c = (Ret a, c') -> False.
Proof. intros (x & c1 & _ & Ht)%r_bind_Ret. done. Qed.

(** The pending entry a wait stands on, once its row is there. *)
Definition waiting (kind : JournalYieldKind) (name : string) (w : option Z) (e0 : JournalEntry) : Prop :=
  is_pending e0 = true /\ agrees kind name e0 /\ je_stepType e0 = Some (kind_type kind) /\
  (je_wakeAt e0 = w \/ je_wakeAt e0 = None).

Lemma wait_row snap kind name (found : option JournalEntry) w m p u m' p' :
  fresh_view snap m p -> snap !! slotKey (next_slot m) = found ->
  kind <> KActivity ->
  (forall e, found = Some e -> agrees kind name e /\ is_pending e = true /\
     (je_wakeAt e = w \/ je_wakeAt e = None)) ->
  (match found with
   | None => writePending env (next_slot m) (kind_type kind) name None w
   | Some _ => r_ret tt
   end) (bumped m, p) = (Ret u, (m', p')) ->
  m' = bumped m /\ js_ok (p_store p') /\
  exists e0, waiting kind name w e0 /\ grows_at (Some e0) (vw p' (next_slot m)).
Proof.
  intros [Hg Hok] Hs Hkind Hf Hw. rewrite Hs in Hg. destruct found as [e|].
  - destruct (Hf e eq_refl) as (Ha & Hp & Hwake). injection Hw as _ <- <-.
    split_and!; [done|done|]. exists e. split; [|done]. split_and!; try done.
    destruct Ha as [Hk _]. by destruct (je_stepType e), kind; cbn in Hk |- *; subst.
  - apply writePending_Ret in Hw as (-> & Hok' & e0 & Hv & He0); [|done].
    pose proof (proj1 (grows_at_None _ _ Hg) eq_refl) as Hn.
    destruct He0 as [[_ [t ->]]|(e & He & _)]; [|congruence].
    split_and!; [done|done|]. eexists. rewrite Hv. split; [|apply grows_at_refl].
    split_and!; try done; [split; [done|by right]|by left].
Qed.

Lemma sleep_records snap d m p a m' p' : fresh_view snap m p ->
  perform host env snap (RSleep d) (m, p) = (Ret a, (m', p')) ->
  recorded_as (RSleep d) m p' m' a.
Proof.
  intros Hfresh Hr. pose proof Hr as Hperf. cbn [perform] in Hr. unfold sleep in Hr.
  match type of Hr with r_bind allocateSlot ?k _ = _ =>
    change (k (next_slot m) (bumped m, p) = (Ret a, (m', p'))) in Hr end. cbn beta in Hr.
  apply r_bind_Ret in Hr as (found & c1 & Hl & Hr). apply r_lift_Ret in Hl as [Hl ->].
  apply expectRecorded_Ok in Hl as [Hfound Hag]. symmetry in Hfound.
  destruct (completed_exit found) as [x|] eqn:Ex.
  { apply completed_exit_inv in Ex as (e & -> & Hx). pose proof Hx as [Hph _].
    apply (recorded_at_once snap _ _ p e x); try done.
    apply (fresh_settled snap m p e Hfresh Hfound). unfold is_pending. by rewrite Hph. }
  apply r_bind_Ret in Hr as (w & [m1 p1] & Hw & Hr).
  assert (quiet (match found ≫= je_wakeAt with Some w => r_ret w | None => deadline host d end)) as Hq
    by (destruct (found ≫= je_wakeAt); [apply quiet_ret|apply quiet_deadline]).
  pose proof (quiet_Ret _ _ _ _ _ _ Hq Hw) as [-> Hs1].
  apply r_bind_Ret in Hr as (u & [m2 p2] & Hrow & Hr).
  apply (wait_row snap KSleep "sleep" found (Some w)) in Hrow as (-> & Hok2 & e0 & Hwait & Hg0); try done.
  2:{ destruct Hfresh as [H1 H2]. split; [by rewrite (vw_same p p1)|by rewrite Hs1]. }
  2:{ intros e He. subst found. split_and!; [by apply Hag| |].
      - destruct (is_pending e) eqn:Ep; [done|].
        destruct (fresh_settled snap m p e Hfresh He Ep) as [_ [x Hx]].
        by rewrite He, (completed_exit_Some e x Hx) in Ex.
      - rewrite He in Hw. cbn in Hw. destruct (je_wakeAt e); [|by right]. injection Hw as <-. by left. }
  apply r_bind_Ret in Hr as (now & [m3 p3] & Hnow & Hr).
  pose proof (quiet_Ret _ _ _ _ _ _ quiet_now Hnow) as [-> Hs3].
  destruct (now >=? w); [|by apply suspend_not_Ret in Hr].
  apply r_bind_Ret in Hr as (st & [m4 p4] & Hc & Hr). injection Hr as <- <- <-.
  destruct Hwait as (Hp0 & Ha0 & Ht0 & Hwk0).
  apply (complete_Ret _ _ _ _ _ _ _ e0) in Hc as (-> & _ & Hc);
    [|by rewrite Hs3|by rewrite (vw_same p2 p3)|done].
  set (x := ExSuccess (JStr (toISOString w))) in *.
  assert (vw p4 (next_slot m) = Some (completed_with x e0) /\ st.2 = x) as [Hv ->].
  { destruct Hc as [[Hv ->]|(z & Hz & Hv & Hst)]; [done|].
    assert (z = x) as ->; [|by destruct Hst as [[-> _]| ->]].
    unfold foreign_exit in Hz. rewrite Ht0 in Hz. destruct Hz as (w' & Hw' & ->).
    destruct Hwk0 as [E|E]; rewrite E in Hw'; [|done]. by injection Hw' as <-. }
  exists (completed_with x e0), x, (wokeAt host x). split_and!; try done; [by left|].
  intros snap2 p5 He2. by apply (sleep_on_completed snap2 d m p5 (completed_with x e0)).
Qed.

Lemma signal_records snap name t schema m p a m' p' : fresh_view snap m p ->
  perform host env snap (RSignal name t schema) (m, p) = (Ret a, (m', p')) ->
  recorded_as (RSignal name t schema) m p' m' a.
Proof.
  intros Hfresh Hr. pose proof Hr as Hperf. cbn [perform] in Hr. unfold signal in Hr.
  match type of Hr with r_bind allocateSlot ?k _ = _ =>
    change (k (next_slot m) (bumped m, p) = (Ret a, (m', p'))) in Hr end. cbn beta zeta in Hr.
  apply r_bind_Ret in Hr as (found & c1 & Hl & Hr). apply r_lift_Ret in Hl as [Hl ->].
  apply expectRecorded_Ok in Hl as [Hfound Hag]. symmetry in Hfound.
  destruct (completed_exit found) as [x|] eqn:Ex.
  { apply completed_exit_inv in Ex as (e & -> & Hx). pose proof Hx as [Hph _].
    apply (recorded_at_once snap _ _ p e x); try done.
    apply (fresh_settled snap m p e Hfresh Hfound). unfold is_pending. by rewrite Hph. }
  apply r_bind_Ret in Hr as (w & [m1 p1] & Hw & Hr).
  assert (quiet (match found ≫= je_wakeAt with
                 | Some w => r_ret (Some w)
                 | None => match t with
                           | Some t => let! d := deadline (S := S) (W := W) host t in r_ret (Some d)
                           | None => r_ret None
                           end
                 end)) as Hq.
  { destruct (found ≫= je_wakeAt); [apply quiet_ret|]. destruct t; [|apply quiet_ret].
    apply quiet_bind; [apply quiet_deadline|intros; apply quiet_ret]. }
  pose proof (quiet_Ret _ _ _ _ _ _ Hq Hw) as [-> Hs1].
  apply r_bind_Ret in Hr as (u & [m2 p2] & Hrow & Hr).
  apply (wait_row snap KSignal name found w) in Hrow as (-> & Hok2 & e0 & Hwait & Hg0); try done.
  2:{ destruct Hfresh as [H1 H2]. split; [by rewrite (vw_same p p1)|by rewrite Hs1]. }
  2:{ intros e He. subst found. split_and!; [by apply Hag| |].
      - destruct (is_pending e) eqn:Ep; [done|].
        destruct (fresh_settled snap m p e Hfresh He Ep) as [_ [x Hx]].
        by rewrite He, (completed_exit_Some e x Hx) in Ex.
      - rewrite He in Hw. cbn in Hw. destruct (je_wakeAt e); [|by right]. injection Hw as <-. by left. }
  destruct w as [w|]; [|by apply suspend_not_Ret in Hr].
  apply r_bind_Ret in Hr as (now & [m3 p3] & Hnow & Hr).
  pose proof (quiet_Ret _ _ _ _ _ _ quiet_now Hnow) as [-> Hs3].
  destruct (now >=? w); [|by apply suspend_not_Ret in Hr].
  apply r_bind_Ret in Hr as (st & [m4 p4] & Hc & Hr).
  destruct Hwait as (Hp0 & Ha0 & Ht0 & Hwk0).
  apply (complete_Ret _ _ _ _ _ _ _ e0) in Hc as (-> & _ & Hc);
    [|by rewrite Hs3|by rewrite (vw_same p2 p3)|done].
  assert (exists x, vw p4 (next_slot m) = Some (completed_with x e0) /\ st.2 = x) as (x & Hv & Hx).
  { destruct Hc as [[Hv ->]|(z & Hz & Hv & Hst)]; [by eexists|]. exists z. split; [done|].
    unfold foreign_exit in Hz. rewrite Ht0 in Hz. destruct Hz as [v ->].
    destruct Hst as [[_ Hsame]| ->]; [|done]. by rewrite delivered_not_timeout in Hsame. }
  rewrite Hx in Hr.
  pose proof (settles_outcomeOf (next_slot m) name (bool_decide (is_Some t)) x (bumped m) p4) as Hset.
  rewrite Hr in Hset. pose proof (Hset p4) as Hp4. rewrite Hr in Hp4. injection Hp4 as ->.
  exists (completed_with x e0), x, a. split_and!; try done; [by left|].
  intros snap2 p5 He2.
  rewrite (signal_on_completed snap2 name t schema m p5 (completed_with x e0) x); done.
Qed.

Lemma perform_records snap r m p a m' p' : fresh_view snap m p ->
  perform host env snap r (m, p) = (Ret a, (m', p')) -> recorded_as r m p' m' a.
Proof.
  destruct r; [apply activity_records|apply sleep_records|apply signal_records].
Qed.
End lemmas.
