(* ===== verification/Resume.v ===== *)
(** Durable execution: what a journaled step may rely on when its process
    dies, its run is parked, or its attempt fails.

    A later run of the same body answers every recorded yield from the
    journal, without touching the world, the store or the clock, and stands
    where the first one stood ([resume_exact]). An activity that is not
    marked idempotent never starts twice unless its entry was discarded in
    between ([at_most_once_runs]). *)
From Stdlib Require Import QArith.
From S2P Require Import Prelude Leases Json Journal Storage Dates Exits Retry JournalStore Replay ReplayLemmas.
Open Scope string_scope.
Open Scope list_scope.
Open Scope Z_scope.

Section resume.
Context {S W : Type} `{JournalStoreLaws S}.
Context (host : Host) (env : StepEnv).
Implicit Types (m : memory W) (p : process S W) (c : cfg S W) (sl : JournalSlot).

(** ** The first [n] yields of a body *)
Fixpoint advance (n : nat) (snap : entries_map) (b : body W) : R S W (body W) :=
  match n, b with
  | Datatypes.S n, BYield r k => let! a := perform host env snap r in advance n snap (k a)
  | _, _ => r_ret b
  end.

(** The body does not tell an error from the one replay rebuilds for it. *)
Fixpoint faithful (b : body W) : Prop :=
  match b with
  | BYield _ k =>
      (forall e f, failureExit (ho_encode host) (ho_date_string host) e = Ok f ->
         k (Err e) = k (Err (TError (rehydrateFailure (ho_decode host) (ho_new_tagged host) f)))) /\
      forall a, faithful (k a)
  | _ => True
  end.

Lemma drive_advance n snap b c b' c' :
  advance n snap b c = (Ret b', c') -> drive host env snap b c = drive host env snap b' c'.
Proof.
  revert b c. induction n as [|n IH]; intros b c; cbn; [by intros [= <- <-]|].
  destruct b as [v|e|r k]; [by intros [= <- <-]|by intros [= <- <-]|].
  intros (a & c1 & Hp & Ha)%r_bind_Ret. cbn. rewrite Hp. by apply IH.
Qed.

Lemma advance_later n snap b m p b' m' p' : js_ok (p_store p) ->
  advance n snap b (m, p) = (Ret b', (m', p')) ->
  js_ok (p_store p') /\ forall sl, later_at (vw env p sl) (vw env p' sl).
Proof.
  revert b m p. induction n as [|n IH]; intros b m p Hok; cbn.
  { intros [= _ _ <-]. split; [done|]. intros; apply later_refl. }
  destruct b as [v|e|r k]; [by intros [= _ _ <-]; split; [|intros; apply later_refl] ..|].
  intros (a & [m1 p1] & Hp & Ha)%r_bind_Ret.
  pose proof (perform_framed host env snap r m p Hok) as Hf. rewrite Hp in Hf.
  destruct Hf as [_ (Hok1 & Hl & Hg)]. cbn in Hok1, Hl, Hg.
  destruct (IH _ _ _ Hok1 Ha) as [Hok' Hl']. split; [done|].
  intros sl. eapply later_trans; [|apply Hl'].
  destruct (decide (sl = next_slot m)) as [->|]; [done|]. by apply grows_later, Hg.
Qed.

Lemma replay_advance n snap snap2 p2 b m p b' m' p' : js_ok (p_store p) -> faithful b ->
  (forall sl, m_nextIndex m <= js_activityIndex sl ->
     grows_at (snap !! slotKey sl) (vw env p sl)) ->
  (forall sl, grows_at (vw env p' sl) (snap2 !! slotKey sl)) ->
  advance n snap b (m, p) = (Ret b', (m', p')) ->
  advance n snap2 b (m, p2) = (Ret b', (m', p2)).
Proof.
  revert b m p. induction n as [|n IH]; intros b m p Hok Hb Hsnap Hsnap2; cbn.
  { by intros [= <- <- _]. }
  destruct b as [v|e|r k]; [by intros [= <- <- _] ..|]. destruct Hb as [Herr Hk].
  intros (a & [m1 p1] & Hp & Ha)%r_bind_Ret.
  pose proof (perform_framed host env snap r m p Hok) as Hf. rewrite Hp in Hf.
  destruct Hf as [Hn (Hok1 & Hl & Hg)]. cbn in Hn, Hok1, Hl, Hg.
  destruct (perform_records host env snap r m p a m1 p1) as (e & x & a' & Hv & Hx & Hsame & Hrep).
  { split; [|done]. apply Hsnap. cbn. lia. }
  { done. }
  destruct (advance_later _ _ _ _ _ _ _ _ Hok1 Ha) as [_ Hlater].
  assert (is_pending e = false) as Hpe by (unfold is_pending; by rewrite (proj1 Hx)).
  pose proof (later_completed _ _ e (Hlater _) Hv Hpe) as Hv'.
  pose proof (grows_at_completed _ e _ (Hsnap2 (next_slot m)) Hv' Hpe) as Hs2.
  unfold r_bind. rewrite (Hrep snap2 p2 Hs2).
  assert (k a' = k a) as ->.
  { destruct Hsame as [->|(e' & f & -> & Hf & ->)]; [done|]. symmetry. by apply Herr. }
  apply (IH (k a) m1 p1); try done.
  intros sl Hsl. assert (sl <> next_slot m) as Hne by (intros ->; cbn in Hsl; lia).
  eapply grows_at_trans; [|by apply Hg]. apply Hsnap. lia.
Qed.

(** C1. A run resumes exactly where an earlier one stood. Take any run of a
    body that loaded the journal and had [n] yields answered from, or
    recorded in, the journal before its process died or its run was parked.
    Any later run of that body - in a new process, at any time, with the
    world in any state, after other writers completed further waits - gets
    the same [n] answers without one call to the world, the store or the
    clock, stands at the same point of the body with the same slot counter
    and the same compensation stack, and goes on from there. *)
Theorem resume_exact n b p l s l2 s2 p2 b' m' p' :
  js_ok (p_store p) -> faithful b ->
  js_loadJournal (se_workflowId env) (se_stepName env) (p_store p) = (Ok l, s) ->
  advance n (snapshot l) b (new_memory, with_store s p) = (Ret b', (m', p')) ->
  js_ok (p_store p2) -> grows (vw env p') (vw env p2) ->
  js_loadJournal (se_workflowId env) (se_stepName env) (p_store p2) = (Ok l2, s2) ->
  let q := with_store s2 p2 in
  advance n (snapshot l2) b (new_memory, q) = (Ret b', (m', q)) /\
  drive host env (snapshot l2) b (new_memory, q) = drive host env (snapshot l2) b' (m', q).
Proof.
  intros Hok Hb Hl Ha Hok2 Hgrow Hl2. cbn zeta.
  pose proof (js_load_law (se_workflowId env) (se_stepName env) _ Hok) as H1. rewrite Hl in H1.
  destruct H1 as (Hok1 & _ & Hsnap). destruct (Hsnap l eq_refl) as [Hsnap1 _].
  pose proof (js_load_law (se_workflowId env) (se_stepName env) _ Hok2) as H2. rewrite Hl2 in H2.
  destruct H2 as (_ & Hg2 & Hsnap2). destruct (Hsnap2 l2 eq_refl) as [Hsnap2' _].
  assert (advance n (snapshot l2) b (new_memory, with_store s2 p2) = (Ret b', (m', with_store s2 p2)))
    as Hadv.
  { apply (replay_advance n (snapshot l) (snapshot l2) _ b new_memory (with_store s p) b' m' p');
      [done|done| | |done].
    - intros sl _. rewrite Hsnap1. apply grows_at_refl.
    - intros sl. rewrite Hsnap2'. eapply grows_at_trans; [apply Hgrow|apply Hg2]. }
  split; [exact Hadv|by apply (drive_advance n)].
Qed.

(** ** At most once *)

(** Whether the activity of a slot started since its entry was last
    discarded; the log's newest event comes first. *)
Fixpoint ran_since (log : list event) sl : bool :=
  match log with
  | [] => false
  | ERan s _ :: log => bool_decide (s = sl) || ran_since log sl
  | EDiscard ss :: log => bool_decide (sl ∉ ss) && ran_since log sl
  end.

(** No activity that is not idempotent started on top of an earlier start. *)
Fixpoint at_most_once (log : list event) : Prop :=
  match log with
  | [] => True
  | ERan s false :: log => ran_since log s = false /\ at_most_once log
  | _ :: log => at_most_once log
  end.

(** The slots in [D] have entries; the log is [L]; the counter is past [n]. *)
Definition holds (D : JournalSlot -> Prop) (L : list event) (n : Z) : cfg S W -> Prop :=
  fun c => js_ok (p_store c.2) /\ p_log c.2 = L /\ n <= m_nextIndex c.1 /\
           forall sl, D sl -> vw env c.2 sl <> None.

Lemma present_later o o' : later_at o o' -> o <> None -> o' <> None.
Proof. intros Hl Hn. destruct o as [e|]; [|done]. by destruct (Hl e eq_refl) as [->|(_ & x & ->)]. Qed.

Lemma present_grows v v' sl : grows v v' -> v sl <> None -> v' sl <> None.
Proof. intros Hg. apply present_later, grows_later, Hg. Qed.

(** Quiet computations that log nothing. *)
Definition silent {A} (x : R S W A) : Prop := quiet x /\ forall c, p_log (x c).2.2 = p_log c.2.

Lemma silent_holds {A} (x : R S W A) D L n : silent x -> keeps (holds D L n) x.
Proof.
  intros [Hq Hl] [m p] (Hok & HL & Hn & HD). destruct (Hq (m, p)) as [Hm Hs]. specialize (Hl (m, p)).
  destruct (x (m, p)) as [o [m' p']]. cbn in *. subst m'. split_and!; cbn; [by rewrite Hs|congruence|done|].
  unfold vw. by rewrite Hs.
Qed.

Lemma call_holds {A} (f : S -> res thrown A * S) D L n :
  (forall s, js_ok s -> js_ok (f s).2 /\
     forall sl, js_view (se_workflowId env) (se_stepName env) s sl <> None ->
           js_view (se_workflowId env) (se_stepName env) (f s).2 sl <> None) ->
  keeps (holds D L n) (call_store f).
Proof.
  intros Hf. apply keeps_call_store. intros m p p' (Hok & HL & Hn & HD) Hs _ Hlog.
  destruct (Hf (p_store p) Hok) as [Hok' Hv]. cbn in *. split_and!; cbn; [by rewrite Hs|congruence|done|].
  intros sl Hsl. unfold vw. rewrite Hs. by apply Hv, HD.
Qed.

Lemma pending_holds sl kind name hash wake D L n :
  keeps (holds D L n) (writePending env sl kind name hash wake).
Proof.
  apply call_holds. intros s Hok.
  pose proof (js_pending_law (se_guard env) (se_workflowId env) (se_stepName env) sl name hash kind
                wake s Hok) as Hl.
  destruct (js_appendPendingEntry _ _ _ _ _ _ _ _ s) as [r s']. cbn. destruct Hl as [Hok' Hs].
  split; [done|]. apply served_pending in Hs as [Hl Hg]. intros sl' Hn.
  destruct (decide (sl' = sl)) as [->|]; [by eapply present_later|].
  eapply present_later; [|exact Hn]. by apply grows_later, Hg.
Qed.

Lemma complete_holds sl x D L n : keeps (holds D L n) (complete env sl x).
Proof.
  apply keeps_bind; [|intros; apply keeps_ret]. apply call_holds. intros s Hok.
  pose proof (js_complete_law (se_guard env) (se_workflowId env) (se_stepName env) sl x s Hok) as Hl.
  destruct (js_completePendingEntry _ _ _ _ _ s) as [r s']. cbn. destruct Hl as [Hok' Hs].
  split; [done|]. apply served_complete in Hs as (Hl & _ & Hg). intros sl' Hn.
  destruct (decide (sl' = sl)) as [->|]; [by eapply present_later|].
  eapply present_later; [|exact Hn]. by apply grows_later, Hg.
Qed.

Lemma suspend_holds u reason message D L n :
  keeps (holds D L n) (suspend host env u reason message).
Proof.
  apply keeps_bind; [|intros; apply keeps_throw]. destruct (se_workflowStorage env); [|apply keeps_ret].
  apply call_holds. intros s Hok.
  pose proof (js_suspend_law (se_guard env) (se_workflowId env) (se_stepName env) u s Hok) as Hl.
  destruct (js_suspendWorkflow _ _ _ _ s) as [r s']. cbn. destruct Hl as [Hok' Hg].
  split; [done|]. intros sl. by apply present_grows.
Qed.

Lemma load_holds D L n : keeps (holds D L n)
  (call_store (W := W) (js_loadJournal (se_workflowId env) (se_stepName env))).
Proof.
  apply call_holds. intros s Hok.
  pose proof (js_load_law (se_workflowId env) (se_stepName env) s Hok) as Hl.
  destruct (js_loadJournal _ _ s) as [r s']. cbn. destruct Hl as (Hok' & Hg & _).
  split; [done|]. intros sl. by apply present_grows.
Qed.

Lemma register_holds i name comp D L n : keeps (holds D L n) (register (S := S) i name comp).
Proof. intros [m p] (Hok & HL & Hn & HD). split_and!; cbn in *; try done. lia. Qed.

Lemma silent_now : silent (currentTimeMs host).
Proof. split; [apply quiet_now|by intros [m p]]. Qed.

Lemma silent_timer : silent await_timer.
Proof. split; [apply quiet_timer|]. intros [m p]. unfold await_timer, effect. by destruct (p_budget p). Qed.

Lemma silent_call_world {A} (f : W -> res thrown A * W) : silent (call_world f).
Proof.
  split; [apply quiet_call_world|]. intros [m p]. unfold call_world, effect.
  destruct (p_budget p); [done|]. cbn. by destruct (f (p_world p)).
Qed.

Lemma settle_holds slot name codec comp x D L n :
  keeps (holds D L n) (settle host slot name codec comp x).
Proof.
  destruct x as [v|f]; cbn; [|apply keeps_ret]. apply keeps_bind; [apply keeps_lift|].
  intros value. destruct comp as [c|]; [|apply keeps_ret].
  apply keeps_bind; [apply register_holds|intros; apply keeps_ret].
Qed.

#[local] Hint Resolve pending_holds complete_holds suspend_holds load_holds settle_holds : keeps.
#[local] Hint Extern 2 (keeps (holds _ _ _) (currentTimeMs _)) =>
  apply silent_holds, silent_now : keeps.
#[local] Hint Extern 2 (keeps (holds _ _ _) (call_world _)) =>
  apply silent_holds, silent_call_world : keeps.
#[local] Hint Extern 2 (keeps (holds _ _ _) await_timer) => apply silent_holds, silent_timer : keeps.

Lemma deadline_holds w D L n : keeps (holds D L n) (deadline host w).
Proof. destruct w; cbn; keep. Qed.

Lemma outcomeOf_holds slot name t x D L n : keeps (holds D L n) (outcomeOf host env slot name t x).
Proof. destruct x; cbn; keep. Qed.
#[local] Hint Resolve deadline_holds outcomeOf_holds : keeps.

(** The activity's run, once its event is logged. *)
Lemma attempts_holds fn (options : ActivityOptions W) D L n :
  keeps (holds D L n)
    (match ao_retry options with
     | Some policy => runWithRetry (clock_reading host) (random_reading host) (fun _ => await_timer)
                        (call_world fn) policy
     | None => call_world fn
     end : R S W json).
Proof.
  destruct (ao_retry options); [|keep]. unfold runWithRetry, retryAsync.
  apply attempt_keeps; [intros _; keep|..|keep]; intros c Hc; by destruct c.
Qed.
#[local] Hint Resolve attempts_holds : keeps.

(** From [I] to [J], however the computation ends. *)
Definition leads {A} (I J : cfg S W -> Prop) (x : R S W A) : Prop := forall c, I c -> J (x c).2.

Lemma leads_bind {A B} I J (x : R S W A) (k : A -> R S W B) :
  leads I J x -> (forall a, keeps J (k a)) -> leads I J (r_bind x k).
Proof.
  intros Hx Hk c Hc. unfold r_bind. pose proof (Hx c Hc) as H1.
  destruct (x c) as [[a|e|] c1]; [by apply Hk|done|done].
Qed.

Lemma r_bind_cases {A B} (x : R S W A) (k : A -> R S W B) c :
  (exists a c1, x c = (Ret a, c1) /\ r_bind x k c = k a c1) \/ (r_bind x k c).2 = (x c).2.
Proof. unfold r_bind. destruct (x c) as [[a|e|] c1]; [left; eauto|by right..]. Qed.

Lemma leads_catch {A} I J (x : R S W A) : leads I J x -> leads I J (r_catch x).
Proof. intros Hx c Hc. unfold r_catch. pose proof (Hx c Hc). by destruct (x c) as [[] ?]. Qed.

(** What a run of the activity leaves: nothing logged, or the start logged
    on top of the slot's entry. *)
Lemma recordOutcome_starts sl name hash fn options encode D L n c : holds D L n c ->
  let c' := (recordOutcome host env sl StActivity name hash (run_activity host sl fn options) encode c).2 in
  holds D L n c' \/
  holds (fun x => D x \/ x = sl) (ERan sl (ao_idempotent options) :: L) n c'.
Proof.
  destruct c as [m p]. intros Hc. cbn zeta. unfold recordOutcome.
  pose proof (pending_holds sl StActivity name hash None D L n (m, p) Hc) as Hw.
  match goal with |- context [r_bind ?x ?k (m, p)] =>
    destruct (r_bind_cases x k (m, p)) as [(u & [m1 p1] & Ew & ->)| ->] end; [|by left].
  rewrite Ew in Hw. right.
  apply (writePending_Ret) in Ew as (-> & Hok1 & e0 & Hv1 & _); [|apply Hc].
  set (L' := ERan sl (ao_idempotent options) :: L). set (D' := fun x => D x \/ x = sl).
  assert (holds D' L n (m, p1)) as Hc1.
  { destruct Hw as (Hok & HL & Hn & HD). split_and!; try done. intros x [Hx| ->]; [by apply HD|].
    cbn. by rewrite Hv1. }
  revert Hc1. generalize (m, p1). apply leads_bind; [|intros; keep].
  apply leads_catch. unfold run_activity. apply leads_bind; [|intros; apply attempts_holds].
  intros [m2 p2] (Hok & HL & Hn & HD). cbn in *. split_and!; try done. cbn. by rewrite HL.
Qed.

(** The whole yield. An activity starts only when its slot was free when
    the run loaded the journal, or when it is idempotent. *)
Lemma perform_starts snap r m p D L : holds D L (m_nextIndex m) (m, p) ->
  let c' := (perform host env snap r (m, p)).2 in
  holds D L (m_nextIndex m + 1) c' \/
  exists idem, (idem = true \/ snap !! slotKey (next_slot m) = None) /\
    holds (fun x => D x \/ x = next_slot m) (ERan (next_slot m) idem :: L) (m_nextIndex m + 1) c'.
Proof.
  intros Hc. cbn zeta. set (n := m_nextIndex m + 1).
  assert (holds D L n (bumped m, p)) as Hb.
  { destruct Hc as (Hok & HL & _ & HD). by split_and!. }
  assert (forall A (k : JournalSlot -> R S W A), keeps (holds D L n) (k (next_slot m)) ->
    holds D L n (r_bind allocateSlot k (m, p)).2) as Halloc by (intros A k Hk; by apply (Hk (bumped m, p))).
  destruct r as [name input fn options|duration|name timeout schema]; [|left; apply Halloc; keep..].
  - cbn [perform]. unfold activity.
    match goal with |- context [r_bind allocateSlot ?k (m, p)] =>
      change (r_bind allocateSlot k (m, p)) with (k (next_slot m) (bumped m, p)) end.
    cbn beta zeta. match goal with |- context [(if ?b then r_throw _ else _) _] => destruct b end; [by left|].
    match goal with |- context [recordOutcome host env ?sl StActivity ?nm ?hash ?run ?enc] =>
      set (fresh := r_bind (recordOutcome host env sl StActivity nm hash run enc) _) end.
    assert (holds D L n (fresh (bumped m, p)).2 \/
      holds (fun x => D x \/ x = next_slot m) (ERan (next_slot m) (ao_idempotent options) :: L) n
        (fresh (bumped m, p)).2) as Hfresh.
    { subst fresh. match goal with |- context [r_bind (recordOutcome host env ?sl StActivity ?nm ?hash ?run ?enc) ?k] =>
        pose proof (recordOutcome_starts sl nm hash fn options enc D L n (bumped m, p) Hb) as Hr;
        assert (forall D L out, keeps (holds D L n) (k out)) as Hk by (intros; keep) end.
      match goal with |- context [r_bind ?x ?k (bumped m, p)] =>
        destruct (r_bind_cases x k (bumped m, p)) as [(out & c1 & Eo & ->)| ->] end; [|done].
      rewrite Eo in Hr. destruct Hr as [Hr|Hr]; [left|right]; by apply Hk. }
    destruct (expectRecorded env snap (next_slot m) KActivity name) as [found|err] eqn:Ee; [|by left].
    apply expectRecorded_Ok in Ee as [Hfound _].
    match goal with |- context [r_bind (r_lift (Ok found)) ?k] =>
      change (r_bind (r_lift (Ok found)) k) with (k found) end. cbn beta.
    destruct found as [e|].
    + match goal with |- context [if ?b then r_throw _ else _] => destruct b end; [by left|].
      destruct (opt_or (je_phase e) PhCompleted).
      * destruct (ao_idempotent options) eqn:Ei; [|by left].
        destruct Hfresh as [Hf|Hf]; [by left|right]. exists true. split; [by left|done].
      * left. destruct (je_exit e); [|done]. by apply settle_holds.
    + destruct Hfresh as [Hf|Hf]; [by left|right]. exists (ao_idempotent options).
      split; [by right|done].
Qed.

(** *** The invariant of the log *)
Definition log_ok p : Prop :=
  js_ok (p_store p) /\ at_most_once (p_log p) /\
  forall sl, ran_since (p_log p) sl = true -> vw env p sl <> None.

(** While a body is driven: the starts of slots not yet reached are in the
    snapshot. *)
Definition driving (snap : entries_map) : cfg S W -> Prop := fun c =>
  log_ok c.2 /\
  forall sl, m_nextIndex c.1 <= js_activityIndex sl -> ran_since (p_log c.2) sl = true ->
        snap !! slotKey sl <> None.

Lemma holds_log_ok L n c : holds (fun sl => ran_since L sl = true) L n c -> at_most_once L -> log_ok c.2.
Proof. intros (Hok & HL & _ & HD) Ha. split_and!; [done|by rewrite HL|]. rewrite HL. exact HD. Qed.

Lemma log_ok_holds m p : log_ok p ->
  holds (fun sl => ran_since (p_log p) sl = true) (p_log p) (m_nextIndex m) (m, p).
Proof. intros (Hok & _ & HD). by split_and!. Qed.

Lemma perform_driving snap r : keeps (driving snap) (perform host env snap r).
Proof.
  intros [m p] [Hlog Hsnap]. cbn in Hsnap.
  destruct (perform_starts snap r m p _ _ (log_ok_holds m p Hlog)) as [Hh|(idem & Hidem & Hh)].
  - pose proof Hh as (_ & HL & Hn & _). split; [apply (holds_log_ok _ _ _ Hh); apply Hlog|].
    rewrite HL. intros sl Hsl. apply Hsnap. lia.
  - set (c' := (perform host env snap r (m, p)).2) in *. pose proof Hh as (Hok & HL & Hn & HD).
    assert (forall sl, m_nextIndex m < js_activityIndex sl ->
      ran_since (p_log c'.2) sl = true -> ran_since (p_log p) sl = true) as Hother.
    { intros sl Hsl. rewrite HL. cbn [ran_since]. rewrite bool_decide_false; [done|].
      intros <-. cbn in Hsl. lia. }
    split; [split_and!|].
    + done.
    + rewrite HL. cbn. destruct idem; [apply Hlog|]. split; [|apply Hlog].
      destruct Hidem as [?|Hnone]; [done|].
      destruct (ran_since (p_log p) (next_slot m)) eqn:E; [|done].
      by destruct (Hsnap (next_slot m) ltac:(cbn; lia) E).
    + intros sl. rewrite HL. cbn [ran_since]. rewrite orb_true_iff, bool_decide_eq_true.
      intros [<-|Hsl]; apply HD; auto.
    + intros sl Hsl Hr. apply Hsnap; [lia|]. apply Hother; [lia|done].
Qed.

Lemma drive_driving snap b : keeps (driving snap) (drive host env snap b).
Proof.
  induction b as [v|e|r k IH]; intros c Hc; [done|done|]. cbn.
  pose proof (perform_driving snap r c Hc) as H1.
  destruct (perform host env snap r c) as [[a|e|] c1]; [by apply IH|by apply IH|done].
Qed.

(** Computations that log nothing keep the log's invariant. *)
Lemma keeps_log_ok {A} (x : R S W A) :
  (forall D L n, keeps (holds D L n) x) -> keeps (fun c => log_ok c.2) x.
Proof.
  intros Hx [m p] Hc. pose proof (Hx _ _ _ (m, p) (log_ok_holds m p Hc)) as Hh.
  apply (holds_log_ok _ _ _ Hh), Hc.
Qed.

Lemma unwind_one_holds snap comp D L n : keeps (holds D L n) (unwind_one host env snap comp).
Proof. unfold unwind_one. cbn zeta. keep. Qed.

Lemma unwind_all_holds snap comps D L n : keeps (holds D L n) (unwind_all host env snap comps).
Proof.
  induction comps as [|comp comps IH]; cbn; [apply keeps_ret|].
  apply keeps_bind; [apply unwind_one_holds|]. intros a. keep.
Qed.

Lemma discard_log_ok (slots : list JournalSlot) :
  leads (fun c : cfg S W => log_ok c.2) (fun c => log_ok c.2)
    (do! note (EDiscard slots) in
     call_store (js_discardJournalEntries (se_guard env) (se_workflowId env) (se_stepName env) slots)).
Proof.
  set (J := fun c : cfg S W => js_ok (p_store c.2) /\ at_most_once (p_log c.2) /\
    forall sl, ran_since (p_log c.2) sl = true -> (sl ∉ slots) /\ vw env c.2 sl <> None).
  assert (leads J (fun c => log_ok c.2) (call_store (W := W)
    (js_discardJournalEntries (se_guard env) (se_workflowId env) (se_stepName env) slots))) as Hcall.
  { intros [m p] (Hok & Ha & HD). unfold call_store, effect.
    destruct (p_budget p); [by split_and!; try done; intros sl Hsl; apply HD|]. cbn.
    pose proof (js_discard_law (se_guard env) (se_workflowId env) (se_stepName env) slots (p_store p) Hok)
      as Hl.
    destruct (js_discardJournalEntries _ _ _ _ (p_store p)) as [r s']. cbn.
    destruct Hl as (Hok' & v1 & Hg & Hs). split_and!; [done|done|]. intros sl Hsl.
    destruct (HD sl Hsl) as [Hni Hv]. apply (present_grows _ _ _ Hg) in Hv.
    assert (js_view (se_workflowId env) (se_stepName env) s' sl = v1 sl) as E; [|unfold vw; cbn; by rewrite E].
    destruct r; [destruct Hs as [Hs _]|destruct Hs as [Hs|Hs]]; rewrite Hs; by rewrite ?decide_False. }
  intros [m p] (Hok & Ha & HD).
  apply (Hcall (m, with_log (EDiscard slots :: p_log p) p)). split_and!; try done.
  cbn. intros sl. rewrite andb_true_iff, bool_decide_eq_true. intros [Hni Hr]. split; [done|].
  by apply HD.
Qed.

Lemma rollback_log_ok snap : keeps (fun c : cfg S W => log_ok c.2) (rollback host env snap).
Proof.
  apply keeps_bind.
  - apply keeps_bind; [apply keeps_log_ok; intros D L n c Hc; by destruct c|]. intros m.
    apply keeps_log_ok. intros. apply unwind_all_holds.
  - intros rolledBack. apply keeps_bind; [|intros; apply keeps_ret]. apply keeps_catch.
    apply keeps_bind; [apply keeps_log_ok; intros; apply load_holds|]. intros journal.
    destruct (slots_to_discard journal rolledBack) as [|sl sls]; [apply keeps_ret|].
    apply discard_log_ok.
Qed.

Lemma run_log_ok b p : log_ok p -> log_ok (start host env b p).2.
Proof.
  intros Hp. unfold start.
  assert (log_ok (runJournaledStep host env b (new_memory, p)).2.2) as H1;
    [|by destruct (runJournaledStep host env b (new_memory, p)) as [o [m p']]].
  unfold runJournaledStep.
  match goal with |- context [r_bind ?x ?k (new_memory, p)] =>
    destruct (r_bind_cases x k (new_memory, p)) as [(l & [m1 p1] & El & ->)| ->] end.
  2:{ apply (keeps_log_ok _ (fun D L n => load_holds D L n) (new_memory, p)), Hp. }
  pose proof (keeps_log_ok _ (fun D L n => load_holds D L n) (new_memory, p) Hp) as Hp1.
  rewrite El in Hp1. apply call_store_Ret in El as (-> & s & Hload & Hs1).
  pose proof (js_load_law (se_workflowId env) (se_stepName env) _ (proj1 Hp)) as Hl.
  rewrite Hload in Hl. destruct Hl as (_ & _ & Hsnap). destruct (Hsnap l eq_refl) as [Hsnap' _].
  assert (driving (snapshot l) (new_memory, p1)) as Hd.
  { split; [done|]. intros sl _ Hr. rewrite Hsnap'. destruct Hp1 as (_ & _ & HD).
    specialize (HD sl Hr). unfold vw in HD. cbn in HD. by rewrite Hs1 in HD. }
  apply (leads_bind (driving (snapshot l)) (fun c => log_ok c.2)); [| |done].
  - apply leads_catch. intros c Hc. by apply (drive_driving (snapshot l) b c Hc).
  - intros [v|e]; [apply keeps_ret|]. apply keeps_bind; [|intros; apply keeps_throw].
    destruct (runsCompensations e); [apply rollback_log_ok|apply keeps_ret].
Qed.

(** C4. An activity that is not marked idempotent starts at most once:
    however often a step is run, by processes that die at any point, over
    bodies that may change from run to run, with other writers completing
    waits and with storage calls failing (also after they wrote), such an
    activity never starts in a slot in which an activity started before,
    unless the engine discarded that slot's entry in between, as it does
    for failures and for what was rolled back. *)
Theorem at_most_once_runs (runs : list (attempt_run (W := W))) p :
  js_ok (p_store p) -> p_log p = [] -> at_most_once (p_log (run_attempts host env runs p)).
Proof.
  intros Hok Hlog. assert (log_ok p) as Hp by (split; [done|]; by rewrite Hlog).
  clear Hok Hlog. revert p Hp. induction runs as [|[[b budget] moved] runs IH]; intros p Hp; cbn.
  - apply Hp.
  - apply IH, run_log_ok. exact Hp.
Qed.
End resume.

(** ** A run on the in-memory storage

    The body charges a card and ships an order; the world is the list of
    what was done to it. *)
#[local] Instance sample_store : JournalStore ClockedStorage := memory_journal_store string_cmp.
#[local] Instance sample_laws : JournalStoreLaws ClockedStorage := memory_journal_laws string_cmp.

Definition plain_codec : Codec := mkCodec (fun v => Ok v) (fun v => Ok v).

Definition sample_host : Host :=
  mkHost sample_encode sample_decode str_of_Z sample_tagged (fun _ => "hash")
    (fun n => 100 * Z.of_nat n) (fun _ => (1 # 2)%Q) JNull.

Definition sample_env : StepEnv := mkStepEnv "w" "s" None false plain_codec None.

Definition done_to (what : string) (v : json) (w : list string) : res thrown json * list string :=
  (Ok v, w ++ [what]).

Definition ship_then (v : json) : body (list string) :=
  BYield (RActivity "ship" None (done_to "ship" (JStr "sent")) no_options)
    (fun r => match r with Ok _ => BReturn v | Err _ => BThrow (TValue (JStr "not shipped")) end).

Definition order : body (list string) :=
  BYield (RActivity "charge" None (done_to "charge" (JNum 5)) no_options)
    (fun r => match r with Ok v => ship_then v | Err _ => BThrow (TValue (JStr "not charged")) end).

Definition sample_process (budget : nat) : process ClockedStorage (list string) :=
  mkProcess (mkClocked (new_storage None "i") (fun n => Z.of_nat n) 0) [] budget 0 0 [].

Lemma sample_process_ok budget : js_ok (p_store (sample_process budget)).
Proof. split; [apply journal_ok_new|done]. Qed.

Lemma order_faithful : faithful sample_host order.
Proof. split; [done|]. intros [v|e]; [|done]. split; [done|]. by intros [v'|e]. Qed.

(** The process dies after the charge; the second run ships only. *)
Example order_resumes :
  let p1 := (start sample_host sample_env order (sample_process 4)).2 in
  let '(o, p2) := start sample_host sample_env order (with_budget 9 p1) in
  p_world p1 = ["charge"] /\ o = Ret (JNum 5) /\ p_world p2 = ["charge"; "ship"].
Proof. vm_compute. repeat split. Qed.

(** The process dies between the charge and its record: the next run halts
    without charging again. *)
Example charge_halts :
  let charge := BYield (RActivity "charge" None (done_to "charge" (JNum 5)) no_options)
                  (fun r => match r with Ok v => BReturn v | Err e => BThrow e end) in
  let p1 := (start sample_host sample_env charge (sample_process 3)).2 in
  let '(o, p2) := start sample_host sample_env charge (with_budget 9 p1) in
  p_world p2 = ["charge"] /\
  match o with Throws e => errorTag e = Some "AmbiguousActivityOutcome" | _ => False end.
Proof. vm_compute. repeat split. Qed.

Lemma resume_exact_witness :
  let load := js_loadJournal "w" "s" in
  let p := sample_process 4 in
  let run1 := advance sample_host sample_env 1 (snapshot []) order
                (new_memory, with_store (load (p_store p)).2 p) in
  let p2 := with_world ["charge"; "refund"] (with_budget 2 run1.2.2) in
  let q := with_store (load (p_store p2)).2 p2 in
  let l2 := match (load (p_store p2)).1 with Ok l => l | Err _ => [] end in
  run1.1 = Ret (ship_then (JNum 5)) /\
  drive sample_host sample_env (snapshot l2) order (new_memory, q) =
    drive sample_host sample_env (snapshot l2) (ship_then (JNum 5)) (run1.2.1, q).
Proof.
  intros load p run1 p2 q l2. split; [vm_compute; reflexivity|].
  refine (proj2 (resume_exact sample_host sample_env 1 order p [] (load (p_store p)).2 l2
    (load (p_store p2)).2 p2 (ship_then (JNum 5)) run1.2.1 run1.2.2 _ _ _ _ _ _ _)).
  - apply sample_process_ok.
  - apply order_faithful.
  - vm_compute. reflexivity.
  - vm_compute. reflexivity.
  - apply (advance_later sample_host sample_env 1 (snapshot []) order new_memory
             (with_store (load (p_store p)).2 p) (ship_then (JNum 5)) run1.2.1 run1.2.2);
      [apply (sample_process_ok 4)|vm_compute; reflexivity].
  - intros sl. left. reflexivity.
  - vm_compute. reflexivity.
Defined.

Lemma at_most_once_runs_witness :
  let runs := [(order, 3%nat, fun w => w); (order, 9%nat, fun w => w ++ ["refund"])] in
  let p := run_attempts sample_host sample_env runs (sample_process 0) in
  p_log p = [ERan (mkSlot 0 "") false] /\ at_most_once (p_log p).
Proof.
  intros runs p. split; [vm_compute; reflexivity|].
  apply (at_most_once_runs sample_host sample_env runs (sample_process 0));
    [apply sample_process_ok|reflexivity].
Defined.
