(* ===== verification/Rollback.v ===== *)
(** The end of a step attempt: the compensation unwind and the discard of
    what the next attempt must re-execute ([durable/compensation-stack.ts],
    the [catch] of [runJournaledStep]). *)
From Stdlib Require Import QArith.
From S2P Require Import Prelude Leases Json Journal Storage Dates Exits Retry JournalStore Replay ReplayLemmas Resume.
Open Scope string_scope.
Open Scope list_scope.
Open Scope Z_scope.

Section rollback.
Context {S W : Type} `{JournalStoreLaws S}.
Context (host : Host) (env : StepEnv).
Implicit Types (m : memory W) (p : process S W) (c : cfg S W) (sl : JournalSlot).

(** ** The unwind *)

(** The world after the callbacks of [comps], in that order. *)
Definition compensated (comps : list (Compensation W)) (w : W) : W :=
  foldl (fun w comp => (co_run comp w).2) w comps.

Lemma call_store_world {A} (f : S -> res thrown A * S) c :
  p_world (call_store f c).2.2 = p_world c.2.
Proof.
  destruct c as [m p]. unfold call_store, effect. destruct (p_budget p); [done|]. cbn.
  by destruct (f (p_store p)).
Qed.

Lemma complete_world sl x c : p_world (complete env sl x c).2.2 = p_world c.2.
Proof.
  unfold complete, r_bind.
  match goal with |- context [call_store ?f c] => pose proof (call_store_world f c) as Hw;
    destruct (call_store f c) as [[] c1] end; done.
Qed.

Lemma catch_world {A} (x : R S W A) c :
  (forall c, p_world (x c).2.2 = p_world c.2) -> p_world (r_catch x c).2.2 = p_world c.2.
Proof. intros Hx. specialize (Hx c). unfold r_catch. by destruct (x c) as [[] ?]. Qed.

(** One compensation with no row yet is marked when its callback ran and
    succeeded, and was recorded; it is not marked otherwise. *)
Lemma unwind_one_mark snap comp m p l m' p' :
  snap !! slotKey (comp_slot (co_activityIndex comp)) = None ->
  unwind_one host env snap comp (m, p) = (Ret l, (m', p')) ->
  l = [] \/ (l = mark comp /\ (co_run comp (p_world p)).1 = Ok tt /\
             p_world p' = (co_run comp (p_world p)).2).
Proof.
  intros Hsnap. unfold unwind_one. cbn zeta. unfold cursor_recorded. rewrite Hsnap.
  intros (w & c1 & Hw & Hr)%r_bind_Ret.
  assert (p_world c1.2 = p_world p) as Hw1.
  { pose proof (catch_world (writePending env (comp_slot (co_activityIndex comp)) StCompensation
      ("compensation:" +:+ co_activityName comp) None None) (m, p) (call_store_world _)) as Hcw.
    by rewrite Hw in Hcw. }
  destruct w as [u|e]; [|injection Hr as <- _; by left].
  apply r_bind_Ret in Hr as (r & [m2 p2] & Hcall & Hr).
  assert (match r with Ok _ => (co_run comp (p_world p)).1 = Ok tt /\
            p_world p2 = (co_run comp (p_world p)).2 | Err _ => True end) as Hrun.
  { destruct c1 as [m1 p1]. cbn in Hw1. unfold r_catch, call_world, effect in Hcall.
    destruct (p_budget p1); [done|]. cbn in Hcall. rewrite Hw1 in Hcall.
    destruct (co_run comp (p_world p)) as [[[]|e] w']; cbn in Hcall; injection Hcall as <- _ <-; done. }
  apply r_bind_Ret in Hr as (exit & c3 & Hexit & Hr).
  apply r_bind_Ret in Hr as (st & [m4 p4] & Hc & Hr). injection Hr as <- <- <-.
  destruct r as [u'|e].
  - injection Hexit as <- <-. destruct Hrun as [Hok Hp2]. destruct st as [b|e]; [right|by left].
    split_and!; [done|done|]. rewrite <- Hp2.
    pose proof (catch_world _ (m2, p2)
      (complete_world (comp_slot (co_activityIndex comp)) (ExSuccess JNull))) as Hcw.
    by rewrite Hc in Hcw.
  - apply r_lift_Ret in Hexit as [Hx ->]. unfold failure_exit in Hx.
    destruct (failureExit _ _ e); [|done]. injection Hx as <-. left. by destruct st.
Qed.

Lemma unwind_all_marks snap comps m p l m' p' :
  (forall comp, comp ∈ comps -> snap !! slotKey (comp_slot (co_activityIndex comp)) = None) ->
  unwind_all host env snap comps (m, p) = (Ret l, (m', p')) ->
  exists ran, sublist ran comps /\ l = flat_map mark ran /\
    (ran = comps -> p_world p' = compensated comps (p_world p)).
Proof.
  revert m p l. induction comps as [|comp comps IH]; intros m p l Hsnap; cbn [unwind_all].
  { intros [= <- _ <-]. by exists []. }
  intros (a & [m1 p1] & Ha & Hr)%r_bind_Ret.
  apply r_bind_Ret in Hr as (b & [m2 p2] & Hb & Hr). injection Hr as <- <- <-.
  apply unwind_one_mark in Ha; [|by apply Hsnap; left].
  destruct (IH m1 p1 b) as (ran & Hsub & -> & Hworld); [by intros; apply Hsnap; right|done|].
  destruct Ha as [->|(-> & _ & Hw)].
  - exists ran. split_and!; [by constructor|done|]. intros ->. apply sublist_length in Hsub.
    cbn in Hsub. lia.
  - exists (comp :: ran). split_and!; [by constructor|done|]. intros [= ->].
    rewrite Hworld by done. by rewrite Hw.
Qed.

(** The unwind writes the compensations' own rows only. *)
Definition row_of (comps : list (Compensation W)) sl : Prop :=
  exists comp, comp ∈ comps /\ sl = comp_slot (co_activityIndex comp).

Definition spares (comps : list (Compensation W)) m0 p0 : cfg S W -> Prop := fun c =>
  c.1 = m0 /\ js_ok (p_store c.2) /\
  forall sl, ~ row_of comps sl -> grows_at (vw env p0 sl) (vw env c.2 sl).

Lemma inside_spares {A} (x : R S W A) comp comps m0 p0 : comp ∈ comps ->
  (forall m1 p1, keeps (inside env (comp_slot (co_activityIndex comp)) m1 p1) x) ->
  keeps (spares comps m0 p0) x.
Proof.
  intros Hin Hx [m p] (Hm & Hok & Hg). cbn in *.
  destruct (Hx m p (m, p)) as (Hm' & Hok' & _ & Hg'); [split; [done|by apply framed_refl]|].
  split_and!; [congruence|done|]. intros sl Hn. eapply grows_at_trans; [by apply Hg|].
  apply Hg'. intros ->. destruct Hn. by exists comp.
Qed.

Lemma unwind_one_spares snap comp comps m0 p0 : comp ∈ comps ->
  keeps (spares comps m0 p0) (unwind_one host env snap comp).
Proof.
  intros Hin. apply (inside_spares _ comp); [done|]. intros m1 p1. unfold unwind_one. cbn zeta.
  pose proof (quiet_inside env _ (comp_slot (co_activityIndex comp)) m1 p1
    (quiet_call_world (S := S) (co_run comp))) as Hcall.
  keep; auto using writePending_inside, complete_inside.
Qed.

Lemma unwind_all_spares snap comps cs m0 p0 : (forall comp, comp ∈ cs -> comp ∈ comps) ->
  keeps (spares comps m0 p0) (unwind_all host env snap cs).
Proof.
  induction cs as [|comp cs IH]; intros Hin; cbn; [apply keeps_ret|].
  apply keeps_bind; [by apply unwind_one_spares, Hin; left|]. intros a.
  apply keeps_bind; [|intros; apply keeps_ret]. apply IH. intros c Hc. apply Hin. by right.
Qed.

(** ** The discard *)
Lemma failed_grows o o' : grows_at o o' ->
  from_option is_failed_attempt false o' = from_option is_failed_attempt false o.
Proof.
  intros [->|(e & x & -> & Hp & Hx & ->)]; [done|]. cbn [from_option]. unfold is_failed_attempt.
  cbn [completed_with je_stepType je_phase je_exit]. unfold foreign_exit in Hx.
  destruct (je_stepType e) as [[]|]; try done; by rewrite bool_decide_false by by apply (bool_decide_unpack _).
Qed.

Lemma add_slots_lookup l (m : jmap string JournalSlot) sl :
  foldl (fun acc x => <[slotKey x := x]> acc) m l !! slotKey sl =
    if decide (sl ∈ l) then Some sl else m !! slotKey sl.
Proof.
  revert m. induction l as [|x l IH]; intros m; cbn [foldl]; [done|].
  rewrite IH, jlookup_insert. destruct (decide (sl ∈ l)) as [Hl|Hl].
  - rewrite decide_True; [done|by right].
  - destruct (decide (slotKey x = slotKey sl)) as [Hx|Hx].
    + apply slotKey_inj in Hx as ->. rewrite decide_True; [done|left].
    + rewrite decide_False; [done|]. intros [->|?]%elem_of_cons; done.
Qed.

Lemma add_slots_wf l (m : jmap string JournalSlot) :
  jm_wf m -> jm_wf (foldl (fun acc x => <[slotKey x := x]> acc) m l).
Proof. revert m. induction l as [|x l IH]; intros m Hm; cbn; [done|]. by apply IH, jm_wf_insert. Qed.

Lemma add_slots_keyed l (m : jmap string JournalSlot) k v :
  (forall k v, m !! k = Some v -> k = slotKey v) ->
  foldl (fun acc x => <[slotKey x := x]> acc) m l !! k = Some v -> k = slotKey v.
Proof.
  revert m. induction l as [|x l IH]; intros m Hm; cbn; [apply Hm|]. apply IH.
  intros k' v'. rewrite jlookup_insert. case_decide; [by intros [= <-]|apply Hm].
Qed.

Lemma slots_to_discard_elem journal rolledBack sl :
  sl ∈ slots_to_discard journal rolledBack <->
  (exists e, e ∈ journal /\ is_failed_attempt e = true /\ entry_slot e = sl) \/ sl ∈ rolledBack.
Proof.
  unfold slots_to_discard. set (l := _ ++ rolledBack).
  assert (sl ∈ l <-> (exists e, e ∈ journal /\ is_failed_attempt e = true /\ entry_slot e = sl) \/
    sl ∈ rolledBack) as Hl.
  { subst l. rewrite elem_of_app, list_elem_of_fmap. split.
    - intros [(e & -> & [He Hin]%list_elem_of_filter)|?]; [left|by right]. exists e.
      split_and!; try done. by destruct (is_failed_attempt e).
    - intros [(e & Hin & He & <-)|?]; [left|by right]. exists e. split; [done|].
      apply list_elem_of_filter. by rewrite He. }
  rewrite <- Hl, jm_values_elem.
  set (m' := foldl _ _ l).
  assert (jm_wf m') as Hwf by apply add_slots_wf, jm_wf_empty.
  split.
  - intros [k Hk]. apply (jlookup_wf_elem _ _ _ Hwf) in Hk.
    pose proof Hk as Hkey. apply add_slots_keyed in Hkey; [|intros k' v' Hkv; by rewrite jlookup_empty in Hkv].
    subst k.
    unfold m' in Hk. rewrite add_slots_lookup in Hk. by case_decide.
  - intros Hin. exists (slotKey sl). apply jlookup_elem. unfold m'. rewrite add_slots_lookup.
    by rewrite decide_True.
Qed.

Lemma snapshot_elem l k e : snapshot l !! k = Some e -> e ∈ l.
Proof.
  unfold snapshot. assert (forall (m : jmap string JournalEntry),
    foldl (fun acc e => <[slotKey (entry_slot e) := e]> acc) m l !! k = Some e ->
    e ∈ l \/ m !! k = Some e) as Hf.
  { induction l as [|x l IH]; intros m; cbn; [by right|]. intros [?|Hm]%IH; [left; by right|].
    rewrite jlookup_insert in Hm. case_decide; [injection Hm as ->; left; left|by right]. }
  intros [?|?]%Hf; done.
Qed.

(** A store that serves the discard's two calls. *)
Definition serves_discard : Prop :=
  forall s, js_ok s ->
    (exists l s', js_loadJournal (se_workflowId env) (se_stepName env) s = (Ok l, s')) /\
    forall sls, exists s', js_discardJournalEntries (se_guard env) (se_workflowId env) (se_stepName env)
                        sls s = (Ok tt, s').

(** What one discard leaves of a slot: nothing if the slot was rolled back
    or holds a recorded failure, the entry otherwise. *)
Lemma discard_exact rolledBack m p :
  js_ok (p_store p) -> serves_discard -> (2 <= p_budget p)%nat ->
  exists p', discardFailedAttempt env rolledBack (m, p) = (Ret tt, (m, p')) /\ js_ok (p_store p') /\
    p_world p' = p_world p /\
    forall sl, grows_at (if decide (sl ∈ rolledBack) then None
                    else if from_option is_failed_attempt false (vw env p sl) then None
                    else vw env p sl) (vw env p' sl).
Proof.
  intros Hok Hserves Hbudget. destruct (Hserves _ Hok) as [(l & s1 & Hload) _].
  pose proof (js_load_law (se_workflowId env) (se_stepName env) _ Hok) as Hl. rewrite Hload in Hl.
  destruct Hl as (Hok1 & Hg1 & Hsnap). destruct (Hsnap l eq_refl) as [Hs Hel].
  destruct (p_budget p) as [|[|b]] eqn:Eb; [lia|lia|].
  unfold discardFailedAttempt, r_bind at 1, r_catch, r_bind at 1, call_store, effect.
  rewrite Eb. cbn [p_store with_budget]. rewrite Hload. cbn [settled with_store].
  assert (forall sl, sl ∈ slots_to_discard l rolledBack <->
    from_option is_failed_attempt false (vw env p sl) = true \/ sl ∈ rolledBack) as Hin.
  { intros sl. rewrite slots_to_discard_elem, <- (failed_grows (vw env p sl) _ (Hg1 sl)).
    split; (intros [Hx|?]; [left|by right]).
    - destruct Hx as (e & He & Hf & <-). by rewrite (Hel e He).
    - destruct (js_view _ _ s1 sl) as [e|] eqn:Ee; [|done]. exists e.
      destruct (js_view_wf _ _ _ _ _ Hok1 Ee) as [_ Hsl]. split_and!; try done.
      rewrite <- Hs in Ee. by apply snapshot_elem in Ee. }
  destruct (slots_to_discard l rolledBack) as [|sl0 sls] eqn:Esl.
  - cbn. eexists. split; [reflexivity|]. split_and!; [done|done|]. intros sl.
    assert (~ (from_option is_failed_attempt false (vw env p sl) = true \/ sl ∈ rolledBack)) as Hn
      by (rewrite <- Hin; apply not_elem_of_nil).
    rewrite decide_False by tauto.
    destruct (from_option is_failed_attempt false (vw env p sl)) eqn:E; [by destruct Hn; left|apply Hg1].
  - destruct (Hserves s1 Hok1) as [_ Hd]. destruct (Hd (sl0 :: sls)) as (s2 & Hs2).
    pose proof (js_discard_law (se_guard env) (se_workflowId env) (se_stepName env) (sl0 :: sls) _ Hok1)
      as Hlaw. rewrite Hs2 in Hlaw. destruct Hlaw as (Hok2 & v & Hg2 & Hv & _).
    cbn. rewrite Hs2. cbn. eexists. split; [reflexivity|]. split_and!; [done|done|]. intros sl.
    unfold vw at 3. cbn. rewrite Hv. specialize (Hin sl).
    pose proof (grows_at_trans _ _ _ (Hg1 sl) (Hg2 sl)) as Hg.
    destruct (decide (sl ∈ rolledBack)) as [Hr|Hr].
    { rewrite decide_True; [done|]. apply Hin. by right. }
    destruct (from_option is_failed_attempt false (vw env p sl)) eqn:E.
    { rewrite decide_True; [done|]. apply Hin. by left. }
    rewrite decide_False; [done|]. rewrite Hin. by intros [|].
Qed.

Lemma drive_ok snap b : keeps (fun c : cfg S W => js_ok (p_store c.2)) (drive host env snap b).
Proof.
  induction b as [v|e|r k IH]; intros c Hc; [done|done|]. cbn. destruct c as [m p].
  destruct (perform_framed host env snap r m p Hc) as [_ (Hok & _)].
  destruct (perform host env snap r (m, p)) as [[a|e|] c1]; [by apply IH|by apply IH|done].
Qed.

(** What a failed attempt leaves in a slot. *)
Definition after_failure (rolledBack : list JournalSlot) sl (o : option JournalEntry)
    : option JournalEntry :=
  if decide (sl ∈ rolledBack) then None
  else if from_option is_failed_attempt false o then None else o.

Lemma after_failure_grows rolledBack sl o o' : grows_at o o' ->
  grows_at (after_failure rolledBack sl o) (after_failure rolledBack sl o').
Proof.
  intros Hg. unfold after_failure. case_decide; [done|]. rewrite (failed_grows o o' Hg).
  by destruct (from_option is_failed_attempt false o).
Qed.

(** ** A rollback that nothing hinders *)

(** A store that serves the unwind's two calls. *)
Definition serves_unwind : Prop :=
  forall s sl, js_ok s ->
    (forall name, exists s', js_appendPendingEntry (se_guard env) (se_workflowId env) (se_stepName env) sl name
                          None StCompensation None s = (Ok tt, s')) /\
    forall x, exists r s', js_completePendingEntry (se_guard env) (se_workflowId env) (se_stepName env) sl x s
                        = (Ok r, s').

(** The slots of a compensation that ran: its activity's and its own. *)
Definition slots_of (comp : Compensation W) : list JournalSlot :=
  [mkSlot (co_sourceActivityIndex comp) ""; mkSlot (co_activityIndex comp) ""].

(** The slots of the compensations whose callback succeeds when all are
    called one after the other, from the world [w] on. *)
Fixpoint rolled_back (comps : list (Compensation W)) (w : W) : list JournalSlot :=
  match comps with
  | [] => []
  | comp :: comps =>
      match (co_run comp w).1 with Ok _ => slots_of comp | Err _ => [] end ++
      rolled_back comps (co_run comp w).2
  end.

(** No compensation has a row yet, and what a callback throws can be stored. *)
Record first_unwind (snap : entries_map) (comps : list (Compensation W)) p : Prop := {
  fu_distinct : NoDup (co_activityIndex <$> comps);
  fu_new : forall comp, comp ∈ comps -> snap !! slotKey (comp_slot (co_activityIndex comp)) = None /\
    vw env p (comp_slot (co_activityIndex comp)) = None;
  fu_errors : forall comp w e, comp ∈ comps -> (co_run comp w).1 = Err e ->
    exists x, failure_exit host e = Ok x;
}.

(** A row that keeps its slot from being replayed: a recorded failure. *)
Definition failed_row p sl : Prop := from_option is_failed_attempt false (vw env p sl) = true.

Lemma pending_row sl name p s' : js_ok (p_store p) -> vw env p sl = None ->
  js_appendPendingEntry (se_guard env) (se_workflowId env) (se_stepName env) sl name None StCompensation None
    (p_store p) = (Ok tt, s') ->
  js_ok s' /\ exists e, js_view (se_workflowId env) (se_stepName env) s' sl = Some e /\ is_pending e = true /\
    je_stepType e = Some StCompensation.
Proof.
  intros Hok Hn Hs. pose proof (js_pending_law (se_guard env) (se_workflowId env) (se_stepName env) sl name None
    StCompensation None _ Hok) as Hl. rewrite Hs in Hl. destruct Hl as (Hok' & v1 & Hg & [[t Hv] _]).
  split; [done|]. rewrite Hv, decide_True by done. apply (grows_at_None _ _ (Hg sl)) in Hn as ->. cbn.
  eexists. split; [reflexivity|done].
Qed.

Lemma completed_row sl x s r s' e : js_ok s ->
  js_view (se_workflowId env) (se_stepName env) s sl = Some e -> is_pending e = true ->
  je_stepType e = Some StCompensation ->
  js_completePendingEntry (se_guard env) (se_workflowId env) (se_stepName env) sl x s = (Ok r, s') ->
  js_ok s' /\ js_view (se_workflowId env) (se_stepName env) s' sl = Some (completed_with x e).
Proof.
  intros Hok He Hp Hk Hs. pose proof (js_complete_law (se_guard env) (se_workflowId env) (se_stepName env) sl x
    _ Hok) as Hl. rewrite Hs in Hl. destruct Hl as (Hok' & v1 & Hg & [Hv _]). split; [done|].
  rewrite Hv, decide_True by done. destruct (Hg sl) as [->|(e' & y & He' & _ & Hy & _)].
  - rewrite He. cbn. by rewrite Hp.
  - rewrite He in He'. injection He' as <-. unfold foreign_exit in Hy. by rewrite Hk in Hy.
Qed.

(** One compensation is called once; it is marked when it succeeded, and its
    row records the failure when it did not. *)
Lemma unwind_one_served snap comp m p :
  js_ok (p_store p) -> serves_unwind -> first_unwind snap [comp] p -> (3 <= p_budget p)%nat ->
  exists p', unwind_one host env snap comp (m, p) =
      (Ret (match (co_run comp (p_world p)).1 with Ok _ => slots_of comp | Err _ => [] end), (m, p')) /\
    p_world p' = (co_run comp (p_world p)).2 /\ (p_budget p <= p_budget p' + 3)%nat /\
    ((co_run comp (p_world p)).1 <> Ok tt -> failed_row p' (comp_slot (co_activityIndex comp))).
Proof.
  intros Hok Hserves [_ Hnew Herr] Hb. destruct (Hnew comp) as [Hsnap Hv]; [left|]. clear Hnew.
  specialize (Herr comp (p_world p)). set (sl := comp_slot (co_activityIndex comp)) in *.
  destruct (Hserves _ sl Hok) as [Hpend _].
  destruct (Hpend ("compensation:" +:+ co_activityName comp)) as [s1 Hs1].
  destruct (pending_row sl _ p s1 Hok Hv Hs1) as (Hok1 & e & He & Hp & Hk).
  destruct (Hserves s1 sl Hok1) as [_ Hcomplete].
  destruct (p_budget p) as [|[|[|n]]] eqn:Eb; [lia..|].
  unfold unwind_one. cbn zeta. unfold cursor_recorded. fold sl. rewrite Hsnap.
  unfold writePending, r_bind, r_catch, call_store, call_world, effect. rewrite Eb. cbn [with_budget p_store].
  rewrite Hs1. cbn. destruct (co_run comp (p_world p)) as [[[]|err] w'] eqn:Er; cbn in *.
  - destruct (Hcomplete (ExSuccess JNull)) as (r & s2 & Hs2). unfold complete, r_bind, call_store, effect. cbn.
    rewrite Hs2. cbn. eexists. split; [reflexivity|]. split_and!; [done|cbn; lia|done].
  - destruct (Herr err) as [x Hx]; [left|done|]. rewrite Hx. cbn.
    assert (exists f, x = ExFailure f) as [f ->].
    { unfold failure_exit in Hx. destruct (failureExit _ _ err) as [f|]; [|done]. injection Hx as <-. by eexists. }
    destruct (Hcomplete (ExFailure f)) as (r & s2 & Hs2). unfold complete, r_bind, call_store, effect. cbn.
    rewrite Hs2. cbn. eexists. split; [reflexivity|]. split_and!; [done|cbn; lia|]. intros _.
    destruct (completed_row sl (ExFailure f) s1 r s2 e Hok1 He Hp Hk Hs2) as [_ Hv2].
    unfold failed_row, vw. cbn. rewrite Hv2. cbn. unfold is_failed_attempt. cbn. by rewrite Hk.
Qed.

Lemma first_unwind_head snap comp comps p : first_unwind snap (comp :: comps) p -> first_unwind snap [comp] p.
Proof.
  intros [_ Hnew Herr]. split; [apply NoDup_singleton|..].
  - intros c ->%list_elem_of_singleton. apply Hnew. left.
  - intros c w e ->%list_elem_of_singleton. apply Herr. left.
Qed.

(** What other writers do to the row of one compensation while another runs. *)
Lemma first_unwind_tail snap comp comps p p' : first_unwind snap (comp :: comps) p ->
  (forall sl, ~ row_of [comp] sl -> grows_at (vw env p sl) (vw env p' sl)) ->
  ~ row_of comps (comp_slot (co_activityIndex comp)) /\ first_unwind snap comps p'.
Proof.
  intros [[Hni Hnd]%NoDup_cons Hnew Herr] Hg. split.
  - intros (c & Hc & [= Hi]). apply Hni. rewrite Hi. by apply list_elem_of_fmap_2.
  - split; [done| |].
    + intros c Hc. destruct (Hnew c) as [Hs Hv]; [by right|]. split; [done|].
      assert (~ row_of [comp] (comp_slot (co_activityIndex c))) as Hn.
      { intros (c' & ->%list_elem_of_singleton & [= Hi]). apply Hni. rewrite <- Hi. by apply list_elem_of_fmap_2. }
      by apply (grows_at_None _ _ (Hg _ Hn)).
    + intros c w e Hc. apply Herr. by right.
Qed.

(** The unwind calls every callback once, in order, whatever the ones before
    it did. *)
Lemma unwind_all_served snap comps m p :
  js_ok (p_store p) -> serves_unwind -> first_unwind snap comps p -> (3 * length comps <= p_budget p)%nat ->
  exists p', unwind_all host env snap comps (m, p) = (Ret (rolled_back comps (p_world p)), (m, p')) /\
    p_world p' = compensated comps (p_world p) /\ (p_budget p <= p_budget p' + 3 * length comps)%nat /\
    forall comp, comp ∈ comps ->
      comp_slot (co_activityIndex comp) ∈ rolled_back comps (p_world p) \/
      failed_row p' (comp_slot (co_activityIndex comp)).
Proof.
  intros Hok Hserves. revert p Hok. induction comps as [|comp comps IH]; intros p Hok Hfirst Hb.
  { exists p. cbn. split_and!; [done|done|lia|by intros c ?%not_elem_of_nil]. }
  cbn [length] in *. pose proof (first_unwind_head _ _ _ _ Hfirst) as Hhead.
  destruct (unwind_one_served snap comp m p Hok Hserves Hhead) as (p1 & H1 & Hw1 & Hb1 & Hrow); [lia|].
  destruct (unwind_one_spares snap comp [comp] m p ltac:(left) (m, p)) as (_ & Hok1 & Hg1); [by split_and!|].
  rewrite H1 in Hok1, Hg1. cbn in Hok1, Hg1.
  destruct (first_unwind_tail _ _ _ _ p1 Hfirst Hg1) as [Hother Htail].
  destruct (IH p1 Hok1 Htail) as (p2 & H2 & Hw2 & Hb2 & Hrows); [lia|].
  destruct (unwind_all_spares snap comps comps m p1 ltac:(done) (m, p1)) as (_ & _ & Hg2); [by split_and!|].
  rewrite H2 in Hg2. cbn in Hg2. rewrite Hw1 in H2, Hw2, Hrows.
  exists p2. cbn [unwind_all rolled_back]. unfold r_bind. rewrite H1, H2. split_and!; [done|done|lia|].
  intros c [->|Hc]%elem_of_cons.
  - destruct ((co_run comp (p_world p)).1) as [[]|e]; [left|right].
    + apply elem_of_app. left. right. left.
    + unfold failed_row. rewrite (failed_grows _ _ (Hg2 _ Hother)). by apply Hrow.
  - destruct (Hrows c Hc) as [?|?]; [left|by right]. apply elem_of_app. by right.
Qed.

(** The rollback after its unwind: the discard, and the error again. *)
Lemma rollback_leaves snap e m p1 rb m2 p2 :
  let comps := rev (m_compensations m) in
  js_ok (p_store p1) -> serves_discard ->
  unwind_all host env snap comps (m, p1) = (Ret rb, (m2, p2)) -> (2 <= p_budget p2)%nat ->
  exists p', r_bind (rollback host env snap) (fun _ => r_throw (A := json) e) (m, p1) = (Throws e, (m2, p')) /\
    p_world p' = p_world p2 /\
    (forall sl, grows_at (after_failure rb sl (vw env p2 sl)) (vw env p' sl)) /\
    (forall sl, ~ row_of comps sl -> grows_at (after_failure rb sl (vw env p1 sl)) (vw env p' sl)).
Proof.
  intros comps Hok1 Hserves Hu Hbudget.
  destruct (unwind_all_spares snap comps comps m p1 ltac:(done) (m, p1)) as (_ & Hok2 & Hg2); [by split_and!|].
  rewrite Hu in Hok2, Hg2. cbn in Hok2, Hg2.
  destruct (discard_exact rb m2 p2 Hok2 Hserves Hbudget) as (p' & Hdis & _ & Hw & Hg').
  exists p'. unfold rollback, r_bind.
  change (unwind host env snap (m, p1)) with (unwind_all host env snap comps (m, p1)).
  rewrite Hu, Hdis. cbn. split_and!; [done|done|done|]. intros sl Hn.
  eapply grows_at_trans; [|apply Hg']. by apply after_failure_grows, Hg2.
Qed.

(** C8. What a failed attempt leaves behind. When the body throws an error
    that does not end the attempt for good (a suspension, an ambiguous
    activity, a divergence, a lost lease), the step rejects with it and
    nothing is rolled back or discarded. Any other error unwinds the
    compensations registered in this attempt, last registered first.
    - When nothing hinders the unwind (the storage serves it, the process
      lives, no compensation has a row from before), every callback is called
      exactly once and in that order, whatever the ones before it did; of each
      that succeeded the activity's slot and the compensation's own are freed,
      and so is every recorded failure, the compensations' among them. Every
      other slot keeps its entry.
    - Whatever the storage refuses, what the unwind marks are both slots of
      compensations that ran ([ran]), each slot marked is free afterwards, the
      recorded failures are freed, and every other entry is kept.
    Either way the step rejects with the body's error. *)
Theorem failed_attempt b p l c0 e m p1 :
  js_ok (p_store p) ->
  call_store (js_loadJournal (se_workflowId env) (se_stepName env)) (new_memory, p) = (Ret l, c0) ->
  drive host env (snapshot l) b c0 = (Throws e, (m, p1)) ->
  let comps := rev (m_compensations m) in
  (runsCompensations e = false -> start host env b p = (Throws e, p1)) /\
  (runsCompensations e = true -> serves_discard ->
   (serves_unwind -> first_unwind (snapshot l) comps p1 -> (3 * length comps + 2 <= p_budget p1)%nat ->
    exists p', start host env b p = (Throws e, p') /\
      p_world p' = compensated comps (p_world p1) /\
      forall sl, grows_at (after_failure (rolled_back comps (p_world p1)) sl (vw env p1 sl)) (vw env p' sl)) /\
   forall rb m2 p2, unwind host env (snapshot l) (m, p1) = (Ret rb, (m2, p2)) -> (2 <= p_budget p2)%nat ->
   exists p', start host env b p = (Throws e, p') /\
     (forall sl, sl ∈ rb -> vw env p' sl = None) /\
     (forall sl, ~ row_of comps sl -> grows_at (after_failure rb sl (vw env p1 sl)) (vw env p' sl)) /\
     ((forall comp, comp ∈ comps -> snapshot l !! slotKey (comp_slot (co_activityIndex comp)) = None) ->
      exists ran, sublist ran comps /\ rb = flat_map slots_of ran /\
        (ran = comps -> p_world p' = compensated comps (p_world p1)))).
Proof.
  intros Hok Hl Hd comps.
  assert (start host env b p = (let '(o, (_, q)) := r_bind (if runsCompensations e
    then rollback host env (snapshot l) else r_ret tt) (fun _ => r_throw e) (m, p1) in (o, q))) as ->.
  { unfold start, runJournaledStep. unfold r_bind at 1. rewrite Hl.
    unfold r_bind at 1, r_catch at 1. by rewrite Hd. }
  assert (js_ok (p_store p1)) as Hok1.
  { destruct c0 as [m0 p0]. apply call_store_Ret in Hl as (-> & s & Hload & Hs0).
    pose proof (js_load_law (se_workflowId env) (se_stepName env) _ Hok) as H1. rewrite Hload in H1.
    pose proof (drive_ok (snapshot l) b (new_memory, p0)) as Hk. rewrite Hd in Hk. apply Hk. cbn.
    rewrite Hs0. apply H1. }
  split; [by intros ->|]. intros -> Hserves.
  pose proof (fun rb m2 p2 => rollback_leaves (snapshot l) e m p1 rb m2 p2 Hok1 Hserves) as Hback.
  fold comps in Hback.
  split.
  - intros Hunwind Hfirst Hb.
    destruct (unwind_all_served _ _ m p1 Hok1 Hunwind Hfirst) as (p2 & Hu & Hw & Hb2 & Hrows); [lia|].
    destruct (Hback _ _ _ Hu) as (p' & -> & Hw' & Hg & Hg'); [lia|]. exists p'. split; [done|].
    split; [congruence|]. intros sl. destruct (decide (Exists (fun comp => sl = comp_slot (co_activityIndex comp)) comps))
      as [(c & Hc & ->)%Exists_exists|Hn].
    + destruct (fu_new _ _ _ Hfirst c Hc) as [_ ->]. specialize (Hg (comp_slot (co_activityIndex c))).
      unfold after_failure in *. destruct (Hrows c Hc) as [Hin|Hf].
      * by rewrite decide_True in Hg |- * by done.
      * rewrite Hf in Hg. by destruct (decide _).
    + apply Hg'. intros (c & Hc & ->). apply Hn, Exists_exists. by exists c.
  - intros rb m2 p2 Hu Hbudget.
    change (unwind_all host env (snapshot l) comps (m, p1) = (Ret rb, (m2, p2))) in Hu.
    destruct (Hback rb m2 p2 Hu Hbudget) as (p' & -> & Hw & Hg & Hg'). exists p'. split_and!; [done| |done|].
    + intros sl Hin. specialize (Hg sl). unfold after_failure in Hg. rewrite decide_True in Hg by done.
      by apply (grows_at_None _ _ Hg).
    + intros Hfree. destruct (unwind_all_marks _ _ _ _ _ _ _ Hfree Hu) as (ran & Hsub & Hrb & Hran).
      exists ran. split_and!; [done|done|]. rewrite Hw. exact Hran.
Qed.
End rollback.

(** ** A rollback on the in-memory storage

    The card is charged, the mail is sent, the order turns out to be out of
    stock; a mail cannot be taken back. *)
#[local] Instance sample_store : JournalStore ClockedStorage := memory_journal_store string_cmp.
#[local] Instance sample_laws : JournalStoreLaws ClockedStorage := memory_journal_laws string_cmp.

Lemma sample_serves_discard : serves_discard (S := ClockedStorage) sample_env.
Proof.
  intros [d readings n] _. split; [|intros sls]; cbn; unfold clocked; cbn.
  - unfold loadJournal. cbn. destruct (load _ _ _ _). by do 2 eexists.
  - unfold discardJournalEntries. cbn. by eexists.
Qed.

Lemma sample_serves_unwind : serves_unwind (S := ClockedStorage) sample_env.
Proof.
  intros [d readings n] sl _. split; [intros name|intros x]; cbn; unfold clocked; cbn.
  - unfold appendPendingEntry. cbn. by eexists.
  - unfold completePendingEntry. cbn. destruct (completePending _ _ _ _ _). by do 2 eexists.
Qed.

Definition out_of_stock : body (list string) :=
  BYield (RActivity "charge" None (done_to "charge" (JNum 5))
            (mkOptions None None false (Some (fun _ w => (Ok tt, w ++ ["refund"]))) None))
    (fun _ => BYield (RActivity "mail" None (done_to "mail" JNull)
            (mkOptions None None false (Some (fun _ w => (Err (TValue (JStr "sent")), w ++ ["recall"]))) None))
    (fun _ => BThrow (TValue (JStr "out of stock")))).

Lemma failed_attempt_witness :
  let p := sample_process 20 in
  exists p', start sample_host sample_env out_of_stock p = (Throws (TValue (JStr "out of stock")), p') /\
    p_world p' = ["charge"; "mail"; "recall"; "refund"] /\
    vw sample_env p' (mkSlot 0 "") = None /\ vw sample_env p' (mkSlot 2 "") <> None.
Proof.
  intros p.
  set (c0 := (call_store (W := list string) (js_loadJournal "w" "s") (new_memory, p)).2).
  set (c1 := (drive sample_host sample_env (snapshot []) out_of_stock c0).2).
  destruct (failed_attempt sample_host sample_env out_of_stock p [] c0
    (TValue (JStr "out of stock")) c1.1 c1.2) as [_ Hall].
  - apply sample_process_ok.
  - vm_compute. reflexivity.
  - vm_compute. reflexivity.
  - destruct (Hall eq_refl sample_serves_discard) as [Hfull _].
    destruct (Hfull sample_serves_unwind) as (p' & Hp & Hworld & Hkept).
    + split.
      * apply (bool_decide_unpack _). vm_compute. exact I.
      * apply Forall_forall. vm_compute. repeat constructor.
      * enough (Forall (fun comp => forall w e, (co_run comp w).1 = Err e ->
          exists x, failure_exit sample_host e = Ok x) (rev (m_compensations c1.1))) as Hf.
        { intros comp w e Hc. rewrite Forall_forall in Hf. by apply (Hf comp Hc w). }
        vm_compute.
        apply Forall_cons; split; [by intros w e [= <-]; eexists|].
        apply Forall_cons; split; [by intros w e|constructor].
    + apply Nat.leb_le. vm_compute. reflexivity.
    + exists p'. split; [exact Hp|]. split; [rewrite Hworld; vm_compute; reflexivity|]. split.
      * apply (grows_at_None _ _ (Hkept (mkSlot 0 ""))). vm_compute. reflexivity.
      * intros Hn. apply (grows_at_None _ _ (Hkept (mkSlot 2 ""))) in Hn. vm_compute in Hn. discriminate Hn.
Defined.
