(* ===== verification/Wakeups.v ===== *)
(** Waking a parked journaled step from outside ([durable/journal-wakeups.ts]):
    the delivery of a signal and the sweep of due sleeps, against a store
    that other processes use between any two calls, and what the next run
    of the body makes of it. *)
From Stdlib Require Import QArith.
From S2P Require Import Prelude Leases Json Journal Streams SignalTokens Events RunState Storage StorageRows Dates Exits Retry JournalStore Replay ReplayLemmas Resume.
Open Scope string_scope.
Open Scope list_scope.
Open Scope Z_scope.

(** ** The scanners' part of the storage interface *)
Class JournalScans (S : Type) : Type := {
  js_findPendingSignal : string -> string -> string -> S -> res thrown (option JournalEntry) * S;
  js_findDueSleeps : Z -> Z -> S -> res thrown (list DueSleep) * S;
}.

Definition due_slot (d : DueSleep) : JournalSlot := mkSlot (ds_activityIndex d) (ds_branchPath d).

Definition woke_exit (wakeAt : Z) : JournalExit := ExSuccess (JStr (toISOString wakeAt)).

(** What may complete a wait: its wake-up from outside, or the body that
    records the timeout of a signal. *)
Definition wait_exit (e : JournalEntry) (x : JournalExit) : Prop :=
  foreign_exit e x \/ (je_stepType e = Some StSignal /\ x = ExSuccess timedOutSignalExitValue).

Definition is_wait (e : JournalEntry) : Prop :=
  je_stepType e = Some StSleep \/ je_stepType e = Some StSignal.

(** What other processes do to waits: they complete them. *)
Definition spares_waits {S} `{JournalStoreLaws S} (s s' : S) : Prop :=
  js_ok s' /\ forall w st sl e, js_view w st s sl = Some e -> is_wait e ->
    js_view w st s' sl = Some e \/
    (is_pending e = true /\ exists x, wait_exit e x /\ js_view w st s' sl = Some (completed_with x e)).

Class JournalScanLaws (S : Type) `{JournalStoreLaws S} `{!JournalScans S} : Type := {
  scan_ok : S -> Prop;
  js_find_signal_law : forall w st name s, js_ok s ->
    let '(r, s') := js_findPendingSignal w st name s in
    spares_waits s s' /\
    match r with
    | Ok (Some e) => js_view w st s' (entry_slot e) = Some e /\ je_stepType e = Some StSignal /\
                     is_pending e = true /\ je_activityName e = name
    | Ok None => forall sl e, js_view w st s' sl = Some e -> je_stepType e = Some StSignal ->
                   je_activityName e = name -> is_pending e = false
    | Err _ => True
    end;
  js_find_due_law : forall now limit s, js_ok s -> scan_ok s ->
    let '(r, s') := js_findDueSleeps now limit s in
    spares_waits s s' /\
    forall due d, r = Ok due -> d ∈ due ->
      exists e, js_view (ds_workflowId d) (ds_stepName d) s' (due_slot d) = Some e /\
        je_stepType e = Some StSleep /\ is_pending e = true /\
        je_wakeAt e = Some (ds_wakeAt d) /\ ds_wakeAt d <= now;
  js_complete_wait_law : forall g w st sl x s, js_ok s ->
    (forall e, js_view w st s sl = Some e -> is_pending e = true -> wait_exit e x) ->
    spares_waits s (js_completePendingEntry g w st sl x s).2;
}.

(** ** Operations *)
Section wakeups.
Context {S : Type} `{JournalScanLaws S}.

(** [completeSignal]; [between] is what other processes do between its two
    calls. *)
Definition completeSignal (w stepName signalName : string) (value : json) (between : S -> S)
    (s : S) : res thrown bool * S :=
  match js_findPendingSignal w stepName signalName s with
  | (Err e, s) => (Err e, s)
  | (Ok None, s) => (Ok false, s)
  | (Ok (Some hit), s) =>
      match js_completePendingEntry None w stepName (entry_slot hit)
              (ExSuccess (deliveredSignalExitValue value)) (between s) with
      | (Ok result, s) => (Ok (cp_completed result), s)
      | (Err e, s) => (Err e, s)
      end
  end.

Fixpoint complete_due (due : list DueSleep) (between : DueSleep -> S -> S) (s : S)
    : res thrown unit * S :=
  match due with
  | [] => (Ok tt, s)
  | d :: due =>
      match js_completePendingEntry None (ds_workflowId d) (ds_stepName d) (due_slot d)
              (woke_exit (ds_wakeAt d)) (between d s) with
      | (Ok _, s) => complete_due due between s
      | (Err e, s) => (Err e, s)
      end
  end.

Definition completeDueSleeps (now limit : Z) (between : DueSleep -> S -> S) (s : S)
    : res thrown (list DueSleep) * S :=
  match js_findDueSleeps now limit s with
  | (Err e, s) => (Err e, s)
  | (Ok due, s) =>
      match complete_due due between s with
      | (Ok _, s) => (Ok due, s)
      | (Err e, s) => (Err e, s)
      end
  end.

(** ** How waits move *)
Lemma spares_refl s : js_ok s -> spares_waits s s.
Proof. intros Hok. split; [done|]. intros; by left. Qed.

Lemma spares_trans s1 s2 s3 : spares_waits s1 s2 -> spares_waits s2 s3 -> spares_waits s1 s3.
Proof.
  intros [_ Ha] [Hok Hb]. split; [done|]. intros w st sl e He Hw.
  destruct (Ha w st sl e He Hw) as [He2|(Hp & x & Hx & He2)].
  - by apply Hb.
  - right. split; [done|]. destruct (Hb w st sl _ He2) as [He3|(Hp' & _)]; [done|by exists x|].
    by rewrite is_pending_completed in Hp'.
Qed.

(** A completed entry is a completion of itself. *)
Lemma completed_self e : entry_wf e -> is_pending e = false ->
  exists y, je_exit e = Some y /\ e = completed_with y e.
Proof.
  intros Hwf Hp. destruct (completed_wf e Hwf Hp) as (Hph & y & Hy). exists y. split; [done|].
  destruct e as [a b c t ph h x wk cr]; cbn in *. by subst.
Qed.

Lemma completed_twice y x e : completed_with y (completed_with x e) = completed_with y e.
Proof. done. Qed.

(** Where a wait may stand: it is pending as [e], or completed. *)
Definition stands (e : JournalEntry) (o : option JournalEntry) : Prop :=
  o = Some e \/ exists x, wait_exit e x /\ o = Some (completed_with x e).

Lemma spares_stands s s' w st sl e : is_pending e = true -> is_wait e ->
  spares_waits s s' -> stands e (js_view w st s sl) -> stands e (js_view w st s' sl).
Proof.
  intros Hp Hw [_ Hs] [He|(x & Hx & He)].
  - destruct (Hs w st sl e He Hw) as [?|(_ & x & Hx & ?)]; [by left|right; by exists x].
  - right. exists x. split; [done|]. destruct (Hs w st sl _ He Hw) as [?|[Hp' _]]; [done|].
    by rewrite is_pending_completed in Hp'.
Qed.

(** A completion of a wait that the store answered: the wait is completed,
    and [completed] is reported only for the same stored exit. *)
Lemma complete_wait g w st sl x s e r s' :
  js_ok s -> is_pending e = true -> is_wait e -> wait_exit e x ->
  stands e (js_view w st s sl) ->
  js_completePendingEntry g w st sl x s = (Ok r, s') ->
  exists y, js_view w st s' sl = Some (completed_with y e) /\ wait_exit e y /\
    (cp_completed r = true -> sameStoredValue (exit_json y) (exit_json x) = true).
Proof.
  intros Hok Hp Hw Hx Hst Hc. pose proof (js_complete_law g w st sl x s Hok) as Hl.
  rewrite Hc in Hl. destruct Hl as (_ & v1 & Hg & Hspec & Hans). specialize (Hg sl).
  specialize (Hspec sl). rewrite decide_True in Hspec by done.
  assert (stands e (v1 sl)) as [Hv|(y & Hy & Hv)].
  { destruct Hg as [->|(e' & z & He' & Hp' & Hz & ->)]; [done|]. rewrite He' in Hst.
    destruct Hst as [[= ->]|(y & _ & [= ->])]; [|by rewrite is_pending_completed in Hp'].
    right. exists z. split; [by left|done]. }
  - unfold complete_answer in Hans. rewrite Hv in Hspec, Hans. cbn in Hspec. rewrite Hp in Hspec, Hans.
    exists x. split_and!; [done|done|]. intros _. unfold sameStoredValue. by apply bool_decide_eq_true.
  - unfold complete_answer in Hans. rewrite Hv in Hspec, Hans. cbn in Hspec, Hans.
    exists y. split_and!; [done|done|]. intros Hr. destruct Hans as [_ Hans].
    by destruct (Hans Hr) as (y' & [= <-] & ?).
Qed.

(** ** Signals *)

(** The stored form of an object with two members in order. *)
Lemma canonical_two k1 v1 k2 v2 : v1 <> JUndef -> (forall x y, field_cmp (k1, x) (k2, y) <= 0) ->
  canonical (JObj [(k1, v1); (k2, v2)]) =
    JObj ((k1, canonical v1) :: match v2 with JUndef => [] | _ => [(k2, canonical v2)] end).
Proof.
  intros Hv Hk. assert (forall x y, jsort field_cmp [(k1, x); (k2, y)] = [(k1, x); (k2, y)]) as Hsort.
  { intros x y. cbn. by rewrite bool_decide_true by apply Hk. }
  destruct v1; try done; destruct v2; cbn -[jsort]; by rewrite ?Hsort.
Qed.

Lemma delivered_form v : stored_form (exit_json (ExSuccess (deliveredSignalExitValue v))) =
  Some (JObj [("tag", JStr "Success"); ("value", JObj (("$signal", JStr "delivered") ::
    match stored_form v with None => [] | Some f => [("value", f)] end))]).
Proof.
  unfold stored_form at 1. cbn [exit_json]. rewrite canonical_two by done.
  unfold deliveredSignalExitValue. rewrite canonical_two by done. by destruct v.
Qed.

Lemma delivered_same v v' :
  sameStoredValue (exit_json (ExSuccess (deliveredSignalExitValue v)))
    (exit_json (ExSuccess (deliveredSignalExitValue v'))) = true ->
  sameStoredValue v v' = true.
Proof.
  rewrite !same_stored_forms, !delivered_form. destruct (stored_form v), (stored_form v'); congruence.
Qed.

Lemma timeout_not_delivered v :
  sameStoredValue (exit_json (ExSuccess timedOutSignalExitValue))
    (exit_json (ExSuccess (deliveredSignalExitValue v))) <> true.
Proof.
  rewrite same_stored_forms, delivered_form. generalize (stored_form v). intros [f|]; vm_compute; done.
Qed.

(** A wait that was pending later is the wait it was before. *)
Lemma spares_pending s s' w st sl e e' : spares_waits s s' -> js_view w st s sl = Some e -> is_wait e ->
  js_view w st s' sl = Some e' -> is_pending e' = true -> e' = e.
Proof.
  intros [_ Hs] He Hw He' Hp. destruct (Hs w st sl e He Hw) as [E|(_ & x & _ & E)]; rewrite He' in E;
    injection E as ->; [done|]. by rewrite is_pending_completed in Hp.
Qed.

(** What the body gets from a delivered signal. *)
Definition delivered_answer (timeout : option wait_arg) (value : json) : json :=
  if bool_decide (is_Some timeout) then JObj [("ok", JBool true); ("value", value)] else value.

(** C23. A signal delivery is decided once. Other processes may complete
    waits between the two calls of [completeSignal] - another delivery, the
    body recording the timeout - but [true] means that this value is what
    the journal holds: a pending wait for that signal is completed with a
    value stored alike, never with the timeout, and every later run of the
    body that waits at that slot gets it, with a timeout or without, leaving
    the process as it was. When no wait is pending the answer is [false]
    and nothing is written. *)
Theorem signal_delivered {W} (host : Host) env name value between s b s' :
  js_ok s -> (forall s, js_ok s -> spares_waits s (between s)) ->
  completeSignal (se_workflowId env) (se_stepName env) name value between s = (Ok b, s') ->
  spares_waits s s' /\
  if b then
    exists sl e v, js_view (se_workflowId env) (se_stepName env) s' sl = Some e /\
      je_stepType e = Some StSignal /\ je_activityName e = name /\
      je_exit e = Some (ExSuccess (deliveredSignalExitValue v)) /\ sameStoredValue v value = true /\
      forall snap (m : memory W) (p : process S W) timeout schema,
        snap !! slotKey (next_slot m) = js_view (se_workflowId env) (se_stepName env) s' sl ->
        next_slot m = sl ->
        perform host env snap (RSignal name timeout schema) (m, p) =
          (Ret (Ok (delivered_answer timeout v)), (bumped m, p))
  else
    (forall sl e, js_view (se_workflowId env) (se_stepName env) s' sl = Some e ->
       je_stepType e = Some StSignal -> je_activityName e = name -> is_pending e = false) \/
    exists sl e x, js_view (se_workflowId env) (se_stepName env) s' sl = Some e /\
      je_stepType e = Some StSignal /\ je_activityName e = name /\ je_exit e = Some x /\ wait_exit e x.
Proof.
  intros Hok Hbetween Hc. set (w := se_workflowId env) in *. set (st := se_stepName env) in *.
  unfold completeSignal in Hc. pose proof (js_find_signal_law w st name s Hok) as Hfind.
  destruct (js_findPendingSignal w st name s) as [[[e|]|err] s1]; [| |done].
  2:{ injection Hc as <- <-. destruct Hfind as [Hs Hnone]. split; [done|]. by left. }
  destruct Hfind as (Hs1 & He & Ht & Hp & Hname).
  assert (is_wait e) as Hwait by by right.
  assert (wait_exit e (ExSuccess (deliveredSignalExitValue value))) as Hx.
  { left. unfold foreign_exit. rewrite Ht. by exists value. }
  pose proof (Hbetween s1 (proj1 Hs1)) as Hs2.
  destruct (js_completePendingEntry None w st (entry_slot e) (ExSuccess (deliveredSignalExitValue value))
             (between s1)) as [[r|err] s3] eqn:Ec; [|done]. injection Hc as <- <-.
  destruct (complete_wait None w st (entry_slot e) _ _ e r s3 (proj1 Hs2) Hp Hwait Hx
              (spares_stands _ _ _ _ _ _ Hp Hwait Hs2 (or_introl He)) Ec) as (y & Hy & Hwy & Hsame).
  assert (spares_waits (between s1) s3) as Hs3.
  { pose proof (js_complete_wait_law None w st (entry_slot e)
      (ExSuccess (deliveredSignalExitValue value)) (between s1) (proj1 Hs2)) as Hlaw.
    rewrite Ec in Hlaw. apply Hlaw. intros e' He' Hp'.
    by rewrite (spares_pending _ _ _ _ _ _ _ Hs2 He Hwait He' Hp'). }
  split; [by eapply spares_trans; [|eapply spares_trans]|].
  destruct (cp_completed r).
  2:{ right. by exists (entry_slot e), (completed_with y e), y. }
  specialize (Hsame eq_refl). assert (exists v, y = ExSuccess (deliveredSignalExitValue v)) as [v ->].
  { destruct Hwy as [Hf|[_ ->]]; [|by apply timeout_not_delivered in Hsame].
    unfold foreign_exit in Hf. by rewrite Ht in Hf. }
  exists (entry_slot e), (completed_with (ExSuccess (deliveredSignalExitValue v)) e), v.
  split_and!; try done; [by apply delivered_same|].
  intros snap m p timeout schema Hsnap Hslot. rewrite Hy in Hsnap.
  rewrite (signal_on_completed host env snap name timeout schema m p _
             (ExSuccess (deliveredSignalExitValue v)) Hsnap); [|split; [by cbn; rewrite Ht|by right]|done].
  unfold delivered_answer. cbn. by case_bool_decide.
Qed.

(** ** Sleeps *)
Lemma complete_due_wakes due between s s' :
  js_ok s -> (forall d s, js_ok s -> spares_waits s (between d s)) ->
  (forall d, d ∈ due -> exists e, stands e (js_view (ds_workflowId d) (ds_stepName d) s (due_slot d)) /\
     je_stepType e = Some StSleep /\ is_pending e = true /\ je_wakeAt e = Some (ds_wakeAt d)) ->
  complete_due due between s = (Ok tt, s') ->
  spares_waits s s' /\
  forall d, d ∈ due -> exists e, js_view (ds_workflowId d) (ds_stepName d) s' (due_slot d) =
      Some (completed_with (woke_exit (ds_wakeAt d)) e) /\ je_stepType e = Some StSleep.
Proof.
  intros Hok Hbetween. revert s Hok. induction due as [|d due IH]; intros s Hok Hdue; cbn [complete_due].
  { intros [= <-]. split; [by apply spares_refl|by intros ? ?%not_elem_of_nil]. }
  destruct (Hdue d) as (e & He & Ht & Hp & Hw); [left|].
  assert (is_wait e) as Hwait by by left.
  assert (forall y, wait_exit e y <-> y = woke_exit (ds_wakeAt d)) as Hexit.
  { intros y. unfold wait_exit, foreign_exit. rewrite Ht. split.
    - intros [(z & Hz & ->)|[? _]]; [|done]. rewrite Hw in Hz. by injection Hz as <-.
    - intros ->. left. by exists (ds_wakeAt d). }
  pose proof (Hbetween d s Hok) as Hs1.
  destruct (js_completePendingEntry None _ _ _ _ (between d s)) as [[r|err] s2] eqn:Ec; [|done]. intros Hc.
  pose proof (spares_stands _ _ _ _ _ _ Hp Hwait Hs1 He) as He1.
  destruct (complete_wait None _ _ _ _ _ e r s2 (proj1 Hs1) Hp Hwait (proj2 (Hexit _) eq_refl) He1 Ec)
    as (y & Hy & Hwy & _). apply Hexit in Hwy as ->.
  assert (spares_waits (between d s) s2) as Hs2.
  { pose proof (js_complete_wait_law None (ds_workflowId d) (ds_stepName d) (due_slot d)
      (woke_exit (ds_wakeAt d)) (between d s) (proj1 Hs1)) as Hlaw.
    rewrite Ec in Hlaw. apply Hlaw. intros e' He' Hp'.
    destruct He1 as [E|(x & _ & E)]; rewrite E in He'; injection He' as <-; [by apply Hexit|].
    by rewrite is_pending_completed in Hp'. }
  pose proof (spares_trans _ _ _ Hs1 Hs2) as Hs12.
  destruct (IH s2 (proj1 Hs12)) as [Hs Hall]; [|done|].
  { intros d' Hd'. destruct (Hdue d') as (e' & He' & Ht' & Hp' & Hw'); [by right|].
    exists e'. split_and!; try done. eapply spares_stands; [done|by left|done|done]. }
  split; [by eapply spares_trans|]. intros d' [ ->|Hd']%elem_of_cons; [|by apply Hall].
  exists e. split; [|done]. destruct (proj2 Hs _ _ _ _ Hy) as [?|[Hp' _]]; [by left|done|].
  by rewrite is_pending_completed in Hp'.
Qed.

(** A sweep of due sleeps wakes what it reports. Whatever other
    processes complete between its calls - the sleeping bodies included -
    every sleep it returns was due, and after it the journal holds its wake
    time as the exit, so that the next run of the body gets that time from
    the slot, whatever duration it asks for, without a call to the clock or
    the store; the other waits of the storage are left to those processes. *)
Theorem due_sleeps_wake {W} (host : Host) now limit between s due s' :
  js_ok s -> scan_ok s -> (forall d s, js_ok s -> spares_waits s (between d s)) ->
  completeDueSleeps now limit between s = (Ok due, s') ->
  spares_waits s s' /\
  forall d, d ∈ due -> ds_wakeAt d <= now /\
    exists e, js_view (ds_workflowId d) (ds_stepName d) s' (due_slot d) = Some e /\
      je_stepType e = Some StSleep /\ je_exit e = Some (woke_exit (ds_wakeAt d)) /\
      forall env snap (m : memory W) (p : process S W) duration,
        snap !! slotKey (next_slot m) = Some e -> time_value (ds_wakeAt d) ->
        perform host env snap (RSleep duration) (m, p) =
          (Ret (Ok (JDate (ds_wakeAt d))), (bumped m, p)).
Proof.
  intros Hok Hscan Hbetween Hc. unfold completeDueSleeps in Hc.
  pose proof (js_find_due_law now limit s Hok Hscan) as Hfind.
  destruct (js_findDueSleeps now limit s) as [[due'|err] s1]; [|done]. destruct Hfind as [Hs1 Hdue].
  destruct (complete_due due' between s1) as [[[]|err] s2] eqn:Ed; [|done]. injection Hc as -> ->.
  destruct (complete_due_wakes due between s1 s' (proj1 Hs1) Hbetween) as [Hs2 Hall]; [|done|].
  { intros d Hd. destruct (Hdue due d eq_refl Hd) as (e & He & Ht & Hp & Hw & _). exists e.
    split_and!; try done. by left. }
  split; [by eapply spares_trans|]. intros d Hd.
  destruct (Hdue due d eq_refl Hd) as (_ & _ & _ & _ & _ & Hnow). split; [done|].
  destruct (Hall d Hd) as (e & He & Ht). exists (completed_with (woke_exit (ds_wakeAt d)) e).
  split_and!; try done. intros env snap m p duration Hsnap Htv.
  rewrite (sleep_on_completed host env snap duration m p _ (woke_exit (ds_wakeAt d)) Hsnap);
    [|split; [by cbn; rewrite Ht|by left]|done].
  unfold wokeAt, woke_exit, new_Date. by rewrite Date_parse_toISOString.
Qed.
End wakeups.

(** ** The in-memory storage *)
Section memory.
Variable localeCompare : string -> string -> Z.
#[local] Instance the_store : JournalStore ClockedStorage := memory_journal_store localeCompare.
#[local] Instance the_laws : JournalStoreLaws ClockedStorage := memory_journal_laws localeCompare.

#[export] Instance memory_scans : JournalScans ClockedStorage := {|
  js_findPendingSignal w st name :=
    clocked (fun _ d => (Ok (findPendingJournalSignal w st name d), d));
  js_findDueSleeps now limit := clocked (fun _ => findDueJournalSleeps now limit);
|}.

(** The scan set's keys split back into the step they were made of; a
    workflow id or step name with two colons may not. *)
Definition keys_split (s : ClockedStorage) : Prop :=
  forall key, key ∈ sleepKeys (db_journal (cs_db s)) ->
    exists w st, key = journalKey w st /\ split_colons "" key = [w; st].

Definition due_of (now : Z) (w st : string) (es : list JournalEntry) (d : DueSleep) : Prop :=
  ds_workflowId d = w /\ ds_stepName d = st /\
  exists e, e ∈ es /\ due_slot d = entry_slot e /\ is_pending_sleep e = true /\
    je_wakeAt e = Some (ds_wakeAt d) /\ ds_wakeAt d <= now.

Lemma scan_entries_due now limit w st es due n due' n' full :
  scan_entries now limit w st es due n = (due', n', full) ->
  forall d, d ∈ due' -> d ∈ due \/ due_of now w st es d.
Proof.
  revert due n. induction es as [|e es IH]; intros due n; cbn; [intros [= <- _ _]; by left|].
  assert (forall d, due_of now w st es d -> due_of now w st (e :: es) d) as Hmore.
  { intros d (Hw & Hs & x & Hx & Hr). split_and!; [done|done|]. exists x. split; [by right|done]. }
  destruct (is_pending_sleep e) eqn:Ep; [|intros Hs d Hd; destruct (IH _ _ Hs d Hd); auto].
  destruct (je_wakeAt e) as [wk|] eqn:Ew; [|intros Hs d Hd; destruct (IH _ _ Hs d Hd); auto].
  destruct (Z.leb_spec wk now) as [Hle|Hle]; [|intros Hs d Hd; destruct (IH _ _ Hs d Hd); auto].
  set (new := mkDueSleep w st (je_activityIndex e) (je_branchPath e) wk).
  assert (due_of now w st (e :: es) new) as Hnew.
  { split_and!; [done|done|]. exists e. split; [left|]. by split_and!. }
  assert (forall d, d ∈ due ++ [new] -> d ∈ due \/ due_of now w st (e :: es) d) as Happ.
  { intros d [?| ->%list_elem_of_singleton]%elem_of_app; auto. }
  destruct (_ >=? limit); [intros [= <- _ _]; exact Happ|].
  intros Hs d Hd. destruct (IH _ _ Hs d Hd) as [?|?]; auto.
Qed.

Lemma scan_keys_due now limit es_of keys due live due' live' :
  scan_keys now limit es_of keys due live = (due', live') ->
  forall d, d ∈ due' -> d ∈ due \/ exists key, key ∈ keys /\
    due_of now (nth 0 (split_colons "" key) "") (nth 1 (split_colons "" key) "") (es_of key) d.
Proof.
  revert due live. induction keys as [|key keys IH]; intros due live; cbn [scan_keys];
    [intros [= <- _]; by left|].
  destruct (scan_entries _ _ _ _ _ _ _) as [[due1 n] full] eqn:E. pose proof (scan_entries_due _ _ _ _ _ _ _ _ _ _ E) as He.
  assert (forall d, d ∈ due1 -> d ∈ due \/ exists k, k ∈ key :: keys /\
    due_of now (nth 0 (split_colons "" k) "") (nth 1 (split_colons "" k) "") (es_of k) d) as H1.
  { intros d [?|?]%He; [by left|right]. exists key. split; [left|done]. }
  destruct full; [intros [= <- _]; exact H1|]. intros Hs d Hd.
  destruct (IH _ _ Hs d Hd) as [?|(k & Hk & ?)]; [by apply H1|right]. exists k. split; [by right|done].
Qed.

(** An entry of a step's slots is recorded in its slot. *)
Lemma recorded_entry w st s j e : journal_ok localeCompare j -> journalOf w st j = Some s ->
  e ∈ entries s -> recorded w st (entry_slot e) j = Some e.
Proof.
  intros Hok Hs He. unfold recorded. rewrite Hs. cbn. apply (entry_at_Some localeCompare); [|done].
  by eapply jo_slots.
Qed.

Lemma findDueSleeps_journal now limit j : journal (findDueSleeps now limit j).2 = journal j.
Proof. unfold findDueSleeps. by destruct (scan_keys _ _ _ _ _ _). Qed.

(** Completing an entry is seen by every step of the same key alike. *)
Lemma recorded_complete_other w st w' st' sl x j sl' : journal_ok localeCompare j ->
  recorded w' st' sl' (completePending w st sl x j).2 = recorded w' st' sl' j \/
  exists e, sl' = sl /\ recorded w st sl j = Some e /\ recorded w' st' sl j = Some e /\
    is_pending e = true /\ recorded w' st' sl (completePending w st sl x j).2 = Some (completed_with x e).
Proof.
  intros Hok. destruct (recorded_complete localeCompare w st sl x j Hok) as [_ Hspec].
  destruct (decide (journalKey w' st' = journalKey w st)) as [Hk|Hk].
  - assert (forall y j, recorded w' st' y j = recorded w st y j) as Hsame.
    { intros y j0. unfold recorded, journalOf. by rewrite Hk. }
    rewrite !Hsame. specialize (Hspec sl'). cbn in Hspec. rewrite Hspec. case_decide as Hd; [|by left].
    subst. destruct (recorded w st sl j) as [e|] eqn:E; [|by left]. cbn.
    destruct (is_pending e) eqn:Hp; [right|by left]. exists e. split_and!; try done.
    rewrite Hspec. cbn. by rewrite Hp.
  - left. unfold completePending. destruct (journalOf w st j) as [s|]; [|done].
    destruct (entry_at s sl); [|done]. case_bool_decide; [done|]. cbn.
    unfold recorded, journalOf. cbn. by rewrite jlookup_insert_ne by congruence.
Qed.

Lemma same_journal_spares (s s' : ClockedStorage) : js_ok s ->
  journal_ok localeCompare (db_journal (cs_db s')) ->
  journal (db_journal (cs_db s')) = journal (db_journal (cs_db s)) -> spares_waits s s'.
Proof.
  intros [_ Hwf] Hok' Hj. split; [split; [done|]|].
  - unfold entries_wf. by rewrite Hj.
  - intros w st sl e He _. left. rewrite <- He. cbn. unfold memory_view, recorded, journalOf. by rewrite Hj.
Qed.

#[export] Instance memory_scan_laws :
  @JournalScanLaws ClockedStorage (memory_journal_store localeCompare)
    (memory_journal_laws localeCompare) memory_scans.
Proof.
  refine {| scan_ok := keys_split |}.
  - intros w st name s Hok. cbn. split; [apply same_journal_spares; by try apply Hok|].
    destruct Hok as [Hok Hwf].
    unfold findPendingJournalSignal, findPendingSignal, memory_view. cbn [cs_db].
    destruct (journalOf w st (db_journal (cs_db s))) as [sl|] eqn:Ej.
    2:{ intros x e. unfold recorded. by rewrite Ej. }
    destruct (List.find _ _) as [e|] eqn:Ef.
    + apply List.find_some in Ef as [Hin Hb]. apply list_elem_of_In in Hin.
      apply andb_prop in Hb as [[Ht%bool_decide_eq_true Hp]%andb_prop Hn%bool_decide_eq_true].
      split_and!; try done. by eapply recorded_entry.
    + intros x e He Ht Hn. unfold recorded in He. rewrite Ej in He. cbn in He.
      apply (entry_at_Some localeCompare) in He as [Hin _]; [|by eapply jo_slots].
      apply list_elem_of_In in Hin. pose proof (List.find_none _ _ Ef e Hin) as Hx. cbn in Hx.
      rewrite (bool_decide_true (je_stepType e = _)), (bool_decide_true (je_activityName e = _)) in Hx by done.
      by rewrite andb_true_r in Hx.
  - intros now limit s [Hok Hwf] Hkeys. cbn. unfold clocked, findDueJournalSleeps.
    pose proof (findDueSleeps_journal now limit (db_journal (cs_db s))) as Hj.
    destruct (exec_journal_op_refines localeCompare 0 (JFindDueSleeps now limit) _ Hok) as [Hok' _].
    cbn in Hok'. unfold findDueSleeps in *.
    destruct (scan_keys _ _ _ _ _ _) as [due live] eqn:E. cbn in Hj, Hok' |- *. split.
    + by apply same_journal_spares.
    + intros ? d [= <-] Hd. destruct (scan_keys_due _ _ _ _ _ _ _ _ E d Hd) as [Hn|(key & Hk & Hdue)];
        [by apply not_elem_of_nil in Hn|].
      destruct (Hkeys key Hk) as (w & st & -> & Hsplit). rewrite Hsplit in Hdue. cbn in Hdue.
      destruct Hdue as (Hw & Hs & e & Hin & Hslot & Hp & Hwake & Hle). exists e.
      apply andb_prop in Hp as [Ht%bool_decide_eq_true Hp]. rewrite Hslot, Hw, Hs. split_and!; try done.
      unfold memory_view. cbn. destruct (journalOf w st (db_journal (cs_db s))) as [sl|] eqn:Ej;
        unfold journalOf in Ej; rewrite Ej in Hin; [|by apply not_elem_of_nil in Hin].
      by eapply recorded_entry.
  - intros g w st sl x s Hok Hx.
    pose proof (js_complete_law g w st sl x s Hok) as Hlaw. cbn in *. unfold clocked, completePendingEntry in *.
    destruct (fenced_cases (cs_readings s (cs_reads s)) w g
      (fun s => let '(r, j) := completePending w st sl x (db_journal s) in (Ok r, set_journal j s)) (cs_db s))
      as [(u & _ & Heq)|(e & _ & Heq)]; rewrite Heq in *.
    2:{ apply same_journal_spares; by try apply Hok. }
    pose proof (fun w' st' sl' => recorded_complete_other w st w' st' sl x (db_journal (cs_db s)) sl' (proj1 Hok))
      as Hother.
    destruct (completePending w st sl x (db_journal (cs_db s))) as [r j] eqn:Ec. cbn in *.
    split; [apply Hlaw|]. intros w' st' sl' e He _. unfold memory_view in *. cbn in *.
    destruct (Hother w' st' sl') as [Hv|(e' & -> & Hv & Hv' & Hp & Hc)]; [left; by rewrite <- He|right].
    assert (Some e' = Some e) as [= ->] by (rewrite <- Hv'; exact He).
    split; [done|]. exists x. split; [|done]. by apply Hx.
Defined.
End memory.

(** A step parked on a signal and on a sleep. *)
#[local] Instance sample_store : JournalStore ClockedStorage := memory_journal_store string_cmp.
#[local] Instance sample_laws : JournalStoreLaws ClockedStorage := memory_journal_laws string_cmp.
#[local] Instance sample_scan_laws : JournalScanLaws ClockedStorage := memory_scan_laws string_cmp.

Definition parked (kind : JournalStepType) (name : string) (wakeAt : option Z) : ClockedStorage :=
  (js_appendPendingEntry None "w" "s" (mkSlot 0 "") name None kind wakeAt (p_store (sample_process 0))).2.

Lemma parked_ok kind name wakeAt : js_ok (parked kind name wakeAt).
Proof.
  pose proof (js_pending_law None "w" "s" (mkSlot 0 "") name None kind wakeAt
    (p_store (sample_process 0)) (sample_process_ok 0)) as Hl.
  unfold parked. destruct (js_appendPendingEntry _ _ _ _ _ _ _ _ _) as [r s]. apply Hl.
Qed.

Lemma signal_delivered_witness :
  let s := parked StSignal "paid" None in
  let '(r, s') := completeSignal "w" "s" "paid" (JNum 5) (fun s => s) s in
  r = Ok true /\
  exists sl e v, js_view "w" "s" s' sl = Some e /\
    je_exit e = Some (ExSuccess (deliveredSignalExitValue v)) /\ sameStoredValue v (JNum 5) = true.
Proof.
  intros s. set (c := completeSignal "w" "s" "paid" (JNum 5) (fun s => s) s).
  assert (c = (Ok true, c.2)) as Hc by (vm_compute; reflexivity).
  rewrite Hc. split; [reflexivity|].
  destruct (signal_delivered (W := unit) sample_host sample_env "paid" (JNum 5) (fun s => s) s true c.2)
    as [_ (sl & e & v & He & _ & _ & Hx & Hv & _)].
  - apply parked_ok.
  - intros s' Hs'. by apply spares_refl.
  - exact Hc.
  - by exists sl, e, v.
Defined.

Lemma due_sleeps_wake_witness :
  let s := parked StSleep "sleep" (Some 100) in
  let d := mkDueSleep "w" "s" 0 "" 100 in
  let '(r, s') := completeDueSleeps 250 10 (fun _ s => s) s in
  r = Ok [d] /\
  exists e, js_view "w" "s" s' (mkSlot 0 "") = Some e /\ je_exit e = Some (woke_exit 100).
Proof.
  intros s d. set (c := completeDueSleeps 250 10 (fun _ s => s) s).
  assert (c = (Ok [d], c.2)) as Hc by (vm_compute; reflexivity).
  rewrite Hc. split; [reflexivity|].
  destruct (due_sleeps_wake (W := unit) sample_host 250 10 (fun _ s => s) s [d] c.2) as [_ Hall].
  - apply parked_ok.
  - intros key Hk. exists "w", "s". vm_compute in Hk.
    apply list_elem_of_singleton in Hk as ->. split; vm_compute; reflexivity.
  - intros d' s' Hs'. by apply spares_refl.
  - exact Hc.
  - destruct (Hall d) as (_ & e & He & _ & Hx & _); [left|]. exists e. split; [exact He|exact Hx].
Defined.
