(* ===== verification/StartQueue.v ===== *)
(** The start queue of worker-driven runs:
    [distributed/workflow-start-queue.ts], types, helpers and the in-memory
    queue.

    A record says "please drive this run"; there is at most one per run. A
    worker claims it under a fresh token and completes it once the run has
    ended or suspended; a wake-up that arrives during the claim marks the
    record, so that completing the claim puts it back. Every method is one
    synchronous block. The clock, [crypto.randomUUID] and [Math.random] are
    streams of the host; the queue's state holds how far each was read. *)
From Stdlib Require Import QArith Qround.
From S2P Require Import Prelude Leases Json.
Open Scope string_scope.
Open Scope list_scope.
Open Scope Z_scope.

(** ** Records and parameters *)
Record WorkflowStartRecord : Type := mkStart {
  sr_id : string;
  sr_workflowId : string;
  sr_workflowName : string;
  sr_metadata : option (list (string * json));
  sr_version : option string;
  sr_enqueuedAt : Z;
  sr_availableAt : option Z;
  sr_claimedAt : option Z;
  sr_claimedBy : option string;
  sr_claimToken : option string;
  sr_heartbeatAt : option Z;
  sr_requeued : bool;
}.

Record WorkflowStartClaimRef : Type := mkClaimRef { cr_id : string; cr_claimToken : string }.

Record WorkflowStartEnqueueParams : Type := mkEnqueue {
  en_workflowId : string;
  en_workflowName : string;
  en_metadata : option (list (string * json));
  en_version : option string;
  en_keepAvailableAt : bool;
}.

Record WorkflowStartEnqueueResult : Type := mkEnqueued {
  er_id : string;
  er_created : bool;
  er_claimable : bool;
}.

Record WorkerWorkflowSpec : Type := mkSpec { sp_name : string; sp_versions : list string }.

Record WorkflowStartClaimParams : Type := mkClaim {
  cl_workflowSpecs : list WorkerWorkflowSpec;
  cl_workerId : option string;
  cl_limit : Z;
  cl_claimId : option string;
}.

Definition DEFAULT_START_LIST_LIMIT : Z := 100.
Definition DEFAULT_START_RECLAIM_AFTER_MS : Z := 120000.

(** [/^[A-Za-z0-9_-]{1,128}$/]. *)
Definition claim_id_char (c : Ascii.ascii) : bool :=
  let n := Ascii.N_of_ascii c in
  ((65 <=? n)%N && (n <=? 90)%N) || ((97 <=? n)%N && (n <=? 122)%N) || is_digit c ||
  (n =? 95)%N || (n =? 45)%N.

Definition CLAIM_ID_PATTERN (s : string) : bool :=
  (1 <=? String.length s)%nat && (String.length s <=? 128)%nat && string_forallb claim_id_char s.

(** ** Helpers *)
Definition startMatchesSpec (version : option string) (spec : WorkerWorkflowSpec) : bool :=
  negb (truthy_str version) || bool_decide (sp_versions spec = []) ||
  match version with Some v => bool_decide (v ∈ sp_versions spec) | None => false end.

(** [limit] is absent, or a number: not finite, or a rational. *)
Definition startListLimit (limit : option (option Q)) : Z :=
  match opt_or limit (Some (inject_Z DEFAULT_START_LIST_LIMIT)) with
  | Some q => Z.max 0 (Qfloor q)
  | None => DEFAULT_START_LIST_LIMIT
  end.

Definition invalid_claim_id (claimId : string) : string :=
  "invalid claimId " +:+ quoted claimId +:+ ": use letters, digits, - and _".

(** The token of the [index]-th start of a claim call, from a random UUID. *)
Definition claim_token (claimId : option string) (index : nat) (uuid : string) : string :=
  match claimId with
  | None => uuid
  | Some c => c +:+ ":" +:+ str_of_Z (Z.of_nat index) +:+ ":" +:+ uuid
  end.

Definition claimTokenFor (claimId : option string) (index : nat) (uuid : string) : res string string :=
  match claimId with
  | None => Ok (claim_token None index uuid)
  | Some c => if CLAIM_ID_PATTERN c then Ok (claim_token (Some c) index uuid) else Err (invalid_claim_id c)
  end.

Definition isTokenOfClaim (token : option string) (claimId : string) : bool :=
  match token with Some t => String.prefix (claimId +:+ ":") t | None => false end.

(** [Number.prototype.toString(36)] of an integer. *)
Definition char36 (d : Z) : Ascii.ascii :=
  Ascii.ascii_of_N (Z.to_N (if d <? 10 then 48 + d else 87 + d)).

Fixpoint digits36 (fuel : nat) (n : Z) (acc : string) : string :=
  match fuel with
  | O => acc
  | S fuel => if n <? 36 then String (char36 n) acc
              else digits36 fuel (n / 36) (String (char36 (n mod 36)) acc)
  end.

Definition toString36 (z : Z) : string :=
  if z <? 0 then "-" +:+ digits36 (Z.to_nat (Z.log2 (- z)) + 1) (- z) ""
  else digits36 (Z.to_nat (Z.log2 z) + 1) z "".

Example toString36_values :
  toString36 0 = "0" /\ toString36 1295 = "zz" /\ toString36 123456 = "2n9c" /\ toString36 (-71) = "-1z".
Proof. vm_compute. repeat split. Qed.

(** ** The queue *)
Record InMemoryWorkflowStartQueue : Type := mkStartQueue {
  records : jmap string WorkflowStartRecord;
  byWorkflowId : jmap string string;
  reclaimAfterMs : Z;
  seq : Z;
  sq_reads : nat;
  sq_uuids : nat;
  sq_randoms : nat;
}.

Definition with_records (m : jmap string WorkflowStartRecord) (q : InMemoryWorkflowStartQueue) :=
  mkStartQueue m (byWorkflowId q) (reclaimAfterMs q) (seq q) (sq_reads q) (sq_uuids q) (sq_randoms q).
Definition put_record (id : string) (r : WorkflowStartRecord) (q : InMemoryWorkflowStartQueue) :=
  with_records (<[id := r]> (records q)) q.

Definition new_start_queue (reclaim : option Z) : InMemoryWorkflowStartQueue :=
  mkStartQueue ∅ ∅ (opt_or reclaim DEFAULT_START_RECLAIM_AFTER_MS) 0 0 0 0.

Definition unclaimed (r : WorkflowStartRecord) : WorkflowStartRecord :=
  mkStart (sr_id r) (sr_workflowId r) (sr_workflowName r) (sr_metadata r) (sr_version r)
    (sr_enqueuedAt r) None None None None None false.

Definition with_requeued (r : WorkflowStartRecord) : WorkflowStartRecord :=
  mkStart (sr_id r) (sr_workflowId r) (sr_workflowName r) (sr_metadata r) (sr_version r)
    (sr_enqueuedAt r) (sr_availableAt r) (sr_claimedAt r) (sr_claimedBy r) (sr_claimToken r)
    (sr_heartbeatAt r) true.

Definition with_heartbeat (now : Z) (r : WorkflowStartRecord) : WorkflowStartRecord :=
  mkStart (sr_id r) (sr_workflowId r) (sr_workflowName r) (sr_metadata r) (sr_version r)
    (sr_enqueuedAt r) (sr_availableAt r) (sr_claimedAt r) (sr_claimedBy r) (sr_claimToken r)
    (Some now) (sr_requeued r).

Definition with_availableAt (at_ : option Z) (r : WorkflowStartRecord) : WorkflowStartRecord :=
  mkStart (sr_id r) (sr_workflowId r) (sr_workflowName r) (sr_metadata r) (sr_version r)
    (sr_enqueuedAt r) at_ (sr_claimedAt r) (sr_claimedBy r) (sr_claimToken r)
    (sr_heartbeatAt r) (sr_requeued r).

(** [{ ...unclaimed(rec), claimedAt, heartbeatAt, claimToken, claimedBy }]. *)
Definition stamped (now : Z) (workerId : option string) (token : string) (r : WorkflowStartRecord)
    : WorkflowStartRecord :=
  mkStart (sr_id r) (sr_workflowId r) (sr_workflowName r) (sr_metadata r) (sr_version r)
    (sr_enqueuedAt r) None (Some now) workerId (Some token) (Some now) false.

Section queue.
Variable clock : nat -> Z.
Variable randomUUID : nat -> string.
(** [Math.random().toString(36).slice(2, 8)]. *)
Variable random36 : nat -> string.
Implicit Types q : InMemoryWorkflowStartQueue.

Definition currentTimeMs q : Z * InMemoryWorkflowStartQueue :=
  (clock (sq_reads q),
   mkStartQueue (records q) (byWorkflowId q) (reclaimAfterMs q) (seq q) (S (sq_reads q)) (sq_uuids q)
     (sq_randoms q)).

Definition draw_uuid q : string * InMemoryWorkflowStartQueue :=
  (randomUUID (sq_uuids q),
   mkStartQueue (records q) (byWorkflowId q) (reclaimAfterMs q) (seq q) (sq_reads q) (S (sq_uuids q))
     (sq_randoms q)).

Definition start_id (now seq : Z) (random : string) : string :=
  "start-" +:+ toString36 now +:+ "-" +:+ toString36 seq +:+ "-" +:+ random.

Definition enqueue (params : WorkflowStartEnqueueParams) q
    : WorkflowStartEnqueueResult * InMemoryWorkflowStartQueue :=
  match byWorkflowId q !! en_workflowId params with
  | Some existing =>
      match records q !! existing with
      | Some rec =>
          if bool_decide (sr_claimToken rec <> None) then
            (mkEnqueued existing false false, put_record existing (with_requeued rec) q)
          else match sr_availableAt rec with
               | Some at_ =>
                   if en_keepAvailableAt params then (mkEnqueued existing false false, q)
                   else let '(now, q) := currentTimeMs q in
                        (mkEnqueued existing false (at_ >? now), put_record existing (unclaimed rec) q)
               | None => (mkEnqueued existing false false, q)
               end
      | None => (mkEnqueued existing false false, q)
      end
  | None =>
      let '(now, q) := currentTimeMs q in
      let n := seq q + 1 in
      let id := start_id now n (random36 (sq_randoms q)) in
      (mkEnqueued id true true,
       mkStartQueue
         (<[id := mkStart id (en_workflowId params) (en_workflowName params) (en_metadata params)
                    (en_version params) now None None None None None false]> (records q))
         (<[en_workflowId params := id]> (byWorkflowId q))
         (reclaimAfterMs q) n (sq_reads q) (sq_uuids q) (S (sq_randoms q)))
  end.

(** The claim's last sign of life is older than the reclaim window. *)
Definition is_stale (cutoff : Z) (r : WorkflowStartRecord) : bool :=
  bool_decide (sr_claimToken r <> None) &&
  (opt_or (opt_else (sr_heartbeatAt r) (sr_claimedAt r)) 0 <? cutoff).

Definition reclaimStale q : InMemoryWorkflowStartQueue :=
  let '(now, q) := currentTimeMs q in
  let cutoff := now - reclaimAfterMs q in
  foldl (fun q kv => if is_stale cutoff kv.2 then put_record kv.1 (unclaimed kv.2) q else q)
    q (jm_entries (records q)).

(** The record, if [ref] is its current claim. *)
Definition current (ref : WorkflowStartClaimRef) q : option WorkflowStartRecord :=
  match records q !! cr_id ref with
  | Some rec => if bool_decide (sr_claimToken rec = Some (cr_claimToken ref)) then Some rec else None
  | None => None
  end.

Definition claimable_now (specByName : jmap string WorkerWorkflowSpec) (now : Z)
    (rec : WorkflowStartRecord) : bool :=
  bool_decide (sr_claimToken rec = None) &&
  match specByName !! sr_workflowName rec with
  | Some spec => startMatchesSpec (sr_version rec) spec
  | None => false
  end &&
  match sr_availableAt rec with Some at_ => at_ <=? now | None => true end.

(** The loop over the records, oldest first. *)
Fixpoint claim_loop (params : WorkflowStartClaimParams) (specByName : jmap string WorkerWorkflowSpec)
    (now : Z) (recs claimed : list WorkflowStartRecord) q
    : list WorkflowStartRecord * InMemoryWorkflowStartQueue :=
  match recs with
  | [] => (claimed, q)
  | rec :: recs =>
      if Z.of_nat (length claimed) >=? cl_limit params then (claimed, q)
      else if claimable_now specByName now rec then
        let '(uuid, q) := draw_uuid q in
        let token := claim_token (cl_claimId params) (length claimed) uuid in
        let r := stamped now (cl_workerId params) token rec in
        claim_loop params specByName now recs (claimed ++ [r]) (put_record (sr_id rec) r q)
      else claim_loop params specByName now recs claimed q
  end.

Definition specs_by_name (specs : list WorkerWorkflowSpec) : jmap string WorkerWorkflowSpec :=
  foldl (fun m spec => <[sp_name spec := spec]> m) ∅ specs.

Definition claim (params : WorkflowStartClaimParams) q
    : res string (list WorkflowStartRecord) * InMemoryWorkflowStartQueue :=
  let q := reclaimStale q in
  let fresh q :=
    let specByName := specs_by_name (cl_workflowSpecs params) in
    let '(now, q) := currentTimeMs q in
    let '(l, q) := claim_loop params specByName now (jm_values (records q)) [] q in
    (Ok l, q) in
  match cl_claimId params with
  | Some claimId =>
      let '(uuid, q) := if CLAIM_ID_PATTERN claimId then draw_uuid q else ("", q) in
      match claimTokenFor (Some claimId) 0 uuid with
      | Err e => (Err e, q)
      | Ok _ =>
          match List.filter (fun r => isTokenOfClaim (sr_claimToken r) claimId) (jm_values (records q)) with
          | [] => fresh q
          | already => (Ok already, q)
          end
      end
  | None => fresh q
  end.

Definition heartbeat (ref : WorkflowStartClaimRef) q : bool * InMemoryWorkflowStartQueue :=
  let q := reclaimStale q in
  match current ref q with
  | None => (false, q)
  | Some rec =>
      let '(now, q) := currentTimeMs q in
      (true, put_record (cr_id ref) (with_heartbeat now rec) q)
  end.

Definition complete (ref : WorkflowStartClaimRef) q : bool * InMemoryWorkflowStartQueue :=
  match current ref q with
  | None => (false, q)
  | Some rec =>
      if sr_requeued rec then (true, put_record (cr_id ref) (unclaimed rec) q)
      else (true, mkStartQueue (delete (cr_id ref) (records q)) (delete (sr_workflowId rec) (byWorkflowId q))
                    (reclaimAfterMs q) (seq q) (sq_reads q) (sq_uuids q) (sq_randoms q))
  end.

Definition release (ref : WorkflowStartClaimRef) (delayMs : option Z) q
    : bool * InMemoryWorkflowStartQueue :=
  match current ref q with
  | None => (false, q)
  | Some rec =>
      let delay := if sr_requeued rec then 0 else Z.max 0 (opt_or delayMs 0) in
      if delay >? 0 then
        let '(now, q) := currentTimeMs q in
        (true, put_record (cr_id ref) (with_availableAt (Some (now + delay)) (unclaimed rec)) q)
      else (true, put_record (cr_id ref) (unclaimed rec) q)
  end.

Definition list_starts (limit : option (option Q)) q
    : list WorkflowStartRecord * InMemoryWorkflowStartQueue :=
  let q := reclaimStale q in
  (take (Z.to_nat (startListLimit limit)) (jm_values (records q)), q).

(** *** Calls as steps *)
Inductive start_op : Type :=
| SEnqueue (params : WorkflowStartEnqueueParams)
| SClaim (params : WorkflowStartClaimParams)
| SHeartbeat (ref : WorkflowStartClaimRef)
| SComplete (ref : WorkflowStartClaimRef)
| SRelease (ref : WorkflowStartClaimRef) (delayMs : option Z)
| SList (limit : option (option Q)).

Definition start_step (op : start_op) q : InMemoryWorkflowStartQueue :=
  match op with
  | SEnqueue params => (enqueue params q).2
  | SClaim params => (claim params q).2
  | SHeartbeat ref => (heartbeat ref q).2
  | SComplete ref => (complete ref q).2
  | SRelease ref delayMs => (release ref delayMs q).2
  | SList limit => (list_starts limit q).2
  end.

Fixpoint run_starts (ops : list start_op) q : InMemoryWorkflowStartQueue :=
  match ops with [] => q | op :: ops => run_starts ops (start_step op q) end.

(** The token of the claim a run's record is under. *)
Definition run_token (w : string) q : option string :=
  match byWorkflowId q !! w with
  | Some id => records q !! id ≫= sr_claimToken
  | None => None
  end.

(** The call gives out the run [w] under a claim it was not under before. *)
Definition grants (w : string) (op : start_op) q : bool :=
  match op with
  | SClaim params =>
      match (claim params q).1 with
      | Ok l => existsb (fun r => bool_decide (sr_workflowId r = w) &&
                           bool_decide (sr_claimToken r <> run_token w q)) l
      | Err _ => false
      end
  | _ => false
  end.

Fixpoint granted_in (w : string) (ops : list start_op) q : bool :=
  match ops with
  | [] => false
  | op :: ops => grants w op q || granted_in w ops (start_step op q)
  end.
End queue.

(** ** Texts *)
Section texts.
Definition digit36 (c : Ascii.ascii) : Z :=
  let n := Z.of_N (Ascii.N_of_ascii c) in if n <? 58 then n - 48 else n - 87.

Fixpoint value36 (s : string) (a : Z) : Z :=
  match s with "" => a | String c s => value36 s (36 * a + digit36 c) end.

Lemma digit36_char36 d : 0 <= d < 36 -> digit36 (char36 d) = d.
Proof.
  intros Hd. unfold digit36, char36. rewrite Ascii.N_ascii_embedding.
  - destruct (Z.ltb_spec d 10); rewrite Z2N.id by lia; case_match; lia.
  - destruct (Z.ltb_spec d 10); lia.
Qed.

Lemma value36_digits36 fuel n acc : 0 <= n < 2 ^ Z.of_nat fuel ->
  value36 (digits36 fuel n acc) 0 = value36 acc n.
Proof.
  revert n acc. induction fuel as [|fuel IH]; intros n acc Hn; cbn [digits36].
  - change (Z.of_nat 0) with 0 in Hn. by replace n with 0 by lia.
  - rewrite Nat2Z.inj_succ, Z.pow_succ_r in Hn by lia.
    destruct (Z.ltb_spec n 36) as [Hs|Hs]; cbn [value36].
    + by rewrite digit36_char36 by lia.
    + pose proof (Z_div_mod_eq_full n 36) as Hdm. pose proof (Z.mod_pos_bound n 36) as Hm.
      rewrite IH by (split; [apply Z.div_pos; lia|apply Z.div_lt_upper_bound; lia]).
      cbn [value36]. rewrite digit36_char36 by lia. f_equal. lia.
Qed.

Definition plain36 (c : Ascii.ascii) : bool :=
  is_digit c || ((97 <=? Ascii.N_of_ascii c)%N && (Ascii.N_of_ascii c <=? 122)%N).

Lemma plain_char36 d : 0 <= d < 36 -> plain36 (char36 d) = true.
Proof.
  intros Hd. assert (forallb (fun d => plain36 (char36 (Z.of_nat d))) (List.seq 0 36) = true) as Hall by reflexivity.
  rewrite forallb_forall in Hall. specialize (Hall (Z.to_nat d)). rewrite Z2Nat.id in Hall by lia.
  apply Hall, List.in_seq. lia.
Qed.

Lemma digits36_plain fuel n acc : 0 <= n -> string_forallb plain36 acc = true ->
  string_forallb plain36 (digits36 fuel n acc) = true.
Proof.
  revert n acc. induction fuel as [|fuel IH]; intros n acc Hn Hacc; cbn [digits36]; [done|].
  destruct (Z.ltb_spec n 36).
  - cbn. rewrite plain_char36 by lia. done.
  - apply IH; [apply Z.div_pos; lia|]. cbn. rewrite plain_char36 by (apply Z.mod_pos_bound; lia). done.
Qed.

Lemma toString36_pos z : 0 <= z -> string_forallb plain36 (toString36 z) = true /\ value36 (toString36 z) 0 = z.
Proof.
  intros Hz. unfold toString36. destruct (Z.ltb_spec z 0); [lia|]. split; [by apply digits36_plain|].
  rewrite value36_digits36; [done|]. split; [done|].
  rewrite Nat2Z.inj_add, Z2Nat.id by apply Z.log2_nonneg. change (Z.of_nat 1) with 1.
  destruct (decide (z = 0)) as [->|]; [done|].
  rewrite Z.add_1_r. apply Z.log2_spec. lia.
Qed.

Lemma digits36_nonempty fuel n acc : acc <> "" -> digits36 fuel n acc <> "".
Proof.
  revert n acc. induction fuel as [|fuel IH]; intros n acc Ha; cbn [digits36]; [done|].
  destruct (n <? 36); [done|by apply IH].
Qed.

Lemma toString36_nonempty z : 0 <= z -> toString36 z <> "".
Proof.
  intros Hz. unfold toString36. destruct (Z.ltb_spec z 0); [lia|]. rewrite Nat.add_1_r. cbn [digits36].
  destruct (z <? 36); [done|by apply digits36_nonempty].
Qed.

Lemma split_at (p : Ascii.ascii -> bool) (sep : Ascii.ascii) (a b r s : string) : p sep = false ->
  string_forallb p a = true -> string_forallb p b = true ->
  a +:+ (String sep "" +:+ r) = b +:+ (String sep "" +:+ s) -> a = b /\ r = s.
Proof.
  intros Hp Ha Hb E. destruct (string_split_unique p a b (String sep "" +:+ r) (String sep "" +:+ s) Ha Hb Hp Hp E) as [-> E'].
  split; [done|]. by apply string_app_inj_l in E'.
Qed.

Lemma start_id_tail (a b : string) n m x y : string_forallb plain36 a = true ->
  string_forallb plain36 b = true -> 0 <= n -> 0 <= m ->
  a +:+ ("-" +:+ (toString36 n +:+ ("-" +:+ x))) = b +:+ ("-" +:+ (toString36 m +:+ ("-" +:+ y))) -> n = m.
Proof.
  intros Ha Hb Hn Hm E. apply (split_at plain36) in E as [_ E']; [|done..].
  destruct (toString36_pos n Hn) as [Hpn Hvn], (toString36_pos m Hm) as [Hpm Hvm].
  apply (split_at plain36) in E' as [E'' _]; [|done..]. congruence.
Qed.

Lemma plain_head (a r s : string) : string_forallb plain36 a = true -> a <> "" ->
  a +:+ r <> "-" +:+ s.
Proof. destruct a as [|c a]; [done|]. cbn. intros [Hc _]%andb_prop _ [= -> _]. by vm_compute in Hc. Qed.

Lemma start_id_inj t n x t' n' x' : 0 <= n -> 0 <= n' -> start_id t n x = start_id t' n' x' -> n = n'.
Proof.
  intros Hn Hn' E. unfold start_id in E. apply string_app_inj_l in E.
  unfold toString36 at 1 3 in E. destruct (Z.ltb_spec t 0), (Z.ltb_spec t' 0).
  - rewrite !(string_app_assoc "-") in E. apply string_app_inj_l in E.
    eapply start_id_tail; [| | | |exact E]; try done; apply digits36_plain; done || lia.
  - exfalso. rewrite (string_app_assoc "-") in E. symmetry in E. eapply plain_head; [| |exact E].
    + by apply digits36_plain.
    + pose proof (toString36_nonempty t' ltac:(lia)) as Hne. unfold toString36 in Hne.
      by rewrite (proj2 (Z.ltb_ge _ _)) in Hne by lia.
  - exfalso. rewrite (string_app_assoc "-") in E. eapply plain_head; [| |exact E].
    + by apply digits36_plain.
    + pose proof (toString36_nonempty t ltac:(lia)) as Hne. unfold toString36 in Hne.
      by rewrite (proj2 (Z.ltb_ge _ _)) in Hne by lia.
  - eapply start_id_tail; [| | | |exact E]; try done; by apply digits36_plain.
Qed.

Definition not_colon (c : Ascii.ascii) : bool := negb (Ascii.N_of_ascii c =? 58)%N.

Definition claim_id_ok (c : option string) : bool := from_option CLAIM_ID_PATTERN true c.

Lemma claim_id_plain c : CLAIM_ID_PATTERN c = true -> string_forallb not_colon c = true.
Proof.
  intros [_ Hc]%andb_prop. eapply string_forallb_impl; [|exact Hc]. intros a.
  unfold claim_id_char, not_colon, is_digit. rewrite negb_true_iff, N.eqb_neq.
  intros Ha Hn. rewrite Hn in Ha. by vm_compute in Ha.
Qed.

Lemma index_plain (i : nat) : string_forallb not_colon (str_of_Z (Z.of_nat i)) = true.
Proof.
  eapply string_forallb_impl; [|apply str_of_Z_chars]. intros a.
  unfold is_num_char, not_colon, is_digit. rewrite negb_true_iff, N.eqb_neq.
  intros Ha Hn. rewrite Hn in Ha. by vm_compute in Ha.
Qed.

(** A token names its claim id and its random part. *)
Lemma start_token_inj c i u c' i' u' : claim_id_ok c = true -> claim_id_ok c' = true ->
  string_forallb not_colon u = true -> string_forallb not_colon u' = true ->
  claim_token c i u = claim_token c' i' u' -> c = c' /\ u = u'.
Proof.
  assert (forall c i u u', CLAIM_ID_PATTERN c = true -> string_forallb not_colon u' = true ->
    claim_token (Some c) i u <> u') as Hmixed.
  { intros a j v v' _ Hv <-. cbn in Hv. rewrite string_forallb_app in Hv. cbn in Hv.
    by rewrite andb_false_r in Hv. }
  destruct c as [c|], c' as [c'|]; cbn [claim_id_ok from_option]; intros Hc Hc' Hu Hu' E.
  - cbn in E. apply claim_id_plain in Hc, Hc'.
    apply (split_at not_colon) in E as [-> E1]; [|done..].
    by apply (split_at not_colon) in E1 as [_ ->]; [|done|apply index_plain..].
  - by apply Hmixed in E.
  - symmetry in E. by apply Hmixed in E.
  - done.
Qed.

Lemma prefix_app (a b : string) : String.prefix a (a +:+ b) = true.
Proof.
  induction a as [|c a IH]; [by rewrite string_app_nil; destruct b|]. rewrite string_app_cons. cbn.
  destruct (Ascii.ascii_dec c c) as [|Hn]; [exact IH|by destruct Hn].
Qed.

Lemma prefix_inv (a s : string) : String.prefix a s = true -> exists b, s = a +:+ b.
Proof.
  revert s. induction a as [|c a IH]; intros s; cbn; [by exists s; rewrite string_app_nil|].
  destruct s as [|d s]; [done|]. cbn. destruct (Ascii.ascii_dec c d) as [->|]; [|done].
  intros [b ->]%IH. exists b. by rewrite string_app_cons.
Qed.

(** [isTokenOfClaim] recognises exactly the tokens of that claim id. *)
Lemma isTokenOfClaim_iff c i u claimId : claim_id_ok c = true -> CLAIM_ID_PATTERN claimId = true ->
  string_forallb not_colon u = true ->
  isTokenOfClaim (Some (claim_token c i u)) claimId = true <-> c = Some claimId.
Proof.
  intros Hc Hid Hu. unfold isTokenOfClaim. split.
  - intros [b Hb]%prefix_inv. rewrite string_app_assoc in Hb. destruct c as [c|]; cbn in Hb.
    + apply claim_id_plain in Hc, Hid.
      by apply (split_at not_colon) in Hb as [-> _].
    + rewrite Hb, string_forallb_app in Hu. cbn in Hu. by rewrite andb_false_r in Hu.
  - intros ->. cbn [claim_token]. rewrite <- string_app_assoc. apply prefix_app.
Qed.
End texts.

(** ** The sweep of stale claims *)
Lemma alist_set_here {K V} `{EqDecision K} (l l' : list (K * V)) k v w : k ∉ l.*1 ->
  alist_set k w (l ++ (k, v) :: l') = l ++ (k, w) :: l'.
Proof.
  induction l as [|[k' v'] l IH]; cbn; [by rewrite decide_True|].
  intros [Hn Hni]%not_elem_of_cons. rewrite decide_False by done. by rewrite IH.
Qed.

Definition reclaimed (cutoff : Z) (r : WorkflowStartRecord) : WorkflowStartRecord :=
  if is_stale cutoff r then unclaimed r else r.

Lemma sweep_records cutoff l q : NoDup l.*1 ->
  foldl (fun q kv => if is_stale cutoff kv.2 then put_record kv.1 (unclaimed kv.2) q else q)
    (with_records (JMap l) q) l = with_records (jm_map (reclaimed cutoff) (JMap l)) q.
Proof.
  intros Hn. assert (forall todo dn, NoDup (dn ++ todo).*1 ->
    foldl (fun q kv => if is_stale cutoff kv.2 then put_record kv.1 (unclaimed kv.2) q else q)
      (with_records (JMap (dn ++ todo)) q) todo =
    with_records (JMap (dn ++ map (fun kv : string * WorkflowStartRecord => (kv.1, reclaimed cutoff kv.2)) todo)) q)
    as Hgen; [|by apply (Hgen l [])].
  induction todo as [|[k v] todo IH]; intros dn Hd; cbn [foldl map]; [done|].
  assert ((if is_stale cutoff (k, v).2 then put_record (k, v).1 (unclaimed (k, v).2)
             (with_records (JMap (dn ++ (k, v) :: todo)) q)
           else with_records (JMap (dn ++ (k, v) :: todo)) q) =
          with_records (JMap ((dn ++ [(k, reclaimed cutoff v)]) ++ todo)) q) as ->.
  { unfold reclaimed. cbn [fst snd]. rewrite <- app_assoc. cbn [app]. destruct (is_stale cutoff v); [|done].
    transitivity (with_records (JMap (alist_set k (unclaimed v) (dn ++ (k, v) :: todo))) q);
      [reflexivity|]. do 2 f_equal. apply alist_set_here.
    rewrite fmap_app, NoDup_app in Hd. destruct Hd as (_ & Hd & _). intros Hin. apply (Hd k Hin). left. }
  rewrite IH.
  - rewrite <- app_assoc. done.
  - rewrite <- app_assoc. cbn [app]. rewrite fmap_app in *. exact Hd.
Qed.

Section invariant.
Variable clock : nat -> Z.
Variable randomUUID : nat -> string.
Variable random36 : nat -> string.
Hypothesis uuid_inj : forall n m, randomUUID n = randomUUID m -> n = m.
Hypothesis uuid_plain : forall n, string_forallb not_colon (randomUUID n) = true.
Implicit Types (q : InMemoryWorkflowStartQueue) (r : WorkflowStartRecord).

Lemma reclaimStale_records q : jm_wf (records q) ->
  reclaimStale clock q =
    with_records (jm_map (reclaimed (clock (sq_reads q) - reclaimAfterMs q)) (records q))
      (currentTimeMs clock q).2.
Proof.
  intros Hwf. unfold reclaimStale. cbn -[with_records]. destruct (records q) as [l] eqn:El. cbn.
  rewrite <- sweep_records by done. by unfold with_records.
Qed.

(** ** The claim loop *)

(** What one pass stamps: the first free places of [limit], in order. *)
Definition chosen (params : WorkflowStartClaimParams) specs now taken (recs : list WorkflowStartRecord) :=
  take (Z.to_nat (cl_limit params - Z.of_nat taken))
    (List.filter (claimable_now specs now) recs).

Definition stamp_all (params : WorkflowStartClaimParams) now taken uuids (recs : list WorkflowStartRecord) :=
  imap (fun i r => stamped now (cl_workerId params)
          (claim_token (cl_claimId params) (taken + i) (randomUUID (uuids + i))) r) recs.

Definition put_all (l : list WorkflowStartRecord) q : InMemoryWorkflowStartQueue :=
  foldl (fun q r => put_record (sr_id r) r q) q l.

Definition bump_uuids (n : nat) q : InMemoryWorkflowStartQueue :=
  mkStartQueue (records q) (byWorkflowId q) (reclaimAfterMs q) (seq q) (sq_reads q) (sq_uuids q + n)
    (sq_randoms q).

Lemma put_all_bump l n q : put_all l (bump_uuids n q) = bump_uuids n (put_all l q).
Proof. revert q. induction l as [|r l IH]; intros q; [done|]. exact (IH (put_record (sr_id r) r q)). Qed.

Lemma bump_uuids_add a b q : bump_uuids a (bump_uuids b q) = bump_uuids (b + a) q.
Proof. unfold bump_uuids; cbn. by rewrite Nat.add_assoc. Qed.

Lemma stamp_all_cons params now taken uuids r recs :
  stamp_all params now taken uuids (r :: recs) =
    stamped now (cl_workerId params) (claim_token (cl_claimId params) taken (randomUUID uuids)) r ::
    stamp_all params now (S taken) (S uuids) recs.
Proof.
  unfold stamp_all. cbn [imap]. rewrite !Nat.add_0_r. f_equal. apply imap_ext. intros i x _. cbn.
  by rewrite !Nat.add_succ_r.
Qed.

Lemma claim_loop_eq params specs now recs claimed q :
  let new := stamp_all params now (length claimed) (sq_uuids q)
               (chosen params specs now (length claimed) recs) in
  claim_loop randomUUID params specs now recs claimed q =
    (claimed ++ new, put_all new (bump_uuids (length new) q)).
Proof.
  cbn zeta. revert claimed q. induction recs as [|r recs IH]; intros claimed q; cbn [claim_loop].
  - unfold chosen. cbn. rewrite take_nil. cbn. rewrite app_nil_r. f_equal.
    unfold bump_uuids. rewrite Nat.add_0_r. by destruct q.
  - assert (bump_uuids 0 q = q) as Hb by (unfold bump_uuids; rewrite Nat.add_0_r; by destruct q).
    destruct (Z.geb_spec (Z.of_nat (length claimed)) (cl_limit params)) as [Hl|Hl].
    + unfold chosen. replace (Z.to_nat (cl_limit params - Z.of_nat (length claimed))) with 0%nat by lia.
      cbn. rewrite app_nil_r. f_equal. by symmetry.
    + unfold chosen. cbn [List.filter]. destruct (claimable_now specs now r) eqn:Ec.
      * unfold draw_uuid. replace (Z.to_nat (cl_limit params - Z.of_nat (length claimed)))
          with (S (Z.to_nat (cl_limit params - Z.of_nat (S (length claimed))))) by lia.
        cbn [take]. rewrite stamp_all_cons. rewrite IH, length_app. cbn [length sq_uuids].
        rewrite Nat.add_1_r. fold (chosen params specs now (S (length claimed)) recs).
        set (new := stamp_all _ _ _ _ _). rewrite <- app_assoc. cbn [app]. f_equal.
        change (put_all (stamped ?n ?w ?t ?x :: new) ?y)
          with (put_all new (put_record (sr_id x) (stamped n w t x) y)).
        cbn [length]. f_equal. unfold put_record, with_records, bump_uuids. cbn. by rewrite Nat.add_succ_r.
      * rewrite IH. done.
Qed.

(** ** The queue's invariant *)
Definition minted q (t : string) : Prop :=
  exists c i n, (n < sq_uuids q)%nat /\ claim_id_ok c = true /\ t = claim_token c i (randomUUID n).

Definition flags_ok r : Prop :=
  (sr_requeued r = true -> sr_claimToken r <> None) /\
  (sr_claimToken r <> None -> sr_availableAt r = None).

Record start_ok q : Prop := mkStartOk {
  so_wf : jm_wf (records q);
  so_id : forall k r, records q !! k = Some r -> sr_id r = k;
  so_run : forall w id, byWorkflowId q !! w = Some id <->
             exists r, records q !! id = Some r /\ sr_workflowId r = w;
  so_seq : 0 <= seq q;
  so_key : forall k r, records q !! k = Some r ->
             exists t n x, 0 <= n <= seq q /\ k = start_id t n x;
  so_minted : forall k r t, records q !! k = Some r -> sr_claimToken r = Some t -> minted q t;
  so_unique : forall k k' r r' t, records q !! k = Some r -> records q !! k' = Some r' ->
                sr_claimToken r = Some t -> sr_claimToken r' = Some t -> k = k';
  so_flags : forall k r, records q !! k = Some r -> flags_ok r;
}.

Lemma start_ok_new reclaim : start_ok (new_start_queue reclaim).
Proof.
  assert (forall k (r : WorkflowStartRecord), (∅ : jmap string WorkflowStartRecord) !! k = Some r -> False)
    as He by (intros k r Hr; by rewrite jlookup_empty in Hr).
  split; cbn; try (by intros; exfalso; eapply He); [apply jm_wf_empty| |done].
  intros w id. rewrite jlookup_empty. split; [done|]. by intros (r & ?%He & _).
Qed.

(** Only host streams moved. *)
Lemma start_ok_same q q' : records q' = records q -> byWorkflowId q' = byWorkflowId q ->
  seq q' = seq q -> (sq_uuids q <= sq_uuids q')%nat -> start_ok q -> start_ok q'.
Proof.
  intros Hr Hb Hs Hu []. split; rewrite ?Hr, ?Hb, ?Hs; try done.
  intros k r t Hk Ht. destruct (so_minted0 k r t Hk Ht) as (c & i & n & Hn & Hc).
  exists c, i, n. split; [lia|done].
Qed.

(** A record changes and keeps its identity and its token, or loses the
    token, or gets one that no record has. *)
Lemma start_ok_update k r r' q : start_ok q -> records q !! k = Some r ->
  sr_id r' = sr_id r -> sr_workflowId r' = sr_workflowId r -> flags_ok r' ->
  (forall t, sr_claimToken r' = Some t -> sr_claimToken r = Some t \/
     (minted q t /\ forall k r, records q !! k = Some r -> sr_claimToken r <> Some t)) ->
  start_ok (put_record k r' q).
Proof.
  intros [] Hr Hid Hw Hflags Htok. split; cbn; try done.
  - by apply jm_wf_insert.
  - intros k' x. rewrite jlookup_insert. case_decide; [intros [= <-]; subst; rewrite Hid; by apply so_id0|apply so_id0].
  - intros w id. rewrite so_run0. split; intros (x & Hx & Hxw).
    + destruct (decide (k = id)) as [->|Hne].
      * exists r'. rewrite jlookup_insert_eq. split; [done|]. congruence.
      * exists x. by rewrite jlookup_insert_ne.
    + rewrite jlookup_insert in Hx. case_decide; [|by exists x]. subst. injection Hx as <-.
      exists r. by rewrite <- Hw.
  - intros k' x Hx. rewrite jlookup_insert in Hx. case_decide; subst; [by apply (so_key0 _ r)|by eapply so_key0].
  - intros k' x t Hx Ht. rewrite jlookup_insert in Hx. case_decide; [|by eapply so_minted0].
    injection Hx as <-. destruct (Htok t Ht) as [?|[? _]]; [by eapply so_minted0|done].
  - intros k1 k2 r1 r2 t. rewrite !jlookup_insert. repeat case_decide; try congruence; subst.
    + intros [= <-] H2 Ht1 Ht2. destruct (Htok t Ht1) as [H1|[_ Hn]]; [by eapply so_unique0|].
      by apply (Hn _ _ H2) in Ht2.
    + intros H1 [= <-] Ht1 Ht2. destruct (Htok t Ht2) as [H2|[_ Hn]]; [by eapply so_unique0|].
      by apply (Hn _ _ H1) in Ht1.
    + by eapply so_unique0.
  - intros k' x Hx. rewrite jlookup_insert in Hx. case_decide; [by injection Hx as <-|by eapply so_flags0].
Qed.

(** A token that is not minted is no record's. *)
Lemma fresh_token q c i n : start_ok q -> claim_id_ok c = true -> (sq_uuids q <= n)%nat ->
  forall k r, records q !! k = Some r -> sr_claimToken r <> Some (claim_token c i (randomUUID n)).
Proof.
  intros [] Hc Hle k r Hr Ht. destruct (so_minted0 k r _ Hr Ht) as (c' & i' & n' & Hn & Hc' & E).
  apply start_token_inj in E as [_ E]; [|done..]. apply uuid_inj in E. lia.
Qed.

Lemma flags_unclaimed r : flags_ok (unclaimed r).
Proof. by split. Qed.

Lemma flags_stamped now w t r : flags_ok (stamped now w t r).
Proof. by split. Qed.

Lemma start_ok_stamp k r q now w c i : start_ok q -> records q !! k = Some r -> claim_id_ok c = true ->
  start_ok (put_record k (stamped now w (claim_token c i (randomUUID (sq_uuids q))) r)
              (draw_uuid randomUUID q).2).
Proof.
  intros Hq Hr Hc. apply (start_ok_update k r); cbn; try done.
  - eapply start_ok_same; [..|exact Hq]; cbn; try done. lia.
  - intros t [= <-]. right. split; [by exists c, i, (sq_uuids q); split; [cbn; lia|]|].
    by apply fresh_token.
Qed.

Lemma reclaimed_cases cutoff r : reclaimed cutoff r = r \/ reclaimed cutoff r = unclaimed r.
Proof. unfold reclaimed. destruct (is_stale cutoff r); auto. Qed.

Lemma reclaimed_same cutoff r : sr_id (reclaimed cutoff r) = sr_id r /\
  sr_workflowId (reclaimed cutoff r) = sr_workflowId r.
Proof. by destruct (reclaimed_cases cutoff r) as [ -> | -> ]. Qed.

Lemma reclaimed_token cutoff r t : sr_claimToken (reclaimed cutoff r) = Some t -> sr_claimToken r = Some t.
Proof. by destruct (reclaimed_cases cutoff r) as [ -> | -> ]. Qed.

Lemma reclaimStale_lookup q k : start_ok q ->
  records (reclaimStale clock q) !! k =
    reclaimed (clock (sq_reads q) - reclaimAfterMs q) <$> (records q !! k).
Proof. intros Hq. rewrite reclaimStale_records by apply Hq. apply jlookup_map. Qed.

Lemma reclaim_ok q : start_ok q -> start_ok (reclaimStale clock q).
Proof.
  intros Hq. rewrite reclaimStale_records by apply Hq. set (f := reclaimed _).
  assert (forall k r', jm_map f (records q) !! k = Some r' -> exists r, records q !! k = Some r /\ r' = f r)
    as Hlook.
  { intros k r'. rewrite jlookup_map. destruct (records q !! k) as [r|]; [|done]. intros [= <-]. by exists r. }
  destruct Hq. split; cbn; try done.
  - by apply jm_wf_map.
  - intros k r' (r & Hr & ->)%Hlook. unfold f. rewrite (proj1 (reclaimed_same _ _)). by apply so_id0.
  - intros w id. rewrite so_run0, jlookup_map. split.
    + intros (r & -> & <-). exists (f r). split; [done|]. apply reclaimed_same.
    + intros (r' & Hr & <-). destruct (records q !! id) as [r|]; [|done]. injection Hr as <-.
      exists r. split; [done|]. symmetry. apply reclaimed_same.
  - intros k r' (r & Hr & _)%Hlook. by eapply so_key0.
  - intros k r' t (r & Hr & ->)%Hlook Ht. apply reclaimed_token in Ht. by eapply so_minted0.
  - intros k k' r1 r2 t (x1 & H1 & ->)%Hlook (x2 & H2 & ->)%Hlook Ht1 Ht2.
    apply reclaimed_token in Ht1, Ht2. by eapply so_unique0.
  - intros k r' (r & Hr & ->)%Hlook. destruct (reclaimed_cases (clock (sq_reads q) - reclaimAfterMs q) r) as [E|E];
      unfold f; rewrite E; [by eapply so_flags0|apply flags_unclaimed].
Qed.

(** The records the loop walks are the queue's. *)
Definition walks (recs : list WorkflowStartRecord) q : Prop :=
  NoDup (sr_id <$> recs) /\ forall r, r ∈ recs -> records q !! sr_id r = Some r.

Lemma values_walk q : start_ok q -> walks (jm_values (records q)) q.
Proof.
  intros []. assert (sr_id <$> jm_values (records q) = jm_keys (records q)) as E.
  { unfold jm_values, jm_keys. rewrite <- list_fmap_compose. apply list_fmap_ext. intros i [k r] Hkr.
    apply so_id0, jlookup_wf_elem; [done|]. by eapply list_elem_of_lookup_2. }
  split; [by rewrite E|]. intros r [k Hk]%jm_values_elem. apply jlookup_wf_elem in Hk; [|done].
  by rewrite (so_id0 k r Hk).
Qed.

Lemma claim_loop_ok params specs now recs claimed q : walks recs q -> start_ok q ->
  claim_id_ok (cl_claimId params) = true ->
  start_ok (claim_loop randomUUID params specs now recs claimed q).2.
Proof.
  intros Hw Hq Hc. revert claimed q Hw Hq. induction recs as [|r recs IH]; intros claimed q Hw Hq; cbn [claim_loop]; [done|].
  destruct Hw as [Hnd Hin]. cbn in Hnd. apply NoDup_cons in Hnd as [Hni Hnd].
  destruct (_ >=? _); [done|]. destruct (claimable_now specs now r).
  - cbn [draw_uuid]. apply IH.
    + split; [done|]. intros r' Hr'. cbn. rewrite jlookup_insert_ne; [apply Hin; by right|].
      intros E. apply Hni. rewrite E. by apply list_elem_of_fmap_2.
    + apply start_ok_stamp; [done| |done]. apply Hin. left.
  - apply IH; [|done]. split; [done|]. intros; apply Hin. by right.
Qed.

Lemma bumped_ok q : start_ok q -> start_ok (currentTimeMs clock q).2.
Proof. intros Hq. by eapply start_ok_same; [..|exact Hq]. Qed.

Lemma current_Some ref q r : current ref q = Some r ->
  records q !! cr_id ref = Some r /\ sr_claimToken r = Some (cr_claimToken ref).
Proof. unfold current. destruct (records q !! cr_id ref); [|done]. case_bool_decide; [|done]. by intros [= <-]. Qed.

(** ** The claim call *)
Definition held_of (claimId : string) (recs : list WorkflowStartRecord) : list WorkflowStartRecord :=
  List.filter (fun r => isTokenOfClaim (sr_claimToken r) claimId) recs.

(** The queue once stale claims are back and the id was checked. *)
Definition prepared (params : WorkflowStartClaimParams) q : InMemoryWorkflowStartQueue :=
  let q := reclaimStale clock q in
  match cl_claimId params with Some _ => (draw_uuid randomUUID q).2 | None => q end.

(** The starts given out to a claim that holds none yet. *)
Definition fresh_starts (params : WorkflowStartClaimParams) q : list WorkflowStartRecord :=
  let q := prepared params q in
  let now := clock (sq_reads q) in
  stamp_all params now 0 (sq_uuids q)
    (chosen params (specs_by_name (cl_workflowSpecs params)) now 0 (jm_values (records q))).

Definition already_held (params : WorkflowStartClaimParams) q : list WorkflowStartRecord :=
  match cl_claimId params with
  | Some c => held_of c (jm_values (records (prepared params q)))
  | None => []
  end.

Lemma claim_eq params q : claim_id_ok (cl_claimId params) = true ->
  claim clock randomUUID params q =
    match already_held params q with
    | [] => (Ok (fresh_starts params q),
             put_all (fresh_starts params q)
               (bump_uuids (length (fresh_starts params q)) (currentTimeMs clock (prepared params q)).2))
    | l => (Ok l, prepared params q)
    end.
Proof.
  assert (forall q, (let '(now, q0) := currentTimeMs clock q in
     let '(l, q0) := claim_loop randomUUID params (specs_by_name (cl_workflowSpecs params)) now
       (jm_values (records q0)) [] q0 in (@Ok string _ l, q0)) =
     let l := stamp_all params (clock (sq_reads q)) 0 (sq_uuids q)
       (chosen params (specs_by_name (cl_workflowSpecs params)) (clock (sq_reads q)) 0
          (jm_values (records q))) in
     (Ok l, put_all l (bump_uuids (length l) (currentTimeMs clock q).2))) as Hfresh.
  { intros x. cbn [currentTimeMs]. rewrite claim_loop_eq. done. }
  intros Hc. unfold claim, already_held, fresh_starts, prepared.
  destruct (cl_claimId params) as [c|] eqn:Ec; [|apply Hfresh].
  cbn [claim_id_ok from_option] in Hc. unfold claimTokenFor. rewrite Hc. cbn [draw_uuid].
  change (List.filter (fun r => isTokenOfClaim (sr_claimToken r) c) ?l) with (held_of c l).
  cbn [snd]. destruct (held_of c _); [apply Hfresh|done].
Qed.

Lemma claim_invalid params q : claim_id_ok (cl_claimId params) = false ->
  exists c, cl_claimId params = Some c /\
    claim clock randomUUID params q = (Err (invalid_claim_id c), reclaimStale clock q).
Proof.
  destruct (cl_claimId params) as [c|] eqn:Ec; [|done]. intros Hc. cbn [claim_id_ok from_option] in Hc.
  exists c. split; [done|]. unfold claim, claimTokenFor. by rewrite Ec, Hc.
Qed.

Lemma prepared_ok params q : start_ok q -> start_ok (prepared params q).
Proof.
  intros Hq%reclaim_ok. unfold prepared. destruct (cl_claimId params); [|done].
  eapply start_ok_same; [..|exact Hq]; cbn; try done. lia.
Qed.

Lemma prepared_records params q : records (prepared params q) = records (reclaimStale clock q) /\
  byWorkflowId (prepared params q) = byWorkflowId (reclaimStale clock q).
Proof. unfold prepared. by destruct (cl_claimId params). Qed.

Lemma claim_ok params q : start_ok q -> start_ok (claim clock randomUUID params q).2.
Proof.
  intros Hq. destruct (claim_id_ok (cl_claimId params)) eqn:Hc.
  - rewrite claim_eq by done. pose proof (prepared_ok params q Hq) as Hp.
    destruct (already_held params q); [|done]. cbn [snd].
    pose proof (claim_loop_ok params (specs_by_name (cl_workflowSpecs params))
      (clock (sq_reads (prepared params q))) (jm_values (records (prepared params q))) []
      (currentTimeMs clock (prepared params q)).2 (values_walk _ Hp) (bumped_ok _ Hp) Hc) as Hl.
    rewrite claim_loop_eq in Hl. exact Hl.
  - destruct (claim_invalid params q Hc) as (c & _ & ->). by apply reclaim_ok.
Qed.

Lemma put_all_lookup l q : NoDup (sr_id <$> l) ->
  (forall r, r ∈ l -> records (put_all l q) !! sr_id r = Some r) /\
  (forall k, k ∉ sr_id <$> l -> records (put_all l q) !! k = records q !! k).
Proof.
  revert q. induction l as [|r l IH]; intros q; cbn.
  { intros _. split; [by intros ? ?%not_elem_of_nil|done]. }
  intros [Hni Hnd]%NoDup_cons. destruct (IH (put_record (sr_id r) r q) Hnd) as [H1 H2]. split.
  - intros x [ -> |Hx]%elem_of_cons; [|by apply H1]. unfold put_all in H2. rewrite H2 by done. cbn.
    by rewrite jlookup_insert_eq.
  - intros k [Hne Hk]%not_elem_of_cons. unfold put_all in H2. rewrite H2 by done. cbn.
    by rewrite jlookup_insert_ne.
Qed.

Lemma stamp_all_ids params now taken u recs : sr_id <$> stamp_all params now taken u recs = sr_id <$> recs.
Proof. unfold stamp_all. rewrite fmap_imap. by rewrite <- (imap_const sr_id). Qed.

Lemma stamp_all_elem params now taken u recs r' : r' ∈ stamp_all params now taken u recs ->
  exists i r, recs !! i = Some r /\
    r' = stamped now (cl_workerId params)
           (claim_token (cl_claimId params) (taken + i) (randomUUID (u + i))) r.
Proof.
  intros [i Hi]%list_elem_of_lookup. unfold stamp_all in Hi. rewrite list_lookup_imap in Hi.
  destruct (recs !! i) as [r|] eqn:Er; [|done]. injection Hi as <-. by exists i, r.
Qed.

Lemma filter_sublist {A} (f : A -> bool) (l : list A) : sublist (List.filter f l) l.
Proof. induction l as [|x l IH]; cbn; [constructor|]. destruct (f x); by constructor. Qed.

Lemma chosen_sublist params specs now taken recs : sublist (chosen params specs now taken recs) recs.
Proof. unfold chosen. etrans; [apply sublist_take|apply filter_sublist]. Qed.

Lemma chosen_walks params specs now taken recs q : walks recs q -> walks (chosen params specs now taken recs) q.
Proof.
  intros [Hnd Hin]. pose proof (chosen_sublist params specs now taken recs) as Hs. split.
  - eapply sublist_NoDup; [exact Hnd|]. by apply fmap_sublist.
  - intros r Hr. apply Hin. by eapply elem_of_sublist.
Qed.

Definition new_record (params : WorkflowStartEnqueueParams) (id : string) (now : Z) : WorkflowStartRecord :=
  mkStart id (en_workflowId params) (en_workflowName params) (en_metadata params) (en_version params) now
    None None None None None false.

Lemma enqueue_new_ok params q id now : start_ok q -> byWorkflowId q !! en_workflowId params = None ->
  (exists x, id = start_id now (seq q + 1) x) ->
  start_ok (mkStartQueue (<[id := new_record params id now]> (records q))
    (<[en_workflowId params := id]> (byWorkflowId q)) (reclaimAfterMs q) (seq q + 1)
    (S (sq_reads q)) (sq_uuids q) (S (sq_randoms q))).
Proof.
  intros [] Hb [x Hid].
  assert (forall k r, records q !! k = Some r -> k <> id) as Hnew.
  { intros k r Hr ->. destruct (so_key0 _ r Hr) as (t & n & y & Hn & E). rewrite Hid in E.
    apply start_id_inj in E; lia. }
  split; cbn.
  - by apply jm_wf_insert.
  - intros k r. rewrite jlookup_insert. case_decide; [by intros [= <-]; subst|apply so_id0].
  - intros w k. rewrite !jlookup_insert. case_decide as Hw; case_decide as Hk; subst.
    + split; [|done]. intros _. by eexists.
    + split; [congruence|]. intros Hex. apply so_run0 in Hex. congruence.
    + split; [|by intros (r & [= <-] & ?)]. intros (r & Hr & _)%so_run0. by apply Hnew in Hr.
    + apply so_run0.
  - lia.
  - intros k r. rewrite jlookup_insert. case_decide as Hk; [intros _; subst; exists now, (seq q + 1), x; split; [lia|done]|].
    intros Hr. destruct (so_key0 k r Hr) as (t & n & y & Hn & E). exists t, n, y. split; [lia|done].
  - intros k r t. rewrite jlookup_insert. case_decide; [by intros [= <-]|apply so_minted0].
  - intros k k' r r' t. rewrite !jlookup_insert. repeat case_decide; try done;
      try by intros [= <-]. by intros _ [= <-]. apply so_unique0.
  - intros k r. rewrite jlookup_insert. case_decide; [by intros [= <-]|apply so_flags0].
Qed.

Lemma complete_ok ref q : start_ok q -> start_ok (complete ref q).2.
Proof.
  intros Hq. unfold complete. destruct (current ref q) as [r|] eqn:Ec; [|done].
  apply current_Some in Ec as [Hr Ht]. destruct (sr_requeued r).
  { apply (start_ok_update _ r); try done; apply flags_unclaimed. }
  destruct Hq. split; cbn; try done.
  - by apply jm_wf_delete.
  - intros k x. rewrite jlookup_delete. case_decide; [done|apply so_id0].
  - intros w k. rewrite !jlookup_delete. case_decide as Hw; case_decide as Hk; subst.
    + split; [done|]. by intros (? & ? & _).
    + split; [done|]. intros Hex. apply so_run0 in Hex.
      assert (byWorkflowId q !! sr_workflowId r = Some (cr_id ref)) by (apply so_run0; by exists r).
      congruence.
    + split; [|by intros (? & ? & _)]. intros (x & Hx & Hw')%so_run0. rewrite Hr in Hx. by injection Hx as <-.
    + apply so_run0.
  - intros k x. rewrite jlookup_delete. case_decide; [done|apply so_key0].
  - intros k x t. rewrite jlookup_delete. case_decide; [done|apply so_minted0].
  - intros k k' x x' t. rewrite !jlookup_delete. repeat case_decide; try done. apply so_unique0.
  - intros k x. rewrite jlookup_delete. case_decide; [done|apply so_flags0].
Qed.

Lemma step_ok op q : start_ok q -> start_ok (start_step clock randomUUID random36 op q).
Proof.
  intros Hq. destruct op as [params|params|ref|ref|ref delayMs|limit]; cbn [start_step].
  - unfold enqueue. destruct (byWorkflowId q !! en_workflowId params) as [id|] eqn:Eb.
    + destruct (records q !! id) as [r|] eqn:Er; [|done]. case_bool_decide as Ht; cbn [snd].
      * apply (start_ok_update id r); try done; [|by left]. split; [done|].
        intros _. by apply (so_flags _ Hq id r Er).
      * destruct (sr_availableAt r); [|done]. destruct (en_keepAvailableAt params); [done|].
        apply (start_ok_update id r); try done; by apply bumped_ok.
    + apply (enqueue_new_ok params q (start_id (clock (sq_reads q)) (seq q + 1) (random36 (sq_randoms q)))
        (clock (sq_reads q)) Hq Eb). by eexists.
  - by apply claim_ok.
  - unfold heartbeat. pose proof (reclaim_ok q Hq) as Hq1.
    destruct (current ref (reclaimStale clock q)) as [r|] eqn:Ec; [|done].
    apply current_Some in Ec as [Hr Ht]. apply (start_ok_update _ r); try done; [by apply bumped_ok| |by left].
    apply (so_flags _ Hq1 _ r Hr).
  - by apply complete_ok.
  - unfold release. destruct (current ref q) as [r|] eqn:Ec; [|done].
    apply current_Some in Ec as [Hr Ht]. destruct (_ >? 0); cbn [currentTimeMs snd].
    + apply (start_ok_update _ r); try done; by apply bumped_ok.
    + apply (start_ok_update _ r); try done; apply flags_unclaimed.
  - by apply reclaim_ok.
Qed.

Lemma run_ok ops q : start_ok q -> start_ok (run_starts clock randomUUID random36 ops q).
Proof. revert q. induction ops as [|op ops IH]; intros q Hq; cbn; [done|]. by apply IH, step_ok. Qed.

(** ** A wake-up is not lost *)

(** The run's record is one that the next claim picks up, or that goes back
    to the queue when the claim that holds it ends. *)
Definition waits r : Prop := sr_claimToken r = None \/ sr_requeued r = true.

Definition waiting (w id : string) q : Prop :=
  byWorkflowId q !! w = Some id /\
  exists r, records q !! id = Some r /\ sr_workflowId r = w /\ waits r.

Lemma waiting_same w id q q' : records q' = records q -> byWorkflowId q' = byWorkflowId q ->
  waiting w id q -> waiting w id q'.
Proof. intros Hr Hb. unfold waiting. by rewrite Hr, Hb. Qed.

Lemma waiting_update w id q k r r' : waiting w id q -> records q !! k = Some r ->
  sr_workflowId r' = sr_workflowId r -> (waits r -> waits r') -> waiting w id (put_record k r' q).
Proof.
  intros (Hb & x & Hx & Hw & Hwx) Hr Hsame Hwaits. split; [done|]. cbn. rewrite jlookup_insert.
  case_decide; [|by exists x]. subst k. rewrite Hr in Hx. injection Hx as ->. exists r'.
  split_and!; [done|congruence|by apply Hwaits].
Qed.

Lemma waits_unclaimed r : waits (unclaimed r).
Proof. by left. Qed.

Lemma waiting_reclaim w id q : start_ok q -> waiting w id q -> waiting w id (reclaimStale clock q).
Proof.
  intros Hq (Hb & r & Hr & Hw & Hwr).
  split; [by rewrite reclaimStale_records by apply Hq|].
  exists (reclaimed (clock (sq_reads q) - reclaimAfterMs q) r). rewrite reclaimStale_lookup, Hr by done.
  split_and!; [done|by rewrite (proj2 (reclaimed_same _ _))|].
  destruct (reclaimed_cases (clock (sq_reads q) - reclaimAfterMs q) r) as [ -> | -> ]; [done|apply waits_unclaimed].
Qed.

Lemma waiting_enqueue params q : start_ok q ->
  let '(result, q') := enqueue clock random36 params q in
  waiting (en_workflowId params) (er_id result) q'.
Proof.
  intros Hq. unfold enqueue. destruct (byWorkflowId q !! en_workflowId params) as [id|] eqn:Eb.
  - pose proof (proj1 (so_run _ Hq _ _) Eb) as (r & Hr & Hw). rewrite Hr.
    assert (forall r', sr_workflowId r' = sr_workflowId r -> waits r' ->
      waiting (en_workflowId params) id (put_record id r' q)) as Hput.
    { intros r' Hs Hwr. split; [done|]. exists r'. cbn. rewrite jlookup_insert_eq.
      split_and!; [done|congruence|done]. }
    case_bool_decide as Ht; cbn [er_id]; [apply Hput; [done|by right]|].
    assert (waits r) as Hwr by (left; by destruct (sr_claimToken r); [destruct Ht|]).
    destruct (sr_availableAt r); [|by split; [|exists r]].
    destruct (en_keepAvailableAt params); [by split; [|exists r]|].
    cbn [currentTimeMs er_id]. eapply waiting_same; [..|apply (Hput (unclaimed r)); [done|apply waits_unclaimed]]; done.
  - cbn [currentTimeMs er_id]. split; cbn; [by rewrite jlookup_insert_eq|].
    eexists. rewrite jlookup_insert_eq. split_and!; [done|done|by left].
Qed.

Lemma prepared_uuids params q : start_ok q -> (sq_uuids q <= sq_uuids (prepared params q))%nat.
Proof.
  intros Hq. unfold prepared. assert (sq_uuids (reclaimStale clock q) = sq_uuids q) as Hu
    by (by rewrite reclaimStale_records by apply Hq).
  destruct (cl_claimId params); cbn [draw_uuid snd sq_uuids]; lia.
Qed.

(** What a claim call does to one record: reclaims it, or gives it out
    under a token that no record had. *)
Lemma claim_lookup params q k r : start_ok q -> records q !! k = Some r ->
  let q' := (claim clock randomUUID params q).2 in
  byWorkflowId q' = byWorkflowId q /\
  (records q' !! k = Some (reclaimed (clock (sq_reads q) - reclaimAfterMs q) r) \/
   exists l r' t, (claim clock randomUUID params q).1 = Ok l /\ r' ∈ l /\ records q' !! k = Some r' /\
     sr_workflowId r' = sr_workflowId r /\ sr_claimToken r' = Some t /\
     forall k r, records q !! k = Some r -> sr_claimToken r <> Some t).
Proof.
  intros Hq Hr. cbn zeta.
  assert (records (reclaimStale clock q) !! k = Some (reclaimed (clock (sq_reads q) - reclaimAfterMs q) r)) as Hr1
    by (by rewrite reclaimStale_lookup, Hr).
  assert (byWorkflowId (reclaimStale clock q) = byWorkflowId q) as Hb1
    by (by rewrite reclaimStale_records by apply Hq).
  destruct (claim_id_ok (cl_claimId params)) eqn:Hc.
  2:{ destruct (claim_invalid params q Hc) as (c & _ & ->). cbn. split; [done|by left]. }
  rewrite claim_eq by done. destruct (prepared_records params q) as [Hpr Hpb].
  pose proof (prepared_ok params q Hq) as Hp.
  destruct (already_held params q); [|cbn; rewrite Hpr, Hpb; split; [done|by left]].
  cbn [fst snd]. set (l := fresh_starts params q).
  set (p := bump_uuids (length l) (currentTimeMs clock (prepared params q)).2).
  assert (byWorkflowId (put_all l p) = byWorkflowId p) as Hpa.
  { generalize p. clear. induction l as [|x l IH]; intros p; [done|]. apply (IH (put_record (sr_id x) x p)). }
  split; [by rewrite Hpa; cbn; rewrite Hpb|].
  destruct (chosen_walks params (specs_by_name (cl_workflowSpecs params)) (clock (sq_reads (prepared params q))) 0
    _ _ (values_walk _ Hp)) as [Hnd Hin].
  destruct (put_all_lookup l p) as [Hl Hother].
  { unfold l, fresh_starts. rewrite stamp_all_ids. exact Hnd. }
  destruct (decide (k ∈ sr_id <$> l)) as [Hk|Hk].
  2:{ left. rewrite Hother by done. cbn. by rewrite Hpr. }
  apply list_elem_of_fmap in Hk as (r' & -> & Hr'). right. pose proof Hr' as Hel.
  apply stamp_all_elem in Hel as (i & r0 & Hi & ->).
  assert (records (prepared params q) !! sr_id r0 = Some r0) as Hr0
    by (apply Hin; by eapply list_elem_of_lookup_2).
  rewrite Hpr in Hr0. cbn [stamped sr_id] in Hr1. rewrite Hr0 in Hr1. injection Hr1 as Hr1.
  eexists l, _, _. split_and!; [done|exact Hr'|by apply Hl| |done|].
  - cbn. rewrite Hr1. apply reclaimed_same.
  - intros k' x Hx. eapply fresh_token; [exact Hq|exact Hc| |exact Hx].
    pose proof (prepared_uuids params q Hq). lia.
Qed.

Lemma step_waiting w id op q : start_ok q -> waiting w id q ->
  grants clock randomUUID w op q = false -> waiting w id (start_step clock randomUUID random36 op q).
Proof.
  intros Hq Hwait Hg. pose proof Hwait as (Hb & r & Hr & Hw & Hwr).
  destruct op as [params|params|ref|ref|ref delayMs|limit]; cbn [start_step].
  - destruct (decide (en_workflowId params = w)) as [<-|Hne].
    + pose proof (waiting_enqueue params q Hq) as He.
      destruct (enqueue clock random36 params q) as [result q'] eqn:E.
      assert (er_id result = id) as <-; [|done].
      unfold enqueue in E. rewrite Hb, Hr in E.
      repeat (case_bool_decide || case_match); cbn in E; by injection E as <- _.
    + unfold enqueue. destruct (byWorkflowId q !! en_workflowId params) as [id'|] eqn:Eb.
      * destruct (records q !! id') as [x|] eqn:Ex; [|done].
        case_bool_decide; [apply (waiting_update w id q id' x); try done; by right|].
        destruct (sr_availableAt x); [|done]. destruct (en_keepAvailableAt params); [done|].
        apply (waiting_update w id _ id' x); try done. intros _. apply waits_unclaimed.
      * split; cbn; [by rewrite jlookup_insert_ne|]. exists r. split; [|done].
        rewrite jlookup_insert. case_decide as Hid; [|done]. exfalso. subst id.
        destruct (so_key _ Hq _ r Hr) as (t & n & y & Hn & E). pose proof (so_seq _ Hq).
        apply start_id_inj in E; lia.
  - destruct (claim_lookup params q id r Hq Hr) as [Hby [Hrec|(l & r' & t & El & Hin & Hrec & Hw' & Ht & Hnew)]].
    + split; [by rewrite Hby|]. eexists. split; [exact Hrec|].
      destruct (reclaimed_cases (clock (sq_reads q) - reclaimAfterMs q) r) as [ -> | -> ]; [done|].
      split; [done|apply waits_unclaimed].
    + exfalso. cbn [grants] in Hg. rewrite El in Hg.
      assert (existsb (fun r => bool_decide (sr_workflowId r = w) &&
                bool_decide (sr_claimToken r <> run_token w q)) l = true) as Htrue; [|congruence].
      apply existsb_exists. exists r'. split; [by apply list_elem_of_In|].
      rewrite !bool_decide_true; [done| |congruence].
      rewrite Ht. unfold run_token. rewrite Hb, Hr. cbn. intros E. by apply (Hnew id r Hr).
  - unfold heartbeat. pose proof (waiting_reclaim w id q Hq Hwait) as Hw1.
    destruct (current ref (reclaimStale clock q)) as [x|] eqn:Ec; [|done].
    apply current_Some in Ec as [Hx Ht]. by apply (waiting_update w id _ (cr_id ref) x).
  - unfold complete. destruct (current ref q) as [x|] eqn:Ec; [|done].
    apply current_Some in Ec as [Hx Ht]. destruct (sr_requeued x) eqn:Erq.
    + apply (waiting_update w id q (cr_id ref) x); try done. intros _. apply waits_unclaimed.
    + assert (cr_id ref <> id) as Hne.
      { intros E. rewrite E, Hr in Hx. injection Hx as ->. destruct Hwr; congruence. }
      assert (sr_workflowId x <> w) as Hnw.
      { intros E. assert (byWorkflowId q !! w = Some (cr_id ref)) by (apply (so_run _ Hq); by exists x).
        congruence. }
      split; cbn; [by rewrite jlookup_delete_ne|]. exists r. by rewrite jlookup_delete_ne.
  - unfold release. destruct (current ref q) as [x|] eqn:Ec; [|done].
    apply current_Some in Ec as [Hx Ht]. destruct (_ >? 0); cbn [currentTimeMs snd];
      apply (waiting_update w id _ (cr_id ref) x); try done; intros _; by left.
  - by apply waiting_reclaim.
Qed.

(** C24. No wake-up is lost. However the queue got here, and whatever workers
    and other callers do after an [enqueue] for a run - claims that go
    stale, late or repeated completions, releases with a delay, further
    enqueues - as long as no claim call has given the run out anew, the
    record the enqueue answered is still queued for that run, and it is
    either unclaimed or marked so that the claim holding it puts it back:
    no call removes it. *)
Theorem wakeup_never_lost reclaim before params ops :
  let q := run_starts clock randomUUID random36 before (new_start_queue reclaim) in
  let '(result, q1) := enqueue clock random36 params q in
  granted_in clock randomUUID random36 (en_workflowId params) ops q1 = false ->
  let q2 := run_starts clock randomUUID random36 ops q1 in
  byWorkflowId q2 !! en_workflowId params = Some (er_id result) /\
  exists r, records q2 !! er_id result = Some r /\ sr_workflowId r = en_workflowId params /\
    (sr_claimToken r = None \/ sr_requeued r = true) /\
    forall t, sr_claimToken r = Some t ->
      let '(done_, q3) := complete (mkClaimRef (er_id result) t) q2 in
      done_ = true /\ records q3 !! er_id result = Some (unclaimed r).
Proof.
  intros q. assert (start_ok q) as Hq by (apply run_ok, start_ok_new).
  pose proof (waiting_enqueue params q Hq) as Hwait.
  pose proof (step_ok (SEnqueue params) q Hq) as Hq1. cbn [start_step] in Hq1.
  destruct (enqueue clock random36 params q) as [result q1]. cbn [snd] in Hq1. clear Hq. clearbody q.
  revert q1 Hq1 Hwait. induction ops as [|op ops IH]; intros q1 Hq1 Hwait; cbn [granted_in run_starts].
  - intros _. destruct Hwait as (Hb & r & Hr & Hw & Hwr). split; [done|]. exists r. split_and!; try done.
    intros t Ht. unfold complete, current. cbn [cr_id cr_claimToken]. rewrite Hr, bool_decide_true by done.
    assert (sr_requeued r = true) as -> by (destruct Hwr; congruence). cbn.
    by rewrite jlookup_insert_eq.
  - intros [Hg Hgs]%orb_false_iff. apply IH; [by apply step_ok|by apply step_waiting|done].
Qed.

(** ** Claims *)

(** Two selections of one list with the same members are equal. *)
Lemma sublist_same {A} (l1 l2 l : list A) : NoDup l -> sublist l1 l -> sublist l2 l ->
  (forall x, x ∈ l1 <-> x ∈ l2) -> l1 = l2.
Proof.
  intros Hnd Hs1. revert l2 Hnd. induction Hs1 as [|x l1 l Hs1 IH|x l1 l Hs1 IH]; intros l2 Hnd Hs2 Hiff.
  - by apply sublist_nil_r in Hs2.
  - apply NoDup_cons in Hnd as [Hni Hnd]. apply sublist_cons_r in Hs2 as [Hs2|(l2' & -> & Hs2)].
    + exfalso. apply Hni. eapply elem_of_sublist; [|exact Hs2]. apply Hiff. left.
    + f_equal. apply IH; [done|done|]. intros y. specialize (Hiff y). rewrite !elem_of_cons in Hiff.
      split; intros Hy; [destruct (proj1 Hiff (or_intror Hy)) as [ -> |]
        |destruct (proj2 Hiff (or_intror Hy)) as [ -> |]]; try done;
        exfalso; apply Hni; eapply elem_of_sublist; done.
  - apply NoDup_cons in Hnd as [Hni Hnd]. apply sublist_cons_r in Hs2 as [Hs2|(l2' & -> & Hs2)].
    + by apply IH.
    + exfalso. apply Hni. eapply elem_of_sublist; [|exact Hs1]. apply Hiff. left.
Qed.

Lemma by_ids (f : string -> option WorkflowStartRecord) (l : list WorkflowStartRecord) :
  (forall r, r ∈ l -> f (sr_id r) = Some r) -> l = omap f (sr_id <$> l).
Proof.
  induction l as [|r l IH]; intros H; [done|]. cbn. rewrite (H r) by left. f_equal. apply IH.
  intros x Hx. apply H. by right.
Qed.

Lemma put_all_keys l q : (forall r, r ∈ l -> sr_id r ∈ jm_keys (records q)) ->
  jm_keys (records (put_all l q)) = jm_keys (records q).
Proof.
  revert q. induction l as [|r l IH]; intros q Hin; [done|].
  assert (jm_keys (records (put_record (sr_id r) r q)) = jm_keys (records q)) as Hk.
  { cbn. rewrite jm_keys_insert, decide_True; [done|]. apply Hin. left. }
  change (put_all (r :: l) q) with (put_all l (put_record (sr_id r) r q)). rewrite IH, Hk; [done|].
  intros x Hx. rewrite Hk. apply Hin. by right.
Qed.

Lemma values_ids q : start_ok q -> sr_id <$> jm_values (records q) = jm_keys (records q).
Proof.
  intros []. unfold jm_values, jm_keys. rewrite <- list_fmap_compose. apply list_fmap_ext.
  intros i [k r] Hkr. apply so_id0, jlookup_wf_elem; [done|]. by eapply list_elem_of_lookup_2.
Qed.

Lemma reclaim_keys q : start_ok q -> jm_keys (records (reclaimStale clock q)) = jm_keys (records q).
Proof. intros Hq. rewrite reclaimStale_records by apply Hq. apply jm_keys_map. Qed.

Lemma held_elem c q r : start_ok q ->
  r ∈ held_of c (jm_values (records q)) <->
  records q !! sr_id r = Some r /\ isTokenOfClaim (sr_claimToken r) c = true.
Proof.
  intros Hq. unfold held_of. rewrite list_elem_of_In, filter_In, <- list_elem_of_In. split.
  - intros [Hr Ht]. split; [by apply (values_walk q Hq)|done].
  - intros [Hr Ht]. split; [|done]. apply jm_values_elem. exists (sr_id r). by apply jlookup_elem.
Qed.

(** What the queue holds after a claim that gave out [l]. *)
Lemma claim_result params q l q' : start_ok q -> claim_id_ok (cl_claimId params) = true ->
  claim clock randomUUID params q = (Ok l, q') ->
  sublist (sr_id <$> l) (jm_keys (records q')) /\
  (forall r, r ∈ l -> records q' !! sr_id r = Some r) /\
  forall c, cl_claimId params = Some c ->
    (forall r, r ∈ l -> isTokenOfClaim (sr_claimToken r) c = true) /\
    (l <> [] -> forall r, records q' !! sr_id r = Some r -> isTokenOfClaim (sr_claimToken r) c = true -> r ∈ l).
Proof.
  intros Hq Hc. rewrite claim_eq by done. pose proof (prepared_ok params q Hq) as Hp.
  destruct (already_held params q) as [|r0 held] eqn:Eh.
  - intros [= <- <-]. set (l := fresh_starts params q).
    set (p := bump_uuids (length l) _).
    pose proof (chosen_sublist params (specs_by_name (cl_workflowSpecs params))
      (clock (sq_reads (prepared params q))) 0 (jm_values (records (prepared params q)))) as Hsub.
    destruct (chosen_walks params (specs_by_name (cl_workflowSpecs params)) (clock (sq_reads (prepared params q))) 0
      _ _ (values_walk _ Hp)) as [Hnd Hin].
    assert (sublist (sr_id <$> l) (jm_keys (records p))) as Hkeys.
    { unfold l, fresh_starts. rewrite stamp_all_ids. cbn. rewrite <- values_ids by done. by apply fmap_sublist. }
    destruct (put_all_lookup l p) as [Hl Hother].
    { unfold l, fresh_starts. by rewrite stamp_all_ids. }
    split_and!; [|exact Hl|].
    + rewrite put_all_keys; [done|]. intros r Hr. eapply elem_of_sublist; [|exact Hkeys].
      by apply list_elem_of_fmap_2.
    + intros c Ec. assert (forall r, r ∈ l -> isTokenOfClaim (sr_claimToken r) c = true) as Htok.
      { intros r (i & x & _ & ->)%stamp_all_elem. cbn. apply isTokenOfClaim_iff; [done| |done|done].
        by rewrite Ec in Hc. }
      split; [done|]. intros _ r Hr Ht. destruct (decide (sr_id r ∈ sr_id <$> l)) as [Hk|Hk].
      * apply list_elem_of_fmap in Hk as (x & E & Hx). rewrite E, (Hl x Hx) in Hr. by injection Hr as <-.
      * exfalso. rewrite Hother in Hr by done. cbn in Hr.
        assert (r ∈ already_held params q) as Hheld; [|rewrite Eh in Hheld; by apply not_elem_of_nil in Hheld].
        unfold already_held. rewrite Ec. by apply held_elem.
  - intros [= <- <-]. unfold already_held in Eh. destruct (cl_claimId params) as [c|] eqn:Ec; [|done].
    assert (forall r, r ∈ r0 :: held <-> records (prepared params q) !! sr_id r = Some r /\
              isTokenOfClaim (sr_claimToken r) c = true) as Hel by (intros r; rewrite <- Eh; by apply held_elem).
    split_and!.
    + rewrite <- values_ids by done. apply fmap_sublist. rewrite <- Eh. apply filter_sublist.
    + intros r Hr. by apply Hel.
    + intros c' [= <-]. split; [intros r Hr; by apply Hel|]. intros _ r Hr Ht. by apply Hel.
Qed.

(** A second call with the claim id finds the same starts. *)
Lemma claim_again params q l q' c : start_ok q -> claim_id_ok (cl_claimId params) = true ->
  cl_claimId params = Some c -> claim clock randomUUID params q = (Ok l, q') -> l <> [] ->
  (forall r, r ∈ l -> is_stale (clock (sq_reads q') - reclaimAfterMs q') r = false) ->
  already_held params q' = l.
Proof.
  intros Hq Hc Ec Hcl Hne Hfresh. destruct (claim_result params q l q' Hq Hc Hcl) as (Hsub & Hl & Htok).
  destruct (Htok c Ec) as [Ht Honly]. pose proof (claim_ok params q Hq) as Hq'. rewrite Hcl in Hq'. cbn in Hq'.
  pose proof (prepared_ok params q' Hq') as Hp. destruct (prepared_records params q') as [Hpr _].
  assert (forall r, r ∈ l -> records (prepared params q') !! sr_id r = Some r) as Hlp.
  { intros r Hr. rewrite Hpr, reclaimStale_lookup, (Hl r Hr) by done. cbn. unfold reclaimed. by rewrite Hfresh. }
  unfold already_held. rewrite Ec. set (A := held_of c (jm_values (records (prepared params q')))).
  assert (forall r, r ∈ A <-> r ∈ l) as Hiff.
  { intros r. unfold A. rewrite held_elem by done. split; [|intros Hr; by split; [apply Hlp|apply Ht]].
    intros [Hr Hrt]. rewrite Hpr, reclaimStale_lookup in Hr by done.
    destruct (records q' !! sr_id r) as [x|] eqn:Ex; [|done]. injection Hr as Hr.
    destruct (reclaimed_cases (clock (sq_reads q') - reclaimAfterMs q') x) as [E|E]; rewrite E in Hr; subst r.
    - by apply Honly.
    - done. }
  assert (forall r, r ∈ A -> records (prepared params q') !! sr_id r = Some r) as HA
    by (intros r Hr; by apply Hlp, Hiff).
  rewrite (by_ids (fun k => records (prepared params q') !! k) A HA),
    (by_ids (fun k => records (prepared params q') !! k) l Hlp). f_equal.
  apply (sublist_same _ _ (jm_keys (records q'))); [apply Hq'| |done|].
  - rewrite <- (reclaim_keys q'), <- Hpr, <- values_ids by done. apply fmap_sublist. apply filter_sublist.
  - intros k. rewrite !list_elem_of_fmap. split; intros (r & -> & Hr); exists r; (split; [done|by apply Hiff]).
Qed.

Lemma fresh_tokens params q : start_ok q -> claim_id_ok (cl_claimId params) = true ->
  NoDup (sr_claimToken <$> fresh_starts params q) /\
  forall r k x, r ∈ fresh_starts params q -> records q !! k = Some x -> sr_claimToken x <> sr_claimToken r.
Proof.
  intros Hq Hc. unfold fresh_starts. set (recs := chosen _ _ _ _ _). set (u := sq_uuids (prepared params q)).
  set (now := clock _). split.
  - apply NoDup_alt. intros i j t. rewrite !list_lookup_fmap. unfold stamp_all. rewrite !list_lookup_imap.
    destruct (recs !! i) as [r|], (recs !! j) as [r'|]; cbn; try done. intros [= <-] [= E].
    apply start_token_inj in E as [_ E]; [|done..]. apply uuid_inj in E. lia.
  - intros r k x (i & r0 & _ & ->)%stamp_all_elem Hx. cbn. eapply fresh_token; [exact Hq|exact Hc| |exact Hx].
    pose proof (prepared_uuids params q Hq). lia.
Qed.

Lemma claim_records params q l q' : start_ok q -> claim_id_ok (cl_claimId params) = true ->
  claim clock randomUUID params q = (Ok l, q') ->
  forall k, k ∉ sr_id <$> l ->
    records q' !! k = reclaimed (clock (sq_reads q) - reclaimAfterMs q) <$> (records q !! k).
Proof.
  intros Hq Hc Hcl k Hk. rewrite <- reclaimStale_lookup by done.
  destruct (prepared_records params q) as [<- _]. rewrite claim_eq in Hcl by done.
  pose proof (prepared_ok params q Hq) as Hp.
  destruct (already_held params q); injection Hcl as <- <-; [|done].
  destruct (chosen_walks params (specs_by_name (cl_workflowSpecs params)) (clock (sq_reads (prepared params q))) 0
    _ _ (values_walk _ Hp)) as [Hnd _].
  match goal with |- records (put_all ?l ?p) !! k = _ => destruct (put_all_lookup l p) as [_ Ho] end.
  { unfold fresh_starts. by rewrite stamp_all_ids. }
  by apply Ho.
Qed.

(** What a claim call gives out, on every reachable queue. With a
    malformed claim id it is refused and claims nothing. Otherwise stale
    claims first go back to pending. If the caller's claim id holds no
    starts, the call gives out the oldest [limit] of the unclaimed starts
    that match a spec and are available, in order, each stamped with a token
    of its own that no record had before; it changes no other record. If
    the claim id holds starts already, it gives exactly those and changes
    nothing. So a worker that lost the answer and calls again with the same
    claim id, before the claims go stale, gets the same starts. *)
Theorem start_claim_exact reclaim before params :
  let q := run_starts clock randomUUID random36 before (new_start_queue reclaim) in
  let '(result, q') := claim clock randomUUID params q in
  if claim_id_ok (cl_claimId params) then
    exists l, result = Ok l /\
      (already_held params q = [] ->
         l = fresh_starts params q /\ NoDup (sr_claimToken <$> l) /\
         forall r k x, r ∈ l -> records q !! k = Some x -> sr_claimToken x <> sr_claimToken r) /\
      (already_held params q <> [] -> l = already_held params q) /\
      (forall r, r ∈ l -> records q' !! sr_id r = Some r) /\
      (forall k, k ∉ sr_id <$> l ->
         records q' !! k = reclaimed (clock (sq_reads q) - reclaimAfterMs q) <$> (records q !! k)) /\
      (l <> [] -> is_Some (cl_claimId params) ->
       (forall r, r ∈ l -> is_stale (clock (sq_reads q') - reclaimAfterMs q') r = false) ->
       (claim clock randomUUID params q').1 = Ok l)
  else (exists message, result = Err message) /\ q' = reclaimStale clock q.
Proof.
  intros q. assert (start_ok q) as Hq by (apply run_ok, start_ok_new). clearbody q.
  destruct (claim clock randomUUID params q) as [result q'] eqn:Hcl.
  destruct (claim_id_ok (cl_claimId params)) eqn:Hc.
  2:{ destruct (claim_invalid params q Hc) as (c & _ & E). rewrite E in Hcl. injection Hcl as <- <-.
      split; [by eexists|done]. }
  assert (exists l, result = Ok l /\ (already_held params q = [] -> l = fresh_starts params q) /\
    (already_held params q <> [] -> l = already_held params q)) as (l & -> & Hfresh & Hheld).
  { rewrite claim_eq in Hcl by done. destruct (already_held params q); injection Hcl as <- _; by eexists. }
  destruct (claim_result params q l q' Hq Hc Hcl) as (_ & Hl & _).
  exists l. split_and!; try done.
  - intros E. rewrite (Hfresh E). split; [done|]. by apply fresh_tokens.
  - by apply (claim_records params q l q').
  - intros Hne [c Ec] Hns. pose proof (claim_again params q l q' c Hq Hc Ec Hcl Hne Hns) as Hag.
    rewrite claim_eq, Hag by done. by destruct l.
Qed.
End invariant.

(** ** Concrete runs *)
Definition sample_uuid (n : nat) : string := "uuid-" +:+ str_of_Z (Z.of_nat n).

Lemma sample_uuid_inj n m : sample_uuid n = sample_uuid m -> n = m.
Proof. unfold sample_uuid. intros E%string_app_inj_l. apply str_of_Z_inj in E. lia. Qed.

Lemma sample_uuid_plain n : string_forallb not_colon (sample_uuid n) = true.
Proof. unfold sample_uuid. rewrite string_forallb_app, index_plain. reflexivity. Qed.

Definition sample_clock (n : nat) : Z := 1000 + Z.of_nat n.

Definition start_of (w : string) : WorkflowStartEnqueueParams := mkEnqueue w "order" None None false.

Definition claim_as (claimId : string) : WorkflowStartClaimParams :=
  mkClaim [mkSpec "order" []] (Some "worker") 2 (Some claimId).

(** The run is claimed, woken again during the claim, and completed. *)
Lemma wakeup_never_lost_witness :
  let q := run_starts sample_clock sample_uuid sample_uuid [SEnqueue (start_of "w"); SClaim (claim_as "c")]
             (new_start_queue None) in
  let '(result, q1) := enqueue sample_clock sample_uuid (start_of "w") q in
  let ref := mkClaimRef (er_id result) "c:0:uuid-1" in
  let ops := [SHeartbeat ref; SComplete ref; SComplete ref; SEnqueue (start_of "v")] in
  let q2 := run_starts sample_clock sample_uuid sample_uuid ops q1 in
  run_token "w" q1 = Some "c:0:uuid-1" /\ run_token "w" q2 = None /\
  byWorkflowId q2 !! "w" = Some (er_id result).
Proof.
  intros q. destruct (enqueue sample_clock sample_uuid (start_of "w") q) as [result q1] eqn:E.
  intros ref ops q2.
  pose proof (wakeup_never_lost sample_clock sample_uuid sample_uuid sample_uuid_inj sample_uuid_plain
    None [SEnqueue (start_of "w"); SClaim (claim_as "c")] (start_of "w") ops) as H.
  cbn zeta in H. fold q in H. rewrite E in H. change (en_workflowId (start_of "w")) with "w" in H.
  pose proof E as E'. vm_compute in E'. injection E' as Er Eq.
  assert (granted_in sample_clock sample_uuid sample_uuid "w" ops q1 = false) as Hg
    by (subst ops ref; rewrite <- Er, <- Eq; vm_compute; reflexivity).
  split; [rewrite <- Eq; vm_compute; reflexivity|].
  split; [subst q2 ops ref; rewrite <- Er, <- Eq; vm_compute; reflexivity|].
  exact (proj1 (H Hg)).
Defined.

(** Two runs are given out; the worker asks again with the same claim id. *)
Lemma start_claim_exact_witness :
  let q := run_starts sample_clock sample_uuid sample_uuid
             [SEnqueue (start_of "w"); SEnqueue (start_of "v"); SEnqueue (start_of "u")] (new_start_queue None) in
  let '(result, q') := claim sample_clock sample_uuid (claim_as "c") q in
  exists l, result = Ok l /\ sr_workflowId <$> l = ["w"; "v"] /\
    (claim sample_clock sample_uuid (claim_as "c") q').1 = Ok l.
Proof.
  pose proof (start_claim_exact sample_clock sample_uuid sample_uuid sample_uuid_inj sample_uuid_plain None
    [SEnqueue (start_of "w"); SEnqueue (start_of "v"); SEnqueue (start_of "u")] (claim_as "c")) as H.
  intros q. cbn zeta in H. fold q in H.
  destruct (claim sample_clock sample_uuid (claim_as "c") q) as [result q'] eqn:E.
  destruct H as (l & -> & _ & _ & _ & _ & Hagain).
  vm_compute in E. injection E as El Eq. subst q'. exists l. split; [reflexivity|].
  split; [subst l; reflexivity|]. apply Hagain.
  - by subst l.
  - by eexists.
  - subst l. intros r [-> |[-> |[]%not_elem_of_nil]%elem_of_cons]%elem_of_cons; reflexivity.
Defined.
