(* ===== verification/Versions.v ===== *)
(** Workflow version order: [durable/workflow-version-order.ts]. *)
From S2P Require Import Prelude.
Open Scope string_scope.
Open Scope list_scope.
Open Scope Z_scope.

(** ** String methods *)

(** [String.prototype.trim]: white space and line ends, of the code units
    below 256. *)
Definition is_space (c : Ascii.ascii) : bool :=
  let n := Ascii.N_of_ascii c in
  ((9 <=? n)%N && (n <=? 13)%N) || (n =? 32)%N || (n =? 160)%N.

Fixpoint trimStart (s : string) : string :=
  match s with String c r => if is_space c then trimStart r else s | "" => "" end.

Fixpoint trimEnd (s : string) : string :=
  match s with
  | "" => ""
  | String c r => let r := trimEnd r in if is_space c && bool_decide (r = "") then "" else String c r
  end.

Definition trim (s : string) : string := trimEnd (trimStart s).

(** [.replace(/^v(?=\d)/i, "")]. *)
Definition drop_v (s : string) : string :=
  match s with
  | String c (String d _ as r) =>
      let n := Ascii.N_of_ascii c in
      if ((n =? 118)%N || (n =? 86)%N) && is_digit d then r else s
  | _ => s
  end.

(** [.split(".")]. *)
Fixpoint split_dots (s : string) : list string :=
  match s with
  | "" => [""]
  | String c r =>
      if (Ascii.N_of_ascii c =? 46)%N then "" :: split_dots r
      else match split_dots r with p :: ps => String c p :: ps | [] => [String c ""] end
  end.

(** The text before the first [-] and, if there is one, the text behind it. *)
Fixpoint split_dash (s : string) : string * option string :=
  match s with
  | "" => ("", None)
  | String c r =>
      if (Ascii.N_of_ascii c =? 45)%N then ("", Some r)
      else let '(a, b) := split_dash r in (String c a, b)
  end.

(** [/^\d+$/.test(s)]. *)
Definition all_digits (s : string) : bool := negb (bool_decide (s = "")) && string_forallb is_digit s.

(** [BigInt(s)] of decimal digits. *)
Fixpoint digits_value (s : string) (acc : Z) : Z :=
  match s with "" => acc | String c s => digits_value s (10 * acc + (Z.of_N (Ascii.N_of_ascii c) - 48)) end.

Definition BigInt (s : string) : Z := digits_value s 0.

(** ** The order *)
Record parsed : Type := mkParsed { pv_release : list string; pv_pre : option (list string) }.

Definition parseVersion (v : string) : parsed :=
  let '(release, pre) := split_dash (drop_v (trim v)) in
  mkParsed (split_dots release) (split_dots <$> pre).

Definition comparePart (x y : string) : Z :=
  let nx := all_digits x in
  let ny := all_digits y in
  if nx && ny then
    let bx := BigInt x in
    let b_y := BigInt y in
    if bx <? b_y then -1 else if bx >? b_y then 1 else 0
  else if negb (eqb nx ny) then (if nx then -1 else 1)
  else string_cmp x y.

(** The loop from index [i], [n] indices left. *)
Fixpoint compareParts_from (padWithZero : bool) (a b : list string) (n i : nat) : Z :=
  match n with
  | O => 0
  | S n =>
      let x := a !! i in
      let y := b !! i in
      if (bool_decide (x = None) || bool_decide (y = None)) && negb padWithZero
      then (if bool_decide (x = None) then -1 else 1)
      else
        let c := comparePart (opt_or x "0") (opt_or y "0") in
        if bool_decide (c <> 0) then c else compareParts_from padWithZero a b n (S i)
  end.

Definition compareParts (a b : list string) (padWithZero : bool) : Z :=
  compareParts_from padWithZero a b (Nat.max (length a) (length b)) 0.

Definition compareWorkflowVersions (a b : string) : Z :=
  let pa := parseVersion a in
  let pb := parseVersion b in
  let release := compareParts (pv_release pa) (pv_release pb) true in
  if bool_decide (release <> 0) then release
  else match pv_pre pa, pv_pre pb with
       | None, None => 0
       | None, Some _ => 1
       | Some _, None => -1
       | Some x, Some y => compareParts x y false
       end.

Definition latestWorkflowVersion (versions : list string) : option string :=
  foldl (fun latest v =>
    match latest with
    | None => Some v
    | Some l => if compareWorkflowVersions v l >? 0 then Some v else Some l
    end) None versions.

Example versions_compare :
  compareWorkflowVersions "10" "9" = 1 /\ compareWorkflowVersions "1.2" " v1.2.0" = 0 /\
  compareWorkflowVersions "2.0.0-rc.1" "2.0.0" = -1 /\
  compareWorkflowVersions "2.0.0-rc.10" "2.0.0-rc.9" = 1 /\
  compareWorkflowVersions "2.0.0-rc" "2.0.0-rc.1" = -1 /\
  latestWorkflowVersion ["9"; "10"; "v10.0"; "10-beta"] = Some "10".
Proof. vm_compute. repeat split. Qed.

(** ** Three-way comparisons *)
Class ThreeWay {A} (cmp : A -> A -> Z) : Prop := {
  tw_sym : forall x y, cmp y x = - cmp x y;
  tw_trans : forall x y z, cmp x y <= 0 -> cmp y z <= 0 -> cmp x z <= 0;
}.

#[local] Instance comparePart_three_way : ThreeWay comparePart.
Proof.
  split; unfold comparePart.
  - intros x y. destruct (all_digits x), (all_digits y); cbn; try done; [|apply string_cmp_sym].
    destruct (Z.ltb_spec (BigInt x) (BigInt y)), (Z.ltb_spec (BigInt y) (BigInt x)),
      (Z.gtb_spec (BigInt x) (BigInt y)), (Z.gtb_spec (BigInt y) (BigInt x)); lia.
  - intros x y z. destruct (all_digits x), (all_digits y), (all_digits z); cbn; try lia.
    + destruct (Z.ltb_spec (BigInt x) (BigInt y)), (Z.gtb_spec (BigInt x) (BigInt y)),
        (Z.ltb_spec (BigInt y) (BigInt z)), (Z.gtb_spec (BigInt y) (BigInt z)),
        (Z.ltb_spec (BigInt x) (BigInt z)), (Z.gtb_spec (BigInt x) (BigInt z)); lia.
    + apply string_cmp_trans.
Qed.

Section orders.
Context {A B : Type}.

#[local] Instance on_three_way (f : B -> A) (cmp : A -> A -> Z) : ThreeWay cmp ->
  ThreeWay (fun x y => cmp (f x) (f y)).
Proof. intros [Hs Ht]. split; [intros; apply Hs|intros x y z; apply Ht]. Qed.

(** The first decides, the second the ties. *)
Lemma tw_tie (cmp : A -> A -> Z) x y z : ThreeWay cmp -> cmp x y = 0 ->
  cmp x z <= 0 <-> cmp y z <= 0.
Proof.
  intros [Hs Ht] H0. pose proof (Hs x y). split; intros H1.
  - apply (Ht y x z); [lia|done].
  - apply (Ht x y z); [lia|done].
Qed.

#[local] Instance or_three_way (c1 c2 : A -> A -> Z) : ThreeWay c1 -> ThreeWay c2 -> ThreeWay (cmp_or c1 c2).
Proof.
  intros [Hs1 Ht1] [Hs2 Ht2]. unfold cmp_or. split.
  - intros x y. rewrite (Hs1 x y). repeat case_bool_decide; try lia. apply Hs2.
  - intros x y z. pose proof (Ht1 x y z) as H1. pose proof (Ht1 z x y) as H2. pose proof (Ht1 y z x) as H3.
    pose proof (Hs1 x y). pose proof (Hs1 y z). pose proof (Hs1 x z).
    repeat case_bool_decide; try lia. apply Ht2.
Qed.

#[local] Instance option_three_way (cmp : A -> A -> Z) : ThreeWay cmp ->
  ThreeWay (fun x y : option A => match x, y with
    | None, None => 0 | None, Some _ => -1 | Some _, None => 1 | Some x, Some y => cmp x y end).
Proof.
  intros [Hs Ht]. split; [intros [x|] [y|]; try done; apply Hs|].
  intros [x|] [y|] [z|]; try lia. apply Ht.
Qed.
End orders.

(** ** Lists of parts *)
Section lexicographic.
Context {K : Type} (cmp : K -> K -> Z).

(** The first difference of two sequences, from index [i], [n] indices left. *)
Fixpoint lexn (n i : nat) (f g : nat -> K) : Z :=
  match n with
  | O => 0
  | S n => cmp_or (fun f g => cmp (f i) (g i)) (lexn n (S i)) f g
  end.

Lemma lexn_three_way n i : ThreeWay cmp -> ThreeWay (lexn n i).
Proof.
  intros Hc. revert i. induction n as [|n IH]; intros i; cbn [lexn].
  - by split; intros.
  - apply or_three_way; [by apply (on_three_way (fun f : nat -> K => f i))|apply IH].
Qed.

Lemma lexn_more n k i f g : (forall j, (i + n <= j)%nat -> cmp (f j) (g j) = 0) ->
  lexn (n + k) i f g = lexn n i f g.
Proof.
  revert i. induction n as [|n IH]; intros i Hz; cbn [lexn Nat.add].
  - assert (forall i, (forall j, (i <= j)%nat -> cmp (f j) (g j) = 0) -> lexn k i f g = 0) as H0.
    { induction k as [|k IHk]; intros i' Hi; cbn; [done|]. unfold cmp_or.
      rewrite bool_decide_true by (apply Hi; lia). apply IHk. intros j Hj. apply Hi. lia. }
    apply H0. intros j Hj. apply Hz. lia.
  - unfold cmp_or. rewrite IH; [done|]. intros j Hj. apply Hz. lia.
Qed.
End lexicographic.

Definition padded (l : list string) (i : nat) : string := opt_or (l !! i) "0".

Definition part_cmp (x y : option string) : Z :=
  match x, y with
  | None, None => 0 | None, Some _ => -1 | Some _, None => 1 | Some x, Some y => comparePart x y
  end.

Lemma compareParts_padded a b N : (Nat.max (length a) (length b) <= N)%nat ->
  compareParts a b true = lexn comparePart N 0 (padded a) (padded b).
Proof.
  intros HN. unfold compareParts. set (n := Nat.max _ _) in *.
  replace N with (n + (N - n))%nat by lia. rewrite lexn_more.
  - clearbody n. clear. generalize 0%nat. induction n as [|n IH]; intros i; cbn; [done|].
    rewrite andb_false_r. unfold cmp_or. rewrite IH. unfold padded. by repeat case_bool_decide.
  - intros j Hj. unfold padded. rewrite !lookup_ge_None_2 by (subst n; lia). reflexivity.
Qed.

Lemma compareParts_exact a b N : (Nat.max (length a) (length b) <= N)%nat ->
  compareParts a b false = lexn part_cmp N 0 (fun i => a !! i) (fun i => b !! i).
Proof.
  intros HN. unfold compareParts. set (n := Nat.max _ _).
  replace N with (n + (N - n))%nat by lia. rewrite lexn_more.
  - assert (forall n i, (i + n = Nat.max (length a) (length b))%nat ->
      compareParts_from false a b n i = lexn part_cmp n i (fun i => a !! i) (fun i => b !! i)) as Hgen;
      [|by apply Hgen].
    clear. induction n as [|n IH]; intros i Hi; cbn; [done|]. rewrite andb_true_r. unfold cmp_or.
    destruct (a !! i) as [x|] eqn:Ex, (b !! i) as [y|] eqn:Ey; cbn; try done.
    + rewrite (IH (S i)) by lia. by repeat case_bool_decide.
    + exfalso. apply lookup_ge_None_1 in Ex, Ey. lia.
  - intros j Hj. rewrite !lookup_ge_None_2 by (subst n; lia). reflexivity.
Qed.

(** ** The order of versions *)
Definition pre_cmp {A} (cmp : A -> A -> Z) (x y : option A) : Z :=
  match x, y with
  | None, None => 0 | None, Some _ => 1 | Some _, None => -1 | Some x, Some y => cmp x y
  end.

Lemma pre_three_way {A} (cmp : A -> A -> Z) : ThreeWay cmp -> ThreeWay (pre_cmp cmp).
Proof.
  intros [Hs Ht]. split; [intros [x|] [y|]; try done; apply Hs|].
  intros [x|] [y|] [z|]; cbn; try lia. apply Ht.
Qed.

(** The number of parts that can matter. *)
Definition parts_of (v : string) : nat :=
  length (pv_release (parseVersion v)) + from_option length 0%nat (pv_pre (parseVersion v)).

Definition version_cmp (N : nat) : parsed -> parsed -> Z :=
  cmp_or (fun a b => lexn comparePart N 0 (padded (pv_release a)) (padded (pv_release b)))
    (fun a b => pre_cmp (fun x y => lexn part_cmp N 0 (fun i => x !! i) (fun i => y !! i)) (pv_pre a) (pv_pre b)).

Lemma version_cmp_three_way N : ThreeWay (version_cmp N).
Proof.
  apply or_three_way.
  - apply (on_three_way (fun a => padded (pv_release a))), lexn_three_way, comparePart_three_way.
  - apply (on_three_way pv_pre), pre_three_way.
    apply (on_three_way (fun (x : list string) i => x !! i)), lexn_three_way.
    apply (option_three_way comparePart), comparePart_three_way.
Qed.

Lemma compare_version_cmp a b N : (parts_of a <= N)%nat -> (parts_of b <= N)%nat ->
  compareWorkflowVersions a b = version_cmp N (parseVersion a) (parseVersion b).
Proof.
  unfold parts_of, compareWorkflowVersions, version_cmp, cmp_or. intros Ha Hb.
  rewrite (compareParts_padded _ _ N) by lia.
  destruct (pv_pre (parseVersion a)) as [x|], (pv_pre (parseVersion b)) as [y|]; cbn in *;
    try by repeat case_bool_decide.
  rewrite (compareParts_exact _ _ N) by lia. by repeat case_bool_decide.
Qed.

#[export] Instance versions_three_way : ThreeWay compareWorkflowVersions.
Proof.
  split.
  - intros a b. rewrite !(compare_version_cmp _ _ (parts_of a + parts_of b)) by lia.
    apply version_cmp_three_way.
  - intros a b c. rewrite !(compare_version_cmp _ _ (parts_of a + parts_of b + parts_of c)) by lia.
    apply version_cmp_three_way.
Qed.

(** ** Plain numbers *)
Lemma digits_value_pretty x s : digits_value (pretty_N_go x s) 0 = digits_value s (Z.of_N x).
Proof.
  revert s. induction (N.lt_wf_0 x) as [x _ IH]; intros s.
  destruct (decide (x = 0%N)) as [->|Hx]; [done|].
  rewrite pretty_N_go_step by lia. rewrite IH by (apply N.div_lt; lia). cbn [digits_value].
  f_equal. assert (Z.of_N (Ascii.N_of_ascii (pretty_N_char (x `mod` 10))) - 48 = Z.of_N (x mod 10)) as ->.
  { assert (x mod 10 < 10)%N as Hm by (apply N.mod_lt; lia). revert Hm. generalize (x mod 10)%N.
    intros d Hd. assert (d = 0 \/ d = 1 \/ d = 2 \/ d = 3 \/ d = 4 \/ d = 5 \/ d = 6 \/ d = 7
      \/ d = 8 \/ d = 9)%N as Hd' by lia. by repeat (destruct Hd' as [ -> |Hd']); subst. }
  pose proof (N.div_mod x 10 ltac:(lia)). lia.
Qed.

Lemma BigInt_str n : 0 <= n -> BigInt (str_of_Z n) = n /\ string_forallb is_digit (str_of_Z n) = true.
Proof.
  intros Hn. destruct n as [|p|p]; [done| |lia].
  split; [|apply (pretty_pos_digits p)].
  change (str_of_Z (Zpos p)) with (pretty_N_go (Npos p) ""). unfold BigInt. by rewrite digits_value_pretty.
Qed.

Lemma digit_plain c : is_digit c = true -> is_space c = false /\
  ((Ascii.N_of_ascii c =? 118)%N || (Ascii.N_of_ascii c =? 86)%N) = false /\
  (Ascii.N_of_ascii c =? 46)%N = false /\ (Ascii.N_of_ascii c =? 45)%N = false.
Proof.
  unfold is_digit, is_space. intros [H1%Z.leb_le H2%Z.leb_le]%andb_prop.
  rewrite !orb_false_iff, !andb_false_iff, !N.eqb_neq, !N.leb_gt. lia.
Qed.

Lemma parse_digits s : string_forallb is_digit s = true -> s <> "" -> parseVersion s = mkParsed [s] None.
Proof.
  intros Hs Hne. unfold parseVersion.
  assert (trimStart s = s) as Hts.
  { destruct s as [|c s]; [done|]. cbn in Hs |- *. apply andb_prop in Hs as [Hc _].
    by rewrite (proj1 (digit_plain c Hc)). }
  assert (trimEnd s = s) as Hte.
  { clear Hne Hts. induction s as [|c s IH]; [done|]. cbn in Hs |- *. apply andb_prop in Hs as [Hc Hs].
    by rewrite IH, (proj1 (digit_plain c Hc)). }
  assert (drop_v s = s) as Hdv.
  { destruct s as [|c [|d s]]; [done|done|]. cbn in Hs |- *. apply andb_prop in Hs as [Hc _].
    by rewrite (proj1 (proj2 (digit_plain c Hc))). }
  assert (split_dash s = (s, None)) as Hsd.
  { clear -Hs. induction s as [|c s IH]; [done|]. cbn in Hs |- *. apply andb_prop in Hs as [Hc Hs].
    by rewrite IH, (proj2 (proj2 (proj2 (digit_plain c Hc)))). }
  assert (split_dots s = [s]) as Hdots.
  { clear -Hs. induction s as [|c s IH]; [done|]. cbn in Hs |- *. apply andb_prop in Hs as [Hc Hs].
    by rewrite IH, (proj1 (proj2 (proj2 (digit_plain c Hc)))). }
  unfold trim. rewrite Hts, Hte, Hdv, Hsd, Hdots. done.
Qed.

Lemma compare_numbers n m : 0 <= n -> 0 <= m ->
  compareWorkflowVersions (str_of_Z n) (str_of_Z m) = Z.sgn (n - m).
Proof.
  intros Hn Hm. destruct (BigInt_str n Hn) as [Hbn Hdn], (BigInt_str m Hm) as [Hbm Hdm].
  unfold compareWorkflowVersions. rewrite !parse_digits by (done || apply str_of_Z_nonempty).
  cbn [pv_release pv_pre]. assert (compareParts [str_of_Z n] [str_of_Z m] true = Z.sgn (n - m)) as ->.
  { assert (comparePart (str_of_Z n) (str_of_Z m) = Z.sgn (n - m)) as Hc.
    { unfold comparePart, all_digits.
      rewrite !(bool_decide_false (str_of_Z _ = "")), Hdn, Hdm by apply str_of_Z_nonempty.
      cbn [negb andb]. rewrite Hbn, Hbm. destruct (Z.ltb_spec n m), (Z.gtb_spec n m); lia. }
    unfold compareParts. cbn -[comparePart]. unfold opt_or. cbn -[comparePart]. rewrite Hc.
    case_bool_decide; lia. }
  case_bool_decide; lia.
Qed.

(** Versions are totally ordered by number, not as text. Swapping the
    arguments negates the answer and the order is transitive, so sorting
    and picking a newest version are well defined; [latestWorkflowVersion]
    answers with one of the versions, the first among the newest, and with
    none only for an empty list; two plain numbers compare as numbers. *)
Theorem version_order :
  (forall a b, compareWorkflowVersions b a = - compareWorkflowVersions a b) /\
  (forall a b c, compareWorkflowVersions a b <= 0 -> compareWorkflowVersions b c <= 0 ->
     compareWorkflowVersions a c <= 0) /\
  (forall versions,
     match latestWorkflowVersion versions with
     | None => versions = []
     | Some v => exists older rest, versions = older ++ v :: rest /\
         Forall (fun w => compareWorkflowVersions w v < 0) older /\
         Forall (fun w => compareWorkflowVersions w v <= 0) rest
     end) /\
  (forall n m, 0 <= n -> 0 <= m ->
     compareWorkflowVersions (str_of_Z n) (str_of_Z m) = Z.sgn (n - m)).
Proof.
  split_and!; [apply tw_sym|apply tw_trans| |apply compare_numbers].
  intros versions. unfold latestWorkflowVersion. induction versions as [|v versions IH] using rev_ind; [done|].
  rewrite foldl_app. cbn [foldl]. destruct (foldl _ None versions) as [l|].
  2:{ rewrite IH. by exists [], []. }
  destruct IH as (older & rest & -> & Ho & Hr).
  pose proof (tw_sym (cmp := compareWorkflowVersions) v l) as Hs.
  destruct (Z.gtb_spec (compareWorkflowVersions v l) 0) as [Hg|Hg].
  - exists (older ++ l :: rest), []. split_and!; [done| |done].
    apply Forall_app. split; [|constructor; [lia|]]; (eapply Forall_impl; [eassumption|]);
      intros w Hw; cbn in Hw; pose proof (tw_trans (cmp := compareWorkflowVersions) v w l) as Ht;
      pose proof (tw_sym (cmp := compareWorkflowVersions) v w); lia.
  - exists older, (rest ++ [v]). split_and!; [by rewrite <- app_assoc|done|].
    apply Forall_app. split; [done|]. by repeat constructor.
Qed.
