(* ===== verification/RollbackOrder.v ===== *)
(** The order of a saga rollback: [compensationOrder] of
    [durable/runner/compensation.ts].

    The code keeps one entry per completed step with a mutable count of the
    completed steps that depend on it and are not rolled back yet. The counts
    live in a map of their own here; [available] holds the names of its
    entries. *)
From S2P Require Import Prelude Json RunState Exits Retry Replay Dag.
Open Scope string_scope.
Open Scope list_scope.
Open Scope Z_scope.

(** [compensate] gets the result, the input and the run's id; it runs in the
    world and may fail. *)
Record CompensatableStep (W : Type) : Type := mkCompensatable {
  cs_name : string;
  cs_codec : option Codec;
  cs_compensate : option (json -> json -> string -> W -> outcome unit * W);
}.
Arguments mkCompensatable {W}.
Arguments cs_name {W}.
Arguments cs_codec {W}.
Arguments cs_compensate {W}.

(** [state.steps[name]]. *)
Definition step_row (steps : list (string * StepState)) (name : string) : option StepState :=
  alist_get name steps.

Definition has_status (s : StepStatus) (row : option StepState) : bool :=
  bool_decide (row ≫= st_status = Some s).

Section order.
Context {W : Type}.
Implicit Types (steps : list (CompensatableStep W)) (rows : list (string * StepState)).

(** [completedMs] is [None] for minus infinity. *)
Record Entry : Type := mkRollback {
  en_step : CompensatableStep W;
  en_index : nat;
  en_completedMs : option Z;
}.

Definition later_ms (a b : option Z) : bool :=
  match a, b with
  | Some a, Some b => a >? b
  | Some _, None => true
  | None, _ => false
  end.

Definition before (a b : Entry) : bool :=
  if bool_decide (en_completedMs a <> en_completedMs b)
  then later_ms (en_completedMs a) (en_completedMs b)
  else (en_index b <? en_index a)%nat.

Definition add_entry rows (m : jmap string Entry) (e : nat * CompensatableStep W)
    : jmap string Entry :=
  let row := step_row rows (cs_name e.2) in
  if has_status SCompleted row
  then <[cs_name e.2 := mkRollback e.2 e.1 (row ≫= st_completedAt)]> m else m.

Definition entries_of steps rows : jmap string Entry :=
  foldl (add_entry rows) ∅ (imap pair steps).

Definition has (m : jmap string Entry) (x : string) : bool := bool_decide (is_Some (m !! x)).

(** The dependencies of [node] that are entries, itself left out. *)
Definition entry_deps (entries : jmap string Entry) (node : DagNode) : list string :=
  base.filter (fun d => Is_true (bool_decide (d <> dn_name node) && has entries d)) (dependsOn node).

Definition count_up (m : jmap string Z) (dep : string) : jmap string Z :=
  <[dep := opt_or (m !! dep) 0 + 1]> m.

Definition register (entries : jmap string Entry) (acc : jmap string (list string) * jmap string Z)
    (node : DagNode) : jmap string (list string) * jmap string Z :=
  if has entries (dn_name node) then
    let deps := entry_deps entries node in
    (<[dn_name node := deps]> acc.1, foldl count_up acc.2 deps)
  else acc.

(** [dependsOn] and the counts, from the graph. *)
Definition register_all (entries : jmap string Entry) (dagNodes : list DagNode)
    : jmap string (list string) * jmap string Z :=
  foldl (register entries) (∅, jm_map (fun _ => 0) entries) dagNodes.

(** The scan for the entry to roll back next: [best], at index [i]. *)
Fixpoint best_from (i best : nat) (b : Entry) (l : list Entry) : nat :=
  match l with
  | [] => best
  | e :: l => if before e b then best_from (S i) i e l else best_from (S i) best b l
  end.

(** One dependency of the step just taken: it is available when nothing else
    waits for it. *)
Definition release (acc : jmap string Z * list string) (dep : string)
    : jmap string Z * list string :=
  let '(counts, available) := acc in
  let n := opt_or (counts !! dep) 0 - 1 in
  (<[dep := n]> counts, if n =? 0 then available ++ [dep] else available).

(** The loop; it answers [None] when the fuel is spent. *)
Fixpoint order_loop (fuel : nat) (entries : jmap string Entry)
    (deps : jmap string (list string)) (counts : jmap string Z) (available taken : list string)
    : option (list string) :=
  match omap (fun x => entries !! x) available with
  | [] => Some taken
  | e :: es =>
      match fuel with
      | O => None
      | S fuel =>
          let best := best_from 1 0 e es in
          next ← available !! best;
          let available := take best available ++ drop (S best) available in
          let '(counts, available) := foldl release (counts, available) (opt_or (deps !! next) []) in
          order_loop fuel entries deps counts available (taken ++ [next])
      end
  end.

Definition initially_available (entries : jmap string Entry) (counts : jmap string Z) : list string :=
  base.filter (fun x => counts !! x = Some 0) (jm_keys entries).

(** The names in the order their entries are taken: one unit of fuel each. *)
Definition taken_order steps rows (dagNodes : list DagNode) : option (list string) :=
  let entries := entries_of steps rows in
  let '(deps, counts) := register_all entries dagNodes in
  order_loop (length (jm_entries entries)) entries deps counts (initially_available entries counts) [].

(** The entry's step, when it can be rolled back. *)
Definition reversible steps rows (x : string) : option (CompensatableStep W) :=
  e ← entries_of steps rows !! x;
  if bool_decide (is_Some (cs_compensate (en_step e))) then Some (en_step e) else None.

(** [compensationOrder]: of the taken entries, those that can be rolled
    back. *)
Definition compensationOrder steps rows (dagNodes : list DagNode)
    : option (list (CompensatableStep W)) :=
  match taken_order steps rows dagNodes with
  | Some taken => Some (omap (reversible steps rows) taken)
  | None => None
  end.
End order.
Arguments Entry : clear implicits.

Definition sample_step (n : string) : CompensatableStep unit :=
  mkCompensatable n None (Some (fun _ _ _ w => (Ret tt, w))).

Definition sample_row (n : string) (at_ : Z) : string * StepState :=
  (n, mkStep n 1 (Some SCompleted) [] TySingle JNull None None None (Some at_) None 1 None None None
        None JUndef no_ledger None).

Definition sample_graph : list DagNode :=
  [mkNode "a" []; mkNode "b" ["a"]; mkNode "c" ["a"]; mkNode "d" ["a"; "a"]; mkNode "e" ["b"; "c"]].

Definition sample_rollback : option (list (CompensatableStep unit)) :=
  compensationOrder (sample_step <$> ["a"; "b"; "c"; "d"; "e"])
    [sample_row "a" 9; sample_row "b" 5; sample_row "c" 7; sample_row "d" 7] sample_graph.

Example rolls_back_latest_first : from_option (map cs_name) [] sample_rollback = ["d"; "c"; "b"; "a"].
Proof. vm_compute. reflexivity. Qed.

(** ** The order of entries *)
Section before.
Context {W : Type}.
Implicit Types a b c e : Entry W.

Lemma before_spec a b : before a b = true <->
  later_ms (en_completedMs a) (en_completedMs b) = true \/
  (en_completedMs a = en_completedMs b /\ (en_index b < en_index a)%nat).
Proof.
  unfold before. case_bool_decide as H.
  - split; [by left|]. by intros [?|[? _]].
  - rewrite H, Nat.ltb_lt. split; [by right|]. intros [Hl|[_ ?]]; [|done].
    destruct (en_completedMs b); cbn in Hl; [lia|done].
Qed.

Lemma later_ms_trans x y z : later_ms x y = true -> later_ms y z = true -> later_ms x z = true.
Proof. destruct x, y, z; cbn; try done. lia. Qed.

Lemma before_trans a b c : before a b = true -> before b c = true -> before a c = true.
Proof.
  rewrite !before_spec. intros [H1|[E1 H1]] [H2|[E2 H2]].
  - left. by eapply later_ms_trans.
  - left. by rewrite <- E2.
  - left. by rewrite E1.
  - right. split; [congruence|lia].
Qed.

Lemma before_irrefl a : before a a = false.
Proof.
  apply not_true_iff_false. rewrite before_spec. intros [H|[_ H]]; [|lia].
  destruct (en_completedMs a); cbn in H; [lia|done].
Qed.

Lemma before_asym a b : before a b = true -> before b a = false.
Proof.
  intros H. apply not_true_iff_false. intros H'. pose proof (before_trans _ _ _ H H') as Hx.
  by rewrite before_irrefl in Hx.
Qed.

Lemma before_total a b : en_index a <> en_index b -> before a b = true \/ before b a = true.
Proof.
  intros Hi. rewrite !before_spec.
  destruct (decide (en_completedMs a = en_completedMs b)) as [E|Hne].
  - destruct (decide (en_index b < en_index a)%nat); [left|right]; right; (split; [congruence|lia]).
  - destruct (en_completedMs a) as [x|], (en_completedMs b) as [y|]; cbn in *; try tauto.
    destruct (decide (x > y)); [left|right]; left; [lia|]. assert (x <> y) by congruence. lia.
Qed.

Lemma before_split a b c : before a c = true -> before a b = true \/ before b c = true.
Proof.
  intros H. destruct (before a b) eqn:Hab; [by left|]. destruct (before b c) eqn:Hbc; [by right|].
  exfalso. apply not_true_iff_false in Hab, Hbc. rewrite before_spec in H, Hab, Hbc.
  assert (forall x y : Z, Some x = Some y <-> x = y) as Hs by (intros; split; congruence).
  assert (forall x : Z, Some x = None <-> False) as Hn by done.
  assert (forall x : Z, None = Some x <-> False) as Hn' by done.
  assert (@None Z = None <-> True) as Ht by done.
  destruct (en_completedMs a), (en_completedMs b), (en_completedMs c); cbn in *;
    rewrite ?Hs, ?Hn, ?Hn', ?Ht in *; lia.
Qed.

(** The scan finds an entry that nothing comes before. *)
Lemma best_from_spec (L : list (Entry W)) i best b l :
  L !! best = Some b -> drop i L = l ->
  exists e, L !! best_from i best b l = Some e /\ before b e = false /\
    forall e', e' ∈ l -> before e' e = false.
Proof.
  revert i best b. induction l as [|x l IH]; intros i best b Hb Hl; cbn [best_from].
  { exists b. split_and!; [done|apply before_irrefl|by intros ? ?%not_elem_of_nil]. }
  assert (L !! i = Some x) as Hx.
  { rewrite <- (Nat.add_0_r i), <- lookup_drop, Hl. done. }
  assert (drop (S i) L = l) as Hl'.
  { replace (S i) with (i + 1)%nat by lia. rewrite <- drop_drop, Hl. done. }
  destruct (before x b) eqn:Ex.
  - destruct (IH (S i) i x Hx Hl') as (e & He & Hxe & Hall). exists e. split; [done|].
    assert (before x e = false -> before b e = false) as Hb'.
    { intros H. apply not_true_iff_false. intros Hbe.
      by rewrite (before_trans x b e Ex Hbe) in H. }
    split; [by apply Hb'|]. intros e' [->|He']%elem_of_cons; [done|by apply Hall].
  - destruct (IH (S i) best b Hb Hl') as (e & He & Hbe & Hall). exists e. split_and!; [done|done|].
    intros e' [->|He']%elem_of_cons; [|by apply Hall]. apply not_true_iff_false.
    intros [H|H]%(before_split _ b); congruence.
Qed.
End before.

(** ** Who waits for whom *)
Section loop.
Context {W : Type} (entries : jmap string (Entry W)) (nodes : list DagNode).
Context (Hwf : jm_wf entries) (Hnames : NoDup (dn_name <$> nodes)).
Implicit Types (counts : jmap string Z) (s q : list string).

(** The completed step [y] depends on [x]. *)
Definition waits (y x : string) : Prop :=
  exists n, n ∈ nodes /\ dn_name n = y /\ has entries y = true /\ x ∈ entry_deps entries n.

(** How many dependencies on [x] the steps outside [s] have. *)
Fixpoint remaining (s : list string) (nodes : list DagNode) (x : string) : Z :=
  match nodes with
  | [] => 0
  | n :: nodes =>
      (if decide (has entries (dn_name n) = true /\ dn_name n ∉ s)
       then occ x (entry_deps entries n) else 0) + remaining s nodes x
  end.

Lemma has_true x : has entries x = true <-> is_Some (entries !! x).
Proof. apply bool_decide_eq_true. Qed.

Lemma elem_of_entry_deps n x :
  x ∈ entry_deps entries n <-> x ∈ dependsOn n /\ x <> dn_name n /\ is_Some (entries !! x).
Proof.
  unfold entry_deps. rewrite list_elem_of_filter, Is_true_true, andb_true_iff, bool_decide_eq_true, has_true.
  tauto.
Qed.

Lemma remaining_nonneg s l x : 0 <= remaining s l x.
Proof.
  induction l as [|n l IH]; cbn [remaining]; [done|].
  pose proof (occ_nonneg x (entry_deps entries n)). case_decide; lia.
Qed.

Lemma remaining_ge s l n x : n ∈ l -> has entries (dn_name n) = true -> (dn_name n ∉ s) ->
  occ x (entry_deps entries n) <= remaining s l x.
Proof.
  intros Hn Hh Hs. induction l as [|m l IH]; [by apply not_elem_of_nil in Hn|]. cbn [remaining].
  pose proof (remaining_nonneg s l x). pose proof (occ_nonneg x (entry_deps entries m)).
  apply elem_of_cons in Hn as [->|Hn]; [rewrite decide_True by done; lia|].
  specialize (IH Hn). case_decide; lia.
Qed.

Lemma remaining_zero s x : remaining s nodes x = 0 <-> forall y, waits y x -> y ∈ s.
Proof.
  split.
  - intros H y (n & Hn & <- & Hh & Hx). apply dec_stable. intros Hs.
    pose proof (remaining_ge s nodes n x Hn Hh Hs). apply occ_pos in Hx. lia.
  - unfold waits. clear Hnames. induction nodes as [|n l IH]; cbn [remaining]; [done|]. intros H.
    rewrite IH; [|intros y (m & Hm & Hy); apply H; exists m; split; [by right|done]].
    case_decide as Hd; [|done]. rewrite occ_zero; [done|]. intros Hx. apply (proj2 Hd).
    apply H. exists n. split_and!; [left|done|tauto|done].
Qed.

Lemma remaining_absent s l x y : (y ∉ dn_name <$> l) -> remaining (s ++ [y]) l x = remaining s l x.
Proof.
  induction l as [|n l IH]; cbn [remaining]; [done|]. rewrite fmap_cons, not_elem_of_cons.
  intros [Hy Hl]. rewrite IH by done. f_equal. apply decide_ext. rewrite not_elem_of_app, list_elem_of_singleton.
  split; [tauto|]. intros [? ?]. split_and!; [done|done|congruence].
Qed.

(** The dependencies of [x] as [register_all] keeps them. *)
Definition deps_of (deps : jmap string (list string)) (x : string) : list string := opt_or (deps !! x) [].

Lemma remaining_add s x y deps : (y ∉ s) -> has entries y = true ->
  (forall n, n ∈ nodes -> has entries (dn_name n) = true -> deps_of deps (dn_name n) = entry_deps entries n) ->
  ((y ∉ dn_name <$> nodes) -> deps_of deps y = []) ->
  remaining (s ++ [y]) nodes x = remaining s nodes x - occ x (deps_of deps y).
Proof.
  intros Hs Hh Hdeps Hnone. destruct (decide (y ∈ dn_name <$> nodes)) as [Hy|Hy].
  2:{ rewrite Hnone by done. rewrite remaining_absent by done. rewrite occ_nil. lia. }
  clear Hnone. revert Hnames Hy Hdeps. clear -Hs Hh.
  generalize nodes as l. induction l as [|n l IH]; [by intros _ ?%not_elem_of_nil|].
  cbn [remaining]. rewrite fmap_cons. intros [Hn Hl]%NoDup_cons Hy Hdeps.
  apply elem_of_cons in Hy as [->|Hy].
  - rewrite remaining_absent by done. rewrite (Hdeps n) by (left || done).
    rewrite decide_False, decide_True; [lia|done|].
    intros [_ Hx]. apply Hx, elem_of_app. right. left.
  - rewrite (IH Hl Hy (fun m Hm => Hdeps m (list_elem_of_further _ _ _ Hm))).
    assert (dn_name n <> y) as Hne by (intros <-; by apply Hn).
    rewrite (decide_ext _ (has entries (dn_name n) = true /\ dn_name n ∉ s)); [lia|].
    rewrite not_elem_of_app, list_elem_of_singleton. split; [tauto|]. intros [? ?]. split_and!; done.
Qed.

Lemma remaining_snoc s l n x :
  remaining s (l ++ [n]) x = remaining s l x +
    (if decide (has entries (dn_name n) = true /\ dn_name n ∉ s) then occ x (entry_deps entries n) else 0).
Proof. induction l as [|m l IH]; cbn [remaining app]; [lia|]. rewrite IH. lia. Qed.

Lemma count_up_fold D counts :
  (forall x, degree (foldl count_up counts D) x = degree counts x + occ x D) /\
  (forall x, is_Some (counts !! x) -> is_Some (foldl count_up counts D !! x)).
Proof.
  revert counts. induction D as [|d D IH]; intros counts; cbn [foldl].
  { split; [|done]. intros x. rewrite occ_nil. lia. }
  destruct (IH (count_up counts d)) as [H1 H2]. split; intros x.
  - rewrite H1, occ_cons. unfold count_up. rewrite degree_insert. fold (degree counts d).
    destruct (decide (d = x)) as [->|Hne]; [rewrite decide_True by done|rewrite decide_False by congruence]; lia.
  - intros Hx. apply H2. unfold count_up. rewrite jlookup_insert. by case_decide.
Qed.

Record registered (l : list DagNode) (acc : jmap string (list string) * jmap string Z) : Prop := {
  rg_deps : forall n, n ∈ l -> has entries (dn_name n) = true ->
    deps_of acc.1 (dn_name n) = entry_deps entries n;
  rg_other : forall y, (y ∉ dn_name <$> l) -> deps_of acc.1 y = [];
  rg_counts : forall x, degree acc.2 x = remaining [] l x;
  rg_some : forall x, is_Some (entries !! x) -> is_Some (acc.2 !! x);
}.

Lemma register_all_spec : registered nodes (register_all entries nodes).
Proof.
  unfold register_all. revert Hnames. induction nodes as [|n l IH] using rev_ind.
  { intros _. split; cbn [foldl fst snd].
    - by intros n ?%not_elem_of_nil.
    - done.
    - intros x. unfold degree. rewrite jlookup_map. by destruct (entries !! x).
    - intros x [e He]. rewrite jlookup_map, He. by eexists. }
  rewrite fmap_app. intros (Hl & Hd & _)%NoDup_app. destruct (IH Hl) as [H1 H2 H3 H4].
  rewrite foldl_app. cbn [foldl]. set (acc := foldl _ _ l) in *. clearbody acc.
  assert (dn_name n ∉ dn_name <$> l) as Hn.
  { intros Hin. apply (Hd (dn_name n) Hin). cbn. left. }
  unfold register. destruct (has entries (dn_name n)) eqn:Hh.
  - destruct (count_up_fold (entry_deps entries n) acc.2) as [Hc Hs].
    assert (forall y, deps_of (<[dn_name n := entry_deps entries n]> acc.1) y =
        if decide (dn_name n = y) then entry_deps entries n else deps_of acc.1 y) as Hlk.
    { intros y. unfold deps_of. rewrite jlookup_insert. by case_decide. }
    split; cbn [fst snd].
    + intros m Hm Hhm. rewrite Hlk. apply elem_of_app in Hm as [Hm| ->%list_elem_of_singleton].
      * rewrite decide_False; [by apply H1|]. intros E. apply Hn. rewrite E. by apply list_elem_of_fmap_2.
      * by rewrite decide_True.
    + intros y Hy. rewrite Hlk. rewrite fmap_app, not_elem_of_app in Hy. destruct Hy as [Hy Hyn].
      rewrite decide_False; [by apply H2|]. intros <-. apply Hyn. cbn. left.
    + intros x. rewrite Hc, H3, remaining_snoc, decide_True; [done|]. split; [done|apply not_elem_of_nil].
    + intros x Hx. by apply Hs, H4.
  - split; cbn [fst snd].
    + intros m [Hm| ->%list_elem_of_singleton]%elem_of_app Hhm; [by apply H1|congruence].
    + intros y Hy. rewrite fmap_app, not_elem_of_app in Hy. apply H2, Hy.
    + intros x. rewrite H3, remaining_snoc, decide_False by (by intros [? _]; congruence). lia.
    + done.
Qed.

(** ** The loop *)
Definition entry_before (x z : string) : Prop :=
  forall a b, entries !! x = Some a -> entries !! z = Some b -> before b a = false.

(** Each step is taken after the steps that wait for it, and before every
    other step that could have been taken. *)
Definition taken_ok (s : list string) : Prop :=
  forall l1 x l2, s = l1 ++ x :: l2 ->
    (forall y, waits y x -> y ∈ l1) /\
    (forall z, has entries z = true -> (z ∉ l1) ->
       (forall y, waits y z -> y ∈ l1) -> entry_before x z).

Record loop_inv counts q s : Prop := {
  lp_nodup : NoDup (s ++ q);
  lp_entries : forall x, x ∈ s ++ q -> has entries x = true;
  lp_counts : forall x, degree counts x = remaining s nodes x;
  lp_ready : forall x, has entries x = true -> (x ∈ s ++ q <-> degree counts x = 0);
  lp_taken : taken_ok s;
}.

Lemma taken_ok_snoc s x : taken_ok s ->
  (forall y, waits y x -> y ∈ s) ->
  (forall z, has entries z = true -> (z ∉ s) ->
     (forall y, waits y z -> y ∈ s) -> entry_before x z) ->
  taken_ok (s ++ [x]).
Proof.
  intros Hs Hx Hb l1 y l2 Hl. destruct l2 as [|z l2 _] using rev_ind.
  - apply app_inj_tail in Hl as [-> ->]. done.
  - rewrite app_comm_cons, app_assoc in Hl. apply app_inj_tail in Hl as [Hl _]. by apply (Hs l1 y l2).
Qed.

Lemma release_relax : release = relax.
Proof. reflexivity. Qed.

Lemma loop_step counts q s i x deps :
  (forall n, n ∈ nodes -> has entries (dn_name n) = true -> deps_of deps (dn_name n) = entry_deps entries n) ->
  (forall y, (y ∉ dn_name <$> nodes) -> deps_of deps y = []) ->
  loop_inv counts q s -> q !! i = Some x ->
  (forall z, z ∈ q -> entry_before x z) ->
  let '(counts', q') := foldl release (counts, take i q ++ drop (S i) q) (deps_of deps x) in
  loop_inv counts' q' (s ++ [x]).
Proof.
  intros Hdeps Hother [Hnd Hent Hcnt Hrdy Htk] Hi Hbest. rewrite release_relax.
  set (q0 := take i q ++ drop (S i) q).
  assert (q ≡ₚ x :: q0) as Hq.
  { rewrite (delete_Permutation q i x Hi). by rewrite delete_take_drop. }
  assert (NoDup (s ++ x :: q0)) as Hnd' by (by rewrite <- Hq).
  assert (forall z, z ∈ s ++ q <-> z ∈ s ++ x :: q0) as Hmem by (intros z; by rewrite Hq).
  assert (has entries x = true) as Hx by (apply Hent, Hmem, elem_of_app; right; left).
  assert (x ∉ s) as Hxs.
  { apply NoDup_app in Hnd' as (_ & Hd & _). intros Hin. apply (Hd x Hin). left. }
  pose proof (fun y => remaining_add s y x deps Hxs Hx Hdeps (Hother x)) as Hadd.
  destruct (relax_spec (deps_of deps x) counts q0) as (counts' & new & Hr & Hc' & Hnn & Hnew).
  { intros y. rewrite Hcnt. specialize (Hadd y).
    pose proof (remaining_nonneg (s ++ [x]) nodes y). lia. }
  rewrite Hr. assert (forall y, degree counts' y = remaining (s ++ [x]) nodes y) as Hcnt'
    by (intros y; rewrite Hc', Hcnt, Hadd; lia).
  assert (forall y, y ∈ deps_of deps x -> has entries y = true) as Hdep_has.
  { intros y Hy. destruct (decide (x ∈ dn_name <$> nodes)) as [Hin|Hin].
    - apply list_elem_of_fmap in Hin as (n & -> & Hn). rewrite Hdeps in Hy by done.
      apply has_true. apply elem_of_entry_deps in Hy. tauto.
    - rewrite Hother in Hy by done. by apply not_elem_of_nil in Hy. }
  assert (forall y, y ∈ new <-> y ∈ deps_of deps x /\ degree counts y = occ y (deps_of deps x)) as Hnew' by done.
  assert (forall y, y ∈ new -> y ∉ s ++ q) as Hfresh.
  { intros y Hy Hin. apply Hnew' in Hy as [Hy Hd]. apply Hrdy in Hin; [|by apply Hdep_has].
    apply occ_pos in Hy. lia. }
  split.
  - rewrite <- app_assoc. change (s ++ ([x] ++ (q0 ++ new))) with (s ++ ((x :: q0) ++ new)).
    rewrite app_assoc. apply NoDup_app. split_and!; [done| |done].
    intros y Hy Hyn. apply (Hfresh y Hyn). by apply Hmem.
  - intros y. rewrite <- app_assoc. cbn. intros Hy.
    assert (y ∈ s ++ q \/ y ∈ new) as [?|Hy']; [|by apply Hent|].
    { rewrite Hmem. revert Hy. rewrite !elem_of_app, !elem_of_cons, elem_of_app. tauto. }
    apply Hnew' in Hy' as [Hy' _]. by apply Hdep_has.
  - done.
  - intros y Hy. rewrite <- app_assoc. cbn.
    assert (y ∈ s ++ x :: q0 ++ new <-> y ∈ s ++ q \/ y ∈ new) as ->.
    { rewrite Hmem, !elem_of_app, !elem_of_cons, elem_of_app. tauto. }
    rewrite Hc', Hrdy, Hnew' by done. pose proof (occ_nonneg y (deps_of deps x)) as H0.
    pose proof (remaining_nonneg (s ++ [x]) nodes y) as H1. rewrite <- Hcnt', Hc' in H1.
    pose proof (occ_pos y (deps_of deps x)) as H2. split; [intros [?|[? ?]]; lia|].
    intros E. destruct (decide (degree counts y = 0)); [by left|right]. split; [apply H2; lia|lia].
  - apply taken_ok_snoc; [done| |].
    + apply remaining_zero. rewrite <- Hcnt. apply Hrdy; [done|]. apply Hmem, elem_of_app. right. left.
    + intros z Hz Hzs Hw. apply Hbest. apply remaining_zero in Hw.
      rewrite <- Hcnt in Hw. apply Hrdy in Hw; [|done]. by apply elem_of_app in Hw as [?|?].
Qed.

(** The available names all have entries, so the scan sees them all. *)
Lemma scan_entries q : (forall x, x ∈ q -> has entries x = true) ->
  length (omap (fun x => entries !! x) q) = length q /\
  forall i, omap (fun x => entries !! x) q !! i = q !! i ≫= fun x => entries !! x.
Proof.
  induction q as [|x q IH]; intros Hq; [done|]. cbn.
  destruct (entries !! x) as [e|] eqn:He.
  2:{ assert (has entries x = true) as Hx by (apply Hq; left). apply has_true in Hx as [? ?]. congruence. }
  destruct IH as [IH1 IH2]; [intros y Hy; apply Hq; by right|]. cbn. split; [by rewrite IH1|].
  intros [|i]; [done|]. apply IH2.
Qed.

Lemma inv_length counts q s : loop_inv counts q s -> (length (s ++ q) <= length (jm_entries entries))%nat.
Proof.
  intros [Hnd Hent _ _ _]. transitivity (length (jm_keys entries)).
  - apply submseteq_length, NoDup_submseteq; [done|]. intros x Hx. apply Hent in Hx. apply has_true in Hx as [e He].
    by eapply jlookup_key.
  - unfold jm_keys. by rewrite length_fmap.
Qed.

Lemma order_loop_result fuel deps counts q s :
  (forall n, n ∈ nodes -> has entries (dn_name n) = true -> deps_of deps (dn_name n) = entry_deps entries n) ->
  (forall y, (y ∉ dn_name <$> nodes) -> deps_of deps y = []) ->
  loop_inv counts q s -> (length (jm_entries entries) <= fuel + length s)%nat ->
  exists s' counts', order_loop fuel entries deps counts q s = Some s' /\ loop_inv counts' [] s'.
Proof.
  intros Hdeps Hother. revert counts q s. induction fuel as [|fuel IH]; intros counts q s Hinv Hf;
    pose proof (inv_length _ _ _ Hinv) as Hlen; rewrite length_app in Hlen; cbn [order_loop];
    destruct (scan_entries q) as [Hl Hlk]; try (intros x Hx; eapply lp_entries; [done|]; apply elem_of_app; by right).
  { assert (q = []) as -> by (apply length_zero_iff_nil; lia). cbn. by exists s, counts. }
  destruct (omap _ q) as [|e es] eqn:Eo.
  { cbn in Hl. assert (q = []) as -> by (apply length_zero_iff_nil; lia). by exists s, counts. }
  destruct (best_from_spec (e :: es) 1 0 e es) as (a & Ha & Hea & Hall); [done|done|].
  rewrite Hlk in Ha. apply bind_Some in Ha as (x & Hx & Ha). rewrite Hx. cbn [mbind option_bind].
  pose proof (loop_step counts q s (best_from 1 0 e es) x deps Hdeps Hother Hinv Hx) as Hstep.
  fold (deps_of deps x). destruct (foldl release _ _) as [counts' q'].
  apply IH; [|rewrite length_app; cbn; lia]. apply Hstep. intros z Hz a' b Ha' Hb.
  rewrite Ha in Ha'. injection Ha' as <-.
  assert (b ∈ e :: es) as Hin.
  { rewrite <- Eo. apply list_elem_of_omap. by exists z. }
  apply elem_of_cons in Hin as [->|Hin]; [done|by apply Hall].
Qed.

Lemma loop_inv_initial deps counts : registered nodes (deps, counts) ->
  loop_inv counts (initially_available entries counts) [].
Proof.
  intros [_ _ Hc Hs]. cbn [fst snd] in *.
  assert (forall x, x ∈ initially_available entries counts <-> has entries x = true /\ degree counts x = 0) as Hi.
  { intros x. unfold initially_available. rewrite list_elem_of_filter, has_true. unfold degree. split.
    - intros [H1 H2]. rewrite H1. split; [|done]. destruct (entries !! x) as [e|] eqn:He; [by eexists|].
      by apply jlookup_None in He.
    - intros [[e He] Hd]. destruct (Hs x) as [v Hv]; [by exists e|]. rewrite Hv in *. cbn in Hd. subst v.
      split; [done|]. by eapply jlookup_key. }
  split; cbn [app].
  - apply NoDup_filter, Hwf.
  - intros x Hx. by apply Hi.
  - done.
  - intros x Hx. rewrite Hi. tauto.
  - intros l1 x l2 Hl. by destruct l1.
Qed.

(** When the graph has an order, every entry is taken. *)
Lemma loop_takes_all counts s l :
  loop_inv counts [] s -> NoDup l -> ordered nodes l -> (forall x, has entries x = true -> x ∈ l) ->
  forall x, has entries x = true -> x ∈ s.
Proof.
  intros [_ _ Hc Hr _] Hnd Ho Hl. rewrite app_nil_r in Hr.
  assert (forall k i x, l !! i = Some x -> (length l - i <= k)%nat -> has entries x = true -> x ∈ s) as H.
  { induction k as [|k IH]; intros i x Hi Hk Hx; [apply lookup_lt_Some in Hi; lia|].
    apply Hr; [done|]. rewrite Hc. apply remaining_zero. intros y (n & Hn & Hy & Hhy & Hd).
    destruct (list_elem_of_lookup_1 l y (Hl y Hhy)) as [j Hj].
    apply elem_of_entry_deps in Hd as (Hd & _).
    assert (x ∈ take j l) as Hxj.
    { apply (Ho (take j l) y (drop (S j) l)) with n; [by rewrite take_drop_middle|done..]. }
    apply elem_of_take in Hxj as (i' & Hi' & Hlt).
    assert (i' = i) as -> by (eapply NoDup_lookup; done).
    apply (IH j y Hj); [|done]. apply lookup_lt_Some in Hj. lia. }
  intros x Hx. destruct (list_elem_of_lookup_1 l x (Hl x Hx)) as [i Hi]. by apply (H (length l) i x Hi ltac:(lia)).
Qed.
End loop.

(** ** The rollback order *)
Section correct.
Context {W : Type}.
Implicit Types (steps : list (CompensatableStep W)) (rows : list (string * StepState)).

(** The entry of [x] is that of the completed step of that name. *)
Definition entry_for steps rows (x : string) (e : Entry W) : Prop :=
  steps !! en_index e = Some (en_step e) /\ cs_name (en_step e) = x /\
  has_status SCompleted (step_row rows x) = true /\
  en_completedMs e = step_row rows x ≫= st_completedAt.

Lemma entries_from_steps steps rows x e : entries_of steps rows !! x = Some e -> en_step e ∈ steps.
Proof.
  unfold entries_of. assert (forall l (m : jmap string (Entry W)),
    (forall y e, m !! y = Some e -> en_step e ∈ steps) -> Forall (fun p => p.2 ∈ steps) l ->
    forall y e, foldl (add_entry rows) m l !! y = Some e -> en_step e ∈ steps) as Hf.
  { intros l m Hm Hl. revert m Hm. induction Hl as [|p l Hp Hl IH]; intros m Hm; cbn [foldl]; [done|].
    apply IH. intros y e'. unfold add_entry. destruct (has_status _ _); [|apply Hm].
    rewrite jlookup_insert. case_decide; [by intros [= <-]|apply Hm]. }
  apply Hf; [intros y e'; by rewrite jlookup_empty|]. apply Forall_forall. intros p Hp.
  apply elem_of_lookup_imap in Hp as (i & s & -> & Hs). by eapply list_elem_of_lookup_2.
Qed.

Lemma order_from_steps steps rows nodes order :
  compensationOrder steps rows nodes = Some order -> Forall (fun s => s ∈ steps) order.
Proof.
  unfold compensationOrder. destruct (taken_order steps rows nodes) as [taken|]; [|done]. intros [= <-].
  apply Forall_forall. intros s (x & _ & Hx)%list_elem_of_omap. unfold reversible in Hx.
  apply bind_Some in Hx as (e & He & Hs). case_bool_decide; [|done]. injection Hs as <-.
  by eapply entries_from_steps.
Qed.

Lemma entries_of_spec steps rows : NoDup (cs_name <$> steps) ->
  jm_wf (entries_of steps rows) /\
  forall x e, entries_of steps rows !! x = Some e <-> entry_for steps rows x e.
Proof.
  unfold entries_of, entry_for. induction steps as [|st l IH] using rev_ind.
  { intros _. split; [apply jm_wf_empty|]. intros x e. split; [done|]. by intros [? _]. }
  rewrite fmap_app. intros (Hl & Hd & _)%NoDup_app. destruct (IH Hl) as [Hwf Hlk].
  rewrite imap_app, foldl_app. cbn [foldl imap]. unfold add_entry at 1 3. cbn [fst snd].
  set (m := foldl _ _ _) in *. clearbody m. rewrite Nat.add_0_r.
  assert (forall x e, (l ++ [st]) !! en_index e = Some (en_step e) /\ cs_name (en_step e) = x <->
      (l !! en_index e = Some (en_step e) /\ cs_name (en_step e) = x) \/
      (en_index e = length l /\ en_step e = st /\ x = cs_name st)) as Hsnoc.
  { intros x e. rewrite lookup_app_Some, list_lookup_singleton_Some. split.
    - intros [[?|(? & ? & <-)] <-]; [by left|right]. split_and!; [lia|done|done].
    - intros [?|(-> & -> & ->)]; [tauto|]. split; [right|done]. split_and!; [lia|lia|done]. }
  assert (forall e, ~ (l !! en_index e = Some (en_step e) /\ cs_name (en_step e) = cs_name st)) as Hno.
  { intros e [Hi Hn]. apply (Hd (cs_name st)); [|cbn; left]. rewrite <- Hn.
    apply list_elem_of_fmap_2. by eapply list_elem_of_lookup_2. }
  destruct (has_status SCompleted (step_row rows (cs_name st))) eqn:Hs.
  - split; [by apply jm_wf_insert|]. intros x e. rewrite jlookup_insert. case_decide as Hx.
    + subst x. split.
      * intros [= <-]. cbn. split_and!; try done. rewrite lookup_app_r by lia. by rewrite Nat.sub_diag.
      * intros (Hi & Hn & _ & Hm). destruct (proj1 (Hsnoc _ _) (conj Hi Hn)) as [H|(Hi' & Hst & _)].
        -- by apply Hno in H.
        -- destruct e as [s i ms]; cbn in *. by subst.
    + rewrite Hlk. split.
      * intros (Hi & Hn & ?). destruct (proj2 (Hsnoc x e) (or_introl (conj Hi Hn))). done.
      * intros (Hi & Hn & ?). destruct (proj1 (Hsnoc x e) (conj Hi Hn)) as [[? ?]|(_ & _ & ->)]; done.
  - split; [done|]. intros x e. rewrite Hlk. split.
    + intros (Hi & Hn & ?). destruct (proj2 (Hsnoc x e) (or_introl (conj Hi Hn))). done.
    + intros (Hi & Hn & Hc & ?). destruct (proj1 (Hsnoc x e) (conj Hi Hn)) as [[? ?]|(_ & _ & ->)]; [done|congruence].
Qed.

Definition completed_step steps rows (x : string) : Prop :=
  x ∈ cs_name <$> steps /\ has_status SCompleted (step_row rows x) = true.

(** [x] finished later than [z], or at the same time and is defined later. *)
Definition goes_first steps rows (x z : string) : Prop :=
  let at_ y := step_row rows y ≫= st_completedAt in
  later_ms (at_ x) (at_ z) = true \/
  (at_ x = at_ z /\ exists i j, (cs_name <$> steps) !! i = Some x /\ (cs_name <$> steps) !! j = Some z /\ (j < i)%nat).

(** The completed step [y] depends on the completed step [x]. *)
Definition depends_on steps rows (nodes : list DagNode) (y x : string) : Prop :=
  completed_step steps rows y /\ completed_step steps rows x /\ y <> x /\
  exists n, n ∈ nodes /\ dn_name n = y /\ x ∈ dependsOn n.

Context (steps : list (CompensatableStep W)) (rows : list (string * StepState)).
Context (nodes : list DagNode).
Context (Hnodes : dn_name <$> nodes = cs_name <$> steps) (Hnd : NoDup (cs_name <$> steps)).

Lemma has_completed x : has (entries_of steps rows) x = true <-> completed_step steps rows x.
Proof.
  destruct (entries_of_spec steps rows Hnd) as [_ Hs]. rewrite has_true. split.
  - intros [e (Hi & <- & Hc & _)%Hs]. split; [|done].
    apply list_elem_of_fmap_2. by eapply list_elem_of_lookup_2.
  - intros [(s & -> & Hin)%list_elem_of_fmap Hc]. apply list_elem_of_lookup_1 in Hin as [i Hi].
    exists (mkRollback s i (step_row rows (cs_name s) ≫= st_completedAt)). by apply Hs.
Qed.

Lemma waits_depends y x : waits (entries_of steps rows) nodes y x <-> depends_on steps rows nodes y x.
Proof.
  unfold waits, depends_on. split.
  - intros (n & Hn & <- & Hh & (Hd & Hne & Hx)%elem_of_entry_deps).
    split_and!; [by apply has_completed|by apply has_completed, has_true|congruence|by exists n].
  - intros (Hy & Hx & Hne & n & Hn & Hy' & Hd). exists n. split_and!; [done|done|by apply has_completed|].
    apply elem_of_entry_deps. split_and!; [done|congruence|by apply has_true, has_completed].
Qed.

Lemma before_goes_first x z a b :
  entries_of steps rows !! x = Some a -> entries_of steps rows !! z = Some b ->
  before a b = true <-> goes_first steps rows x z.
Proof.
  destruct (entries_of_spec steps rows Hnd) as [_ Hs].
  intros (Ha & Hax & _ & Hat)%Hs (Hb & Hbz & _ & Hbt)%Hs. rewrite before_spec. unfold goes_first.
  rewrite Hat, Hbt. assert ((cs_name <$> steps) !! en_index a = Some x) as Hix.
  { by rewrite list_lookup_fmap, Ha, <- Hax. }
  assert ((cs_name <$> steps) !! en_index b = Some z) as Hiz.
  { by rewrite list_lookup_fmap, Hb, <- Hbz. }
  split; (intros [?|[? H]]; [by left|right; split; [done|]]); [by exists (en_index a), (en_index b)|].
  destruct H as (i & j & Hi & Hj & Hlt).
  assert (i = en_index a) as -> by (eapply NoDup_lookup; done).
  assert (j = en_index b) as -> by (eapply NoDup_lookup; done). done.
Qed.

(** Of two completed steps, the one the scan may take first goes first. *)
Lemma entry_before_goes_first x z : completed_step steps rows x -> completed_step steps rows z ->
  x <> z -> entry_before (entries_of steps rows) x z -> goes_first steps rows x z.
Proof.
  intros [a Ha]%has_completed%has_true [b Hb]%has_completed%has_true Hne H.
  apply (before_goes_first x z a b Ha Hb). destruct (before_total a b) as [?|E]; [|done|].
  - intros E. apply Hne. destruct (entries_of_spec steps rows Hnd) as [_ Hs].
    apply Hs in Ha as (Ha & <- & _), Hb as (Hb & <- & _). rewrite E in Ha. congruence.
  - specialize (H a b Ha Hb). congruence.
Qed.

Lemma goes_first_trans x y z : completed_step steps rows x -> completed_step steps rows y ->
  completed_step steps rows z -> goes_first steps rows x y -> goes_first steps rows y z ->
  goes_first steps rows x z.
Proof.
  intros [a Ha]%has_completed%has_true [b Hb]%has_completed%has_true [c Hc]%has_completed%has_true.
  rewrite <- (before_goes_first x y a b), <- (before_goes_first y z b c), <- (before_goes_first x z a c) by done.
  apply before_trans.
Qed.

(** What the order promises of the names taken. *)
Definition rollback_spec (taken : list string) : Prop :=
  NoDup taken /\ (forall x, x ∈ taken <-> completed_step steps rows x) /\
  forall l1 x l2, taken = l1 ++ x :: l2 ->
    (forall y, depends_on steps rows nodes y x -> y ∈ l1) /\
    forall z, z ∈ l2 -> (forall y, depends_on steps rows nodes y z -> y ∈ l1) ->
      goes_first steps rows x z.

Lemma taken_order_spec l : topologicalSort nodes = Some (Ok l) ->
  exists taken, taken_order steps rows nodes = Some taken /\ rollback_spec taken.
Proof.
  intros Hsort. destruct (entries_of_spec steps rows Hnd) as [Hwf Hs].
  assert (NoDup (dn_name <$> nodes)) as Hnames by (by rewrite Hnodes).
  destruct (topologicalSort_sorted nodes l Hnames Hsort) as [Hperm Ho].
  unfold taken_order. pose proof (register_all_spec (entries_of steps rows) nodes Hnames) as Hreg.
  destruct (register_all (entries_of steps rows) nodes) as [deps counts] eqn:Er.
  pose proof (rg_deps _ _ _ Hreg) as Hd. pose proof (rg_other _ _ _ Hreg) as Hother. cbn [fst] in Hd, Hother.
  destruct (order_loop_result (entries_of steps rows) nodes Hnames (length (jm_entries (entries_of steps rows)))
    deps counts (initially_available (entries_of steps rows) counts) []) as (s & counts' & Hl & Hinv);
    [done|done|by eapply loop_inv_initial|cbn; lia|].
  exists s. split; [done|].
  pose proof (loop_takes_all _ nodes counts' s l Hinv) as Hall.
  destruct Hinv as [Hndn Hent _ _ Htk]. rewrite app_nil_r in *.
  assert (forall x, x ∈ s <-> completed_step steps rows x) as Hin.
  { intros x. rewrite <- has_completed. split; [apply Hent|]. apply Hall.
    - by rewrite Hperm.
    - done.
    - intros y [Hy _]%has_completed. by rewrite Hperm, Hnodes. }
  split; [done|]. split; [done|]. intros l1 x l2 Hx. destruct (Htk l1 x l2 Hx) as [H1 H2].
  split; [intros y Hy; by apply H1, waits_depends|]. intros z Hz Hw.
  assert (x ∈ s) as Hxs by (rewrite Hx; apply elem_of_app; right; left).
  assert (z ∈ s) as Hzs by (rewrite Hx; apply elem_of_app; right; by right).
  rewrite Hx in Hndn. apply NoDup_app in Hndn as (_ & Hdis & [Hxl2 _]%NoDup_cons).
  apply entry_before_goes_first; [by apply Hin..|by intros ->|]. apply H2.
  - by apply Hent.
  - intros Hz1. apply (Hdis z Hz1). by right.
  - intros y Hy. by apply Hw, waits_depends.
Qed.

(** With clocks that agree with the graph the whole order is by time. *)
Lemma rollback_by_time taken :
  (forall y x, depends_on steps rows nodes y x -> goes_first steps rows y x) ->
  rollback_spec taken -> StronglySorted (goes_first steps rows) taken.
Proof.
  intros Hclock (Hndt & Hin & Hord).
  assert (forall l1 x l2, taken = l1 ++ x :: l2 -> forall k z, l2 !! k = Some z -> goes_first steps rows x z) as H.
  { intros l1 x l2 Hx k. induction k as [k IH] using lt_wf_ind. intros z Hz.
    assert (completed_step steps rows x) as Hcx by (apply Hin; rewrite Hx; apply elem_of_app; right; left).
    assert (forall i y, l2 !! i = Some y -> completed_step steps rows y) as Hc2.
    { intros i y Hi%list_elem_of_lookup_2. apply Hin. rewrite Hx. apply elem_of_app. right. by right. }
    pose proof (take_drop_middle l2 k z Hz) as Hl2.
    destruct (Hord (l1 ++ x :: take k l2) z (drop (S k) l2)) as [Hdep _].
    { rewrite Hx, <- app_assoc. cbn. by rewrite Hl2. }
    destruct (proj1 (has_true _ x) (proj2 (has_completed x) Hcx)) as [a Ha].
    destruct (proj1 (has_true _ z) (proj2 (has_completed z) (Hc2 _ _ Hz))) as [b Hb].
    apply (before_goes_first x z a b Ha Hb), dec_stable. intros Hnot. apply Hnot.
    apply (before_goes_first x z a b Ha Hb).
    apply (Hord l1 x l2 Hx); [by eapply list_elem_of_lookup_2|]. intros y Hy.
    apply dec_stable. intros Hyl. apply Hnot, (before_goes_first x z a b Ha Hb).
    pose proof (Hdep y Hy) as Hy'. apply elem_of_app in Hy' as [?|Hy']; [done|].
    apply elem_of_cons in Hy' as [->|Hy']; [by apply Hclock|].
    apply elem_of_take in Hy' as (i & Hi & Hlt).
    apply (goes_first_trans x y z); [done|by eapply Hc2|by eapply Hc2|by eapply IH|by apply Hclock]. }
  clear -H. induction taken as [|x l IH]; constructor.
  - apply IH. intros l1 y l2 Hl. apply (H (x :: l1)). by rewrite Hl.
  - apply Forall_lookup. intros k z Hz. by apply (H [] x l eq_refl k).
Qed.

Lemma elem_of_reversible (taken : list string) : (forall x, x ∈ taken <-> completed_step steps rows x) ->
  forall s, s ∈ omap (reversible steps rows) taken <->
    s ∈ steps /\ has_status SCompleted (step_row rows (cs_name s)) = true /\ is_Some (cs_compensate s).
Proof.
  intros Hin. destruct (entries_of_spec steps rows Hnd) as [_ Hs].
  intros s. rewrite list_elem_of_omap. unfold reversible. split.
  - intros (x & _ & He). apply bind_Some in He as (e & He & Hr). apply Hs in He as (Hi & Hx & Hc & _).
    case_bool_decide; [|done]. injection Hr as <-. rewrite Hx. split; [by eapply list_elem_of_lookup_2|done].
  - intros (Hstep & Hc & Hcomp). exists (cs_name s).
    assert (completed_step steps rows (cs_name s)) as Hdone by (split; [by apply list_elem_of_fmap_2|done]).
    split; [by apply Hin|]. apply list_elem_of_lookup_1 in Hstep as [i Hi].
    rewrite (proj2 (Hs (cs_name s) (mkRollback s i (step_row rows (cs_name s) ≫= st_completedAt)))) by done.
    cbn. by rewrite bool_decide_true.
Qed.

(** The names of the order are a sublist of the names taken. *)
Lemma reversible_names (taken : list string) : cs_name <$> omap (reversible steps rows) taken `sublist_of` taken.
Proof.
  destruct (entries_of_spec steps rows Hnd) as [_ Hs].
  induction taken as [|x l IH]; cbn; [done|]. destruct (reversible steps rows x) as [s|] eqn:E; [|by apply sublist_cons].
  cbn. unfold reversible in E. apply bind_Some in E as (e & He & Hr). apply Hs in He as (_ & Hx & _).
  case_bool_decide; [|done]. injection Hr as <-. rewrite Hx. by apply sublist_skip.
Qed.

(** The order is found, of completed steps with a compensation, each once. *)
Lemma compensationOrder_steps l : topologicalSort nodes = Some (Ok l) ->
  exists order, compensationOrder steps rows nodes = Some order /\ NoDup (cs_name <$> order) /\
    forall s, s ∈ order -> s ∈ steps /\ has_status SCompleted (step_row rows (cs_name s)) = true /\ is_Some (cs_compensate s).
Proof.
  intros Hsort. destruct (taken_order_spec l Hsort) as (taken & Ht & Hspec). destruct Hspec as (Hnt & Hin & _).
  unfold compensationOrder. rewrite Ht. eexists. split; [done|]. split.
  - eapply sublist_NoDup; [exact Hnt|apply reversible_names].
  - intros s. by rewrite elem_of_reversible.
Qed.

(** C11. A saga rollback undoes a run in a sound order. For distinctly named
    steps whose graph has an order, the loop of the code ends; of the
    completed steps it takes each exactly once, and of these it rolls back
    the ones that carry a compensation, in that order: a step only after
    every completed step that depends on it, however the completion times of
    different executors disagree, and, of the steps free to go, the one that
    finished last, the later definition on a tie. When the completion times
    agree with the graph the whole order is by them. *)
Theorem compensationOrder_correct l :
  topologicalSort nodes = Some (Ok l) ->
  exists taken,
    compensationOrder steps rows nodes = Some (omap (reversible steps rows) taken) /\
    (forall s, s ∈ omap (reversible steps rows) taken <->
       s ∈ steps /\ has_status SCompleted (step_row rows (cs_name s)) = true /\ is_Some (cs_compensate s)) /\
    rollback_spec taken /\
    ((forall y x, depends_on steps rows nodes y x -> goes_first steps rows y x) ->
     StronglySorted (goes_first steps rows) taken).
Proof.
  intros Hsort. destruct (taken_order_spec l Hsort) as (taken & Ht & Hspec). exists taken.
  unfold compensationOrder. rewrite Ht. split; [done|].
  split; [|split; [done|intros Hc; by apply rollback_by_time]].
  destruct Hspec as (_ & Hin & _). by apply elem_of_reversible.
Qed.
End correct.

Lemma compensationOrder_correct_witness :
  exists taken, sample_rollback = Some (omap (reversible (sample_step <$> ["a"; "b"; "c"; "d"; "e"])
      [sample_row "a" 9; sample_row "b" 5; sample_row "c" 7; sample_row "d" 7]) taken) /\
    NoDup taken.
Proof.
  destruct (compensationOrder_correct (sample_step <$> ["a"; "b"; "c"; "d"; "e"])
    [sample_row "a" 9; sample_row "b" 5; sample_row "c" 7; sample_row "d" 7] sample_graph)
    with (l := ["a"; "b"; "c"; "d"; "e"]) as (taken & Ho & _ & [Hn _] & _).
  - vm_compute. reflexivity.
  - apply (bool_decide_unpack _). vm_compute. exact I.
  - vm_compute. reflexivity.
  - exists taken. split; [exact Ho|exact Hn].
Defined.
