(* ===== verification/StepBody.v ===== *)
(** Step definitions and the run of one step body under its policies:
    [durable/step-definition.ts], [durable/step-policy.ts],
    [durable/runner/step-policies.ts], [durable/runner/step-body.ts] and the
    [Eff] retry loop of [shared/retry-policy.ts].

    An [Eff] of the effect library is a function of the world that exits with
    a value, a typed failure or a defect; a process may also die in it. The
    world [W] is everything outside of the runner's variables: the storage,
    the clock, the user's systems and the other processes that use them. The
    library's [race] of a body with its timer is the host's verdict which of
    the two settled first. *)
From Stdlib Require Import QArith.
From S2P Require Import Prelude Leases Json Journal Storage RunState Exits Retry Replay.
Open Scope string_scope.
Open Scope list_scope.
Open Scope Z_scope.

(** ** Effects *)
Inductive exit (A : Type) : Type :=
| Succ (a : A)
| Fails (e : thrown)
| Dies (e : thrown)
| Killed.
Arguments Succ {A} a.
Arguments Fails {A} e.
Arguments Dies {A} e.
Arguments Killed {A}.

(** ** Control flow *)
Definition CONTROL_FLOW_EXITS : list string :=
  ["WorkflowSuspendedError"; "WorkflowContinueAsNewError"; "WorkflowTripwireError";
   "JournalNonDeterminismError"; "AmbiguousActivityOutcome"; "WorkflowLockError";
   "FenceTokenMismatchError"; "WorkflowLockLostError"; "CheckpointError"].

Definition ABANDON_RUN_EXITS : list string :=
  ["FenceTokenMismatchError"; "WorkflowLockLostError"; "CheckpointError"].

Definition tag_in (tags : list string) (error : thrown) : bool :=
  match errorTag error with Some t => bool_decide (t ∈ tags) | None => false end.

Definition isAbandonRunExit (error : thrown) : bool := tag_in ABANDON_RUN_EXITS error.
Definition isControlFlowExit (error : thrown) : bool := tag_in CONTROL_FLOW_EXITS error.

Definition SUSPENDED_TAG : string := "WorkflowSuspendedError".
Definition CONTINUE_AS_NEW_TAG : string := "WorkflowContinueAsNewError".

Definition isControlFlowError (error : thrown) : bool :=
  tag_in [SUSPENDED_TAG; CONTINUE_AS_NEW_TAG] error.

(** ** Step definitions *)
Inductive StepKind : Type :=
| KNormal | KMap | KBranch | KMatch | KSleep | KSignal | KJournaled | KGuard | KTripwire | KParallel
| KLoop | KChild | KTransform.
#[global] Instance StepKind_eq_dec : EqDecision StepKind.
Proof. solve_decision. Defined.

Inductive StepFailureStrategy : Type :=
| OnFail
| OnSkip
| OnFallback (fallback : thrown -> res thrown json).

(** What [execute] reads besides the world. *)
Record ExecuteParams : Type := mkExecute {
  ep_workflowId : string;
  ep_input : json;
  ep_results : jmap string json;
  ep_attempt : Z;
  ep_stepState : option StepState;
  ep_guard : option FenceGuard;
  ep_run : option Z;
}.

Record StepDefinition (W : Type) : Type := mkStepDef {
  sd_name : string;
  sd_dependsOn : list string;
  sd_kind : StepKind;
  (** the body: it may fill the metadata slot *)
  sd_execute : ExecuteParams -> option metadata * W -> exit json * (option metadata * W);
  sd_codec : Codec;
  sd_timeoutMs : option Z;
  sd_retry : option RetryPolicy;
  sd_onFailure : StepFailureStrategy;
  sd_compensate : option (json -> json -> string -> W -> outcome unit * W);
  sd_skipWhen : option (json -> res thrown bool);
  sd_skipValue : option (json -> res thrown json);
}.
Arguments mkStepDef {W}.
Arguments sd_name {W}.
Arguments sd_dependsOn {W}.
Arguments sd_kind {W}.
Arguments sd_execute {W}.
Arguments sd_codec {W}.
Arguments sd_timeoutMs {W}.
Arguments sd_retry {W}.
Arguments sd_onFailure {W}.
Arguments sd_compensate {W}.
Arguments sd_skipWhen {W}.
Arguments sd_skipValue {W}.

(** [results[name]]. *)
Definition result_of (results : jmap string json) (name : string) : json :=
  opt_or (results !! name) JUndef.

(** [readPrev]. *)
Definition readPrev (dependsOn : list string) (results : jmap string json) (input : json) : json :=
  match dependsOn with
  | first :: _ => result_of results first
  | [] => input
  end.

(** Host functions of a driver process: the clock, the random source, a
    timer ([false]: the process died before it fired), whether a step's timer beat its body, the constructors of the
    tagged errors and the [Date] text of the time zone. *)
Record RunnerHost (W : Type) : Type := mkRunnerHost {
  rh_now : W -> Z * W;
  rh_random : W -> Q * W;
  rh_wait : Q -> W -> bool * W;
  rh_timed_out : Z -> W -> bool * W;
  rh_new_tagged : string -> list (string * json) -> js_error;
  rh_date_string : Z -> string;
}.
Arguments rh_now {W}.
Arguments rh_random {W}.
Arguments rh_wait {W}.
Arguments rh_timed_out {W}.
Arguments rh_new_tagged {W}.
Arguments rh_date_string {W}.

Record StepAttemptFailure : Type := mkAttemptFailure {
  af_attempt : Z;
  af_error : string;
  af_startedAt : Z;
  af_durationMs : Z;
}.

Inductive StepBodyOutcome : Type :=
| BodyCompleted (result : json) (metadata : option metadata) (attempt : Z)
    (failedAttempts : list StepAttemptFailure)
| BodyFailed (error : thrown) (metadata : option metadata) (attempt : Z)
    (failedAttempts : list StepAttemptFailure)
| BodySuspended (error : thrown) (attempt : Z)
| BodyContinued (error : thrown) (attempt : Z).

Section body.
Context {W : Type} (host : RunnerHost W).

(** Awaiting a timer of the clock: it fires, or the process is dead. *)
Definition timer (delay : Q) (w : W) : outcome unit * W :=
  let '(alive, w) := rh_wait host delay w in (if alive then Ret tt else Died, w).

Definition engine_error (tag : string) (fields : list (string * json)) (message : string) : thrown :=
  TError (rh_new_tagged host tag (fields ++ [("message", JStr message)])).

Definition errorMessage (error : thrown) : string :=
  match error with
  | TError e => err_message e
  | TValue v => js_String (rh_date_string host) v
  end.

(** The tag to store with a failure. *)
Definition errorTagOf (error : thrown) : option string :=
  let reported := match error with
                  | TError e => match prop "errorTag" (err_fields e) with JStr s => Some s | _ => None end
                  | TValue v => str_prop "errorTag" v
                  end in
  if bool_decide (errorTag error = Some "StepError") then opt_else reported (errorTag error)
  else errorTag error.

(** The variables of one [runStepBody] call, with the world. *)
Record BodyState : Type := mkBodyState {
  bs_attempt : Z;
  bs_attemptStartedAt : Z;
  bs_failedAttempts : list StepAttemptFailure;
  bs_metadata : option metadata;
  bs_world : W;
}.

Definition with_bs_world (w : W) (s : BodyState) : BodyState :=
  mkBodyState (bs_attempt s) (bs_attemptStartedAt s) (bs_failedAttempts s) (bs_metadata s) w.

(** A host function on the world of the state. *)
Definition on_bs {A} (f : W -> A * W) (s : BodyState) : A * BodyState :=
  let '(a, w) := f (bs_world s) in (a, with_bs_world w s).

(** ** Policies *)
Definition eff (A : Type) : Type := BodyState -> exit A * BodyState.

Definition StepTimeoutError (workflowId stepName : string) (ms : Z) : thrown :=
  engine_error "StepTimeoutError"
    [("workflowId", JStr workflowId); ("stepName", JStr stepName); ("timeoutMs", JNum ms)]
    ("Step " +:+ quoted stepName +:+ " timed out after " +:+ str_of_Z ms +:+ "ms").

Definition withStepTimeout {A} (workflowId stepName : string) (ms : Z) (e : eff A) : eff A := fun s =>
  let '(x, s) := e s in
  match x with
  | Killed => (Killed, s)
  | _ => let '(late, s) := on_bs (rh_timed_out host ms) s in
         if late then (Fails (StepTimeoutError workflowId stepName ms), s) else (x, s)
  end.

(** An exit as the retry loop sees it: a typed failure can be caught. *)
Definition caught {A} (x : exit A) : outcome (exit A) :=
  match x with
  | Fails e => Throws e
  | Killed => Died
  | x => Ret x
  end.

Definition uncaught {A} (o : outcome (exit A)) : exit A :=
  match o with
  | Ret x => x
  | Throws e => Fails e
  | Died => Killed
  end.

(** [retryWithPolicy]. *)
Definition retryWithPolicy {A} (policy : RetryPolicy) (e : eff A) : eff A := fun s =>
  let '(o, s) := retryAsync (on_bs (rh_now host)) (on_bs (rh_random host)) (fun d => on_bs (timer d))
                   (fun _ => false) (fun _ s => let '(x, s) := e s in (caught x, s)) policy s in
  (uncaught o, s).

Definition step_when (userWhen : option (thrown -> bool)) (error : thrown) : bool :=
  negb (isControlFlowExit error) && match userWhen with Some w => w error | None => true end.

Definition withStepRetry {A} (policy : RetryPolicy) (e : eff A) : eff A :=
  retryWithPolicy (mkPolicy (rp_maxRetries policy) (rp_baseDelayMs policy)
    (Some (step_when (rp_when policy))) (rp_jitter policy) (rp_maxDelayMs policy)
    (rp_timeBudgetMs policy)) e.

Definition handle_failure (strategy : StepFailureStrategy) (error : thrown) : exit json :=
  match strategy with
  | OnFail => Fails error
  | OnSkip => if isControlFlowExit error then Fails error else Succ JUndef
  | OnFallback fallback =>
      if isControlFlowExit error then Fails error
      else match fallback error with Ok v => Succ v | Err d => Dies d end
  end.

Definition withFailureStrategy (strategy : StepFailureStrategy) (e : eff json) : eff json := fun s =>
  let '(x, s) := e s in
  (match x with Fails error => handle_failure strategy error | x => x end, s).

(** [onAttemptFailed] of [runStepBody], behind the check of
    [applyStepPolicies]. *)
Definition attempt_failed (error : thrown) (s : BodyState) : BodyState :=
  if isControlFlowExit error || isControlFlowError error then s
  else
    let '(now, s) := on_bs (rh_now host) s in
    mkBodyState (bs_attempt s) (bs_attemptStartedAt s)
      (bs_failedAttempts s ++ [mkAttemptFailure (bs_attempt s) (errorMessage error)
         (bs_attemptStartedAt s) (now - bs_attemptStartedAt s)])
      (bs_metadata s) (bs_world s).

Definition noting_failures {A} (e : eff A) : eff A := fun s =>
  let '(x, s) := e s in
  (x, match x with Fails error => attempt_failed error s | _ => s end).

(** One invocation of the step under its timeout. *)
Definition one_attempt (stepDef : StepDefinition W) (workflowId : string) (invoke : eff json) : eff json :=
  let raw := match sd_timeoutMs stepDef with
             | Some ms => withStepTimeout workflowId (sd_name stepDef) ms invoke
             | None => invoke
             end in
  noting_failures raw.

Definition applyStepPolicies (stepDef : StepDefinition W) (workflowId : string) (invoke : eff json)
    : eff json :=
  let raw := one_attempt stepDef workflowId invoke in
  let raw := match sd_retry stepDef with Some policy => withStepRetry policy raw | None => raw end in
  withFailureStrategy (sd_onFailure stepDef) raw.

(** ** [runStepBody] *)
Definition invoke_step (stepDef : StepDefinition W) (params : Z -> ExecuteParams) : eff json := fun s =>
  let attempt := bs_attempt s + 1 in
  let '(now, w) := rh_now host (bs_world s) in
  let '(x, (m, w)) := sd_execute stepDef (params attempt) (bs_metadata s, w) in
  (x, mkBodyState attempt now (bs_failedAttempts s) m w).

(** [raw.map(encode)]: a codec that throws is a defect. *)
Definition encoding (codec : Codec) (x : exit json) : exit json :=
  match x with
  | Succ v => match codec_encode codec v with Ok v => Succ v | Err e => Dies e end
  | x => x
  end.

(** [runEffSafe] with [catchDefects]: a defect that is no [Error] is
    wrapped in one. *)
Definition safe_error (x : exit json) : option thrown :=
  match x with
  | Fails e => Some e
  | Dies (TError e) => Some (TError e)
  | Dies (TValue v) => Some (TError (new_error "Error" (js_String (rh_date_string host) v)))
  | _ => None
  end.

(** [error === null]. *)
Definition is_null (error : thrown) : bool :=
  match error with TValue JNull => true | _ => false end.

(** What the settled effect comes to. A typed failure whose value is [null]
    reads as the absence of an error. *)
Definition settle_body (x : exit json) (lastAttempt : Z) (s : BodyState) : option StepBodyOutcome :=
  match x, safe_error x with
  | Succ data, _ => Some (BodyCompleted data (bs_metadata s) lastAttempt (bs_failedAttempts s))
  | _, Some error =>
      Some (
        if is_null error
        then BodyCompleted JNull (bs_metadata s) lastAttempt (bs_failedAttempts s)
        else if tag_in [SUSPENDED_TAG] error then BodySuspended error lastAttempt
        else if tag_in [CONTINUE_AS_NEW_TAG] error then BodyContinued error lastAttempt
        else BodyFailed error (bs_metadata s) lastAttempt (bs_failedAttempts s))
  | _, None => None
  end.

Definition runStepBody (stepDef : StepDefinition W) (workflowId : string) (firstAttempt : Z)
    (params : Z -> ExecuteParams) (w : W) : option StepBodyOutcome * W :=
  let '(now, w) := rh_now host w in
  let '(x, s) := applyStepPolicies stepDef workflowId (invoke_step stepDef params)
                   (mkBodyState (firstAttempt - 1) now [] None w) in
  (settle_body (encoding (sd_codec stepDef) x) (Z.max (bs_attempt s) firstAttempt) s, bs_world s).
End body.

(** ** What the policies do *)
Lemma control_flow_errors e : isControlFlowExit e || isControlFlowError e = isControlFlowExit e.
Proof.
  unfold isControlFlowExit, isControlFlowError, tag_in. destruct (errorTag e) as [t|]; [|done].
  destruct (bool_decide_reflect (t ∈ [SUSPENDED_TAG; CONTINUE_AS_NEW_TAG])) as [H|H]; [|apply orb_false_r].
  rewrite orb_true_r. symmetry. apply bool_decide_eq_true. unfold CONTROL_FLOW_EXITS.
  apply elem_of_cons in H as [->|H%list_elem_of_singleton]; [left|rewrite H; right; left].
Qed.

Section policies.
Context {W : Type} (host : RunnerHost W).
Implicit Types (s : BodyState (W := W)) (e : thrown).

(** A call of the host changes the world only. *)
Definition same_attempts s s' : Prop :=
  bs_attempt s' = bs_attempt s /\ bs_failedAttempts s' = bs_failedAttempts s.

Lemma on_bs_same {A} (f : W -> A * W) s : same_attempts s (on_bs f s).2.
Proof. unfold on_bs. by destruct (f (bs_world s)). Qed.

Lemma same_attempts_trans s1 s2 s3 : same_attempts s1 s2 -> same_attempts s2 s3 -> same_attempts s1 s3.
Proof. unfold same_attempts. intuition congruence. Qed.

#[local] Instance same_attempts_preorder : PreOrder same_attempts.
Proof. split; [done|exact same_attempts_trans]. Qed.

Lemma next_delay_same policy retry e first now s :
  same_attempts s (nextRetryDelayMs (on_bs (rh_random host)) policy retry e first now s).2.
Proof. apply next_delay_keeps; [apply _|apply on_bs_same]. Qed.

Context (stepDef : StepDefinition W) (workflowId : string) (params : Z -> ExecuteParams).
Variable first : Z.

(** The exit of attempt [first + n]: the body's own, or its timeout. *)
Definition exited (n : nat) (x : exit json) : Prop :=
  (exists st, (sd_execute stepDef (params (first + Z.of_nat n)) st).1 = x) \/
  (exists ms, sd_timeoutMs stepDef = Some ms /\
     x = Fails (StepTimeoutError host workflowId (sd_name stepDef) ms)).

(** A report tells of the failure of the attempt it is numbered for. *)
Definition reported (f : StepAttemptFailure) : Prop :=
  exists k e, af_attempt f = first + Z.of_nat k /\ exited k (Fails e) /\ isControlFlowExit e = false /\
    af_error f = errorMessage host e.

(** The attempts before [first + n] failed, and all of them are reported. *)
Definition failed_before (n : Z) (l : list StepAttemptFailure) : Prop :=
  af_attempt <$> l = seqZ first n /\ Forall reported l.

(** Whether attempt [first + n] is one more of them. *)
Definition counts_failed (x : exit json) : Z :=
  match x with Fails e => if isControlFlowExit e then 0 else 1 | _ => 0 end.

Definition before_attempt (n : nat) s : Prop :=
  bs_attempt s = first - 1 + Z.of_nat n /\ failed_before (Z.of_nat n) (bs_failedAttempts s).

Definition after_attempt (n : nat) (x : exit json) s : Prop :=
  exited n x /\ bs_attempt s = first + Z.of_nat n /\
  failed_before (Z.of_nat n + counts_failed x) (bs_failedAttempts s).

Lemma before_same n s s' : same_attempts s s' -> before_attempt n s -> before_attempt n s'.
Proof. intros [H1 H2] [? ?]. split; congruence. Qed.

Lemma after_same n x s s' : same_attempts s s' -> after_attempt n x s -> after_attempt n x s'.
Proof. intros [H1 H2] (? & ? & ?). split_and!; congruence. Qed.

(** An invocation, before its failure is noted. *)
Definition invoked (n : nat) (x : exit json) s : Prop :=
  exited n x /\ bs_attempt s = first + Z.of_nat n /\ failed_before (Z.of_nat n) (bs_failedAttempts s).

Lemma invoke_step_spec n s : before_attempt n s ->
  let '(x, s') := invoke_step host stepDef params s in invoked n x s'.
Proof.
  intros [H1 H2]. unfold invoke_step. destruct (rh_now host (bs_world s)) as [t w].
  assert (bs_attempt s + 1 = first + Z.of_nat n) as Ha by lia. rewrite Ha.
  destruct (sd_execute _ _ _) as [x [m w']] eqn:Ex. split; [|done].
  left. exists (bs_metadata s, w). by rewrite Ex.
Qed.

Lemma timeout_spec n s ms : sd_timeoutMs stepDef = Some ms -> before_attempt n s ->
  let '(x, s') := withStepTimeout host workflowId (sd_name stepDef) ms (invoke_step host stepDef params) s in
  invoked n x s'.
Proof.
  intros Hms Hs. unfold withStepTimeout. pose proof (invoke_step_spec n s Hs) as He.
  destruct (invoke_step _ _ _ s) as [x s1]. destruct He as (Hx & Ha & Hf).
  pose proof (on_bs_same (rh_timed_out host ms) s1) as [H1 H2].
  destruct (on_bs (rh_timed_out host ms) s1) as [late s2]. cbn in H1, H2. unfold invoked.
  destruct x; [| | |done]; destruct late; rewrite H1, H2; (split; [|done]); try done; right; by exists ms.
Qed.

Lemma one_attempt_spec n s : before_attempt n s ->
  let '(x, s') := one_attempt host stepDef workflowId (invoke_step host stepDef params) s in
  after_attempt n x s'.
Proof.
  intros Hs. unfold one_attempt, noting_failures.
  set (raw := match sd_timeoutMs stepDef with Some ms => _ | None => _ end).
  assert (let '(x, s') := raw s in invoked n x s') as Hraw.
  { subst raw. destruct (sd_timeoutMs stepDef) as [ms|] eqn:Hms; [by apply timeout_spec|by apply invoke_step_spec]. }
  destruct (raw s) as [x s1]. destruct Hraw as (Hx & H1 & H2). unfold after_attempt.
  destruct x as [a|e|e|]; cbn [counts_failed]; try (rewrite Z.add_0_r; done).
  unfold attempt_failed. rewrite control_flow_errors. destruct (isControlFlowExit e) eqn:He; [by rewrite Z.add_0_r|].
  pose proof (on_bs_same (rh_now host) s1) as [Hn1 Hn2]. destruct (on_bs (rh_now host) s1) as [t s2].
  cbn in Hn1, Hn2 |- *. destruct H2 as [H2 H3]. split_and!; [done|by rewrite Hn1|]. rewrite Hn1, Hn2, H1. split.
  - rewrite fmap_app, H2. cbn. by rewrite seqZ_app by lia.
  - apply Forall_app. split; [done|]. apply Forall_singleton. by exists n, e.
Qed.

Definition tried : eff (W := W) json := one_attempt host stepDef workflowId (invoke_step host stepDef params).

Definition step_policy (policy : RetryPolicy) : RetryPolicy :=
  mkPolicy (rp_maxRetries policy) (rp_baseDelayMs policy) (Some (step_when (rp_when policy)))
    (rp_jitter policy) (rp_maxDelayMs policy) (rp_timeBudgetMs policy).

(** Why the policy grants no retry after a failure, with retries left. *)
Definition refused (policy : RetryPolicy) e : Prop :=
  isControlFlowExit e = true \/ (exists when, rp_when policy = Some when /\ when e = false) \/
  exists budget, rp_timeBudgetMs policy = Some budget /\ 0 < budget.

(** What the attempts end with: no more retries than the policy has, and the
    last failure was refused another when some were left. *)
Definition attempts_end (policy : RetryPolicy) (n : nat) (x : exit json) : Prop :=
  (n <= Z.to_nat (max_retries policy))%nat /\
  forall e, x = Fails e -> Z.of_nat n < max_retries policy -> refused policy e.

Lemma next_delay_spec policy random retry e f t s d s' :
  nextRetryDelayMs (T := BodyState (W := W)) random (step_policy policy) retry e f t s = (d, s') ->
  match d with
  | Some _ => Z.of_nat retry < max_retries policy /\ isControlFlowExit e = false
  | None => Z.of_nat retry < max_retries policy -> refused policy e
  end.
Proof.
  unfold nextRetryDelayMs. change (max_retries (step_policy policy)) with (max_retries policy).
  cbn [rp_when rp_timeBudgetMs step_policy]. destruct (Z.geb_spec (Z.of_nat retry) (max_retries policy)); [intros [= <- _]; lia|].
  destruct (match rp_timeBudgetMs policy with Some _ => _ | None => _ end) eqn:Eb.
  { intros [= <- _] _. right. right. destruct (rp_timeBudgetMs policy) as [b|]; [|done]. exists b.
    split; [done|]. apply andb_true_iff in Eb. lia. }
  unfold step_when. destruct (isControlFlowExit e) eqn:Ec; cbn [negb andb]; [intros [= <- _] _; by left|].
  destruct (rp_when policy) as [w|] eqn:Ew; cbn [negb].
  - destruct (w e) eqn:Ewe; cbn [negb]; [|intros [= <- _] _; right; left; by exists w].
    destruct (retryDelayMs _ _ _ s) as [q s1]. by intros [= <- _].
  - destruct (retryDelayMs _ _ _ s) as [q s1]. by intros [= <- _].
Qed.

Lemma timer_no_throw d s e s' : on_bs (timer host d) s <> (Throws e, s').
Proof.
  unfold on_bs, timer. destruct (rh_wait host d (bs_world s)) as [alive w]. by destruct alive.
Qed.

Lemma retry_loop_spec policy spare n fst0 s :
  (S (Z.to_nat (max_retries policy)) <= n + spare)%nat -> (n <= Z.to_nat (max_retries policy))%nat -> before_attempt n s ->
  let '(o, s') := attempt (on_bs (rh_now host)) (on_bs (rh_random host)) (fun d => on_bs (timer host d))
       (fun _ => false) (fun _ s => let '(x, s) := tried s in (caught x, s)) (step_policy policy)
       spare n fst0 s in
  uncaught o = Killed \/ exists m, attempts_end policy m (uncaught o) /\ after_attempt m (uncaught o) s'.
Proof.
  revert n fst0 s. induction spare as [|spare IH]; intros n fst0 s Hfuel Hn Hs; [lia|]; cbn [attempt].
  pose proof (one_attempt_spec n s Hs) as H1; unfold tried; destruct (one_attempt _ _ _ _ s) as [x s1].
  destruct x as [a|e|e|]; cbn [caught uncaught]; [right; by exists n| |right; by exists n|by left].
  pose proof (on_bs_same (rh_now host) s1) as Hnow; destruct (on_bs (rh_now host) s1) as [t s2]; cbn in Hnow.
  match goal with |- context [nextRetryDelayMs ?r ?p ?n ?e ?f ?t ?s] =>
    pose proof (next_delay_same p n e f t s) as Hd; destruct (nextRetryDelayMs r p n e f t s) as [d s3] eqn:Ed end.
  cbn in Hd. pose proof (same_attempts_trans _ _ _ Hnow Hd) as Hnd. apply next_delay_spec in Ed.
  destruct d as [d|]; [|right; exists n; split; [split; [done|by intros ? [= <-]]|by eapply after_same]].
  destruct Ed as [Hlt He].
  pose proof (on_bs_same (timer host d) s3) as Hw.
  destruct (on_bs (timer host d) s3) as [[[]|e'|] s4] eqn:Ew; [|by apply timer_no_throw in Ew|by left].
  cbn in Hw. pose proof (same_attempts_trans _ _ _ Hnd Hw) as Hndw.
  apply IH; [lia|lia|]. eapply before_same; [done|]. destruct H1 as (_ & Ha & Hf). cbn [counts_failed] in Hf.
  rewrite He in Hf. split; [lia|]. by replace (Z.of_nat (S n)) with (Z.of_nat n + 1) by lia.
Qed.

(** The attempts of a step: one, or those of its policy. *)
Definition step_attempts (n : nat) (x : exit json) : Prop :=
  match sd_retry stepDef with Some policy => attempts_end policy n x | None => n = 0%nat end.

Lemma applyStepPolicies_spec s : before_attempt 0 s ->
  exists x s', applyStepPolicies host stepDef workflowId (invoke_step host stepDef params) s =
      (match x with Fails e => handle_failure (sd_onFailure stepDef) e | x => x end, s') /\
    (x = Killed \/ exists n, step_attempts n x /\ after_attempt n x s').
Proof.
  intros Hs. unfold applyStepPolicies, withFailureStrategy, step_attempts.
  destruct (sd_retry stepDef) as [policy|].
  - unfold withStepRetry, retryWithPolicy, retryAsync. pose proof (retry_loop_spec policy
      (S (Z.to_nat (max_retries policy))) 0 None s ltac:(lia) ltac:(lia) Hs) as H. unfold tried, step_policy in H.
    change (max_retries (mkPolicy _ _ _ _ _ _)) with (max_retries policy).
    destruct (attempt _ _ _ _ _ _ _ _ _ s) as [o s']. by exists (uncaught o), s'.
  - pose proof (one_attempt_spec 0 s Hs) as H. destruct (one_attempt _ _ _ _ s) as [x s'].
    exists x, s'. split; [done|]. right. by exists 0%nat.
Qed.
End policies.

(** ** What a body does to the world *)
Section world_rel.
Context {W : Type} (host : RunnerHost W) (R : W -> W -> Prop) `{!PreOrder R}.
Hypothesis now_rel : forall w, R w (rh_now host w).2.
Hypothesis random_rel : forall w, R w (rh_random host w).2.
Hypothesis wait_rel : forall d w, R w (rh_wait host d w).2.
Hypothesis timed_out_rel : forall ms w, R w (rh_timed_out host ms w).2.
Context (stepDef : StepDefinition W) (workflowId : string) (params : Z -> ExecuteParams).
Hypothesis execute_rel : forall n m w, R w (sd_execute stepDef (params n) (m, w)).2.2.

Definition bs_rel (s s' : BodyState) : Prop := R (bs_world s) (bs_world s').

#[local] Instance bs_rel_preorder : PreOrder bs_rel.
Proof using PreOrder0. split; [intros s; by unfold bs_rel|intros s1 s2 s3; unfold bs_rel; apply transitivity]. Qed.

Lemma on_bs_rel {A} (f : W -> A * W) s : (forall w, R w (f w).2) -> bs_rel s (on_bs f s).2.
Proof. intros Hf. specialize (Hf (bs_world s)). unfold bs_rel, on_bs. by destruct (f (bs_world s)). Qed.

Lemma timer_rel d w : R w (timer host d w).2.
Proof using wait_rel. unfold timer. pose proof (wait_rel d w) as Hw. by destruct (rh_wait host d w). Qed.

Lemma one_attempt_rel s : bs_rel s (one_attempt host stepDef workflowId (invoke_step host stepDef params) s).2.
Proof using now_rel timed_out_rel execute_rel PreOrder0.
  assert (forall s, bs_rel s (invoke_step host stepDef params s).2) as Hi.
  { intros s0. unfold invoke_step, bs_rel. pose proof (now_rel (bs_world s0)) as Hn.
    destruct (rh_now host (bs_world s0)) as [t w]. cbn in Hn.
    pose proof (execute_rel (bs_attempt s0 + 1) (bs_metadata s0) w) as He.
    destruct (sd_execute _ _ _) as [x [m w']]. cbn in He |- *. by etrans. }
  unfold one_attempt, noting_failures.
  set (raw := match sd_timeoutMs stepDef with Some ms => _ | None => _ end).
  assert (bs_rel s (raw s).2) as Hraw.
  { subst raw. destruct (sd_timeoutMs stepDef) as [ms|]; [|apply Hi]. unfold withStepTimeout.
    specialize (Hi s). destruct (invoke_step _ _ _ s) as [x s1]. cbn in Hi.
    pose proof (on_bs_rel (rh_timed_out host ms) s1 (timed_out_rel ms)) as Ht.
    destruct (on_bs (rh_timed_out host ms) s1) as [late s2]. cbn in Ht.
    destruct x; [| | |done]; (etrans; [exact Hi|]); by destruct late. }
  destruct (raw s) as [x s1]. cbn in Hraw |- *. destruct x as [v|e|e|]; try done.
  unfold attempt_failed. destruct (_ || _); [done|].
  pose proof (on_bs_rel (rh_now host) s1 now_rel) as Hn. destruct (on_bs (rh_now host) s1) as [t s2].
  cbn in Hn. etrans; [exact Hraw|]. exact Hn.
Qed.

(** Every relation the host's functions and the step's invocations keep. *)
Lemma runStepBody_rel first w : R w (runStepBody host stepDef workflowId first params w).2.
Proof using now_rel random_rel wait_rel timed_out_rel execute_rel PreOrder0.
  unfold runStepBody. pose proof (now_rel w) as Hn. destruct (rh_now host w) as [t w1]. cbn in Hn.
  set (s0 := mkBodyState (first - 1) t [] None w1).
  assert (bs_rel s0 (applyStepPolicies host stepDef workflowId (invoke_step host stepDef params) s0).2) as Hp.
  { unfold applyStepPolicies, withFailureStrategy. destruct (sd_retry stepDef) as [policy|].
    - unfold withStepRetry, retryWithPolicy, retryAsync.
      match goal with |- context [attempt ?n ?r ?w ?a ?f ?p ?m 0 None s0] =>
        pose proof (loop_keeps n r w a f p bs_rel (fun s => on_bs_rel (rh_now host) s now_rel)
          (fun s => on_bs_rel (rh_random host) s random_rel) (fun d s => on_bs_rel (timer host d) s (timer_rel d))) as Hk;
        specialize (Hk ltac:(intros k s1; pose proof (one_attempt_rel s1) as Ho; cbv beta; by destruct (one_attempt _ _ _ _ s1)) m 0%nat None s0);
        by destruct (attempt n r w a f p m 0 None s0) end.
    - pose proof (one_attempt_rel s0) as Ho. by destruct (one_attempt _ _ _ _ s0). }
  destruct (applyStepPolicies _ _ _ _ s0) as [x s]. etrans; [exact Hn|]. exact Hp.
Qed.
End world_rel.

(** ** The settled body *)
Definition body_attempt (o : StepBodyOutcome) : Z :=
  match o with BodyCompleted _ _ a _ | BodyFailed _ _ a _ | BodySuspended _ a | BodyContinued _ a => a end.

Definition body_error (o : StepBodyOutcome) : option thrown :=
  match o with
  | BodyCompleted _ _ _ _ => None
  | BodyFailed e _ _ _ | BodySuspended e _ | BodyContinued e _ => Some e
  end.

(** The failed attempts reported; a run that is suspended or continued as new
    reports none. *)
Definition body_failures (o : StepBodyOutcome) : option (list StepAttemptFailure) :=
  match o with
  | BodyCompleted _ _ _ l | BodyFailed _ _ _ l => Some l
  | BodySuspended _ _ | BodyContinued _ _ => None
  end.

(** What a completed body completed with, from its last attempt. *)
Definition completion {W} (stepDef : StepDefinition W) (x : exit json) (r : json) : Prop :=
  match x with
  | Succ v => codec_encode (sd_codec stepDef) v = Ok r
  | Fails e =>
      isControlFlowExit e = false /\
      (match sd_onFailure stepDef with
       | OnFail => False
       | OnSkip => codec_encode (sd_codec stepDef) JUndef = Ok r
       | OnFallback f => exists v, f e = Ok v /\ codec_encode (sd_codec stepDef) v = Ok r
       end)
  | _ => False
  end.

Lemma settle_error {W} (host : RunnerHost W) x a s o e :
  settle_body host x a s = Some o -> safe_error host x = Some e -> is_null e = false ->
  body_error o = Some e /\ body_attempt o = a /\ forall r m a' l, o <> BodyCompleted r m a' l.
Proof.
  unfold settle_body. intros Ho He Hn.
  destruct x as [v|e'|[e'|v]|]; try done; cbn in He; injection He as <-; cbn [safe_error] in Ho;
    rewrite ?Hn in Ho; repeat case_match; injection Ho as <-; done.
Qed.

(** The failed attempts a settled body reports are those of its state. *)
Lemma settle_failures {W} (host : RunnerHost W) x a s o :
  settle_body host x a s = Some o ->
  body_attempt o = a /\ forall l, body_failures o = Some l -> l = bs_failedAttempts s.
Proof.
  unfold settle_body. intros Ho. destruct x as [v|e'|[e'|v]|]; try done; cbn [safe_error] in Ho;
    repeat case_match; injection Ho as <-; (split; [done|]); by intros l [= <-].
Qed.

(** Completed: with a value, or with the typed failure [null]. *)
Lemma settle_completed {W} (host : RunnerHost W) x a s r m a' l :
  settle_body host x a s = Some (BodyCompleted r m a' l) ->
  x = Succ r \/ (r = JNull /\ x = Fails (TValue JNull)).
Proof.
  unfold settle_body. intros Ho. destruct x as [v|e|[e|v]|]; try done; cbn [safe_error] in Ho.
  - left. congruence.
  - destruct (is_null e) eqn:Hn; [|by repeat case_match]. right.
    destruct e as [e|[]]; try done. split; congruence.
  - repeat case_match; done.
Qed.

Lemma control_flow_not_null e : isControlFlowExit e = true -> is_null e = false.
Proof. destruct e as [e|[]]; done. Qed.


(** A step that fails twice under two retries, each attempt on the clock. *)
Definition plain_codec : Codec := mkCodec Ok Ok.

Definition sample_host : RunnerHost Z :=
  mkRunnerHost _ (fun w => (w, w + 1)) (fun w => (0%Q, w)) (fun _ w => (true, w + 10))
    (fun _ w => (false, w)) (fun tag fields => mkError tag (Some tag) tag "" fields) str_of_Z.

Definition busy : thrown := TError (mkError "Busy" (Some "Busy") "Busy" "busy" []).

Definition flaky_step : StepDefinition Z :=
  mkStepDef "charge" [] KNormal
    (fun p '(m, w) => (if ep_attempt p <? 5 then Fails busy else Succ (ep_input p), (m, w)))
    plain_codec (Some 50) (Some (mkPolicy (Some 2) (Some 100) None false None None)) OnSkip None None None.

Definition sample_params (attempt : Z) : ExecuteParams :=
  mkExecute "w1" (JStr "order") ∅ attempt None None None.

Definition sample_body : option StepBodyOutcome * Z := runStepBody sample_host flaky_step "w1" 3 sample_params 0.

