(* ===== verification/Checkpoint.v ===== *)
(** Checkpoints of step outcomes: [durable/runner/step-checkpoint.ts], the
    storage interface the runner drives ([durable/storage/run-store.ts],
    [step-attempt-store.ts], [compensation-ledger-store.ts],
    [run-event-store.ts]), [durable/runner/run-status.ts] and
    [durable/runner/hooks.ts].

    A call of the storage acts on the world: it resolves, rejects, or the
    process is dead before it returns. *)
From Stdlib Require Import QArith.
From S2P Require Import Prelude Leases Json Journal RunState Storage Exits Retry Replay StepBody.
Open Scope string_scope.
Open Scope list_scope.
Open Scope Z_scope.

(** ** The storage interface *)
Inductive StorageCapability : Type :=
| CapStepAttempts | CapStepCheckpoint | CapCompensationLedger | CapTripwire | CapStepStartedEvents.

Class RunStore (W : Type) : Type := {
  hasCapability : StorageCapability -> bool;
  rs_createWorkflow : option FenceGuard -> CreateWorkflowParams -> W ->
    outcome (option WorkflowState) * W;
  rs_loadWorkflow : string -> W -> outcome (option WorkflowState) * W;
  rs_loadWorkflowStatus : string -> W -> outcome (option WorkflowStatusSnapshot) * W;
  rs_saveStepResult : option FenceGuard -> StepResultRecord -> W -> outcome unit * W;
  rs_saveStepFailure : option FenceGuard -> StepFailureRecord -> W -> outcome unit * W;
  rs_saveStepAttempt : option FenceGuard -> StepAttemptRecord -> W -> outcome unit * W;
  rs_loadStepAttempts : string -> option string -> W -> outcome (list StepAttemptRecord) * W;
  rs_checkpointStep : option FenceGuard -> StepCheckpoint -> W ->
    outcome (option WorkflowStatusSnapshot) * W;
  rs_notifyStepStarted : string -> string -> W -> outcome unit * W;
  rs_completeWorkflow : option FenceGuard -> string -> json -> W -> outcome unit * W;
  rs_failWorkflow : option FenceGuard -> string -> string -> option string -> W -> outcome unit * W;
  rs_tripwireWorkflow : option FenceGuard -> string -> json -> W -> outcome unit * W;
  rs_beginCompensation : option FenceGuard -> string -> string -> option string -> W ->
    outcome bool * W;
  rs_saveStepCompensation : option FenceGuard -> string -> string -> StepCompensationStatus ->
    option string -> W -> outcome unit * W;
  rs_startFreshRun : option FenceGuard -> string -> option Z -> option json -> W ->
    outcome Z * W;
}.

(** ** Asynchronous code of the runner *)
Section async.
Context {S : Type}.

Definition async (A : Type) : Type := S -> outcome A * S.
Definition a_ret {A} (a : A) : async A := fun s => (Ret a, s).
Definition a_throw {A} (e : thrown) : async A := fun s => (Throws e, s).
Definition a_bind {A B} (m : async A) (k : A -> async B) : async B := fun s =>
  match m s with
  | (Ret a, s) => k a s
  | (Throws e, s) => (Throws e, s)
  | (Died, s) => (Died, s)
  end.

(** [try { await m } catch (e) { h(e) }]. *)
Definition a_catch {A} (m : async A) (h : thrown -> async A) : async A := fun s =>
  match m s with
  | (Throws e, s) => h e s
  | r => r
  end.

Definition a_lift {A} (r : res thrown A) : async A := fun s =>
  match r with Ok a => (Ret a, s) | Err e => (Throws e, s) end.

(** A read of the clock, and any synchronous function of the world. *)
Definition a_sync {A} (f : S -> A * S) : async A := fun s => let '(a, s) := f s in (Ret a, s).
End async.
Arguments async : clear implicits.

Notation "'let%' x := m 'in' k" := (a_bind m (fun x => k))
  (at level 10, x name, m at level 200, k at level 200) : promin_scope.
Notation "'do%' m 'in' k" := (a_bind m (fun _ => k))
  (at level 10, m at level 200, k at level 200) : promin_scope.

(** ** Step outcomes *)
Record StepInfo : Type := mkStepInfo {
  si_name : string;
  si_metadata : option metadata;
  si_startedAt : Z;
  si_durationMs : Z;
  si_attempt : Z;
  si_executorId : option string;
}.

Inductive StepOutcome : Type :=
| StepDone (i : StepInfo) (result : json) (skipped : bool)
| StepBroke (i : StepInfo) (error : thrown)
| StepSuspended (name : string) (error : thrown)
| StepContinued (name : string) (error : thrown).

Definition outcome_name (o : StepOutcome) : string :=
  match o with
  | StepDone i _ _ | StepBroke i _ => si_name i
  | StepSuspended n _ | StepContinued n _ => n
  end.

(** [runStatus]: [None] when the checkpoint did not read it, [Some None]
    when the run was not found. *)
Record CheckpointedStep : Type := mkCheckpointed {
  ck_outcome : StepOutcome;
  ck_runStatus : option (option WorkflowStatusSnapshot);
}.

Inductive HookEvent : Type :=
| OnStepComplete (workflowId stepName : string) (result : json) (durationMs : Z)
| OnStepFailure (workflowId stepName error : string) (durationMs : Z)
| OnWorkflowComplete (workflowId : string) (result : json) (durationMs : Z)
| OnWorkflowFailure (workflowId error : string) (durationMs : Z)
| OnWorkflowTripwire (workflowId stepName : string) (reason : json) (durationMs : Z).

(** What the DAG executor runs against. *)
Record DagExecutionContext (W : Type) : Type := mkDagContext {
  dc_steps : list (StepDefinition W);
  dc_hooks : option (HookEvent -> W -> res thrown unit * W);
  dc_timeoutMs : option Z;
  dc_guard : option FenceGuard;
  dc_executorId : option string;
  dc_run : option Z;
  (** the abort reason of the run's lock signal, once it is aborted *)
  dc_signal : W -> option thrown;
}.
Arguments mkDagContext {W}.
Arguments dc_steps {W}.
Arguments dc_hooks {W}.
Arguments dc_timeoutMs {W}.
Arguments dc_guard {W}.
Arguments dc_executorId {W}.
Arguments dc_run {W}.
Arguments dc_signal {W}.

(** [CHECKPOINT_RETRY_POLICY]. *)
Definition CHECKPOINT_RETRY_POLICY : RetryPolicy :=
  mkPolicy (Some 3) (Some 250) (Some (fun e => negb (isControlFlowExit e))) false None None.

Section checkpoint.
Context {W : Type} `{RunStore W} (host : RunnerHost W).

Definition CheckpointError (workflowId operation : string) (stepName : option string)
    (error : thrown) : thrown :=
  let subject := match stepName with Some n => " for step " +:+ quoted n | None => "" end in
  engine_error host "CheckpointError"
    ([("workflowId", JStr workflowId); ("operation", JStr operation)] ++
     match stepName with Some n => [("stepName", JStr n)] | None => [] end)
    ("Workflow " +:+ quoted workflowId +:+ ": " +:+ operation +:+ subject +:+ " failed after " +:+
     str_of_Z 3 +:+ " retries: " +:+ errorMessage host error).

Definition checkpointWrite {A} (workflowId operation : string) (stepName : option string)
    (write : async W A) : async W A :=
  a_catch
    (retryAsync (rh_now host) (rh_random host) (timer host) (fun _ => false) (fun _ => write)
       CHECKPOINT_RETRY_POLICY)
    (fun error => a_throw (if isControlFlowExit error then error
                           else CheckpointError workflowId operation stepName error)).

Definition currentTimeMs : async W Z := a_sync (rh_now host).

(** [executorOf]. *)
Definition executorOf (ctx : DagExecutionContext W) (executorId : option string) : option string :=
  opt_else executorId (dc_executorId ctx).

Definition failedAttemptRecord (ctx : DagExecutionContext W) (workflowId stepName : string)
    (failed : StepAttemptFailure) : StepAttemptRecord :=
  mkAttempt workflowId stepName (af_attempt failed) AtExecution false JUndef
    (Some (af_error failed)) (af_durationMs failed) (af_startedAt failed)
    (af_startedAt failed + af_durationMs failed) (executorOf ctx None).

(** The attempt row of the step's last attempt, stamped [now]. *)
Definition lastAttempt (ctx : DagExecutionContext W) (workflowId : string) (i : StepInfo)
    (settled : json + string) (now : Z) : StepAttemptRecord :=
  let '(completed, result, error) :=
    match settled with inl r => (true, r, None) | inr e => (false, JUndef, Some e) end in
  mkAttempt workflowId (si_name i) (si_attempt i) AtExecution completed result error
    (si_durationMs i) (si_startedAt i) now (executorOf ctx (si_executorId i)).

(** The writes one at a time, for a storage without [checkpointStep]. *)
Definition write_one (ctx : DagExecutionContext W) (workflowId : string) (stepName : string)
    (operation : string) (m : async W unit) : async W unit :=
  checkpointWrite workflowId operation (Some stepName) m.

Fixpoint saveFailedAttempts (ctx : DagExecutionContext W) (workflowId stepName : string)
    (failedAttempts : list StepAttemptFailure) : async W unit :=
  match failedAttempts with
  | [] => a_ret tt
  | failed :: rest =>
      do% write_one ctx workflowId stepName "saveStepAttempt"
            (rs_saveStepAttempt (dc_guard ctx) (failedAttemptRecord ctx workflowId stepName failed)) in
      saveFailedAttempts ctx workflowId stepName rest
  end.

Definition checkpoint_rows (ctx : DagExecutionContext W) (workflowId : string) (i : StepInfo)
    (settled : json + string) (errorTag : option string) (failedAttempts : list StepAttemptFailure)
    : async W (option (option WorkflowStatusSnapshot)) :=
  let recorded := existsb (fun a => af_attempt a =? si_attempt i) failedAttempts in
  if hasCapability CapStepCheckpoint then
    let attempts := failedAttemptRecord ctx workflowId (si_name i) <$> failedAttempts in
    let% attempts :=
      if recorded then a_ret attempts
      else let% now := currentTimeMs in
           a_ret (attempts ++ [lastAttempt ctx workflowId i settled now]) in
    let outcome := match settled with
                   | inl r => OutCompleted r
                   | inr e => OutFailed e errorTag
                   end in
    let% runStatus := checkpointWrite workflowId "checkpointStep" (Some (si_name i))
      (rs_checkpointStep (dc_guard ctx)
         (mkCheckpoint workflowId (si_name i) outcome (si_durationMs i) (si_startedAt i)
            (si_metadata i) attempts)) in
    a_ret (Some runStatus)
  else
    do% if hasCapability CapStepAttempts
        then saveFailedAttempts ctx workflowId (si_name i) failedAttempts else a_ret tt in
    do% match settled with
        | inl r =>
            write_one ctx workflowId (si_name i) "saveStepResult"
              (rs_saveStepResult (dc_guard ctx)
                 (mkStepResult workflowId (si_name i) r (si_durationMs i) (si_startedAt i) (si_metadata i)))
        | inr e =>
            write_one ctx workflowId (si_name i) "saveStepFailure"
              (rs_saveStepFailure (dc_guard ctx)
                 (mkStepFailure workflowId (si_name i) e errorTag (si_durationMs i) (si_startedAt i)
                    (si_metadata i)))
        end in
    do% if negb recorded && hasCapability CapStepAttempts
        then let% now := currentTimeMs in
             write_one ctx workflowId (si_name i) "saveStepAttempt"
               (rs_saveStepAttempt (dc_guard ctx) (lastAttempt ctx workflowId i settled now))
        else a_ret tt in
    a_ret None.

Definition checkpointStepOutcome (ctx : DagExecutionContext W) (workflowId : string)
    (outcome : StepOutcome) (failedAttempts : list StepAttemptFailure) : async W CheckpointedStep :=
  match outcome with
  | StepSuspended _ _ | StepContinued _ _ => a_ret (mkCheckpointed outcome None)
  | StepDone i result _ =>
      let% status := checkpoint_rows ctx workflowId i (inl result) None failedAttempts in
      a_ret (mkCheckpointed outcome status)
  | StepBroke i error =>
      let% status := checkpoint_rows ctx workflowId i (inr (errorMessage host error))
                       (errorTagOf error) failedAttempts in
      a_ret (mkCheckpointed outcome status)
  end.

(** ** Hooks: observers, which never change the outcome *)
Definition fireHook (ctx : DagExecutionContext W) (event : HookEvent) : async W unit := fun w =>
  match dc_hooks ctx with
  | None => (Ret tt, w)
  | Some hook => (Ret tt, (hook event w).2)
  end.

(** ** The status of the run *)
Definition WorkflowCancelledError (workflowId : string) : thrown :=
  engine_error host "WorkflowCancelledError" [("workflowId", JStr workflowId)]
    ("Workflow " +:+ quoted workflowId +:+ " was cancelled").

Definition assertRunActive (workflowId : string) (signal : W -> option thrown)
    (observed : option (option WorkflowStatusSnapshot)) : async W unit := fun w =>
  match signal w with
  | Some reason => (Throws reason, w)
  | None =>
      (let% status := match observed with
                      | Some st => a_ret st
                      | None => rs_loadWorkflowStatus workflowId
                      end in
       match status with
       | Some st => if isCancelledRun st then a_throw (WorkflowCancelledError workflowId) else a_ret tt
       | None => a_ret tt
       end) w
  end.
End checkpoint.
