(* ===== verification/AsyncRel.v ===== *)
(** Relations on the world that asynchronous code keeps: what every call of a
    program keeps, the program keeps. *)
From Stdlib Require Import QArith.
From S2P Require Import Prelude Leases Json Journal RunState Storage Exits Retry Replay StepBody Checkpoint.
Open Scope string_scope.
Open Scope list_scope.
Open Scope Z_scope.

(** [R] relates the state before to the state after, whatever the outcome. *)
Definition keeps {S A} (R : S -> S -> Prop) (m : async S A) : Prop := forall s, R s (m s).2.

(** [R] on the world of a state with variables. *)
Definition on_second {X W} (R : W -> W -> Prop) (s s' : X * W) : Prop := R s.2 s'.2.

#[export] Instance on_second_preorder {X W} (R : W -> W -> Prop) `{!PreOrder R} : PreOrder (on_second (X := X) R).
Proof. split; [intros s; by unfold on_second|intros s1 s2 s3; unfold on_second; apply transitivity]. Qed.

Section keeps.
Context {S : Type} (R : S -> S -> Prop) `{!PreOrder R}.

Lemma async_ret {A} (a : A) : keeps R (a_ret a).
Proof. intros s. reflexivity. Qed.
Lemma async_throw {A} e : keeps R (a_throw (A := A) e).
Proof. intros s. reflexivity. Qed.
Lemma async_lift {A} (r : res thrown A) : keeps R (a_lift r).
Proof. intros s. unfold a_lift. destruct r; reflexivity. Qed.
Lemma async_bind {A B} (m : async S A) (k : A -> async S B) :
  keeps R m -> (forall a, keeps R (k a)) -> keeps R (a_bind m k).
Proof.
  intros Hm Hk s. specialize (Hm s). unfold a_bind. destruct (m s) as [[a|e|] s1]; [|done..].
  etrans; [exact Hm|]. apply Hk.
Qed.
Lemma async_catch {A} (m : async S A) h : keeps R m -> (forall e, keeps R (h e)) -> keeps R (a_catch m h).
Proof.
  intros Hm Hk s. specialize (Hm s). unfold a_catch. destruct (m s) as [[a|e|] s1]; [done| |done].
  etrans; [exact Hm|]. apply Hk.
Qed.
Lemma keeps_sync {A} (f : S -> A * S) : (forall s, R s (f s).2) -> keeps R (a_sync f).
Proof. intros Hf s. specialize (Hf s). unfold a_sync. by destruct (f s). Qed.
End keeps.

(** The host of a driver, as far as [R] can see. *)
Class HostKeeps {W} (R : W -> W -> Prop) (host : RunnerHost W) : Prop := {
  now_kept : forall w, R w (rh_now host w).2;
  random_kept : forall w, R w (rh_random host w).2;
  wait_kept : forall d w, R w (rh_wait host d w).2;
}.

Section host.
Context {W : Type} (R : W -> W -> Prop) `{!PreOrder R} (host : RunnerHost W) `{!HostKeeps R host}.

Lemma keeps_now : keeps R (currentTimeMs host).
Proof. apply keeps_sync, now_kept. Qed.
Lemma keeps_timer d : keeps R (timer host d).
Proof. intros w. apply timer_rel, wait_kept. Qed.

Lemma keeps_retry_delay policy n e f t : keeps R (a_sync (nextRetryDelayMs (rh_random host) policy n e f t)).
Proof. apply keeps_sync. intros w. apply next_delay_keeps; [done|apply random_kept]. Qed.

Lemma keeps_retryAsync {A} (run : nat -> async W A) policy : (forall n, keeps R (run n)) ->
  keeps R (retryAsync (rh_now host) (rh_random host) (timer host) (fun _ => false) run policy).
Proof.
  intros Hr w. unfold retryAsync. apply loop_keeps;
    [done|apply now_kept|apply random_kept|intros; apply keeps_timer|exact Hr].
Qed.

Lemma keeps_checkpointWrite {A} wid op st (write : async W A) : keeps R write ->
  keeps R (checkpointWrite host wid op st write).
Proof.
  intros Hw. apply async_catch; [done|by apply keeps_retryAsync|]. intros e. by apply async_throw.
Qed.
End host.

(** Follow a program down to its calls. *)
Ltac keep :=
  repeat match goal with
    | |- keeps ?R (a_bind _ _) => apply (async_bind R); [|intros ?]
    | |- keeps ?R (a_catch _ _) => apply (async_catch R); [|intros ?]
    | |- keeps ?R (a_ret _) => apply (async_ret R)
    | |- keeps ?R (a_throw _) => apply (async_throw R)
    | |- keeps ?R (a_lift _) => apply (async_lift R)
    | |- keeps ?R (currentTimeMs _) => apply (keeps_now R)
    | |- keeps ?R (timer _ _) => apply (keeps_timer R)
    | |- keeps ?R (checkpointWrite _ _ _ _ _) => apply (keeps_checkpointWrite R)
    | |- keeps ?R (a_sync (nextRetryDelayMs _ _ _ _ _ _)) => apply (keeps_retry_delay R)
    | |- keeps _ (match ?x with _ => _ end) => destruct x
    end.
