(* ===== verification/Waves.v ===== *)
(** The wave loop of a run: [durable/runner/wave.ts], [inline-wave.ts] and
    [dag-executor.ts].

    The steps of a wave run concurrently in the code. They share no variable
    of the runner that any of them writes, so a wave is modelled as one step
    after the other - body, then checkpoint - in the order [rh_order] of the
    host, which may be any. Every call of the storage and every body acts on
    the world, and so may whatever else uses it. *)
From Stdlib Require Import QArith.
From S2P Require Import Prelude Leases Json Journal RunState Storage Exits Retry Replay Dag StepBody Checkpoint.
Open Scope string_scope.
Open Scope list_scope.
Open Scope Z_scope.

(** ** Results *)
Inductive DagExecutionResult : Type :=
| DagSuccess (result : json)
| DagFailure (error : thrown) (suspension continueAsNew : bool)
| DagTripwire (stepName : string) (reason : json).

Record WaveOutcome : Type := mkWaveOutcome {
  wo_outcomes : list StepOutcome;
  wo_runStatus : option (option WorkflowStatusSnapshot);
}.

(** What stays the same during one [executeWorkflowDag] call. *)
Record DagParams : Type := mkDagParams {
  dp_workflowId : string;
  dp_input : json;
  dp_nodes : list DagNode;
  dp_state : option WorkflowState;
  dp_deadlineMs : option Z;
}.

Definition stepStates (params : DagParams) (name : string) : option StepState :=
  dp_state params ≫= fun st => alist_get name (ws_steps st).

(** ** The merged status of a wave *)
Definition observe (acc : bool * option WorkflowStatusSnapshot)
    (status : option (option WorkflowStatusSnapshot)) : bool * option WorkflowStatusSnapshot :=
  let '(observed, runStatus) := acc in
  match status with
  | None => (false, runStatus)
  | Some None => (observed, runStatus)
  | Some (Some st) =>
      (observed,
       match runStatus with
       | Some old => if isCancelledRun old then runStatus else Some st
       | None => Some st
       end)
  end.

Fixpoint fold_settled (settled : list (res thrown CheckpointedStep)) (outcomes : list StepOutcome)
    (acc : bool * option WorkflowStatusSnapshot) : res thrown WaveOutcome :=
  match settled with
  | [] => Ok (mkWaveOutcome outcomes (if acc.1 then Some acc.2 else None))
  | Err reason :: _ => Err reason
  | Ok c :: settled => fold_settled settled (outcomes ++ [ck_outcome c]) (observe acc (ck_runStatus c))
  end.

Section waves.
Context {W : Type} `{RunStore W} (host : RunnerHost W).
(** The order in which the steps of a wave settle. *)
Variable rh_order : list (StepDefinition W) -> W -> list (StepDefinition W).
Context (ctx : DagExecutionContext W).

(** The attempt numbers per step, shared across workflow retries, with the
    world. *)
Definition WaveState : Type := jmap string Z * W.

Definition on_world {A} (m : async W A) : async WaveState A := fun s =>
  let '(o, w) := m s.2 in (o, (s.1, w)).

Definition skippedOutcome (stepDef : StepDefinition W) (input : json) (results : jmap string json)
    (attempt : Z) : async W (option StepOutcome) :=
  match sd_skipWhen stepDef with
  | None => a_ret None
  | Some skipWhen =>
      let prev := readPrev (sd_dependsOn stepDef) results input in
      let% skip := a_lift (skipWhen prev) in
      if (skip : bool) then
        let% skipResult := match sd_skipValue stepDef with
                           | Some skipValue => a_lift (skipValue prev)
                           | None => a_ret prev
                           end in
        let% result := a_lift (codec_encode (sd_codec stepDef) skipResult) in
        let% startedAt := currentTimeMs host in
        a_ret (Some (StepDone (mkStepInfo (sd_name stepDef) None startedAt 0 attempt None) result true))
      else a_ret None
  end.

Definition outcomeOfBody (name : string) (body : StepBodyOutcome) (startedAt : Z)
    : async W StepOutcome :=
  let% now := currentTimeMs host in
  let durationMs := now - startedAt in
  a_ret match body with
        | BodyCompleted result metadata attempt _ =>
            StepDone (mkStepInfo name metadata startedAt durationMs attempt None) result false
        | BodyFailed error metadata attempt _ =>
            StepBroke (mkStepInfo name metadata startedAt durationMs attempt None) error
        | BodySuspended error _ => StepSuspended name error
        | BodyContinued error _ => StepContinued name error
        end.

Definition body_failed_attempts (body : StepBodyOutcome) : list StepAttemptFailure :=
  match body with
  | BodyCompleted _ _ _ l | BodyFailed _ _ _ l => l
  | _ => []
  end.

(** [runStep] of the inline wave. *)
Definition execute_params (params : DagParams) (results : jmap string json)
    (stepDef : StepDefinition W) (attempt : Z) : ExecuteParams :=
  mkExecute (dp_workflowId params) (dp_input params) results attempt
    (stepStates params (sd_name stepDef)) (dc_guard ctx) (dc_run ctx).

Definition run_body (params : DagParams) (results : jmap string json) (stepDef : StepDefinition W)
    (attempts : jmap string Z) : async W StepBodyOutcome := fun w =>
  match runStepBody host stepDef (dp_workflowId params)
          (opt_or (attempts !! sd_name stepDef) 0 + 1) (execute_params params results stepDef) w with
  | (Some body, w) => (Ret body, w)
  | (None, w) => (Died, w)
  end.

Definition runStep (params : DagParams) (results : jmap string json) (stepDef : StepDefinition W)
    : async WaveState CheckpointedStep := fun '(attempts, w) =>
  let name := sd_name stepDef in
  (let% skipped := on_world (skippedOutcome stepDef (dp_input params) results
                               (opt_or (attempts !! name) 1)) in
   match skipped with
   | Some outcome => on_world (checkpointStepOutcome host ctx (dp_workflowId params) outcome [])
   | None =>
       let% startedAt := on_world (currentTimeMs host) in
       let% body := on_world (run_body params results stepDef attempts) in
       do% (fun s => (Ret tt, (<[name := body_attempt body]> s.1, s.2))) in
       let% outcome := on_world (outcomeOfBody name body startedAt) in
       on_world (checkpointStepOutcome host ctx (dp_workflowId params) outcome
                   (body_failed_attempts body))
   end) (attempts, w).

(** [settleWave]: every step settles, whatever the others do. *)
Fixpoint settle_all (params : DagParams) (results : jmap string json)
    (steps : list (StepDefinition W)) : async WaveState (jmap string (res thrown CheckpointedStep)) :=
  match steps with
  | [] => a_ret ∅
  | stepDef :: steps => fun s =>
      match runStep params results stepDef s with
      | (Died, s) => (Died, s)
      | (Ret c, s) =>
          (let% rest := settle_all params results steps in
           a_ret (<[sd_name stepDef := Ok c]> rest)) s
      | (Throws e, s) =>
          (let% rest := settle_all params results steps in
           a_ret (<[sd_name stepDef := Err e]> rest)) s
      end
  end.

Definition settleWave (params : DagParams) (results : jmap string json)
    (readySteps : list (StepDefinition W)) : async WaveState WaveOutcome := fun s =>
  (let% settled := settle_all params results (rh_order readySteps s.2) in
   a_lift (fold_settled (omap (fun d => settled !! sd_name d) readySteps) [] (true, None))) s.

(** ** [executeWorkflowDag] *)
Definition steps_by_name : jmap string (StepDefinition W) :=
  foldl (fun m d => <[sd_name d := d]> m) ∅ (dc_steps ctx).

(** The results a stored run starts with. *)
Definition row_completed (row : StepState) : bool := bool_decide (st_status row = Some SCompleted).

Fixpoint load_results (rows : list (string * StepState)) (results : jmap string json)
    : res thrown (jmap string json) :=
  match rows with
  | [] => Ok results
  | (name, row) :: rows =>
      match row_completed row, steps_by_name !! name with
      | true, Some stepDef =>
          match codec_decode (sd_codec stepDef) (st_result row) with
          | Ok v => load_results rows (<[name := v]> results)
          | Err e => Err e
          end
      | _, _ => load_results rows results
      end
  end.

Definition state_results (params : DagParams) : res thrown (jmap string json) :=
  match dp_state params with
  | Some st => load_results (ws_steps st) ∅
  | None => Ok ∅
  end.

Definition WorkflowDeadlineError (params : DagParams) : thrown :=
  let ms := opt_or (dc_timeoutMs ctx) 0 in
  engine_error host "WorkflowDeadlineError"
    [("workflowId", JStr (dp_workflowId params)); ("timeoutMs", JNum ms)]
    ("Workflow " +:+ quoted (dp_workflowId params) +:+ " exceeded global deadline of " +:+
     str_of_Z ms +:+ "ms").

Definition Deadlock (params : DagParams) : thrown :=
  engine_error host "WorkflowError" [("workflowId", JStr (dp_workflowId params))]
    "Deadlock: no steps are ready and none are running".

(** [params.deadlineMs != null && clock.currentTimeMs() > params.deadlineMs]. *)
Definition past_deadline (params : DagParams) : async W bool :=
  match dp_deadlineMs params with
  | None => a_ret false
  | Some deadline => let% now := currentTimeMs host in a_ret (now >? deadline)
  end.

(** A notice that fails is reported and forgotten. *)
Fixpoint notifyStepsStarted (workflowId : string) (steps : list (StepDefinition W)) : async W unit :=
  match steps with
  | [] => a_ret tt
  | stepDef :: steps =>
      if hasCapability CapStepStartedEvents then
        do% a_catch (rs_notifyStepStarted workflowId (sd_name stepDef)) (fun _ => a_ret tt) in
        notifyStepsStarted workflowId steps
      else a_ret tt
  end.

Definition tripwire_reason (kind : option StepKind) (m : option metadata) : option json :=
  match kind, m with
  | Some KTripwire, Some m =>
      if bool_decide (prop "tripwireFired" m = JBool true) then Some (prop "reason" m) else None
  | _, _ => None
  end.

(** The variables of the loop. *)
Record DagVars : Type := mkDagVars {
  dv_results : jmap string json;
  dv_tracker : ReadyTracker;
  dv_tripwire : option (string * json);
}.

(** One completed outcome: decoded as a replay would see it. *)
Definition fold_outcome (params : DagParams) (o : StepOutcome) (v : DagVars) : async W DagVars :=
  match o with
  | StepDone i result skipped =>
      let stepDef := steps_by_name !! si_name i in
      let% decoded := match stepDef with
                      | Some d => a_lift (codec_decode (sd_codec d) result)
                      | None => a_ret result
                      end in
      do% if skipped then a_ret tt
          else fireHook ctx (OnStepComplete (dp_workflowId params) (si_name i) decoded (si_durationMs i)) in
      a_ret (mkDagVars (<[si_name i := decoded]> (dv_results v))
               (markCompleted (dp_nodes params) (dv_tracker v) (si_name i))
               (match dv_tripwire v with
                | Some f => Some f
                | None => pair (si_name i) <$> tripwire_reason (sd_kind <$> stepDef) (si_metadata i)
                end))
  | _ => a_ret v
  end.

Fixpoint fold_outcomes (params : DagParams) (outcomes : list StepOutcome) (v : DagVars)
    : async W DagVars :=
  match outcomes with
  | [] => a_ret v
  | o :: outcomes => let% v := fold_outcome params o v in fold_outcomes params outcomes v
  end.

(** The failure the run fails with: the first in ready order. *)
Fixpoint report_failures (params : DagParams) (outcomes : list StepOutcome) : async W (option thrown) :=
  match outcomes with
  | [] => a_ret None
  | StepBroke i error :: outcomes =>
      do% fireHook ctx (OnStepFailure (dp_workflowId params) (si_name i) (errorMessage host error)
                          (si_durationMs i)) in
      let% _ := report_failures params outcomes in
      a_ret (Some error)
  | _ :: outcomes => report_failures params outcomes
  end.

Definition find_continued (outcomes : list StepOutcome) : option thrown :=
  head (omap (fun o => match o with StepContinued _ e => Some e | _ => None end) outcomes).

Definition find_suspended (outcomes : list StepOutcome) : option thrown :=
  head (omap (fun o => match o with StepSuspended _ e => Some e | _ => None end) outcomes).

Definition step_count : Z := Z.of_nat (length (dc_steps ctx)).

(** What a settled wave makes of the run: a result, or the next wave. *)
Definition after_wave (params : DagParams) (outcomes : list StepOutcome) (v : DagVars)
    : async W (DagExecutionResult + DagVars) :=
  let% v := fold_outcomes params outcomes v in
  let% failure := report_failures params outcomes in
  match failure, find_continued outcomes, find_suspended outcomes, dv_tripwire v with
  | Some error, _, _, _ => a_ret (inl (DagFailure error false false))
  | None, Some error, _, _ => a_ret (inl (DagFailure error false true))
  | None, None, Some error, _ => a_ret (inl (DagFailure error true false))
  | None, None, None, Some (stepName, reason) => a_ret (inl (DagTripwire stepName reason))
  | None, None, None, None =>
      let% late := past_deadline params in
      if late && (completedCount (dv_tracker v) <? step_count)
      then a_ret (inl (DagFailure (WorkflowDeadlineError params) false false))
      else a_ret (inr v)
  end.

Definition undefined_name : thrown :=
  TError (new_error "TypeError" "Cannot read properties of undefined (reading 'name')").

Definition final_result (v : DagVars) : async WaveState DagExecutionResult :=
  match last (dc_steps ctx) with
  | Some d => a_ret (DagSuccess (result_of (dv_results v) (sd_name d)))
  | None => a_throw undefined_name
  end.

(** One pass of the loop; [wave] is its number. *)
Definition run_wave (params : DagParams) (wave : nat)
    (observed : option (option WorkflowStatusSnapshot)) (v : DagVars)
    : async WaveState (DagExecutionResult + (DagVars * option (option WorkflowStatusSnapshot))) :=
  do% if (wave =? 0)%nat then a_ret tt
      else on_world (assertRunActive host (dp_workflowId params) (dc_signal ctx) observed) in
  let% late := on_world (past_deadline params) in
  if (late : bool) then a_ret (inl (DagFailure (WorkflowDeadlineError params) false false))
  else
    let readyNames := ready (dp_nodes params) (dv_tracker v) in
    match readyNames with
    | [] => a_ret (inl (DagFailure (Deadlock params) false false))
    | _ =>
        let readySteps := omap (fun n => steps_by_name !! n) readyNames in
        do% on_world (notifyStepsStarted (dp_workflowId params) readySteps) in
        let% out := settleWave params (dv_results v) readySteps in
        let% r := on_world (after_wave params (wo_outcomes out)
                              (mkDagVars (dv_results v) (dv_tracker v) None)) in
        match r with
        | inl r => a_ret (inl r)
        | inr v => a_ret (inr (v, wo_runStatus out))
        end
    end.

(** The loop: [None] when the fuel is spent. *)
Fixpoint wave_loop (fuel : nat) (params : DagParams) (wave : nat)
    (observed : option (option WorkflowStatusSnapshot)) (v : DagVars)
    : async WaveState (option DagExecutionResult) :=
  if completedCount (dv_tracker v) <? step_count then
    match fuel with
    | O => a_ret None
    | Datatypes.S fuel =>
        let% r := run_wave params wave observed v in
        match r with
        | inl r => a_ret (Some r)
        | inr (v, observed) => wave_loop fuel params (Datatypes.S wave) observed v
        end
    end
  else let% r := final_result v in a_ret (Some r).

(** [executeWorkflowDag]: a wave per step is enough fuel. *)
Definition executeWorkflowDag (params : DagParams) : async WaveState (option DagExecutionResult) :=
  let% results := a_lift (state_results params) in
  wave_loop (length (dc_steps ctx)) params 0 None
    (mkDagVars results (createReadyTracker (dp_nodes params) (jm_keys results)) None).
End waves.
