(* ===== verification/WaveLaws.v ===== *)
(** What the wave loop relies on, and what its parts then do.

    [RunWorld] is the contract between a driver of one run and its world.
    It speaks of the stored results of the run's completed steps ([rv]) and
    of whether the driver still holds the run's lock ([held]): a driver that
    holds the lock after a call held it before. Only the driver's own
    checkpoints change the results while it holds the lock; a checkpoint that
    rejects may or may not have been written. Once the lock is lost nothing
    is promised. [log] records the invocations of step bodies. *)
From Stdlib Require Import QArith.
From S2P Require Import Prelude Leases Json Journal RunState Storage Exits Retry Replay Dag StepBody Checkpoint Waves.
Open Scope string_scope.
Open Scope list_scope.
Open Scope Z_scope.

(** ** The contract *)
Section contract.
Context {W V E : Type}.
Variable held : W -> Prop.
Variable rv : W -> string -> option V.
Variable log : W -> list E.

(** A call that leaves the values of the run's steps alone. *)
Definition quiet (w w' : W) : Prop :=
  log w' = log w /\ (held w' -> held w /\ forall y, rv w' y = rv w y).

(** A write of [c] as the value of step [x]. *)
Definition put {A} (x : string) (c : option V) (w w' : W) (o : outcome A) : Prop :=
  log w' = log w /\
  (held w' -> held w /\ (forall y, y <> x -> rv w' y = rv w y) /\
     match o with
     | Ret _ => rv w' x = c
     | _ => rv w' x = c \/ rv w' x = rv w x
     end).

(** A host whose clock, random source and timers are quiet. *)
Class QuietHost (host : RunnerHost W) : Prop := {
  now_quiet : forall w, quiet w (rh_now host w).2;
  random_quiet : forall w, quiet w (rh_random host w).2;
  wait_quiet : forall d w, quiet w (rh_wait host d w).2;
}.
End contract.
Arguments now_quiet {W V E held rv log host _}.
Arguments random_quiet {W V E held rv log host _}.
Arguments wait_quiet {W V E held rv log host _}.

Class RunWorld (W : Type) `{RunStore W} (host : RunnerHost W) (ctx : DagExecutionContext W)
    (workflowId : string) : Type := {
  held : W -> Prop;
  rv : W -> string -> option json;
  log : W -> list (string * ExecuteParams);
  world_host : QuietHost held rv log host;
  timed_out_quiet : forall ms w, quiet held rv log w (rh_timed_out host ms w).2;
  hook_quiet : forall hook e w, dc_hooks ctx = Some hook -> quiet held rv log w (hook e w).2;
  status_quiet : forall w, quiet held rv log w (rs_loadWorkflowStatus workflowId w).2;
  notify_quiet : forall n w, quiet held rv log w (rs_notifyStepStarted workflowId n w).2;
  attempt_quiet : forall g r w, at_workflowId r = workflowId ->
    quiet held rv log w (rs_saveStepAttempt g r w).2;
  execute_logs : forall d p m w, d ∈ dc_steps ctx ->
    let w' := (sd_execute d p (m, w)).2.2 in
    log w' = log w ++ [(sd_name d, p)] /\ (held w' -> held w /\ forall y, rv w' y = rv w y);
  checkpoint_puts : forall c w, cp_workflowId c = workflowId ->
    let '(o, w') := rs_checkpointStep (dc_guard ctx) c w in
    put held rv log (cp_stepName c) (match cp_outcome c with OutCompleted r => Some r | _ => None end) w w' o;
  result_puts : forall r w, sr_workflowId r = workflowId ->
    let '(o, w') := rs_saveStepResult (dc_guard ctx) r w in
    put held rv log (sr_stepName r) (Some (sr_result r)) w w' o;
  failure_puts : forall r w, sf_workflowId r = workflowId ->
    let '(o, w') := rs_saveStepFailure (dc_guard ctx) r w in
    put held rv log (sf_stepName r) None w w' o;
}.
Arguments held {W _ host ctx workflowId _}.
Arguments rv {W _ host ctx workflowId _}.
Arguments log {W _ host ctx workflowId _}.
#[export] Existing Instance world_host.

(** ** Asynchronous code *)
Lemma a_bind_Ret {S A B} (m : async S A) (k : A -> async S B) s b s' :
  a_bind m k s = (Ret b, s') -> exists a s1, m s = (Ret a, s1) /\ k a s1 = (Ret b, s').
Proof. unfold a_bind. destruct (m s) as [[a|e|] s1]; intros; try done. by exists a, s1. Qed.

Lemma on_world_Ret {W A} (m : async W A) (s : WaveState (W := W)) a s' :
  on_world m s = (Ret a, s') -> m s.2 = (Ret a, s'.2) /\ s'.1 = s.1.
Proof. unfold on_world. destruct (m s.2) as [o w]. intros [= -> <-]. done. Qed.

Section quiet.
Context {W V E : Type}.
Context (held : W -> Prop) (rv : W -> string -> option V) (log : W -> list E).

Lemma quiet_refl w : quiet held rv log w w.
Proof. by split. Qed.

Lemma quiet_trans w1 w2 w3 : quiet held rv log w1 w2 -> quiet held rv log w2 w3 -> quiet held rv log w1 w3.
Proof.
  intros [L1 H1] [L2 H2]. split; [congruence|]. intros H3. destruct (H2 H3) as [Hh E2].
  destruct (H1 Hh) as [Hh' E1]. split; [done|]. intros y. by rewrite E2.
Qed.

Lemma quiet_put {A} x c w1 w2 w3 (o : outcome A) :
  quiet held rv log w1 w2 -> put held rv log x c w2 w3 o -> put held rv log x c w1 w3 o.
Proof.
  intros [L1 H1] [L2 H2]. split; [congruence|]. intros H3. destruct (H2 H3) as (Hh & E2 & Ex).
  destruct (H1 Hh) as [Hh' E1]. split; [done|]. split; [intros y Hy; by rewrite E2|]. rewrite <- (E1 x). done.
Qed.

Lemma put_quiet {A B} x c w1 w2 w3 (o : outcome A) (o' : outcome B) :
  put held rv log x c w1 w2 o -> quiet held rv log w2 w3 ->
  match o' with Ret _ => exists a, o = Ret a | _ => True end -> put held rv log x c w1 w3 o'.
Proof.
  intros [L1 H1] [L2 H2] Ho. split; [congruence|]. intros H3. destruct (H2 H3) as [Hh E2].
  destruct (H1 Hh) as (Hh' & E1 & Ex). split; [done|]. split; [intros y Hy; rewrite E2; by apply E1|].
  rewrite E2. destruct o'; [destruct Ho as [? ->]; done| |]; destruct o; tauto.
Qed.

(** A rejected write and another try. *)
Lemma put_again {A B} x c w1 w2 w3 (o : outcome A) (o' : outcome B) :
  put held rv log x c w1 w2 o -> put held rv log x c w2 w3 o' -> put held rv log x c w1 w3 o'.
Proof.
  intros [L1 H1] [L2 H2]. split; [congruence|]. intros H3. destruct (H2 H3) as (Hh & E2 & E2x).
  destruct (H1 Hh) as (Hh' & E1 & E1x). split; [done|]. split.
  - intros y Hy. rewrite E2 by done. by apply E1.
  - destruct o'; [done| |]; (destruct E2x as [->| ->]; [by left|]; destruct o; tauto).
Qed.

(** *** Code that writes no step result *)
Definition quietly {A} (m : async W A) : Prop := forall w, quiet held rv log w (m w).2.

Lemma quietly_ret {A} (a : A) : quietly (a_ret a).
Proof. intros w. apply quiet_refl. Qed.
Lemma quietly_throw {A} e : quietly (a_throw (A := A) e).
Proof. intros w. apply quiet_refl. Qed.
Lemma quietly_lift {A} (r : res thrown A) : quietly (a_lift r).
Proof. intros w. unfold a_lift. destruct r; apply quiet_refl. Qed.
Lemma quietly_bind {A B} (m : async W A) (k : A -> async W B) :
  quietly m -> (forall a, quietly (k a)) -> quietly (a_bind m k).
Proof.
  intros Hm Hk w. specialize (Hm w). unfold a_bind. destruct (m w) as [[a|e|] w1]; [|done..].
  eapply quiet_trans; [done|]. apply Hk.
Qed.
Lemma quietly_catch {A} (m : async W A) h : quietly m -> (forall e, quietly (h e)) -> quietly (a_catch m h).
Proof.
  intros Hm Hk w. specialize (Hm w). unfold a_catch. destruct (m w) as [[a|e|] w1]; [done| |done].
  eapply quiet_trans; [done|]. apply Hk.
Qed.
Context (host : RunnerHost W) `{!QuietHost held rv log host}.

Lemma quietly_now : quietly (currentTimeMs host).
Proof.
  intros w. unfold currentTimeMs, a_sync. pose proof (now_quiet w) as Hq. by destruct (rh_now host w).
Qed.
Lemma timer_quiet d w : quiet held rv log w (timer host d w).2.
Proof. unfold timer. pose proof (wait_quiet d w) as Hq. by destruct (rh_wait host d w). Qed.

#[local] Instance quiet_preorder : PreOrder (quiet held rv log).
Proof. split; [exact quiet_refl|exact quiet_trans]. Qed.

Lemma next_delay_quiet policy retry e f t w :
  quiet held rv log w (nextRetryDelayMs (rh_random host) policy retry e f t w).2.
Proof. apply next_delay_keeps; [apply _|apply random_quiet]. Qed.

Lemma bind_put_quiet {A B} x c (m : async W A) (k : A -> async W B) w :
  (let '(o, w') := m w in put held rv log x c w w' o) -> (forall a, quietly (k a)) ->
  let '(o, w') := a_bind m k w in put held rv log x c w w' o.
Proof.
  intros Hm Hk. unfold a_bind. destruct (m w) as [[a|e|] w1]; [|done..].
  specialize (Hk a w1). destruct (k a w1) as [o w2]. eapply put_quiet; [done|done|]. destruct o; [by exists a|done..].
Qed.

Lemma bind_quiet_put {A B} x c (m : async W A) (k : A -> async W B) w :
  quietly m -> (forall a w, let '(o, w') := k a w in put held rv log x c w w' o) ->
  let '(o, w') := a_bind m k w in put held rv log x c w w' o.
Proof.
  intros Hm Hk. unfold a_bind. specialize (Hm w). destruct (m w) as [[a|e|] w1]; cbn in Hm.
  - specialize (Hk a w1). destruct (k a w1) as [o w2]. by eapply quiet_put.
  - eapply (quiet_put (A := B)); [exact Hm|]. split; [done|]. intros Hh. split; [done|]. split; [done|by right].
  - eapply (quiet_put (A := B)); [exact Hm|]. split; [done|]. intros Hh. split; [done|]. split; [done|by right].
Qed.

(** *** Retried writes *)
Lemma retry_put {A} x c (write : async W A) policy spare n f0 w :
  (forall w, let '(o, w') := write w in put held rv log x c w w' o) ->
  let '(o, w') := attempt (rh_now host) (rh_random host) (timer host) (fun _ => false)
                    (fun _ => write) policy spare n f0 w in
  put held rv log x c w w' o.
Proof.
  intros Hw. revert n f0 w. induction spare as [|spare IH]; intros n f0 w; cbn [attempt];
    pose proof (Hw w) as H1; destruct (write w) as [[a|e|] w1]; try done;
    pose proof (now_quiet w1) as Q1; destruct (rh_now host w1) as [t w2]; cbn in Q1;
    pose proof (next_delay_quiet policy n e (opt_or f0 t) t w2) as Q2;
    destruct (nextRetryDelayMs _ _ _ _ _ _ w2) as [[d|] w3]; cbn in Q2;
    pose proof (quiet_trans _ _ _ Q1 Q2) as Q12; try (by eapply put_quiet);
    pose proof (timer_quiet d w3) as Q3; destruct (timer host d w3) as [[[]|e'|] w4]; cbn in Q3;
    pose proof (quiet_trans _ _ _ Q12 Q3) as Q123; try (by eapply put_quiet).
  specialize (IH (Datatypes.S n) (Some (opt_or f0 t)) w4).
  destruct (attempt _ _ _ _ _ _ spare _ _ w4) as [o w5].
  eapply (put_again (A := A)); [|exact IH]. by apply (put_quiet (B := A) _ _ _ _ _ _ (Throws e) H1 Q123).
Qed.

Lemma checkpointWrite_puts {A} wid op st x c (write : async W A) w :
  (forall w, let '(o, w') := write w in put held rv log x c w w' o) ->
  let '(o, w') := checkpointWrite host wid op st write w in put held rv log x c w w' o.
Proof.
  intros Hw. unfold checkpointWrite, a_catch, retryAsync.
  pose proof (retry_put x c write CHECKPOINT_RETRY_POLICY (Z.to_nat (max_retries CHECKPOINT_RETRY_POLICY))
                0 None w Hw) as Hr.
  destruct (attempt _ _ _ _ _ _ _ _ _ w) as [[a|e|] w']; done.
Qed.

Lemma checkpointWrite_quiet {A} wid op st (write : async W A) : quietly write ->
  quietly (checkpointWrite host wid op st write).
Proof.
  intros Hw w. unfold checkpointWrite, a_catch, retryAsync.
  pose proof (loop_keeps (rh_now host) (rh_random host) (timer host) (fun _ => false) (fun _ => write)
    CHECKPOINT_RETRY_POLICY (quiet held rv log) now_quiet random_quiet timer_quiet (fun _ => Hw)
    (Z.to_nat (max_retries CHECKPOINT_RETRY_POLICY)) 0%nat None w) as Hr.
  destruct (attempt _ _ _ _ _ _ _ _ _ w) as [[a|e|] w']; done.
Qed.
End quiet.
Arguments quietly {W V E} held rv log {A} m.
Arguments quiet_refl {W V E held rv log}.
Arguments quiet_trans {W V E held rv log}.
Arguments quiet_put {W V E held rv log A}.
Arguments put_quiet {W V E held rv log A B}.
Arguments bind_put_quiet {W V E held rv log A B}.
Arguments bind_quiet_put {W V E held rv log A B}.
Arguments quietly_ret {W V E held rv log A}.
Arguments quietly_throw {W V E held rv log A}.
Arguments quietly_lift {W V E held rv log A}.
Arguments quietly_bind {W V E held rv log A B}.
Arguments quietly_catch {W V E held rv log A}.
Arguments quietly_now {W V E held rv log host _}.
Arguments timer_quiet {W V E held rv log host _}.
Arguments checkpointWrite_puts {W V E held rv log host _ A}.
Arguments checkpointWrite_quiet {W V E held rv log host _ A}.

Section world.
Context {W : Type} `{RW : RunWorld W host ctx wid}.
#[local] Abbreviation quietly := (quietly held rv log).

Lemma quietly_hook e : quietly (fireHook ctx e).
Proof.
  intros w. unfold fireHook. destruct (dc_hooks ctx) as [hook|] eqn:Eh; [|apply quiet_refl].
  by apply hook_quiet.
Qed.
Lemma quietly_deadline params : quietly (past_deadline host params).
Proof.
  unfold past_deadline. destruct (dp_deadlineMs params); [|apply quietly_ret].
  apply quietly_bind; [apply quietly_now|intros; apply quietly_ret].
Qed.

(** *** Checkpoints *)
Lemma saveFailedAttempts_quiet name l : quietly (saveFailedAttempts host ctx wid name l).
Proof.
  induction l as [|f l IH]; cbn [saveFailedAttempts]; [apply quietly_ret|].
  apply quietly_bind; [|done]. apply checkpointWrite_quiet. intros w. by apply attempt_quiet.
Qed.

Definition settled_result (settled : json + string) : option json :=
  match settled with inl r => Some r | inr _ => None end.

Lemma checkpoint_rows_puts i settled tag failed w :
  let '(o, w') := checkpoint_rows host ctx wid i settled tag failed w in
  put held rv log (si_name i) (settled_result settled) w w' o.
Proof.
  unfold checkpoint_rows. destruct (hasCapability CapStepCheckpoint).
  - apply bind_quiet_put.
    { destruct (existsb _ _); [apply quietly_ret|].
      apply quietly_bind; [apply quietly_now|intros; apply quietly_ret]. }
    intros attempts w1. apply bind_put_quiet; [|intros; apply quietly_ret].
    apply checkpointWrite_puts. intros w2.
    pose proof (checkpoint_puts (mkCheckpoint wid (si_name i)
      (match settled with inl r => OutCompleted r | inr e => OutFailed e tag end) (si_durationMs i)
      (si_startedAt i) (si_metadata i) attempts) w2 eq_refl) as Hp.
    destruct (rs_checkpointStep _ _ w2) as [o w3]. by destruct settled.
  - apply bind_quiet_put.
    { destruct (hasCapability CapStepAttempts); [apply saveFailedAttempts_quiet|apply quietly_ret]. }
    intros _ w1. apply bind_put_quiet.
    + unfold write_one. destruct settled as [r|e]; apply checkpointWrite_puts; intros w2.
      * pose proof (result_puts (mkStepResult wid (si_name i) r (si_durationMs i) (si_startedAt i)
          (si_metadata i)) w2 eq_refl) as Hp. by destruct (rs_saveStepResult _ _ w2).
      * pose proof (failure_puts (mkStepFailure wid (si_name i) e tag (si_durationMs i) (si_startedAt i)
          (si_metadata i)) w2 eq_refl) as Hp. by destruct (rs_saveStepFailure _ _ w2).
    + intros _. apply quietly_bind; [|intros; apply quietly_ret].
      destruct (negb _ && _); [|apply quietly_ret]. apply quietly_bind; [apply quietly_now|].
      intros t. apply checkpointWrite_quiet. intros w2. apply attempt_quiet. by destruct settled.
Qed.

(** The result a settled outcome stores: [None] for "leave the row". *)
Definition stored_as (o : StepOutcome) : option (option json) :=
  match o with
  | StepDone _ r _ => Some (Some r)
  | StepBroke _ _ => Some None
  | _ => None
  end.

(** A checkpoint of step [x] answered with outcome [o]. *)
Definition checkpointed (x : string) (o : StepOutcome) (w w' : W) : Prop :=
  log w' = log w /\
  (held w' -> held w /\ (forall y, y <> x -> rv w' y = rv w y) /\
     rv w' x = opt_or (stored_as o) (rv w x)).

Lemma checkpointStepOutcome_spec o failed w c w' :
  checkpointStepOutcome host ctx wid o failed w = (Ret c, w') ->
  ck_outcome c = o /\ checkpointed (outcome_name o) o w w'.
Proof.
  unfold checkpointStepOutcome. destruct o as [i r sk|i e|n e|n e]; cbn [outcome_name].
  - intros (st & w1 & Hr & Hc)%a_bind_Ret. injection Hc as <- <-. split; [done|].
    pose proof (checkpoint_rows_puts i (inl r) None failed w) as Hp. rewrite Hr in Hp.
    destruct Hp as [Hl Hp]. split; [done|]. intros Hh. destruct (Hp Hh) as (? & ? & ?). done.
  - intros (st & w1 & Hr & Hc)%a_bind_Ret. injection Hc as <- <-. split; [done|].
    pose proof (checkpoint_rows_puts i (inr (errorMessage host e)) (errorTagOf e) failed w) as Hp.
    rewrite Hr in Hp. destruct Hp as [Hl Hp]. split; [done|]. intros Hh. destruct (Hp Hh) as (? & ? & ?). done.
  - intros [= <- <-]. split; [done|]. split; [done|]. done.
  - intros [= <- <-]. split; [done|]. split; [done|]. done.
Qed.

(** Every way through a checkpoint, rejections included. *)
Lemma checkpointStepOutcome_keeps o failed w :
  let w' := (checkpointStepOutcome host ctx wid o failed w).2 in
  log w' = log w /\ (held w' -> held w /\ forall y, y <> outcome_name o -> rv w' y = rv w y).
Proof.
  unfold checkpointStepOutcome.
  assert (forall i s tag, let w' := (let% st := checkpoint_rows host ctx wid i s tag failed in
      a_ret (mkCheckpointed o st)) w in
    log w'.2 = log w /\ (held w'.2 -> held w /\ forall y, y <> si_name i -> rv w'.2 y = rv w y)) as Hc.
  { intros i s tag. pose proof (bind_put_quiet (si_name i) (settled_result s)
      (checkpoint_rows host ctx wid i s tag failed) (fun st => a_ret (mkCheckpointed o st)) w
      (checkpoint_rows_puts i s tag failed w) (fun a => quietly_ret _)) as Hp.
    destruct (a_bind _ _ w) as [x w']. destruct Hp as [Hl Hp]. split; [done|]. intros Hh.
    destruct (Hp Hh) as (? & ? & _). done. }
  destruct o; cbn [outcome_name]; [apply Hc..| |]; by split.
Qed.
End world.
