(* ===== verification/WaveLoop.v ===== *)
(** The wave loop ends, and every ending has its cause.

    Each wave settles every step whose dependencies are stored. As long as a
    step is missing the step graph has a ready one, so a wave without a
    failure or an exit completes a step and a wave per step is enough. *)
From Stdlib Require Import QArith.
From S2P Require Import Prelude Leases Json Journal RunState Storage Exits Retry Replay Dag StepBody Checkpoint Waves WaveLaws.
Open Scope string_scope.
Open Scope list_scope.
Open Scope Z_scope.

Definition node_of {W} (d : StepDefinition W) : DagNode := mkNode (sd_name d) (sd_dependsOn d).

(** ** Steps of a wave *)
Section wave.
Context {W : Type} `{RunStore W} (host : RunnerHost W).
Variable rh_order : list (StepDefinition W) -> W -> list (StepDefinition W).
Context (ctx : DagExecutionContext W) (params : DagParams).

(** The run of step [d] on [results] settled as outcome [o]. *)
Definition settled_as (results : jmap string json) (d : StepDefinition W) (o : StepOutcome) : Prop :=
  exists s1 s2 status, runStep host ctx params results d s1 = (Ret (mkCheckpointed o status), s2).

Lemma checkpoint_outcome o failed w c w' :
  checkpointStepOutcome host ctx (dp_workflowId params) o failed w = (Ret c, w') -> ck_outcome c = o.
Proof.
  unfold checkpointStepOutcome. destruct o.
  1-2: by intros (st & w1 & _ & [= <- <-])%a_bind_Ret.
  all: by intros [= <- <-].
Qed.

Lemma skipped_name d input results n w o w' :
  skippedOutcome host d input results n w = (Ret (Some o), w') ->
  exists i r, o = StepDone i r true /\ si_name i = sd_name d.
Proof.
  unfold skippedOutcome. destruct (sd_skipWhen d); [|done].
  intros (b & w1 & _ & Hs)%a_bind_Ret. destruct b; [|done].
  apply a_bind_Ret in Hs as (v & w2 & _ & Hs). apply a_bind_Ret in Hs as (x & w3 & _ & Hs).
  apply a_bind_Ret in Hs as (t & w4 & _ & [= <- <-]). by do 2 eexists.
Qed.

Lemma body_outcome_name name body t w o w' :
  outcomeOfBody host name body t w = (Ret o, w') -> outcome_name o = name.
Proof.
  unfold outcomeOfBody. intros (now & w1 & _ & [= <- <-])%a_bind_Ret. by destruct body.
Qed.

Lemma runStep_name results d s c s' :
  runStep host ctx params results d s = (Ret c, s') -> outcome_name (ck_outcome c) = sd_name d.
Proof.
  unfold runStep. destruct s as [m w]. intros (sk & s1 & Hsk & Hr)%a_bind_Ret.
  apply on_world_Ret in Hsk as [Hsk _]. destruct sk as [o|].
  - apply on_world_Ret in Hr as [->%checkpoint_outcome _]. by apply skipped_name in Hsk as (i & r & -> & ?).
  - apply a_bind_Ret in Hr as (t & s2 & _ & Hr). apply a_bind_Ret in Hr as (b & s3 & _ & Hr).
    apply a_bind_Ret in Hr as (u & s4 & _ & Hr). apply a_bind_Ret in Hr as (o & s5 & Ho & Hr).
    apply on_world_Ret in Ho as [Ho _]. apply on_world_Ret in Hr as [->%checkpoint_outcome _].
    by eapply body_outcome_name.
Qed.

Lemma settle_all_spec results steps s m s' :
  settle_all host ctx params results steps s = (Ret m, s') ->
  (forall d, d ∈ steps -> exists r, m !! sd_name d = Some r) /\
  (forall n c, m !! n = Some (Ok c) -> exists d, d ∈ steps /\ sd_name d = n /\ settled_as results d (ck_outcome c)).
Proof.
  revert s m s'. induction steps as [|d steps IH]; intros s m s'; cbn [settle_all].
  { intros [= <- <-]. split; [by intros d ?%not_elem_of_nil|done]. }
  destruct (runStep host ctx params results d s) as [[c|e|] s1] eqn:Er; [| |done];
    intros (rest & s2 & Hrest & [= <- <-])%a_bind_Ret; destruct (IH _ _ _ Hrest) as [Hdom Hok]; split.
  1, 3: intros d' [->|Hd']%elem_of_cons; [by eexists; apply jlookup_insert_eq|];
    destruct (decide (sd_name d' = sd_name d)) as [->|Hn]; [by eexists; apply jlookup_insert_eq|];
    rewrite jlookup_insert_ne by done; by apply Hdom.
  all: intros n c'; destruct (decide (n = sd_name d)) as [->|Hn].
  - rewrite jlookup_insert_eq. intros [= <-]. exists d. split; [by left|]. split; [done|].
    exists s, s1, (ck_runStatus c). by destruct c.
  - rewrite jlookup_insert_ne by done. intros (d' & ? & ? & ?)%Hok. exists d'. split; [by right|done].
  - by rewrite jlookup_insert_eq.
  - rewrite jlookup_insert_ne by done. intros (d' & ? & ? & ?)%Hok. exists d'. split; [by right|done].
Qed.

Lemma fold_settled_spec l outs acc out :
  fold_settled l outs acc = Ok out ->
  exists cs, l = Ok <$> cs /\ wo_outcomes out = outs ++ (ck_outcome <$> cs).
Proof.
  revert outs acc. induction l as [|[c|e] l IH]; intros outs acc; cbn [fold_settled]; [| |done].
  - intros [= <-]. exists []. by rewrite app_nil_r.
  - intros (cs & -> & ->)%IH. exists (c :: cs). by rewrite <- app_assoc.
Qed.

Lemma omap_present {A B} (f : A -> option B) l :
  (forall x, x ∈ l -> exists y, f x = Some y) -> Forall2 (fun x y => f x = Some y) l (omap f l).
Proof.
  induction l as [|x l IH]; intros Hl; [constructor|]. cbn. destruct (Hl x) as [y Hy]; [left|]. rewrite Hy.
  constructor; [done|]. apply IH. intros z Hz. apply Hl. by right.
Qed.

(** Every step of a wave settles, in the order the wave reports. *)
Lemma settleWave_spec (Horder : forall l w, rh_order l w ≡ₚ l) results steps s out s' :
  NoDup (sd_name <$> steps) ->
  settleWave host rh_order ctx params results steps s = (Ret out, s') ->
  Forall2 (fun d o => outcome_name o = sd_name d /\ settled_as results d o) steps (wo_outcomes out).
Proof.
  intros Hnd (m & s1 & Hm & Hf)%a_bind_Ret. apply settle_all_spec in Hm as [Hdom Hok].
  unfold a_lift in Hf. destruct (fold_settled _ _ _) as [o|] eqn:Ef; [|done]. injection Hf as -> ->.
  apply fold_settled_spec in Ef as (cs & Hcs & ->). cbn [app].
  assert (Forall2 (fun d r => m !! sd_name d = Some r) steps (omap (fun d => m !! sd_name d) steps)) as H2.
  { apply omap_present. intros d Hd. apply Hdom. by rewrite Horder. }
  rewrite Hcs in H2. apply Forall2_fmap_r. apply Forall2_fmap_r in H2.
  apply Forall2_same_length_lookup_2; [by eapply Forall2_length|]. intros k d c Hd Hc.
  pose proof (Forall2_lookup_lr _ _ _ _ _ _ H2 Hd Hc) as Hk. cbn in Hk.
  destruct (Hok _ _ Hk) as (d' & Hd' & Hn & Hs).
  assert (d' = d) as ->; [|split; [|done]].
  2: { destruct Hs as (x & y & st & Hs%runStep_name). done. }
  rewrite Horder in Hd'. apply list_elem_of_lookup in Hd' as [j Hj].
  assert (j = k) as ->; [|congruence].
  eapply (NoDup_lookup (sd_name <$> steps)); [done|by rewrite list_lookup_fmap, Hj|].
  by rewrite list_lookup_fmap, Hd, Hn.
Qed.
End wave.

(** ** One pass of the loop *)
Section pass.
Context {W : Type} `{RunStore W} (host : RunnerHost W).
Variable rh_order : list (StepDefinition W) -> W -> list (StepDefinition W).
Context (ctx : DagExecutionContext W) (params : DagParams).

Lemma past_deadline_true w w' :
  past_deadline host params w = (Ret true, w') ->
  exists deadline, dp_deadlineMs params = Some deadline /\ deadline < (rh_now host w).1.
Proof.
  unfold past_deadline. destruct (dp_deadlineMs params) as [deadline|]; [|done].
  intros (now & w1 & Hn & Hr)%a_bind_Ret. injection Hr as Hlt <-. exists deadline. split; [done|].
  unfold currentTimeMs, a_sync in Hn. destruct (rh_now host w) as [t w2]. injection Hn as -> <-. cbn. lia.
Qed.

(** What the completed outcomes of a wave make of the variables. *)
Definition decoded_of (i : StepInfo) (r val : json) : Prop :=
  match steps_by_name ctx !! si_name i with
  | Some d => codec_decode (sd_codec d) r = Ok val
  | None => val = r
  end.

Definition fires (i : StepInfo) : option (string * json) :=
  pair (si_name i) <$> tripwire_reason (sd_kind <$> steps_by_name ctx !! si_name i) (si_metadata i).

Fixpoint folded (outs : list StepOutcome) (v v' : DagVars) : Prop :=
  match outs with
  | [] => v' = v
  | StepDone i r _ :: outs =>
      exists val, decoded_of i r val /\
        folded outs (mkDagVars (<[si_name i := val]> (dv_results v))
                       (markCompleted (dp_nodes params) (dv_tracker v) (si_name i))
                       (opt_else (dv_tripwire v) (fires i))) v'
  | _ :: outs => folded outs v v'
  end.

Lemma fold_outcomes_folded outs v w v' w' :
  fold_outcomes ctx params outs v w = (Ret v', w') -> folded outs v v'.
Proof.
  revert v w. induction outs as [|o outs IH]; intros v w; cbn [fold_outcomes folded]; [by intros [= <- _]|].
  intros (v1 & w1 & Ho & Hr)%a_bind_Ret. destruct o as [i r sk|i e|n e|n e]; cbn [fold_outcome] in Ho;
    try (injection Ho as <- <-; by eapply IH).
  apply a_bind_Ret in Ho as (val & w2 & Hval & Ho). apply a_bind_Ret in Ho as (u & w3 & _ & Ho).
  injection Ho as <- <-. exists val. split.
  - unfold decoded_of. destruct (steps_by_name ctx !! si_name i) as [d|]; [|by injection Hval].
    unfold a_lift in Hval. destruct (codec_decode _ _); [|done]. by injection Hval as -> ->.
  - replace (opt_else (dv_tripwire v) (fires i)) with
      (match dv_tripwire v with Some f => Some f | None => fires i end); [by eapply IH|].
    by destruct (dv_tripwire v).
Qed.

(** What a settled wave makes of the run. *)
Inductive verdict (outs : list StepOutcome) (v : DagVars) : DagExecutionResult + DagVars -> Prop :=
| verdict_failed i e : StepBroke i e ∈ outs -> verdict outs v (inl (DagFailure e false false))
| verdict_continued n e : StepContinued n e ∈ outs -> verdict outs v (inl (DagFailure e false true))
| verdict_suspended n e : StepSuspended n e ∈ outs -> verdict outs v (inl (DagFailure e true false))
| verdict_tripped n reason : dv_tripwire v = Some (n, reason) -> verdict outs v (inl (DagTripwire n reason))
| verdict_late deadline w : dp_deadlineMs params = Some deadline -> deadline < (rh_now host w).1 ->
    verdict outs v (inl (DagFailure (WorkflowDeadlineError host ctx params) false false))
| verdict_next : (forall o, o ∈ outs -> exists i r sk, o = StepDone i r sk) -> verdict outs v (inr v).

Lemma report_failures_spec outs w f w' :
  report_failures host ctx params outs w = (Ret f, w') ->
  match f with
  | Some e => exists i, StepBroke i e ∈ outs
  | None => forall i e, StepBroke i e ∉ outs
  end.
Proof.
  revert w f w'. induction outs as [|o outs IH]; intros w f w'; cbn [report_failures].
  { intros [= <- _]. by intros i e ?%not_elem_of_nil. }
  destruct o as [i r sk|i e|n e|n e].
  2: { intros (u & w1 & _ & Hr)%a_bind_Ret. apply a_bind_Ret in Hr as (f' & w2 & _ & [= <- _]).
       exists i. left. }
  all: intros Hf%IH; destruct f; [destruct Hf as [i' Hi']; exists i'; by right|];
    intros i' e' [?|Hin]%elem_of_cons; [done|by eapply Hf].
Qed.

Lemma head_omap {A B} (f : A -> option B) l :
  match head (omap f l) with
  | Some b => exists a, a ∈ l /\ f a = Some b
  | None => forall a, a ∈ l -> f a = None
  end.
Proof.
  induction l as [|x l IH]; cbn; [by intros a ?%not_elem_of_nil|].
  destruct (f x) as [b|] eqn:Ex; cbn; [exists x; split; [left|done]|].
  destruct (head (omap f l)) as [b|]; [destruct IH as (a & ? & ?); exists a; split; [by right|done]|].
  intros a [->|Ha]%elem_of_cons; [done|by apply IH].
Qed.

Lemma after_wave_verdict outs v w r w' :
  after_wave host ctx params outs v w = (Ret r, w') -> exists v', folded outs v v' /\ verdict outs v' r.
Proof.
  intros (v' & w1 & Hv%fold_outcomes_folded & Hr)%a_bind_Ret. exists v'. split; [done|].
  apply a_bind_Ret in Hr as (f & w2 & Hf%report_failures_spec & Hr).
  pose proof (head_omap (fun o => match o with StepContinued _ e => Some e | _ => None end) outs) as Hc.
  fold (find_continued outs) in Hc.
  pose proof (head_omap (fun o => match o with StepSuspended _ e => Some e | _ => None end) outs) as Hs.
  fold (find_suspended outs) in Hs.
  destruct f as [e|]; [injection Hr as <- _; destruct Hf as [i Hi]; by eapply verdict_failed|].
  destruct (find_continued outs) as [e|].
  { injection Hr as <- _. destruct Hc as (o & Ho & He). destruct o; try done. injection He as ->.
    by eapply verdict_continued. }
  destruct (find_suspended outs) as [e|].
  { injection Hr as <- _. destruct Hs as (o & Ho & He). destruct o; try done. injection He as ->.
    by eapply verdict_suspended. }
  destruct (dv_tripwire v') as [[n reason]|] eqn:Et; [injection Hr as <- _; by apply verdict_tripped|].
  apply a_bind_Ret in Hr as (late & w3 & Hl & Hr). destruct (late && _) eqn:Eb.
  - injection Hr as <- _. apply andb_true_iff in Eb as [-> _].
    apply past_deadline_true in Hl as (deadline & ? & ?). by eapply verdict_late.
  - injection Hr as <- _. apply verdict_next. intros o Ho.
    specialize (Hc o Ho). specialize (Hs o Ho). destruct o as [i r sk|i e| |]; [by do 3 eexists| |done..].
    by destruct (Hf i e).
Qed.

(** The check and the deadline before a wave. *)
Definition opening (wave : nat) (observed : option (option WorkflowStatusSnapshot)) : async W bool :=
  do% if (wave =? 0)%nat then a_ret tt
      else assertRunActive host (dp_workflowId params) (dc_signal ctx) observed in
  past_deadline host params.

Definition ready_steps (v : DagVars) : list (StepDefinition W) :=
  omap (fun n => steps_by_name ctx !! n) (ready (dp_nodes params) (dv_tracker v)).

Inductive pass (wave : nat) (observed : option (option WorkflowStatusSnapshot)) (v : DagVars) (s : WaveState) :
    DagExecutionResult + (DagVars * option (option WorkflowStatusSnapshot)) -> WaveState (W := W) -> Prop :=
| pass_late deadline w s' : opening wave observed s.2 = (Ret true, s'.2) ->
    dp_deadlineMs params = Some deadline -> deadline < (rh_now host w).1 ->
    pass wave observed v s (inl (DagFailure (WorkflowDeadlineError host ctx params) false false)) s'
| pass_stuck s' : opening wave observed s.2 = (Ret false, s'.2) -> ready (dp_nodes params) (dv_tracker v) = [] ->
    pass wave observed v s (inl (DagFailure (Deadlock host params) false false)) s'
| pass_wave s1 w2 s2 out r s' :
    opening wave observed s.2 = (Ret false, s1.2) -> s1.1 = s.1 ->
    notifyStepsStarted (dp_workflowId params) (ready_steps v) s1.2 = (Ret tt, w2) ->
    settleWave host rh_order ctx params (dv_results v) (ready_steps v) (s1.1, w2) = (Ret out, s2) ->
    after_wave host ctx params (wo_outcomes out) (mkDagVars (dv_results v) (dv_tracker v) None) s2.2 = (Ret r, s'.2) ->
    pass wave observed v s (match r with inl r => inl r | inr v => inr (v, wo_runStatus out) end) s'.

Lemma run_wave_pass wave observed v s r s' :
  run_wave host rh_order ctx params wave observed v s = (Ret r, s') -> pass wave observed v s r s'.
Proof.
  unfold run_wave. intros (u & s1 & Ha & Hr)%a_bind_Ret. apply a_bind_Ret in Hr as (late & s2 & Hl & Hr).
  apply on_world_Ret in Hl as [Hl El].
  assert (s1.1 = s.1 /\ opening wave observed s.2 = (Ret late, s2.2)) as [E1 Ho].
  { unfold opening, a_bind. destruct (wave =? 0)%nat.
    - injection Ha as _ <-. by split.
    - apply on_world_Ret in Ha as [Ha ?]. by rewrite Ha. }
  destruct late.
  - injection Hr as <- <-. apply past_deadline_true in Hl as (deadline & ? & ?). by eapply pass_late.
  - fold (ready_steps v) in Hr. destruct (ready (dp_nodes params) (dv_tracker v)) as [|n ns] eqn:En.
    + injection Hr as <- <-. by apply pass_stuck.
    + apply a_bind_Ret in Hr as ([] & s3 & Hn & Hr). apply on_world_Ret in Hn as [Hn E3].
      apply a_bind_Ret in Hr as (out & s4 & Hs & Hr). apply a_bind_Ret in Hr as (x & s5 & Hx & Hr).
      apply on_world_Ret in Hx as [Hx _].
      assert (s5 = s') as -> by (destruct x; by injection Hr).
      assert (r = match x with inl r => inl r | inr v => inr (v, wo_runStatus out) end) as ->
        by (destruct x; by injection Hr).
      destruct s3 as [m3 w3]. cbn in E3, Hn. rewrite E3 in Hs.
      eapply pass_wave; [exact Ho|congruence|exact Hn|exact Hs|exact Hx].
Qed.
End pass.

(** ** The loop *)
Section loop.
Context {W : Type} `{RunStore W} (host : RunnerHost W).
Variable rh_order : list (StepDefinition W) -> W -> list (StepDefinition W).
Context (ctx : DagExecutionContext W) (params : DagParams).

(** The nodes are those of the steps: each name once, no cycle. *)
Record graph_ok : Prop := {
  go_names : NoDup (sd_name <$> dc_steps ctx);
  go_nodes : dp_nodes params = node_of <$> dc_steps ctx;
  go_sorted : exists l, topologicalSort (dp_nodes params) = Some (Ok l);
}.

Hypothesis Hgraph : graph_ok.
Hypothesis Horder : forall l w, rh_order l w ≡ₚ l.

Lemma node_names : dn_name <$> dp_nodes params = sd_name <$> dc_steps ctx.
Proof using Hgraph. rewrite (go_nodes Hgraph), <- list_fmap_compose. done. Qed.

Lemma nodes_nodup : NoDup (dn_name <$> dp_nodes params).
Proof using Hgraph. rewrite node_names. apply (go_names Hgraph). Qed.

Lemma steps_by_name_spec n d : steps_by_name ctx !! n = Some d <-> d ∈ dc_steps ctx /\ sd_name d = n.
Proof using Hgraph.
  unfold steps_by_name. generalize (go_names Hgraph). generalize (dc_steps ctx). intros l.
  induction l as [|x l IH] using rev_ind; intros Hnd.
  { split; [done|]. by intros [?%not_elem_of_nil _]. }
  rewrite foldl_app. cbn [foldl]. rewrite fmap_app in Hnd. apply NoDup_app in Hnd as (Hnd & Hx & _).
  rewrite elem_of_app, list_elem_of_singleton. destruct (decide (n = sd_name x)) as [->|Hn].
  - rewrite jlookup_insert_eq. split; [intros [= ->]; auto|]. intros [[Hd| ->] Hdn]; [|done].
    destruct (Hx (sd_name x)); [rewrite <- Hdn; by apply list_elem_of_fmap_2|by apply list_elem_of_singleton].
  - rewrite jlookup_insert_ne by done. rewrite IH by done. split; [tauto|].
    by intros [[?| ->] ?].
Qed.

Lemma steps_by_name_names n : n ∈ (sd_name <$> dc_steps ctx) -> exists d, steps_by_name ctx !! n = Some d.
Proof using Hgraph. intros (d & -> & Hd)%list_elem_of_fmap. exists d. by apply steps_by_name_spec. Qed.

(** A step of the run settled as [o] in some wave. *)
Definition settled (o : StepOutcome) : Prop :=
  exists results d, d ∈ dc_steps ctx /\ outcome_name o = sd_name d /\ settled_as host ctx params results d o.

(** Where a result of the loop comes from. *)
Definition explained (name : string) (val : json) : Prop :=
  (exists results, state_results ctx params = Ok results /\ results !! name = Some val) \/
  (exists i r sk, settled (StepDone i r sk) /\ si_name i = name /\ decoded_of ctx i r val).

Record progress (marked : list string) (v : DagVars) : Prop := {
  pg_tracker : tracker_ok (dp_nodes params) marked (dv_tracker v);
  pg_dom : forall x, x ∈ marked <-> exists val, dv_results v !! x = Some val;
  pg_explained : forall x val, dv_results v !! x = Some val -> explained x val;
  pg_tripwire : forall n reason, dv_tripwire v = Some (n, reason) ->
    exists i r sk, settled (StepDone i r sk) /\ si_name i = n /\ fires ctx i = Some (n, reason);
}.

Definition done_names (outs : list StepOutcome) : list string :=
  omap (fun o => match o with StepDone i _ _ => Some (si_name i) | _ => None end) outs.

Lemma settled_name o : settled o -> outcome_name o ∈ (dn_name <$> dp_nodes params).
Proof using Hgraph.
  intros (results & d & Hd & -> & _). rewrite node_names. by apply list_elem_of_fmap_2.
Qed.

Lemma elem_of_add_mark m x y : x ∈ (dn_name <$> dp_nodes params) ->
  y ∈ add_mark (dp_nodes params) m x <-> y = x \/ y ∈ m.
Proof.
  intros Hx. unfold add_mark. rewrite bool_decide_true by done. case_bool_decide; cbn.
  - split; [by right|]. by intros [->|?].
  - rewrite elem_of_app, list_elem_of_singleton. tauto.
Qed.

Lemma folded_progress outs marked v v' :
  progress marked v -> (forall o, o ∈ outs -> settled o) -> folded ctx params outs v v' ->
  progress (foldl (add_mark (dp_nodes params)) marked (done_names outs)) v'.
Proof using Hgraph.
  revert marked v. induction outs as [|o outs IH]; intros marked v Hpg Hs; cbn [folded]; [by intros ->|].
  assert (forall o, o ∈ outs -> settled o) as Hs' by (intros o' Ho'; apply Hs; by right).
  pose proof (Hs o ltac:(left)) as Ho. pose proof (settled_name _ Ho) as Hin.
  destruct o as [i r sk|i e|n e|n e]; try by apply IH. intros (val & Hval & Hf). cbn in Hin.
  change (done_names (StepDone i r sk :: outs)) with (si_name i :: done_names outs). cbn [foldl].
  eapply IH; [|exact Hs'|exact Hf]. destruct Hpg as [Ht Hd He Htr]. split; cbn [dv_tracker dv_results dv_tripwire].
  - apply tracker_ok_mark; [apply nodes_nodup|done].
  - intros x. rewrite elem_of_add_mark by done. destruct (decide (x = si_name i)) as [->|Hx].
    + rewrite jlookup_insert_eq. split; [by eexists|by left].
    + rewrite jlookup_insert_ne by done. rewrite <- Hd. tauto.
  - intros x w. destruct (decide (x = si_name i)) as [->|Hx].
    + rewrite jlookup_insert_eq. intros [= <-]. right. by exists i, r, sk.
    + rewrite jlookup_insert_ne by done. apply He.
  - intros n reason. destruct (dv_tripwire v) as [t|]; cbn [opt_else]; [apply Htr|].
    intros Hfire. exists i, r, sk. split; [done|]. split; [|done].
    unfold fires in Hfire. destruct (tripwire_reason _ _); cbn in Hfire; congruence.
Qed.

(** Some step is ready as long as one is missing. *)
Lemma first_outside (l m : list string) : ~ l ⊆ m -> exists l1 x l2, l = l1 ++ x :: l2 /\ l1 ⊆ m /\ x ∉ m.
Proof.
  induction l as [|x l IH]; intros Hl; [destruct Hl; by intros ? ?%not_elem_of_nil|].
  destruct (decide (x ∈ m)) as [Hx|Hx].
  - destruct IH as (l1 & y & l2 & -> & H1 & Hy).
    { intros Hs. apply Hl. by intros y [->|?%Hs]%elem_of_cons. }
    exists (x :: l1), y, l2. split; [done|]. split; [|done]. by intros z [->|?%H1]%elem_of_cons.
  - exists [], x, l. split; [done|]. split; [by intros ? ?%not_elem_of_nil|done].
Qed.

Lemma never_stuck marked v :
  progress marked v -> completedCount (dv_tracker v) < step_count ctx ->
  exists x, x ∈ ready (dp_nodes params) (dv_tracker v).
Proof using Hgraph.
  intros [Ht _ _ _] Hlt. rewrite (tracker_ready _ _ _ Ht). rewrite (tko_count _ _ _ Ht) in Hlt.
  destruct (go_sorted Hgraph) as [l Hl]. destruct (topologicalSort_sorted _ _ nodes_nodup Hl) as [Hp Ho].
  destruct (first_outside l marked) as (l1 & x & l2 & -> & H1 & Hx).
  { intros Hsub. unfold step_count in Hlt.
    assert (length l <= length marked)%nat as Hle.
    { apply submseteq_length, NoDup_submseteq; [|done]. rewrite Hp. apply nodes_nodup. }
    rewrite Hp, length_fmap, (go_nodes Hgraph), length_fmap in Hle. lia. }
  assert (x ∈ (dn_name <$> dp_nodes params)) as (n & Hn & Hin)%list_elem_of_fmap.
  { rewrite <- Hp. apply elem_of_app. right. left. }
  exists x. apply elem_of_ready_set. exists n. split; [done|]. split; [done|]. split; [done|].
  intros d Hd. apply H1. by eapply (Ho l1 x l2 eq_refl n).
Qed.

Lemma add_marks_grow marked ns :
  marked `prefix_of` foldl (add_mark (dp_nodes params)) marked ns.
Proof.
  revert marked. induction ns as [|n ns IH]; intros marked; cbn [foldl]; [done|].
  etrans; [|apply IH]. unfold add_mark. destruct (_ && _); [by eexists|done].
Qed.

Lemma add_marks_in marked ns x :
  x ∈ (dn_name <$> dp_nodes params) -> x ∈ ns -> x ∈ foldl (add_mark (dp_nodes params)) marked ns.
Proof.
  intros Hx. revert marked. induction ns as [|n ns IH]; intros marked Hin; [by apply not_elem_of_nil in Hin|].
  cbn [foldl]. apply elem_of_cons in Hin as [<-|Hin]; [|by apply IH].
  destruct (add_marks_grow (add_mark (dp_nodes params) marked x) ns) as [k ->].
  apply elem_of_app. left. rewrite elem_of_add_mark by done. by left.
Qed.

Lemma ready_nodup marked v : progress marked v -> NoDup (ready (dp_nodes params) (dv_tracker v)).
Proof using Hgraph.
  intros [Ht _ _ _]. rewrite (tracker_ready _ _ _ Ht). eapply sublist_NoDup; [apply nodes_nodup|].
  unfold computeReadySet. apply fmap_sublist, sublist_filter.
Qed.

Lemma ready_unmarked marked v x :
  progress marked v -> x ∈ ready (dp_nodes params) (dv_tracker v) ->
  x ∈ (sd_name <$> dc_steps ctx) /\ (x ∉ marked) /\
  forall d, steps_by_name ctx !! x = Some d -> forall dep, dep ∈ sd_dependsOn d -> dep ∈ marked.
Proof using Hgraph.
  intros [Ht _ _ _]. rewrite (tracker_ready _ _ _ Ht). intros (n & Hn & <- & Hu & Hd)%elem_of_ready_set.
  split; [rewrite <- node_names; by apply list_elem_of_fmap_2|]. split; [done|].
  intros d [Hin Hname]%steps_by_name_spec dep Hdep. apply Hd.
  rewrite (go_nodes Hgraph) in Hn. apply list_elem_of_fmap in Hn as (d' & -> & Hin'). cbn in Hname.
  assert (d' = d) as ->; [|done].
  apply list_elem_of_lookup in Hin as [j Hj]. apply list_elem_of_lookup in Hin' as [k Hk].
  assert (j = k) as ->; [|congruence]. eapply NoDup_lookup; [apply (go_names Hgraph)| |].
  - rewrite list_lookup_fmap, Hj. done.
  - rewrite list_lookup_fmap, Hk. cbn. by rewrite Hname.
Qed.

Lemma ready_steps_names marked v :
  progress marked v -> sd_name <$> ready_steps ctx params v = ready (dp_nodes params) (dv_tracker v).
Proof using Hgraph.
  intros Hpg. unfold ready_steps.
  assert (forall x, x ∈ ready (dp_nodes params) (dv_tracker v) -> exists d, steps_by_name ctx !! x = Some d) as Hall.
  { intros x Hx. apply steps_by_name_names. by destruct (ready_unmarked marked v x Hpg Hx). }
  apply omap_present in Hall.
  induction Hall as [|n d ns ds Hd _ IH]; [done|]. cbn. rewrite IH. by apply steps_by_name_spec in Hd as [_ ->].
Qed.

Lemma ready_steps_in v d : d ∈ ready_steps ctx params v -> d ∈ dc_steps ctx.
Proof using Hgraph. intros (n & _ & Hd)%list_elem_of_omap. by apply steps_by_name_spec in Hd as [? _]. Qed.

(** The outcomes of a wave are those of its steps. *)
Lemma wave_outcomes marked v s out s' :
  progress marked v ->
  settleWave host rh_order ctx params (dv_results v) (ready_steps ctx params v) s = (Ret out, s') ->
  (forall o, o ∈ wo_outcomes out -> settled o) /\
  outcome_name <$> wo_outcomes out = ready (dp_nodes params) (dv_tracker v).
Proof using Hgraph Horder.
  intros Hpg Hs. apply settleWave_spec in Hs; [|done|].
  2: { rewrite (ready_steps_names marked) by done. by eapply ready_nodup. }
  rewrite <- (ready_steps_names marked v Hpg). split.
  - intros o Ho. apply list_elem_of_lookup in Ho as [k Hk].
    destruct (Forall2_lookup_r _ _ _ _ _ Hs Hk) as (d & Hd & Hn & Hset).
    exists (dv_results v), d. split; [|done]. by eapply ready_steps_in, list_elem_of_lookup_2.
  - induction Hs as [|d o ds os [Hn _] _ IH]; cbn; congruence.
Qed.

Lemma done_names_all outs :
  (forall o, o ∈ outs -> exists i r sk, o = StepDone i r sk) -> done_names outs = outcome_name <$> outs.
Proof.
  induction outs as [|o outs IH]; intros Hall; [done|]. destruct (Hall o ltac:(left)) as (i & r & sk & ->).
  change (done_names (StepDone i r sk :: outs)) with (si_name i :: done_names outs). cbn [fmap list_fmap].
  f_equal. apply IH. intros o Ho. apply Hall. by right.
Qed.

(** *** Endings *)
Definition accounted (x : DagExecutionResult) : Prop :=
  match x with
  | DagSuccess v =>
      exists results last_step, last (dc_steps ctx) = Some last_step /\
        v = result_of results (sd_name last_step) /\
        forall d, d ∈ dc_steps ctx -> exists val, results !! sd_name d = Some val /\ explained (sd_name d) val
  | DagFailure e false false =>
      (exists i, settled (StepBroke i e)) \/
      (e = WorkflowDeadlineError host ctx params /\
       exists deadline w, dp_deadlineMs params = Some deadline /\ deadline < (rh_now host w).1)
  | DagFailure e false true => exists n, settled (StepContinued n e)
  | DagFailure e true false => exists n, settled (StepSuspended n e)
  | DagFailure _ true true => False
  | DagTripwire n reason =>
      exists i r sk d, settled (StepDone i r sk) /\ si_name i = n /\ d ∈ dc_steps ctx /\ sd_name d = n /\
        sd_kind d = KTripwire /\ tripwire_reason (Some KTripwire) (si_metadata i) = Some reason
  end.

Lemma fires_tripwire i n reason : fires ctx i = Some (n, reason) ->
  n = si_name i /\ exists d, d ∈ dc_steps ctx /\ sd_name d = n /\ sd_kind d = KTripwire /\
    tripwire_reason (Some KTripwire) (si_metadata i) = Some reason.
Proof using Hgraph.
  unfold fires. destruct (steps_by_name ctx !! si_name i) as [d|] eqn:Hd; [|done].
  apply steps_by_name_spec in Hd as [Hin Hn]. cbn [fmap option_fmap option_map].
  destruct (tripwire_reason _ _) as [x|] eqn:Ht; [|done]. intros [= <- ->]. split; [done|]. exists d.
  split; [done|]. split; [done|]. cbn in Ht. destruct (sd_kind d); try done.
Qed.

Lemma verdict_accounted outs v x marked :
  progress marked v -> (forall o, o ∈ outs -> settled o) -> verdict host ctx params outs v (inl x) -> accounted x.
Proof using Hgraph.
  intros Hpg Hs Hv. inversion Hv; subst; cbn [accounted].
  - left. eexists. by apply Hs.
  - eexists. by apply Hs.
  - eexists. by apply Hs.
  - match goal with E : dv_tripwire v = _ |- _ => destruct (pg_tripwire _ _ Hpg _ _ E) as (i & r & sk & Hd & Hn & Hf) end.
    apply fires_tripwire in Hf as [Hn' (d & ? & ? & ? & ?)]. by exists i, r, sk, d.
  - right. split; [done|]. by do 2 eexists.
Qed.

Lemma pass_progress marked v wave observed s r s' :
  progress marked v -> completedCount (dv_tracker v) < step_count ctx ->
  pass host rh_order ctx params wave observed v s r s' ->
  match r with
  | inl x => accounted x
  | inr (v', _) => exists marked', progress marked' v' /\ (length marked < length marked')%nat
  end.
Proof using Hgraph Horder.
  intros Hpg Hlt Hp. destruct (never_stuck _ _ Hpg Hlt) as [x Hx]. destruct Hp.
  - right. split; [done|]. by do 2 eexists.
  - match goal with E : ready _ _ = [] |- _ => rewrite E in Hx; by apply not_elem_of_nil in Hx end.
  - match goal with E : settleWave _ _ _ _ _ _ _ = _ |- _ => destruct (wave_outcomes _ _ _ _ _ Hpg E) as [Hs Hn] end.
    match goal with E : after_wave _ _ _ _ _ _ = _ |- _ => destruct (after_wave_verdict _ _ _ _ _ _ _ _ E) as (v1 & Hf & Hv) end.
    assert (progress marked (mkDagVars (dv_results v) (dv_tracker v) None)) as Hpg0 by (by destruct Hpg).
    pose proof (folded_progress _ _ _ _ Hpg0 Hs Hf) as Hpg1.
    destruct r as [y|v2]; [by eapply verdict_accounted|]. inversion Hv; subst v2.
    eexists. split; [exact Hpg1|].
    destruct (ready_unmarked _ _ _ Hpg Hx) as (Hin & Hout & _). rewrite <- node_names in Hin.
    rewrite (done_names_all (wo_outcomes out)), Hn by done.
    pose proof (add_marks_grow marked (ready (dp_nodes params) (dv_tracker v))) as Hgrow.
    pose proof (prefix_length _ _ Hgrow) as Hle.
    pose proof (add_marks_in marked _ x Hin Hx) as Hxin.
    apply Nat.nle_gt. intros Hge. rewrite <- (prefix_length_eq _ _ Hgrow Hge) in Hxin. done.
Qed.

Lemma all_marked marked v d :
  progress marked v -> step_count ctx <= completedCount (dv_tracker v) -> d ∈ dc_steps ctx -> sd_name d ∈ marked.
Proof using Hgraph.
  intros [Ht _ _ _] Hge Hd. rewrite (tko_count _ _ _ Ht) in Hge.
  assert (marked ≡ₚ (dn_name <$> dp_nodes params)) as ->.
  { apply submseteq_length_Permutation.
    - apply NoDup_submseteq; [apply (tko_marked _ _ _ Ht)|apply (tko_names _ _ _ Ht)].
    - rewrite node_names, length_fmap. unfold step_count in Hge. lia. }
  rewrite node_names. by apply list_elem_of_fmap_2.
Qed.

Lemma final_accounted marked v s r s' :
  progress marked v -> step_count ctx <= completedCount (dv_tracker v) ->
  final_result ctx v s = (Ret r, s') -> accounted r.
Proof using Hgraph.
  intros Hpg Hge. unfold final_result. destruct (last (dc_steps ctx)) as [d|] eqn:Hlast; [|done].
  intros [= <- _]. exists (dv_results v), d. split; [done|]. split; [done|]. intros d' Hd'.
  pose proof (all_marked _ _ _ Hpg Hge Hd') as [val Hval]%(pg_dom _ _ Hpg). exists val. split; [done|].
  by apply (pg_explained _ _ Hpg).
Qed.

Lemma wave_loop_accounted fuel wave observed v marked s r s' :
  progress marked v -> (length (dc_steps ctx) - length marked <= fuel)%nat ->
  wave_loop host rh_order ctx fuel params wave observed v s = (Ret r, s') ->
  exists x, r = Some x /\ accounted x.
Proof using Hgraph Horder.
  revert wave observed v marked s. induction fuel as [|fuel IH]; intros wave observed v marked s Hpg Hfuel;
    cbn [wave_loop]; pose proof (tko_count _ _ _ (pg_tracker _ _ Hpg)) as Hcount.
  all: destruct (Z.ltb_spec (completedCount (dv_tracker v)) (step_count ctx)) as [Hlt|Hge].
  2, 4: intros (x & s1 & Hx & [= <- _])%a_bind_Ret; exists x; split; [done|]; by eapply final_accounted.
  - unfold step_count in Hlt. lia.
  - intros (x & s1 & Hx%run_wave_pass & Hr)%a_bind_Ret. apply (pass_progress marked) in Hx; [|done..].
    destruct x as [x|[v' obs]]; [injection Hr as <- _; by exists x|].
    destruct Hx as (marked' & Hpg' & Hlen). eapply IH; [exact Hpg'|lia|exact Hr].
Qed.

Lemma load_results_names rows results results' :
  load_results ctx rows results = Ok results' -> (forall x, x ∈ jm_keys results -> x ∈ (sd_name <$> dc_steps ctx)) ->
  forall x, x ∈ jm_keys results' -> x ∈ (sd_name <$> dc_steps ctx).
Proof using Hgraph.
  revert results. induction rows as [|[n row] rows IH]; intros results; cbn [load_results]; [by intros [= <-]|].
  destruct (row_completed row); [|by apply IH].
  destruct (steps_by_name ctx !! n) as [d|] eqn:Hd; [|by apply IH].
  destruct (codec_decode _ _) as [v|]; [|done]. intros Hl Hk. eapply IH; [exact Hl|].
  intros x. rewrite jm_keys_insert. apply steps_by_name_spec in Hd as [Hin <-].
  case_decide; [apply Hk|]. rewrite elem_of_app, list_elem_of_singleton. intros [?| ->]; [by apply Hk|].
  by apply list_elem_of_fmap_2.
Qed.

Lemma initial_progress results :
  state_results ctx params = Ok results ->
  exists marked, progress marked
    (mkDagVars results (createReadyTracker (dp_nodes params) (jm_keys results)) None).
Proof using Hgraph.
  intros Hr. eexists. split; cbn [dv_tracker dv_results dv_tripwire].
  - apply tracker_ok_all, nodes_nodup.
  - intros x. rewrite elem_of_marks, node_names. split.
    + intros [Hx _]. destruct (results !! x) eqn:E; [by eexists|]. by apply jlookup_None in E.
    + intros [val Hval%jlookup_key]. split; [done|]. unfold state_results in Hr.
      destruct (dp_state params) as [st|].
      * eapply load_results_names; [exact Hr| |exact Hval]. by intros y Hy%not_elem_of_nil.
      * injection Hr as <-. by apply not_elem_of_nil in Hval.
  - intros x val Hval. left. by exists results.
  - done.
Qed.
End loop.

(** A run that returns went through the loop, from the results of the state. *)
Lemma dag_through_loop {W} `{RunStore W} host rh_order (ctx : DagExecutionContext W) params s r s' :
  graph_ok ctx params -> executeWorkflowDag host rh_order ctx params s = (Ret r, s') ->
  exists v marked s1, progress host ctx params marked v /\
    wave_loop host rh_order ctx (length (dc_steps ctx)) params 0 None v s1 = (Ret r, s').
Proof.
  intros Hg (results & s1 & Hres & Hl)%a_bind_Ret. unfold a_lift in Hres.
  destruct (state_results ctx params) as [res|] eqn:Er; [|done]. injection Hres as -> ->.
  destruct (initial_progress host ctx params Hg results Er) as [marked Hpg]. by do 3 eexists.
Qed.

(** C7. A run of the DAG that returns has a result, and the result has its
    cause: a run succeeds once every step has a result, each the stored one
    or the decoded outcome of a run of the step; it fails with the error of
    a failed step or because the deadline passed, suspends and continues
    as new because a step asked for it, and is tripped by a tripwire step.
    It never reports a deadlock, and a wave per step is enough. *)
Theorem executeWorkflowDag_ends {W} `{RunStore W} host rh_order (ctx : DagExecutionContext W) params s r s' :
  graph_ok ctx params -> (forall l w, rh_order l w ≡ₚ l) ->
  executeWorkflowDag host rh_order ctx params s = (Ret r, s') ->
  exists x, r = Some x /\ accounted host ctx params x.
Proof.
  intros Hg Ho (v & marked & s1 & Hpg & Hl)%dag_through_loop; [|done].
  eapply wave_loop_accounted; [done|done|exact Hpg| |exact Hl]. lia.
Qed.
