(* ===== verification/WaveResults.v ===== *)
(** What a run of the DAG leaves in the storage.

    Against a world that keeps the contract of [WaveLaws], a driver that
    still holds the lock at the end ran no step twice, gave every body the
    stored results of all its dependencies, and never lost a result. *)
From Stdlib Require Import QArith.
From S2P Require Import Prelude Leases Json Journal RunState Storage Exits Retry Replay Dag StepBody Checkpoint Waves WaveLaws WaveLoop.
Open Scope string_scope.
Open Scope list_scope.
Open Scope Z_scope.

Section results.
Context {W : Type} `{RW : RunWorld W host ctx wid}.
Variable params : DagParams.
Hypothesis Hid : dp_workflowId params = wid.
#[local] Abbreviation quietly := (quietly held rv log).

(** ** The effect of a wave's steps *)
Definition invokes (D : list (StepDefinition W)) (results : jmap string json) (e : string * ExecuteParams) : Prop :=
  exists d n, d ∈ D /\ e = (sd_name d, execute_params ctx params results d n).

(** Bodies of [D] were invoked on [results]; results of [N] may have
    changed. *)
Definition effect (D : list (StepDefinition W)) (N : list string) (results : jmap string json) (w w' : W) : Prop :=
  exists L, log w' = log w ++ L /\ Forall (invokes D results) L /\
    (held w' -> held w /\ forall y, (y ∉ N) -> rv w' y = rv w y).

#[local] Instance effect_preorder D N results : PreOrder (effect D N results).
Proof.
  split.
  - intros w. exists []. rewrite app_nil_r. by split_and!.
  - intros w1 w2 w3 (L1 & E1 & F1 & H1) (L2 & E2 & F2 & H2). exists (L1 ++ L2).
    split; [by rewrite E2, E1, app_assoc|]. split; [by apply Forall_app|].
    intros [Hh R2]%H2. destruct (H1 Hh) as [Hh' R1]. split; [done|]. intros y Hy. by rewrite R2, R1.
Qed.

Lemma effect_mono D D' N N' results w w' :
  D ⊆ D' -> N ⊆ N' -> effect D N results w w' -> effect D' N' results w w'.
Proof.
  intros HD HN (L & E & F & Hk). exists L. split; [done|]. split.
  - eapply Forall_impl; [exact F|]. intros e (d & n & Hd & ->). exists d, n. split; [by apply HD|done].
  - intros [Hh Hr]%Hk. split; [done|]. intros y Hy. apply Hr. intros ?%HN. done.
Qed.

Lemma quiet_effect D N results w w' : quiet held rv log w w' -> effect D N results w w'.
Proof.
  intros [E Hk]. exists []. rewrite app_nil_r. split; [done|]. split; [constructor|].
  intros [Hh Hr]%Hk. split; [done|]. intros y _. apply Hr.
Qed.

(** Code whose effect it is, whatever its outcome. *)
Definition effects {A} D N results (m : async (WaveState (W := W)) A) : Prop :=
  forall s, effect D N results s.2 (m s).2.2.

Lemma effects_bind {A B} D N results (m : async _ A) (k : A -> async _ B) :
  effects D N results m -> (forall a, effects D N results (k a)) -> effects D N results (a_bind m k).
Proof.
  intros Hm Hk s. specialize (Hm s). unfold a_bind. destruct (m s) as [[a|e|] s1]; [|done..].
  etrans; [exact Hm|]. apply Hk.
Qed.

Lemma effects_on_world {A} D N results (m : async W A) :
  (forall w, effect D N results w (m w).2) -> effects D N results (on_world m).
Proof. intros Hm [x w]. specialize (Hm w). unfold on_world. cbn. by destruct (m w). Qed.

Lemma effects_quietly {A} D N results (m : async W A) : quietly m -> effects D N results (on_world m).
Proof. intros Hm. apply effects_on_world. intros w. apply quiet_effect, Hm. Qed.

Lemma quietly_skipped d input results n : quietly (skippedOutcome host d input results n).
Proof.
  unfold skippedOutcome. destruct (sd_skipWhen d); [|apply quietly_ret].
  apply quietly_bind; [apply quietly_lift|]. intros [|]; [|apply quietly_ret].
  apply quietly_bind; [destruct (sd_skipValue d); [apply quietly_lift|apply quietly_ret]|]. intros v.
  apply quietly_bind; [apply quietly_lift|]. intros x.
  apply quietly_bind; [apply quietly_now|]. intros t0. apply quietly_ret.
Qed.

Lemma quietly_outcome name body t : quietly (outcomeOfBody host name body t).
Proof. unfold outcomeOfBody. apply quietly_bind; [apply quietly_now|]. intros now. apply quietly_ret. Qed.

Lemma run_body_effect d results attempts w : d ∈ dc_steps ctx ->
  effect [d] [] results w (run_body host ctx params results d attempts w).2.
Proof using Hid.
  intros Hd. unfold run_body.
  pose proof (runStepBody_rel host (effect [d] [] results)
    (fun w => quiet_effect _ _ _ _ _ (now_quiet w)) (fun w => quiet_effect _ _ _ _ _ (random_quiet w))
    (fun t w => quiet_effect _ _ _ _ _ (wait_quiet t w)) (fun t w => quiet_effect _ _ _ _ _ (timed_out_quiet t w))
    d (dp_workflowId params) (execute_params ctx params results d)) as Hb.
  specialize (Hb ltac:(intros n m w1; destruct (execute_logs d (execute_params ctx params results d n) m w1 Hd) as [E Hk];
    eexists; split; [exact E|]; split;
    [apply Forall_singleton; exists d, n; split; [left|done]|intros [Hh Hr]%Hk; split; [done|]; intros y _; apply Hr])).
  specialize (Hb (opt_or (attempts !! sd_name d) 0 + 1) w).
  destruct (runStepBody _ _ _ _ _ w) as [[b|] w']; exact Hb.
Qed.

Lemma checkpoint_effect D results o failed n w : outcome_name o = n ->
  effect D [n] results w (checkpointStepOutcome host ctx (dp_workflowId params) o failed w).2.
Proof using Hid.
  intros <-. rewrite Hid. pose proof (checkpointStepOutcome_keeps o failed w) as [E Hk].
  exists []. rewrite app_nil_r. split; [exact E|]. split; [constructor|].
  intros [Hh Hr]%Hk. split; [done|]. intros y Hy%not_elem_of_cons. apply Hr. tauto.
Qed.

(** The run of one step: the effect of its body, then its checkpoint. *)
Lemma runStep_effects d results : d ∈ dc_steps ctx ->
  effects [d] [sd_name d] results (runStep host ctx params results d).
Proof using Hid.
  intros Hd [m w]. unfold runStep.
  pose proof (effects_quietly [d] [sd_name d] results _
    (quietly_skipped d (dp_input params) results (opt_or (m !! sd_name d) 1)) (m, w)) as Hs.
  unfold a_bind at 1.
  pose proof (on_world_Ret (skippedOutcome host d (dp_input params) results (opt_or (m !! sd_name d) 1)) (m, w)) as Hr.
  destruct (on_world _ (m, w)) as [[sk|e|] s1]; [|done..].
  etrans; [exact Hs|]. destruct (Hr _ _ eq_refl) as [Hsk _]. destruct sk as [o|].
  - apply skipped_name in Hsk as (i & x & -> & Hn). apply effects_on_world. intros w1. by apply checkpoint_effect.
  - revert s1 Hs Hr Hsk. intros s1 _ _ _. revert s1.
    apply (effects_bind _ _ _ _ (fun startedAt => _)); [apply effects_quietly, quietly_now|]. intros t.
    apply (effects_bind _ _ _ _ (fun body => _)).
    { apply effects_on_world. intros w1. eapply effect_mono; [done| |by apply run_body_effect].
      by intros y ?%not_elem_of_nil. }
    intros b. apply (effects_bind _ _ _ _ (fun _ => _)); [by intros s|]. intros _ s.
    unfold a_bind.
    pose proof (effects_quietly [d] [sd_name d] results _ (quietly_outcome (sd_name d) b t) s) as Ho.
    pose proof (on_world_Ret (outcomeOfBody host (sd_name d) b t) s) as Hn.
    destruct (on_world _ s) as [[o|e|] s2]; [|done..]. etrans; [exact Ho|].
    destruct (Hn _ _ eq_refl) as [Hb _]. apply body_outcome_name in Hb.
    apply effects_on_world. intros w1. by apply checkpoint_effect.
Qed.

(** What a step that settled left of its own result. *)
Lemma runStep_result d results s c s' : d ∈ dc_steps ctx ->
  runStep host ctx params results d s = (Ret c, s') -> held s'.2 ->
  rv s'.2 (sd_name d) = opt_or (stored_as (ck_outcome c)) (rv s.2 (sd_name d)).
Proof using Hid.
  intros Hd Hr Hh. pose proof (runStep_name _ _ _ _ _ _ _ _ Hr) as Hname.
  unfold runStep in Hr. destruct s as [m w]. apply a_bind_Ret in Hr as (sk & s1 & Hsk & Hr).
  pose proof (effects_quietly [d] [] results _
    (quietly_skipped d (dp_input params) results (opt_or (m !! sd_name d) 1)) (m, w)) as Hq.
  rewrite Hsk in Hq. cbn [snd] in Hq.
  assert (exists o failed w1, effect [d] [] results w w1 /\
    checkpointStepOutcome host ctx (dp_workflowId params) o failed w1 = (Ret c, s'.2)) as (o & failed & w1 & He & Hc).
  { destruct sk as [o|].
    - apply on_world_Ret in Hr as [Hr _]. by do 3 eexists.
    - apply a_bind_Ret in Hr as (t & s2 & Ht & Hr). apply a_bind_Ret in Hr as (b & s3 & Hb & Hr).
      apply a_bind_Ret in Hr as (u & s4 & Hu & Hr). apply a_bind_Ret in Hr as (o & s5 & Ho & Hr).
      apply on_world_Ret in Hr as [Hr _]. do 3 eexists. split; [|exact Hr].
      etrans; [exact Hq|].
      pose proof (effects_quietly [d] [] results _ quietly_now s1) as H1. rewrite Ht in H1. etrans; [exact H1|].
      apply on_world_Ret in Hb as [Hb _]. pose proof (run_body_effect d results m s2.2 Hd) as H2. rewrite Hb in H2.
      etrans; [exact H2|]. injection Hu as _ <-.
      pose proof (effects_quietly [d] [] results _ (quietly_outcome (sd_name d) b t) (<[sd_name d:=body_attempt b]> s3.1, s3.2)) as H3.
      rewrite Ho in H3. exact H3. }
  rewrite Hid in Hc. apply checkpointStepOutcome_spec in Hc as [Hco [_ Hck]]. destruct (Hck Hh) as (Hh1 & _ & Hx).
  destruct He as (L & _ & _ & Hrv). destruct (Hrv Hh1) as [_ Hrv']. rewrite <- Hco, Hname in Hx.
  rewrite Hco. rewrite <- Hco. rewrite Hx. f_equal. apply Hrv'. apply not_elem_of_nil.
Qed.

(** Every step of a wave. *)
Lemma settle_all_effect D results s :
  (forall d, d ∈ D -> d ∈ dc_steps ctx) -> NoDup (sd_name <$> D) ->
  let '(o, s') := settle_all host ctx params results D s in
  effect D (sd_name <$> D) results s.2 s'.2 /\
  forall m d c, o = Ret m -> d ∈ D -> m !! sd_name d = Some (Ok c) -> held s'.2 ->
    rv s'.2 (sd_name d) = opt_or (stored_as (ck_outcome c)) (rv s.2 (sd_name d)).
Proof using Hid.
  revert s. induction D as [|d D IH]; intros s HD Hnd; cbn [settle_all].
  { split; [done|]. by intros ? ? ? _ ?%not_elem_of_nil. }
  cbn [fmap list_fmap] in Hnd. apply NoDup_cons in Hnd as [Hd Hnd].
  assert (d ∈ dc_steps ctx) as Hin by (apply HD; left).
  pose proof (runStep_effects d results Hin s) as He. pose proof (runStep_result d results s) as Hres.
  destruct (runStep host ctx params results d s) as [o1 s1] eqn:Er. cbn [snd] in He.
  assert (effect (d :: D) (sd_name <$> d :: D) results s.2 s1.2) as He'.
  { eapply effect_mono; [| |exact He]; intros y ->%list_elem_of_singleton; left. }
  specialize (IH s1 (fun d' Hd' => HD d' (list_elem_of_further _ _ _ Hd')) Hnd).
  assert (forall r0 : res thrown CheckpointedStep, (forall c, r0 = Ok c -> o1 = Ret c) ->
    let '(o, s') := (let% rest := settle_all host ctx params results D in
                     a_ret (<[sd_name d := r0]> rest)) s1 in
    effect (d :: D) (sd_name <$> d :: D) results s.2 s'.2 /\
    forall m d0 c, o = Ret m -> d0 ∈ d :: D -> m !! sd_name d0 = Some (Ok c) -> held s'.2 ->
      rv s'.2 (sd_name d0) = opt_or (stored_as (ck_outcome c)) (rv s.2 (sd_name d0))) as Hcont.
  { intros r0 Hr0. unfold a_bind. destruct (settle_all host ctx params results D s1) as [o2 s2].
    destruct IH as [He2 Hrv2].
    assert (effect (d :: D) (sd_name <$> d :: D) results s.2 s2.2) as Hall.
    { etrans; [exact He'|]. eapply effect_mono; [| |exact He2]; by right. }
    destruct o2 as [rest|e|]; (split; [exact Hall|]); try done.
    intros m d0 c [= <-] Hd0 Hm Hh. destruct He2 as (L2 & _ & _ & Hk2). destruct (Hk2 Hh) as [Hh1 Hsame].
    apply elem_of_cons in Hd0 as [->|Hd0].
    - rewrite jlookup_insert_eq in Hm. injection Hm as Hm. apply Hr0 in Hm as ->.
      rewrite Hsame by done. by apply (Hres c s1).
    - rewrite jlookup_insert_ne in Hm by (intros E; apply Hd; rewrite E; by apply list_elem_of_fmap_2).
      rewrite (Hrv2 _ _ _ eq_refl Hd0 Hm Hh). f_equal.
      destruct He as (L1 & _ & _ & Hk1). destruct (Hk1 Hh1) as [_ Hs1]. apply Hs1.
      intros E%list_elem_of_singleton. apply Hd. rewrite <- E. by apply list_elem_of_fmap_2. }
  destruct o1 as [c|e|].
  - apply (Hcont (Ok c)). by intros c' [= ->].
  - by apply (Hcont (Err e)).
  - split; [exact He'|]. done.
Qed.

(** ** Waves *)
Variable rh_order : list (StepDefinition W) -> W -> list (StepDefinition W).
Hypothesis Horder : forall l w, rh_order l w ≡ₚ l.
Hypothesis Hgraph : graph_ok ctx params.

Lemma settleWave_effect steps results s out s' :
  (forall d, d ∈ steps -> d ∈ dc_steps ctx) -> NoDup (sd_name <$> steps) ->
  settleWave host rh_order ctx params results steps s = (Ret out, s') ->
  effect steps (sd_name <$> steps) results s.2 s'.2 /\
  Forall2 (fun d o => outcome_name o = sd_name d /\
    (held s'.2 -> rv s'.2 (sd_name d) = opt_or (stored_as o) (rv s.2 (sd_name d)))) steps (wo_outcomes out).
Proof using Hid Horder.
  intros Hin Hnd Hs. pose proof Hs as Hspec. apply settleWave_spec in Hspec; [|done|done].
  apply a_bind_Ret in Hs as (m & s1 & Hm & Hf).
  pose proof (settle_all_effect (rh_order steps s.2) results s) as He. rewrite Hm in He.
  destruct He as [He Hrv].
  { intros d Hd. apply Hin. by rewrite <- (Horder steps s.2). }
  { by rewrite Horder. }
  unfold a_lift in Hf. destruct (fold_settled _ _ _) as [o|] eqn:Ef; [|done]. injection Hf as -> ->.
  apply fold_settled_spec in Ef as (cs & Hcs & Hout). cbn [app] in Hout. split.
  { eapply effect_mono; [| |exact He]; intros y; by rewrite Horder. }
  rewrite Hout in Hspec |- *. apply Forall2_fmap_r. apply Forall2_fmap_r in Hspec.
  assert (Forall2 (fun d r => m !! sd_name d = Some r) steps (omap (fun d => m !! sd_name d) steps)) as H2.
  { apply omap_present. intros d Hd. apply settle_all_spec in Hm as [Hdom _]. apply Hdom. by rewrite Horder. }
  rewrite Hcs in H2. apply Forall2_fmap_r in H2.
  apply Forall2_same_length_lookup_2; [by eapply Forall2_length|]. intros k d c Hd Hc.
  pose proof (Forall2_lookup_lr _ _ _ _ _ _ Hspec Hd Hc) as [Hn _]. split; [done|]. intros Hh.
  pose proof (Forall2_lookup_lr _ _ _ _ _ _ H2 Hd Hc) as Hmd. cbn in Hmd.
  eapply Hrv; [done| |exact Hmd|exact Hh]. rewrite Horder. by eapply list_elem_of_lookup_2.
Qed.

(** ** The invariant of the loop *)
(** The results of the loop are the stored ones, decoded. *)
Definition in_step (v : DagVars) (w : W) : Prop :=
  held w -> forall d, d ∈ dc_steps ctx ->
    match dv_results v !! sd_name d with
    | Some val => exists r, rv w (sd_name d) = Some r /\ codec_decode (sd_codec d) r = Ok val
    | None => rv w (sd_name d) = None
    end.

(** An invocation of a body: of a step without a result at the start, on
    results that are stored, with all the step depends on. *)
Definition invocation_ok (w0 w : W) (e : string * ExecuteParams) : Prop :=
  exists d n results, d ∈ dc_steps ctx /\ e = (sd_name d, execute_params ctx params results d n) /\
    rv w0 (sd_name d) = None /\
    (forall y val, results !! y = Some val -> exists d' r, d' ∈ dc_steps ctx /\ sd_name d' = y /\
       rv w y = Some r /\ codec_decode (sd_codec d') r = Ok val) /\
    (forall dep, dep ∈ sd_dependsOn d -> exists val, results !! dep = Some val).

Definition kept (w w' : W) : Prop := forall y r, rv w y = Some r -> rv w' y = Some r.

(** A result that was not there at the start is a settled step's. *)
Definition produced (w0 w : W) : Prop :=
  forall y r, rv w y = Some r -> rv w0 y = Some r \/
    exists i sk, settled host ctx params (StepDone i r sk) /\ si_name i = y.

Definition history (w0 w : W) : Prop :=
  exists L, log w = log w0 ++ L /\
    (held w -> held w0 /\ kept w0 w /\ produced w0 w /\ Forall (invocation_ok w0 w) L).

Lemma invocation_kept w0 w w' e : kept w w' -> invocation_ok w0 w e -> invocation_ok w0 w' e.
Proof.
  intros Hk (d & n & results & Hd & -> & Hw0 & Hres & Hdeps). exists d, n, results.
  split_and!; [done..| |done]. intros y val Hy. destruct (Hres y val Hy) as (d' & r & ? & ? & ? & ?).
  exists d', r. split_and!; [done..| |done]. by apply Hk.
Qed.

Lemma history_refl w : history w w.
Proof.
  exists []. rewrite app_nil_r. split; [done|]. intros Hh. split; [done|]. split; [by intros y r|].
  split; [by intros y r; left|constructor].
Qed.

Lemma history_quiet w0 w w' : history w0 w -> quiet held rv log w w' -> history w0 w'.
Proof.
  intros (L & E & Hk) [El Hq]. exists L. split; [by rewrite El|]. intros Hh.
  destruct (Hq Hh) as [Hh1 Hsame]. destruct (Hk Hh1) as (H0 & Hkept & Hprod & Hinv).
  assert (kept w w') as Hww by (intros y r; by rewrite Hsame).
  split; [done|]. split; [intros y r Hy; by apply Hww, Hkept|]. split.
  - intros y r. rewrite Hsame. apply Hprod.
  - eapply Forall_impl; [exact Hinv|]. intros e. by apply invocation_kept.
Qed.

Lemma in_step_quiet v w w' : in_step v w -> quiet held rv log w w' -> in_step v w'.
Proof.
  intros Hv [_ Hq] Hh d Hd. destruct (Hq Hh) as [Hh1 Hsame]. specialize (Hv Hh1 d Hd).
  by rewrite Hsame.
Qed.

Lemma ready_step_facts marked v w d :
  progress host ctx params marked v -> in_step v w -> held w -> d ∈ ready_steps ctx params v ->
  d ∈ dc_steps ctx /\ dv_results v !! sd_name d = None /\ rv w (sd_name d) = None /\
  forall dep, dep ∈ sd_dependsOn d -> exists val, dv_results v !! dep = Some val.
Proof using Hgraph.
  intros Hpg Hv Hh Hd. pose proof (ready_steps_in ctx params Hgraph _ _ Hd) as Hin.
  assert (sd_name d ∈ ready (dp_nodes params) (dv_tracker v)) as Hready.
  { rewrite <- (ready_steps_names host ctx params Hgraph marked v Hpg). by apply list_elem_of_fmap_2. }
  destruct (ready_unmarked host ctx params Hgraph marked v _ Hpg Hready) as (_ & Hun & Hdeps).
  assert (dv_results v !! sd_name d = None) as Hnone.
  { destruct (dv_results v !! sd_name d) eqn:E; [|done]. destruct Hun. apply (pg_dom _ _ _ _ _ Hpg). by eexists. }
  split; [done|]. split; [done|]. split.
  - specialize (Hv Hh d Hin). by rewrite Hnone in Hv.
  - intros dep Hdep. apply (pg_dom _ _ _ _ _ Hpg). eapply Hdeps; [|exact Hdep].
    by apply (steps_by_name_spec ctx params Hgraph).
Qed.

Lemma results_stored marked v w y val :
  progress host ctx params marked v -> in_step v w -> held w -> dv_results v !! y = Some val ->
  exists d r, d ∈ dc_steps ctx /\ sd_name d = y /\ rv w y = Some r /\ codec_decode (sd_codec d) r = Ok val.
Proof using Hgraph.
  intros Hpg Hv Hh Hy. assert (y ∈ marked) as Hm by (apply (pg_dom _ _ _ _ _ Hpg); by eexists).
  apply (tko_names _ _ _ (pg_tracker _ _ _ _ _ Hpg)) in Hm. rewrite (node_names ctx params Hgraph) in Hm.
  apply list_elem_of_fmap in Hm as (d & -> & Hd). specialize (Hv Hh d Hd). rewrite Hy in Hv.
  destruct Hv as (r & ? & ?). by exists d, r.
Qed.

(** One wave. *)
Lemma wave_history w0 marked v s out s' :
  progress host ctx params marked v -> in_step v s.2 -> history w0 s.2 ->
  settleWave host rh_order ctx params (dv_results v) (ready_steps ctx params v) s = (Ret out, s') ->
  history w0 s'.2 /\
  (held s'.2 -> held s.2 /\
     (forall y, (y ∉ ready (dp_nodes params) (dv_tracker v)) -> rv s'.2 y = rv s.2 y) /\
     forall o, o ∈ wo_outcomes out -> rv s'.2 (outcome_name o) = opt_or (stored_as o) None).
Proof using Hid Horder Hgraph.
  intros Hpg Hv (L0 & E0 & Hk0) Hs.
  pose proof (ready_steps_names host ctx params Hgraph marked v Hpg) as Hnames.
  destruct (wave_outcomes host rh_order ctx params Hgraph Horder _ _ _ _ _ Hpg Hs) as [Hset _].
  apply settleWave_effect in Hs as [(L & E & Hinv & Hk) Hout].
  2: { intros d. by eapply ready_steps_in. }
  2: { rewrite Hnames. by eapply ready_nodup. }
  assert (held s'.2 -> forall o, o ∈ wo_outcomes out -> rv s'.2 (outcome_name o) = opt_or (stored_as o) None) as Ho.
  { intros Hh o Hin. destruct (Hk Hh) as [Hh1 _]. apply list_elem_of_lookup in Hin as [k Hko].
    destruct (Forall2_lookup_r _ _ _ _ _ Hout Hko) as (d & Hd & Hn & Hrv). rewrite Hn, (Hrv Hh). f_equal.
    by eapply ready_step_facts, list_elem_of_lookup_2. }
  assert (held s'.2 -> kept s.2 s'.2) as Hkept.
  { intros Hh y r Hy. destruct (Hk Hh) as [Hh1 Hsame]. rewrite Hsame; [done|].
    intros (d & -> & Hd)%list_elem_of_fmap. destruct (ready_step_facts _ _ _ _ Hpg Hv Hh1 Hd) as (_ & _ & Hn & _).
    congruence. }
  split.
  - exists (L0 ++ L). split; [by rewrite E, E0, app_assoc|]. intros Hh. destruct (Hk Hh) as [Hh1 Hsame].
    destruct (Hk0 Hh1) as (Hh0 & Hkept0 & Hprod & Hinv0). specialize (Hkept Hh).
    split; [done|]. split; [intros y r Hy; by apply Hkept, Hkept0|]. split.
    + intros y r Hy. destruct (decide (y ∈ (sd_name <$> ready_steps ctx params v))) as [Hin|Hin];
        [|rewrite Hsame in Hy by done; by apply Hprod].
      apply list_elem_of_fmap in Hin as (d & -> & [k Hkd]%list_elem_of_lookup).
      destruct (Forall2_lookup_l _ _ _ _ _ Hout Hkd) as (o & Hko & Hn & _).
      apply list_elem_of_lookup_2 in Hko as Hoin. specialize (Ho Hh o Hoin). rewrite <- Hn, Ho in Hy.
      destruct o as [i r' sk|i e|n e|n e]; try done. injection Hy as ->. right. exists i, sk.
      split; [by apply Hset|done].
    + apply Forall_app. split.
      * eapply Forall_impl; [exact Hinv0|]. intros e. by apply invocation_kept.
      * eapply Forall_impl; [exact Hinv|]. intros e (d & n & Hd & ->).
        destruct (ready_step_facts _ _ _ _ Hpg Hv Hh1 Hd) as (Hin & _ & Hnone & Hdeps).
        exists d, n, (dv_results v). split; [done|]. split; [done|]. split.
        { destruct (rv w0 (sd_name d)) as [r|] eqn:Er; [|done]. apply Hkept0 in Er. congruence. }
        split; [|done]. intros y val Hy.
        destruct (results_stored _ _ _ _ _ Hpg Hv Hh1 Hy) as (d' & r & ? & ? & Hr & ?). exists d', r.
        split_and!; [done..| |done]. by apply Hkept.
  - intros Hh. destruct (Hk Hh) as [Hh1 Hsame]. split; [done|]. split; [|by apply Ho].
    intros y Hy. apply Hsame. by rewrite Hnames.
Qed.

(** The variables after a wave of completed steps. *)
Lemma folded_results outs v v' :
  NoDup (outcome_name <$> outs) -> folded ctx params outs v v' ->
  (forall n, (n ∉ (outcome_name <$> outs)) -> dv_results v' !! n = dv_results v !! n) /\
  (forall i r sk, StepDone i r sk ∈ outs -> exists val, dv_results v' !! si_name i = Some val /\ decoded_of ctx i r val).
Proof.
  revert v. induction outs as [|o outs IH]; intros v Hnd; cbn [folded].
  { intros ->. split; [done|]. by intros ? ? ? ?%not_elem_of_nil. }
  cbn [fmap list_fmap] in Hnd. apply NoDup_cons in Hnd as [Ho Hnd].
  destruct o as [i r sk|i e|n e|n e].
  1: { intros (val & Hval & Hf). destruct (IH _ Hnd Hf) as [Hsame Hdone]. cbn [dv_results] in Hsame. split.
    - intros n [Hn Hn']%not_elem_of_cons. rewrite Hsame by done. by apply jlookup_insert_ne.
    - intros i' r' sk' [[= -> -> ->]|Hin]%elem_of_cons; [|by eapply Hdone].
      exists val. split; [|done]. rewrite Hsame by done. apply jlookup_insert_eq. }
  all: intros Hf; destruct (IH _ Hnd Hf) as [Hsame Hdone]; split;
    [intros m [_ Hm]%not_elem_of_cons; by apply Hsame|];
    intros i' r' sk' [?|Hin]%elem_of_cons; [done|by eapply Hdone].
Qed.

Lemma in_step_folded marked v (s s' : WaveState (W := W)) out v' :
  progress host ctx params marked v -> in_step v s.2 ->
  (held s'.2 -> held s.2 /\
     (forall y, (y ∉ ready (dp_nodes params) (dv_tracker v)) -> rv s'.2 y = rv s.2 y) /\
     forall o, o ∈ wo_outcomes out -> rv s'.2 (outcome_name o) = opt_or (stored_as o) None) ->
  outcome_name <$> wo_outcomes out = ready (dp_nodes params) (dv_tracker v) ->
  (forall o, o ∈ wo_outcomes out -> exists i r sk, o = StepDone i r sk) ->
  folded ctx params (wo_outcomes out) (mkDagVars (dv_results v) (dv_tracker v) None) v' -> in_step v' s'.2.
Proof using Hgraph.
  intros Hpg Hv Hk Hnames Hall Hf Hh d Hd. destruct (Hk Hh) as (Hh1 & Hsame & Hout).
  apply folded_results in Hf as [Hold Hnew]; [|rewrite Hnames; by eapply ready_nodup].
  destruct (decide (sd_name d ∈ (outcome_name <$> wo_outcomes out))) as [Hin|Hin].
  - apply list_elem_of_fmap in Hin as (o & Hn & Ho). destruct (Hall o Ho) as (i & r & sk & ->).
    specialize (Hout _ Ho). cbn in Hn, Hout. destruct (Hnew _ _ _ Ho) as (val & Hval & Hdec).
    rewrite Hn, Hval. exists r. split; [done|]. unfold decoded_of in Hdec. rewrite <- Hn in Hdec.
    rewrite (proj2 (steps_by_name_spec ctx params Hgraph (sd_name d) d) (conj Hd eq_refl)) in Hdec. done.
  - rewrite Hold by done. rewrite Hsame by (by rewrite <- Hnames). cbn [dv_results]. by apply Hv.
Qed.

(** ** The loop *)
Lemma quietly_opening wave observed : quietly (opening host ctx params wave observed).
Proof using Hid.
  unfold opening. apply quietly_bind; [|intros _; apply quietly_deadline].
  destruct (wave =? 0)%nat; [apply quietly_ret|]. intros w. unfold assertRunActive.
  destruct (dc_signal ctx w); [apply quiet_refl|].
  apply (quietly_bind _ (fun status => _)).
  - destruct observed; [apply quietly_ret|]. intros w1. rewrite Hid. apply status_quiet.
  - intros [status|]; [|apply quietly_ret]. destruct (isCancelledRun status); [apply quietly_throw|apply quietly_ret].
Qed.

Lemma quietly_notify steps : quietly (notifyStepsStarted (dp_workflowId params) steps).
Proof using Hid.
  induction steps as [|d steps IH]; cbn [notifyStepsStarted]; [apply quietly_ret|].
  destruct (hasCapability CapStepStartedEvents); [|apply quietly_ret].
  apply quietly_bind; [|done]. apply quietly_catch; [|intros; apply quietly_ret].
  intros w. rewrite Hid. apply notify_quiet.
Qed.

Lemma quietly_after outs v : quietly (after_wave host ctx params outs v).
Proof.
  unfold after_wave. apply quietly_bind.
  { revert v. induction outs as [|o outs IH]; intros v; cbn [fold_outcomes]; [apply quietly_ret|].
    apply quietly_bind; [|done]. destruct o as [i r sk|i e|n e|n e]; cbn [fold_outcome]; try apply quietly_ret.
    apply quietly_bind; [destruct (_ !! _); [apply quietly_lift|apply quietly_ret]|]. intros val.
    apply quietly_bind; [destruct sk; [apply quietly_ret|apply quietly_hook]|]. intros _. apply quietly_ret. }
  intros v'. apply quietly_bind.
  { induction outs as [|o outs IH]; cbn [report_failures]; [apply quietly_ret|].
    destruct o as [i r sk|i e|n e|n e]; try done.
    apply quietly_bind; [apply quietly_hook|]. intros _. apply quietly_bind; [done|]. intros _. apply quietly_ret. }
  intros f. destruct f as [e|]; [apply quietly_ret|].
  destruct (find_continued outs); [apply quietly_ret|]. destruct (find_suspended outs); [apply quietly_ret|].
  destruct (dv_tripwire v') as [[n reason]|]; [apply quietly_ret|].
  apply quietly_bind; [apply quietly_deadline|]. intros late. destruct (_ && _); apply quietly_ret.
Qed.

(** What is known of the storage when the loop ends with [x]. *)
Definition success_stored (w : W) (x : DagExecutionResult) : Prop :=
  forall v, x = DagSuccess v -> held w -> forall d, d ∈ dc_steps ctx ->
    exists r val, rv w (sd_name d) = Some r /\ codec_decode (sd_codec d) r = Ok val /\
      (last (dc_steps ctx) = Some d -> v = val).

Lemma pass_results w0 marked v wave observed s r s' :
  progress host ctx params marked v -> completedCount (dv_tracker v) < step_count ctx ->
  in_step v s.2 -> history w0 s.2 -> pass host rh_order ctx params wave observed v s r s' ->
  history w0 s'.2 /\
  match r with
  | inl x => forall v, x <> DagSuccess v
  | inr (v', _) => in_step v' s'.2
  end.
Proof using Hid Horder Hgraph.
  intros Hpg Hlt Hv Hw Hp. destruct Hp as [deadline w s' Hop _ _|s' Hop _|s1 w2 s2 out r s' Hop _ Hno Hs Ha];
    pose proof (quietly_opening wave observed s.2) as Hq; rewrite Hop in Hq; cbn [snd] in Hq.
  - split; [by eapply history_quiet|done].
  - split; [by eapply history_quiet|done].
  - pose proof (quietly_notify (ready_steps ctx params v) s1.2) as Hq2. rewrite Hno in Hq2. cbn [snd] in Hq2.
    pose proof (quiet_trans _ _ _ Hq Hq2) as Hq12.
    destruct (wave_history w0 marked v (s1.1, w2) out s2 Hpg) as [Hh2 Hk].
    { by eapply in_step_quiet. }
    { by eapply history_quiet. }
    { exact Hs. }
    pose proof (quietly_after (wo_outcomes out) (mkDagVars (dv_results v) (dv_tracker v) None) s2.2) as Hq3.
    rewrite Ha in Hq3. cbn [snd] in Hq3.
    split; [by eapply history_quiet|].
    destruct (after_wave_verdict _ _ _ _ _ _ _ _ Ha) as (v1 & Hf & Hverdict).
    destruct r as [x|v2]; [inversion Hverdict; subst; done|]. inversion Hverdict; subst v2.
    eapply in_step_quiet; [|exact Hq3].
    eapply (in_step_folded marked v (s1.1, w2) s2 out); [exact Hpg| |exact Hk| |done|exact Hf].
    { by eapply in_step_quiet. }
    by eapply (wave_outcomes host rh_order ctx params Hgraph Horder marked v).
Qed.

Lemma final_stored marked v s r s' :
  progress host ctx params marked v -> in_step v s.2 -> step_count ctx <= completedCount (dv_tracker v) ->
  final_result ctx v s = (Ret r, s') -> s' = s /\ success_stored s.2 r.
Proof using Hgraph.
  intros Hpg Hv Hge Hr.
  unfold final_result in Hr. destruct (last (dc_steps ctx)) as [dl|] eqn:Hlast; [|done].
  injection Hr as <- <-. split; [done|]. intros val [= <-] Hh d Hd.
  assert (exists w, dv_results v !! sd_name d = Some w) as [w Hw].
  { apply (pg_dom _ _ _ _ _ Hpg).
    by apply (all_marked host ctx params Hgraph marked v d Hpg Hge). }
  specialize (Hv Hh d Hd). rewrite Hw in Hv. destruct Hv as (r & Hr & Hdec). exists r, w.
  split; [done|]. split; [done|]. rewrite Hlast. intros [= ->]. unfold result_of. by rewrite Hw.
Qed.

Lemma wave_loop_results w0 fuel wave observed v marked s r s' :
  progress host ctx params marked v -> in_step v s.2 -> history w0 s.2 ->
  wave_loop host rh_order ctx fuel params wave observed v s = (Ret r, s') ->
  history w0 s'.2 /\ forall x, r = Some x -> success_stored s'.2 x.
Proof using Hid Horder Hgraph.
  revert wave observed v marked s. induction fuel as [|fuel IH]; intros wave observed v marked s Hpg Hv Hw;
    cbn [wave_loop].
  all: destruct (Z.ltb_spec (completedCount (dv_tracker v)) (step_count ctx)) as [Hlt|Hge].
  2, 4: intros (x & s1 & Hx & [= <- <-])%a_bind_Ret;
    destruct (final_stored _ _ _ _ _ Hpg Hv Hge Hx) as [-> Hst]; split; [done|]; by intros ? [= <-].
  - intros [= <- <-]. done.
  - intros (x & s1 & Hx%run_wave_pass & Hr)%a_bind_Ret.
    pose proof (pass_progress host rh_order ctx params Hgraph Horder marked _ _ _ _ _ _ Hpg Hlt Hx) as Hnext.
    destruct (pass_results w0 marked _ _ _ _ _ _ Hpg Hlt Hv Hw Hx) as [Hw1 Hres].
    destruct x as [x|[v' obs]].
    + injection Hr as <- <-. split; [done|]. intros y [= <-] val ->. by destruct (Hres val).
    + destruct Hnext as (marked' & Hpg' & _). by eapply IH.
Qed.

(** ** The loaded state *)
Definition completed_result (row : StepState) : option json :=
  if row_completed row then Some (st_result row) else None.

(** The run was loaded after its last checkpoint. *)
Definition loaded (w : W) : Prop :=
  match dp_state params with
  | Some st => NoDup (ws_steps st).*1 /\
      forall d, d ∈ dc_steps ctx -> rv w (sd_name d) = alist_get (sd_name d) (ws_steps st) ≫= completed_result
  | None => forall d, d ∈ dc_steps ctx -> rv w (sd_name d) = None
  end.

Lemma load_results_spec rows res res' d :
  d ∈ dc_steps ctx -> NoDup rows.*1 -> load_results ctx rows res = Ok res' ->
  match alist_get (sd_name d) rows ≫= completed_result with
  | Some r => exists val, res' !! sd_name d = Some val /\ codec_decode (sd_codec d) r = Ok val
  | None => res' !! sd_name d = res !! sd_name d
  end.
Proof using Hgraph.
  intros Hd. revert res. induction rows as [|[n row] rows IH]; intros res Hnd; cbn [load_results alist_get].
  { by intros [= <-]. }
  cbn [fmap list_fmap] in Hnd. apply NoDup_cons in Hnd as [Hn Hnd]. cbn [fst] in Hn.
  assert (forall res, load_results ctx rows res = Ok res' ->
    match alist_get (sd_name d) rows ≫= completed_result with
    | Some r => exists val, res' !! sd_name d = Some val /\ codec_decode (sd_codec d) r = Ok val
    | None => res' !! sd_name d = res !! sd_name d
    end) as IH' by (intros ? ?; by apply IH). clear IH.
  case_decide as Hne; [subst n|].
  - cbn [mbind option_bind]. unfold completed_result at 1.
    assert (alist_get (sd_name d) rows = None) as Hnone.
    { destruct (alist_get (sd_name d) rows) as [s|] eqn:E; [|done]. destruct Hn.
      change (JMap rows !! sd_name d = Some s) in E. by apply jlookup_key in E. }
    rewrite Hnone in IH'. cbn [mbind option_bind] in IH'. destruct (row_completed row); [|by apply IH'].
    rewrite (proj2 (steps_by_name_spec ctx params Hgraph (sd_name d) d) (conj Hd eq_refl)).
    destruct (codec_decode (sd_codec d) (st_result row)) as [v|] eqn:Hdec; [|done]. intros Hl.
    exists v. split; [|done]. rewrite (IH' _ Hl). apply jlookup_insert_eq.
  - intros Hl.
    destruct (row_completed row); [|by apply IH']. destruct (steps_by_name ctx !! n) as [d'|]; [|by apply IH'].
    destruct (codec_decode _ _) as [v|]; [|done]. specialize (IH' _ Hl).
    destruct (_ ≫= _); [done|]. by rewrite IH', jlookup_insert_ne.
Qed.

Lemma loaded_in_step w results :
  loaded w -> state_results ctx params = Ok results ->
  in_step (mkDagVars results (createReadyTracker (dp_nodes params) (jm_keys results)) None) w.
Proof using Hgraph.
  unfold loaded, state_results. intros Hl Hr _ d Hd. cbn [dv_results]. destruct (dp_state params) as [st|].
  - destruct Hl as [Hnd Hrows]. rewrite Hrows by done.
    pose proof (load_results_spec _ _ _ d Hd Hnd Hr) as Hs.
    destruct (alist_get (sd_name d) (ws_steps st) ≫= completed_result) as [r|].
    + destruct Hs as (val & -> & ?). by exists r.
    + by rewrite Hs.
  - injection Hr as <-. by apply Hl.
Qed.
End results.

(** C2. A driver that returns and still holds the lock of the run it loaded:
    every stored result is still there; every body it invoked was of a step
    without a stored result, and saw stored results only, decoded by their
    steps' codecs, those of all its dependencies among them; a new result is
    that of a settled step; and a run that succeeds has every step's result
    stored and answers with the last step's. *)
Theorem executeWorkflowDag_results {W} `{RW : RunWorld W host ctx wid} rh_order params s r s' :
  graph_ok ctx params -> (forall l w, rh_order l w ≡ₚ l) -> dp_workflowId params = wid -> loaded params s.2 ->
  executeWorkflowDag host rh_order ctx params s = (Ret r, s') -> held s'.2 ->
  exists L, log s'.2 = log s.2 ++ L /\
    Forall (invocation_ok params s.2 s'.2) L /\ kept s.2 s'.2 /\ produced params s.2 s'.2 /\
    forall v, r = Some (DagSuccess v) -> forall d, d ∈ dc_steps ctx ->
      exists x val, rv s'.2 (sd_name d) = Some x /\ codec_decode (sd_codec d) x = Ok val /\
        (last (dc_steps ctx) = Some d -> v = val).
Proof.
  intros Hg Ho Hid Hloaded (results & s1 & Hres & Hl)%a_bind_Ret Hh. unfold a_lift in Hres.
  destruct (state_results ctx params) as [res|] eqn:Er; [|done]. injection Hres as -> ->.
  destruct (initial_progress host ctx params Hg results Er) as [marked Hpg].
  destruct (wave_loop_results params Hid rh_order Ho Hg s1.2 _ _ _ _ marked _ _ _ Hpg
    (loaded_in_step params Hg _ _ Hloaded Er) (history_refl params _) Hl) as [(L & E & Hk) Hst].
  destruct (Hk Hh) as (_ & Hkept & Hprod & Hinv). exists L. split_and!; [done..|].
  intros v -> d Hd. by eapply (Hst _ eq_refl v).
Qed.
