(* ===== verification/Compensate.v ===== *)
(** The run of a saga rollback: [compensateWorkflow] of
    [durable/runner/compensation.ts].

    Each completed step with a compensation is reversed, in
    [compensationOrder], its outcome recorded in the run's ledger as it
    settles. A driver that stops in between leaves the ledger to the next
    one, which goes on from there. *)
From Stdlib Require Import QArith.
From S2P Require Import Prelude Leases Json Journal RunState Storage Exits Retry Replay Dag RollbackOrder StepBody Checkpoint WaveLaws.
Open Scope string_scope.
Open Scope list_scope.
Open Scope Z_scope.

(** ** Definitions *)
Record CompensationReport : Type := mkReport {
  cr_compensated : list string;
  cr_failed : list (string * thrown);
}.

(** [CompensateConfig.retry]. *)
Record CompensateRetry : Type := mkCompensateRetry {
  ct_maxRetries : option Z;
  ct_baseDelayMs : option Z;
}.

(** The parameters of one [compensateWorkflow] call. *)
Record RollbackParams (W : Type) : Type := mkRollbackParams {
  rb_steps : list (CompensatableStep W);
  rb_retry : option CompensateRetry;
  rb_workflowId : string;
  rb_input : json;
  rb_dagNodes : list DagNode;
  rb_guard : option FenceGuard;
  rb_executorId : option string;
  rb_signal : W -> option thrown;
  rb_resumed : bool;
}.
Arguments mkRollbackParams {W}.
Arguments rb_steps {W}.
Arguments rb_retry {W}.
Arguments rb_workflowId {W}.
Arguments rb_input {W}.
Arguments rb_dagNodes {W}.
Arguments rb_guard {W}.
Arguments rb_executorId {W}.
Arguments rb_signal {W}.
Arguments rb_resumed {W}.

(** The ledger's outcome of a step, in the row it was loaded with. *)
Inductive Recorded : Type := RecCompensated | RecFailed (error : thrown).

Definition recorded_outcome (row : option StepState) : option Recorded :=
  match row with
  | None => None
  | Some r =>
      match compensationStatus (st_ledger r) with
      | Some LCompensated => Some RecCompensated
      | Some LCompensationFailed =>
          Some (RecFailed (TValue (JStr (opt_or (compensationError (st_ledger r)) "compensation failed"))))
      | _ => None
      end
  end.

Section compensate.
Context {W : Type} `{RunStore W} (host : RunnerHost W) (params : RollbackParams W).

Definition with_ledger_cap : bool := hasCapability CapCompensationLedger.

(** The first loop: what the ledger already lists, and what is left. *)
Fixpoint sort_recorded (rows : list (string * StepState)) (order : list (CompensatableStep W))
    (report : CompensationReport) (pending : list (CompensatableStep W))
    : CompensationReport * list (CompensatableStep W) :=
  match order with
  | [] => (report, pending)
  | step :: order =>
      match (if with_ledger_cap then recorded_outcome (step_row rows (cs_name step)) else None) with
      | Some RecCompensated =>
          sort_recorded rows order (mkReport (cr_compensated report ++ [cs_name step]) (cr_failed report)) pending
      | Some (RecFailed e) =>
          sort_recorded rows order (mkReport (cr_compensated report) (cr_failed report ++ [(cs_name step, e)])) pending
      | None => sort_recorded rows order report (pending ++ [step])
      end
  end.

Definition rollback_policy : RetryPolicy :=
  mkPolicy (Some (opt_or (rb_retry params ≫= ct_maxRetries) 0)) (rb_retry params ≫= ct_baseDelayMs)
    (Some (fun e => negb (isAbandonRunExit e))) false None None.

(** [saveAttempt]: [error] is that of a failed try. *)
Definition saveAttempt (stepName : string) (attempt startedAt : Z) (error : option thrown) : async W unit :=
  if hasCapability CapStepAttempts then
    let% completedAt := currentTimeMs host in
    checkpointWrite host (rb_workflowId params) "saveStepAttempt" (Some stepName)
      (rs_saveStepAttempt (rb_guard params)
         (mkAttempt (rb_workflowId params) stepName attempt AtCompensation
            match error with None => true | Some _ => false end JUndef
            (match error with Some e => Some (errorMessage host e) | None => None end) (completedAt - startedAt) startedAt completedAt
            (rb_executorId params)))
  else a_ret tt.

(** An error that is [undefined] is not written. *)
Definition recorded_error (error : option thrown) : option string :=
  match error with
  | None | Some (TValue JUndef) => None
  | Some e => Some (errorMessage host e)
  end.

Definition record_outcome (stepName : string) (status : StepCompensationStatus) (error : option thrown)
    : async W unit :=
  if with_ledger_cap then
    checkpointWrite host (rb_workflowId params) "saveStepCompensation" (Some stepName)
      (rs_saveStepCompensation (rb_guard params) (rb_workflowId params) stepName status (recorded_error error))
  else a_ret tt.

Definition highest (attempts : list StepAttemptRecord) : Z :=
  foldl (fun last a =>
    match at_type a with
    | AtCompensation => if at_attempt a >? last then at_attempt a else last
    | AtExecution => last
    end) 0 attempts.

Definition lastCompensationAttempt (stepName : string) : async W Z :=
  if hasCapability CapStepAttempts then
    let% attempts := rs_loadStepAttempts (rb_workflowId params) (Some stepName) in
    a_ret (highest attempts)
  else a_ret 0.

(** One try of a step's compensation. *)
Definition try_compensate (compensate : json -> json -> string -> W -> outcome unit * W)
    (stepName : string) (result : json) (firstAttempt : Z) (retry : nat) : async W unit :=
  let% startedAt := currentTimeMs host in
  let attempt := firstAttempt + Z.of_nat retry + 1 in
  do% a_catch (compensate result (rb_input params) (rb_workflowId params))
        (fun err => do% saveAttempt stepName attempt startedAt (Some err) in a_throw err) in
  saveAttempt stepName attempt startedAt None.

Definition not_a_function : thrown :=
  TError (new_error "TypeError" "step.compensate is not a function").

(** [step.compensate!]: a step of the order has one. *)
Definition compensation_of (step : CompensatableStep W) : json -> json -> string -> W -> outcome unit * W :=
  match cs_compensate step with
  | Some f => f
  | None => fun _ _ _ w => (Throws not_a_function, w)
  end.

(** The [try] block of a step: decode, then the compensation with its
    retries. *)
Definition compensate_step (rows : list (string * StepState)) (step : CompensatableStep W) (firstAttempt : Z)
    : async W unit :=
  let stored := match step_row rows (cs_name step) with Some row => st_result row | None => JUndef end in
  let% result := match cs_codec step with
                 | Some codec => a_lift (codec_decode codec stored)
                 | None => a_ret stored
                 end in
  retryAsync (rh_now host) (rh_random host) (timer host) (fun _ => false)
    (try_compensate (compensation_of step) (cs_name step) result firstAttempt) rollback_policy.

(** One step of the rollback: the outcome it is recorded with. *)
Definition roll_back_step (rows : list (string * StepState)) (step : CompensatableStep W)
    : async W (option thrown) := fun w =>
  match rb_signal params w with
  | Some reason => (Throws reason, w)
  | None =>
      (let% firstAttempt := if rb_resumed params then lastCompensationAttempt (cs_name step) else a_ret 0 in
       let% failure :=
         a_catch (do% compensate_step rows step firstAttempt in a_ret None)
           (fun err => if isAbandonRunExit err then a_throw err else a_ret (Some err)) in
       do% match failure with
           | Some err => record_outcome (cs_name step) LCompensationFailed (Some err)
           | None => record_outcome (cs_name step) LCompensated None
           end in
       a_ret failure) w
  end.

Definition add_outcome (report : CompensationReport) (stepName : string) (failure : option thrown) : CompensationReport :=
  match failure with
  | Some err => mkReport (cr_compensated report) (cr_failed report ++ [(stepName, err)])
  | None => mkReport (cr_compensated report ++ [stepName]) (cr_failed report)
  end.

Fixpoint roll_back (rows : list (string * StepState)) (pending : list (CompensatableStep W))
    (report : CompensationReport) : async W CompensationReport :=
  match pending with
  | [] => a_ret report
  | step :: pending =>
      let% failure := roll_back_step rows step in
      roll_back rows pending (add_outcome report (cs_name step) failure)
  end.

(** [compensateWorkflow]; [None] when the order was not found in its fuel. *)
Definition compensateWorkflow : async W (option CompensationReport) :=
  let% state := rs_loadWorkflow (rb_workflowId params) in
  match state with
  | None => a_ret (Some (mkReport [] []))
  | Some state =>
      match compensationOrder (rb_steps params) (ws_steps state) (rb_dagNodes params) with
      | None => a_ret None
      | Some order =>
          let '(report, pending) := sort_recorded (ws_steps state) order (mkReport [] []) [] in
          let% report := roll_back (ws_steps state) pending report in
          a_ret (Some report)
      end
  end.
End compensate.
