(* ===== verification/RollbackRun.v ===== *)
(** What a rollback leaves: [Compensate] against a world that keeps the
    contract [RollbackWorld].

    The contract speaks of the run's compensation ledger ([ledger]) and of
    whether the driver still holds the lock ([back_held]). Only the driver's
    own writes change the ledger while it does, and the steps that have a row
    ([back_rows]) stay the same. [back_log] records the invocations of
    compensations: the result each was given, and how it ended. *)
From Stdlib Require Import QArith.
From S2P Require Import Prelude Leases Json Journal RunState Storage StorageRows Exits Retry Replay Dag RollbackOrder StepBody Checkpoint WaveLaws Compensate.
Open Scope string_scope.
Open Scope list_scope.
Open Scope Z_scope.

Definition row_ledger (rows : list (string * StepState)) (x : string) : option StepCompensationStatus :=
  step_row rows x ≫= fun r => compensationStatus (st_ledger r).

Class RollbackWorld (W : Type) `{RunStore W} (host : RunnerHost W) (params : RollbackParams W) : Type := {
  back_held : W -> Prop;
  ledger : W -> string -> option StepCompensationStatus;
  back_log : W -> list (string * json * outcome unit);
  back_rows : list string;
  back_host : QuietHost back_held ledger back_log host;
  back_load_quiet : forall w, quiet back_held ledger back_log w (rs_loadWorkflow (rb_workflowId params) w).2;
  back_loaded : forall w st w', rs_loadWorkflow (rb_workflowId params) w = (Ret (Some st), w') -> back_held w' ->
    forall x, (step_row (ws_steps st) x <> None -> x ∈ back_rows) /\ ledger w' x = row_ledger (ws_steps st) x;
  back_attempts_quiet : forall n w, quiet back_held ledger back_log w (rs_loadStepAttempts (rb_workflowId params) n w).2;
  back_attempt_quiet : forall r w, at_workflowId r = rb_workflowId params ->
    quiet back_held ledger back_log w (rs_saveStepAttempt (rb_guard params) r w).2;
  back_compensates : forall step f r w, step ∈ rb_steps params -> cs_compensate step = Some f ->
    let '(o, w') := f r (rb_input params) (rb_workflowId params) w in
    back_log w' = back_log w ++ [(cs_name step, r, o)] /\
    (back_held w' -> back_held w /\ forall y, ledger w' y = ledger w y);
  back_ledger_puts : forall x status e w, x ∈ back_rows ->
    let '(o, w') := rs_saveStepCompensation (rb_guard params) (rb_workflowId params) x status e w in
    put back_held ledger back_log x (Some status) w w' o;
  (** a write that keeps failing abandons the run, and nothing else that the
      storage throws steers it *)
  back_write_error : forall fields msg, isAbandonRunExit (engine_error host "CheckpointError" fields msg) = true;
  back_attempt_error : forall r w e w', rs_saveStepAttempt (rb_guard params) r w = (Throws e, w') ->
    isControlFlowExit e = true -> isAbandonRunExit e = true;
}.
#[export] Existing Instance back_host.
Arguments back_held {W _ host params _}.
Arguments ledger {W _ host params _}.
Arguments back_log {W _ host params _}.
Arguments back_rows {W _ host params _}.

Section rollback.
Context {W : Type} `{BW : RollbackWorld W host params}.
#[local] Abbreviation quietly := (quietly back_held ledger back_log).
#[local] Abbreviation quiet := (quiet back_held ledger back_log).

(** ** Tries of one compensation *)
(** Invocations of [e] that ended as [os], and no change of the ledger. *)
Definition tried (e : string * json) (os : list (outcome unit)) (w w' : W) : Prop :=
  back_log w' = back_log w ++ (pair e <$> os) /\
  (back_held w' -> back_held w /\ forall y, ledger w' y = ledger w y).

Definition threw (o : outcome unit) : Prop := exists e, o = Throws e.

Lemma quiet_tried e w w' : quiet w w' <-> tried e [] w w'.
Proof. unfold WaveLaws.quiet, tried. cbn. by rewrite app_nil_r. Qed.

Lemma tried_trans e j k w1 w2 w3 : tried e j w1 w2 -> tried e k w2 w3 -> tried e (j ++ k) w1 w3.
Proof.
  intros [E1 H1] [E2 H2]. split; [by rewrite E2, E1, fmap_app, app_assoc|].
  intros [Hh R2]%H2. destruct (H1 Hh) as [? R1]. split; [done|]. intros y. by rewrite R2.
Qed.

Lemma tried_quiet e k w1 w2 w3 : tried e k w1 w2 -> quiet w2 w3 -> tried e k w1 w3.
Proof. intros H1 H2%(quiet_tried e). rewrite <- (app_nil_r k). by eapply tried_trans. Qed.

Lemma quiet_tried_trans e k w1 w2 w3 : quiet w1 w2 -> tried e k w2 w3 -> tried e k w1 w3.
Proof. intros H1%(quiet_tried e) H2. by apply (tried_trans e [] k w1 w2 w3). Qed.

(** How many tries a step may take. *)
Definition max_tries : nat := 1 + Z.to_nat (opt_or (rb_retry params ≫= ct_maxRetries) 0).

(** What the ends [os] of the tries, of [n] at most, say about the end of the
    loop: it succeeds with the first try that does, and it fails with the
    error of the last, when that many failed. *)
Definition tries_end {A} (n : nat) (os : list (outcome unit)) (o : outcome A) : Prop :=
  match o with
  | Ret _ => exists fails, os = fails ++ [Ret tt] /\ Forall threw fails
  | Throws e =>
      isAbandonRunExit e = true \/
      exists fails, os = fails ++ [Throws e] /\ Forall threw fails /\ length os = n
  | Died => True
  end.

(** One try: one invocation, and its error, unless the run is abandoned. *)
Definition one_try {A} (e : string * json) (run : nat -> async W A) : Prop :=
  forall n w, let '(o, w') := run n w in exists c, tried e [c] w w' /\
    match o with Ret _ => c = Ret tt | Throws x => isAbandonRunExit x = true \/ c = Throws x | Died => True end.

(** The next delay of the rollback's policy: none after the last try, or for
    an error that abandons the run. *)
Lemma rollback_delay n e f0 t w :
  match (nextRetryDelayMs (rh_random host) (rollback_policy params) n e f0 t w).1 with
  | Some _ => (Datatypes.S n < max_tries)%nat /\ isAbandonRunExit e = false
  | None => (max_tries <= Datatypes.S n)%nat \/ isAbandonRunExit e = true
  end.
Proof.
  unfold nextRetryDelayMs, max_tries. change (max_retries (rollback_policy params)) with (opt_or (rb_retry params ≫= ct_maxRetries) 0).
  destruct (Z.geb_spec (Z.of_nat n) (opt_or (rb_retry params ≫= ct_maxRetries) 0)); cbn [fst rp_timeBudgetMs rollback_policy]; [left; lia|].
  cbn [rp_when rollback_policy].
  destruct (isAbandonRunExit e); cbn; [by right|]. split; [lia|done].
Qed.

(** A loop of tries. *)
Lemma loop_tried {A} e (run : nat -> async W A) n f0 w : one_try e run -> (n < max_tries)%nat ->
  let '(o, w') := iteration (rh_now host) (rh_random host) (timer host) (fun _ => false) run (rollback_policy params) n f0 w in
  exists os, tried e os w w' /\ (length os <= max_tries - n)%nat /\ tries_end (max_tries - n) os o.
Proof.
  intros Hrun. remember (max_tries - n)%nat as m eqn:Em.
  revert n f0 w Em. induction m as [m IH] using lt_wf_ind. intros n f0 w Em Hlt.
  rewrite attempt_unfold. pose proof (Hrun n w) as Htry. destruct (run n w) as [[a|x|] w1]; destruct Htry as (c & H1 & Hc).
  { exists [c]. split; [done|]. split; [cbn; lia|]. exists []. by rewrite Hc. }
  2: { exists [c]. split; [done|]. split; [cbn; lia|done]. }
  pose proof (now_quiet w1) as Q1. destruct (rh_now host w1) as [t w2]. cbn [snd] in Q1.
  pose proof (next_delay_quiet back_held ledger back_log host (rollback_policy params) n x (opt_or f0 t) t w2) as Q2.
  pose proof (rollback_delay n x (opt_or f0 t) t w2) as Hd.
  destruct (nextRetryDelayMs _ _ _ _ _ _ w2) as [[d|] w3]; cbn [fst snd] in Q2, Hd;
    pose proof (tried_quiet _ _ _ _ _ H1 (quiet_trans _ _ _ Q1 Q2)) as H2.
  - destruct Hd as [Hn Hx]. pose proof (timer_quiet d w3) as Q3. unfold timer in *.
    destruct (rh_wait host d w3) as [[] w4]; cbn [snd] in Q3; pose proof (tried_quiet _ _ _ _ _ H2 Q3) as H3.
    2: { exists [c]. split; [done|]. split; [cbn; lia|done]. }
    destruct Hc as [Hc|Hc]; [congruence|].
    specialize (IH (m - 1)%nat ltac:(lia) (Datatypes.S n) (Some (opt_or f0 t)) w4 ltac:(lia) ltac:(lia)).
    destruct (iteration _ _ _ _ _ _ _ _ w4) as [o w5]. destruct IH as (os & Ht & Hlen & Hend).
    exists (c :: os). split; [by apply (tried_trans _ [c] os _ w4)|].
    split; [cbn; lia|]. destruct o as [a|y|]; [| |done].
    + destruct Hend as (fails & -> & Hf). exists (c :: fails). split; [done|]. constructor; [by exists x|done].
    + destruct Hend as [?|(fails & -> & Hf & Hl)]; [by left|]. right. exists (c :: fails). split; [done|].
      split; [constructor; [by exists x|done]|]. cbn in *. lia.
  - exists [c]. split; [done|]. split; [cbn; lia|]. cbn.
    destruct Hc as [?| ->]; [by left|]. destruct Hd as [Hd|?]; [|by left]. right. exists []. split; [done|].
    split; [constructor|]. cbn. lia.
Qed.

Lemma saveAttempt_quiet name n t e : quietly (saveAttempt host params name n t e).
Proof.
  unfold saveAttempt. destruct (hasCapability CapStepAttempts); [|apply quietly_ret].
  apply quietly_bind; [apply quietly_now|]. intros t'. apply checkpointWrite_quiet. intros w.
  by apply back_attempt_quiet.
Qed.

Lemma record_puts name status e w : name ∈ back_rows -> with_ledger_cap (W := W) = true ->
  let '(o, w') := record_outcome host params name status e w in
  put back_held ledger back_log name (Some status) w w' o.
Proof.
  intros Hn Hcap. unfold record_outcome. rewrite Hcap. apply checkpointWrite_puts. intros w1.
  by apply back_ledger_puts.
Qed.

(** What a checkpoint write throws abandons the run. *)
Lemma saveAttempt_error name n t e x w w' : saveAttempt host params name n t e w = (Throws x, w') -> isAbandonRunExit x = true.
Proof.
  unfold saveAttempt. destruct (hasCapability CapStepAttempts); [|done]. unfold a_bind, currentTimeMs, a_sync.
  destruct (rh_now host w) as [t' w1]. unfold checkpointWrite, a_catch.
  destruct (retryAsync _ _ _ _ _ _ w1) as [[a|y|] w2] eqn:Er; [done| |done]. unfold a_throw. intros [= <- _].
  destruct (isControlFlowExit y) eqn:Ey; [|by apply back_write_error].
  apply loop_result in Er as [(n' & s1 & s2 & Hw)|(d & s1 & s2 & Hw)]; [by apply (back_attempt_error _ _ _ _ Hw)|].
  unfold timer in Hw. by destruct (rh_wait host d s1) as [[] ?].
Qed.

Lemma last_attempt_quiet name : quietly (lastCompensationAttempt params name).
Proof.
  unfold lastCompensationAttempt. destruct (hasCapability CapStepAttempts); [|apply quietly_ret].
  apply quietly_bind; [|intros; apply quietly_ret]. intros w. apply back_attempts_quiet.
Qed.

Lemma try_compensate_once step f result first :
  step ∈ rb_steps params -> cs_compensate step = Some f ->
  one_try (cs_name step, result) (try_compensate host params f (cs_name step) result first).
Proof.
  intros Hin Hf n w. unfold try_compensate, a_bind at 1, currentTimeMs, a_sync.
  pose proof (now_quiet w) as Q0. destruct (rh_now host w) as [t w1]. cbn [snd] in Q0. unfold a_bind, a_catch.
  pose proof (back_compensates step f result w1 Hin Hf) as Hc.
  destruct (f result (rb_input params) (rb_workflowId params) w1) as [c w2].
  assert (tried (cs_name step, result) [c] w w2) as Ht by (eapply quiet_tried_trans; [exact Q0|exact Hc]).
  destruct c as [[]|e|]; [| |by exists Died].
  - pose proof (saveAttempt_quiet (cs_name step) (first + Z.of_nat n + 1) t None w2) as Q.
    destruct (saveAttempt _ _ _ _ _ None w2) as [[[]|x|] w3] eqn:Es; exists (Ret tt); (split; [by apply (tried_quiet _ _ _ w2)|]); try done.
    left. by apply saveAttempt_error in Es.
  - pose proof (saveAttempt_quiet (cs_name step) (first + Z.of_nat n + 1) t (Some e) w2) as Q. unfold a_throw.
    destruct (saveAttempt _ _ _ _ _ (Some e) w2) as [[[]|x|] w3] eqn:Es; exists (Throws e); (split; [by apply (tried_quiet _ _ _ w2)|]); try done.
    + by right.
    + left. by apply saveAttempt_error in Es.
Qed.

(** ** One step *)
(** What a step's compensation is called with: its decoded result. *)
Definition stored_for (rows : list (string * StepState)) (step : CompensatableStep W) : json :=
  match step_row rows (cs_name step) with Some row => st_result row | None => JUndef end.

Definition result_for (rows : list (string * StepState)) (step : CompensatableStep W) : json :=
  match cs_codec step with
  | Some codec => match codec_decode codec (stored_for rows step) with Ok v => v | Err _ => JUndef end
  | None => stored_for rows step
  end.

Definition call_of (rows : list (string * StepState)) (step : CompensatableStep W) : string * json :=
  (cs_name step, result_for rows step).

(** The stored result does not decode, so there is nothing to call with. *)
Definition undecodable (rows : list (string * StepState)) (step : CompensatableStep W) (e : thrown) : Prop :=
  exists codec, cs_codec step = Some codec /\ codec_decode codec (stored_for rows step) = Err e.

(** The outcome a step is recorded with, by the ends of its calls. *)
Definition settled (rows : list (string * StepState)) (step : CompensatableStep W) (os : list (outcome unit))
    (failure : option thrown) : Prop :=
  match failure with
  | None => exists fails, os = fails ++ [Ret tt] /\ Forall threw fails
  | Some e =>
      (os = [] /\ undecodable rows step e) \/
      exists fails, os = fails ++ [Throws e] /\ Forall threw fails /\ length os = max_tries
  end.

Lemma compensate_step_tried rows step first w :
  step ∈ rb_steps params -> is_Some (cs_compensate step) ->
  let '(o, w') := compensate_step host params rows step first w in
  exists os, (length os <= max_tries)%nat /\ tried (call_of rows step) os w w' /\
    match o with
    | Ret _ => settled rows step os None
    | Throws e => isAbandonRunExit e = true \/ settled rows step os (Some e)
    | Died => True
    end.
Proof.
  intros Hin [f Hf]. unfold compensate_step, compensation_of, call_of, result_for, settled, undecodable, stored_for. rewrite Hf.
  set (stored := match step_row rows (cs_name step) with Some row => st_result row | None => JUndef end).
  assert (forall v, let '(o, w') := retryAsync (rh_now host) (rh_random host) (timer host) (fun _ => false)
      (try_compensate host params f (cs_name step) v first) (rollback_policy params) w in
    exists os, (length os <= max_tries)%nat /\ tried (cs_name step, v) os w w' /\ tries_end max_tries os o) as Htries.
  { intros v. rewrite retryAsync_iteration.
    pose proof (loop_tried (cs_name step, v) (try_compensate host params f (cs_name step) v first) 0 None w
      ltac:(by apply try_compensate_once) ltac:(unfold max_tries; lia)) as Hl. destruct (iteration _ _ _ _ _ _ _ _ w) as [o w'].
    destruct Hl as (os & Ht & Hlen & Hend). rewrite Nat.sub_0_r in Hlen, Hend. by exists os. }
  assert (forall v, let '(o, w') := retryAsync (rh_now host) (rh_random host) (timer host) (fun _ => false)
      (try_compensate host params f (cs_name step) v first) (rollback_policy params) w in
    exists os, (length os <= max_tries)%nat /\ tried (cs_name step, v) os w w' /\
    match o with
    | Ret _ => exists fails, os = fails ++ [Ret tt] /\ Forall threw fails
    | Throws e => isAbandonRunExit e = true \/
        (os = [] /\ exists codec, cs_codec step = Some codec /\ codec_decode codec stored = Err e) \/
        exists fails, os = fails ++ [Throws e] /\ Forall threw fails /\ length os = max_tries
    | Died => True
    end) as Hend.
  { intros v. specialize (Htries v). destruct (retryAsync _ _ _ _ _ _ w) as [o w']. destruct Htries as (os & Hlen & Ht & He).
    exists os. split; [done|]. split; [done|]. destruct o; cbn in He; tauto. }
  unfold a_bind, a_lift, a_ret. destruct (cs_codec step) as [codec|] eqn:Hco; [|apply Hend].
  destruct (codec_decode codec stored) as [v|e] eqn:Hdec; [apply Hend|].
  exists []. split; [cbn; lia|]. split; [by apply quiet_tried, quiet_refl|]. right. left. eauto.
Qed.

Definition status_of (failure : option thrown) : StepCompensationStatus :=
  match failure with Some _ => LCompensationFailed | None => LCompensated end.

Definition step_back_spec (rows : list (string * StepState)) (step : CompensatableStep W)
    (w : W) (o : outcome (option thrown)) (w' : W) : Prop :=
  exists os, (length os <= max_tries)%nat /\ back_log w' = back_log w ++ (pair (call_of rows step) <$> os) /\
    match o with Ret failure => settled rows step os failure | _ => True end /\
    (back_held w' -> back_held w /\ (forall y, y <> cs_name step -> ledger w' y = ledger w y) /\
       match o with Ret failure => ledger w' (cs_name step) = Some (status_of failure) | _ => True end).

Lemma tried_step_back rows step os w w' o :
  (length os <= max_tries)%nat -> tried (call_of rows step) os w w' -> (forall f, o <> Ret f) -> step_back_spec rows step w o w'.
Proof.
  intros Hk [El Hl] Ho. exists os. split; [done|]. split; [done|]. destruct o as [f| |]; [by destruct (Ho f)|..];
    (split; [done|]); intros [Hh Hs]%Hl; by repeat split.
Qed.

Lemma roll_back_step_spec rows step w :
  step ∈ rb_steps params -> is_Some (cs_compensate step) -> cs_name step ∈ back_rows -> with_ledger_cap (W := W) = true ->
  let '(o, w') := roll_back_step host params rows step w in step_back_spec rows step w o w'.
Proof.
  intros Hin Hc Hrow Hcap. unfold roll_back_step. destruct (rb_signal params w) as [reason|].
  { apply (tried_step_back _ _ []); [cbn; lia|by apply quiet_tried, quiet_refl|done]. }
  set (m0 := if rb_resumed params then lastCompensationAttempt params (cs_name step) else a_ret 0).
  assert (quietly m0) as Q0.
  { subst m0. destruct (rb_resumed params); [apply last_attempt_quiet|apply quietly_ret]. }
  specialize (Q0 w). rename Q0 into Q1. clearbody m0. unfold a_bind at 1.
  destruct (m0 w) as [[first|e|] w1]; cbn [snd] in Q1;
    try (apply (tried_step_back _ _ []); [cbn; lia|by apply quiet_tried|done]).
  pose proof (compensate_step_tried rows step first w1 Hin Hc) as Hcs. unfold a_bind, a_catch, a_ret, a_throw.
  destruct (compensate_step host params rows step first w1) as [[[]|e|] w2]; destruct Hcs as (os & Hk & Ht & Hend);
    pose proof (quiet_tried_trans _ _ _ _ _ Q1 Ht) as Ht'.
  3: { by apply (tried_step_back _ _ os). }
  2: destruct (isAbandonRunExit e); [by apply (tried_step_back _ _ os)|destruct Hend as [?|Hend]; [done|]].
  all: match goal with |- context [record_outcome host params ?n ?st ?er ?v] =>
      pose proof (record_puts n st er v Hrow Hcap) as Hp; destruct (record_outcome host params n st er v) as [[[]|x|] w3] end;
    destruct Hp as [El Hp]; exists os; (split; [done|]); (split; [by rewrite El, (proj1 Ht')|]); (split; [done|]);
    intros (Hh & Hother & Hx)%Hp; destruct (proj2 Ht' Hh) as [Hh0 Hsame]; (split; [done|]);
    (split; [intros y Hy; by rewrite Hother|]); done.
Qed.

(** ** The loop *)
Definition calls_of (rows : list (string * StepState)) (l : list (CompensatableStep W)) (oss : list (list (outcome unit)))
    : list (string * json * outcome unit) :=
  concat (zip_with (fun s os => pair (call_of rows s) <$> os) l oss).

(** Of the pending steps those of [fs] settled, each with the outcome its
    calls ended with; the next one may have been tried. *)
Definition loop_spec (rows : list (string * StepState)) (pending : list (CompensatableStep W)) (fs : list (option thrown))
    (w w' : W) : Prop :=
  exists oss, Forall (fun os => length os <= max_tries)%nat oss /\
    back_log w' = back_log w ++ calls_of rows (take (Datatypes.S (length fs)) pending) oss /\
    (forall i s f, pending !! i = Some s -> fs !! i = Some f -> exists os, oss !! i = Some os /\ settled rows s os f) /\
    (back_held w' -> back_held w /\
       (forall y, (y ∉ cs_name <$> take (Datatypes.S (length fs)) pending) -> ledger w' y = ledger w y) /\
       forall i s f, pending !! i = Some s -> fs !! i = Some f -> ledger w' (cs_name s) = Some (status_of f)).

Definition reported (report : CompensationReport) (pending : list (CompensatableStep W)) (fs : list (option thrown)) : CompensationReport :=
  foldl (fun r e => add_outcome r e.1 e.2) report (zip (cs_name <$> pending) fs).

Lemma roll_back_spec rows pending report w :
  Forall (fun s => s ∈ rb_steps params /\ is_Some (cs_compensate s) /\ cs_name s ∈ back_rows) pending ->
  NoDup (cs_name <$> pending) -> with_ledger_cap (W := W) = true ->
  let '(o, w') := roll_back host params rows pending report w in
  exists fs, loop_spec rows pending fs w w' /\
    match o with
    | Ret r => length fs = length pending /\ r = reported report pending fs
    | _ => (length fs < length pending)%nat
    end.
Proof.
  intros Hall Hnd Hcap. revert report w. induction pending as [|step pending IH]; intros report w; cbn [roll_back].
  { exists []. split; [|done]. exists []. split; [constructor|]. cbn. rewrite app_nil_r. split; [done|]. split; [done|].
    intros Hh. split; [done|]. split; [done|]. done. }
  apply Forall_cons in Hall as [(Hin & Hc & Hrow) Hall]. cbn [fmap list_fmap] in Hnd. apply NoDup_cons in Hnd as [Hn Hnd].
  pose proof (roll_back_step_spec rows step w Hin Hc Hrow Hcap) as Hs. unfold a_bind.
  destruct (roll_back_step host params rows step w) as [o w1]. destruct Hs as (os & Hk & El & Hset1 & Hl).
  assert (forall (o' : outcome CompensationReport), (forall f, o <> Ret f) -> exists fs, loop_spec rows (step :: pending) fs w w1 /\ (length fs < length (step :: pending))%nat) as Hstop.
  { intros _ Ho. exists []. split; [|cbn; lia]. exists [os]. split; [by apply Forall_singleton|]. cbn. rewrite app_nil_r.
    split; [done|]. split; [done|]. intros (Hh & Hother & _)%Hl. split; [done|]. split; [|done].
    intros y Hy. apply Hother. intros ->. apply Hy. left. }
  destruct o as [f|e|]; [|by apply (Hstop (Throws e))|by apply (Hstop Died)].
  specialize (IH Hall Hnd (add_outcome report (cs_name step) f) w1).
  destruct (roll_back host params rows pending _ w1) as [o2 w2]. destruct IH as (fs & (oss & Hks & El2 & Hset2 & Hl2) & Ho).
  exists (f :: fs). split.
  - exists (os :: oss). split; [by constructor|]. cbn [length take]. split; [|split].
    { rewrite El2, El, <- app_assoc. done. }
    { intros [|i] s f' Hi Hf; cbn in Hi, Hf |- *; [simplify_eq; by exists os|by eapply Hset2]. }
    intros (Hh1 & Hother2 & Hset)%Hl2. destruct (Hl Hh1) as (Hh & Hother & Hx). split; [done|]. split.
    + intros y Hy. cbn [fmap list_fmap] in Hy. apply not_elem_of_cons in Hy as [Hy1 Hy2]. by rewrite Hother2, Hother.
    + intros [|i] s f' Hi Hf; cbn in Hi, Hf.
      * injection Hi as <-. injection Hf as <-. rewrite Hother2; [done|]. intros Hin2. apply Hn.
        apply list_elem_of_fmap in Hin2 as (s' & -> & Hs'). apply list_elem_of_fmap_2.
        apply elem_of_take in Hs' as (j & Hj & _). by eapply list_elem_of_lookup_2.
      * by eapply Hset.
  - destruct o2 as [r|e|]; cbn [length]; [|lia|lia]. destruct Ho as [-> ->]. done.
Qed.

(** ** The report *)
Definition unrecorded (rows : list (string * StepState)) (s : CompensatableStep W) : bool :=
  match row_ledger rows (cs_name s) with
  | Some LCompensated | Some LCompensationFailed => false
  | _ => true
  end.

Definition report_names (r : CompensationReport) : list string := cr_compensated r ++ (cr_failed r).*1.

(** Every entry of a report has its place in a ledger. *)
Definition report_ok (P : string -> StepCompensationStatus -> Prop) (r : CompensationReport) : Prop :=
  (forall n, n ∈ cr_compensated r -> P n LCompensated) /\
  (forall n, n ∈ (cr_failed r).*1 -> P n LCompensationFailed).

Lemma report_ok_impl (P Q : string -> StepCompensationStatus -> Prop) r :
  (forall n f, P n (status_of f) -> Q n (status_of f)) -> report_ok P r -> report_ok Q r.
Proof.
  intros HPQ [H1 H2]. split; intros n Hn; [by apply (HPQ n None), H1|].
  by apply (HPQ n (Some not_a_function)), H2.
Qed.

Lemma report_ok_add P r n f : report_ok P r -> P n (status_of f) -> report_ok P (add_outcome r n f).
Proof.
  intros [H1 H2] Hn. destruct f as [e|]; split; cbn; try done; intros m; rewrite ?fmap_app, elem_of_app.
  - cbn. rewrite list_elem_of_singleton. intros [?| ->]; [by apply H2|done].
  - rewrite list_elem_of_singleton. intros [?| ->]; [by apply H1|done].
Qed.

Lemma report_names_add r n f : report_names (add_outcome r n f) ≡ₚ report_names r ++ [n].
Proof.
  unfold report_names. destruct f as [e|]; cbn; [by rewrite fmap_app, app_assoc|].
  rewrite <- !app_assoc. apply Permutation_app_head. by rewrite Permutation_app_comm.
Qed.

(** The outcome the ledger has, as the report lists it. *)
Lemma recorded_ledger rows (s : CompensatableStep W) :
  match recorded_outcome (step_row rows (cs_name s)) with
  | Some RecCompensated => unrecorded rows s = false /\ row_ledger rows (cs_name s) = Some (status_of None)
  | Some (RecFailed e) => unrecorded rows s = false /\ row_ledger rows (cs_name s) = Some (status_of (Some e))
  | None => unrecorded rows s = true
  end.
Proof.
  unfold recorded_outcome, unrecorded, row_ledger. destruct (step_row rows (cs_name s)) as [r|]; [|done]. cbn.
  by destruct (compensationStatus (st_ledger r)) as [[]|].
Qed.

Lemma sort_recorded_spec rows order report pending : with_ledger_cap (W := W) = true ->
  let '(r, p) := sort_recorded rows order report pending in
  p = pending ++ List.filter (unrecorded rows) order /\
  report_names r ++ (cs_name <$> p) ≡ₚ report_names report ++ (cs_name <$> pending) ++ (cs_name <$> order) /\
  (report_ok (fun n st => row_ledger rows n = Some st) report ->
   report_ok (fun n st => row_ledger rows n = Some st) r).
Proof.
  intros Hcap. revert report pending. induction order as [|s order IH]; intros report pending; cbn [sort_recorded].
  { cbn. by rewrite !app_nil_r. }
  rewrite Hcap. pose proof (recorded_ledger rows s) as Hl. cbn [List.filter].
  destruct (recorded_outcome (step_row rows (cs_name s))) as [[|e]|]; [destruct Hl as [-> Hl]..|rewrite Hl].
  1: change (mkReport _ _) with (add_outcome report (cs_name s) None).
  2: change (mkReport _ _) with (add_outcome report (cs_name s) (Some e)).
  1, 2: match goal with |- context [sort_recorded ?rows ?order ?r ?pending] =>
      specialize (IH r pending); destruct (sort_recorded rows order r pending) as [r' p] end;
    destruct IH as (-> & Hp & Hok); split; [done|]; split; [|intros Hr; apply Hok; by apply report_ok_add];
    rewrite Hp, report_names_add; cbn [fmap list_fmap];
    rewrite <- !app_assoc; apply Permutation_app_head; cbn; by rewrite Permutation_middle.
  specialize (IH report (pending ++ [s])). destruct (sort_recorded rows order report _) as [r' p].
  destruct IH as (-> & Hp & Hok). split; [by rewrite <- app_assoc|]. split; [|done].
  rewrite Hp, fmap_app, <- app_assoc. done.
Qed.

Lemma reported_names pending fs report : length fs = length pending ->
  report_names (reported report pending fs) ≡ₚ report_names report ++ (cs_name <$> pending).
Proof.
  revert fs report. induction pending as [|s pending IH]; intros [|f fs] report Hlen; try done.
  - unfold reported. cbn. by rewrite app_nil_r.
  - change (reported report (s :: pending) (f :: fs)) with (reported (add_outcome report (cs_name s) f) pending fs).
    rewrite IH by (by injection Hlen). rewrite report_names_add, <- app_assoc. done.
Qed.

Lemma reported_ok P pending fs report : report_ok P report ->
  (forall i s f, pending !! i = Some s -> fs !! i = Some f -> P (cs_name s) (status_of f)) ->
  report_ok P (reported report pending fs).
Proof.
  revert fs report. induction pending as [|s pending IH]; intros [|f fs] report Hr HP; try done.
  change (reported report (s :: pending) (f :: fs)) with (reported (add_outcome report (cs_name s) f) pending fs).
  apply IH; [apply report_ok_add; [done|by apply (HP 0%nat)]|]. intros i s' f' Hs Hf. by apply (HP (Datatypes.S i)).
Qed.

(** ** The rollback *)
Lemma unrecorded_ledger rows s st : unrecorded rows s = true -> row_ledger rows (cs_name s) = Some st -> st = LPending.
Proof.
  unfold unrecorded. intros Hu Hst. rewrite Hst in Hu. by destruct st.
Qed.

Lemma recorded_not_unrecorded rows s f : row_ledger rows (cs_name s) = Some (status_of f) -> unrecorded rows s = false.
Proof.
  intros Hl. destruct (unrecorded rows s) eqn:Hu; [|done].
  pose proof (unrecorded_ledger _ _ _ Hu Hl). by destruct f.
Qed.

(** C10. A rollback of distinctly named steps whose graph has an order, by a
    driver that held the lock when it loaded the run. Of the steps the
    order lists, those with an outcome in the ledger are not called again.
    The others are settled in order: each is called with its stored result,
    decoded, until a call succeeds or the policy's tries have failed, and it
    is recorded as compensated when the last call succeeded and as failed,
    with the error of the last call, when as many as the policy allows have
    failed - or, uncalled, when its stored result does not decode. When the
    driver returns, every step of the order is settled, and its report lists
    each of them once: under its outcome, as the ledger does. When it rejects
    or dies in between, all but the step it was at have settled or were not
    called, and what it left in the ledger is not called again by the next
    driver. *)
Theorem compensateWorkflow_exact st w w1 o w' l :
  dn_name <$> rb_dagNodes params = cs_name <$> rb_steps params -> NoDup (cs_name <$> rb_steps params) ->
  topologicalSort (rb_dagNodes params) = Some (Ok l) -> with_ledger_cap (W := W) = true ->
  rs_loadWorkflow (rb_workflowId params) w = (Ret (Some st), w1) -> back_held w1 ->
  compensateWorkflow host params w = (o, w') ->
  exists order fs,
    compensationOrder (rb_steps params) (ws_steps st) (rb_dagNodes params) = Some order /\
    let pending := List.filter (unrecorded (ws_steps st)) order in
    loop_spec (ws_steps st) pending fs w1 w' /\
    (match o with
     | Ret None => False
     | Ret (Some report) =>
         length fs = length pending /\ report_names report ≡ₚ cs_name <$> order /\
         report_ok (fun n status =>
           (exists i s f, pending !! i = Some s /\ fs !! i = Some f /\ cs_name s = n /\ status = status_of f) \/
           row_ledger (ws_steps st) n = Some status) report /\
         (back_held w' -> report_ok (fun n status => ledger w' n = Some status) report)
     | _ => (length fs < length pending)%nat
     end) /\
    (back_held w' -> forall st2 w2, rs_loadWorkflow (rb_workflowId params) w' = (Ret (Some st2), w2) -> back_held w2 ->
       forall i s f, pending !! i = Some s -> fs !! i = Some f -> unrecorded (ws_steps st2) s = false).
Proof.
  intros Hnodes Hnd Hsort Hcap Hload Hheld.
  destruct (compensationOrder_steps (rb_steps params) (ws_steps st) (rb_dagNodes params) Hnodes Hnd l Hsort)
    as (order & Ho & Hno & Hin). unfold compensateWorkflow, a_bind at 1. rewrite Hload, Ho.
  pose proof (sort_recorded_spec (ws_steps st) order (mkReport [] []) [] Hcap) as Hsr.
  destruct (sort_recorded (ws_steps st) order (mkReport [] []) []) as [report pending].
  destruct Hsr as (-> & Hperm & Hrep). cbn [app] in *. set (pending := List.filter (unrecorded (ws_steps st)) order) in *.
  assert (forall s, s ∈ pending -> s ∈ order /\ unrecorded (ws_steps st) s = true) as Hpend.
  { intros s Hs%list_elem_of_In%filter_In. by rewrite list_elem_of_In. }
  pose proof (roll_back_spec (ws_steps st) pending report w1) as Hrb. intros Hrun.
  destruct (roll_back host params (ws_steps st) pending report w1) as [o2 w2] eqn:Er.
  destruct Hrb as (fs & Hspec & Hout); [| |done|].
  { apply Forall_forall. intros s [Hs _]%Hpend. destruct (Hin s Hs) as (? & Hst & ?).
    split; [done|]. split; [done|]. apply (back_loaded _ _ _ Hload Hheld). intros Hnone. unfold has_status in Hst.
    rewrite Hnone in Hst. by apply bool_decide_eq_true in Hst. }
  { eapply sublist_NoDup; [exact Hno|]. apply fmap_sublist, List_filter_sublist. }
  assert (w' = w2) as -> by (unfold a_bind in Hrun; rewrite Er in Hrun; by destruct o2; injection Hrun).
  assert (report_ok (fun n status => row_ledger (ws_steps st) n = Some status) report) as Hrows.
  { apply Hrep. split; intros n Hn; by apply not_elem_of_nil in Hn. }
  exists order, fs. split; [done|]. split; [exact Hspec|]. destruct Hspec as (oss & _ & _ & _ & Hl). split.
  - unfold a_bind, a_ret in Hrun. rewrite Er in Hrun. destruct o2 as [r|e|]; injection Hrun as <-; try done.
    destruct Hout as [Hlen ->]. split; [done|]. split; [by rewrite reported_names, Hperm by done|]. split.
    + apply reported_ok; [|intros i s f Hs Hf; left; by exists i, s, f].
      eapply report_ok_impl; [|exact Hrows]. by right.
    + intros (_ & Hother & Hset)%Hl. apply reported_ok; [|exact Hset]. eapply report_ok_impl; [|exact Hrows].
      intros n f Hrow. rewrite Hother.
      { by rewrite (proj2 (back_loaded _ _ _ Hload Hheld n)). }
      intros (s & -> & Hs)%list_elem_of_fmap. apply elem_of_take in Hs as (i & Hi & _).
      apply list_elem_of_lookup_2 in Hi as [_ Hs]%Hpend. by rewrite (recorded_not_unrecorded _ _ _ Hrow) in Hs.
  - intros (_ & _ & Hset)%Hl st2 w3 Hload2 Hheld2 i s f Hs Hf. apply (recorded_not_unrecorded _ _ f).
    rewrite <- (proj2 (back_loaded _ _ _ Hload2 Hheld2 (cs_name s))).
    pose proof (back_load_quiet w2) as [_ Hq]. rewrite Hload2 in Hq. rewrite (proj2 (Hq Hheld2)). by eapply Hset.
Qed.
End rollback.
