(* ===== verification/RunRel.v ===== *)
(** Relations on the world that a run of the step graph and a rollback keep,
    when every call they make of their world does. *)
From Stdlib Require Import QArith.
From S2P Require Import Prelude Leases Json Journal RunState Storage Exits Retry Replay Dag RollbackOrder StepBody Checkpoint AsyncRel Waves Compensate.
Open Scope string_scope.
Open Scope list_scope.
Open Scope Z_scope.

(** What a run of the graph asks of its world. *)
Class RunKeeps {W} `{RunStore W} (R : W -> W -> Prop) (host : RunnerHost W) (ctx : DagExecutionContext W)
    (wid : string) : Prop := {
  run_host_kept : HostKeeps R host;
  timed_out_kept : forall ms w, R w (rh_timed_out host ms w).2;
  hook_kept : forall hook e w, dc_hooks ctx = Some hook -> R w (hook e w).2;
  status_kept : keeps R (rs_loadWorkflowStatus wid);
  notify_kept : forall n, keeps R (rs_notifyStepStarted wid n);
  attempt_kept : forall r, at_workflowId r = wid -> keeps R (rs_saveStepAttempt (dc_guard ctx) r);
  execute_kept : forall d p m w, d ∈ dc_steps ctx -> R w (sd_execute d p (m, w)).2.2;
  checkpoint_kept : forall c, cp_workflowId c = wid -> keeps R (rs_checkpointStep (dc_guard ctx) c);
  result_kept : forall r, sr_workflowId r = wid -> keeps R (rs_saveStepResult (dc_guard ctx) r);
  failure_kept : forall r, sf_workflowId r = wid -> keeps R (rs_saveStepFailure (dc_guard ctx) r);
}.
#[export] Existing Instance run_host_kept.

Section dag.
Context {W : Type} `{RunStore W} (R : W -> W -> Prop) `{!PreOrder R} (host : RunnerHost W).
Context (ctx : DagExecutionContext W) (wid : string) `{!RunKeeps R host ctx wid}.

Lemma keeps_hook e : keeps R (fireHook ctx e).
Proof.
  intros w. unfold fireHook. destruct (dc_hooks ctx) as [hook|] eqn:E; [|reflexivity]. by apply hook_kept.
Qed.

Lemma keeps_failed_attempts name l : keeps R (saveFailedAttempts host ctx wid name l).
Proof.
  induction l as [|f l IH]; cbn [saveFailedAttempts]; unfold write_one; keep; try done; try apply _.
  by apply attempt_kept.
Qed.

Lemma keeps_checkpoint_rows i settled tag failed : keeps R (checkpoint_rows host ctx wid i settled tag failed).
Proof.
  unfold checkpoint_rows, write_one. keep; try apply _; try apply keeps_failed_attempts;
    first [by apply checkpoint_kept|by apply result_kept|by apply failure_kept|apply attempt_kept].
  all: unfold lastAttempt; by destruct settled.
Qed.

Lemma keeps_checkpoint o failed : keeps R (checkpointStepOutcome host ctx wid o failed).
Proof. unfold checkpointStepOutcome. keep; apply keeps_checkpoint_rows. Qed.

Lemma keeps_run_active signal observed : keeps R (assertRunActive host wid signal observed).
Proof.
  intros w. unfold assertRunActive. destruct (signal w); [reflexivity|].
  match goal with |- R w (?m w).2 => enough (keeps R m) as Hm by apply Hm end.
  keep. apply status_kept.
Qed.

Context (order : list (StepDefinition W) -> W -> list (StepDefinition W)) (params : DagParams).
Hypothesis order_steps : forall l w, order l w ≡ₚ l.
Hypothesis for_run : dp_workflowId params = wid.
#[local] Abbreviation R2 := (on_second (X := jmap string Z) R).

Lemma keeps_on_world {A} (m : async W A) : keeps R m -> keeps R2 (on_world m).
Proof. intros Hm [a w]. specialize (Hm w). unfold on_world, on_second. cbn. by destruct (m w). Qed.

Lemma keeps_runStep results d : d ∈ dc_steps ctx -> keeps R2 (runStep host ctx params results d).
Proof using for_run PreOrder0 RunKeeps0.
  intros Hd [attempts w]. unfold runStep.
  match goal with |- R2 _ (?m ?s).2 => enough (keeps R2 m) as Hm by apply Hm end.
  rewrite for_run. keep; try apply keeps_on_world; try apply keeps_checkpoint.
  - unfold skippedOutcome. keep; apply _.
  - keep. apply _.
  - intros w1. unfold run_body. pose proof (runStepBody_rel host R now_kept random_kept wait_kept timed_out_kept d
      (dp_workflowId params) (execute_params ctx params results d) (fun n m w => execute_kept d _ m w Hd)
      (opt_or (attempts !! sd_name d) 0 + 1) w1) as Hb.
    by destruct (runStepBody _ _ _ _ _ w1) as [[b|] w2].
  - intros s. unfold on_second. reflexivity.
  - unfold outcomeOfBody. keep. apply _.
Qed.

Lemma keeps_settle_all results l : Forall (fun d => d ∈ dc_steps ctx) l -> keeps R2 (settle_all host ctx params results l).
Proof using for_run PreOrder0 RunKeeps0.
  induction 1 as [|d l Hd Hl IH]; cbn [settle_all]; [apply (async_ret R2)|]. intros s.
  pose proof (keeps_runStep results d Hd s) as H1. destruct (runStep host ctx params results d s) as [[c|e|] s1];
    cbn in H1; try done; etrans; try exact H1;
    match goal with |- R2 _ (?m ?s).2 => enough (keeps R2 m) as Hm by apply Hm end; keep; exact IH.
Qed.

Lemma steps_by_name_elem name d : steps_by_name ctx !! name = Some d -> d ∈ dc_steps ctx.
Proof.
  unfold steps_by_name. assert (forall l (m : jmap string (StepDefinition W)),
    foldl (fun m d => <[sd_name d := d]> m) m l !! name = Some d -> d ∈ l \/ m !! name = Some d) as Hf.
  { induction l as [|d' l IH]; intros m; cbn [foldl]; [by right|]. intros [Hin|Hin]%IH; [left; by right|].
    rewrite jlookup_insert in Hin. case_decide; [injection Hin as <-; left; by left|by right]. }
  intros [?|Hn]%Hf; [done|]. by rewrite jlookup_empty in Hn.
Qed.

Lemma keeps_outcomes outcomes v : keeps R (fold_outcomes ctx params outcomes v).
Proof.
  revert v. induction outcomes as [|o outcomes IH]; intros v; cbn [fold_outcomes]; keep; [|apply IH].
  unfold fold_outcome. destruct o; keep; apply keeps_hook.
Qed.

Lemma keeps_failures outcomes : keeps R (report_failures host ctx params outcomes).
Proof. induction outcomes as [|[] outcomes IH]; cbn [report_failures]; keep; try done; apply keeps_hook. Qed.

Lemma keeps_notify l : keeps R (notifyStepsStarted wid l).
Proof.
  induction l as [|d l IH]; cbn [notifyStepsStarted]; keep; [|done]. apply notify_kept.
Qed.

Lemma keeps_deadline : keeps R (past_deadline host params).
Proof. unfold past_deadline. keep. apply _. Qed.

Lemma keeps_settleWave results l : Forall (fun d => d ∈ dc_steps ctx) l ->
  keeps R2 (settleWave host order ctx params results l).
Proof using for_run order_steps PreOrder0 RunKeeps0.
  intros Hl s. unfold settleWave.
  match goal with |- R2 _ (?m ?s).2 => enough (keeps R2 m) as Hm by apply Hm end.
  keep. apply keeps_settle_all. by rewrite order_steps.
Qed.

Lemma keeps_wave wave observed v : keeps R2 (run_wave host order ctx params wave observed v).
Proof using for_run order_steps PreOrder0 RunKeeps0.
  assert (forall outcomes v, keeps R (after_wave host ctx params outcomes v)) as Hafter.
  { intros outcomes v0. unfold after_wave.
    keep; first [apply keeps_outcomes|apply keeps_failures|apply keeps_deadline]. }
  unfold run_wave. rewrite for_run. keep; try apply keeps_on_world.
  - apply keeps_run_active.
  - apply keeps_deadline.
  - apply keeps_notify.
  - apply keeps_settleWave. apply Forall_forall. intros d (name & _ & Hd)%list_elem_of_omap.
    by apply steps_by_name_elem in Hd.
  - apply Hafter.
Qed.

Lemma keeps_wave_loop fuel wave observed v : keeps R2 (wave_loop host order ctx fuel params wave observed v).
Proof using for_run order_steps PreOrder0 RunKeeps0.
  revert wave observed v. induction fuel as [|fuel IH]; intros wave observed v; cbn [wave_loop]; unfold final_result;
    keep; first [apply keeps_wave|apply IH].
Qed.

Lemma keeps_executeWorkflowDag : keeps R2 (executeWorkflowDag host order ctx params).
Proof using for_run order_steps PreOrder0 RunKeeps0. unfold executeWorkflowDag. keep. apply keeps_wave_loop. Qed.
End dag.

(** What a rollback asks of its world. *)
Class RollbackKeeps {W} `{RunStore W} (R : W -> W -> Prop) (host : RunnerHost W) (params : RollbackParams W) : Prop := {
  rollback_host_kept : HostKeeps R host;
  rollback_load_kept : keeps R (rs_loadWorkflow (rb_workflowId params));
  attempts_kept : forall n, keeps R (rs_loadStepAttempts (rb_workflowId params) n);
  rollback_attempt_kept : forall r, at_workflowId r = rb_workflowId params ->
    keeps R (rs_saveStepAttempt (rb_guard params) r);
  ledger_kept : forall x status e,
    keeps R (rs_saveStepCompensation (rb_guard params) (rb_workflowId params) x status e);
  compensate_kept : forall step f r, step ∈ rb_steps params -> cs_compensate step = Some f ->
    keeps R (f r (rb_input params) (rb_workflowId params));
}.
#[export] Existing Instance rollback_host_kept.

Section rollback.
Context {W : Type} `{RunStore W} (R : W -> W -> Prop) `{!PreOrder R} (host : RunnerHost W).
Context (params : RollbackParams W) `{!RollbackKeeps R host params}.

Lemma keeps_saveAttempt name n t e : keeps R (saveAttempt host params name n t e).
Proof. unfold saveAttempt. keep; try apply _. by apply rollback_attempt_kept. Qed.

Lemma keeps_roll_back_step rows step : step ∈ rb_steps params -> keeps R (roll_back_step host params rows step).
Proof.
  intros Hs w. unfold roll_back_step. destruct (rb_signal params w); [reflexivity|].
  match goal with |- R w (?m w).2 => enough (keeps R m) as Hm by apply Hm end.
  unfold record_outcome, lastCompensationAttempt, compensate_step. keep; try apply _;
    try apply attempts_kept; try apply ledger_kept.
  all: apply keeps_retryAsync; [done|apply _|]; intros n; unfold try_compensate, compensation_of; keep;
    try apply _; try apply keeps_saveAttempt.
  all: destruct (cs_compensate step) as [f|] eqn:E; [by eapply compensate_kept|intros w1; reflexivity].
Qed.

Lemma keeps_roll_back rows l report : Forall (fun s => s ∈ rb_steps params) l -> keeps R (roll_back host params rows l report).
Proof.
  intros Hl. revert report. induction Hl as [|s l Hs Hl IH]; intros report; cbn [roll_back]; keep; [|apply IH].
  by apply keeps_roll_back_step.
Qed.

Lemma pending_from_order rows order report pending :
  let p := (sort_recorded rows order report pending).2 in forall s, s ∈ p -> s ∈ pending \/ s ∈ order.
Proof.
  revert report pending. induction order as [|o order IH]; intros report pending; cbn [sort_recorded]; [by left|].
  cbv zeta in *. intros s. destruct (if with_ledger_cap then _ else _) as [[|e]|]; intros [Hs|Hs]%IH;
    try (by left); try (right; by right).
  apply elem_of_app in Hs as [?|Hs]; [by left|]. right. apply list_elem_of_singleton in Hs as ->. left.
Qed.

Lemma keeps_compensateWorkflow : keeps R (compensateWorkflow host params).
Proof.
  unfold compensateWorkflow. apply (async_bind R); [apply rollback_load_kept|]. intros [st|]; [|apply (async_ret R)].
  destruct (compensationOrder _ _ _) as [order|] eqn:Ho; [|apply (async_ret R)].
  pose proof (pending_from_order (ws_steps st) order (mkReport [] []) []) as Hp.
  destruct (sort_recorded _ _ _ _) as [report pending]. cbn in Hp. keep. apply keeps_roll_back.
  apply order_from_steps in Ho. rewrite Forall_forall in Ho. apply Forall_forall. intros s [Hs|Hs]%Hp; [|by apply Ho].
  by apply not_elem_of_nil in Hs.
Qed.
End rollback.
