(* ===== verification/Orchestrate.v ===== *)
(** One driver of a run: [durable/runner/orchestrate.ts] from the moment it
    holds the run's lock, with [run-status.ts], [idempotency.ts] and [dlq.ts].

    A cycle loads or creates the run, answers for one that has ended, runs the
    step graph under the workflow's retry policy and writes how the run ended;
    a chain of cycles follows [continueAsNew]. Query handlers and what other
    objects observe of a run are left out. *)
From Stdlib Require Import QArith.
From S2P Require Import Prelude Leases Json Journal RunState Storage Exits Retry Replay Dag RollbackOrder StepBody Checkpoint Waves Compensate.
Open Scope string_scope.
Open Scope list_scope.
Open Scope Z_scope.

(** ** Configuration *)
Inductive IdempotencyTtl : Type :=
| TtlAlways (ms : Z)
| TtlByStatus (success : Z) (failure : option Z).

Record IdempotencyConfig : Type := mkIdempotency {
  id_ttl : IdempotencyTtl;
  id_replay : bool;  (** [onExpiry: "replay"]; the default is a fresh run *)
}.

Record FailedWorkflowRecord : Type := mkDlqRecord {
  dq_workflowId : string;
  dq_workflowName : string;
  dq_input : json;
  dq_error : string;
  dq_failedAt : Z;
  dq_steps : list (string * StepState);
  dq_compensatedSteps : list string;
  dq_failedCompensations : list (string * string);
  dq_metadata : option metadata;
}.

(** [compensate] of the workflow, and its [onComplete] callback. *)
Record CompensateConfig (W : Type) : Type := mkCompensateConfig {
  cc_immediate : bool;  (** [trigger: "immediate"] *)
  cc_retry : option CompensateRetry;
  cc_onComplete : option (json -> thrown -> CompensationReport -> W -> outcome unit * W);
}.
Arguments mkCompensateConfig {W}.
Arguments cc_immediate {W}.
Arguments cc_retry {W}.
Arguments cc_onComplete {W}.

Record OrchestrationContext (W : Type) : Type := mkOrchestration {
  oc_name : string;
  oc_version : option string;
  oc_type : option string;
  oc_metadata : option metadata;
  oc_steps : list (StepDefinition W);
  oc_retry : option RetryPolicy;
  oc_retryDefects : bool;
  oc_compensateConfig : option (CompensateConfig W);
  oc_dlq : option (FailedWorkflowRecord -> W -> outcome unit * W);
  oc_idempotency : option IdempotencyConfig;
  oc_timeoutMs : option Z;
  oc_hooks : option (HookEvent -> W -> res thrown unit * W);
  oc_executorId : option string;
}.
Arguments mkOrchestration {W}.
Arguments oc_name {W}.
Arguments oc_version {W}.
Arguments oc_type {W}.
Arguments oc_metadata {W}.
Arguments oc_steps {W}.
Arguments oc_retry {W}.
Arguments oc_retryDefects {W}.
Arguments oc_compensateConfig {W}.
Arguments oc_dlq {W}.
Arguments oc_idempotency {W}.
Arguments oc_timeoutMs {W}.
Arguments oc_hooks {W}.
Arguments oc_executorId {W}.

Record RunParams : Type := mkRunParams {
  rp_workflowId : string;
  rp_input : json;
  rp_force : bool;
  rp_namespace : option string;
  rp_idempotencyKey : option string;
  rp_idempotencyExpiresAt : option Z;
  rp_useStoredInput : bool;
}.

(** [lk_state]: the state that came with the lock, if it was asked for. *)
Record LockContext (W : Type) : Type := mkLockContext {
  lk_fenceToken : option string;
  lk_signal : W -> option thrown;
  lk_state : option (option WorkflowState);
}.
Arguments mkLockContext {W}.
Arguments lk_fenceToken {W}.
Arguments lk_signal {W}.
Arguments lk_state {W}.

Definition lock_guard {W} (lock : LockContext W) : option FenceGuard :=
  if truthy_str (lk_fenceToken lock) then Some (mkFenceGuard (lk_fenceToken lock)) else None.

Definition MAX_CONTINUE_AS_NEW_CHAIN : nat := 1024.

(** ** Stored runs *)
Definition ws_status (st : WorkflowState) : WorkflowStatus := lc_status (ws_life st).
Definition ws_workflowId (st : WorkflowState) : string := ri_workflowId (ws_ident st).

Definition state_snapshot (st : WorkflowState) : WorkflowStatusSnapshot :=
  mkStatusSnapshot (ws_status st) (lc_error (ws_life st)) (lc_errorTag (ws_life st)).

Definition findTripwireStep (steps : list (string * StepState)) : option StepState :=
  List.find (fun s => match st_metadata s with
                 | Some m => bool_decide (prop "tripwireFired" m = JBool true)
                 | None => false
                 end) (snd <$> steps).

Definition completed_ms (s : StepState) : Z := opt_or (st_completedAt s) 0.

Definition findFailedStep (steps : list (string * StepState)) : option StepState :=
  foldl (fun latest s =>
    if bool_decide (st_status s = Some SFailed) then
      match latest with
      | None => Some s
      | Some l => if completed_ms s >? completed_ms l then Some s else latest
      end
    else latest) None (snd <$> steps).

Definition getIdempotencyTtl (config : IdempotencyConfig) (status : WorkflowStatus) : option Z :=
  match id_ttl config, status with
  | TtlAlways ms, _ => Some ms
  | TtlByStatus success _, RunState.Completed => Some success
  | TtlByStatus _ failure, RunState.Failed => failure
  | _, _ => None
  end.

Section orchestrate.
Context {W : Type} `{RunStore W} (host : RunnerHost W).
Variable rh_order : list (StepDefinition W) -> W -> list (StepDefinition W).

Definition tagged (tag : string) (fields : list (string * json)) : thrown :=
  TError (rh_new_tagged host tag fields).

(** *** [run-status.ts] *)
Definition runFailure (st : WorkflowState) : thrown :=
  let failedStep := findFailedStep (ws_steps st) in
  let tag := opt_else (lc_errorTag (ws_life st)) (failedStep ≫= st_errorTag) in
  tagged "WorkflowFailedError"
    ([("workflowId", JStr (ws_workflowId st))] ++
     (match failedStep with Some s => [("stepName", JStr (st_stepName s))] | None => [] end) ++
     [("message", JStr (opt_or (lc_error (ws_life st)) ("Workflow " +:+ ws_workflowId st +:+ " failed")))] ++
     (match tag with Some t => [("errorTag", JStr t)] | None => [] end)).

Definition WorkflowTripwireError (workflowId stepName : string) (reason : json) (message : string) : thrown :=
  engine_error host "WorkflowTripwireError"
    [("workflowId", JStr workflowId); ("stepName", JStr stepName); ("reason", reason)] message.

Definition storedRunError (st : WorkflowState) : option thrown :=
  let workflowId := ws_workflowId st in
  match ws_status st with
  | RunState.Tripwire =>
      Some (WorkflowTripwireError workflowId
        (from_option st_stepName "unknown" (findTripwireStep (ws_steps st))) (lc_tripwire (ws_life st))
        ("Workflow " +:+ quoted workflowId +:+ " ended via tripwire"))
  | RunState.Failed =>
      if isCancelledRun (state_snapshot st) then Some (WorkflowCancelledError host workflowId)
      else Some (runFailure st)
  | _ => None
  end.

Definition runStartMs (st : WorkflowState) : async W Z :=
  match lc_startedAt (ws_life st) with
  | Some t => a_ret t
  | None =>
      match ws_status st with
      | RunState.Pending => currentTimeMs host
      | _ => a_ret (ri_createdAt (ws_ident st))
      end
  end.

(** *** The cycle's parts *)
Context (ctx : OrchestrationContext W) (lock : LockContext W).

Definition run_guard : option FenceGuard := lock_guard lock.

Definition cached_failure (st : WorkflowState) (ttl : Z) : thrown :=
  engine_error host "WorkflowError" [("workflowId", JStr (ws_workflowId st))]
    (opt_or (lc_error (ws_life st))
       ("Workflow " +:+ quoted (ws_workflowId st) +:+ " failed (cached, TTL " +:+ str_of_Z ttl +:+ "ms)")).

(** A cached outcome within its TTL: a failed one is thrown. *)
Definition cachedIdempotentOutcome (config : IdempotencyConfig) (st : WorkflowState)
    : async W (option json) :=
  match lc_completedAt (ws_life st) with
  | None => a_ret None
  | Some completedAt =>
      let% now := currentTimeMs host in
      let elapsed := now - completedAt in
      match getIdempotencyTtl config (ws_status st) with
      | None => a_ret None
      | Some ttl =>
          if elapsed >=? ttl then a_ret None
          else match ws_status st with
               | RunState.Completed => a_ret (Some (lc_result (ws_life st)))
               | RunState.Failed =>
                   a_throw (cached_failure st ttl)
               | _ => a_ret None
               end
      end
  end.

(** A status that cannot be read leaves the write's outcome standing. *)
Definition assertNotCancelled (workflowId : string) : async W unit :=
  let% status := a_catch (let% s := rs_loadWorkflowStatus workflowId in a_ret (Some s)) (fun _ => a_ret None) in
  match status with
  | Some (Some s) => if isCancelledRun s then a_throw (WorkflowCancelledError host workflowId) else a_ret tt
  | _ => a_ret tt
  end.

Definition completedRunResult (st : WorkflowState) : res thrown json :=
  match last (oc_steps ctx) with
  | Some lastStep =>
      match alist_get (sd_name lastStep) (ws_steps st) with
      | Some row =>
          if bool_decide (st_status row = Some SCompleted)
          then codec_decode (sd_codec lastStep) (st_result row)
          else Ok (lc_result (ws_life st))
      | None => Ok (lc_result (ws_life st))
      end
  | None => Ok (lc_result (ws_life st))
  end.

(** The policy's [when] admits only failures worth another run. *)
Definition retry_when (userWhen : option (thrown -> bool)) (error : thrown) : bool :=
  if isControlFlowExit error then false
  else if bool_decide (errorTag error = Some "WorkflowDeadlineError")
          || bool_decide (errorTag error = Some "WorkflowCancelledError") then false
  else if bool_decide (errorTag error = None) && negb (oc_retryDefects ctx) then false
  else match userWhen with Some w => w error | None => true end.

Definition workflowRetryPolicy : option RetryPolicy :=
  match oc_retry ctx with
  | None => None
  | Some policy =>
      if from_option cc_immediate false (oc_compensateConfig ctx) then None
      else Some (mkPolicy (rp_maxRetries policy) (rp_baseDelayMs policy) (Some (retry_when (rp_when policy)))
                   (rp_jitter policy) (rp_maxDelayMs policy) (rp_timeBudgetMs policy))
  end.

Definition dag_nodes : list DagNode := (fun s => mkNode (sd_name s) (sd_dependsOn s)) <$> oc_steps ctx.

Definition dag_error (workflowId : string) (e : DagError) : thrown :=
  engine_error host "WorkflowError" [("workflowId", JStr workflowId)]
    match e with
    | UnknownStep step dep => "Step " +:+ quoted step +:+ " depends on unknown step " +:+ quoted dep
    | CycleDetected remaining => "Cycle detected in workflow DAG involving steps: " +:+ string_join ", " remaining
    end.

Definition fire (event : HookEvent) : async W unit := fun w =>
  match oc_hooks ctx with
  | None => (Ret tt, w)
  | Some hook => (Ret tt, (hook event w).2)
  end.

Definition WorkflowVersionMismatchError (workflowId expected : string) (stored : option string) : thrown :=
  engine_error host "WorkflowVersionMismatchError"
    [("workflowId", JStr workflowId); ("expected", JStr expected); ("actual", JStr (opt_or stored "(none)"))]
    ("Workflow " +:+ quoted workflowId +:+ " was created with version " +:+ quoted (opt_or stored "(none)") +:+ " "
     +:+ "but current code is version " +:+ quoted expected +:+ ". "
     +:+ "To resume this workflow, either use `onVersionMismatch: " +:+ quoted "drain" +:+ "` + "
     +:+ "`previousVersions: [v" +:+ opt_or stored "N" +:+ "]` on the workflow config, or "
     +:+ "register both versions in a WorkflowVersionRegistry.").

Definition WorkflowRunNotFoundError (workflowId : string) : thrown :=
  engine_error host "WorkflowRunNotFoundError" [("workflowId", JStr workflowId)]
    ("Workflow " +:+ quoted workflowId +:+ " has no stored run to drive (useStoredInput)").

Definition TripwireStorageMissingError (workflowId stepName : string) : thrown :=
  engine_error host "TripwireStorageMissingError" [("workflowId", JStr workflowId); ("stepName", JStr stepName)]
    ("Tripwire step " +:+ quoted stepName +:+ " fired but the configured "
     +:+ "WorkflowStorage does not implement tripwireWorkflow. Use a "
     +:+ "storage backend that supports tripwire (InMemory, Postgres) " +:+ "or remove the .tripwire() step.").

(** *** [dlq.ts] *)
Definition publishDlqRecord (workflowId : string) (input : json) (errorMsg : string)
    (report : CompensationReport) (publish : FailedWorkflowRecord -> W -> outcome unit * W) : async W unit :=
  a_catch
    (let% failedState := rs_loadWorkflow workflowId in
     let% failedAt := currentTimeMs host in
     publish (mkDlqRecord workflowId (oc_name ctx) input errorMsg failedAt (from_option ws_steps [] failedState)
                (cr_compensated report) ((fun f => (f.1, errorMessage host f.2)) <$> cr_failed report) (oc_metadata ctx)))
    (fun _ => a_ret tt).

(** *** [rollBackAndFail] *)
Definition rollback_params (workflowId : string) (input : json) (resumed : bool) : RollbackParams W :=
  mkRollbackParams ((fun d => mkCompensatable (sd_name d) (Some (sd_codec d)) (sd_compensate d)) <$> oc_steps ctx)
    (oc_compensateConfig ctx ≫= cc_retry) workflowId input dag_nodes run_guard (oc_executorId ctx)
    (lk_signal lock) resumed.

Definition enter_compensation (workflowId errorMsg : string) (failedTag : option string) : async W bool :=
  checkpointWrite host workflowId "beginCompensation" None
    (rs_beginCompensation run_guard workflowId errorMsg failedTag).

Definition call_onComplete (input : json) (error : thrown) (report : CompensationReport) : async W unit :=
  match oc_compensateConfig ctx ≫= cc_onComplete with
  | Some onComplete => a_catch (onComplete input error report) (fun _ => a_ret tt)
  | None => a_ret tt
  end.

(** Rejects with the failure, whatever it did; [None] as in [compensateWorkflow]. *)
Definition rollBackAndFail (workflowId : string) (input : json) (startTime : Z) (error : thrown)
    (errorMsg : string) (failedTag : option string) (resumed : bool) : async W (option json) :=
  let% entered := if negb resumed && hasCapability CapCompensationLedger
                  then enter_compensation workflowId errorMsg failedTag else a_ret true in
  if negb entered then
    do% assertNotCancelled workflowId in
    a_throw error
  else
    let% report := compensateWorkflow host (rollback_params workflowId input resumed) in
    match report with
    | None => a_ret None
    | Some report =>
        do% call_onComplete input error report in
        do% checkpointWrite host workflowId "failWorkflow" None
              (rs_failWorkflow run_guard workflowId errorMsg failedTag) in
        let% now := currentTimeMs host in
        do% fire (OnWorkflowFailure workflowId errorMsg (now - startTime)) in
        do% match oc_dlq ctx with
            | Some publish => publishDlqRecord workflowId input errorMsg report publish
            | None => a_ret tt
            end in
        a_throw error
    end.

(** *** The step graph under the workflow's retry policy *)
Definition complete_run (workflowId : string) (startTime : Z) (result : json) : async W json :=
  do% checkpointWrite host workflowId "completeWorkflow" None
        (rs_completeWorkflow run_guard workflowId result) in
  do% assertNotCancelled workflowId in
  let% now := currentTimeMs host in
  do% fire (OnWorkflowComplete workflowId result (now - startTime)) in
  a_ret result.

Definition tripped_error (workflowId stepName : string) (reason : json) : thrown :=
  WorkflowTripwireError workflowId stepName reason
    ("Workflow " +:+ quoted workflowId +:+ " ended via tripwire at step " +:+ quoted stepName).

Definition trip_run (workflowId : string) (startTime : Z) (stepName : string) (reason : json)
    : async W (option (json + thrown)) :=
  if hasCapability CapTripwire then
    do% checkpointWrite host workflowId "tripwireWorkflow" None
          (rs_tripwireWorkflow run_guard workflowId reason) in
    do% assertNotCancelled workflowId in
    let% now := currentTimeMs host in
    do% fire (OnWorkflowTripwire workflowId stepName reason (now - startTime)) in
    a_throw (tripped_error workflowId stepName reason)
  else a_throw (TripwireStorageMissingError workflowId stepName).

(** The wait before another attempt, when the policy grants one. *)
Definition retry_delay (n : nat) (error : thrown) (firstFailureMs nowMs : Z) : async W (option Q) :=
  match workflowRetryPolicy with
  | None => a_ret None
  | Some policy => a_sync (nextRetryDelayMs (rh_random host) policy n error firstFailureMs nowMs)
  end.

(** What the DAG executor runs against; [run] is the number of the loaded run. *)
Definition dag_context (run : option Z) : DagExecutionContext W :=
  mkDagContext (oc_steps ctx) (oc_hooks ctx) (oc_timeoutMs ctx) run_guard (oc_executorId ctx) run (lk_signal lock).

Section attempts.
Context (dctx : DagExecutionContext W) (workflowId : string) (input : json) (startTime : Z) (deadlineMs : option Z).

(** One pass of the loop: the result of the run, the error it fails with, or
    another pass, [retry]. *)
Definition attempt_once (retry : option Z -> option WorkflowState -> async (WaveState (W := W)) (option (json + thrown)))
    (n : nat) (firstFailureMs : option Z) (state : option WorkflowState)
    : async (WaveState (W := W)) (option (json + thrown)) :=
  let% dagResult := executeWorkflowDag host rh_order dctx
                      (mkDagParams workflowId input dag_nodes state deadlineMs) in
  match dagResult with
  | None => a_ret None
  | Some (DagSuccess result) =>
      let% result := on_world (complete_run workflowId startTime result) in
      a_ret (Some (inl result))
  | Some (DagTripwire stepName reason) => on_world (trip_run workflowId startTime stepName reason)
  | Some (DagFailure error suspension continueAsNew) =>
      if suspension || continueAsNew then a_throw error
      else if isAbandonRunExit error then a_throw error
      else
        do% on_world (assertNotCancelled workflowId) in
        let% nowMs := on_world (currentTimeMs host) in
        let first := opt_or firstFailureMs nowMs in
        let% delay := on_world (retry_delay n error first nowMs) in
        match delay with
        | None => a_ret (Some (inr error))
        | Some delay =>
            do% on_world (timer host delay) in
            do% on_world (assertRunActive host workflowId (lk_signal lock) None) in
            let% state := on_world (rs_loadWorkflow workflowId) in
            retry (Some first) state
        end
  end.

(** [for (let workflowAttempt = 0; ; workflowAttempt++)]; [spare] bounds the
    retries still possible. *)
Fixpoint run_attempts (spare n : nat) (firstFailureMs : option Z) (state : option WorkflowState)
    : async (WaveState (W := W)) (option (json + thrown)) :=
  attempt_once (fun first state =>
    match spare with
    | O => a_ret None
    | Datatypes.S spare => run_attempts spare (Datatypes.S n) first state
    end) n firstFailureMs state.
End attempts.

Definition run_deadline (startTime : Z) (state : option WorkflowState) : async W (option Z) :=
  match oc_timeoutMs ctx, state with
  | Some timeoutMs, Some st => let% start := runStartMs st in a_ret (Some (start + timeoutMs))
  | Some timeoutMs, None => a_ret (Some (startTime + timeoutMs))
  | None, _ => a_ret None
  end.

(** [state.error ?? ...]: the failure a rollback answers. *)
Definition stored_failure (workflowId : string) (st : WorkflowState) : string :=
  opt_or (lc_error (ws_life st)) ("Workflow " +:+ workflowId +:+ " failed").

(** Steps 4 and 5: the graph is valid, then the run is executed or its
    rollback finished. *)
Definition execute_run (workflowId : string) (input : json) (startTime : Z) (state : option WorkflowState)
    : async W (option json) :=
  match topologicalSort dag_nodes with
  | None => a_ret None
  | Some (Err e) => a_throw (dag_error workflowId e)
  | Some (Ok _) =>
      let compensating := state ≫= fun st => if bool_decide (ws_status st = RunState.Compensating) then Some st else None in
      match compensating with
      | Some st =>
          rollBackAndFail workflowId (ws_input st) startTime (runFailure st)
            (stored_failure workflowId st) (lc_errorTag (ws_life st)) true
      | None =>
          let% deadlineMs := run_deadline startTime state in
          let% r := fun w =>
            let spare := from_option (fun p => Z.to_nat (max_retries p)) O workflowRetryPolicy in
            let '(r, (_, w)) :=
              run_attempts (dag_context (ws_run <$> state)) workflowId input startTime deadlineMs spare 0 None state (∅, w) in
            (r, w) in
          match r with
          | None => a_ret None
          | Some (inl result) => a_ret (Some result)
          | Some (inr error) =>
              rollBackAndFail workflowId input startTime error (errorMessage host error) (errorTagOf error) false
          end
      end
  end.

(** *** [runOneOrchestrationCycle] *)
(** The idempotency cache under the lock: an answer, or the run to go on with. *)
Definition idempotent_answer (params : RunParams) (state : option WorkflowState)
    : async W (json + option WorkflowState) :=
  match (if rp_force params then None else oc_idempotency ctx), state with
  | Some config, Some st =>
      match lc_completedAt (ws_life st) with
      | None => a_ret (inr state)
      | Some _ =>
          let% cached := cachedIdempotentOutcome config st in
          match cached with
          | Some result => a_ret (inl result)
          | None =>
              if negb (id_replay config) && (bool_decide (ws_status st = RunState.Completed) || bool_decide (ws_status st = RunState.Failed))
              then
                do% rs_startFreshRun run_guard (rp_workflowId params) (Some (ws_run st)) None in
                let% state := rs_loadWorkflow (rp_workflowId params) in
                a_ret (inr state)
              else a_ret (inr state)
          end
      end
  | _, _ => a_ret (inr state)
  end.

Definition create_params (params : RunParams) : CreateWorkflowParams :=
  let keyed := truthy_str (rp_idempotencyKey params) && bool_decide (rp_idempotencyExpiresAt params <> None) in
  mkCreate (rp_workflowId params) (oc_name ctx) (oc_type ctx) None (rp_namespace params) (oc_version ctx)
    (rp_input params) (oc_metadata ctx) None None
    (if keyed then rp_idempotencyKey params else None) (if keyed then rp_idempotencyExpiresAt params else None).

(** Create the run, or check the stored version of an existing one. *)
Definition create_or_check (params : RunParams) (state : option WorkflowState) : async W (option WorkflowState) :=
  match state with
  | None =>
      if rp_useStoredInput params then a_throw (WorkflowRunNotFoundError (rp_workflowId params))
      else
        let% existing := rs_createWorkflow None (create_params params) in
        match existing with
        | Some st => a_ret (Some st)
        | None => rs_loadWorkflow (rp_workflowId params)
        end
  | Some st =>
      if truthy_str (oc_version ctx) && bool_decide (ri_version (ws_ident st) <> oc_version ctx)
      then a_throw (WorkflowVersionMismatchError (rp_workflowId params) (opt_or (oc_version ctx) "")
                      (ri_version (ws_ident st)))
      else a_ret state
  end.

(** The state [loaded] shares with the caller, and the world. *)
Definition Driven : Type := option WorkflowState * W.

Definition on_driven {A} (m : async W A) : async Driven A := fun s =>
  let '(o, w) := m s.2 in (o, (s.1, w)).

Definition set_loaded (state : option WorkflowState) : async Driven unit := fun s => (Ret tt, (state, s.2)).

(** The entry gate: an ended run answers, or is archived with [force]. *)
Definition entry_gate (params : RunParams) (state : option WorkflowState)
    : async Driven (json + option WorkflowState) :=
  do% set_loaded state in
  match state with
  | None => a_ret (inr state)
  | Some st =>
      if isTerminalWorkflowStatus (ws_status st) then
        if rp_force params then
          do% on_driven (rs_startFreshRun run_guard (rp_workflowId params) (Some (ws_run st)) None) in
          let% state := on_driven (rs_loadWorkflow (rp_workflowId params)) in
          do% set_loaded state in
          a_ret (inr state)
        else
          match storedRunError st with
          | Some e => a_throw e
          | None => let% result := a_lift (completedRunResult st) in a_ret (inl result)
          end
      else a_ret (inr state)
  end.

Definition runOneOrchestrationCycle (params : RunParams) (preloaded : option (option WorkflowState))
    : async Driven (option json) :=
  let% startTime := on_driven (currentTimeMs host) in
  let% state := on_driven (match preloaded with
                           | Some state => a_ret state
                           | None => rs_loadWorkflow (rp_workflowId params)
                           end) in
  let% answered := on_driven (idempotent_answer params state) in
  match answered with
  | inl result => a_ret (Some result)
  | inr state =>
      let% state := on_driven (create_or_check params state) in
      let input := if rp_useStoredInput params then from_option ws_input (rp_input params) state
                   else rp_input params in
      let% gate := entry_gate params state in
      match gate with
      | inl result => a_ret (Some result)
      | inr state => on_driven (execute_run (rp_workflowId params) input startTime state)
      end
  end.

(** *** [runChain] *)
Definition error_field (key : string) (e : thrown) : json :=
  match e with
  | TError e => prop key (err_fields e)
  | TValue (JObj fs) => prop key fs
  | TValue _ => JUndef
  end.

(** [err.nextInput ?? null]. *)
Definition next_input (e : thrown) : json :=
  match error_field "nextInput" e with JUndef => JNull | v => v end.

Definition chain_limit (workflowId : string) : thrown :=
  TError (new_error "Error" ("Workflow " +:+ quoted workflowId +:+ " exceeded continue-as-new chain limit ("
    +:+ str_of_Z (Z.of_nat MAX_CONTINUE_AS_NEW_CHAIN) +:+ "). "
    +:+ "Likely an infinite continue-as-new loop in the workflow body.")).

Fixpoint chain_loop (spare : nat) (params : RunParams) (preloaded : option (option WorkflowState))
    : async Driven (option json) :=
  match spare with
  | O => a_throw (chain_limit (rp_workflowId params))
  | Datatypes.S spare => fun s =>
      match runOneOrchestrationCycle params preloaded s with
      | (Throws err, s) =>
          if bool_decide (errorTag err = Some CONTINUE_AS_NEW_TAG) then
            (do% on_driven (rs_startFreshRun run_guard (rp_workflowId params) (ws_run <$> s.1) (Some (next_input err))) in
             chain_loop spare (mkRunParams (rp_workflowId params) (next_input err) true (rp_namespace params) None None false) None) s
          else (Throws err, s)
      | r => r
      end
  end.

Definition runChain (params : RunParams) : async Driven (option json) :=
  chain_loop MAX_CONTINUE_AS_NEW_CHAIN params (lk_state lock).
End orchestrate.
