(* ===== verification/Outcome.v ===== *)
(** What a driver tells its caller and what the storage then holds.

    [OutcomeWorld] is the contract between [Orchestrate] and its world: it
    speaks of the stored run as [ow_view] sees it - missing, in flight, or
    ended with an outcome - and of whether the driver still holds the run's
    lock. While it does, others may end the run only the way a cancel or an
    operator's mark does, and only the driver's own calls change it
    otherwise; a call that rejects may have been applied. *)
From Stdlib Require Import QArith.
From S2P Require Import Prelude Leases Json Journal RunState Storage Exits Retry Replay Dag RollbackOrder StepBody Checkpoint AsyncRel Waves WaveLaws WaveLoop Compensate RunRel Orchestrate.
Open Scope string_scope.
Open Scope list_scope.
Open Scope Z_scope.

(** ** The stored run *)
Inductive RunOutcome : Type :=
| OCompleted (result : json)
| OFailed (error errorTag : option string)
| OTripwire (reason : json).

Inductive RunView : Type :=
| Gone
| InFlight (run : Z)
| Ended (run : Z) (outcome : RunOutcome).

Definition outcome_of (l : Lifecycle) : option RunOutcome :=
  match lc_status l with
  | RunState.Completed => Some (OCompleted (lc_result l))
  | RunState.Failed => Some (OFailed (lc_error l) (lc_errorTag l))
  | RunState.Tripwire => Some (OTripwire (lc_tripwire l))
  | _ => None
  end.

Definition life_view (run : Z) (l : Lifecycle) : RunView := from_option (Ended run) (InFlight run) (outcome_of l).

Definition view_of (state : option WorkflowState) : RunView :=
  match state with None => Gone | Some st => life_view (ws_run st) (ws_life st) end.

(** How others end a run: a cancel, or an operator who marks it failed. *)
Definition intervention (x : RunOutcome) : Prop :=
  exists e tag, x = OFailed e (Some tag) /\ tag ∈ [CANCELLED_ERROR_TAG; MARKED_FAILED_ERROR_TAG].

(** A run in flight may end as one of [P]. *)
Definition may_end (P : RunOutcome -> Prop) (v v' : RunView) : Prop :=
  v = v' \/ exists n x, v = InFlight n /\ v' = Ended n x /\ P x.

#[export] Instance may_end_preorder P : PreOrder (may_end P).
Proof.
  split; [by left|]. intros v1 v2 v3 [->|(n & x & -> & -> & Hx)]; [done|].
  intros [<-|(? & ? & [=] & _)]. right. by exists n, x.
Qed.

Definition ends : RunView -> RunView -> Prop := may_end intervention.

(** The driver's own ending [x], or another. *)
Definition ends_or (x : RunOutcome) : RunView -> RunView -> Prop := may_end (fun y => y = x \/ intervention y).

Definition running (v : RunView) : bool := match v with InFlight _ => true | _ => false end.
Definition view_run (v : RunView) : option Z := match v with Gone => None | InFlight n | Ended n _ => Some n end.

(** A fresh run was started in place of the stored one. *)
Definition restarted (run : option Z) (v v' : RunView) : Prop :=
  exists n, view_run v = Some n /\ (run = None \/ run = Some n) /\ v' = InFlight (n + 1).

(** ** The contract *)
Section contract.
Context {W : Type} (held : W -> Prop) (view : W -> RunView).

Definition stepped (R : RunView -> RunView -> Prop) (w w' : W) : Prop := held w' -> held w /\ R (view w) (view w').

#[export] Instance stepped_preorder R `{!PreOrder R} : PreOrder (stepped R).
Proof.
  split; [by intros w Hh|]. intros w1 w2 w3 H12 H23 [Hh R23]%H23. destruct (H12 Hh) as [? R12]. split; [done|].
  by etrans.
Qed.

(** A terminal write of [x]. *)
Definition settles (x : RunOutcome) (m : async W unit) : Prop := forall w,
  let '(o, w') := m w in
  stepped (ends_or x) w w' /\
  match o with
  | Ret _ => held w' -> running (view w') = false
  | Throws e => isControlFlowError e = false
  | Died => True
  end.
End contract.

Class OutcomeWorld (W : Type) `{RunStore W} (host : RunnerHost W) (ctx : OrchestrationContext W)
    (lock : LockContext W) (workflowId : string) : Type := {
  ow_held : W -> Prop;
  ow_view : W -> RunView;
  ow_run : forall run, RunKeeps (stepped ow_held ow_view ends) host (dag_context ctx lock run) workflowId;
  ow_rollback : forall input resumed,
    RollbackKeeps (stepped ow_held ow_view ends) host (rollback_params ctx lock workflowId input resumed);
  ow_onComplete : forall f i e r, oc_compensateConfig ctx ≫= cc_onComplete = Some f ->
    keeps (stepped ow_held ow_view ends) (f i e r);
  ow_dlq : forall publish r, oc_dlq ctx = Some publish -> keeps (stepped ow_held ow_view ends) (publish r);
  (** the tagged errors of the runner have their tag *)
  ow_tags : forall tag fields, errorTag (TError (rh_new_tagged host tag fields)) = Some tag;
  ow_loads : keeps (stepped ow_held ow_view ends) (rs_loadWorkflow workflowId);
  ow_loaded : forall w st w', rs_loadWorkflow workflowId w = (Ret st, w') -> ow_held w' -> ow_view w' = view_of st;
  ow_cancelled : forall w s w', rs_loadWorkflowStatus workflowId w = (Ret (Some s), w') -> ow_held w' ->
    isCancelledRun s = true -> exists n x, ow_view w' = Ended n x /\ intervention x;
  ow_creates : forall p w, cw_workflowId p = workflowId -> cw_idempotencyKey p = None ->
    let '(o, w') := rs_createWorkflow None p w in
    ow_held w' -> ow_held w /\
      (ow_view w = Gone ->
       match o with
       | Ret None => running (ow_view w') = true
       | Ret (Some _) => False
       | _ => ow_view w' = Gone \/ running (ow_view w') = true
       end);
  ow_completes : forall r, settles ow_held ow_view (OCompleted r) (rs_completeWorkflow (lock_guard lock) workflowId r);
  ow_trips : forall r, settles ow_held ow_view (OTripwire r) (rs_tripwireWorkflow (lock_guard lock) workflowId r);
  ow_fails : forall e tag,
    settles ow_held ow_view (OFailed (Some e) tag) (rs_failWorkflow (lock_guard lock) workflowId e tag);
  ow_begins : forall e tag w,
    let '(o, w') := rs_beginCompensation (lock_guard lock) workflowId e tag w in
    stepped ow_held ow_view ends w w' /\
    (o = Ret false -> ow_held w' -> running (ow_view w') = false);
  ow_restarts : forall run input w,
    let '(o, w') := rs_startFreshRun (lock_guard lock) workflowId run input w in
    ow_held w' -> ow_held w /\
      (restarted run (ow_view w) (ow_view w') \/
       ow_view w' = ow_view w /\ (forall n, o = Ret n -> run <> view_run (ow_view w) /\ run <> None));
}.
Arguments ow_held {W _ host ctx lock workflowId _}.
Arguments ow_view {W _ host ctx lock workflowId _}.

Section outcome.
Context {W : Type} `{OW : OutcomeWorld W host ctx lock wid}.
#[local] Abbreviation calm := (stepped ow_held ow_view ends).

(** ** Triples over the stored run *)
(** [m], from a world whose run satisfies [P]: it returns with [Q] or rejects
    with [E], as long as the lock is held at its end. *)
Definition triple {S A} (world : S -> W) (P : RunView -> Prop) (m : async S A) (Q : A -> RunView -> Prop)
    (E : thrown -> RunView -> Prop) : Prop := forall s,
  let '(o, s') := m s in
  ow_held (world s') -> ow_held (world s) /\
    (P (ow_view (world s)) ->
     match o with Ret a => Q a (ow_view (world s')) | Throws e => E e (ow_view (world s')) | Died => True end).

Section triple.
Context {S : Type} (world : S -> W).

Lemma triple_bind {A B} P (m : async S A) (k : A -> async S B) Q1 Q E :
  triple world P m Q1 E -> (forall a, triple world (Q1 a) (k a) Q E) -> triple world P (a_bind m k) Q E.
Proof.
  intros Hm Hk s. specialize (Hm s). unfold a_bind. destruct (m s) as [[a|e|] s1]; [|exact Hm..].
  specialize (Hk a s1). destruct (k a s1) as [o s2]. intros [Hh HQ]%Hk. destruct (Hm Hh) as [Hh0 HQ1]. tauto.
Qed.

Lemma triple_ret {A} (P : RunView -> Prop) (a : A) Q E : (forall v, P v -> Q a v) -> triple world P (a_ret a) Q E.
Proof. intros HQ s. unfold a_ret. intros Hh. split; [done|]. apply HQ. Qed.

Lemma triple_throw {A} (P : RunView -> Prop) e (Q : A -> _) E : (forall v, P v -> E e v) -> triple world P (a_throw e) Q E.
Proof. intros HE s. unfold a_throw. intros Hh. split; [done|]. apply HE. Qed.

Lemma triple_lift {A} (P : RunView -> Prop) (r : res thrown A) Q E :
  (forall v, P v -> match r with Ok a => Q a v | Err e => E e v end) -> triple world P (a_lift r) Q E.
Proof. intros HE s. unfold a_lift. destruct r; intros Hh; (split; [done|]); apply HE. Qed.

Lemma triple_weaken {A} (P P' : RunView -> Prop) (m : async S A) Q Q' E E' :
  triple world P' m Q' E' -> (forall v, P v -> P' v) -> (forall a v, Q' a v -> Q a v) ->
  (forall e v, E' e v -> E e v) -> triple world P m Q E.
Proof.
  intros Hm HP HQ HE s. specialize (Hm s). destruct (m s) as [o s']. intros Hh. destruct (Hm Hh) as [? HPQ].
  split; [done|]. intros HPv%HP%HPQ. destruct o; auto.
Qed.

(** What every result is, whatever the run. *)
Lemma triple_fact {A} P (m : async S A) Q E (F : A -> Prop) :
  triple world P m Q E -> (forall s a s', m s = (Ret a, s') -> F a) -> triple world P m (fun a v => Q a v /\ F a) E.
Proof.
  intros Hm HF s. specialize (Hm s). destruct (m s) as [[a|e|] s'] eqn:Em; [|exact Hm..].
  intros Hh. destruct (Hm Hh) as [? HQ]. split; [done|]. intros HP. split; [by apply HQ|by eapply HF].
Qed.

(** Code that is calm keeps what an intervention keeps. *)
Lemma triple_calm {A} (P : RunView -> Prop) (m : async S A) (E : thrown -> RunView -> Prop) :
  (forall s, calm (world s) (world (m s).2)) -> (forall v v', ends v v' -> P v -> P v') ->
  (forall e v, P v -> E e v) -> triple world P m (fun _ => P) E.
Proof.
  intros Hm HP HE s. specialize (Hm s). destruct (m s) as [o s']. intros Hh. cbn in Hm.
  destruct (Hm Hh) as [? Hs]. split; [done|]. intros HPv. eapply HP in HPv; [|exact Hs]. destruct o; auto.
Qed.
End triple.

(** ** What an answer says of the stored run *)
(** The failed row that ended last, the first of those that ended together. *)
Definition blamed (st : WorkflowState) (row : option StepState) : Prop :=
  match row with
  | Some s => s ∈ (snd <$> ws_steps st) /\ st_status s = Some SFailed /\
      forall s', s' ∈ (snd <$> ws_steps st) -> st_status s' = Some SFailed ->
        opt_or (st_completedAt s') 0 <= opt_or (st_completedAt s) 0
  | None => forall s, s ∈ (snd <$> ws_steps st) -> st_status s <> Some SFailed
  end.

(** The error of a run that failed: the stored message, the stored tag or else
    that of the failed step, and the step. *)
Definition tells_failure (st : WorkflowState) (e : thrown) : Prop := exists row fields,
  blamed st row /\ e = TError (rh_new_tagged host "WorkflowFailedError" fields) /\
  prop "message" fields =
    JStr match lc_error (ws_life st) with Some m => m | None => "Workflow " +:+ ws_workflowId st +:+ " failed" end /\
  prop "stepName" fields = match row with Some s => JStr (st_stepName s) | None => JUndef end /\
  prop "errorTag" fields =
    match lc_errorTag (ws_life st) with
    | Some t => JStr t
    | None => match row with Some s => from_option JStr JUndef (st_errorTag s) | None => JUndef end
    end.

(** The error of a run that tripped, at a step if it is known. *)
Definition tells_trip (id : string) (step : option string) (reason : json) (e : thrown) : Prop := exists fields,
  e = TError (rh_new_tagged host "WorkflowTripwireError" fields) /\
  prop "workflowId" fields = JStr id /\ prop "reason" fields = reason /\
  forall s, step = Some s -> prop "stepName" fields = JStr s.

(** What is stored for an error that ends a run: its message, and its tag; of
    a step's error the tag it reports. *)
Record stored_for (e : thrown) (msg : string) (tag : option string) : Prop := {
  sf_message : msg = match e with TError x => err_message x | TValue v => js_String (rh_date_string host) v end;
  sf_own : errorTag e <> Some "StepError" -> tag = errorTag e;
  sf_reported : errorTag e = Some "StepError" ->
    tag = match e with
          | TError x => match prop "errorTag" (err_fields x) with JStr t => Some t | _ => Some "StepError" end
          | TValue (JObj fs) => match prop "errorTag" fs with JStr t => Some t | _ => Some "StepError" end
          | TValue _ => Some "StepError"
          end;
}.

(** The completed row of the last step. *)
Definition last_row (st : WorkflowState) (d : StepDefinition W) (row : StepState) : Prop :=
  last (oc_steps ctx) = Some d /\ alist_get (sd_name d) (ws_steps st) = Some row /\ st_status row = Some SCompleted.

(** The answers of a run [st] that had ended, without and with a cache. *)
Inductive ended_answer (st : WorkflowState) : RunOutcome -> outcome (option json) -> Prop :=
| answer_row res d row r : last_row st d row -> codec_decode (sd_codec d) (st_result row) = Ok r ->
    ended_answer st (OCompleted res) (Ret (Some r))
| answer_undecodable res d row e : last_row st d row -> codec_decode (sd_codec d) (st_result row) = Err e ->
    ended_answer st (OCompleted res) (Throws e)
| answer_result res : (forall d row, ~ last_row st d row) -> ended_answer st (OCompleted res) (Ret (Some res))
| answer_cached res : is_Some (oc_idempotency ctx) -> ended_answer st (OCompleted res) (Ret (Some res))
| answer_tripped reason e : tells_trip (ws_workflowId st) None reason e -> ended_answer st (OTripwire reason) (Throws e)
| answer_cancelled error fields : prop "workflowId" fields = JStr (ws_workflowId st) ->
    ended_answer st (OFailed error (Some CANCELLED_ERROR_TAG))
      (Throws (TError (rh_new_tagged host "WorkflowCancelledError" fields)))
| answer_failed error tag e : tag <> Some CANCELLED_ERROR_TAG -> tells_failure st e ->
    ended_answer st (OFailed error tag) (Throws e)
| answer_cached_failure error tag fields : is_Some (oc_idempotency ctx) ->
    (forall m, error = Some m -> prop "message" fields = JStr m) ->
    ended_answer st (OFailed error tag) (Throws (TError (rh_new_tagged host "WorkflowError" fields))).

(** What a terminal write may reject with. *)
Definition rejected (e : thrown) : Prop := exists w w',
  (exists r, rs_completeWorkflow (lock_guard lock) wid r w = (Throws e, w')) \/
  (exists r, rs_tripwireWorkflow (lock_guard lock) wid r w = (Throws e, w')) \/
  (exists m tag, rs_failWorkflow (lock_guard lock) wid m tag w = (Throws e, w')).

(** A terminal write whose answer was lost: its rejection ends the run's
    driver, or its retries ran out. *)
Definition unsaved (e : thrown) : Prop :=
  isControlFlowError e = false /\
  (isControlFlowExit e = true /\ rejected e \/
   exists op e', op ∈ ["completeWorkflow"; "tripwireWorkflow"; "failWorkflow"] /\ rejected e' /\
     e = CheckpointError host wid op None e').

(** The storage rejected a call with [e], or the code is of another version. *)
Definition refused (e : thrown) : Prop :=
  (exists w w', rs_loadWorkflow wid w = (Throws e, w')) \/
  (exists run input w w', rs_startFreshRun (lock_guard lock) wid run input w = (Throws e, w')) \/
  (is_Some (oc_version ctx) /\ exists fields, e = TError (rh_new_tagged host "WorkflowVersionMismatchError" fields)).

(** [v0]: the run as the driver found it; [found]: the state it read then. *)
Context (v0 : RunView) (found : WorkflowState -> Prop).

Inductive told : outcome (option json) -> RunView -> Prop :=
| told_died v : told Died v
| told_completed n r : told (Ret (Some r)) (Ended n (OCompleted r))
| told_tripped n step reason e : tells_trip wid (Some step) reason e -> told (Throws e) (Ended n (OTripwire reason))
| told_failed n e msg tag : stored_for e msg tag -> told (Throws e) (Ended n (OFailed (Some msg) tag))
| told_rolled_back n st e msg : ws_status st = Compensating -> tells_failure st e ->
    msg = match lc_error (ws_life st) with Some m => m | None => "Workflow " +:+ wid +:+ " failed" end ->
    told (Throws e) (Ended n (OFailed (Some msg) (lc_errorTag (ws_life st))))
| told_stored n x st o : found st -> view_of (Some st) = Ended n x -> ended_answer st x o -> told o (Ended n x)
| told_in_flight e n : told (Throws e) (InFlight n)
| told_missing e : told (Throws e) Gone
| told_intervened o n x : intervention x -> o <> Ret None -> told o (Ended n x)
| told_unsaved e n x : unsaved e -> told (Throws e) (Ended n x)
| told_untouched e n x : refused e -> v0 = Ended n x -> told (Throws e) (Ended n x)
| told_restart e err n x : told (Throws err) (Ended n x) -> errorTag err = Some CONTINUE_AS_NEW_TAG ->
    told (Throws e) (Ended n x).

Definition told_result (r : option json) : RunView -> Prop := told (Ret r).
Definition told_error (e : thrown) : RunView -> Prop := told (Throws e).

Lemma told_ends o v v' : o <> Ret None -> ends v v' -> told o v -> told o v'.
Proof. intros Ho [->|(n & x & -> & -> & Hx)] Ht; [done|]. by apply told_intervened. Qed.

(** A run this driver may end: in flight, or ended by an intervention. *)
Definition live (v : RunView) : Prop := running v = true \/ exists n x, v = Ended n x /\ intervention x.

Lemma live_ends v v' : ends v v' -> live v -> live v'.
Proof. intros [->|(n & x & -> & -> & Hx)] Hl; [done|]. right. by do 2 eexists. Qed.

Lemma live_error e v : live v -> told (Throws e) v.
Proof.
  intros [Hv|(n & x & -> & Hx)]; [|by apply told_intervened]. destruct v; [done| |done]. apply told_in_flight.
Qed.

(** After a write of [x]: it is there, or an intervention was. *)
Definition written (x : RunOutcome) (v : RunView) : Prop := exists n y, v = Ended n y /\ (y = x \/ intervention y).

Lemma written_ends x v v' : ends v v' -> written x v -> written x v'.
Proof. intros [->|(n & y & -> & -> & Hy)]; [done|]. intros (? & ? & [=] & _). Qed.

Lemma ends_or_live x v v' : ends_or x v v' -> live v -> live v' \/ written x v'.
Proof.
  intros [->|(n & y & -> & -> & Hy)]; [by left|]. intros _. right. by do 2 eexists.
Qed.

Ltac terminal_op := repeat first [apply list_elem_of_here|apply list_elem_of_further].

#[local] Instance calm_host : HostKeeps calm host.
Proof. apply (ow_run (OutcomeWorld := OW) None). Qed.

Lemma calm_settle x : HostKeeps (stepped ow_held ow_view (ends_or x)) host.
Proof.
  assert (forall w w', calm w w' -> stepped ow_held ow_view (ends_or x) w w') as Hc.
  { intros w w' Hc [Hh He]%Hc. split; [done|]. destruct He as [->|(n & y & -> & -> & Hy)]; [by left|right].
    do 2 eexists. split; [done|]. split; [done|]. by right. }
  split; intros; apply Hc; [apply now_kept|apply random_kept|apply wait_kept].
Qed.

(** A terminal write with its retries. *)
Lemma checkpoint_settles op x m :
  op ∈ ["completeWorkflow"; "tripwireWorkflow"; "failWorkflow"] -> settles ow_held ow_view x m ->
  (forall w e w', m w = (Throws e, w') -> rejected e) ->
  triple id live (checkpointWrite host wid op None m) (fun _ => written x) told_error.
Proof.
  intros Hop Hm Hrej w. pose proof (calm_settle x) as Hhost.
  assert (keeps (stepped ow_held ow_view (ends_or x)) m) as Hk.
  { intros w1. specialize (Hm w1). destruct (m w1) as [o w2]; apply Hm. }
  pose proof (keeps_checkpointWrite (stepped ow_held ow_view (ends_or x)) host wid op None m Hk w) as Hs.
  destruct (checkpointWrite host wid op None m w) as [o w'] eqn:E. cbn in Hs |- *. intros Hh.
  destruct (Hs Hh) as [Hh0 He]. split; [done|]. intros Hl. pose proof (ends_or_live _ _ _ He Hl) as Hv.
  unfold checkpointWrite, a_catch, retryAsync in E.
  destruct (attempt _ _ _ _ _ _ _ _ _ w) as [[a|e|] w1] eqn:Ea; apply loop_result in Ea.
  - injection E as <- <-. destruct Ea as (k & w2 & Ea). pose proof (Hm w2) as Hw. rewrite Ea in Hw.
    destruct Hw as [_ Hr]. destruct Hv as [[Hv|(n & y & Hy & Hi)]|Hv]; [|exists n, y; auto|done].
    by rewrite (Hr Hh) in Hv.
  - injection E as <- <-. destruct Hv as [Hv|(n & y & -> & _)]; [by apply live_error|].
    destruct Ea as [(k & w2 & w3 & Ea)|(d & w2 & w3 & Ea)].
    2: { unfold timer in Ea. destruct (rh_wait host d w2) as [[] w4]; by injection Ea. }
    apply told_unsaved. unfold unsaved. pose proof (Hrej _ _ _ Ea) as He'. destruct (isControlFlowExit e) eqn:Ec.
    + split; [|by left]. specialize (Hm w2). rewrite Ea in Hm. apply Hm.
    + split; [|right; exists op, e; split; [exact Hop|split; [done|reflexivity]]].
      unfold CheckpointError, engine_error, isControlFlowError, tag_in. rewrite ow_tags. reflexivity.
  - by injection E as <- <-.
Qed.

(** *** The parts of a cycle *)
Definition intervened (v : RunView) : Prop := exists n x, v = Ended n x /\ intervention x.

Definition stable (P : RunView -> Prop) : Prop := forall v v', ends v v' -> P v -> P v'.

Lemma stable_live : stable live.
Proof. exact live_ends. Qed.
Lemma stable_written x : stable (written x).
Proof. intros v v'. apply written_ends. Qed.
Lemma stable_told o : o <> Ret None -> stable (told o).
Proof. intros Ho v v'. by apply told_ends. Qed.

Lemma calm_live {A} (m : async W A) : keeps calm m -> triple id live m (fun _ => live) told_error.
Proof. intros Hm. apply triple_calm; [exact Hm|exact live_ends|apply live_error]. Qed.

Lemma calm_live_and {A} (F : Prop) (m : async W A) : keeps calm m ->
  triple id (fun v => live v /\ F) m (fun _ v => live v /\ F) told_error.
Proof.
  intros Hm. apply triple_calm; [exact Hm|intros v v' He [Hl ?]; split; [by eapply live_ends|done]|].
  intros e v [Hl _]. by apply live_error.
Qed.

(** Calm code that does not reject. *)
Lemma calm_total {A} P (m : async W A) E : keeps calm m -> stable P -> (forall w e, (m w).1 <> Throws e) ->
  triple id P m (fun _ => P) E.
Proof.
  intros Hm HP Ht w. specialize (Hm w). specialize (Ht w). destruct (m w) as [o w']. intros Hh.
  destruct (Hm Hh) as [? Hs]. split; [done|]. intros HPv. eapply HP in HPv; [|exact Hs]. by destruct o; [|destruct (Ht e)|].
Qed.

Lemma fire_triple P ev E : stable P -> triple id P (fire ctx ev) (fun _ => P) E.
Proof.
  intros HP. apply calm_total; [|done|].
  - intros w. unfold fire. destruct (oc_hooks ctx) as [hook|] eqn:Eh; [|reflexivity].
    pose proof (ow_run (OutcomeWorld := OW) None) as Hr. by apply (hook_kept hook ev w).
  - intros w e. unfold fire. by destruct (oc_hooks ctx).
Qed.

Lemma now_triple P E : stable P -> triple id P (currentTimeMs host) (fun _ => P) E.
Proof.
  intros HP. apply calm_total; [apply keeps_now; apply _|done|].
  intros w e. unfold currentTimeMs, a_sync. by destruct (rh_now host w).
Qed.

Lemma not_cancelled_triple P : stable P ->
  triple id P (assertNotCancelled host wid) (fun _ => P) (fun _ => intervened).
Proof.
  intros HP. unfold assertNotCancelled.
  pose proof (ow_run (OutcomeWorld := OW) None) as Hr.
  assert (keeps calm (rs_loadWorkflowStatus (W := W) wid)) as Hk by apply status_kept.
  intros w. specialize (Hk w). unfold a_bind, a_catch, a_ret, a_throw.
  destruct (rs_loadWorkflowStatus wid w) as [[[s|]|e|] w'] eqn:El; cbn in Hk |- *.
  2, 3, 4: (intros Hh; destruct (Hk Hh) as [? Hs]; split; [done|]; intros HPv; first [done|by eapply HP]).
  destruct (isCancelledRun s) eqn:Ec; intros Hh; destruct (Hk Hh) as [? Hs]; (split; [done|]); intros HPv;
    [|by eapply HP]. by eapply ow_cancelled.
Qed.

Lemma intervened_told e v : intervened v -> told_error e v.
Proof. intros (n & x & -> & Hx). by apply told_intervened. Qed.

Lemma written_told x o v : o <> Ret None -> (forall n, told o (Ended n x)) -> written x v -> told o v.
Proof. intros Ho Hx (n & y & -> & [->|Hy]); [apply Hx|by apply told_intervened]. Qed.

(** A terminal write, the look for a cancel that landed first, the hook. *)
Lemma ending_triple {A} op x m (ev : Z -> HookEvent) (k : async W A) Q :
  op ∈ ["completeWorkflow"; "tripwireWorkflow"; "failWorkflow"] -> settles ow_held ow_view x m ->
  (forall w e w', m w = (Throws e, w') -> rejected e) ->
  triple id (written x) k Q told_error ->
  triple id live (do% checkpointWrite host wid op None m in
                  do% assertNotCancelled host wid in
                  let% now := currentTimeMs host in
                  do% fire ctx (ev now) in k) Q told_error.
Proof.
  intros Hop Hm Hrej Hk. eapply triple_bind; [by apply (checkpoint_settles op x)|intros ?].
  eapply triple_bind; [|intros ?].
  { eapply triple_weaken; [apply (not_cancelled_triple (written x)), stable_written|done..|].
    intros. by apply intervened_told. }
  eapply triple_bind; [apply now_triple, stable_written|intros now].
  eapply triple_bind; [apply fire_triple, stable_written|intros ?; exact Hk].
Qed.

Lemma complete_triple t r :
  triple id live (complete_run host ctx lock wid t r) (fun r v => told_result (Some r) v) told_error.
Proof.
  unfold complete_run. apply (ending_triple _ (OCompleted r) _ (fun now => OnWorkflowComplete wid r (now - t)));
    [terminal_op|apply ow_completes|intros w e w' E; exists w, w'; left; by exists r|].
  apply triple_ret. intros v. apply written_told; [done|]. intros n. apply told_completed.
Qed.

Lemma trip_triple t step reason :
  triple id live (trip_run host ctx lock wid t step reason) (fun _ _ => False) told_error.
Proof.
  unfold trip_run. destruct (hasCapability CapTripwire); [|apply triple_throw; intros v; apply live_error].
  apply (ending_triple _ (OTripwire reason) _ (fun now => OnWorkflowTripwire wid step reason (now - t)));
    [terminal_op|apply ow_trips|intros w e w' E; exists w, w'; right; left; by exists reason|].
  apply triple_throw. intros v. apply written_told; [done|]. intros n. apply (told_tripped n step).
  eexists. split; [reflexivity|]. split_and!; [done|done|]. by intros s [= ->].
Qed.

(** A failure and what is written for it. *)
Definition failure_of (error : thrown) (msg : string) (tag : option string) : Prop :=
  stored_for error msg tag \/
  exists st, ws_status st = Compensating /\ tells_failure st error /\
    msg = match lc_error (ws_life st) with Some m => m | None => "Workflow " +:+ wid +:+ " failed" end /\
    tag = lc_errorTag (ws_life st).

Lemma failure_told error msg tag v : failure_of error msg tag -> written (OFailed (Some msg) tag) v -> told_error error v.
Proof.
  intros Hf. apply written_told; [done|]. intros n. destruct Hf as [Hf|(st & Hst & Hf & Hm & ->)].
  - by apply told_failed.
  - by apply (told_rolled_back n st).
Qed.

Lemma own_failure e : stored_for e (errorMessage host e) (errorTagOf e).
Proof.
  split; [by destruct e|..]; unfold errorTagOf; intros He; [by rewrite bool_decide_false|].
  rewrite bool_decide_true by done. destruct e as [x|v]; [by destruct (prop _ _); rewrite ?He|].
  unfold str_prop at 1. destruct v; rewrite ?He; try done. by destruct (prop _ _).
Qed.

Lemma failed_step st : blamed st (findFailedStep (ws_steps st)).
Proof.
  unfold findFailedStep, blamed. induction (snd <$> ws_steps st) as [|s l IH] using rev_ind; cbn.
  { by intros s ?%not_elem_of_nil. }
  rewrite foldl_app. cbn [foldl]. set (r := foldl _ _ l) in *. clearbody r. case_bool_decide as Hs.
  - destruct r as [b|].
    + destruct IH as (Hin & Hb & Hmax). unfold completed_ms. destruct (_ >? _) eqn:E;
        (split; [apply elem_of_app; try (by left); right; left|]); (split; [done|]); intros s' [Hs'| ->%list_elem_of_singleton]%elem_of_app H'.
      1, 3: specialize (Hmax _ Hs' H').
      all: lia.
    + split; [apply elem_of_app; right; left|]. split; [done|]. intros s' [Hs'| ->%list_elem_of_singleton]%elem_of_app H'; [by destruct (IH s')|done].
  - destruct r as [b|].
    + destruct IH as (Hin & Hb & Hmax). split; [apply elem_of_app; by left|]. split; [done|].
      intros s' [Hs'| ->%list_elem_of_singleton]%elem_of_app H'; [by apply Hmax|done].
    + intros s' [Hs'| ->%list_elem_of_singleton]%elem_of_app; [by apply IH|done].
Qed.

Lemma run_failure st : tells_failure st (runFailure host st).
Proof.
  pose proof (failed_step st) as Hb. unfold runFailure. exists (findFailedStep (ws_steps st)). eexists.
  split; [exact Hb|]. split; [reflexivity|].
  destruct (findFailedStep (ws_steps st)) as [s|], (lc_error (ws_life st)), (lc_errorTag (ws_life st)); try done;
    cbn; by destruct (st_errorTag s).
Qed.

Lemma begin_triple msg tag :
  triple id live (enter_compensation host lock wid msg tag)
    (fun entered v => live v /\ (entered = false -> running v = false)) told_error.
Proof.
  assert (keeps calm (rs_beginCompensation (run_guard lock) wid msg tag)) as Hk.
  { intros w. pose proof (ow_begins msg tag w) as Hb. unfold run_guard. destruct (rs_beginCompensation _ _ _ _ w). apply Hb. }
  intros w. pose proof (keeps_checkpointWrite calm host wid "beginCompensation" None _ Hk w) as Hs. unfold enter_compensation.
  destruct (checkpointWrite host wid "beginCompensation" None _ w) as [o w'] eqn:E. cbn in Hs |- *. intros Hh.
  destruct (Hs Hh) as [? He]. split; [done|]. intros Hl%(live_ends _ _ He).
  unfold checkpointWrite, a_catch, retryAsync in E.
  destruct (attempt _ _ _ _ _ _ _ _ _ w) as [[b|e|] w1] eqn:Ea; [|injection E as <- <-; by apply live_error|by injection E as <- <-].
  injection E as <- <-. split; [done|]. intros ->. apply loop_result in Ea as (k & w2 & Ea).
  pose proof (ow_begins msg tag w2) as Hb. unfold run_guard in Ea. rewrite Ea in Hb. by apply Hb.
Qed.

Variable rh_order : list (StepDefinition W) -> W -> list (StepDefinition W).
Hypothesis names : NoDup (sd_name <$> oc_steps ctx).
Hypothesis order_steps : forall l w, rh_order l w ≡ₚ l.

Lemma rollback_some input resumed l : topologicalSort (dag_nodes ctx) = Some (Ok l) ->
  triple id live (compensateWorkflow host (rollback_params ctx lock wid input resumed))
    (fun r v => live v /\ r <> None) told_error.
Proof using names.
  intros Hsort w. pose proof (ow_rollback (OutcomeWorld := OW) input resumed) as Hr.
  pose proof (keeps_compensateWorkflow calm host _ w) as Hk.
  destruct (compensateWorkflow host _ w) as [o w'] eqn:E. cbn in Hk. intros Hh. destruct (Hk Hh) as [? He].
  split; [done|]. intros Hl%(live_ends _ _ He). destruct o as [r|e|]; [|by apply live_error|done].
  split; [done|]. intros ->. unfold compensateWorkflow in E. apply a_bind_Ret in E as (st & w1 & _ & E).
  destruct st as [st|]; [|done].
  destruct (compensationOrder_steps (rb_steps (rollback_params ctx lock wid input resumed)) (ws_steps st)
    (dag_nodes ctx)) with (l := l) as (order & Ho & _); [| |done|].
  - unfold dag_nodes, rollback_params. cbn. by rewrite <- !list_fmap_compose.
  - unfold rollback_params. cbn. by rewrite <- list_fmap_compose.
  - cbn [rb_dagNodes rollback_params] in E. cbn [rb_steps rollback_params] in E, Ho. rewrite Ho in E.
    destruct (sort_recorded _ _ _ _) as [report pending]. by apply a_bind_Ret in E as (? & ? & _ & [=]).
Qed.

Lemma keeps_dlq input msg report : keeps calm
  (match oc_dlq ctx with Some publish => publishDlqRecord host ctx wid input msg report publish | None => a_ret tt end).
Proof.
  destruct (oc_dlq ctx) as [publish|] eqn:Ed; [|apply async_ret; apply _]. unfold publishDlqRecord. keep; try apply _.
  - apply ow_loads.
  - by apply ow_dlq.
Qed.

Lemma keeps_onComplete input error report : keeps calm (call_onComplete ctx input error report).
Proof.
  unfold call_onComplete. pose proof (fun f => ow_onComplete f input error report) as Hf.
  destruct (_ ≫= _) as [f|]; [|apply async_ret; apply _].
  apply async_catch; [apply _|by apply Hf|]. intros ?. apply async_ret; apply _.
Qed.

Lemma rollback_triple input t error msg tag resumed l : failure_of error msg tag ->
  topologicalSort (dag_nodes ctx) = Some (Ok l) ->
  triple id live (rollBackAndFail host ctx lock wid input t error msg tag resumed) (fun _ _ => False) told_error.
Proof using names.
  intros Hf Hsort. unfold rollBackAndFail. set (begin := if negb resumed && _ then _ else _).
  eapply triple_bind with (Q1 := fun entered v => live v /\ (entered = false -> running v = false)); [|intros entered].
  { subst begin. destruct (negb resumed && _); [apply begin_triple|]. by apply triple_ret. }
  destruct entered; cbn [negb].
  2: { eapply triple_bind; [|intros ?; apply triple_throw; intros v Hv; exact Hv].
       eapply triple_weaken; [apply (not_cancelled_triple intervened)|..|intros; by apply intervened_told].
       - intros v v' [->|(n & x & -> & -> & Hx)]; [done|]. intros (? & ? & [=] & _).
       - intros v [[Hv|Hv] Hn]; [by rewrite Hn in Hv|done].
       - intros ? v. by apply intervened_told. }
  eapply triple_bind with (Q1 := fun r v => live v /\ r <> None); [|intros [report|]].
  { eapply triple_weaken; [apply (rollback_some input resumed l Hsort)|intros v [Hv _]; exact Hv|done..]. }
  2: { intros w Hh. split; [done|]. by intros [_ []]. }
  eapply triple_bind with (Q1 := fun _ => live); [|intros ?].
  { eapply triple_weaken; [apply calm_live|by intros v [Hv _]|done..].
    apply keeps_onComplete. }
  eapply triple_bind; [apply (checkpoint_settles "failWorkflow" (OFailed (Some msg) tag)); [terminal_op|apply ow_fails|]|intros ?].
  { intros w e w' E. exists w, w'. right. right. by exists msg, tag. }
  eapply triple_bind; [apply now_triple, stable_written|intros now].
  eapply triple_bind; [apply fire_triple, stable_written|intros ?].
  eapply triple_bind; [apply calm_total; [|apply stable_written|]|intros ?; apply triple_throw; intros v; by apply failure_told].
  - apply keeps_dlq.
  - intros w e. destruct (oc_dlq ctx); [|done]. unfold publishDlqRecord, a_catch.
    by match goal with |- context [a_bind ?m ?k w] => destruct (a_bind m k w) as [[]] end.
Qed.

(** *** The attempts at the graph *)
Lemma triple_on_world {A} P (m : async W A) Q E : triple id P m Q E -> triple snd P (on_world m) Q E.
Proof. intros Hm [a w]. specialize (Hm w). unfold on_world. cbn. by destruct (m w). Qed.

Lemma dag_triple run input deadline state l : topologicalSort (dag_nodes ctx) = Some (Ok l) ->
  triple snd live (executeWorkflowDag host rh_order (dag_context ctx lock run)
                     (mkDagParams wid input (dag_nodes ctx) state deadline))
    (fun r v => live v /\ r <> None) told_error.
Proof using names order_steps.
  intros Hsort s. set (params := mkDagParams _ _ _ _ _). pose proof (ow_run (OutcomeWorld := OW) run) as Hr.
  pose proof (keeps_executeWorkflowDag calm host (dag_context ctx lock run) wid rh_order params order_steps eq_refl s) as Hk.
  destruct (executeWorkflowDag _ _ _ params s) as [o s'] eqn:E. intros Hh. destruct (Hk Hh) as [? He]. split; [done|].
  intros Hl%(live_ends _ _ He). destruct o as [r|e|]; [|by apply live_error|done]. split; [done|].
  assert (graph_ok (dag_context ctx lock run) params) as Hg by (split; [exact names|done|by exists l]).
  destruct (dag_through_loop _ _ _ _ _ _ _ Hg E) as (v & marked & s1 & Hpg & Hloop).
  eapply wave_loop_accounted in Hloop as (x & -> & _); [done|done|done|exact Hpg|lia].
Qed.

Lemma keeps_active : keeps calm (assertRunActive host wid (lk_signal lock) None).
Proof. pose proof (ow_run (OutcomeWorld := OW) None) as Hr. by eapply keeps_run_active; apply _. Qed.

Lemma keeps_delay n e f t : keeps calm (retry_delay host ctx n e f t).
Proof. unfold retry_delay. destruct (workflowRetryPolicy ctx); keep; apply _. Qed.

Definition attempts_done (r : option (json + thrown)) (v : RunView) : Prop :=
  match r with
  | None => False
  | Some (inl r) => told_result (Some r) v
  | Some (inr _) => live v
  end.

Lemma granted_spare n e f t w q w' spare :
  (forall p, workflowRetryPolicy ctx = Some p -> Z.to_nat (max_retries p) <= spare + n)%nat ->
  retry_delay host ctx n e f t w = (Ret (Some q), w') -> (0 < spare)%nat.
Proof.
  unfold retry_delay. destruct (workflowRetryPolicy ctx) as [p|]; [|done]. intros Hs. specialize (Hs p eq_refl).
  unfold a_sync. destruct (nextRetryDelayMs _ _ _ _ _ _ w) as [d w1] eqn:E. intros [= -> ->].
  apply granted_retries in E. lia.
Qed.

Lemma one_attempt_triple run input t deadline l k spare n first state :
  topologicalSort (dag_nodes ctx) = Some (Ok l) ->
  (forall p, workflowRetryPolicy ctx = Some p -> Z.to_nat (max_retries p) <= spare + n)%nat ->
  (forall first state, triple snd (fun v => live v /\ (0 < spare)%nat) (k first state) attempts_done told_error) ->
  triple snd live (attempt_once host rh_order ctx lock (dag_context ctx lock run) wid input t deadline k n first state)
    attempts_done told_error.
Proof using names order_steps.
  intros Hsort Hspare Hk. unfold attempt_once.
  eapply triple_bind; [by eapply dag_triple|intros [[r|e sus cont|step reason]|]].
  4: { intros s Hh. split; [done|]. by intros [_ []]. }
  3: { apply triple_on_world. eapply triple_weaken; [apply trip_triple|by intros v [Hv _]|done..]. }
  - eapply triple_bind with (Q1 := fun r => told_result (Some r)); [|intros r'; by apply triple_ret].
    apply triple_on_world. eapply triple_weaken; [apply complete_triple|by intros v [Hv _]|done..].
  - destruct (sus || cont); [apply triple_throw; intros v [Hv _]; by apply live_error|].
    destruct (isAbandonRunExit e); [apply triple_throw; intros v [Hv _]; by apply live_error|].
    eapply triple_bind with (Q1 := fun _ => live); [apply triple_on_world|intros ?].
    { eapply triple_weaken; [apply (not_cancelled_triple live), stable_live|by intros v [Hv _]|done|].
      intros. by apply intervened_told. }
    eapply triple_bind; [apply triple_on_world, now_triple, stable_live|intros now].
    eapply triple_bind; [apply triple_fact with (F := fun d => is_Some d -> (0 < spare)%nat);
      [apply triple_on_world, calm_live, keeps_delay|]|intros [d|]].
    + intros [m w] d s' Hd [q ->]. unfold on_world in Hd.
      destruct (retry_delay _ _ _ _ _ _ _) as [o w'] eqn:E. injection Hd as -> _. by eapply granted_spare.
    + eapply triple_bind with (Q1 := fun _ v => live v /\ (0 < spare)%nat); [|intros ?].
      { eapply triple_weaken; [apply triple_on_world, (calm_live_and (0 < spare)%nat), keeps_timer; apply _| |done..].
        intros v [Hv Hd]. split; [done|]. by apply Hd. }
      eapply triple_bind; [apply triple_on_world, calm_live_and, keeps_active|intros ?].
      eapply triple_bind; [apply triple_on_world, calm_live_and, ow_loads|intros state']. apply Hk.
    + apply triple_ret. by intros v [Hv _].
Qed.

Lemma attempts_triple run input t deadline l spare n first state :
  topologicalSort (dag_nodes ctx) = Some (Ok l) ->
  (forall p, workflowRetryPolicy ctx = Some p -> Z.to_nat (max_retries p) <= spare + n)%nat ->
  triple snd live (run_attempts host rh_order ctx lock (dag_context ctx lock run) wid input t deadline spare n first state)
    attempts_done told_error.
Proof using names order_steps.
  intros Hsort. revert n first state. induction spare as [|spare IH]; intros n first state Hspare; cbn [run_attempts].
  all: eapply one_attempt_triple; [done|exact Hspare|intros first' state'].
  - apply triple_ret. intros v [_ Hv]. lia.
  - eapply triple_weaken; [apply IH|by intros v [Hv _]|done..]. intros p Hp%Hspare. lia.
Qed.

(** *** The cycle *)
Definition cycle_result (r : option json) (v : RunView) : Prop := r <> None /\ told_result r v.

Lemma deadline_triple t state : triple id live (run_deadline host ctx t state) (fun _ => live) told_error.
Proof.
  apply calm_live. unfold run_deadline, runStartMs. keep; apply _.
Qed.

Lemma execute_triple input t state :
  triple id live (execute_run host rh_order ctx lock wid input t state) cycle_result told_error.
Proof using names order_steps.
  unfold execute_run. destruct (sort_ends (dag_nodes ctx)) as [r Hsort]. rewrite Hsort.
  destruct r as [l|e]; [|apply triple_throw; intros v; apply live_error].
  destruct (state ≫= _) as [st|] eqn:Est.
  { apply bind_Some in Est as (st' & _ & E). case_bool_decide as Ec; [injection E as ->|done].
    eapply triple_weaken; [eapply rollback_triple; [right|exact Hsort]|done| |done]; [|done].
    exists st. by split_and!; [|apply run_failure|..]. }
  eapply triple_bind; [apply deadline_triple|intros deadline].
  eapply triple_bind with (Q1 := attempts_done); [|intros [[r|e]|]].
  - intros w. set (spare := from_option _ _ _).
    pose proof (attempts_triple (ws_run <$> state) input t deadline l spare 0 None state Hsort) as Hr.
    specialize (Hr ltac:(intros p Hp; subst spare; rewrite Hp; cbn; lia) (∅, w)).
    by destruct (run_attempts _ _ _ _ _ _ _ _ _ _ _ _ _ (∅, w)) as [o [a w']].
  - by apply triple_ret.
  - eapply triple_weaken; [eapply rollback_triple; [left; apply own_failure|exact Hsort]|done..].
  - intros w Hh. split; [done|]. by intros [].
Qed.

(** *** The way in *)
(** What this cycle may reject with at the gate, and whether it archives what
    it finds. *)
Context (allowed : thrown -> Prop) (forced : Prop).
Hypothesis refused_allowed : forall e, refused e -> allowed e.

(** Such a rejection may leave the run like this. *)
Definition rejectable (v : RunView) : Prop := forall e, allowed e -> told_error e v.

Lemma rejectable_ends : stable rejectable.
Proof. intros v v' He Hv e Ha. apply (told_ends _ v v'); [done|done|by apply Hv]. Qed.
Lemma live_rejectable v : live v -> rejectable v.
Proof. intros Hv e _. by apply live_error. Qed.
Lemma running_live v : running v = true -> live v.
Proof. by left. Qed.

(** The run as it was last loaded; others may have ended it since. *)
Definition known (state : option WorkflowState) (v : RunView) : Prop :=
  ends (view_of state) v /\ rejectable v /\ (forced \/ live v \/ forall st, state = Some st -> found st).

Lemma known_ends state : stable (known state).
Proof.
  intros v v' He (Hs & Hv & Hf). split; [by etrans|]. split; [by eapply rejectable_ends|].
  destruct Hf as [?|[?|?]]; [by left|right; left; by eapply live_ends|by right; right].
Qed.

Lemma load_triple P : (forall v, P v -> rejectable v) -> stable P ->
  triple id P (rs_loadWorkflow wid) (fun state v => ends (view_of state) v /\ P v) told_error.
Proof using refused_allowed.
  intros Hr HP w. pose proof (ow_loads w) as Hk. pose proof (ow_loaded w) as Hl.
  destruct (rs_loadWorkflow wid w) as [[st|e|] w'] eqn:E; cbn in Hk |- *; intros Hh; destruct (Hk Hh) as [? He];
    (split; [done|]); intros Hv; pose proof (HP _ _ He Hv) as HP'; [| |done].
  - split; [by rewrite (Hl _ _ eq_refl Hh)|done].
  - apply Hr; [done|]. apply refused_allowed. left. by exists w, w'.
Qed.

Lemma live_load_triple : triple id live (rs_loadWorkflow wid) (fun state v => known state v /\ live v) told_error.
Proof using refused_allowed.
  eapply triple_weaken; [apply (load_triple live live_rejectable stable_live)|done| |done].
  intros st v [He Hv]. split; [|done]. split; [done|]. split; [by apply live_rejectable|by right; left].
Qed.

Lemma ended_known st n x v : view_of (Some st) = Ended n x -> known (Some st) v -> v = Ended n x.
Proof. intros E [[<-|(m & y & Hm & _)] _]; [done|]. rewrite E in Hm. done. Qed.

Lemma terminal_view st : isTerminalWorkflowStatus (ws_status st) = true ->
  exists x, view_of (Some st) = Ended (ws_run st) x.
Proof. unfold ws_status, view_of, life_view, outcome_of. destruct (lc_status _); try done; intros _; by eexists. Qed.

Lemma open_view st : isTerminalWorkflowStatus (ws_status st) = false -> view_of (Some st) = InFlight (ws_run st).
Proof. unfold ws_status, view_of, life_view, outcome_of. by destruct (lc_status _). Qed.

(** An ended run is archived and a fresh one started. *)
Lemma restart_triple st input : isTerminalWorkflowStatus (ws_status st) = true ->
  triple id (known (Some st)) (rs_startFreshRun (run_guard lock) wid (Some (ws_run st)) input) (fun _ => live) told_error.
Proof using refused_allowed.
  intros [x Hx]%terminal_view w. pose proof (ow_restarts (Some (ws_run st)) input w) as Hr. unfold run_guard.
  destruct (rs_startFreshRun _ _ _ _ w) as [o w'] eqn:Er. intros Hh. destruct (Hr Hh) as [? Hv]. split; [done|].
  intros Hk. pose proof (ended_known _ _ _ _ Hx Hk) as Ev. cbn in Ev, Hv |- *. rewrite Ev in Hv.
  destruct Hv as [(n & _ & _ & Hv)|[Hv Hno]].
  - assert (live (ow_view w')) as Hl by (rewrite Hv; by left). destruct o; [done|by apply live_error|done].
  - destruct o as [n|e|]; [|rewrite Hv, <- Ev|done].
    { by destruct (Hno n eq_refl) as [[] _]. }
    apply Hk, refused_allowed. right. left. by do 4 eexists.
Qed.

Lemma told_known st n x v o : view_of (Some st) = Ended n x -> known (Some st) v -> ~ forced -> o <> Ret None ->
  ended_answer st x o -> told o v.
Proof.
  intros Hx Hk Hf Ho Ha. pose proof (ended_known _ _ _ _ Hx Hk) as ->.
  destruct Hk as (_ & _ & [?|[[?|(? & ? & [= <- <-] & Hi)]|Hfound]]); [done|done|by apply told_intervened|].
  apply (told_stored n x st); [by apply Hfound|done|done].
Qed.

Definition answered (r : json + option WorkflowState) (v : RunView) : Prop :=
  match r with inl r => told_result (Some r) v | inr state => known state v end.

(** What the engine answers for a run that has ended. *)
Lemma completed_view st : ws_status st = RunState.Completed ->
  view_of (Some st) = Ended (ws_run st) (OCompleted (lc_result (ws_life st))).
Proof. unfold ws_status, view_of, life_view, outcome_of. by intros ->. Qed.
Lemma failed_view st : ws_status st = RunState.Failed ->
  view_of (Some st) = Ended (ws_run st) (OFailed (lc_error (ws_life st)) (lc_errorTag (ws_life st))).
Proof. unfold ws_status, view_of, life_view, outcome_of. by intros ->. Qed.
Lemma tripped_view st : ws_status st = RunState.Tripwire ->
  view_of (Some st) = Ended (ws_run st) (OTripwire (lc_tripwire (ws_life st))).
Proof. unfold ws_status, view_of, life_view, outcome_of. by intros ->. Qed.

Lemma stored_error_answer st e : storedRunError host st = Some e ->
  exists x, view_of (Some st) = Ended (ws_run st) x /\ ended_answer st x (Throws e).
Proof.
  unfold storedRunError. destruct (ws_status st) eqn:Es; try done.
  - intros He. eexists. split; [by apply failed_view|]. unfold isCancelledRun in He. cbn in He. rewrite Es in He.
    rewrite bool_decide_true in He by done. cbn in He. case_bool_decide as Ht; injection He as <-.
    + rewrite Ht. by apply answer_cancelled.
    + apply answer_failed; [done|apply run_failure].
  - intros [= <-]. eexists. split; [by apply tripped_view|]. apply answer_tripped. eexists. split; [reflexivity|].
    by split_and!.
Qed.

Lemma completed_answer st : isTerminalWorkflowStatus (ws_status st) = true -> storedRunError host st = None ->
  exists x, view_of (Some st) = Ended (ws_run st) x /\
    ended_answer st x (match completedRunResult ctx st with Ok r => Ret (Some r) | Err e => Throws e end).
Proof.
  unfold storedRunError. destruct (ws_status st) eqn:Es; try done.
  2: by case_match. intros _ _. eexists. split; [by apply completed_view|]. unfold completedRunResult.
  destruct (last (oc_steps ctx)) as [d|] eqn:Ed; [|apply answer_result; intros d row [Hl _]; congruence].
  destruct (alist_get (sd_name d) (ws_steps st)) as [row|] eqn:Er;
    [|apply answer_result; intros d' row (? & ? & _); congruence].
  case_bool_decide as Hc; [|apply answer_result; intros d' row' (? & ? & ?); congruence].
  destruct (codec_decode _ _) eqn:Ex; [by apply (answer_row _ _ d row)|by apply (answer_undecodable _ _ d row)].
Qed.

Lemma cached_triple config st : oc_idempotency ctx = Some config -> ~ forced ->
  triple id (known (Some st)) (cachedIdempotentOutcome host config st)
  (fun r v => match r with Some r => told_result (Some r) v | None => known (Some st) v end) told_error.
Proof.
  intros Hc Hf. assert (is_Some (oc_idempotency ctx)) as Hi by by eexists.
  unfold cachedIdempotentOutcome. destruct (lc_completedAt _); [|by apply triple_ret].
  eapply triple_bind; [apply now_triple, known_ends|intros now].
  destruct (getIdempotencyTtl _ _) as [ttl|]; [|by apply triple_ret]. destruct (_ >=? ttl); [by apply triple_ret|].
  destruct (ws_status st) eqn:Es; try by apply triple_ret.
  - apply triple_ret. intros v Hk.
    eapply told_known; [by apply completed_view|exact Hk|done|congruence|by apply answer_cached].
  - apply triple_throw. intros v Hk.
    eapply told_known; [by apply failed_view|exact Hk|done|done|apply answer_cached_failure; [done|]].
    by intros m ->.
Qed.

Context (params : RunParams).
Hypothesis for_run : rp_workflowId params = wid.
Hypothesis no_key : rp_idempotencyKey params = None.
Hypothesis force_forced : forced <-> rp_force params = true.

Lemma idempotent_triple state : triple id (known state) (idempotent_answer host ctx lock params state) answered told_error.
Proof using for_run force_forced refused_allowed.
  unfold idempotent_answer. rewrite for_run.
  destruct (if rp_force params then None else _) as [config|] eqn:Econf; [|by apply triple_ret].
  assert (oc_idempotency ctx = Some config /\ ~ forced) as [Hconf Hf].
  { rewrite force_forced. destruct (rp_force params); [done|by split]. }
  destruct state as [st|]; [|by apply triple_ret]. destruct (lc_completedAt _) eqn:Ec; [|by apply triple_ret].
  eapply triple_bind; [by apply cached_triple|intros [r|]]; [by apply triple_ret|].
  destruct (negb _ && _) eqn:Ef; [|by apply triple_ret]. apply andb_true_iff in Ef as [_ Ef].
  eapply triple_bind; [apply restart_triple|intros ?].
  - apply orb_true_iff in Ef as [Ef|Ef]; apply bool_decide_eq_true in Ef; by rewrite Ef.
  - eapply triple_bind; [apply live_load_triple|intros state]. apply triple_ret. by intros v [Hv _].
Qed.

Lemma create_triple state : triple id (known state) (create_or_check host ctx params state)
  (fun state v => known state v /\ state <> None) told_error.
Proof using for_run no_key refused_allowed.
  unfold create_or_check. destruct state as [st|].
  - destruct (truthy_str _ && _) eqn:Ev; [apply triple_throw|by apply triple_ret]. intros v (_ & Hv & _).
    apply Hv, refused_allowed. right. right. split; [|by eexists].
    apply andb_true_iff in Ev as [Ev _]. by destruct (oc_version ctx).
  - rewrite for_run. destruct (rp_useStoredInput params).
    { apply triple_throw. intros v [[<-|(n & x & [=] & _)] _]. apply told_missing. }
    eapply triple_bind with (Q1 := fun st v => st = None /\ live v); [|intros [st|]].
    + intros w. pose proof (ow_creates (create_params ctx params) w for_run) as Hc.
      specialize (Hc ltac:(unfold create_params; cbn; rewrite no_key; done)).
      destruct (rs_createWorkflow _ _ w) as [o w']. intros Hh. destruct (Hc Hh) as [? Hv]. split; [done|].
      intros [[Hs|(n & x & [=] & _)] _]. specialize (Hv (eq_sym Hs)). destruct o as [[st|]|e|]; [done| | |done].
      * split; [done|by left].
      * destruct Hv as [Hv|Hv]; cbn; [rewrite Hv; apply told_missing|apply live_error; by left].
    + intros w Hh. split; [done|]. by intros [[=] _].
    + eapply triple_weaken; [apply live_load_triple|by intros v [_ Hv]| |done].
      intros st v [Hk Hl]. split; [done|]. intros ->. destruct Hk as [[<-|(n & x & [=] & _)] _].
      by destruct Hl as [[=]|(n & x & [=] & _)].
Qed.

(** *** A cycle and a chain *)
Lemma triple_on_driven {A} P (m : async W A) Q E : triple id P m Q E -> triple snd P (on_driven m) Q E.
Proof. intros Hm [a w]. specialize (Hm w). unfold on_driven. cbn. by destruct (m w). Qed.

Definition past_gate (r : json + option WorkflowState) (v : RunView) : Prop :=
  match r with inl r => told_result (Some r) v | inr _ => live v end.

Lemma gate_triple state : triple snd (fun v => known state v /\ state <> None) (entry_gate host ctx lock params state)
  past_gate told_error.
Proof using for_run force_forced refused_allowed.
  unfold entry_gate. rewrite for_run. eapply triple_bind with (Q1 := fun _ v => known state v /\ state <> None); [|intros ?].
  { intros [ld w] Hh. by split. }
  destruct state as [st|]; [|intros s Hh; split; [done|]; by intros [_ []]].
  destruct (isTerminalWorkflowStatus _) eqn:Et.
  2: { apply triple_ret. intros v [[Hv _] _]. eapply live_ends; [exact Hv|]. left. by rewrite open_view. }
  destruct (rp_force params) eqn:Ef.
  - eapply triple_bind with (Q1 := fun _ => live); [|intros ?].
    { apply triple_on_driven. eapply triple_weaken; [by apply restart_triple|by intros v [Hv _]|done..]. }
    eapply triple_bind with (Q1 := fun _ => live); [|intros state].
    { apply triple_on_driven. eapply triple_weaken; [apply live_load_triple|done| |done]. by intros ? v [_ Hv]. }
    eapply triple_bind with (Q1 := fun _ => live); [intros [ld w] Hh; by split|intros ?]. by apply triple_ret.
  - assert (~ forced) as Hf by (rewrite force_forced; congruence).
    destruct (storedRunError host st) as [e|] eqn:Ee.
    + apply triple_throw. intros v [Hk _]. apply stored_error_answer in Ee as (x & Hx & Ha).
      by apply (told_known st (ws_run st) x).
    + eapply triple_bind with (Q1 := fun r => told_result (Some r)); [apply triple_lift|intros r; by apply triple_ret].
      intros v [Hk _]. apply (completed_answer st Et) in Ee as (x & Hx & Ha).
      by destruct (completedRunResult ctx st) as [r|e]; apply (told_known st (ws_run st) x).
Qed.

(** The cycle after its first load. *)
Definition cycle_rest (startTime : Z) (state : option WorkflowState) : async Driven (option json) :=
  let% answered := on_driven (idempotent_answer host ctx lock params state) in
  match answered with
  | inl result => a_ret (Some result)
  | inr state =>
      let% state := on_driven (create_or_check host ctx params state) in
      let input := if rp_useStoredInput params then from_option ws_input (rp_input params) state
                   else rp_input params in
      let% gate := entry_gate host ctx lock params state in
      match gate with
      | inl result => a_ret (Some result)
      | inr state => on_driven (execute_run host rh_order ctx lock (rp_workflowId params) input startTime state)
      end
  end.

Lemma cycle_eq preloaded : runOneOrchestrationCycle host rh_order ctx lock params preloaded =
  (let% startTime := on_driven (currentTimeMs host) in
   let% state := on_driven (match preloaded with
                            | Some state => a_ret state
                            | None => rs_loadWorkflow (rp_workflowId params)
                            end) in
   cycle_rest startTime state).
Proof. reflexivity. Qed.

Lemma rest_triple t state : triple snd (known state) (cycle_rest t state) cycle_result told_error.
Proof using for_run no_key force_forced refused_allowed names order_steps.
  unfold cycle_rest.
  eapply triple_bind; [apply triple_on_driven, idempotent_triple|intros [r|state']]; [by apply triple_ret|].
  eapply triple_bind; [apply triple_on_driven, create_triple|intros state''].
  eapply triple_bind; [apply gate_triple|intros [r|state3]]; [by apply triple_ret|].
  rewrite for_run. apply triple_on_driven, execute_triple.
Qed.
End outcome.

Section chain.
Context {W : Type} `{OW : OutcomeWorld W host ctx lock wid}.
Variable rh_order : list (StepDefinition W) -> W -> list (StepDefinition W).
Hypothesis names : NoDup (sd_name <$> oc_steps ctx).
Hypothesis order_steps : forall l w, rh_order l w ≡ₚ l.
Context (v0 : RunView) (found : WorkflowState -> Prop).
#[local] Abbreviation error_told := (told_error (host := host) (ctx := ctx) (lock := lock) (wid := wid) v0 found).
#[local] Abbreviation result_told := (cycle_result (host := host) (ctx := ctx) (lock := lock) (wid := wid) v0 found).

(** Anything may be told of this run. *)
Definition open_ended (v : RunView) : Prop := forall e, error_told e v.

Lemma open_ended_ends : stable open_ended.
Proof. intros v v' He Hv e. apply (told_ends _ _ _ v v'); [done|done|apply Hv]. Qed.

Lemma continued_open err v : error_told err v -> errorTag err = Some CONTINUE_AS_NEW_TAG -> open_ended v.
Proof.
  intros Ht Hc e. destruct v as [|n|n x]; [apply told_missing|apply told_in_flight|by eapply told_restart].
Qed.

Lemma continue_triple run input :
  triple id open_ended (rs_startFreshRun (run_guard lock) wid run input) (fun _ => open_ended) error_told.
Proof.
  intros w. pose proof (ow_restarts run input w) as Hr. unfold run_guard.
  destruct (rs_startFreshRun _ _ _ _ w) as [o w']. intros Hh. destruct (Hr Hh) as [? Hv]. split; [done|].
  intros Hk. assert (open_ended (ow_view w')) as Hk'; [|destruct o; [done|by apply Hk'|done]].
  destruct Hv as [(n & _ & _ & Hv)|[Hv _]]; cbn in *; rewrite Hv; [|done]. intros e. apply told_in_flight.
Qed.

(** The cycles after the first: each archives what it finds. *)
Lemma later_cycle params : rp_workflowId params = wid -> rp_idempotencyKey params = None -> rp_force params = true ->
  triple snd open_ended (runOneOrchestrationCycle host rh_order ctx lock params None) result_told error_told.
Proof using names order_steps.
  intros Hw Hk Hf. rewrite cycle_eq, Hw.
  eapply triple_bind; [apply triple_on_driven, now_triple, open_ended_ends|intros t].
  eapply triple_bind; [apply triple_on_driven, (load_triple v0 found (fun _ => True)) with (P := open_ended)|intros state].
  - done.
  - intros v Hv e _. apply Hv.
  - exact open_ended_ends.
  - eapply triple_weaken; [apply (rest_triple v0 found rh_order names order_steps (fun _ => True) True)|..]; try done.
    intros v [He Hv]. split; [done|]. split; [intros e _; apply Hv|by left].
Qed.

Lemma later_cycles spare params : rp_workflowId params = wid -> rp_idempotencyKey params = None -> rp_force params = true ->
  triple snd open_ended (chain_loop host rh_order ctx lock spare params None) result_told error_told.
Proof using names order_steps.
  revert params. induction spare as [|spare IH]; intros params Hw Hk Hf; cbn [chain_loop].
  { apply triple_throw. intros v Hv. apply Hv. }
  intros s. pose proof (later_cycle params Hw Hk Hf s) as Hc.
  destruct (runOneOrchestrationCycle _ _ _ _ _ _ s) as [[r|err|] s1]; try exact Hc.
  case_bool_decide as Ht; [|exact Hc]. rewrite Hw.
  match goal with |- let '(o, s') := ?m s1 in _ => assert (triple snd open_ended m result_told error_told) as Hm end.
  { eapply triple_bind; [apply triple_on_driven, continue_triple|intros n]. by apply IH. }
  specialize (Hm s1). destruct (a_bind _ _ s1) as [o s2]. intros Hh. destruct (Hm Hh) as [Hh1 Ho].
  destruct (Hc Hh1) as [? Herr]. split; [done|]. intros Hp%Herr. apply Ho. by eapply continued_open.
Qed.
End chain.

(** The state the driver finds the run in: what came with the lock, or what its
    first load answers. *)
Definition found_at {W} `{RunStore W} (host : RunnerHost W) (lock : LockContext W) (wid : string) (w : W)
    (st : WorkflowState) : Prop :=
  match lk_state lock with
  | Some state => state = Some st
  | None => (rs_loadWorkflow wid (currentTimeMs host w).2).1 = Ret (Some st)
  end.

Section first.
Context {W : Type} `{OW : OutcomeWorld W host ctx lock wid}.
Variable rh_order : list (StepDefinition W) -> W -> list (StepDefinition W).
Hypothesis names : NoDup (sd_name <$> oc_steps ctx).
Hypothesis order_steps : forall l w, rh_order l w ≡ₚ l.
Context (w : W).
Hypothesis as_locked : forall state, lk_state lock = Some state -> ow_view w = view_of state.
#[local] Abbreviation found := (found_at host lock wid w).
#[local] Abbreviation error_told := (told_error (host := host) (ctx := ctx) (lock := lock) (wid := wid) (ow_view w) found).
#[local] Abbreviation result_told := (cycle_result (host := host) (ctx := ctx) (lock := lock) (wid := wid) (ow_view w) found).
#[local] Abbreviation refusal := (refused (host := host) (ctx := ctx) (lock := lock) (wid := wid)).
#[local] Abbreviation deniable := (rejectable (host := host) (ctx := ctx) (lock := lock) (wid := wid) (ow_view w) found refusal).

#[local] Abbreviation calm := (stepped ow_held ow_view ends).

Lemma found_rejectable : deniable (ow_view w).
Proof using Type.
  clear as_locked. intros e He. unfold told_error. destruct (ow_view w) as [|n|n x] eqn:E; [apply told_missing|apply told_in_flight|].
  by apply told_untouched.
Qed.

Lemma first_cycle params ld : rp_workflowId params = wid -> rp_idempotencyKey params = None ->
  let '(o, s') := runOneOrchestrationCycle host rh_order ctx lock params (lk_state lock) (ld, w) in
  ow_held s'.2 -> match o with Ret r => result_told r (ow_view s'.2) | Throws e => error_told e (ow_view s'.2) | Died => True end.
Proof using names order_steps as_locked.
  intros Hw Hk. rewrite cycle_eq, Hw. unfold a_bind, on_driven. cbn [fst snd].
  assert (forall st, match lk_state lock with Some state => state = Some st
    | None => (rs_loadWorkflow wid (currentTimeMs host w).2).1 = Ret (Some st) end -> found st) as Hf by done.
  assert (calm w (currentTimeMs host w).2) as Hc.
  { pose proof calm_host as Hho. exact (keeps_now calm host w). }
  destruct (currentTimeMs host w) as [[t|e|] w1] eqn:En; [|unfold currentTimeMs, a_sync in En; by destruct (rh_now host w)..].
  cbn [snd] in Hc, Hf. assert (stable deniable) as Hst by apply rejectable_ends.
  pose proof (fun state w2 => rest_triple (host := host) (ctx := ctx) (lock := lock) (wid := wid) (ow_view w) found rh_order names order_steps refusal (rp_force params = true)
    (fun _ He => He) params Hw Hk (iff_refl _) t state (ld, w2)) as Hrest. cbn [snd] in Hrest.
  destruct (lk_state lock) as [state|] eqn:El.
  - cbn. specialize (Hrest state w1). destruct (cycle_rest _ _ _ _ _) as [o s']. intros Hh.
    destruct (Hrest Hh) as [Hh1 Ho]. destruct (Hc Hh1) as [_ He]. apply Ho. split; [by rewrite <- (as_locked state)|].
    split; [by apply (Hst _ _ He), found_rejectable|]. right. right. intros st ->. by apply Hf.
  - pose proof (ow_loads w1) as Hl. pose proof (ow_loaded w1) as Hv.
    change (ld, w1).2 with w1. change (ld, w1).1 with ld. destruct (rs_loadWorkflow wid w1) as [[state|e|] w2] eqn:Eload; cbn [fst snd] in *; [| |exact (fun _ => I)].
    + specialize (Hrest state w2). destruct (cycle_rest _ _ _ _ _) as [o s']. intros Hh.
      destruct (Hrest Hh) as [Hh2 Ho]. destruct (Hl Hh2) as [Hh1 He1]. destruct (Hc Hh1) as [_ He]. apply Ho.
      split; [by rewrite (Hv _ _ eq_refl Hh2)|]. split.
      { apply (Hst _ _ He1), (Hst _ _ He), found_rejectable. }
      right. right. intros st ->. by apply Hf.
    + intros Hh. destruct (Hl Hh) as [Hh1 He1]. destruct (Hc Hh1) as [_ He].
      apply (Hst _ _ He1 (Hst _ _ He found_rejectable)). left. by exists w1, w2.
Qed.

Lemma chain_told spare params ld o ld' w' :
  rp_workflowId params = wid -> rp_idempotencyKey params = None ->
  chain_loop host rh_order ctx lock (Datatypes.S spare) params (lk_state lock) (ld, w) = (o, (ld', w')) -> ow_held w' ->
  o <> Ret None /\ told (host := host) (ctx := ctx) (lock := lock) (wid := wid) (ow_view w) found o (ow_view w').
Proof using names order_steps as_locked.
  intros Hw Hk Hrun Hh. cbn [chain_loop] in Hrun. pose proof (first_cycle params ld Hw Hk) as Hc.
  assert (forall o v, match o with Ret r => result_told r v | Throws e => error_told e v | Died => True end ->
    o <> Ret None /\ told (host := host) (ctx := ctx) (lock := lock) (wid := wid) (ow_view w) found o v) as Hdone.
  { intros [r|e|] v Ho; [destruct Ho; split; [congruence|done]|by split|split; [done|apply told_died]]. }
  destruct (runOneOrchestrationCycle _ _ _ _ _ _ (ld, w)) as [[r|err|] s1]; [|case_bool_decide as Ht|].
  1, 3, 4: (injection Hrun as <- ->; by apply Hdone, Hc).
  rewrite Hw in Hrun. match type of Hrun with ?m s1 = _ =>
    assert (triple snd (open_ended (host := host) (ctx := ctx) (lock := lock) (wid := wid) (ow_view w) found) m result_told error_told) as Hm end.
  { eapply triple_bind; [apply triple_on_driven, continue_triple|intros n]. by apply (later_cycles rh_order names order_steps). }
  specialize (Hm s1). rewrite Hrun in Hm. cbn [snd] in Hm. destruct (Hm Hh) as [Hh1 Ho]. apply Hdone, Ho.
  by eapply continued_open; [apply Hc|].
Qed.
End first.

Lemma runChain_eq {W} `{RunStore W} host rh_order (ctx : OrchestrationContext W) lock params :
  runChain host rh_order ctx lock params =
  chain_loop host rh_order ctx lock MAX_CONTINUE_AS_NEW_CHAIN params (lk_state lock).
Proof. reflexivity. Qed.

