(* ===== verification/MemoryWorld.v ===== *)
(** The in-memory storage under the runner.

    The storage of [Storage.v], on a clock of arbitrary readings, is a
    [RunStore] and keeps the contract of [WaveLaws] for a driver whose steps'
    bodies and hooks keep it. The samples run the wave loop on it. *)
From Stdlib Require Import QArith.
From S2P Require Import Prelude Leases Json Journal RunState Storage StorageRows Exits Retry JournalStore Replay Dag RollbackOrder StepBody Checkpoint Waves WaveLaws WaveLoop WaveResults Compensate RollbackRun.
Open Scope string_scope.
Open Scope list_scope.
Open Scope Z_scope.

(** The storage, with logs of the bodies that ran and of the compensations. *)
Record MemoryWorld : Type := mkMemoryWorld {
  mw_store : ClockedStorage;
  mw_log : list (string * ExecuteParams);
  mw_calls : list (string * json * outcome unit);
}.

Definition mw_db (w : MemoryWorld) : InMemoryWorkflowStorage := cs_db (mw_store w).

(** A call of the storage at the clock's next reading. *)
Definition memory_call {A} (c : Z -> InMemoryWorkflowStorage -> res StoreError A * InMemoryWorkflowStorage)
    (w : MemoryWorld) : outcome A * MemoryWorld :=
  let '(r, s) := clocked c (mw_store w) in
  (match r with Ok a => Ret a | Err e => Throws e end, mkMemoryWorld s (mw_log w) (mw_calls w)).

Definition memory_read {A} (f : InMemoryWorkflowStorage -> A) : MemoryWorld -> outcome A * MemoryWorld :=
  memory_call (fun _ s => (Ok (f s), s)).

#[export] Instance memory_run_store : RunStore MemoryWorld := {|
  hasCapability _ := true;
  rs_createWorkflow g p := memory_call (fun now => createWorkflow now g p);
  rs_loadWorkflow w := memory_call (fun _ => loadWorkflow w);
  rs_loadWorkflowStatus w := memory_read (loadWorkflowStatus w);
  rs_saveStepResult g r := memory_call (fun now => saveStepResult now g r);
  rs_saveStepFailure g r := memory_call (fun now => saveStepFailure now g r);
  rs_saveStepAttempt g r := memory_call (fun now => saveStepAttempt now g r);
  rs_loadStepAttempts w st := memory_read (loadStepAttempts w st);
  rs_checkpointStep g c := memory_call (fun now => checkpointStep now g c);
  rs_notifyStepStarted w st := memory_call (fun now => notifyStepStarted now w st);
  rs_completeWorkflow g w r := memory_call (fun now => completeWorkflow now g w r);
  rs_failWorkflow g w e t := memory_call (fun now => failWorkflow now g w e t);
  rs_tripwireWorkflow g w r := memory_call (fun now => tripwireWorkflow now g w r);
  rs_beginCompensation g w e t := memory_call (fun now => beginCompensation now g w e t);
  rs_saveStepCompensation g w n st e := memory_call (fun now => saveStepCompensation now g w n st e);
  rs_startFreshRun g w run input := memory_call (fun now => startFreshRun now g w run input);
|}.

(** A driver's host on that clock: its timers fire at once. *)
Definition memory_host (dates : Z -> string) (random : Q) : RunnerHost MemoryWorld :=
  let tick w := mkMemoryWorld (mkClocked (cs_db (mw_store w)) (cs_readings (mw_store w))
                  (Datatypes.S (cs_reads (mw_store w)))) (mw_log w) (mw_calls w) in
  mkRunnerHost _ (fun w => (cs_readings (mw_store w) (cs_reads (mw_store w)), tick w))
    (fun w => (random, w)) (fun _ w => (true, w)) (fun _ w => (false, w))
    (fun tag fields => mkError tag (Some tag) tag
       (match prop "message" fields with JStr m => m | _ => "" end) fields) dates.

(** ** The contract *)
Section laws.
Context (dates : Z -> string) (random : Q) (ctx : DagExecutionContext MemoryWorld) (wid : string).

Definition run_row (w : MemoryWorld) : option MutableWorkflow := db_workflows (mw_db w) !! wid.

(** The lock is the driver's at some time, and the run exists. *)
Definition mw_held (w : MemoryWorld) : Prop :=
  (exists now, checkFence now wid (dc_guard ctx) (db_leases (mw_db w)) = Ok tt) /\ exists wf, run_row w = Some wf.

Definition mw_rv (w : MemoryWorld) (name : string) : option json :=
  run_row w ≫= fun wf => wf_steps wf !! name ≫= completed_result.

Definition mw_quiet := quiet mw_held mw_rv mw_log.

(** The steps' bodies and the hooks do what the driver may rely on. *)
Hypothesis hooks_quiet : forall hook e w, dc_hooks ctx = Some hook -> mw_quiet w (hook e w).2.
Hypothesis bodies_log : forall d p m w, d ∈ dc_steps ctx ->
  let w' := (sd_execute d p (m, w)).2.2 in
  mw_log w' = mw_log w ++ [(sd_name d, p)] /\ (mw_held w' -> mw_held w /\ forall y, mw_rv w' y = mw_rv w y).

(** A call that keeps the run's row and the leases. *)
Lemma mw_same_quiet w w' :
  mw_log w' = mw_log w -> db_workflows (mw_db w') !! wid = db_workflows (mw_db w) !! wid ->
  db_leases (mw_db w') = db_leases (mw_db w) -> mw_quiet w w'.
Proof.
  intros El Ew Et. split; [done|]. intros [[t Ht] Hrow]. unfold mw_held, mw_rv, run_row in *.
  rewrite Et in Ht. rewrite Ew in Hrow. split; [split; [by exists t|done]|]. intros y. by rewrite Ew.
Qed.

Lemma memory_call_db {A} (c : Z -> InMemoryWorkflowStorage -> res StoreError A * InMemoryWorkflowStorage) w :
  let '(o, w') := memory_call c w in
  exists now r s, c now (mw_db w) = (r, s) /\ mw_db w' = s /\ mw_log w' = mw_log w /\ mw_calls w' = mw_calls w /\
    match r with Ok a => o = Ret a | Err e => o = Throws (store_error e) end.
Proof.
  unfold memory_call, clocked, mw_db.
  destruct (c (cs_readings (mw_store w) (cs_reads (mw_store w))) (cs_db (mw_store w))) as [r s] eqn:E.
  exists (cs_readings (mw_store w) (cs_reads (mw_store w))), r, s. cbn. split; [done|].
  destruct r; (split_and!; [done..|]); [done|by eexists].
Qed.

Lemma memory_call_quiet {A} (c : Z -> InMemoryWorkflowStorage -> res StoreError A * InMemoryWorkflowStorage) w :
  (forall now s, db_workflows (c now s).2 !! wid = db_workflows s !! wid /\ db_leases (c now s).2 = db_leases s) ->
  mw_quiet w (memory_call c w).2.
Proof.
  intros Hc. pose proof (memory_call_db c w) as Hm. destruct (memory_call c w) as [o w'].
  destruct Hm as (now & r & s & Hs & Hdb & Hlog & _). specialize (Hc now (mw_db w)). rewrite Hs in Hc.
  cbn in Hc |- *. destruct Hc as [H1 H2]. apply mw_same_quiet; [done|by rewrite Hdb|by rewrite Hdb].
Qed.

(** The rows of a written result and of a written failure. *)
Definition outcome_result (o : Storage.StepOutcome) : option json :=
  match o with OutCompleted r => Some r | OutFailed _ _ => None end.

Lemma write_outcome_rows now c s wf :
  cp_workflowId c = wid -> db_workflows s !! wid = Some wf ->
  db_leases (write_outcome now c s) = db_leases s /\
  exists wf', db_workflows (write_outcome now c s) !! wid = Some wf' /\
    (exists row, wf_steps wf' = <[cp_stepName c := row]> (wf_steps wf) /\
       completed_result row = outcome_result (cp_outcome c)).
Proof.
  intros <- Hwf. unfold write_outcome. destruct (cp_outcome c) as [r|e t].
  - unfold writeStepResult. cbn [sr_workflowId sr_stepName]. rewrite Hwf. split; [done|].
    eexists. split; [apply jlookup_insert_eq|]. eexists. cbn [put_step with_steps wf_steps].
    split; [by rewrite markRunning_steps|done].
  - unfold writeStepFailure. cbn [sf_workflowId sf_stepName]. rewrite Hwf. split; [done|].
    eexists. split; [apply jlookup_insert_eq|]. eexists. cbn [put_step with_steps wf_steps].
    split; [by rewrite markRunning_steps|done].
Qed.

Lemma append_attempts_rows l s :
  db_workflows (foldl (fun s a => appendAttempt a s) s l) = db_workflows s /\
  db_leases (foldl (fun s a => appendAttempt a s) s l) = db_leases s.
Proof. revert s. induction l as [|a l IH]; intros s; [done|]. cbn [foldl]. by destruct (IH (appendAttempt a s)) as [-> ->]. Qed.

(** A fenced write of step [x]'s row. *)
Lemma memory_call_puts {A} (body : Z -> InMemoryWorkflowStorage -> res StoreError A * InMemoryWorkflowStorage) x v w :
  (forall now s, let '(r, s') := body now s in
     match db_workflows s !! wid with
     | None => s' = s \/ db_workflows s' !! wid = None
     | Some wf => db_leases s' = db_leases s /\ exists wf', db_workflows s' !! wid = Some wf' /\
         exists row, wf_steps wf' = <[x := row]> (wf_steps wf) /\ completed_result row = v
     end) ->
  let '(o, w') := memory_call (fun now => do* fence now wid (dc_guard ctx) in body now) w in
  put mw_held mw_rv mw_log x v w w' o.
Proof.
  intros Hb. pose proof (memory_call_db (fun now => do* fence now wid (dc_guard ctx) in body now) w) as Hm.
  destruct (memory_call _ w) as [o w']. destruct Hm as (now & r & s' & Hs & Hdb & Hlog & _ & Ho).
  unfold st_bind, fence in Hs. destruct (checkFence now wid (dc_guard ctx) (db_leases (mw_db w))) as [[]|e] eqn:Hf.
  2: { injection Hs as <- <-. subst o.
       destruct (mw_same_quiet w w') as [_ Hq]; [done|by rewrite Hdb|by rewrite Hdb|]. split; [done|].
       intros [Hh Hrv]%Hq. split; [done|]. split; [done|]. by right. }
  specialize (Hb now (mw_db w)). rewrite Hs in Hb. split; [done|]. intros [[t Ht] [wf' Hwf']].
  unfold run_row in Hwf'. rewrite Hdb in Ht, Hwf'. unfold mw_held, mw_rv, run_row in *. rewrite Hdb.
  destruct (db_workflows (mw_db w) !! wid) as [wf|] eqn:Hwf.
  - destruct Hb as (Hl & wf2 & Hwf2 & row & Hrow & Hv). rewrite Hwf2. cbn [mbind option_bind].
    rewrite Hl in Ht. split; [split; [by exists t|by eexists]|]. split.
    + intros y Hy. by rewrite Hrow, jlookup_insert_ne.
    + rewrite Hrow, jlookup_insert_eq. cbn [mbind option_bind]. destruct r; subst o; [done|by left].
  - destruct Hb as [->|Hnone]; congruence.
Qed.

#[export] Instance memory_run_world : RunWorld MemoryWorld (memory_host dates random) ctx wid.
Proof using hooks_quiet bodies_log.
  refine {| held := mw_held; rv := mw_rv; log := mw_log |}.
  - split; intros; by apply mw_same_quiet.
  - intros ms w. by apply mw_same_quiet.
  - exact hooks_quiet.
  - intros w. apply memory_call_quiet. by intros now s.
  - intros n w. apply memory_call_quiet. by intros now s.
  - intros g r w _. apply memory_call_quiet. intros now s.
    unfold saveStepAttempt, st_bind, fence. by destruct (checkFence _ _ _ _).
  - exact bodies_log.
  - intros c w Hc.
    replace (rs_checkpointStep (dc_guard ctx) c w) with
      (memory_call (fun now => do* fence now wid (dc_guard ctx) in fun s =>
         match db_workflows s !! wid with
         | None => (Ok None, s)
         | Some _ =>
             let s := foldl (fun s a => appendAttempt a s) s (cp_attempts c) in
             let s := write_outcome now c s in
             (Ok (loadWorkflowStatus wid s), s)
         end) w) by (cbn; unfold checkpointStep; by rewrite Hc).
    apply memory_call_puts. intros now s. destruct (db_workflows s !! wid) as [wf|] eqn:Hwf; [|by left].
    destruct (append_attempts_rows (cp_attempts c) s) as [Hr Hl].
    destruct (write_outcome_rows now c (foldl (fun s a => appendAttempt a s) s (cp_attempts c)) wf Hc)
      as (Hl' & wf' & Hwf' & row & Hrow & Hv); [by rewrite Hr|].
    split; [by rewrite Hl'|]. exists wf'. split; [done|]. exists row. split; [done|].
    rewrite Hv. by destruct (cp_outcome c).
  - intros r w Hr.
    replace (rs_saveStepResult (dc_guard ctx) r w) with
      (memory_call (fun now => do* fence now wid (dc_guard ctx) in st_modify (writeStepResult now r)) w)
      by (cbn; unfold saveStepResult; by rewrite Hr).
    apply memory_call_puts. intros now s. cbn. destruct (db_workflows s !! wid) as [wf|] eqn:Hwf.
    + apply (write_outcome_rows now (mkCheckpoint (sr_workflowId r) (sr_stepName r) (OutCompleted (sr_result r))
        (sr_durationMs r) (sr_startedAt r) (sr_metadata r) []) s wf Hr) in Hwf. by destruct r.
    + left. unfold writeStepResult. by rewrite Hr, Hwf.
  - intros r w Hr.
    replace (rs_saveStepFailure (dc_guard ctx) r w) with
      (memory_call (fun now => do* fence now wid (dc_guard ctx) in st_modify (writeStepFailure now r)) w)
      by (cbn; unfold saveStepFailure; by rewrite Hr).
    apply memory_call_puts. intros now s. cbn. destruct (db_workflows s !! wid) as [wf|] eqn:Hwf.
    + apply (write_outcome_rows now (mkCheckpoint (sf_workflowId r) (sf_stepName r) (OutFailed (sf_error r) (sf_errorTag r))
        (sf_durationMs r) (sf_startedAt r) (sf_metadata r) []) s wf Hr) in Hwf. by destruct r.
    + left. unfold writeStepFailure. by rewrite Hr, Hwf.
Defined.

(** A run the driver has just loaded. *)
Lemma memory_loaded params w st w' :
  (forall wf, run_row w = Some wf -> jm_wf (wf_steps wf) /\ ri_workflowId (wf_ident wf) = wid) ->
  rs_loadWorkflow wid w = (Ret (Some st), w') -> dp_state params = Some st -> loaded params w'.
Proof using hooks_quiet bodies_log.
  intros Hok Hl Hst. unfold loaded. rewrite Hst.
  pose proof (memory_call_db (fun _ => loadWorkflow wid) w) as Hm. cbn in Hl. rewrite Hl in Hm.
  destruct Hm as (now & r & s & Hs & Hdb & _ & _ & Hr). unfold loadWorkflow in Hs. unfold run_row in Hok.
  destruct (db_workflows (mw_db w) !! wid) as [wf|] eqn:Hwf; [|by injection Hs as <- <-].
  destruct (Hok wf eq_refl) as [Hnd Hid]. unfold hand_out_run, toWorkflowState, handOutSteps in Hs.
  injection Hs as <- <-. injection Hr as ->. cbn [ws_steps]. split; [exact Hnd|].
  intros d _. cbn. unfold mw_rv, run_row. rewrite Hdb, Hid. cbn. by rewrite jlookup_insert_eq.
Qed.
End laws.

(** ** The contract of a rollback *)
Section rollback_laws.
Context (dates : Z -> string) (random : Q) (params : RollbackParams MemoryWorld) (names : list string).
#[local] Abbreviation wid := (rb_workflowId params).

Definition names_ok (wf : MutableWorkflow) : Prop :=
  ri_workflowId (wf_ident wf) = wid /\ forall x, x ∈ names <-> wf_steps wf !! x <> None.

(** The lock is the driver's at some time, and the steps of [names] have a row. *)
Definition mw_back_held (w : MemoryWorld) : Prop :=
  (exists now, checkFence now wid (rb_guard params) (db_leases (mw_db w)) = Ok tt) /\
  exists wf, run_row wid w = Some wf /\ names_ok wf.

Definition mw_ledger (w : MemoryWorld) (x : string) : option StepCompensationStatus :=
  run_row wid w ≫= fun wf => wf_steps wf !! x ≫= fun row => compensationStatus (st_ledger row).

Definition mw_back_quiet := quiet mw_back_held mw_ledger mw_calls.

(** The compensations do what the driver may rely on. *)
Hypothesis compensates : forall step f r w, step ∈ rb_steps params -> cs_compensate step = Some f ->
  let '(o, w') := f r (rb_input params) wid w in
  mw_calls w' = mw_calls w ++ [(cs_name step, r, o)] /\
  (mw_back_held w' -> mw_back_held w /\ forall y, mw_ledger w' y = mw_ledger w y).

Lemma back_same_quiet w w' :
  mw_calls w' = mw_calls w -> db_workflows (mw_db w') !! wid = db_workflows (mw_db w) !! wid ->
  db_leases (mw_db w') = db_leases (mw_db w) -> mw_back_quiet w w'.
Proof.
  intros El Ew Et. unfold mw_back_quiet, quiet, mw_back_held, mw_ledger, run_row. by rewrite Ew, Et.
Qed.

Lemma back_call_quiet {A} (c : Z -> InMemoryWorkflowStorage -> res StoreError A * InMemoryWorkflowStorage) w :
  (forall now s, db_workflows (c now s).2 !! wid = db_workflows s !! wid /\ db_leases (c now s).2 = db_leases s) ->
  mw_back_quiet w (memory_call c w).2.
Proof.
  intros Hc. pose proof (memory_call_db c w) as Hm. destruct (memory_call c w) as [o w'].
  destruct Hm as (now & r & s & Hs & Hdb & _ & Hcalls & _). specialize (Hc now (mw_db w)). rewrite Hs in Hc.
  cbn in Hc |- *. destruct Hc as [H1 H2]. apply back_same_quiet; [done|by rewrite Hdb|by rewrite Hdb].
Qed.

(** The run as it is loaded: only the count of the row's hand-outs moves. *)
Lemma load_run_back s : let '(r, s') := loadWorkflow wid s in
  db_leases s' = db_leases s /\
  match db_workflows s !! wid with
  | None => r = Ok None /\ s' = s
  | Some wf => exists wf' st, r = Ok (Some st) /\ ws_steps st = jm_entries (wf_steps wf) /\
      db_workflows s' = <[ri_workflowId (wf_ident wf) := wf']> (db_workflows s) /\
      wf_ident wf' = wf_ident wf /\ wf_steps wf' = wf_steps wf
  end.
Proof.
  unfold loadWorkflow. destruct (db_workflows s !! wid) as [wf|]; [|done]. cbn. split; [done|].
  do 2 eexists. split_and!; reflexivity.
Qed.

Lemma back_load w : let '(o, w') := rs_loadWorkflow wid w in
  mw_back_quiet w w' /\
  forall st, o = Ret (Some st) -> mw_back_held w' ->
    forall x, (step_row (ws_steps st) x <> None -> x ∈ names) /\ mw_ledger w' x = row_ledger (ws_steps st) x.
Proof.
  pose proof (memory_call_db (fun _ => loadWorkflow wid) w) as Hm. cbn.
  destruct (memory_call _ w) as [o w']. destruct Hm as (now & r & s & Hs & Hdb & _ & Hcalls & Hr).
  pose proof (load_run_back (mw_db w)) as Hl. rewrite Hs in Hl. destruct Hl as [Hle Hrow].
  unfold mw_back_quiet, quiet, mw_back_held, mw_ledger, run_row. rewrite Hdb, Hle.
  destruct (db_workflows (mw_db w) !! wid) as [wf|] eqn:Hwf.
  - destruct Hrow as (wf' & st & -> & Hst & -> & Hid & Hsteps). subst o.
    destruct (decide (ri_workflowId (wf_ident wf) = wid)) as [E|E].
    + rewrite E, jlookup_insert_eq. cbn [mbind option_bind]. unfold names_ok. rewrite Hsteps. split.
      * split; [done|]. intros (Ht & ? & [= <-] & Hn). rewrite Hid, Hsteps in Hn. split; [|done]. by eauto.
      * intros ? [= <-] (_ & ? & [= <-] & _ & Hn) x. rewrite Hsteps in Hn. unfold step_row, row_ledger. rewrite Hst.
        split; [apply Hn|reflexivity].
    + rewrite jlookup_insert_ne, Hwf by done. split; [split; [done|]; by eauto|].
      intros ? _ (_ & ? & [= <-] & Hn & _). by destruct E.
  - destruct Hrow as [-> ->]. subst o. rewrite Hwf. split; [split; [done|]; by eauto|]. intros ? [=].
Qed.

(** A recorded outcome. *)
Lemma back_save x status e w : x ∈ names ->
  let '(o, w') := rs_saveStepCompensation (rb_guard params) wid x status e w in
  put mw_back_held mw_ledger mw_calls x (Some status) w w' o.
Proof.
  intros Hx. pose proof (memory_call_db (fun now => saveStepCompensation now (rb_guard params) wid x status e) w) as Hm. cbn.
  destruct (memory_call _ w) as [o w']. destruct Hm as (now & r & s' & Hs & Hdb & _ & Hcalls & Ho).
  unfold saveStepCompensation, st_bind, fence in Hs.
  destruct (checkFence now wid (rb_guard params) (db_leases (mw_db w))) as [[]|err] eqn:Hf.
  2: { injection Hs as <- <-. subst o.
       destruct (back_same_quiet w w') as [_ Hq]; [done|by rewrite Hdb|by rewrite Hdb|]. split; [done|].
       intros [Hh Hl]%Hq. split; [done|]. split; [done|]. by right. }
  injection Hs as <- <-. subst o. split; [done|].
  unfold mw_back_held, mw_ledger, run_row. rewrite Hdb. unfold save_compensation.
  destruct (db_workflows (mw_db w) !! wid) as [wf|] eqn:Hwf; [|by rewrite Hwf; intros (_ & ? & ? & _)].
  destruct (wf_steps wf !! x) as [row|] eqn:Hrow.
  - cbn [Storage.put_wf db_workflows set_workflows db_leases]. rewrite jlookup_insert_eq.
    cbn [mbind option_bind put_step with_steps wf_steps wf_ident].
    intros (Ht & ? & [= <-] & Hid & Hn). split; [split; [done|]; exists wf; split; [done|]; split; [done|]|].
    + intros y. rewrite (Hn y). cbn [put_step with_steps wf_steps]. rewrite jlookup_insert.
      case_decide as Ey; [by rewrite <- Ey, Hrow|done].
    + split; [|by rewrite jlookup_insert_eq]. intros y Hy. by rewrite jlookup_insert_ne.
  - rewrite Hwf. intros (_ & ? & [= <-] & _ & Hn). by apply Hn in Hx.
Qed.

#[export] Instance memory_rollback_world : RollbackWorld MemoryWorld (memory_host dates random) params.
Proof using compensates.
  refine {| back_held := mw_back_held; ledger := mw_ledger; back_log := mw_calls; back_rows := names |}.
  - split; intros; by apply back_same_quiet.
  - intros w. pose proof (back_load w) as Hl. destruct (rs_loadWorkflow wid w) as [o w']. apply Hl.
  - intros w st w' E. pose proof (back_load w) as Hl. rewrite E in Hl. by apply Hl.
  - intros n w. apply back_call_quiet. by intros now s.
  - intros r w _. apply back_call_quiet. intros now s.
    unfold saveStepAttempt, st_bind, fence. by destruct (checkFence _ _ _ _).
  - exact compensates.
  - intros x status e w. by apply back_save.
  - done.
  - intros r w e w'. cbn. pose proof (memory_call_db (fun now => saveStepAttempt now (rb_guard params) r) w) as Hm.
    destruct (memory_call _ w) as [o w1]. destruct Hm as (now & res & s & Hs & _ & _ & _ & Ho). intros [= -> _].
    destruct res as [a|x]; [done|]. injection Ho as ->. by destruct x.
Defined.
End rollback_laws.

(** ** Samples: three steps, the first of them stored by an earlier driver *)
Definition logged_step (name : string) (deps : list string) (x : exit json) : StepDefinition MemoryWorld :=
  mkStepDef name deps KNormal
    (fun p '(m, w) => (x, (m, mkMemoryWorld (mw_store w) (mw_log w ++ [(name, p)]) (mw_calls w))))
    plain_codec None None OnFail None None None.

Definition sample_steps (x : exit json) : list (StepDefinition MemoryWorld) :=
  [logged_step "fetch" [] (Succ (JNum 1)); logged_step "rate" ["fetch"] (Succ (JNum 2));
   logged_step "sum" ["fetch"; "rate"] x].

Definition sample_run : CreateWorkflowParams :=
  mkCreate "w1" "order" None None None None (JStr "in") None None None None None.

(** The run, locked, with the result of [fetch]. *)
Definition sample_storage : InMemoryWorkflowStorage :=
  let s := new_storage None "driver" in
  let s := (createWorkflow 0 None sample_run s).2 in
  let s := (tryLock 1 "w1" 1000 None s).2 in
  (saveStepResult 2 None (mkStepResult "w1" "fetch" (JNum 1) 1 1 None) s).2.

Definition sample_guard : option FenceGuard :=
  (fun l => mkFenceGuard (Some (token l))) <$> leases (db_leases sample_storage) !! "w1".

Definition sample_ctx (x : exit json) : DagExecutionContext MemoryWorld :=
  mkDagContext (sample_steps x) None None sample_guard (Some "driver") (Some 1) (fun _ => None).

Definition the_host : RunnerHost MemoryWorld := memory_host str_of_Z 0%Q.

Definition sample_world : MemoryWorld := mkMemoryWorld (mkClocked sample_storage (fun n => 10 + Z.of_nat n) 0) [] [].

(** The driver loads the run, then runs its graph, the steps of a wave in
    reverse. *)
Definition loaded_world : outcome (option WorkflowState) * MemoryWorld := rs_loadWorkflow "w1" sample_world.

Definition sample_dag (x : exit json) : DagParams :=
  mkDagParams "w1" (JStr "in") (node_of <$> sample_steps x)
    (match loaded_world.1 with Ret st => st | _ => None end) None.

Definition sample_order (l : list (StepDefinition MemoryWorld)) (w : MemoryWorld) := reverse l.

Definition sample_execution (x : exit json) : outcome (option DagExecutionResult) * WaveState (W := MemoryWorld) :=
  executeWorkflowDag the_host sample_order (sample_ctx x) (sample_dag x) (∅, loaded_world.2).

Lemma sample_graph_ok x : graph_ok (sample_ctx x) (sample_dag x).
Proof.
  split; [|done|].
  - apply (bool_decide_unpack (NoDup ["fetch"; "rate"; "sum"])). vm_compute. exact I.
  - exists ["fetch"; "rate"; "sum"]. reflexivity.
Qed.

Lemma sample_order_ok l w : sample_order l w ≡ₚ l.
Proof. apply reverse_Permutation. Qed.

Example sample_result : (fun r => match r with Ret x => x | _ => None end) (sample_execution (Succ (JNum 3))).1 = Some (DagSuccess (JNum 3)).
Proof. vm_compute. reflexivity. Qed.

(** A step that fails: the run fails with its error. *)
Lemma executeWorkflowDag_ends_witness :
  exists x, (sample_execution (Fails busy)).1 = Ret (Some x) /\ x = DagFailure busy false false /\
    accounted the_host (sample_ctx (Fails busy)) (sample_dag (Fails busy)) x.
Proof.
  unfold sample_execution. destruct (executeWorkflowDag _ _ _ _ _) as [[r|e|] s'] eqn:E;
    [|vm_compute in E; discriminate..].
  destruct (executeWorkflowDag_ends the_host sample_order (sample_ctx (Fails busy)) (sample_dag (Fails busy))
    (∅, loaded_world.2) r s' (sample_graph_ok _) sample_order_ok E) as (x & Hr & Hx).
  exists x. split; [rewrite <- Hr; reflexivity|]. split; [|exact Hx].
  subst r. vm_compute in E. injection E as E _. rewrite <- E. reflexivity.
Defined.

#[local] Instance sample_run_world : RunWorld MemoryWorld the_host (sample_ctx (Succ (JNum 3))) "w1".
Proof.
  apply memory_run_world; [done|]. intros d p m w Hd.
  assert ((sd_execute d p (m, w)).2.2 = mkMemoryWorld (mw_store w) (mw_log w ++ [(sd_name d, p)]) (mw_calls w)) as ->.
  { cbn [sample_ctx dc_steps sample_steps] in Hd. repeat (apply elem_of_cons in Hd as [->|Hd]; [reflexivity|]).
    by apply not_elem_of_nil in Hd. }
  split; [reflexivity|]. intros Hh. by split.
Defined.

(** The second driver runs [rate] and [sum], each once, on the results of
    the steps before it. *)
Lemma executeWorkflowDag_results_witness :
  (fst <$> mw_log (sample_execution (Succ (JNum 3))).2.2) = ["rate"; "sum"] /\
  exists L, mw_log (sample_execution (Succ (JNum 3))).2.2 = [] ++ L /\
    Forall (invocation_ok (sample_dag (Succ (JNum 3))) loaded_world.2 (sample_execution (Succ (JNum 3))).2.2) L.
Proof.
  split; [vm_compute; reflexivity|].
  pose proof (executeWorkflowDag_results sample_order (sample_dag (Succ (JNum 3))) (∅, loaded_world.2)) as Hall.
  unfold sample_execution. destruct (executeWorkflowDag _ _ _ _ _) as [[r|e|] s'] eqn:E;
    [|vm_compute in E; discriminate..].
  destruct (Hall r s' (sample_graph_ok _) sample_order_ok eq_refl) as (L & HL & Hinv & _); [| | |exists L].
  - split; [apply (bool_decide_unpack (NoDup ["fetch"])); vm_compute; exact I|].
    intros d Hd. cbn [sample_ctx dc_steps sample_steps] in Hd.
    repeat (apply elem_of_cons in Hd as [->|Hd]; [vm_compute; reflexivity|]). by apply not_elem_of_nil in Hd.
  - reflexivity.
  - vm_compute in E. injection E as _ <-. split; [exists 20; vm_compute; reflexivity|]. by eexists.
  - split; [exact HL|exact Hinv].
Defined.

(** A run being rolled back: its second driver finds [notify] reversed, and
    the reversal of [reserve] fails each time. *)
Definition reversal (name : string) (o : outcome unit) : json -> json -> string -> MemoryWorld -> outcome unit * MemoryWorld :=
  fun result _ _ w => (o, mkMemoryWorld (mw_store w) (mw_log w) (mw_calls w ++ [(name, result, o)])).

Definition saga_steps : list (CompensatableStep MemoryWorld) :=
  [mkCompensatable "reserve" None (Some (reversal "reserve" (Throws busy)));
   mkCompensatable "charge" None (Some (reversal "charge" (Ret tt)));
   mkCompensatable "notify" None (Some (reversal "notify" (Ret tt)));
   mkCompensatable "ship" None None].

Definition saga_nodes : list DagNode :=
  [mkNode "reserve" []; mkNode "charge" ["reserve"]; mkNode "notify" ["charge"]; mkNode "ship" ["charge"]].

Definition saga_storage : InMemoryWorkflowStorage :=
  let s := (createWorkflow 0 None sample_run (new_storage None "driver")).2 in
  let s := (tryLock 1 "w1" 1000 None s).2 in
  let s := foldl (fun s x => (saveStepResult 2 None (mkStepResult "w1" x (JStr x) 1 1 None) s).2) s ["reserve"; "charge"; "notify"] in
  let s := (saveStepFailure 3 None (mkStepFailure "w1" "ship" "no stock" None 2 1 None) s).2 in
  let s := (beginCompensation 4 None "w1" "no stock" None s).2 in
  (saveStepCompensation 5 None "w1" "notify" LCompensated None s).2.

Definition saga_params : RollbackParams MemoryWorld :=
  mkRollbackParams saga_steps (Some (mkCompensateRetry (Some 1) None)) "w1" (JStr "in") saga_nodes
    ((fun l => mkFenceGuard (Some (token l))) <$> leases (db_leases saga_storage) !! "w1") (Some "driver") (fun _ => None) true.

Definition saga_world : MemoryWorld := mkMemoryWorld (mkClocked saga_storage (fun n => 10 + Z.of_nat n) 0) [] [].

Definition saga_names : list string := ["reserve"; "charge"; "notify"; "ship"].

Example saga_report : let '(o, w) := compensateWorkflow the_host saga_params saga_world in
  o = Ret (Some (mkReport ["notify"; "charge"] [("reserve", busy)])) /\
  mw_calls w = [("charge", JStr "charge", Ret tt); ("reserve", JStr "reserve", Throws busy);
                ("reserve", JStr "reserve", Throws busy)].
Proof. vm_compute. split; reflexivity. Qed.

#[local] Instance saga_rollback_world : RollbackWorld MemoryWorld the_host saga_params.
Proof.
  apply (memory_rollback_world str_of_Z 0%Q saga_params saga_names). intros step f r w Hs Hf.
  assert (exists o, f r (rb_input saga_params) (rb_workflowId saga_params) w =
    (o, mkMemoryWorld (mw_store w) (mw_log w) (mw_calls w ++ [(cs_name step, r, o)]))) as [o ->].
  { cbn [saga_params rb_steps saga_steps] in Hs.
    repeat (apply elem_of_cons in Hs as [->|Hs]; [first [discriminate Hf|injection Hf as <-; by eexists]|]).
    by apply not_elem_of_nil in Hs. }
  split; [reflexivity|]. intros Hh. by split.
Defined.

Lemma compensateWorkflow_exact_witness :
  exists st w1 o w', rs_loadWorkflow "w1" saga_world = (Ret (Some st), w1) /\
    compensateWorkflow the_host saga_params saga_world = (o, w') /\
    exists order fs, compensationOrder saga_steps (ws_steps st) saga_nodes = Some order /\
      cs_name <$> order = ["notify"; "charge"; "reserve"] /\
      loop_spec (ws_steps st) (List.filter (unrecorded (ws_steps st)) order) fs w1 w'.
Proof.
  destruct (rs_loadWorkflow "w1" saga_world) as [[[st|]|e|] w1] eqn:El;
    [|vm_compute in El; discriminate..].
  destruct (compensateWorkflow the_host saga_params saga_world) as [o w'] eqn:Ec.
  assert (back_held (RollbackWorld := saga_rollback_world) w1) as Hheld.
  { vm_compute in El. injection El as _ <-. split; [exists 20; vm_compute; reflexivity|].
    eexists. split; [reflexivity|]. split; [reflexivity|]. intros x. rewrite <- jlookup_Some_key. reflexivity. }
  assert (NoDup saga_names) as Hnd by (apply (bool_decide_unpack (NoDup saga_names)); vm_compute; exact I).
  destruct (compensateWorkflow_exact (BW := saga_rollback_world) st saga_world w1 o w' ["reserve"; "charge"; "notify"; "ship"]
    eq_refl Hnd eq_refl eq_refl El Hheld Ec)
    as (order & fs & Ho & Hspec & _).
  exists st, w1, o, w'. split; [done|]. split; [done|]. exists order, fs. split; [exact Ho|]. split; [|exact Hspec].
  vm_compute in El. injection El as <- _. vm_compute in Ho. injection Ho as <-. reflexivity.
Defined.
