(* ===== verification/MemoryOutcome.v ===== *)
(** The in-memory storage under a driver: the contract of [Outcome], and
    chains of runs on it. *)
From Stdlib Require Import QArith.
From S2P Require Import Prelude Leases Json Journal RunState Storage StorageRows Exits Retry JournalStore Replay Dag RollbackOrder StepBody Checkpoint AsyncRel Waves Compensate RunRel Orchestrate Outcome MemoryWorld.
Open Scope string_scope.
Open Scope list_scope.
Open Scope Z_scope.

(** ** The contract *)
Section laws.
Context (dates : Z -> string) (random : Q) (ctx : OrchestrationContext MemoryWorld) (lock : LockContext MemoryWorld) (wid : string).

Definition db_view (s : InMemoryWorkflowStorage) : RunView :=
  match db_workflows s !! wid with None => Gone | Some wf => life_view (wf_run wf) (wf_life wf) end.

Definition mo_held (w : MemoryWorld) : Prop := exists now, checkFence now wid (lock_guard lock) (db_leases (mw_db w)) = Ok tt.
Definition mo_view (w : MemoryWorld) : RunView := db_view (mw_db w).

#[local] Abbreviation calm := (stepped mo_held mo_view ends).

(** A call that keeps the leases, and the run as far as it ended or not. *)
Definition db_kept (s s' : InMemoryWorkflowStorage) : Prop := db_leases s' = db_leases s /\ db_view s' = db_view s.

Lemma kept_calm w w' : db_kept (mw_db w) (mw_db w') -> calm w w'.
Proof. intros [Hl Hv]. unfold stepped, mo_held, mo_view. rewrite Hl, Hv. intros Hh. split; [done|reflexivity]. Qed.

Lemma call_calm {A} (c : Z -> InMemoryWorkflowStorage -> res StoreError A * InMemoryWorkflowStorage) :
  (forall now s, db_kept s (c now s).2) -> keeps calm (memory_call c).
Proof.
  intros Hc w. pose proof (memory_call_db c w) as Hm. destruct (memory_call c w) as [o w'].
  destruct Hm as (now & r & s & Hs & Hdb & _). specialize (Hc now (mw_db w)). rewrite Hs in Hc.
  apply kept_calm. cbn in Hc |- *. by rewrite Hdb.
Qed.

Lemma fenced_kept {A} now w g (k : InMemoryWorkflowStorage -> res StoreError A * InMemoryWorkflowStorage) s :
  db_kept s (k s).2 -> db_kept s ((do* fence now w g in k) s).2.
Proof. intros Hk. by apply (fenced_state (db_kept s)). Qed.

(** A row put back with its run and its ending. *)
Lemma put_kept s wf wf' : db_workflows s !! wid = Some wf -> wf_run wf' = wf_run wf ->
  outcome_of (wf_life wf') = outcome_of (wf_life wf) -> db_kept s (Storage.put_wf wid wf' s).
Proof.
  intros Hwf Hr Hl. split; [done|]. unfold db_view, Storage.put_wf. cbn [db_workflows set_workflows].
  rewrite jlookup_insert_eq, Hwf. unfold life_view. by rewrite Hr, Hl.
Qed.

Lemma same_kept s s' s'' : db_kept s s' -> db_leases s'' = db_leases s' -> db_workflows s'' = db_workflows s' -> db_kept s s''.
Proof. intros [Hl Hv] El Ew. split; [congruence|]. unfold db_view in *. by rewrite Ew. Qed.

Lemma running_outcome now wf : outcome_of (wf_life (markRunning now wf)) = outcome_of (wf_life wf).
Proof. unfold markRunning, outcome_of. destruct (lc_status (wf_life wf)) eqn:E; cbn; by rewrite ?E. Qed.
Lemma running_run now wf : wf_run (markRunning now wf) = wf_run wf.
Proof. unfold markRunning. by destruct (lc_status (wf_life wf)). Qed.

Lemma write_outcome_kept now c s : cp_workflowId c = wid -> db_kept s (write_outcome now c s).
Proof.
  intros Hw. unfold write_outcome. destruct (cp_outcome c) as [r|e t].
  - unfold writeStepResult. cbn [sr_workflowId sr_stepName]. rewrite Hw. destruct (db_workflows s !! _) as [wf|] eqn:Hwf; [|done].
    refine (same_kept s (Storage.put_wf wid (put_step now (cp_stepName c) _ (markRunning now wf)) s) _
      (put_kept s wf _ Hwf _ _) eq_refl eq_refl); [apply running_run|apply running_outcome].
  - unfold writeStepFailure. cbn [sf_workflowId sf_stepName]. rewrite Hw. destruct (db_workflows s !! _) as [wf|] eqn:Hwf; [|done].
    refine (same_kept s (Storage.put_wf wid (put_step now (cp_stepName c) _ (markRunning now wf)) s) _
      (put_kept s wf _ Hwf _ _) eq_refl eq_refl); [apply running_run|apply running_outcome].
Qed.

Lemma attempts_kept l s : db_kept s (foldl (fun s a => appendAttempt a s) s l).
Proof. destruct (append_attempts_rows l s) as [Hr Hl]. split; [done|]. unfold db_view. by rewrite Hr. Qed.

Lemma load_kept s : db_kept s (loadWorkflow wid s).2.
Proof.
  unfold loadWorkflow. destruct (db_workflows s !! wid) as [wf|] eqn:Hwf; [|done]. cbn.
  destruct (decide (ri_workflowId (wf_ident wf) = wid)) as [E|E].
  - rewrite E. by apply (put_kept s wf).
  - split; [done|]. unfold db_view, Storage.put_wf. cbn. by rewrite jlookup_insert_ne.
Qed.

Lemma compensation_kept now x st e s : db_kept s (save_compensation now wid x st e s).
Proof.
  unfold save_compensation. destruct (db_workflows s !! wid) as [wf|] eqn:Hwf; [|done].
  destruct (wf_steps wf !! x); [|done]. by apply (put_kept s wf).
Qed.

(** The bodies, hooks and compensations keep the run, or are others ending it. *)
Hypothesis hooks_calm : forall hook e w, oc_hooks ctx = Some hook -> calm w (hook e w).2.
Hypothesis bodies_calm : forall d p m w, d ∈ oc_steps ctx -> calm w (sd_execute d p (m, w)).2.2.
Hypothesis compensations_calm : forall d f r i w, d ∈ oc_steps ctx -> sd_compensate d = Some f -> calm w (f r i wid w).2.
Hypothesis completion_calm : forall f i e r, oc_compensateConfig ctx ≫= cc_onComplete = Some f -> keeps calm (f i e r).
Hypothesis dlq_calm : forall publish r, oc_dlq ctx = Some publish -> keeps calm (publish r).

#[local] Instance memory_host_calm : HostKeeps calm (memory_host dates random).
Proof. split; intros; by apply kept_calm. Qed.

Lemma memory_run_calm run : RunKeeps calm (memory_host dates random) (dag_context ctx lock run) wid.
Proof using hooks_calm bodies_calm.
  split.
  - apply _.
  - intros ms w. by apply kept_calm.
  - exact hooks_calm.
  - apply call_calm. by intros now s.
  - intros n. apply call_calm. by intros now s.
  - intros r _. apply call_calm. intros now s. by apply fenced_kept.
  - exact bodies_calm.
  - intros c Hc. apply call_calm. intros now s. apply fenced_kept. rewrite Hc.
    destruct (db_workflows s !! wid); [|done]. cbn.
    destruct (attempts_kept (cp_attempts c) s) as [L1 V1].
    destruct (write_outcome_kept now c (foldl (fun s a => appendAttempt a s) s (cp_attempts c)) Hc) as [L2 V2].
    split; congruence.
  - intros r Hr. apply call_calm. intros now s. apply fenced_kept.
    apply (write_outcome_kept now (mkCheckpoint (sr_workflowId r) (sr_stepName r) (OutCompleted (sr_result r))
        (sr_durationMs r) (sr_startedAt r) (sr_metadata r) []) s) in Hr. by destruct r.
  - intros r Hr. apply call_calm. intros now s. apply fenced_kept.
    apply (write_outcome_kept now (mkCheckpoint (sf_workflowId r) (sf_stepName r) (OutFailed (sf_error r) (sf_errorTag r))
        (sf_durationMs r) (sf_startedAt r) (sf_metadata r) []) s) in Hr. by destruct r.
Qed.

Lemma memory_rollback_calm input resumed :
  RollbackKeeps calm (memory_host dates random) (rollback_params ctx lock wid input resumed).
Proof using compensations_calm.
  split.
  - apply _.
  - apply call_calm. intros now s. apply load_kept.
  - intros n. apply call_calm. by intros now s.
  - intros r _. apply call_calm. intros now s. by apply fenced_kept.
  - intros x status e. apply call_calm. intros now s. apply fenced_kept, compensation_kept.
  - intros step f r Hs Hf. cbn in Hs. apply list_elem_of_fmap in Hs as (d & -> & Hd). intros w.
    by apply (compensations_calm d f r input w).
Qed.

(** *** The driver's own writes *)
Lemma store_error_plain e : isControlFlowError (store_error e) = false.
Proof. by destruct e. Qed.

(** A fenced write of an ending: nothing on a run that has ended or is gone. *)
Definition ends_as (x : RunOutcome) (s s' : InMemoryWorkflowStorage) : Prop :=
  db_leases s' = db_leases s /\
  db_view s' = match db_view s with InFlight n => Ended n x | v => v end.

Lemma memory_settles x (body : Z -> InMemoryWorkflowStorage -> InMemoryWorkflowStorage) :
  (forall now s, ends_as x s (body now s)) ->
  settles mo_held mo_view x (memory_call (fun now => do* fence now wid (lock_guard lock) in st_modify (body now))).
Proof.
  intros Hb w. set (c := fun now => do* fence now wid (lock_guard lock) in st_modify (body now)).
  pose proof (memory_call_db c w) as Hm. subst c. destruct (memory_call _ w) as [o w'].
  destruct Hm as (now & r & s & Hs & Hdb & _ & _ & Ho). unfold st_bind, fence in Hs. unfold stepped, mo_held, mo_view.
  rewrite Hdb. destruct (checkFence now wid (lock_guard lock) (db_leases (mw_db w))) as [[]|e].
  2: { injection Hs as <- <-. subst o. split; [intros Hh; split; [done|reflexivity]|apply store_error_plain]. }
  injection Hs as <- <-. subst o. destruct (Hb now (mw_db w)) as [Hl Hv]. rewrite Hl, Hv.
  split; [intros Hh; split; [done|]|intros _; by destruct (db_view (mw_db w))].
  destruct (db_view (mw_db w)) as [|n|n y]; [reflexivity| |reflexivity]. right. exists n, x. auto.
Qed.

Lemma row_view wf s : db_workflows s !! wid = Some wf -> db_view s =
  match outcome_of (wf_life wf) with Some x => Ended (wf_run wf) x | None => InFlight (wf_run wf) end.
Proof. intros Hwf. unfold db_view, life_view. rewrite Hwf. by destruct (outcome_of _). Qed.

Lemma terminal_outcome wf : isTerminalWorkflowStatus (wf_status wf) = true <-> is_Some (outcome_of (wf_life wf)).
Proof.
  unfold outcome_of, wf_status. destruct (lc_status _); split; try done; try (by intros [? [=]]); intros _; by eexists.
Qed.

Lemma end_run_as now l ev wf s x : db_workflows s !! wid = Some wf -> outcome_of l = Some x ->
  ends_as x s (if isTerminalWorkflowStatus (wf_status wf) then s else end_run now wid l ev wf s).
Proof.
  intros Hwf Hx. unfold ends_as. rewrite (row_view _ _ Hwf). destruct (isTerminalWorkflowStatus _) eqn:Et.
  - apply terminal_outcome in Et as [y Hy]. rewrite (row_view _ _ Hwf), Hy. done.
  - destruct (outcome_of (wf_life wf)) as [y|] eqn:Hy.
    { assert (isTerminalWorkflowStatus (wf_status wf) = true) by (apply terminal_outcome; by eexists). congruence. }
    split; [done|]. unfold db_view, end_run, emit_event, Storage.put_wf. cbn. rewrite jlookup_insert_eq. cbn.
    unfold life_view. by rewrite Hx.
Qed.

Lemma missing_as x s : db_workflows s !! wid = None -> ends_as x s s.
Proof. intros Hwf. split; [done|]. unfold db_view. by rewrite Hwf. Qed.

(** *** Reads, creation, restarts *)
Lemma memory_call_ret {A} (c : Z -> InMemoryWorkflowStorage -> res StoreError A * InMemoryWorkflowStorage) w a w' :
  memory_call c w = (Ret a, w') -> exists now, c now (mw_db w) = (Ok a, mw_db w').
Proof.
  intros E. pose proof (memory_call_db c w) as Hm. rewrite E in Hm.
  destruct Hm as (now & r & s & Hs & Hdb & _ & _ & Ho). exists now. rewrite Hs, Hdb. destruct r; [by injection Ho as ->|done].
Qed.

Lemma memory_load_view w st w' : memory_call (fun _ => loadWorkflow wid) w = (Ret st, w') -> mo_view w' = view_of st.
Proof.
  intros (now & Hs)%memory_call_ret. pose proof (load_kept (mw_db w)) as [_ Hv]. rewrite Hs in Hv. cbn in Hv.
  unfold mo_view. rewrite Hv. unfold loadWorkflow in Hs. unfold db_view.
  destruct (db_workflows (mw_db w) !! wid) as [wf|]; cbn in Hs; by injection Hs as <- _.
Qed.

Lemma memory_cancelled w s w' :
  memory_call (fun _ d => (Ok (loadWorkflowStatus wid d), d)) w = (Ret (Some s), w') -> isCancelledRun s = true ->
  exists n x, mo_view w' = Ended n x /\ intervention x.
Proof.
  intros (now & Hs)%memory_call_ret Hc. injection Hs as Hs Hd. unfold mo_view. rewrite <- Hd.
  unfold loadWorkflowStatus in Hs. unfold db_view.
  destruct (db_workflows (mw_db w) !! wid) as [wf|]; [|done]. injection Hs as <-.
  unfold isCancelledRun in Hc. apply andb_true_iff in Hc as [Hst Htag].
  apply bool_decide_eq_true in Hst, Htag. cbn in Hst, Htag. unfold wf_status in Hst.
  unfold life_view, outcome_of. rewrite Hst, Htag. do 2 eexists. split; [done|]. do 2 eexists. split; [done|]. left.
Qed.

Lemma memory_creates p w : cw_workflowId p = wid -> cw_idempotencyKey p = None ->
  let '(o, w') := memory_call (fun now => createWorkflow now None p) w in
  mo_held w' -> mo_held w /\
    (mo_view w = Gone ->
     match o with
     | Ret None => running (mo_view w') = true
     | Ret (Some _) => False
     | _ => mo_view w' = Gone \/ running (mo_view w') = true
     end).
Proof.
  intros Hp Hk. pose proof (memory_call_db (fun now => createWorkflow now None p) w) as Hm.
  destruct (memory_call _ w) as [o w']. destruct Hm as (now & r & d & Hs & Hdb & _ & _ & Ho).
  unfold mo_held, mo_view. rewrite Hdb. unfold createWorkflow, st_bind, create_fence in Hs. cbn in Hs.
  rewrite Hk in Hs. cbn in Hs. rewrite Hp in Hs.
  destruct (db_workflows (mw_db w) !! wid) as [wf|] eqn:Hwf.
  - cbn in Hs. injection Hs as <- <-. subst o. intros Hh. split; [done|]. unfold db_view, life_view. rewrite Hwf.
    by destruct (outcome_of _).
  - injection Hs as <- <-. subst o. unfold insert_run. rewrite Hk, Hp.
    destruct (cw_parentWorkflowId p); cbn; intros Hh; (split; [done|]); intros _;
      unfold db_view, Storage.put_wf; cbn; by rewrite jlookup_insert_eq.
Qed.

Lemma memory_begins e tag w :
  let '(o, w') := memory_call (fun now => beginCompensation now (lock_guard lock) wid e tag) w in
  calm w w' /\ (o = Ret false -> mo_held w' -> running (mo_view w') = false).
Proof.
  pose proof (memory_call_db (fun now => beginCompensation now (lock_guard lock) wid e tag) w) as Hm.
  destruct (memory_call _ w) as [o w']. destruct Hm as (now & r & d & Hs & Hdb & _ & _ & Ho).
  unfold beginCompensation, st_bind, fence in Hs. destruct (checkFence _ _ _ _) as [[]|err].
  2: { injection Hs as <- <-. subst o. split; [apply kept_calm; by rewrite Hdb|done]. }
  unfold mo_view. rewrite Hdb. destruct (db_workflows (mw_db w) !! wid) as [wf|] eqn:Hwf.
  2: { injection Hs as <- <-. split; [apply kept_calm; by rewrite Hdb|]. intros _ _. unfold db_view. by rewrite Hwf. }
  destruct (wf_status wf) eqn:Est; injection Hs as <- <-; subst o;
    (split; [apply kept_calm; rewrite Hdb; first [done|by apply (put_kept _ wf); [|done|]; try done;
       unfold outcome_of; cbn; unfold wf_status in Est; by rewrite Est]|]); try done; intros _ _;
    rewrite (row_view _ _ Hwf); unfold outcome_of, wf_status in *; by rewrite Est.
Qed.

Lemma memory_restarts run input w :
  let '(o, w') := memory_call (fun now => startFreshRun now (lock_guard lock) wid run input) w in
  mo_held w' -> mo_held w /\
    (restarted run (mo_view w) (mo_view w') \/
     mo_view w' = mo_view w /\ (forall n, o = Ret n -> run <> view_run (mo_view w) /\ run <> None)).
Proof.
  pose proof (memory_call_db (fun now => startFreshRun now (lock_guard lock) wid run input) w) as Hm.
  destruct (memory_call _ w) as [o w']. destruct Hm as (now & r & d & Hs & Hdb & _ & _ & Ho).
  unfold startFreshRun, st_bind, fence in Hs. unfold mo_held, mo_view. rewrite Hdb.
  destruct (checkFence _ _ _ _) as [[]|err]; [|injection Hs as <- <-; subst o; intros Hh; split; [done|by right]].
  destruct (db_workflows (mw_db w) !! wid) as [wf|] eqn:Hwf; [|injection Hs as <- <-; subst o; intros Hh; split; [done|by right]].
  assert (view_run (db_view (mw_db w)) = Some (wf_run wf)) as Hr.
  { rewrite (row_view _ _ Hwf). by destruct (outcome_of _). }
  destruct (from_option _ _ run) eqn:Er; cbn in Hs; injection Hs as <- <-; subst o; intros Hh; (split; [done|]).
  - right. split; [done|]. intros n _. rewrite Hr. destruct run as [e|]; [|done].
    cbn in Er. apply bool_decide_eq_true in Er. split; congruence.
  - left. exists (wf_run wf). split; [done|]. split.
    + destruct run as [e|]; [right|by left]. cbn in Er. apply bool_decide_eq_false, dec_stable in Er. congruence.
    + unfold db_view, Storage.put_wf. cbn. by rewrite jlookup_insert_eq.
Qed.

#[export] Instance memory_outcome_world : OutcomeWorld MemoryWorld (memory_host dates random) ctx lock wid.
Proof using hooks_calm bodies_calm compensations_calm completion_calm dlq_calm.
  refine {| ow_held := mo_held; ow_view := mo_view |}.
  - exact memory_run_calm.
  - exact memory_rollback_calm.
  - exact completion_calm.
  - exact dlq_calm.
  - done.
  - apply call_calm. intros now s. apply load_kept.
  - intros w st w' E _. by apply memory_load_view in E.
  - intros w s w' E _. by apply (memory_cancelled w s w').
  - exact memory_creates.
  - intros r. apply (memory_settles _ (fun now => complete_body now wid r)). intros now s. unfold complete_body.
    destruct (db_workflows s !! wid) as [wf|] eqn:Hwf; [by apply end_run_as|by apply missing_as].
  - intros r. apply (memory_settles _ (fun now => tripwire_body now wid r)). intros now s. unfold tripwire_body.
    destruct (db_workflows s !! wid) as [wf|] eqn:Hwf; [by apply end_run_as|by apply missing_as].
  - intros e tag. apply (memory_settles _ (fun now => fail_body now wid e tag)). intros now s. unfold fail_body.
    destruct (db_workflows s !! wid) as [wf|] eqn:Hwf; [by apply end_run_as|by apply missing_as].
  - exact memory_begins.
  - exact memory_restarts.
Defined.
End laws.

(** ** Samples: a driver with the lock, and no run yet *)
Definition locked_storage : InMemoryWorkflowStorage := (tryLock 1 "w1" 1000 None (new_storage None "driver")).2.

Definition drive_world : MemoryWorld := mkMemoryWorld (mkClocked locked_storage (fun n => 10 + Z.of_nat n) 0) [] [].

Definition drive_lock : LockContext MemoryWorld :=
  mkLockContext (token <$> leases (db_leases locked_storage) !! "w1") (fun _ => None) (Some None).

(** A body that answers [x]; its compensation logs its call. *)
Definition drive_step (name : string) (deps : list string) (body : json -> MemoryWorld -> exit json * MemoryWorld)
    : StepDefinition MemoryWorld :=
  mkStepDef name deps KNormal (fun p '(m, w) => let '(x, w) := body (ep_input p) w in (x, (m, w)))
    plain_codec None None OnFail (Some (reversal name (Ret tt))) None None.

Definition drive_ctx (steps : list (StepDefinition MemoryWorld)) : OrchestrationContext MemoryWorld :=
  mkOrchestration "order" None None None steps None false None None None None None (Some "driver").

Definition drive_params : RunParams := mkRunParams "w1" (JNum 0) false None None None false.

Definition drive_chain (steps : list (StepDefinition MemoryWorld)) : outcome (option json) * (option WorkflowState * MemoryWorld) :=
  runChain the_host sample_order (drive_ctx steps) drive_lock drive_params (None, drive_world).

Definition stored (w : MemoryWorld) : RunView := mo_view "w1" w.

(** The second of two steps fails: the first is rolled back, the run fails. *)
Definition failing_steps : list (StepDefinition MemoryWorld) :=
  [drive_step "reserve" [] (fun _ w => (Succ (JNum 1), w)); drive_step "ship" ["reserve"] (fun _ w => (Fails busy, w))].

Example failing_run : let '(o, (_, w)) := drive_chain failing_steps in
  o = Throws busy /\ stored w = Ended 1 (OFailed (Some (errorMessage the_host busy)) (errorTagOf busy)) /\
  mw_calls w = [("reserve", JNum 1, Ret tt)].
Proof. vm_compute. split_and!; reflexivity. Qed.

(** A step that continues as new until its input is 2. *)
Definition continuing : thrown := TError (mkError "WorkflowContinueAsNewError" (Some CONTINUE_AS_NEW_TAG)
  "WorkflowContinueAsNewError" "next" [("nextInput", JNum 2)]).

Definition counting_steps : list (StepDefinition MemoryWorld) :=
  [drive_step "count" [] (fun input w => (if bool_decide (input = JNum 2) then Succ input else Fails continuing, w))].

Example continued_run : let '(o, (_, w)) := drive_chain counting_steps in
  o = Ret (Some (JNum 2)) /\ stored w = Ended 2 (OCompleted (JNum 2)).
Proof. vm_compute. split; reflexivity. Qed.

(** A cancel that lands while the step decides to continue: it is archived
    with the run it cancelled, and the next run completes. *)
Definition cancelled_meanwhile (w : MemoryWorld) : MemoryWorld :=
  (memory_call (fun now => cancelWorkflow now None "w1" true) w).2.

Definition cancelled_steps : list (StepDefinition MemoryWorld) :=
  [drive_step "count" [] (fun input w =>
     if bool_decide (input = JNum 2) then (Succ input, w) else (Fails continuing, cancelled_meanwhile w))].

Example lost_cancel : let '(o, (_, w)) := drive_chain cancelled_steps in
  o = Ret (Some (JNum 2)) /\ stored w = Ended 2 (OCompleted (JNum 2)) /\
  (rs_status <$> opt_or (db_runHistory (mw_db w) !! "w1") []) = [RunState.Failed].
Proof. vm_compute. split_and!; reflexivity. Qed.

#[local] Instance failing_world : OutcomeWorld MemoryWorld the_host (drive_ctx failing_steps) drive_lock "w1".
Proof.
  apply memory_outcome_world; try done.
  - intros d p m w Hd. cbn [drive_ctx oc_steps failing_steps] in Hd.
    repeat (apply elem_of_cons in Hd as [->|Hd]; [reflexivity|]). by apply not_elem_of_nil in Hd.
  - intros d f r i w Hd Hf. cbn [drive_ctx oc_steps failing_steps] in Hd.
    repeat (apply elem_of_cons in Hd as [->|Hd]; [injection Hf as <-; intros Hh; split; [exact Hh|reflexivity]|]).
    by apply not_elem_of_nil in Hd.
Defined.

