(* ===== verification/MachineStorage.v ===== *)
(** The storage of state machines: [durable/state-machine-storage.ts], its
    interface and the in-memory storage.

    A method of the in-memory storage runs without an [await] and is a
    function of the storage, the clock reading and, where it draws one, the
    UUID. Contexts and event data are values: what an action that mutates the
    stored context in place would do is left out. *)
From stdpp Require Import gmap.
From S2P Require Import Prelude Leases Json Journal RunState Exits.
Open Scope string_scope.
Open Scope list_scope.
Open Scope Z_scope.

(** ** Data *)
Record MachineState : Type := mkMachine {
  ma_id : string;
  ma_name : string;
  ma_type : option string;
  ma_namespace : option string;
  ma_current : string;
  ma_context : json;
  ma_version : option string;
  ma_metadata : option metadata;
  ma_revision : Z;
  ma_createdAt : Z;
  ma_updatedAt : Z;
}.

Record TransitionEvent : Type := mkTransitionEvent {
  te_id : string;
  te_event : string;
  te_from : string;
  te_to : string;
  te_context : json;
  te_eventData : json;
  te_metadata : json;
  te_createdAt : Z;
}.

Record CreateMachine : Type := mkCreateMachine {
  cm_id : string;
  cm_name : string;
  cm_type : option string;
  cm_namespace : option string;
  cm_initial : string;
  cm_context : json;
  cm_version : option string;
  cm_metadata : option metadata;
}.

Record TransitionParams : Type := mkTransition {
  tp_id : string;
  tp_from : string;
  tp_to : string;
  tp_expectedRevision : Z;
  tp_event : string;
  tp_context : json;
  tp_eventData : json;
  tp_metadata : json;
}.

Record MachineLock : Type := mkMachineLock { ml_token : string; ml_expiresAt : Z }.

Record MachineDb : Type := mkMachineDb {
  md_machines : gmap string MachineState;
  md_events : gmap string (list TransitionEvent);
  md_locks : gmap string MachineLock;
}.

#[global] Instance MachineState_eq_dec : EqDecision MachineState.
Proof. solve_decision. Defined.
#[global] Instance TransitionEvent_eq_dec : EqDecision TransitionEvent.
Proof. solve_decision. Defined.

Definition plain_error (message : string) : thrown := TError (new_error "Error" message).

(** ** [InMemoryStateMachineStorage] *)
Definition createMachine (now : Z) (p : CreateMachine) (s : MachineDb) : MachineDb :=
  mkMachineDb
    (<[cm_id p := mkMachine (cm_id p) (cm_name p) (cm_type p) (cm_namespace p) (cm_initial p)
                    (cm_context p) (cm_version p) (cm_metadata p) 0 now now]> (md_machines s))
    (<[cm_id p := []]> (md_events s)) (md_locks s).

Definition loadMachine (id : string) (s : MachineDb) : option MachineState := md_machines s !! id.

Definition moved (now : Z) (p : TransitionParams) (m : MachineState) : MachineState :=
  mkMachine (ma_id m) (ma_name m) (ma_type m) (ma_namespace m) (tp_to p) (tp_context p) (ma_version m)
    (ma_metadata m) (ma_revision m + 1) (ma_createdAt m) now.

Definition event_of (now : Z) (uuid : string) (p : TransitionParams) : TransitionEvent :=
  mkTransitionEvent uuid (tp_event p) (tp_from p) (tp_to p) (tp_context p) (tp_eventData p)
    (tp_metadata p) now.

Definition transition (now : Z) (uuid : string) (p : TransitionParams) (s : MachineDb)
    : res thrown unit * MachineDb :=
  match md_machines s !! tp_id p with
  | None => (Err (plain_error ("Machine " +:+ tp_id p +:+ " not found")), s)
  | Some machine =>
      if negb (bool_decide (ma_current machine = tp_from p))
         || negb (ma_revision machine =? tp_expectedRevision p) then
        (Err (plain_error ("Machine " +:+ tp_id p +:+ " is in state " +:+ quoted (ma_current machine) +:+
                " at revision " +:+ str_of_Z (ma_revision machine) +:+ ", not " +:+ quoted (tp_from p) +:+
                " at revision " +:+ str_of_Z (tp_expectedRevision p))), s)
      else
        (Ok tt, mkMachineDb (<[tp_id p := moved now p machine]> (md_machines s))
                  (<[tp_id p := opt_or (md_events s !! tp_id p) [] ++ [event_of now uuid p]]> (md_events s))
                  (md_locks s))
  end.

Definition loadEvents (id : string) (limit offset : option Z) (s : MachineDb) : list TransitionEvent :=
  let all := opt_or (md_events s !! id) [] in
  let offset := opt_or offset 0 in
  let limit := opt_or limit (Z.of_nat (length all)) in
  js_slice all offset (Some (offset + limit)).

Definition tryLock (now : Z) (uuid : string) (id : string) (durationMs : Z) (s : MachineDb)
    : option string * MachineDb :=
  let take := (Some uuid, mkMachineDb (md_machines s) (md_events s)
                            (<[id := mkMachineLock uuid (now + durationMs)]> (md_locks s))) in
  match md_locks s !! id with
  | Some lock => if ml_expiresAt lock >? now then (None, s) else take
  | None => take
  end.

Definition releaseLock (id token : string) (s : MachineDb) : MachineDb :=
  if bool_decide (ml_token <$> md_locks s !! id = Some token)
  then mkMachineDb (md_machines s) (md_events s) (delete id (md_locks s)) else s.

Definition extendLock (now : Z) (id token : string) (durationMs : Z) (s : MachineDb) : bool * MachineDb :=
  match md_locks s !! id with
  | Some lock =>
      if negb (bool_decide (ml_token lock = token)) || (ml_expiresAt lock <=? now) then (false, s)
      else (true, mkMachineDb (md_machines s) (md_events s)
                    (<[id := mkMachineLock token (now + durationMs)]> (md_locks s)))
  | None => (false, s)
  end.

(** ** Schedules of calls *)
Inductive MachineCall : Type :=
| MCreate (p : CreateMachine)
| MTransition (uuid : string) (p : TransitionParams)
| MTryLock (uuid id : string) (durationMs : Z)
| MReleaseLock (id token : string)
| MExtendLock (id token : string) (durationMs : Z).

Definition machine_call (now : Z) (c : MachineCall) (s : MachineDb) : MachineDb :=
  match c with
  | MCreate p => createMachine now p s
  | MTransition uuid p => (transition now uuid p s).2
  | MTryLock uuid id d => (tryLock now uuid id d s).2
  | MReleaseLock id token => releaseLock id token s
  | MExtendLock id token d => (extendLock now id token d s).2
  end.

Definition no_machines : MachineDb := mkMachineDb ∅ ∅ ∅.

(** ** The machine as the fold of its history *)
Definition born (t0 : Z) (p : CreateMachine) : MachineState :=
  mkMachine (cm_id p) (cm_name p) (cm_type p) (cm_namespace p) (cm_initial p) (cm_context p)
    (cm_version p) (cm_metadata p) 0 t0 t0.

Definition apply_event (m : MachineState) (e : TransitionEvent) : MachineState :=
  mkMachine (ma_id m) (ma_name m) (ma_type m) (ma_namespace m) (te_to e) (te_context e) (ma_version m)
    (ma_metadata m) (ma_revision m + 1) (ma_createdAt m) (te_createdAt e).

(** Each event leaves the state the events before it lead to. *)
Fixpoint follows (m : MachineState) (evs : list TransitionEvent) : Prop :=
  match evs with
  | [] => True
  | e :: evs => te_from e = ma_current m /\ follows (apply_event m e) evs
  end.

Lemma follows_snoc m evs e :
  follows m (evs ++ [e]) <-> follows m evs /\ te_from e = ma_current (foldl apply_event m evs).
Proof. revert m. induction evs as [|x evs IH]; intros m; cbn; [tauto|]. rewrite IH. tauto. Qed.

Lemma fold_revision m evs : ma_revision (foldl apply_event m evs) = ma_revision m + Z.of_nat (length evs).
Proof. revert m. induction evs as [|e evs IH]; intros m; cbn [foldl length]; [lia|]. rewrite IH. cbn. lia. Qed.

(** What a transition does to one machine. *)
Inductive moves (now : Z) (uuid : string) (p : TransitionParams) (s s' : MachineDb) : Prop :=
| Moves m :
    md_machines s !! tp_id p = Some m -> ma_current m = tp_from p ->
    ma_revision m = tp_expectedRevision p ->
    s' = mkMachineDb (<[tp_id p := moved now p m]> (md_machines s))
           (<[tp_id p := opt_or (md_events s !! tp_id p) [] ++ [event_of now uuid p]]> (md_events s)) (md_locks s) ->
    moves now uuid p s s'.

Lemma transition_spec now uuid p s r s' : transition now uuid p s = (r, s') ->
  match r with
  | Ok _ => moves now uuid p s s'
  | Err _ => s' = s /\ forall m, md_machines s !! tp_id p = Some m ->
               ma_current m <> tp_from p \/ ma_revision m <> tp_expectedRevision p
  end.
Proof.
  unfold transition. destruct (md_machines s !! tp_id p) as [m|] eqn:Em; [|by intros [= <- <-]].
  case_bool_decide as Hc; cbn [negb orb]; [destruct (Z.eqb_spec (ma_revision m) (tp_expectedRevision p)) as [Hr|Hr]|];
    cbn [negb]; intros [= <- <-].
  - by econstructor.
  - split; [done|]. intros m' [= <-]. by right.
  - split; [done|]. intros m' [= <-]. by left.
Qed.

(** Calls that concern locks only. *)
Definition same_machines (s s' : MachineDb) : Prop :=
  md_machines s' = md_machines s /\ md_events s' = md_events s.

#[global] Instance same_machines_preorder : PreOrder same_machines.
Proof. split; [done|]. intros a b c [H1 H2] [H3 H4]. split; congruence. Qed.

Lemma tryLock_same now uuid id d s : same_machines s (tryLock now uuid id d s).2.
Proof. unfold tryLock. repeat case_match; done. Qed.
Lemma releaseLock_same id token s : same_machines s (releaseLock id token s).
Proof. unfold releaseLock. case_match; done. Qed.
Lemma extendLock_same now id token d s : same_machines s (extendLock now id token d s).2.
Proof. unfold extendLock. repeat case_match; done. Qed.

Section history.
Context (sched : list (Z * MachineCall)).

(** The row of [id] is its history folded over its creation. *)
Definition sourced (s : MachineDb) (id : string) : Prop :=
  match md_machines s !! id with
  | None => md_events s !! id = None
  | Some m => exists t0 p evs, (t0, MCreate p) ∈ sched /\ cm_id p = id /\ md_events s !! id = Some evs /\
                follows (born t0 p) evs /\ m = foldl apply_event (born t0 p) evs
  end.

Lemma sourced_same s s' id : same_machines s s' -> sourced s id -> sourced s' id.
Proof. unfold sourced. by intros [-> ->]. Qed.

Lemma sourced_moves now uuid p s s' id : moves now uuid p s s' -> sourced s id -> sourced s' id.
Proof.
  intros [m Hm Hc Hr ->] Hs. unfold sourced in *. cbn [md_machines md_events].
  destruct (decide (tp_id p = id)) as [<-|Hne].
  - rewrite !lookup_insert_eq, Hm in *. destruct Hs as (t0 & q & evs & Hin & Hq & He & Hf & ->).
    exists t0, q, (evs ++ [event_of now uuid p]). rewrite He. cbn [opt_or from_option id].
    rewrite follows_snoc, foldl_app. split_and!; try done.
  - by rewrite !lookup_insert_ne by done.
Qed.

Lemma sourced_create now p s id : (now, MCreate p) ∈ sched -> sourced s id -> sourced (createMachine now p s) id.
Proof.
  intros Hin Hs. unfold sourced in *. cbn [createMachine md_machines md_events].
  destruct (decide (cm_id p = id)) as [<-|Hne]; [|by rewrite !lookup_insert_ne by done].
  rewrite !lookup_insert_eq. by exists now, p, [].
Qed.

Lemma sourced_call now c s id : (now, c) ∈ sched -> sourced s id -> sourced (machine_call now c s) id.
Proof.
  intros Hin Hs. destruct c; cbn [machine_call].
  - by apply sourced_create.
  - destruct (transition now uuid p s) as [r s'] eqn:E. apply transition_spec in E. cbn [snd].
    destruct r; [by eapply sourced_moves|by destruct E as [-> _]].
  - eapply sourced_same, Hs. apply tryLock_same.
  - eapply sourced_same, Hs. apply releaseLock_same.
  - eapply sourced_same, Hs. apply extendLock_same.
Qed.
End history.

(** C32. A machine is its history. Whatever calls reach the storage, in
    whatever order: the row of every machine is the fold of its stored events
    over one of the creations of its id, each event leaves the state that the
    events before it led to, and the revision is the number of events, so a
    compare-and-set on state and revision decides whether the history has
    moved. *)
Theorem machine_history sched id m :
  let s := run_ops machine_call sched no_machines in
  md_machines s !! id = Some m ->
  exists t0 p evs, (t0, MCreate p) ∈ sched /\ cm_id p = id /\ md_events s !! id = Some evs /\
    follows (born t0 p) evs /\ m = foldl apply_event (born t0 p) evs /\
    ma_revision m = Z.of_nat (length evs).
Proof.
  intros s Hm. assert (sourced sched s id) as Hs.
  { apply (run_ops_inv machine_call (.∈ sched) (fun s => sourced sched s id)).
    - intros now op s0. apply sourced_call.
    - by apply Forall_forall.
    - done. }
  unfold sourced in Hs. rewrite Hm in Hs. destruct Hs as (t0 & p & evs & Hin & Hp & He & Hf & ->).
  exists t0, p, evs. split_and!; try done. rewrite fold_revision. cbn. lia.
Qed.

(** A door that is opened, and a stale second opening. *)
Definition door : CreateMachine := mkCreateMachine "d" "door" None None "closed" (JNum 0) None None.
Definition opening : TransitionParams :=
  mkTransition "d" "closed" "open" 0 "push" (JNum 1) JUndef JUndef.
Definition door_calls : list (Z * MachineCall) :=
  [(1, MCreate door); (2, MTransition "u1" opening); (3, MTransition "u2" opening)].

Lemma machine_history_witness :
  let s := run_ops machine_call door_calls no_machines in
  let m := moved 2 opening (born 1 door) in
  md_machines s !! "d" = Some m /\
  exists t0 p evs, (t0, MCreate p) ∈ door_calls /\ cm_id p = "d" /\ md_events s !! "d" = Some evs /\
    follows (born t0 p) evs /\ m = foldl apply_event (born t0 p) evs /\
    ma_revision m = Z.of_nat (length evs).
Proof.
  intros s m. assert (md_machines s !! "d" = Some m) as Hm by (vm_compute; reflexivity).
  split; [exact Hm|]. apply (machine_history door_calls "d" m Hm).
Defined.
