(* ===== verification/StateMachine.v ===== *)
(** State machines: [durable/state-machine.ts], the instance methods of a
    built machine over any storage.

    Guards, actions, hooks and middleware are user code: functions of the
    world, like the calls of the storage, in which other senders, timers and
    processes may act. The variables of an instance (pending timeouts, rate
    windows, lost locks) are shared between its concurrent calls and live in
    the world too. A timer is known by a number, its callback is
    [timeout_callback], a heartbeat is [heartbeat]. *)
From Stdlib Require Import QArith.
From stdpp Require Import gmap.
From S2P Require Import Prelude Leases Json Journal RunState Exits Retry Replay StepBody Checkpoint MachineStorage.
Open Scope string_scope.
Open Scope list_scope.
Open Scope Z_scope.

(** ** The storage interface *)
Class StateMachineStorage (W : Type) : Type := {
  sms_create : CreateMachine -> async W unit;
  sms_load : string -> async W (option MachineState);
  sms_transition : TransitionParams -> async W unit;
  sms_loadEvents : string -> option Z -> option Z -> async W (list TransitionEvent);
  sms_tryLock : string -> Z -> async W (option string);
  sms_releaseLock : string -> string -> async W unit;
  sms_extendLock : string -> string -> Z -> async W bool;
}.

(** ** Configuration *)
Record TimeoutConfig (W : Type) : Type := mkTimeout {
  to_ms : Z;
  to_target : string;
  to_event : option string;
  to_guard : option (json -> async W bool);
}.
Arguments mkTimeout {W}.
Arguments to_ms {W}.
Arguments to_target {W}.
Arguments to_event {W}.
Arguments to_guard {W}.

Record StateConfig (W : Type) : Type := mkState {
  sc_name : string;
  sc_terminal : bool;
  sc_onEnter : option (json -> json -> async W unit);
  sc_onExit : option (json -> json -> async W unit);
  sc_timeout : option (TimeoutConfig W);
}.
Arguments mkState {W}.
Arguments sc_name {W}.
Arguments sc_terminal {W}.
Arguments sc_onEnter {W}.
Arguments sc_onExit {W}.
Arguments sc_timeout {W}.

Definition TIMEOUT_EVENT : string := "__timeout__".

Record TransitionConfig (W : Type) : Type := mkTransitionConfig {
  tr_event : string;
  tr_from : list string;
  tr_to : option string;
  tr_guard : option (json -> json -> async W bool);
  tr_action : option (json -> json -> async W json);
  tr_retry : option RetryPolicy;
  tr_onError : option string;
}.
Arguments mkTransitionConfig {W}.
Arguments tr_event {W}.
Arguments tr_from {W}.
Arguments tr_to {W}.
Arguments tr_guard {W}.
Arguments tr_action {W}.
Arguments tr_retry {W}.
Arguments tr_onError {W}.

(** [transitionTo], and how a result of an action is read as one. *)
Definition transitionTo (target : string) (context : json) : json :=
  JObj [("_tag", JStr "TransitionTo"); ("target", JStr target); ("context", context)].

Definition as_transition_to (result : json) : option (json * json) :=
  match result with
  | JObj fs => if bool_decide (prop "_tag" fs = JStr "TransitionTo")
               then Some (prop "target" fs, prop "context" fs) else None
  | _ => None
  end.

Record TransitionContext : Type := mkTransitionContext {
  tc_machineId : string;
  tc_machineName : string;
  tc_event : string;
  tc_from : string;
  tc_eventData : json;
}.

(** The variables of one transition attempt: what middleware may rewrite of
    its context, and what the method notes for its [finally]. *)
Record TransitionVars : Type := mkVars {
  tv_to : string;
  tv_context : json;
  tv_metadata : json;
  tv_from : option string;
  tv_committed : option string;
}.
Definition no_vars : TransitionVars := mkVars "" JUndef JUndef None None.

Definition in_transition (W : Type) : Type := (TransitionVars * W)%type.

Definition MachineMiddleware (W : Type) : Type :=
  TransitionContext -> async (in_transition W) unit -> async (in_transition W) unit.

Record MachineLimits : Type := mkLimits {
  li_maxTransitions : option Z;
  li_maxTransitionsPerSecond : option Z;
}.

Record StateMachineInstance (W : Type) : Type := mkInstance {
  sm_name : string;
  sm_states : jmap string (StateConfig W);
  sm_transitions : list (TransitionConfig W);
  sm_initialState : string;
  sm_version : option string;
  sm_limits : option MachineLimits;
  sm_middleware : option (MachineMiddleware W);
  sm_type : option string;
  sm_namespace : option string;
  sm_strictSchemas : option (list (string * (json -> res json json)));
  sm_autoScheduleTimeouts : bool;
}.
Arguments mkInstance {W}.
Arguments sm_name {W}.
Arguments sm_states {W}.
Arguments sm_transitions {W}.
Arguments sm_initialState {W}.
Arguments sm_version {W}.
Arguments sm_limits {W}.
Arguments sm_middleware {W}.
Arguments sm_type {W}.
Arguments sm_namespace {W}.
Arguments sm_strictSchemas {W}.
Arguments sm_autoScheduleTimeouts {W}.

Record PendingTimeout : Type := mkPending { pt_handle : Z; pt_dueAtMs : Z }.

Record InstanceVars : Type := mkInstanceVars {
  iv_recentSends : gmap string (list Z);
  iv_timers : gmap string PendingTimeout;
  iv_lost : gset string;  (** tokens of held locks whose [lost] is set *)
}.

(** What a machine runs on besides its storage. *)
Record MachineHost (W : Type) : Type := mkMachineHost {
  mh_runner : RunnerHost W;
  mh_vars : W -> InstanceVars;
  mh_put_vars : InstanceVars -> W -> W;
  (** [setTimeout] of the timeout of a machine in a state *)
  mh_setTimeout : string -> string -> Z -> W -> Z * W;
  mh_clearTimeout : Z -> W -> W;
  (** [setInterval] of the heartbeat of a machine's lock, and its [clear] *)
  mh_startHeartbeat : string -> string -> Z -> W -> W;
  mh_stopHeartbeat : string -> W -> W;
}.
Arguments mkMachineHost {W}.
Arguments mh_runner {W}.
Arguments mh_vars {W}.
Arguments mh_put_vars {W}.
Arguments mh_setTimeout {W}.
Arguments mh_clearTimeout {W}.
Arguments mh_startHeartbeat {W}.
Arguments mh_stopHeartbeat {W}.

Definition RATE_WINDOW_SWEEP_THRESHOLD : Z := 1024.
Definition LOCK_DURATION_MS : Z := 30000.
Definition LOCK_HEARTBEAT_MS : Z := 10000.

(** ** Control flow *)

(** [try { await m } finally { await f }]: what the cleanup throws replaces
    the outcome. A dead process runs no cleanup. *)
Definition a_finally {S A} (m : async S A) (f : async S unit) : async S A := fun s =>
  match m s with
  | (Died, s) => (Died, s)
  | (o, s) => match f s with
              | (Ret _, s) => (o, s)
              | (Throws e, s) => (Throws e, s)
              | (Died, s) => (Died, s)
              end
  end.

Definition a_do {S} (f : S -> S) : async S unit := fun s => (Ret tt, f s).
Definition a_get {S} : async S S := fun s => (Ret s, s).

(** Code of the world among the variables of a transition. *)
Definition on_machine {W A} (m : async W A) : async (in_transition W) A := fun s =>
  let '(o, w) := m s.2 in (o, (s.1, w)).
Definition get_vars {W} : async (in_transition W) TransitionVars := fun s => (Ret s.1, s).
Definition put_vars {W} (v : TransitionVars) : async (in_transition W) unit := fun s => (Ret tt, (v, s.2)).

(** [composeMachineMiddleware]. *)
Fixpoint composeMachineMiddleware {W} (middlewares : list (MachineMiddleware W)) : MachineMiddleware W :=
  fun ctx next =>
  match middlewares with
  | [] => next
  | middleware :: rest => middleware ctx (composeMachineMiddleware rest ctx next)
  end.

(** [Object.keys] of a value as a spread sees it. *)
Fixpoint chars (s : string) : list string :=
  match s with EmptyString => [] | String c s => String c "" :: chars s end.

Definition spread (v : json) : list (string * json) :=
  match v with
  | JObj fs => fs
  | JArr l => zip (str_of_Z ∘ Z.of_nat <$> seq 0 (length l)) l
  | JStr s => zip (str_of_Z ∘ Z.of_nat <$> seq 0 (String.length s)) (JStr <$> chars s)
  | _ => []
  end.

Section machine.
Context {W : Type} `{StateMachineStorage W} (host : MachineHost W) (inst : StateMachineInstance W).

Definition clock : async W Z := currentTimeMs (mh_runner host).
Definition instance_vars : async W InstanceVars := fun w => (Ret (mh_vars host w), w).
Definition set_instance_vars (v : InstanceVars) : async W unit := a_do (mh_put_vars host v).
Definition fail {S A} (message : string) : async S A := a_throw (plain_error message).

(** ** Timeouts *)
Definition put_timers (timers : gmap string PendingTimeout) : async W unit :=
  let% v := instance_vars in
  set_instance_vars (mkInstanceVars (iv_recentSends v) timers (iv_lost v)).

Definition cancelTimeout (id : string) : async W unit :=
  let% v := instance_vars in
  match iv_timers v !! id with
  | Some timer =>
      do% a_do (mh_clearTimeout host (pt_handle timer)) in
      put_timers (delete id (iv_timers v))
  | None => a_ret tt
  end.

Definition state_timeout (stateName : string) : option (TimeoutConfig W) :=
  sm_states inst !! stateName ≫= sc_timeout.

Definition scheduleTimeoutIfAny (id stateName : string) (delayMs : option Z) : async W unit :=
  if negb (sm_autoScheduleTimeouts inst) then a_ret tt
  else match state_timeout stateName with
       | None => a_ret tt
       | Some cfg =>
           do% cancelTimeout id in
           let delayMs := opt_or delayMs (to_ms cfg) in
           let% handle := a_sync (mh_setTimeout host id stateName delayMs) in
           let% now := clock in
           let% v := instance_vars in
           put_timers (<[id := mkPending handle (now + delayMs)]> (iv_timers v))
       end.

Definition cancelAllTimeouts : async W unit :=
  let% v := instance_vars in
  do% a_do (fun w => map_fold (fun _ timer w => mh_clearTimeout host (pt_handle timer) w) w (iv_timers v)) in
  put_timers ∅.

Definition settleTimeoutAfterSend (id : string) (fromState committedTo : option string)
    (pendingTimeoutDueAt : option Z) : async W unit :=
  match committedTo, fromState, pendingTimeoutDueAt with
  | Some to, _, _ =>
      do% cancelTimeout id in
      scheduleTimeoutIfAny id to None
  | None, Some from, Some dueAt =>
      let% v := instance_vars in
      match iv_timers v !! id with
      | Some _ => a_ret tt
      | None =>
          let% now := clock in
          scheduleTimeoutIfAny id from (Some (Z.max 0 (dueAt - now)))
      end
  | None, _, _ => a_ret tt
  end.

(** ** The lock *)
Definition acquireLock (id : string) : async W (option string) :=
  let% token := sms_tryLock id LOCK_DURATION_MS in
  match token with
  | None => a_ret None
  | Some token =>
      do% a_do (mh_startHeartbeat host id token LOCK_HEARTBEAT_MS) in
      a_ret (Some token)
  end.

(** One beat; a beat that fails is retried by the next one. *)
Definition heartbeat (id token : string) : async W unit :=
  a_catch
    (let% held := sms_extendLock id token LOCK_DURATION_MS in
     if held then a_ret tt
     else
       let% v := instance_vars in
       set_instance_vars (mkInstanceVars (iv_recentSends v) (iv_timers v) ({[token]} ∪ iv_lost v)))
    (fun _ => a_ret tt).

Definition release_held (id token : string) : async W unit :=
  do% a_do (mh_stopHeartbeat host token) in
  sms_releaseLock id token.

Definition assertLockHeld (id token : string) : async W unit :=
  let% v := instance_vars in
  if bool_decide (token ∈ iv_lost v)
  then fail ("Machine " +:+ id +:+ " lock expired before the transition was saved")
  else a_ret tt.

(** ** The rate limit *)
Definition checkRateLimit (id : string) (maxPerSecond : Z) : async W unit :=
  let% now := clock in
  let% v := instance_vars in
  let cutoff := now - 1000 in
  let windows :=
    if Z.of_nat (size (iv_recentSends v)) >? RATE_WINDOW_SWEEP_THRESHOLD
    then filter (fun kv => negb (forallb (fun t => t <=? cutoff) kv.2)) (iv_recentSends v)
    else iv_recentSends v in
  let recent := base.filter (fun t => t > cutoff) (opt_or (windows !! id) []) in
  let keep_window l := set_instance_vars (mkInstanceVars (<[id := l]> windows) (iv_timers v) (iv_lost v)) in
  if Z.of_nat (length recent) >=? maxPerSecond then
    do% keep_window recent in
    fail ("Machine " +:+ id +:+ " exceeded rate limit (" +:+ str_of_Z maxPerSecond +:+ "/sec)")
  else keep_window (recent ++ [now]).

(** ** [send] *)
Definition strict_data (event : string) (data : json) : async W json :=
  match sm_strictSchemas inst with
  | None => a_ret data
  | Some schemas =>
      match alist_get event schemas with
      | Some safeParse =>
          match safeParse data with
          | Ok data => a_ret data
          | Err cause =>
              a_throw (TError (mkError "EventDataValidationError" (Some "EventDataValidationError") "Error"
                                 ("Event " +:+ quoted event +:+ " payload failed schema validation")
                                 [("event", JStr event); ("cause", cause)]))
          end
      | None =>
          if bool_decide (event ∈ object_prototype_names)
          then a_throw (TError (new_error "TypeError" "parser.safeParse is not a function"))
          else a_ret data
      end
  end.

Definition StateMachineVersionMismatchError (id stored code current : string) : thrown :=
  TError (mkError "StateMachineVersionMismatchError" (Some "StateMachineVersionMismatchError") "Error"
    ("Machine " +:+ quoted id +:+ " version mismatch: instance has " +:+ quoted stored +:+
     " but code defines " +:+ quoted code +:+ " (current state: " +:+ quoted current +:+ ")")
    [("machineId", JStr id); ("storedVersion", JStr stored); ("codeVersion", JStr code);
     ("currentState", JStr current)]).

Definition check_version (m : MachineState) (id : string) : async W unit :=
  match sm_version inst, ma_version m with
  | Some code, Some stored =>
      if bool_decide (stored = code) then a_ret tt
      else a_throw (StateMachineVersionMismatchError id stored code (ma_current m))
  | _, _ => a_ret tt
  end.

(** A limit of zero is no limit. *)
Definition some_limit (limit : MachineLimits -> option Z) : option Z :=
  match sm_limits inst ≫= limit with
  | Some n => if n =? 0 then None else Some n
  | None => None
  end.

Definition check_limits (m : MachineState) (id : string) : async W unit :=
  do% match some_limit li_maxTransitions with
      | Some max =>
          if ma_revision m >=? max
          then fail ("Machine " +:+ id +:+ " exceeded max transitions limit (" +:+ str_of_Z max +:+ ")")
          else a_ret tt
      | None => a_ret tt
      end in
  match some_limit li_maxTransitionsPerSecond with
  | Some max => checkRateLimit id max
  | None => a_ret tt
  end.

Definition find_transition (event current : string) : option (TransitionConfig W) :=
  List.find (fun t => bool_decide (tr_event t = event) && bool_decide (current ∈ tr_from t)) (sm_transitions inst).

Definition check_guard (t : TransitionConfig W) (m : MachineState) (event : string) (data : json) : async W unit :=
  match tr_guard t with
  | None => a_ret tt
  | Some guard =>
      let% allowed := guard (ma_context m) data in
      if allowed then a_ret tt else fail ("Guard rejected event " +:+ quoted event)
  end.

Definition executeWithRetryReturn {A} (fn : async W A) (policy : RetryPolicy) : async W A :=
  retryAsync (rh_now (mh_runner host)) (rh_random (mh_runner host)) (timer (mh_runner host)) (fun _ => false)
    (fun _ => fn) policy.

Definition run_action (t : TransitionConfig W) (action : json -> json -> async W json) (m : MachineState)
    (data : json) : async W json :=
  match tr_retry t with
  | Some policy => executeWithRetryReturn (action (ma_context m) data) policy
  | None => action (ma_context m) data
  end.

(** The target state, any value an action may name, and the new context. *)
Definition compute_move (t : TransitionConfig W) (m : MachineState) (event : string) (data : json)
    : async W (json * json) :=
  match tr_action t with
  | Some action =>
      let% result := run_action t action m data in
      match as_transition_to result with
      | Some move => a_ret move
      | None =>
          if truthy_str (tr_to t) then a_ret (JStr (opt_or (tr_to t) ""), result)
          else fail ("Transition for " +:+ quoted event +:+
                       " has no target state and action didn't return TransitionTo")
      end
  | None =>
      if truthy_str (tr_to t) then a_ret (JStr (opt_or (tr_to t) ""), ma_context m)
      else fail ("Transition for " +:+ quoted event +:+ " has no action and no target state")
  end.

Definition has_state (s : string) : bool := bool_decide (is_Some (sm_states inst !! s)).

Definition error_context (context : json) (error : thrown) : json :=
  JObj (alist_set "error" (JStr (errorMessage (mh_runner host) error)) (spread context)).

Definition move_or_error (t : TransitionConfig W) (m : MachineState) (event : string) (data : json)
    : async W (json * json) :=
  a_catch (compute_move t m event data)
    (fun err => if truthy_str (tr_onError t) && has_state (opt_or (tr_onError t) "")
                then a_ret (JStr (opt_or (tr_onError t) ""), error_context (ma_context m) err)
                else a_throw err).

Definition registered_target (target : json) : async W string :=
  match target with
  | JStr s => if has_state s then a_ret s else fail ("Target state " +:+ quoted s +:+ " is not registered")
  | v => fail ("Target state " +:+ quoted (js_String (rh_date_string (mh_runner host)) v) +:+ " is not registered")
  end.

Definition run_hook (hook : StateConfig W -> option (json -> json -> async W unit)) (state : string)
    (context data : json) : async W unit :=
  match sm_states inst !! state ≫= hook with
  | Some hook => hook context data
  | None => a_ret tt
  end.

(** [onExit] and the save, unless an earlier run of the transition saved. *)
Definition commit_once (onExit : async W unit) (id token : string) (params : TransitionVars -> TransitionParams)
    : async (in_transition W) unit :=
  let% v := get_vars in
  match tv_committed v with
  | Some _ => a_ret tt
  | None =>
      do% on_machine onExit in
      do% on_machine (assertLockHeld id token) in
      let% v := get_vars in
      do% on_machine (sms_transition (params v)) in
      put_vars (mkVars (tv_to v) (tv_context v) (tv_metadata v) (tv_from v) (Some (tp_to (params v))))
  end.

(** The core transition: [onExit], persist, [onEnter]; once it is persisted a
    second run only repeats [onEnter]. *)
Definition executeTransition (id token event : string) (m : MachineState) (data : json)
    : async (in_transition W) unit :=
  do% commit_once (run_hook sc_onExit (ma_current m) (ma_context m) data) id token
        (fun v => mkTransition id (ma_current m) (tv_to v) (ma_revision m) event (tv_context v) data (tv_metadata v)) in
  let% v := get_vars in
  on_machine (run_hook sc_onEnter (opt_or (tv_committed v) "") (tv_context v) data).

Definition through_middleware (ctx : TransitionContext) (next : async (in_transition W) unit)
    : async (in_transition W) unit :=
  match sm_middleware inst with
  | Some middleware => middleware ctx next
  | None => next
  end.

Definition send_locked (id token event : string) (data metadata : json) : async (in_transition W) unit :=
  let% machine := on_machine (sms_load id) in
  match machine with
  | None => fail ("Machine " +:+ id +:+ " not found")
  | Some m =>
      do% on_machine (check_version m id) in
      do% on_machine (check_limits m id) in
      do% put_vars (mkVars "" JUndef JUndef (Some (ma_current m)) None) in
      match find_transition event (ma_current m) with
      | None => fail ("No transition for event " +:+ quoted event +:+ " from state " +:+ quoted (ma_current m))
      | Some t =>
          do% on_machine (check_guard t m event data) in
          let% move := on_machine (move_or_error t m event data) in
          let% target := on_machine (registered_target move.1) in
          do% put_vars (mkVars target move.2 metadata (Some (ma_current m)) None) in
          through_middleware (mkTransitionContext id (sm_name inst) event (ma_current m) data)
            (executeTransition id token event m data)
      end
  end.

Definition send (id event : string) (data metadata : json) : async W unit :=
  let% data := strict_data event data in
  let% lock := acquireLock id in
  match lock with
  | None => fail ("Machine " +:+ id +:+ " is locked")
  | Some token => fun w =>
      let pendingTimeoutDueAt := pt_dueAtMs <$> iv_timers (mh_vars host w) !! id in
      let '(o, (_, w)) :=
        a_finally (send_locked id token event data metadata)
          (let% v := get_vars in
           do% on_machine (settleTimeoutAfterSend id (tv_from v) (tv_committed v) pendingTimeoutDueAt) in
           on_machine (release_held id token)) (no_vars, w) in
      (o, w)
  end.

(** ** Timed transitions *)
Definition timeout_transition (id token eventName : string) (cfg : TimeoutConfig W) (fromState : string)
    (m : MachineState) : async (in_transition W) unit :=
  do% commit_once (run_hook sc_onExit fromState (ma_context m) JUndef) id token
        (fun _ => mkTransition id fromState (to_target cfg) (ma_revision m) eventName (ma_context m) JUndef JUndef) in
  on_machine (run_hook sc_onEnter (to_target cfg) (ma_context m) JUndef).

Definition fire_locked (id token fromState : string) (cfg : TimeoutConfig W) : async (in_transition W) bool :=
  let% machine := on_machine (sms_load id) in
  match machine with
  | None => a_ret false
  | Some m =>
      if negb (bool_decide (ma_current m = fromState)) then a_ret false
      else
        let% allowed := match to_guard cfg with
                        | Some guard => on_machine (guard (ma_context m))
                        | None => a_ret true
                        end in
        if negb allowed then a_ret false
        else if negb (has_state (to_target cfg))
        then fail ("Timeout target state " +:+ quoted (to_target cfg) +:+ " is not registered")
        else
          let eventName := opt_or (to_event cfg) TIMEOUT_EVENT in
          do% put_vars (mkVars (to_target cfg) (ma_context m) JUndef (Some fromState) None) in
          do% a_finally
                (through_middleware (mkTransitionContext id (sm_name inst) eventName fromState JUndef)
                   (timeout_transition id token eventName cfg fromState m))
                (let% v := get_vars in
                 match tv_committed v with
                 | Some _ =>
                     do% on_machine (cancelTimeout id) in
                     on_machine (scheduleTimeoutIfAny id (to_target cfg) None)
                 | None => a_ret tt
                 end) in
          a_ret true
  end.

Definition fireTimeout (id fromState : string) : async W bool :=
  match state_timeout fromState with
  | None => a_ret false
  | Some cfg =>
      let% lock := acquireLock id in
      match lock with
      | None => a_ret false
      | Some token => fun w =>
          let '(o, (_, w)) :=
            a_finally (fire_locked id token fromState cfg) (on_machine (release_held id token)) (no_vars, w) in
          (o, w)
      end
  end.

(** What the timer armed by [scheduleTimeoutIfAny] runs. *)
Definition timeout_callback (id stateName : string) (handle : Z) : async W unit :=
  let% v := instance_vars in
  do% if bool_decide (pt_handle <$> iv_timers v !! id = Some handle)
      then put_timers (delete id (iv_timers v)) else a_ret tt in
  a_catch (do% fireTimeout id stateName in a_ret tt) (fun _ => a_ret tt).

Definition checkTimeouts (id : string) : async W bool :=
  let% machine := sms_load id in
  match machine with
  | None => a_ret false
  | Some m =>
      match state_timeout (ma_current m) with
      | None => a_ret false
      | Some cfg =>
          let% now := clock in
          if now <? ma_updatedAt m + to_ms cfg then a_ret false
          else fireTimeout id (ma_current m)
      end
  end.

(** ** The other methods *)
Definition start (id : string) (context : json) (metadata : option metadata) : async W unit :=
  let% existing := sms_load id in
  match existing with
  | Some _ => fail ("Machine " +:+ id +:+ " already exists")
  | None =>
      do% sms_create (mkCreateMachine id (sm_name inst) (sm_type inst) (sm_namespace inst) (sm_initialState inst)
                        context (sm_version inst) metadata) in
      scheduleTimeoutIfAny id (sm_initialState inst) None
  end.

Record MachineSnapshot : Type := mkMachineSnapshot {
  sn_current : string;
  sn_context : json;
  sn_name : option string;
  sn_version : option string;
}.

Definition getState (id : string) : async W (option (string * json)) :=
  let% machine := sms_load id in
  a_ret ((fun m => (ma_current m, ma_context m)) <$> machine).

Definition getSnapshot (id : string) : async W (option MachineSnapshot) :=
  let% machine := sms_load id in
  a_ret ((fun m => mkMachineSnapshot (ma_current m) (ma_context m) (Some (ma_name m)) (ma_version m)) <$> machine).

Definition restore (id : string) (snapshot : MachineSnapshot) (metadata : option metadata) : async W unit :=
  let% existing := sms_load id in
  match existing with
  | Some _ => fail ("Machine " +:+ id +:+ " already exists")
  | None =>
      sms_create (mkCreateMachine id (opt_or (sn_name snapshot) (sm_name inst)) None None (sn_current snapshot)
                    (sn_context snapshot) (opt_else (sn_version snapshot) (sm_version inst)) metadata)
  end.

Definition getHistory (id : string) (limit offset : option Z) : async W (list TransitionEvent) :=
  sms_loadEvents id limit offset.

(** [retryMiddleware]. *)
Definition retryMiddleware (policy : RetryPolicy) : MachineMiddleware W := fun _ next =>
  retryAsync (fun s => let '(t, w) := rh_now (mh_runner host) s.2 in (t, (s.1, w)))
    (fun s => let '(r, w) := rh_random (mh_runner host) s.2 in (r, (s.1, w)))
    (fun d => on_machine (timer (mh_runner host) d)) (fun _ => false) (fun _ => next) policy.
End machine.


(** ** The builder *)
Record StateMachineBuilder (W : Type) : Type := mkBuilder {
  mb_name : string;
  mb_version : option string;
  mb_limits : option MachineLimits;
  mb_type : option string;
  mb_namespace : option string;
  mb_autoScheduleTimeouts : option bool;
  mb_states : jmap string (StateConfig W);
  mb_transitions : list (TransitionConfig W);
  mb_middlewares : list (MachineMiddleware W);
  mb_initialState : option string;
  mb_strictSchemas : option (list (string * (json -> res json json)));
}.
Arguments mkBuilder {W}.
Arguments mb_name {W}.
Arguments mb_version {W}.
Arguments mb_limits {W}.
Arguments mb_type {W}.
Arguments mb_namespace {W}.
Arguments mb_autoScheduleTimeouts {W}.
Arguments mb_states {W}.
Arguments mb_transitions {W}.
Arguments mb_middlewares {W}.
Arguments mb_initialState {W}.
Arguments mb_strictSchemas {W}.

Section builder.
Context {W : Type}.

(** [stateMachine({...})]. *)
Definition stateMachine (name : string) (version : option string) (limits : option MachineLimits)
    (type namespace : option string) (autoScheduleTimeouts : option bool) : StateMachineBuilder W :=
  mkBuilder name version limits type namespace autoScheduleTimeouts ∅ [] [] None None.

Definition with_parts (b : StateMachineBuilder W) states transitions middlewares initial strict : StateMachineBuilder W :=
  mkBuilder (mb_name b) (mb_version b) (mb_limits b) (mb_type b) (mb_namespace b) (mb_autoScheduleTimeouts b)
    states transitions middlewares initial strict.

Definition use (middleware : MachineMiddleware W) (b : StateMachineBuilder W) : StateMachineBuilder W :=
  with_parts b (mb_states b) (mb_transitions b) (mb_middlewares b ++ [middleware]) (mb_initialState b)
    (mb_strictSchemas b).

Definition state (config : StateConfig W) (b : StateMachineBuilder W) : StateMachineBuilder W :=
  with_parts b (<[sc_name config := config]> (mb_states b)) (mb_transitions b) (mb_middlewares b)
    (mb_initialState b) (mb_strictSchemas b).

Definition on (config : TransitionConfig W) (b : StateMachineBuilder W) : StateMachineBuilder W :=
  with_parts b (mb_states b) (mb_transitions b ++ [config]) (mb_middlewares b) (mb_initialState b)
    (mb_strictSchemas b).

Definition initial (s : string) (b : StateMachineBuilder W) : StateMachineBuilder W :=
  with_parts b (mb_states b) (mb_transitions b) (mb_middlewares b) (Some s) (mb_strictSchemas b).

Definition strict (schemas : list (string * (json -> res json json))) (b : StateMachineBuilder W)
    : StateMachineBuilder W :=
  with_parts b (mb_states b) (mb_transitions b) (mb_middlewares b) (mb_initialState b)
    (Some (foldl (fun l kv => alist_set kv.1 kv.2 l) (opt_or (mb_strictSchemas b) []) schemas)).

(** The built instance, and the terminal states a storage that asks for them
    is told. *)
Definition build (b : StateMachineBuilder W) : res thrown (StateMachineInstance W * list string) :=
  match mb_initialState b with
  | None | Some "" => Err (plain_error "Initial state not set")
  | Some initialState =>
      if bool_decide (jm_entries (mb_states b) = []) then Err (plain_error "No states registered")
      else
        Ok (mkInstance (mb_name b) (mb_states b) (mb_transitions b) initialState (mb_version b) (mb_limits b)
              (match mb_middlewares b with [] => None | l => Some (composeMachineMiddleware l) end)
              (mb_type b) (mb_namespace b) (mb_strictSchemas b) (opt_or (mb_autoScheduleTimeouts b) true),
            sc_name <$> base.filter (fun s => sc_terminal s = true) (jm_values (mb_states b)))
  end.
End builder.
