(* ===== verification/MachineLaws.v ===== *)
(** What the methods of a state machine instance do to its storage, while
    other senders, timers and processes act on it: the contract
    [MachineWorld] of the world, and the transitions a method commits. *)
From Stdlib Require Import QArith.
From stdpp Require Import gmap.
From S2P Require Import Prelude Leases Json Journal RunState Exits Retry Replay StepBody Checkpoint AsyncRel MachineStorage StateMachine.
Open Scope string_scope.
Open Scope list_scope.
Open Scope Z_scope.

(** [others]: what everyone else may do to the machines between two points of
    a method. A call of the storage is one operation of the in-memory storage
    at some point; one that rejects, or whose answer is lost, was that
    operation or nothing. *)
Definition does_once {W A} (db : W -> MachineDb) (others : MachineDb -> MachineDb -> Prop) (m : async W A)
    (act : outcome A -> MachineDb -> MachineDb -> Prop) : Prop :=
  forall w o w', m w = (o, w') ->
    exists x y, others (db w) x /\ act o x y /\ others y (db w').

Definition drift {W} (db : W -> MachineDb) (others : MachineDb -> MachineDb -> Prop) (w w' : W) : Prop :=
  others (db w) (db w').

(** The user's code of a machine. *)
Inductive user_code {W} (inst : StateMachineInstance W) : forall A, async W A -> Prop :=
| UserGuard t guard c d : t ∈ sm_transitions inst -> tr_guard t = Some guard -> user_code inst bool (guard c d)
| UserAction t action c d : t ∈ sm_transitions inst -> tr_action t = Some action -> user_code inst json (action c d)
| UserExit s config hook c d : sm_states inst !! s = Some config -> sc_onExit config = Some hook ->
    user_code inst unit (hook c d)
| UserEnter s config hook c d : sm_states inst !! s = Some config -> sc_onEnter config = Some hook ->
    user_code inst unit (hook c d)
| UserTimeout s config cfg guard c : sm_states inst !! s = Some config -> sc_timeout config = Some cfg ->
    to_guard cfg = Some guard -> user_code inst bool (guard c).

Class MachineWorld (W : Type) `{StateMachineStorage W} (host : MachineHost W) (inst : StateMachineInstance W) : Type := {
  mw_machines : W -> MachineDb;
  mw_others : MachineDb -> MachineDb -> Prop;
  mw_preorder :: PreOrder mw_others;
  mw_lock_traffic : forall a b, same_machines a b -> mw_others a b;
  create_law p : does_once mw_machines mw_others (sms_create p) (fun o x y =>
    (exists now, y = createMachine now p x) \/ (x = y /\ o <> Ret tt));
  load_law id : does_once mw_machines mw_others (sms_load id) (fun o x y =>
    x = y /\ forall r, o = Ret r -> r = md_machines x !! id);
  transition_law p : does_once mw_machines mw_others (sms_transition p) (fun o x y =>
    (exists now uuid, moves now uuid p x y) \/ (x = y /\ o <> Ret tt));
  tryLock_law id d : keeps (drift mw_machines mw_others) (sms_tryLock id d);
  releaseLock_law id token : keeps (drift mw_machines mw_others) (sms_releaseLock id token);
  extendLock_law id token d : keeps (drift mw_machines mw_others) (sms_extendLock id token d);
  loadEvents_law id l o : keeps (drift mw_machines mw_others) (sms_loadEvents id l o);
  host_law :: HostKeeps (drift mw_machines mw_others) (mh_runner host);
  put_vars_law v w : drift mw_machines mw_others w (mh_put_vars host v w);
  setTimeout_law id s d w : drift mw_machines mw_others w (mh_setTimeout host id s d w).2;
  clearTimeout_law h w : drift mw_machines mw_others w (mh_clearTimeout host h w);
  startHeartbeat_law id token d w : drift mw_machines mw_others w (mh_startHeartbeat host id token d w);
  stopHeartbeat_law token w : drift mw_machines mw_others w (mh_stopHeartbeat host token w);
  user_law A (m : async W A) : user_code inst A m -> keeps (drift mw_machines mw_others) m;
}.
#[global] Hint Mode MachineWorld - - - - : typeclass_instances.

(** ** The transitions a method commits *)
Section commits.
Variable others : MachineDb -> MachineDb -> Prop.
Context `{!PreOrder others}.

Inductive commits : list TransitionParams -> MachineDb -> MachineDb -> Prop :=
| CommitsNone a b : others a b -> commits [] a b
| CommitsOne p l a x y b now uuid :
    others a x -> moves now uuid p x y -> commits l y b -> commits (p :: l) a b.

Lemma commits_before l a b c : others a b -> commits l b c -> commits l a c.
Proof using PreOrder0. intros Hab Hc. destruct Hc; [apply CommitsNone|eapply CommitsOne; [|done..]]; by etrans. Qed.

Lemma commits_app l1 l2 a b c : commits l1 a b -> commits l2 b c -> commits (l1 ++ l2) a c.
Proof using PreOrder0.
  induction 1 as [a b Hab|p l a x y b now uuid Hax Hm Hl IH]; cbn; intros H2; [by eapply commits_before|].
  eapply CommitsOne; [done..|auto].
Qed.

(** When the revision of a machine never goes back, a compare-and-set at one
    revision takes effect once. *)
Definition onward (a b : MachineDb) : Prop := forall id m, md_machines a !! id = Some m ->
  exists m', md_machines b !! id = Some m' /\ ma_revision m <= ma_revision m'.

Lemma onward_trans a b c : onward a b -> onward b c -> onward a c.
Proof using. intros H1 H2 id m Hm. destruct (H1 _ _ Hm) as (m1 & Hm1 & ?), (H2 _ _ Hm1) as (m2 & ? & ?). exists m2. by split; [|lia]. Qed.

Lemma moves_onward now uuid p x y : moves now uuid p x y ->
  onward x y /\ exists m, md_machines y !! tp_id p = Some m /\ ma_revision m = tp_expectedRevision p + 1.
Proof using.
  intros [m Hm Hc Hr ->]. cbn. split.
  - intros id m' Hm'. cbn. destruct (decide (tp_id p = id)) as [<-|Hne].
    + rewrite lookup_insert_eq. eexists. split; [done|]. cbn. replace m' with m by congruence. lia.
    + rewrite lookup_insert_ne by done. by exists m'.
  - rewrite lookup_insert_eq. eexists. split; [done|]. cbn. lia.
Qed.

Lemma commits_revision l a b : (forall x y, others x y -> onward x y) -> commits l a b -> onward a b.
Proof using.
  intros Ho. induction 1 as [a b Hab|p l a x y b now uuid Hax Hm Hl IH]; [auto|].
  eapply onward_trans; [by apply Ho|]. eapply onward_trans; [by eapply moves_onward|done].
Qed.

Lemma commits_at_most_once id rev l a b : (forall x y, others x y -> onward x y) ->
  Forall (fun p => tp_id p = id /\ tp_expectedRevision p = rev) l -> commits l a b -> (length l <= 1)%nat.
Proof using.
  intros Ho Hl Hc. destruct Hc as [|p l a x y b now uuid Hax Hm Hc]; cbn; [lia|].
  destruct Hc as [|p' l y b c z now' uuid' Hyb Hm' Hc]; cbn; [lia|]. exfalso.
  apply Forall_cons in Hl as [[Hp Hr] Hl]. apply Forall_cons in Hl as [[Hp' Hr'] _].
  apply moves_onward in Hm as [_ (m & Hm & Hrev)].
  destruct Hm' as [m' Hm' _ Hrev' _]. rewrite Hp' in Hm'. rewrite Hp in Hm.
  destruct (Ho _ _ Hyb _ _ Hm) as (m2 & Hm2 & Hle). replace m2 with m' in * by congruence. lia.
Qed.

(** A property of the machines that others keep and each commit keeps. *)
Lemma commits_keep (I : MachineDb -> Prop) (P : TransitionParams -> Prop) l a b :
  (forall x y, others x y -> I x -> I y) ->
  (forall now uuid p x y, P p -> moves now uuid p x y -> I x -> I y) ->
  commits l a b -> Forall P l -> I a -> I b.
Proof using.
  intros Ho Hm. induction 1 as [a b Hab|p l a x y b now uuid Hax Hmv Hl IH]; [by eauto|].
  intros [Hp Hl']%Forall_cons HI. by eauto.
Qed.
End commits.

(** ** What a method's calls keep *)
Section laws.
Context {W : Type} `{SMS : StateMachineStorage W} {host : MachineHost W} {inst : StateMachineInstance W} `{MW : !MachineWorld W host inst}.

Abbreviation drifts := (drift (mw_machines (host := host) (inst := inst)) mw_others).

#[global] Instance drift_preorder : PreOrder drifts.
Proof using. split; [intros w; unfold drift; reflexivity|]. intros a b c; unfold drift; apply transitivity. Qed.

Lemma async_do (f : W -> W) : (forall w, drifts w (f w)) -> keeps drifts (a_do f).
Proof using. intros Hf w. apply Hf. Qed.
Lemma async_vars : keeps drifts (instance_vars host).
Proof using. intros w. cbn. reflexivity. Qed.
Lemma async_set_vars v : keeps drifts (set_instance_vars host v).
Proof using. apply async_do. intros w. apply put_vars_law. Qed.
Lemma async_set_timeout id s d : keeps drifts (a_sync (mh_setTimeout host id s d)).
Proof using. apply keeps_sync. intros w. apply setTimeout_law. Qed.
Lemma async_fail {A} msg : keeps drifts (fail (A := A) msg).
Proof using. apply (async_throw drifts). Qed.
End laws.

Create HintDb machine.

Ltac machine_keep :=
  repeat progress (keep; try lazymatch goal with
    | |- keeps _ (fail _) => apply async_fail
    | |- keeps _ (instance_vars _) => apply async_vars
    | |- keeps _ (set_instance_vars _ _) => apply async_set_vars
    | |- keeps _ (clock _) => unfold clock
    | |- keeps _ (put_timers _ _) => unfold put_timers
    | |- keeps _ (a_sync (mh_setTimeout _ _ _ _)) => apply async_set_timeout
    | |- keeps _ (a_do _) => apply async_do; intros ?
    | |- keeps _ (match ?x with _ => _ end) => destruct x
    | |- drift _ _ _ (mh_clearTimeout _ _ _) => apply clearTimeout_law
    | |- drift _ _ _ (mh_startHeartbeat _ _ _ _ _) => apply startHeartbeat_law
    | |- drift _ _ _ (mh_stopHeartbeat _ _ _) => apply stopHeartbeat_law
    | |- PreOrder _ => apply _
    | |- HostKeeps _ _ => apply _
    | |- keeps _ _ => solve [eauto with machine]
    end).

#[export] Hint Resolve tryLock_law releaseLock_law extendLock_law loadEvents_law user_law : machine.

Section methods.
Context {W : Type} `{SMS : StateMachineStorage W} {host : MachineHost W} {inst : StateMachineInstance W} `{MW : !MachineWorld W host inst}.

Abbreviation drifts := (drift (mw_machines (host := host) (inst := inst)) mw_others).

Lemma cancelTimeout_keeps id : keeps drifts (cancelTimeout host id).
Proof using MW. unfold cancelTimeout. machine_keep. Qed.
Hint Resolve cancelTimeout_keeps : machine.
Lemma scheduleTimeoutIfAny_keeps id s d : keeps drifts (scheduleTimeoutIfAny host inst id s d).
Proof using MW. unfold scheduleTimeoutIfAny. machine_keep. Qed.
Hint Resolve scheduleTimeoutIfAny_keeps : machine.
Lemma cancelAllTimeouts_keeps : keeps drifts (cancelAllTimeouts host).
Proof using MW.
  unfold cancelAllTimeouts. machine_keep.
  apply (map_fold_weak_ind (fun w' _ => drifts w w')); [reflexivity|]. intros i t m w' _ Hw. etrans; [exact Hw|].
  apply clearTimeout_law.
Qed.
Hint Resolve cancelAllTimeouts_keeps : machine.
Lemma settleTimeoutAfterSend_keeps id from to due : keeps drifts (settleTimeoutAfterSend host inst id from to due).
Proof using MW. unfold settleTimeoutAfterSend. machine_keep. Qed.
Hint Resolve settleTimeoutAfterSend_keeps : machine.
Lemma acquireLock_keeps id : keeps drifts (acquireLock host id).
Proof using MW. unfold acquireLock. machine_keep. Qed.
Hint Resolve acquireLock_keeps : machine.
Lemma heartbeat_keeps id token : keeps drifts (heartbeat host id token).
Proof using MW. unfold heartbeat. machine_keep. Qed.
Lemma release_held_keeps id token : keeps drifts (release_held host id token).
Proof using MW. unfold release_held. machine_keep. Qed.
Hint Resolve release_held_keeps heartbeat_keeps : machine.
Lemma assertLockHeld_keeps id token : keeps drifts (assertLockHeld host id token).
Proof using MW. unfold assertLockHeld. machine_keep. Qed.
Hint Resolve assertLockHeld_keeps : machine.
Lemma checkRateLimit_keeps id max : keeps drifts (checkRateLimit host id max).
Proof using MW. unfold checkRateLimit. machine_keep. Qed.
Hint Resolve checkRateLimit_keeps : machine.
Lemma check_limits_keeps m id : keeps drifts (check_limits host inst m id).
Proof using MW. unfold check_limits. machine_keep. Qed.
Lemma strict_data_keeps event data : keeps drifts (strict_data inst event data).
Proof using MW. unfold strict_data. machine_keep. Qed.
Lemma check_version_keeps m id : keeps drifts (check_version inst m id).
Proof using MW. unfold check_version. machine_keep. Qed.
Hint Resolve check_limits_keeps strict_data_keeps check_version_keeps : machine.
Lemma check_guard_keeps t m event data : t ∈ sm_transitions inst ->
  keeps drifts (check_guard t m event data).
Proof using MW.
  intros Ht. unfold check_guard. destruct (tr_guard t) eqn:E; machine_keep.
  eapply user_law, UserGuard; done.
Qed.
Lemma run_action_keeps t action m data : t ∈ sm_transitions inst -> tr_action t = Some action ->
  keeps drifts (run_action host t action m data).
Proof using MW.
  intros Ht Ha. unfold run_action. assert (keeps drifts (action (ma_context m) data)) as Hk
    by (eapply user_law, UserAction; done).
  destruct (tr_retry t); [|done]. apply keeps_retryAsync; [apply _..|done].
Qed.
Lemma compute_move_keeps t m event data : t ∈ sm_transitions inst ->
  keeps drifts (compute_move host t m event data).
Proof using MW.
  intros Ht. unfold compute_move. destruct (tr_action t) eqn:E; machine_keep. by apply run_action_keeps.
Qed.
Lemma move_or_error_keeps t m event data : t ∈ sm_transitions inst ->
  keeps drifts (move_or_error host inst t m event data).
Proof using MW. intros Ht. unfold move_or_error. machine_keep. by apply compute_move_keeps. Qed.
Lemma registered_target_keeps target : keeps drifts (registered_target host inst target).
Proof using MW. unfold registered_target. machine_keep. Qed.
Lemma onExit_keeps s c d : keeps drifts (run_hook inst sc_onExit s c d).
Proof using MW.
  unfold run_hook. destruct (sm_states inst !! s) as [config|] eqn:E; cbn; [|machine_keep].
  destruct (sc_onExit config) eqn:E'; [|machine_keep]. eapply user_law, UserExit; done.
Qed.
Lemma onEnter_keeps s c d : keeps drifts (run_hook inst sc_onEnter s c d).
Proof using MW.
  unfold run_hook. destruct (sm_states inst !! s) as [config|] eqn:E; cbn; [|machine_keep].
  destruct (sc_onEnter config) eqn:E'; [|machine_keep]. eapply user_law, UserEnter; done.
Qed.
Lemma find_transition_elem event s t : find_transition inst event s = Some t ->
  t ∈ sm_transitions inst /\ tr_event t = event /\ s ∈ tr_from t.
Proof using.
  intros Hf. unfold find_transition in Hf. apply find_some in Hf as [Hin [He Hs]%andb_prop].
  split_and!; [by apply list_elem_of_In|by apply bool_decide_eq_true in He|by apply bool_decide_eq_true in Hs].
Qed.
End methods.
