(* ===== verification/MachineSend.v ===== *)
(** What a send and the firing of a timeout commit, under any middleware that
    leaves the machine to the [next] it is given. *)
From Stdlib Require Import QArith.
From stdpp Require Import gmap.
From S2P Require Import Prelude Leases Json Journal RunState Exits Retry Replay StepBody Checkpoint AsyncRel MachineStorage StateMachine MachineLaws.
Open Scope string_scope.
Open Scope list_scope.
Open Scope Z_scope.

Lemma on_machine_bind {W A B} (m : async W A) (k : A -> async (in_transition W) B) v w :
  a_bind (on_machine m) k (v, w) =
  match m w with
  | (Ret a, w) => k a (v, w)
  | (Throws e, w) => (Throws e, (v, w))
  | (Died, w) => (Died, (v, w))
  end.
Proof. unfold a_bind, on_machine. cbn. by destruct (m w) as [[a|e|] w']. Qed.

Lemma on_machine_world {W A} (m : async W A) v w : (on_machine m (v, w)).2.2 = (m w).2.
Proof. unfold on_machine. cbn. by destruct (m w). Qed.

Lemma get_vars_bind {W B} (k : TransitionVars -> async (in_transition W) B) v w :
  a_bind get_vars k (v, w) = k v (v, w).
Proof. reflexivity. Qed.

Section send.
Context {W : Type} `{SMS : StateMachineStorage W} {host : MachineHost W} {inst : StateMachineInstance W} `{MW : !MachineWorld W host inst}.

Abbreviation drifts := (drift (mw_machines (host := host) (inst := inst)) mw_others).
Abbreviation db := (mw_machines (host := host) (inst := inst)).
Implicit Types (s : in_transition W) (v : TransitionVars) (w : W).

(** What middleware may make of the target, the context and the metadata. *)
Definition vars_ok (Q : string -> json -> json -> Prop) (v : TransitionVars) : Prop :=
  Q (tv_to v) (tv_context v) (tv_metadata v).

(** Middleware rewrites its context within [Q] and reaches the machine through
    [next] only: every relation that allows both is kept by it. *)
Definition polite (mw : MachineMiddleware W) (Q : string -> json -> json -> Prop) : Prop :=
  forall (R : in_transition W -> in_transition W -> Prop), PreOrder R ->
  (forall s s', (vars_ok Q s.1 -> vars_ok Q s'.1) -> tv_committed s'.1 = tv_committed s.1 ->
     tv_from s'.1 = tv_from s.1 -> drifts s.2 s'.2 -> R s s') ->
  forall ctx next, keeps R next -> keeps R (mw ctx next).

Lemma polite_weaken mw (Q Q' : string -> json -> json -> Prop) :
  (forall v v', (vars_ok Q v -> vars_ok Q v') -> vars_ok Q' v -> vars_ok Q' v') ->
  polite mw Q -> polite mw Q'.
Proof using.
  intros Hq Hp R HR Hfree. apply (Hp R HR). intros s s' Hs. apply Hfree. by apply Hq.
Qed.

Lemma polite_compose mws Q : Forall (fun mw => polite mw Q) mws -> polite (composeMachineMiddleware mws) Q.
Proof using.
  intros Hall R HR Hfree ctx next Hnext. induction Hall as [|mw mws Hmw _ IH]; cbn; [done|]. by apply Hmw.
Qed.

Lemma polite_retry policy Q : polite (retryMiddleware host policy) Q.
Proof using MW.
  intros R HR Hfree ctx next Hnext.
  assert (forall v w w', drifts w w' -> R (v, w) (v, w')) as Hw by (intros; by apply Hfree).
  intros s. unfold retryMiddleware, retryAsync. apply loop_keeps; [done| | | |done]; clear s.
  - intros [v w]. pose proof (now_kept (R := drifts) (host := mh_runner host) w). cbn. destruct (rh_now _ w). by apply Hw.
  - intros [v w]. pose proof (random_kept (R := drifts) (host := mh_runner host) w). cbn. destruct (rh_random _ w). by apply Hw.
  - intros d [v w]. unfold on_machine. cbn.
    pose proof (keeps_timer drifts (mh_runner host) d w) as Ht. destruct (timer _ d w). by apply Hw.
Qed.

(** From [s] to [s']: transitions allowed by [P] were committed, none after
    one is noted. *)
Definition transition_run (P : TransitionParams -> Prop) (Q : string -> json -> json -> Prop) s s' : Prop :=
  vars_ok Q s.1 -> vars_ok Q s'.1 /\ tv_from s'.1 = tv_from s.1 /\
  exists l, Forall P l /\ commits mw_others l (db s.2) (db s'.2) /\
    match tv_committed s.1 with
    | Some c => l = [] /\ tv_committed s'.1 = Some c
    | None => forall c, tv_committed s'.1 = Some c -> c ∈ tp_to <$> l
    end.

#[local] Instance transition_run_preorder P Q : PreOrder (transition_run P Q).
Proof using.
  split.
  - intros s Hq. split_and!; [done..|]. exists []. split_and!; [done|constructor; reflexivity|].
    destruct (tv_committed s.1); [done|]. by intros c [=].
  - intros s1 s2 s3 H12 H23 Hq. destruct (H12 Hq) as (Hq2 & Hf2 & l & Hl & Hc & Hn).
    destruct (H23 Hq2) as (Hq3 & Hf3 & l' & Hl' & Hc' & Hn'). split_and!; [done|congruence|].
    exists (l ++ l'). split_and!; [by apply Forall_app|by eapply commits_app; first apply _|].
    destruct (tv_committed s1.1) as [c|].
    + destruct Hn as [-> Hs2]. rewrite Hs2 in Hn'. by destruct Hn' as [-> ->].
    + intros c Hs3. rewrite fmap_app, elem_of_app. destruct (tv_committed s2.1) as [c2|]; [|by right; auto].
      destruct Hn' as [-> Hn']. left. apply Hn. congruence.
Qed.

Section runs.
Context (P : TransitionParams -> Prop) (Q : string -> json -> json -> Prop).

Abbreviation runs := (transition_run P Q).

Lemma quiet_run s s' : (vars_ok Q s.1 -> vars_ok Q s'.1) -> tv_committed s'.1 = tv_committed s.1 ->
  tv_from s'.1 = tv_from s.1 -> drifts s.2 s'.2 -> runs s s'.
Proof using.
  intros Hq Hc Hf Hd H. split_and!; [auto|done|]. exists []. split_and!; [done|by constructor|].
  rewrite Hc. destruct (tv_committed s.1); [done|]. by intros c [=].
Qed.

Lemma on_machine_runs {A} (m : async W A) : keeps drifts m -> keeps runs (on_machine m).
Proof using.
  intros Hm [v w]. specialize (Hm w). unfold on_machine. cbn. destruct (m w) as [o w']. by apply quiet_run.
Qed.

Lemma get_vars_runs : keeps runs get_vars.
Proof using. intros s. cbn. reflexivity. Qed.

(** The save: [moves] at some point, or nothing when it did not resolve. *)
Lemma commit_once_runs onExit id token params :
  keeps drifts onExit -> (forall v, vars_ok Q v -> P (params v)) ->
  keeps runs (commit_once host onExit id token params).
Proof using.
  intros Hexit Hp. unfold commit_once. intros [v w]. rewrite get_vars_bind.
  destruct (tv_committed v) as [c|] eqn:Ec; [cbn; reflexivity|]. rewrite on_machine_bind.
  pose proof (Hexit w) as H1. destruct (onExit w) as [[[]|e|] w1]; cbn [snd] in H1 |- *; try by apply quiet_run.
  rewrite on_machine_bind. pose proof (assertLockHeld_keeps (host := host) (inst := inst) id token w1) as H2.
  destruct (assertLockHeld host id token w1) as [[[]|e|] w2]; cbn [snd] in H2 |- *;
    try (apply quiet_run; [done..|]; by etrans).
  rewrite get_vars_bind, on_machine_bind. destruct (sms_transition (params v) w2) as [o w3] eqn:Et.
  apply transition_law in Et as (x & y & H3 & Hact & H4).
  assert (commits mw_others [params v] (db w) (db w3) \/ (commits mw_others [] (db w) (db w3) /\ o <> Ret tt)) as Hc.
  { assert (mw_others (db w) x) as Hx by (etrans; [exact H1|]; etrans; [exact H2|]; exact H3).
    destruct Hact as [(now & uuid & Hmv)|[-> Hne]].
    - left. eapply CommitsOne; [done..|by constructor].
    - right. split; [|done]. constructor. by etrans. }
  assert (forall v', tv_committed v' = None -> vars_ok Q v' = vars_ok Q v -> tv_from v' = tv_from v -> runs (v, w) (v', w3)) as Hthrow.
  { intros v' Hv' Hq Hf Hok. cbn in *. rewrite Hq. split_and!; [done..|]. rewrite Ec, Hv'.
    destruct Hc as [Hc|[Hc _]]; [exists [params v]|exists []]; (split_and!; [|done|by intros ? [=]]); [|done].
    apply Forall_singleton; auto. }
  destruct o as [[]|e|]; cbn [snd]; [|by apply Hthrow..].
  destruct Hc as [Hc|[_ Hne]]; [|done].
  intros Hok. split_and!; [done..|]. cbn. exists [params v]. split_and!; [|done|].
  - apply Forall_singleton; auto.
  - rewrite Ec. intros c [= <-]. cbn. by left.
Qed.

Lemma executeTransition_runs id token event m data :
  (forall to ctx md, Q to ctx md -> P (mkTransition id (ma_current m) to (ma_revision m) event ctx data md)) ->
  keeps runs (executeTransition host inst id token event m data).
Proof using.
  intros Hp. unfold executeTransition. apply (async_bind runs).
  - apply commit_once_runs; [apply onExit_keeps|]. intros v Hv. by apply Hp.
  - intros _. apply (async_bind runs); [apply get_vars_runs|]. intros v. apply on_machine_runs, onEnter_keeps.
Qed.

Lemma timeout_transition_runs id token event cfg from m :
  P (mkTransition id from (to_target cfg) (ma_revision m) event (ma_context m) JUndef JUndef) ->
  keeps runs (timeout_transition host inst id token event cfg from m).
Proof using.
  intros Hp. unfold timeout_transition. apply (async_bind runs).
  - by apply commit_once_runs; [apply onExit_keeps|].
  - intros _. apply on_machine_runs, onEnter_keeps.
Qed.

Lemma through_middleware_runs ctx next : (forall mw, sm_middleware inst = Some mw -> polite mw Q) ->
  keeps runs next -> keeps runs (through_middleware inst ctx next).
Proof using.
  intros Hmw Hn. unfold through_middleware. destruct (sm_middleware inst) as [mw|] eqn:E; [|done].
  apply (Hmw mw eq_refl runs); [apply _| |done]. intros s s' ????. by apply quiet_run.
Qed.
End runs.

(** ** What a send decides *)

(** Where transition [t] takes machine [m], by the result [r] that a call of
    its action gave. *)
Inductive decides (t : TransitionConfig W) (m : MachineState) (data : json) : string -> json -> Prop :=
| ByHelper action r w w' to c :
    tr_action t = Some action -> action (ma_context m) data w = (Ret r, w') ->
    as_transition_to r = Some (JStr to, c) -> decides t m data to c
| ByResult action r w w' to :
    tr_action t = Some action -> action (ma_context m) data w = (Ret r, w') ->
    as_transition_to r = None -> tr_to t = Some to -> decides t m data to r
| ByDefault to : tr_action t = None -> tr_to t = Some to -> decides t m data to (ma_context m)
| ByError event to e w w' : tr_onError t = Some to -> compute_move host t m event data w = (Throws e, w') ->
    decides t m data to (error_context host (ma_context m) e).

Lemma truthy_str_Some o : truthy_str o = true -> o = Some (opt_or o "").
Proof using. by destruct o. Qed.

Lemma run_action_result t action m data w r w' : run_action host t action m data w = (Ret r, w') ->
  exists w1 w2, action (ma_context m) data w1 = (Ret r, w2).
Proof using.
  unfold run_action. destruct (tr_retry t); [|by eauto]. intros Hr. unfold executeWithRetryReturn, retryAsync in Hr.
  apply loop_result in Hr as (n & w1 & Hr). eauto.
Qed.

Lemma compute_move_decides t m event data w to c w' :
  compute_move host t m event data w = (Ret (JStr to, c), w') -> decides t m data to c.
Proof using.
  unfold compute_move. destruct (tr_action t) as [action|] eqn:Ea.
  - unfold a_bind. destruct (run_action _ _ _ _ _ w) as [[r|e|] w1] eqn:Er; [|done..].
    apply run_action_result in Er as (w2 & w3 & Er).
    destruct (as_transition_to r) as [mv|] eqn:Em; [intros [= -> _]; by eapply ByHelper|].
    destruct (truthy_str (tr_to t)) eqn:Et; [|done]. intros [= <- <- _].
    eapply ByResult; [done..|]. by apply truthy_str_Some.
  - destruct (truthy_str (tr_to t)) eqn:Et; [|done]. intros [= <- <- _].
    apply ByDefault; [done|]. by apply truthy_str_Some.
Qed.

Lemma move_or_error_decides t m event data w to c w' :
  move_or_error host inst t m event data w = (Ret (JStr to, c), w') -> decides t m data to c.
Proof using.
  unfold move_or_error, a_catch. destruct (compute_move host t m event data w) as [[mv|e|] w1] eqn:E.
  - intros [= -> <-]. by eapply compute_move_decides.
  - destruct (truthy_str (tr_onError t) && has_state inst _) eqn:Eb; [|done].
    apply andb_prop in Eb as [Ht _]. intros [= <- <- _]. eapply ByError; [by apply truthy_str_Some|done].
  - done.
Qed.

Lemma registered_target_Ret target w name w' : registered_target host inst target w = (Ret name, w') ->
  target = JStr name /\ is_Some (sm_states inst !! name).
Proof using.
  unfold registered_target. destruct target as [| | | |nm| | |]; try done. destruct (has_state inst nm) eqn:E; [|done].
  intros [= -> _]. by apply bool_decide_eq_true in E.
Qed.

(** The machine passes the checks of a send. *)
Definition admits (m : MachineState) : Prop :=
  (forall code stored, sm_version inst = Some code -> ma_version m = Some stored -> stored = code) /\
  (forall max, some_limit inst li_maxTransitions = Some max -> ma_revision m < max).

Definition guard_passed (t : TransitionConfig W) (m : MachineState) (data : json) : Prop :=
  forall guard, tr_guard t = Some guard -> exists w w', guard (ma_context m) data w = (Ret true, w').

Lemma check_version_Ret m id w w' : check_version inst m id w = (Ret tt, w') ->
  forall code stored, sm_version inst = Some code -> ma_version m = Some stored -> stored = code.
Proof using.
  unfold check_version. intros Hc code stored Hv Hm. rewrite Hv, Hm in Hc. by case_bool_decide.
Qed.

Lemma check_limits_Ret m id w w' : check_limits host inst m id w = (Ret tt, w') ->
  forall max, some_limit inst li_maxTransitions = Some max -> ma_revision m < max.
Proof using.
  unfold check_limits, a_bind. intros Hc max Hm. rewrite Hm in Hc.
  destruct (Z.geb_spec (ma_revision m) max); [done|lia].
Qed.

Lemma check_guard_Ret t m event data w w' : check_guard t m event data w = (Ret tt, w') -> guard_passed t m data.
Proof using.
  unfold check_guard. intros Hc guard Hg. rewrite Hg in Hc. unfold a_bind in Hc.
  destruct (guard (ma_context m) data w) as [[[]|e|] w1] eqn:E; try done. eauto.
Qed.

(** [m] is the row of [id] at a point after [x]. *)
Definition seen (x : MachineDb) (id : string) (m : MachineState) : Prop :=
  exists y, mw_others (MachineWorld := MW) x y /\ md_machines y !! id = Some m.

Lemma load_seen id w o w' : sms_load id w = (o, w') ->
  drifts w w' /\ forall m, o = Ret (Some m) -> seen (db w) id m.
Proof using.
  intros Hl. apply load_law in Hl as (x & y & H1 & [<- Hr] & H2). split; [unfold drift; by etrans|].
  intros m Hm. exists x. by rewrite (Hr _ Hm).
Qed.

Section sending.
Context (allowed : MachineState -> TransitionConfig W -> string -> json -> json -> Prop).
Context (id event : string) (data md : json).
Hypothesis rewrites : forall m t mw, sm_middleware inst = Some mw -> polite mw (allowed m t).
Hypothesis decided : forall m t to c, guard_passed t m data -> decides t m data to c ->
  is_Some (sm_states inst !! to) -> find_transition inst event (ma_current m) = Some t -> allowed m t to c md.

Definition transition_of (m : MachineState) (t : TransitionConfig W) (p : TransitionParams) : Prop :=
  exists to c md', allowed m t to c md' /\
    p = mkTransition id (ma_current m) to (ma_revision m) event c data md'.

(** The commits of one send: of one machine row, by one transition. *)
Definition commits_of_send (x : MachineDb) (l : list TransitionParams) : Prop :=
  l = [] \/
  exists m t, seen x id m /\ find_transition inst event (ma_current m) = Some t /\ admits m /\
    guard_passed t m data /\ Forall (transition_of m t) l.

Definition send_ends (w : W) (r : outcome unit * in_transition W) : Prop :=
  exists l, commits mw_others l (db w) (db r.2.2) /\ commits_of_send (db w) l /\
    (r.1 = Ret tt -> sm_middleware inst = None -> l <> []).

Lemma ends_early w w1 e v : e <> Ret tt -> drifts w w1 -> send_ends w (e, (v, w1)).
Proof using. intros He Hd. exists []. split_and!; [by constructor|by left|cbn; congruence]. Qed.

Lemma executeTransition_commits token m v w v' w' : tv_committed v = None ->
  executeTransition host inst id token event m data (v, w) = (Ret tt, (v', w')) -> tv_committed v' <> None.
Proof using.
  intros Hv. unfold executeTransition, commit_once.
  assert (forall (v1 : TransitionVars) w1 (r : outcome unit), tv_committed v1 <> None ->
    on_machine (run_hook inst sc_onEnter (opt_or (tv_committed v1) "") (tv_context v1) data) (v1, w1) = (r, (v', w')) ->
    tv_committed v' <> None) as Henter.
  { intros v1 w1 r H1 H2. unfold on_machine in H2. cbn in H2. destruct (run_hook _ _ _ _ _ w1). congruence. }
  unfold a_bind at 1. rewrite get_vars_bind, Hv, on_machine_bind.
  destruct (run_hook _ _ _ _ _ w) as [[[]|?|] w1]; [|done..].
  rewrite on_machine_bind. destruct (assertLockHeld _ _ _ w1) as [[[]|?|] w2]; [|done..].
  rewrite get_vars_bind, on_machine_bind. destruct (sms_transition _ w2) as [[[]|?|] w3]; [|done..].
  cbn [put_vars]. rewrite get_vars_bind. by apply Henter.
Qed.

Ltac early := first [apply ends_early; [done|]; by repeat (etrans; [eassumption|])].
Ltac call Hk E :=
  rewrite on_machine_bind;
  match goal with |- context [match ?m ?w with _ => _ end] =>
    let H := fresh "Hd" in pose proof Hk as H; specialize (H w);
    destruct (m w) as [[?|?|] ?] eqn:E; cbn [snd] in H; try (apply ends_early; [done|]; by repeat (etrans; [eassumption|]))
  end.

Lemma send_locked_ends token v w : tv_committed v = None ->
  send_ends w (send_locked host inst id token event data md (v, w)).
Proof using rewrites decided.
  intros Hv. unfold send_locked. rewrite on_machine_bind.
  destruct (sms_load id w) as [o w1] eqn:El. apply load_seen in El as [Hd1 Hseen].
  destruct o as [[m|]|e|]; [|by apply ends_early..]. specialize (Hseen m eq_refl).
  call (check_version_keeps (host := host) m id) E2. call (check_limits_keeps m id) E3.
  match goal with a : unit |- _ => destruct a end. match goal with a : unit |- _ => destruct a end.
  pose proof (check_version_Ret _ _ _ _ E2) as Hver. pose proof (check_limits_Ret _ _ _ _ E3) as Hlim.
  unfold a_bind at 1. cbn [put_vars]. cbn [snd].
  destruct (find_transition inst event (ma_current m)) as [t|] eqn:Ef; [|early].
  pose proof (find_transition_elem _ _ _ Ef) as (Hin & _ & Hfrom).
  call (check_guard_keeps (host := host) t m event data Hin) E4. match goal with a : unit |- _ => destruct a end.
  apply check_guard_Ret in E4.
  call (move_or_error_keeps t m event data Hin) E5. destruct a as [target c].
  cbn [fst snd]. call (registered_target_keeps target) E6. apply registered_target_Ret in E6 as [-> Hreg].
  apply move_or_error_decides in E5. cbn [fst snd] in *. unfold a_bind at 1. cbn [put_vars]. cbn [snd].
  pose proof (through_middleware_runs (transition_of m t) (allowed m t)
    (mkTransitionContext id (sm_name inst) event (ma_current m) data) (executeTransition host inst id token event m data)
    (rewrites m t) ltac:(apply executeTransition_runs; intros to ctx md' Ha; by exists to, ctx, md')
    (mkVars a c md (Some (ma_current m)) None, w5)) as Hrun.
  destruct Hrun as (_ & _ & l & Hl & Hc & Hn); [cbn; by apply decided|].
  exists l. cbn [fst snd tv_committed] in *. split_and!.
  - eapply commits_before; [apply _| |exact Hc]. change (drifts w w5). by repeat (etrans; [eassumption|]).
  - right. exists m, t. by split_and!.
  - intros Hr Hno -> . unfold through_middleware in *. rewrite Hno in *.
    destruct (executeTransition _ _ _ _ _ _ _ (_, w5)) as [o [v' w']] eqn:Ex. cbn [fst snd] in *. subst o.
    apply executeTransition_commits in Ex; [|done]. destruct (tv_committed v') as [c'|]; [|done].
    specialize (Hn c' eq_refl). by apply not_elem_of_nil in Hn.
Qed.

End sending.

(** Cleanup that only drifts: a result is the body's. *)
Lemma finally_keeps {A} (m : async (in_transition W) A) (f : async (in_transition W) unit) s r s' :
  a_finally m f s = (r, s') -> (forall s1, drifts s1.2 (f s1).2.2) ->
  exists o s1, m s = (o, s1) /\ drifts s1.2 s'.2 /\ (forall a, r = Ret a -> o = Ret a).
Proof using.
  unfold a_finally. intros Hf Hd. destruct (m s) as [o s1] eqn:E. exists o, s1. split; [done|].
  specialize (Hd s1). destruct o as [a|e|];
    [destruct (f s1) as [[[]|e'|] s2]; injection Hf as <- <-; cbn in Hd; by split..|].
  injection Hf as <- <-. by split.
Qed.

(** The payload a send hands on. *)
Definition payload (event : string) (data data' : json) : Prop :=
  match sm_strictSchemas inst with
  | Some schemas => from_option (fun parse => parse data = Ok data') (data' = data) (alist_get event schemas)
  | None => data' = data
  end.

Lemma strict_data_Ret event data w data' w' :
  strict_data inst event data w = (Ret data', w') -> payload event data data'.
Proof using.
  unfold strict_data, payload. destruct (sm_strictSchemas inst) as [schemas|]; [|by intros [= <-]].
  destruct (alist_get event schemas) as [parse|]; cbn; [destruct (parse data); [by intros [= <-]|done]|].
  case_match; [done|by intros [= <-]].
Qed.

Section send_method.
Context (allowed : json -> MachineState -> TransitionConfig W -> string -> json -> json -> Prop).
Context (id event : string) (data md : json).
Hypothesis rewrites : forall data' m t mw, sm_middleware inst = Some mw -> polite mw (allowed data' m t).
Hypothesis decided : forall data' m t to c, payload event data data' -> guard_passed t m data' ->
  decides t m data' to c -> is_Some (sm_states inst !! to) ->
  find_transition inst event (ma_current m) = Some t -> allowed data' m t to c md.

Lemma send_commits w o w' : send host inst id event data md w = (o, w') ->
  exists l, commits mw_others l (db w) (db w') /\
    (l = [] \/ exists data', payload event data data' /\ commits_of_send (allowed data') id event data' (db w) l) /\
    (o = Ret tt -> sm_middleware inst = None -> l <> []).
Proof using decided rewrites.
  unfold send, a_bind at 1. intros Hsend.
  assert (forall w1 (o1 : outcome unit), drifts w w1 -> o1 <> Ret tt -> (o1, w1) = (o, w') -> exists l, commits mw_others l (db w) (db w') /\
    (l = [] \/ exists data', payload event data data' /\ commits_of_send (allowed data') id event data' (db w) l) /\
    (o = Ret tt -> sm_middleware inst = None -> l <> [])) as Hearly.
  { intros w1 o1 Hd Ho [= <- <-]. exists []. split_and!; [by constructor|by left|by intros Hr; destruct (Ho Hr)]. }
  pose proof (strict_data_keeps (host := host) event data w) as Hd1.
  destruct (strict_data inst event data w) as [[data'|e|] w1] eqn:Es; cbn [snd] in Hd1; [|eapply Hearly; [exact Hd1| |exact Hsend]; done..].
  apply strict_data_Ret in Es. unfold a_bind in Hsend at 1.
  pose proof (acquireLock_keeps (inst := inst) id w1) as Hd2.
  destruct (acquireLock host id w1) as [[[token|]|e|] w2]; cbn [snd] in Hd2; [|eapply (Hearly w2); [by etrans| |exact Hsend]; done..].
  match type of Hsend with context [a_finally ?m ?f ?s] => destruct (a_finally m f s) as [o' [v' w3]] eqn:Ef end.
  injection Hsend as -> ->.
  apply finally_keeps in Ef as (o1 & [v1 w4] & Eb & Hd3 & Hret).
  - pose proof (send_locked_ends (allowed data') id event data' md (rewrites data') ltac:(intros; by apply decided)
      token no_vars w2 eq_refl) as (l & Hc & Hl & Hne).
    rewrite Eb in Hc, Hne. cbn [fst snd] in *. exists l. split_and!.
    + assert (mw_others (db w) (db w2)) as Hd by (change (drifts w w2); by etrans).
      rewrite <- (app_nil_r l). eapply commits_app; [apply _| |by constructor].
      by eapply commits_before; [apply _| |].
    + right. exists data'. split; [done|]. destruct Hl as [->|(m & t & (y & Hy & Hm) & Hl)]; [by left|right].
      exists m, t. split; [|done]. exists y. split; [|exact Hm]. etrans; [|exact Hy]. change (drifts w w2). by etrans.
    + intros Ho Hno. by apply Hne; [apply Hret|].
  - intros [v1 w4]. rewrite get_vars_bind, on_machine_bind.
    pose proof (settleTimeoutAfterSend_keeps (host := host) (inst := inst) id (tv_from v1) (tv_committed v1)
      (pt_dueAtMs <$> iv_timers (mh_vars host w2) !! id) w4) as H4.
    destruct (settleTimeoutAfterSend _ _ _ _ _ _ w4) as [[[]|e|] w5]; cbn [snd] in *; [|done..].
    rewrite on_machine_world. etrans; [exact H4|]. apply (release_held_keeps (inst := inst)).
Qed.
End send_method.

(** ** The firing of a timeout *)
Definition fired (id from : string) (cfg : TimeoutConfig W) (m : MachineState) : TransitionParams :=
  mkTransition id from (to_target cfg) (ma_revision m) (opt_or (to_event cfg) TIMEOUT_EVENT) (ma_context m) JUndef JUndef.

Definition commits_of_timeout (x : MachineDb) (id from : string) (cfg : TimeoutConfig W) (l : list TransitionParams) : Prop :=
  l = [] \/
  exists m, seen x id m /\ ma_current m = from /\ is_Some (sm_states inst !! to_target cfg) /\
    (forall guard, to_guard cfg = Some guard -> exists w1 w2, guard (ma_context m) w1 = (Ret true, w2)) /\
    Forall (fun p => p = fired id from cfg m) l.

Lemma state_timeout_config from cfg : state_timeout inst from = Some cfg ->
  exists config, sm_states inst !! from = Some config /\ sc_timeout config = Some cfg.
Proof using. unfold state_timeout. intros H. by apply bind_Some in H. Qed.

Lemma fire_locked_commits id token from cfg v w : state_timeout inst from = Some cfg ->
  (forall mw, sm_middleware inst = Some mw -> polite mw (fun _ _ _ => True)) ->
  exists l, commits mw_others l (db w) (db (fire_locked host inst id token from cfg (v, w)).2.2) /\
    commits_of_timeout (db w) id from cfg l.
Proof using.
  intros Hcfg Hmw. pose proof (state_timeout_config _ _ Hcfg) as (config & Hst & Hto).
  assert (forall w1 (r : outcome bool * in_transition W), drifts w r.2.2 -> exists l,
    commits mw_others l (db w) (db r.2.2) /\ commits_of_timeout (db w) id from cfg l) as Hquiet.
  { intros _ r Hd. exists []. split; [by constructor|by left]. }
  unfold fire_locked. rewrite on_machine_bind. destruct (sms_load id w) as [o w1] eqn:El.
  apply load_seen in El as [Hd1 Hseen]. destruct o as [[m|]|e|]; [|by apply (Hquiet w)..].
  specialize (Hseen m eq_refl). case_bool_decide as Hcur; [|by apply (Hquiet w)].
  cbn [negb]. unfold a_bind at 1.
  assert (exists r w2, match to_guard cfg with Some guard => on_machine (guard (ma_context m)) | None => a_ret true end (v, w1) =
    (r, (v, w2)) /\ drifts w1 w2 /\ (r = Ret true -> forall guard, to_guard cfg = Some guard ->
      exists w3 w4, guard (ma_context m) w3 = (Ret true, w4))) as (r & w2 & -> & Hd2 & Hg).
  { destruct (to_guard cfg) as [guard|] eqn:Eg; [|exists (Ret true), w1; by split_and!].
    pose proof (user_law _ _ (UserTimeout inst from config cfg guard (ma_context m) Hst Hto Eg) w1) as Hu.
    unfold on_machine. cbn [fst snd]. destruct (guard (ma_context m) w1) as [r w2] eqn:E.
    exists r, w2. split_and!; [done..|]. intros -> g [= <-]. eauto. }
  destruct r as [[]|e|]; [|apply (Hquiet w); by etrans..]. cbn [negb].
  destruct (has_state inst (to_target cfg)) eqn:Ehas; cbn [negb]; [|apply (Hquiet w); by etrans].
  apply bool_decide_eq_true in Ehas. unfold a_bind at 1. cbn [put_vars]. cbn [snd].
  pose proof (through_middleware_runs (fun p => p = fired id from cfg m) (fun _ _ _ => True)
    (mkTransitionContext id (sm_name inst) (opt_or (to_event cfg) TIMEOUT_EVENT) from JUndef)
    (timeout_transition host inst id token (opt_or (to_event cfg) TIMEOUT_EVENT) cfg from m)
    Hmw ltac:(by apply timeout_transition_runs)) as Hrun.
  match goal with |- context [a_finally ?body ?f] => set (b := body) in *; set (cleanup := f) end.
  set (v0 := mkVars (to_target cfg) (ma_context m) JUndef (Some from) None).
  destruct (Hrun (v0, w2)) as (_ & _ & l & Hl & Hc & _); [done|]. exists l. split.
  - assert (mw_others (db w) (db w2)) as Hd by (change (drifts w w2); by etrans).
    rewrite <- (app_nil_r l). eapply commits_app; [apply _|by eapply commits_before; [apply _| |]|].
    constructor. cbn [fst snd] in *. unfold a_bind. destruct (a_finally b cleanup (v0, w2)) as [r s'] eqn:Ef.
    apply finally_keeps in Ef as (o1 & s1 & Eb & Hd3 & _).
    + rewrite Eb. cbn [snd]. destruct r; exact Hd3.
    + intros [v1 w4]. unfold cleanup. rewrite get_vars_bind. destruct (tv_committed v1); [|cbn; reflexivity].
      rewrite on_machine_bind. pose proof (cancelTimeout_keeps (inst := inst) id w4) as H4.
      destruct (cancelTimeout host id w4) as [[[]|e|] w5]; cbn [snd] in *; [|done..].
      rewrite on_machine_world. etrans; [exact H4|]. apply scheduleTimeoutIfAny_keeps.
  - right. exists m. split_and!; try done. auto.
Qed.

Lemma fireTimeout_commits id from w o w' :
  (forall mw, sm_middleware inst = Some mw -> polite mw (fun _ _ _ => True)) ->
  fireTimeout host inst id from w = (o, w') ->
  exists l, commits mw_others l (db w) (db w') /\
    (l = [] \/ exists cfg, state_timeout inst from = Some cfg /\ commits_of_timeout (db w) id from cfg l).
Proof using.
  intros Hmw. unfold fireTimeout. assert (forall w1, drifts w w1 -> exists l,
    commits mw_others l (db w) (db w1) /\ (l = [] \/ exists cfg, state_timeout inst from = Some cfg /\
      commits_of_timeout (db w) id from cfg l)) as Hquiet.
  { intros w1 Hd. exists []. split; [by constructor|by left]. }
  destruct (state_timeout inst from) as [cfg|] eqn:Ecfg; [|intros [= <- <-]; by apply Hquiet].
  unfold a_bind. pose proof (acquireLock_keeps (inst := inst) id w) as Hd1.
  destruct (acquireLock host id w) as [[[token|]|e|] w1]; cbn [snd] in Hd1; [|intros [= <- <-]; by apply Hquiet..].
  match goal with |- context [a_finally ?m ?f ?s] => destruct (a_finally m f s) as [o' [v' w2]] eqn:Ef end.
  intros [= <- <-]. apply finally_keeps in Ef as (o1 & [v1 w4] & Eb & Hd3 & _).
  - destruct (fire_locked_commits id token from cfg no_vars w1 Ecfg Hmw) as (l & Hc & Hl). rewrite Eb in Hc.
    exists l. split.
    + rewrite <- (app_nil_r l). eapply commits_app; [apply _| |by constructor].
      by eapply commits_before; [apply _| |].
    + right. exists cfg. split; [done|]. destruct Hl as [->|(m & (y & Hy & Hm) & Hl)]; [by left|right].
      exists m. split; [|done]. exists y. split; [|exact Hm]. by etrans.
  - intros [v2 w5]. rewrite on_machine_world. apply (release_held_keeps (inst := inst)).
Qed.
End send.
