(* ===== verification/MachineTypes.v ===== *)
(** The two contracts of a state machine instance: a send commits at most one
    transition, the one its definition decides for the row it read; and the
    context of every stored machine has the type its state declares. *)
From Stdlib Require Import QArith.
From stdpp Require Import gmap.
From S2P Require Import Prelude Leases Json Journal RunState Exits Retry Replay StepBody Checkpoint AsyncRel MachineStorage StateMachine MachineLaws MachineSend.
Open Scope string_scope.
Open Scope list_scope.
Open Scope Z_scope.

(** ** One send, one transition *)

(** A commit of a send of [event]: the transition that the definition decides
    for the row [m], seen after [x], that admits it. *)
Inductive sent {W} `{SMS : StateMachineStorage W} {host inst} `{!MachineWorld W host inst}
    (x : MachineDb) (id event : string) (data md : json) : TransitionParams -> Prop :=
| Sent data' m t to c :
    payload (inst := inst) event data data' -> seen (host := host) (inst := inst) x id m ->
    find_transition inst event (ma_current m) = Some t -> admits (inst := inst) m ->
    guard_passed t m data' -> decides (host := host) t m data' to c -> is_Some (sm_states inst !! to) ->
    sent x id event data md (mkTransition id (ma_current m) to (ma_revision m) event c data' md).

(** C20. A send commits at most one transition, whatever other senders, timers
    and processes do at each of its calls, also when answers of the storage
    are lost and under middleware that runs it again: the compare-and-set of
    the row it read, to the registered state and the context that its
    definition decides (the action's result, the default target, or the error
    state of an action that failed), once the guard and the limits let it
    pass. Without middleware a send that resolves committed one. The
    middleware may not rewrite what is sent, and no one else may take the
    revision of a machine back. *)
Theorem send_commits_once {W} `{SMS : StateMachineStorage W} {host inst} `{MW : !MachineWorld W host inst}
    id event data md w o w' :
  (forall x y, mw_others (MachineWorld := MW) x y -> onward x y) ->
  (forall mw Q, sm_middleware inst = Some mw -> polite (host := host) (inst := inst) mw Q) ->
  send host inst id event data md w = (o, w') ->
  let db := mw_machines (MachineWorld := MW) in
  exists l, commits mw_others l (db w) (db w') /\ (length l <= 1)%nat /\
    Forall (sent (host := host) (inst := inst) (db w) id event data md) l /\
    (o = Ret tt -> sm_middleware inst = None -> length l = 1%nat).
Proof.
  intros Hon Hmw Hsend db.
  destruct (send_commits (fun data' m t to c md' => guard_passed t m data' /\
      decides (host := host) t m data' to c /\ is_Some (sm_states inst !! to) /\ md' = md)
      id event data md ltac:(by eauto) ltac:(by eauto) w o w' Hsend) as (l & Hc & Hl & Hret).
  exists l. split; [done|].
  assert ((length l <= 1)%nat /\ Forall (sent (host := host) (inst := inst) (db w) id event data md) l) as [H1 H2].
  { destruct Hl as [->|(data' & Hp & [->|(m & t & Hseen & Hf & Ha & Hg & Hl)])];
      [split; [cbn; lia|by apply Forall_nil]..|split].
    - eapply (commits_at_most_once _ id (ma_revision m)); [exact Hon| |exact Hc]. eapply Forall_impl; [exact Hl|].
      intros p (to & c & md' & _ & ->). split; reflexivity.
    - eapply Forall_impl; [exact Hl|]. intros p (to & c & md' & (Hg' & Hd & Hs & ->) & ->). by eapply Sent. }
  split_and!; [done..|]. intros Ho Hno. specialize (Hret Ho Hno). destruct l as [|p [|? ?]]; [done..|cbn in H1; lia].
Qed.

(** ** Context types *)
Inductive MachineOp : Type :=
| OStart (id : string) (context : json) (md : option metadata)
| OSend (id event : string) (data md : json)
| OTimer (id state : string) (handle : Z)
| OCheck (id : string)
| ORestore (id : string) (snapshot : MachineSnapshot) (md : option metadata)
| OBeat (id token : string)
| OCancelAll.

Definition machine_op {W} `{StateMachineStorage W} (host : MachineHost W) (inst : StateMachineInstance W)
    (op : MachineOp) (w : W) : W :=
  match op with
  | OStart id context md => (start host inst id context md w).2
  | OSend id event data md => (send host inst id event data md w).2
  | OTimer id state handle => (timeout_callback host inst id state handle w).2
  | OCheck id => (checkTimeouts host inst id w).2
  | ORestore id snapshot md => (restore inst id snapshot md w).2
  | OBeat id token => (heartbeat host id token w).2
  | OCancelAll => (cancelAllTimeouts host w).2
  end.

(** [T s c]: [c] is a context of state [s]; [D e d]: [d] is a payload of [e]. *)
Definition db_typed (T : string -> json -> Prop) (d : MachineDb) : Prop :=
  forall id m, md_machines d !! id = Some m -> T (ma_current m) (ma_context m).

Section types.
Context {W : Type} `{SMS : StateMachineStorage W} {host : MachineHost W} {inst : StateMachineInstance W} `{MW : !MachineWorld W host inst}.
Context (T D : string -> json -> Prop).

Abbreviation registered s := (is_Some (sm_states inst !! s)).

(** The types a builder declares, [ContextOf] and [EventData]: actions,
    error routes and timeouts of the definition respect them. *)
Class WellTyped : Prop := {
  typed_action t action from c data r w w' :
    t ∈ sm_transitions inst -> tr_action t = Some action -> from ∈ tr_from t -> T from c -> D (tr_event t) data ->
    action c data w = (Ret r, w') ->
    match as_transition_to r with
    | Some (JStr to, c') => registered to -> T to c'
    | Some _ => True
    | None => forall to, tr_to t = Some to -> registered to -> T to r
    end;
  typed_default t from to c : t ∈ sm_transitions inst -> tr_action t = None -> tr_to t = Some to ->
    from ∈ tr_from t -> T from c -> registered to -> T to c;
  typed_error t from to c e : t ∈ sm_transitions inst -> tr_onError t = Some to -> from ∈ tr_from t -> T from c ->
    registered to -> T to (error_context host c e);
  typed_timeout s cfg c : state_timeout inst s = Some cfg -> T s c -> registered (to_target cfg) -> T (to_target cfg) c;
  typed_middleware mw : sm_middleware inst = Some mw -> polite (host := host) (inst := inst) mw (fun to c _ => T to c);
  typed_schema schemas event parse data data' : sm_strictSchemas inst = Some schemas ->
    alist_get event schemas = Some parse -> parse data = Ok data' -> D event data';
  typed_others x y : mw_others (MachineWorld := MW) x y -> db_typed T x -> db_typed T y;
}.

Definition op_typed (op : MachineOp) : Prop :=
  match op with
  | OStart _ context _ => T (sm_initialState inst) context
  | OSend _ event data _ =>
      match sm_strictSchemas inst ≫= alist_get event with Some _ => True | None => D event data end
  | ORestore _ snapshot _ => T (sn_current snapshot) (sn_context snapshot)
  | _ => True
  end.

Context `{HT : WellTyped}.

Abbreviation db := (mw_machines (MachineWorld := MW)).

Lemma typed_commits (P : TransitionParams -> Prop) l x y :
  (forall p, P p -> T (tp_to p) (tp_context p)) -> commits mw_others l x y -> Forall P l -> db_typed T x -> db_typed T y.
Proof using HT.
  intros HP. apply commits_keep; [by apply typed_others|].
  intros now uuid p a b Hp [m Hm _ _ ->] Ha id m'. cbn. destruct (decide (tp_id p = id)) as [<-|Hne].
  - rewrite lookup_insert_eq. intros [= <-]. by apply HP.
  - rewrite lookup_insert_ne by done. apply Ha.
Qed.

Lemma seen_typed x id m : db_typed T x -> seen (host := host) (inst := inst) x id m -> T (ma_current m) (ma_context m).
Proof using HT. intros Hx (y & Hy & Hm). eapply typed_others; done. Qed.

Lemma create_typed p w : T (cm_initial p) (cm_context p) -> db_typed T (db w) -> db_typed T (db (sms_create p w).2).
Proof using HT.
  intros Hp Hw. destruct (sms_create p w) as [o w'] eqn:E.
  apply (create_law (host := host) (inst := inst)) in E as (x & y & H1 & Hact & H2).
  eapply typed_others; [exact H2|]. eapply typed_others in Hw; [|exact H1].
  destruct Hact as [(now & ->)|[-> _]]; [|done]. intros id m. cbn.
  destruct (decide (cm_id p = id)) as [<-|Hne]; [|by rewrite lookup_insert_ne by done; eauto].
  rewrite lookup_insert_eq. by intros [= <-].
Qed.

Lemma drift_typed {A} (m : async W A) w : keeps (drift db mw_others) m -> db_typed T (db w) -> db_typed T (db (m w).2).
Proof using HT. intros Hm. by apply typed_others, Hm. Qed.

Lemma decides_typed t m data event to c : find_transition inst event (ma_current m) = Some t ->
  T (ma_current m) (ma_context m) -> D event data -> decides (host := host) t m data to c -> registered to -> T to c.
Proof using HT.
  intros Hf Ht Hd Hdec Hto. apply find_transition_elem in Hf as (Hin & <- & Hfrom). destruct Hdec.
  - pose proof (typed_action _ _ _ _ _ _ _ _ Hin H Hfrom Ht Hd H0) as Ha. rewrite H1 in Ha. auto.
  - pose proof (typed_action _ _ _ _ _ _ _ _ Hin H Hfrom Ht Hd H0) as Ha. rewrite H1 in Ha. auto.
  - by eapply typed_default.
  - by eapply typed_error.
Qed.

Lemma polite_any mw : sm_middleware inst = Some mw -> polite (host := host) (inst := inst) mw (fun _ _ _ => True).
Proof using HT. intros Hm. eapply polite_weaken; [|by apply typed_middleware]. done. Qed.

Lemma fireTimeout_typed id from w : db_typed T (db w) -> db_typed T (db (fireTimeout host inst id from w).2).
Proof using HT.
  intros Hw. destruct (fireTimeout host inst id from w) as [o w'] eqn:E.
  apply fireTimeout_commits in E as (l & Hc & Hl); [|by apply polite_any].
  eapply (typed_commits (fun p => T (tp_to p) (tp_context p))); [done|exact Hc| |done].
  destruct Hl as [->|(cfg & Hcfg & [->|(m & Hseen & <- & Hto & _ & Hl)])]; [by apply Forall_nil..|].
  eapply Forall_impl; [exact Hl|]. intros p ->. cbn. eapply typed_timeout; [done| |done]. by eapply seen_typed.
Qed.

Lemma send_typed id event data md w : op_typed (OSend id event data md) -> db_typed T (db w) ->
  db_typed T (db (send host inst id event data md w).2).
Proof using HT.
  intros Hop Hw. destruct (send host inst id event data md w) as [o w'] eqn:E.
  apply (send_commits (fun data' m t to c _ => D event data' -> T (ma_current m) (ma_context m) -> T to c)) in E
    as (l & Hc & Hl & _).
  - eapply (typed_commits (fun p => T (tp_to p) (tp_context p))); [done|exact Hc| |done].
    destruct Hl as [->|(data' & Hp & [->|(m & t & Hseen & Hf & _ & _ & Hl)])]; [by apply Forall_nil..|].
    eapply Forall_impl; [exact Hl|]. intros p (to & c & md' & Hal & ->). cbn. apply Hal; [|by eapply seen_typed].
    unfold payload in Hp. cbn in Hop. destruct (sm_strictSchemas inst) as [schemas|] eqn:Es; cbn in *; [|by subst].
    destruct (alist_get event schemas) as [parse|] eqn:Ep; cbn in *; [by eapply typed_schema|by subst].
  - intros data' m t mw Hmw. eapply polite_weaken; [|by apply typed_middleware].
    unfold vars_ok. intros v v' Hv H1 Hd Ht. auto.
  - intros data' m t to c Hp Hg Hdec Hto Hf Hd Ht. by eapply decides_typed.
Qed.

Lemma op_keeps_types op w : op_typed op -> db_typed T (db w) -> db_typed T (db (machine_op host inst op w)).
Proof using HT.
  intros Hop Hw. destruct op as [id context md|id event data md|id st handle|id|id snapshot md|id token|]; cbn [machine_op].
  - unfold start, a_bind. destruct (sms_load id w) as [o w1] eqn:El.
    apply (load_seen (host := host) (inst := inst)) in El as [Hd _]. apply (typed_others _ _ Hd) in Hw.
    destruct o as [[m|]|e|]; [done| |done..].
    match goal with |- context [sms_create ?p w1] => pose proof (create_typed p w1 Hop Hw) as Hc;
      destruct (sms_create p w1) as [[[]|e|] w2] end; [|exact Hc..].
    apply drift_typed; [apply scheduleTimeoutIfAny_keeps|exact Hc].
  - by apply send_typed.
  - unfold timeout_callback, instance_vars. unfold a_bind at 1. unfold a_bind at 1.
    assert (keeps (drift db mw_others) (if bool_decide (pt_handle <$> iv_timers (mh_vars host w) !! id = Some handle)
      then put_timers host (delete id (iv_timers (mh_vars host w))) else a_ret tt)) as Hk by machine_keep.
    pose proof (drift_typed _ w Hk Hw) as Hw1. match goal with |- context [match ?b w with _ => _ end] => destruct (b w) as [[[]|e|] w1] end;
      cbn [snd] in *; [|done..].
    unfold a_catch, a_bind. pose proof (fireTimeout_typed id st w1 Hw1) as Hf.
    destruct (fireTimeout host inst id st w1) as [[b|e|] w2]; exact Hf.
  - unfold checkTimeouts, a_bind. destruct (sms_load id w) as [o w1] eqn:El.
    apply (load_seen (host := host) (inst := inst)) in El as [Hd _]. apply (typed_others _ _ Hd) in Hw.
    destruct o as [[m|]|e|]; [|done..]. destruct (state_timeout inst (ma_current m)); [|done].
    pose proof (drift_typed (clock host) w1 ltac:(machine_keep) Hw) as Hw1.
    destruct (clock host w1) as [[now|e|] w2]; cbn [snd] in *; [|done..].
    case_match; [done|by apply fireTimeout_typed].
  - unfold restore, a_bind. destruct (sms_load id w) as [o w1] eqn:El.
    apply (load_seen (host := host) (inst := inst)) in El as [Hd _]. apply (typed_others _ _ Hd) in Hw.
    destruct o as [[m|]|e|]; [done|by apply create_typed|done..].
  - apply drift_typed; [apply (heartbeat_keeps (inst := inst))|done].
  - apply drift_typed; [apply (cancelAllTimeouts_keeps (inst := inst))|done].
Qed.
End types.

(** C21. Subject reduction for state machines. Let actions, error routes and
    timeouts take a context of the type of the state they leave to one of the
    state they name, middleware rewrite within these types, schemas parse
    payloads of their events, and everyone else keep the machines typed. Then
    from typed machines every method called with typed arguments, under any
    interleaving, also when it fails half-way or its process dies, leaves
    each stored machine with a context of its state's type. Only targets that
    are registered states have to be looked at: the checks of the code
    refuse any other. *)
Theorem machines_stay_typed {W} `{SMS : StateMachineStorage W} {host inst} `{MW : !MachineWorld W host inst}
    (T D : string -> json -> Prop) ops w :
  WellTyped (host := host) (inst := inst) T D -> Forall (op_typed (inst := inst) T D) ops ->
  db_typed T (mw_machines (MachineWorld := MW) w) ->
  db_typed T (mw_machines (MachineWorld := MW) (foldl (fun w op => machine_op host inst op w) w ops)).
Proof.
  intros HT Hops. revert w. induction Hops as [|op ops Hop Hops IH]; intros w Hw; cbn [foldl]; [done|].
  by apply IH, (op_keeps_types T D).
Qed.
