(* ===== verification/MachineMemory.v ===== *)
(** The in-memory machine storage as a world for instances, shared with other
    senders whose calls arrive between the calls of a method; runs of a
    machine and the witnesses of its contracts. *)
From Stdlib Require Import QArith.
From stdpp Require Import gmap.
From S2P Require Import Prelude Leases Json Journal RunState Exits Retry Replay StepBody Checkpoint AsyncRel MachineStorage StateMachine MachineLaws MachineSend MachineTypes.
Open Scope string_scope.
Open Scope list_scope.
Open Scope Z_scope.

(** [mm_script]: what the others call before each call of ours. *)
Record MachineMemory : Type := mkMachineMemory {
  mm_db : MachineDb;
  mm_vars : InstanceVars;
  mm_now : Z;
  mm_drawn : nat;  (** UUIDs and timer handles drawn *)
  mm_script : list (list MachineCall);
}.

Definition mm_uuid (n : nat) : string := "uuid" +:+ str_of_Z (Z.of_nat n).

Definition with_db (d : MachineDb) (w : MachineMemory) : MachineMemory :=
  mkMachineMemory d (mm_vars w) (mm_now w + 1) (Datatypes.S (mm_drawn w)) (mm_script w).

Section memory.
Context (permitted : MachineCall -> bool).

(** The others' next calls, those of them that the world permits. *)
Definition interfere (w : MachineMemory) : MachineMemory :=
  match mm_script w with
  | [] => w
  | calls :: script =>
      mkMachineMemory (foldl (fun d c => if permitted c then machine_call (mm_now w) c d else d) (mm_db w) calls)
        (mm_vars w) (mm_now w) (mm_drawn w) script
  end.

Definition memory_method {A} (f : Z -> string -> MachineDb -> outcome A * MachineDb) : async MachineMemory A := fun w =>
  let w := interfere w in
  let '(o, d) := f (mm_now w) (mm_uuid (mm_drawn w)) (mm_db w) in
  (o, with_db d w).

Definition of_res {A} (r : res thrown A * MachineDb) : outcome A * MachineDb :=
  (match r.1 with Ok a => Ret a | Err e => Throws e end, r.2).

#[local] Instance memory_machine_storage : StateMachineStorage MachineMemory := {|
  sms_create p := memory_method (fun now _ d => (Ret tt, createMachine now p d));
  sms_load id := memory_method (fun _ _ d => (Ret (loadMachine id d), d));
  sms_transition p := memory_method (fun now uuid d => of_res (transition now uuid p d));
  sms_loadEvents id limit offset := memory_method (fun _ _ d => (Ret (loadEvents id limit offset d), d));
  sms_tryLock id ms := memory_method (fun now uuid d => let '(t, d) := tryLock now uuid id ms d in (Ret t, d));
  sms_releaseLock id token := memory_method (fun _ _ d => (Ret tt, releaseLock id token d));
  sms_extendLock id token ms := memory_method (fun now _ d => let '(b, d) := extendLock now id token ms d in (Ret b, d));
|}.

Definition memory_runner : RunnerHost MachineMemory :=
  mkRunnerHost _ (fun w => (mm_now w, w)) (fun w => ((1 # 2)%Q, w)) (fun _ w => (true, w)) (fun _ w => (false, w))
    (fun tag fields => mkError tag (Some tag) tag (match prop "message" fields with JStr m => m | _ => "" end) fields)
    (fun _ => "").

Definition memory_machine_host : MachineHost MachineMemory :=
  mkMachineHost memory_runner mm_vars
    (fun v w => mkMachineMemory (mm_db w) v (mm_now w) (mm_drawn w) (mm_script w))
    (fun _ _ _ w => (Z.of_nat (mm_drawn w), with_db (mm_db w) w))
    (fun _ w => w) (fun _ _ _ w => w) (fun _ w => w).

(** One step of anyone: lock traffic, or a permitted call. *)
Definition other_step (a b : MachineDb) : Prop :=
  same_machines a b \/ exists now c, permitted c = true /\ b = machine_call now c a.

Definition others_steps : MachineDb -> MachineDb -> Prop := rtc other_step.

Lemma interfere_steps w : others_steps (mm_db w) (mm_db (interfere w)).
Proof.
  unfold interfere. destruct (mm_script w) as [|calls script]; [reflexivity|]. cbn [mm_db].
  generalize (mm_db w). induction calls as [|c calls IH]; intros d; cbn [foldl]; [reflexivity|].
  etrans; [|apply IH]. destruct (permitted c) eqn:E; [|reflexivity]. apply rtc_once. right. by exists (mm_now w), c.
Qed.

Lemma method_once {A} f (act : outcome A -> MachineDb -> MachineDb -> Prop) :
  (forall now uuid d, act (f now uuid d).1 d (f now uuid d).2) -> does_once mm_db others_steps (memory_method f) act.
Proof.
  intros Hf w o w' Hm. unfold memory_method in Hm. pose proof (interfere_steps w) as Hi.
  specialize (Hf (mm_now (interfere w)) (mm_uuid (mm_drawn (interfere w))) (mm_db (interfere w))).
  destruct (f _ _ _) as [o' d]. injection Hm as -> <-. exists (mm_db (interfere w)), d. by split_and!.
Qed.

Lemma method_quiet {A} (f : Z -> string -> MachineDb -> outcome A * MachineDb) :
  (forall now uuid d, same_machines d (f now uuid d).2) -> keeps (drift mm_db others_steps) (memory_method f).
Proof.
  intros Hf w. unfold memory_method, drift. pose proof (interfere_steps w) as Hi.
  specialize (Hf (mm_now (interfere w)) (mm_uuid (mm_drawn (interfere w))) (mm_db (interfere w))).
  destruct (f _ _ _) as [o' d]. etrans; [exact Hi|]. apply rtc_once. by left.
Qed.

(** User code that leaves the storage alone. *)
Definition private_code (inst : StateMachineInstance MachineMemory) : Prop :=
  forall A m, user_code inst A m -> forall w, mm_db (m w).2 = mm_db w.

Instance memory_machine_world inst (Hp : private_code inst) : MachineWorld MachineMemory memory_machine_host inst.
Proof.
  refine {| mw_machines := mm_db; mw_others := others_steps |}.
  - intros a b H. apply rtc_once. by left.
  - intros p. apply method_once. intros now uuid d. left. by exists now.
  - intros id. apply method_once. intros now uuid d. split; [done|]. by intros r [= <-].
  - intros p. apply method_once. intros now uuid d. unfold of_res.
    destruct (transition now uuid p d) as [r d'] eqn:E. apply transition_spec in E. cbn [fst snd].
    destruct r as [[]|e]; [left; eauto|right; destruct E as [-> _]; done].
  - intros id ms. apply method_quiet. intros now uuid d. pose proof (tryLock_same now uuid id ms d). by destruct (tryLock _ _ _ _ d).
  - intros id token. apply method_quiet. intros now uuid d. apply releaseLock_same.
  - intros id token ms. apply method_quiet. intros now uuid d. pose proof (extendLock_same now id token ms d). by destruct (extendLock _ _ _ _ d).
  - intros id l o. apply method_quiet. intros now uuid d. reflexivity.
  - split; intros; unfold drift; reflexivity.
  - intros v w. unfold drift. reflexivity.
  - intros id s d w. unfold drift. reflexivity.
  - intros h w. unfold drift. reflexivity.
  - intros id token d w. unfold drift. reflexivity.
  - intros token w. unfold drift. reflexivity.
  - intros A m Hu w. unfold drift. rewrite (Hp A m Hu w). reflexivity.
Defined.
End memory.

(** ** A door *)
Definition bump (c _ : json) : async MachineMemory json := fun w =>
  match c with JNum n => (Ret (JNum (n + 1)), w) | _ => (Throws (plain_error "no count"), w) end.

Definition slam (c _ : json) : async MachineMemory json := fun w => (Ret (transitionTo "closed" c), w).

Definition kick (_ _ : json) : async MachineMemory json := fun w => (Throws (plain_error "hinge"), w).

Definition if_pushed (_ d : json) : async MachineMemory bool := fun w => (Ret (bool_decide (d <> JNull)), w).

Definition door_timeout : TimeoutConfig MachineMemory := mkTimeout 1000 "closed" (Some "draught") None.

Definition door_builder : StateMachineBuilder MachineMemory :=
  on (mkTransitionConfig "kick" ["closed"; "open"] None None (Some kick) None (Some "broken"))
    (on (mkTransitionConfig "slam" ["open"] None None (Some slam) None None)
      (on (mkTransitionConfig "push" ["closed"] (Some "open") (Some if_pushed) (Some bump) None None)
        (state (mkState "broken" true None None None)
          (state (mkState "open" false None None (Some door_timeout))
            (state (mkState "closed" false None None None)
              (initial "closed" (stateMachine "door" (Some "v1") (Some (mkLimits (Some 10) (Some 5))) None None None))))))).

Definition door_instance (middlewares : list (MachineMiddleware MachineMemory)) : StateMachineInstance MachineMemory :=
  match build (foldl (fun b mw => use mw b) door_builder middlewares) with
  | Ok (inst, _) => inst
  | Err _ => mkInstance "" ∅ [] "" None None None None None None false
  end.

Definition with_limit (inst : StateMachineInstance MachineMemory) (limits : MachineLimits) : StateMachineInstance MachineMemory :=
  mkInstance (sm_name inst) (sm_states inst) (sm_transitions inst) (sm_initialState inst) (sm_version inst)
    (Some limits) (sm_middleware inst) (sm_type inst) (sm_namespace inst) (sm_strictSchemas inst)
    (sm_autoScheduleTimeouts inst).

Example door_builds : build door_builder = Ok (door_instance [], ["broken"]).
Proof. vm_compute. reflexivity. Qed.

(** Others may push and slam doors. *)
Definition door_call (c : MachineCall) : bool :=
  match c with
  | MCreate _ => false
  | MTransition _ p => bool_decide (tp_to p = "closed" \/ tp_to p = "open") &&
      match tp_context p with JNum _ => true | _ => false end
  | _ => true
  end.

#[local] Instance door_storage : StateMachineStorage MachineMemory := memory_machine_storage door_call.

Lemma door_private inst : sm_transitions inst = sm_transitions (door_instance []) ->
  sm_states inst = sm_states (door_instance []) -> private_code inst.
Proof.
  intros Ht Hs A m Hm w.
  destruct Hm as [t g c d Hin Hg|t a c d Hin Ha|s cf h c d Hc Hh|s cf h c d Hc Hh|s cf g' g c Hc Hh Hg].
  - rewrite Ht in Hin. cbn in Hin. repeat (apply elem_of_cons in Hin as [->|Hin]; [first [discriminate Hg|injection Hg as <-; done]|]). by apply not_elem_of_nil in Hin.
  - rewrite Ht in Hin. cbn in Hin. repeat (apply elem_of_cons in Hin as [->|Hin]; [injection Ha as <-; destruct c; done|]). by apply not_elem_of_nil in Hin.
  - rewrite Hs in Hc. apply jlookup_elem in Hc. cbn in Hc.
    repeat (apply elem_of_cons in Hc as [[= -> ->]|Hc]; [done|]). by apply not_elem_of_nil in Hc.
  - rewrite Hs in Hc. apply jlookup_elem in Hc. cbn in Hc.
    repeat (apply elem_of_cons in Hc as [[= -> ->]|Hc]; [done|]). by apply not_elem_of_nil in Hc.
  - rewrite Hs in Hc. apply jlookup_elem in Hc. cbn in Hc.
    repeat (apply elem_of_cons in Hc as [[= -> ->]|Hc]; [cbn in Hh; first [discriminate Hh|injection Hh as <-; discriminate Hg]|]). by apply not_elem_of_nil in Hc.
Qed.

#[local] Instance door_world : MachineWorld MachineMemory memory_machine_host (door_instance []) :=
  memory_machine_world door_call _ (door_private _ eq_refl eq_refl).

Definition at_door (script : list (list MachineCall)) : MachineMemory :=
  mkMachineMemory (createMachine 0 (mkCreateMachine "d" "door" None None "closed" (JNum 0) (Some "v1") None) no_machines)
    (mkInstanceVars ∅ ∅ ∅) 1 0 script.

Definition pushed_by_other (rev n : Z) : MachineCall :=
  MTransition "o" (mkTransition "d" "closed" "open" rev "push" (JNum n) JUndef JUndef).
Definition slammed_by_other (rev n : Z) : MachineCall :=
  MTransition "o" (mkTransition "d" "open" "closed" rev "slam" (JNum n) JUndef JUndef).

Definition row (w : MachineMemory) : option (string * json * Z) :=
  (fun m => (ma_current m, ma_context m, ma_revision m)) <$> md_machines (mm_db w) !! "d".

(** Someone opens and closes the door before the row is read. *)
Definition before_push : MachineMemory := at_door [[]; [pushed_by_other 0 1; slammed_by_other 1 5]].
Definition push_later : outcome unit * MachineMemory :=
  send memory_machine_host (door_instance []) "d" "push" (JStr "hard") JUndef before_push.

Example push_commits : push_later.1 = Ret tt /\ row push_later.2 = Some ("open", JNum 6, 3).
Proof. vm_compute. by split. Qed.

(** Someone opens it after the row was read: the send is refused. *)
Example push_overtaken :
  let r := send memory_machine_host (door_instance []) "d" "push" (JStr "hard") JUndef
             (at_door [[]; []; [pushed_by_other 0 1]]) in
  r.1 <> Ret tt /\ row r.2 = Some ("open", JNum 1, 1).
Proof. vm_compute. by split. Qed.

(** A kick fails and routes to the error state. *)
Example kick_breaks :
  let r := send memory_machine_host (door_instance []) "d" "kick" JNull JUndef (at_door []) in
  r.1 = Ret tt /\ row r.2 = Some ("broken", JObj [("error", JStr "hinge")], 1).
Proof. vm_compute. by split. Qed.

(** The draught closes an open door. *)
Example draught_closes :
  let w := mkMachineMemory (mm_db push_later.2) (mm_vars push_later.2) 5000 50 [] in
  let r := checkTimeouts memory_machine_host (door_instance []) "d" w in
  r.1 = Ret true /\ row r.2 = Some ("closed", JNum 6, 4).
Proof. vm_compute. by split. Qed.

(** Without creations no revision goes back. *)
Lemma others_onward permitted a b : (forall p, permitted (MCreate p) = false) -> others_steps permitted a b -> onward a b.
Proof.
  intros Hno. induction 1 as [a|a b c Hab _ IH].
  - intros id m Hm. exists m. split; [done|lia].
  - eapply onward_trans; [|exact IH]. destruct Hab as [[Hm _]|(now & call & Hp & ->)].
    + intros id m. rewrite Hm. exists m. split; [done|lia].
    + assert (forall d d', same_machines d d' -> onward d d') as Hsame.
      { intros d d' [Hm _] id m. rewrite Hm. exists m. split; [done|lia]. }
      destruct call; cbn [machine_call]; [by rewrite Hno in Hp| |apply Hsame..].
      * destruct (transition now uuid p a) as [r d'] eqn:E. apply transition_spec in E. cbn [snd].
        destruct r; [by eapply moves_onward|]. destruct E as [-> _]. by apply Hsame.
      * apply tryLock_same.
      * apply releaseLock_same.
      * apply extendLock_same.
Qed.

Lemma door_plain : sm_middleware (door_instance []) = None.
Proof. vm_compute. reflexivity. Qed.

Lemma send_commits_once_witness :
  push_later.1 = Ret tt /\
  exists l, commits (others_steps door_call) l (mm_db before_push) (mm_db push_later.2) /\ length l = 1%nat /\
    Forall (sent (host := memory_machine_host) (inst := door_instance []) (mm_db before_push) "d" "push" (JStr "hard") JUndef) l.
Proof.
  assert (forall w o w', send memory_machine_host (door_instance []) "d" "push" (JStr "hard") JUndef w = (o, w') ->
    exists l, commits (others_steps door_call) l (mm_db w) (mm_db w') /\ (length l <= 1)%nat /\
      Forall (sent (host := memory_machine_host) (inst := door_instance []) (mm_db w) "d" "push" (JStr "hard") JUndef) l /\
      (o = Ret tt -> sm_middleware (door_instance []) = None -> length l = 1%nat)) as Hgen.
  { intros w o w'. apply (send_commits_once (MW := door_world)).
    - intros x y. by apply others_onward.
    - intros mw Q. rewrite door_plain. discriminate. }
  assert (push_later.1 = Ret tt) as Ho by (vm_compute; reflexivity). split; [exact Ho|].
  destruct (Hgen before_push push_later.1 push_later.2 (surjective_pairing _)) as (l & Hc & _ & Hl & Hn).
  exists l. split; [exact Hc|]. split; [exact (Hn Ho door_plain)|exact Hl].
Defined.

(** ** The door's types, with transitions run under a retry *)
Definition retried_door : StateMachineInstance MachineMemory :=
  door_instance [retryMiddleware memory_machine_host (mkPolicy (Some 2) None None false None None)].

Lemma retried_parts : sm_transitions retried_door = sm_transitions (door_instance []) /\
  sm_states retried_door = sm_states (door_instance []).
Proof. vm_compute. by split. Qed.

#[local] Instance retried_world : MachineWorld MachineMemory memory_machine_host retried_door :=
  memory_machine_world door_call _ (door_private retried_door (proj1 retried_parts) (proj2 retried_parts)).

(** An open or closed door counts its pushes; a broken one keeps an error. *)
Definition door_type (s : string) (c : json) : Prop :=
  if bool_decide (s = "broken") then exists fs, c = JObj fs
  else exists n, c = JNum n.

Lemma door_counts s n : s <> "broken" -> door_type s (JNum n).
Proof. intros Hs. unfold door_type. rewrite bool_decide_eq_false_2 by done. by exists n. Qed.

Lemma moves_typed (T : string -> json -> Prop) now uuid p a b : moves now uuid p a b ->
  T (tp_to p) (tp_context p) -> db_typed T a -> db_typed T b.
Proof.
  intros [m Hm _ _ ->] Hp Ha id m'. cbn. destruct (decide (tp_id p = id)) as [<-|Hne].
  - rewrite lookup_insert_eq. by intros [= <-].
  - rewrite lookup_insert_ne by done. apply Ha.
Qed.

Lemma door_others a b : others_steps door_call a b -> db_typed door_type a -> db_typed door_type b.
Proof.
  assert (forall d d', same_machines d d' -> db_typed door_type d -> db_typed door_type d') as Hsame.
  { intros d d' [Hm _] Hd id m. rewrite Hm. apply Hd. }
  induction 1 as [a|a b c Hab _ IH]; [done|]. intros Ha. apply IH. clear IH.
  destruct Hab as [Hs|(now & call & Hp & ->)]; [by eapply Hsame|]. destruct call; cbn [machine_call].
  - discriminate Hp.
  - destruct (transition now uuid p a) as [r d'] eqn:E. apply transition_spec in E. cbn [snd].
    destruct r; [|destruct E as [-> _]; done]. eapply moves_typed; [done| |done].
    cbn [door_call] in Hp. apply andb_prop in Hp as [Hto Hc]. apply bool_decide_eq_true in Hto.
    destruct (tp_context p); try discriminate Hc. by destruct Hto as [-> | ->]; apply door_counts.
  - eapply Hsame, Ha. apply tryLock_same.
  - eapply Hsame, Ha. apply releaseLock_same.
  - eapply Hsame, Ha. apply extendLock_same.
Qed.

Lemma door_transitions t : t ∈ sm_transitions (door_instance []) ->
  t = mkTransitionConfig "push" ["closed"] (Some "open") (Some if_pushed) (Some bump) None None \/
  t = mkTransitionConfig "slam" ["open"] None None (Some slam) None None \/
  t = mkTransitionConfig "kick" ["closed"; "open"] None None (Some kick) None (Some "broken").
Proof.
  intros Hin. cbn in Hin. repeat (apply elem_of_cons in Hin as [->|Hin]; [tauto|]). by apply not_elem_of_nil in Hin.
Qed.

Lemma retried_types : WellTyped (host := memory_machine_host) (inst := retried_door) (MW := retried_world) door_type (fun _ _ => True).
Proof.
  split.
  - intros t action from c data r w w'. rewrite (proj1 retried_parts). intros Hin Ha Hfrom Hc _ Hr.
    destruct (door_transitions t Hin) as [-> |[-> | ->]]; injection Ha as <-; cbn in Hr.
    + destruct c; try discriminate Hr. injection Hr as <- _. cbn. intros to [= <-] _. by apply door_counts.
    + injection Hr as <- _. cbn. intros _. apply list_elem_of_singleton in Hfrom as ->. exact Hc.
    + discriminate Hr.
  - intros t from to c. rewrite (proj1 retried_parts). intros Hin. by destruct (door_transitions t Hin) as [-> |[-> | ->]].
  - intros t from to c e. rewrite (proj1 retried_parts). intros Hin Ho _ _ _.
    destruct (door_transitions t Hin) as [-> |[-> | ->]]; try discriminate Ho. injection Ho as <-.
    unfold error_context. eexists. reflexivity.
  - intros s cfg c. unfold state_timeout. rewrite (proj2 retried_parts). intros Hs Hc _.
    apply bind_Some in Hs as (config & Hl & Ht). apply jlookup_elem in Hl. cbn in Hl.
    repeat (apply elem_of_cons in Hl as [[= -> ->]|Hl]; [cbn in Ht; try discriminate Ht|]);
      [injection Ht as <-; exact Hc|by apply not_elem_of_nil in Hl].
  - intros mw Hmw. assert (sm_middleware retried_door = Some (composeMachineMiddleware
      [retryMiddleware memory_machine_host (mkPolicy (Some 2) None None false None None)])) as Hr by (vm_compute; reflexivity).
    rewrite Hr in Hmw. apply (inj Some) in Hmw as <-. apply polite_compose. apply Forall_singleton, polite_retry.
  - intros schemas event parse data data' Hs.
    assert (sm_strictSchemas retried_door = None) as Hn by (vm_compute; reflexivity). by rewrite Hn in Hs.
  - intros x y. apply door_others.
Qed.

Lemma machines_stay_typed_witness :
  let ops := [OStart "e" (JNum 7) None; OSend "d" "push" (JStr "hard") JUndef; OSend "d" "kick" JNull JUndef;
              OCheck "d"; OSend "e" "push" (JNum 1) JUndef] in
  let w := foldl (fun w op => machine_op memory_machine_host retried_door op w) before_push ops in
  row w = Some ("broken", JObj [("error", JStr "hinge")], 4) /\ db_typed door_type (mm_db w).
Proof.
  assert (forall ops w, Forall (op_typed (inst := retried_door) door_type (fun _ _ => True)) ops ->
    db_typed door_type (mm_db w) ->
    db_typed door_type (mm_db (foldl (fun w op => machine_op memory_machine_host retried_door op w) w ops))) as Hgen.
  { intros ops w. apply (machines_stay_typed (MW := retried_world)), retried_types. }
  split; [vm_compute; reflexivity|]. apply Hgen.
  - assert (sm_strictSchemas retried_door = None) as Hn by (vm_compute; reflexivity).
    assert (sm_initialState retried_door = "closed") as Hi by (vm_compute; reflexivity).
    repeat (apply Forall_cons; split; [cbn [op_typed]; rewrite ?Hn, ?Hi; first [by apply door_counts|done]|]). by apply Forall_nil.
  - intros id m Hm. unfold before_push, at_door, createMachine, no_machines in Hm. cbn [mm_db md_machines cm_id] in Hm.
    apply lookup_insert_Some in Hm as [[_ <-]|[_ Hm]]; [by apply door_counts|]. by rewrite lookup_empty in Hm.
Defined.

(** ** What the code does at its edges *)

(** Middleware that sends every transition to a state of its own. *)
Definition astray : MachineMiddleware MachineMemory := fun _ next =>
  let% v := get_vars in
  do% put_vars (mkVars "nowhere" (tv_context v) (tv_metadata v) (tv_from v) (tv_committed v)) in next.

(** The registered states are checked before middleware rewrites the target. *)
Example unregistered_target :
  let r := send memory_machine_host (door_instance [astray]) "d" "push" (JStr "hard") JUndef (at_door []) in
  r.1 = Ret tt /\ row r.2 = Some ("nowhere", JNum 1, 1) /\ has_state (door_instance [astray]) "nowhere" = false.
Proof. vm_compute. by split_and!. Qed.

(** What middleware rewrites is saved by a send, but not by a timeout. *)
Example timeout_ignores_middleware :
  let w := mkMachineMemory (mm_db push_later.2) (mm_vars push_later.2) 5000 50 [] in
  let r := checkTimeouts memory_machine_host (door_instance [astray]) "d" w in
  r.1 = Ret true /\ row r.2 = Some ("closed", JNum 6, 4).
Proof. vm_compute. by split. Qed.

(** A second start that passed its check before the first created the machine
    resets it, history included. *)
Example start_twice :
  let other := MCreate (mkCreateMachine "d" "door" None None "closed" (JNum 0) (Some "v1") None) in
  let w := mkMachineMemory no_machines (mkInstanceVars ∅ ∅ ∅) 1 0
             [[]; [other; pushed_by_other 0 1]] in
  let storage := memory_machine_storage (fun _ => true) in
  let r := start (H := storage) memory_machine_host (door_instance []) "d" (JNum 9) None w in
  r.1 = Ret tt /\ row r.2 = Some ("closed", JNum 9, 0).
Proof. vm_compute. by split. Qed.

(** Timeouts pass the limit on transitions. *)
Example timeout_past_limit :
  let limited := with_limit (door_instance []) (mkLimits (Some 3) None) in
  let w := mkMachineMemory (mm_db push_later.2) (mm_vars push_later.2) 5000 50 [] in
  (send memory_machine_host limited "d" "slam" JNull JUndef w).1 <> Ret tt /\
  (checkTimeouts memory_machine_host limited "d" w).1 = Ret true.
Proof. vm_compute. by split. Qed.
