(* ===== verification/VersionRegistry.v ===== *)
(** The registry of workflow versions:
    [durable/workflow-version-registry.ts].

    Every method but [countByVersion] runs without an [await] and is a
    function of the registry. [countByVersion] awaits the storage and the
    [onDrained] hook, which may use the registry themselves: it runs on the
    registry together with the world, and the concurrent counts are taken one
    after the other. A definition is known by its name and version. *)
From Stdlib Require Import QArith.
From stdpp Require Import gmap.
From S2P Require Import Prelude Leases Json Journal RunState Exits Retry Replay StepBody Checkpoint MachineStorage.
Open Scope string_scope.
Open Scope list_scope.
Open Scope Z_scope.

Inductive VersionStatus : Type := VInactive | VActive | VArchived.
#[global] Instance VersionStatus_eq_dec : EqDecision VersionStatus.
Proof. solve_decision. Defined.

Record VersionRecord : Type := mkVersionRecord {
  vr_name : string;
  vr_version : string;
  vr_status : VersionStatus;
  vr_contentHash : option string;
  vr_registeredAt : Z;
  vr_activeAt : option Z;
  vr_archivedAt : option Z;
}.

Record VersionRunCounts : Type := mkRunCounts {
  rc_running : Z;
  rc_completed : Z;
  rc_failed : Z;
  rc_tripwire : Z;
}.

Definition addRunCount (counts : VersionRunCounts) (status : WorkflowStatus) (n : Z) : VersionRunCounts :=
  match status with
  | RunState.Completed => mkRunCounts (rc_running counts) (rc_completed counts + n) (rc_failed counts) (rc_tripwire counts)
  | RunState.Failed => mkRunCounts (rc_running counts) (rc_completed counts) (rc_failed counts + n) (rc_tripwire counts)
  | RunState.Tripwire => mkRunCounts (rc_running counts) (rc_completed counts) (rc_failed counts) (rc_tripwire counts + n)
  | _ => mkRunCounts (rc_running counts + n) (rc_completed counts) (rc_failed counts) (rc_tripwire counts)
  end.

Section registry.
Context {Def : Type} (def_name : Def -> string) (def_version : Def -> option string).

Record VersionEntry : Type := mkVersionEntry {
  ve_definition : Def;
  ve_status : VersionStatus;
  ve_contentHash : option string;
  ve_registeredAt : Z;
  ve_activeAt : option Z;
  ve_archivedAt : option Z;
}.

Record VersionRegistry : Type := mkRegistry {
  definitions : jmap string (jmap string VersionEntry);
  latestVersions : gmap string string;
  drainedNotified : gset string;
}.

Definition no_definitions : VersionRegistry := mkRegistry ∅ ∅ ∅.

Definition toRecord (name version : string) (e : VersionEntry) : VersionRecord :=
  mkVersionRecord name version (ve_status e) (ve_contentHash e) (ve_registeredAt e) (ve_activeAt e)
    (ve_archivedAt e).

Definition set_entries (name : string) (versions : jmap string VersionEntry) (r : VersionRegistry) : VersionRegistry :=
  mkRegistry (<[name := versions]> (definitions r)) (latestVersions r) (drainedNotified r).

(** ** Definitions *)
Definition register (now : Z) (def : Def) (contentHash : option string) (r : VersionRegistry)
    : res thrown unit * VersionRegistry :=
  let name := def_name def in
  match def_version def with
  | None | Some "" =>
      (Err (plain_error ("Workflow " +:+ quoted name +:+ " must have a version to register in the registry")), r)
  | Some version =>
      let versions := opt_or (definitions r !! name) ∅ in
      let entry :=
        match versions !! version with
        | Some e => mkVersionEntry def (ve_status e) (opt_else contentHash (ve_contentHash e)) (ve_registeredAt e)
                      (ve_activeAt e) (ve_archivedAt e)
        | None => mkVersionEntry def VInactive contentHash now None None
        end in
      (Ok tt, mkRegistry (<[name := <[version := entry]> versions]> (definitions r))
                (<[name := version]> (latestVersions r)) (drainedNotified r))
  end.

Definition latest (name : string) (r : VersionRegistry) : option string := latestVersions r !! name.

Definition entry_of (name version : string) (r : VersionRegistry) : option VersionEntry :=
  definitions r !! name ≫= (.!! version).

Definition resolve (name : string) (version : option string) (r : VersionRegistry) : option Def :=
  match definitions r !! name with
  | None => None
  | Some versions =>
      if truthy_str version then ve_definition <$> (version ≫= fun v => versions !! v)
      else if truthy_str (latest name r) then ve_definition <$> (latest name r ≫= fun v => versions !! v)
      else None
  end.

Definition versionsOf (name : string) (r : VersionRegistry) : list string :=
  from_option jm_keys [] (definitions r !! name).

Definition names (r : VersionRegistry) : list string := jm_keys (definitions r).

(** ** Lifecycle *)
Definition is_active (e : VersionEntry) : bool := bool_decide (ve_status e = VActive).

Definition findActive (name : string) (r : VersionRegistry) : option VersionRecord :=
  definitions r !! name ≫= fun versions =>
  (fun kv => toRecord name kv.1 kv.2) <$> List.find (fun kv => is_active kv.2) (jm_entries versions).

Definition getStatus (name version : string) (r : VersionRegistry) : option VersionRecord :=
  toRecord name version <$> entry_of name version r.

Definition with_status (status : VersionStatus) (e : VersionEntry) : VersionEntry :=
  mkVersionEntry (ve_definition e) status (ve_contentHash e) (ve_registeredAt e) (ve_activeAt e) (ve_archivedAt e).

Definition activated (now : Z) (e : VersionEntry) : VersionEntry :=
  mkVersionEntry (ve_definition e) VActive (ve_contentHash e) (ve_registeredAt e) (Some now) None.

Definition archived (now : Z) (e : VersionEntry) : VersionEntry :=
  mkVersionEntry (ve_definition e) VArchived (ve_contentHash e) (ve_registeredAt e) (ve_activeAt e) (Some now).

Definition map_entries (f : string -> VersionEntry -> VersionEntry) (versions : jmap string VersionEntry)
    : jmap string VersionEntry :=
  JMap ((fun kv => (kv.1, f kv.1 kv.2)) <$> jm_entries versions).

Definition promote (now : Z) (name version : string) (r : VersionRegistry) : res thrown VersionRecord * VersionRegistry :=
  match definitions r !! name with
  | None => (Err (plain_error ("promote: workflow " +:+ quoted name +:+ " has no registered versions")), r)
  | Some versions =>
      match versions !! version with
      | None => (Err (plain_error ("promote: " +:+ name +:+ "@" +:+ version +:+ " not registered")), r)
      | Some target =>
          if is_active target then (Ok (toRecord name version target), r)
          else
            let demoted := map_entries (fun v e =>
              if negb (bool_decide (v = version)) && is_active e then with_status VInactive e else e) versions in
            let target := activated now target in
            (Ok (toRecord name version target), set_entries name (<[version := target]> demoted) r)
      end
  end.

(** The active version that [rollback] leaves: the last one found. *)
Definition previous_active (toVersion : string) (versions : jmap string VersionEntry) : option (string * VersionEntry) :=
  last (base.filter (fun kv => is_active kv.2 = true /\ kv.1 <> toVersion) (jm_entries versions)).

Definition rollback (now : Z) (name toVersion : string) (r : VersionRegistry)
    : res thrown (VersionRecord * VersionRecord) * VersionRegistry :=
  match definitions r !! name with
  | None => (Err (plain_error ("rollback: workflow " +:+ quoted name +:+ " has no registered versions")), r)
  | Some versions =>
      match versions !! toVersion with
      | None => (Err (plain_error ("rollback: " +:+ name +:+ "@" +:+ toVersion +:+ " not registered")), r)
      | Some target =>
          match previous_active toVersion versions with
          | None => (Err (plain_error ("rollback: no active version for " +:+ quoted name +:+ " to roll back")), r)
          | Some (v, e) =>
              let previous := archived now e in
              let target := activated now target in
              (Ok (toRecord name v previous, toRecord name toVersion target),
               set_entries name (<[toVersion := target]> (<[v := previous]> versions)) r)
          end
      end
  end.

Definition listRecords (name : string) (r : VersionRegistry) : list VersionRecord :=
  match definitions r !! name with
  | None => []
  | Some versions =>
      jsort (fun a b => vr_registeredAt b - vr_registeredAt a)
        ((fun kv => toRecord name kv.1 kv.2) <$> jm_entries versions)
  end.

(** ** Deregistration and drains *)
Definition deregisterNow (name version : string) (r : VersionRegistry) : VersionRegistry :=
  let definitions' :=
    match definitions r !! name with
    | Some versions => <[name := delete version versions]> (definitions r)
    | None => definitions r
    end in
  let latest' :=
    if bool_decide (latest name r = Some version) then
      match last (from_option jm_keys [] (definitions' !! name)) with
      | Some v => <[name := v]> (latestVersions r)
      | None => delete name (latestVersions r)
      end
    else latestVersions r in
  mkRegistry definitions' latest' (drainedNotified r).

Definition deregister (name version : string) (r : VersionRegistry) : VersionRegistry := deregisterNow name version r.

Definition isRoutable (name version : string) (r : VersionRegistry) : bool :=
  bool_decide (latest name r = Some version) || from_option is_active false (entry_of name version r).

Definition drain_key (name version : string) : string := name +:+ "::" +:+ version.

Definition notified (f : gset string -> gset string) (r : VersionRegistry) : VersionRegistry :=
  mkRegistry (definitions r) (latestVersions r) (f (drainedNotified r)).

Section count.
Context {W : Type}.

Record CountStorage : Type := mkCountStorage {
  (** [countWorkflows], when the backend has it *)
  cs_countWorkflows : option (string -> string -> WorkflowStatus -> async (VersionRegistry * W) Z);
  (** [listWorkflowSummaries] or [listWorkflows] of a name *)
  cs_listWorkflows : string -> async (VersionRegistry * W) (list (option string * WorkflowStatus));
}.

Definition no_counts : VersionRunCounts := mkRunCounts 0 0 0 0.

Fixpoint count_all (count : string -> string -> WorkflowStatus -> async (VersionRegistry * W) Z) (name : string)
    (wanted : list (string * WorkflowStatus)) (result : jmap string VersionRunCounts)
    : async (VersionRegistry * W) (jmap string VersionRunCounts) :=
  match wanted with
  | [] => a_ret result
  | (version, status) :: wanted =>
      let% n := count name version status in
      count_all count name wanted
        (if n >? 0 then <[version := addRunCount (opt_or (result !! version) no_counts) status n]> result else result)
  end.

Definition count_listed (result : jmap string VersionRunCounts) (wf : option string * WorkflowStatus)
    : jmap string VersionRunCounts :=
  if truthy_str wf.1 then
    match result !! opt_or wf.1 "" with
    | Some counts => <[opt_or wf.1 "" := addRunCount counts wf.2 1]> result
    | None => result
    end
  else result.

Definition on_registry (f : VersionRegistry -> VersionRegistry) : async (VersionRegistry * W) unit := fun s =>
  (Ret tt, (f s.1, s.2)).
Definition get_registry : async (VersionRegistry * W) VersionRegistry := fun s => (Ret s.1, s).

Context (autoDeregister : bool) (onDrained : option (string -> string -> async (VersionRegistry * W) unit)).

(** One version of the last loop of [countByVersion]. *)
Definition settle_version (name : string) (result : jmap string VersionRunCounts) (version : string)
    : async (VersionRegistry * W) unit :=
  let% r := get_registry in
  if bool_decide (entry_of name version r = None) then a_ret tt
  else
    let key := drain_key name version in
    if rc_running (opt_or (result !! version) no_counts) >? 0 then on_registry (notified (.∖ {[key]}))
    else if bool_decide (key ∈ drainedNotified r) then a_ret tt
    else
      do% on_registry (notified ({[key]} ∪.)) in
      do% match onDrained with Some hook => hook name version | None => a_ret tt end in
      let% r := get_registry in
      if autoDeregister && negb (isRoutable name version r) then on_registry (deregisterNow name version)
      else a_ret tt.

Fixpoint settle_versions (name : string) (result : jmap string VersionRunCounts) (registered : list string)
    : async (VersionRegistry * W) unit :=
  match registered with
  | [] => a_ret tt
  | version :: registered =>
      do% settle_version name result version in
      settle_versions name result registered
  end.

Definition countByVersion (name : string) (storage : CountStorage)
    : async (VersionRegistry * W) (jmap string VersionRunCounts) :=
  let% r := get_registry in
  let registered := versionsOf name r in
  let result := JMap ((fun v => (v, no_counts)) <$> registered) in
  let% result :=
    match cs_countWorkflows storage with
    | Some count => count_all count name (v ← registered; s ← WORKFLOW_STATUSES; mret (v, s)) result
    | None => let% runs := cs_listWorkflows storage name in a_ret (foldl count_listed result runs)
    end in
  do% settle_versions name result registered in
  a_ret result.
End count.
End registry.
