(* ===== verification/VersionRouting.v ===== *)
(** What a version registry routes to: its methods refine a small
    specification of one workflow name, and draining removes no version that
    new runs can be routed to. *)
From Stdlib Require Import QArith.
From stdpp Require Import gmap.
From S2P Require Import Prelude Leases Json Journal RunState Exits Retry Replay StepBody Checkpoint AsyncRel MachineStorage VersionRegistry.
Open Scope string_scope.
Open Scope list_scope.
Open Scope Z_scope.

Section routing.
Context {Def : Type} (def_name : Def -> string) (def_version : Def -> option string).
Implicit Types (r : VersionRegistry (Def := Def)) (vs : jmap string (VersionEntry (Def := Def))) (e : VersionEntry (Def := Def)).

(** ** Calls and their specification *)
Inductive RegistryCall : Type :=
| RRegister (def : Def) (contentHash : option string)
| RPromote (name version : string)
| RRollback (name version : string)
| RDeregister (name version : string).

Definition registry_call (now : Z) (c : RegistryCall) r : VersionRegistry :=
  match c with
  | RRegister def hash => (register def_name def_version now def hash r).2
  | RPromote name version => (promote now name version r).2
  | RRollback name version => (rollback now name version r).2
  | RDeregister name version => deregister name version r
  end.

(** One name: its versions in the order of their registration, the one
    registered last, the promoted one, the ones rolled back. *)
Record NameVersions : Type := mkNameVersions {
  nv_versions : list string;
  nv_latest : option string;
  nv_active : option string;
  nv_archived : gset string;
}.

Definition no_versions : NameVersions := mkNameVersions [] None None ∅.

Definition spec_register (v : string) (n : NameVersions) : NameVersions :=
  mkNameVersions (set_add v (nv_versions n)) (Some v) (nv_active n) (nv_archived n).
Definition spec_promote (v : string) (n : NameVersions) : NameVersions :=
  if bool_decide (v ∈ nv_versions n)
  then mkNameVersions (nv_versions n) (nv_latest n) (Some v) (nv_archived n ∖ {[v]}) else n.
Definition spec_rollback (v : string) (n : NameVersions) : NameVersions :=
  match nv_active n with
  | Some p => if bool_decide (v ∈ nv_versions n /\ p <> v)
              then mkNameVersions (nv_versions n) (nv_latest n) (Some v) ({[p]} ∪ nv_archived n ∖ {[v]}) else n
  | None => n
  end.
Definition spec_deregister (v : string) (n : NameVersions) : NameVersions :=
  let rest := base.filter (.≠ v) (nv_versions n) in
  mkNameVersions rest (if bool_decide (nv_latest n = Some v) then last rest else nv_latest n)
    (if bool_decide (nv_active n = Some v) then None else nv_active n) (nv_archived n ∖ {[v]}).

Definition spec_call (name : string) (c : RegistryCall) (n : NameVersions) : NameVersions :=
  match c with
  | RRegister def _ => if bool_decide (def_name def = name) && truthy_str (def_version def)
                       then spec_register (opt_or (def_version def) "") n else n
  | RPromote m v => if bool_decide (m = name) then spec_promote v n else n
  | RRollback m v => if bool_decide (m = name) then spec_rollback v n else n
  | RDeregister m v => if bool_decide (m = name) then spec_deregister v n else n
  end.

Definition spec_status (n : NameVersions) (v : string) : VersionStatus :=
  if bool_decide (nv_active n = Some v) then VActive
  else if bool_decide (v ∈ nv_archived n) then VArchived else VInactive.

(** ** The refinement *)
Definition entries_of (name : string) r : jmap string VersionEntry := opt_or (definitions r !! name) ∅.

Lemma entry_of_entries name v r : entry_of name v r = entries_of name r !! v.
Proof. unfold entry_of, entries_of. by destruct (definitions r !! name). Qed.

Lemma versionsOf_entries name r : versionsOf name r = jm_keys (entries_of name r).
Proof. unfold versionsOf, entries_of. by destruct (definitions r !! name). Qed.

Record shows (vs : jmap string VersionEntry) (lat : option string) (n : NameVersions) : Prop := {
  sh_keys : jm_keys vs = nv_versions n;
  sh_nodup : NoDup (nv_versions n);
  sh_named : "" ∉ nv_versions n;
  sh_latest : lat = nv_latest n;
  sh_latest_known : forall v, nv_latest n = Some v -> v ∈ nv_versions n;
  sh_some_latest : nv_versions n <> [] -> nv_latest n <> None;
  sh_active_known : forall v, nv_active n = Some v -> v ∈ nv_versions n;
  sh_active_kept : forall v, nv_active n = Some v -> v ∉ nv_archived n;
  sh_archived_known : forall v, v ∈ nv_archived n -> v ∈ nv_versions n;
  sh_status : forall v e, vs !! v = Some e -> ve_status e = spec_status n v;
}.

Lemma spec_status_active n v : spec_status n v = VActive <-> nv_active n = Some v.
Proof. unfold spec_status. repeat case_bool_decide; split; congruence. Qed.

Lemma shows_lookup vs lat n v : shows vs lat n -> v ∈ nv_versions n -> exists e, vs !! v = Some e.
Proof.
  intros Hs Hv. rewrite <- (sh_keys _ _ _ Hs) in Hv. apply jlookup_Some_key in Hv.
  destruct (vs !! v) as [e|]; [by exists e|done].
Qed.

Lemma shows_key vs lat n v e : shows vs lat n -> vs !! v = Some e -> v ∈ nv_versions n.
Proof. intros Hs He. rewrite <- (sh_keys _ _ _ Hs). by eapply jlookup_key. Qed.

Lemma lookup_map_entries f vs v : map_entries f vs !! v = f v <$> vs !! v.
Proof.
  destruct vs as [l]. unfold map_entries, lookup, jmap_lookup; cbn.
  induction l as [|[k e] l IH]; cbn; [done|]. case_decide as Hk; [by subst|done].
Qed.

Lemma keys_map_entries f vs : jm_keys (map_entries f vs) = jm_keys vs.
Proof. destruct vs as [l]. unfold map_entries, jm_keys; cbn. induction l as [|[k e] l IH]; cbn; congruence. Qed.

Lemma keys_insert_present vs v e : v ∈ jm_keys vs -> jm_keys (<[v := e]> vs) = jm_keys vs.
Proof. intros Hv. rewrite jm_keys_insert. by rewrite decide_True. Qed.

Lemma last_elem {A} (l : list A) x : last l = Some x -> x ∈ l.
Proof. intros Hl. apply last_Some in Hl as [l' ->]. apply elem_of_app. right. by apply list_elem_of_singleton. Qed.

Lemma difference_other (v v' : string) (X : gset string) : v <> v' -> v' ∈ X ∖ {[v]} <-> v' ∈ X.
Proof. rewrite elem_of_difference, elem_of_singleton. intuition congruence. Qed.

(** *** Each call *)
Lemma shows_register vs lat n v e : v <> "" -> shows vs lat n ->
  (forall e0, vs !! v = Some e0 -> ve_status e = ve_status e0) -> (vs !! v = None -> ve_status e = VInactive) ->
  shows (<[v := e]> vs) (Some v) (spec_register v n).
Proof.
  intros Hv Hs Hold Hnew. pose proof Hs as []. split; cbn.
  - rewrite jm_keys_insert. unfold set_add. case_decide as Hk; case_bool_decide as Hk'; congruence.
  - by apply NoDup_set_add.
  - rewrite elem_of_set_add. intros [?|?]; done.
  - done.
  - intros v' [= <-]. apply elem_of_set_add. by left.
  - by intros _ [=].
  - intros v' Hv'. apply elem_of_set_add. auto.
  - done.
  - intros v' Hv'. apply elem_of_set_add. auto.
  - intros v' e'. rewrite jlookup_insert. case_decide as Hd; [subst v'; intros [= <-]|by apply sh_status0].
    destruct (vs !! v) as [e0|] eqn:E.
    + rewrite (Hold e0 eq_refl). by apply sh_status0.
    + rewrite (Hnew eq_refl). assert (v ∉ nv_versions n) as Hn by (rewrite <- sh_keys0; by apply jlookup_None).
      unfold spec_status. cbn. rewrite !bool_decide_eq_false_2; [done| |]; intros H; apply Hn; auto.
Qed.

Lemma shows_promote vs lat n v e now : shows vs lat n -> vs !! v = Some e -> is_active e = false ->
  shows (<[v := activated now e]> (map_entries (fun v' e =>
           if negb (bool_decide (v' = v)) && is_active e then with_status VInactive e else e) vs)) lat (spec_promote v n).
Proof.
  intros Hs He Ha. pose proof (shows_key _ _ _ _ _ Hs He) as Hv. pose proof Hs as [].
  unfold spec_promote. rewrite bool_decide_eq_true_2 by done. split; cbn; try done.
  - rewrite keys_insert_present; rewrite keys_map_entries; [done|]. by rewrite sh_keys0.
  - by intros v' [= <-].
  - intros v' [= <-]. rewrite elem_of_difference, elem_of_singleton. tauto.
  - intros v' [Hv' _]%elem_of_difference. auto.
  - intros v' e'. rewrite jlookup_insert. case_decide as Hd.
    + intros [= <-]. subst v'. symmetry. by apply spec_status_active.
    + rewrite lookup_map_entries. intros (e0 & He0 & Hf)%fmap_Some. pose proof (sh_status0 _ _ He0) as H0.
      rewrite bool_decide_eq_false_2 in Hf by congruence. cbn in Hf.
      unfold spec_status in *. cbn. rewrite (bool_decide_eq_false_2 (Some v = Some v')) by congruence.
      rewrite (bool_decide_ext (v' ∈ nv_archived n ∖ {[v]}) (v' ∈ nv_archived n)) by (by apply difference_other).
      unfold is_active in Hf. rewrite H0 in Hf. case_bool_decide as Hc.
      * rewrite bool_decide_eq_true_2 in Hf by done. subst e'. rewrite bool_decide_eq_false_2; [done|auto].
      * rewrite bool_decide_eq_false_2 in Hf by (by case_bool_decide). by subst e'.
Qed.

Lemma previous_active_shows vs lat n v : shows vs lat n ->
  match previous_active v vs with
  | Some (p, e) => nv_active n = Some p /\ p <> v /\ vs !! p = Some e
  | None => forall p, nv_active n = Some p -> p = v
  end.
Proof.
  intros Hs. pose proof Hs as []. unfold previous_active.
  destruct (last _) as [[p e]|] eqn:El.
  - apply last_elem, list_elem_of_filter in El as [[Ha Hne] Hin]. cbn in *.
    assert (vs !! p = Some e) as Hp by (apply jlookup_wf_elem; [unfold jm_wf; by rewrite sh_keys0|done]).
    split_and!; [|done..]. apply spec_status_active. rewrite <- (sh_status0 _ _ Hp). by apply bool_decide_eq_true in Ha.
  - apply last_None in El. intros p Hp. destruct (decide (p = v)) as [|Hne]; [done|]. exfalso.
    destruct (shows_lookup _ _ _ p Hs ltac:(auto)) as [e He].
    assert ((p, e) ∈ base.filter (fun kv => is_active kv.2 = true /\ kv.1 <> v) (jm_entries vs)) as Hin.
    { apply list_elem_of_filter. split; [|by apply jlookup_elem]. split; [|done]. cbn.
      unfold is_active. rewrite (sh_status0 _ _ He). apply bool_decide_eq_true, spec_status_active, Hp. }
    rewrite El in Hin. by apply not_elem_of_nil in Hin.
Qed.

Lemma shows_rollback vs lat n v e p pe now : shows vs lat n -> vs !! v = Some e ->
  nv_active n = Some p -> p <> v -> vs !! p = Some pe ->
  shows (<[v := activated now e]> (<[p := archived now pe]> vs)) lat (spec_rollback v n).
Proof.
  intros Hs He Hp Hne Hpe. pose proof (shows_key _ _ _ _ _ Hs He) as Hv. pose proof Hs as [].
  unfold spec_rollback. rewrite Hp, bool_decide_eq_true_2 by done. split; cbn; try done.
  - rewrite !keys_insert_present; rewrite ?keys_insert_present; rewrite ?sh_keys0; auto.
  - by intros v' [= <-].
  - intros v' [= <-]. rewrite elem_of_union, elem_of_difference, !elem_of_singleton. intros [?|[_ ?]]; congruence.
  - intros v' [->%elem_of_singleton|[Hv' _]%elem_of_difference]%elem_of_union; auto.
  - intros v' e'. rewrite !jlookup_insert. repeat case_decide; subst.
    + intros [= <-]. symmetry. by apply spec_status_active.
    + intros [= <-]. unfold spec_status. cbn. rewrite bool_decide_eq_false_2 by congruence.
      rewrite bool_decide_eq_true_2; [done|]. apply elem_of_union. left. by apply elem_of_singleton.
    + intros He'. rewrite (sh_status0 _ _ He'). unfold spec_status. cbn.
      rewrite Hp, !(bool_decide_eq_false_2 (Some _ = Some _)) by congruence.
      rewrite (bool_decide_ext (v' ∈ {[p]} ∪ nv_archived n ∖ {[v]}) (v' ∈ nv_archived n)); [done|].
      rewrite elem_of_union, elem_of_difference, !elem_of_singleton. intuition congruence.
Qed.

Lemma shows_deregister vs lat n v : shows vs lat n ->
  shows (delete v vs) (if bool_decide (lat = Some v) then last (base.filter (.≠ v) (jm_keys vs)) else lat) (spec_deregister v n).
Proof.
  intros Hs. pose proof Hs as []. unfold spec_deregister. split; cbn.
  - rewrite jm_keys_delete. by rewrite sh_keys0.
  - by apply NoDup_filter.
  - rewrite list_elem_of_filter. tauto.
  - subst lat. by rewrite sh_keys0.
  - intros v'. case_bool_decide as Hl; [apply last_elem|]. intros Hv'. apply list_elem_of_filter. split; [congruence|auto].
  - intros Hrest. case_bool_decide as Hl; [by rewrite last_None|]. apply sh_some_latest0. intros Hn. by rewrite Hn in Hrest.
  - intros v'. case_bool_decide as Hl; [done|]. intros Hv'. apply list_elem_of_filter. split; [congruence|auto].
  - intros v'. case_bool_decide as Hl; [done|]. intros Hv'. rewrite elem_of_difference. intros [H _]. by eapply sh_active_kept0.
  - intros v' [H H']%elem_of_difference. apply list_elem_of_filter. rewrite elem_of_singleton in H'. auto.
  - intros v' e'. rewrite jlookup_delete. case_decide as Hd; [done|]. intros He'. rewrite (sh_status0 _ _ He').
    unfold spec_status. cbn.
    rewrite (bool_decide_ext (v' ∈ nv_archived n ∖ {[v]}) (v' ∈ nv_archived n)) by (by apply difference_other).
    destruct (decide (nv_active n = Some v)) as [Ha|Ha].
    + rewrite (bool_decide_eq_true_2 (nv_active n = Some v)) by done.
      rewrite !(bool_decide_eq_false_2 (_ = Some v')) by congruence. done.
    + by rewrite (bool_decide_eq_false_2 (nv_active n = Some v)).
Qed.

(** Changes of one name leave the others alone. *)
Lemma entries_insert name name' vs (d : jmap string (jmap string (VersionEntry (Def := Def)))) lat dr :
  entries_of name (mkRegistry (<[name' := vs]> d) lat dr) = if decide (name' = name) then vs else opt_or (d !! name) ∅.
Proof. unfold entries_of. cbn. rewrite jlookup_insert. by case_decide. Qed.

Definition shown (name : string) r n : Prop := shows (entries_of name r) (latest name r) n.

Lemma call_register name r n now def hash : shown name r n ->
  shown name (register def_name def_version now def hash r).2 (spec_call name (RRegister def hash) n).
Proof.
  intros Hs. unfold shown, register, spec_call. destruct (def_version def) as [v|] eqn:Ev; [|by rewrite andb_false_r].
  destruct (decide (v = "")) as [->|Hv]; [by rewrite andb_false_r|].
  assert (truthy_str (Some v) = true) as Ht by (cbn; by rewrite bool_decide_eq_false_2). rewrite Ht, andb_true_r.
  cbn [opt_or from_option id].
  assert (forall x : res thrown unit * VersionRegistry, match v with "" => (Err (plain_error ("Workflow " +:+ quoted (def_name def) +:+ " must have a version to register in the registry")), r) | _ => x end = x) as ->
    by (intros x; by destruct v).
  cbn [snd]. rewrite entries_insert. unfold latest. cbn [latestVersions]. destruct (decide (def_name def = name)) as [<-|Hne].
  - rewrite bool_decide_eq_true_2 by done. rewrite lookup_insert_eq. apply (shows_register _ (latest (def_name def) r)); [done|exact Hs|..];
      change (opt_or (definitions r !! def_name def) ∅) with (entries_of (def_name def) r).
    + by intros e0 ->.
    + by intros ->.
  - rewrite bool_decide_eq_false_2 by done. rewrite lookup_insert_ne by done. exact Hs.
Qed.

Lemma call_promote name r n now name' v : shown name r n ->
  shown name (promote now name' v r).2 (spec_call name (RPromote name' v) n).
Proof.
  intros Hs. unfold shown, promote, spec_call. case_bool_decide as Hn; [subst name'|].
  - assert (entries_of name r !! v = None -> spec_promote v n = n) as Hnone.
    { intros He. unfold spec_promote. rewrite bool_decide_eq_false_2; [done|].
      intros Hv. destruct (shows_lookup _ _ _ v Hs Hv) as [e He']. congruence. }
    unfold shown, entries_of in Hs, Hnone. destruct (definitions r !! name) as [vs|] eqn:Ed; cbn [opt_or from_option id] in *.
    2:{ rewrite Hnone by done. unfold entries_of. cbn [snd]. by rewrite Ed. }
    destruct (vs !! v) as [e|] eqn:Ee; [|rewrite Hnone by done; unfold entries_of; cbn [snd]; by rewrite Ed].
    destruct (is_active e) eqn:Ea.
    + unfold entries_of. cbn [snd]. rewrite Ed. cbn. unfold spec_promote. rewrite bool_decide_eq_true_2 by (by eapply shows_key).
      apply bool_decide_eq_true in Ea. rewrite (sh_status _ _ _ Hs _ _ Ee) in Ea. apply spec_status_active in Ea.
      assert (nv_archived n ∖ {[v]} = nv_archived n) as -> by (pose proof (sh_active_kept _ _ _ Hs v Ea); set_solver).
      rewrite <- Ea. by destruct n.
    + cbn [snd]. unfold set_entries, latest, entries_of. cbn [definitions latestVersions]. rewrite jlookup_insert_eq. cbn.
      by apply shows_promote.
  - unfold entries_of, latest, set_entries. repeat case_match; cbn [snd definitions latestVersions]; rewrite ?jlookup_insert_ne by done; exact Hs.
Qed.

Lemma call_rollback name r n now name' v : shown name r n ->
  shown name (rollback now name' v r).2 (spec_call name (RRollback name' v) n).
Proof.
  intros Hs. unfold shown, rollback, spec_call. case_bool_decide as Hn; [subst name'|].
  - assert (entries_of name r !! v = None -> spec_rollback v n = n) as Hnone.
    { intros He. unfold spec_rollback. destruct (nv_active n); [|done]. rewrite bool_decide_eq_false_2; [done|].
      intros [Hv _]. destruct (shows_lookup _ _ _ v Hs Hv) as [e He']. congruence. }
    unfold shown, entries_of in Hs, Hnone. destruct (definitions r !! name) as [vs|] eqn:Ed; cbn [opt_or from_option id] in *.
    2:{ rewrite Hnone by done. unfold entries_of. cbn [snd]. by rewrite Ed. }
    destruct (vs !! v) as [e|] eqn:Ee; [|rewrite Hnone by done; unfold entries_of; cbn [snd]; by rewrite Ed].
    pose proof (previous_active_shows _ _ _ v Hs) as Hp. destruct (previous_active v vs) as [[p pe]|]; cbn [snd].
    + destruct Hp as (Hp & Hne & Hpe). unfold set_entries, latest, entries_of. cbn [definitions latestVersions].
      rewrite jlookup_insert_eq. cbn. by apply shows_rollback.
    + unfold entries_of. rewrite Ed. cbn. unfold spec_rollback. destruct (nv_active n) as [p|] eqn:Ea; [|done].
      rewrite bool_decide_eq_false_2; [done|]. intros [_ Hne]. by specialize (Hp p eq_refl).
  - unfold entries_of, latest, set_entries. repeat case_match; cbn [snd definitions latestVersions]; rewrite ?jlookup_insert_ne by done; exact Hs.
Qed.

Lemma deregister_entries name v r : entries_of name (deregisterNow name v r) = delete v (entries_of name r).
Proof.
  unfold deregisterNow, entries_of. cbn [definitions]. destruct (definitions r !! name) as [vs|] eqn:Ed; [|by rewrite Ed].
  by rewrite jlookup_insert_eq.
Qed.

Lemma deregister_latest name v r : latest name (deregisterNow name v r) =
  if bool_decide (latest name r = Some v) then last (jm_keys (delete v (entries_of name r))) else latest name r.
Proof.
  rewrite <- deregister_entries, <- versionsOf_entries. unfold deregisterNow, latest, versionsOf. cbn [latestVersions definitions].
  case_bool_decide; [|done]. set (l := last _). destruct l; [by rewrite lookup_insert_eq|by rewrite lookup_delete_eq].
Qed.

Lemma call_deregister name r n name' v : shown name r n ->
  shown name (deregister name' v r) (spec_call name (RDeregister name' v) n).
Proof.
  intros Hs. unfold shown, deregister, spec_call. case_bool_decide as Hn; [subst name'|].
  - rewrite deregister_entries, deregister_latest, jm_keys_delete. by apply shows_deregister.
  - assert (entries_of name (deregisterNow name' v r) = entries_of name r) as ->.
    { unfold deregisterNow, entries_of. cbn [definitions]. destruct (definitions r !! name'); [|done]. by rewrite jlookup_insert_ne. }
    assert (latest name (deregisterNow name' v r) = latest name r) as ->; [|exact Hs].
    unfold deregisterNow, latest. cbn [latestVersions]. repeat case_match; by rewrite ?lookup_insert_ne, ?lookup_delete_ne.
Qed.

Lemma registry_call_shown name now c r n : shown name r n -> shown name (registry_call now c r) (spec_call name c n).
Proof.
  destruct c; [apply call_register|apply call_promote|apply call_rollback|apply call_deregister].
Qed.

Lemma shown_empty name : shown name no_definitions no_versions.
Proof.
  split; cbn; try done; [by apply NoDup_nil_2|apply not_elem_of_nil].
Qed.

Lemma shown_run name sched r n : shown name r n ->
  shown name (run_ops registry_call sched r) (foldl (fun n op => spec_call name op.2 n) n sched).
Proof.
  revert r n. induction sched as [|[now c] sched IH]; intros r n Hs; cbn [run_ops foldl]; [done|].
  apply IH. by apply registry_call_shown.
Qed.

Lemma shown_findActive name r n : shown name r n -> vr_version <$> findActive name r = nv_active n.
Proof.
  intros Hs. unfold shown, entries_of in Hs. unfold findActive. destruct (definitions r !! name) as [vs|]; cbn [opt_or from_option id mbind option_bind] in *.
  - pose proof Hs as []. destruct (List.find _ _) as [[v e]|] eqn:Ef; cbn.
    + apply find_some in Ef as [Hin Ha]. apply list_elem_of_In in Hin. cbn in Ha.
      assert (vs !! v = Some e) as He by (apply jlookup_wf_elem; [unfold jm_wf; by rewrite sh_keys0|done]).
      apply bool_decide_eq_true in Ha. rewrite (sh_status0 _ _ He) in Ha. by apply spec_status_active in Ha.
    + destruct (nv_active n) as [v|] eqn:Ea; [|done]. exfalso.
      destruct (shows_lookup _ _ _ v Hs ltac:(auto)) as [e He]. pose proof (jlookup_elem _ _ _ He) as Hin.
      apply list_elem_of_In in Hin. apply (find_none _ _ Ef) in Hin. cbn in Hin. unfold is_active in Hin.
      rewrite (sh_status0 _ _ He), bool_decide_eq_true_2 in Hin; [done|]. by apply spec_status_active.
  - destruct (nv_active n) as [v|] eqn:Ea; [|done]. exfalso.
    destruct (shows_lookup _ _ _ v Hs) as [e He]; [by eapply sh_active_known|done].
Qed.

Lemma shown_status name r n v : shown name r n ->
  vr_status <$> getStatus name v r = if bool_decide (v ∈ nv_versions n) then Some (spec_status n v) else None.
Proof.
  intros Hs. unfold getStatus. rewrite entry_of_entries. unfold shown in Hs.
  destruct (entries_of name r !! v) as [e|] eqn:Ee; cbn.
  - rewrite bool_decide_eq_true_2 by (by eapply shows_key). f_equal. by apply (sh_status _ _ _ Hs).
  - rewrite bool_decide_eq_false_2; [done|]. intros Hv. destruct (shows_lookup _ _ _ v Hs Hv) as [e He]. congruence.
Qed.

Lemma shown_resolve name r n : shown name r n ->
  resolve name None r = nv_latest n ≫= fun v => ve_definition <$> entry_of name v r.
Proof.
  intros Hs. pose proof (sh_latest _ _ _ Hs) as Hl. unfold resolve, entry_of.
  destruct (definitions r !! name) as [vs|] eqn:Ed; cbn.
  - rewrite Hl. destruct (nv_latest n) as [v|] eqn:En; cbn; [|done]. rewrite bool_decide_eq_false_2; [done|].
    intros ->. apply (sh_named _ _ _ Hs). by apply (sh_latest_known _ _ _ Hs).
  - by destruct (nv_latest n).
Qed.
End routing.

(** ** Draining *)
Section drain.
Context {Def W : Type}.
Implicit Types (r : VersionRegistry (Def := Def)).
Context (autoDeregister : bool) (onDrained : option (string -> string -> async (VersionRegistry (Def := Def) * W) unit)).

(** Code that leaves the registry alone. *)
Definition aside {A} (m : async (VersionRegistry (Def := Def) * W) A) : Prop := keeps (fun s s' => s'.1 = s.1) m.

Context (name : string).

(** What settling one version does to the registry. *)
Definition drained (result : jmap string VersionRunCounts) r (version : string) : VersionRegistry (Def := Def) :=
  let key := drain_key name version in
  if bool_decide (entry_of name version r = None) then r
  else if rc_running (opt_or (result !! version) no_counts) >? 0 then notified (.∖ {[key]}) r
  else if bool_decide (key ∈ drainedNotified r) then r
  else if autoDeregister && negb (isRoutable name version r) then deregisterNow name version (notified ({[key]} ∪.) r)
  else notified ({[key]} ∪.) r.

Lemma settle_version_drained result version r w o s' :
  (forall hook, onDrained = Some hook -> forall a b, aside (hook a b)) ->
  settle_version autoDeregister onDrained name result version (r, w) = (Ret o, s') -> s'.1 = drained result r version.
Proof.
  intros Hh. unfold settle_version, drained, a_bind at 1. cbn [get_registry fst].
  case_bool_decide; [by intros [= _ <-]|]. destruct (rc_running _ >? 0); [by intros [= _ <-]|].
  case_bool_decide; [by intros [= _ <-]|]. unfold a_bind at 1. cbn [on_registry fst snd]. unfold a_bind at 1.
  set (r1 := notified _ r).
  set (m := match onDrained with Some hook => hook name version | None => a_ret tt end).
  assert ((m (r1, w)).2.1 = r1) as Hx by (unfold m; destruct onDrained as [hook|]; [by apply (Hh hook eq_refl name version (r1, w))|done]).
  destruct (m (r1, w)) as [[[]|e|] [r2 w2]] eqn:E; [|done..].
  cbn [fst snd] in Hx. subst r2. unfold a_bind. cbn [get_registry fst].
  change (isRoutable name version r1) with (isRoutable name version r).
  destruct (autoDeregister && _); by intros [= _ <-].
Qed.

Lemma settle_versions_drained result l r w o s' :
  (forall hook, onDrained = Some hook -> forall a b, aside (hook a b)) ->
  settle_versions autoDeregister onDrained name result l (r, w) = (Ret o, s') -> s'.1 = foldl (drained result) r l.
Proof.
  intros Hh. revert r w. induction l as [|v l IH]; intros r w; cbn [settle_versions foldl]; [by intros [= _ <-]|].
  unfold a_bind. destruct (settle_version _ _ _ _ v (r, w)) as [[[]|e|] [r1 w1]] eqn:E; [|done..].
  apply settle_version_drained in E; [|done]. cbn in E. subst r1. apply IH.
Qed.

Definition kept (result : jmap string VersionRunCounts) r (v : string) : bool :=
  negb autoDeregister || isRoutable name v r || (rc_running (opt_or (result !! v) no_counts) >? 0)
  || bool_decide (drain_key name v ∈ drainedNotified r).

Lemma drain_key_inj v v' : drain_key name v = drain_key name v' -> v = v'.
Proof. unfold drain_key. intros H. apply (inj (String.append name)) in H. by apply (inj (String.append "::")) in H. Qed.

(** Two registries that agree on [name] up to removed versions. *)
Record agree (gone : string -> Prop) r r' : Prop := {
  ag_latest : latest name r' = latest name r;
  ag_active : findActive name r' = findActive name r;
  ag_entry : forall v, ~ gone v -> entry_of name v r' = entry_of name v r;
  ag_notified : forall v, ~ gone v -> drain_key name v ∈ drainedNotified r' <-> drain_key name v ∈ drainedNotified r;
}.

Lemma find_delete_other (vs : jmap string (VersionEntry (Def := Def))) v :
  (forall e, (v, e) ∈ jm_entries vs -> is_active e = false) ->
  List.find (fun kv => is_active kv.2) (jm_entries (delete v vs)) = List.find (fun kv => is_active kv.2) (jm_entries vs).
Proof.
  destruct vs as [l]. unfold delete, jmap_delete. cbn. induction l as [|[k e] l IH]; cbn; [done|]. intros Hv.
  case_decide as Hk; [subst k; rewrite (Hv e) by left|cbn; destruct (is_active e); [done|]];
    apply IH; intros e' He'; apply Hv; by right.
Qed.

Lemma drained_agree result r v n : shown name r n ->
  agree (.= v) r (drained result r v) /\
  versionsOf name (drained result r v) = (if kept result r v then versionsOf name r else base.filter (.≠ v) (versionsOf name r)).
Proof.
  intros Hs. unfold drained, kept.
  assert (forall f, (forall v', v' <> v -> drain_key name v' ∈ f (drainedNotified r) <-> drain_key name v' ∈ drainedNotified r) ->
    agree (.= v) r (notified f r)) as Hnote by (intros f Hf; by split).
  assert (agree (.= v) r r) as Hid by (by split).
  assert (forall v', v' <> v -> drain_key name v' <> drain_key name v) as Hkey by (intros v' Hv' Hk; by apply drain_key_inj in Hk).
  case_bool_decide as He.
  - split; [done|]. rewrite entry_of_entries in He. apply jlookup_None in He. rewrite versionsOf_entries.
    destruct (negb _ || _ || _ || _); [done|]. symmetry. apply filter_all.
    apply Forall_forall. by intros v' Hv' ->.
  - destruct (rc_running _ >? 0) eqn:Er; [rewrite orb_true_r; cbn; split; [apply Hnote; set_solver|done]|].
    rewrite orb_false_r. case_bool_decide as Hn; [rewrite orb_true_r; by split|]. rewrite orb_false_r.
    destruct autoDeregister; cbn [negb orb andb]; [|split; [apply Hnote; set_solver|done]].
    destruct (isRoutable name v r) eqn:Ert; cbn [negb]; [split; [apply Hnote; set_solver|done]|].
    set (r1 := notified _ r). unfold isRoutable in Ert. apply orb_false_iff in Ert as [Hlat Hact].
    apply bool_decide_eq_false in Hlat. assert (entries_of name r1 = entries_of name r) as He1 by done.
    assert (latest name r1 = latest name r) as Hl1 by done. split; [split|].
    + rewrite deregister_latest. rewrite bool_decide_eq_false_2 by (by rewrite Hl1). done.
    + unfold findActive. unfold deregisterNow. cbn [definitions]. change (definitions r1) with (definitions r).
      unfold shown, entries_of in Hs. rewrite entry_of_entries in Hact. unfold entries_of in Hact.
      destruct (definitions r !! name) as [vs|] eqn:Ed; [|by rewrite Ed]. rewrite jlookup_insert_eq. cbn.
      rewrite find_delete_other; [done|]. intros e Hin.
      assert (vs !! v = Some e) as Hv by (apply jlookup_wf_elem; [unfold jm_wf; pose proof (sh_keys _ _ _ Hs) as Hk; cbn in Hk; rewrite Hk; apply (sh_nodup _ _ _ Hs)|done]).
      cbn in Hact. by rewrite Hv in Hact.
    + intros v' Hv'. rewrite !entry_of_entries, deregister_entries, He1. rewrite jlookup_delete_ne; [done|congruence].
    + intros v' Hv'. change (drain_key name v' ∈ {[drain_key name v]} ∪ drainedNotified r <-> drain_key name v' ∈ drainedNotified r).
      specialize (Hkey v' Hv'). set_solver.
    + by rewrite versionsOf_entries, deregister_entries, He1, jm_keys_delete, versionsOf_entries.
Qed.

Lemma drained_entry result r v : kept result r v = true -> entry_of name v (drained result r v) = entry_of name v r.
Proof.
  unfold drained, kept. destruct (bool_decide (entry_of name v r = None)); [done|].
  destruct (rc_running _ >? 0); [done|]. destruct (bool_decide (drain_key name v ∈ drainedNotified r)); [done|].
  by destruct autoDeregister, (isRoutable name v r).
Qed.

Lemma drained_shown result r v n : shown name r n -> exists n', shown name (drained result r v) n'.
Proof.
  intros Hs. unfold drained. repeat case_match; try (by exists n).
  exists (spec_deregister v n). unfold shown. rewrite deregister_entries, deregister_latest, jm_keys_delete.
  by apply (shows_deregister (entries_of name r)).
Qed.

Lemma kept_agree result gone r r' v : agree gone r r' -> ~ gone v -> kept result r' v = kept result r v.
Proof.
  intros [Hl _ He Hn] Hv. unfold kept, isRoutable. rewrite Hl, (He v Hv). by rewrite (bool_decide_ext _ _ (Hn v Hv)).
Qed.

Lemma drained_all result l r n : NoDup l -> shown name r n ->
  agree (.∈ l) r (foldl (drained result) r l) /\
  versionsOf name (foldl (drained result) r l) =
    base.filter (fun v => v ∉ l \/ kept result r v = true) (versionsOf name r) /\
  (forall v, kept result r v = true -> entry_of name v (foldl (drained result) r l) = entry_of name v r).
Proof.
  intros Hnd. revert r n. induction Hnd as [|v l Hv Hnd IH]; intros r n Hs; cbn [foldl].
  - split_and!; [by split| |done]. symmetry. apply filter_all, Forall_forall. intros v _. left. apply not_elem_of_nil.
  - destruct (drained_agree result r v n Hs) as [Ha Hvs]. destruct (drained_shown result r v n Hs) as [n' Hs'].
    destruct (IH _ _ Hs') as (Ha' & Hvs' & He'). split_and!.
    + split.
      * by rewrite (ag_latest _ _ _ Ha'), (ag_latest _ _ _ Ha).
      * by rewrite (ag_active _ _ _ Ha'), (ag_active _ _ _ Ha).
      * intros x [Hx1 Hx2]%not_elem_of_cons. by rewrite (ag_entry _ _ _ Ha'), (ag_entry _ _ _ Ha).
      * intros x [Hx1 Hx2]%not_elem_of_cons. by rewrite (ag_notified _ _ _ Ha'), (ag_notified _ _ _ Ha).
    + rewrite Hvs', Hvs. destruct (kept result r v) eqn:Ek; [|rewrite list_filter_filter]; apply list_filter_iff; intros x;
        rewrite not_elem_of_cons; destruct (decide (x = v)) as [->|Hx];
        rewrite ?(kept_agree _ _ _ _ _ Ha Hx); intuition congruence.
    + intros x Hx. destruct (decide (x = v)) as [->|Hne].
      * by rewrite (ag_entry _ _ _ Ha' v Hv), drained_entry.
      * rewrite He' by (by rewrite (kept_agree _ _ _ _ _ Ha Hne)). by apply (ag_entry _ _ _ Ha).
Qed.

Lemma count_all_aside count m wanted result : (forall a b c, aside (count a b c)) -> aside (count_all count m wanted result).
Proof.
  intros Hc. revert result. induction wanted as [|[v st] wanted IH]; intros result; cbn [count_all]; [by intros s|].
  intros s. unfold a_bind. pose proof (Hc m v st s) as H1. destruct (count m v st s) as [[k|e|] s1]; cbn in H1; [|done..].
  pose proof (IH (if k >? 0 then <[v:=addRunCount (opt_or (result !! v) no_counts) st k]> result else result) s1) as H2.
  by rewrite H2.
Qed.

Lemma countByVersion_drained storage r w result r' w' :
  (forall hook a b, onDrained = Some hook -> aside (hook a b)) ->
  (forall count a b c, cs_countWorkflows storage = Some count -> aside (count a b c)) ->
  (forall a, aside (cs_listWorkflows storage a)) ->
  countByVersion autoDeregister onDrained name storage (r, w) = (Ret result, (r', w')) ->
  r' = foldl (drained result) r (versionsOf name r).
Proof.
  intros Hh Hc Hl. unfold countByVersion. unfold a_bind at 1. cbn [get_registry fst].
  set (zero := JMap _). set (m := match cs_countWorkflows storage with Some _ => _ | None => _ end).
  assert (aside m) as Hm.
  { unfold m. destruct (cs_countWorkflows storage) as [count|] eqn:E; [apply count_all_aside; eauto|].
    intros s. unfold a_bind. pose proof (Hl name s) as H1. by destruct (cs_listWorkflows storage name s) as [[?|?|] ?]. }
  unfold a_bind at 1. specialize (Hm (r, w)). destruct (m (r, w)) as [[counts|e|] [r1 w1]]; [|done..].
  cbn in Hm. subst r1. unfold a_bind.
  destruct (settle_versions autoDeregister onDrained name counts (versionsOf name r) (r, w1)) as [[[]|e|] [r2 w2]] eqn:E; [|done..].
  intros [= -> -> ->]. apply settle_versions_drained in E; [done|]. eauto.
Qed.
End drain.

(** Draining a name removes no version that new runs can be routed to.
    With counts and a hook that leave the registry alone, [countByVersion]
    removes exactly the versions that have no run in flight, have not been
    notified before and are neither the latest nor the active one, and only
    with [autoDeregister]: the latest and the active version stay, and with
    them what a start of the name resolves to. *)
Theorem drain_keeps_routes {Def W} (auto : bool) hook name (storage : CountStorage (Def := Def) (W := W)) r w result r' w' n :
  shown name r n ->
  (forall h a b, hook = Some h -> aside (h a b)) ->
  (forall count a b c, cs_countWorkflows storage = Some count -> aside (count a b c)) ->
  (forall a, aside (cs_listWorkflows storage a)) ->
  countByVersion auto hook name storage (r, w) = (Ret result, (r', w')) ->
  latest name r' = latest name r /\ findActive name r' = findActive name r /\
  resolve name None r' = resolve name None r /\
  versionsOf name r' = base.filter (fun v => kept auto name result r v = true) (versionsOf name r) /\
  forall v, isRoutable name v r = true -> v ∈ versionsOf name r -> v ∈ versionsOf name r'.
Proof.
  intros Hs Hh Hc Hl Hcount. apply countByVersion_drained in Hcount as ->; [|done..].
  assert (NoDup (versionsOf name r)) as Hnd by (rewrite versionsOf_entries, (sh_keys _ _ _ Hs); apply (sh_nodup _ _ _ Hs)).
  destruct (drained_all auto name result _ r n Hnd Hs) as (Ha & Hvs & He).
  set (r' := foldl _ r _) in *. rewrite Hvs. clear Hvs.
  assert (base.filter (fun v => v ∉ versionsOf name r \/ kept auto name result r v = true) (versionsOf name r) =
    base.filter (fun v => kept auto name result r v = true) (versionsOf name r)) as ->
    by (apply filter_ext_elem; tauto).
  assert (forall v, isRoutable name v r = true -> kept auto name result r v = true) as Hroute
    by (intros v Hv; unfold kept; by rewrite Hv, orb_true_r).
  split_and!; [apply (ag_latest _ _ _ _ Ha)|apply (ag_active _ _ _ _ Ha)| |done|].
  - assert (forall r0 : VersionRegistry (Def := Def), resolve name None r0 = mbind (M := option) (fun v => if bool_decide (v = "") then None else ve_definition <$> entry_of name v r0) (latest name r0)) as Hres.
    { intros r0. unfold resolve, entry_of, truthy_str. destruct (definitions r0 !! name) as [vs|]; cbn;
        destruct (latest name r0) as [v|]; cbn; try done; by repeat case_bool_decide. }
    rewrite !Hres, (ag_latest _ _ _ _ Ha). destruct (latest name r) as [v|] eqn:El; [|done]. cbn. rewrite He; [done|].
    apply Hroute. unfold isRoutable. by rewrite El, bool_decide_eq_true_2.
  - intros v Hv Hin. apply list_elem_of_filter. split; [by apply Hroute|done].
Qed.


(** ** Runs *)
Definition order_v (v : string) : string * option string := ("order", Some v).
Definition order_calls : list (Z * RegistryCall (Def := string * option string)) :=
  [(1, RRegister (order_v "1") None); (2, RRegister (order_v "2") None); (3, RPromote "order" "1");
   (4, RRegister (order_v "3") None); (5, RRegister ("other", Some "9") None); (6, RRollback "order" "3")].
Definition order_registry : VersionRegistry (Def := string * option string) :=
  run_ops (registry_call fst snd) order_calls no_definitions.

Example order_routes :
  versionsOf "order" order_registry = ["1"; "2"; "3"] /\
  vr_version <$> findActive "order" order_registry = Some "3" /\
  vr_status <$> getStatus "order" "1" order_registry = Some VArchived.
Proof. vm_compute. by split_and!. Qed.

(** Runs in flight per version, as a storage lists them. *)
Definition listing (runs : list (option string * WorkflowStatus)) : CountStorage (Def := string * option string) (W := unit) :=
  mkCountStorage None (fun _ => a_ret runs).

(** "1" has a run in flight, "2" has drained. *)
Definition order_runs := listing [(Some "1", RunState.Suspended); (Some "2", RunState.Completed); (None, RunState.Running)].

Lemma drain_keeps_routes_witness :
  exists result r', countByVersion true None "order" order_runs (order_registry, tt) = (Ret result, (r', tt)) /\
    versionsOf "order" r' = ["1"; "3"] /\ latest "order" r' = latest "order" order_registry /\
    findActive "order" r' = findActive "order" order_registry.
Proof.
  assert (forall result r', countByVersion true None "order" order_runs (order_registry, tt) = (Ret result, (r', tt)) ->
    latest "order" r' = latest "order" order_registry /\ findActive "order" r' = findActive "order" order_registry) as Hgen.
  { intros result r' E.
    destruct (drain_keeps_routes true None "order" order_runs order_registry tt result r' tt _
      (shown_run fst snd "order" order_calls _ _ (shown_empty "order")) ltac:(done) ltac:(done) ltac:(intros a s; reflexivity) E)
      as (H1 & H2 & _). by split. }
  destruct (countByVersion true None "order" order_runs (order_registry, tt)) as [o [r' []]] eqn:E.
  assert (exists result, o = Ret result) as [result ->] by (vm_compute in E; injection E as <- _; by eexists).
  exists result, r'. split; [done|]. destruct (Hgen _ _ eq_refl) as [H1 H2]. split_and!; [|done..].
  vm_compute in E. injection E as _ <-. reflexivity.
Defined.

(** A version that drained while it was the latest is not deregistered once a
    later one has taken its place: it was notified before. *)
Example drained_latest_stays :
  let count := countByVersion true None "order" (listing []) in
  let r := (register fst snd 1 (order_v "1") None no_definitions).2 in
  let r := (count (r, tt)).2.1 in
  let r := (register fst snd 2 (order_v "2") None r).2 in
  versionsOf "order" (count (r, tt)).2.1 = ["1"; "2"].
Proof. vm_compute. reflexivity. Qed.

(** The key of a drain joins name and version unescaped: the drain of one
    workflow silences another's. *)
Example drain_keys_collide : drain_key "a" "b::1" = drain_key "a::b" "1".
Proof. reflexivity. Qed.
