(* ===== verification/Steps.v ===== *)
(** The step kinds of the builder that need no storage:
    [durable/steps/basic-step.ts], [branch-step.ts], [match-step.ts],
    [guard-steps.ts], [parallel-steps.ts], the step cache of
    [durable/step-cache.ts] and the shared helpers of
    [durable/step-definition.ts].

    A step factory builds a [StepDefinition] of [StepBody]; its [execute] is
    an effect on the metadata slot and the world. User functions may throw,
    and return an effect, a promise or a value. *)
From Stdlib Require Import QArith.
From S2P Require Import Prelude Leases Json Journal RunState Storage Exits Retry Replay StepBody Checkpoint Waves WaveLaws.
Open Scope string_scope.
Open Scope list_scope.
Open Scope Z_scope.

(** ** Effects *)
Definition Eff (S A : Type) : Type := S -> exit A * S.

Section effects.
Context {S : Type}.

Definition succeed {A} (a : A) : Eff S A := fun s => (Succ a, s).
Definition fail {A} (e : thrown) : Eff S A := fun s => (Fails e, s).
Definition die {A} (e : thrown) : Eff S A := fun s => (Dies e, s).

Definition flatMap {A B} (m : Eff S A) (k : A -> Eff S B) : Eff S B := fun s =>
  match m s with
  | (Succ a, s) => k a s
  | (Fails e, s) => (Fails e, s)
  | (Dies e, s) => (Dies e, s)
  | (Killed, s) => (Killed, s)
  end.

(** A synchronous call inside of an effect: a throw is a defect. *)
Definition sync {A} (r : res thrown A) : Eff S A :=
  match r with Ok a => succeed a | Err e => die e end.

(** [promiseOrDie]. *)
Definition promiseOrDie {A} (p : async S A) : Eff S A := fun s =>
  let '(o, s) := p s in
  (match o with Ret a => Succ a | Throws e => Dies e | Died => Killed end, s).

(** [tryPromise(p, map)]: a rejection is a typed failure. *)
Definition tryPromise {A} (p : async S A) (map : thrown -> thrown) : Eff S A := fun s =>
  let '(o, s) := p s in
  (match o with Ret a => Succ a | Throws e => Fails (map e) | Died => Killed end, s).

(** [tapErrorCause]: [f] sees the failure or the defect, which then goes on. *)
Definition tapErrorCause {A} (m : Eff S A) (f : thrown -> Eff S unit) : Eff S A := fun s =>
  match m s with
  | (Fails e, s) => flatMap (f e) (fun _ => fail e) s
  | (Dies e, s) => flatMap (f e) (fun _ => die e) s
  | r => r
  end.

(** [catch]: typed failures only. *)
Definition catch {A} (m : Eff S A) (h : thrown -> Eff S A) : Eff S A := fun s =>
  match m s with
  | (Fails e, s) => h e s
  | r => r
  end.
End effects.

Notation "'let$' x := m 'in' k" := (flatMap m (fun x => k))
  (at level 10, x name, m at level 200, k at level 200) : promin_scope.
Notation "'do$' m 'in' k" := (flatMap m (fun _ => k))
  (at level 10, m at level 200, k at level 200) : promin_scope.
Open Scope promin_scope.

(** An effect on the world, run where the metadata slot is in reach. *)
Definition on_slot {W A} (m : Eff W A) : Eff (option metadata * W) A := fun '(slot, w) =>
  let '(x, w) := m w in (x, (slot, w)).

Definition set_slot {W} (m : metadata) : Eff (option metadata * W) unit := fun '(_, w) =>
  (Succ tt, (Some m, w)).

(** ** User functions *)
Inductive promised (W : Type) : Type :=
| PrEff (e : Eff W json)
| PrValue (v : json).
Arguments PrEff {W} e.
Arguments PrValue {W} v.

Inductive StepBodyResult (W : Type) : Type :=
| RetEff (e : Eff W json)
| RetPromise (p : async W (promised W))
| RetValue (v : json).
Arguments RetEff {W} e.
Arguments RetPromise {W} p.
Arguments RetValue {W} v.

(** [promiseOrEff]. *)
Definition promiseOrEff {W} (p : async W (promised W)) : Eff W json :=
  let$ value := promiseOrDie p in
  match value with PrEff e => e | PrValue v => succeed v end.

Definition asStepEff {W} (r : StepBodyResult W) : Eff W json :=
  match r with
  | RetEff e => e
  | RetPromise p => promiseOrEff p
  | RetValue v => succeed v
  end.

(** A user function of [Ctx]: called on the world, it may throw. *)
Definition StepFn (Ctx W : Type) : Type := Ctx -> W -> res thrown (StepBodyResult W) * W.

(** [asStepEff(fn(ctx))], with a throw of [fn] as a defect. *)
Definition run_fn {Ctx W} (fn : StepFn Ctx W) (ctx : Ctx) : Eff W json := fun w =>
  let '(r, w) := fn ctx w in
  match r with Ok b => asStepEff b w | Err e => (Dies e, w) end.

(** ** Contexts *)
Record StepContext : Type := mkStepContext {
  sc_input : json;
  sc_prev : json;
  sc_workflowId : string;
  sc_attempt : Z;
}.

Record DagStepContext : Type := mkDagContext {
  dsc_input : json;
  dsc_deps : list (string * json);
  dsc_workflowId : string;
  dsc_attempt : Z;
}.

Definition exec_prev (dependsOn : list string) (exec : ExecuteParams) : json :=
  readPrev dependsOn (ep_results exec) (ep_input exec).

Definition linearStepContext (dependsOn : list string) (exec : ExecuteParams) : StepContext :=
  mkStepContext (ep_input exec) (exec_prev dependsOn exec) (ep_workflowId exec) (ep_attempt exec).

(** ** Options *)
Record CacheStore (W : Type) : Type := mkCacheStore {
  cs_get : string -> async W json;
  cs_set : string -> json -> Z -> async W unit;
}.
Arguments mkCacheStore {W}.
Arguments cs_get {W}.
Arguments cs_set {W}.

Record StepCacheOption (W : Type) : Type := mkCacheOption {
  co_key : StepContext -> res thrown string;
  co_ttlMs : Z;
  co_store : CacheStore W;
  co_namespace : option string;
}.
Arguments mkCacheOption {W}.
Arguments co_key {W}.
Arguments co_ttlMs {W}.
Arguments co_store {W}.
Arguments co_namespace {W}.

Record StepOptions (W : Type) : Type := mkOptions {
  so_codec : option Codec;
  so_timeoutMs : option Z;
  so_retry : option RetryPolicy;
  so_onFailure : option StepFailureStrategy;
  so_compensate : option (json -> json -> string -> W -> outcome unit * W);
  so_skipWhen : option (json -> res thrown bool);
  so_skipValue : option (json -> res thrown json);
  so_cache : option (StepCacheOption W);
}.
Arguments mkOptions {W}.
Arguments so_codec {W}.
Arguments so_timeoutMs {W}.
Arguments so_retry {W}.
Arguments so_onFailure {W}.
Arguments so_compensate {W}.
Arguments so_skipWhen {W}.
Arguments so_skipValue {W}.
Arguments so_cache {W}.

Definition no_options {W} : StepOptions W := mkOptions None None None None None None None None.

(** A step with the policy fields of its options ([toStepPolicy]). *)
Definition step_with_policy {W} (name : string) (dependsOn : list string) (kind : StepKind) (codec : Codec)
    (options : option (StepOptions W))
    (execute : ExecuteParams -> Eff (option metadata * W) json) : StepDefinition W :=
  let o := opt_or options no_options in
  mkStepDef name dependsOn kind execute codec (so_timeoutMs o) (so_retry o)
    (opt_or (so_onFailure o) OnFail) (so_compensate o) (so_skipWhen o) (so_skipValue o).

(** ** The step cache *)
Definition stepCacheKey (namespace stepName key : string) : string :=
  namespace +:+ ":" +:+ stepName +:+ ":" +:+ key.

Section cache.
Context {W : Type}.
Implicit Types (cache : StepCacheOption W) (codec : Codec).

(** [lookup]: a hit, decoded; [None] is the miss. *)
Definition cache_lookup cache codec (cacheKey : string) : async W (option json) :=
  a_catch (let% hit := cs_get (co_store cache) cacheKey in
           match hit with
           | JUndef => a_ret None
           | _ => let% v := a_lift (codec_decode codec hit) in a_ret (Some v)
           end)
    (fun _ => a_ret None).

Definition cache_write cache codec (cacheKey : string) (result : json) : async W unit :=
  a_catch (let% v := a_lift (codec_encode codec result) in
           cs_set (co_store cache) cacheKey v (co_ttlMs cache))
    (fun _ => a_ret tt).

Definition wrapWithStepCache cache (ctx : StepContext) (runBody : Eff (option metadata * W) json)
    (stepName namespace : string) codec : Eff (option metadata * W) json :=
  let$ key := sync (co_key cache ctx) in
  let cacheKey := stepCacheKey namespace stepName key in
  let$ value := on_slot (promiseOrDie (cache_lookup cache codec cacheKey)) in
  match value with
  | Some value => succeed value
  | None =>
      let$ result := runBody in
      do$ on_slot (promiseOrDie (cache_write cache codec cacheKey result)) in
      succeed result
  end.

Definition withOptionalStepCache (cache : option (StepCacheOption W)) (ctx : StepContext)
    (runBody : Eff (option metadata * W) json) (stepName namespace : string) codec
    : Eff (option metadata * W) json :=
  match cache with
  | None => runBody
  | Some cache => wrapWithStepCache cache ctx runBody stepName (opt_or (co_namespace cache) namespace) codec
  end.
End cache.

Definition options_cache {W} (options : option (StepOptions W)) : option (StepCacheOption W) :=
  options ≫= so_cache.

(** ** [.step()] and [.map()] *)
Inductive BasicFn (W : Type) : Type :=
| LinearFn (fn : StepFn StepContext W)
| DagFn (fn : StepFn DagStepContext W).
Arguments LinearFn {W} fn.
Arguments DagFn {W} fn.

(** [deps[dep] = results[dep]] for every dependency, in order. *)
Definition read_deps (dependsOn : list string) (results : jmap string json) : list (string * json) :=
  foldl (fun deps dep => alist_set dep (result_of results dep) deps) [] dependsOn.

Definition dagStepContext (dependsOn : list string) (exec : ExecuteParams) : DagStepContext :=
  mkDagContext (ep_input exec) (read_deps dependsOn (ep_results exec)) (ep_workflowId exec) (ep_attempt exec).

Definition run_basic {W} (fn : BasicFn W) (dependsOn : list string) (exec : ExecuteParams) : Eff W json :=
  match fn with
  | LinearFn fn => run_fn fn (linearStepContext dependsOn exec)
  | DagFn fn => run_fn fn (dagStepContext dependsOn exec)
  end.

Definition createBasicStep {W} (name : string) (dependsOn : list string) (fn : BasicFn W)
    (options : option (StepOptions W)) (codec : Codec) (cacheNamespace : string) : StepDefinition W :=
  step_with_policy name dependsOn KNormal codec options (fun exec =>
    withOptionalStepCache (options_cache options) (linearStepContext dependsOn exec)
      (on_slot (run_basic fn dependsOn exec)) name cacheNamespace codec).

Definition createTransformStep {W} (name head : string) (fn : json -> res thrown json) (codec : Codec)
    : StepDefinition W :=
  step_with_policy name [head] KTransform codec None (fun exec =>
    sync (fn (result_of (ep_results exec) head))).

(** ** [.branch()] *)
Definition run_branch {W} (condition : json -> res thrown bool) (ifTrue ifFalse : StepFn StepContext W)
    (ctx : StepContext) : Eff W json :=
  let$ passes := sync (condition (sc_prev ctx)) in
  run_fn (if (passes : bool) then ifTrue else ifFalse) ctx.

Definition createBranchStep {W} (name : string) (dependsOn : list string)
    (condition : json -> res thrown bool) (ifTrue ifFalse : StepFn StepContext W)
    (options : option (StepOptions W)) (codec : Codec) (cacheNamespace : string) : StepDefinition W :=
  step_with_policy name dependsOn KBranch codec options (fun exec =>
    let ctx := linearStepContext dependsOn exec in
    withOptionalStepCache (options_cache options) ctx
      (on_slot (run_branch condition ifTrue ifFalse ctx)) name cacheNamespace codec).

(** ** [.match()] *)
Record MatchCase (W : Type) : Type := mkMatchCase {
  mc_label : option string;
  mc_when : json -> res thrown bool;
  mc_then : StepFn StepContext W;
}.
Arguments mkMatchCase {W}.
Arguments mc_label {W}.
Arguments mc_when {W}.
Arguments mc_then {W}.

Inductive MatchCases (W : Type) : Type :=
| Selector (on : json -> res thrown string) (cases : list (string * StepFn StepContext W))
| Predicate (cases : list (MatchCase W)).
Arguments Selector {W} on cases.
Arguments Predicate {W} cases.

Record MatchParams (W : Type) : Type := mkMatchParams {
  mp_cases : MatchCases W;
  mp_default : option (StepFn StepContext W);
}.
Arguments mkMatchParams {W}.
Arguments mp_cases {W}.
Arguments mp_default {W}.

Inductive MatchMode : Type := MSelector | MPredicate.
#[global] Instance MatchMode_eq_dec : EqDecision MatchMode.
Proof. solve_decision. Defined.

Definition mode_name (m : MatchMode) : string :=
  match m with MSelector => "selector" | MPredicate => "predicate" end.

Record PickedMatchBranch (W : Type) : Type := mkPicked {
  pb_fn : StepFn StepContext W;
  pb_mode : MatchMode;
  pb_label : string;
}.
Arguments mkPicked {W}.
Arguments pb_fn {W}.
Arguments pb_mode {W}.
Arguments pb_label {W}.

(** What [pickMatchBranch] answers: a branch, or the fields of the error. *)
Inductive MatchPick (W : Type) : Type :=
| Picked (p : PickedMatchBranch W)
| NoMatch (mode : MatchMode) (selectorKey : option string).
Arguments Picked {W} p.
Arguments NoMatch {W} mode selectorKey.

Definition case_label {W} (i : nat) (c : MatchCase W) : string :=
  opt_or (mc_label c) ("case[" +:+ str_of_Z (Z.of_nat i) +:+ "]").

(** The predicate loop, from case [i] on. *)
Fixpoint first_match {W} (i : nat) (cases : list (MatchCase W)) (prev : json)
    : res thrown (option (PickedMatchBranch W)) :=
  match cases with
  | [] => Ok None
  | c :: cases =>
      match mc_when c prev with
      | Err e => Err e
      | Ok true => Ok (Some (mkPicked (mc_then c) MPredicate (case_label i c)))
      | Ok false => first_match (Datatypes.S i) cases prev
      end
  end.

Definition default_or {W} (mode : MatchMode) (selectorKey : option string)
    (default : option (StepFn StepContext W)) : MatchPick W :=
  match default with
  | Some fn => Picked (mkPicked fn mode "default")
  | None => NoMatch mode selectorKey
  end.

Definition pickMatchBranch {W} (m : MatchParams W) (prev : json) : res thrown (MatchPick W) :=
  match mp_cases m with
  | Selector on cases =>
      match on prev with
      | Err e => Err e
      | Ok key =>
          Ok match alist_get key cases with
             | Some fn => Picked (mkPicked fn MSelector key)
             | None => default_or MSelector (Some key) (mp_default m)
             end
      end
  | Predicate cases =>
      match first_match 0 cases prev with
      | Err e => Err e
      | Ok (Some p) => Ok (Picked p)
      | Ok None => Ok (default_or MPredicate None (mp_default m))
      end
  end.

Definition matchVizMeta {W} (m : MatchParams W) : list string * bool :=
  (match mp_cases m with
   | Selector _ cases => cases.*1
   | Predicate cases => imap case_label cases
   end, bool_decide (is_Some (mp_default m))).

Section match_step.
Context {W : Type} (host : RunnerHost W).

Definition no_match_message (stepName : string) (mode : MatchMode) (selectorKey : option string) : string :=
  "match step " +:+ quoted stepName +:+
  match mode with
  | MSelector => " — no case for selector key " +:+ quoted (opt_or selectorKey "") +:+ " and no default"
  | MPredicate => " — no predicate matched and no default"
  end.

Definition MatchError (stepName : string) (mode : MatchMode) (selectorKey : option string) : thrown :=
  engine_error host "MatchError"
    ([("stepName", JStr stepName); ("mode", JStr (mode_name mode))] ++
     match selectorKey with Some k => [("selectorKey", JStr k)] | None => [] end)
    (no_match_message stepName mode selectorKey).

Definition run_match (m : MatchParams W) (stepName : string) (ctx : StepContext)
    : Eff (option metadata * W) json :=
  let$ picked := sync (pickMatchBranch m (sc_prev ctx)) in
  match picked with
  | NoMatch mode key => fail (MatchError stepName mode key)
  | Picked p =>
      do$ set_slot [("matchCase", JStr (pb_label p)); ("matchMode", JStr (mode_name (pb_mode p)))] in
      on_slot (run_fn (pb_fn p) ctx)
  end.

Definition createMatchStep (name : string) (dependsOn : list string) (m : MatchParams W)
    (options : option (StepOptions W)) (codec : Codec) (cacheNamespace : string) : StepDefinition W :=
  step_with_policy name dependsOn KMatch codec options (fun exec =>
    let ctx := linearStepContext dependsOn exec in
    withOptionalStepCache (options_cache options) ctx (run_match m name ctx) name cacheNamespace codec).

(** ** [.guard()] and [.tripwire()] *)
Definition GuardError (workflowId stepName : string) (failureMessage : option string) : thrown :=
  engine_error host "GuardError" [("workflowId", JStr workflowId); ("stepName", JStr stepName)]
    (opt_or failureMessage ("Guard " +:+ quoted stepName +:+ " failed")).

Definition createGuardStep (name : string) (dependsOn : list string) (predicate : json -> res thrown bool)
    (failureMessage : option string) (codec : Codec) : StepDefinition W :=
  step_with_policy name dependsOn KGuard codec None (fun exec =>
    let prev := exec_prev dependsOn exec in
    let$ passes := sync (predicate prev) in
    if (passes : bool) then succeed prev
    else fail (GuardError (ep_workflowId exec) name failureMessage)).

Definition createTripwireStep (name : string) (dependsOn : list string) (when : json -> res thrown bool)
    (reason : json -> res thrown json) (codec : Codec) : StepDefinition W :=
  step_with_policy name dependsOn KTripwire codec None (fun exec =>
    let prev := exec_prev dependsOn exec in
    let$ fires := sync (when prev) in
    if (fires : bool) then
      let$ reason := sync (reason prev) in
      do$ set_slot [("tripwireFired", JBool true); ("reason", reason)] in
      succeed reason
    else succeed prev).
End match_step.

(** ** [.parallel()] *)
(** [Object.entries]; [null] and [undefined] have none to read. *)
Definition entries_of (v : json) : option (list (string * json)) :=
  match v with
  | JUndef | JNull => None
  | JObj fs => Some fs
  | JArr l => Some (imap (fun i x => (str_of_Z (Z.of_nat i), x)) l)
  | JStr s => Some (imap (fun i c => (str_of_Z (Z.of_nat i), JStr (String c ""))) (String.list_ascii_of_string s))
  | _ => Some []
  end.

Fixpoint map_record (codecs : list (string * Codec)) (pick : Codec -> json -> res thrown json)
    (fs : list (string * json)) : res thrown (list (string * json)) :=
  match fs with
  | [] => Ok []
  | (key, v) :: fs =>
      match match alist_get key codecs with Some c => pick c v | None => Ok v end with
      | Err e => Err e
      | Ok v => match map_record codecs pick fs with Ok out => Ok ((key, v) :: out) | Err e => Err e end
      end
  end.

Section parallel.
Context {W : Type} (host : RunnerHost W).

Definition no_entries : thrown := TError (new_error "TypeError" "Cannot convert undefined or null to object").

Definition recordCodec (codecs : list (string * Codec)) : Codec :=
  let mapRecord pick value :=
    match entries_of value with
    | None => Err no_entries
    | Some fs => match map_record codecs pick fs with Ok out => Ok (JObj out) | Err e => Err e end
    end in
  mkCodec (mapRecord codec_encode) (mapRecord codec_decode).

Record ParallelOptions : Type := mkParallelOptions {
  po_codec : option Codec;
  po_timeoutMs : option Z;
  po_retry : option RetryPolicy;
  po_cache : option (StepCacheOption W);
  po_branches : list (string * option (StepOptions W));
}.

Definition WorkflowError (message : string) : thrown :=
  engine_error host "WorkflowError" [("workflowId", JStr "")] message.

(** [{ ...blockDefaults, ...perBranch[key] }]: an option the branch sets
    wins over that of the block. *)
Definition branch_options (block : option ParallelOptions) (own : option (StepOptions W)) : StepOptions W :=
  let o := opt_or own no_options in
  mkOptions (so_codec o) (opt_else (so_timeoutMs o) (block ≫= po_timeoutMs))
    (opt_else (so_retry o) (block ≫= po_retry)) (so_onFailure o) (so_compensate o)
    (so_skipWhen o) (so_skipValue o) (opt_else (so_cache o) (block ≫= po_cache)).

Definition branch_own (options : option ParallelOptions) (key : string) : option (StepOptions W) :=
  match options with Some o => mjoin (M := option) (alist_get key (po_branches o)) | None => None end.

Definition branch_codec (options : option ParallelOptions) (defaultCodec : Codec) (key : string) : Codec :=
  opt_or (so_codec (branch_options options (branch_own options key))) defaultCodec.

Definition parallel_branch (name : string) (dependsOn : list string) (options : option ParallelOptions)
    (defaultCodec : Codec) (cacheNamespace : string) (branch : string * StepFn StepContext W)
    : StepDefinition W :=
  let '(key, fn) := branch in
  let scopedName := name +:+ "." +:+ key in
  let o := branch_options options (branch_own options key) in
  let codec := branch_codec options defaultCodec key in
  step_with_policy scopedName dependsOn KNormal codec (Some o) (fun exec =>
    let ctx := linearStepContext dependsOn exec in
    withOptionalStepCache (so_cache o) ctx (on_slot (run_fn fn ctx)) scopedName cacheNamespace codec).

Definition joinCodec (options : option ParallelOptions) (defaultCodec : Codec) (keys : list string) : Codec :=
  let any := existsb (fun key => bool_decide (is_Some (branch_own options key ≫= so_codec))) keys in
  opt_or (options ≫= po_codec)
    (if any then recordCodec ((fun key => (key, branch_codec options defaultCodec key)) <$> keys)
     else defaultCodec).

Definition parallel_join (name : string) (options : option ParallelOptions) (defaultCodec : Codec)
    (keys : list string) : StepDefinition W :=
  step_with_policy name ((fun key => name +:+ "." +:+ key) <$> keys) KParallel
    (joinCodec options defaultCodec keys) None (fun exec =>
    succeed (JObj ((fun key => (key, result_of (ep_results exec) (name +:+ "." +:+ key))) <$> keys))).

(** The branches are those of the object, in the order of its keys. *)
Definition createParallelSteps (name : string) (dependsOn : list string)
    (branches : list (string * StepFn StepContext W)) (options : option ParallelOptions)
    (defaultCodec : Codec) (cacheNamespace : string) : res thrown (list (StepDefinition W)) :=
  let keys := branches.*1 in
  match keys with
  | [] => Err (WorkflowError (".parallel(" +:+ quoted name +:+ ", ...) requires at least one branch"))
  | _ =>
      match List.find (fun key => negb (bool_decide (key ∈ keys)))
              (match options with Some o => (po_branches o).*1 | None => [] end) with
      | Some key =>
          Err (WorkflowError (".parallel(" +:+ quoted name +:+ ", ...): options.branches has no branch "
                              +:+ quoted key))
      | None =>
          Ok ((parallel_branch name dependsOn options defaultCodec cacheNamespace <$> branches) ++
              [parallel_join name options defaultCodec keys])
      end
  end.
End parallel.
Arguments ParallelOptions W : clear implicits.

(** ** What effects do to a world

    Their exits, and the writes of the storage they await, in the terms of
    [WaveLaws]. *)
(** The same exit, no success. *)
Inductive stops {A B} : exit A -> exit B -> Prop :=
| StopFails e : stops (Fails e) (Fails e)
| StopDies e : stops (Dies e) (Dies e)
| StopKilled : stops Killed Killed.

Lemma flatMap_cases {S A B} (m : Eff S A) (k : A -> Eff S B) s x s' :
  flatMap m k s = (x, s') ->
  (exists a s1, m s = (Succ a, s1) /\ k a s1 = (x, s')) \/ (exists y, m s = (y, s') /\ stops y x).
Proof.
  unfold flatMap. destruct (m s) as [[a|e|e|] s1]; [left; by exists a, s1|..];
    intros [= <- <-]; right; eexists; (split; [done|constructor]).
Qed.

Lemma sync_cases {S A} (r : res thrown A) s x s' :
  sync (S := S) r s = (x, s') -> s' = s /\ ((exists a, r = Ok a /\ x = Succ a) \/ (exists e, r = Err e /\ x = Dies e)).
Proof. destruct r as [a|e]; intros [= <- <-]; (split; [done|]); [left|right]; by eexists. Qed.

(** A promise of the storage, as an effect. *)
Lemma promiseOrDie_put {W V E A} (held : W -> Prop) (rv : W -> string -> option V) (log : W -> list E)
    x c (p : async W A) w y w' :
  (let '(o, w') := p w in put held rv log x c w w' o) -> promiseOrDie p w = (y, w') ->
  log w' = log w /\
  (held w' -> held w /\ (forall n, n <> x -> rv w' n = rv w n) /\ (forall a, y = Succ a -> rv w' x = c)) /\
  (forall e, y <> Fails e).
Proof.
  unfold promiseOrDie. intros Hp Hy. destruct (p w) as [o w1]. injection Hy as <- <-.
  destruct Hp as [Hl Hp]. split; [done|]. split; [|by destruct o]. intros Hh.
  destruct (Hp Hh) as (H1 & H2 & H3). split; [done|]. split; [done|]. intros a Ha. by destruct o.
Qed.

Lemma promiseOrDie_quiet {W V E A} (held : W -> Prop) (rv : W -> string -> option V) (log : W -> list E)
    (p : async W A) : quietly held rv log p ->
  forall w, quiet held rv log w (promiseOrDie p w).2.
Proof. intros Hp w. specialize (Hp w). unfold promiseOrDie. by destruct (p w). Qed.
