(* ===== verification/StoreSteps.v ===== *)
(** The step kinds that write rows of their own: the loop of
    [durable/steps/loop-step.ts], [map-over-step.ts], [suspend-steps.ts] and
    [subworkflow-step.ts], with the waits on a child of
    [durable/child-wake.ts].

    An interruption of a running body - the timer of its step - is no exit
    here: the verdict of [withStepTimeout] falls when the body has settled.
    The elements of a map run concurrently in the code; they share nothing
    but the world, so they run one after the other here, in an order that the
    host picks and that may be any, until one does not succeed. *)
From Stdlib Require Import QArith.
From S2P Require Import Prelude Leases Json Journal RunState Storage Exits Retry Replay StepBody Checkpoint Steps.
Open Scope string_scope.
Open Scope list_scope.
Open Scope Z_scope.

(** The calls of the storage that only these steps make. [ss_tasks] reads
    the task array that a handed-out row refers to. *)
Class StepStore (W : Type) `{RunStore W} : Type := {
  ss_suspendWorkflow : option FenceGuard -> string -> string -> StepUpdate -> async W unit;
  ss_saveTaskResult : option FenceGuard -> string -> string -> Z -> json -> async W unit;
  ss_saveTaskFailure : option FenceGuard -> string -> string -> Z -> string -> async W unit;
  ss_loadSignals : string -> async W (list SignalState);
  ss_tasks : option nat -> W -> list StepTaskState;
}.

(** [state?.steps[name]]. *)
Definition state_row (name : string) (state : option WorkflowState) : option StepState :=
  state ≫= fun st => alist_get name (ws_steps st).

Section steps.
Context {W : Type} `{StepStore W} (host : RunnerHost W).

(** The runner hands every step its row, [None] for none. *)
Definition currentStepState (exec : ExecuteParams) (stepName : string) (reload : bool)
    : Eff W (option StepState) :=
  if reload then
    let$ state := promiseOrDie (rs_loadWorkflow (ep_workflowId exec)) in
    succeed (state_row stepName state)
  else succeed (ep_stepState exec).

Definition now_ms : Eff W Z := fun w => let '(t, w) := rh_now host w in (Succ t, w).

(** ** [.sleep()] and [.waitForSignal()] *)
Definition suspended_error (workflowId stepName reason message : string) : thrown :=
  engine_error host "WorkflowSuspendedError"
    [("workflowId", JStr workflowId); ("stepName", JStr stepName); ("reason", JStr reason)] message.

Definition sleeping_until (wakeAt : Z) : string := "Sleeping until " +:+ toISOString wakeAt.

Definition sleep_update (wakeAt : Z) : StepUpdate :=
  mkStepUpdate (Some (Some SSleeping)) None (Some TySleep) None None None None None None None
    (Some (Some wakeAt)) None None None None.

Definition run_sleep (name : string) (dependsOn : list string) (ms : Z) (exec : ExecuteParams) : Eff W json :=
  let$ stepState := currentStepState exec name false in
  let suspends wakeAt := fail (suspended_error (ep_workflowId exec) name "sleep" (sleeping_until wakeAt)) in
  match stepState ≫= fun st => if bool_decide (st_status st = Some SSleeping) then st_wakeAt st else None with
  | Some wakeAt =>
      let$ now := now_ms in
      if wakeAt <=? now then succeed (exec_prev dependsOn exec) else suspends wakeAt
  | None =>
      let$ now := now_ms in
      let wakeAt := now + ms in
      do$ promiseOrDie (ss_suspendWorkflow (ep_guard exec) (ep_workflowId exec) name (sleep_update wakeAt)) in
      suspends wakeAt
  end.

Definition createSleepStep (name : string) (dependsOn : list string) (ms : Z) (codec : Codec)
    : StepDefinition W :=
  step_with_policy name dependsOn KSleep codec None (fun exec => on_slot (run_sleep name dependsOn ms exec)).

Definition wait_update (signalName : string) (signalTimeoutAt : option Z) : StepUpdate :=
  mkStepUpdate (Some (Some SWaitingForSignal)) None (Some TySignal) None None None None None None None
    None (Some (Some signalName)) (Some signalTimeoutAt) None None.

Definition timed_out_error (workflowId stepName signalName : string) (timeoutMs : option Z) : thrown :=
  engine_error host "WorkflowTimeoutError" [("workflowId", JStr workflowId); ("stepName", JStr stepName)]
    ("Signal " +:+ quoted signalName +:+ " timed out after " +:+
     match timeoutMs with Some ms => str_of_Z ms | None => "undefined" end +:+ "ms").

Definition run_wait (name signalName : string) (timeoutMs : option Z) (codec : Codec) (exec : ExecuteParams)
    : Eff W json :=
  let$ signals := promiseOrDie (ss_loadSignals (ep_workflowId exec)) in
  match List.find (fun s => bool_decide (sg_signalName s = signalName)) signals with
  | Some signal => sync (codec_decode codec (sg_payload signal))
  | None =>
      let$ stepState := currentStepState exec name false in
      let waiting := match stepState with
                     | Some st => if bool_decide (st_status st = Some SWaitingForSignal) then Some st else None
                     | None => None
                     end in
      let$ expired := match waiting ≫= st_signalTimeoutAt with
                      | Some at_ => let$ now := now_ms in succeed (at_ <=? now)
                      | None => succeed false
                      end in
      if (expired : bool) then fail (timed_out_error (ep_workflowId exec) name signalName timeoutMs)
      else
        let$ signalTimeoutAt := match waiting, timeoutMs with
                                | Some st, _ => succeed (st_signalTimeoutAt st)
                                | None, Some ms => let$ now := now_ms in succeed (Some (now + ms))
                                | None, None => succeed None
                                end in
        do$ promiseOrDie (ss_suspendWorkflow (ep_guard exec) (ep_workflowId exec) name
                            (wait_update signalName signalTimeoutAt)) in
        fail (suspended_error (ep_workflowId exec) name "signal" ("Waiting for signal " +:+ quoted signalName))
  end.

Definition createWaitForSignalStep (name : string) (dependsOn : list string) (signalName : string)
    (timeoutMs : option Z) (codec : Codec) : StepDefinition W :=
  step_with_policy name dependsOn KSignal codec None (fun exec =>
    on_slot (run_wait name signalName timeoutMs codec exec)).

(** ** [.dowhile()] and [.dountil()] *)
Record LoopOptions : Type := mkLoopOptions {
  lo_step : StepOptions W;
  lo_maxIterations : option Z;
}.

Definition DEFAULT_MAX_ITERATIONS : Z := 100.

Definition iter_row (name : string) (iter : Z) : string := name +:+ ".iter." +:+ str_of_Z iter.

Definition LoopLimitExceededError (workflowId stepName : string) (maxIterations : Z) : thrown :=
  engine_error host "LoopLimitExceededError"
    [("workflowId", JStr workflowId); ("stepName", JStr stepName); ("maxIterations", JNum maxIterations)]
    ("Loop " +:+ quoted stepName +:+ " exceeded " +:+ str_of_Z maxIterations +:+
     " iterations without converging").

Inductive IterationOutcome : Type :=
| IterCompleted (result : json)
| IterFailed (error : string).

Section loop.
Variable name : string.
Variable body : Z -> StepFn StepContext W.
Variable keepGoing : json -> Z -> res thrown bool.
Variable codec : Codec.
Variable maxIterations : Z.
Variable exec : ExecuteParams.

(** The row of an iteration and, where supported, its attempt row. *)
Definition recordIteration (stepName : string) (startedAt : Z) (outcome : IterationOutcome) : Eff W unit :=
  let workflowId := ep_workflowId exec in
  let guard := ep_guard exec in
  promiseOrDie (
    let% now := currentTimeMs host in
    let durationMs := now - startedAt in
    do% match outcome with
        | IterCompleted result =>
            rs_saveStepResult guard (mkStepResult workflowId stepName result durationMs startedAt None)
        | IterFailed error =>
            rs_saveStepFailure guard (mkStepFailure workflowId stepName error None durationMs startedAt None)
        end in
    if hasCapability CapStepAttempts then
      let% completedAt := currentTimeMs host in
      rs_saveStepAttempt guard
        (mkAttempt workflowId stepName 1 AtExecution
           match outcome with IterCompleted _ => true | IterFailed _ => false end
           match outcome with IterCompleted r => r | IterFailed _ => JUndef end
           match outcome with IterCompleted _ => None | IterFailed e => Some e end
           durationMs startedAt completedAt None)
    else a_ret tt).

Definition runIteration (ctx : StepContext) (iter : Z) : Eff W json :=
  let stepName := iter_row name iter in
  let$ startedAt := now_ms in
  let$ result := tapErrorCause (run_fn (body iter) ctx)
                   (fun error => recordIteration stepName startedAt (IterFailed (errorMessage host error))) in
  let$ encoded := sync (codec_encode codec result) in
  do$ recordIteration stepName startedAt (IterCompleted encoded) in
  succeed result.

(** Where the replay of the stored rows ends: the loop had stopped with a
    value, or goes on at the first missing iteration. *)
Inductive Replayed : Type :=
| LoopStopped (result : json)
| LoopResumes (iter : Z).

(** [remaining] is [maxIterations - iter]. *)
Fixpoint replay_rows (remaining : nat) (iter : Z) (state : WorkflowState) : res thrown Replayed :=
  match remaining with
  | O => Ok (LoopResumes iter)
  | Datatypes.S remaining =>
      match state_row (iter_row name iter) (Some state) with
      | Some row =>
          if bool_decide (st_status row = Some SCompleted) then
            match codec_decode codec (st_result row) with
            | Err e => Err e
            | Ok result =>
                match keepGoing result iter with
                | Err e => Err e
                | Ok true => replay_rows remaining (iter + 1) state
                | Ok false => Ok (LoopStopped result)
                end
            end
          else Ok (LoopResumes iter)
      | None => Ok (LoopResumes iter)
      end
  end.

Fixpoint loop_from (ctx : StepContext) (remaining : nat) (iter : Z) : Eff W json :=
  match remaining with
  | O => fail (LoopLimitExceededError (ep_workflowId exec) name maxIterations)
  | Datatypes.S remaining =>
      let$ result := runIteration ctx iter in
      let$ more := sync (keepGoing result iter) in
      if (more : bool) then loop_from ctx remaining (iter + 1) else succeed result
  end.

Definition run_loop (ctx : StepContext) : Eff W json :=
  let$ state := promiseOrDie (rs_loadWorkflow (ep_workflowId exec)) in
  let$ replayed := sync (match state with
                         | Some state => replay_rows (Z.to_nat maxIterations) 0 state
                         | None => Ok (LoopResumes 0)
                         end) in
  match replayed with
  | LoopStopped result => succeed result
  | LoopResumes iter => loop_from ctx (Z.to_nat (maxIterations - iter)) iter
  end.
End loop.

Definition createLoopStep (name : string) (dependsOn : list string) (body : Z -> StepFn StepContext W)
    (keepGoing : json -> Z -> res thrown bool) (options : option LoopOptions) (codec : Codec)
    : res thrown (StepDefinition W) :=
  let maxIterations := opt_or (options ≫= lo_maxIterations) DEFAULT_MAX_ITERATIONS in
  if maxIterations <? 1 then
    Err (WorkflowError host (".dowhile / .dountil(" +:+ quoted name +:+ ", ...): maxIterations must be >= 1"))
  else
    Ok (step_with_policy name dependsOn KLoop codec (lo_step <$> options) (fun exec =>
          on_slot (run_loop name body keepGoing codec maxIterations exec (linearStepContext dependsOn exec)))).

(** ** [.mapOver()] *)
Record MapElementOptions : Type := mkElementOptions {
  me_codec : option Codec;
  me_timeoutMs : option Z;
  me_retry : option RetryPolicy;
}.

Record MapOverOptions : Type := mkMapOptions {
  mo_step : StepOptions W;
  mo_element : option MapElementOptions;
}.

Record MapStepContext : Type := mkMapContext {
  mpc_input : json;
  mpc_workflowId : string;
  mpc_taskIndex : Z;
  mpc_attempt : Z;
}.

Definition failureMessage (error : thrown) : string :=
  match error with
  | TError e => err_message e
  | TValue v => opt_or (str_prop "_tag" v) (js_String (rh_date_string host) v)
  end.

(** [decodeCompletedTasks]. *)
Definition decode_task (length_ : Z) (codec : Codec) (saved : gmap Z json) (task : StepTaskState)
    : gmap Z json :=
  if negb (bool_decide (ta_status task = SCompleted)) then saved
  else if (ta_taskIndex task <? 0) || (length_ <=? ta_taskIndex task) then saved
  else match codec_decode codec (ta_result task) with
       | Ok v => <[ta_taskIndex task := v]> saved
       | Err _ => saved
       end.

Definition decodeCompletedTasks (tasks : list StepTaskState) (length_ : Z) (codec : Codec) : gmap Z json :=
  foldl (decode_task length_ codec) ∅ tasks.

Definition read_tasks (r : option nat) : Eff W (list StepTaskState) := fun w => (Succ (ss_tasks r w), w).

Definition savedElementResults (exec : ExecuteParams) (stepName : string) (length_ : Z) (codec : Codec)
    : Eff W (gmap Z json) :=
  let$ row := currentStepState exec stepName (1 <? ep_attempt exec) in
  let$ tasks := match row with Some st => read_tasks (st_tasks st) | None => succeed [] end in
  succeed (decodeCompletedTasks tasks length_ codec).

(** The retries of one element count up in a variable of its thunk. *)
Definition on_counter {A} (f : W -> A * W) (s : Z * W) : A * (Z * W) :=
  let '(a, w) := f s.2 in (a, (s.1, w)).

Definition element_attempt (fn : json -> StepFn MapStepContext W) (exec : ExecuteParams) (element : json)
    (taskIndex : Z) : Eff (Z * W) json := fun '(retries, w) =>
  let retries := retries + 1 in
  let '(x, w) := run_fn (fn element)
                   (mkMapContext (ep_input exec) (ep_workflowId exec) taskIndex (ep_attempt exec + retries)) w in
  (x, (retries, w)).

Definition element_timeout (exec : ExecuteParams) (name : string) (taskIndex ms : Z) (e : Eff (Z * W) json)
    : Eff (Z * W) json := fun s =>
  let '(x, s) := e s in
  match x with
  | Killed => (Killed, s)
  | _ =>
      let '(late, s) := on_counter (rh_timed_out host ms) s in
      if late then
        (Fails (engine_error host "StepTimeoutError"
           [("workflowId", JStr (ep_workflowId exec)); ("stepName", JStr name); ("timeoutMs", JNum ms)]
           ("Step " +:+ quoted (name +:+ "[" +:+ str_of_Z taskIndex +:+ "]") +:+ " timed out after " +:+
            str_of_Z ms +:+ "ms")), s)
      else (x, s)
  end.

Definition element_retry (policy : RetryPolicy) (e : Eff (Z * W) json) : Eff (Z * W) json := fun s =>
  let '(o, s) := retryAsync (on_counter (rh_now host)) (on_counter (rh_random host))
                   (fun d => on_counter (timer host d)) (fun _ => false)
                   (fun _ s => let '(x, s) := e s in (caught x, s))
                   (mkPolicy (rp_maxRetries policy) (rp_baseDelayMs policy) (Some (step_when (rp_when policy)))
                      (rp_jitter policy) (rp_maxDelayMs policy) (rp_timeBudgetMs policy)) s in
  (uncaught o, s).

Section map_over.
Variable fn : json -> StepFn MapStepContext W.
Variable name : string.
Variable elementOptions : option MapElementOptions.
Variable elementCodec : Codec.
(** The order in which the elements settle, under the given concurrency. *)
Variable rh_elements : option Z -> list Z -> W -> list Z.
Variable concurrency : option Z.

Definition element_policies (exec : ExecuteParams) (element : json) (taskIndex : Z) : Eff (Z * W) json :=
  let e := element_attempt fn exec element taskIndex in
  let e := match elementOptions ≫= me_timeoutMs with
           | Some ms => element_timeout exec name taskIndex ms e
           | None => e
           end in
  match elementOptions ≫= me_retry with Some policy => element_retry policy e | None => e end.

(** The attempts of one element, its own counter from [-1]. *)
Definition run_attempts (exec : ExecuteParams) (element : json) (taskIndex : Z) : Eff W json := fun w =>
  let '(x, (_, w)) := element_policies exec element taskIndex (-1, w) in (x, w).

Definition runElement (exec : ExecuteParams) (element : json) (taskIndex : Z) : Eff W json :=
  let guard := ep_guard exec in
  let workflowId := ep_workflowId exec in
  let$ result := catch (run_attempts exec element taskIndex) (fun error =>
                   if isControlFlowExit error then fail error
                   else do$ promiseOrDie (ss_saveTaskFailure guard workflowId name taskIndex
                                            (failureMessage error)) in
                        fail error) in
  do$ promiseOrDie (let% encoded := a_lift (codec_encode elementCodec result) in
                    ss_saveTaskResult guard workflowId name taskIndex encoded) in
  succeed result.

(** [sourceArray[i]]. *)
Definition element_at (source : list json) (i : Z) : json :=
  opt_or (if i <? 0 then None else source !! Z.to_nat i) JUndef.

Fixpoint run_elements (exec : ExecuteParams) (source : list json) (order : list Z) (done : gmap Z json)
    : Eff W (gmap Z json) :=
  match order with
  | [] => succeed done
  | i :: order =>
      let$ v := runElement exec (element_at source i) i in
      run_elements exec source order (<[i := v]> done)
  end.

(** [forEachPar]: the results in the order of [missing]. *)
Definition forEachPar (exec : ExecuteParams) (source : list json) (missing : list Z) : Eff W (list json) :=
  fun w =>
    (let$ done := run_elements exec source (rh_elements concurrency missing w) ∅ in
     succeed ((fun i => opt_or (done !! i) JUndef) <$> missing)) w.

Definition index_list (source : list json) : list Z := seqZ 0 (Z.of_nat (length source)).

Definition run_map (exec : ExecuteParams) (source : list json) : Eff W json :=
  let indices := index_list source in
  let$ saved := savedElementResults exec name (Z.of_nat (length source)) elementCodec in
  let missing := base.filter (fun i => saved !! i = None) indices in
  match missing with
  | [] => succeed (JArr ((fun i => opt_or (saved !! i) JUndef) <$> indices))
  | _ =>
      let$ fresh := forEachPar exec source missing in
      if bool_decide (saved = ∅) then succeed (JArr fresh)
      else
        let ran : gmap Z json := foldl (fun m '(i, v) => <[i := v]> m) ∅ (zip missing fresh) in
        succeed (JArr ((fun i => match saved !! i with
                                 | Some v => v
                                 | None => opt_or (ran !! i) JUndef
                                 end) <$> indices))
  end.
End map_over.

Definition StepError (workflowId stepName message : string) : thrown :=
  engine_error host "StepError" [("workflowId", JStr workflowId); ("stepName", JStr stepName)] message.

Fixpoint array_codec (pick : json -> res thrown json) (l : list json) : res thrown (list json) :=
  match l with
  | [] => Ok []
  | v :: l =>
      match pick v with
      | Err e => Err e
      | Ok v => match array_codec pick l with Ok out => Ok (v :: out) | Err e => Err e end
      end
  end.

(** [codecArray] is a function of the effect library. *)
Definition createMapOverStep (codecArray : Codec -> Codec) (rh_elements : option Z -> list Z -> W -> list Z)
    (name array : string) (concurrency : option Z) (fn : json -> StepFn MapStepContext W)
    (options : option MapOverOptions) (defaultCodec : Codec) (cacheNamespace : string) : StepDefinition W :=
  let elementOptions := options ≫= mo_element in
  let elementCodec := opt_or (elementOptions ≫= me_codec) defaultCodec in
  let codec := opt_or (options ≫= fun o => so_codec (mo_step o))
                 (match elementOptions ≫= me_codec with Some c => codecArray c | None => defaultCodec end) in
  step_with_policy name [array] KMap codec (mo_step <$> options) (fun exec =>
    let source := result_of (ep_results exec) array in
    match source with
    | JArr l =>
        withOptionalStepCache (options_cache (mo_step <$> options))
          (mkStepContext (ep_input exec) source (ep_workflowId exec) (ep_attempt exec))
          (on_slot (run_map fn name elementOptions elementCodec rh_elements concurrency exec l))
          name cacheNamespace codec
    | _ =>
        fail (StepError (ep_workflowId exec) name ("mapOver source " +:+ quoted array +:+ " is not an array"))
    end).

(** ** [.subworkflow()] *)
Definition childEndedSignalName (childWorkflowId : string) (run : Z) : string :=
  CHILD_ENDED_SIGNAL_PREFIX +:+ childWorkflowId +:+ "#" +:+ str_of_Z run.

(** [s.lastIndexOf(c)]. *)
Fixpoint last_index_of (c : ascii) (s : string) : option nat :=
  match s with
  | "" => None
  | String d s =>
      match last_index_of c s with
      | Some n => Some (Datatypes.S n)
      | None => if bool_decide (c = d) then Some O else None
      end
  end.

Definition hash_char : ascii := Ascii.ascii_of_N 35.

Definition childOfEndedSignal (signalName : string) : option string :=
  if String.prefix CHILD_ENDED_SIGNAL_PREFIX signalName then
    let rest := String.substring (String.length CHILD_ENDED_SIGNAL_PREFIX) (String.length signalName) signalName in
    match last_index_of hash_char rest with
    | Some (Datatypes.S n) => Some (String.substring 0 (Datatypes.S n) rest)
    | _ => None
    end
  else None.

(** When the step of a child wakes up on its own. *)
Definition step_wake (step : StepState) : option Z :=
  if bool_decide (st_status step = Some SSleeping) then st_wakeAt step
  else if bool_decide (st_status step = Some SWaitingForSignal) then st_signalTimeoutAt step
  else None.

Definition earlier (at_ : option Z) (wakeAt : option Z) : option Z :=
  match at_, wakeAt with
  | Some a, Some b => if a <? b then Some a else Some b
  | Some a, None => Some a
  | None, w => w
  end.

Definition earliestWakeOf (child : WorkflowState) : option Z :=
  foldl (fun wakeAt step => earlier (step_wake step.2) wakeAt) None (ws_steps child).

Definition child_wait_update (signalName : string) (wakeAt : option Z) : StepUpdate :=
  mkStepUpdate (Some (Some SWaitingForSignal)) None None None None None None None None None
    None (Some (Some signalName)) (Some <$> wakeAt) None None.

(** The [reason] of the child's error. *)
Definition suspension_reason (childError : thrown) : string :=
  let reason := match childError with
                | TError e => prop "reason" (err_fields e)
                | TValue v => prop "reason" (own_props v)
                end in
  if bool_decide (reason = JStr "sleep") then "sleep" else "signal".

Definition suspendOnChild (workflowId stepName childWorkflowId : string) (childError : thrown)
    (guard : option FenceGuard) (retryAt : option Z) (detail : option string) : async W thrown :=
  let% child := rs_loadWorkflow childWorkflowId in
  let childWake := child ≫= earliestWakeOf in
  let wakeAt := match retryAt with
                | Some r => match childWake with
                            | Some c => if r <? c then Some r else Some c
                            | None => Some r
                            end
                | None => childWake
                end in
  do% ss_suspendWorkflow guard workflowId stepName
        (child_wait_update (childEndedSignalName childWorkflowId (from_option ws_run 1 child)) wakeAt) in
  a_ret (suspended_error workflowId stepName (suspension_reason childError)
           ("waiting for child workflow " +:+ quoted childWorkflowId +:+
            match wakeAt with Some t => " (wakes at " +:+ toISOString t +:+ ")" | None => "" end +:+
            match detail with
            | Some d => if bool_decide (d = "") then "" else ": " +:+ d
            | None => ""
            end)).

Definition parks_on_child (error : thrown) : bool :=
  tag_in ["WorkflowSuspendedError"; "WorkflowLockError"] error.

(** [runChild] is what the runner binds to the parent run. *)
Definition createSubworkflowStep (runChild : option (string -> json -> async W json)) (name : string)
    (dependsOn : list string) (inputOf : json -> res thrown json) (workflowIdOf : json -> res thrown string)
    (options : option (StepOptions W)) (codec : Codec) : StepDefinition W :=
  step_with_policy name dependsOn KChild codec options (fun exec => on_slot (
    let prev := exec_prev dependsOn exec in
    let$ childWorkflowId := sync (workflowIdOf prev) in
    let$ childInput := sync (inputOf prev) in
    match runChild with
    | None =>
        die (TError (new_error "Error"
          ("subworkflow " +:+ quoted name +:+ ": no `runChild` in ExecuteParams. Run the parent " +:+
           "through a WorkflowRunner (or pass `runChild` when executing the step by hand).")))
    | Some runChild =>
        tryPromise
          (a_catch (runChild childWorkflowId childInput) (fun err =>
             if parks_on_child err then
               let% suspended := suspendOnChild (ep_workflowId exec) name childWorkflowId err
                                   (ep_guard exec) None None in
               a_throw suspended
             else a_throw err))
          (fun err =>
             if isControlFlowExit err then err
             else StepError (ep_workflowId exec) name
                    ("subworkflow " +:+ quoted name +:+ " (child " +:+ quoted childWorkflowId +:+ ") failed: " +:+
                     errorMessage host err))
    end)).
End steps.
Arguments LoopOptions W : clear implicits.
Arguments MapOverOptions W : clear implicits.
