(* ===== verification/LoopLaws.v ===== *)
(** A durable loop over any storage: which iterations run, what their rows
    hold, and what a loop that is resumed after a crash does.

    [LoopWorld] is the contract between a driver that runs the loop and its
    world, in the terms of [WaveLaws]: [rv] has the results of the run's
    completed rows, [log] the iterations whose body was called. *)
From Stdlib Require Import QArith.
From S2P Require Import Prelude Leases Json Journal RunState Storage Exits Retry Replay StepBody Checkpoint Waves WaveLaws WaveLoop WaveResults Steps StoreSteps.
Open Scope string_scope.
Open Scope list_scope.
Open Scope Z_scope.

(** The world of a driver with lock [guard]. *)
Class LoopWorld {W : Type} `{RunStore W} (host : RunnerHost W) (workflowId : string)
    (lock : option FenceGuard) (held : W -> Prop) (rv : W -> string -> option json) (log : W -> list Z)
    : Prop := {
  lw_host : QuietHost held rv log host;
  lw_load : quietly held rv log (rs_loadWorkflow workflowId);
  lw_loaded : forall w st w', rs_loadWorkflow workflowId w = (Ret st, w') -> held w' ->
    forall n, state_row n st ≫= completed_result = rv w' n;
  lw_result : forall r w, sr_workflowId r = workflowId ->
    let '(o, w') := rs_saveStepResult lock r w in
    put held rv log (sr_stepName r) (Some (sr_result r)) w w' o;
  lw_failure : forall r w, sf_workflowId r = workflowId ->
    let '(o, w') := rs_saveStepFailure lock r w in
    put held rv log (sf_stepName r) None w w' o;
  lw_attempt : forall r, at_workflowId r = workflowId -> quietly held rv log (rs_saveStepAttempt lock r);
}.
#[export] Existing Instance lw_host.

Lemma iter_row_inj name i j : iter_row name i = iter_row name j -> i = j.
Proof.
  unfold iter_row. intros H%string_app_inj_l. apply (string_app_inj_l ".iter.") in H. by apply str_of_Z_inj.
Qed.

Section loop.
Context {W : Type} `{RS : RunStore W} (host : RunnerHost W) (wid : string) (lock : option FenceGuard)
  (held : W -> Prop) (rv : W -> string -> option json) (log : W -> list Z)
  {LW : LoopWorld host wid lock held rv log}.
Context (name : string) (body : Z -> StepFn StepContext W) (keepGoing : json -> Z -> res thrown bool)
  (codec : Codec) (maxIterations : Z) (exec : ExecuteParams) (ctx : StepContext).
Hypothesis exec_wid : ep_workflowId exec = wid.
Hypothesis exec_guard : ep_guard exec = lock.

(** The body of an iteration, whatever it is: it writes no row of the run. *)
Definition body_logs : Prop := forall i w,
  let w' := (run_fn (body i) ctx w).2 in
  log w' = log w ++ [i] /\ (held w' -> held w /\ forall y, rv w' y = rv w y).
Hypothesis body_log : body_logs.

#[local] Abbreviation row := (iter_row name).

(** *** One iteration *)
Lemma loop_record_puts stepName t o w x w' :
  recordIteration host exec stepName t o w = (x, w') ->
  log w' = log w /\
  (held w' -> held w /\ (forall n, n <> stepName -> rv w' n = rv w n) /\
     (forall u, x = Succ u -> rv w' stepName = match o with IterCompleted r => Some r | IterFailed _ => None end)) /\
  (forall e, x <> Fails e).
Proof using LW exec_wid exec_guard.
  unfold recordIteration. rewrite exec_wid, exec_guard. apply promiseOrDie_put.
  apply bind_quiet_put; [apply quietly_now|]. intros now w1. apply bind_put_quiet.
  - destruct o as [r|e].
    + apply (lw_result (mkStepResult wid stepName r (now - t) t None)). done.
    + apply (lw_failure (mkStepFailure wid stepName e None (now - t) t None)). done.
  - intros _. destruct (hasCapability CapStepAttempts); [|apply quietly_ret].
    apply quietly_bind; [apply quietly_now|]. intros t'. by apply lw_attempt.
Qed.

(** What one iteration comes to. *)
Definition iterated (iter : Z) (x : exit json) (w w' : W) : Prop :=
  log w' = log w ++ [iter] /\
  (held w' -> held w /\ (forall n, n <> row iter -> rv w' n = rv w n) /\
     forall v, x = Succ v -> exists raw, codec_encode codec v = Ok raw /\ rv w' (row iter) = Some raw) /\
  match x with
  | Succ v => exists w0, (run_fn (body iter) ctx w0).1 = Succ v
  | Fails e => exists w0, (run_fn (body iter) ctx w0).1 = Fails e
  | _ => True
  end.

(** The body ran; its failure, if any, was recorded or not. *)
Lemma body_iterated iter t w y w' :
  tapErrorCause (run_fn (body iter) ctx)
    (fun error => recordIteration host exec (row iter) t (IterFailed (errorMessage host error))) w = (y, w') ->
  log w' = log w ++ [iter] /\
  (held w' -> held w /\ (forall n, n <> row iter -> rv w' n = rv w n)) /\
  match y with
  | Succ v => exists w0, (run_fn (body iter) ctx w0).1 = Succ v
  | Fails e => exists w0, (run_fn (body iter) ctx w0).1 = Fails e
  | _ => True
  end.
Proof using LW exec_wid exec_guard body_log.
  unfold tapErrorCause. pose proof (body_log iter w) as [Hl Hb].
  destruct (run_fn (body iter) ctx w) as [x w1] eqn:Ex. cbn in Hl, Hb.
  assert (forall w2, log w2 = log w1 -> (held w2 -> held w1 /\ forall n, n <> row iter -> rv w2 n = rv w1 n) ->
    log w2 = log w ++ [iter] /\ (held w2 -> held w /\ forall n, n <> row iter -> rv w2 n = rv w n)) as Hstep.
  { intros w2 Hl2 H2. split; [congruence|]. intros Hh. destruct (H2 Hh) as [Hh1 E2]. destruct (Hb Hh1) as [Hh0 E1].
    split; [done|]. intros n Hn. by rewrite E2, E1. }
  assert (forall d (k : Eff W json) w2 y, flatMap (recordIteration host exec (row iter) t (IterFailed d)) (fun _ => k) w1 = (y, w2) ->
    (forall w, (k w).2 = w) ->
    log w2 = log w ++ [iter] /\ (held w2 -> held w /\ (forall n, n <> row iter -> rv w2 n = rv w n)) /\
    ((exists w, (k w).1 = y) \/ y = Killed \/ exists d, y = Dies d)) as Hrec.
  { intros d k w2 z Hz Hk. apply flatMap_cases in Hz as [(u & w3 & Hr & Hz)|(z' & Hr & Hz)];
      apply loop_record_puts in Hr as (Hl2 & H2 & Hf).
    - pose proof (Hk w3) as Hk3. rewrite Hz in Hk3. cbn in Hk3. subst w3.
      destruct (Hstep w2 Hl2) as [? ?]; [intros Hh; destruct (H2 Hh) as (? & ? & _); done|].
      split; [done|]. split; [done|]. left. exists w2. by rewrite Hz.
    - destruct (Hstep w2 Hl2) as [? ?]; [intros Hh; destruct (H2 Hh) as (? & ? & _); done|].
      split; [done|]. split; [done|]. destruct Hz as [e|e|]; [by destruct (Hf e)|right; right; by eexists|by right; left]. }
  destruct x as [v|e|e|].
  - intros [= <- <-]. destruct (Hstep w1) as [? ?]; [done..|]. split; [done|]. split; [done|].
    exists w. by rewrite Ex.
  - intros Hy. apply Hrec in Hy as (? & ? & Hk); [|done]. split; [done|]. split; [done|].
    destruct Hk as [[w3 <-]|[->|[d ->]]]; [|done..]. exists w. by rewrite Ex.
  - intros Hy. apply Hrec in Hy as (? & ? & Hk); [|done]. split; [done|]. split; [done|].
    destruct Hk as [[w3 <-]|[->|[d ->]]]; done.
  - intros [= <- <-]. destruct (Hstep w1) as [? ?]; [done..|]. done.
Qed.

Lemma runIteration_spec iter w x w' :
  runIteration host name body codec exec ctx iter w = (x, w') -> iterated iter x w w'.
Proof using LW exec_wid exec_guard body_log.
  unfold runIteration. intros [(t & w1 & Ht & Hx)|(y & Ht & Hy)]%flatMap_cases; unfold now_ms in Ht;
    pose proof (now_quiet w) as Hq; destruct (rh_now host w) as [t0 w0];
    [injection Ht as <- <-|injection Ht as <- <-; inversion Hy].
  cbn in Hq. destruct Hq as [Hl0 Hq].
  apply flatMap_cases in Hx as [(v & w2 & Hb & Hx)|(y & Hb & Hy)];
    apply body_iterated in Hb as (Hl1 & H1 & Hy1).
  - rewrite Hl0 in Hl1. apply flatMap_cases in Hx as [(raw & w3 & He & Hx)|(y & He & Hy)];
      apply sync_cases in He as (<- & [(r & Henc & Hr)|(e & Henc & Hr)]); try (rewrite Hr in Hy; inversion Hy; fail); try discriminate.
    + injection Hr as ->. apply flatMap_cases in Hx as [(u & w4 & Hrec & Hx)|(y & Hrec & Hy)];
        apply loop_record_puts in Hrec as (Hl2 & H2 & Hnf).
      * injection Hx as <- <-. split; [congruence|]. split; [|done]. intros Hh.
        destruct (H2 Hh) as (Hh2 & E2 & Ew). destruct (H1 Hh2) as [Hh1 E1]. destruct (Hq Hh1) as [Hh0 E0].
        split; [done|]. split; [intros n Hn; by rewrite E2, E1, E0|].
        intros v' [= <-]. exists r. split; [done|]. by eapply Ew.
      * split; [congruence|]. split.
        { intros Hh. destruct (H2 Hh) as (Hh2 & E2 & _). destruct (H1 Hh2) as [Hh1 E1].
          destruct (Hq Hh1) as [Hh0 E0]. split; [done|]. split; [intros n Hn; by rewrite E2, E1, E0|].
          intros v' ->. inversion Hy. }
        destruct Hy as [e|e|]; [by destruct (Hnf e)|done..].
    + split; [congruence|]. split; [|rewrite Hr in Hy; by inversion Hy]. intros Hh. destruct (H1 Hh) as [Hh1 E1].
      destruct (Hq Hh1) as [Hh0 E0]. split; [done|]. split; [intros n Hn; by rewrite E1, E0|].
      intros v' ->. rewrite Hr in Hy. inversion Hy.
  - split; [congruence|]. split; [|by destruct Hy]. intros Hh. destruct (H1 Hh) as [Hh1 E1].
    destruct (Hq Hh1) as [Hh0 E0]. split; [done|]. split; [intros n Hn; by rewrite E1, E0|].
    intros v' ->. inversion Hy.
Qed.

(** *** The loop from an iteration on *)
(** [vs] are the values of the iterations from [iter] on: what their bodies
    returned and their rows hold. [n] bodies were called, so every value but
    that of the last call had the loop go on. *)
Definition iterations (iter : Z) (n : nat) (w w' : W) (vs : list json) : Prop :=
  (held w' -> held w /\ (forall y, (forall i, iter <= i -> y <> row i) -> rv w' y = rv w y) /\
     forall i v, vs !! i = Some v ->
       exists raw, codec_encode codec v = Ok raw /\ rv w' (row (iter + Z.of_nat i)) = Some raw) /\
  (forall i v, vs !! i = Some v -> exists w0, (run_fn (body (iter + Z.of_nat i)) ctx w0).1 = Succ v) /\
  (forall i v, vs !! i = Some v -> (Datatypes.S i < n)%nat ->
     keepGoing v (iter + Z.of_nat i) = Ok true).

Lemma iterations_nil iter n w : iterations iter n w w [].
Proof. done. Qed.

Definition loop_exit (iter : Z) (n : nat) (vs : list json) (x : exit json) : Prop :=
  match x with
  | Succ r => length vs = n /\ exists l, vs = l ++ [r] /\ keepGoing r (iter + Z.of_nat (length l)) = Ok false
  | Fails e =>
      (e = LoopLimitExceededError host (ep_workflowId exec) name maxIterations /\ length vs = n /\
       iter + Z.of_nat n = maxIterations /\
       forall i v, vs !! i = Some v -> keepGoing v (iter + Z.of_nat i) = Ok true) \/
      (n = Datatypes.S (length vs) /\
       exists w0, (run_fn (body (iter + Z.of_nat (length vs))) ctx w0).1 = Fails e)
  | _ => True
  end.

Lemma iterations_none iter n w w' y : iterated iter y w w' -> iterations iter n w w' [].
Proof.
  intros (_ & H1 & _). split; [|done]. intros Hh. destruct (H1 Hh) as (? & E & _). split; [done|]. split; [|done].
  intros y' Hn. apply E. by apply Hn.
Qed.

Lemma iterations_cons iter n w w1 w' v vs :
  iterated iter (Succ v) w w1 -> keepGoing v iter = Ok true -> iterations (iter + 1) n w1 w' vs ->
  iterations iter (Datatypes.S n) w w' (v :: vs).
Proof.
  intros (_ & H1 & Hv) Hk (H2 & Hb & Hg). split; [|split].
  - intros Hh. destruct (H2 Hh) as (Hh1 & E2 & Hr). destruct (H1 Hh1) as (Hh0 & E1 & Hr1). split; [done|]. split.
    { intros y Hy. rewrite E2; [|intros i Hi; apply Hy; lia]. apply E1. by apply Hy. }
    intros [|i] u Hu; cbn in Hu.
    + injection Hu as ->. destruct (Hr1 u eq_refl) as (raw & Henc & Hraw). exists raw. split; [done|].
      rewrite Z.add_0_r, E2; [done|]. intros i Hi ->%iter_row_inj. lia.
    + destruct (Hr i u Hu) as (raw & Henc & Hraw). exists raw. split; [done|]. rewrite <- Hraw. do 2 f_equal. lia.
  - intros [|i] u Hu; cbn in Hu; [injection Hu as ->; by rewrite Z.add_0_r|].
    replace (iter + Z.of_nat (Datatypes.S i)) with (iter + 1 + Z.of_nat i) by lia. by apply Hb.
  - intros [|i] u Hu Hi; cbn in Hu, Hi; [injection Hu as ->; by rewrite Z.add_0_r|].
    replace (iter + Z.of_nat (Datatypes.S i)) with (iter + 1 + Z.of_nat i) by lia. apply Hg; [done|lia].
Qed.

Lemma iterations_one iter w w1 v : iterated iter (Succ v) w w1 -> iterations iter 1 w w1 [v].
Proof.
  intros (_ & H1 & Hv). split; [|split].
  - intros Hh. destruct (H1 Hh) as (Hh0 & E1 & Hr1). split; [done|]. split.
    { intros y Hy. apply E1. by apply Hy. }
    intros [|i] u Hu; [|done]. injection Hu as ->. rewrite Z.add_0_r. by apply Hr1.
  - intros [|i] u Hu; [|done]. injection Hu as ->. by rewrite Z.add_0_r.
  - intros i u _ Hi. lia.
Qed.

Lemma loop_exit_cons iter n v vs x :
  keepGoing v iter = Ok true -> loop_exit (iter + 1) n vs x -> loop_exit iter (Datatypes.S n) (v :: vs) x.
Proof.
  intros Hk. destruct x as [r|e|e|]; cbn; [| |done..].
  - intros (Hl & l & -> & Hf). split; [by f_equal|]. exists (v :: l). split; [done|].
    rewrite <- Hf. f_equal. cbn [length]. lia.
  - intros [(-> & Hl & Hm & Ht)|(-> & w0 & Hw)]; [left|right].
    + split; [done|]. split; [by f_equal|]. split; [lia|]. intros [|i] u Hu; cbn in Hu.
      * injection Hu as ->. by rewrite Z.add_0_r.
      * rewrite <- (Ht i u Hu). f_equal. lia.
    + split; [done|]. exists w0. rewrite <- Hw. do 3 f_equal. lia.
Qed.

Lemma loop_from_spec remaining iter w x w' :
  iter + Z.of_nat remaining = maxIterations ->
  loop_from host name body keepGoing codec maxIterations exec ctx remaining iter w = (x, w') ->
  exists n vs, log w' = log w ++ seqZ iter (Z.of_nat n) /\ (n <= remaining)%nat /\
    (length vs <= n <= Datatypes.S (length vs))%nat /\ iterations iter n w w' vs /\ loop_exit iter n vs x.
Proof using LW exec_wid exec_guard body_log.
  revert iter w. induction remaining as [|remaining IH]; intros iter w Hmax; cbn [loop_from].
  { intros [= <- <-]. exists 0%nat, []. split; [by rewrite app_nil_r|]. split; [lia|]. split; [cbn; lia|].
    split; [apply iterations_nil|]. left. split; [done|]. split; [done|]. split; [lia|]. by intros i v. }
  assert (forall w1 x1 v, iterated iter (Succ v) w w1 -> (forall e, x1 <> Fails e) ->
    (forall r, x1 = Succ r -> r = v /\ keepGoing v iter = Ok false) ->
    exists n vs, log w1 = log w ++ seqZ iter (Z.of_nat n) /\ (n <= Datatypes.S remaining)%nat /\
    (length vs <= n <= Datatypes.S (length vs))%nat /\ iterations iter n w w1 vs /\ loop_exit iter n vs x1) as Hlast.
  { intros w1 x1 v (Hl & H1 & Hv) Hnf Hs. exists 1%nat, [v]. split; [done|]. split; [lia|]. split; [cbn; lia|].
    split; [by apply iterations_one|]. destruct x1 as [r|e|e|]; cbn; [|by destruct (Hnf e)|done..].
    destruct (Hs r eq_refl) as [-> Hk]. split; [done|]. exists []. split; [done|]. by rewrite Z.add_0_r. }
  intros Hx. apply flatMap_cases in Hx as [(v & w1 & Hi & Hx)|(y & Hi & Hy)]; apply runIteration_spec in Hi.
  - apply flatMap_cases in Hx as [(more & w2 & Hk & Hx)|(y & Hk & Hy)];
      apply sync_cases in Hk as (-> & [(b & Hkg & Hb)|(e & Hkg & Hb)]); try discriminate;
      try (rewrite Hb in Hy; inversion Hy; fail).
    + injection Hb as <-. destruct more.
      * apply IH in Hx as (n & vs & Hl & Hn & Hlen & Hvs & Hex); [|lia].
        exists (Datatypes.S n), (v :: vs). pose proof (iterations_cons iter n w w1 w' v vs Hi Hkg Hvs) as Hc.
        destruct Hi as (Hl1 & _). split.
        { rewrite Hl, Hl1, <- app_assoc. f_equal. rewrite (seqZ_cons iter) by lia. cbn. do 2 f_equal; lia. }
        split; [lia|]. split; [cbn; lia|]. split; [done|]. by apply loop_exit_cons.
      * injection Hx as <- <-. eapply Hlast; [done|done|]. by intros r [= <-].
    + eapply Hlast; [exact Hi|by rewrite Hb in Hy; inversion Hy|]. intros r ->. rewrite Hb in Hy. inversion Hy.
  - destruct Hi as (Hl & H1 & Hv). exists 1%nat, []. split; [done|]. split; [lia|]. split; [cbn; lia|].
    split; [by apply (iterations_none iter 1 w w' y)|]. destruct Hy as [e|e|]; [|done..]. right. split; [done|]. cbn.
    by rewrite Z.add_0_r.
Qed.

(** *** The replay *)
Definition all_go_on (iter : Z) (vs : list json) : Prop :=
  forall i v, vs !! i = Some v -> keepGoing v (iter + Z.of_nat i) = Ok true.

Lemma all_go_on_cons iter v vs :
  keepGoing v iter = Ok true -> all_go_on (iter + 1) vs -> all_go_on iter (v :: vs).
Proof.
  intros Hk Hvs [|i] u Hu; cbn in Hu; [injection Hu as ->; by rewrite Z.add_0_r|].
  replace (iter + Z.of_nat (Datatypes.S i)) with (iter + 1 + Z.of_nat i) by lia. by apply Hvs.
Qed.

(** [vs] are the decoded results of the completed rows from [iter] on. *)
Definition decoded_rows (st : WorkflowState) (iter : Z) (vs : list json) : Prop :=
  forall i v, vs !! i = Some v -> exists raw,
    state_row (row (iter + Z.of_nat i)) (Some st) ≫= completed_result = Some raw /\ codec_decode codec raw = Ok v.

Lemma decoded_rows_cons st iter v vs raw :
  state_row (row iter) (Some st) ≫= completed_result = Some raw -> codec_decode codec raw = Ok v ->
  decoded_rows st (iter + 1) vs -> decoded_rows st iter (v :: vs).
Proof.
  intros Hr Hd Hvs [|i] u Hu; cbn in Hu; [injection Hu as ->; rewrite Z.add_0_r; by exists raw|].
  replace (iter + Z.of_nat (Datatypes.S i)) with (iter + 1 + Z.of_nat i) by lia. by apply Hvs.
Qed.

Lemma replay_spec remaining iter st r :
  replay_rows name keepGoing codec remaining iter st = Ok r ->
  exists vs, decoded_rows st iter vs /\ (length vs <= remaining)%nat /\
    match r with
    | LoopStopped v => exists l, vs = l ++ [v] /\ all_go_on iter l /\ keepGoing v (iter + Z.of_nat (length l)) = Ok false
    | LoopResumes k =>
        k = iter + Z.of_nat (length vs) /\ all_go_on iter vs /\
        ((length vs < remaining)%nat -> state_row (row k) (Some st) ≫= completed_result = None)
    end.
Proof.
  revert iter r. induction remaining as [|remaining IH]; intros iter r; cbn [replay_rows].
  { intros [= <-]. exists []. split; [done|]. split; [done|]. split; [cbn; lia|]. split; [done|]. cbn. lia. }
  assert (forall x, Ok (A := Replayed) (E := thrown) (LoopResumes iter) = Ok x ->
    state_row (row iter) (Some st) ≫= completed_result = None ->
    exists vs, decoded_rows st iter vs /\ (length vs <= Datatypes.S remaining)%nat /\
      match x with
      | LoopStopped v => exists l, vs = l ++ [v] /\ all_go_on iter l /\ keepGoing v (iter + Z.of_nat (length l)) = Ok false
      | LoopResumes k =>
          k = iter + Z.of_nat (length vs) /\ all_go_on iter vs /\
          ((length vs < Datatypes.S remaining)%nat -> state_row (row k) (Some st) ≫= completed_result = None)
      end) as Hnone.
  { intros x [= <-] Hr. exists []. split; [done|]. split; [cbn; lia|]. split; [cbn; lia|]. by split. }
  destruct (state_row (row iter) (Some st)) as [rw|] eqn:Erow; [|intros Hx; by apply Hnone].
  destruct (bool_decide (st_status rw = Some SCompleted)) eqn:Est; [|intros Hx; apply Hnone; [done|]; cbn;
    unfold completed_result, row_completed; by rewrite Est].
  assert (state_row (row iter) (Some st) ≫= completed_result = Some (st_result rw)) as Hraw.
  { rewrite Erow. cbn. unfold completed_result, row_completed. by rewrite Est. }
  destruct (codec_decode codec (st_result rw)) as [v|e] eqn:Edec; [|done].
  destruct (keepGoing v iter) as [[]|e] eqn:Ek; [|intros [= <-]|done].
  - intros (vs & Hd & Hlen & Hr)%IH. exists (v :: vs). split; [by eapply decoded_rows_cons|]. split; [cbn; lia|].
    destruct r as [x|k].
    + destruct Hr as (l & -> & Hg & Hx). exists (v :: l). split; [done|]. split; [by apply all_go_on_cons|].
      rewrite <- Hx. f_equal. cbn [length]. lia.
    + destruct Hr as (-> & Hg & Hn). split; [cbn [length]; lia|]. split; [by apply all_go_on_cons|].
      cbn [length]. intros Hlt. apply Hn. lia.
  - exists [v]. split; [by eapply decoded_rows_cons|]. split; [cbn; lia|]. exists []. split; [done|]. split; [done|].
    by rewrite Z.add_0_r.
Qed.

(** *** One execution of the loop *)
(** [k] iterations were replayed and the bodies of [n] more were called. [vs]
    are the values of the completed ones, replayed or run; each but that of the last call had the
    loop go on. *)
Definition loop_ran (k n : nat) (vs : list json) (x : exit json) (w w' : W) : Prop :=
  log w' = log w ++ seqZ (Z.of_nat k) (Z.of_nat n) /\
  Z.of_nat (k + n) <= maxIterations /\ (k <= length vs)%nat /\ (length vs <= k + n <= Datatypes.S (length vs))%nat /\
  (held w' -> held w /\
     (forall i, (i < k)%nat -> is_Some (rv w (row (Z.of_nat i)))) /\
     ((0 < n)%nat -> rv w (row (Z.of_nat k)) = None) /\
     (forall y, (forall i, Z.of_nat k <= i -> y <> row i) -> rv w' y = rv w y) /\
     forall i v, vs !! i = Some v -> exists raw, rv w' (row (Z.of_nat i)) = Some raw /\
       if decide (i < k)%nat then codec_decode codec raw = Ok v else codec_encode codec v = Ok raw) /\
  (forall i v, (k <= i)%nat -> vs !! i = Some v -> exists w0, (run_fn (body (Z.of_nat i)) ctx w0).1 = Succ v) /\
  (forall i v, vs !! i = Some v -> (Datatypes.S i < k + n)%nat -> keepGoing v (Z.of_nat i) = Ok true) /\
  match x with
  | Succ r => (k + n)%nat = length vs /\
      exists l, vs = l ++ [r] /\ keepGoing r (Z.of_nat (length l)) = Ok false
  | Fails e =>
      (e = LoopLimitExceededError host (ep_workflowId exec) name maxIterations /\
       Z.of_nat (length vs) = maxIterations /\
       forall i v, vs !! i = Some v -> keepGoing v (Z.of_nat i) = Ok true) \/
      ((k + n)%nat = Datatypes.S (length vs) /\
       exists w0, (run_fn (body (Z.of_nat (length vs))) ctx w0).1 = Fails e)
  | _ => True
  end.

(** Nothing ran and nothing is known of the rows. *)
Lemma loop_ran_none x w w' :
  1 <= maxIterations -> quiet held rv log w w' -> (x = Killed \/ exists e, x = Dies e) -> loop_ran 0 0 [] x w w'.
Proof.
  intros Hmax [Hl Hq] Hx. split; [by rewrite app_nil_r|]. split; [lia|]. split; [cbn; lia|]. split; [cbn; lia|].
  split; [|destruct Hx as [->|[e ->]]; done]. intros Hh. destruct (Hq Hh) as [Hh0 E]. split; [done|].
  split; [lia|]. split; [lia|]. split; [|done]. intros y _. apply E.
Qed.

Lemma loop_ran_replayed vs r w w' :
  quiet held rv log w w' -> Z.of_nat (length vs) <= maxIterations ->
  (exists l, vs = l ++ [r] /\ all_go_on 0 l /\ keepGoing r (0 + Z.of_nat (length l)) = Ok false) ->
  (held w' -> forall i v, vs !! i = Some v -> exists raw, rv w' (row (Z.of_nat i)) = Some raw /\ codec_decode codec raw = Ok v) ->
  loop_ran (length vs) 0 vs (Succ r) w w'.
Proof.
  intros [Hl Hq] Hmax (l & -> & Hg & Hk) Hrows. split; [by rewrite app_nil_r|]. split; [lia|]. split; [lia|].
  split; [lia|]. split; [|split; [|split]].
  - intros Hh. destruct (Hq Hh) as [Hh0 E]. specialize (Hrows Hh). split; [done|]. split.
    { intros i Hi. destruct (lookup_lt_is_Some_2 _ _ Hi) as [v Hv]. destruct (Hrows i v Hv) as (raw & Hraw & _).
      rewrite <- E, Hraw. by eexists. }
    split; [lia|]. split; [intros y _; apply E|]. intros i v Hv. destruct (Hrows i v Hv) as (raw & Hraw & Hd).
    exists raw. split; [done|]. rewrite decide_True; [done|]. by apply lookup_lt_Some in Hv.
  - intros i v Hi Hv. apply lookup_lt_Some in Hv. lia.
  - intros i v Hv Hi. rewrite length_app in Hi. cbn in Hi. rewrite lookup_app_l in Hv by lia. by apply (Hg i v).
  - split; [lia|]. exists l. split; [done|]. exact Hk.
Qed.

Lemma lookup_app_case {A} (l1 l2 : list A) i v :
  (l1 ++ l2) !! i = Some v ->
  (l1 !! i = Some v /\ (i < length l1)%nat) \/ (exists j, i = (length l1 + j)%nat /\ l2 !! j = Some v).
Proof.
  intros Hv. destruct (decide (i < length l1)%nat) as [Hi|Hi].
  - rewrite lookup_app_l in Hv by done. by left.
  - rewrite lookup_app_r in Hv by lia. right. exists (i - length l1)%nat. split; [lia|done].
Qed.

Lemma loop_ran_resumed vs n vs' x w w1 w' :
  quiet held rv log w w1 -> Z.of_nat (length vs + n) <= maxIterations ->
  all_go_on 0 vs ->
  (held w1 -> forall i v, vs !! i = Some v -> exists raw, rv w1 (row (Z.of_nat i)) = Some raw /\ codec_decode codec raw = Ok v) ->
  (held w1 -> (0 < n)%nat -> rv w1 (row (Z.of_nat (length vs))) = None) ->
  log w' = log w1 ++ seqZ (Z.of_nat (length vs)) (Z.of_nat n) -> (length vs' <= n <= Datatypes.S (length vs'))%nat ->
  iterations (Z.of_nat (length vs)) n w1 w' vs' -> loop_exit (Z.of_nat (length vs)) n vs' x ->
  loop_ran (length vs) n (vs ++ vs') x w w'.
Proof.
  intros [Hl Hq] Hmax Hg Hrows Hnone Hl' Hlen (Hit & Hbody & Hgo) Hex. split; [congruence|]. split; [lia|].
  rewrite length_app. split; [lia|]. split; [lia|]. split; [|split; [|split]].
  - intros Hh. destruct (Hit Hh) as (Hh1 & E1 & Hr1). destruct (Hq Hh1) as [Hh0 E]. specialize (Hrows Hh1).
    split; [done|]. split.
    { intros i Hi. destruct (lookup_lt_is_Some_2 _ _ Hi) as [v Hv]. destruct (Hrows i v Hv) as (raw & Hraw & _).
      rewrite <- E, Hraw. by eexists. }
    split; [intros Hn; rewrite <- E; by apply Hnone|]. split; [intros y Hy; by rewrite E1, E|].
    intros i v [[Hv Hi]|(j & -> & Hv)]%lookup_app_case.
    + destruct (Hrows i v Hv) as (raw & Hraw & Hd). exists raw. rewrite decide_True by done. split; [|done].
      rewrite E1; [done|]. intros i' Hi' Heq%iter_row_inj. lia.
    + destruct (Hr1 j v Hv) as (raw & Henc & Hraw). exists raw. rewrite decide_False by lia. split; [|done].
      rewrite <- Hraw. do 2 f_equal. lia.
  - intros i v Hi [[Hv Hi']|(j & -> & Hv)]%lookup_app_case; [lia|].
    replace (Z.of_nat (length vs + j)) with (Z.of_nat (length vs) + Z.of_nat j) by lia. by apply Hbody.
  - intros i v [[Hv Hi']|(j & -> & Hv)]%lookup_app_case Hi; [by apply (Hg i v)|].
    replace (Z.of_nat (length vs + j)) with (Z.of_nat (length vs) + Z.of_nat j) by lia. apply Hgo; [done|lia].
  - destruct x as [r|e|e|]; cbn in Hex; [| |done..].
    + destruct Hex as (Hn & l & -> & Hk). split; [lia|]. exists (vs ++ l). split; [by rewrite app_assoc|].
      rewrite <- Hk. f_equal. rewrite length_app. lia.
    + destruct Hex as [(-> & Hn & Hm & Ht)|(-> & w0 & Hw)]; [left|right].
      * split; [done|]. split; [lia|]. intros i v [[Hv Hi']|(j & -> & Hv)]%lookup_app_case; [by apply (Hg i v)|].
        rewrite <- (Ht j v Hv). f_equal. lia.
      * split; [lia|]. exists w0. rewrite <- Hw. do 3 f_equal. lia.
Qed.

Lemma run_loop_spec w x w' :
  1 <= maxIterations ->
  run_loop host name body keepGoing codec maxIterations exec ctx w = (x, w') ->
  exists k n vs, loop_ran k n vs x w w'.
Proof using LW exec_wid exec_guard body_log.
  intros Hmax. unfold run_loop. rewrite exec_wid. intros Hx.
  apply flatMap_cases in Hx as [(state & w1 & Hload & Hx)|(y & Hload & Hy)];
    pose proof (promiseOrDie_quiet held rv log _ lw_load w) as Hq; rewrite Hload in Hq; cbn in Hq.
  2: { exists 0%nat, 0%nat, []. apply loop_ran_none; [done|done|]. unfold promiseOrDie in Hload.
       destruct (rs_loadWorkflow wid w) as [[o|e|] w2]; injection Hload as <- <-; inversion Hy; [right; by eexists|by left]. }
  assert (held w1 -> forall n, state_row n state ≫= completed_result = rv w1 n) as Hrows.
  { unfold promiseOrDie in Hload. destruct (rs_loadWorkflow wid w) as [[o|e|] w2] eqn:E; try done.
    injection Hload as <- <-. by eapply lw_loaded. }
  apply flatMap_cases in Hx as [(rp & w2 & Hr & Hx)|(y & Hr & Hy)];
    apply sync_cases in Hr as (-> & [(a & Hr & Ha)|(e & Hr & Ha)]); try discriminate;
    try (rewrite Ha in Hy; inversion Hy; fail).
  2: { rewrite Ha in Hy. exists 0%nat, 0%nat, []. apply loop_ran_none; [done|done|]. inversion Hy. right. by eexists. }
  injection Ha as <-. destruct state as [st|].
  - apply replay_spec in Hr as (vs & Hd & Hlen & Hr).
    assert (held w1 -> forall i v, vs !! i = Some v ->
      exists raw, rv w1 (row (Z.of_nat i)) = Some raw /\ codec_decode codec raw = Ok v) as Hd'.
    { intros Hh i v Hv. destruct (Hd i v Hv) as (raw & Hraw & Hdec). exists raw. split; [|done].
      rewrite <- (Hrows Hh). exact Hraw. }
    destruct rp as [r|k].
    + injection Hx as <- <-. exists (length vs), 0%nat, vs. apply loop_ran_replayed; [done|lia|done|done].
    + destruct Hr as (-> & Hg & Hn). cbn [Z.add] in Hx.
      apply loop_from_spec in Hx as (n & vs' & Hl & Hle & Hlen' & Hit & Hex); [|lia].
      exists (length vs), n, (vs ++ vs'). eapply loop_ran_resumed; try done; [lia|].
      intros Hh Hn0. rewrite <- (Hrows Hh). apply Hn. lia.
  - injection Hr as <-. apply loop_from_spec in Hx as (n & vs' & Hl & Hle & Hlen' & Hit & Hex); [|lia].
    exists 0%nat, n, vs'. apply (loop_ran_resumed [] n vs' x w w1 w'); try done; [cbn; lia|].
    intros Hh Hn0. by rewrite <- (Hrows Hh).
Qed.
End loop.

(** ** The step *)
Definition loop_limit {W} (options : option (LoopOptions W)) : Z :=
  opt_or (options ≫= lo_maxIterations) DEFAULT_MAX_ITERATIONS.

Lemma loop_step_execute {W} `{RunStore W} (host : RunnerHost W) name dependsOn body keepGoing options codec d exec
    slot w x s' :
  createLoopStep host name dependsOn body keepGoing options codec = Ok d ->
  sd_execute d exec (slot, w) = (x, s') ->
  1 <= loop_limit options /\ s'.1 = slot /\
  run_loop host name body keepGoing codec (loop_limit options) exec (linearStepContext dependsOn exec) w = (x, s'.2).
Proof.
  unfold createLoopStep, loop_limit. destruct (_ <? 1) eqn:Hmax; [done|]. intros [= <-]. cbn. unfold on_slot.
  destruct (run_loop _ _ _ _ _ _ _ _ w) as [y w']. intros [= <- <-]. split; [lia|done].
Qed.

Section drivers.
Context {W : Type} `{RS : RunStore W} (host : RunnerHost W) (wid : string)
  (rv : W -> string -> option json) (log : W -> list Z).
Context (name : string) (dependsOn : list string) (body : Z -> StepFn StepContext W)
  (keepGoing : json -> Z -> res thrown bool) (options : option (LoopOptions W)) (codec : Codec)
  (d : StepDefinition W).
Hypothesis step_built : createLoopStep host name dependsOn body keepGoing options codec = Ok d.

(** A driver of the step, with its lock. *)
Record driver (lock : option FenceGuard) (held : W -> Prop) (exec : ExecuteParams) : Prop := {
  dr_world : LoopWorld host wid lock held rv log;
  dr_workflow : ep_workflowId exec = wid;
  dr_guard : ep_guard exec = lock;
  dr_body : body_logs held rv log body (linearStepContext dependsOn exec);
}.

Lemma driver_ran lock held exec slot w x s' :
  driver lock held exec -> sd_execute d exec (slot, w) = (x, s') ->
  s'.1 = slot /\ exists k n vs,
    loop_ran host held rv log name body keepGoing codec (loop_limit options) exec (linearStepContext dependsOn exec)
      k n vs x w s'.2.
Proof using step_built.
  intros [HW Hw Hg Hb] Hx. destruct (loop_step_execute _ _ _ _ _ _ _ _ _ _ _ _ _ step_built Hx) as (Hmax & Hs & Hrun).
  split; [done|]. by eapply run_loop_spec.
Qed.

(** What a loop stopped with, a loop that finds its rows stops with again. *)
Lemma replayed_stop host' held1 held2 exec1 exec2 ctx1 ctx2 k1 n1 vs1 k2 n2 vs2 r x2 w0 w1 w2 w3 max :
  (forall v raw, codec_encode codec v = Ok raw -> codec_decode codec raw = Ok v) ->
  loop_ran host' held1 rv log name body keepGoing codec max exec1 ctx1 k1 n1 vs1 (Succ r) w0 w1 -> held1 w1 ->
  (forall y, rv w2 y = rv w1 y) ->
  loop_ran host' held2 rv log name body keepGoing codec max exec2 ctx2 k2 n2 vs2 x2 w2 w3 -> held2 w3 ->
  n2 = 0%nat /\ (x2 = Succ r \/ x2 = Killed \/ exists e, x2 = Dies e).
Proof.
  intros Hcodec (_ & Hmax1 & _ & _ & Hh1 & _ & Hgo1 & Hn1 & l1 & -> & Hstop) Hheld1 Hrv
    (_ & Hmax2 & Hk2 & Hlen2 & Hh2 & _ & Hgo2 & Hx2) Hheld2.
  destruct (Hh1 Hheld1) as (_ & _ & _ & _ & Hrows1). destruct (Hh2 Hheld2) as (_ & Hsome2 & Hnone2 & Hframe2 & Hrows2).
  rewrite length_app in Hn1. cbn in Hn1.
  assert (forall i v, (l1 ++ [r]) !! i = Some v -> exists raw, rv w2 (iter_row name (Z.of_nat i)) = Some raw /\
    codec_decode codec raw = Ok v) as Hdec1.
  { intros i v Hv. destruct (Hrows1 i v Hv) as (raw & Hraw & Hc). exists raw. rewrite Hrv. split; [done|].
    destruct (decide _); [done|]. by apply Hcodec. }
  assert (forall v, (length l1 < k2)%nat -> vs2 !! length l1 = Some v -> v = r) as Hagree.
  { intros v Hlt Hv. destruct (Hdec1 (length l1) r) as (raw & Hraw & Hd); [by apply list_lookup_middle|].
    destruct (Hrows2 _ _ Hv) as (raw2 & Hraw2 & Hd2). rewrite decide_True in Hd2 by done.
    rewrite Hframe2 in Hraw2; [congruence|]. intros j Hj Heq%iter_row_inj. lia. }
  assert (Ok true <> keepGoing r (Z.of_nat (length l1))) as Hno by (by rewrite Hstop).
  assert (n2 = 0)%nat as ->.
  { destruct n2 as [|n2]; [done|]. specialize (Hnone2 ltac:(lia)). exfalso.
    destruct (decide (length l1 < k2)%nat) as [Hlt|Hlt].
    - destruct (lookup_lt_is_Some_2 vs2 (length l1)) as [v Hv]; [lia|]. apply Hno.
      rewrite <- (Hagree v Hlt Hv). symmetry. apply Hgo2; [done|lia].
    - destruct (lookup_lt_is_Some_2 (l1 ++ [r]) k2) as [v Hv]; [rewrite length_app; cbn; lia|].
      destruct (Hdec1 k2 v Hv) as (raw & Hraw & _). congruence. }
  split; [done|]. destruct x2 as [r2|e|e|]; [| |by right; right; eexists|by right; left].
  - destruct Hx2 as (Hk & l2 & -> & Hstop2). rewrite length_app in Hk. cbn in Hk. left. f_equal.
    destruct (Nat.lt_trichotomy (length l2) (length l1)) as [Hlt|[Heq|Hlt]].
    + exfalso. destruct (lookup_lt_is_Some_2 l1 (length l2) Hlt) as [v Hv].
      assert (keepGoing v (Z.of_nat (length l2)) = Ok true) as Ht.
      { apply Hgo1; [by apply lookup_app_l_Some|lia]. }
      destruct (Hdec1 (length l2) v) as (raw & Hraw & Hd); [by apply lookup_app_l_Some|].
      destruct (Hrows2 (length l2) r2) as (raw2 & Hraw2 & Hd2); [by apply list_lookup_middle|].
      rewrite decide_True in Hd2 by lia. rewrite Hframe2 in Hraw2; [congruence|].
      intros j Hj Heq%iter_row_inj. lia.
    + apply Hagree; [lia|]. by apply list_lookup_middle.
    + exfalso. destruct (lookup_lt_is_Some_2 (l2 ++ [r2]) (length l1)) as [v Hv]; [rewrite length_app; cbn; lia|].
      apply Hno. rewrite <- (Hagree v ltac:(lia) Hv). symmetry. apply Hgo2; [done|lia].
  - exfalso. destruct Hx2 as [(_ & Hm & Ht)|(Hk & _)]; [|lia].
    destruct (lookup_lt_is_Some_2 vs2 (length l1)) as [v Hv]; [lia|].
    apply Hno. rewrite <- (Hagree v ltac:(lia) Hv). symmetry. by apply Ht.
Qed.

(** C12. A durable loop, run and then - after a crash, a retry or a takeover -
    run again, on storage that kept the run's rows in between. Each execution
    calls the body of consecutive iterations, none at or past
    [maxIterations]. The second one calls no body whose iteration the first
    had completed: at most the last body of the first execution is called
    again. A loop fails at [maxIterations] or with the failure of its last
    body, and stops only where its condition says so; one that had returned a
    value calls no body when run again: it returns that value from its rows,
    unless the storage fails. *)
Theorem loop_resumes lock1 held1 exec1 lock2 held2 exec2 slot1 slot2 w0 x1 s1 w2 x2 s2 :
  driver lock1 held1 exec1 -> driver lock2 held2 exec2 ->
  sd_execute d exec1 (slot1, w0) = (x1, s1) -> held1 s1.2 ->
  log w2 = log s1.2 -> (forall y, rv w2 y = rv s1.2 y) ->
  sd_execute d exec2 (slot2, w2) = (x2, s2) -> held2 s2.2 ->
  exists k1 n1 k2 n2 : nat,
    log s2.2 = log w0 ++ seqZ (Z.of_nat k1) (Z.of_nat n1) ++ seqZ (Z.of_nat k2) (Z.of_nat n2) /\
    Z.of_nat (k1 + n1) <= loop_limit options /\ Z.of_nat (k2 + n2) <= loop_limit options /\
    ((0 < n2)%nat -> (k1 + n1 <= k2 + 1)%nat) /\
    (forall e, x1 = Fails e ->
       (e = LoopLimitExceededError host wid name (loop_limit options) /\ Z.of_nat (k1 + n1) = loop_limit options) \/
       exists i w, (k1 + n1 = i + 1)%nat /\
         (run_fn (body (Z.of_nat i)) (linearStepContext dependsOn exec1) w).1 = Fails e) /\
    (forall r, x1 = Succ r -> exists i, (k1 + n1 = i + 1)%nat /\ keepGoing r (Z.of_nat i) = Ok false) /\
    forall r, x1 = Succ r ->
      (forall v raw, codec_encode codec v = Ok raw -> codec_decode codec raw = Ok v) ->
      n2 = 0%nat /\ (x2 = Succ r \/ x2 = Killed \/ exists e, x2 = Dies e).
Proof using step_built.
  intros D1 D2 Hx1 Hh1 Hlog Hrv Hx2 Hh2.
  destruct (driver_ran _ _ _ _ _ _ _ D1 Hx1) as (_ & k1 & n1 & vs1 & R1).
  destruct (driver_ran _ _ _ _ _ _ _ D2 Hx2) as (_ & k2 & n2 & vs2 & R2).
  exists k1, n1, k2, n2. pose proof R1 as (Hl1 & Hm1 & _ & Hlen1 & Hr1 & _).
  pose proof R2 as (Hl2 & Hm2 & _ & _ & Hr2 & _). pose proof R1 as (_ & _ & _ & _ & _ & _ & _ & Hexit).
  destruct (Hr1 Hh1) as (_ & _ & _ & _ & Hrows1). destruct (Hr2 Hh2) as (_ & _ & Hnone2 & _).
  split; [by rewrite Hl2, Hlog, Hl1, <- app_assoc|]. split; [done|]. split; [done|]. split.
  - intros Hn2. specialize (Hnone2 Hn2). rewrite Hrv in Hnone2.
    destruct (decide (k1 + n1 <= k2 + 1)%nat) as [?|Hlt]; [done|]. exfalso.
    destruct (lookup_lt_is_Some_2 vs1 k2) as [v Hv]; [lia|].
    destruct (Hrows1 k2 v Hv) as (raw & Hraw & _). congruence.
  - split; [|split].
    + intros e ->. destruct Hexit as [(-> & Hm & _)|(Hk & w & Hw)]; [left; split; [|lia]|right].
      * by rewrite (dr_workflow _ _ _ D1).
      * exists (length vs1), w. split; [lia|done].
    + intros r ->. destruct Hexit as (Hk & l & -> & Hs). exists (length l). rewrite length_app in Hk. cbn in Hk.
      split; [lia|done].
    + intros r -> Hcodec. by eapply replayed_stop.
Qed.
End drivers.
