(* ===== verification/MapLaws.v ===== *)
(** A map over the elements of an array, over any storage: which elements
    run, what their task rows hold, and what a map that runs again does.

    [MapWorld] is the contract between the driver of the step and its world:
    [rv] has the results of the completed task rows of the step by
    [task_key], [calls] the calls of the function: the index and the element
    it got, and how the call ended. *)
From Stdlib Require Import QArith.
From S2P Require Import Prelude Leases Json Journal RunState Storage Exits Retry Replay StepBody Checkpoint Waves WaveLaws AsyncRel Steps StoreSteps.
Open Scope string_scope.
Open Scope list_scope.
Open Scope Z_scope.

Definition task_key (i : Z) : string := str_of_Z i.

Definition task_completed (t : StepTaskState) : Prop := ta_status t = SCompleted.

(** [tasks] are the task rows whose results are [rv]. *)
Definition tasks_are (tasks : list StepTaskState) (rv : string -> option json) : Prop :=
  (forall t, t ∈ tasks -> task_completed t -> rv (task_key (ta_taskIndex t)) = Some (ta_result t)) /\
  (forall i raw, rv (task_key i) = Some raw ->
     exists t, t ∈ tasks /\ task_completed t /\ ta_taskIndex t = i /\ ta_result t = raw).

(** The task rows of a step row. *)
Definition row_task_list {W} `{StepStore W} (row : option StepState) (w : W) : list StepTaskState :=
  match row with Some st => ss_tasks (st_tasks st) w | None => [] end.

Definition ElementCall : Type := Z * json * exit json.

Class MapWorld {W : Type} `{StepStore W} (host : RunnerHost W) (workflowId : string)
    (lock : option FenceGuard) (stepName : string) (held : W -> Prop) (rv : W -> string -> option json)
    (calls : W -> list ElementCall) : Prop := {
  mpw_host : QuietHost held rv calls host;
  mpw_timed_out : forall ms w, quiet held rv calls w (rh_timed_out host ms w).2;
  mpw_load : quietly held rv calls (rs_loadWorkflow workflowId);
  mpw_loaded : forall w st w', rs_loadWorkflow workflowId w = (Ret st, w') -> held w' ->
    tasks_are (row_task_list (state_row stepName st) w') (rv w');
  mpw_result : forall i r w, let '(o, w') := ss_saveTaskResult lock workflowId stepName i r w in
    put held rv calls (task_key i) (Some r) w w' o;
  mpw_failure : forall i e w, let '(o, w') := ss_saveTaskFailure lock workflowId stepName i e w in
    put held rv calls (task_key i) None w w' o;
}.
#[export] Existing Instance mpw_host.

Lemma task_key_inj i j : task_key i = task_key j -> i = j.
Proof. apply str_of_Z_inj. Qed.

(** ** Saved elements *)
Section saved.
Context (len : Z) (codec : Codec).

Lemma decode_task_lookup saved t i v :
  decode_task len codec saved t !! i = Some v ->
  saved !! i = Some v \/
  (task_completed t /\ ta_taskIndex t = i /\ 0 <= i < len /\ codec_decode codec (ta_result t) = Ok v).
Proof.
  unfold decode_task, task_completed. destruct (bool_decide_reflect (ta_status t = SCompleted)) as [Hs|Hs]; [|by left].
  cbn [negb]. destruct (_ || _) eqn:Hr; [by left|]. destruct (codec_decode codec (ta_result t)) as [u|e] eqn:Hd; [|by left].
  destruct (decide (ta_taskIndex t = i)) as [<-|Hne].
  - rewrite lookup_insert_eq. intros [= <-]. right. split; [done|]. split; [done|]. split; [lia|done].
  - rewrite lookup_insert_ne by done. by left.
Qed.

Lemma decode_task_mono saved t i :
  is_Some (saved !! i) \/ (task_completed t /\ ta_taskIndex t = i /\ 0 <= i < len /\
    exists v, codec_decode codec (ta_result t) = Ok v) -> is_Some (decode_task len codec saved t !! i).
Proof.
  unfold decode_task, task_completed. intros Hi.
  destruct (bool_decide_reflect (ta_status t = SCompleted)) as [Hs|Hs]; [|by destruct Hi as [?|[? _]]]. cbn [negb].
  destruct (_ || _) eqn:Hr; [destruct Hi as [?|(_ & <- & ? & _)]; [done|lia]|].
  destruct (codec_decode codec (ta_result t)) as [u|e] eqn:Hd; [|by destruct Hi as [?|(_ & _ & _ & v & ?)]].
  destruct (decide (ta_taskIndex t = i)) as [<-|Hne]; [rewrite lookup_insert_eq; by eexists|].
  rewrite lookup_insert_ne by done. by destruct Hi as [?|(_ & ? & _)].
Qed.

Lemma decoded_lookup tasks rv i v : tasks_are tasks rv ->
  decodeCompletedTasks tasks len codec !! i = Some v ->
  0 <= i < len /\ exists raw, rv (task_key i) = Some raw /\ codec_decode codec raw = Ok v.
Proof.
  intros [Ht _]. unfold decodeCompletedTasks. revert Ht.
  assert (forall saved, (forall t, t ∈ tasks -> task_completed t -> rv (task_key (ta_taskIndex t)) = Some (ta_result t)) ->
    foldl (decode_task len codec) saved tasks !! i = Some v ->
    saved !! i = Some v \/ (0 <= i < len /\ exists raw, rv (task_key i) = Some raw /\ codec_decode codec raw = Ok v)) as Hgen.
  { induction tasks as [|t tasks IH]; intros saved Ht Hv; [by left|]. cbn [foldl] in Hv.
    apply IH in Hv as [Hv|?]; [|by right|intros u Hu; apply Ht; by right].
    apply decode_task_lookup in Hv as [?|(Hc & Hi & Hr & Hd)]; [by left|]. right. split; [done|].
    exists (ta_result t). split; [|done]. rewrite <- Hi. apply Ht; [left|done]. }
  intros Ht Hv. by apply Hgen in Hv as [?|?].
Qed.

Lemma decoded_complete tasks rv i raw v : tasks_are tasks rv ->
  0 <= i < len -> rv (task_key i) = Some raw -> codec_decode codec raw = Ok v ->
  is_Some (decodeCompletedTasks tasks len codec !! i).
Proof.
  intros [_ Ht] Hi Hraw Hd. destruct (Ht i raw Hraw) as (t & Hin & Hc & <- & <-). unfold decodeCompletedTasks.
  assert (forall saved, (is_Some (saved !! ta_taskIndex t) \/ t ∈ tasks) ->
    is_Some (foldl (decode_task len codec) saved tasks !! ta_taskIndex t)) as Hgen; [|apply Hgen; by right].
  clear Hin Ht Hraw. induction tasks as [|u tasks IH]; intros saved [Hs|Hin]; cbn [foldl]; try done.
  - by apply not_elem_of_nil in Hin.
  - apply IH. left. apply decode_task_mono. by left.
  - apply IH. apply elem_of_cons in Hin as [<-|Hin]; [left|by right]. apply decode_task_mono. right.
    split; [done|]. split; [done|]. split; [done|]. by exists v.
Qed.
End saved.

(** ** Calls *)
Definition calls_at (i : Z) (L : list ElementCall) : list (exit json) := snd <$> base.filter (fun c => c.1.1 = i) L.

Lemma calls_at_app i L1 L2 : calls_at i (L1 ++ L2) = calls_at i L1 ++ calls_at i L2.
Proof. unfold calls_at. by rewrite filter_app, fmap_app. Qed.

Lemma calls_at_same i x os : calls_at i (pair (i, x) <$> os) = os.
Proof.
  unfold calls_at. induction os as [|o os IH]; [done|]. rewrite fmap_cons, filter_cons_True, fmap_cons by done.
  f_equal. exact IH.
Qed.

Lemma calls_at_none i L : (forall c, c ∈ L -> c.1.1 <> i) -> calls_at i L = [].
Proof.
  unfold calls_at. induction L as [|c L IH]; intros Hc; [done|]. rewrite filter_cons_False by (apply Hc; left).
  apply IH. intros c' Hin. apply Hc. by right.
Qed.

Lemma calls_at_other i j x os : i <> j -> calls_at j (pair (i, x) <$> os) = [].
Proof. intros Hij. apply calls_at_none. by intros c (o & -> & _)%list_elem_of_fmap. Qed.

Lemma last_app_ne {A} (l1 l2 : list A) : l2 <> [] -> last (l1 ++ l2) = last l2.
Proof. intros Hl. rewrite last_app. destruct (last l2) eqn:E; [done|]. by apply last_None in E. Qed.

(** ** One element *)
Section map.
Context {W : Type} `{SS : StepStore W} (host : RunnerHost W) (wid : string) (lock : option FenceGuard)
  (name : string) (held : W -> Prop) (rv : W -> string -> option json) (calls : W -> list ElementCall)
  {MW : MapWorld host wid lock name held rv calls}.
Context (fn : json -> StepFn MapStepContext W) (elementOptions : option MapElementOptions) (codec : Codec)
  (rh_elements : option Z -> list Z -> W -> list Z) (concurrency : option Z) (exec : ExecuteParams).
Hypothesis exec_wid : ep_workflowId exec = wid.
Hypothesis exec_guard : ep_guard exec = lock.
Hypothesis order_ok : forall c l w, rh_elements c l w ≡ₚ l.

(** The function of an element, whatever it is: it writes no task row. *)
Definition fn_logs : Prop := forall x i attempt w,
  let '(y, w') := run_fn (fn x) (mkMapContext (ep_input exec) (ep_workflowId exec) i attempt) w in
  calls w' = calls w ++ [(i, x, y)] /\ (held w' -> held w /\ forall y, rv w' y = rv w y).
Hypothesis fn_log : fn_logs.

(** Calls with element [x] at [i] only, and no write. *)
Definition called_with (i : Z) (x : json) (os : list (exit json)) (w w' : W) : Prop :=
  calls w' = calls w ++ (pair (i, x) <$> os) /\ (held w' -> held w /\ forall y, rv w' y = rv w y).

Definition called_only (i : Z) (x : json) (w w' : W) : Prop := exists os, called_with i x os w w'.

Lemma called_with_trans i x os1 os2 w1 w2 w3 :
  called_with i x os1 w1 w2 -> called_with i x os2 w2 w3 -> called_with i x (os1 ++ os2) w1 w3.
Proof.
  intros [E1 H1] [E2 H2]. split; [by rewrite E2, E1, fmap_app, app_assoc|].
  intros Hh. destruct (H2 Hh) as [Hh2 R2]. destruct (H1 Hh2) as [Hh1 R1]. split; [done|]. intros y. by rewrite R2.
Qed.

Lemma quiet_called_with i x w w' : quiet held rv calls w w' -> called_with i x [] w w'.
Proof. intros [Hl Hq]. split; [by rewrite app_nil_r|done]. Qed.

#[local] Instance called_only_preorder i x : PreOrder (called_only i x).
Proof.
  split.
  - intros w. exists []. by apply quiet_called_with, quiet_refl.
  - intros w1 w2 w3 [os1 H1] [os2 H2]. exists (os1 ++ os2). by eapply called_with_trans.
Qed.

#[local] Abbreviation on_el i x := (on_second (X := Z) (called_only i x)).

Lemma on_counter_called {A} i x (f : W -> A * W) s :
  (forall w, quiet held rv calls w (f w).2) -> on_el i x s (on_counter f s).2.
Proof.
  intros Hf. specialize (Hf s.2). unfold on_second, on_counter. destruct (f s.2) as [a w]. exists [].
  by apply quiet_called_with.
Qed.

(** At least one call, and a value is that of the last one. *)
Definition answered (i : Z) (x : json) (y : exit json) (w w' : W) : Prop :=
  exists os, os <> [] /\ called_with i x os w w' /\ forall v, y = Succ v -> last os = Some (Succ v).

Lemma answered_called i x y w w' : answered i x y w w' -> called_only i x w w'.
Proof. intros (os & _ & Hc & _). by exists os. Qed.

Lemma called_answered i x y w1 w2 w3 : called_only i x w1 w2 -> answered i x y w2 w3 -> answered i x y w1 w3.
Proof.
  intros [os1 H1] (os2 & Hne & H2 & Hv). exists (os1 ++ os2). split; [by destruct os1|].
  split; [by eapply called_with_trans|]. intros v Hy. rewrite last_app_ne by done. by apply Hv.
Qed.

Lemma answered_then i x y y' w1 w2 w3 : answered i x y w1 w2 -> called_only i x w2 w3 -> (forall v, y' <> Succ v) ->
  answered i x y' w1 w3.
Proof.
  intros (os1 & Hne & H1 & _) [os2 H2] Hy. exists (os1 ++ os2). split; [by destruct os1|].
  split; [by eapply called_with_trans|]. intros v ->. by destruct (Hy v).
Qed.

Lemma answered_quiet i x y w1 w2 w3 : answered i x y w1 w2 -> quiet held rv calls w2 w3 -> answered i x y w1 w3.
Proof.
  intros (os & Hne & H1 & Hv) H2%(quiet_called_with i x). exists os. split; [done|]. split; [|done].
  rewrite <- (app_nil_r os). by eapply called_with_trans.
Qed.

Definition answers_with (i : Z) (x : json) (e : Eff (Z * W) json) : Prop :=
  forall s, let '(y, s') := e s in answered i x y s.2 s'.2.

Lemma element_attempt_answers x i : answers_with i x (element_attempt fn exec x i).
Proof using fn_log.
  intros [c w]. unfold element_attempt. pose proof (fn_log x i (ep_attempt exec + (c + 1)) w) as Hl.
  destruct (run_fn _ _ w) as [y w']. destruct Hl as [Hl Hq]. exists [y]. split; [done|]. split; [done|]. by intros v ->.
Qed.

Lemma element_timeout_answers x i ms e : answers_with i x e -> answers_with i x (element_timeout host exec name i ms e).
Proof using MW.
  intros He s. unfold element_timeout. specialize (He s). destruct (e s) as [y s1].
  assert (forall late s2, on_counter (rh_timed_out host ms) s1 = (late, s2) -> quiet held rv calls s1.2 s2.2) as Hq.
  { intros late s2. unfold on_counter. pose proof (mpw_timed_out ms s1.2) as Hq. destruct (rh_timed_out host ms s1.2).
    by intros [= <- <-]. }
  destruct y; [..|done]; destruct (on_counter (rh_timed_out host ms) s1) as [late s2]; specialize (Hq late s2 eq_refl);
    (destruct late; [|by apply (answered_quiet _ _ _ _ s1.2)]);
    apply (answered_then _ _ _ _ _ _ _ He); try done; exists []; by apply quiet_called_with.
Qed.

Lemma element_retry_answers x i policy e : answers_with i x e -> answers_with i x (element_retry host policy e).
Proof using MW.
  intros He s. unfold element_retry, retryAsync.
  set (run := fun (_ : nat) (s : Z * W) => let '(x, s) := e s in (caught x, s)).
  assert (forall k s, on_el i x s (run k s).2) as Hrun.
  { intros k s1. unfold run. specialize (He s1). destruct (e s1). by eapply answered_called. }
  match goal with |- context [attempt ?n ?r ?w ?a ?f ?p ?m 0 None s] =>
    pose proof (loop_first n r w a run p (on_el i x) (fun s => on_counter_called i x (rh_now host) s now_quiet)
      (fun s => on_counter_called i x (rh_random host) s random_quiet)
      (fun d s => on_counter_called i x (timer host d) s (timer_quiet d)) Hrun m 0%nat None s) as Hfirst;
    pose proof (loop_returns n r w a run p (on_el i x) (fun s => on_counter_called i x (rh_now host) s now_quiet)
      (fun s => on_counter_called i x (rh_random host) s random_quiet)
      (fun d s => on_counter_called i x (timer host d) s (timer_quiet d)) Hrun m 0%nat None s) as Hret;
    destruct (attempt n r w a f p m 0 None s) as [o s'] end.
  assert (forall y, (forall v, y <> Succ v) -> answered i x y s.2 s'.2) as Hother.
  { intros y Hy. cbn [snd] in Hfirst. unfold run in Hfirst. pose proof (He s) as H1. destruct (e s) as [y1 s1].
    by apply (answered_then _ _ _ _ _ _ _ H1 Hfirst). }
  destruct o as [y|y|]; cbn [uncaught]; [|by apply Hother..].
  destruct (Hret y s' eq_refl) as (k & s1 & H1 & Hy). unfold run in Hy. pose proof (He s1) as H2.
  destruct (e s1) as [y2 s2]. injection Hy as Hy <-. apply (called_answered _ _ _ _ _ _ H1).
  destruct y2; cbn in Hy; try done; by injection Hy as <-.
Qed.

Lemma run_attempts_answers x i w :
  let '(y, w') := run_attempts host fn name elementOptions exec x i w in answered i x y w w'.
Proof using MW fn_log.
  unfold run_attempts, element_policies.
  assert (answers_with i x (match elementOptions ≫= me_timeoutMs with
            | Some ms => element_timeout host exec name i ms (element_attempt fn exec x i)
            | None => element_attempt fn exec x i end)) as Ht.
  { destruct (elementOptions ≫= me_timeoutMs); [apply element_timeout_answers|]; apply element_attempt_answers. }
  set (e := match elementOptions ≫= me_retry with Some policy => _ | None => _ end).
  assert (answers_with i x e) as He by (subst e; destruct (elementOptions ≫= me_retry); [by apply element_retry_answers|done]).
  specialize (He (-1, w)). destruct (e (-1, w)) as [y [c w']]. exact He.
Qed.

(** What one element comes to. *)
Definition element_ran (i : Z) (x : json) (y : exit json) (w w' : W) : Prop :=
  exists os, os <> [] /\ calls w' = calls w ++ (pair (i, x) <$> os) /\
  (forall v, y = Succ v -> last os = Some (Succ v)) /\
  (held w' -> held w /\ (forall y, y <> task_key i -> rv w' y = rv w y) /\
     forall v, y = Succ v -> exists raw, codec_encode codec v = Ok raw /\ rv w' (task_key i) = Some raw).

Lemma answered_then_put i x z w w1 w2 y : answered i x z w w1 -> (forall v, y = Succ v -> z = Succ v) -> calls w2 = calls w1 ->
  (held w2 -> held w1 /\ (forall y, y <> task_key i -> rv w2 y = rv w1 y)) ->
  (held w2 -> forall v, y = Succ v -> exists raw, codec_encode codec v = Ok raw /\ rv w2 (task_key i) = Some raw) ->
  element_ran i x y w w2.
Proof.
  intros (os & Hne & [E H1] & Hv) Hz E2 H2 Hx. exists os. split; [done|]. split; [by rewrite E2|].
  split; [intros v Hy; by apply Hv, Hz|]. intros Hh. destruct (H2 Hh) as [Hh1 R2].
  destruct (H1 Hh1) as [Hh0 R1]. split; [done|]. split; [|by apply Hx]. intros n Hn. by rewrite R2, R1.
Qed.

Lemma runElement_spec x i w y w' :
  runElement host fn name elementOptions codec exec x i w = (y, w') -> element_ran i x y w w'.
Proof using MW fn_log exec_wid exec_guard.
  unfold runElement. rewrite exec_wid, exec_guard. intros Hy.
  assert (forall z w1, catch (run_attempts host fn name elementOptions exec x i) (fun error =>
            if isControlFlowExit error then fail error
            else flatMap (promiseOrDie (ss_saveTaskFailure lock wid name i (failureMessage host error)))
                   (fun _ => fail error)) w = (z, w1) ->
    (forall v, z = Succ v -> answered i x z w w1) /\ (forall u : exit json, stops z u -> element_ran i x u w w1)) as Hcatch.
  { intros z w1. unfold catch. pose proof (run_attempts_answers x i w) as Hc.
    destruct (run_attempts _ _ _ _ _ _ _ w) as [u w2].
    assert (forall t : exit json, (forall v, t <> Succ v) -> element_ran i x t w w2) as Hplain.
    { intros t Ht. apply (answered_then_put i x u w w2 w2 t Hc); [intros v ->; by destruct (Ht v)|done|done|].
      intros _ v ->. by destruct (Ht v). }
    destruct u as [v|e|e|]; try (intros [= <- <-]; split; [done|intros t Ht; apply Hplain; inversion Ht; done]).
    destruct (isControlFlowExit e).
    { intros [= <- <-]. split; [done|]. intros t Ht. apply Hplain. inversion Ht. done. }
    intros Hz. apply flatMap_cases in Hz as [(a & w3 & Hp & Hz)|(t & Hp & Hz)];
      apply (promiseOrDie_put held rv calls (task_key i) None _ _ _ _ (mpw_failure i _ w2)) in Hp as (El & Hw & Hf).
    - injection Hz as <- <-. split; [done|]. intros t Ht.
      apply (answered_then_put i x _ w w2 w3 t Hc); [intros v ->; inversion Ht|exact El| |intros _ v ->; inversion Ht].
      intros Hh. destruct (Hw Hh) as (? & ? & _). done.
    - split; [intros v ->; inversion Hz|]. intros t' Ht.
      apply (answered_then_put i x _ w w2 w1 t' Hc); [intros v ->; inversion Ht|exact El| |intros _ v ->; inversion Ht].
      intros Hh. destruct (Hw Hh) as (? & ? & _). done. }
  apply flatMap_cases in Hy as [(v & w1 & Hc & Hy)|(z & Hc & Hy)]; [|by apply Hcatch in Hc as [_ Hc]; apply Hc].
  apply Hcatch in Hc as [Hc _]. specialize (Hc v eq_refl).
  destruct (codec_encode codec v) as [raw|e] eqn:Henc.
  - apply flatMap_cases in Hy as [(a & w2 & Hp & Hy)|(t & Hp & Hy)];
      apply (promiseOrDie_put held rv calls (task_key i) (Some raw) _ w1 _ _ (mpw_result i raw w1)) in Hp as (El & Hw & Hf).
    + injection Hy as <- <-. apply (answered_then_put i x _ w w1 w2 _ Hc); [done|exact El| |].
      * intros Hh. destruct (Hw Hh) as (? & ? & _). done.
      * intros Hh u [= <-]. exists raw. split; [done|]. destruct (Hw Hh) as (_ & _ & H3). by eapply H3.
    + apply (answered_then_put i x _ w w1 w' _ Hc); [intros u ->; inversion Hy|exact El| |intros _ u ->; inversion Hy].
      intros Hh. destruct (Hw Hh) as (? & ? & _). done.
  - apply flatMap_cases in Hy as [(a & w2 & Hp & Hy)|(t & Hp & Hy)]; [done|]. unfold promiseOrDie, a_bind, a_lift in Hp.
    injection Hp as <- <-. apply (answered_then_put i x _ w w1 w1 _ Hc); [intros u ->; inversion Hy|done|done|intros _ u ->; inversion Hy].
Qed.

(** ** All elements *)
(** The calls of [L] at [i] ended with a value, which the row of [i] holds. *)
Definition settled_in (L : list ElementCall) (w' : W) (i : Z) (v : json) : Prop :=
  last (calls_at i L) = Some (Succ v) /\ exists raw, codec_encode codec v = Ok raw /\ rv w' (task_key i) = Some raw.

Lemma settled_frame os L i x w1 w2 j v : i <> j -> rv w2 (task_key j) = rv w1 (task_key j) ->
  settled_in L w1 j v -> settled_in ((pair (i, x) <$> os) ++ L) w2 j v.
Proof. unfold settled_in. intros Hij Hr. by rewrite calls_at_app, (calls_at_other i j), Hr. Qed.

Lemma settled_here os L i x w1 w2 v : (forall c, c ∈ L -> c.1.1 <> i) -> last os = Some (Succ v) ->
  (exists raw, codec_encode codec v = Ok raw /\ rv w1 (task_key i) = Some raw) -> rv w2 (task_key i) = rv w1 (task_key i) ->
  settled_in ((pair (i, x) <$> os) ++ L) w2 i v.
Proof.
  intros HL Hv Hraw Hr. unfold settled_in. rewrite calls_at_app, calls_at_same, (calls_at_none i L), app_nil_r, Hr by done. done.
Qed.

(** The elements of [order] that were called, one after the other: all of
    them, or those up to one that did not succeed. *)
Lemma run_elements_spec source order done w x w' :
  NoDup order ->
  run_elements host fn name elementOptions codec exec source order done w = (x, w') ->
  exists L, calls w' = calls w ++ L /\ (forall c, c ∈ L -> c.1.1 ∈ order /\ c.1.2 = element_at source c.1.1) /\
    ((forall m, x <> Succ m) -> L <> []) /\
    (held w' -> held w /\ (forall y, (forall i, i ∈ order -> y <> task_key i) -> rv w' y = rv w y) /\
       (forall c c', last L = Some c -> c' ∈ L -> c'.1.1 <> c.1.1 -> exists v, settled_in L w' c'.1.1 v) /\
       forall m, x = Succ m ->
         (forall i, i ∈ order -> exists v, m !! i = Some v /\ settled_in L w' i v) /\
         (forall i, i ∉ order -> m !! i = done !! i)).
Proof using MW fn_log exec_wid exec_guard.
  revert done w. induction order as [|i order IH]; intros done w Hnd; cbn [run_elements].
  { intros [= <- <-]. exists []. split; [by rewrite app_nil_r|]. split; [by intros c ?%not_elem_of_nil|].
    split; [intros Hm; by destruct (Hm done)|]. intros Hh. split; [done|].
    split; [done|]. split; [done|]. intros m [= <-]. split; [|done]. by intros i ?%not_elem_of_nil. }
  apply NoDup_cons in Hnd as [Hi Hnd]. intros Hx.
  apply flatMap_cases in Hx as [(v & w1 & He & Hx)|(y & He & Hy)]; apply runElement_spec in He as (os & Hne & El & Hlast & He).
  - apply IH in Hx as (L & EL & HL & Hfail & Hx); [|done]. set (x0 := element_at source i) in *.
    assert (forall c, c ∈ L -> c.1.1 <> i) as HLi by (intros c [Hc _]%HL Hci; by rewrite Hci in Hc).
    exists ((pair (i, x0) <$> os) ++ L). split; [by rewrite EL, El, app_assoc|]. split; [|split; [by destruct os|]].
    { intros c [(o & -> & _)%list_elem_of_fmap|[Hc ?]%HL]%elem_of_app; [split; [left|done]|split; [by right|done]]. }
    intros Hh. destruct (Hx Hh) as (Hh1 & R1 & Hset & Hm). destruct (He Hh1) as (Hh0 & R0 & Hv). split; [done|].
    assert (rv w' (task_key i) = rv w1 (task_key i)) as Hri.
    { apply R1. intros j Hj ->%task_key_inj. done. }
    assert (settled_in ((pair (i, x0) <$> os) ++ L) w' i v) as Hhere by (eapply settled_here; [done|by apply Hlast|by apply Hv|done]).
    split; [intros y Hy; rewrite R1 by (intros j Hj; apply Hy; by right); apply R0, Hy; left|]. split.
    + intros c c' Hl Hc' Hcc. destruct (decide (c'.1.1 = i)) as [->|Hci]; [by exists v|].
      apply elem_of_app in Hc' as [(o & -> & _)%list_elem_of_fmap|Hc']; [done|].
      rewrite last_app_ne in Hl by by (intros ->; apply not_elem_of_nil in Hc').
      destruct (Hset c c' Hl Hc' Hcc) as [u Hu]. exists u. by apply (settled_frame os L i x0 w' w').
    + intros m ->. destruct (Hm m eq_refl) as [Hin Hout]. split.
      * intros j [->|Hj]%elem_of_cons; [exists v; split; [|done]; rewrite Hout by done; by rewrite lookup_insert_eq|].
        destruct (Hin j Hj) as (u & Hu & Hsu). exists u. split; [done|]. apply (settled_frame os L i x0 w' w'); [|done|done].
        by intros ->.
      * intros j [Hji Hj]%not_elem_of_cons. rewrite Hout by done. by rewrite lookup_insert_ne.
  - exists (pair (i, element_at source i) <$> os). split; [done|]. split; [|split; [by destruct os|]].
    { intros c (o & -> & _)%list_elem_of_fmap. split; [left|done]. }
    intros Hh. destruct (He Hh) as (Hh0 & R0 & _). split; [done|]. split; [intros z Hz; apply R0, Hz; left|]. split.
    + intros c c' (o & -> & _)%last_Some_elem_of%list_elem_of_fmap (o' & -> & _)%list_elem_of_fmap. done.
    + intros m ->. inversion Hy.
Qed.

(** *** The join *)
Lemma zip_lookup (missing : list Z) (f : Z -> json) (m0 : gmap Z json) i :
  foldl (fun m '(i, v) => <[i := v]> m) m0 (zip missing (f <$> missing)) !! i =
  if decide (i ∈ missing) then Some (f i) else m0 !! i.
Proof.
  revert m0. induction missing as [|j missing IH]; intros m0; cbn [fmap list_fmap zip foldl].
  { rewrite decide_False; [done|]. apply not_elem_of_nil. }
  rewrite IH. destruct (decide (i ∈ missing)) as [Hi|Hi].
  - rewrite decide_True; [done|by right].
  - destruct (decide (j = i)) as [->|Hne].
    + rewrite lookup_insert_eq, decide_True; [done|left].
    + rewrite lookup_insert_ne by done. rewrite decide_False; [done|]. intros [?|?]%elem_of_cons; by subst.
Qed.

Definition len (source : list json) : Z := Z.of_nat (length source).

(** Element [i] has a completed task row that decodes. *)
Definition saved_at (source : list json) (w : W) (i : Z) : Prop :=
  0 <= i < len source /\ exists raw v, rv w (task_key i) = Some raw /\ codec_decode codec raw = Ok v.

(** The row that the runner hands to a first attempt is the stored one. *)
Definition fresh_row (w : W) : Prop :=
  ep_attempt exec <= 1 -> tasks_are (row_task_list (ep_stepState exec) w) (rv w).

Lemma savedElementResults_spec source w x w' :
  savedElementResults exec name (len source) codec w = (x, w') ->
  calls w' = calls w /\ (held w' -> fresh_row w -> held w /\ (forall y, rv w' y = rv w y) /\
    forall saved, x = Succ saved -> forall i,
      (forall v, saved !! i = Some v -> saved_at source w i /\
         exists raw, rv w (task_key i) = Some raw /\ codec_decode codec raw = Ok v) /\
      (saved_at source w i -> is_Some (saved !! i))).
Proof using MW exec_wid.
  unfold savedElementResults. intros Hx.
  assert (forall row w1, currentStepState exec name (1 <? ep_attempt exec) w = (Succ row, w1) ->
    quiet held rv calls w w1 /\ (held w1 -> fresh_row w -> tasks_are (row_task_list row w1) (rv w1))) as Hcur.
  { intros row w1. unfold currentStepState. destruct (Z.ltb_spec 1 (ep_attempt exec)) as [Ha|Ha].
    - rewrite exec_wid. pose proof (promiseOrDie_quiet held rv calls _ mpw_load w) as Hq. intros Hl.
      apply flatMap_cases in Hl as [(st & w2 & Hp & Hl)|(y & Hp & Hy)]; [|inversion Hy].
      injection Hl as <- <-. rewrite Hp in Hq. split; [exact Hq|]. intros Hh _. unfold promiseOrDie in Hp.
      destruct (rs_loadWorkflow wid w) as [[o|e|] w3] eqn:E; try done. injection Hp as <- <-. by eapply mpw_loaded.
    - intros [= <- <-]. split; [apply quiet_refl|]. intros _ Hf. by apply Hf. }
  assert (forall y w1, currentStepState exec name (1 <? ep_attempt exec) w = (y, w1) ->
    quiet held rv calls w w1) as Hq.
  { intros y w1. unfold currentStepState. destruct (1 <? _); [|intros [= <- <-]; apply quiet_refl].
    rewrite exec_wid. pose proof (promiseOrDie_quiet held rv calls _ mpw_load w) as Hq. intros Hl.
    apply flatMap_cases in Hl as [(st & w2 & Hp & Hl)|(z & Hp & Hz)]; rewrite Hp in Hq; [|done].
    injection Hl as <- <-. exact Hq. }
  apply flatMap_cases in Hx as [(row & w1 & Hc & Hx)|(y & Hc & Hy)].
  2: { destruct (Hq _ _ Hc) as [Hl Hr]. split; [done|]. intros Hh _. destruct (Hr Hh) as [? ?]. split; [done|].
       split; [done|]. intros saved ->. inversion Hy. }
  destruct (Hcur _ _ Hc) as [[Hl Hr] Ht].
  assert (x = Succ (decodeCompletedTasks (row_task_list row w1) (len source) codec) /\ w' = w1) as [-> ->].
  { destruct row as [st|]; cbn in Hx; by injection Hx as <- <-. }
  split; [done|]. intros Hh Hf. destruct (Hr Hh) as [Hh0 E]. specialize (Ht Hh Hf). split; [done|]. split; [done|].
  intros saved [= <-] i. split.
  - intros v Hv. destruct (decoded_lookup _ _ _ _ _ _ Ht Hv) as (Hi & raw & Hraw & Hd). rewrite E in Hraw.
    split; [split; [done|]; by exists raw, v|by exists raw].
  - intros (Hi & raw & v & Hraw & Hd). rewrite <- E in Hraw. by eapply decoded_complete.
Qed.

Lemma promiseOrDie_no_failure {S A} (p : async S A) s e s' : promiseOrDie p s <> (Fails e, s').
Proof. unfold promiseOrDie. by destruct (p s) as [[]]. Qed.

Lemma saved_no_failure l w e w' : savedElementResults exec name l codec w <> (Fails e, w').
Proof.
  unfold savedElementResults. intros [(row & w1 & _ & Hx)|(y & Hc & Hy)]%flatMap_cases; [by destruct row|].
  destruct y; inversion Hy. unfold currentStepState in Hc. destruct (1 <? _); [|done].
  apply flatMap_cases in Hc as [(st & w2 & _ & Hx)|(z & Hc & Hz)]; [done|]. destruct z; inversion Hz.
  by apply promiseOrDie_no_failure in Hc.
Qed.

(** *** One execution of the map *)
(** The value of element [i] in the joined array: that of its row, decoded,
    or that of its last call, which its row now holds. *)
Definition element_result (source : list json) (L : list ElementCall) (w w' : W) (i : Z) (v : json) : Prop :=
  (saved_at source w i /\ exists raw, rv w (task_key i) = Some raw /\ codec_decode codec raw = Ok v) \/
  (~ saved_at source w i /\ settled_in L w' i v).

(** The calls [L] of an execution that ended as [x]. *)
Record mapped (source : list json) (L : list ElementCall) (x : exit json) (w w' : W) : Prop := {
  mp_unsaved : forall i a y, (i, a, y) ∈ L ->
    0 <= i < len source /\ source !! Z.to_nat i = Some a /\ ~ saved_at source w i;
  mp_kept : forall i, saved_at source w i -> rv w' (task_key i) = rv w (task_key i);
  mp_joined : forall r, x = Succ r -> exists vs, r = JArr vs /\ length vs = length source /\
    forall i v, vs !! i = Some v -> element_result source L w w' (Z.of_nat i) v;
  mp_settled : forall c c', last L = Some c -> c' ∈ L -> c'.1.1 <> c.1.1 -> exists v, settled_in L w' c'.1.1 v;
  mp_failed : forall e, x = Fails e -> L <> [];
}.

Definition map_ran (source : list json) (x : exit json) (w w' : W) : Prop :=
  exists L, calls w' = calls w ++ L /\ (held w' -> fresh_row w -> held w /\ mapped source L x w w').

Lemma element_at_lookup source i : 0 <= i < len source -> source !! Z.to_nat i = Some (element_at source i).
Proof.
  unfold len, element_at. intros Hi. rewrite (proj2 (Z.ltb_ge i 0)) by lia.
  destruct (lookup_lt_is_Some_2 source (Z.to_nat i)) as [v ->]; [lia|done].
Qed.

(** An execution that calls nothing. *)
Lemma mapped_nothing source x w w' : (forall y, rv w' y = rv w y) -> (forall e, x <> Fails e) ->
  (forall r, x = Succ r -> exists vs, r = JArr vs /\ length vs = length source /\
    forall i v, vs !! i = Some v -> saved_at source w (Z.of_nat i) /\
      exists raw, rv w (task_key (Z.of_nat i)) = Some raw /\ codec_decode codec raw = Ok v) ->
  mapped source [] x w w'.
Proof.
  intros E Hf Hr. split; [by intros ??? ?%not_elem_of_nil|done| |done|by intros e ?%Hf].
  intros r Hx. destruct (Hr r Hx) as (vs & Hj & Hlen & Hv). exists vs. split; [done|]. split; [done|].
  intros i v Hi. left. by apply Hv.
Qed.

Lemma mapped_lookup (f : Z -> json) source i v :
  (f <$> index_list source) !! i = Some v -> (i < length source)%nat /\ v = f (Z.of_nat i).
Proof.
  unfold index_list. rewrite list_lookup_fmap. intros (j & Hj & ->)%fmap_Some.
  apply lookup_seqZ in Hj as [-> ?]. split; [lia|by rewrite Z.add_0_l].
Qed.

Lemma mapped_length (f : Z -> json) source : length (f <$> index_list source) = length source.
Proof. unfold index_list. rewrite length_fmap, length_seqZ. lia. Qed.

Lemma indices_spec source i : i ∈ index_list source <-> 0 <= i < len source.
Proof. unfold index_list, len. rewrite elem_of_seqZ. lia. Qed.

Lemma run_map_spec source w x w' :
  run_map host fn name elementOptions codec rh_elements concurrency exec source w = (x, w') ->
  map_ran source x w w'.
Proof using MW fn_log exec_wid exec_guard order_ok.
  unfold run_map. intros Hx.
  apply flatMap_cases in Hx as [(saved & w1 & Hs & Hx)|(y & Hs & Hy)]; pose proof Hs as Hs0;
    apply savedElementResults_spec in Hs as [El1 Hs].
  2: { exists []. split; [by rewrite El1, app_nil_r|]. intros Hh Hf. destruct (Hs Hh Hf) as (Hh0 & E & _).
       split; [done|]. apply mapped_nothing; [done| |intros r ->; inversion Hy].
       intros e ->. destruct y; inversion Hy. by apply saved_no_failure in Hs0. }
  set (missing := base.filter (fun i => saved !! i = None) (index_list source)) in Hx.
  assert (forall i, i ∈ missing <-> 0 <= i < len source /\ saved !! i = None) as Hmiss.
  { intros i. unfold missing. rewrite list_elem_of_filter, indices_spec. tauto. }
  assert (NoDup missing) as Hnd by (apply NoDup_filter, NoDup_seqZ).
  assert (saved = ∅ -> missing = index_list source) as Hall.
  { intros ->. apply filter_all, Forall_forall. intros i _. apply lookup_empty. }
  assert (x = Succ (JArr ((fun i => opt_or (saved !! i) JUndef) <$> index_list source)) /\ w' = w1 /\ missing = [] \/
    exists y m, run_elements host fn name elementOptions codec exec source (rh_elements concurrency missing w1) ∅ w1 = (y, w') /\
      (y = Succ m /\ x = Succ (JArr ((fun i => opt_or (opt_else (saved !! i) (if decide (i ∈ missing) then m !! i else None)) JUndef)
          <$> index_list source)) \/ stops y x)) as Hcases.
  { clearbody missing. destruct missing as [|j missing'] eqn:Em; [by injection Hx as <- <-; left|]. rewrite <- Em in Hx, Hmiss |- *.
    right. apply flatMap_cases in Hx as [(fresh & w2 & Hf & Hx)|(y & Hf & Hy)]; unfold forEachPar in Hf;
      apply flatMap_cases in Hf as [(m & w3 & Hf & Hret)|(z & Hf & Hz)].
    - injection Hret as <- <-. exists (Succ m), m.
      assert (w' = w3) as -> by (unfold succeed in Hx; destruct (bool_decide (saved = ∅)); congruence). split; [exact Hf|].
      left. split; [done|].
      destruct (bool_decide_reflect (saved = ∅)) as [->|Hne]; injection Hx as <-; do 2 f_equal.
      + assert (missing = index_list source) as ->.
        { rewrite Em. by apply Hall. }
        apply list_fmap_ext. intros k i Hi. rewrite lookup_empty. cbn.
        rewrite decide_True by (by eapply list_elem_of_lookup_2). done.
      + apply list_fmap_ext. intros k i Hi. rewrite (zip_lookup missing (fun i => opt_or (m !! i) JUndef) ∅ i).
        destruct (saved !! i) eqn:Esv; [done|]. cbn.
        assert (i ∈ missing) as Him by (apply Hmiss; split; [apply indices_spec; by eapply list_elem_of_lookup_2|done]).
        by rewrite !decide_True by done.
    - inversion Hz.
    - injection Hret as <- <-. inversion Hy.
    - exists z, ∅. split; [exact Hf|]. right. inversion Hz; subst; inversion Hy; subst; constructor. }
  destruct Hcases as [(-> & -> & Hnil)|(y & m & Hrun & Hres)].
  - exists []. split; [by rewrite El1, app_nil_r|]. intros Hh Hf. destruct (Hs Hh Hf) as (Hh0 & E & Hsv).
    split; [done|]. apply mapped_nothing; [done|done|]. intros r [= <-]. eexists. split; [reflexivity|].
    split; [apply mapped_length|]. intros i v [Hi ->]%mapped_lookup. destruct (Hsv saved eq_refl (Z.of_nat i)) as [Hs1 _].
    destruct (saved !! Z.of_nat i) as [u|] eqn:Eu; [by apply Hs1|].
    exfalso. apply (not_elem_of_nil (A := Z) (Z.of_nat i)). rewrite <- Hnil. apply Hmiss. unfold len. split; [lia|done].
  - assert (forall i, i ∈ rh_elements concurrency missing w1 <-> i ∈ missing) as Hord.
    { intros i. by rewrite (order_ok concurrency missing w1). }
    apply run_elements_spec in Hrun as (L & EL & HL & Hne & Hrun); [|by rewrite (order_ok concurrency missing w1)].
    exists L. split; [by rewrite EL, El1|]. intros Hh Hf. destruct (Hrun Hh) as (Hh1 & R1 & Hset & Hm).
    destruct (Hs Hh1 Hf) as (Hh0 & E & Hsv). specialize (Hsv saved eq_refl). split; [done|].
    assert (forall i, i ∈ missing -> 0 <= i < len source /\ ~ saved_at source w i) as Hun.
    { intros i [Hi Hn]%Hmiss. split; [done|]. intros Hsa. destruct (Hsv i) as [_ Hc]. destruct (Hc Hsa). congruence. }
    assert (forall i, i ∉ missing -> rv w' (task_key i) = rv w (task_key i)) as Hframe.
    { intros i Hi. rewrite R1, E; [done|]. intros j Hj%Hord Heq%task_key_inj. by subst. }
    split; [| | |exact Hset|].
    + intros i a t [Hi Ha]%HL. cbn in Hi, Ha. apply Hord, Hun in Hi as [Hi Hns]. rewrite Ha. split; [done|].
      split; [by apply element_at_lookup|done].
    + intros i Hsa. apply Hframe. intros Hin. by apply (Hun i Hin).
    + intros r ->. destruct Hres as [[-> Hr]|Hst]; [|inversion Hst]. injection Hr as ->.
      destruct (Hm m eq_refl) as [Hin _]. eexists. split; [reflexivity|]. split; [apply mapped_length|].
      intros i v [Hi ->]%mapped_lookup. destruct (saved !! Z.of_nat i) as [u|] eqn:Eu; cbn [opt_else opt_or from_option].
      * left. by apply (proj1 (Hsv (Z.of_nat i))).
      * right. assert (Z.of_nat i ∈ missing) as Hmi by (apply Hmiss; unfold len; split; [lia|done]).
        rewrite decide_True by done. destruct (Hin (Z.of_nat i)) as (v & Hv & Hsi); [by apply Hord|].
        rewrite Hv. split; [by apply Hun|done].
    + intros e ->. apply Hne. intros m' ->. destruct Hres as [[? ?]|Hst]; [done|inversion Hst].
Qed.
End map.

(** ** The step *)
Section drivers.
Context {W : Type} `{SS : StepStore W} (host : RunnerHost W) (wid : string)
  (rv : W -> string -> option json) (calls : W -> list ElementCall).
Context (codecArray : Codec -> Codec) (rh_elements : option Z -> list Z -> W -> list Z) (name array : string)
  (concurrency : option Z) (fn : json -> StepFn MapStepContext W) (options : option (MapOverOptions W))
  (defaultCodec : Codec) (cacheNamespace : string).
Hypothesis order_ok : forall c l w, rh_elements c l w ≡ₚ l.
Hypothesis no_cache : options_cache (mo_step <$> options) = None.

Definition element_codec : Codec := opt_or ((options ≫= mo_element) ≫= me_codec) defaultCodec.

Definition map_step : StepDefinition W :=
  createMapOverStep host codecArray rh_elements name array concurrency fn options defaultCodec cacheNamespace.

(** A driver of the step over [source], as the step starts in world [w]. *)
Record map_driver (source : list json) (lock : option FenceGuard) (held : W -> Prop) (exec : ExecuteParams)
    (w : W) : Prop := {
  md_world : MapWorld host wid lock name held rv calls;
  md_workflow : ep_workflowId exec = wid;
  md_guard : ep_guard exec = lock;
  md_source : result_of (ep_results exec) array = JArr source;
  md_fn : fn_logs held rv calls fn exec;
  md_fresh : fresh_row rv exec w;
}.

Lemma map_driver_ran source lock held exec slot w x s' :
  map_driver source lock held exec w -> sd_execute map_step exec (slot, w) = (x, s') ->
  map_ran held rv calls element_codec exec source x w s'.2.
Proof using order_ok no_cache.
  intros [HW Hw Hg Hs Hf Hr] Hx. unfold map_step, createMapOverStep in Hx. cbn in Hx. rewrite Hs, no_cache in Hx.
  unfold withOptionalStepCache, on_slot in Hx.
  destruct (run_map _ _ _ _ _ _ _ _ _ w) as [y w'] eqn:E. injection Hx as <- <-. by eapply run_map_spec.
Qed.

Abbreviation the_mapped := (mapped rv element_codec).

(** What the first execution settled, or found saved, is saved for the
    second. *)
Lemma settled_saved source (L1 : list ElementCall) x1 w0 w1 w2 i v :
  (forall v raw, codec_encode element_codec v = Ok raw -> codec_decode element_codec raw = Ok v) ->
  (forall y, rv w2 y = rv w1 y) -> the_mapped source L1 x1 w0 w1 -> settled_in rv element_codec L1 w1 i v ->
  saved_at rv element_codec source w2 i.
Proof.
  intros Hcodec Hrv M1 (Hlast & raw & Henc & Hraw). apply last_Some_elem_of in Hlast.
  unfold calls_at in Hlast. apply list_elem_of_fmap in Hlast as ([[j a] y] & Hy & [Hj Hin]%list_elem_of_filter). cbn in *. subst j y.
  destruct (mp_unsaved _ _ _ _ _ _ _ M1 i a (Succ v) Hin) as [Hi _]. split; [done|]. exists raw, v. rewrite Hrv. split; [done|by apply Hcodec].
Qed.

(** Two executions of the map, the world before the first, between and after
    the second. *)
Lemma map_again source (L1 L2 : list ElementCall) r x2 w0 w1 w2 w3 :
  (forall v raw, codec_encode element_codec v = Ok raw -> codec_decode element_codec raw = Ok v) ->
  (forall y, rv w2 y = rv w1 y) -> the_mapped source L1 (Succ r) w0 w1 -> the_mapped source L2 x2 w2 w3 ->
  L2 = [] /\ (x2 = Succ r \/ x2 = Killed \/ exists e, x2 = Dies e).
Proof.
  intros Hcodec Hrv M1 M2. destruct (mp_joined _ _ _ _ _ _ _ M1 r eq_refl) as (vs & -> & Hlen & Hvs).
  assert (forall i v, vs !! i = Some v -> saved_at rv element_codec source w2 (Z.of_nat i) /\
    exists raw, rv w2 (task_key (Z.of_nat i)) = Some raw /\ codec_decode element_codec raw = Ok v) as Hdec.
  { intros i v Hv. destruct (Hvs i v Hv) as [(Hs & raw & Hraw & Hd)|(_ & Hs)].
    - rewrite Hrv, (mp_kept _ _ _ _ _ _ _ M1 _ Hs). split; [|by exists raw]. split; [by destruct Hs|].
      exists raw, v. by rewrite Hrv, (mp_kept _ _ _ _ _ _ _ M1 _ Hs).
    - split; [by apply (settled_saved source L1 (Succ (JArr vs)) w0 w1 w2 _ v)|].
      destruct Hs as (_ & raw & Henc & Hraw). exists raw. rewrite Hrv. split; [done|by apply Hcodec]. }
  assert (forall i, 0 <= i < len source -> saved_at rv element_codec source w2 i) as Hall.
  { intros i Hi. unfold len in Hi. destruct (lookup_lt_is_Some_2 vs (Z.to_nat i)) as [v Hv]; [lia|].
    destruct (Hdec _ v Hv) as [Hs _]. by rewrite Z2Nat.id in Hs by lia. }
  assert (L2 = []) as ->.
  { destruct L2 as [|[[i a] y] L2]; [done|]. destruct (mp_unsaved _ _ _ _ _ _ _ M2 i a y) as (Hi & _ & Hn); [left|].
    by destruct (Hn (Hall i Hi)). }
  split; [done|]. destruct x2 as [r2|e|e|].
  - destruct (mp_joined _ _ _ _ _ _ _ M2 r2 eq_refl) as (vs2 & -> & Hlen2 & Hvs2). left. do 2 f_equal.
    apply list_eq_same_length with (length source); [done..|]. intros i v2 v Hi Hv2 Hv.
    destruct (Hdec i v Hv) as (Hs & raw' & Hraw' & Hd). destruct (Hvs2 i v2 Hv2) as [(_ & raw & Hraw & Hc)|[Hn _]]; [congruence|done].
  - by destruct (mp_failed _ _ _ _ _ _ _ M2 e eq_refl).
  - right. right. by eexists.
  - right. by left.
Qed.

End drivers.

(** ** Sample: a table of task rows of one step
    Each element has at most one row, [None] for a failed one. *)
Record TaskTable : Type := mkTable {
  tt_rows : gmap Z (option json);
  tt_calls : list ElementCall;
}.

Definition table_task (p : Z * option json) : StepTaskState :=
  mkTask p.1 (match p.2 with Some _ => SCompleted | None => SFailed end) JUndef (opt_or p.2 JUndef) None None None 1.

Definition table_tasks (w : TaskTable) : list StepTaskState := table_task <$> map_to_list (tt_rows w).

Definition table_row : StepState :=
  mkStep "price" 1 (Some SRunning) [] TyMap JUndef None None None None None 1 (Some O) None None None JUndef
    no_ledger None.

Definition table_state : WorkflowState :=
  mkState (mkIdentity "w1" "quote" None None None None None None 0) 1 JUndef
    (mkLife Running JUndef None None JUndef None None) None [("price", table_row)] 0.

Definition no_call {A} : async TaskTable A := a_throw (TError (new_error "Error" "not a call of the step")).

Definition set_row (i : Z) (r : option json) (w : TaskTable) : TaskTable := mkTable (<[i := r]> (tt_rows w)) (tt_calls w).

#[export] Instance table_run_store : RunStore TaskTable := {|
  hasCapability _ := false;
  rs_createWorkflow _ _ := no_call;
  rs_loadWorkflow _ := a_ret (Some table_state);
  rs_loadWorkflowStatus _ := no_call;
  rs_saveStepResult _ _ := no_call;
  rs_saveStepFailure _ _ := no_call;
  rs_saveStepAttempt _ _ := no_call;
  rs_loadStepAttempts _ _ := no_call;
  rs_checkpointStep _ _ := no_call;
  rs_notifyStepStarted _ _ := no_call;
  rs_completeWorkflow _ _ _ := no_call;
  rs_failWorkflow _ _ _ _ := no_call;
  rs_tripwireWorkflow _ _ _ := no_call;
  rs_beginCompensation _ _ _ _ := no_call;
  rs_saveStepCompensation _ _ _ _ _ := no_call;
  rs_startFreshRun _ _ _ _ := no_call;
|}.

#[export] Instance table_step_store : StepStore TaskTable := {|
  ss_suspendWorkflow _ _ _ _ := no_call;
  ss_saveTaskResult _ _ _ i r := fun w => (Ret tt, set_row i (Some r) w);
  ss_saveTaskFailure _ _ _ i _ := fun w => (Ret tt, set_row i None w);
  ss_loadSignals _ := no_call;
  ss_tasks _ := table_tasks;
|}.

Definition table_host : RunnerHost TaskTable :=
  mkRunnerHost _ (fun w => (0, w)) (fun w => (0%Q, w)) (fun _ w => (true, w)) (fun _ w => (false, w))
    (fun tag fields => mkError tag (Some tag) tag "" fields) str_of_Z.

Definition table_rv (w : TaskTable) (key : string) : option json :=
  match list_find (fun p => task_key p.1 = key) (map_to_list (tt_rows w)) with
  | Some (_, (_, r)) => r
  | None => None
  end.

Lemma table_rv_spec w key r : table_rv w key = Some r <-> exists i, key = task_key i /\ tt_rows w !! i = Some (Some r).
Proof.
  unfold table_rv. split.
  - destruct (list_find _ _) as [[n [i o]]|] eqn:E; [|done]. intros ->.
    apply list_find_Some in E as (Hn & Hk & _). exists i. split; [done|].
    apply elem_of_map_to_list. by eapply list_elem_of_lookup_2.
  - intros (i & -> & Hi%elem_of_map_to_list). destruct (list_find _ _) as [[n [j o]]|] eqn:E.
    + apply list_find_Some in E as (Hn & Hk%task_key_inj & _). cbn in Hk. subst j.
      apply list_elem_of_lookup_2, elem_of_map_to_list in Hn. apply elem_of_map_to_list in Hi. congruence.
    + rewrite list_find_None, Forall_forall in E. by destruct (E _ Hi).
Qed.

Lemma table_put i r w :
  put (fun _ : TaskTable => True) table_rv tt_calls (task_key i) r w (set_row i r w) (Ret (A := unit) tt).
Proof.
  split; [done|]. intros _. split; [done|]. split.
  - intros y Hy. apply option_eq. intros v. rewrite !table_rv_spec. cbn.
    split; intros (j & -> & Hj); exists j; (split; [done|]); rewrite lookup_insert_ne in *; try done; by intros ->.
  - apply option_eq. intros v. rewrite table_rv_spec. cbn. split.
    + intros (j & Hj%task_key_inj & Hv). subst j. rewrite lookup_insert_eq in Hv. congruence.
    + intros ->. exists i. by rewrite lookup_insert_eq.
Qed.

Lemma table_tasks_are w : tasks_are (table_tasks w) (table_rv w).
Proof.
  split.
  - intros t ([i o] & -> & Hi)%list_elem_of_fmap Hc. apply elem_of_map_to_list in Hi.
    destruct o as [r|]; [|done]. apply table_rv_spec. by exists i.
  - intros i raw (j & Hj%task_key_inj & Hr)%table_rv_spec. subst j. exists (table_task (i, Some raw)).
    split; [|done]. apply list_elem_of_fmap. exists (i, Some raw). split; [done|]. by apply elem_of_map_to_list.
Qed.

Lemma table_map_world : MapWorld table_host "w1" None "price" (fun _ => True) table_rv tt_calls.
Proof.
  split; try (by intros; apply quiet_refl); try (by split; intros; apply quiet_refl).
  - intros w. apply quiet_refl.
  - intros w st w' [= <- <-] _. apply table_tasks_are.
  - intros i r w. apply table_put.
  - intros i e w. apply table_put.
Qed.

(** Three elements, the one of 20 fails until it was called twice. *)
Definition price_of (x : json) (calls_before : list ElementCall) : exit json :=
  match x with
  | JNum n => if (n =? 20) && (Nat.leb (length (base.filter (fun c => c.1.2 = x) calls_before)) 1)
              then Fails busy else Succ (JNum (n + 1))
  | _ => Succ JNull
  end.

Definition price_fn (x : json) : StepFn MapStepContext TaskTable := fun ctx w =>
  (Ok (RetEff (fun w => let y := price_of x (tt_calls w) in
         (y, mkTable (tt_rows w) (tt_calls w ++ [(mpc_taskIndex ctx, x, y)])))), w).

Definition price_options : option (MapOverOptions TaskTable) :=
  Some (mkMapOptions no_options (Some (mkElementOptions None None (Some (mkPolicy (Some 1) (Some 10) None false None None))))).

Definition price_source : list json := [JNum 10; JNum 20; JNum 30].

Definition price_step : StepDefinition TaskTable :=
  map_step table_host id (fun _ l _ => reverse l) "price" "items" None price_fn price_options plain_codec "quote".

Definition price_exec (attempt : Z) : ExecuteParams :=
  mkExecute "w1" (JStr "in") (<["items" := JArr price_source]> ∅) attempt None None (Some 1).

Definition price_run (attempt : Z) (w : TaskTable) : exit json * TaskTable :=
  let '(x, s) := sd_execute price_step (price_exec attempt) (None, w) in (x, s.2).

Definition priced_once : exit json * TaskTable := price_run 1 (mkTable ∅ []).
Definition priced_twice : exit json * TaskTable := price_run 2 priced_once.2.

Definition indices_called (w : TaskTable) : list Z := (fun c => c.1.1) <$> tt_calls w.

Example price_resumes :
  (priced_once.1, indices_called priced_once.2, priced_twice.1, indices_called priced_twice.2) =
  (Fails busy, [2; 1; 1], Succ (JArr [JNum 11; JNum 21; JNum 31]), [2; 1; 1; 1; 0]).
Proof. vm_compute. reflexivity. Qed.

Lemma price_fn_logs attempt :
  fn_logs (fun _ => True) table_rv tt_calls price_fn (price_exec attempt).
Proof. intros x i a w. split; [reflexivity|done]. Qed.

Lemma price_driver attempt w : (attempt <= 1 -> tt_rows w = ∅) ->
  map_driver table_host "w1" table_rv tt_calls "price" "items" price_fn price_source None (fun _ => True)
    (price_exec attempt) w.
Proof.
  intros Hw. split; [apply table_map_world|done|done|done|apply price_fn_logs|]. intros Ha. cbn in Ha |- *.
  specialize (Hw Ha). split; [by intros t ?%not_elem_of_nil|]. intros i raw (j & _ & Hj)%table_rv_spec.
  rewrite Hw in Hj. by rewrite lookup_empty in Hj.
Qed.

