(* ===== verification/MemorySteps.v ===== *)
(** The storage steps on the in-memory storage: the contract of a loop's
    driver holds on it, and samples. *)
From Stdlib Require Import QArith.
From S2P Require Import Prelude Leases Json Journal RunState Storage StorageRows Exits Retry JournalStore Replay Dag RollbackOrder StepBody Checkpoint Waves WaveLaws WaveLoop WaveResults Compensate RollbackRun MemoryWorld Steps StoreSteps LoopLaws.
Open Scope string_scope.
Open Scope list_scope.
Open Scope Z_scope.

#[export] Instance memory_step_store : StepStore MemoryWorld := {|
  ss_suspendWorkflow g w st u := memory_call (fun now => suspendWorkflow now g w st u);
  ss_saveTaskResult g w st i r := memory_call (fun now => saveTaskResult now g w st i r);
  ss_saveTaskFailure g w st i e := memory_call (fun now => saveTaskFailure now g w st i e);
  ss_loadSignals w := memory_read (loadSignals w);
  ss_tasks r w := heap_tasks (db_arrays (mw_db w)) r;
|}.

(** The calls a body logs: the numbers it was called with. *)
Definition called (w : MemoryWorld) : list Z :=
  (fun c => match c.1.2 with JNum i => i | _ => -1 end) <$> mw_calls w.

Section driver.
Context (dates : Z -> string) (random : Q) (wid : string) (lock : option FenceGuard).

(** The lock was the driver's at some time, and the run is stored under its id. *)
Definition own_held (w : MemoryWorld) : Prop :=
  (exists now, checkFence now wid lock (db_leases (mw_db w)) = Ok tt) /\
  exists wf, run_row wid w = Some wf /\ ri_workflowId (wf_ident wf) = wid.

#[local] Abbreviation own_quiet := (quiet own_held (mw_rv wid) called).

Lemma own_same_quiet w w' :
  mw_calls w' = mw_calls w -> db_workflows (mw_db w') !! wid = db_workflows (mw_db w) !! wid ->
  db_leases (mw_db w') = db_leases (mw_db w) -> own_quiet w w'.
Proof. intros El Ew Et. unfold quiet, own_held, mw_rv, run_row, called. by rewrite Ew, Et, El. Qed.

Lemma own_call_quiet {A} (c : Z -> InMemoryWorkflowStorage -> res StoreError A * InMemoryWorkflowStorage) w :
  (forall now s, db_workflows (c now s).2 !! wid = db_workflows s !! wid /\ db_leases (c now s).2 = db_leases s) ->
  own_quiet w (memory_call c w).2.
Proof.
  intros Hc. pose proof (memory_call_db c w) as Hm. destruct (memory_call c w) as [o w'].
  destruct Hm as (now & r & s & Hs & Hdb & _ & Hcalls & _). specialize (Hc now (mw_db w)). rewrite Hs in Hc.
  cbn in Hc |- *. destruct Hc as [H1 H2]. apply own_same_quiet; [done|by rewrite Hdb|by rewrite Hdb].
Qed.

Lemma own_host_quiet : QuietHost own_held (mw_rv wid) called (memory_host dates random).
Proof. split; intros; by apply own_same_quiet. Qed.

(** A load moves only the count of the row's hand-outs. *)
Lemma own_load w : let '(o, w') := rs_loadWorkflow wid w in
  own_quiet w w' /\
  forall st, o = Ret st -> own_held w' -> forall n, state_row n st ≫= completed_result = mw_rv wid w' n.
Proof.
  pose proof (memory_call_db (fun _ => loadWorkflow wid) w) as Hm. cbn.
  destruct (memory_call _ w) as [o w']. destruct Hm as (now & r & s & Hs & Hdb & _ & Hcalls & Hr).
  unfold loadWorkflow in Hs. unfold quiet, own_held, mw_rv, run_row, called. rewrite Hdb, Hcalls.
  destruct (db_workflows (mw_db w) !! wid) as [wf|] eqn:Hwf.
  - cbn in Hs. injection Hs as <- <-. subst o. cbn.
    destruct (decide (ri_workflowId (wf_ident wf) = wid)) as [E|E].
    + rewrite E, jlookup_insert_eq. cbn. split.
      * split; [done|]. intros (Ht & ? & [= <-] & Hn). split; [|done]. by eauto.
      * intros ? [= <-] _ n. done.
    + rewrite jlookup_insert_ne, Hwf by done. split; [split; [done|]; by eauto|].
      intros ? _ (_ & ? & [= <-] & Hn). done.
  - injection Hs as <- <-. subst o. rewrite Hwf. split; [split; [done|]; by eauto|]. intros ? [= <-] (_ & ? & ? & _). done.
Qed.

(** A fenced write of the row of step [x]. *)
Lemma own_puts (write : Z -> InMemoryWorkflowStorage -> InMemoryWorkflowStorage) x v w :
  (forall now s, db_leases (write now s) = db_leases s /\
     match db_workflows s !! wid with
     | None => db_workflows (write now s) !! wid = None
     | Some wf => exists wf', db_workflows (write now s) !! wid = Some wf' /\ wf_ident wf' = wf_ident wf /\
         exists row, wf_steps wf' = <[x := row]> (wf_steps wf) /\ completed_result row = v
     end) ->
  let '(o, w') := memory_call (fun now => do* fence now wid lock in st_modify (write now)) w in
  put own_held (mw_rv wid) called x v w w' o.
Proof.
  intros Hb. pose proof (memory_call_db (fun now => do* fence now wid lock in st_modify (write now)) w) as Hm.
  destruct (memory_call _ w) as [o w']. destruct Hm as (now & r & s' & Hs & Hdb & _ & Hcalls & Ho).
  unfold st_bind, fence in Hs. destruct (checkFence now wid lock (db_leases (mw_db w))) as [[]|e] eqn:Hf.
  2: { injection Hs as <- <-. subst o.
       destruct (own_same_quiet w w') as [Hl Hq]; [done|by rewrite Hdb|by rewrite Hdb|]. split; [done|].
       intros [Hh Hrv]%Hq. split; [done|]. split; [done|]. by right. }
  injection Hs as <- <-. subst o. destruct (Hb now (mw_db w)) as [Hl Hrow]. split; [unfold called; by rewrite Hcalls|].
  unfold own_held, mw_rv, run_row. rewrite Hdb, Hl. destruct (db_workflows (mw_db w) !! wid) as [wf|] eqn:Hwf.
  - destruct Hrow as (wf' & -> & Hid & row & Hrow & Hv). cbn [mbind option_bind]. intros (Ht & ? & [= <-] & Hn).
    split; [split; [done|]; exists wf; split; [done|]; congruence|]. split.
    + intros y Hy. by rewrite Hrow, jlookup_insert_ne.
    + by rewrite Hrow, jlookup_insert_eq.
  - rewrite Hrow. intros (_ & ? & ? & _). done.
Qed.

Lemma running_ident now wf : wf_ident (markRunning now wf) = wf_ident wf.
Proof. unfold markRunning. by case_match. Qed.

Lemma memory_loop_world : LoopWorld (memory_host dates random) wid lock own_held (mw_rv wid) called.
Proof.
  split.
  - exact own_host_quiet.
  - intros w. pose proof (own_load w) as Hl. destruct (rs_loadWorkflow wid w) as [o w']. apply Hl.
  - intros w st w' E. pose proof (own_load w) as Hl. rewrite E in Hl. by apply Hl.
  - intros r w Hr. cbn. unfold saveStepResult. rewrite Hr. apply own_puts. intros now s. unfold writeStepResult.
    rewrite Hr. destruct (db_workflows s !! wid) as [wf|] eqn:Hwf; [|by rewrite Hwf]. split; [done|].
    eexists. split; [apply jlookup_insert_eq|]. split; [apply running_ident|]. eexists. cbn [put_step with_steps wf_steps].
    split; [by rewrite markRunning_steps|done].
  - intros r w Hr. cbn. unfold saveStepFailure. rewrite Hr. apply own_puts. intros now s. unfold writeStepFailure.
    rewrite Hr. destruct (db_workflows s !! wid) as [wf|] eqn:Hwf; [|by rewrite Hwf]. split; [done|].
    eexists. split; [apply jlookup_insert_eq|]. split; [apply running_ident|]. eexists. cbn [put_step with_steps wf_steps].
    split; [by rewrite markRunning_steps|done].
  - intros r Hr w. apply own_call_quiet. intros now s.
    unfold saveStepAttempt, st_bind, fence. by destruct (checkFence _ _ _ _).
Qed.
End driver.

(** ** Sample: a loop whose process dies in its third iteration *)
Definition note_call (i : Z) (w : MemoryWorld) : MemoryWorld :=
  mkMemoryWorld (mw_store w) (mw_log w) (mw_calls w ++ [("poll", JNum i, Ret tt)]).

Definition poll_body (i : Z) : StepFn StepContext MemoryWorld := fun _ w =>
  (Ok (RetEff (fun w =>
     (if (i =? 2) && negb (bool_decide (2 ∈ called w)) then Killed else Succ (JNum (i * i)), note_call i w))), w).

Definition poll_until (v : json) (i : Z) : res thrown bool := Ok (i <? 4).

Definition poll_options : option (LoopOptions MemoryWorld) := Some (mkLoopOptions no_options (Some 10)).

Definition poll_step : res thrown (StepDefinition MemoryWorld) :=
  createLoopStep the_host "poll" ["fetch"] poll_body poll_until poll_options plain_codec.

Definition poll_exec (attempt : Z) : ExecuteParams :=
  mkExecute "w1" (JStr "in") (<["fetch" := JNum 1]> ∅) attempt None sample_guard (Some 1).

Definition run_poll (attempt : Z) (w : MemoryWorld) : option (exit json * MemoryWorld) :=
  match poll_step with
  | Ok d => let '(x, s) := sd_execute d (poll_exec attempt) (None, w) in Some (x, s.2)
  | Err _ => None
  end.

Definition after_crash : MemoryWorld := from_option snd sample_world (run_poll 1 sample_world).

Example crash_and_resume :
  (fst <$> run_poll 1 sample_world, called after_crash,
   (fun r => (r.1, called r.2)) <$> run_poll 2 after_crash) =
  (Some Killed, [0; 1; 2], Some (Succ (JNum 16), [0; 1; 2; 2; 3; 4])).
Proof. vm_compute. reflexivity. Qed.

Lemma poll_driver attempt :
  driver the_host "w1" (mw_rv "w1") called ["fetch"] poll_body sample_guard (own_held "w1" sample_guard)
    (poll_exec attempt).
Proof.
  split; [apply memory_loop_world|done|done|]. intros i w. cbn. split; [|done].
  unfold called, note_call. cbn. by rewrite fmap_app.
Qed.

Lemma poll_held w : is_ok (checkFence 10 "w1" sample_guard (db_leases (mw_db w))) &&
    match run_row "w1" w with Some wf => bool_decide (ri_workflowId (wf_ident wf) = "w1") | None => false end = true ->
  own_held "w1" sample_guard w.
Proof.
  intros [Hf Hr]%andb_prop. split; [exists 10; by destruct (checkFence _ _ _ _) as [[]|]|].
  destruct (run_row "w1" w) as [wf|]; [|done]. exists wf. split; [done|]. by apply bool_decide_eq_true in Hr.
Qed.

Lemma loop_resumes_witness :
  exists k1 n1 k2 n2 : nat,
    [0; 1; 2; 2; 3; 4] = seqZ (Z.of_nat k1) (Z.of_nat n1) ++ seqZ (Z.of_nat k2) (Z.of_nat n2) /\
    ((0 < n2)%nat -> (k1 + n1 <= k2 + 1)%nat).
Proof.
  destruct poll_step as [d|e] eqn:Ed; [|vm_compute in Ed; discriminate].
  destruct (sd_execute d (poll_exec 1) (None, sample_world)) as [x1 s1] eqn:E1.
  destruct (sd_execute d (poll_exec 2) (None, s1.2)) as [x2 s2] eqn:E2.
  assert (after_crash = s1.2) as Hs by (unfold after_crash, run_poll; rewrite Ed, E1; reflexivity).
  assert (run_poll 2 s1.2 = Some (x2, s2.2)) as Hr by (unfold run_poll; rewrite Ed, E2; reflexivity).
  rewrite <- Hs in Hr.
  destruct (loop_resumes the_host "w1" (mw_rv "w1") called "poll" ["fetch"] poll_body poll_until poll_options
    plain_codec d Ed sample_guard (own_held "w1" sample_guard) (poll_exec 1) sample_guard
    (own_held "w1" sample_guard) (poll_exec 2) None None sample_world x1 s1 s1.2 x2 s2
    (poll_driver 1) (poll_driver 2) E1) as (k1 & n1 & k2 & n2 & Hl & _ & _ & Hk & _).
  - rewrite <- Hs. apply poll_held. vm_compute. reflexivity.
  - reflexivity.
  - reflexivity.
  - exact E2.
  - apply poll_held. replace s2.2 with (from_option snd sample_world (run_poll 2 after_crash)) by (by rewrite Hr).
    vm_compute. reflexivity.
  - exists k1, n1, k2, n2. split; [|exact Hk].
    assert (called s2.2 = [0; 1; 2; 2; 3; 4]) as Hc.
    { replace s2.2 with (from_option snd sample_world (run_poll 2 after_crash)) by (by rewrite Hr).
      vm_compute. reflexivity. }
    rewrite <- Hc. exact Hl.
Defined.

(** A step that happens to be called [poll.iter.0] is taken for the first
    iteration of the loop [poll]: its body is not called for it. *)
Definition namesake_world : MemoryWorld :=
  (rs_saveStepResult sample_guard (mkStepResult "w1" "poll.iter.0" (JStr "elsewhere") 1 1 None) sample_world).2.

Example iteration_row_collides :
  (fun r => called r.2) <$> run_poll 1 namesake_world = Some [1; 2].
Proof. vm_compute. reflexivity. Qed.
