(* ===== verification/StepLaws.v ===== *)
(** What the simple step kinds do: the cache around a body, the choice of a
    branch, the join of a parallel block, waits, and the name of a child's
    signal. *)
From Stdlib Require Import QArith.
From S2P Require Import Prelude Leases Json Journal RunState Storage Exits Retry Replay StepBody Checkpoint Waves WaveLaws Steps StoreSteps.
Open Scope string_scope.
Open Scope list_scope.
Open Scope Z_scope.

(** ** The cache *)
Section cache.
Context {W : Type} (cache : StepCacheOption W) (ctx : StepContext) (body : Eff (option metadata * W) json)
  (stepName namespace : string) (codec : Codec).

Lemma cache_lookup_cases ck w o w' : cache_lookup cache codec ck w = (o, w') ->
  o = Ret None \/ o = Died \/
  exists hit w1 v, cs_get (co_store cache) ck w = (Ret hit, w1) /\ hit <> JUndef /\
    codec_decode codec hit = Ok v /\ o = Ret (Some v).
Proof.
  unfold cache_lookup, a_catch, a_bind. destruct (cs_get (co_store cache) ck w) as [[hit|e|] w1];
    [|intros [= <- _]; by left|intros [= <- _]; by right; left].
  assert (hit = JUndef \/ hit <> JUndef) as [->|Hne] by (destruct hit; by (left + right)); [intros [= <- _]; by left|].
  replace (match hit with JUndef => a_ret None | _ => fun s => match a_lift (codec_decode codec hit) s with
      | (Ret a, s0) => a_ret (Some a) s0 | (Throws e, s0) => (Throws e, s0) | (Died, s0) => (Died, s0) end end)
    with (fun s : W => match a_lift (codec_decode codec hit) s with
      | (Ret a, s0) => a_ret (Some a) s0 | (Throws e, s0) => (Throws e, s0) | (Died, s0) => (Died, s0) end)
    by (by destruct hit).
  unfold a_lift. destruct (codec_decode codec hit) as [v|e] eqn:Ed; cbn; intros [= <- _]; [|by left].
  right. right. by exists hit, w1, v.
Qed.

Lemma cache_write_cases ck v w o w' : cache_write cache codec ck v w = (o, w') -> o = Ret tt \/ o = Died.
Proof.
  unfold cache_write, a_catch, a_bind, a_lift. destruct (codec_encode codec v) as [r|e]; [|intros [= <- _]; by left].
  destruct (cs_set _ _ _ _ w) as [[[]|e|] w1]; intros [= <- _]; [by left|by left|by right].
Qed.

(** Whatever the store does, a cached step ends as its body does, or with a
    decoded entry of the store; or the key function threw, or the process
    died. No failure of the store is one of the step. *)
Lemma cache_transparent s x s' :
  withOptionalStepCache (Some cache) ctx body stepName namespace codec s = (x, s') ->
  (exists e, co_key cache ctx = Err e /\ x = Dies e) \/ x = Killed \/ (exists s1, (body s1).1 = x) \/
  exists key hit w v,
    co_key cache ctx = Ok key /\
    cs_get (co_store cache) (stepCacheKey (opt_or (co_namespace cache) namespace) stepName key) s.2 = (Ret hit, w) /\
    hit <> JUndef /\ codec_decode codec hit = Ok v /\ x = Succ v.
Proof.
  unfold withOptionalStepCache, wrapWithStepCache. intros Hx.
  apply flatMap_cases in Hx as [(key & s1 & Hk & Hx)|(y & Hk & Hy)];
    apply sync_cases in Hk as (-> & [(k & Hck & Hk)|(e & Hck & Hk)]); try discriminate;
    [injection Hk as ->|rewrite Hk in Hy; inversion Hy|left; exists e; rewrite Hk in Hy; by inversion Hy].
  right. destruct s as [slot w]. set (ck := stepCacheKey _ _ _) in *.
  assert (forall y s1, on_slot (promiseOrDie (cache_lookup cache codec ck)) (slot, w) = (y, s1) ->
    y = Succ None \/ y = Killed \/ exists hit w1 v, cs_get (co_store cache) ck w = (Ret hit, w1) /\ hit <> JUndef /\
      codec_decode codec hit = Ok v /\ y = Succ (Some v)) as Hlook.
  { intros y s1. unfold on_slot, promiseOrDie. destruct (cache_lookup cache codec ck w) as [o w1] eqn:El.
    intros [= <- _]. apply cache_lookup_cases in El as [->|[->|(hit & w2 & v & Hg & Hne & Hd & ->)]];
      [by left|by right; left|right; right]. by exists hit, w2, v. }
  apply flatMap_cases in Hx as [(value & s2 & Hl & Hx)|(y & Hl & Hy)].
  2: { left. apply Hlook in Hl as [->|[->|(? & ? & ? & _ & _ & _ & ->)]]; inversion Hy. done. }
  apply Hlook in Hl as [[= ->]|[?|(hit & w1 & v & Hg & Hne & Hd & [= ->])]]; [|done|].
  - apply flatMap_cases in Hx as [(r & s3 & Hb & Hx)|(y & Hb & Hy)].
    + apply flatMap_cases in Hx as [(u & s4 & Hw & Hx)|(y & Hw & Hy)].
      * injection Hx as <- _. right. left. exists s2. by rewrite Hb.
      * left. unfold on_slot, promiseOrDie in Hw. destruct s3 as [slot3 w3].
        destruct (cache_write cache codec ck r w3) as [o w4] eqn:Ew.
        apply cache_write_cases in Ew as [->| ->]; injection Hw as <- _; by inversion Hy.
    + right. left. exists s2. rewrite Hb. by inversion Hy.
  - injection Hx as <- _. right. right. by exists k, hit, w1, v.
Qed.
End cache.

(** ** Branches *)
(** The predicate cases are tried in order; those before the chosen one were
    all tried and false. *)
Lemma first_match_spec {W} (cases : list (MatchCase W)) prev i p :
  first_match i cases prev = Ok (Some p) ->
  exists l1 c l2, cases = l1 ++ c :: l2 /\ Forall (fun c => mc_when c prev = Ok false) l1 /\
    mc_when c prev = Ok true /\ p = mkPicked (mc_then c) MPredicate (case_label (i + length l1) c).
Proof.
  revert i. induction cases as [|c cases IH]; intros i; cbn [first_match]; [done|].
  destruct (mc_when c prev) as [[]|e] eqn:Ew; [|intros H|done].
  - intros [= <-]. exists [], c, cases. rewrite Nat.add_0_r. done.
  - apply IH in H as (l1 & d & l2 & -> & Hl & Hw & ->). exists (c :: l1), d, l2.
    split; [done|]. split; [by constructor|]. split; [done|]. cbn [length]. do 2 f_equal. lia.
Qed.

Lemma first_match_none {W} (cases : list (MatchCase W)) prev i :
  first_match i cases prev = Ok None <-> Forall (fun c => mc_when c prev = Ok false) cases.
Proof.
  revert i. induction cases as [|c cases IH]; intros i; cbn [first_match]; [done|].
  rewrite Forall_cons, <- (IH (Datatypes.S i)). destruct (mc_when c prev) as [[]|e]; intuition congruence.
Qed.

(** The chosen case is on the step's row before its body runs, and stays
    when the body fails. *)
Lemma match_records {W} (host : RunnerHost W) m stepName ctx s x s' p :
  pickMatchBranch m (sc_prev ctx) = Ok (Picked p) ->
  run_match host m stepName ctx s = (x, s') ->
  s'.1 = Some [("matchCase", JStr (pb_label p)); ("matchMode", JStr (mode_name (pb_mode p)))] /\
  (x, s'.2) = run_fn (pb_fn p) ctx s.2.
Proof.
  intros Hp. unfold run_match, flatMap. rewrite Hp. cbn. destruct s as [slot w]. cbn. unfold on_slot.
  destruct (run_fn (pb_fn p) ctx w) as [y w']. by intros [= <- <-].
Qed.

(** ** Waits *)
Section waits.
Context {W : Type} `{StepStore W} (host : RunnerHost W).

(** A wait that is entered again keeps the deadline of its row: it fails at
    the deadline or suspends with the same one. *)
Lemma wait_keeps_deadline name signalName timeoutMs codec exec st at_ w x w' :
  ep_stepState exec = Some st -> st_status st = Some SWaitingForSignal -> st_signalTimeoutAt st = Some at_ ->
  (forall l w1, ss_loadSignals (ep_workflowId exec) w = (Ret l, w1) ->
     List.find (fun s => bool_decide (sg_signalName s = signalName)) l = None) ->
  run_wait host name signalName timeoutMs codec exec w = (x, w') ->
  (exists e, x = Dies e) \/ x = Killed \/
  x = Fails (timed_out_error host (ep_workflowId exec) name signalName timeoutMs) \/
  (x = Fails (suspended_error host (ep_workflowId exec) name "signal" ("Waiting for signal " +:+ quoted signalName)) /\
   exists w1 w2, ss_suspendWorkflow (ep_guard exec) (ep_workflowId exec) name
       (wait_update signalName (Some at_)) w1 = (Ret tt, w2)).
Proof.
  intros Hrow Hst Hat Hno. unfold run_wait, flatMap, promiseOrDie, currentStepState.
  destruct (ss_loadSignals (ep_workflowId exec) w) as [[l|e|] w1] eqn:El;
    [|intros [= <- _]; left; by eexists|intros [= <- _]; by right; left].
  rewrite (Hno l w1 eq_refl), Hrow. cbn [succeed]. rewrite bool_decide_true by done.
  cbn [mbind option_bind]. rewrite Hat. unfold now_ms. destruct (rh_now host w1) as [t w2]. cbn [succeed].
  destruct (at_ <=? t); [intros [= <- _]; by right; right; left|].
  destruct (ss_suspendWorkflow _ _ _ _ w2) as [[[]|e|] w3] eqn:Es; intros [= <- _];
    [|left; by eexists|by right; left].
  right. right. right. split; [done|]. by exists w2, w3.
Qed.

(** A sleep ends with the value before it, once its wake time has come. *)
Lemma sleep_wakes name dependsOn ms exec st at_ w t w1 :
  ep_stepState exec = Some st -> st_status st = Some SSleeping -> st_wakeAt st = Some at_ ->
  rh_now host w = (t, w1) -> 
  run_sleep host name dependsOn ms exec w =
    (if at_ <=? t then Succ (exec_prev dependsOn exec)
     else Fails (suspended_error host (ep_workflowId exec) name "sleep" (sleeping_until at_)), w1).
Proof.
  intros Hrow Hst Hat Hnow. unfold run_sleep, flatMap, currentStepState, now_ms. rewrite Hrow. cbn [succeed].
  cbn [mbind option_bind]. rewrite bool_decide_true by done. rewrite Hat, Hnow. by destruct (at_ <=? t).
Qed.
End waits.

(** ** The signal of a child *)
Lemma substring_prefix (s t : string) : String.substring 0 (String.length s) (s +:+ t) = s.
Proof.
  induction s as [|c s IH]; [by destruct t|].
  change (String c (String.substring 0 (String.length s) (s +:+ t)) = String c s). by rewrite IH.
Qed.

Lemma substring_all (s : string) n : (String.length s <= n)%nat -> String.substring 0 n s = s.
Proof.
  revert n. induction s as [|c s IH]; intros [|n] Hn; cbn in *; try done; [lia|]. rewrite IH; [done|lia].
Qed.

Lemma substring_skip (p s : string) n :
  (String.length s <= n)%nat -> String.substring (String.length p) n (p +:+ s) = s.
Proof. intros Hn. induction p as [|c p IH]; [by apply substring_all|]. cbn. exact IH. Qed.

Lemma prefix_of_app (p s : string) : String.prefix p (p +:+ s) = true.
Proof.
  induction p as [|c p IH]; [by destruct s|].
  change ((if Ascii.ascii_dec c c then String.prefix p (p +:+ s) else false) = true).
  by destruct (Ascii.ascii_dec c c).
Qed.

Lemma last_index_absent c s : string_forallb (fun d => negb (bool_decide (c = d))) s = true -> last_index_of c s = None.
Proof.
  induction s as [|d s IH]; cbn; [done|]. intros [Hd Hs]%andb_prop. rewrite IH by done.
  rewrite bool_decide_false; [done|]. intros ->. by rewrite bool_decide_true in Hd.
Qed.

Lemma last_index_app c s t :
  last_index_of c t = None -> last_index_of c (s +:+ String c t) = Some (String.length s).
Proof.
  intros Ht. induction s as [|d s IH].
  - change (match last_index_of c t with Some n => Some (Datatypes.S n)
            | None => if bool_decide (c = c) then Some O else None end = Some O).
    by rewrite Ht, bool_decide_true.
  - change (match last_index_of c (s +:+ String c t) with Some n => Some (Datatypes.S n)
            | None => if bool_decide (c = d) then Some O else None end = Some (Datatypes.S (String.length s))).
    by rewrite IH.
Qed.

Lemma string_length_app' (s t : string) : String.length (s +:+ t) = (String.length s + String.length t)%nat.
Proof. induction s as [|c s IH]; [done|]. change (Datatypes.S (String.length (s +:+ t)) = Datatypes.S (String.length s + String.length t)). by rewrite IH. Qed.

(** The child of a signal's name is the child it was made for, whatever its
    id holds. *)
Lemma child_signal_roundtrip child run : child <> "" ->
  childOfEndedSignal (childEndedSignalName child run) = Some child.
Proof.
  intros Hne. unfold childOfEndedSignal, childEndedSignalName. rewrite prefix_of_app, substring_skip.
  2: { rewrite (string_length_app' CHILD_ENDED_SIGNAL_PREFIX). lia. }
  assert (last_index_of hash_char (child +:+ "#" +:+ str_of_Z run) = Some (String.length child)) as ->.
  { apply (last_index_app hash_char child (str_of_Z run)). apply last_index_absent.
    eapply string_forallb_impl; [|apply str_of_Z_chars]. intros d Hd.
    destruct (bool_decide_reflect (hash_char = d)) as [<-|]; [|done]. by vm_compute in Hd. }
  destruct child as [|c child]; [done|]. cbn [String.length]. f_equal. exact (substring_prefix (String c child) _).
Qed.

(** Two children, or two runs of one, never share a signal. *)
Lemma child_signal_inj c1 r1 c2 r2 : c1 <> "" -> c2 <> "" ->
  childEndedSignalName c1 r1 = childEndedSignalName c2 r2 -> c1 = c2 /\ r1 = r2.
Proof.
  intros H1 H2 E. assert (c1 = c2) as ->.
  { pose proof (child_signal_roundtrip c1 r1 H1) as R. rewrite E, child_signal_roundtrip in R by done. congruence. }
  split; [done|]. unfold childEndedSignalName in E. apply string_app_inj_l, string_app_inj_l in E.
  apply (string_app_inj_l "#") in E. by apply str_of_Z_inj.
Qed.
