(* ===== verification/BuilderState.v ===== *)
(** The step lists of builders: [durable/builder-state.ts].

    Every builder value holds a view, the first steps of a growing array that
    the builders of one chain share. The arrays and their name indexes are
    cells of a heap; a view is a reference to a cell and a length. Appending
    to the tip grows the cell in place, appending to any other view copies
    its prefix first. The specification has no sharing: a view is a list. *)
From S2P Require Import Prelude.
Open Scope string_scope.
Open Scope list_scope.
Open Scope Z_scope.

Section builder_state.
Context {D : Type} (nameOf : D -> string).

(** The array a family of views shares, and the position of each name. *)
Record StepCell : Type := mkCell {
  cell_defs : list D;
  cell_index : jmap string nat;
}.

Record StepSeq : Type := mkSeq {
  seq_store : nat;
  seq_length : nat;
}.

Abbreviation heap := (list StepCell).

Definition cell_of (h : heap) (s : StepSeq) : StepCell := opt_or (h !! seq_store s) (mkCell [] ∅).

(** The last step of a view is the head of the builder. *)
Definition emptySteps (h : heap) : StepSeq * heap := (mkSeq (length h) 0, h ++ [mkCell [] ∅]).

Definition hasStep (h : heap) (s : StepSeq) (name : string) : bool :=
  match cell_index (cell_of h s) !! name with
  | Some i => bool_decide (i < seq_length s)%nat
  | None => false
  end.

Definition findStep (h : heap) (s : StepSeq) (name : string) : option D :=
  match cell_index (cell_of h s) !! name with
  | Some i => if bool_decide (i < seq_length s)%nat then cell_defs (cell_of h s) !! i else None
  | None => None
  end.

Definition lastStep (h : heap) (s : StepSeq) : option D :=
  match seq_length s with O => None | S n => cell_defs (cell_of h s) !! n end.

Definition stepsToArray (h : heap) (s : StepSeq) : list D := take (seq_length s) (cell_defs (cell_of h s)).

(** The first name of the batch that the view has or that repeats. *)
Fixpoint duplicate_in (taken : string -> bool) (batch : list string) (defs : list D) : option string :=
  match defs with
  | [] => None
  | def :: defs =>
      if bool_decide (nameOf def ∈ batch) || taken (nameOf def) then Some (nameOf def)
      else duplicate_in taken (batch ++ [nameOf def]) defs
  end.

(** [index.set(defs[i].name, i)] for the positions from [from] on. *)
Definition index_from (from : nat) (defs : list D) (index : jmap string nat) : jmap string nat :=
  foldl (fun index e => <[nameOf e.2 := e.1]> index) index (imap (fun i d => (from + i, d)%nat) defs).

Definition copyPrefix (h : heap) (s : StepSeq) : StepCell :=
  let cell := cell_of h s in
  let length_ := seq_length s in
  let defs := take length_ (cell_defs cell) in
  if bool_decide (length (cell_defs cell) - length_ <= length_)%nat
  then mkCell defs (foldl (fun index d => delete (nameOf d) index) (cell_index cell)
                      (drop length_ (cell_defs cell)))
  else mkCell defs (index_from 0 defs ∅).

(** The cell to append to: the shared one at the tip, else a copy. *)
Definition own_cell (h : heap) (s : StepSeq) : nat * heap :=
  if bool_decide (seq_length s = length (cell_defs (cell_of h s))) then (seq_store s, h)
  else (length h, h ++ [copyPrefix h s]).

Definition push_steps (defs : list D) (cell : StepCell) : StepCell :=
  mkCell (cell_defs cell ++ defs) (index_from (length (cell_defs cell)) defs (cell_index cell)).

Definition appendSteps (h : heap) (s : StepSeq) (defs : list D) : res string (StepSeq * heap) :=
  match duplicate_in (hasStep h s) [] defs with
  | Some name => Err name
  | None =>
      let '(store, h) := own_cell h s in
      let h := alter (push_steps defs) store h in
      Ok (mkSeq store (length (cell_defs (opt_or (h !! store) (mkCell [] ∅)))), h)
  end.

(** ** The specification *)
(** A view is the list of its steps; appending is concatenation. *)
Definition append_spec (l defs : list D) : res string (list D) :=
  match duplicate_in (fun name => bool_decide (name ∈ nameOf <$> l)) [] defs with
  | Some name => Err name
  | None => Ok (l ++ defs)
  end.

(** ** Cells *)
(** The index has the position of every name, and names do not repeat. *)
Definition cell_ok (c : StepCell) : Prop :=
  forall name i, cell_index c !! name = Some i <-> (nameOf <$> cell_defs c) !! i = Some name.

Definition heap_ok (h : heap) : Prop := forall r c, h !! r = Some c -> cell_ok c.

Definition seq_ok (h : heap) (s : StepSeq) : Prop :=
  exists c, h !! seq_store s = Some c /\ (seq_length s <= length (cell_defs c))%nat.

Lemma cell_of_lookup h s c : h !! seq_store s = Some c -> cell_of h s = c.
Proof. unfold cell_of. by intros ->. Qed.

Lemma cell_names_unique c i j name : cell_ok c ->
  (nameOf <$> cell_defs c) !! i = Some name -> (nameOf <$> cell_defs c) !! j = Some name -> i = j.
Proof. intros Hc Hi%Hc Hj%Hc. congruence. Qed.

Lemma cell_nodup c : cell_ok c -> NoDup (nameOf <$> cell_defs c).
Proof. intros Hc. apply NoDup_alt. intros i j name. by apply cell_names_unique. Qed.

Lemma elem_take (l : list D) n name :
  name ∈ nameOf <$> take n l <-> exists i, (i < n)%nat /\ (nameOf <$> l) !! i = Some name.
Proof.
  rewrite list_elem_of_lookup. split; intros (i & Hi); exists i.
  - rewrite fmap_take in Hi. apply lookup_take_Some in Hi as [? ?]. done.
  - rewrite fmap_take. apply lookup_take_Some. tauto.
Qed.

Lemma hasStep_spec h s name : heap_ok h -> seq_ok h s ->
  hasStep h s name = bool_decide (name ∈ nameOf <$> stepsToArray h s).
Proof.
  intros Hh (c & Hc & Hlen). unfold hasStep, stepsToArray. rewrite (cell_of_lookup _ _ _ Hc).
  specialize (Hh _ _ Hc). apply eq_true_iff_eq. rewrite bool_decide_eq_true, elem_take.
  destruct (cell_index c !! name) as [i|] eqn:Ei.
  - rewrite bool_decide_eq_true. apply Hh in Ei. split; [intros; by exists i|].
    intros (j & Hj & Hn). by rewrite (cell_names_unique c i j name Hh Ei Hn).
  - split; [done|]. intros (j & _ & Hn%Hh). congruence.
Qed.

(** A step is found by its name. *)
Lemma findStep_spec h s name d : heap_ok h -> seq_ok h s ->
  findStep h s name = Some d <-> d ∈ stepsToArray h s /\ nameOf d = name.
Proof.
  intros Hh (c & Hc & Hlen). unfold findStep, stepsToArray. rewrite (cell_of_lookup _ _ _ Hc).
  specialize (Hh _ _ Hc). split.
  - destruct (cell_index c !! name) as [i|] eqn:Ei; [|done]. case_bool_decide as Hi; [|done]. intros Hd.
    apply Hh in Ei. rewrite list_lookup_fmap, Hd in Ei. injection Ei as Ei. split; [|done].
    apply list_elem_of_lookup. exists i. by apply lookup_take_Some.
  - intros [(i & [Hd Hi]%lookup_take_Some)%list_elem_of_lookup Hn].
    assert (cell_index c !! name = Some i) as ->.
    { apply Hh. by rewrite list_lookup_fmap, Hd, <- Hn. }
    by rewrite bool_decide_true.
Qed.

(** *** Writing an index *)
Lemma index_from_cons from d defs index :
  index_from from (d :: defs) index = index_from (S from) defs (<[nameOf d := from]> index).
Proof.
  unfold index_from. cbn [imap foldl fst snd]. rewrite Nat.add_0_r. f_equal. apply imap_ext. intros i x _. cbn.
  f_equal. lia.
Qed.

Lemma index_defs_lookup from defs index name i : NoDup (nameOf <$> defs) ->
  index_from from defs index !! name = Some i <->
  (exists j, i = (from + j)%nat /\ (nameOf <$> defs) !! j = Some name) \/
  ((name ∉ nameOf <$> defs) /\ index !! name = Some i).
Proof.
  revert from index. induction defs as [|d defs IH]; intros from index Hnd.
  { split; [intros Hi; right; split; [apply not_elem_of_nil|done]|intros [(j & _ & Hj)|[_ Hi]]; done]. }
  cbn [fmap list_fmap] in Hnd |- *. apply NoDup_cons in Hnd as [Hni Hnd].
  rewrite index_from_cons, IH, jlookup_insert by done. split.
  - intros [(j & -> & Hj)|[Hn Hi]]; [left; exists (S j); split; [lia|done]|]. case_decide as Hd.
    + left. exists O. injection Hi as ->. split; [lia|]. cbn. by rewrite Hd.
    + right. split; [|done]. intros [->|?]%elem_of_cons; done.
  - intros [([|j] & -> & Hj)|[[Hne Hn]%not_elem_of_cons Hi]].
    + cbn in Hj. injection Hj as <-. right. split; [done|]. rewrite decide_True by done. f_equal. lia.
    + left. exists j. split; [lia|done].
    + right. split; [done|]. by rewrite decide_False.
Qed.

Lemma delete_names_lookup defs (index : jmap string nat) name :
  foldl (fun index d => delete (nameOf d) index) index defs !! name =
  if bool_decide (name ∈ nameOf <$> defs) then None else index !! name.
Proof.
  revert index. induction defs as [|d defs IH]; intros index; cbn [foldl fmap list_fmap].
  { by rewrite bool_decide_false by apply not_elem_of_nil. }
  rewrite IH, jlookup_delete. case_bool_decide as Hn.
  - by rewrite bool_decide_true by (by right).
  - case_decide as Hd.
    + rewrite bool_decide_true; [done|]. rewrite Hd. left.
    + rewrite bool_decide_false; [done|]. intros [->|?]%elem_of_cons; done.
Qed.

Lemma cell_ok_push c defs : cell_ok c -> NoDup (nameOf <$> defs) ->
  (forall name, name ∈ nameOf <$> defs -> name ∉ nameOf <$> cell_defs c) -> cell_ok (push_steps defs c).
Proof.
  intros Hc Hnd Hnew name i. cbn. rewrite index_defs_lookup by done. rewrite fmap_app, lookup_app_Some, length_fmap.
  split.
  - intros [(j & -> & Hj)|[Hn Hi%Hc]]; [right; split; [lia|]|by left]. rewrite <- Hj. f_equal. lia.
  - intros [Hi|[Hle Hi]].
    + right. split; [|by apply Hc]. intros Hn. apply (Hnew name Hn). by eapply list_elem_of_lookup_2.
    + left. exists (i - length (cell_defs c))%nat. split; [lia|done].
Qed.

Lemma copyPrefix_ok h s : heap_ok h -> seq_ok h s ->
  cell_ok (copyPrefix h s) /\ cell_defs (copyPrefix h s) = stepsToArray h s.
Proof.
  intros Hh (c & Hc & Hlen). unfold copyPrefix, stepsToArray. rewrite (cell_of_lookup _ _ _ Hc).
  specialize (Hh _ _ Hc). pose proof (cell_nodup c Hh) as Hnd. case_bool_decide as Hb; (split; [|done]);
    intros name i; cbn [cell_index cell_defs].
  - rewrite delete_names_lookup. rewrite fmap_take, lookup_take_Some. case_bool_decide as Hn.
    + split; [done|]. intros [Hi Hlt]. rewrite list_elem_of_lookup in Hn. destruct Hn as (j & Hj).
      rewrite fmap_drop, lookup_drop in Hj. pose proof (cell_names_unique c _ _ _ Hh Hi Hj). lia.
    + rewrite (Hh name i). split; [|tauto]. intros Hi. split; [done|].
      destruct (decide (i < seq_length s)%nat) as [?|Hge]; [done|]. destruct Hn. apply list_elem_of_lookup.
      exists (i - seq_length s)%nat. rewrite fmap_drop, lookup_drop. rewrite <- Hi. f_equal. lia.
  - rewrite index_defs_lookup.
    + split; [intros [(j & -> & Hj)|[_ Hi]]; done|]. intros Hi. left. by exists i.
    + rewrite fmap_take. rewrite <- (take_drop (seq_length s)) in Hnd. by apply NoDup_app in Hnd as [? _].
Qed.

(** ** Appending *)
Lemma duplicate_ext t1 t2 batch defs : (forall n, t1 n = t2 n) -> duplicate_in t1 batch defs = duplicate_in t2 batch defs.
Proof.
  intros Ht. revert batch. induction defs as [|d defs IH]; intros batch; [done|]. cbn. rewrite Ht. by destruct (_ || _).
Qed.

Lemma duplicate_none taken batch defs : duplicate_in taken batch defs = None ->
  NoDup (nameOf <$> defs) /\ forall name, name ∈ nameOf <$> defs -> taken name = false /\ name ∉ batch.
Proof.
  revert batch. induction defs as [|d defs IH]; intros batch; cbn [duplicate_in].
  { intros _. split; [constructor|]. by intros name ?%not_elem_of_nil. }
  destruct (bool_decide_reflect (nameOf d ∈ batch)) as [?|Hb]; [done|]. cbn [orb].
  destruct (taken (nameOf d)) eqn:Et; [done|]. intros [Hnd Hall]%IH. cbn [fmap list_fmap]. split.
  - apply NoDup_cons. split; [|done]. intros Hin. destruct (Hall _ Hin) as [_ Hn]. apply Hn. apply elem_of_app. right. left.
  - intros name [->|Hin]%elem_of_cons; [done|]. destruct (Hall _ Hin) as [? Hn]. split; [done|]. intros Hin'. apply Hn.
    apply elem_of_app. by left.
Qed.

(** What is left of the old views when the heap grows. *)
Definition keeps_views (h h' : heap) : Prop :=
  forall s, seq_ok h s -> seq_ok h' s /\ stepsToArray h' s = stepsToArray h s.

Lemma keeps_views_refl h : keeps_views h h.
Proof. done. Qed.

Lemma keeps_views_trans h1 h2 h3 : keeps_views h1 h2 -> keeps_views h2 h3 -> keeps_views h1 h3.
Proof. intros H1 H2 s Hs. destruct (H1 s Hs) as [Hs2 E1]. destruct (H2 s Hs2) as [Hs3 E2]. split; congruence. Qed.

Lemma keeps_app h c : keeps_views h (h ++ [c]).
Proof.
  intros s (d & Hd & Hlen). unfold stepsToArray. rewrite (cell_of_lookup h s d Hd).
  assert ((h ++ [c]) !! seq_store s = Some d) as Hd' by (by apply lookup_app_l_Some).
  rewrite (cell_of_lookup _ s d Hd'). split; [by exists d|done].
Qed.

Lemma keeps_push h r c defs : h !! r = Some c -> keeps_views h (alter (push_steps defs) r h).
Proof.
  intros Hr [r' n] (d & Hd & Hlen). unfold seq_ok, stepsToArray, cell_of. cbn [seq_store seq_length] in *. rewrite Hd.
  destruct (decide (r' = r)) as [->|Hne].
  - rewrite Hr in Hd. injection Hd as <-. rewrite list_lookup_alter_eq, Hr. cbn. split.
    + exists (push_steps defs c). split; [done|]. cbn. rewrite length_app. lia.
    + by apply take_app_le.
  - rewrite list_lookup_alter_ne, Hd by done. split; [by exists d|done].
Qed.

Lemma own_cell_spec h s : heap_ok h -> seq_ok h s ->
  let '(r, h') := own_cell h s in
  heap_ok h' /\ keeps_views h h' /\ exists c, h' !! r = Some c /\ cell_defs c = stepsToArray h s.
Proof.
  intros Hh Hs. pose proof Hs as (c & Hc & Hlen). unfold own_cell. rewrite (cell_of_lookup _ _ _ Hc). case_bool_decide as Htip.
  - split; [done|]. split; [apply keeps_views_refl|]. exists c. split; [done|]. unfold stepsToArray.
    rewrite (cell_of_lookup _ _ _ Hc), Htip. by rewrite firstn_all.
  - destruct (copyPrefix_ok h s Hh Hs) as [Hok Hdefs]. split; [|split; [apply keeps_app|]].
    + intros r d [Hd|[_ Hd]]%lookup_app_Some; [by eapply Hh|]. apply list_lookup_singleton_Some in Hd as [_ <-]. done.
    + exists (copyPrefix h s). split; [by apply list_lookup_middle|done].
Qed.

Lemma appendSteps_spec h s defs : heap_ok h -> seq_ok h s ->
  match appendSteps h s defs, append_spec (stepsToArray h s) defs with
  | Ok (s', h'), Ok l => heap_ok h' /\ seq_ok h' s' /\ stepsToArray h' s' = l /\ keeps_views h h'
  | Err e, Err e' => e = e'
  | _, _ => False
  end.
Proof.
  intros Hh Hs. unfold appendSteps, append_spec.
  rewrite (duplicate_ext (hasStep h s) (fun name => bool_decide (name ∈ nameOf <$> stepsToArray h s)))
    by (intros; by apply hasStep_spec).
  destruct (duplicate_in _ [] defs) as [e|] eqn:Edup; [done|]. apply duplicate_none in Edup as [Hnd Hnew].
  pose proof (own_cell_spec h s Hh Hs) as Hown. destruct (own_cell h s) as [r h1].
  destruct Hown as (Hh1 & Hk & c & Hc & Hdefs).
  assert (alter (push_steps defs) r h1 !! r = Some (push_steps defs c)) as Ha by (by rewrite list_lookup_alter_eq, Hc).
  rewrite Ha. cbn [opt_or from_option id]. split; [|split; [|split]].
  - intros r' d Hd. destruct (decide (r' = r)) as [->|Hne].
    + rewrite Ha in Hd. injection Hd as <-. apply cell_ok_push; [by eapply Hh1|done|]. intros name Hn.
      rewrite Hdefs. destruct (Hnew name Hn) as [Hf _]. by apply bool_decide_eq_false in Hf.
    + rewrite list_lookup_alter_ne in Hd by done. by eapply Hh1.
  - exists (push_steps defs c). split; [done|]. cbn. lia.
  - unfold stepsToArray, cell_of. cbn [seq_store seq_length]. rewrite Ha. cbn. rewrite firstn_all. by rewrite Hdefs.
  - eapply keeps_views_trans; [exact Hk|]. by eapply keeps_push.
Qed.

(** ** Builders in use *)
(** The calls of a program on builder values: a new chain, or an append to
    any value it has. *)
Inductive BuilderOp : Type :=
| NewChain
| AppendTo (builder : nat) (defs : list D).

Definition builder_step (st : list StepSeq * heap) (op : BuilderOp) : list StepSeq * heap :=
  let '(views, h) := st in
  match op with
  | NewChain => let '(s, h) := emptySteps h in (views ++ [s], h)
  | AppendTo k defs =>
      match views !! k with
      | Some s => match appendSteps h s defs with Ok (s, h) => (views ++ [s], h) | Err _ => (views, h) end
      | None => (views, h)
      end
  end.

Definition run_builders (ops : list BuilderOp) : list StepSeq * heap := foldl builder_step ([], []) ops.

Definition list_step (lists : list (list D)) (op : BuilderOp) : list (list D) :=
  match op with
  | NewChain => lists ++ [[]]
  | AppendTo k defs =>
      match lists !! k with
      | Some l => match append_spec l defs with Ok l => lists ++ [l] | Err _ => lists end
      | None => lists
      end
  end.

Definition run_lists (ops : list BuilderOp) : list (list D) := foldl list_step [] ops.

Definition simulates (st : list StepSeq * heap) (lists : list (list D)) : Prop :=
  heap_ok st.2 /\ Forall (seq_ok st.2) st.1 /\ stepsToArray st.2 <$> st.1 = lists.

Lemma views_kept h h' views : keeps_views h h' -> Forall (seq_ok h) views ->
  Forall (seq_ok h') views /\ stepsToArray h' <$> views = stepsToArray h <$> views.
Proof.
  intros Hk. induction 1 as [|s views Hs _ [IH1 IH2]]; [done|]. destruct (Hk s Hs) as [Hs' E].
  split; [by constructor|]. cbn. by rewrite E, IH2.
Qed.

(** A new view next to the old ones. *)
Lemma simulates_push st s h' l lists : simulates st lists -> heap_ok h' -> keeps_views st.2 h' -> seq_ok h' s ->
  stepsToArray h' s = l -> simulates (st.1 ++ [s], h') (lists ++ [l]).
Proof.
  intros (_ & Hs & <-) Hh' Hk Hs' <-. destruct (views_kept _ _ _ Hk Hs) as [Hv E]. split; [done|]. cbn. split.
  - apply Forall_app. split; [done|]. by constructor.
  - by rewrite fmap_app, E.
Qed.

Lemma builder_step_simulates st lists op : simulates st lists -> simulates (builder_step st op) (list_step lists op).
Proof.
  intros Hsim. pose proof Hsim as (Hh & Hs & Hl). destruct st as [views h]. cbn [fst snd] in *.
  destruct op as [|k defs]; cbn [builder_step list_step].
  - cbn. apply (simulates_push (views, h)); [done| |apply keeps_app| |].
    + intros r c [Hc|[_ Hc]]%lookup_app_Some; [by eapply Hh|]. apply list_lookup_singleton_Some in Hc as [_ <-]. by intros name i.
    + eexists. split; [by apply list_lookup_middle|]. cbn. lia.
    + done.
  - rewrite <- Hl, list_lookup_fmap. destruct (views !! k) as [s|] eqn:Es; cbn; [|by rewrite Hl].
    pose proof (proj1 (Forall_lookup _ _) Hs k s Es) as Hsk. pose proof (appendSteps_spec h s defs Hh Hsk) as Ha.
    destruct (appendSteps h s defs) as [[s' h']|e]; destruct (append_spec (stepsToArray h s) defs) as [l|e']; try done.
    destruct Ha as (Hh' & Hs' & Hl' & Hk). rewrite Hl. by apply (simulates_push (views, h)).
Qed.

(** C18. However a program chains, forks and keeps builder values - builders
    share their arrays, and an append to the newest one writes into the array
    of all - every builder value has exactly the steps that appending to
    immutable lists would give it: no later append shows in an older value or
    in a sibling. A refused append - a name the builder has, or twice in the
    batch - changes nothing. And [hasStep] and [findStep] answer for each
    value by its own steps. *)
Theorem builders_refine_lists ops :
  let '(views, h) := run_builders ops in
  stepsToArray h <$> views = run_lists ops /\
  forall s, s ∈ views -> NoDup (nameOf <$> stepsToArray h s) /\
    forall name, hasStep h s name = bool_decide (name ∈ nameOf <$> stepsToArray h s) /\
      forall d, findStep h s name = Some d <-> d ∈ stepsToArray h s /\ nameOf d = name.
Proof.
  assert (simulates (run_builders ops) (run_lists ops)) as Hsim.
  { unfold run_builders, run_lists. assert (simulates ([], []) []) as H0 by done. revert H0.
    generalize (@nil StepSeq, @nil StepCell), (@nil (list D)).
    induction ops as [|op ops IH]; intros st lists Hst; [done|]. cbn [foldl]. by apply IH, builder_step_simulates. }
  destruct (run_builders ops) as [views h]. destruct Hsim as (Hh & Hs & Hl). cbn [fst snd] in *. split; [done|].
  intros s Hin. pose proof (proj1 (Forall_forall _ _) Hs s Hin) as Hsk. split.
  - destruct Hsk as (c & Hc & _). unfold stepsToArray. rewrite (cell_of_lookup _ _ _ Hc).
    pose proof (cell_nodup c (Hh _ _ Hc)) as Hnd. rewrite <- (take_drop (seq_length s) (cell_defs c)), fmap_app in Hnd.
    by apply NoDup_app in Hnd as [? _].
  - intros name. split; [by apply hasStep_spec|]. intros d. by apply findStep_spec.
Qed.
End builder_state.

(** A fork: both children of one builder, then a grandchild of the first. *)
Example fork_keeps_views :
  let ops := [NewChain; AppendTo 0 ["a"]; AppendTo 1 ["b"]; AppendTo 1 ["c"]; AppendTo 2 ["d"]; AppendTo 3 ["a"]] in
  let '(views, h) := run_builders id ops in
  (stepsToArray h <$> views, length h) = ([[]; ["a"]; ["a"; "b"]; ["a"; "c"]; ["a"; "b"; "d"]], 2%nat).
Proof. vm_compute. reflexivity. Qed.
