(* ===== verification/Builder.v ===== *)
(** The workflow builder: [durable/workflow-builder.ts] and
    [durable/workflow-fragment.ts].

    A builder value is a configuration, a view of the shared step list of
    [BuilderState] and the name of its head. Every method answers a new
    builder or throws; the heap of step lists is threaded through. The
    configuration fields that the builder only passes on are of one type
    [Rest]. *)
From Stdlib Require Import QArith.
From S2P Require Import Prelude Leases Json Journal RunState Storage Exits Retry Replay Dag StepBody Checkpoint Waves WaveLaws WaveLoop Steps StoreSteps BuilderState.
Open Scope string_scope.
Open Scope list_scope.
Open Scope Z_scope.

Inductive VersionMismatch : Type := Strict | Drain.
#[global] Instance VersionMismatch_eq_dec : EqDecision VersionMismatch.
Proof. solve_decision. Defined.

Section builder.
Context {W Rest IdempotencyConfig : Type} `{StepStore W} (host : RunnerHost W).
(** The lossless codec and [codecArray] of the effect library, and the order
    in which the elements of a map settle. *)
Variable LosslessJsonCodec : Codec.
Variable codecArray : Codec -> Codec.
Variable rh_elements : option Z -> list Z -> W -> list Z.
(** What the runner binds to a run for its children. *)
Variable runChild : option (string -> json -> async W json).

Record WorkflowParams : Type := mkParams {
  wp_name : string;
  wp_version : option string;
  wp_codec : option Codec;
  wp_onVersionMismatch : option VersionMismatch;
  (** the [version] field of each previous version *)
  wp_previousVersions : option (list (option string));
  wp_rest : Rest;
}.

Record WorkflowConfig : Type := mkConfig {
  wc_name : string;
  wc_version : option string;
  wc_codec : option Codec;
  wc_onVersionMismatch : VersionMismatch;
  wc_previousVersions : option (list (option string));
  wc_idempotency : option IdempotencyConfig;
  wc_rest : Rest;
}.

Abbreviation StepHeap := (list (StepCell (D := StepDefinition W))).

Record WorkflowBuilder : Type := mkBuilder {
  b_config : WorkflowConfig;
  b_steps : StepSeq;
  b_lastStepName : option string;
}.

(** A method: the new builder, or what it throws. *)
Definition method : Type := WorkflowBuilder -> StepHeap -> res thrown (WorkflowBuilder * StepHeap).

Record Workflow : Type := mkWorkflowDef {
  w_name : string;
  w_version : option string;
  w_dag : list (string * list string * StepKind);
  w_idempotency : option IdempotencyConfig;
  w_steps : list (StepDefinition W);
  w_onVersionMismatch : VersionMismatch;
  w_previousVersions : option (list (option string));
  w_rest : Rest;
}.

(** ** [workflow()] and [flow()] *)
Definition no_version (v : option string) : bool := bool_decide (v = None \/ v = Some "").

Definition workflow (params : WorkflowParams) (h : StepHeap) : res thrown (WorkflowBuilder * StepHeap) :=
  let previous := opt_or (wp_previousVersions params) [] in
  let throws message := Err (WorkflowError host ("workflow " +:+ quoted (wp_name params) +:+ ": " +:+ message)) in
  if bool_decide (wp_onVersionMismatch params = Some Drain) && bool_decide (previous = []) then
    throws ("onVersionMismatch: " +:+ quoted "drain" +:+ " requires previousVersions to be non-empty")
  else if existsb no_version previous then
    throws "previousVersions entries must have a `version` field set"
  else
    let '(steps, h) := emptySteps h in
    Ok (mkBuilder (mkConfig (wp_name params) (wp_version params) (wp_codec params)
                     (opt_or (wp_onVersionMismatch params) Strict) (wp_previousVersions params) None
                     (wp_rest params)) steps None, h).

Definition flow (name : string) (rest : Rest) (h : StepHeap) : WorkflowBuilder * StepHeap :=
  let '(steps, h) := emptySteps h in
  (mkBuilder (mkConfig name None None Strict None None rest) steps None, h).

Definition version (v : string) (b : WorkflowBuilder) : WorkflowBuilder :=
  let c := b_config b in
  mkBuilder (mkConfig (wc_name c) (Some v) (wc_codec c) (wc_onVersionMismatch c) (wc_previousVersions c)
               (wc_idempotency c) (wc_rest c)) (b_steps b) (b_lastStepName b).

(** ** Helpers *)
Definition duplicateStepError (name : string) : thrown :=
  WorkflowError host ("Duplicate step name: " +:+ quoted name).

(** An empty head name reads as no head. *)
Definition linearDeps (b : WorkflowBuilder) : list string :=
  match b_lastStepName b with
  | Some n => if bool_decide (n = "") then [] else [n]
  | None => []
  end.

Definition codec_or_default (b : WorkflowBuilder) (override : option Codec) : Codec :=
  opt_or override (opt_or (wc_codec (b_config b)) LosslessJsonCodec).

Definition append (defs : list (StepDefinition W)) : method := fun b h =>
  match appendSteps sd_name h (b_steps b) defs with
  | Err name => Err (duplicateStepError name)
  | Ok (steps, h) => Ok (mkBuilder (b_config b) steps (sd_name <$> last defs), h)
  end.

(** [_validateName], then the step that [make] builds. *)
Definition add_steps (name : string) (make : WorkflowBuilder -> StepHeap -> res thrown (list (StepDefinition W)))
    : method := fun b h =>
  if hasStep h (b_steps b) name then Err (duplicateStepError name)
  else match make b h with
       | Err e => Err e
       | Ok defs => append defs b h
       end.

Definition add_step (name : string) (make : WorkflowBuilder -> StepDefinition W) : method :=
  add_steps name (fun b _ => Ok [make b]).

Definition cacheNamespace (b : WorkflowBuilder) : string := wc_name (b_config b).

(** [options?.codec] of a step. *)
Definition step_codec (b : WorkflowBuilder) (options : option (StepOptions W)) : Codec :=
  codec_or_default b (options ≫= so_codec).

(** ** The methods *)
(** A linear step depends on the head, a DAG step on what it names. *)
Definition basic_step (name : string) (dependsOn : option (list string)) (fn : BasicFn W)
    (options : option (StepOptions W)) : method :=
  add_step name (fun b =>
    createBasicStep name (opt_or dependsOn (linearDeps b)) fn options (step_codec b options) (cacheNamespace b)).

Definition linear_step (name : string) (fn : StepFn StepContext W) (options : option (StepOptions W)) : method :=
  basic_step name None (LinearFn fn) options.

Definition dag_step (name : string) (dependsOn : list string) (fn : StepFn DagStepContext W)
    (options : option (StepOptions W)) : method :=
  basic_step name (Some dependsOn) (DagFn fn) options.

Definition mapOver (name array : string) (concurrency : option Z) (fn : json -> StepFn MapStepContext W)
    (options : option (MapOverOptions W)) : method :=
  add_step name (fun b =>
    createMapOverStep host codecArray rh_elements name array concurrency fn options (codec_or_default b None)
      (cacheNamespace b)).

Definition guard_step (name : string) (predicate : json -> res thrown bool) (failureMessage : option string)
    : method :=
  add_step name (fun b => createGuardStep host name (linearDeps b) predicate failureMessage (codec_or_default b None)).

Definition tripwire (name : string) (when : json -> res thrown bool) (reason : json -> res thrown json)
    (codec : option Codec) : method :=
  add_step name (fun b => createTripwireStep name (linearDeps b) when reason (codec_or_default b codec)).

Definition dowhile (name : string) (body : Z -> StepFn StepContext W) (condition : json -> Z -> res thrown bool)
    (options : option (LoopOptions W)) : method :=
  add_steps name (fun b _ =>
    match createLoopStep host name (linearDeps b) body condition options (step_codec b (lo_step <$> options)) with
    | Ok d => Ok [d]
    | Err e => Err e
    end).

Definition dountil (name : string) (body : Z -> StepFn StepContext W) (condition : json -> Z -> res thrown bool)
    (options : option (LoopOptions W)) : method :=
  dowhile name body (fun r i => match condition r i with Ok stop => Ok (negb stop) | Err e => Err e end) options.

Definition parallel (name : string) (dependsOn : option (list string))
    (branches : list (string * StepFn StepContext W)) (options : option (ParallelOptions W)) : method :=
  add_steps name (fun b _ =>
    createParallelSteps host name (opt_or dependsOn (linearDeps b)) branches options (codec_or_default b None)
      (cacheNamespace b)).

Definition branch (name : string) (dependsOn : option (list string)) (condition : json -> res thrown bool)
    (ifTrue ifFalse : StepFn StepContext W) (options : option (StepOptions W)) : method :=
  add_step name (fun b =>
    createBranchStep name (opt_or dependsOn (linearDeps b)) condition ifTrue ifFalse options (step_codec b options)
      (cacheNamespace b)).

(** [execute] runs the journaled body, given its codec. *)
Definition journaled (name : string)
    (execute : Codec -> list string -> ExecuteParams -> Eff (option metadata * W) json)
    (options : option (StepOptions W)) : method :=
  add_step name (fun b =>
    let codec := step_codec b options in
    step_with_policy name (linearDeps b) KJournaled codec options (execute codec (linearDeps b))).

Definition match_ (name : string) (params : MatchParams W) (options : option (StepOptions W)) : method :=
  add_step name (fun b =>
    createMatchStep host name (linearDeps b) params options (step_codec b options) (cacheNamespace b)).

Definition subworkflow (name : string) (inputOf : json -> res thrown json) (workflowIdOf : json -> res thrown string)
    (options : option (StepOptions W)) : method :=
  add_step name (fun b =>
    createSubworkflowStep host runChild name (linearDeps b) inputOf workflowIdOf options (step_codec b options)).

(** The checkpointed value of a sleep is that of the step before it. *)
Definition sleep (name : string) (ms : Z) (dependsOn : option (list string)) : method :=
  add_steps name (fun b h =>
    let deps := opt_or dependsOn (linearDeps b) in
    let source := match deps with d :: _ => findStep h (b_steps b) d | [] => None end in
    Ok [createSleepStep host name deps ms (from_option sd_codec (codec_or_default b None) source)]).

Definition waitForSignal (name signalName : string) (timeoutMs : option Z) (codec : option Codec)
    (dependsOn : option (list string)) : method :=
  add_step name (fun b =>
    createWaitForSignalStep host name (opt_or dependsOn (linearDeps b)) signalName timeoutMs (codec_or_default b codec)).

Definition approval (name : string) (signalName : option string) (timeoutMs : option Z) (codec : option Codec)
    (dependsOn : option (list string)) : method :=
  waitForSignal name (opt_or signalName (name +:+ "-approved")) timeoutMs codec dependsOn.

(** The first free name of [<head>.map], [<head>.map.2], ... *)
Fixpoint free_map_name (fuel : nat) (taken : string -> bool) (head : string) (n : Z) (name : string)
    : option string :=
  if taken name then
    match fuel with
    | O => None
    | S fuel => free_map_name fuel taken head (n + 1) (head +:+ ".map." +:+ str_of_Z n)
    end
  else Some name.

(** The loop has one try for each step of the builder, which is enough. *)
Definition map_name (b : WorkflowBuilder) (h : StepHeap) (head : string) : option string :=
  free_map_name (seq_length (b_steps b)) (hasStep h (b_steps b)) head 2 (head +:+ ".map").

Definition map (fn : json -> res thrown json) : method := fun b h =>
  match b_lastStepName b with
  | None => Err (WorkflowError host "Cannot call .map() on a workflow with no steps")
  | Some head =>
      match map_name b h head with
      | Some name => append [createTransformStep name head fn (codec_or_default b None)] b h
      | None => Ok (b, h)
      end
  end.

(** ** [build()] *)
Definition toWorkflowDag (steps : list (StepDefinition W)) : list (string * list string * StepKind) :=
  (fun s => (sd_name s, sd_dependsOn s, sd_kind s)) <$> steps.

Definition build (idempotency : option IdempotencyConfig) (b : WorkflowBuilder) (h : StepHeap) : Workflow :=
  let c := b_config b in
  let steps := stepsToArray h (b_steps b) in
  mkWorkflowDef (wc_name c) (wc_version c) (toWorkflowDag steps) (opt_else idempotency (wc_idempotency c)) steps
    (wc_onVersionMismatch c) (wc_previousVersions c) (wc_rest c).

(** ** Fragments *)
Inductive FragmentOperation : Type :=
| FragStep (name : string) (fn : StepFn StepContext W) (options : option (StepOptions W))
| FragParallel (name : string) (branches : list (string * StepFn StepContext W))
    (options : option (ParallelOptions W)).

Definition WorkflowFragment : Type := list FragmentOperation.

Definition fragment_op (op : FragmentOperation) : method :=
  match op with
  | FragStep name fn options => linear_step name fn options
  | FragParallel name branches options => parallel name None branches options
  end.

(** [use]: the calls replayed on the builder. *)
Fixpoint use (fragment : WorkflowFragment) : method := fun b h =>
  match fragment with
  | [] => Ok (b, h)
  | op :: fragment =>
      match fragment_op op b h with
      | Ok (b, h) => use fragment b h
      | Err e => Err e
      end
  end.

Definition fragment_step (name : string) (fn : StepFn StepContext W) (options : option (StepOptions W))
    : WorkflowFragment := [FragStep name fn options].
Definition andThen (name : string) (fn : StepFn StepContext W) (options : option (StepOptions W))
    (fragment : WorkflowFragment) : WorkflowFragment := fragment ++ [FragStep name fn options].
Definition fragment_parallel (name : string) (branches : list (string * StepFn StepContext W))
    (options : option (ParallelOptions W)) (fragment : WorkflowFragment) : WorkflowFragment :=
  fragment ++ [FragParallel name branches options].
End builder.
