(* ===== verification/Compiler.v ===== *)
(** The workflow compiler: [durable/workflow-compiler.ts], with the schemas of
    [durable/workflow-schema.ts], the constraints that
    [durable/workflow-schema-validator.ts] states of them and the registry of
    [durable/activity-registry.ts].

    A schema is checked - structure, names, references, cycles -, sorted, and
    built step by step through the methods of [Builder]. Fields that the
    compiler does not read (output schemas, editor metadata) are left out;
    numbers are integers, which is what the validator asks. The [while] loop
    of [cycleSteps] is recursion on fuel; [cycleSteps] gives it one unit per
    step, and [cycle_loop_total] shows that no schema needs more. *)
From Stdlib Require Import QArith.
From S2P Require Import Prelude Leases Json Journal RunState Storage Exits Retry Replay Dag StepBody Checkpoint Waves WaveLaws WaveLoop MachineStorage Steps StoreSteps BuilderState Builder.
Open Scope string_scope.
Open Scope list_scope.
Open Scope Z_scope.

(** ** Schemas *)
Record SchemaRetry : Type := mkSchemaRetry {
  sr_maxRetries : option Z;
  sr_baseDelayMs : option Z;
}.

Record StepSchemaOptions : Type := mkSchemaOptions {
  sso_retry : option SchemaRetry;
  sso_timeoutMs : option Z;
}.

Record MapStepSchemaOptions : Type := mkMapSchemaOptions {
  mso_step : StepSchemaOptions;
  mso_concurrency : option Z;
}.

Record ActivityRefSchema : Type := mkActivityRef {
  ar_activityRef : string;
  ar_config : option (list (string * json));
}.

Inductive StepSchema : Type :=
| SingleStepSchema (name : string) (dependsOn : list string) (activity : ActivityRefSchema)
    (options : option StepSchemaOptions)
| MapStepSchema (name arrayFrom : string) (activity : ActivityRefSchema) (options : option MapStepSchemaOptions)
| SleepStepSchema (name : string) (dependsOn : list string) (ms : Z)
| SignalStepSchema (name : string) (dependsOn : list string) (signalName : string) (timeoutMs : option Z)
| ApprovalStepSchema (name : string) (dependsOn : list string) (signalName : option string)
    (timeoutMs : option Z)
| BranchStepSchema (name : string) (dependsOn : list string) (conditionRef : string)
    (ifTrue ifFalse : ActivityRefSchema) (options : option StepSchemaOptions)
| ParallelStepSchema (name : string) (dependsOn : list string) (branches : list (string * ActivityRefSchema))
    (options : option StepSchemaOptions).

Record WorkflowSchema : Type := mkSchema {
  wsc_version : Z;
  wsc_name : string;
  wsc_steps : list StepSchema;
}.

Definition schema_name (s : StepSchema) : string :=
  match s with
  | SingleStepSchema n _ _ _ | MapStepSchema n _ _ _ | SleepStepSchema n _ _ | SignalStepSchema n _ _ _
  | ApprovalStepSchema n _ _ _ | BranchStepSchema n _ _ _ _ _ | ParallelStepSchema n _ _ _ => n
  end.

(** ** Structure *)
Definition nonempty (s : string) : bool := negb (bool_decide (s = "")).
Definition at_least (low : Z) (n : option Z) : bool := match n with Some n => low <=? n | None => true end.

Definition StepSchemaOptionsZ (o : StepSchemaOptions) : bool :=
  match sso_retry o with
  | Some r => at_least 0 (sr_maxRetries r) && at_least 0 (sr_baseDelayMs r)
  | None => true
  end && at_least 0 (sso_timeoutMs o).

Definition MapStepSchemaOptionsZ (o : MapStepSchemaOptions) : bool :=
  StepSchemaOptionsZ (mso_step o) && at_least 1 (mso_concurrency o).

Definition ActivityRefSchemaZ (a : ActivityRefSchema) : bool := nonempty (ar_activityRef a).

Definition optionally {A} (test : A -> bool) (o : option A) : bool :=
  match o with Some x => test x | None => true end.

Definition StepSchemaZ (s : StepSchema) : bool :=
  nonempty (schema_name s) &&
  match s with
  | SingleStepSchema _ _ activity options => ActivityRefSchemaZ activity && optionally StepSchemaOptionsZ options
  | MapStepSchema _ arrayFrom activity options =>
      nonempty arrayFrom && ActivityRefSchemaZ activity && optionally MapStepSchemaOptionsZ options
  | SleepStepSchema _ _ ms => 0 <=? ms
  | SignalStepSchema _ _ signalName timeoutMs => nonempty signalName && at_least 0 timeoutMs
  | ApprovalStepSchema _ _ signalName timeoutMs => optionally nonempty signalName && at_least 0 timeoutMs
  | BranchStepSchema _ _ conditionRef ifTrue ifFalse options =>
      nonempty conditionRef && ActivityRefSchemaZ ifTrue && ActivityRefSchemaZ ifFalse &&
      optionally StepSchemaOptionsZ options
  | ParallelStepSchema _ _ branches options =>
      forallb (fun b : string * ActivityRefSchema => ActivityRefSchemaZ b.2) branches && optionally StepSchemaOptionsZ options
  end.

Definition WorkflowSchemaZ (schema : WorkflowSchema) : bool :=
  (wsc_version schema =? 1) && nonempty (wsc_name schema) &&
  Nat.leb 1 (length (wsc_steps schema)) && forallb StepSchemaZ (wsc_steps schema).

(** ** Graph checks *)
Definition stepDependsOn (s : StepSchema) : list string :=
  match s with
  | MapStepSchema _ arrayFrom _ _ => [arrayFrom]
  | SingleStepSchema _ deps _ _ | SleepStepSchema _ deps _ | SignalStepSchema _ deps _ _
  | ApprovalStepSchema _ deps _ _ | BranchStepSchema _ deps _ _ _ _ | ParallelStepSchema _ deps _ _ => deps
  end.

(** Labels and references. *)
Definition stepActivityRefs (s : StepSchema) : list (string * string) :=
  match s with
  | SingleStepSchema name _ a _ | MapStepSchema name _ a _ => [("Step " +:+ quoted name, ar_activityRef a)]
  | BranchStepSchema name _ conditionRef ifTrue ifFalse _ =>
      [("Branch step " +:+ quoted name +:+ " condition", conditionRef);
       ("Branch step " +:+ quoted name +:+ " ifTrue", ar_activityRef ifTrue);
       ("Branch step " +:+ quoted name +:+ " ifFalse", ar_activityRef ifFalse)]
  | ParallelStepSchema name _ branches _ =>
      (fun b : string * ActivityRefSchema => ("Parallel step " +:+ quoted name +:+ " branch " +:+ quoted b.1, ar_activityRef b.2)) <$> branches
  | SleepStepSchema _ _ _ | SignalStepSchema _ _ _ _ | ApprovalStepSchema _ _ _ _ => []
  end.

Definition schema_names (steps : list StepSchema) : list string := schema_name <$> steps.

(** *** [cycleSteps] *)
(** Counts of the steps not taken yet: [undefined - 1] is [NaN], here [None]. *)
Definition remaining_counts (steps : list StepSchema) : jmap string (option Z) :=
  foldl (fun m s =>
    <[schema_name s := Some (Z.of_nat (length (base.filter (fun d => d ∈ schema_names steps) (stepDependsOn s))))]> m)
    ∅ steps.

Definition add_known_dependent (names : list string) (name : string) (m : jmap string (list string)) (dep : string)
    : jmap string (list string) :=
  if bool_decide (dep ∈ names) then <[dep := opt_or (m !! dep) [] ++ [name]]> m else m.

Definition known_dependents (steps : list StepSchema) : jmap string (list string) :=
  foldl (fun m s => foldl (add_known_dependent (schema_names steps) (schema_name s)) m (stepDependsOn s)) ∅ steps.

(** One dependent of the step taken; the last of [ready] is the head here. *)
Definition release (acc : jmap string (option Z) * list string) (next : string)
    : jmap string (option Z) * list string :=
  let '(remaining, ready) := acc in
  let n := (fun v => v - 1) <$> mjoin (M := option) (remaining !! next) in
  (<[next := n]> remaining, if bool_decide (n = Some 0) then next :: ready else ready).

Fixpoint cycle_loop (fuel : nat) (dependents : jmap string (list string)) (remaining : jmap string (option Z))
    (ready : list string) : option (jmap string (option Z)) :=
  match ready with
  | [] => Some remaining
  | name :: ready =>
      match fuel with
      | O => None
      | S fuel =>
          let '(remaining, ready) := foldl release (delete name remaining, ready) (opt_or (dependents !! name) []) in
          cycle_loop fuel dependents remaining ready
      end
  end.

Definition initially_ready (remaining : jmap string (option Z)) : list string :=
  reverse (omap (fun e : string * option Z => if bool_decide (e.2 = Some 0) then Some e.1 else None)
             (jm_entries remaining)).

Definition cycleSteps (steps : list StepSchema) : option (list string) :=
  let remaining := remaining_counts steps in
  remaining ← cycle_loop (length steps) (known_dependents steps) remaining (initially_ready remaining);
  Some (jsort string_cmp (jm_keys remaining)).

(** ** The activity registry *)
Record ActivityContext : Type := mkActivityContext {
  ac_input : json;
  ac_prev : json;
  ac_deps : list (string * json);
  ac_workflowId : string;
  ac_attempt : Z;
}.

Section compiler.
Context {W Rest IdempotencyConfig : Type} `{StepStore W} (host : RunnerHost W).
Variable LosslessJsonCodec : Codec.
Variable codecArray : Codec -> Codec.
Variable rh_elements : option Z -> list Z -> W -> list Z.

(** An activity answers an effect, or throws before it does. *)
Definition ActivityFn : Type := ActivityContext -> W -> res thrown (Eff W json) * W.
Definition ActivityFactory : Type := option (list (string * json)) -> res thrown ActivityFn.

Record ActivityRegistry : Type := mkRegistry {
  ar_resolve : string -> option (list (string * json)) -> res thrown ActivityFn;
  ar_has : string -> bool;
  ar_list : list string;
}.

(** *** [MapActivityRegistry] *)
Definition newMapActivityRegistry (activities : list (string * ActivityFactory)) : jmap string ActivityFactory :=
  foldl (fun m e => <[e.1 := e.2]> m) ∅ activities.

Definition resolve (activities : jmap string ActivityFactory) (ref : string)
    (config : option (list (string * json))) : res thrown ActivityFn :=
  match activities !! ref with
  | None =>
      Err (plain_error ("Activity " +:+ quoted ref +:+ " not found in registry. Available: " +:+
                        String.concat ", " (jm_keys activities)))
  | Some factory => factory config
  end.

Definition has (activities : jmap string ActivityFactory) (ref : string) : bool :=
  bool_decide (is_Some (activities !! ref)).

Definition list_ (activities : jmap string ActivityFactory) : list string := jm_keys activities.

Definition register (ref : string) (factory : ActivityFactory) (activities : jmap string ActivityFactory)
    : jmap string ActivityFactory := <[ref := factory]> activities.

Definition MapActivityRegistry (activities : jmap string ActivityFactory) : ActivityRegistry :=
  mkRegistry (resolve activities) (has activities) (list_ activities).

(** ** [validateDag] *)
Variable registry : ActivityRegistry.

Fixpoint duplicate_issues (seen : list string) (steps : list StepSchema) : list string :=
  match steps with
  | [] => []
  | s :: steps =>
      let name := schema_name s in
      (if bool_decide (name ∈ seen) then ["Duplicate step name: " +:+ quoted name] else []) ++
      duplicate_issues (name :: seen) steps
  end.

Definition ref_issues (s : StepSchema) : list string :=
  omap (fun e : string * string =>
    if ar_has registry e.2 then None
    else Some (e.1 +:+ " references unknown activity " +:+ quoted e.2 +:+ ". Available: " +:+
               String.concat ", " (ar_list registry)))
    (stepActivityRefs s).

Definition branch_issues (s : StepSchema) : list string :=
  match s with
  | ParallelStepSchema name _ [] _ => ["Parallel step " +:+ quoted name +:+ " requires at least one branch"]
  | _ => []
  end.

Definition dep_issues (names : list string) (s : StepSchema) : list string :=
  omap (fun dep =>
    if bool_decide (dep ∈ names) then None
    else Some ("Step " +:+ quoted (schema_name s) +:+ " depends on " +:+ quoted dep +:+ " which does not exist"))
    (stepDependsOn s).

Definition source_issues (names : list string) (s : StepSchema) : list string :=
  match s with
  | MapStepSchema name arrayFrom _ _ =>
      if bool_decide (arrayFrom ∈ names) then []
      else ["Map step " +:+ quoted name +:+ " references arrayFrom " +:+ quoted arrayFrom +:+ " which does not exist"]
  | _ => []
  end.

Definition step_issues (names : list string) (s : StepSchema) : list string :=
  ref_issues s ++ branch_issues s ++ dep_issues names s ++ source_issues names s.

Definition validateDag (schema : WorkflowSchema) : option (list string) :=
  let steps := wsc_steps schema in
  cycle ← cycleSteps steps;
  Some (duplicate_issues [] steps ++ (steps ≫= step_issues (schema_names steps)) ++
        match cycle with
        | [] => []
        | _ => ["Dependency cycle between steps: " +:+ String.concat ", " (quoted <$> cycle)]
        end).

(** ** Step compilers *)
(** [compileStepOptions]: the defaults of a schema are its own. *)
Definition compileStepOptions (options : option StepSchemaOptions) : option (StepOptions W) :=
  match options with
  | None => None
  | Some o =>
      Some (mkOptions None (sso_timeoutMs o)
        ((fun r => mkPolicy (Some (opt_or (sr_maxRetries r) 3)) (Some (opt_or (sr_baseDelayMs r) 1000))
                     None false None None) <$> sso_retry o)
        None None None None None)
  end.

(** [toActivityContext]: an absent [prev], that of a DAG step, is the one
    dependency, the input when there is none, or all of them. *)
Definition toActivityContext (input prev : json) (deps : option (list (string * json))) (workflowId : string)
    (attempt : Z) : ActivityContext :=
  let deps := opt_or deps [] in
  mkActivityContext input
    (match prev with
     | JUndef => match deps with [] => input | [(_, v)] => v | _ => JObj deps end
     | _ => prev
     end) deps workflowId attempt.

Definition linear_activity_context (ctx : StepContext) : ActivityContext :=
  toActivityContext (sc_input ctx) (sc_prev ctx) None (sc_workflowId ctx) (sc_attempt ctx).

Definition dag_activity_context (ctx : DagStepContext) : ActivityContext :=
  toActivityContext (dsc_input ctx) JUndef (Some (dsc_deps ctx)) (dsc_workflowId ctx) (dsc_attempt ctx).

Definition element_activity_context (element : json) (ctx : MapStepContext) : ActivityContext :=
  mkActivityContext (mpc_input ctx) element [] (mpc_workflowId ctx) (mpc_attempt ctx).

(** A step function that answers the effect of an activity. *)
Definition activity_step {Ctx} (f : ActivityFn) (toCtx : Ctx -> ActivityContext) : StepFn Ctx W := fun ctx w =>
  let '(r, w) := f (toCtx ctx) w in
  (match r with Ok e => Ok (RetEff e) | Err e => Err e end, w).

Definition call_activity (f : ActivityFn) (ctx : ActivityContext) : Eff W json := fun w =>
  let '(r, w) := f ctx w in
  match r with Ok e => e w | Err e => (Dies e, w) end.

(** The condition activity, then the one it picks. *)
Definition branch_activity (condition ifTrue ifFalse : ActivityFn) : ActivityFn := fun ctx w =>
  let '(r, w) := condition ctx w in
  (match r with
   | Ok e => Ok (let$ passes := e in
                 call_activity (if bool_decide (passes = JBool true) then ifTrue else ifFalse) ctx)
   | Err e => Err e
   end, w).

Definition resolve_ref (a : ActivityRefSchema) : res thrown ActivityFn :=
  ar_resolve registry (ar_activityRef a) (ar_config a).

Fixpoint resolve_branches (branches : list (string * ActivityRefSchema))
    : res thrown (list (string * StepFn StepContext W)) :=
  match branches with
  | [] => Ok []
  | (label, a) :: branches =>
      match resolve_ref a with
      | Err e => Err e
      | Ok f =>
          match resolve_branches branches with
          | Ok rest => Ok ((label, activity_step f linear_activity_context) :: rest)
          | Err e => Err e
          end
      end
  end.

(** A call of a builder method after resolving, or what resolving threw. *)
Definition with_activity {A} (r : res thrown A) (k : A -> method) : method (W := W) (Rest := Rest) (IdempotencyConfig := IdempotencyConfig) := fun b h =>
  match r with Ok a => k a b h | Err e => Err e end.

Definition compileSingleStep (name : string) (deps : list string) (a : ActivityRefSchema)
    (options : option StepSchemaOptions) : method :=
  with_activity (resolve_ref a) (fun f =>
    match deps with
    | [] => linear_step host LosslessJsonCodec name (activity_step f linear_activity_context) (compileStepOptions options)
    | _ => dag_step host LosslessJsonCodec name deps (activity_step f dag_activity_context) (compileStepOptions options)
    end).

Definition compileMapStep (name arrayFrom : string) (a : ActivityRefSchema) (options : option MapStepSchemaOptions)
    : method :=
  with_activity (resolve_ref a) (fun f =>
    mapOver host LosslessJsonCodec codecArray rh_elements name arrayFrom (options ≫= mso_concurrency)
      (fun element => activity_step f (element_activity_context element))
      ((fun o => mkMapOptions o None) <$> compileStepOptions (mso_step <$> options))).

Definition compileBranchStep (name : string) (deps : list string) (conditionRef : string)
    (ifTrue ifFalse : ActivityRefSchema) (options : option StepSchemaOptions) : method :=
  with_activity (ar_resolve registry conditionRef None) (fun condition =>
  with_activity (resolve_ref ifTrue) (fun ifTrue =>
  with_activity (resolve_ref ifFalse) (fun ifFalse =>
    dag_step host LosslessJsonCodec name deps
      (activity_step (branch_activity condition ifTrue ifFalse) dag_activity_context) (compileStepOptions options)))).

Definition compileParallelStep (name : string) (deps : list string) (branches : list (string * ActivityRefSchema))
    (options : option StepSchemaOptions) : method :=
  with_activity (resolve_branches branches) (fun branches =>
    parallel host LosslessJsonCodec name (Some deps) branches
      ((fun o => mkParallelOptions None (so_timeoutMs o) (so_retry o) None []) <$> compileStepOptions options)).

Definition compileStep (s : StepSchema) : method :=
  match s with
  | SingleStepSchema name deps a options => compileSingleStep name deps a options
  | MapStepSchema name arrayFrom a options => compileMapStep name arrayFrom a options
  | SleepStepSchema name deps ms => sleep host LosslessJsonCodec name ms (Some deps)
  | SignalStepSchema name deps signalName timeoutMs =>
      waitForSignal host LosslessJsonCodec name signalName timeoutMs None (Some deps)
  | ApprovalStepSchema name deps signalName timeoutMs =>
      approval host LosslessJsonCodec name signalName timeoutMs None (Some deps)
  | BranchStepSchema name deps conditionRef ifTrue ifFalse options =>
      compileBranchStep name deps conditionRef ifTrue ifFalse options
  | ParallelStepSchema name deps branches options => compileParallelStep name deps branches options
  end.

(** ** [compileWorkflow] *)
Inductive CompileError : Type :=
| ZodError
| WorkflowCompilationError (issues : list string)
| CompileThrew (e : thrown)
| SortThrew (e : DagError).

Definition schema_node (s : StepSchema) : DagNode := mkNode (schema_name s) (stepDependsOn s).

(** [new Map(steps.map((s) => [s.name, s]))]. *)
Definition steps_by_name (steps : list StepSchema) : jmap string StepSchema :=
  foldl (fun m s => <[schema_name s := s]> m) ∅ steps.

Fixpoint compile_steps (byName : jmap string StepSchema) (sorted : list string) : method := fun b h =>
  match sorted with
  | [] => Ok (b, h)
  | stepName :: sorted =>
      match byName !! stepName with
      | None => Err (plain_error "step is undefined")
      | Some s =>
          match compileStep s b h with
          | Ok (b, h) => compile_steps byName sorted b h
          | Err e => Err e
          end
      end
  end.

(** [rest] is what [workflow({ ... })] passes on. *)
Definition compileWorkflow (schema : WorkflowSchema) (version : option string) (rest : Rest)
    (h : list (StepCell (D := StepDefinition W)))
    : option (res CompileError (Workflow (W := W) (Rest := Rest) (IdempotencyConfig := IdempotencyConfig))) :=
  if negb (WorkflowSchemaZ schema) then Some (Err ZodError)
  else
    issues ← validateDag schema;
    match issues with
    | _ :: _ => Some (Err (WorkflowCompilationError issues))
    | [] =>
        sorted ← topologicalSort (schema_node <$> wsc_steps schema);
        match sorted with
        | Err e => Some (Err (SortThrew e))
        | Ok sorted =>
            Some match workflow host (mkParams (wsc_name schema) version None None None rest) h with
                 | Err e => Err (CompileThrew e)
                 | Ok (b, h) =>
                     match compile_steps (steps_by_name (wsc_steps schema)) sorted b h with
                     | Err e => Err (CompileThrew e)
                     | Ok (b, h) => Ok (build None b h)
                     end
                 end
        end
    end.
End compiler.
