(* ===== verification/CycleLaws.v ===== *)
(** The cycle check of the compiler: [cycleSteps] of
    [durable/workflow-compiler.ts] takes the steps that can run one after the
    other, and what is left is exactly what can never run. *)
From S2P Require Import Prelude Dag Compiler.
Open Scope string_scope.
Open Scope list_scope.
Open Scope Z_scope.

(** ** The maps *)
Section known.
Context (names : list string).

Lemma depends_known name m dep x :
  depends (add_known_dependent names name m dep) x =
  depends m x ++ (if decide (dep = x /\ dep ∈ names) then [name] else []).
Proof.
  unfold add_known_dependent. case_bool_decide as Hd.
  - unfold depends at 1. rewrite jlookup_insert. destruct (decide (dep = x)) as [->|Hne].
    + by rewrite decide_True.
    + rewrite decide_False by tauto. by rewrite app_nil_r.
  - rewrite decide_False by tauto. by rewrite app_nil_r.
Qed.

Lemma depends_known_all name deps m x y : x ∈ names ->
  occ y (depends (foldl (add_known_dependent names name) m deps) x) =
    occ y (depends m x) + (if decide (name = y) then occ x deps else 0).
Proof.
  intros Hx. revert m. induction deps as [|d deps IH]; intros m; cbn [foldl]; [rewrite occ_nil; case_decide; lia|].
  rewrite IH, depends_known, occ_app, occ_cons.
  destruct (decide (d = x)) as [->|Hd].
  - rewrite (decide_True (P := x = x /\ _)) by done. rewrite occ_cons, occ_nil.
    rewrite (decide_True (P := x = x)) by done. repeat case_decide; congruence || lia.
  - rewrite (decide_False (P := d = x /\ _)) by tauto. rewrite occ_nil.
    rewrite (decide_False (P := x = d)) by congruence. repeat case_decide; lia.
Qed.
End known.

Lemma known_dependents_occ steps x y : x ∈ schema_names steps ->
  occ y (depends (known_dependents steps) x) = edges (schema_node <$> steps) x y.
Proof.
  intros Hx. unfold known_dependents. revert Hx. generalize (schema_names steps). intros names Hx.
  enough (forall m, occ y (depends (foldl (fun m s => foldl (add_known_dependent names (schema_name s)) m
    (stepDependsOn s)) m steps) x) = occ y (depends m x) + edges (schema_node <$> steps) x y) as Hg.
  { rewrite Hg. change (depends ∅ x) with (@nil string). rewrite occ_nil. lia. }
  induction steps as [|s steps IH]; intros m; cbn [foldl edges fmap list_fmap]; [lia|].
  rewrite IH, depends_known_all by done. cbn [dn_name dependsOn schema_node]. lia.
Qed.

Lemma node_names_of steps : dn_name <$> (schema_node <$> steps) = schema_names steps.
Proof. by rewrite <- list_fmap_compose. Qed.

(** The dependents of a step are steps. *)
Lemma known_dependents_names steps x y : x ∈ schema_names steps ->
  y ∈ depends (known_dependents steps) x -> y ∈ schema_names steps.
Proof.
  intros Hx Hy%occ_pos. rewrite known_dependents_occ in Hy by done. apply dec_stable. intros Hn.
  rewrite edges_absent in Hy; [lia|]. by rewrite node_names_of.
Qed.

(** ** Termination *)
(** The names that entered the stack once, each with its count spent. *)
Definition spent (remaining : jmap string (option Z)) (x : string) : Prop :=
  match remaining !! x with Some (Some v) => v <= 0 | _ => True end.

Record stacked (names : list string) (remaining : jmap string (option Z)) (q : list string) : Prop := {
  sk_nodup : NoDup q;
  sk_names : forall x, x ∈ q -> x ∈ names;
  sk_spent : forall x, x ∈ q -> spent remaining x;
}.

Lemma spent_insert m next x :
  spent m x -> spent (<[next := (fun v => v - 1) <$> mjoin (M := option) (m !! next)]> m) x.
Proof.
  unfold spent. rewrite jlookup_insert. case_decide as Hx; [|done]. rewrite <- Hx.
  destruct (m !! next) as [[v|]|]; cbn; [lia|done|done].
Qed.

Lemma release_stacked names s D m q :
  (forall x, x ∈ D -> x ∈ names) -> stacked names m (s ++ q) ->
  let '(m', q') := foldl release (m, q) D in stacked names m' (s ++ q').
Proof.
  revert m q. induction D as [|d D IH]; intros m q HD Hq; cbn [foldl]; [done|].
  apply IH; [intros x Hx; by apply HD, list_elem_of_further|].
  assert (d ∈ names) as Hd by apply HD, list_elem_of_here. destruct Hq as [Hnd Hnm Hsp].
  set (n := (fun v => v - 1) <$> mjoin (M := option) (m !! d)). case_bool_decide as Hn.
  - assert (d ∉ s ++ q) as Hni.
    { intros Hin%Hsp. unfold spent in Hin. subst n. destruct (m !! d) as [[v|]|]; cbn in Hn; try done.
      injection Hn as Hn. lia. }
    assert (s ++ d :: q ≡ₚ d :: s ++ q) as Hp by (by rewrite Permutation_middle). split.
    + rewrite Hp. by apply NoDup_cons.
    + intros x. rewrite Hp. intros [->|Hx]%elem_of_cons; [done|by apply Hnm].
    + intros x. rewrite Hp. intros [->|Hx]%elem_of_cons; [|by apply spent_insert, Hsp].
      unfold spent. rewrite jlookup_insert_eq, Hn. done.
  - split; [done|done|]. intros x Hx. by apply spent_insert, Hsp.
Qed.

Lemma stacked_length names m q : stacked names m q -> (length q <= length names)%nat.
Proof. intros [Hnd Hnm _]. by apply submseteq_length, NoDup_submseteq. Qed.

Lemma cycle_loop_total steps fuel m q s :
  stacked (schema_names steps) m (s ++ q) -> (length steps <= fuel + length s)%nat ->
  is_Some (cycle_loop fuel (known_dependents steps) m q).
Proof.
  revert m q s. induction fuel as [|fuel IH]; intros m [|x q] s Hq Hf; cbn [cycle_loop]; try by eexists.
  - apply stacked_length in Hq. unfold schema_names in Hq. rewrite length_app, length_fmap in Hq. cbn in Hq. lia.
  - assert (x ∈ schema_names steps) as Hx.
    { apply (sk_names _ _ _ Hq). apply elem_of_app. right. left. }
    replace (s ++ x :: q) with ((s ++ [x]) ++ q) in Hq by (by rewrite <- app_assoc).
    assert (stacked (schema_names steps) (delete x m) ((s ++ [x]) ++ q)) as Hq'.
    { destruct Hq as [Hnd Hnm Hsp]. split; [done|done|]. intros y Hy%Hsp. unfold spent in *.
      rewrite jlookup_delete. by case_decide. }
    pose proof (release_stacked (schema_names steps) (s ++ [x]) (depends (known_dependents steps) x) (delete x m) q) as Hr.
    unfold depends in Hr at 2. destruct (foldl release (delete x m, q) _) as [m' q']. apply IH with (s ++ [x]).
    + apply Hr; [|done]. intros y. by apply known_dependents_names.
    + rewrite length_app. cbn. lia.
Qed.

Lemma by_name_spec {A} (f : StepSchema -> A) steps :
  let m := foldl (fun m s => <[schema_name s := f s]> m) (∅ : jmap string A) steps in
  jm_wf m /\ forall x v, m !! x = Some v -> exists s, s ∈ steps /\ schema_name s = x /\ v = f s.
Proof.
  induction steps as [|s steps [Hwf IH]] using rev_ind; [by split; [apply jm_wf_empty|]|].
  rewrite foldl_app. cbn [foldl]. split; [by apply jm_wf_insert|]. intros x v. rewrite jlookup_insert.
  case_decide as Hx.
  - intros [= <-]. exists s. split; [|done]. apply elem_of_app. right. left.
  - intros (s' & Hs' & Hx')%IH. exists s'. split; [|done]. apply elem_of_app. by left.
Qed.

(** Distinct names: each finds its own step. *)
Lemma by_name_lookup {A} (f : StepSchema -> A) steps s : NoDup (schema_names steps) -> s ∈ steps ->
  foldl (fun m s => <[schema_name s := f s]> m) (∅ : jmap string A) steps !! schema_name s = Some (f s).
Proof.
  induction steps as [|s' steps IH] using rev_ind; [by intros _ ?%not_elem_of_nil|].
  unfold schema_names. rewrite fmap_app. intros (Hl & Hd & _)%NoDup_app. rewrite foldl_app. cbn [foldl].
  intros [Hs | ->%list_elem_of_singleton]%elem_of_app; [|by rewrite jlookup_insert_eq].
  rewrite jlookup_insert_ne; [by apply IH|]. intros Heq. apply (Hd (schema_name s)).
  - by apply list_elem_of_fmap_2.
  - rewrite <- Heq. left.
Qed.

(** The dependencies that are steps. *)
Definition known_deps (steps : list StepSchema) (s : StepSchema) : list string :=
  base.filter (fun d => d ∈ schema_names steps) (stepDependsOn s).

Lemma remaining_counts_spec steps :
  jm_wf (remaining_counts steps) /\
  forall x v, remaining_counts steps !! x = Some v -> x ∈ schema_names steps.
Proof.
  destruct (by_name_spec (fun s => Some (Z.of_nat (length (known_deps steps s)))) steps) as [Hwf Hs].
  split; [exact Hwf|]. intros x v (s & Hs' & <- & _)%Hs. by apply list_elem_of_fmap_2.
Qed.

Lemma elem_of_ready m x : jm_wf m -> x ∈ initially_ready m <-> m !! x = Some (Some 0).
Proof.
  intros Hwf. unfold initially_ready. rewrite elem_of_reverse, list_elem_of_omap. split.
  - intros ([y v] & He & Hx). cbn in Hx. case_bool_decide as Hv; [|done]. injection Hx as <-. subst v.
    by apply jlookup_wf_elem in He.
  - intros Hx%jlookup_elem. exists (x, Some 0). split; [done|]. cbn. by rewrite bool_decide_true.
Qed.

Lemma ready_NoDup m : jm_wf m -> NoDup (initially_ready m).
Proof.
  intros Hwf. unfold initially_ready. rewrite reverse_Permutation. eapply sublist_NoDup; [exact Hwf|]. unfold jm_keys.
  induction (jm_entries m) as [|[k v] l IH]; cbn; [done|]. case_bool_decide; by constructor.
Qed.

Lemma initially_stacked steps :
  stacked (schema_names steps) (remaining_counts steps) (initially_ready (remaining_counts steps)).
Proof.
  destruct (remaining_counts_spec steps) as [Hwf Hs]. split; [by apply ready_NoDup| |].
  - intros x Hx%(elem_of_ready _ _ Hwf). by eapply Hs.
  - intros x Hx%(elem_of_ready _ _ Hwf). unfold spent. by rewrite Hx.
Qed.

(** The check ends on every list of steps, also when names repeat. *)
Lemma cycleSteps_ends steps : is_Some (cycleSteps steps).
Proof.
  unfold cycleSteps.
  destruct (cycle_loop_total steps (length steps) (remaining_counts steps)
    (initially_ready (remaining_counts steps)) []) as [m ->]; [apply initially_stacked|cbn; lia|by eexists].
Qed.

(** It keeps one count per name. *)
Lemma release_wf D m q : jm_wf m -> jm_wf (foldl release (m, q) D).1.
Proof. revert m q. induction D as [|d D IH]; intros m q Hm; [done|]. by apply IH, jm_wf_insert. Qed.

Lemma cycle_loop_wf fuel dependents m q m' :
  jm_wf m -> cycle_loop fuel dependents m q = Some m' -> jm_wf m'.
Proof.
  revert m q. induction fuel as [|fuel IH]; intros m [|x q] Hm; cbn [cycle_loop]; try (by intros [= <-]).
  pose proof (release_wf (opt_or (dependents !! x) []) (delete x m) q) as Hr.
  destruct (foldl release (delete x m, q) _) as [m1 q1]. apply IH, Hr. by apply jm_wf_delete.
Qed.

Lemma cycleSteps_sorted steps l :
  cycleSteps steps = Some l -> StronglySorted (fun a b => string_cmp a b < 0) l.
Proof.
  unfold cycleSteps. destruct (cycle_loop _ _ _ _) as [m|] eqn:Em; [|done]. intros [= <-].
  apply (sorted_strict id); [apply (jsort_sorted string_cmp)|]. rewrite list_fmap_id, jsort_perm.
  eapply cycle_loop_wf, Em. apply remaining_counts_spec.
Qed.

(** ** What is left *)
(** A step can run once the steps it depends on can; dependencies that are
    not steps do not count. *)
Inductive runnable (steps : list StepSchema) : string -> Prop :=
| runnable_step s : s ∈ steps ->
    (forall d, d ∈ known_deps steps s -> runnable steps d) -> runnable steps (schema_name s).

Definition less (k : Z) (v : option Z) : option Z := (fun v => v - k) <$> v.

(** Taking the dependents of one step: their counts fall by what they name
    it, and those that reach zero are pushed once. *)
Lemma release_spec D m q :
  (forall y, y ∈ D -> exists v, m !! y = Some (Some v) /\ occ y D <= v) ->
  exists m' new, foldl release (m, q) D = (m', new ++ q) /\
    (forall y, m' !! y = less (occ y D) <$> m !! y) /\
    NoDup new /\ (forall y, y ∈ new <-> y ∈ D /\ m !! y = Some (Some (occ y D))).
Proof.
  assert (forall v, less 0 v = v) as Hless0 by (intros [v|]; cbn; [by rewrite Z.sub_0_r|done]).
  revert m q. induction D as [|d D IH]; intros m q HD; cbn [foldl].
  { exists m, []. split; [done|]. split; [|split; [apply NoDup_nil_2|]].
    - intros y. rewrite occ_nil. destruct (m !! y); cbn; by rewrite ?Hless0.
    - intros y. split; [by intros ?%not_elem_of_nil|by intros [?%not_elem_of_nil _]]. }
  destruct (HD d) as (v & Hv & Hle); [left|]. rewrite occ_cons, decide_True in Hle by done.
  pose proof (occ_nonneg d D) as Hpos. set (m1 := <[d := Some (v - 1)]> m).
  set (q1 := if decide (v - 1 = 0) then d :: q else q).
  assert (release (m, q) d = (m1, q1)) as ->.
  { cbn. rewrite Hv. cbn. unfold q1. case_bool_decide; case_decide; done || congruence. }
  assert (forall y, m1 !! y = less (if decide (y = d) then 1 else 0) <$> m !! y) as Hm1.
  { intros y. unfold m1. rewrite jlookup_insert. destruct (decide (d = y)) as [<-|Hne].
    - by rewrite decide_True, Hv.
    - rewrite decide_False by congruence. destruct (m !! y); cbn; by rewrite ?Hless0. }
  destruct (IH m1 q1) as (m' & new & -> & Hm' & Hnd & Hnew).
  { intros y Hy. destruct (HD y) as (u & Hu & Hle'); [by right|]. rewrite Hm1, Hu. cbn.
    rewrite occ_cons in Hle'. eexists. split; [done|]. lia. }
  assert (forall y, m' !! y = less (occ y (d :: D)) <$> m !! y) as Hfin.
  { intros y. rewrite Hm', Hm1, occ_cons. destruct (m !! y) as [[u|]|]; cbn; [|done..]. do 2 f_equal. lia. }
  exists m', (new ++ if decide (v - 1 = 0) then [d] else []). unfold q1. split.
  { rewrite <- app_assoc. by case_decide. }
  split; [exact Hfin|]. destruct (decide (v - 1 = 0)) as [Hz|Hz].
  - assert (d ∉ D) as HdD by (intros H%occ_pos; lia). split.
    + apply NoDup_app. split; [done|]. split; [|apply NoDup_singleton].
      intros y Hy ->%list_elem_of_singleton. by apply Hnew in Hy as [? _].
    + intros y. rewrite elem_of_app, list_elem_of_singleton, Hnew, elem_of_cons, Hm1, occ_cons.
      destruct (decide (y = d)) as [->|Hne].
      * rewrite Hv, (occ_zero d D HdD). split; [intros _; split; [by left|]|by right]. do 2 f_equal. lia.
      * destruct (m !! y); cbn; rewrite ?Hless0; tauto.
  - rewrite app_nil_r. split; [done|]. intros y. rewrite Hnew, elem_of_cons, Hm1, occ_cons.
    destruct (decide (y = d)) as [->|Hne].
    + rewrite Hv. cbn. split.
      * intros [? [= Hd]]. split; [by left|]. do 2 f_equal. lia.
      * intros [_ [= Hd]]. split; [apply occ_pos; lia|do 2 f_equal; lia].
    + destruct (m !! y); cbn; rewrite ?Hless0; tauto.
Qed.

Section exact.
Context (steps : list StepSchema) (Hnames : NoDup (schema_names steps)).

Lemma step_by_name x : x ∈ schema_names steps -> exists s, s ∈ steps /\ schema_name s = x.
Proof. intros (s & -> & Hs)%list_elem_of_fmap. by exists s. Qed.

Lemma same_step s s' : s ∈ steps -> s' ∈ steps -> schema_name s = schema_name s' -> s = s'.
Proof using Hnames.
  intros Hs Hs' Heq. pose proof (by_name_lookup (fun s => s) steps s Hnames Hs) as E.
  rewrite Heq, (by_name_lookup (fun s => s) steps s' Hnames Hs') in E. congruence.
Qed.

Lemma dependent_count s x : s ∈ steps -> x ∈ schema_names steps ->
  occ (schema_name s) (depends (known_dependents steps) x) = occ x (known_deps steps s).
Proof using Hnames.
  intros Hs Hx. rewrite known_dependents_occ by done.
  change (schema_name s) with (dn_name (schema_node s)). rewrite edges_node.
  - cbn. unfold known_deps. clear -Hx. induction (stepDependsOn s) as [|d l IH]; [done|].
    rewrite filter_cons, occ_cons.
    destruct (decide (d ∈ schema_names steps)) as [Hd|Hd]; [by rewrite occ_cons, IH|].
    rewrite decide_False, IH; [lia|]. by intros ->.
  - by rewrite node_names_of.
  - by apply list_elem_of_fmap_2.
Qed.

Record cycle_inv (m : jmap string (option Z)) (q s : list string) : Prop := {
  ci_nodup : NoDup (s ++ q);
  ci_names : forall x, x ∈ s ++ q -> x ∈ schema_names steps;
  (** a count is that of the dependencies not taken yet *)
  ci_count : forall n, n ∈ steps -> m !! schema_name n =
    if decide (schema_name n ∈ s) then None else Some (Some (outside s (known_deps steps n)));
  ci_other : forall x, (x ∉ schema_names steps) -> m !! x = None;
  ci_zero : forall n, n ∈ steps -> schema_name n ∈ s ++ q <-> outside s (known_deps steps n) = 0;
  ci_run : forall x, x ∈ s -> runnable steps x;
}.

Lemma cycle_step m x q s : cycle_inv m (x :: q) s ->
  let '(m', q') := foldl release (delete x m, q) (depends (known_dependents steps) x) in
  cycle_inv m' q' (s ++ [x]).
Proof using Hnames.
  intros [Hnd Hnm Hcount Hoth Hz Hrun].
  assert (x ∉ s) as Hxs.
  { apply NoDup_app in Hnd as (_ & Hd & _). intros Hin. apply (Hd x Hin). left. }
  assert (x ∈ schema_names steps) as Hxn by (apply Hnm, elem_of_app; right; left).
  assert (forall n, n ∈ steps -> occ x (known_deps steps n) <= outside s (known_deps steps n)) as Hle.
  { intros n _. by apply occ_outside. }
  assert (forall n, n ∈ steps -> 0 < occ x (known_deps steps n) -> schema_name n ∉ s ++ x :: q) as Hout.
  { intros n Hn Hpos Hin. apply Hz in Hin; [|done]. specialize (Hle n Hn). lia. }
  set (D := depends (known_dependents steps) x).
  assert (forall y, y ∈ D -> exists n, n ∈ steps /\ schema_name n = y /\ 0 < occ x (known_deps steps n)) as HD.
  { intros y Hy. destruct (step_by_name y) as (n & Hn & <-); [by eapply known_dependents_names|].
    exists n. split; [done|]. split; [done|]. rewrite <- dependent_count by done. by apply occ_pos. }
  destruct (release_spec D (delete x m) q) as (m' & new & -> & Hm' & Hndn & Hnew).
  { intros y Hy. destruct (HD y Hy) as (n & Hn & <- & Hpos). pose proof (Hout n Hn Hpos) as Hni.
    rewrite jlookup_delete_ne by (intros ->; apply Hni, elem_of_app; right; left).
    rewrite Hcount, decide_False by (try done; intros ?; apply Hni, elem_of_app; by left).
    eexists. split; [done|]. unfold D. rewrite dependent_count by done. by apply Hle. }
  assert (forall n, n ∈ steps -> outside (s ++ [x]) (known_deps steps n) =
    outside s (known_deps steps n) - occ (schema_name n) D) as Hstep.
  { intros n Hn. unfold D. by rewrite outside_add, dependent_count. }
  assert ((s ++ [x]) ++ new ++ q ≡ₚ new ++ s ++ x :: q) as Hp.
  { replace (s ++ x :: q) with ((s ++ [x]) ++ q) by (by rewrite <- app_assoc). apply Permutation_app_swap_app. }
  assert (forall y, y ∈ new -> y ∈ D /\ (y ∉ s ++ x :: q)) as Hfresh.
  { intros y [Hy _]%Hnew. split; [done|]. destruct (HD y Hy) as (n & Hn & <- & Hpos). by apply Hout. }
  split.
  - rewrite Hp. apply NoDup_app. split; [done|]. split; [|done]. intros y Hy Hin. by apply Hfresh in Hy as [_ ?].
  - intros y. rewrite Hp. intros [Hy|Hy]%elem_of_app; [|by apply Hnm]. apply Hfresh in Hy as [Hy _].
    destruct (HD y Hy) as (n & Hn & <- & _). by apply list_elem_of_fmap_2.
  - intros n Hn. rewrite Hm', jlookup_delete, Hcount, Hstep by done.
    destruct (decide (x = schema_name n)) as [Hx|Hx].
    { rewrite decide_True; [done|]. apply elem_of_app. right. rewrite Hx. left. }
    destruct (decide (schema_name n ∈ s)) as [Hs|Hs].
    { rewrite decide_True; [done|]. apply elem_of_app. by left. }
    rewrite decide_False; [done|]. intros [?|?%list_elem_of_singleton]%elem_of_app; congruence.
  - intros y Hy. rewrite Hm', jlookup_delete, Hoth by done. by case_decide.
  - intros n Hn. rewrite Hp, elem_of_app, Hz, Hstep by done. split.
    + intros [Hy|H0].
      * apply Hnew in Hy as [Hy Hlk]. pose proof (Hfresh (schema_name n)) as Hf.
        rewrite jlookup_delete_ne, Hcount, decide_False in Hlk; [injection Hlk as Hlk; lia|..]; try done.
        -- intros ?. destruct (HD _ Hy) as (n' & Hn' & E & Hpos). apply (Hout n' Hn' Hpos). rewrite E, elem_of_app. by left.
        -- intros ->. destruct (HD _ Hy) as (n' & Hn' & E & Hpos). apply (Hout n' Hn' Hpos). rewrite E, elem_of_app. right. left.
      * pose proof (occ_nonneg (schema_name n) D). assert (occ (schema_name n) D <= 0); [|lia]. unfold D.
        rewrite dependent_count by done. specialize (Hle n Hn). lia.
    + intros H0. destruct (decide (outside s (known_deps steps n) = 0)) as [?|Hne]; [by right|]. left.
      apply Hnew. assert (schema_name n ∉ s ++ x :: q) as Hni by (by rewrite Hz). pose proof (occ_nonneg (schema_name n) D).
      split; [apply occ_pos; lia|].
      rewrite jlookup_delete_ne by (intros ->; apply Hni, elem_of_app; right; left).
      rewrite Hcount, decide_False by (try done; intros ?; apply Hni, elem_of_app; by left). do 2 f_equal. lia.
  - intros y [Hy | ->%list_elem_of_singleton]%elem_of_app; [by apply Hrun|].
    destruct (step_by_name x Hxn) as (n & Hn & <-). constructor; [done|]. intros d Hd. apply Hrun.
    revert d Hd. apply outside_zero. apply Hz; [done|]. apply elem_of_app. right. left.
Qed.

Lemma cycle_loop_inv fuel m q s m' :
  cycle_inv m q s -> cycle_loop fuel (known_dependents steps) m q = Some m' -> exists s', cycle_inv m' [] s'.
Proof using Hnames.
  revert m q s. induction fuel as [|fuel IH]; intros m [|x q] s Hi; cbn [cycle_loop];
    try (intros [= <-]; by exists s).
  pose proof (cycle_step m x q s Hi) as Hs. unfold depends in Hs.
  destruct (foldl release (delete x m, q) _) as [m1 q1]. by eapply IH.
Qed.

Lemma cycle_inv_initial : cycle_inv (remaining_counts steps) (initially_ready (remaining_counts steps)) [].
Proof using Hnames.
  destruct (initially_stacked steps) as [Hnd Hnm _]. destruct (remaining_counts_spec steps) as [Hwf Hs].
  assert (forall n, n ∈ steps ->
    remaining_counts steps !! schema_name n = Some (Some (Z.of_nat (length (known_deps steps n))))) as Hcount.
  { intros n Hn. by apply (by_name_lookup (fun s => Some (Z.of_nat (length (known_deps steps s))))). }
  split; cbn [app]; [done|done| | | |by intros x ?%not_elem_of_nil].
  - intros n Hn. rewrite decide_False by apply not_elem_of_nil. by rewrite Hcount, outside_nil.
  - intros x Hx. destruct (remaining_counts steps !! x) as [v|] eqn:Hv; [|done]. by apply Hs in Hv.
  - intros n Hn. rewrite elem_of_ready, Hcount, outside_nil by done. split; [by intros [= ->]|by intros ->].
Qed.

(** The names left are those that can never run. *)
Lemma cycle_inv_done m s x : cycle_inv m [] s -> x ∈ schema_names steps ->
  (x ∈ s <-> runnable steps x) /\ (x ∈ jm_keys m <-> x ∉ s).
Proof using Hnames.
  intros [Hnd Hnm Hcount Hoth Hz Hrun] Hx. rewrite app_nil_r in *. rewrite jlookup_Some_key. split.
  - split; [apply Hrun|]. induction 1 as [n Hn _ IH]. apply Hz; [done|]. apply outside_zero. intros d Hd.
    apply IH; [done|]. by apply list_elem_of_filter in Hd as [? _].
  - destruct (step_by_name x Hx) as (n & Hn & <-). rewrite Hcount by done. by case_decide.
Qed.

(** What the check answers, of distinctly named steps. *)
Definition cycle_answer (l : list string) : Prop :=
  forall x, (x ∈ l -> x ∈ schema_names steps /\ ~ runnable steps x) /\
            (x ∈ schema_names steps -> x ∉ l -> runnable steps x).

Lemma cycle_exact : exists l, cycleSteps steps = Some l /\ cycle_answer l.
Proof using Hnames.
  destruct (cycleSteps_ends steps) as [l Hl]. exists l. split; [done|]. unfold cycleSteps in Hl.
  destruct (cycle_loop _ _ _ _) as [m|] eqn:Em; [|done]. injection Hl as <-.
  destruct (cycle_loop_inv _ _ _ _ _ cycle_inv_initial Em) as [s Hs]. intros x. rewrite jsort_perm. split.
  - intros Hx. assert (x ∈ schema_names steps) as Hxn.
    { apply jlookup_Some_key in Hx. apply dec_stable. intros Hn. apply Hx, (ci_other _ _ _ Hs), Hn. }
    split; [done|]. destruct (cycle_inv_done m s x Hs Hxn) as [Hr Hk]. rewrite <- Hr. by apply Hk.
  - intros Hxn Hx. destruct (cycle_inv_done m s x Hs Hxn) as [Hr Hk]. apply Hr, dec_stable. by rewrite <- Hk.
Qed.
End exact.

(** C19. The cycle check ends on every schema. Of distinctly named steps it is
    exact: it reports, in order and once each, precisely the steps that can
    never run - of which a dependency cannot, because it lies on a cycle or
    downstream of one - and so none when the graph has no cycle. Of steps that
    share a name it may report more ([duplicate_is_a_cycle]); such a schema is
    refused for the name in any case. *)
Theorem cycleSteps_exact steps :
  exists l, cycleSteps steps = Some l /\ StronglySorted (fun a b => string_cmp a b < 0) l /\
    (NoDup (schema_names steps) ->
       cycle_answer steps l /\
       (l = [] <-> forall x, x ∈ schema_names steps -> runnable steps x)).
Proof.
  destruct (cycleSteps_ends steps) as [l Hl]. exists l. split; [done|].
  split; [by apply (cycleSteps_sorted steps)|]. intros Hnd.
  destruct (cycle_exact steps Hnd) as (l' & Hl' & Ha). assert (l' = l) as -> by congruence. split; [done|]. split.
  - intros -> x Hx. apply Ha; [done|apply not_elem_of_nil].
  - intros Hr. destruct l as [|x l]; [done|]. exfalso. destruct (Ha x) as [[Hx Hn] _]; [left|]. by apply Hn, Hr.
Qed.

Definition cyclic_steps : list StepSchema :=
  [SleepStepSchema "root" [] 5; SleepStepSchema "a" ["root"; "b"] 5; SleepStepSchema "b" ["a"; "a"] 5;
   SleepStepSchema "after" ["root"; "a"] 5; SleepStepSchema "free" ["root"; "nowhere"] 5].

Example cyclic_left : cycleSteps cyclic_steps = Some ["a"; "after"; "b"].
Proof. vm_compute. reflexivity. Qed.

Lemma cycleSteps_exact_witness :
  exists l, cycleSteps cyclic_steps = Some l /\ cycle_answer cyclic_steps l.
Proof.
  destruct (cycleSteps_exact cyclic_steps) as (l & Hl & _ & Ha). exists l. split; [exact Hl|]. apply Ha.
  by apply (bool_decide_unpack _).
Defined.

(** Of steps of one name, the later one decides the count, and a name that is
    decided before its other step names it is reported as a cycle. *)
Example duplicate_is_a_cycle :
  cycleSteps [SleepStepSchema "a" [] 5; SleepStepSchema "b" ["a"] 5; SleepStepSchema "b" [] 5] = Some ["b"].
Proof. vm_compute. reflexivity. Qed.
