(* ===== verification/CompilerLaws.v ===== *)
(** What a compiled workflow is: [compileWorkflow] of
    [durable/workflow-compiler.ts] on the builder of [Builder]. *)
From Stdlib Require Import QArith.
From S2P Require Import Prelude Leases Json Journal RunState Storage Exits Retry Replay Dag StepBody Checkpoint Waves WaveLaws WaveLoop MachineStorage Steps StoreSteps MapLaws BuilderState Builder Compiler CycleLaws.
Open Scope string_scope.
Open Scope list_scope.
Open Scope Z_scope.

(** ** Graphs that sort *)
Lemma runnable_not_trapped steps (rem : list string) : NoDup (schema_names steps) ->
  (forall x, x ∈ rem -> exists n, n ∈ (schema_node <$> steps) /\ dn_name n = x /\ exists d, d ∈ dependsOn n /\ d ∈ rem) ->
  (forall x, x ∈ rem -> x ∈ schema_names steps) ->
  forall x, runnable steps x -> x ∉ rem.
Proof.
  intros Hnd Htrap Hnames x. induction 1 as [s Hs _ IH]. intros Hin.
  destruct (Htrap _ Hin) as (n & (s' & -> & Hs')%list_elem_of_fmap & Hn & d & Hd & Hdr).
  assert (s = s') as <- by (by apply (same_step steps)).
  apply (IH d); [|done]. apply list_elem_of_filter. split; [by apply Hnames|done].
Qed.

(** A schema the checks accept sorts. *)
Lemma acyclic_sorts steps : NoDup (schema_names steps) ->
  (forall s d, s ∈ steps -> d ∈ stepDependsOn s -> d ∈ schema_names steps) -> cycleSteps steps = Some [] ->
  exists l, topologicalSort (schema_node <$> steps) = Some (Ok l) /\ l ≡ₚ schema_names steps /\
    ordered (schema_node <$> steps) l.
Proof.
  intros Hnd Hdeps Hc. assert (NoDup (dn_name <$> (schema_node <$> steps))) as Hnd' by (by rewrite node_names_of).
  pose proof (sort_post_holds _ Hnd') as Hp. destruct (topologicalSort _) as [[l|[s d|rem]]|]; [| | |done].
  - exists l. by rewrite <- node_names_of.
  - destruct Hp as (n & (s' & -> & Hs')%list_elem_of_fmap & _ & Hd & Hn). destruct Hn. rewrite node_names_of.
    by apply (Hdeps s').
  - exfalso. destruct Hp as (Hne & Htrap & _). destruct (cycle_exact steps Hnd) as (l & Hl & Hex).
    rewrite Hc in Hl. injection Hl as <-. destruct rem as [|x rem]; [done|].
    assert (forall y, y ∈ x :: rem -> y ∈ schema_names steps) as Hin.
    { intros y (n & Hn & <- & _)%Htrap. rewrite <- node_names_of. by apply list_elem_of_fmap_2. }
    assert (runnable steps x) as Hr by (apply Hex; [apply Hin; left|apply not_elem_of_nil]).
    by apply (runnable_not_trapped steps (x :: rem) Hnd Htrap Hin x Hr); left.
Qed.

(** An element of a list without repetition splits it in one way. *)
Lemma split_unique {A} (x : A) l1 l2 k1 k2 : NoDup (l1 ++ x :: l2) -> l1 ++ x :: l2 = k1 ++ x :: k2 -> l1 = k1.
Proof.
  intros Hnd E. assert (length l1 = length k1) as Hlen; [|by apply app_inj_1 in E as [? _]].
  apply (NoDup_lookup (l1 ++ x :: l2) _ _ x Hnd); [|rewrite E]; by apply list_lookup_middle.
Qed.

(** ** Chains of steps *)
Section chains.
Context {W Rest IdempotencyConfig : Type} `{StepStore W}.
Implicit Types (defs new : list (StepDefinition W)) (d : StepDefinition W).

(** Every step of [new] depends on steps of [defs] and earlier ones of [new]. *)
Definition follows defs new : Prop :=
  forall l1 d l2, new = l1 ++ d :: l2 -> forall dep, dep ∈ sd_dependsOn d -> dep ∈ sd_name <$> (defs ++ l1).

Lemma follows_nil defs : follows defs [].
Proof. intros [|? ?] d l2; discriminate. Qed.

Lemma follows_one defs d : (forall dep, dep ∈ sd_dependsOn d -> dep ∈ sd_name <$> defs) -> follows defs [d].
Proof.
  intros Hd [|? l1] d' l2 E; [|by destruct l1]. injection E as <- <-. rewrite app_nil_r. exact Hd.
Qed.

Lemma follows_app defs new new' : follows defs new -> follows (defs ++ new) new' -> follows defs (new ++ new').
Proof.
  intros H1 H2 l1 d l2 E dep Hdep. apply app_eq_inv in E as [(k & -> & E)|(k & -> & E)].
  - destruct k as [|d' k].
    + cbn in E. rewrite app_nil_r in *. specialize (H2 [] d l2 (eq_sym E) dep Hdep).
      by rewrite app_nil_r in H2.
    + injection E as <- ->. by apply (H1 l1 d k).
  - rewrite app_assoc. by apply (H2 k d l2).
Qed.

Lemma follows_same defs new (deps : list string) : (forall dep, dep ∈ deps -> dep ∈ sd_name <$> defs) ->
  (forall d, d ∈ new -> sd_dependsOn d = deps) -> follows defs new.
Proof.
  intros Hdeps Hnew l1 d l2 -> dep Hdep. rewrite fmap_app, elem_of_app. left. apply Hdeps.
  rewrite <- (Hnew d); [done|]. apply elem_of_app. right. left.
Qed.

(** Steps that follow each other have no cycle. *)
Lemma follows_sorts defs : NoDup (sd_name <$> defs) -> follows [] defs ->
  exists l, topologicalSort (node_of <$> defs) = Some (Ok l).
Proof.
  intros Hnd Hf. assert (dn_name <$> (node_of <$> defs) = sd_name <$> defs) as Hn by (by rewrite <- list_fmap_compose).
  assert (NoDup (dn_name <$> (node_of <$> defs))) as Hnd' by (by rewrite Hn).
  pose proof (sort_post_holds _ Hnd') as Hp. destruct (topologicalSort _) as [[l|[s dep|rem]]|]; [by exists l| | |done].
  - exfalso. destruct Hp as (n & (d & -> & Hd)%list_elem_of_fmap & _ & Hdep & Hni). apply Hni. rewrite Hn.
    apply list_elem_of_split in Hd as (l1 & l2 & ->). specialize (Hf l1 d l2 eq_refl dep Hdep). cbn in Hf.
    rewrite fmap_app, elem_of_app. by left.
  - exfalso. destruct Hp as (_ & _ & Hno). apply (Hno (sd_name <$> defs)); [by rewrite Hn|].
    intros l1 x l2 E n (d & -> & Hd)%list_elem_of_fmap <- dep Hdep. cbn [dn_name node_of dependsOn] in *.
    apply list_elem_of_split in Hd as (k1 & k2 & ->). rewrite fmap_app in E, Hnd. cbn in E, Hnd.
    specialize (Hf k1 d k2 eq_refl dep Hdep). cbn in Hf. assert (l1 = sd_name <$> k1) as ->; [|done].
    symmetry. by eapply split_unique.
Qed.

(** ** Builder values *)
Abbreviation builder := (WorkflowBuilder (Rest := Rest) (IdempotencyConfig := IdempotencyConfig)).
Abbreviation heap := (list (StepCell (D := StepDefinition W))).
Implicit Types (b : builder) (h : heap).

(** A builder that holds [defs], each after the steps it depends on. *)
Record chain b h defs : Prop := {
  ch_heap : heap_ok sd_name h;
  ch_seq : seq_ok h (b_steps b);
  ch_defs : stepsToArray h (b_steps b) = defs;
  ch_head : b_lastStepName b = sd_name <$> last defs;
  ch_follows : follows [] defs;
}.

Context (host : RunnerHost W).
Variable LosslessJsonCodec : Codec.

(** A linear step after [before]: it depends on the last of them. *)
Definition chained_to (before : list (StepDefinition W)) : list string :=
  match last before with
  | Some p => if bool_decide (sd_name p = "") then [] else [sd_name p]
  | None => []
  end.

Lemma linear_is_chained b h defs : chain b h defs -> linearDeps b = chained_to defs.
Proof. intros Hch. unfold linearDeps, chained_to. rewrite (ch_head _ _ _ Hch). by destruct (last defs). Qed.

Lemma chained_in before dep : dep ∈ chained_to before -> dep ∈ sd_name <$> before.
Proof.
  unfold chained_to. destruct (last before) as [p|] eqn:El; [|by intros ?%not_elem_of_nil].
  case_bool_decide; [by intros ?%not_elem_of_nil|]. intros ->%list_elem_of_singleton.
  by apply list_elem_of_fmap_2, last_Some_elem_of.
Qed.

Lemma append_spec_ok defs new l : append_spec (sd_name (W := W)) defs new = Ok l -> l = defs ++ new.
Proof. unfold append_spec. by destruct (duplicate_in _ _ _ _); intros [= <-]. Qed.

Lemma chain_append new b h defs b' h' : chain b h defs -> follows defs new -> new <> [] ->
  append host new b h = Ok (b', h') -> chain b' h' (defs ++ new).
Proof.
  intros Hch Hf Hne. unfold append. pose proof (appendSteps_spec sd_name h (b_steps b) new (ch_heap _ _ _ Hch) (ch_seq _ _ _ Hch)) as Hs.
  rewrite (ch_defs _ _ _ Hch) in Hs. destruct (appendSteps _ _ _ _) as [[s h1]|e]; [|done]. intros [= <- <-].
  destruct (append_spec _ _ _) as [l|e] eqn:El; [|done]. apply append_spec_ok in El as ->.
  destruct Hs as (Hh & Hs & Hd & _). split; cbn; [done|done|done| |].
  - rewrite last_app. destruct (last new) as [d|] eqn:Hl; [done|]. by apply last_None in Hl.
  - apply follows_app; [apply (ch_follows _ _ _ Hch)|done].
Qed.

(** An append is refused only for a name that is taken. *)
Lemma append_refused new b h defs e : chain b h defs -> append host new b h = Err e ->
  (exists x, x ∈ sd_name <$> new /\ x ∈ sd_name <$> defs) \/ ~ NoDup (sd_name <$> new).
Proof.
  intros Hch. unfold append. pose proof (appendSteps_spec sd_name h (b_steps b) new (ch_heap _ _ _ Hch) (ch_seq _ _ _ Hch)) as Hs.
  rewrite (ch_defs _ _ _ Hch) in Hs. destruct (appendSteps _ _ _ _) as [[s h1]|e']; [done|]. intros _.
  unfold append_spec in Hs. destruct (duplicate_in _ _ [] new) as [x|] eqn:Ed; [|done]. clear Hs e e' h Hch b.
  enough (forall batch, duplicate_in sd_name (fun name => bool_decide (name ∈ sd_name <$> defs)) batch new = Some x ->
    (exists x, x ∈ sd_name <$> new /\ x ∈ sd_name <$> defs) \/ ~ NoDup (batch ++ (sd_name <$> new))) as Hg by exact (Hg [] Ed).
  clear Ed. induction new as [|d new IH]; intros batch; cbn [duplicate_in]; [done|].
  case_bool_decide as Hb; cbn [orb].
  { intros _. right. cbn. intros (_ & Hd & _)%NoDup_app. apply (Hd _ Hb). left. }
  case_bool_decide as Ht; [intros _; left; exists (sd_name d); split; [left|done]|].
  intros [(y & Hy & Hyd)|Hn]%IH; [left; exists y; split; [by right|done]|]. right.
  by rewrite <- app_assoc in Hn.
Qed.

Lemma chain_names b h defs x : chain b h defs -> hasStep h (b_steps b) x = bool_decide (x ∈ sd_name <$> defs).
Proof.
  intros Hch. rewrite (hasStep_spec sd_name) by apply Hch. by rewrite (ch_defs _ _ _ Hch).
Qed.

(** A method that adds the steps that [make] builds. *)
Lemma chain_add_steps name make b h defs b' h' : chain b h defs ->
  (forall new, make b h = Ok new -> new <> [] /\ follows defs new) ->
  add_steps host name make b h = Ok (b', h') -> exists new, make b h = Ok new /\ chain b' h' (defs ++ new).
Proof.
  intros Hch Hmake. unfold add_steps. destruct (hasStep _ _ _); [done|]. destruct (make b h) as [new|e]; [|done].
  destruct (Hmake new eq_refl) as [Hne Hf]. intros Ha. exists new. split; [done|]. by eapply chain_append.
Qed.

Lemma add_steps_refused name make b h defs e : chain b h defs -> add_steps host name make b h = Err e ->
  name ∈ sd_name <$> defs \/ make b h = Err e \/
  exists new, make b h = Ok new /\
    ((exists x, x ∈ sd_name <$> new /\ x ∈ sd_name <$> defs) \/ ~ NoDup (sd_name <$> new)).
Proof.
  intros Hch. unfold add_steps. rewrite (chain_names _ _ _ _ Hch). case_bool_decide; [by left|].
  destruct (make b h) as [new|e']; [|intros [= <-]; right; by left]. intros Ha%(append_refused _ _ _ _ _ Hch). right. right. by exists new.
Qed.

(** ** The steps of a schema *)
Variable codecArray : Codec -> Codec.
Variable rh_elements : option Z -> list Z -> W -> list Z.
Context (registry : ActivityRegistry (W := W)).

Abbreviation compile_step := (compileStep (Rest := Rest) (IdempotencyConfig := IdempotencyConfig) host LosslessJsonCodec codecArray rh_elements registry).

(** What a schema step became: the step of its name, with the dependencies
    it declared - but a single step without dependencies is compiled as a
    linear step, and depends on the step compiled just before it, if any. *)
Definition compiled_as (s : StepSchema) defs : Prop :=
  exists before d after, defs = before ++ d :: after /\ sd_name d = schema_name s /\
  match s with
  | SingleStepSchema _ [] _ _ => sd_dependsOn d = chained_to before
  | ParallelStepSchema name deps branches _ =>
      sd_dependsOn d = (fun key => name +:+ "." +:+ key) <$> branches.*1 /\
      forall key, key ∈ branches.*1 ->
        exists arm, arm ∈ defs /\ sd_name arm = name +:+ "." +:+ key /\ sd_dependsOn arm = deps
  | _ => sd_dependsOn d = stepDependsOn s
  end.

Lemma compiled_as_kept s defs new : compiled_as s defs -> compiled_as s (defs ++ new).
Proof.
  intros (before & d & after & -> & Hn & Hs). exists before, d, (after ++ new). split; [by rewrite <- app_assoc|].
  split; [done|]. destruct s; try done. destruct Hs as [Hj Hs]. split; [done|]. intros key (arm & Harm & ?)%Hs. exists arm.
  split; [apply elem_of_app; by left|done].
Qed.

Lemma resolve_branches_keys branches fs :
  resolve_branches registry branches = Ok fs -> fs.*1 = branches.*1.
Proof.
  revert fs. induction branches as [|[label a] branches IH]; intros fs; cbn [resolve_branches]; [by intros [= <-]|].
  destruct (resolve_ref registry a) as [f|e]; [|done]. destruct (resolve_branches _ branches) as [rest|e]; [|done].
  intros [= <-]. cbn. by rewrite (IH rest).
Qed.

(** The branches, then the join on them. *)
Lemma parallel_steps_shape name deps (fs : list (string * StepFn StepContext W)) options codec ns new :
  createParallelSteps host name deps fs options codec ns = Ok new ->
  fs.*1 <> [] /\ exists arms join, new = arms ++ [join] /\
    sd_name <$> arms = (fun key => name +:+ "." +:+ key) <$> fs.*1 /\ (forall arm, arm ∈ arms -> sd_dependsOn arm = deps) /\
    sd_name join = name /\ sd_dependsOn join = (fun key => name +:+ "." +:+ key) <$> fs.*1.
Proof.
  unfold createParallelSteps. destruct fs.*1 as [|k keys] eqn:Ek; [done|]. destruct (List.find _ _); [done|].
  intros [= <-]. split; [done|]. eexists _, _. split; [done|]. split; [|split; [|done]].
  - rewrite <- Ek, <- !list_fmap_compose. apply list_fmap_ext. by intros i [key fn] _.
  - by intros arm ([key fn] & -> & _)%list_elem_of_fmap.
Qed.

Lemma chain_parallel s name deps branches options b h defs b' h' :
  s = ParallelStepSchema name deps branches options -> chain b h defs ->
  (forall dep, dep ∈ deps -> dep ∈ sd_name <$> defs) -> compile_step s b h = Ok (b', h') ->
  exists new, chain b' h' (defs ++ new) /\ compiled_as s (defs ++ new).
Proof.
  intros -> Hch Hdeps. cbn [compileStep]. unfold compileParallelStep, with_activity.
  destruct (resolve_branches registry branches) as [fs|e] eqn:Ef; [|done]. apply resolve_branches_keys in Ef. unfold parallel.
  intros (new & Hnew & Hch')%(chain_add_steps _ _ _ _ _ _ _ Hch).
  - exists new. split; [done|]. apply parallel_steps_shape in Hnew as (Hne & arms & join & -> & Ha & Hd & Hjn & Hjd).
    rewrite Ef in *. exists (defs ++ arms), join, []. split; [by rewrite <- app_assoc|]. split; [done|]. split; [done|].
    intros key Hkey. assert (name +:+ "." +:+ key ∈ sd_name <$> arms) as (arm & E & Harm)%list_elem_of_fmap.
    { rewrite Ha. by apply (list_elem_of_fmap_2 (fun key => name +:+ "." +:+ key)). }
    exists arm. split; [rewrite app_assoc, !elem_of_app; left; by right|]. split; [done|]. by apply Hd.
  - intros new' (Hne & arms & join & -> & Ha & Hd & Hjn & Hjd)%parallel_steps_shape. split; [by destruct arms|].
    apply follows_app; [by apply follows_same with deps|]. apply follows_one. intros dep. rewrite Hjd, <- Ha.
    rewrite fmap_app, elem_of_app. by right.
Qed.

Definition parallel_step (s : StepSchema) : bool := match s with ParallelStepSchema _ _ _ _ => true | _ => false end.
Definition root_step (s : StepSchema) : bool := match s with SingleStepSchema _ [] _ _ => true | _ => false end.

(** Resolving a reference of the step throws. *)
Definition resolve_throws (s : StepSchema) (e : thrown) : Prop :=
  exists ref config, ref ∈ (stepActivityRefs s).*2 /\ ar_resolve registry ref config = Err e.

(** Every other step is one call that adds one step. *)
Definition one_call (s : StepSchema) (m : method (Rest := Rest) (IdempotencyConfig := IdempotencyConfig)) : Prop :=
  exists make, m = add_steps host (schema_name s) make /\
    forall b h, exists d, make b h = Ok [d] /\ sd_name d = schema_name s /\
      sd_dependsOn d = if root_step s then linearDeps b else stepDependsOn s.

Lemma compile_step_shape s : parallel_step s = false ->
  one_call s (compile_step s) \/ exists e, resolve_throws s e /\ compile_step s = fun _ _ => Err e.
Proof.
  destruct s as [name deps a o|name src a o|name deps ms|name deps sig t|name deps sig t|name deps c x y o|]; [..|done];
    intros _; cbn [compileStep].
  - unfold compileSingleStep, with_activity. destruct (resolve_ref registry a) as [f|e] eqn:Er.
    + left. destruct deps; (eexists; split; [reflexivity|]; intros b h; eexists; split; [reflexivity|by cbn]).
    + right. exists e. split; [|done]. eexists _, _. split; [left|exact Er].
  - unfold compileMapStep, with_activity. destruct (resolve_ref registry a) as [f|e] eqn:Er.
    + left. eexists. split; [reflexivity|]. intros b h. eexists. split; [reflexivity|by cbn].
    + right. exists e. split; [|done]. eexists _, _. split; [left|exact Er].
  - left. eexists. split; [reflexivity|]. intros b h. eexists. split; [reflexivity|by cbn].
  - left. eexists. split; [reflexivity|]. intros b h. eexists. split; [reflexivity|by cbn].
  - left. eexists. split; [reflexivity|]. intros b h. eexists. split; [reflexivity|by cbn].
  - unfold compileBranchStep, with_activity. destruct (ar_resolve registry c None) as [fc|e] eqn:Ec.
    2:{ right. exists e. split; [|done]. exists c, None. split; [left|done]. }
    destruct (resolve_ref registry x) as [fx|e] eqn:Ex.
    2:{ right. exists e. split; [|done]. eexists _, _. split; [right; left|exact Ex]. }
    destruct (resolve_ref registry y) as [fy|e] eqn:Ey.
    2:{ right. exists e. split; [|done]. eexists _, _. split; [right; right; left|exact Ey]. }
    left. eexists. split; [reflexivity|]. intros b h. eexists. split; [reflexivity|by cbn].
Qed.

Lemma chain_compile s b h defs b' h' : chain b h defs ->
  (forall dep, dep ∈ stepDependsOn s -> dep ∈ sd_name <$> defs) -> compile_step s b h = Ok (b', h') ->
  exists new, chain b' h' (defs ++ new) /\ compiled_as s (defs ++ new) /\
    (parallel_step s = false -> sd_name <$> new = [schema_name s]).
Proof.
  intros Hch Hdeps Hc. destruct (parallel_step s) eqn:Hp.
  - destruct s as [| | | | | |name deps branches o]; try done.
    destruct (chain_parallel _ name deps branches o b h defs b' h' eq_refl Hch Hdeps Hc) as (new & ? & ?). by exists new.
  - destruct (compile_step_shape s Hp) as [(make & E & Hmake)|(e & _ & E)]; rewrite E in Hc; [|done].
    destruct (Hmake b h) as (d & Ed & Hn & Hd).
    destruct (chain_add_steps (schema_name s) make b h defs b' h' Hch) as (new & Enew & Hch'); [|done|].
    + rewrite Ed. intros new [= <-]. split; [done|]. apply follows_one. rewrite Hd. destruct (root_step s); [|done].
      intros dep. rewrite (linear_is_chained b h defs) by done. apply chained_in.
    + rewrite Ed in Enew. injection Enew as <-. exists [d]. split; [done|]. split; [|intros _; cbn; by rewrite Hn].
      exists defs, d, []. split; [done|]. split; [done|]. rewrite (linear_is_chained b h defs) in Hd by done.
      destruct s as [? [|? ?] ? ?| | | | | |]; done.
Qed.

(** A call fails for a taken name, a throw of the registry, or in a parallel
    step. *)
Lemma compile_refused s b h defs e : chain b h defs -> compile_step s b h = Err e -> parallel_step s = false ->
  schema_name s ∈ sd_name <$> defs \/ resolve_throws s e.
Proof.
  intros Hch Hc Hp. destruct (compile_step_shape s Hp) as [(make & E & Hmake)|(e' & Ht & E)]; rewrite E in Hc.
  - left. destruct (add_steps_refused _ _ _ _ _ _ Hch Hc) as [?|[He|(new & Hnew & Hdup)]]; [done|..].
    + destruct (Hmake b h) as (d & Ed & _). congruence.
    + destruct (Hmake b h) as (d & Ed & Hn & _). rewrite Ed in Hnew. injection Hnew as <-. cbn in Hdup.
      destruct Hdup as [(x & ->%list_elem_of_singleton & Hx)|Hnd]; [by rewrite <- Hn|]. destruct Hnd. apply NoDup_singleton.
  - right. injection Hc as <-. done.
Qed.

(** ** The checks *)
Record schema_sound (steps : list StepSchema) : Prop := {
  so_names : NoDup (schema_names steps);
  so_refs : forall s ref, s ∈ steps -> ref ∈ (stepActivityRefs s).*2 -> ar_has registry ref = true;
  so_arms : forall s, s ∈ steps -> branch_issues s = [];
  so_deps : forall s dep, s ∈ steps -> dep ∈ stepDependsOn s -> dep ∈ schema_names steps;
  so_runs : forall x, x ∈ schema_names steps -> runnable steps x;
}.

Lemma duplicate_issues_nil seen steps :
  duplicate_issues seen steps = [] <-> NoDup (schema_names steps) /\ forall x, x ∈ schema_names steps -> x ∉ seen.
Proof.
  revert seen. induction steps as [|s steps IH]; intros seen; cbn [duplicate_issues].
  { split; [intros _; split; [constructor|by intros x ?%not_elem_of_nil]|done]. }
  change (schema_names (s :: steps)) with (schema_name s :: schema_names steps).
  rewrite NoDup_cons. case_bool_decide as Hs; cbn [app].
  - split; [done|]. intros [_ Hn]. exfalso. apply (Hn (schema_name s)); [left|done].
  - rewrite IH. split.
    + intros [Hnd Hn]. split; [split; [|done]|].
      * intros Hin. apply (Hn _ Hin). left.
      * intros x [->|Hx]%elem_of_cons; [done|]. intros Hin. apply (Hn x Hx). by right.
    + intros [[Hni Hnd] Hn]. split; [done|]. intros x Hx [->|Hin]%elem_of_cons; [done|]. by apply (Hn x); [right|].
Qed.

Lemma omap_nil {A B} (f : A -> option B) (l : list A) : omap f l = [] <-> forall x, x ∈ l -> f x = None.
Proof.
  induction l as [|x l IH]; cbn; [split; [by intros _ x ?%not_elem_of_nil|done]|].
  destruct (f x) as [y|] eqn:E; [split; [done|intros Hn]|].
  - rewrite Hn in E; [done|left].
  - rewrite IH. split; [intros Hn y [->|?]%elem_of_cons; auto|]. intros Hn y Hy. apply Hn. by right.
Qed.

Lemma step_issues_nil names s : step_issues registry names s = [] <->
  (forall ref, ref ∈ (stepActivityRefs s).*2 -> ar_has registry ref = true) /\ branch_issues s = [] /\
  forall dep, dep ∈ stepDependsOn s -> dep ∈ names.
Proof.
  unfold step_issues, ref_issues, dep_issues. rewrite !app_nil, !omap_nil. split.
  - intros (Hr & Hb & Hd & _). split; [|split; [done|]].
    + intros ref ([label r] & -> & Hin)%list_elem_of_fmap. specialize (Hr _ Hin). cbn in Hr |- *.
      by destruct (ar_has registry r).
    + intros d Hin. specialize (Hd d Hin). by case_bool_decide.
  - intros (Hr & Hb & Hd). split; [|split; [done|split]].
    + intros [label r] Hin. cbn. rewrite (Hr r); [done|]. by apply (list_elem_of_fmap_2 snd _ (label, r)).
    + intros d Hin. by rewrite bool_decide_true by auto.
    + destruct s; try done. cbn in *. rewrite bool_decide_true; [done|]. apply Hd. left.
Qed.

Lemma bind_nil {A B} (f : A -> list B) (l : list A) : l ≫= f = [] <-> forall x, x ∈ l -> f x = [].
Proof.
  induction l as [|x l IH]; cbn; [split; [by intros _ x ?%not_elem_of_nil|done]|]. rewrite app_nil, IH. split.
  - intros [Hx Hl] y [->|Hy]%elem_of_cons; auto.
  - intros Hl. split; [apply Hl; left|]. intros y Hy. apply Hl. by right.
Qed.

(** The validation finds no issue exactly in a sound schema. *)
Lemma validateDag_exact schema : exists issues, validateDag registry schema = Some issues /\
  (issues = [] <-> schema_sound (wsc_steps schema)).
Proof.
  unfold validateDag. destruct (cycleSteps_ends (wsc_steps schema)) as [cycle Hc]. rewrite Hc. cbn.
  eexists. split; [reflexivity|]. rewrite !app_nil, duplicate_issues_nil, bind_nil.
  assert (match cycle with [] => [] | _ => ["Dependency cycle between steps: " +:+ String.concat ", " (quoted <$> cycle)] end
    = [] <-> cycle = []) as -> by (by destruct cycle). split.
  - intros ([Hnd _] & Hs & ->). assert (forall s, s ∈ wsc_steps schema -> _) as Hs' by (intros s Hin; exact (proj1 (step_issues_nil _ s) (Hs s Hin))).
    split; [done|intros s ref Hin; by apply Hs'|intros s Hin; by apply Hs'|intros s d Hin; by apply Hs'|].
    destruct (cycle_exact (wsc_steps schema) Hnd) as (l & Hl & Ha). rewrite Hc in Hl. injection Hl as <-.
    intros x Hx. apply Ha; [done|apply not_elem_of_nil].
  - intros [Hnd Hr Hb Hd Hrun]. split; [split; [done|by intros x _ ?%not_elem_of_nil]|]. split.
    + intros s Hin. apply step_issues_nil. split; [intros ref; by apply Hr|]. split; [by apply Hb|intros d; by apply Hd].
    + destruct (cycle_exact (wsc_steps schema) Hnd) as (l & Hl & Ha). rewrite Hc in Hl. injection Hl as <-.
      destruct cycle as [|x cycle]; [done|]. exfalso. destruct (Ha x) as [Hx _]. destruct Hx as [Hx Hn]; [left|]. by apply Hn, Hrun.
Qed.

(** ** The loop over the sorted steps *)
Abbreviation compile_all := (compile_steps (Rest := Rest) (IdempotencyConfig := IdempotencyConfig) host LosslessJsonCodec codecArray rh_elements registry).

Lemma by_name_of steps s : NoDup (schema_names steps) -> s ∈ steps -> steps_by_name steps !! schema_name s = Some s.
Proof. intros Hnd Hs. by apply (by_name_lookup (fun s => s)). Qed.

(** What is built after the steps [done]. *)
Record built (steps : list StepSchema) (done : list string) b h defs : Prop := {
  bt_chain : chain b h defs;
  bt_steps : forall s, s ∈ steps -> schema_name s ∈ done -> compiled_as s defs;
  bt_names : (forall s, s ∈ steps -> parallel_step s = false) -> sd_name <$> defs = done;
}.

Lemma compiled_name s defs : compiled_as s defs -> schema_name s ∈ sd_name <$> defs.
Proof. intros (before & d & after & -> & <- & _). apply list_elem_of_fmap_2, elem_of_app. right. left. Qed.

Definition compile_post (steps : list StepSchema) (all : list string) (r : res thrown (builder * heap)) : Prop :=
  match r with
  | Ok (b, h) => exists defs, built steps all b h defs
  | Err e => (exists s, s ∈ steps /\ parallel_step s = true) \/ exists s, s ∈ steps /\ resolve_throws s e
  end.

Lemma compile_all_post steps done sorted b h defs :
  NoDup (schema_names steps) -> (done ++ sorted) ≡ₚ schema_names steps -> ordered (schema_node <$> steps) (done ++ sorted) ->
  built steps done b h defs -> compile_post steps (done ++ sorted) (compile_all (steps_by_name steps) sorted b h).
Proof.
  intros Hnd. revert done b h defs. induction sorted as [|x sorted IH]; intros done b h defs Hp Ho Hb; cbn [compile_steps].
  { rewrite app_nil_r. by exists defs. }
  assert (NoDup (done ++ x :: sorted)) as Hnd2 by (by rewrite Hp).
  assert (x ∈ schema_names steps) as (s & -> & Hs)%list_elem_of_fmap by (rewrite <- Hp; apply elem_of_app; right; left).
  rewrite by_name_of by done. pose proof (bt_chain _ _ _ _ _ Hb) as Hch.
  assert (forall dep, dep ∈ stepDependsOn s -> dep ∈ sd_name <$> defs) as Hdeps.
  { intros dep Hdep. assert (dep ∈ done) as Hd.
    { apply (Ho done (schema_name s) sorted eq_refl (schema_node s)); [by apply list_elem_of_fmap_2|done|done]. }
    assert (dep ∈ schema_names steps) as (s' & -> & Hs')%list_elem_of_fmap by (rewrite <- Hp; apply elem_of_app; by left).
    apply compiled_name. by apply (bt_steps _ _ _ _ _ Hb). }
  destruct (compile_step s b h) as [[b' h']|e] eqn:Ec.
  - destruct (chain_compile _ _ _ _ _ _ Hch Hdeps Ec) as (new & Hch' & Has & Hone).
    rewrite cons_middle, app_assoc in Hp, Ho |- *. apply (IH _ _ _ (defs ++ new)); [done|done|]. split; [done|..].
    + intros s' Hs' [Hin|Hin%list_elem_of_singleton]%elem_of_app.
      * by apply compiled_as_kept, (bt_steps _ _ _ _ _ Hb).
      * by rewrite (same_step steps Hnd s' s Hs' Hs Hin).
    + intros Hpar. rewrite fmap_app, (bt_names _ _ _ _ _ Hb Hpar), Hone by auto. done.
  - destruct (parallel_step s) eqn:Hpar; [left; by exists s|].
    destruct (compile_refused _ _ _ _ _ Hch Ec Hpar) as [Hin|Ht]; [|right; by exists s].
    left. destruct (decide (Exists (fun s => parallel_step s = true) steps)) as [Hex|Hno]; [by apply Exists_exists in Hex|].
    exfalso. rewrite (bt_names _ _ _ _ _ Hb) in Hin.
    + apply NoDup_app in Hnd2 as (_ & Hd & _). apply (Hd _ Hin). left.
    + intros s' Hs'. apply not_true_is_false. intros Ht. apply Hno, Exists_exists. by exists s'.
Qed.

(** ** [compileWorkflow] *)
Abbreviation compile := (compileWorkflow (Rest := Rest) (IdempotencyConfig := IdempotencyConfig) host LosslessJsonCodec codecArray rh_elements registry).

(** What every answer of the compiler means. *)
Definition compile_answer (schema : WorkflowSchema)
    (r : option (res CompileError (Workflow (W := W) (Rest := Rest) (IdempotencyConfig := IdempotencyConfig)))) : Prop :=
  let steps := wsc_steps schema in
  match r with
  | None => False
  | Some (Err ZodError) => WorkflowSchemaZ schema = false
  | Some (Err (WorkflowCompilationError issues)) => issues <> [] /\ ~ schema_sound steps
  | Some (Err (SortThrew _)) => False
  | Some (Err (CompileThrew e)) =>
      schema_sound steps /\
      ((exists s, s ∈ steps /\ parallel_step s = true) \/ exists s, s ∈ steps /\ resolve_throws s e)
  | Some (Ok w) =>
      schema_sound steps /\
      NoDup (sd_name <$> w_steps w) /\ (exists l, topologicalSort (node_of <$> w_steps w) = Some (Ok l)) /\
      (forall s, s ∈ steps -> compiled_as s (w_steps w)) /\
      ((forall s, s ∈ steps -> parallel_step s = false) -> sd_name <$> w_steps w ≡ₚ schema_names steps)
  end.

Lemma workflow_fresh name v rest h : heap_ok sd_name h ->
  exists b h', workflow host (mkParams name v None None None rest) h = Ok (b, h') /\
    chain b h' [].
Proof.
  intros Hh. eexists _, _. split; [reflexivity|]. cbn. split; cbn; [| | |done|apply follows_nil].
  - intros r c [Hc|[_ Hc]]%lookup_app_Some; [by eapply Hh|]. apply list_lookup_singleton_Some in Hc as [_ <-]. by intros x i.
  - eexists. split; [by apply list_lookup_middle|]. cbn. lia.
  - unfold stepsToArray. done.
Qed.

Lemma chain_nodup b h defs : chain b h defs -> NoDup (sd_name <$> defs).
Proof.
  intros Hch. rewrite <- (ch_defs _ _ _ Hch). destruct (ch_seq _ _ _ Hch) as (c & Hc & _). unfold stepsToArray.
  rewrite (cell_of_lookup _ _ _ Hc). pose proof (cell_nodup sd_name c (ch_heap _ _ _ Hch _ _ Hc)) as Hnd.
  rewrite <- (take_drop (seq_length (b_steps b)) (cell_defs c)), fmap_app in Hnd. by apply NoDup_app in Hnd as [? _].
Qed.

Lemma compile_correct schema v rest h : heap_ok sd_name h -> compile_answer schema (compile schema v rest h).
Proof.
  intros Hh. unfold compileWorkflow. destruct (WorkflowSchemaZ schema) eqn:Ez; cbn [negb]; [|exact Ez].
  destruct (validateDag_exact schema) as (issues & -> & Hiss). cbn [mbind option_bind].
  destruct issues as [|issue issues]; [|cbn; split; [done|intros Hs%Hiss; done]].
  pose proof (proj1 Hiss eq_refl) as Hs.
  destruct (cycle_exact (wsc_steps schema) (so_names _ Hs)) as (l & Hl & Ha).
  assert (l = []) as ->.
  { destruct l as [|x l]; [done|]. destruct (Ha x) as [Hx _]. destruct Hx as [Hx Hn]; [left|]. by destruct Hn; apply Hs. }
  destruct (acyclic_sorts (wsc_steps schema)) as (sorted & -> & Hp & Ho); [apply Hs|intros s dep; by apply (so_deps _ Hs)|done|].
  cbn [mbind option_bind]. destruct (workflow_fresh (wsc_name schema) v rest h Hh) as (b & h' & -> & Hch).
  pose proof (compile_all_post (wsc_steps schema) [] sorted b h' [] (so_names _ Hs) Hp Ho) as Hpost.
  cbn [app] in Hpost.
  destruct (compile_all _ sorted b h') as [[b2 h2]|e].
  - destruct Hpost as (defs & Hb).
    { split; [done|by intros s _ ?%not_elem_of_nil|done]. }
    pose proof (bt_chain _ _ _ _ _ Hb) as Hch2. cbn. rewrite (ch_defs _ _ _ Hch2). split; [done|].
    pose proof (chain_nodup _ _ _ Hch2) as Hnd. split; [done|]. split; [|split].
    + apply follows_sorts; [done|]. apply (ch_follows _ _ _ Hch2).
    + intros s Hin. apply (bt_steps _ _ _ _ _ Hb); [done|]. rewrite Hp. by apply list_elem_of_fmap_2.
    + intros Hpar. by rewrite (bt_names _ _ _ _ _ Hb Hpar), Hp.
  - split; [done|]. apply Hpost. split; [done|by intros s _ ?%not_elem_of_nil|done].
Qed.
End chains.


(** ** Samples *)
Definition echo_registry : ActivityRegistry (W := TaskTable) :=
  MapActivityRegistry (newMapActivityRegistry
    [("echo", fun config => Ok (fun ctx w => (Ok (succeed (ac_prev ctx)), w)))]).

Definition sample_compile (steps : list StepSchema) :=
  compileWorkflow (Rest := unit) (IdempotencyConfig := unit) table_host plain_codec id (fun _ l _ => l) echo_registry
    (mkSchema 1 "flow" steps) None tt [].

Definition compiled_dag (steps : list StepSchema) : option (res CompileError (list (string * list string * StepKind))) :=
  r ← sample_compile steps; Some match r with Ok w => Ok (w_dag w) | Err e => Err e end.

Definition echo (name : string) (deps : list string) : StepSchema :=
  SingleStepSchema name deps (mkActivityRef "echo" None) None.

(** A join before its dependencies in the schema, with a parallel step. *)
Definition order_schema : list StepSchema :=
  [echo "join" ["ship"; "bill"]; echo "order" [];
   ParallelStepSchema "ship" ["order"] [("air", mkActivityRef "echo" None); ("sea", mkActivityRef "echo" None)] None;
   SleepStepSchema "bill" ["order"] 50].

Example order_compiled :
  compiled_dag order_schema =
  Some (Ok [("order", [], KNormal); ("ship.air", ["order"], KNormal); ("ship.sea", ["order"], KNormal);
            ("ship", ["ship.air"; "ship.sea"], KParallel); ("bill", ["order"], KSleep);
            ("join", ["ship"; "bill"], KNormal)]).
Proof. vm_compute. reflexivity. Qed.


(** Two root steps: the second is chained to the first. *)
Example second_root_is_chained :
  compiled_dag [echo "a" []; echo "b" []] = Some (Ok [("a", [], KNormal); ("b", ["a"], KNormal)]).
Proof. vm_compute. reflexivity. Qed.

(** ... and receives the result of the first, not the workflow input. *)
Example second_root_reads_the_first :
  (r ← sample_compile [echo "a" []; echo "b" []];
   match r with
   | Ok w => d ← w_steps w !! 1%nat;
             Some (sd_execute d (mkExecute "w1" (JStr "input") (<["a" := JStr "result of a"]> ∅) 1 None None (Some 1))
                     (None, mkTable ∅ [])).1
   | Err _ => None
   end) = Some (Succ (JStr "result of a")).
Proof. vm_compute. reflexivity. Qed.

(** The name of a branch, scoped by its step, may be that of another step:
    the builder throws its own error. *)
Example scoped_name_throws :
  compiled_dag [echo "p.x" []; ParallelStepSchema "p" [] [("x", mkActivityRef "echo" None)] None] =
  Some (Err (CompileThrew (duplicateStepError table_host "p.x"))).
Proof. vm_compute. reflexivity. Qed.
