(* ===== verification/Cache.v ===== *)
(** The cache of step results: [shared/cache-store.ts].

    A cache is an insertion-ordered map with expiry and a bound. A read
    moves its entry to the end, a write of a new key may drop the first
    entry. The specification is a map that remembers the last write of every
    key and never forgets. *)
From S2P Require Import Prelude.
Open Scope string_scope.
Open Scope list_scope.
Open Scope Z_scope.

Section cache.
Context {K V : Type} `{EqDecision K}.

Record MemoryCacheEntry : Type := mkEntry { ce_value : V; ce_expiresAt : Z }.

Record MemoryCache : Type := mkCache {
  mc_entries : jmap K MemoryCacheEntry;
  mc_ttlMs : Z;
  (** [None] is [Infinity] *)
  mc_maxSize : option Z;
}.

Implicit Types (c : MemoryCache) (k : K) (now : Z).

Definition newMemoryCache (ttlMs : Z) (maxSize : option Z) : MemoryCache := mkCache ∅ ttlMs maxSize.

Definition with_entries c (entries : jmap K MemoryCacheEntry) : MemoryCache :=
  mkCache entries (mc_ttlMs c) (mc_maxSize c).

Definition expired now (e : MemoryCacheEntry) : bool := ce_expiresAt e <? now.

Definition get now k c : option V * MemoryCache :=
  match mc_entries c !! k with
  | None => (None, c)
  | Some e =>
      if expired now e then (None, with_entries c (delete k (mc_entries c)))
      else (Some (ce_value e), with_entries c (<[k := e]> (delete k (mc_entries c))))
  end.

Definition count_of c : Z := Z.of_nat (length (jm_entries (mc_entries c))).

Definition at_capacity c : bool :=
  match mc_maxSize c with Some m => m <=? count_of c | None => false end.

(** Room for a new key: the first one goes. *)
Definition make_room k c : jmap K MemoryCacheEntry :=
  if at_capacity c && bool_decide (mc_entries c !! k = None)
  then match jm_keys (mc_entries c) with
       | oldest :: _ => delete oldest (mc_entries c)
       | [] => mc_entries c
       end
  else mc_entries c.

Definition set now k (v : V) (ttlMs : option Z) c : MemoryCache :=
  with_entries c (<[k := mkEntry v (now + opt_or ttlMs (mc_ttlMs c))]> (make_room k c)).

Definition delete_ k c : MemoryCache := with_entries c (delete k (mc_entries c)).

Definition has now k c : bool * MemoryCache :=
  match mc_entries c !! k with
  | None => (false, c)
  | Some e => if expired now e then (false, delete_ k c) else (true, c)
  end.

Definition clear c : MemoryCache := with_entries c ∅.

(** Deleting while iterating visits every entry once. *)
Definition purge now c : MemoryCache :=
  with_entries c (foldl (fun m e => if expired now e.2 then delete e.1 m else m) (mc_entries c)
                    (jm_entries (mc_entries c))).

Definition size now c : Z * MemoryCache := let c := purge now c in (count_of c, c).

(** ** Calls *)
Inductive CacheOp : Type :=
| CGet k
| CSet k (v : V) (ttlMs : option Z)
| CDelete k
| CHas k
| CClear
| CSize.

Definition cache_step now (op : CacheOp) c : MemoryCache :=
  match op with
  | CGet k => (get now k c).2
  | CSet k v ttlMs => set now k v ttlMs c
  | CDelete k => delete_ k c
  | CHas k => (has now k c).2
  | CClear => clear c
  | CSize => (size now c).2
  end.

(** The last write of every key. *)
Definition writes_step (ttl : Z) now (op : CacheOp) (m : jmap K MemoryCacheEntry) : jmap K MemoryCacheEntry :=
  match op with
  | CSet k v ttlMs => <[k := mkEntry v (now + opt_or ttlMs ttl)]> m
  | CDelete k => delete k m
  | CClear => ∅
  | CGet _ | CHas _ | CSize => m
  end.

Definition cache_after (ttl : Z) (maxSize : option Z) (sched : list (Z * CacheOp)) : MemoryCache :=
  run_ops cache_step sched (newMemoryCache ttl maxSize).
Definition writes_after (ttl : Z) (sched : list (Z * CacheOp)) : jmap K MemoryCacheEntry :=
  run_ops (writes_step ttl) sched ∅.

(** ** What the cache holds *)
Lemma purge_lookup now (l : list (K * MemoryCacheEntry)) (m : jmap K MemoryCacheEntry) k :
  foldl (fun m e => if expired now e.2 then delete e.1 m else m) m l !! k =
  if bool_decide (Exists (fun e => e.1 = k /\ expired now e.2 = true) l) then None else m !! k.
Proof.
  revert m. induction l as [|[k' e'] l IH]; intros m; cbn [foldl fst snd].
  { rewrite bool_decide_false; [done|]. by intros ?%Exists_nil. }
  rewrite IH. destruct (expired now e') eqn:He.
  - rewrite jlookup_delete. destruct (decide (k' = k)) as [->|Hk].
    + rewrite (bool_decide_true (Exists _ (_ :: _))) by (left; done). by case_bool_decide.
    + erewrite bool_decide_ext; [done|]. rewrite Exists_cons. cbn. tauto.
  - erewrite bool_decide_ext; [done|]. rewrite Exists_cons. cbn. rewrite He. intuition congruence.
Qed.

Lemma purge_wf now (l : list (K * MemoryCacheEntry)) (m : jmap K MemoryCacheEntry) : jm_wf m ->
  jm_wf (foldl (fun m e => if expired now e.2 then delete e.1 m else m) m l) /\
  (length (jm_entries (foldl (fun m e => if expired now e.2 then delete e.1 m else m) m l)) <= length (jm_entries m))%nat.
Proof.
  revert m. induction l as [|[k e] l IH]; intros m Hm; cbn [foldl fst snd]; [done|].
  destruct (expired now e); [|by apply IH]. destruct (IH (delete k m)) as [Hwf Hlen]; [by apply jm_wf_delete|].
  split; [done|]. pose proof (jm_keys_delete m k) as Hd. apply (f_equal length) in Hd. unfold jm_keys in Hd.
  rewrite !length_fmap in Hd. pose proof (length_filter (.≠ k) (jm_entries m).*1) as Hf. rewrite length_fmap in Hf. lia.
Qed.

(** What every state satisfies: at most one entry over no bound, and every
    entry is the last write of its key. *)
Record faithful (m : jmap K MemoryCacheEntry) c : Prop := {
  ff_wf : jm_wf (mc_entries c);
  ff_bound : forall b, mc_maxSize c = Some b -> count_of c <= Z.max b 1;
  ff_last : forall k e, mc_entries c !! k = Some e -> m !! k = Some e;
}.

Lemma delete_shrinks (m : jmap K MemoryCacheEntry) k : (length (jm_entries (delete k m)) <= length (jm_entries m))%nat.
Proof.
  pose proof (jm_keys_delete m k) as Hd. apply (f_equal length) in Hd. unfold jm_keys in Hd.
  rewrite !length_fmap in Hd. pose proof (length_filter (.≠ k) (jm_entries m).*1) as Hf. rewrite length_fmap in Hf. lia.
Qed.

Lemma insert_length (m : jmap K MemoryCacheEntry) k e :
  length (jm_entries (<[k := e]> m)) = (length (jm_entries m) + if decide (m !! k = None) then 1 else 0)%nat.
Proof.
  pose proof (jm_keys_insert m k e) as Hi. apply (f_equal length) in Hi. unfold jm_keys in Hi. rewrite length_fmap in Hi.
  rewrite Hi. fold (jm_keys m). destruct (decide (k ∈ jm_keys m)) as [Hk|Hk].
  - rewrite decide_False; [unfold jm_keys; rewrite length_fmap; lia|]. by rewrite <- jlookup_Some_key.
  - rewrite decide_True by (by apply jlookup_None). rewrite length_app. unfold jm_keys. rewrite length_fmap. done.
Qed.

(** A key that is there is deleted, and makes room. *)
Lemma delete_length (m : jmap K MemoryCacheEntry) k : jm_wf m -> m !! k <> None ->
  S (length (jm_entries (delete k m))) = length (jm_entries m).
Proof.
  intros Hm Hk. destruct (m !! k) as [e|] eqn:Ek; [|done].
  pose proof (jm_count_delete (fun _ => true) m k Hm) as Hc. rewrite Ek in Hc. cbn in Hc. unfold jm_count, jm_values in Hc.
  assert (forall l : list MemoryCacheEntry, List.filter (fun _ => true) l = l) as Ht by (induction l; cbn; congruence).
  rewrite !Ht, !length_fmap in Hc. apply jlookup_elem in Ek.
  destruct (jm_entries m) as [|x l] eqn:El; [by apply not_elem_of_nil in Ek|]. cbn in *. lia.
Qed.

Lemma faithful_smaller m m' c entries : faithful m c -> jm_wf entries ->
  (length (jm_entries entries) <= length (jm_entries (mc_entries c)))%nat ->
  (forall k e, entries !! k = Some e -> m' !! k = Some e) -> faithful m' (with_entries c entries).
Proof.
  intros [Hwf Hb Hl] Hwf' Hlen Hm. split; [done| |done]. intros b Hmax. specialize (Hb b Hmax).
  unfold count_of in *. cbn. lia.
Qed.

Lemma faithful_delete m k c : faithful m c -> faithful (delete k m) (delete_ k c).
Proof.
  intros Hf. apply (faithful_smaller m); [done|apply jm_wf_delete, Hf|apply delete_shrinks|].
  intros k' e. rewrite !jlookup_delete. case_decide; [done|]. apply Hf.
Qed.

Lemma faithful_drop m k c : faithful m c -> faithful m (delete_ k c).
Proof.
  intros Hf. apply (faithful_smaller m); [done|apply jm_wf_delete, Hf|apply delete_shrinks|].
  intros k' e. rewrite jlookup_delete. case_decide; [done|]. apply Hf.
Qed.

Lemma faithful_get m now k c : faithful m c -> faithful m (get now k c).2.
Proof.
  intros Hf. unfold get. destruct (mc_entries c !! k) as [e|] eqn:Ek; [|done].
  destruct (expired now e); cbn [snd]; [by apply faithful_drop|].
  apply (faithful_smaller m); [done|by apply jm_wf_insert, jm_wf_delete, Hf| |].
  - rewrite insert_length, decide_True by apply jlookup_delete_eq.
    pose proof (delete_length (mc_entries c) k (ff_wf _ _ Hf)) as Hd. rewrite Ek in Hd. specialize (Hd ltac:(done)). lia.
  - intros k' e'. rewrite jlookup_insert, jlookup_delete. case_decide as Hk; [|apply Hf].
    intros [= <-]. rewrite <- Hk. by apply Hf.
Qed.

Lemma make_room_spec m k c : faithful m c ->
  jm_wf (make_room k c) /\
  (forall b, mc_maxSize c = Some b -> mc_entries c !! k = None -> Z.of_nat (length (jm_entries (make_room k c))) + 1 <= Z.max b 1) /\
  (length (jm_entries (make_room k c)) <= length (jm_entries (mc_entries c)))%nat /\
  (make_room k c !! k = None <-> mc_entries c !! k = None) /\
  forall k' e, make_room k c !! k' = Some e -> mc_entries c !! k' = Some e.
Proof.
  intros Hf. pose proof Hf as [Hwf Hb Hl]. unfold make_room.
  destruct (at_capacity c) eqn:Ecap; cbn [andb]; [case_bool_decide as Hk|].
  - destruct (jm_keys (mc_entries c)) as [|oldest keys] eqn:Eo.
    + split; [done|]. split; [|split; [done|split; [done|auto]]]. intros b _ _. unfold jm_keys in Eo.
      apply (f_equal length) in Eo. rewrite length_fmap in Eo. cbn in Eo. lia.
    + assert (mc_entries c !! oldest <> None) as Ho by (apply jlookup_Some_key; rewrite Eo; left).
      split; [by apply jm_wf_delete|]. split; [|split; [apply delete_shrinks|split]].
      * intros b Hmax _. pose proof (delete_length _ _ Hwf Ho) as Hd. specialize (Hb b Hmax). unfold count_of in Hb. lia.
      * rewrite jlookup_delete. case_decide; split; intros; try done.
      * intros k' e. rewrite jlookup_delete. by case_decide.
  - split; [done|]. split; [intros; congruence|]. split; [done|]. split; [done|auto].
  - split; [done|]. split; [|split; [done|split; [done|auto]]]. intros b Hmax _. unfold at_capacity in Ecap.
    rewrite Hmax in Ecap. unfold count_of in *. lia.
Qed.

Lemma faithful_set m now k v t c : faithful m c ->
  faithful (<[k := mkEntry v (now + opt_or t (mc_ttlMs c))]> m) (set now k v t c).
Proof.
  intros Hf. destruct (make_room_spec m k c Hf) as (Hwf & Hroom & Hlen & Hk & Hsub). split; cbn.
  - by apply jm_wf_insert.
  - intros b Hmax. unfold count_of. cbn. rewrite insert_length. pose proof (ff_bound _ _ Hf b Hmax) as Hb.
    unfold count_of in Hb. case_decide as Hn; [|lia]. apply Hk in Hn. specialize (Hroom b Hmax Hn). lia.
  - intros k' e. rewrite !jlookup_insert. case_decide; [done|]. intros He%Hsub. by apply Hf.
Qed.

Lemma faithful_purge m now c : faithful m c -> faithful m (purge now c).
Proof.
  intros Hf. destruct (purge_wf now (jm_entries (mc_entries c)) (mc_entries c) (ff_wf _ _ Hf)) as [Hwf Hlen].
  apply (faithful_smaller m); [done..|]. intros k e. rewrite purge_lookup. case_bool_decide; [done|]. apply Hf.
Qed.

Lemma faithful_step ttl now op m c : faithful m c -> mc_ttlMs c = ttl ->
  faithful (writes_step ttl now op m) (cache_step now op c) /\ mc_ttlMs (cache_step now op c) = ttl /\
  mc_maxSize (cache_step now op c) = mc_maxSize c.
Proof.
  intros Hf Ht. destruct op as [k|k v t|k|k| |]; cbn [cache_step writes_step].
  - split; [by apply faithful_get|]. unfold get. destruct (_ !! k); [|done]. by destruct (expired _ _).
  - rewrite <- Ht. split; [by apply faithful_set|done].
  - split; [by apply faithful_delete|done].
  - unfold has. destruct (mc_entries c !! k); [|done]. destruct (expired _ _); [|done]. split; [by apply faithful_drop|done].
  - split; [|done]. apply (faithful_smaller m); [done|apply jm_wf_empty|cbn; lia|done].
  - split; [by apply faithful_purge|done].
Qed.

Lemma cache_faithful ttl maxSize sched :
  faithful (writes_after ttl sched) (cache_after ttl maxSize sched) /\
  mc_maxSize (cache_after ttl maxSize sched) = maxSize /\ mc_ttlMs (cache_after ttl maxSize sched) = ttl.
Proof.
  unfold writes_after, cache_after.
  assert (faithful ∅ (newMemoryCache ttl maxSize)) as H0.
  { split; [apply jm_wf_empty| |done]. intros b _. unfold count_of. cbn. lia. }
  assert (mc_maxSize (newMemoryCache ttl maxSize) = maxSize) as H1 by done.
  assert (mc_ttlMs (newMemoryCache ttl maxSize) = ttl) as H2 by done. revert H0 H1 H2.
  generalize (newMemoryCache ttl maxSize) (∅ : jmap K MemoryCacheEntry).
  induction sched as [|[now op] sched IH]; intros c m Hf Hm Ht; [done|]. cbn [run_ops].
  destruct (faithful_step ttl now op m c Hf Ht) as (Hf' & Ht' & Hm'). apply IH; [done|congruence|done].
Qed.

(** ** With a slot for every key nothing is lost before it expires *)
(** Every key the schedule writes is one of [keys]. *)
Definition writes_only (keys : list K) (sched : list (Z * CacheOp)) : Prop :=
  forall t k v ttlMs, (t, CSet k v ttlMs) ∈ sched -> k ∈ keys.

Definition complete now (m : jmap K MemoryCacheEntry) c : Prop :=
  forall k e, m !! k = Some e -> mc_entries c !! k = Some e \/ ce_expiresAt e < now.

Lemma expired_lt now e : expired now e = true <-> ce_expiresAt e < now.
Proof. unfold expired. lia. Qed.

Lemma complete_drop now m k c : complete now m c ->
  (forall e, mc_entries c !! k = Some e -> ce_expiresAt e < now) -> complete now m (delete_ k c).
Proof.
  intros Hc Hk k' e He. destruct (Hc k' e He) as [Hin|?]; [|by right]. cbn. rewrite jlookup_delete.
  case_decide as Hkk; [|by left]. right. apply Hk. by rewrite Hkk.
Qed.

Lemma complete_step ttl now op m c : faithful m c -> complete now m c -> mc_ttlMs c = ttl ->
  (forall k v t, op = CSet k v t -> make_room k c = mc_entries c) ->
  complete now (writes_step ttl now op m) (cache_step now op c).
Proof.
  intros Hf Hc Ht Hm. destruct op as [k|k v t|k|k| |]; cbn [cache_step writes_step].
  - unfold get. destruct (mc_entries c !! k) as [e|] eqn:Ek; [|done]. destruct (expired now e) eqn:Ee; cbn [snd].
    + apply complete_drop; [done|]. intros e'. rewrite Ek. intros [= <-]. by apply expired_lt.
    + intros k' e' He'. destruct (Hc k' e' He') as [Hin|?]; [|by right]. left. cbn.
      rewrite jlookup_insert, jlookup_delete. case_decide as Hkk; [|done]. rewrite Hkk in Ek. congruence.
  - intros k' e'. unfold set. rewrite (Hm k v t eq_refl). cbn. rewrite !jlookup_insert.
    case_decide as Hkk; [intros [= <-]; left; by rewrite Ht|]. apply Hc.
  - intros k' e'. cbn. rewrite !jlookup_delete. case_decide; [done|]. apply Hc.
  - unfold has. destruct (mc_entries c !! k) as [e|] eqn:Ek; [|done]. destruct (expired now e) eqn:Ee; cbn [snd]; [|done].
    apply complete_drop; [done|]. intros e'. rewrite Ek. intros [= <-]. by apply expired_lt.
  - done.
  - intros k e He. destruct (Hc k e He) as [Hin|?]; [|by right]. cbn. rewrite purge_lookup.
    case_bool_decide as Hex; [|by left]. right. apply Exists_exists in Hex as ([k' e'] & Hin' & Hk' & He').
    cbn in *. rewrite Hk' in Hin'. apply (jlookup_wf_elem _ _ _ (ff_wf _ _ Hf)) in Hin'.
    apply expired_lt. congruence.
Qed.

Lemma keys_of_delete m k k' : k' ∈ jm_keys (delete k m) -> k' ∈ jm_keys (m : jmap K MemoryCacheEntry).
Proof. rewrite jm_keys_delete. by intros [_ ?]%list_elem_of_filter. Qed.

Lemma keys_of_insert m k e k' : k' ∈ jm_keys (<[k := e]> m) -> k' = k \/ k' ∈ jm_keys (m : jmap K MemoryCacheEntry).
Proof. rewrite jm_keys_insert. case_decide; [by right|]. rewrite elem_of_app, list_elem_of_singleton. tauto. Qed.

Lemma keys_of_sub (m m' : jmap K MemoryCacheEntry) k : (forall k e, m !! k = Some e -> m' !! k = Some e) ->
  k ∈ jm_keys m -> k ∈ jm_keys m'.
Proof.
  intros Hsub Hk. apply jlookup_Some_key in Hk. destruct (m !! k) as [e|] eqn:Ek; [|done].
  apply jlookup_Some_key. by rewrite (Hsub _ _ Ek).
Qed.

Lemma cache_step_keys now op c m k : faithful m c -> k ∈ jm_keys (mc_entries (cache_step now op c)) ->
  k ∈ jm_keys (mc_entries c) \/ exists v t, op = CSet k v t.
Proof.
  intros Hf. destruct op as [k'|k' v t|k'|k'| |]; cbn [cache_step].
  - unfold get. destruct (mc_entries c !! k') as [e|] eqn:Ek; [|by left]. destruct (expired now e); cbn.
    + intros ?%keys_of_delete. by left.
    + intros [->|?%keys_of_delete]%keys_of_insert; left; [|done]. by eapply jlookup_key.
  - cbn. intros [->|Hk]%keys_of_insert; [by right; eauto|]. left. revert Hk. apply keys_of_sub.
    by destruct (make_room_spec m k' c Hf) as (_ & _ & _ & _ & Hsub).
  - intros ?%keys_of_delete. by left.
  - unfold has. destruct (mc_entries c !! k'); [|by left]. destruct (expired _ _); [|by left].
    intros ?%keys_of_delete. by left.
  - cbn. by intros ?%elem_of_nil.
  - cbn. intros Hk. left. revert Hk. apply keys_of_sub. intros k' e. rewrite purge_lookup. by case_bool_decide.
Qed.

(** A new key finds a free slot while all the keys fit. *)
Lemma room_left m keys k c : faithful m c -> k ∈ keys -> (forall k', k' ∈ jm_keys (mc_entries c) -> k' ∈ keys) ->
  (forall b, mc_maxSize c = Some b -> Z.of_nat (length keys) <= b) -> make_room k c = mc_entries c.
Proof.
  intros Hf Hk Hkeys Hfit. unfold make_room. destruct (at_capacity c) eqn:Ecap; [|done]. cbn [andb].
  case_bool_decide as Hnew; [|done]. exfalso. unfold at_capacity in Ecap. destruct (mc_maxSize c) as [b|]; [|done].
  specialize (Hfit b eq_refl). assert (NoDup (k :: jm_keys (mc_entries c))) as Hnd.
  { constructor; [by apply jlookup_None|apply Hf]. }
  assert (k :: jm_keys (mc_entries c) ⊆+ keys) as Hsub%submseteq_length.
  { apply NoDup_submseteq; [done|]. intros x [->|?]%elem_of_cons; auto. }
  unfold count_of, jm_keys in *. cbn in Hsub. rewrite length_fmap in Hsub. lia.
Qed.

Lemma cache_complete_from ttl keys sched from now m c : faithful m c -> complete from m c -> mc_ttlMs c = ttl ->
  (forall b, mc_maxSize c = Some b -> Z.of_nat (length keys) <= b) ->
  (forall k, k ∈ jm_keys (mc_entries c) -> k ∈ keys) -> writes_only keys sched -> clock_until from sched now ->
  complete now (run_ops (writes_step ttl) sched m) (run_ops cache_step sched c).
Proof.
  revert from m c. induction sched as [|[t op] sched IH]; intros from m c Hf Hc Ht Hm Hkeys Hw Hclk; cbn [run_ops].
  { cbn in Hclk. intros k e He. destruct (Hc k e He); [by left|right; lia]. }
  destruct Hclk as [Hle Hclk]. assert (complete t m c) as Hct.
  { intros k e He. destruct (Hc k e He); [by left|right; lia]. }
  assert (forall k v t', op = CSet k v t' -> k ∈ keys) as Hop.
  { intros k v t' ->. apply (Hw t k v t'). left. }
  destruct (faithful_step ttl t op m c Hf Ht) as (Hf' & Ht' & Hm').
  apply IH with t; [done| |done|by rewrite Hm'| |intros t' k v s' Hin; apply (Hw t' k v s'); by right|done].
  - apply complete_step; [done..|]. intros k v t' E. apply (room_left m keys); eauto.
  - intros k [Hk|(v & t' & E)]%(cache_step_keys t op c m); eauto.
Qed.

(** A new key takes a free slot, or the place of the first. *)
Lemma set_keys m now k v t c : faithful m c -> k ∉ jm_keys (mc_entries c) ->
  jm_keys (mc_entries (set now k v t c)) =
  (if at_capacity c then tail (jm_keys (mc_entries c)) else jm_keys (mc_entries c)) ++ [k].
Proof.
  intros Hf Hk. pose proof (ff_wf _ _ Hf) as Hwf. cbn. rewrite jm_keys_insert.
  destruct (make_room_spec m k c Hf) as (_ & _ & _ & Hnone & _). rewrite !jlookup_None in Hnone.
  rewrite decide_False by tauto. f_equal. unfold make_room. rewrite bool_decide_true by by apply jlookup_None.
  destruct (at_capacity c); [|done]. cbn [andb]. unfold jm_wf in Hwf.
  destruct (jm_keys (mc_entries c)) as [|oldest keys] eqn:Eo; [by rewrite Eo|]. rewrite jm_keys_delete, Eo.
  apply NoDup_cons in Hwf as [Hn _]. cbn. rewrite decide_False by tauto. apply filter_all.
  apply Forall_forall. intros x Hx ->. done.
Qed.

End cache.
Arguments CacheOp : clear implicits.

(** Overwriting a key keeps its place: it is the next to go, though it was
    used last. *)
Example overwritten_key_is_evicted :
  let sched : list (Z * CacheOp string Z) :=
    [(0, CSet "a" 1 None); (1, CSet "b" 2 None); (2, CSet "a" 3 None); (3, CSet "c" 4 None)] in
  jm_keys (mc_entries (cache_after 100 (Some 2) sched)) = ["b"; "c"].
Proof. vm_compute. reflexivity. Qed.

(** A bound of zero holds one entry. *)
Example zero_bound_holds_one :
  count_of (cache_after 100 (Some 0) [(0, CSet "a" 1 None); (1, CSet "b" 2 None)]) = 1.
Proof. vm_compute. reflexivity. Qed.

(** An expired entry is dropped for a live one only when it is the first. *)
Example live_entry_evicted_before_expired :
  let sched : list (Z * CacheOp string Z) :=
    [(0, CSet "live" 1 (Some 100)); (1, CSet "dead" 2 (Some 1)); (50, CSet "new" 3 None)] in
  jm_keys (mc_entries (cache_after 100 (Some 2) sched)) = ["dead"; "new"].
Proof. vm_compute. reflexivity. Qed.
