(* ===== verification/Queries.v ===== *)
(** Query handlers of the runs a process hosts: [durable/query-registry.ts].

    The registry is process-wide. The driver of a run opens a scope when it
    has the lock and closes it when it stops; scopes are told apart by
    identity, here by number. A handler is of any type. *)
From S2P Require Import Prelude Leases Exits MachineStorage.
Open Scope string_scope.
Open Scope list_scope.
Open Scope Z_scope.

Section queries.
Context {Handler : Type}.

Record Entry : Type := mkEntry {
  qe_handlers : jmap string Handler;
  qe_owner : option nat;
  qe_evictAtMs : option Z;
}.

Record QueryRegistry : Type := mkRegistry {
  qr_registry : jmap string Entry;
  qr_suspendedTtlMs : Z;
  (** [None] is [-Infinity] *)
  qr_lastSweepMs : option Z;
  qr_scopes : nat;
}.

Definition DEFAULT_SUSPENDED_QUERY_TTL_MS : Z := 60 * 60 * 1000.
Definition SWEEP_INTERVAL_MS : Z := 1000.

Definition initial_registry : QueryRegistry := mkRegistry ∅ DEFAULT_SUSPENDED_QUERY_TTL_MS None 0.

Implicit Types (q : QueryRegistry) (now : Z) (workflowId name : string) (owner : nat).

Definition with_registry q (r : jmap string Entry) : QueryRegistry :=
  mkRegistry r (qr_suspendedTtlMs q) (qr_lastSweepMs q) (qr_scopes q).

Definition configureQueryRegistry (ttl : option Z) q : QueryRegistry :=
  mkRegistry (qr_registry q) (opt_or ttl (qr_suspendedTtlMs q)) (qr_lastSweepMs q) (qr_scopes q).

Definition evicted now (e : Entry) : bool :=
  match qe_evictAtMs e with Some at_ => at_ <=? now | None => false end.

Definition liveEntry now workflowId q : option Entry * QueryRegistry :=
  match qr_registry q !! workflowId with
  | Some e => if evicted now e then (None, with_registry q (delete workflowId (qr_registry q))) else (Some e, q)
  | None => (None, q)
  end.

Definition sweep now q : QueryRegistry :=
  if match qr_lastSweepMs q with Some last => now - last <? SWEEP_INTERVAL_MS | None => false end then q
  else mkRegistry (foldl (fun r e => if evicted now e.2 then delete e.1 r else r) (qr_registry q)
                     (jm_entries (qr_registry q)))
         (qr_suspendedTtlMs q) (Some now) (qr_scopes q).

(** The scope is its workflow and its number. *)
Definition openQueryScope now workflowId q : nat * QueryRegistry :=
  let q := sweep now q in
  let owner := qr_scopes q in
  let '(live, q) := liveEntry now workflowId q in
  let handlers := match live with Some e => qe_handlers e | None => ∅ end in
  (owner, mkRegistry (<[workflowId := mkEntry handlers (Some owner) None]> (qr_registry q))
            (qr_suspendedTtlMs q) (qr_lastSweepMs q) (S owner)).

Definition owned workflowId owner q : option Entry :=
  match qr_registry q !! workflowId with
  | Some e => if bool_decide (qe_owner e = Some owner) then Some e else None
  | None => None
  end.

Definition scope_reset workflowId owner q : QueryRegistry :=
  match owned workflowId owner q with
  | Some e => with_registry q (<[workflowId := mkEntry ∅ (qe_owner e) (qe_evictAtMs e)]> (qr_registry q))
  | None => q
  end.

Definition scope_close now workflowId owner (suspended : bool) q : QueryRegistry :=
  match owned workflowId owner q with
  | None => q
  | Some e =>
      if suspended
      then with_registry q (<[workflowId := mkEntry (qe_handlers e) None (Some (now + qr_suspendedTtlMs q))]> (qr_registry q))
      else with_registry q (delete workflowId (qr_registry q))
  end.

Definition registerQueryHandler now workflowId name (handler : Handler) q : QueryRegistry :=
  let '(live, q) := liveEntry now workflowId q in
  let e := match live with Some e => e | None => mkEntry ∅ None None end in
  with_registry q (<[workflowId := mkEntry (<[name := handler]> (qe_handlers e)) (qe_owner e) (qe_evictAtMs e)]> (qr_registry q)).

(** The handler to call. *)
Definition invokeQueryHandler now workflowId name q : res thrown Handler * QueryRegistry :=
  let '(live, q) := liveEntry now workflowId q in
  (match live with
   | None =>
       Err (plain_error ("No query handlers registered for workflow " +:+ quoted workflowId +:+
         " — either it isn't running on this process or no handler set has been declared yet."))
   | Some e =>
       match qe_handlers e !! name with
       | Some h => Ok h
       | None =>
           let known := String.concat ", " (jm_keys (qe_handlers e)) in
           Err (plain_error ("No query handler " +:+ quoted name +:+ " on workflow " +:+ quoted workflowId +:+
             ". Known: " +:+ (if bool_decide (known = "") then "(none)" else known) +:+ "."))
       end
   end, q).

Definition hasQueryHandlers now workflowId q : bool * QueryRegistry :=
  let '(live, q) := liveEntry now workflowId q in
  (match live with Some e => negb (bool_decide (jm_keys (qe_handlers e) = [])) | None => false end, q).

Definition listQueryHandlers now workflowId q : list string * QueryRegistry :=
  let '(live, q) := liveEntry now workflowId q in
  (match live with Some e => jm_keys (qe_handlers e) | None => [] end, q).

Definition clearQueryHandlers workflowId q : QueryRegistry :=
  with_registry q (delete workflowId (qr_registry q)).

(** ** Calls *)
Inductive QueryOp : Type :=
| QOpen workflowId
| QReset workflowId owner
| QClose workflowId owner (suspended : bool)
| QRegister workflowId name (handler : Handler)
| QInvoke workflowId name
| QHas workflowId
| QList workflowId
| QClear workflowId
| QConfigure (ttl : option Z).

Definition query_step now (op : QueryOp) q : QueryRegistry :=
  match op with
  | QOpen w => (openQueryScope now w q).2
  | QReset w o => scope_reset w o q
  | QClose w o s => scope_close now w o s q
  | QRegister w n h => registerQueryHandler now w n h q
  | QInvoke w n => (invokeQueryHandler now w n q).2
  | QHas w => (hasQueryHandlers now w q).2
  | QList w => (listQueryHandlers now w q).2
  | QClear w => clearQueryHandlers w q
  | QConfigure ttl => configureQueryRegistry ttl q
  end.

Definition run_queries : list (Z * QueryOp) -> QueryRegistry -> QueryRegistry := run_ops query_step.

(** ** What the calls do to the entry of one workflow *)
Definition entry_of q workflowId : option Entry := qr_registry q !! workflowId.

(** All but the calls that end the hold of scope [own] (or of nobody, after a
    suspension): a new scope, its own end, and the call that clears a
    workflow whoever holds it. *)
Definition undisturbed workflowId (own : option nat) (op : QueryOp) : Prop :=
  match op with
  | QOpen w | QClear w => w <> workflowId
  | QClose w o _ => w <> workflowId \/ own <> Some o
  | _ => True
  end.

(** The handlers of [workflowId] under scope [own]. *)
Definition handlers_step workflowId (own : option nat) (hs : jmap string Handler) (e : Z * QueryOp) : jmap string Handler :=
  match e.2 with
  | QRegister w n h => if bool_decide (w = workflowId) then <[n := h]> hs else hs
  | QReset w o => if bool_decide (w = workflowId /\ own = Some o) then ∅ else hs
  | _ => hs
  end.

Lemma sweep_keeps now w e (l : list (string * Entry)) (r : jmap string Entry) :
  r !! w = Some e -> (forall e', (w, e') ∈ l -> evicted now e' = false) ->
  foldl (fun r e => if evicted now e.2 then delete e.1 r else r) r l !! w = Some e.
Proof.
  revert r. induction l as [|[w' e'] l IH]; intros r Hr Hl; cbn [foldl fst snd]; [done|].
  apply IH; [|intros e'' Hin; apply Hl; by right]. destruct (evicted now e') eqn:He; [|done].
  rewrite jlookup_delete. case_decide as Hw; [|done]. rewrite (Hl e') in He; [done|]. rewrite Hw. left.
Qed.

Section one_workflow.
Context (w : string).

(** Maps of distinct keys: what the registry is. *)
Definition registry_wf q : Prop := jm_wf (qr_registry q).

Lemma entry_sweep now q e : registry_wf q -> entry_of q w = Some e -> evicted now e = false ->
  entry_of (sweep now q) w = Some e.
Proof.
  intros Hwf He Hev. unfold sweep. destruct (match qr_lastSweepMs q with Some _ => _ | None => _ end); [done|].
  apply sweep_keeps; [done|]. intros e' Hin. apply jlookup_wf_elem in Hin; [|done]. unfold entry_of in He. congruence.
Qed.

Lemma entry_live now w' q e : entry_of q w = Some e -> evicted now e = false ->
  entry_of (liveEntry now w' q).2 w = Some e /\ (w' = w -> liveEntry now w' q = (Some e, q)).
Proof.
  intros He Hev. unfold liveEntry, entry_of in *. destruct (decide (w' = w)) as [->|Hw].
  - rewrite He, Hev. done.
  - split; [|done]. destruct (qr_registry q !! w') as [e'|]; [|done]. destruct (evicted now e'); [|done].
    cbn. by rewrite jlookup_delete_ne.
Qed.

Lemma wf_live now w' q : registry_wf q -> registry_wf (liveEntry now w' q).2.
Proof.
  unfold registry_wf, liveEntry. intros Hwf. destruct (_ !! w') as [e|]; [|done]. destruct (evicted _ _); [|done].
  by apply jm_wf_delete.
Qed.

Lemma wf_sweep now q : registry_wf q -> registry_wf (sweep now q).
Proof.
  unfold registry_wf, sweep. destruct (match qr_lastSweepMs q with Some _ => _ | None => _ end); [done|]. cbn.
  assert (forall l (r : jmap string Entry), jm_wf r ->
    jm_wf (foldl (fun r e => if evicted now e.2 then delete e.1 r else r) r l)) as Hfold; [|apply Hfold].
  induction l as [|[w' e] l IH]; intros r Hr; [done|]. cbn. apply IH. by destruct (evicted now e); [apply jm_wf_delete|].
Qed.

Lemma wf_query_step now op q : registry_wf q -> registry_wf (query_step now op q).
Proof.
  intros Hwf. destruct op as [w'|w' o|w' o s|w' n h|w' n|w'|w'|w'|t]; cbn [query_step].
  - unfold openQueryScope. pose proof (wf_live now w' _ (wf_sweep now q Hwf)) as Hl.
    destruct (liveEntry now w' (sweep now q)) as [live q']. by apply jm_wf_insert.
  - unfold scope_reset. destruct (owned w' o q); [by apply jm_wf_insert|done].
  - unfold scope_close. destruct (owned w' o q); [|done]. destruct s; [by apply jm_wf_insert|by apply jm_wf_delete].
  - unfold registerQueryHandler. pose proof (wf_live now w' q Hwf) as Hl. destruct (liveEntry now w' q) as [live q'].
    by apply jm_wf_insert.
  - unfold invokeQueryHandler. pose proof (wf_live now w' q Hwf) as Hl. by destruct (liveEntry now w' q).
  - unfold hasQueryHandlers. pose proof (wf_live now w' q Hwf) as Hl. by destruct (liveEntry now w' q).
  - unfold listQueryHandlers. pose proof (wf_live now w' q Hwf) as Hl. by destruct (liveEntry now w' q).
  - by apply jm_wf_delete.
  - done.
Qed.

(** A call that does not end the hold keeps the entry and applies its
    registrations and resets. *)
Lemma entry_step now op q hs own ev :
  registry_wf q -> entry_of q w = Some (mkEntry hs own ev) -> evicted now (mkEntry hs own ev) = false ->
  undisturbed w own op ->
  entry_of (query_step now op q) w = Some (mkEntry (handlers_step w own hs (now, op)) own ev).
Proof.
  intros Hwf He Hev Hop. unfold handlers_step. cbn [snd].
  destruct op as [w'|w' o|w' o b|w' n h|w' n|w'|w'|w'|t]; cbn [query_step undisturbed] in *.
  - unfold openQueryScope. pose proof (entry_live now w' (sweep now q) _ (entry_sweep now q _ Hwf He Hev) Hev) as [Hl _].
    destruct (liveEntry now w' (sweep now q)) as [live q']. unfold entry_of in *. cbn in *. by rewrite jlookup_insert_ne.
  - unfold scope_reset, owned, entry_of in *. destruct (decide (w' = w)) as [->|Hw].
    + rewrite He. cbn. case_bool_decide as Ho.
      * rewrite bool_decide_true by done. cbn. by rewrite jlookup_insert_eq.
      * rewrite bool_decide_false; [done|]. tauto.
    + rewrite bool_decide_false by tauto. destruct (qr_registry q !! w') as [e'|]; [|done].
      case_bool_decide; [|done]. cbn. by rewrite jlookup_insert_ne.
  - unfold scope_close, owned, entry_of in *. destruct (decide (w' = w)) as [->|Hw].
    + rewrite He. cbn. rewrite bool_decide_false; [done|]. tauto.
    + destruct (qr_registry q !! w') as [e'|]; [|done]. case_bool_decide; [|done].
      destruct b; cbn; [by rewrite jlookup_insert_ne|by rewrite jlookup_delete_ne].
  - unfold registerQueryHandler. pose proof (entry_live now w' q _ He Hev) as [Hl Hsame].
    destruct (liveEntry now w' q) as [live q']. unfold entry_of in *. cbn in *. rewrite jlookup_insert.
    destruct (decide (w' = w)) as [->|Hw].
    + rewrite bool_decide_true by done. specialize (Hsame eq_refl). injection Hsame as -> ->. done.
    + by rewrite bool_decide_false.
  - unfold invokeQueryHandler. pose proof (entry_live now w' q _ He Hev) as [Hl _]. by destruct (liveEntry now w' q).
  - unfold hasQueryHandlers. pose proof (entry_live now w' q _ He Hev) as [Hl _]. by destruct (liveEntry now w' q).
  - unfold listQueryHandlers. pose proof (entry_live now w' q _ He Hev) as [Hl _]. by destruct (liveEntry now w' q).
  - unfold clearQueryHandlers, entry_of in *. cbn. by rewrite jlookup_delete_ne.
  - done.
Qed.

(** Many calls, none of them after the entry is evicted. *)
Definition handlers_after (own : option nat) (hs : jmap string Handler) (sched : list (Z * QueryOp)) : jmap string Handler :=
  foldl (handlers_step w own) hs sched.

Definition before (ev : option Z) now : Prop := match ev with Some at_ => now < at_ | None => True end.

Lemma before_evicted ev now hs own : before ev now -> evicted now (mkEntry hs own ev) = false.
Proof. unfold before, evicted. cbn. destruct ev; [lia|done]. Qed.

Lemma entry_run sched q hs own ev :
  registry_wf q -> entry_of q w = Some (mkEntry hs own ev) ->
  Forall (fun e => before ev e.1 /\ undisturbed w own e.2) sched ->
  registry_wf (run_queries sched q) /\
  entry_of (run_queries sched q) w = Some (mkEntry (handlers_after own hs sched) own ev).
Proof.
  revert q hs. induction sched as [|[now op] sched IH]; intros q hs Hwf He; [done|].
  intros [[Hb Hop] Hs]%Forall_cons. cbn [run_queries run_ops fst snd] in *. apply IH; [by apply wf_query_step| |done].
  apply entry_step; [done|done|by apply before_evicted|done].
Qed.

(** A query is answered by exactly the handlers [hs]. *)
Definition answers now q (hs : jmap string Handler) : Prop :=
  forall name, match hs !! name with
               | Some h => (invokeQueryHandler now w name q).1 = Ok h
               | None => is_ok (invokeQueryHandler now w name q).1 = false
               end.

Lemma entry_answers now q hs own ev : entry_of q w = Some (mkEntry hs own ev) -> before ev now -> answers now q hs.
Proof.
  intros He Hb name. unfold invokeQueryHandler, liveEntry. unfold entry_of in He. rewrite He.
  rewrite before_evicted by done. cbn. by destruct (hs !! name).
Qed.

(** *** Who holds the handlers of the run
    The history of calls alone says it: a driver's scope, nobody once a
    driver suspended the run, until a time, or nobody at all. Entries that
    are evicted, whether by a sweep or by the next look at them, leave no
    trace in it. *)
Inductive Hold : Type :=
| Unheld
| Hosted owner (handlers : jmap string Handler)
| Kept (handlers : jmap string Handler) (until : Z)
(** registered while no scope was open *)
| Orphaned (handlers : jmap string Handler).

Record RunHold : Type := mkHold { rh_hold : Hold; rh_ttlMs : Z; rh_scopes : nat }.

Definition seen now (h : Hold) : jmap string Handler :=
  match h with
  | Unheld => ∅
  | Hosted _ hs | Orphaned hs => hs
  | Kept hs until => if until <=? now then ∅ else hs
  end.

Definition hold_reset owner (h : Hold) : Hold :=
  match h with Hosted o hs => if Nat.eqb o owner then Hosted o ∅ else h | _ => h end.

(** Only a run that suspends leaves handlers behind. *)
Definition hold_close now ttlMs owner (suspended : bool) (h : Hold) : Hold :=
  match h with
  | Hosted o hs => if Nat.eqb o owner then if suspended then Kept hs (now + ttlMs) else Unheld else h
  | _ => h
  end.

Definition hold_register now name (handler : Handler) (h : Hold) : Hold :=
  match h with
  | Unheld => Orphaned (<[name := handler]> ∅)
  | Hosted o hs => Hosted o (<[name := handler]> hs)
  | Kept hs until => if until <=? now then Orphaned (<[name := handler]> ∅) else Kept (<[name := handler]> hs) until
  | Orphaned hs => Orphaned (<[name := handler]> hs)
  end.

Definition hold_step now (op : QueryOp) (r : RunHold) : RunHold :=
  let own w' h := mkHold (if bool_decide (w' = w) then h else rh_hold r) (rh_ttlMs r) (rh_scopes r) in
  match op with
  | QOpen w' =>
      mkHold (if bool_decide (w' = w) then Hosted (rh_scopes r) (seen now (rh_hold r)) else rh_hold r) (rh_ttlMs r)
        (S (rh_scopes r))
  | QReset w' o => own w' (hold_reset o (rh_hold r))
  | QClose w' o suspended => own w' (hold_close now (rh_ttlMs r) o suspended (rh_hold r))
  | QRegister w' n h => own w' (hold_register now n h (rh_hold r))
  | QClear w' => own w' Unheld
  | QConfigure ttl => mkHold (rh_hold r) (opt_or ttl (rh_ttlMs r)) (rh_scopes r)
  | QInvoke _ _ | QHas _ | QList _ => r
  end.

Definition hold_after (past : list (Z * QueryOp)) : RunHold :=
  run_ops hold_step past (mkHold Unheld DEFAULT_SUSPENDED_QUERY_TTL_MS 0).

(** What a new scope finds. *)
Definition left_behind now (past : list (Z * QueryOp)) : jmap string Handler := seen now (rh_hold (hold_after past)).

(** The registry holds what the history says, up to entries that are evicted
    but not looked at yet. *)
Definition holds now q (h : Hold) : Prop :=
  match h with
  | Unheld => entry_of q w = None
  | Hosted o hs => entry_of q w = Some (mkEntry hs (Some o) None)
  | Kept hs until => entry_of q w = Some (mkEntry hs None (Some until)) \/ entry_of q w = None /\ until <= now
  | Orphaned hs => entry_of q w = Some (mkEntry hs None None)
  end.

Record follows now q (r : RunHold) : Prop := {
  fo_wf : registry_wf q;
  fo_ttl : qr_suspendedTtlMs q = rh_ttlMs r;
  fo_scopes : qr_scopes q = rh_scopes r;
  fo_holds : holds now q (rh_hold r);
}.

Lemma holds_later now now' q h : now <= now' -> holds now q h -> holds now' q h.
Proof. intros Hle. destruct h; cbn; try done. intros [?|[? ?]]; [by left|right; split; [done|lia]]. Qed.

(** Only evicted entries go. *)
Definition drops_evicted now q q' : Prop :=
  entry_of q' w = entry_of q w \/
  entry_of q' w = None /\ exists e, entry_of q w = Some e /\ evicted now e = true.

Lemma holds_drops now q q' h : drops_evicted now q q' -> holds now q h -> holds now q' h.
Proof.
  intros [E|(E & e & He & Hev)] Hh; unfold holds in *; rewrite E; [done|].
  destruct h as [|o hs|hs until|hs]; [done|rewrite Hh in He; by simplify_eq| |rewrite Hh in He; by simplify_eq].
  destruct Hh as [Hh|[? _]]; [|congruence]. right. split; [done|]. rewrite Hh in He. simplify_eq.
  unfold evicted in Hev. cbn in Hev. lia.
Qed.

Lemma swept_none now l (r : jmap string Entry) : r !! w = None ->
  foldl (fun r e => if evicted now e.2 then delete e.1 r else r) r l !! w = None.
Proof.
  revert r. induction l as [|[w' e] l IH]; intros r Hr; cbn [foldl fst snd]; [done|]. apply IH.
  destruct (evicted now e); [|done]. rewrite jlookup_delete. by case_decide.
Qed.

Lemma swept_or now l (r : jmap string Entry) (r' := foldl (fun r e => if evicted now e.2 then delete e.1 r else r) r l) :
  r' !! w = r !! w \/ r' !! w = None.
Proof.
  subst r'. revert r. induction l as [|[w' e] l IH]; intros r; cbn [foldl fst snd]; [by left|].
  destruct (evicted now e); [|apply IH]. destruct (decide (w' = w)) as [->|Hw].
  - right. apply swept_none, jlookup_delete_eq.
  - rewrite <- (jlookup_delete_ne r w' w) by done. apply IH.
Qed.

Lemma sweep_drops now q : registry_wf q -> drops_evicted now q (sweep now q).
Proof.
  intros Hwf. unfold drops_evicted. assert (entry_of (sweep now q) w = entry_of q w \/ entry_of (sweep now q) w = None) as [Hs|Hs].
  { unfold entry_of, sweep. destruct (match qr_lastSweepMs q with Some _ => _ | None => _ end); [by left|]. apply swept_or. }
  - by left.
  - destruct (entry_of q w) as [e|] eqn:Ee; [|by left]. right. split; [done|]. exists e. split; [done|].
    destruct (evicted now e) eqn:Hev; [done|]. apply (entry_sweep now q e Hwf Ee) in Hev. congruence.
Qed.

Lemma live_drops now w' q : drops_evicted now q (liveEntry now w' q).2.
Proof.
  unfold drops_evicted, liveEntry, entry_of. destruct (decide (w' = w)) as [->|Hw].
  - destruct (qr_registry q !! w) as [e|] eqn:Ee; [|by left]. destruct (evicted now e) eqn:Hev; [|by left].
    right. cbn. rewrite jlookup_delete_eq. eauto.
  - left. destruct (qr_registry q !! w') as [e|]; [|done]. destruct (evicted now e); [|done]. cbn. by rewrite jlookup_delete_ne.
Qed.

(** The entry that a call finds. *)
Definition live_of now (h : Hold) : option Entry :=
  match h with
  | Unheld => None
  | Hosted o hs => Some (mkEntry hs (Some o) None)
  | Kept hs until => if until <=? now then None else Some (mkEntry hs None (Some until))
  | Orphaned hs => Some (mkEntry hs None None)
  end.

Lemma live_is now q h : holds now q h -> (liveEntry now w q).1 = live_of now h.
Proof.
  unfold liveEntry, holds, entry_of. destruct h as [|o hs|hs until|hs]; cbn.
  - by intros ->.
  - by intros ->.
  - intros [->|[-> Hle]]; cbn.
    + unfold evicted. cbn. by destruct (until <=? now).
    + by rewrite (proj2 (Z.leb_le _ _)) by lia.
  - by intros ->.
Qed.

Lemma seen_live now h : seen now h = match live_of now h with Some e => qe_handlers e | None => ∅ end.
Proof. destruct h; cbn; try done. by destruct (_ <=? _). Qed.

(** What a new scope finds is what the history left. *)
Lemma open_entry now q r : follows now q r ->
  registry_wf (openQueryScope now w q).2 /\ (openQueryScope now w q).1 = rh_scopes r /\
  entry_of (openQueryScope now w q).2 w = Some (mkEntry (seen now (rh_hold r)) (Some (rh_scopes r)) None).
Proof.
  intros [Hwf Ht Hs Hh]. split; [by apply (wf_query_step now (QOpen w))|].
  pose proof (live_is now _ _ (holds_drops _ _ _ _ (sweep_drops now q Hwf) Hh)) as Hl.
  assert (qr_scopes (sweep now q) = rh_scopes r) as Hs'.
  { rewrite <- Hs. unfold sweep. by destruct (match qr_lastSweepMs q with Some _ => _ | None => _ end). }
  unfold openQueryScope, entry_of. destruct (liveEntry now w (sweep now q)) as [live q']. cbn in *.
  rewrite jlookup_insert_eq, Hs', seen_live, Hl. done.
Qed.

Lemma sweep_rest now q : qr_suspendedTtlMs (sweep now q) = qr_suspendedTtlMs q /\ qr_scopes (sweep now q) = qr_scopes q.
Proof. unfold sweep. by destruct (match qr_lastSweepMs q with Some _ => _ | None => _ end). Qed.

Lemma live_rest now w' q : qr_suspendedTtlMs (liveEntry now w' q).2 = qr_suspendedTtlMs q /\
  qr_scopes (liveEntry now w' q).2 = qr_scopes q.
Proof. unfold liveEntry. destruct (_ !! w'); [|done]. by destruct (evicted _ _). Qed.

Lemma follows_live now w' q r : follows now q r -> follows now (liveEntry now w' q).2 r.
Proof.
  intros [Hwf Ht Hs Hh]. destruct (live_rest now w' q) as [H1 H2].
  split; [by apply wf_live|congruence|congruence|]. apply (holds_drops now q); [apply live_drops|done].
Qed.

(** The calls that change the entry under a scope's number. *)
Lemma owned_is now q h owner : holds now q h ->
  owned w owner q = match h with Hosted o hs => if Nat.eqb o owner then Some (mkEntry hs (Some o) None) else None | _ => None end.
Proof.
  unfold owned, holds, entry_of. destruct h as [|o hs|hs until|hs]; [by intros ->|intros ->|intros [->|[-> _]]; done|by intros ->].
  cbn. destruct (Nat.eqb_spec o owner) as [->|Hne]; [by rewrite bool_decide_true|]. rewrite bool_decide_false; [done|congruence].
Qed.

Lemma follows_put now q r h e : follows now q r -> holds now (with_registry q (<[w := e]> (qr_registry q))) h ->
  follows now (with_registry q (<[w := e]> (qr_registry q))) (mkHold h (rh_ttlMs r) (rh_scopes r)).
Proof. intros [Hwf Ht Hs Hh] Hh'. split; [by apply jm_wf_insert|done..]. Qed.

Lemma follows_del now q r : follows now q r ->
  follows now (with_registry q (delete w (qr_registry q))) (mkHold Unheld (rh_ttlMs r) (rh_scopes r)).
Proof. intros [Hwf Ht Hs Hh]. split; [by apply jm_wf_delete|done..|]. apply jlookup_delete_eq. Qed.

Lemma follows_step now op q r : follows now q r -> follows now (query_step now op q) (hold_step now op r).
Proof.
  intros Hf. pose proof Hf as [Hwf Ht Hs Hh]. assert (r = mkHold (rh_hold r) (rh_ttlMs r) (rh_scopes r)) as Hr by by destruct r.
  assert (forall w' h q', registry_wf q' -> qr_suspendedTtlMs q' = qr_suspendedTtlMs q -> qr_scopes q' = qr_scopes q ->
    (w' <> w -> entry_of q' w = entry_of q w) -> (w' = w -> holds now q' h) ->
    follows now q' (mkHold (if bool_decide (w' = w) then h else rh_hold r) (rh_ttlMs r) (rh_scopes r))) as Hown.
  { intros w' h q' H1 H2 H3 H4 H5. split; [done|cbn; congruence|cbn; congruence|]. cbn. case_bool_decide as Hw; [by apply H5|].
    apply (holds_drops now q); [left; by apply H4|done]. }
  destruct op as [w'|w' o|w' o b|w' n h|w' n|w'|w'|w'|t]; cbn [query_step hold_step].
  - pose proof (wf_query_step now (QOpen w') q Hwf) as Hwf'. cbn in Hwf'.
    destruct (sweep_rest now q) as [H1 H2]. destruct (live_rest now w' (sweep now q)) as [H3 H4].
    split; [done|unfold openQueryScope; destruct (liveEntry _ _ _); cbn in *; congruence
           |unfold openQueryScope; destruct (liveEntry _ _ _); cbn in *; congruence|]. cbn. case_bool_decide as Hw.
    + subst w'. cbn. by apply open_entry.
    + assert (holds now (liveEntry now w' (sweep now q)).2 (rh_hold r)) as Hh'.
      { apply (holds_drops _ (sweep now q)); [apply live_drops|]. apply (holds_drops _ q); [by apply sweep_drops|done]. }
      unfold openQueryScope. destruct (liveEntry now w' (sweep now q)) as [live q']. cbn in *.
      revert Hh'. apply holds_drops. left. unfold entry_of. cbn. by rewrite jlookup_insert_ne.
  - apply Hown; [by apply (wf_query_step now (QReset w' o))|unfold scope_reset; by destruct (owned _ _ _)..| |].
    + intros Hw. unfold scope_reset, entry_of. destruct (owned w' o q); [|done]. cbn. by rewrite jlookup_insert_ne.
    + intros ->. unfold scope_reset. rewrite (owned_is now q _ o Hh). unfold hold_reset.
      destruct (rh_hold r) as [|o' hs|hs until|hs]; try done. destruct (Nat.eqb o' o); [|done].
      cbn. unfold entry_of. cbn. by rewrite jlookup_insert_eq.
  - apply Hown; [by apply (wf_query_step now (QClose w' o b))|unfold scope_close; destruct (owned _ _ _), b; done..| |].
    + intros Hw. unfold scope_close, entry_of. destruct (owned w' o q), b; try done; cbn; [by rewrite jlookup_insert_ne|by rewrite jlookup_delete_ne].
    + intros ->. unfold scope_close. rewrite (owned_is now q _ o Hh). unfold hold_close.
      destruct (rh_hold r) as [|o' hs|hs until|hs]; try done. destruct (Nat.eqb o' o); [|done].
      destruct b; cbn; unfold entry_of; cbn; [|apply jlookup_delete_eq]. left. by rewrite jlookup_insert_eq, Ht.
  - pose proof (wf_query_step now (QRegister w' n h) q Hwf) as Hwf'. cbn in Hwf'. destruct (live_rest now w' q) as [H1 H2].
    apply Hown; [done|unfold registerQueryHandler; destruct (liveEntry _ _ _); cbn in *; congruence..| |].
    + intros Hw. destruct (live_drops now w' q) as [E|[E _]]; unfold registerQueryHandler, entry_of in *;
        destruct (liveEntry now w' q) as [live q'] eqn:El; cbn in *; rewrite jlookup_insert_ne by done.
      * done.
      * unfold liveEntry in El. destruct (qr_registry q !! w') as [e|]; [|by simplify_eq]. destruct (evicted now e); simplify_eq; [|done].
        cbn. by rewrite jlookup_delete_ne.
    + intros ->. pose proof (live_is now q _ Hh) as Hl. unfold registerQueryHandler, holds, entry_of in *.
      destruct (liveEntry now w q) as [live q']. cbn in *. subst live. rewrite jlookup_insert_eq.
      destruct (rh_hold r) as [|o hs|hs until|hs]; try done. cbn. destruct (until <=? now); [done|by left].
  - unfold invokeQueryHandler. pose proof (follows_live now w' q r Hf). by destruct (liveEntry now w' q).
  - unfold hasQueryHandlers. pose proof (follows_live now w' q r Hf). by destruct (liveEntry now w' q).
  - unfold listQueryHandlers. pose proof (follows_live now w' q r Hf). by destruct (liveEntry now w' q).
  - apply Hown; [by apply jm_wf_delete|done..| |].
    + intros Hw. unfold entry_of. cbn. by rewrite jlookup_delete_ne.
    + intros ->. apply jlookup_delete_eq.
  - split; [done|cbn; by rewrite Ht|done|done].
Qed.

Lemma follows_later now now' q r : now <= now' -> follows now q r -> follows now' q r.
Proof. intros Hle [Hwf Ht Hs Hh]. split; [done..|]. by apply (holds_later now). Qed.

Lemma follows_run from past now q r : clock_until from past now -> follows from q r ->
  follows now (run_queries past q) (run_ops hold_step past r).
Proof.
  revert from q r. induction past as [|[t op] past IH]; intros from q r; cbn [clock_until].
  - intros Hle. by apply follows_later.
  - intros [Hle Hclk] Hf. cbn [run_queries run_ops]. apply (IH t); [done|]. by apply follows_step, (follows_later from).
Qed.

Lemma follows_past from past now : clock_until from past now -> follows now (run_queries past initial_registry) (hold_after past).
Proof. intros Hclk. apply (follows_run from); [done|]. split; [apply jm_wf_empty|done..]. Qed.

(** *** After the end of a scope *)
(** Calls that neither host the workflow again nor register a handler of it. *)
Definition no_new_handlers (op : QueryOp) : Prop :=
  match op with QOpen w' | QRegister w' _ _ => w' <> w | _ => True end.

Lemma none_step now op q : registry_wf q -> entry_of q w = None -> no_new_handlers op -> entry_of (query_step now op q) w = None.
Proof.
  intros Hwf Hn Hop. pose proof (follows_step now op q (mkHold Unheld (qr_suspendedTtlMs q) (qr_scopes q))
    ltac:(by split)) as [_ _ _ Hh].
  assert (rh_hold (hold_step now op (mkHold Unheld (qr_suspendedTtlMs q) (qr_scopes q))) = Unheld) as Hu; [|by rewrite Hu in Hh].
  clear Hh. destruct op as [w'|w' o|w' o b|w' n h|w' n|w'|w'|w'|t]; cbn [hold_step rh_hold no_new_handlers] in *; try done;
    by case_bool_decide.
Qed.

Lemma none_run ended q : registry_wf q -> entry_of q w = None -> Forall (fun e => no_new_handlers e.2) ended ->
  registry_wf (run_queries ended q) /\ entry_of (run_queries ended q) w = None.
Proof.
  revert q. induction ended as [|[t op] ended IH]; intros q Hwf Hn; [done|]. intros [Hop Hs]%Forall_cons.
  cbn [run_queries run_ops fst snd] in *. apply IH; [by apply wf_query_step|by apply none_step|done].
Qed.

Lemma none_answers now q : entry_of q w = None -> answers now q ∅.
Proof. unfold answers, invokeQueryHandler, liveEntry, entry_of. by intros ->. Qed.

Lemma none_open_answers now q : registry_wf q -> entry_of q w = None -> answers now (openQueryScope now w q).2 ∅.
Proof.
  intros Hwf Hn. destruct (open_entry now q (mkHold Unheld (qr_suspendedTtlMs q) (qr_scopes q))) as (_ & _ & He); [by split|].
  by apply (entry_answers now _ _ _ None He).
Qed.

Lemma ended_entry now q hs s : entry_of q w = Some (mkEntry hs (Some s) None) ->
  entry_of (scope_close now w s false q) w = None.
Proof.
  unfold scope_close, owned, entry_of. intros ->. cbn. rewrite bool_decide_true by done. apply jlookup_delete_eq.
Qed.

Lemma held_answers now q r : follows now q r -> answers now q (seen now (rh_hold r)).
Proof.
  intros [_ _ _ Hh] name. pose proof (live_is now q _ Hh) as Hl. rewrite seen_live. unfold invokeQueryHandler.
  destruct (liveEntry now w q) as [live q']. cbn in Hl. subst live. destruct (live_of now (rh_hold r)) as [e|]; cbn; [|done].
  by destruct (qe_handlers e !! name).
Qed.

Lemma suspend_entry now q hs s : entry_of q w = Some (mkEntry hs (Some s) None) ->
  entry_of (scope_close now w s true q) w = Some (mkEntry hs None (Some (now + qr_suspendedTtlMs q))).
Proof.
  unfold scope_close, owned, entry_of. intros ->. cbn. rewrite bool_decide_true by done. cbn. by rewrite jlookup_insert_eq.
Qed.

(** Once evicted, nothing of the entry is seen: by no call, swept or not. *)
Lemma expired_entry now q hs ev : entry_of q w = Some (mkEntry hs None (Some ev)) -> ev <= now ->
  answers now q ∅ /\ (hasQueryHandlers now w q).1 = false /\ (listQueryHandlers now w q).1 = [].
Proof.
  intros He Hev. unfold answers, invokeQueryHandler, hasQueryHandlers, listQueryHandlers, liveEntry. unfold entry_of in He.
  rewrite He. unfold evicted. cbn. destruct (ev <=? now) eqn:E; [done|lia].
Qed.
End one_workflow.

(** C27. The handlers of a run belong to the driver that holds its scope.
    However drivers open, reset and close scopes and register handlers, and
    whenever the sweep runs: queries are answered by exactly the handlers that
    the history of the calls left - those of the open scope, those of a run
    that suspended until their time is up, or those registered while no scope
    was open, which the next scope takes over. From the opening of a scope to
    its end the run answers with these and the handlers registered since;
    scopes that lost the run, and other runs, change nothing. Closed as
    suspended, the handlers go on answering for the configured time, for which
    nobody owns them, and are gone after it. Closed at the end of the run,
    they are gone at once, and a later scope finds none. *)
Theorem queries_belong_to_scope start (past : list (Z * QueryOp)) workflowId opened sched closed suspended ended now :
  let q0 := run_queries past initial_registry in
  let '(s, q1) := openQueryScope opened workflowId q0 in
  let q2 := run_queries sched q1 in
  let found := left_behind workflowId opened past in
  let handlers := handlers_after workflowId (Some s) found sched in
  let expiry := closed + qr_suspendedTtlMs q2 in
  let q3 := run_queries suspended (scope_close closed workflowId s true q2) in
  let handlers' := handlers_after workflowId None handlers suspended in
  let q4 := run_queries ended (scope_close closed workflowId s false q2) in
  clock_until start past opened ->
  Forall (fun e => undisturbed workflowId (Some s) e.2) sched ->
  Forall (fun e => e.1 < expiry /\ undisturbed workflowId None e.2) suspended ->
  Forall (fun e => no_new_handlers workflowId e.2) ended ->
  answers workflowId opened q0 found /\
  answers workflowId now q2 handlers /\
  (now < expiry -> answers workflowId now q3 handlers') /\
  (expiry <= now -> answers workflowId now q3 ∅ /\ (hasQueryHandlers now workflowId q3).1 = false) /\
  answers workflowId now q4 ∅ /\ answers workflowId now (openQueryScope now workflowId q4).2 ∅.
Proof.
  cbn zeta. destruct (openQueryScope opened workflowId (run_queries past initial_registry)) as [s q1] eqn:Eo.
  intros Hclk Hsched Hsusp Hend. pose proof (follows_past workflowId start past opened Hclk) as Hf.
  pose proof (open_entry workflowId opened _ _ Hf) as (Hwf1 & Hs & He1). rewrite Eo in *. cbn [fst snd] in *. rewrite <- Hs in He1.
  destruct (entry_run workflowId sched q1 _ _ _ Hwf1 He1) as [Hwf2 He2].
  { eapply Forall_impl; [exact Hsched|]. done. }
  pose proof (suspend_entry workflowId closed _ _ _ He2) as Hc.
  pose proof (wf_query_step closed (QClose workflowId s true) _ Hwf2) as Hwfc.
  destruct (entry_run workflowId suspended _ _ _ _ Hwfc Hc Hsusp) as [Hwf3 He3].
  pose proof (ended_entry workflowId closed _ _ _ He2) as Hn.
  destruct (none_run workflowId ended _ (wf_query_step closed (QClose workflowId s false) _ Hwf2) Hn Hend) as [Hwf4 Hn4].
  split; [by apply held_answers|]. split; [by apply (entry_answers workflowId now _ _ _ _ He2)|]. split; [|split; [|split]].
  - intros Hlt. by apply (entry_answers workflowId now _ _ _ _ He3).
  - intros Hle. destruct (expired_entry workflowId now _ _ _ He3 Hle) as (? & ? & _). done.
  - by apply none_answers.
  - by apply none_open_answers.
Qed.
End queries.
Arguments QueryOp : clear implicits.

(** A run that suspends, while a duplicate that lost the lock tries to end
    its scope. *)
Definition query_past : list (Z * QueryOp nat) := [(0, QOpen "w"); (1, QRegister "w" "old" 1%nat); (2, QClose "w" 0 true)].
Definition query_driver : list (Z * QueryOp nat) :=
  [(11, QRegister "w" "status" 2%nat); (12, QClose "w" 0 false); (13, QReset "w" 0); (14, QOpen "v"); (15, QClose "w" 2 true)].
Definition query_suspended : list (Z * QueryOp nat) := [(21, QOpen "u"); (22, QClose "w" 1 false); (5000, QOpen "t")].
Definition query_ended : list (Z * QueryOp nat) := [(21, QOpen "u"); (22, QClose "w" 1 false)].

Lemma queries_belong_to_scope_witness :
  let q2 := run_queries query_driver (openQueryScope 10 "w" (run_queries query_past initial_registry)).2 in
  (invokeQueryHandler 16 "w" "old" q2).1 = Ok 1%nat /\ (invokeQueryHandler 16 "w" "status" q2).1 = Ok 2%nat.
Proof.
  destruct (queries_belong_to_scope 0 query_past "w" 10 query_driver 20 query_suspended query_ended 16) as (_ & Ha & _).
  - vm_compute. intuition congruence.
  - repeat constructor; cbn; (congruence || (right; congruence) || done).
  - repeat constructor; cbn; (congruence || (right; congruence) || done).
  - repeat constructor; cbn; (congruence || done).
  - split; [exact (Ha "old")|exact (Ha "status")].
Defined.

(** A handler registered by a body that outlives its scope is owned by
    nobody and never evicted. *)
Example late_registration_stays :
  let q := run_queries [(0, QOpen "w"); (1, QClose "w" 0 false); (2, QRegister "w" "status" 1%nat); (10000000, QOpen "v")]
             initial_registry in
  (hasQueryHandlers 10000001 "w" q).1 = true.
Proof. vm_compute. reflexivity. Qed.

(** The next scope of the workflow answers with it. *)
Example late_handler_taken_over :
  let q := run_queries [(0, QOpen "w"); (1, QClose "w" 0 false); (2, QRegister "w" "status" 1%nat); (3, QOpen "w")]
             initial_registry in
  (invokeQueryHandler 4 "w" "status" q).1 = Ok 1%nat.
Proof. vm_compute. reflexivity. Qed.
