(* ===== verification/Namespaces.v ===== *)
(** Namespaces: [namespaces/namespace-registry.ts].

    Requests come from outside, so every field of an input is any value; the
    rows of the registry are what validation lets through. Numbers are
    integers; a value that is not finite is outside the model. *)
From S2P Require Import Prelude Leases Json Versions.
Open Scope string_scope.
Open Scope list_scope.
Open Scope Z_scope.

Inductive NamespaceStatus : Type := NsActive | NsArchived.
#[global] Instance NamespaceStatus_eq_dec : EqDecision NamespaceStatus.
Proof. solve_decision. Defined.

Inductive NamespaceField : Type := FId | FDisplayName | FDescription | FStatus | FCapabilities | FMetadata.
Definition field_name (f : NamespaceField) : string :=
  match f with
  | FId => "id" | FDisplayName => "displayName" | FDescription => "description"
  | FStatus => "status" | FCapabilities => "capabilities" | FMetadata => "metadata"
  end.

Inductive NamespaceError : Type :=
| InvalidNamespaceError (field : NamespaceField) (message : string)
| NamespaceExistsError (namespaceId message : string)
| NamespaceNotFoundError (namespaceId message : string).

Definition invalid (field : NamespaceField) (message : string) : NamespaceError :=
  InvalidNamespaceError field (field_name field +:+ ": " +:+ message).
Definition exists_error (id : string) : NamespaceError :=
  NamespaceExistsError id ("Namespace " +:+ quoted id +:+ " already exists").
Definition not_found_error (id : string) : NamespaceError :=
  NamespaceNotFoundError id ("Unknown namespace " +:+ quoted id).

Record NamespaceRecord : Type := mkNamespace {
  ns_id : string;
  ns_displayName : string;
  ns_description : option string;
  ns_status : NamespaceStatus;
  ns_capabilities : list (string * json);
  ns_metadata : list (string * json);
  ns_createdAt : Z;
  ns_updatedAt : Z;
}.

(** Inputs: an omitted field is [JUndef]. *)
Record CreateNamespaceInput : Type := mkCreate {
  ci_id : json;
  ci_displayName : json;
  ci_description : json;
  ci_capabilities : json;
  ci_metadata : json;
}.

Record NamespacePatch : Type := mkPatch {
  np_displayName : json;
  np_description : json;
  np_status : json;
  np_capabilities : json;
  np_metadata : json;
}.

(** ** Identifiers *)
Definition code (c : ascii) : N := Ascii.N_of_ascii c.
Definition in_range (c : ascii) (low high : N) : bool := N.leb low (code c) && N.leb (code c) high.
Definition is_alnum (c : ascii) : bool := in_range c 48 57 || in_range c 65 90 || in_range c 97 122.
(** [_ . : -] *)
Definition is_id_char (c : ascii) : bool :=
  is_alnum c || N.eqb (code c) 95 || N.eqb (code c) 46 || N.eqb (code c) 58 || N.eqb (code c) 45.

Definition MAX_NAMESPACE_DISPLAY_NAME_LENGTH : nat := 128.
Definition MAX_NAMESPACE_DESCRIPTION_LENGTH : nat := 1024.

Definition isValidNamespaceId (id : string) : bool :=
  match id with
  | "" => false
  | String c rest => is_alnum c && Nat.leb (String.length rest) 127 && forallb is_id_char (String.list_ascii_of_string rest)
  end.

Definition id_pattern : string := "/^[A-Za-z0-9][A-Za-z0-9_.:-]{0,127}$/".

(** ** Objects
    An object built by assignment from the entries of another one. Assigning
    to [__proto__] sets the prototype and no property. *)
Definition assign (k : string) (v : json) (out : list (string * json)) : list (string * json) :=
  if bool_decide (k = "__proto__") then out else alist_set k v out.

Section collect.
Context {E : Type} (f : string -> json -> res E (option json)).

Fixpoint collect (fs : list (string * json)) (out : list (string * json)) : res E (list (string * json)) :=
  match fs with
  | [] => Ok out
  | (k, v) :: fs =>
      match f k v with
      | Err e => Err e
      | Ok None => collect fs out
      | Ok (Some x) => collect fs (assign k x out)
      end
  end.
End collect.

(** ** Validation of fields *)
Definition parseNamespaceStatus (v : json) : res NamespaceError NamespaceStatus :=
  if bool_decide (v = JStr "active") then Ok NsActive
  else if bool_decide (v = JStr "archived") then Ok NsArchived
  else Err (invalid FStatus "must be one of active, archived").

Definition normalizeDisplayName (value : json) (fallback : string) : res NamespaceError string :=
  match value with
  | JUndef => Ok fallback
  | JStr s =>
      let label := trim s in
      if Nat.ltb MAX_NAMESPACE_DISPLAY_NAME_LENGTH (String.length label)
      then Err (invalid FDisplayName "must be at most 128 characters")
      else Ok (if bool_decide (label = "") then fallback else label)
  | _ => Err (invalid FDisplayName "must be a string")
  end.

Definition normalizeDescription (value : json) : res NamespaceError (option string) :=
  match value with
  | JNull => Ok None
  | JStr s =>
      if Nat.ltb MAX_NAMESPACE_DESCRIPTION_LENGTH (String.length s)
      then Err (invalid FDescription "must be at most 1024 characters") else Ok (Some s)
  | _ => Err (invalid FDescription "must be a string or null")
  end.

(** *** Capabilities *)
Inductive CapabilityFieldKind : Type := KBoolean | KPositiveInteger | KStringArray.

Definition CAPABILITY_SPEC : list (string * list (string * CapabilityFieldKind)) :=
  [("ai", [("enabled", KBoolean); ("providers", KStringArray); ("models", KStringArray);
           ("maxTokensPerTurn", KPositiveInteger); ("maxTurnsPerRun", KPositiveInteger)]);
   ("agents", [("enabled", KBoolean); ("maxConcurrentThreads", KPositiveInteger);
               ("maxInvocationsPerMinute", KPositiveInteger)]);
   ("workflows", [("enabled", KBoolean); ("maxConcurrentRuns", KPositiveInteger); ("maxRunMs", KPositiveInteger)]);
   ("tools", [("network", KBoolean); ("filesystem", KBoolean); ("shell", KBoolean)])].

Definition describeKind (k : CapabilityFieldKind) : string :=
  match k with
  | KBoolean => "boolean"
  | KPositiveInteger => "positive integer"
  | KStringArray => "list of non-empty strings"
  end.

Definition MAX_SAFE_INTEGER : Z := 2 ^ 53 - 1.

Definition nonempty_string (v : json) : bool := match v with JStr s => negb (bool_decide (s = "")) | _ => false end.

Definition of_kind (k : CapabilityFieldKind) (item : json) : bool :=
  match k, item with
  | KBoolean, JBool _ => true
  | KPositiveInteger, JNum n => (0 <? n) && (n <=? MAX_SAFE_INTEGER)
  | KStringArray, JArr l => forallb nonempty_string l
  | _, _ => false
  end.

Definition capability_field (sectionName : string) (spec : list (string * CapabilityFieldKind)) (key : string)
    (item : json) : res NamespaceError (option json) :=
  match item with
  | JUndef => Ok None
  | _ =>
      match alist_get key spec with
      | None => Err (invalid FCapabilities ("unknown field " +:+ quoted (sectionName +:+ "." +:+ key)))
      | Some kind =>
          if of_kind kind item then Ok (Some item)
          else Err (invalid FCapabilities (sectionName +:+ "." +:+ key +:+ " must be a " +:+ describeKind kind))
      end
  end.

Definition capability_section (sectionName : string) (section_ : json) : res NamespaceError (option json) :=
  match section_ with
  | JUndef => Ok None
  | _ =>
      match alist_get sectionName CAPABILITY_SPEC with
      | None => Err (invalid FCapabilities ("unknown section " +:+ quoted sectionName))
      | Some spec =>
          match section_ with
          | JObj fs =>
              match collect (capability_field sectionName spec) fs [] with
              | Ok fields => Ok (Some (JObj fields))
              | Err e => Err e
              end
          | _ => Err (invalid FCapabilities (sectionName +:+ " must be an object"))
          end
      end
  end.

Definition normalizeNamespaceCapabilities (value : json) : res NamespaceError (list (string * json)) :=
  match value with
  | JObj fs => collect capability_section fs []
  | _ => Err (invalid FCapabilities "must be an object")
  end.

(** *** Metadata *)
Section elements.
Context {E : Type} (f : Z -> json -> res E json).

Fixpoint collect_items (i : Z) (l : list json) : res E (list json) :=
  match l with
  | [] => Ok []
  | x :: l =>
      match f i x with
      | Err e => Err e
      | Ok y => match collect_items (i + 1) l with Ok ys => Ok (y :: ys) | Err e => Err e end
      end
  end.
End elements.

(** A JSON-safe deep copy; [path] starts with the metadata field. *)
Fixpoint jsonValue (path : string) (value : json) : res NamespaceError json :=
  match value with
  | JNull | JStr _ | JBool _ | JNum _ => Ok value
  | JArr l =>
      match collect_items (fun i item =>
              match item with JUndef => Ok JNull | _ => jsonValue (path +:+ "[" +:+ str_of_Z i +:+ "]") item end) 0 l with
      | Ok l => Ok (JArr l)
      | Err e => Err e
      end
  | JObj fs =>
      match collect (fun key item =>
              match item with
              | JUndef => Ok None
              | _ => match jsonValue (path +:+ "." +:+ key) item with Ok x => Ok (Some x) | Err e => Err e end
              end) fs [] with
      | Ok fs => Ok (JObj fs)
      | Err e => Err e
      end
  | JUndef | JDate _ => Err (invalid FMetadata (String.substring 9 (String.length path) path +:+ " is not JSON-serializable"))
  end.

Definition json_member (path key : string) (item : json) : res NamespaceError (option json) :=
  match item with
  | JUndef => Ok None
  | _ => match jsonValue (path +:+ "." +:+ key) item with Ok x => Ok (Some x) | Err e => Err e end
  end.

Definition jsonObject (path : string) (fs : list (string * json)) : res NamespaceError (list (string * json)) :=
  collect (json_member path) fs [].

Definition normalizeMetadata (value : json) : res NamespaceError (list (string * json)) :=
  match value with
  | JObj fs => jsonObject "metadata" fs
  | _ => Err (invalid FMetadata "must be an object")
  end.

(** *** Inputs *)
Definition nullish_or (v default : json) : json := match v with JUndef | JNull => default | _ => v end.

Record NormalizedNamespaceCreate : Type := mkNormalized {
  nc_id : string;
  nc_displayName : string;
  nc_description : option string;
  nc_capabilities : list (string * json);
  nc_metadata : list (string * json);
}.

Definition r_bind {E A B} (m : res E A) (k : A -> res E B) : res E B :=
  match m with Ok a => k a | Err e => Err e end.

Definition normalizeNamespaceCreate (input : CreateNamespaceInput) : res NamespaceError NormalizedNamespaceCreate :=
  match ci_id input with
  | JStr id =>
      if isValidNamespaceId id then
        r_bind (normalizeDisplayName (ci_displayName input) id) (fun displayName =>
        r_bind (normalizeDescription (nullish_or (ci_description input) JNull)) (fun description =>
        r_bind (normalizeNamespaceCapabilities (nullish_or (ci_capabilities input) (JObj []))) (fun capabilities =>
        r_bind (normalizeMetadata (nullish_or (ci_metadata input) (JObj []))) (fun metadata =>
        Ok (mkNormalized id displayName description capabilities metadata)))))
      else Err (invalid FId ("must match " +:+ id_pattern))
  | _ => Err (invalid FId ("must match " +:+ id_pattern))
  end.

(** The fields of a patch that are present, validated. *)
Record NormalizedPatch : Type := mkNormalizedPatch {
  pn_displayName : option string;
  pn_description : option (option string);
  pn_status : option NamespaceStatus;
  pn_capabilities : option (list (string * json));
  pn_metadata : option (list (string * json));
}.

Definition when_present {A} (v : json) (f : json -> res NamespaceError A) : res NamespaceError (option A) :=
  match v with JUndef => Ok None | _ => r_bind (f v) (fun a => Ok (Some a)) end.

Definition normalizeNamespacePatch (id : string) (patch : NamespacePatch) : res NamespaceError NormalizedPatch :=
  r_bind (when_present (np_displayName patch) (fun v => normalizeDisplayName v id)) (fun displayName =>
  r_bind (when_present (np_description patch) normalizeDescription) (fun description =>
  r_bind (when_present (np_status patch) parseNamespaceStatus) (fun status =>
  r_bind (when_present (np_capabilities patch) normalizeNamespaceCapabilities) (fun capabilities =>
  r_bind (when_present (np_metadata patch) normalizeMetadata) (fun metadata =>
  Ok (mkNormalizedPatch displayName description status capabilities metadata)))))).

(** ** [InMemoryNamespaceRegistry] *)
Abbreviation Rows := (jmap string NamespaceRecord).

Definition create (now : Z) (input : CreateNamespaceInput) : ST Rows NamespaceError NamespaceRecord := fun rows =>
  match normalizeNamespaceCreate input with
  | Err e => (Err e, rows)
  | Ok f =>
      match rows !! nc_id f with
      | Some _ => (Err (exists_error (nc_id f)), rows)
      | None =>
          let row := mkNamespace (nc_id f) (nc_displayName f) (nc_description f) NsActive (nc_capabilities f)
                       (nc_metadata f) now now in
          (Ok row, <[nc_id f := row]> rows)
      end
  end.

Definition get (id : string) (rows : Rows) : option NamespaceRecord := rows !! id.

Definition list_ (status : json) (rows : Rows) : res NamespaceError (list NamespaceRecord) :=
  r_bind (when_present status parseNamespaceStatus) (fun status =>
  Ok (jsort (fun a b => string_cmp (ns_id a) (ns_id b))
        (base.filter (fun row => status = None \/ status = Some (ns_status row)) (jm_values rows)))).

Definition apply_patch (now : Z) (p : NormalizedPatch) (row : NamespaceRecord) : NamespaceRecord :=
  mkNamespace (ns_id row) (opt_or (pn_displayName p) (ns_displayName row))
    (opt_or (pn_description p) (ns_description row)) (opt_or (pn_status p) (ns_status row))
    (opt_or (pn_capabilities p) (ns_capabilities row)) (opt_or (pn_metadata p) (ns_metadata row))
    (ns_createdAt row) now.

Definition update (now : Z) (id : string) (patch : NamespacePatch) : ST Rows NamespaceError NamespaceRecord := fun rows =>
  match normalizeNamespacePatch id patch with
  | Err e => (Err e, rows)
  | Ok p =>
      match rows !! id with
      | None => (Err (not_found_error id), rows)
      | Some row => let next := apply_patch now p row in (Ok next, <[ns_id next := next]> rows)
      end
  end.

Definition delete_ (id : string) (rows : Rows) : bool * Rows :=
  (bool_decide (is_Some (rows !! id)), delete id rows).

Inductive NamespaceOp : Type :=
| NsCreate (input : CreateNamespaceInput)
| NsUpdate (id : string) (patch : NamespacePatch)
| NsDelete (id : string).

Definition namespace_step (now : Z) (op : NamespaceOp) (rows : Rows) : Rows :=
  match op with
  | NsCreate input => (create now input rows).2
  | NsUpdate id patch => (update now id patch rows).2
  | NsDelete id => (delete_ id rows).2
  end.

Definition namespaces_after (sched : list (Z * NamespaceOp)) : Rows := run_ops namespace_step sched ∅.

(** ** What validation lets through *)
Lemma collect_app {E} (f : string -> json -> res E (option json)) fs out r :
  collect f fs out = Ok r -> (forall k v x, (k, v) ∈ fs -> f k v = Ok (Some x) -> f k x = Ok (Some x)) ->
  (NoDup out.*1 /\ Forall (fun e => e.1 <> "__proto__" /\ f e.1 e.2 = Ok (Some e.2)) out) ->
  NoDup r.*1 /\ Forall (fun e => e.1 <> "__proto__" /\ f e.1 e.2 = Ok (Some e.2)) r.
Proof.
  revert out. induction fs as [|[k v] fs IH]; intros out; cbn [collect]; [by intros [= ->]|].
  intros Hc Hf Ho. destruct (f k v) as [[x|]|e] eqn:Ev; [| |done].
  - apply (IH (assign k x out)); [done|intros k' v' x' Hin; apply Hf; by right|].
    assert (f k x = Ok (Some x)) as Hx by (apply (Hf k v); [left|done]). unfold assign.
    case_bool_decide as Hk; [done|]. destruct Ho as [Hnd Hall]. split.
    + pose proof (jm_wf_insert (JMap out) k x Hnd) as Hw. exact Hw.
    + clear -Hall Hx Hk. induction out as [|[k' v'] out IH]; cbn; [by repeat constructor|].
      apply Forall_cons in Hall as [H1 H2]. case_decide as Hkk; constructor; auto. cbn. by subst k.
  - apply (IH out); [done|intros k' v' x' Hin; apply Hf; by right|done].
Qed.

(** Entries that are their own copies are copied as they are. *)
Lemma collect_same {E} (f : string -> json -> res E (option json)) fs out :
  Forall (fun e => e.1 <> "__proto__" /\ f e.1 e.2 = Ok (Some e.2)) fs -> NoDup (out.*1 ++ fs.*1) ->
  collect f fs out = Ok (out ++ fs).
Proof.
  revert out. induction fs as [|[k v] fs IH]; intros out; cbn [collect]; [intros _ _; by rewrite app_nil_r|].
  intros [[Hk Hv] Hall]%Forall_cons Hnd. cbn [fst snd] in *. rewrite Hv. unfold assign.
  rewrite bool_decide_false by done.
  assert (alist_set k v out = out ++ [(k, v)]) as ->.
  { assert (k ∉ out.*1) as Hni.
    { apply NoDup_app in Hnd as (_ & Hd & _). intros Hin. apply (Hd k Hin). left. }
    clear -Hni. induction out as [|[k' v'] out IH]; cbn in *; [done|].
    apply not_elem_of_cons in Hni as [Hne Hni]. rewrite decide_False by done. by rewrite IH. }
  rewrite IH; [by rewrite <- app_assoc|done|]. rewrite fmap_app, <- app_assoc. done.
Qed.

Lemma collect_idempotent {E} (f : string -> json -> res E (option json)) fs r :
  collect f fs [] = Ok r -> (forall k v x, (k, v) ∈ fs -> f k v = Ok (Some x) -> f k x = Ok (Some x)) ->
  collect f r [] = Ok r.
Proof.
  intros Hc Hf. destruct (collect_app f fs [] r Hc Hf) as [Hnd Hall]; [by split; constructor|].
  by apply collect_same.
Qed.

Lemma capability_field_fixed sec spec k v x : capability_field sec spec k v = Ok (Some x) -> x = v.
Proof.
  unfold capability_field. destruct v; try done; (destruct (alist_get k spec) as [kind|]; [|done]);
    (destruct (of_kind _ _); [|done]); by intros [= <-].
Qed.

Lemma capability_section_fixed k v x : capability_section k v = Ok (Some x) -> capability_section k x = Ok (Some x).
Proof.
  unfold capability_section. destruct v as [| | | | | | |fs]; try done; destruct (alist_get k CAPABILITY_SPEC) as [spec|] eqn:E; try done.
  destruct (collect _ fs []) as [r|e] eqn:Ec; [|done]. intros [= <-]. rewrite (collect_idempotent _ _ _ Ec); [done|].
  intros k' v' x' _ Hx. by rewrite <- (capability_field_fixed _ _ _ _ _ Hx) in Hx at 1.
Qed.

Lemma capabilities_idempotent v r :
  normalizeNamespaceCapabilities v = Ok r -> normalizeNamespaceCapabilities (JObj r) = Ok r.
Proof.
  destruct v as [| | | | | | |fs]; try done. cbn. intros Hc. apply (collect_idempotent _ _ _ Hc).
  intros k v x _. apply capability_section_fixed.
Qed.

(** Values JSON carries as they are. *)
Fixpoint json_safe (v : json) : Prop :=
  match v with
  | JUndef | JDate _ => False
  | JNull | JBool _ | JNum _ | JStr _ => True
  | JArr l => (fix all l := match l with [] => True | x :: l => json_safe x /\ all l end) l
  | JObj fs =>
      NoDup fs.*1 /\
      (fix all (fs : list (string * json)) :=
         match fs with [] => True | e :: fs => (e.1 <> "__proto__" /\ json_safe e.2) /\ all fs end) fs
  end.

Lemma json_safe_arr l : json_safe (JArr l) <-> Forall json_safe l.
Proof.
  cbn. induction l as [|x l IH]; [split; [by constructor|done]|]. rewrite Forall_cons, <- IH. done.
Qed.

Lemma json_safe_obj fs : json_safe (JObj fs) <-> NoDup fs.*1 /\ Forall (fun e => e.1 <> "__proto__" /\ json_safe e.2) fs.
Proof.
  cbn. apply Morphisms_Prop.and_iff_morphism; [done|].
  induction fs as [|x fs IH]; [split; [by constructor|done]|]. rewrite Forall_cons, <- IH. done.
Qed.

Lemma collect_invariant {E} (P : json -> Prop) (f : string -> json -> res E (option json)) fs out r :
  collect f fs out = Ok r -> (forall k v x, (k, v) ∈ fs -> f k v = Ok (Some x) -> P x) ->
  NoDup out.*1 /\ Forall (fun e => e.1 <> "__proto__" /\ P e.2) out ->
  NoDup r.*1 /\ Forall (fun e => e.1 <> "__proto__" /\ P e.2) r.
Proof.
  revert out. induction fs as [|[k v] fs IH]; intros out; cbn [collect]; [by intros [= ->]|].
  intros Hc Hf [Hnd Hall]. destruct (f k v) as [[x|]|e] eqn:Ev; [| |done].
  - apply (IH (assign k x out)); [done|intros k' v' x' Hin; apply Hf; by right|].
    assert (P x) as Hx by (apply (Hf k v); [left|done]). unfold assign. case_bool_decide as Hk; [done|]. split.
    + exact (jm_wf_insert (JMap out) k x Hnd).
    + clear -Hall Hx Hk. induction out as [|[k' v'] out IH]; cbn; [by repeat constructor|].
      apply Forall_cons in Hall as [H1 H2]. case_decide as Hkk; constructor; auto. cbn. by subst k.
  - apply (IH out); [done|intros k' v' x' Hin; apply Hf; by right|done].
Qed.

Lemma collect_items_forall {E} (P : json -> Prop) (f : Z -> json -> res E json) l i r :
  collect_items f i l = Ok r -> (forall i x y, x ∈ l -> f i x = Ok y -> P y) -> Forall P r.
Proof.
  revert i r. induction l as [|x l IH]; intros i r; cbn [collect_items]; [intros [= <-] _; constructor|].
  destruct (f i x) as [y|e] eqn:Ey; [|done]. destruct (collect_items f (i + 1) l) as [ys|e] eqn:Es; [|done].
  intros [= <-] Hf. constructor; [by apply (Hf i x); [left|]|]. apply (IH _ _ Es). intros j z w Hin. apply Hf. by right.
Qed.

Lemma jsonValue_safe path v r : jsonValue path v = Ok r -> json_safe r.
Proof.
  revert path r. induction v as [| |b|n|s|ms|l IH|fs IH] using json_ind'; intros path r; cbn [jsonValue];
    try (by intros [= <-]); try done.
  - destruct (collect_items _ 0 l) as [l'|e] eqn:Ec; [|done]. intros [= <-]. apply json_safe_arr.
    apply (collect_items_forall _ _ _ _ _ Ec). intros i x y Hin. rewrite Forall_forall in IH.
    destruct x; try apply (IH _ Hin). by intros [= <-].
  - destruct (collect _ fs []) as [r'|e] eqn:Ec; [|done]. intros [= <-]. apply json_safe_obj.
    apply (collect_invariant _ _ _ _ _ Ec); [|by split; constructor]. intros k v x Hin. rewrite Forall_forall in IH.
    specialize (IH _ Hin). cbn in IH. destruct v; try done;
      (match goal with |- context [jsonValue ?p ?w] => destruct (jsonValue p w) as [y|e] eqn:Ey end; [|done]);
      intros [= <-]; by apply (IH _ _ Ey).
Qed.

Lemma collect_items_same {E} (f : Z -> json -> res E json) l i :
  (forall i x, x ∈ l -> f i x = Ok x) -> collect_items f i l = Ok l.
Proof.
  revert i. induction l as [|x l IH]; intros i Hf; cbn [collect_items]; [done|].
  rewrite (Hf i x) by left. rewrite IH; [done|]. intros j y Hin. apply Hf. by right.
Qed.

Lemma jsonValue_same path v : json_safe v -> jsonValue path v = Ok v.
Proof.
  revert path. induction v as [| |b|n|s|ms|l IH|fs IH] using json_ind'; intros path Hs; cbn [jsonValue]; try done.
  - apply json_safe_arr in Hs. rewrite collect_items_same; [done|]. intros i x Hin. rewrite Forall_forall in IH, Hs.
    specialize (Hs _ Hin). specialize (IH _ Hin (path +:+ "[" +:+ str_of_Z i +:+ "]") Hs). by destruct x.
  - apply json_safe_obj in Hs as [Hnd Hall]. rewrite collect_same; [done| |done].
    rewrite Forall_forall in IH, Hall |- *. intros [k x] Hin. specialize (Hall _ Hin). cbn in *. destruct Hall as [Hk Hx].
    split; [done|]. specialize (IH _ Hin (path +:+ "." +:+ k) Hx). cbn in IH. destruct x; by rewrite ?IH.
Qed.

(** ** Labels *)
Lemma trimEnd_idem s : trimEnd (trimEnd s) = trimEnd s.
Proof.
  induction s as [|c s IH]; [done|]. cbn. destruct (is_space c && bool_decide (trimEnd s = "")) eqn:E; [done|].
  cbn. by rewrite IH, E.
Qed.

Lemma trimStart_head s : trimStart s = "" \/ exists c r, trimStart s = String c r /\ is_space c = false.
Proof. induction s as [|c s IH]; cbn; [by left|]. destruct (is_space c) eqn:E; [done|]. right. by exists c, s. Qed.

Lemma trim_idem s : trim (trim s) = trim s.
Proof.
  unfold trim. destruct (trimStart_head s) as [->|(c & r & -> & Hc)]; [done|].
  assert (trimStart (trimEnd (String c r)) = trimEnd (String c r)) as ->.
  { cbn. rewrite Hc. cbn. by rewrite Hc. }
  apply trimEnd_idem.
Qed.

Lemma trimEnd_same s : forallb (fun c => negb (is_space c)) (String.list_ascii_of_string s) = true -> trimEnd s = s.
Proof.
  induction s as [|c s IH]; cbn; [done|]. intros [Hc Hs]%andb_true_iff. rewrite (IH Hs). by destruct (is_space c).
Qed.

Lemma id_char_no_space c : is_id_char c || is_alnum c = true -> is_space c = false.
Proof. destruct c as [[] [] [] [] [] [] [] []]; vm_compute; done. Qed.

Lemma trim_id id : isValidNamespaceId id = true -> trim id = id /\ id <> "" /\ (String.length id <= 128)%nat.
Proof.
  destruct id as [|c rest]; [done|]. cbn [isValidNamespaceId]. intros [[Hc Hlen]%andb_true_iff Hrest]%andb_true_iff.
  split; [|split; [done|apply Nat.leb_le in Hlen; cbn; lia]]. assert (is_space c = false) as Hs.
  { apply id_char_no_space. rewrite Hc. by rewrite orb_true_r. }
  unfold trim. assert (trimStart (String c rest) = String c rest) as -> by (cbn; by rewrite Hs). apply trimEnd_same.
  cbn. rewrite Hs. cbn. clear -Hrest. induction rest as [|d rest IH]; cbn in *; [done|].
  apply andb_true_iff in Hrest as [Hd Hr]. rewrite (id_char_no_space d) by (by rewrite Hd). by apply IH.
Qed.

(** ** The rows of a registry *)
Definition label_ok (s : string) : Prop := trim s = s /\ s <> "" /\ (String.length s <= MAX_NAMESPACE_DISPLAY_NAME_LENGTH)%nat.

Record row_typed (row : NamespaceRecord) : Prop := {
  rt_id : isValidNamespaceId (ns_id row) = true;
  rt_label : label_ok (ns_displayName row);
  rt_description : forall s, ns_description row = Some s -> (String.length s <= MAX_NAMESPACE_DESCRIPTION_LENGTH)%nat;
  rt_capabilities : normalizeNamespaceCapabilities (JObj (ns_capabilities row)) = Ok (ns_capabilities row);
  rt_metadata : json_safe (JObj (ns_metadata row));
}.

Lemma label_normal v fallback r : normalizeDisplayName v fallback = Ok r -> label_ok fallback -> label_ok r.
Proof.
  unfold normalizeDisplayName. intros Hn Hf. destruct v as [| | | |s| | |]; try done; [by injection Hn as <-|].
  destruct (Nat.ltb _ _) eqn:El; [done|]. injection Hn as <-. case_bool_decide as Hb; [done|].
  split; [apply trim_idem|]. split; [done|]. apply Nat.ltb_ge in El. done.
Qed.

Lemma description_normal v r s : normalizeDescription v = Ok r -> r = Some s -> (String.length s <= MAX_NAMESPACE_DESCRIPTION_LENGTH)%nat.
Proof.
  unfold normalizeDescription. destruct v as [| | | |t| | |]; try done; [by intros [= <-]|].
  destruct (Nat.ltb _ _) eqn:El; [done|]. intros [= <-] [= <-]. by apply Nat.ltb_ge in El.
Qed.

Lemma metadata_safe v r : normalizeMetadata v = Ok r -> json_safe (JObj r).
Proof.
  destruct v as [| | | | | | |fs]; try done. cbn [normalizeMetadata]. intros Hc. apply json_safe_obj.
  apply (collect_invariant _ _ _ _ _ Hc); [|by split; constructor]. intros k v x _. unfold json_member.
  destruct v; try done; (match goal with |- context [jsonValue ?p ?w] => destruct (jsonValue p w) as [y|e] eqn:Ey end; [|done]);
    intros [= <-]; by apply (jsonValue_safe _ _ _ Ey).
Qed.

Lemma metadata_same fs : json_safe (JObj fs) -> normalizeMetadata (JObj fs) = Ok fs.
Proof.
  intros [Hnd Hall]%json_safe_obj. cbn [normalizeMetadata]. unfold jsonObject. apply (collect_same _ _ []); [|done].
  eapply Forall_impl; [exact Hall|]. intros [k x] [Hk Hx]. split; [done|]. cbn in *. unfold json_member.
  rewrite (jsonValue_same _ x Hx). by destruct x.
Qed.

Lemma created_typed input f now : normalizeNamespaceCreate input = Ok f ->
  row_typed (mkNamespace (nc_id f) (nc_displayName f) (nc_description f) NsActive (nc_capabilities f) (nc_metadata f) now now).
Proof.
  unfold normalizeNamespaceCreate. destruct (ci_id input) as [| | | |id| | |]; try done.
  destruct (isValidNamespaceId id) eqn:Hid; [|done].
  destruct (normalizeDisplayName _ _) as [l|] eqn:El; [|done]. cbn [r_bind].
  destruct (normalizeDescription _) as [d|] eqn:Ed; [|done]. cbn [r_bind].
  destruct (normalizeNamespaceCapabilities _) as [c|] eqn:Ec; [|done]. cbn [r_bind].
  destruct (normalizeMetadata _) as [m|] eqn:Em; [|done]. cbn [r_bind]. intros [= <-]. split; cbn.
  - done.
  - by apply (label_normal _ _ _ El), trim_id.
  - intros s. by apply (description_normal _ _ _ Ed).
  - by apply (capabilities_idempotent _ _ Ec).
  - by apply (metadata_safe _ _ Em).
Qed.

Lemma when_present_Some {A} v (f : json -> res NamespaceError A) a : when_present v f = Ok (Some a) -> f v = Ok a.
Proof. unfold when_present, r_bind. destruct v; [done|..]; (destruct (f _); [by intros [= ->]|done]). Qed.

Lemma patch_typed id patch p row now : normalizeNamespacePatch id patch = Ok p -> ns_id row = id -> row_typed row ->
  row_typed (apply_patch now p row).
Proof.
  unfold normalizeNamespacePatch. intros Hp <- [Hid Hl Hd Hc Hm].
  destruct (when_present (np_displayName patch) _) as [l|] eqn:El; [|done]. cbn [r_bind] in Hp.
  destruct (when_present (np_description patch) _) as [d|] eqn:Ed; [|done]. cbn [r_bind] in Hp.
  destruct (when_present (np_status patch) _) as [s|] eqn:Es; [|done]. cbn [r_bind] in Hp.
  destruct (when_present (np_capabilities patch) _) as [c|] eqn:Ec; [|done]. cbn [r_bind] in Hp.
  destruct (when_present (np_metadata patch) _) as [m|] eqn:Em; [|done]. injection Hp as <-. split; cbn.
  - done.
  - destruct l as [l|]; cbn; [|done]. apply when_present_Some in El. by apply (label_normal _ _ _ El), trim_id.
  - destruct d as [d|]; cbn; [|done]. apply when_present_Some in Ed. intros s'. by apply (description_normal _ _ _ Ed).
  - destruct c as [c|]; cbn; [|done]. apply when_present_Some in Ec. by apply (capabilities_idempotent _ _ Ec).
  - destruct m as [m|]; cbn -[json_safe]; [|done]. apply when_present_Some in Em. by apply (metadata_safe _ _ Em).
Qed.

(** *** Policies that have their declared types *)
Definition field_typed (kind : CapabilityFieldKind) (item : json) : Prop :=
  match kind with
  | KBoolean => exists b, item = JBool b
  | KPositiveInteger => exists n, item = JNum n /\ 0 < n < 2 ^ 53
  | KStringArray => exists l, item = JArr (JStr <$> l) /\ "" ∉ l
  end.

Definition section_typed (sectionName : string) (section_ : json) : Prop :=
  exists spec fs, alist_get sectionName CAPABILITY_SPEC = Some spec /\ section_ = JObj fs /\ NoDup fs.*1 /\
    forall key item, (key, item) ∈ fs -> exists kind, alist_get key spec = Some kind /\ field_typed kind item.

Definition policy_typed (policy : list (string * json)) : Prop :=
  NoDup policy.*1 /\ forall sectionName section_, (sectionName, section_) ∈ policy -> section_typed sectionName section_.

Lemma strings_typed (l : list json) : forallb nonempty_string l = true -> exists l', l = JStr <$> l' /\ "" ∉ l'.
Proof.
  induction l as [|x l IH]; cbn; [intros _; exists []; by split; [|apply not_elem_of_nil]|].
  intros [Hx Hl]%andb_true_iff. destruct (IH Hl) as (l' & -> & Hni). destruct x as [| | | |s| | |]; try done.
  exists (s :: l'). split; [done|]. cbn in Hx. apply negb_true_iff, bool_decide_eq_false in Hx.
  apply not_elem_of_cons. by split.
Qed.

Lemma of_kind_typed kind item : of_kind kind item = true -> field_typed kind item.
Proof.
  destruct kind, item as [| |b|n|s|ms|l|fs]; cbn; try done; [intros _; by exists b| |].
  - unfold MAX_SAFE_INTEGER. intros [H1 H2]%andb_true_iff. exists n. split; [done|]. lia.
  - intros (l' & -> & Hni)%strings_typed. by exists l'.
Qed.

Lemma capability_field_typed sec spec k v x : capability_field sec spec k v = Ok (Some x) ->
  exists kind, alist_get k spec = Some kind /\ field_typed kind x.
Proof.
  intros Hx. pose proof (capability_field_fixed _ _ _ _ _ Hx) as ->. revert Hx. unfold capability_field.
  destruct v; try done; (destruct (alist_get k spec) as [kind|]; [|done]);
    (destruct (of_kind _ _) eqn:Ek; [|done]); intros _; exists kind; (split; [done|by apply of_kind_typed]).
Qed.

Lemma collect_entries {E} (P : string -> json -> Prop) (f : string -> json -> res E (option json)) fs out r :
  collect f fs out = Ok r -> (forall k v x, f k v = Ok (Some x) -> P k x) ->
  NoDup out.*1 /\ (forall k v, (k, v) ∈ out -> P k v) -> NoDup r.*1 /\ (forall k v, (k, v) ∈ r -> P k v).
Proof.
  intros Hc Hf. revert out Hc. induction fs as [|[k v] fs IH]; intros out; cbn [collect]; [by intros [= ->]|].
  destruct (f k v) as [[x|]|e] eqn:Ev; [|by apply IH|done]. intros Hc [Hnd Hall]. apply (IH _ Hc). unfold assign.
  case_bool_decide as Hk; [done|]. split; [exact (jm_wf_insert (JMap out) k x Hnd)|].
  apply Hf in Ev. clear -Hall Ev. induction out as [|[k1 v1] out IHo]; cbn; intros k' v'.
  - intros [= -> ->]%list_elem_of_singleton. done.
  - case_decide as Hkk.
    + intros [[= -> ->]|Hin]%elem_of_cons; [by subst|]. apply Hall. by right.
    + intros [[= -> ->]|Hin]%elem_of_cons; [apply Hall; by left|]. apply IHo; [|done]. intros k0 v0 H0. apply Hall. by right.
Qed.

Lemma capability_section_typed k v x : capability_section k v = Ok (Some x) -> section_typed k x.
Proof.
  unfold capability_section. destruct v as [| | | | | | |fs]; try done; destruct (alist_get k CAPABILITY_SPEC) as [spec|] eqn:E; try done.
  destruct (collect _ fs []) as [r|e] eqn:Ec; [|done]. intros [= <-]. exists spec, r. split; [done|]. split; [done|].
  apply (collect_entries _ _ _ _ _ Ec); [apply capability_field_typed|]. by split; [constructor|intros k' v' Hin; apply not_elem_of_nil in Hin].
Qed.

Lemma capabilities_typed v r : normalizeNamespaceCapabilities v = Ok r -> policy_typed r.
Proof.
  destruct v as [| | | | | | |fs]; try done. cbn [normalizeNamespaceCapabilities]. intros Hc.
  apply (collect_entries _ _ _ _ _ Hc); [apply capability_section_typed|].
  by split; [constructor|intros k' v' Hin; apply not_elem_of_nil in Hin].
Qed.

(** *** Every row is stored under its id *)
Definition rows_ok (rows : Rows) : Prop :=
  jm_wf rows /\ forall id row, rows !! id = Some row -> ns_id row = id /\ row_typed row.

Lemma created_row now input row rows rows' : create now input rows = (Ok row, rows') ->
  rows !! ns_id row = None /\ rows' = <[ns_id row := row]> rows /\ row_typed row /\ ns_status row = NsActive.
Proof.
  unfold create. destruct (normalizeNamespaceCreate input) as [f|e] eqn:Ef; [|done].
  destruct (rows !! nc_id f) as [old|] eqn:El; [done|]. intros [= <- <-]. cbn. split; [done|]. split; [done|].
  split; [|done]. by apply (created_typed _ _ _ Ef).
Qed.

Lemma update_ok now id patch row rows rows' : rows_ok rows -> update now id patch rows = (Ok row, rows') ->
  exists old, rows !! id = Some old /\ ns_id row = id /\ ns_createdAt row = ns_createdAt old /\
    rows' = <[id := row]> rows /\ row_typed row.
Proof.
  intros [_ Hrows]. unfold update. destruct (normalizeNamespacePatch id patch) as [p|e] eqn:Ep; [|done].
  destruct (rows !! id) as [old|] eqn:El; [|done]. destruct (Hrows _ _ El) as [Hid Ht]. intros [= <- <-].
  exists old. cbn. rewrite Hid. repeat split; try done; by apply (patch_typed _ _ _ _ now Ep Hid Ht).
Qed.

Lemma rows_ok_insert rows row : rows_ok rows -> row_typed row -> rows_ok (<[ns_id row := row]> rows).
Proof.
  intros [Hwf Hrows] Ht. split; [by apply jm_wf_insert|]. intros id r. rewrite jlookup_insert.
  case_decide as Hk; [intros [= <-]; by split|apply Hrows].
Qed.

(** A call that fails changes nothing. *)
Lemma create_failed now input e rows rows' : create now input rows = (Err e, rows') -> rows' = rows.
Proof.
  unfold create. destruct (normalizeNamespaceCreate input) as [f|e']; [|by intros [= _ <-]].
  destruct (rows !! nc_id f); [by intros [= _ <-]|done].
Qed.

Lemma update_failed now id patch e rows rows' : update now id patch rows = (Err e, rows') -> rows' = rows.
Proof.
  unfold update. destruct (normalizeNamespacePatch id patch) as [p|e']; [|by intros [= _ <-]].
  destruct (rows !! id); [done|by intros [= _ <-]].
Qed.

Lemma rows_ok_step now op rows : rows_ok rows -> rows_ok (namespace_step now op rows).
Proof.
  intros Hok. destruct op as [input|id patch|id]; cbn.
  - destruct (create now input rows) as [[row|e] rows'] eqn:E; [|by apply create_failed in E as ->].
    apply created_row in E as (_ & -> & Ht & _). by apply rows_ok_insert.
  - destruct (update now id patch rows) as [[row|e] rows'] eqn:E; [|by apply update_failed in E as ->].
    apply (update_ok _ _ _ _ _ _ Hok) in E as (old & _ & <- & _ & -> & Ht). by apply rows_ok_insert.
  - destruct Hok as [Hwf Hrows]. split; [by apply jm_wf_delete|]. intros id' row. rewrite jlookup_delete.
    case_decide; [done|apply Hrows].
Qed.

Lemma rows_ok_after sched : rows_ok (namespaces_after sched).
Proof.
  unfold namespaces_after. apply run_ops_inv_all; [intros; by apply rows_ok_step|]. by split; [apply jm_wf_empty|].
Qed.

(** The fields of a row as the input of another [create]. *)
Definition as_input (row : NamespaceRecord) : CreateNamespaceInput :=
  mkCreate (JStr (ns_id row)) (JStr (ns_displayName row)) (from_option JStr JNull (ns_description row))
    (JObj (ns_capabilities row)) (JObj (ns_metadata row)).

Lemma row_normal row : row_typed row ->
  normalizeNamespaceCreate (as_input row) =
    Ok (mkNormalized (ns_id row) (ns_displayName row) (ns_description row) (ns_capabilities row) (ns_metadata row)).
Proof.
  intros [Hid (Htrim & Hne & Hlen) Hd Hc Hm]. unfold normalizeNamespaceCreate, as_input. cbn [ci_id ci_displayName ci_description ci_capabilities ci_metadata].
  rewrite Hid. cbn [normalizeDisplayName]. rewrite Htrim, bool_decide_false by done.
  apply Nat.ltb_ge in Hlen. rewrite Hlen. cbn [r_bind nullish_or].
  assert (normalizeDescription (nullish_or (from_option JStr JNull (ns_description row)) JNull) = Ok (ns_description row)) as ->.
  { destruct (ns_description row) as [s|]; [|done]. cbn [from_option nullish_or normalizeDescription]. specialize (Hd s eq_refl). apply Nat.ltb_ge in Hd. by rewrite Hd. }
  cbn [r_bind]. by rewrite Hc, (metadata_same _ Hm).
Qed.

(** *** Lists *)
Lemma values_of_rows rows row : rows_ok rows -> row ∈ jm_values rows <-> rows !! ns_id row = Some row.
Proof.
  intros [Hwf Hrows]. rewrite jm_values_elem. split.
  - intros [id Hin]. pose proof (jlookup_wf_elem rows id row Hwf Hin) as Hl.
    destruct (Hrows _ _ Hl) as [Hid _]. by rewrite Hid.
  - intros Hl. exists (ns_id row). by apply jlookup_elem.
Qed.

Lemma ids_distinct rows : rows_ok rows -> NoDup (ns_id <$> jm_values rows).
Proof.
  intros [Hwf Hrows]. assert (ns_id <$> jm_values rows = jm_keys rows) as ->; [|done].
  unfold jm_values, jm_keys. rewrite <- list_fmap_compose. apply list_fmap_ext. intros i [id row] Hi. cbn.
  apply list_elem_of_lookup_2 in Hi. by destruct (Hrows _ _ (jlookup_wf_elem rows id row Hwf Hi)).
Qed.

Definition before (a b : NamespaceRecord) : Prop := string_cmp (ns_id a) (ns_id b) < 0.

Lemma listed rows status l : rows_ok rows -> list_ status rows = Ok l ->
  StronglySorted before l /\
  forall row, row ∈ l <-> rows !! ns_id row = Some row /\
    (status = JUndef \/ status = JStr (match ns_status row with NsActive => "active" | NsArchived => "archived" end)).
Proof.
  intros Hok. unfold list_. destruct (when_present status parseNamespaceStatus) as [st|e] eqn:Est; [|done].
  cbn [r_bind]. intros [= <-]. set (f := base.filter _ _). split.
  - pose proof (jsort_sorted (fun a b => string_cmp (ns_id a) (ns_id b)) f) as Hs.
    assert (NoDup (ns_id <$> jsort (fun a b => string_cmp (ns_id a) (ns_id b)) f)) as Hnd.
    { rewrite jsort_perm. apply (sublist_NoDup _ (ns_id <$> jm_values rows)); [by apply ids_distinct|].
      apply fmap_sublist, sublist_filter. }
    by apply (sorted_strict ns_id).
  - intros row. rewrite elem_of_jsort. unfold f. rewrite list_elem_of_filter, (values_of_rows rows row Hok).
    assert (st = None \/ st = Some (ns_status row) <->
      status = JUndef \/ status = JStr (match ns_status row with NsActive => "active" | NsArchived => "archived" end)) as ->; [|tauto].
    clear f. unfold when_present, parseNamespaceStatus, r_bind in Est.
    destruct status; try (injection Est as <-; tauto); repeat case_bool_decide; try done; injection Est as <-;
      destruct (ns_status row); intuition congruence.
Qed.

(** *** Updates of different fields *)
Definition different_fields (p q : NamespacePatch) : Prop :=
  (np_displayName p = JUndef \/ np_displayName q = JUndef) /\ (np_description p = JUndef \/ np_description q = JUndef) /\
  (np_status p = JUndef \/ np_status q = JUndef) /\ (np_capabilities p = JUndef \/ np_capabilities q = JUndef) /\
  (np_metadata p = JUndef \/ np_metadata q = JUndef).

Lemma when_absent {A} (f : json -> res NamespaceError A) : when_present JUndef f = Ok None.
Proof. done. Qed.

Lemma normal_absent id patch p : normalizeNamespacePatch id patch = Ok p ->
  (np_displayName patch = JUndef -> pn_displayName p = None) /\ (np_description patch = JUndef -> pn_description p = None) /\
  (np_status patch = JUndef -> pn_status p = None) /\ (np_capabilities patch = JUndef -> pn_capabilities p = None) /\
  (np_metadata patch = JUndef -> pn_metadata p = None).
Proof.
  unfold normalizeNamespacePatch. intros Hp.
  destruct (when_present (np_displayName patch) _) as [l|] eqn:El; [|done]. cbn [r_bind] in Hp.
  destruct (when_present (np_description patch) _) as [d|] eqn:Ed; [|done]. cbn [r_bind] in Hp.
  destruct (when_present (np_status patch) _) as [s|] eqn:Es; [|done]. cbn [r_bind] in Hp.
  destruct (when_present (np_capabilities patch) _) as [c|] eqn:Ec; [|done]. cbn [r_bind] in Hp.
  destruct (when_present (np_metadata patch) _) as [m|] eqn:Em; [|done]. injection Hp as <-. cbn.
  repeat split; intros Hu; rewrite Hu, when_absent in *; congruence.
Qed.

Lemma apply_patches_commute t id p q p' q' row : different_fields p q ->
  normalizeNamespacePatch id p = Ok p' -> normalizeNamespacePatch id q = Ok q' ->
  apply_patch t q' (apply_patch t p' row) = apply_patch t p' (apply_patch t q' row).
Proof.
  intros (H1 & H2 & H3 & H4 & H5) (P1 & P2 & P3 & P4 & P5)%normal_absent (Q1 & Q2 & Q3 & Q4 & Q5)%normal_absent.
  unfold apply_patch. cbn. f_equal.
  - destruct H1 as [H1|H1]; [rewrite (P1 H1)|rewrite (Q1 H1)]; done.
  - destruct H2 as [H2|H2]; [rewrite (P2 H2)|rewrite (Q2 H2)]; done.
  - destruct H3 as [H3|H3]; [rewrite (P3 H3)|rewrite (Q3 H3)]; done.
  - destruct H4 as [H4|H4]; [rewrite (P4 H4)|rewrite (Q4 H4)]; done.
  - destruct H5 as [H5|H5]; [rewrite (P5 H5)|rewrite (Q5 H5)]; done.
Qed.

Lemma updates_commute t id p q rows : rows_ok rows -> different_fields p q ->
  (update t id q (update t id p rows).2).2 = (update t id p (update t id q rows).2).2.
Proof.
  intros [_ Hrows] Hd. unfold update.
  destruct (normalizeNamespacePatch id p) as [p'|e] eqn:Ep, (normalizeNamespacePatch id q) as [q'|e'] eqn:Eq; cbn; try done;
    destruct (rows !! id) as [row|] eqn:El; cbn; rewrite ?El; cbn; try done.
  destruct (Hrows _ _ El) as [Hid _]. rewrite Hid, !jlookup_insert_eq. cbn. rewrite Hid, !jm_insert_insert.
  by rewrite (apply_patches_commute t id p q p' q').
Qed.

(** ** What a call stores *)
(** The stored field that a sent value stands for. *)
Definition sent_label (v : json) (fallback r : string) : Prop :=
  match v with
  | JUndef => r = fallback
  | JStr s => r = if bool_decide (trim s = "") then fallback else trim s
  | _ => False
  end.

Definition sent_description (v : json) (r : option string) : Prop :=
  (v = JNull /\ r = None) \/ exists s, v = JStr s /\ r = Some s.

Definition sent_status (v : json) (r : NamespaceStatus) : Prop :=
  v = JStr (match r with NsActive => "active" | NsArchived => "archived" end).

(** Well-typed members are stored as they were sent, and no member that was
    not sent. *)
Definition sent_members (ok : list (string * json) -> Prop) (v : json) (r : list (string * json)) : Prop :=
  exists fs, v = JObj fs /\ (ok fs -> r = fs) /\ r.*1 ⊆ fs.*1.

Definition sent_policy := sent_members policy_typed.
Definition sent_metadata := sent_members (fun fs => json_safe (JObj fs)).

(** [field v sent kept]: [sent] for a value that is there, [kept] for none. *)
Definition field (v : json) (sent kept : Prop) : Prop := match v with JUndef => kept | _ => sent end.
Definition is_nullish (v : json) : bool := match v with JUndef | JNull => true | _ => false end.

(** An update sets the fields its patch has, and no other. *)
Definition patched (now : Z) (patch : NamespacePatch) (old row : NamespaceRecord) : Prop :=
  ns_id row = ns_id old /\ ns_createdAt row = ns_createdAt old /\ ns_updatedAt row = now /\
  field (np_displayName patch) (sent_label (np_displayName patch) (ns_id old) (ns_displayName row))
    (ns_displayName row = ns_displayName old) /\
  field (np_description patch) (sent_description (np_description patch) (ns_description row))
    (ns_description row = ns_description old) /\
  field (np_status patch) (sent_status (np_status patch) (ns_status row)) (ns_status row = ns_status old) /\
  field (np_capabilities patch) (sent_policy (np_capabilities patch) (ns_capabilities row))
    (ns_capabilities row = ns_capabilities old) /\
  field (np_metadata patch) (sent_metadata (np_metadata patch) (ns_metadata row)) (ns_metadata row = ns_metadata old).

(** A new row has the fields that were sent, and defaults for the others. *)
Definition created_from (now : Z) (input : CreateNamespaceInput) (row : NamespaceRecord) : Prop :=
  ci_id input = JStr (ns_id row) /\ ns_status row = NsActive /\ ns_createdAt row = now /\ ns_updatedAt row = now /\
  sent_label (ci_displayName input) (ns_id row) (ns_displayName row) /\
  (if is_nullish (ci_description input) then ns_description row = None
   else sent_description (ci_description input) (ns_description row)) /\
  (if is_nullish (ci_capabilities input) then ns_capabilities row = []
   else sent_policy (ci_capabilities input) (ns_capabilities row)) /\
  (if is_nullish (ci_metadata input) then ns_metadata row = [] else sent_metadata (ci_metadata input) (ns_metadata row)).

(** Values of the declared types. *)
Definition label_fits (v : json) : Prop :=
  v = JUndef \/ exists s, v = JStr s /\ (String.length (trim s) <= MAX_NAMESPACE_DISPLAY_NAME_LENGTH)%nat.
Definition description_fits (v : json) : Prop :=
  v = JUndef \/ v = JNull \/ exists s, v = JStr s /\ (String.length s <= MAX_NAMESPACE_DESCRIPTION_LENGTH)%nat.
Definition members_fit (ok : list (string * json) -> Prop) (v : json) : Prop := v = JUndef \/ exists fs, v = JObj fs /\ ok fs.

Definition well_typed_create (input : CreateNamespaceInput) (id : string) : Prop :=
  ci_id input = JStr id /\ isValidNamespaceId id = true /\ label_fits (ci_displayName input) /\
  description_fits (ci_description input) /\ members_fit policy_typed (ci_capabilities input) /\
  members_fit (fun fs => json_safe (JObj fs)) (ci_metadata input).

Definition well_typed_patch (patch : NamespacePatch) : Prop :=
  label_fits (np_displayName patch) /\ description_fits (np_description patch) /\
  (np_status patch = JUndef \/ exists s, sent_status (np_status patch) s) /\
  members_fit policy_typed (np_capabilities patch) /\ members_fit (fun fs => json_safe (JObj fs)) (np_metadata patch).

Lemma label_sent v fallback r : normalizeDisplayName v fallback = Ok r -> sent_label v fallback r.
Proof.
  destruct v as [| | | |s| | |]; try done; cbn -[Nat.ltb]; [by intros [= ->]|].
  destruct (Nat.ltb _ _); [done|]. by intros [= <-].
Qed.

Lemma description_sent v r : normalizeDescription v = Ok r -> sent_description v r.
Proof.
  destruct v as [| | | |s| | |]; try done; cbn -[Nat.ltb]; [by intros [= <-]; left|].
  destruct (Nat.ltb _ _); [done|]. intros [= <-]. right. by exists s.
Qed.

Lemma status_sent v r : parseNamespaceStatus v = Ok r -> sent_status v r.
Proof. unfold parseNamespaceStatus. repeat case_bool_decide; try done; by intros [= <-]. Qed.

Lemma collect_keys {E} (f : string -> json -> res E (option json)) fs out r :
  collect f fs out = Ok r -> r.*1 ⊆ out.*1 ++ fs.*1.
Proof.
  revert out. induction fs as [|[k v] fs IH]; intros out; cbn [collect]; [intros [= ->]; cbn; by rewrite app_nil_r|].
  destruct (f k v) as [[x|]|e]; [| |done]; intros Hr%IH k' [Hk|Hk]%Hr%elem_of_app; apply elem_of_app; cbn.
  - unfold assign in Hk. case_bool_decide; [by left|]. revert Hk. clear.
    induction out as [|[k1 v1] out IH]; cbn; [rewrite list_elem_of_singleton; intros ->; right; left|].
    case_decide as Hkk; cbn; intros [->|Hin]%elem_of_cons; [by left; left|by left; right|by left; left|].
    destruct (IH Hin) as [?|?]; [left; by right|by right].
  - right. by right.
  - by left.
  - right. by right.
Qed.

Lemma policy_same fs : policy_typed fs -> normalizeNamespaceCapabilities (JObj fs) = Ok fs.
Proof.
  intros [Hnd Hall]. cbn [normalizeNamespaceCapabilities]. rewrite (collect_same _ fs []); [done| |done].
  apply Forall_forall. intros [k v] Hin. cbn. destruct (Hall _ _ Hin) as (spec & fields & Hspec & -> & Hnf & Hf).
  split; [by intros ->|]. unfold capability_section. rewrite Hspec. rewrite (collect_same _ fields []); [done| |done].
  apply Forall_forall. intros [k' v'] Hin'. cbn. destruct (Hf _ _ Hin') as (kind & Hkind & Ht). split.
  - intros ->. clear -Hspec Hkind. cbn in Hspec. repeat case_decide; simplify_eq; done.
  - unfold capability_field. rewrite Hkind. destruct kind; cbn in Ht.
    + destruct Ht as [b ->]. done.
    + destruct Ht as (n & -> & Hn). cbn. unfold MAX_SAFE_INTEGER. rewrite (proj2 (Z.ltb_lt _ _)) by lia.
      by rewrite (proj2 (Z.leb_le _ _)) by lia.
    + destruct Ht as (l & -> & Hl). cbn. assert (forallb nonempty_string (JStr <$> l) = true) as ->; [|done].
      clear -Hl. induction l as [|s l IH]; cbn; [done|]. apply not_elem_of_cons in Hl as [Hs Hl].
      rewrite bool_decide_false by congruence. cbn. by apply IH.
Qed.

Lemma policy_sent v r : normalizeNamespaceCapabilities v = Ok r -> sent_policy v r.
Proof.
  destruct v as [| | | | | | |fs]; try done. intros Hc. exists fs. split; [done|]. split.
  - intros Hfs%policy_same. congruence.
  - cbn in Hc. by apply collect_keys in Hc.
Qed.

Lemma metadata_sent v r : normalizeMetadata v = Ok r -> sent_metadata v r.
Proof.
  destruct v as [| | | | | | |fs]; try done. intros Hc. exists fs. split; [done|]. split.
  - intros Hfs%metadata_same. congruence.
  - cbn in Hc. by apply collect_keys in Hc.
Qed.

Lemma field_sent {A} (v : json) f (P : A -> Prop) (r : option A) (old : A) : when_present v f = Ok r ->
  (forall x, f v = Ok x -> P x) -> field v (P (opt_or r old)) (opt_or r old = old).
Proof. unfold when_present, r_bind. intros Hr HP. destruct v; [by injection Hr as <-|..]; (destruct (f _); [injection Hr as <-|done]); by apply HP. Qed.

Lemma update_patched now id patch p row : normalizeNamespacePatch id patch = Ok p -> ns_id row = id ->
  patched now patch row (apply_patch now p row).
Proof.
  unfold normalizeNamespacePatch. intros Hp <-.
  destruct (when_present (np_displayName patch) _) as [l|] eqn:El; [|done]. cbn [r_bind] in Hp.
  destruct (when_present (np_description patch) _) as [d|] eqn:Ed; [|done]. cbn [r_bind] in Hp.
  destruct (when_present (np_status patch) _) as [s|] eqn:Es; [|done]. cbn [r_bind] in Hp.
  destruct (when_present (np_capabilities patch) _) as [c|] eqn:Ec; [|done]. cbn [r_bind] in Hp.
  destruct (when_present (np_metadata patch) _) as [m|] eqn:Em; [|done]. injection Hp as <-.
  unfold patched, apply_patch. cbn. do 3 (split; [done|]). split_and!.
  - apply (field_sent _ _ (sent_label (np_displayName patch) (ns_id row)) _ _ El). intros x. apply label_sent.
  - apply (field_sent _ _ (sent_description (np_description patch)) _ _ Ed). intros x. apply description_sent.
  - apply (field_sent _ _ (sent_status (np_status patch)) _ _ Es). intros x. apply status_sent.
  - apply (field_sent _ _ (sent_policy (np_capabilities patch)) _ _ Ec). intros x. apply policy_sent.
  - apply (field_sent _ _ (sent_metadata (np_metadata patch)) _ _ Em). intros x. apply metadata_sent.
Qed.

Lemma create_created now input f : normalizeNamespaceCreate input = Ok f ->
  created_from now input (mkNamespace (nc_id f) (nc_displayName f) (nc_description f) NsActive (nc_capabilities f) (nc_metadata f) now now).
Proof.
  unfold normalizeNamespaceCreate, created_from. destruct (ci_id input) as [| | | |id| | |]; try done.
  destruct (isValidNamespaceId id); [|done].
  destruct (normalizeDisplayName _ _) as [l|] eqn:El; [|done]. cbn [r_bind].
  destruct (normalizeDescription _) as [d|] eqn:Ed; [|done]. cbn [r_bind].
  destruct (normalizeNamespaceCapabilities _) as [c|] eqn:Ec; [|done]. cbn [r_bind].
  destruct (normalizeMetadata _) as [m|] eqn:Em; [|done]. cbn [r_bind]. intros [= <-]. cbn -[sent_label].
  do 4 (split; [done|]). split; [by apply label_sent|]. split_and!.
  - apply description_sent in Ed. destruct (ci_description input); try done; destruct Ed as [[? ->]|(? & ? & ?)]; done.
  - destruct (ci_capabilities input); (done || (by apply policy_sent) || (by injection Ec as <-)).
  - destruct (ci_metadata input); (done || (by apply metadata_sent) || (by injection Em as <-)).
Qed.

(** *** Well-typed requests are accepted *)
Lemma label_accepted v fallback : label_fits v -> exists r, normalizeDisplayName v fallback = Ok r.
Proof. intros [->|(s & -> & Hs)]; cbn -[Nat.ltb]; [eauto|]. apply Nat.ltb_ge in Hs. rewrite Hs. eauto. Qed.

Lemma description_accepted v : description_fits v -> v = JUndef \/ exists r, normalizeDescription v = Ok r.
Proof. intros [->|[->|(s & -> & Hs)]]; cbn -[Nat.ltb]; [by left|by right; eauto|]. right. apply Nat.ltb_ge in Hs. rewrite Hs. eauto. Qed.

Lemma when_present_ok {A} v (f : json -> res NamespaceError A) : v = JUndef \/ (exists r, f v = Ok r) ->
  exists r, when_present v f = Ok r.
Proof. unfold when_present, r_bind. intros [->|[r Hr]]; [eauto|]. destruct v; rewrite ?Hr; eauto. Qed.

Lemma patch_accepted id patch : well_typed_patch patch -> exists p, normalizeNamespacePatch id patch = Ok p.
Proof.
  intros (Hl & Hd & Hs & Hc & Hm). unfold normalizeNamespacePatch.
  destruct (when_present_ok (np_displayName patch) (fun v => normalizeDisplayName v id)) as [l ->]; [by right; apply label_accepted|].
  destruct (when_present_ok (np_description patch) normalizeDescription) as [d ->]; [by apply description_accepted|].
  destruct (when_present_ok (np_status patch) parseNamespaceStatus) as [s ->].
  { destruct Hs as [Hu|[s Hs]]; [by left|]. right. exists s. unfold sent_status in Hs. rewrite Hs. by destruct s. }
  destruct (when_present_ok (np_capabilities patch) normalizeNamespaceCapabilities) as [c ->].
  { destruct Hc as [->|(fs & -> & Hfs)]; [by left|]. right. exists fs. by apply policy_same. }
  destruct (when_present_ok (np_metadata patch) normalizeMetadata) as [m ->].
  { destruct Hm as [->|(fs & -> & Hfs)]; [by left|]. right. exists fs. by apply metadata_same. }
  cbn. eauto.
Qed.

Lemma create_accepted input id : well_typed_create input id ->
  exists f, normalizeNamespaceCreate input = Ok f /\ nc_id f = id.
Proof.
  intros (Hid & Hv & Hl & Hd & Hc & Hm). unfold normalizeNamespaceCreate. rewrite Hid, Hv.
  destruct (label_accepted _ id Hl) as [l ->]. cbn [r_bind].
  assert (exists d, normalizeDescription (nullish_or (ci_description input) JNull) = Ok d) as [d ->].
  { destruct (description_accepted _ Hd) as [->|[d Hd']]; [by eexists|]. destruct (ci_description input); eauto. }
  cbn [r_bind]. assert (exists c, normalizeNamespaceCapabilities (nullish_or (ci_capabilities input) (JObj [])) = Ok c) as [c ->].
  { destruct Hc as [->|(fs & -> & Hfs)]; [by eexists|]. exists fs. by apply policy_same. }
  cbn [r_bind]. assert (exists m, normalizeMetadata (nullish_or (ci_metadata input) (JObj [])) = Ok m) as [m ->].
  { destruct Hm as [->|(fs & -> & Hfs)]; [by eexists|]. exists fs. by apply metadata_same. }
  cbn. eauto.
Qed.

(** C28. Whatever a client sends - fields of any type, in any order of calls -
    the registry holds well-typed namespaces only: each under its own
    well-formed id, with a trimmed label within its bound, a policy of known
    sections whose fields have their declared types, and metadata that JSON
    carries; creating a namespace from the fields of a row gives the same
    fields back. A list is strictly ordered by id and holds exactly the rows
    asked for. A create stores exactly what was sent, under an id that was
    free; an update sets exactly the fields that were sent and keeps the
    others, so that updates of different fields both land, in either order. A
    well-typed request is accepted, and a call that fails changes nothing. *)
Theorem namespaces_are_valid (sched : list (Z * NamespaceOp)) :
  let rows := namespaces_after sched in
  (forall id row, get id rows = Some row ->
     ns_id row = id /\ row_typed row /\ policy_typed (ns_capabilities row) /\
     normalizeNamespaceCreate (as_input row) =
       Ok (mkNormalized id (ns_displayName row) (ns_description row) (ns_capabilities row) (ns_metadata row))) /\
  (forall status l, list_ status rows = Ok l ->
     StronglySorted before l /\
     forall row, row ∈ l <-> get (ns_id row) rows = Some row /\
       (status = JUndef \/ status = JStr (match ns_status row with NsActive => "active" | NsArchived => "archived" end))) /\
  (forall now id p q, different_fields p q ->
     (update now id q (update now id p rows).2).2 = (update now id p (update now id q rows).2).2) /\
  (forall now input, match create now input rows with
     | (Ok row, rows') => get (ns_id row) rows = None /\ rows' = <[ns_id row := row]> rows /\ created_from now input row
     | (Err _, rows') => rows' = rows /\ forall id, well_typed_create input id -> get id rows <> None end) /\
  (forall now id patch, match update now id patch rows with
     | (Ok row, rows') =>
         exists old, get id rows = Some old /\ rows' = <[id := row]> rows /\ patched now patch old row
     | (Err _, rows') => rows' = rows /\ (well_typed_patch patch -> get id rows = None) end).
Proof.
  intros rows. pose proof (rows_ok_after sched) as Hok. fold rows in Hok. unfold get. split; [|split; [|split; [|split]]].
  - intros id row Hl. destruct Hok as [_ Hrows]. destruct (Hrows id row Hl) as [Hid Ht]. subst id.
    split; [done|]. split; [done|]. split; [apply (capabilities_typed _ _ (rt_capabilities _ Ht))|by apply row_normal].
  - intros status l. by apply listed.
  - intros now id p q. by apply updates_commute.
  - intros now input. unfold create. destruct (normalizeNamespaceCreate input) as [f|e] eqn:Ef.
    + destruct (rows !! nc_id f) as [row|] eqn:El; [|by split; [|split; [|apply create_created]]].
      split; [done|]. intros id (f' & Hf' & <-)%create_accepted. congruence.
    + split; [done|]. intros id (f' & Hf' & <-)%create_accepted. congruence.
  - intros now id patch. unfold update. destruct (normalizeNamespacePatch id patch) as [p|e] eqn:Ep.
    + destruct (rows !! id) as [old|] eqn:El; [|done]. exists old. destruct Hok as [_ Hrows].
      destruct (Hrows _ _ El) as [Hid _]. split; [done|]. cbn. rewrite Hid. split; [done|]. by apply (update_patched now id).
    + split; [done|]. intros [p Hp]%(patch_accepted id). congruence.
Qed.

(** A request, its row, and an unknown field. *)
Definition acme : CreateNamespaceInput :=
  mkCreate (JStr "acme:eu") (JStr "  Acme  ") JUndef (JObj [("ai", JObj [("maxTurnsPerRun", JNum 5)])]) (JObj [("tier", JNum 1)]).

Example acme_created :
  (create 7 acme ∅).1 = Ok (mkNamespace "acme:eu" "Acme" None NsActive [("ai", JObj [("maxTurnsPerRun", JNum 5)])] [("tier", JNum 1)] 7 7).
Proof. vm_compute. reflexivity. Qed.

Example limit_typo :
  normalizeNamespaceCapabilities (JObj [("ai", JObj [("maxTurns", JNum 5)])]) =
    Err (invalid FCapabilities ("unknown field " +:+ quoted "ai.maxTurns")).
Proof. vm_compute. reflexivity. Qed.

(** A metadata member named [__proto__] is dropped without an error. *)
Example proto_member_dropped :
  normalizeMetadata (JObj [("__proto__", JObj [("a", JNum 1)]); ("tier", JNum 1)]) = Ok [("tier", JNum 1)].
Proof. vm_compute. reflexivity. Qed.
