(* ===== verification/Planning.v ===== *)
(** What due schedules fire: [scheduler/schedule-config.ts] and the planning
    functions of [scheduler/durable-scheduler.ts].

    The cron and RRULE libraries are the class [Recurrence]; [RecurrenceLaws]
    is their documented behaviour. The clock, the random numbers and what is
    left of the process are a host state [T]: a planning function reads the
    clock as often as the code does. Times are epoch milliseconds. *)
From Stdlib Require Import QArith Qround.
From S2P Require Import Prelude Leases LeaderLeases Json Journal RunState Storage Exits Retry Replay StepBody Checkpoint MachineStorage SchedulerStorage.
Open Scope string_scope.
Open Scope list_scope.
Open Scope Z_scope.

(** ** The libraries *)
Class Recurrence : Type := {
  (** [new Cron(expression, { timezone })], and [RRule.fromString]: they
      throw on what they cannot parse. *)
  cron_parse : string -> string -> res thrown unit;
  cron_nextRun : string -> string -> Z -> option Z;
  cron_nextRuns : string -> string -> Z -> Z -> list Z;
  cron_previousRuns : string -> string -> Z -> Z -> list Z;
  rrule_parse : string -> res thrown unit;
  rrule_after : string -> Z -> bool -> option Z;
  rrule_before : string -> Z -> bool -> option Z;
  rrule_between : string -> Z -> Z -> bool -> list Z;
}.

(** The host of a planning function. *)
Record SchedulerHost (T : Type) : Type := mkSchedulerHost {
  sh_now : T -> Z * T;
  (** [Math.random]: in [0, 1) *)
  sh_random : T -> Q * T;
  sh_date_string : Z -> string;
}.
Arguments mkSchedulerHost {T}.
Arguments sh_now {T}.
Arguments sh_random {T}.
Arguments sh_date_string {T}.

Section planning.
Context `{Recurrence} {T : Type} (host : SchedulerHost T).

(** [${e}] of a thrown value. *)
Definition thrown_text (e : thrown) : string :=
  match e with
  | TError e => err_name e +:+ ": " +:+ err_message e
  | TValue v => js_String (sh_date_string host) v
  end.

Definition thrown_message (error : thrown) : string :=
  match error with
  | TError e => err_message e
  | TValue v => js_String (sh_date_string host) v
  end.

(** ** [schedule-config.ts] *)
Implicit Types (config : DurableScheduleConfig).

Definition nonempty_str (o : option string) : option string :=
  match o with Some s => if bool_decide (s = "") then None else Some s | None => None end.

Definition schedule_tz config : string := opt_or (sc_timezone config) "UTC".

Definition trigger_count config : Z :=
  (if bool_decide (nonempty_str (sc_cron config) = None) then 0 else 1) +
  (if bool_decide (nonempty_str (sc_rrule config) = None) then 0 else 1) +
  (if bool_decide (sc_intervalMs config = None) then 0 else 1).

Definition for_schedule config : string := "for schedule " +:+ quoted (sc_id config).

(** What is wrong with a config, each check in turn. *)
Definition cron_problem config : option string :=
  match nonempty_str (sc_cron config) with
  | Some c =>
      match cron_parse c (schedule_tz config) with
      | Err e => Some ("Invalid cron expression " +:+ quoted c +:+ " " +:+ for_schedule config +:+ ": " +:+ thrown_text e)
      | Ok _ => None
      end
  | None => None
  end.

Definition rrule_problem config : option string :=
  match nonempty_str (sc_rrule config) with
  | Some r =>
      match rrule_parse r with
      | Err e => Some ("Invalid RRULE " +:+ quoted r +:+ " " +:+ for_schedule config +:+ ": " +:+ thrown_text e)
      | Ok _ => None
      end
  | None => None
  end.

Definition number_problem config (name : string) (v : option Z) (ok : Z -> bool) (must_be : string) : option string :=
  match v with
  | Some n =>
      if ok n then None
      else Some ("Invalid " +:+ name +:+ " " +:+ str_of_Z n +:+ " " +:+ for_schedule config +:+ ": must be " +:+ must_be)
  | None => None
  end.

Definition config_problems config : list (option string) :=
  [ if trigger_count config =? 0
    then Some ("Schedule " +:+ quoted (sc_id config) +:+ " must have one of: cron, rrule, or intervalMs") else None;
    if 1 <? trigger_count config
    then Some ("Schedule " +:+ quoted (sc_id config) +:+ " must have exactly one of: cron, rrule, or intervalMs") else None;
    cron_problem config;
    rrule_problem config;
    number_problem config "intervalMs" (sc_intervalMs config) (fun n => 0 <? n) "a positive number";
    number_problem config "jitterMs" (sc_jitterMs config) (fun n => 0 <=? n) ">= 0";
    number_problem config "maxCatchUp" (sc_maxCatchUp config) (fun n => 0 <=? n) "an integer >= 0" ].

Definition validateScheduleConfig config : res thrown unit :=
  match omap id (config_problems config) with
  | m :: _ => Err (plain_error m)
  | [] => Ok tt
  end.

Definition jitterDelayMs config (t : T) : Z * T :=
  let jitterMs := opt_or (sc_jitterMs config) 0 in
  if jitterMs <=? 0 then (0, t)
  else let '(r, t) := sh_random host t in (Qfloor (r * inject_Z jitterMs), t).

(** The smallest distance of neighbours. *)
Fixpoint shortest_gap (shortest : option Z) (fires : list Z) : option Z :=
  match fires with
  | a :: (b :: _) as rest =>
      let gap := b - a in
      shortest_gap (match shortest with
                    | Some s => if gap <? s then Some gap else Some s
                    | None => Some gap
                    end) rest
  | _ => shortest
  end.

Definition shortestFireGapMs config (from : Z) (samples : option Z) : res thrown (option Z) :=
  let samples := Z.max 2 (opt_or samples 64) in
  match sc_intervalMs config with
  | Some n => Ok (Some n)
  | None =>
      match nonempty_str (sc_cron config), nonempty_str (sc_rrule config) with
      | Some c, _ =>
          match cron_parse c (schedule_tz config) with
          | Ok _ => Ok (shortest_gap None (cron_nextRuns c (schedule_tz config) samples from))
          | Err e => Err e
          end
      | None, Some r =>
          match rrule_parse r with
          | Ok _ =>
              (** the iterator of the library stops after [samples] occurrences *)
              Ok (shortest_gap None (take (Z.to_nat samples)
                    (rrule_between r from (from + 400 * 24 * 60 * 60 * 1000) true)))
          | Err e => Err e
          end
      | None, None => Ok None
      end
  end.

(** ** [durable-scheduler.ts]: what is due *)
Definition clock_now : async T Z := a_sync (sh_now host).

Definition makeTick config (scheduledAt : Z) (incarnation : string) (tickNumber : Z) : async T ScheduleTick :=
  let% firedAt := clock_now in
  a_ret (mkTick (sc_id config) (sc_name config) scheduledAt firedAt incarnation tickNumber (sc_metadata config)).

Fixpoint make_ticks config (incarnation : string) (tickNumber : Z) (occurrences : list Z) : async T (list ScheduleTick) :=
  match occurrences with
  | [] => a_ret []
  | scheduledAt :: rest =>
      let% t := makeTick config scheduledAt incarnation tickNumber in
      let% ts := make_ticks config incarnation (tickNumber + 1) rest in
      a_ret (t :: ts)
  end.

Definition missedCronOccurrences config (cron : string) (now lastFired limit : Z) : async T (list Z) :=
  do% a_lift (cron_parse cron (schedule_tz config)) in
  a_ret (reverse (js_slice
    (base.filter (fun d => lastFired < d /\ d <= now)
       (cron_previousRuns cron (schedule_tz config) (limit + 2) (now + 1000)))
    0 (Some limit))).

Definition missedRruleOccurrences (rrule : string) (now lastFired limit : Z) : async T (list Z) :=
  do% a_lift (rrule_parse rrule) in
  if limit =? 1 then
    match rrule_before rrule now true with
    | Some latest => if lastFired <? latest then a_ret [latest] else a_ret []
    | None => a_ret []
    end
  else
    a_ret (js_slice (base.filter (fun d => lastFired < d) (rrule_between rrule lastFired now true)) (- limit) None).

(** An interval of 0 makes the quotient infinite: the loop then never ends,
    unless the quotient is not a number either. *)
Definition missedIntervalOccurrences (intervalMs now lastFired limit : Z) : async T (list Z) := fun t =>
  if (intervalMs =? 0) && (lastFired <? now) then (Died, t)
  else
    let missed := (now - lastFired) / intervalMs in
    if missed <? 1 then (Ret [], t)
    else
      let count := Z.min limit missed in
      (Ret ((fun k => lastFired + k * intervalMs) <$> seqZ (missed - count + 1) count), t).

Definition occurrences_of config (now lastFired limit : Z) : async T (list Z) :=
  match nonempty_str (sc_cron config), nonempty_str (sc_rrule config), sc_intervalMs config with
  | Some c, _, _ => missedCronOccurrences config c now lastFired limit
  | None, Some r, _ => missedRruleOccurrences r now lastFired limit
  | None, None, Some n => missedIntervalOccurrences n now lastFired limit
  | None, None, None => a_ret []
  end.

Definition catch_up_limit config : Z := Z.max 1 (opt_or (sc_maxCatchUp config) 0).

(** Outside of the window of the schedule. *)
Definition not_started config (now : Z) : bool := match sc_startAt config with Some s => now <? s | None => false end.
Definition ended config (now : Z) : bool := match sc_endAt config with Some e => e <? now | None => false end.

Definition computeDueTicks config (lastFired : option Z) (tickCount : Z) (incarnation : string)
    : async T (list ScheduleTick) :=
  let% now := clock_now in
  if not_started config now then a_ret []
  else if ended config now then a_ret []
  else
    match lastFired with
    | None => let% t := makeTick config now incarnation tickCount in a_ret [t]
    | Some last =>
        let% occurrences := occurrences_of config now last (catch_up_limit config) in
        make_ticks config incarnation tickCount occurrences
    end.

(** ** The next run *)
Definition next_candidate config (now : Z) : res thrown (option Z) :=
  match nonempty_str (sc_cron config), nonempty_str (sc_rrule config), sc_intervalMs config with
  | Some c, _, _ =>
      match cron_parse c (schedule_tz config) with
      | Ok _ => Ok (cron_nextRun c (schedule_tz config) now)
      | Err e => Err e
      end
  | None, Some r, _ =>
      match rrule_parse r with Ok _ => Ok (rrule_after r now false) | Err e => Err e end
  | None, None, Some n => Ok (Some (now + n))
  | None, None, None => Ok None
  end.

Definition past_end config (now : Z) : bool := match sc_endAt config with Some e => e <=? now | None => false end.

Definition computeNextRun config : async T (option Z) :=
  let% now := clock_now in
  if past_end config now then a_ret None
  else
    let% candidate := a_lift (next_candidate config now) in
    match candidate with
    | None => a_ret None
    | Some c =>
        if past_end config c then a_ret None
        else match sc_startAt config with
             | Some s => if c <? s then a_ret (Some s) else a_ret (Some c)
             | None => a_ret (Some c)
             end
    end.

Definition jitterNextRun config (nextRun : option Z) : async T (option Z) :=
  match nextRun with
  | None => a_ret None
  | Some next =>
      let% delay := a_sync (jitterDelayMs config) in
      if delay =? 0 then a_ret (Some next)
      else
        let jittered := next + delay in
        let capped := match sc_endAt config with Some e => Z.min jittered e | None => jittered end in
        a_ret (Some (Z.max capped next))
  end.

(** ** Plans *)
Record PlannedSchedule : Type := mkPlan {
  pl_id : string;
  pl_ticks : list ScheduleTick;
  pl_commit : ScheduleCommit;
  pl_error : option thrown;
}.

(** [plan.error !== undefined] *)
Definition has_error (p : PlannedSchedule) : bool :=
  match pl_error p with None | Some (TValue JUndef) => false | Some _ => true end.

Definition drop_plan (id : string) : PlannedSchedule :=
  mkPlan id [] (mkCommit id None None (Some None) None None None None) None.

(** The entry for ticks numbered from the loaded state. *)
Definition tick_commit (id : string) (state : ScheduleState) (due : list ScheduleTick) (nextRun : option Z) : ScheduleCommit :=
  match last due with
  | Some l =>
      mkCommit id (Some (ti_firedAt l)) (Some (Z.of_nat (length due))) (Some nextRun) (Some (ss_tickCount state))
        (Some (ss_incarnation state)) None (Some due)
  | None => mkCommit id None None (Some nextRun) None None None None
  end.

Definition error_commit (id : string) (state : ScheduleState) (message : string) (at_ : Z) : ScheduleCommit :=
  mkCommit id None None (Some None) None (Some (ss_incarnation state)) (Some (Some (mkScheduleError message at_))) None.

Definition plan_live (id : string) config (state : ScheduleState) : async T PlannedSchedule :=
  a_catch
    (let% due := computeDueTicks config (ss_lastFired state) (ss_tickCount state) (ss_incarnation state) in
     let% next := computeNextRun config in
     let% nextRun := jitterNextRun config next in
     a_ret (mkPlan id due (tick_commit id state due nextRun) None))
    (fun error =>
       let% at_ := clock_now in
       a_ret (mkPlan id [] (error_commit id state (thrown_message error) at_) (Some error))).

Definition plan_one (configs : jmap string DurableScheduleConfig) (states : jmap string ScheduleState) (id : string)
    : async T PlannedSchedule :=
  match configs !! id, states !! id with
  | Some config, Some state => if is_enabled config then plan_live id config state else a_ret (drop_plan id)
  | _, _ => a_ret (drop_plan id)
  end.

Fixpoint planDueTicks (ids : list string) (configs : jmap string DurableScheduleConfig)
    (states : jmap string ScheduleState) : async T (list PlannedSchedule) :=
  match ids with
  | [] => a_ret []
  | id :: ids =>
      let% p := plan_one configs states id in
      let% ps := planDueTicks ids configs states in
      a_ret (p :: ps)
  end.

(** ** Previews *)
(** At most [n] occurrences, each found from the cursor the one before
    leaves, up to the end. *)
Fixpoint preview (next : Z -> option Z) (advance : Z -> Z) (ended : Z -> bool) (n : nat) (cursor : Z) : list Z :=
  match n with
  | O => []
  | S n =>
      match next cursor with
      | Some t => if ended t then [] else t :: preview next advance ended n (advance t)
      | None => []
      end
  end.

Definition previewFireTimes config (lastFired : option Z) (count now : Z) : res thrown (list Z) :=
  let from := match sc_startAt config with Some s => Z.max now (s - 1) | None => now end in
  let ended t := match sc_endAt config with Some e => e <=? t | None => false end in
  if (count <=? 0) || ended from then Ok []
  else
    match nonempty_str (sc_cron config), nonempty_str (sc_rrule config), sc_intervalMs config with
    | Some c, _, _ =>
        match cron_parse c (schedule_tz config) with
        | Ok _ => Ok (preview (cron_nextRun c (schedule_tz config)) (fun t => t + 1) ended (Z.to_nat count) from)
        | Err e => Err e
        end
    | None, Some r, _ =>
        match rrule_parse r with
        | Ok _ => Ok (preview (fun t => rrule_after r t false) id ended (Z.to_nat count) from)
        | Err e => Err e
        end
    | None, None, Some interval =>
        if 0 <? interval then
          let first :=
            match lastFired with
            | Some last => last + interval * (Z.max 0 (from - last) / interval + 1)
            | None => match sc_startAt config with Some s => Z.max now s | None => now end
            end in
          Ok (preview Some (fun t => t + interval) ended (Z.to_nat count) first)
        else Ok []
    | None, None, None => Ok []
    end.

(** The loop of [backfillCron]; each round moves the cursor on. *)
Fixpoint backfill_loop (fuel : nat) (cron tz : string) (cursor to : Z) : list Z :=
  match fuel with
  | O => []
  | S fuel =>
      if cursor <? to then
        match cron_nextRun cron tz cursor with
        | Some next => if to <=? next then [] else next :: backfill_loop fuel cron tz (next + 1) to
        | None => []
        end
      else []
  end.

Definition backfillCron (cron tz : string) (from to : Z) : res thrown (list Z) :=
  match cron_parse cron tz with
  | Ok _ => Ok (backfill_loop (Z.to_nat (to - from)) cron tz from to)
  | Err e => Err e
  end.
End planning.

(** ** [schedulePartition] *)
(** [x | 0] *)
Definition to_int32 (x : Z) : Z :=
  let m := x mod 2 ^ 32 in if m <? 2 ^ 31 then m else m - 2 ^ 32.

Definition hash_char (h : Z) (c : ascii) : Z :=
  to_int32 (to_int32 (Z.shiftl h 5) - h + Z.of_N (Ascii.N_of_ascii c)).

Definition schedulePartition (id : string) (count : Z) : Z :=
  Z.abs (foldl hash_char 0 (String.list_ascii_of_string id)) mod count.

(** ** What the libraries promise *)
(** [l] lists the newest [n] times with [P], newest first. *)
Record newest (n : Z) (P : Z -> Prop) (l : list Z) : Prop := {
  nw_order : StronglySorted (fun a b => b < a) l;
  nw_in : Forall P l;
  nw_count : Z.of_nat (length l) <= n;
  nw_rest : forall t, P t -> t ∈ l \/ Z.of_nat (length l) = n /\ Forall (fun u => t < u) l;
}.

(** The first time after [from] with [P]. *)
Definition first_after (P : Z -> Prop) (from : Z) (r : option Z) : Prop :=
  match r with
  | Some t => P t /\ from < t /\ forall u, P u -> from < u -> t <= u
  | None => forall u, P u -> u <= from
  end.

Class RecurrenceLaws `{Recurrence} : Type := {
  cron_occurs : string -> string -> Z -> Prop;
  rrule_occurs : string -> Z -> Prop;
  cron_whole_seconds : forall c tz t, cron_occurs c tz t -> t mod 1000 = 0;
  (** strictly before the reference, which is taken at second precision *)
  cron_previous : forall c tz n before, cron_parse c tz = Ok tt -> 0 <= n ->
    newest n (fun t => cron_occurs c tz t /\ t < 1000 * (before / 1000)) (cron_previousRuns c tz n before);
  cron_next : forall c tz from, cron_parse c tz = Ok tt -> first_after (cron_occurs c tz) from (cron_nextRun c tz from);
  rrule_next : forall r from, rrule_parse r = Ok tt -> first_after (rrule_occurs r) from (rrule_after r from false);
  rrule_last : forall r now, rrule_parse r = Ok tt ->
    match rrule_before r now true with
    | Some t => rrule_occurs r t /\ t <= now /\ forall u, rrule_occurs r u -> u <= now -> u <= t
    | None => forall u, rrule_occurs r u -> now < u
    end;
  rrule_range : forall r a b, rrule_parse r = Ok tt ->
    StronglySorted Z.lt (rrule_between r a b true) /\
    forall t, t ∈ rrule_between r a b true <-> rrule_occurs r t /\ a <= t <= b;
}.

(** ** Newest first and oldest first *)
Lemma newest_filter n P (Q : Z -> Prop) `{forall t, Decision (Q t)} l : newest n P l ->
  (forall a b, P a -> Q b -> b < a -> Q a) ->
  newest n (fun t => P t /\ Q t) (base.filter Q l).
Proof.
  intros [Ho Hi Hc Hr] Hup. pose proof (sublist_filter Q l) as Hs. split.
  - by apply (StronglySorted_sublist _ _ _ Hs).
  - rewrite Forall_forall in Hi |- *. intros t [Hq Ht]%list_elem_of_filter. split; [by apply Hi|done].
  - pose proof (length_filter Q l). lia.
  - intros t [Hp Hq]. destruct (Hr t Hp) as [Hin|[Hlen Hall]]; [left; by apply list_elem_of_filter|].
    right. assert (base.filter Q l = l) as ->; [|done]. rewrite Forall_forall in Hi, Hall.
    clear -Hi Hall Hq Hup. induction l as [|x l IH]; [done|]. rewrite filter_cons_True.
    + f_equal. apply IH; intros; [apply Hi|apply Hall]; by right.
    + apply (Hup x t); [apply Hi; left|done|apply Hall; left].
Qed.

(** The newest [n] of the newest [n + k] with [P], when at most [k] of them
    are too new. *)
Lemma newest_take n P l m : newest m P l -> 0 <= n <= m -> newest n P (take (Z.to_nat n) l).
Proof.
  intros [Ho Hi Hc Hr] Hnm. pose proof (sublist_take l (Z.to_nat n)) as Hs. split.
  - by apply (StronglySorted_sublist _ _ _ Hs).
  - by apply Forall_take.
  - rewrite length_take. lia.
  - intros t Hp. rewrite <- (take_drop (Z.to_nat n) l) in Hr, Ho.
    assert (t ∈ take (Z.to_nat n) l \/ (t ∈ drop (Z.to_nat n) l \/ Z.of_nat (length l) = m /\ Forall (fun u => t < u) l)) as [Ht|Ht].
    { destruct (Hr t Hp) as [[Hin|Hin]%elem_of_app|Hin]; [by left|by right; left|right; right].
      by rewrite take_drop in Hin. }
    + by left.
    + right. split.
      * rewrite length_take. destruct Ht as [Ht|[Ht _]]; [|lia].
        assert (0 < length (drop (Z.to_nat n) l))%nat as Hd by (destruct (drop _ _); [by apply not_elem_of_nil in Ht|cbn; lia]).
        rewrite length_drop in Hd. lia.
      * destruct Ht as [Ht|[_ Ht]]; [|by apply Forall_take].
        apply Forall_forall. intros u Hu. clear -Ho Hu Ht. induction (take _ l) as [|x k IH]; [by apply not_elem_of_nil in Hu|].
        cbn in Ho. apply StronglySorted_inv in Ho as [Ho Hx]. apply elem_of_cons in Hu as [->|Hu]; [|by apply IH].
        rewrite Forall_forall in Hx. apply Hx, elem_of_app. by right.
Qed.

(** [l] lists the newest [n] times with [P], oldest first. *)
Record due_times (n : Z) (P : Z -> Prop) (l : list Z) : Prop := {
  dt_order : StronglySorted Z.lt l;
  dt_in : Forall P l;
  dt_count : Z.of_nat (length l) <= n;
  dt_rest : forall t, P t -> t ∈ l \/ Z.of_nat (length l) = n /\ Forall (fun u => t < u) l;
}.

Lemma due_times_iff n (P Q : Z -> Prop) l : (forall t, P t <-> Q t) -> due_times n P l -> due_times n Q l.
Proof.
  intros HPQ [Ho Hi Hc Hr]. split; [done| |done|].
  - eapply Forall_impl; [exact Hi|]. intros t. apply HPQ.
  - intros t Ht. apply Hr. by apply HPQ.
Qed.

Lemma reverse_sorted l : StronglySorted (fun a b => b < a) l -> StronglySorted Z.lt (reverse l).
Proof.
  induction l as [|x l IH]; [constructor|]. intros [Hs Hx]%StronglySorted_inv. rewrite reverse_cons.
  assert (Forall (fun u => u < x) (reverse l)) as Hr by (by rewrite reverse_Permutation).
  specialize (IH Hs). clear -IH Hr. induction (reverse l) as [|y k IHk]; [repeat constructor|].
  apply StronglySorted_inv in IH as [Hk Hy]. apply Forall_cons in Hr as [Hyx Hkx]. cbn. constructor; [by apply IHk|].
  apply Forall_app. split; [done|]. by repeat constructor.
Qed.

Lemma newest_reverse n P l : newest n P l -> due_times n P (reverse l).
Proof.
  intros [Ho Hi Hc Hr]. split.
  - by apply reverse_sorted.
  - by rewrite reverse_Permutation.
  - by rewrite length_reverse.
  - intros t Ht. rewrite elem_of_reverse, length_reverse, reverse_Permutation. by apply Hr.
Qed.

Lemma js_slice_first {A} (l : list A) n : 0 <= n -> js_slice l 0 (Some n) = take (Z.to_nat n) l.
Proof. intros Hn. rewrite <- (Z2Nat.id n) at 1 by done. apply js_slice_take. Qed.

Lemma js_slice_last {A} (l : list A) n : 0 < n -> js_slice l (- n) None = drop (length l - Z.to_nat n) l.
Proof.
  intros Hn. unfold js_slice, rel_index. assert ((- n <? 0) = true) as -> by lia.
  assert (Z.to_nat (Z.max (Z.of_nat (length l) + - n) 0) = (length l - Z.to_nat n)%nat) as Hd by lia. rewrite Hd.
  apply take_ge. rewrite length_drop. lia.
Qed.

(** The last [n] of all times with [P] in order. *)
Lemma due_suffix n (P : Z -> Prop) l : StronglySorted Z.lt l -> (forall t, t ∈ l <-> P t) -> 0 < n ->
  due_times n P (drop (length l - Z.to_nat n) l).
Proof.
  intros Ho Hin Hn. pose proof (sublist_drop l (length l - Z.to_nat n)) as Hs. split.
  - by apply (StronglySorted_sublist _ _ _ Hs).
  - apply Forall_forall. intros t Ht. apply Hin. by apply (elem_of_sublist _ _ _ Ht).
  - rewrite length_drop. lia.
  - intros t Ht%Hin. rewrite <- (take_drop (length l - Z.to_nat n) l) in Ht, Ho.
    apply elem_of_app in Ht as [Ht|Ht]; [right|by left]. split.
    + rewrite length_drop. assert (length l <> 0)%nat; [destruct l; [|done]; by apply not_elem_of_nil in Ht|].
      assert (Z.to_nat n < length l)%nat; [|lia].
      destruct (decide (Z.to_nat n < length l)%nat); [done|]. rewrite (proj2 (Nat.sub_0_le _ _)) in Ht by lia.
      by apply not_elem_of_nil in Ht.
    + induction (take _ l) as [|x k IH]; [by apply not_elem_of_nil in Ht|].
      cbn in Ho. apply StronglySorted_inv in Ho as [Ho Hx]. apply elem_of_cons in Ht as [->|Ht]; [|by apply IH].
      apply Forall_app in Hx as [_ Hx]. done.
Qed.

Section exact.
Context `{RecurrenceLaws} {T : Type} (host : SchedulerHost T).
Implicit Types (config : DurableScheduleConfig) (now lastFired limit : Z) (t : T).

(** The occurrences of a schedule that last fired at [lastFired]. *)
Definition occurs config lastFired (u : Z) : Prop :=
  match nonempty_str (sc_cron config), nonempty_str (sc_rrule config), sc_intervalMs config with
  | Some c, _, _ => cron_occurs c (schedule_tz config) u
  | None, Some r, _ => rrule_occurs r u
  | None, None, Some n => exists k, 1 <= k /\ u = lastFired + k * n
  | None, None, None => False
  end.

(** The trigger can be evaluated. *)
Definition evaluates config : Prop :=
  match nonempty_str (sc_cron config), nonempty_str (sc_rrule config), sc_intervalMs config with
  | Some c, _, _ => cron_parse c (schedule_tz config) = Ok tt
  | None, Some r, _ => rrule_parse r = Ok tt
  | None, None, Some n => 0 < n
  | None, None, None => True
  end.

Lemma cron_due config c now lastFired limit : 1 <= limit -> cron_parse c (schedule_tz config) = Ok tt ->
  due_times limit (fun u => cron_occurs c (schedule_tz config) u /\ lastFired < u <= now)
    (reverse (js_slice (base.filter (fun d => lastFired < d /\ d <= now)
                          (cron_previousRuns c (schedule_tz config) (limit + 2) (now + 1000))) 0 (Some limit))).
Proof.
  intros Hl Hp. apply newest_reverse. rewrite js_slice_first by lia. apply (newest_take _ _ _ (limit + 2)); [|lia].
  pose proof (cron_previous c (schedule_tz config) (limit + 2) (now + 1000) Hp ltac:(lia)) as Hn.
  set (P := fun u : Z => _ /\ _) in Hn.
  assert (forall u, P u -> u <= now) as Hle.
  { intros u [Ho Hu]. apply cron_whole_seconds in Ho. pose proof (Z.div_mod u 1000) as E.
    pose proof (Z.div_mod (now + 1000) 1000) as E2. pose proof (Z.mod_pos_bound (now + 1000) 1000). lia. }
  apply (newest_filter _ P (fun d => lastFired < d /\ d <= now)) in Hn.
  - destruct Hn as [Ho Hi Hc Hr]. split; [done| |done|].
    + eapply Forall_impl; [exact Hi|]. intros u [[Hu _] Hq]. by split.
    + intros u [Hu Hq]. apply Hr. split; [|done]. split; [done|].
      pose proof (Z.div_mod (now + 1000) 1000). pose proof (Z.mod_pos_bound (now + 1000) 1000).
      apply cron_whole_seconds in Hu. pose proof (Z.div_mod u 1000). lia.
  - intros a b Ha [Hb _] Hlt. split; [lia|by apply Hle].
Qed.

Lemma rrule_due r now lastFired limit : 1 < limit -> rrule_parse r = Ok tt ->
  due_times limit (fun u => rrule_occurs r u /\ lastFired < u <= now)
    (js_slice (base.filter (fun d => lastFired < d) (rrule_between r lastFired now true)) (- limit) None).
Proof.
  intros Hl Hp. rewrite js_slice_last by lia. destruct (rrule_range r lastFired now Hp) as [Hs Hin].
  apply due_suffix; [by apply (StronglySorted_sublist _ _ _ (sublist_filter _ _))| |lia].
  intros u. rewrite list_elem_of_filter, Hin. intuition lia.
Qed.

Lemma rrule_latest r now lastFired : rrule_parse r = Ok tt ->
  due_times 1 (fun u => rrule_occurs r u /\ lastFired < u <= now)
    (match rrule_before r now true with Some latest => if lastFired <? latest then [latest] else [] | None => [] end).
Proof.
  intros Hp. pose proof (rrule_last r now Hp) as Hb. destruct (rrule_before r now true) as [u|].
  - destruct Hb as (Ho & Hle & Hmax). destruct (lastFired <? u) eqn:Hlt.
    + apply Z.ltb_lt in Hlt. split; [repeat constructor|by repeat constructor|done|].
      intros v [Hv Hr]. specialize (Hmax v Hv ltac:(lia)). destruct (decide (v = u)) as [->|]; [left; left|].
      right. split; [done|]. repeat constructor. lia.
    + apply Z.ltb_ge in Hlt. split; [constructor|constructor|done|]. intros v [Hv Hr].
      specialize (Hmax v Hv ltac:(lia)). lia.
  - split; [constructor|constructor|done|]. intros v [Hv Hr]. specialize (Hb v Hv). lia.
Qed.

Lemma seqZ_sorted m n : StronglySorted Z.lt (seqZ m n).
Proof.
  destruct (decide (0 <= n)) as [Hn|]; [|rewrite seqZ_nil by lia; constructor]. revert m.
  pattern n. apply natlike_ind; [| |done].
  - intros m. rewrite seqZ_nil by lia. constructor.
  - intros k Hk IH m. rewrite seqZ_cons by lia. rewrite Z.pred_succ. constructor; [apply IH|].
    apply Forall_forall. intros x Hx%elem_of_seqZ. lia.
Qed.

Lemma interval_due n now lastFired limit (t : T) : 0 < n -> 1 <= limit ->
  exists l, missedIntervalOccurrences n now lastFired limit t = (Ret l, t) /\
    due_times limit (fun u => (exists k, 1 <= k /\ u = lastFired + k * n) /\ lastFired < u <= now) l.
Proof.
  intros Hn Hl. unfold missedIntervalOccurrences. assert ((n =? 0) = false) as -> by lia. cbn [andb].
  set (m := (now - lastFired) / n). pose proof (Z.div_mod (now - lastFired) n ltac:(lia)) as Hd.
  pose proof (Z.mod_pos_bound (now - lastFired) n ltac:(lia)) as Hm. fold m in Hd.
  assert (forall k, k <= m <-> lastFired + k * n <= now) as Hk by (intros k; split; intros; nia).
  destruct (m <? 1) eqn:Hm1.
  - apply Z.ltb_lt in Hm1. exists []. split; [done|]. split; [constructor|constructor|cbn; lia|].
    intros u [(k & Hk1 & ->) [_ Hu]]. apply Hk in Hu. lia.
  - apply Z.ltb_ge in Hm1. eexists. split; [done|]. split.
    + apply (StronglySorted_Forall2 Z.lt _ (fun k u => u = lastFired + k * n) (seqZ (m - Z.min limit m + 1) (Z.min limit m))).
      * intros a b a' b' -> ->. nia.
      * apply Forall2_fmap_r, Forall_Forall2_diag, Forall_forall. done.
      * apply seqZ_sorted.
    + apply Forall_fmap, Forall_forall. intros k [Hk1 Hk2]%elem_of_seqZ. cbn. split; [exists k; lia|].
      split; [nia|]. apply Hk. lia.
    + rewrite length_fmap, length_seqZ. lia.
    + intros u [(k & Hk1 & ->) [_ Hu]]. apply Hk in Hu. destruct (decide (m - Z.min limit m + 1 <= k)).
      * left. apply list_elem_of_fmap. exists k. split; [done|]. apply elem_of_seqZ. lia.
      * right. rewrite length_fmap, length_seqZ. split; [lia|]. apply Forall_fmap, Forall_forall.
        intros j Hj%elem_of_seqZ. cbn. nia.
Qed.

Lemma occurrences_exact config now lastFired limit (t : T) : evaluates config -> 1 <= limit ->
  exists l, occurrences_of config now lastFired limit t = (Ret l, t) /\
    due_times limit (fun u => occurs config lastFired u /\ lastFired < u <= now) l.
Proof.
  unfold evaluates, occurrences_of, occurs. intros Hev Hl.
  destruct (nonempty_str (sc_cron config)) as [c|]; [|destruct (nonempty_str (sc_rrule config)) as [r|]].
  - unfold missedCronOccurrences, a_bind, a_lift. rewrite Hev. eexists. split; [done|]. by apply cron_due.
  - unfold missedRruleOccurrences, a_bind, a_lift. rewrite Hev. destruct (limit =? 1) eqn:E.
    + apply Z.eqb_eq in E as ->. pose proof (rrule_latest r now lastFired Hev) as Hd.
      destruct (rrule_before r now true) as [u|]; [destruct (lastFired <? u)|]; eexists; (split; [done|exact Hd]).
    + apply Z.eqb_neq in E. eexists. split; [done|]. apply rrule_due; [lia|done].
  - destruct (sc_intervalMs config) as [n|].
    + by apply interval_due.
    + exists []. split; [done|]. split; [constructor|constructor|cbn; lia|]. by intros u [[] _].
Qed.

(** ** Ticks *)
Lemma make_ticks_spec config incarnation times : forall n (t : T), exists ticks t',
  make_ticks host config incarnation n times t = (Ret ticks, t') /\
  ti_scheduledAt <$> ticks = times /\ ti_tickNumber <$> ticks = seqZ n (Z.of_nat (length times)) /\
  Forall (fun k => ti_scheduleId k = sc_id config /\ ti_incarnation k = incarnation) ticks.
Proof.
  induction times as [|u times IH]; intros n t; cbn [make_ticks].
  - by exists [], t.
  - unfold makeTick, clock_now, a_bind, a_sync. destruct (sh_now host t) as [at_ t1]. cbn.
    destruct (IH (n + 1) t1) as (ticks & t' & E & Hs & Hn & Hi). rewrite E. eexists _, t'. split; [done|].
    cbn. rewrite Hs, Hn. split; [done|]. split; [|by constructor].
    rewrite (seqZ_cons n) by lia. do 2 f_equal. lia.
Qed.

(** What is due at [now]. *)
Definition due_spec config (state : ScheduleState) now (ticks : list ScheduleTick) : Prop :=
  ti_tickNumber <$> ticks = seqZ (ss_tickCount state) (Z.of_nat (length ticks)) /\
  Forall (fun k => ti_scheduleId k = sc_id config /\ ti_incarnation k = ss_incarnation state) ticks /\
  if not_started config now || ended config now then ticks = []
  else match ss_lastFired state with
       | None => ti_scheduledAt <$> ticks = [now]
       | Some last =>
           due_times (catch_up_limit config) (fun u => occurs config last u /\ last < u <= now) (ti_scheduledAt <$> ticks)
       end.

Lemma due_ticks_spec config state (t : T) : evaluates config ->
  exists ticks t', computeDueTicks host config (ss_lastFired state) (ss_tickCount state) (ss_incarnation state) t = (Ret ticks, t') /\
    due_spec config state (sh_now host t).1 ticks.
Proof.
  intros Hev. unfold computeDueTicks, due_spec. unfold a_bind at 1, clock_now, a_sync. destruct (sh_now host t) as [now t1].
  cbn [fst]. destruct (not_started config now); [by exists [], t1|]. destruct (ended config now); [by exists [], t1|].
  cbn [orb]. destruct (ss_lastFired state) as [last|].
  - destruct (occurrences_exact config now last (catch_up_limit config) t1 Hev) as (l & E & Hd); [unfold catch_up_limit; lia|].
    unfold a_bind. rewrite E. destruct (make_ticks_spec config (ss_incarnation state) l (ss_tickCount state) t1)
      as (ticks & t' & E' & Hs & Hn & Hi).
    exists ticks, t'. split; [done|]. rewrite Hs. rewrite <- Hs, length_fmap in Hn. by rewrite Hn.
  - unfold makeTick, clock_now, a_bind, a_sync. destruct (sh_now host t1) as [at_ t2]. eexists [_], t2.
    split; [done|]. cbn. split; [done|]. split; [by repeat constructor|done].
Qed.

(** ** The next run *)
(** Runs of the schedule after [now] are those of its trigger in its window;
    an interval counts from [now]. *)
Definition in_window config (u : Z) : bool := negb (not_started config u) && negb (past_end config u).

Definition next_spec config now (next : option Z) : Prop :=
  match next with
  | Some n => now < n /\ past_end config n = false /\
      (occurs config now n \/ sc_startAt config = Some n) /\
      forall u, occurs config now u -> now < u -> in_window config u = true -> n <= u
  | None => past_end config now = true \/ forall u, occurs config now u -> now < u -> in_window config u = false
  end.

Lemma candidate_spec config now : evaluates config ->
  exists r, next_candidate config now = Ok r /\ first_after (occurs config now) now r.
Proof.
  unfold evaluates, next_candidate, occurs. intros Hev.
  destruct (nonempty_str (sc_cron config)) as [c|]; [|destruct (nonempty_str (sc_rrule config)) as [r|]].
  - rewrite Hev. eexists. split; [done|]. by apply cron_next.
  - rewrite Hev. eexists. split; [done|]. by apply rrule_next.
  - destruct (sc_intervalMs config) as [n|]; eexists; (split; [done|]); cbn; [|done].
    split; [by exists 1; lia|]. split; [lia|]. intros u (k & Hk & ->) Hu. nia.
Qed.

Lemma next_run_spec config (t : T) : evaluates config ->
  (forall e, sc_endAt config = Some e -> forall s, sc_startAt config = Some s -> s < e) ->
  exists next, computeNextRun host config t = (Ret next, (sh_now host t).2) /\ next_spec config (sh_now host t).1 next.
Proof.
  intros Hev Hse. unfold computeNextRun, a_bind, clock_now, a_sync, a_lift. destruct (sh_now host t) as [now t1]. cbn [fst snd].
  destruct (past_end config now) eqn:He; [exists None; by split; [|left]|].
  destruct (candidate_spec config now Hev) as (r & -> & Hr). destruct r as [c|].
  - destruct Hr as (Ho & Hlt & Hmin). destruct (past_end config c) eqn:Hc.
    { exists None. split; [done|]. right. intros u Hu Hn. unfold in_window.
      assert (past_end config u = true) as ->; [|by rewrite andb_false_r].
      unfold past_end in Hc |- *. destruct (sc_endAt config); [|done]. specialize (Hmin u Hu Hn). lia. }
    destruct (sc_startAt config) as [s|] eqn:Es; [destruct (c <? s) eqn:Hs|].
    + apply Z.ltb_lt in Hs. exists (Some s). split; [done|]. split; [lia|]. split; [|split; [by right|]].
      * unfold past_end. destruct (sc_endAt config) as [e|] eqn:Ee; [|done]. specialize (Hse e eq_refl s eq_refl). lia.
      * intros u Hu Hn Hw. unfold in_window, not_started in Hw. rewrite Es in Hw. lia.
    + exists (Some c). split; [done|]. split; [done|]. split; [done|]. split; [by left|]. intros u Hu Hn _. by apply Hmin.
    + exists (Some c). split; [done|]. split; [done|]. split; [done|]. split; [by left|]. intros u Hu Hn _. by apply Hmin.
  - exists None. split; [done|]. right. intros u Hu Hn. specialize (Hr u Hu). lia.
Qed.

(** ** Plans *)
Definition window_ok config : Prop :=
  forall s e, sc_startAt config = Some s -> sc_endAt config = Some e -> s < e.

(** The trigger throws [e]. *)
Definition broken config (e : thrown) : Prop :=
  match nonempty_str (sc_cron config), nonempty_str (sc_rrule config) with
  | Some c, _ => cron_parse c (schedule_tz config) = Err e
  | None, Some r => rrule_parse r = Err e
  | None, None => False
  end.

(** A run delayed by the jitter of its schedule, but not past its end. *)
Definition jittered config (next delayed : option Z) : Prop :=
  match next, delayed with
  | None, None => True
  | Some n, Some d =>
      n <= d /\ (d = n \/ d < n + opt_or (sc_jitterMs config) 0) /\
      forall e, sc_endAt config = Some e -> d <= Z.max n e
  | _, _ => False
  end.

(** The planning of due ticks evaluates the trigger: the schedule is in its
    window and has fired before. *)
Definition asks_trigger config (state : ScheduleState) now : bool :=
  negb (not_started config now || ended config now) && negb (bool_decide (ss_lastFired state = None)).

(** The plan of one schedule, at two readings of the clock: what is due at
    [now], and the next run after [now']. A trigger that throws is found out
    when either asks it. *)
Definition plan_spec (reading : Z -> Prop) (configs : jmap string DurableScheduleConfig)
    (states : jmap string ScheduleState) (p : PlannedSchedule) : Prop :=
  match configs !! pl_id p, states !! pl_id p with
  | Some config, Some state =>
      if is_enabled config then
        exists now now', reading now /\ reading now' /\
        (evaluates config -> pl_error p = None /\
           exists next delayed,
             due_spec config state now (pl_ticks p) /\ next_spec config now' next /\ jittered config next delayed /\
             pl_commit p = tick_commit (pl_id p) state (pl_ticks p) delayed) /\
        (forall e, broken config e ->
           if asks_trigger config state now || negb (past_end config now') then
             pl_error p = Some e /\ pl_ticks p = [] /\
             exists at_, reading at_ /\ pl_commit p = error_commit (pl_id p) state (thrown_message host e) at_
           else
             pl_error p = None /\ due_spec config state now (pl_ticks p) /\
             pl_commit p = tick_commit (pl_id p) state (pl_ticks p) None)
      else p = drop_plan (pl_id p)
  | _, _ => p = drop_plan (pl_id p)
  end.

Context (random_unit : forall t : T, (0 <= (sh_random host t).1 < 1)%Q).

Lemma jitter_delay config (t : T) : 0 <= (jitterDelayMs host config t).1 /\
  ((jitterDelayMs host config t).1 = 0 \/ (jitterDelayMs host config t).1 < opt_or (sc_jitterMs config) 0).
Proof.
  unfold jitterDelayMs. destruct (opt_or (sc_jitterMs config) 0 <=? 0) eqn:E; [cbn; split; [done|by left]|].
  apply Z.leb_gt in E. pose proof (random_unit t) as [Hr0 Hr1]. destruct (sh_random host t) as [r t']. cbn [fst] in *.
  set (j := opt_or (sc_jitterMs config) 0) in *. assert (0 < inject_Z j)%Q as Hj by (unfold Qlt; cbn; lia).
  split.
  - assert (inject_Z 0 <= r * inject_Z j)%Q as Hle by (apply Qmult_le_0_compat; [done|by apply Qlt_le_weak]).
    apply Qfloor_resp_le in Hle. by rewrite Qfloor_Z in Hle.
  - right. assert (r * inject_Z j < inject_Z j)%Q as Hlt.
    { rewrite <- (Qmult_1_l (inject_Z j)) at 2. by apply Qmult_lt_r. }
    pose proof (Qfloor_le (r * inject_Z j)) as Hf. apply (Qle_lt_trans _ _ _ Hf) in Hlt. by rewrite <- Zlt_Qlt in Hlt.
Qed.

Lemma jitter_next config next (t : T) : exists delayed t',
  jitterNextRun host config next t = (Ret delayed, t') /\ jittered config next delayed.
Proof.
  unfold jitterNextRun. destruct next as [n|]; [|by exists None, t]. unfold a_bind, a_sync.
  pose proof (jitter_delay config t) as [Hz Hd]. destruct (jitterDelayMs host config t) as [d t1]. cbn [fst] in *.
  destruct (d =? 0) eqn:E.
  - apply Z.eqb_eq in E as ->. exists (Some n), t1. split; [done|]. split; [lia|]. split; [by left|]. intros e _. lia.
  - apply Z.eqb_neq in E. eexists (Some _), t1. split; [done|]. destruct Hd as [|Hd]; [done|].
    unfold jittered. destruct (sc_endAt config) as [e|]; (split; [lia|]); split; [lia| |lia|done].
    intros e' [= <-]. lia.
Qed.

(** What the readings of the clock are, whatever state the host is in. *)
Context (reading : Z -> Prop) (clock_reads : forall t : T, reading (sh_now host t).1).

Lemma plan_live_exact id config state (t : T) : evaluates config -> window_ok config ->
  exists p t', plan_live host id config state t = (Ret p, t') /\ pl_id p = id /\ pl_error p = None /\
    exists now now' next delayed, reading now /\ reading now' /\
      due_spec config state now (pl_ticks p) /\ next_spec config now' next /\ jittered config next delayed /\
      pl_commit p = tick_commit id state (pl_ticks p) delayed.
Proof using random_unit clock_reads.
  intros Hev Hw. destruct (due_ticks_spec config state t Hev) as (ticks & t1 & E1 & Hd).
  destruct (next_run_spec config t1 Hev) as (next & E2 & Hn); [intros e He s Hs; by apply Hw|].
  destruct (jitter_next config next (sh_now host t1).2) as (delayed & t3 & E3 & Hj).
  unfold plan_live, a_catch, a_bind. rewrite E1, E2, E3. eexists _, t3. split; [done|]. split; [done|]. split; [done|].
  exists (sh_now host t).1, (sh_now host t1).1, next, delayed. split; [apply clock_reads|]. by split; [apply clock_reads|].
Qed.

(** A trigger that throws. *)
Lemma broken_occurrences config e now last limit (t : T) : broken config e ->
  occurrences_of config now last limit t = (Throws e, t).
Proof.
  unfold broken, occurrences_of. destruct (nonempty_str (sc_cron config)) as [c|].
  - intros Hb. unfold missedCronOccurrences, a_bind, a_lift. by rewrite Hb.
  - destruct (nonempty_str (sc_rrule config)) as [r|]; [|done]. intros Hb.
    unfold missedRruleOccurrences, a_bind, a_lift. by rewrite Hb.
Qed.

Lemma broken_candidate config e now : broken config e -> next_candidate config now = Err e.
Proof.
  unfold broken, next_candidate. destruct (nonempty_str (sc_cron config)) as [c|]; [by intros ->|].
  destruct (nonempty_str (sc_rrule config)) as [r|]; [by intros ->|done].
Qed.

Lemma broken_due config state e (t : T) : broken config e ->
  let now := (sh_now host t).1 in
  exists t', if asks_trigger config state now
    then computeDueTicks host config (ss_lastFired state) (ss_tickCount state) (ss_incarnation state) t = (Throws e, t')
    else exists ticks, due_spec config state now ticks /\
      computeDueTicks host config (ss_lastFired state) (ss_tickCount state) (ss_incarnation state) t = (Ret ticks, t').
Proof.
  intros Hb. cbn zeta. unfold computeDueTicks, makeTick, clock_now, a_bind, a_sync, asks_trigger, due_spec.
  destruct (sh_now host t) as [now t1]. cbn [fst].
  destruct (not_started config now); [by exists t1, []|]. destruct (ended config now); [by exists t1, []|]. cbn [orb negb andb].
  destruct (ss_lastFired state) as [last|].
  - rewrite (broken_occurrences _ _ _ _ _ _ Hb). by exists t1.
  - destruct (sh_now host t1) as [at_ t2]. exists t2. eexists [_]. cbn. split; [|done]. split; [done|].
    split; [by repeat constructor|done].
Qed.

Lemma broken_next config e (t : T) : broken config e ->
  computeNextRun host config t =
    ((if past_end config (sh_now host t).1 then Ret None else Throws e), (sh_now host t).2).
Proof.
  intros Hb. unfold computeNextRun, clock_now, a_bind, a_sync, a_lift. destruct (sh_now host t) as [now t1].
  cbn. destruct (past_end config now); [done|]. by rewrite (broken_candidate _ _ _ Hb).
Qed.

Lemma plan_live_broken id config state e (t : T) : broken config e ->
  exists p t' now now', reading now /\ reading now' /\ plan_live host id config state t = (Ret p, t') /\ pl_id p = id /\
    if asks_trigger config state now || negb (past_end config now') then
      pl_error p = Some e /\ pl_ticks p = [] /\
      exists at_, reading at_ /\ pl_commit p = error_commit id state (thrown_message host e) at_
    else
      pl_error p = None /\ due_spec config state now (pl_ticks p) /\ pl_commit p = tick_commit id state (pl_ticks p) None.
Proof using clock_reads.
  intros Hb. unfold plan_live, a_catch, clock_now. unfold a_bind at 1. destruct (broken_due config state e t Hb) as (t1 & Hd).
  destruct (asks_trigger config state (sh_now host t).1) eqn:Ha.
  - rewrite Hd. unfold a_bind, a_sync. pose proof (clock_reads t1) as Hr. destruct (sh_now host t1) as [at_ t2].
    eexists _, t2, (sh_now host t).1, (sh_now host t).1. split; [apply clock_reads|]. split; [apply clock_reads|].
    split; [done|]. split; [done|]. rewrite Ha. split; [done|]. split; [done|]. by exists at_.
  - destruct Hd as (ticks & Hd & ->). unfold a_bind at 1. rewrite (broken_next config e t1 Hb).
    destruct (past_end config (sh_now host t1).1) eqn:He.
    + eexists _, _, (sh_now host t).1, (sh_now host t1).1. split; [apply clock_reads|]. split; [apply clock_reads|].
      split; [done|]. split; [done|]. by rewrite Ha, He.
    + set (t2 := (sh_now host t1).2). unfold a_bind, a_sync. pose proof (clock_reads t2) as Hr. destruct (sh_now host t2) as [at_ t3].
      eexists _, t3, (sh_now host t).1, (sh_now host t1).1. split; [apply clock_reads|]. split; [apply clock_reads|].
      split; [done|]. split; [done|]. rewrite Ha, He. split; [done|]. split; [done|]. by exists at_.
Qed.

(** A stored config that a poll can plan. *)
Definition plannable config : Prop := window_ok config /\ (evaluates config \/ exists e, broken config e).

Lemma evaluates_not_broken config e : evaluates config -> broken config e -> False.
Proof.
  unfold evaluates, broken. destruct (nonempty_str (sc_cron config)); [by intros ->|].
  destruct (nonempty_str (sc_rrule config)); [by intros ->|done].
Qed.

Lemma plan_one_exact configs states id (t : T) :
  (forall config, configs !! id = Some config -> plannable config) ->
  exists p t', plan_one host configs states id t = (Ret p, t') /\ pl_id p = id /\ plan_spec reading configs states p.
Proof using random_unit clock_reads.
  intros Hp. unfold plan_one, plan_spec. destruct (configs !! id) as [config|] eqn:Ec.
  2: { eexists _, t. split; [done|]. cbn. by rewrite Ec. }
  destruct (states !! id) as [state|] eqn:Es; [|eexists _, t; split; [done|]; cbn; by rewrite Ec, Es].
  destruct (is_enabled config) eqn:En; [|eexists _, t; split; [done|]; cbn; by rewrite Ec, Es, En].
  destruct (Hp config eq_refl) as [Hw [Hev|(e & Hb)]].
  - destruct (plan_live_exact id config state t Hev Hw) as (p & t' & E & Hid & He & now & now' & next & delayed & Hr & Hr' & Hs).
    exists p, t'. rewrite Hid, Ec, Es, En. split; [done|]. split; [done|]. exists now, now'. split; [done|]. split; [done|].
    split; [intros _; split; [done|]; by exists next, delayed|]. intros e Hb. by destruct (evaluates_not_broken config e Hev Hb).
  - destruct (plan_live_broken id config state e t Hb) as (p & t' & now & now' & Hr & Hr' & E & Hid & He). exists p, t'.
    rewrite Hid, Ec, Es, En. split; [done|]. split; [done|]. exists now, now'. split; [done|]. split; [done|]. split.
    + intros Hev. by destruct (evaluates_not_broken config e Hev Hb).
    + intros e' Hb'. assert (e' = e) as -> by (clear -Hb Hb'; unfold broken in *; repeat case_match; try done; congruence). done.
Qed.

Lemma plans_exact ids configs states (t : T) :
  (forall id config, id ∈ ids -> configs !! id = Some config -> plannable config) ->
  exists plans t', planDueTicks host ids configs states t = (Ret plans, t') /\
    pl_id <$> plans = ids /\ Forall (plan_spec reading configs states) plans.
Proof using random_unit clock_reads.
  revert t. induction ids as [|id ids IH]; intros t Hp; cbn [planDueTicks]; [by exists [], t|].
  destruct (plan_one_exact configs states id t) as (p & t1 & E & Hid & Hs); [intros config; apply Hp; left|].
  destruct (IH t1) as (ps & t2 & E2 & Hids & Hall); [intros i config Hi; apply Hp; by right|].
  unfold a_bind. rewrite E, E2. exists (p :: ps), t2. split; [done|]. cbn. rewrite Hid, Hids. split; [done|]. by constructor.
Qed.

(** A schedule that has something to fire at [now]: it never fired, or an
    occurrence of its trigger has come since. *)
Definition has_due config (state : ScheduleState) now : Prop :=
  not_started config now = false /\ ended config now = false /\
  match ss_lastFired state with
  | None => True
  | Some last => exists u, occurs config last u /\ last < u <= now
  end.

Lemma due_fires config state now ticks : due_spec config state now ticks -> has_due config state now -> ticks <> [].
Proof.
  intros (_ & _ & Hd) (Hs & He & Hu) ->. rewrite Hs, He in Hd. cbn in Hd. destruct (ss_lastFired state) as [last|]; [|done].
  destruct Hu as (u & Hu). destruct (dt_rest _ _ _ Hd u Hu) as [Hin|[Hlen _]]; [by apply not_elem_of_nil in Hin|].
  unfold catch_up_limit in Hlen. cbn in Hlen. lia.
Qed.
End exact.

Section planning_is_exact.
Context `{RecurrenceLaws} {T : Type} (host : SchedulerHost T).

End planning_is_exact.

(** ** A concrete library: every minute *)
Definition minute : Z := 60000.

#[local] Instance every_minute : Recurrence := {
  cron_parse c _ := if bool_decide (c = "bad") then Err (plain_error "CronPattern: bad") else Ok tt;
  cron_nextRun _ _ from := Some (minute * (from / minute + 1));
  cron_nextRuns _ _ n from := (fun k => minute * (from / minute + k)) <$> seqZ 1 n;
  cron_previousRuns _ _ n before := (fun k => minute * ((1000 * (before / 1000) - 1) / minute - k)) <$> seqZ 0 n;
  rrule_parse r := if bool_decide (r = "bad") then Err (plain_error "Unknown RRULE property") else Ok tt;
  rrule_after _ from inc := Some (if (inc : bool) then - (minute * ((- from) / minute)) else minute * (from / minute + 1));
  rrule_before _ now inc := Some (if (inc : bool) then minute * (now / minute) else minute * ((now - 1) / minute));
  rrule_between _ a b inc :=
    let lo := if (inc : bool) then - ((- a) / minute) else a / minute + 1 in
    let hi := if (inc : bool) then b / minute else (b - 1) / minute in
    (fun k => minute * k) <$> seqZ lo (hi - lo + 1);
}.

Lemma minute_next from : first_after (fun t => t mod minute = 0) from (Some (minute * (from / minute + 1))).
Proof.
  cbn. unfold minute. pose proof (Z.div_mod from 60000 ltac:(lia)). pose proof (Z.mod_pos_bound from 60000 ltac:(lia)).
  split; [rewrite Z.mul_comm; apply Z.mod_mul; lia|]. split; [lia|]. intros u Hu Hlt.
  pose proof (Z.div_mod u 60000 ltac:(lia)). assert (from / 60000 < u / 60000); [|lia]. lia.
Qed.

Lemma scaled_sorted (f : Z -> Z) a n : (forall i j, i < j -> f i < f j) -> StronglySorted Z.lt (f <$> seqZ a n).
Proof.
  intros Hf. apply (StronglySorted_Forall2 Z.lt _ (fun k u => u = f k) (seqZ a n)).
  - intros i j u v -> ->. apply Hf.
  - apply Forall2_fmap_r, Forall_Forall2_diag, Forall_forall. done.
  - apply seqZ_sorted.
Qed.

Lemma minute_previous n before : 0 <= n ->
  newest n (fun t => t mod minute = 0 /\ t < 1000 * (before / 1000))
    ((fun k => minute * ((1000 * (before / 1000) - 1) / minute - k)) <$> seqZ 0 n).
Proof.
  intros Hn. set (r := 1000 * (before / 1000)). unfold minute.
  pose proof (Z.div_mod (r - 1) 60000 ltac:(lia)) as Hd. pose proof (Z.mod_pos_bound (r - 1) 60000 ltac:(lia)) as Hm.
  set (q := (r - 1) / 60000) in *. split.
  - apply (StronglySorted_Forall2 Z.lt _ (fun k u => u = 60000 * (q - k)) (seqZ 0 n)).
    + intros i j u v -> ->. lia.
    + apply Forall2_fmap_r, Forall_Forall2_diag, Forall_forall. done.
    + apply seqZ_sorted.
  - apply Forall_fmap, Forall_forall. intros k Hk%elem_of_seqZ. cbn. split; [|lia].
    rewrite Z.mul_comm. apply Z.mod_mul. lia.
  - rewrite length_fmap, length_seqZ. lia.
  - intros t [Ht Hlt]. pose proof (Z.div_mod t 60000 ltac:(lia)) as Hdt. rewrite Ht in Hdt.
    destruct (decide (q - t / 60000 < n)).
    + left. apply list_elem_of_fmap. exists (q - t / 60000). split; [lia|]. apply elem_of_seqZ. lia.
    + right. rewrite length_fmap, length_seqZ. split; [lia|]. apply Forall_fmap, Forall_forall.
      intros k Hk%elem_of_seqZ. cbn. lia.
Qed.

#[local] Instance every_minute_laws : RecurrenceLaws.
Proof.
  refine {| cron_occurs _ _ t := t mod minute = 0; rrule_occurs _ t := t mod minute = 0 |}.
  - intros _ _ t Ht. unfold minute in Ht. pose proof (Z.div_mod t 60000 ltac:(lia)) as Hd. rewrite Ht in Hd.
    rewrite Hd. replace (60000 * (t / 60000) + 0) with (60 * (t / 60000) * 1000) by lia. apply Z.mod_mul. lia.
  - intros c tz n before _ Hn. by apply minute_previous.
  - intros c tz from _. apply minute_next.
  - intros r from _. apply minute_next.
  - intros r now _. cbn. unfold minute. pose proof (Z.div_mod now 60000 ltac:(lia)). pose proof (Z.mod_pos_bound now 60000 ltac:(lia)).
    split; [rewrite Z.mul_comm; apply Z.mod_mul; lia|]. split; [lia|]. intros u Hu Hle.
    pose proof (Z.div_mod u 60000 ltac:(lia)). lia.
  - intros r a b _. cbn. split; [apply scaled_sorted; unfold minute; lia|]. intros t. unfold minute.
    pose proof (Z.div_mod (- a) 60000 ltac:(lia)). pose proof (Z.mod_pos_bound (- a) 60000 ltac:(lia)).
    pose proof (Z.div_mod b 60000 ltac:(lia)). pose proof (Z.mod_pos_bound b 60000 ltac:(lia)).
    rewrite list_elem_of_fmap. split.
    + intros (k & -> & Hk%elem_of_seqZ). split; [rewrite Z.mul_comm; apply Z.mod_mul; lia|]. lia.
    + intros [Ht Hr]. pose proof (Z.div_mod t 60000 ltac:(lia)). exists (t / 60000). split; [lia|]. apply elem_of_seqZ. lia.
Qed.

Definition sample_host : SchedulerHost unit :=
  mkSchedulerHost (fun t => (600500, t)) (fun t => (1 # 2, t))%Q (fun _ => "").

Definition cron_config (id cron : string) (maxCatchUp : Z) : DurableScheduleConfig :=
  mkConfig id None None (Some cron) None None None None None None (Some 10) None (Some maxCatchUp).

Definition sample_configs : jmap string DurableScheduleConfig :=
  JMap [("a", cron_config "a" "* * * * *" 3); ("b", cron_config "b" "bad" 0); ("s", sample_config "s")].
Definition sample_states : jmap string ScheduleState :=
  JMap [("a", mkScheduleState (Some 300000) 7 "x" None); ("b", mkScheduleState (Some 300000) 0 "y" None);
        ("s", mkScheduleState None 0 "z" None)].


Example catches_up :
  option_map (fun p => (ti_scheduledAt <$> pl_ticks p, ti_tickNumber <$> pl_ticks p, su_nextRun (pl_commit p)))
    (match (planDueTicks sample_host ["a"; "gone"; "b"; "s"] sample_configs sample_states tt).1 with
     | Ret ps => head ps | _ => None end)
  = Some ([480000; 540000; 600000], [7; 8; 9], Some (Some 660005)).
Proof. vm_compute. reflexivity. Qed.

(** Occurrences from before the start fire, once the schedule has started. *)
Example fires_before_start :
  let config := mkConfig "a" None None (Some "* * * * *") None None None None (Some 600200) None None None (Some 3) in
  option_map (fun ticks => ti_scheduledAt <$> ticks)
    (match (computeDueTicks sample_host config (Some 300000) 7 "x" tt).1 with Ret ticks => Some ticks | _ => None end)
  = Some [480000; 540000; 600000].
Proof. vm_compute. reflexivity. Qed.

(** A tick that was not acknowledged is planned again under its number, for
    a newer occurrence once there is one. *)
Example number_moves_on :
  let times now := match (planDueTicks (mkSchedulerHost (fun t => (now, t)) (fun t => (0, t))%Q (fun _ => "")) ["a"]
      (JMap [("a", cron_config "a" "* * * * *" 0)]) sample_states tt).1 with
    | Ret ps => flat_map (fun p => (fun k => (ti_tickNumber k, ti_scheduledAt k)) <$> pl_ticks p) ps | _ => [] end in
  times 600500 = [(7, 600000)] /\ times 660500 = [(7, 660000)].
Proof. by vm_compute. Qed.

(** A stored interval of 0, which validation refuses, never returns. *)
Example zero_interval_hangs :
  (occurrences_of (mkConfig "z" None None None None (Some 0) None None None None None None None) 10 5 1 tt).1 = Died.
Proof. vm_compute. reflexivity. Qed.

(** ** Partitions *)
Lemma schedulePartition_range id count : 0 < count -> 0 <= schedulePartition id count < count.
Proof. intros Hc. by apply Z.mod_pos_bound. Qed.

Lemma to_int32_range x : - 2 ^ 31 <= to_int32 x < 2 ^ 31.
Proof.
  unfold to_int32. pose proof (Z.mod_pos_bound x (2 ^ 32) ltac:(lia)). destruct (x mod 2 ^ 32 <? 2 ^ 31) eqn:E; lia.
Qed.

(** ** Backfills *)
(** The loop ends: a unit of fuel per millisecond is enough. It lists the
    occurrences strictly between [from] and [to]. *)
Lemma backfill_exact `{RecurrenceLaws} cron tz to (Hp : cron_parse cron tz = Ok tt) fuel : forall from,
  (Z.to_nat (to - from) <= fuel)%nat ->
  StronglySorted Z.lt (backfill_loop fuel cron tz from to) /\
  forall u, u ∈ backfill_loop fuel cron tz from to <-> cron_occurs cron tz u /\ from < u < to.
Proof.
  induction fuel as [|fuel IH]; intros from Hfuel; cbn [backfill_loop].
  { split; [constructor|]. intros u. split; [intros Hu; by apply not_elem_of_nil in Hu|]. intros [_ Hu]. lia. }
  assert (forall u : Z, u ∈ ([] : list Z) <-> False) as Hnil by (intros u; split; [intros Hu; by apply not_elem_of_nil in Hu|done]).
  destruct (from <? to) eqn:Hft; [apply Z.ltb_lt in Hft|apply Z.ltb_ge in Hft; split; [constructor|]; intros u; rewrite Hnil; intuition lia].
  pose proof (cron_next cron tz from Hp) as Hn. destruct (cron_nextRun cron tz from) as [next|].
  - destruct Hn as (Ho & Hlt & Hmin). destruct (to <=? next) eqn:Hto; [apply Z.leb_le in Hto|apply Z.leb_gt in Hto].
    + split; [constructor|]. intros u. rewrite Hnil. split; [done|]. intros [Hu Hr]. specialize (Hmin u Hu). lia.
    + destruct (IH (next + 1)) as [Hs Hin]; [lia|]. split.
      * constructor; [done|]. apply Forall_forall. intros u [_ Hu]%Hin. lia.
      * intros u. rewrite elem_of_cons, Hin. split.
        -- intros [->|[Hu Hr]]; [split; [done|lia]|split; [done|lia]].
        -- intros [Hu Hr]. destruct (decide (u = next)) as [->|Hne]; [by left|right]. split; [done|].
           specialize (Hmin u Hu ltac:(lia)). apply cron_whole_seconds in Hu, Ho.
           pose proof (Z.div_mod u 1000 ltac:(lia)). pose proof (Z.div_mod next 1000 ltac:(lia)). lia.
  - split; [constructor|]. intros u. rewrite Hnil. split; [done|]. intros [Hu Hr]. specialize (Hn u Hu). lia.
Qed.
