(* ===== verification/Programs.v ===== *)
(** Programs of asynchronous processes: trees of calls, each with what the
    code does for every answer, and a Hoare-style logic for them.

    A process is split at every call that it awaits, so what others do
    between two of its calls is a matter of who takes the next step. The
    logic proves one program at a time against the log of what has happened
    so far, which others may have extended whenever the program goes on. *)
From S2P Require Import Prelude Exits.
Open Scope string_scope.
Open Scope list_scope.
Open Scope Z_scope.

Section programs.
Context {call : Type -> Type}.

(** What the code does with the answer of each call. *)
Inductive prog (A : Type) : Type :=
| PRet (a : A)
| PThrow (e : thrown)
| PVis (X : Type) (c : call X) (k : res thrown X -> prog A).
Arguments PRet {A} a.
Arguments PThrow {A} e.
Arguments PVis {A} X c k.

Fixpoint p_bind {A B} (m : prog A) (f : A -> prog B) : prog B :=
  match m with
  | PRet a => f a
  | PThrow e => PThrow e
  | PVis X c k => PVis X c (fun r => p_bind (k r) f)
  end.

Fixpoint p_catch {A} (m : prog A) (h : thrown -> prog A) : prog A :=
  match m with
  | PRet a => PRet a
  | PThrow e => h e
  | PVis X c k => PVis X c (fun r => p_catch (k r) h)
  end.

(** [try { m } finally { f }]. *)
Fixpoint p_finally {A} (m : prog A) (f : prog unit) : prog A :=
  match m with
  | PRet a => p_bind f (fun _ => PRet a)
  | PThrow e => p_bind f (fun _ => PThrow e)
  | PVis X c k => PVis X c (fun r => p_finally (k r) f)
  end.

Definition do_call {X} (c : call X) : prog X :=
  PVis X c (fun r => match r with Ok x => PRet x | Err e => PThrow e end).

Definition p_lift {X} (r : res thrown X) : prog X := match r with Ok x => PRet x | Err e => PThrow e end.

Fixpoint p_each {A} (f : A -> prog unit) (l : list A) : prog unit :=
  match l with
  | [] => PRet tt
  | x :: l => p_bind (f x) (fun _ => p_each f l)
  end.
End programs.
Arguments prog : clear implicits.
Arguments PRet {call A} a.
Arguments PThrow {call A} e.
Arguments PVis {call A} X c k.

Notation "'let+' x := m 'in' k" := (p_bind m (fun x => k))
  (at level 10, x name, m at level 200, k at level 200) : promin_scope.
Notation "'do+' m 'in' k" := (p_bind m (fun _ => k))
  (at level 10, m at level 200, k at level 200) : promin_scope.

(** ** Safe programs *)
(** What a call needs of the log when it is made, and what its answer tells
    of the log when the program goes on. *)
Class Contract (call : Type -> Type) (G : Type) : Type := {
  grows : relation G;
  grows_preorder :: PreOrder grows;
  needs : G -> forall X, call X -> Prop;
  tells : G -> forall X, call X -> res thrown X -> Prop;
}.

Section safe.
Context {call : Type -> Type} {G : Type} `{!Contract call G}.
Implicit Types D : G.

(** Every call finds what it needs, and a program that returns has [Q]. *)
Fixpoint safe {A} (Q : G -> A -> Prop) D (p : prog call A) : Prop :=
  match p with
  | PRet a => Q D a
  | PThrow _ => True
  | PVis X c k => forall D1, grows D D1 -> needs D1 X c /\
      forall D2 r, grows D1 D2 -> tells D2 X c r -> safe Q D2 (k r)
  end.

Definition growing {A} (Q : G -> A -> Prop) : Prop := forall D D' a, grows D D' -> Q D a -> Q D' a.
Definition any {A} (_ : G) (_ : A) : Prop := True.

Lemma safe_mono {A} (Q : G -> A -> Prop) D D' p : growing Q -> grows D D' -> safe Q D p -> safe Q D' p.
Proof.
  intros HQ HD. destruct p as [a|e|X c k]; cbn; [by apply HQ|done|]. intros Hs D1 HD1. apply Hs. by etrans.
Qed.

Lemma safe_bind {A B} (Q : G -> A -> Prop) (R : G -> B -> Prop) D p f :
  safe Q D p -> (forall D' a, grows D D' -> Q D' a -> safe R D' (f a)) -> safe R D (p_bind p f).
Proof.
  revert D. induction p as [a|e|X c k IH]; intros D Hp Hf; cbn in *; [by apply Hf|done|].
  intros D1 HD1. destruct (Hp D1 HD1) as [Hc Hk]. split; [done|]. intros D2 r HD2 Hr. apply IH; [by apply Hk|].
  intros D3 a HD3. apply Hf. by do 2 (etrans; [eassumption|]).
Qed.

Lemma safe_catch {A} (Q : G -> A -> Prop) D p h :
  safe Q D p -> (forall D' e, grows D D' -> safe Q D' (h e)) -> safe Q D (p_catch p h).
Proof.
  revert D. induction p as [a|e|X c k IH]; intros D Hp Hh; cbn in *; [done|by apply Hh|].
  intros D1 HD1. destruct (Hp D1 HD1) as [Hc Hk]. split; [done|]. intros D2 r HD2 Hr. apply IH; [by apply Hk|].
  intros D3 e HD3. apply Hh. by do 2 (etrans; [eassumption|]).
Qed.

Lemma safe_finally {A} (Q : G -> A -> Prop) D p f : growing Q ->
  safe Q D p -> (forall D', grows D D' -> safe any D' f) -> safe Q D (p_finally p f).
Proof.
  intros HQ. revert D. induction p as [a|e|X c k IH]; intros D Hp Hf; cbn in *.
  - apply (safe_bind any); [by apply Hf|]. intros D' _ HD _. by eapply HQ.
  - apply (safe_bind any); [by apply Hf|]. done.
  - intros D1 HD1. destruct (Hp D1 HD1) as [Hc Hk]. split; [done|]. intros D2 r HD2 Hr. apply IH; [by apply Hk|].
    intros D3 HD3. apply Hf. by do 2 (etrans; [eassumption|]).
Qed.

Lemma safe_weaken {A} (Q R : G -> A -> Prop) D p :
  safe Q D p -> (forall D' a, grows D D' -> Q D' a -> R D' a) -> safe R D p.
Proof.
  revert D. induction p as [a|e|X c k IH]; intros D Hp Hf; cbn in *; [by apply Hf|done|].
  intros D1 HD1. destruct (Hp D1 HD1) as [Hc Hk]. split; [done|]. intros D2 r HD2 Hr. apply IH; [by apply Hk|].
  intros D3 a HD3. apply Hf. by do 2 (etrans; [eassumption|]).
Qed.

Lemma safe_call {X} (Q : G -> X -> Prop) D (c : call X) :
  (forall D', grows D D' -> needs D' X c) -> (forall D' x, grows D D' -> tells D' X c (Ok x) -> Q D' x) ->
  safe Q D (do_call c).
Proof.
  intros Hc Ha D1 HD1. split; [by apply Hc|]. intros D2 [x|e] HD2 Hr; [|done]. apply Ha; [by etrans|done].
Qed.

(** A call that needs nothing. *)
Lemma safe_plain {X} D (c : call X) : (forall D', needs D' X c) -> safe any D (do_call c).
Proof. intros Hc. by apply safe_call. Qed.

Lemma safe_plain_at {X} D (c : call X) : (forall D', grows D D' -> needs D' X c) -> safe any D (do_call c).
Proof. intros Hc. by apply safe_call. Qed.

Lemma safe_each {A} (f : A -> prog call unit) (l : list A) D :
  (forall D' x, grows D D' -> x ∈ l -> safe any D' (f x)) -> safe any D (p_each f l).
Proof.
  revert D. induction l as [|x l IH]; intros D Hf; [done|]. cbn [p_each].
  apply (safe_bind any); [apply Hf; [done|apply list_elem_of_here]|]. intros D1 [] HD1 _. apply IH.
  intros D2 y HD2 Hy. apply Hf; [by etrans|by apply list_elem_of_further].
Qed.
End safe.
