(* ===== verification/PollLoop.v ===== *)
(** The background polling loop: [class PollLoop] of [shared/poll-loop.ts].

    The variables of a loop are a record, and [run] is one program per
    iteration, which says whether another follows. What a loop needs of the
    process it runs in, its variables, a timer and a random source, is the
    class [LoopHost], so workers, step waits and sweeps share the code. *)
From Stdlib Require Import QArith Qround.
From S2P Require Import Prelude Exits Programs.
Open Scope string_scope.
Open Scope list_scope.
Open Scope Z_scope.

Inductive PollTickResult : Type := TickAgain | TickStop | TickIdle.

(** [lv_loops] counts the runs: the promise of a run is its number. A loop
    sleeps while [sleepResolve] is set. *)
Record LoopVars : Type := mkLoopVars {
  lv_intervalMs : Z;
  lv_stopping : bool;
  lv_wakeRequested : bool;
  lv_running : bool;
  lv_loops : nat;
  lv_sleeping : bool;
}.

Record PollLoopErrorInfo : Type := mkLoopError { li_consecutiveFailures : nat; li_nextDelayMs : Z }.

Record PollLoopConfig : Type := mkLoopConfig { pc_maxBackoffMs : Z; pc_jitter : Q }.

Definition clamp01 (x : Q) : Q := if Qle_bool x 0 then 0%Q else if Qle_bool 1 x then 1%Q else x.

Definition newPollLoop (intervalMs : Z) (maxBackoffMs : option Z) (jitter : option Q) : PollLoopConfig * LoopVars :=
  (mkLoopConfig (opt_or maxBackoffMs (Z.max 30000 intervalMs)) (clamp01 (opt_or jitter 0%Q)),
   mkLoopVars intervalMs false false false 0 false).

(** ** The methods that do not wait *)
(** [start]: the number of the run, and whether it is a new one. *)
Definition loop_start (v : LoopVars) : (nat * bool) * LoopVars :=
  if lv_running v then ((lv_loops v, false), v)
  else let n := S (lv_loops v) in
       ((n, true), mkLoopVars (lv_intervalMs v) false false true n (lv_sleeping v)).

(** [stop], before it awaits the run. *)
Definition loop_stop (v : LoopVars) : nat * LoopVars :=
  (lv_loops v, mkLoopVars (lv_intervalMs v) true (lv_wakeRequested v) (lv_running v) (lv_loops v) false).

Definition loop_wake (v : LoopVars) : LoopVars :=
  if lv_sleeping v
  then mkLoopVars (lv_intervalMs v) (lv_stopping v) (lv_wakeRequested v) (lv_running v) (lv_loops v) false
  else mkLoopVars (lv_intervalMs v) (lv_stopping v) true (lv_running v) (lv_loops v) false.

Definition setIntervalMs (intervalMs : Z) (v : LoopVars) : LoopVars :=
  mkLoopVars intervalMs (lv_stopping v) (lv_wakeRequested v) (lv_running v) (lv_loops v) (lv_sleeping v).

(** What [sleep] does at once: use up a wake ([true]) or set the timer. *)
Definition loop_sleep (v : LoopVars) : bool * LoopVars :=
  if lv_wakeRequested v
  then (true, mkLoopVars (lv_intervalMs v) (lv_stopping v) false (lv_running v) (lv_loops v) (lv_sleeping v))
  else (false, mkLoopVars (lv_intervalMs v) (lv_stopping v) false (lv_running v) (lv_loops v) true).

(** The wait is over: its timer fired, or it was cancelled before. *)
Definition loop_awake (v : LoopVars) : LoopVars :=
  mkLoopVars (lv_intervalMs v) (lv_stopping v) (lv_wakeRequested v) (lv_running v) (lv_loops v) false.

(** The [finally] of [start]. *)
Definition loop_ended (v : LoopVars) : LoopVars :=
  mkLoopVars (lv_intervalMs v) (lv_stopping v) (lv_wakeRequested v) false (lv_loops v) (lv_sleeping v).

(** Whether run [n] is over, which is what its promise resolves at. *)
Definition run_over (n : nat) (v : LoopVars) : bool := negb (lv_running v && Nat.eqb (lv_loops v) n).

(** The wait after the [n]-th failure in a row. *)
Definition backoffMs (config : PollLoopConfig) (intervalMs : Z) (failures : nat) : Z :=
  Z.min (pc_maxBackoffMs config) (intervalMs * 2 ^ (Z.of_nat failures - 1)).

(** [Math.round] rounds halves up. *)
Definition math_round (x : Q) : Z := Qfloor (x + (1 # 2)).

Definition jitteredMs (jitter : Q) (intervalMs : Z) (random : Q) : Z :=
  let spread := (inject_Z intervalMs * jitter)%Q in
  Z.max 0 (math_round (inject_Z intervalMs - spread + 2 * spread * random)%Q).

(** ** [run] *)
Class LoopHost (call : Type -> Type) : Type := {
  on_loop : forall X, (LoopVars -> X * LoopVars) -> prog call X;
  loop_timer : Z -> prog call unit;
  loop_random : prog call Q;
}.
Arguments on_loop {call _ X} f.

Section loop.
Context {call : Type -> Type} `{!LoopHost call} (config : PollLoopConfig).
Variable tick : prog call PollTickResult.
Variable onError : thrown -> PollLoopErrorInfo -> prog call unit.

Definition loop_get {X} (f : LoopVars -> X) : prog call X := on_loop (fun v => (f v, v)).

Definition idleDelayMs : prog call Z :=
  let+ intervalMs := loop_get lv_intervalMs in
  if Qeq_bool (pc_jitter config) 0 then PRet intervalMs
  else let+ random := loop_random in PRet (jitteredMs (pc_jitter config) intervalMs random).

Definition sleep (ms : Z) : prog call unit :=
  let+ woken := on_loop loop_sleep in
  if woken : bool then PRet tt else loop_timer ms.

(** The end of an iteration that does not run the next one at once. *)
Definition loop_rest (delayMs : Z) (failures : nat) : prog call (option nat) :=
  let+ stopping := loop_get lv_stopping in
  if stopping : bool then PRet None else do+ sleep delayMs in PRet (Some failures).

(** One pass of the [while]; the answer is the number of failures in a row
    with which the next one begins. *)
Definition run_pass (failures : nat) : prog call (option nat) :=
  let+ stopping := loop_get lv_stopping in
  if stopping : bool then PRet None
  else
    let+ delayMs := idleDelayMs in
    let+ result := p_catch (let+ r := tick in PRet (inl r)) (fun error => PRet (inr error)) in
    match result with
    | inl TickStop => PRet None
    | inl TickAgain => PRet (Some 0%nat)
    | inl TickIdle => loop_rest delayMs 0
    | inr error =>
        let failures := S failures in
        let+ intervalMs := loop_get lv_intervalMs in
        let delayMs := backoffMs config intervalMs failures in
        do+ p_catch (onError error (mkLoopError failures delayMs)) (fun _ => PRet tt) in
        loop_rest delayMs failures
    end.
End loop.

(** ** Safe loops *)
(** What a loop asks of its process needs nothing of the log. *)
Class SafeLoop {call G} `{!Contract call G, !LoopHost call} : Prop := {
  safe_on_loop : forall X D (f : LoopVars -> X * LoopVars), safe any D (on_loop f);
  safe_timer : forall D ms, safe any D (loop_timer ms);
  safe_random : forall D, safe any D loop_random;
}.

Section safe_loop.
Context {call G} `{!Contract call G, !LoopHost call, !SafeLoop}.
Implicit Types D : G.

Lemma safe_idle config D : safe any D (idleDelayMs config).
Proof.
  apply (safe_bind any); [apply safe_on_loop|]. intros D1 ms _ _. destruct (Qeq_bool _ _); [done|].
  apply (safe_bind any); [apply safe_random|done].
Qed.

Lemma safe_rest D delayMs failures : safe any D (loop_rest delayMs failures).
Proof.
  apply (safe_bind any); [apply safe_on_loop|]. intros D1 stopping _ _. destruct stopping; [done|].
  apply (safe_bind any); [|done]. apply (safe_bind any); [apply safe_on_loop|]. intros D2 woken _ _.
  destruct woken; [done|apply safe_timer].
Qed.

(** An iteration is safe when its tick and its error hook are. *)
Lemma safe_pass config tick onError failures D :
  (forall D', grows D D' -> safe any D' tick) -> (forall D' e info, grows D D' -> safe any D' (onError e info)) ->
  safe any D (run_pass config tick onError failures).
Proof.
  intros Ht He. apply (safe_bind any); [apply safe_on_loop|]. intros D1 stopping HD1 _. destruct stopping; [done|].
  apply (safe_bind any); [apply safe_idle|]. intros D2 d HD2 _. apply (safe_bind any).
  { apply safe_catch; [|done]. apply (safe_bind any); [|done]. apply Ht. by etrans. }
  intros D3 r HD3 _. destruct r as [[]|e]; [done|done|apply safe_rest|].
  apply (safe_bind any); [apply safe_on_loop|]. intros D4 ms HD4 _. apply (safe_bind any); [|intros; apply safe_rest].
  apply safe_catch; [|done]. apply He. by do 3 (etrans; [eassumption|]).
Qed.
End safe_loop.

(** ** Wakes and waits *)
(** A wake while the loop is at work is used by its next wait, and a wake
    while it waits ends the wait: after [wake], the loop does not wait. *)
Lemma wake_not_lost v :
  let v' := loop_wake v in
  lv_sleeping v' = false /\ (lv_sleeping v = false -> (loop_sleep v').1 = true).
Proof. unfold loop_wake, loop_sleep. destruct (lv_sleeping v); cbn; by split. Qed.

(** The waits after failures double from the interval up to the cap. *)
Lemma backoff_doubles config intervalMs failures : 0 <= intervalMs -> (1 <= failures)%nat ->
  backoffMs config intervalMs 1 = Z.min (pc_maxBackoffMs config) intervalMs /\
  backoffMs config intervalMs failures <= backoffMs config intervalMs (S failures) /\
  backoffMs config intervalMs failures <= pc_maxBackoffMs config.
Proof.
  intros Hi Hf. unfold backoffMs. change (Z.of_nat 1 - 1) with 0. rewrite Z.mul_1_r. split; [done|]. split; [|lia].
  replace (Z.of_nat (S failures) - 1) with (Z.succ (Z.of_nat failures - 1)) by lia. rewrite Z.pow_succ_r by lia.
  assert (0 <= 2 ^ (Z.of_nat failures - 1)) by lia. nia.
Qed.

(** A jittered wait is never negative, and without jitter it is the interval. *)
Lemma jittered_none intervalMs random : 0 <= intervalMs -> jitteredMs 0 intervalMs random = intervalMs.
Proof.
  intros Hi. unfold jitteredMs, math_round.
  rewrite (Qfloor_comp _ (inject_Z intervalMs + (1 # 2))%Q) by ring.
  assert (Qfloor (inject_Z intervalMs + (1 # 2)) = intervalMs) as ->; [|lia].
  unfold Qfloor, Qplus, inject_Z. cbn. symmetry. apply (Z.div_unique _ _ _ 1); lia.
Qed.
