(* ===== verification/WorkerRegistry.v ===== *)
(** Who works: [InMemoryWorkerRegistry] of [distributed/worker-registry.ts].

    Every method reads the clock, [now], and changes the map in one
    synchronous block. *)
From S2P Require Import Prelude Json.
Open Scope string_scope.
Open Scope list_scope.
Open Scope Z_scope.

Inductive WorkerStatus : Type := WActive | WDraining | WDead | WRetired.

#[global] Instance WorkerStatus_eq_dec : EqDecision WorkerStatus.
Proof. solve_decision. Defined.

Record WorkerInfo : Type := mkWorkerInfo {
  wi_workerId : string;
  wi_capabilities : list string;
  wi_concurrency : Z;
  wi_status : WorkerStatus;
  wi_lastHeartbeat : Z;
  wi_startedAt : Z;
  wi_retiredAt : option Z;
  wi_metadata : option (list (string * json));
}.

Abbreviation InMemoryWorkerRegistry := (jmap string WorkerInfo).

Definition with_worker_status (status : WorkerStatus) (retiredAt : option Z) (w : WorkerInfo) : WorkerInfo :=
  mkWorkerInfo (wi_workerId w) (wi_capabilities w) (wi_concurrency w) status (wi_lastHeartbeat w) (wi_startedAt w)
    retiredAt (wi_metadata w).

Definition register_worker (now : Z) (workerId : string) (capabilities : list string) (concurrency : Z)
    (metadata : option (list (string * json))) (ws : InMemoryWorkerRegistry) : InMemoryWorkerRegistry :=
  <[workerId := mkWorkerInfo workerId capabilities concurrency WActive now now None metadata]> ws.

Definition on_worker (f : WorkerInfo -> WorkerInfo) (workerId : string) (ws : InMemoryWorkerRegistry)
    : InMemoryWorkerRegistry :=
  match ws !! workerId with Some w => <[workerId := f w]> ws | None => ws end.

Definition worker_heartbeat (now : Z) : string -> InMemoryWorkerRegistry -> InMemoryWorkerRegistry :=
  on_worker (fun w => mkWorkerInfo (wi_workerId w) (wi_capabilities w) (wi_concurrency w) (wi_status w) now
    (wi_startedAt w) (wi_retiredAt w) (wi_metadata w)).

Definition drain : string -> InMemoryWorkerRegistry -> InMemoryWorkerRegistry :=
  on_worker (fun w => with_worker_status WDraining (wi_retiredAt w) w).

Definition deregister (now : Z) : string -> InMemoryWorkerRegistry -> InMemoryWorkerRegistry :=
  on_worker (with_worker_status WRetired (Some now)).

Definition list_workers (status : option WorkerStatus) (ws : InMemoryWorkerRegistry) : list WorkerInfo :=
  match status with
  | Some s => List.filter (fun w => bool_decide (wi_status w = s)) (jm_values ws)
  | None => jm_values ws
  end.

(** Stale, and neither dead nor retired. *)
Definition found_dead (cutoff : Z) (w : WorkerInfo) : bool :=
  negb (bool_decide (wi_status w = WDead) || bool_decide (wi_status w = WRetired)) && (wi_lastHeartbeat w <? cutoff).

Fixpoint detect_loop (cutoff : Z) (entries : list (string * WorkerInfo)) (dead : list WorkerInfo)
    (ws : InMemoryWorkerRegistry) : list WorkerInfo * InMemoryWorkerRegistry :=
  match entries with
  | [] => (dead, ws)
  | (id, w) :: entries =>
      if found_dead cutoff w then
        let updated := with_worker_status WDead (wi_retiredAt w) w in
        detect_loop cutoff entries (dead ++ [updated]) (<[id := updated]> ws)
      else detect_loop cutoff entries dead ws
  end.

Definition detectDead (now timeoutMs : Z) (ws : InMemoryWorkerRegistry) : list WorkerInfo * InMemoryWorkerRegistry :=
  detect_loop (now - timeoutMs) (jm_entries ws) [] ws.

Definition last_active (w : WorkerInfo) : Z := opt_or (wi_retiredAt w) (wi_lastHeartbeat w).

Fixpoint gc_loop (cutoff : Z) (entries : list (string * WorkerInfo)) (reaped : Z) (ws : InMemoryWorkerRegistry)
    : Z * InMemoryWorkerRegistry :=
  match entries with
  | [] => (reaped, ws)
  | (id, w) :: entries =>
      if last_active w <? cutoff then gc_loop cutoff entries (reaped + 1) (delete id ws)
      else gc_loop cutoff entries reaped ws
  end.

Definition gc (now retainMs : Z) (ws : InMemoryWorkerRegistry) : Z * InMemoryWorkerRegistry :=
  gc_loop (now - retainMs) (jm_entries ws) 0 ws.

(** ** What the sweeps do *)
Lemma detect_frame cutoff entries dead ws id : id ∉ entries.*1 ->
  (detect_loop cutoff entries dead ws).2 !! id = ws !! id.
Proof.
  revert dead ws. induction entries as [|[i w] entries IH]; intros dead ws; [done|].
  intros [Hne Hi]%not_elem_of_cons. cbn [detect_loop]. destruct (found_dead cutoff w); rewrite IH by done; [|done].
  by rewrite jlookup_insert_ne.
Qed.

Lemma detect_hit cutoff entries dead ws id w : NoDup entries.*1 -> (id, w) ∈ entries -> ws !! id = Some w ->
  (detect_loop cutoff entries dead ws).2 !! id =
    Some (if found_dead cutoff w then with_worker_status WDead (wi_retiredAt w) w else w).
Proof.
  revert dead ws. induction entries as [|[i u] entries IH]; intros dead ws; [by intros _ ?%elem_of_nil|].
  intros [Hi Hd]%NoDup_cons [[= -> ->]|Hin]%elem_of_cons Hw; cbn [detect_loop].
  - destruct (found_dead cutoff u); rewrite detect_frame by done; [|done]. by rewrite jlookup_insert_eq.
  - assert (i <> id). { intros ->. apply Hi, list_elem_of_fmap. by exists (id, w). }
    destruct (found_dead cutoff u); apply IH; [done..| |done|done|done]. by rewrite jlookup_insert_ne.
Qed.

(** [detectDead] flips exactly the stale workers that are at work, never a
    retired one. *)
Lemma detectDead_exact now timeoutMs ws id : jm_wf ws ->
  (detectDead now timeoutMs ws).2 !! id =
    (fun w => if found_dead (now - timeoutMs) w then with_worker_status WDead (wi_retiredAt w) w else w) <$> ws !! id.
Proof.
  intros Hwf. unfold detectDead. destruct (ws !! id) as [w|] eqn:Ew; cbn.
  - apply detect_hit; [done|by apply jlookup_elem|done].
  - rewrite detect_frame; [done|]. by apply jlookup_None.
Qed.

Lemma gc_frame cutoff entries reaped ws id : id ∉ entries.*1 ->
  (gc_loop cutoff entries reaped ws).2 !! id = ws !! id.
Proof.
  revert reaped ws. induction entries as [|[i w] entries IH]; intros reaped ws; [done|].
  intros [Hne Hi]%not_elem_of_cons. cbn [gc_loop]. destruct (last_active w <? cutoff); rewrite IH by done; [|done].
  by rewrite jlookup_delete_ne.
Qed.

Lemma gc_hit cutoff entries reaped ws id w : NoDup entries.*1 -> (id, w) ∈ entries -> ws !! id = Some w ->
  (gc_loop cutoff entries reaped ws).2 !! id = if last_active w <? cutoff then None else Some w.
Proof.
  revert reaped ws. induction entries as [|[i u] entries IH]; intros reaped ws; [by intros _ ?%elem_of_nil|].
  intros [Hi Hd]%NoDup_cons [[= -> ->]|Hin]%elem_of_cons Hw; cbn [gc_loop].
  - destruct (last_active u <? cutoff); rewrite gc_frame by done; [|done]. by rewrite jlookup_delete_eq.
  - assert (i <> id). { intros ->. apply Hi, list_elem_of_fmap. by exists (id, w). }
    destruct (last_active u <? cutoff); apply IH; [done..| |done|done|done]. by rewrite jlookup_delete_ne.
Qed.

(** [gc] removes exactly the workers not heard of within the window. *)
Lemma gc_exact now retainMs ws id : jm_wf ws ->
  (gc now retainMs ws).2 !! id =
    (w ← ws !! id; if last_active w <? now - retainMs then None else Some w).
Proof.
  intros Hwf. unfold gc. destruct (ws !! id) as [w|] eqn:Ew; cbn.
  - apply gc_hit; [done|by apply jlookup_elem|done].
  - rewrite gc_frame; [done|]. by apply jlookup_None.
Qed.
