(* ===== verification/QueueCalls.v ===== *)
(** What the processes around the step queue are made of: tasks, contexts,
    handlers and middleware ([distributed/step-registry.ts],
    [distributed/middleware.ts]), the variables of a worker
    ([distributed/worker.ts]) and of a wait for a step
    ([distributed/step-queue-executor.ts]), and their calls. *)
From Stdlib Require Import QArith.
From S2P Require Import Prelude Leases Json Journal RunState StepQueue Storage Exits Retry StepBody Programs PollLoop WorkerRegistry.
Open Scope string_scope.
Open Scope list_scope.
Open Scope Z_scope.

(** ** Handlers *)
(** What a handler receives. [wx_signal] is the reason its signal was aborted
    for when the handler ran. *)
Record WorkerStepContext : Type := mkStepContext {
  wx_input : json;
  wx_prev : json;
  wx_deps : list (string * json);
  wx_workflowId : string;
  wx_stepName : string;
  wx_attempt : Z;
  wx_signal : option thrown;
}.

(** ** Variables *)
(** The controller of a running task, and whether the interval of its
    heartbeats is set. *)
Record Controller : Type := mkController {
  ct_task : StepTask;
  ct_reason : option thrown;
  ct_beating : bool;
}.

(** One attempt's wait. *)
Inductive AttemptOutcome : Type :=
| AttemptCompleted (attempt : Z) (result : json) (metadata : option (list (string * json))) (executorId : option string)
| AttemptFailed (attempt : Z) (error : thrown) (typed : bool) (metadata : option (list (string * json)))
    (executorId : option string) (durationMs : option Z)
| AttemptGaveUp (error : thrown).

(** [av_deadline] is [None] for a wait without end. *)
Record AttemptVars : Type := mkAttemptVars {
  av_taskId : string;
  av_deadline : option Z;
  av_polls : Z;
  av_outcome : option AttemptOutcome;
}.

Inductive WorkerErrorPhase : Type := WpClaim | WpCommit | WpHook | WpHeartbeat | WpRelease | WpTask.
Record WorkerErrorEvent : Type := mkWorkerError {
  we_phase : WorkerErrorPhase;
  we_error : thrown;
  we_task : option StepTask;
}.

Section calls.
Context {T : Type}.

Definition StepHandler : Type := WorkerStepContext -> T -> outcome json * T.

(** A middleware gets the task, the context and the next function. *)
Definition WorkerMiddleware : Type := StepTask -> WorkerStepContext -> StepHandler -> T -> outcome json * T.

Record StepRegistration : Type := mkRegistration { sg_handler : StepHandler }.

(** [MapStepRegistry]. *)
Abbreviation MapStepRegistry := (jmap string StepRegistration).
Definition register_step (stepName : string) (handler : StepHandler) (r : MapStepRegistry) : MapStepRegistry :=
  <[stepName := mkRegistration handler]> r.
Definition resolve_step (stepName : string) (r : MapStepRegistry) : option StepRegistration := r !! stepName.
Definition has_step (stepName : string) (r : MapStepRegistry) : bool := bool_decide (is_Some (r !! stepName)).
Definition list_steps (r : MapStepRegistry) : list string := jm_keys r.

(** The fields of a [DefaultWorker]. A controller is its index, the promise
    of an idle waiter and the handle of the heartbeat interval are numbers;
    [wv_intervals] are the intervals that are set. *)
Record WorkerVars : Type := mkWorkerVars {
  wv_registry : MapStepRegistry;
  wv_active : jmap string (StepTask * nat);
  wv_backlogLikely : bool;
  wv_controllers : list Controller;
  wv_idleWaiters : list nat;
  wv_nextWaiter : nat;
  wv_heartbeatTimer : option nat;
  wv_intervals : list nat;
  wv_nextInterval : nat;
}.

(** ** Calls *)
Inductive registry_call : Type :=
| RegRegister (workerId : string) (capabilities : list string) (concurrency : Z) (metadata : option (list (string * json)))
| RegDrain (workerId : string)
| RegDeregister (workerId : string).

Inductive call : Type -> Type :=
(** the step queue *)
| CEnqueue (p : StepQueueEnqueueParams) : call string
| CClaim (p : StepQueueClaimParams) : call (list StepTask)
| CRelease (taskId claimToken : string) : call bool
| CBeat (taskId : string) (claimToken : option string) : call bool
| CComplete (task : StepTask) (p : StepQueueCompleteParams) : call bool
| CFail (task : StepTask) (p : StepQueueFailParams) : call bool
| CTakeAway (p : StepQueueFailParams) : call bool
| CGet (taskId : string) : call (option MutableTask)
| CConsume (taskId : string) : call bool
| CRequeue (mode : requeue_mode) : call StepQueueRequeueResult
(** the other stores and the clock *)
| CLoadWorkflow (workflowId : string) : call (option WorkflowState)
| CWorkers (op : registry_call) : call unit
| CNow : call Z
(** user code: a hook, or the middleware and handler of an attempt, raced
    by a timer of the clock *)
| CUser {X : Type} (f : T -> outcome X * T) : call X
| CRun (task : StepTask) (registration : StepRegistration) (controller : nat) (late : option thrown) (f : option thrown -> T -> outcome json * T) : call json
(** variables of the worker, of its loop and of the wait *)
| CVars {X : Type} (f : WorkerVars -> X * WorkerVars) : call X
| CAttempt {X : Type} (f : AttemptVars -> X * AttemptVars) : call X
| CLoop {X : Type} (f : LoopVars -> X * LoopVars) : call X
(** waits, and new processes *)
| CTimer (ms : Z) : call unit
| CAwaitLoop (loop : nat) : call unit
| CAwaitIdle (waiter : nat) (timeoutMs : option Z) : call bool
| CStartLoop (loop : nat) : call unit
| CLaunch (task : StepTask) (controller : nat) : call unit.
End calls.
Arguments StepHandler : clear implicits.
Arguments WorkerMiddleware : clear implicits.
Arguments StepRegistration : clear implicits.
Arguments WorkerVars : clear implicits.
Arguments call : clear implicits.

(** The loops of workers and waits: neither sets a jitter, so nothing random
    is drawn. *)
#[global] Instance queue_loop_host {T} : LoopHost (call T) := {
  on_loop X f := do_call (CLoop f);
  loop_timer ms := do_call (CTimer ms);
  loop_random := PRet 0%Q;
}.

Abbreviation prog T := (Programs.prog (call T)).

(** ** Operations on a worker's variables *)
Section vars.
Context {T : Type}.
Implicit Types v : WorkerVars T.

Definition set_active (active : jmap string (StepTask * nat)) v : WorkerVars T :=
  mkWorkerVars (wv_registry v) active (wv_backlogLikely v) (wv_controllers v) (wv_idleWaiters v) (wv_nextWaiter v)
    (wv_heartbeatTimer v) (wv_intervals v) (wv_nextInterval v).
Definition set_registry (r : jmap string (StepRegistration T)) v : WorkerVars T :=
  mkWorkerVars r (wv_active v) (wv_backlogLikely v) (wv_controllers v) (wv_idleWaiters v) (wv_nextWaiter v)
    (wv_heartbeatTimer v) (wv_intervals v) (wv_nextInterval v).
Definition set_controllers (controllers : list Controller) v : WorkerVars T :=
  mkWorkerVars (wv_registry v) (wv_active v) (wv_backlogLikely v) controllers (wv_idleWaiters v) (wv_nextWaiter v)
    (wv_heartbeatTimer v) (wv_intervals v) (wv_nextInterval v).
Definition set_backlog (b : bool) v : WorkerVars T :=
  mkWorkerVars (wv_registry v) (wv_active v) b (wv_controllers v) (wv_idleWaiters v) (wv_nextWaiter v)
    (wv_heartbeatTimer v) (wv_intervals v) (wv_nextInterval v).

(** [new AbortController()], kept in [active] with its task. *)
Definition add_active (task : StepTask) v : nat * WorkerVars T :=
  let controller := length (wv_controllers v) in
  (controller, set_active (<[sk_id task := (task, controller)]> (wv_active v))
     (set_controllers (wv_controllers v ++ [mkController task None false]) v)).

Definition on_controller (f : Controller -> Controller) (controller : nat) v : WorkerVars T :=
  set_controllers (alter f controller (wv_controllers v)) v.

(** [AbortController.abort]: the first reason stays. *)
Definition abort (reason : thrown) : nat -> WorkerVars T -> WorkerVars T :=
  on_controller (fun c => mkController (ct_task c) (opt_else (ct_reason c) (Some reason)) (ct_beating c)).

Definition set_beating (b : bool) : nat -> WorkerVars T -> WorkerVars T :=
  on_controller (fun c => mkController (ct_task c) (ct_reason c) b).

Definition signal_of (controller : nat) v : option thrown := wv_controllers v !! controller ≫= ct_reason.

Definition is_aborted (controller : nat) v : bool := bool_decide (signal_of controller v <> None).

(** The [finally] of [launch], less the wake: whether it asks for one. *)
Definition drop_active (taskId : string) v : bool * WorkerVars T :=
  let active := delete taskId (wv_active v) in
  let waiters := if bool_decide (jm_entries active = []) then [] else wv_idleWaiters v in
  (wv_backlogLikely v,
   mkWorkerVars (wv_registry v) active (wv_backlogLikely v) (wv_controllers v) waiters (wv_nextWaiter v)
     (wv_heartbeatTimer v) (wv_intervals v) (wv_nextInterval v)).

(** The promise [stop] waits for, when tasks are running. *)
Definition add_waiter v : option nat * WorkerVars T :=
  if bool_decide (jm_entries (wv_active v) = []) then (None, v)
  else let n := wv_nextWaiter v in
       (Some n, mkWorkerVars (wv_registry v) (wv_active v) (wv_backlogLikely v) (wv_controllers v) (wv_idleWaiters v ++ [n])
          (S n) (wv_heartbeatTimer v) (wv_intervals v) (wv_nextInterval v)).

Definition start_heartbeat v : WorkerVars T :=
  let n := wv_nextInterval v in
  mkWorkerVars (wv_registry v) (wv_active v) (wv_backlogLikely v) (wv_controllers v) (wv_idleWaiters v) (wv_nextWaiter v)
    (Some n) (wv_intervals v ++ [n]) (S n).

Definition stop_heartbeat v : WorkerVars T :=
  match wv_heartbeatTimer v with
  | Some n =>
      mkWorkerVars (wv_registry v) (wv_active v) (wv_backlogLikely v) (wv_controllers v) (wv_idleWaiters v) (wv_nextWaiter v)
        None (List.filter (fun m => negb (Nat.eqb m n)) (wv_intervals v)) (wv_nextInterval v)
  | None => v
  end.

Definition new_worker_vars : WorkerVars T := mkWorkerVars ∅ ∅ false [] [] 0 None [] 0.
End vars.
