(* ===== verification/Worker.v ===== *)
(** A worker: [class DefaultWorker] of [distributed/worker.ts], method by
    method, as programs over the calls of [QueueCalls]. *)
From Stdlib Require Import QArith.
From S2P Require Import Prelude Leases Json Journal RunState StepQueue Storage Exits Retry StepBody MachineStorage Programs PollLoop WorkerRegistry QueueCalls.
Open Scope string_scope.
Open Scope list_scope.
Open Scope Z_scope.

Record WorkerHooks (T : Type) : Type := mkWorkerHooks {
  wh_beforeStep : option (StepTask -> T -> outcome unit * T);
  wh_afterStep : option (StepTask -> json -> Z -> T -> outcome unit * T);
  wh_onError : option (StepTask -> thrown -> Z -> T -> outcome unit * T);
  wh_onLeaseLost : option (StepTask -> T -> outcome unit * T);
}.
Arguments mkWorkerHooks {T}.
Arguments wh_beforeStep {T}.
Arguments wh_afterStep {T}.
Arguments wh_onError {T}.
Arguments wh_onLeaseLost {T}.

(** [WorkerConfig] with its defaults filled in; the queue, the step registry
    and the worker registry are the system's. *)
Record WorkerConfig (T : Type) : Type := mkWorkerConfig {
  wc_workerId : string;
  wc_capabilities : list string;
  wc_concurrency : Z;
  wc_hooks : WorkerHooks T;
  wc_middleware : list (WorkerMiddleware T);
  wc_workerRegistry : bool;
  wc_heartbeatIntervalMs : Z;
  wc_metadata : option (list (string * json));
  wc_supportedVersions : option (list string);
  wc_taskFilter : option (StepTask -> T -> outcome bool * T);
  wc_onError : WorkerErrorEvent -> T -> outcome unit * T;
  wc_pollLoop : PollLoopConfig;
}.
Arguments mkWorkerConfig {T}.
Arguments wc_workerId {T}.
Arguments wc_capabilities {T}.
Arguments wc_concurrency {T}.
Arguments wc_hooks {T}.
Arguments wc_middleware {T}.
Arguments wc_workerRegistry {T}.
Arguments wc_heartbeatIntervalMs {T}.
Arguments wc_metadata {T}.
Arguments wc_supportedVersions {T}.
Arguments wc_taskFilter {T}.
Arguments wc_onError {T}.
Arguments wc_pollLoop {T}.

(** What one attempt produced. *)
Inductive StepOutcome : Type :=
| OutCompleted (value : json) (durationMs : Z)
| OutFailed (error : string) (cause : thrown) (durationMs : Z).

Definition durationMs_of (o : StepOutcome) : Z := match o with OutCompleted _ d | OutFailed _ _ d => d end.

Section worker.
Context {T : Type} (host : RunnerHost T) (self : WorkerConfig T).

Abbreviation prog := (prog T).

(** The constructor; [uuid] is the default id. *)
Definition createWorker (uuid : string) (workerId : option string) (capabilities : option (list string))
    (concurrency pollIntervalMs : option Z) (hooks : option (WorkerHooks T)) (middleware : option (list (WorkerMiddleware T)))
    (workerRegistry : bool) (heartbeatIntervalMs : option Z) (metadata : option (list (string * json)))
    (supportedVersions : option (list string)) (taskFilter : option (StepTask -> T -> outcome bool * T))
    (onError : option (WorkerErrorEvent -> T -> outcome unit * T)) (maxErrorBackoffMs : option Z) : WorkerConfig T * LoopVars :=
  let '(loop, vars) := newPollLoop (opt_or pollIntervalMs 1000) maxErrorBackoffMs None in
  (mkWorkerConfig (opt_or workerId uuid) (opt_or capabilities []) (opt_or concurrency 1)
     (opt_or hooks (mkWorkerHooks None None None None)) (opt_or middleware []) workerRegistry (opt_or heartbeatIntervalMs 5000)
     metadata supportedVersions taskFilter (opt_or onError (fun _ t => (Ret tt, t))) loop, vars).

Definition p_now : prog Z := do_call CNow.
Definition p_vars {X} (f : WorkerVars T -> X * WorkerVars T) : prog X := do_call (CVars f).
Definition p_set (f : WorkerVars T -> WorkerVars T) : prog unit := p_vars (fun v => (tt, f v)).
Definition p_get {X} (f : WorkerVars T -> X) : prog X := p_vars (fun v => (f v, v)).
Definition p_wake : prog unit := do_call (CLoop (fun v => (tt, loop_wake v))).

(** A hook that may be missing. *)
Definition p_hook (f : option (T -> outcome unit * T)) : prog unit :=
  match f with Some f => do_call (CUser f) | None => PRet tt end.

Definition report (event : WorkerErrorEvent) : prog unit :=
  p_catch (do_call (CUser (wc_onError self event))) (fun _ => PRet tt).

Definition report_on (phase : WorkerErrorPhase) (task : StepTask) (error : thrown) : prog unit :=
  report (mkWorkerError phase error (Some task)).

(** ** One attempt *)
Definition buildChain (task : StepTask) (registration : StepRegistration T) : StepHandler T :=
  foldr (fun mw next ctx => mw task ctx next) (sg_handler registration) (wc_middleware self).

Definition context_of (task : StepTask) (signal : option thrown) : WorkerStepContext :=
  let spec := sk_spec task in
  mkStepContext (ts_input spec)
    (match ts_dependsOn spec with first :: _ => prop first (ts_deps spec) | [] => ts_input spec end)
    (ts_deps spec) (ts_workflowId spec) (ts_stepName spec) (ts_attempt spec) signal.

(** The middleware and the handler, run on the task. *)
Definition attempt_run (task : StepTask) (registration : StepRegistration T) (signal : option thrown) : T -> outcome json * T :=
  buildChain task registration (context_of task signal).

Definition step_not_found (stepName : string) (available : list string) : string :=
  "Step " +:+ quoted stepName +:+ " not found in registry. Available: " +:+ String.concat ", " available.

Definition timeout_error (task : StepTask) (ms : Z) : thrown :=
  StepTimeoutError host (ts_workflowId (sk_spec task)) (ts_stepName (sk_spec task)) ms.

Definition elapsed (startTime : Z) : prog Z := let+ now := p_now in PRet (now - startTime).

Definition computeOutcome (task : StepTask) (startTime : Z) (controller : nat) : prog StepOutcome :=
  let stepName := ts_stepName (sk_spec task) in
  let+ registration := p_get (fun v => resolve_step stepName (wv_registry v)) in
  match registration with
  | None =>
      let+ available := p_get (fun v => list_steps (wv_registry v)) in
      let error := step_not_found stepName available in
      let+ d := elapsed startTime in
      PRet (OutFailed error (plain_error error) d)
  | Some registration =>
      p_catch
        (do+ p_hook ((fun f => f task) <$> wh_beforeStep (wc_hooks self)) in
         let+ value := do_call (CRun task registration controller (timeout_error task <$> ts_timeoutMs (sk_spec task))
                                  (attempt_run task registration)) in
         let+ d := elapsed startTime in
         PRet (OutCompleted value d))
        (fun err => let+ d := elapsed startTime in PRet (OutFailed (errorMessage host err) err d))
  end.

(** ** Settling *)
Definition settle_call (task : StepTask) (claimToken : string) (outcome : StepOutcome) : prog bool :=
  match outcome with
  | OutCompleted value d =>
      do_call (CComplete task (mkComplete (sk_id task) (Some claimToken) value d None))
  | OutFailed error cause d =>
      do_call (CFail task (mkFail (sk_id task) (Some claimToken) error (errorTag cause) d None))
  end.

Definition commit (task : StepTask) (outcome : StepOutcome) : prog unit :=
  match sk_claimToken task with
  | None => report_on WpCommit task (plain_error ("task " +:+ sk_id task +:+ " was claimed without a claim token"))
  | Some claimToken =>
      let+ settled := p_catch (let+ b := settle_call task claimToken outcome in PRet (Some b))
                        (fun error => do+ report_on WpCommit task error in PRet None) in
      match settled with
      | Some true =>
          p_catch
            (p_hook (match outcome with
                     | OutCompleted value d => (fun f => f task value d) <$> wh_afterStep (wc_hooks self)
                     | OutFailed _ cause d => (fun f => f task cause d) <$> wh_onError (wc_hooks self)
                     end))
            (report_on WpHook task)
      | _ => PRet tt
      end
  end.

Definition executeTask (task : StepTask) (controller : nat) : prog unit :=
  let+ startTime := p_now in
  do+ p_set (set_beating true controller) in
  p_finally
    (let+ outcome := computeOutcome task startTime controller in
     let+ aborted := p_get (is_aborted controller) in
     if aborted : bool then PRet tt else commit task outcome)
    (p_set (set_beating false controller)).

Definition TaskLeaseLostError (task : StepTask) : thrown :=
  TError (new_error "TaskLeaseLostError" ("lost the claim on task " +:+ sk_id task)).

Definition WorkerStoppingError (task : StepTask) : thrown :=
  TError (new_error "WorkerStoppingError"
    ("worker " +:+ wc_workerId self +:+ " stopped before task " +:+ sk_id task +:+ " finished")).

Definition heartbeatTask (task : StepTask) (controller : nat) : prog unit :=
  let+ aborted := p_get (is_aborted controller) in
  if aborted : bool then PRet tt
  else
    let+ held := p_catch (let+ b := do_call (CBeat (sk_id task) (sk_claimToken task)) in PRet (Some b))
                   (fun error => do+ report_on WpHeartbeat task error in PRet None) in
    match held with
    | Some false =>
        let+ aborted := p_get (is_aborted controller) in
        if aborted : bool then PRet tt
        else
          do+ p_set (fun v => abort (TaskLeaseLostError task) controller (set_beating false controller v)) in
          p_catch (p_hook ((fun f => f task) <$> wh_onLeaseLost (wc_hooks self))) (report_on WpHook task)
    | _ => PRet tt
    end.

(** ** Claiming *)
(** A task's process: [executeTask] with the handlers of [launch]. *)
Definition task_process (task : StepTask) (controller : nat) : prog unit :=
  p_finally (p_catch (executeTask task controller) (report_on WpTask task))
    (let+ backlog := p_vars (drop_active (sk_id task)) in
     if backlog : bool then p_wake else PRet tt).

Definition launch (task : StepTask) : prog unit :=
  let+ controller := p_vars (add_active task) in
  do_call (CLaunch task controller).

Definition give_back (task : StepTask) : prog unit :=
  p_catch (do+ do_call (CRelease (sk_id task) (opt_or (sk_claimToken task) "")) in PRet tt) (report_on WpRelease task).

Fixpoint applyTaskFilter (taskFilter : StepTask -> T -> outcome bool * T) (tasks : list StepTask) (accepted : list StepTask)
    : prog (list StepTask) :=
  match tasks with
  | [] => PRet accepted
  | task :: tasks =>
      let+ accept := do_call (CUser (taskFilter task)) in
      if accept : bool then applyTaskFilter taskFilter tasks (accepted ++ [task])
      else do+ give_back task in applyTaskFilter taskFilter tasks accepted
  end.

Definition claim_params (free : Z) (stepNames : list string) : StepQueueClaimParams :=
  mkClaim (wc_workerId self) free (Some (wc_capabilities self)) (Some stepNames) (wc_supportedVersions self).

Definition claimOnce : prog PollTickResult :=
  let+ running := p_get (fun v => Z.of_nat (length (jm_entries (wv_active v)))) in
  let free := wc_concurrency self - running in
  if free <=? 0 then PRet TickIdle
  else
    let+ stepNames := p_get (fun v => list_steps (wv_registry v)) in
    let+ claimed := do_call (CClaim (claim_params free stepNames)) in
    let+ tasks := match wc_taskFilter self with
                  | Some f => applyTaskFilter f claimed []
                  | None => PRet claimed
                  end in
    do+ p_each launch tasks in
    do+ p_set (set_backlog (free <=? Z.of_nat (length claimed))) in
    PRet TickIdle.

(** The claim loop. *)
Definition worker_pass : nat -> prog (option nat) :=
  run_pass (wc_pollLoop self) claimOnce (fun error _ => report (mkWorkerError WpClaim error None)).

(** ** Start and stop *)
Definition await_start : prog unit :=
  let+ run := do_call (CLoop loop_start) in
  do+ (if run.2 : bool then do_call (CStartLoop run.1) else PRet tt) in
  do_call (CAwaitLoop run.1).

Definition start : prog unit :=
  let+ running := do_call (CLoop (fun v => (lv_running v, v))) in
  if running : bool then await_start
  else
    do+ (if wc_workerRegistry self then
           do+ do_call (CWorkers (RegRegister (wc_workerId self) (wc_capabilities self) (wc_concurrency self) (wc_metadata self))) in
           p_set start_heartbeat
         else PRet tt) in
    await_start.

(** The running tasks are given back one after the other, where the code
    has the calls under way at once. *)
Definition releaseUnfinished : prog unit :=
  let+ unfinished := p_get (fun v => jm_values (wv_active v)) in
  do+ p_each (fun '(task, controller) => p_set (abort (WorkerStoppingError task) controller)) unfinished in
  p_each (fun '(task, _) => give_back task) unfinished.

Definition stop (timeoutMs : option Z) : prog unit :=
  let+ run := do_call (CLoop loop_stop) in
  do+ do_call (CAwaitLoop run) in
  do+ (if wc_workerRegistry self then do_call (CWorkers (RegDrain (wc_workerId self))) else PRet tt) in
  let+ waiter := p_vars add_waiter in
  do+ match waiter with
      | Some n =>
          let+ late := do_call (CAwaitIdle n timeoutMs) in
          if late : bool then releaseUnfinished else PRet tt
      | None => PRet tt
      end in
  do+ p_set stop_heartbeat in
  if wc_workerRegistry self then do_call (CWorkers (RegDeregister (wc_workerId self))) else PRet tt.
End worker.
