(* ===== verification/StepQueueExecutor.v ===== *)
(** Waiting for a queued step: [runAttempt] of
    [distributed/step-queue-executor.ts], with the errors a step can end
    with, and the coordinator's view of the queue without sweeps
    ([withoutRequeue] of [distributed/coordinator-step-executor.ts]). *)
From Stdlib Require Import QArith.
From S2P Require Import Prelude Leases Json Journal RunState StepQueue Storage Exits Retry StepBody MachineStorage Programs PollLoop WorkerRegistry QueueCalls.
Open Scope string_scope.
Open Scope list_scope.
Open Scope Z_scope.

Definition DEFAULT_STEP_WAIT_TIMEOUT_MS : Z := 24 * 60 * 60 * 1000.

(** [ec_stepWaitTimeoutMs] is [None] for [Infinity]. *)
Record StepQueueExecutorConfig (T : Type) : Type := mkExecutorConfig {
  ec_pollIntervalMs : Z;
  ec_staleTimeoutMs : Z;
  ec_stepWaitTimeoutMs : option Z;
  ec_onError : thrown -> PollLoopErrorInfo -> T -> outcome unit * T;
}.
Arguments mkExecutorConfig {T}.
Arguments ec_pollIntervalMs {T}.
Arguments ec_staleTimeoutMs {T}.
Arguments ec_stepWaitTimeoutMs {T}.
Arguments ec_onError {T}.

(** The constructor: the wait must be positive. *)
Definition newStepQueueExecutor {T} (pollIntervalMs staleTimeoutMs : option Z) (stepWaitTimeoutMs : option (option Z))
    (onError : option (thrown -> PollLoopErrorInfo -> T -> outcome unit * T)) : res thrown (StepQueueExecutorConfig T) :=
  let wait := opt_or stepWaitTimeoutMs (Some DEFAULT_STEP_WAIT_TIMEOUT_MS) in
  match wait with
  | Some ms =>
      if negb (0 <? ms)
      then Err (plain_error ("StepQueueExecutor: stepWaitTimeoutMs must be positive, got " +:+ str_of_Z ms))
      else Ok (mkExecutorConfig (opt_or pollIntervalMs 500) (opt_or staleTimeoutMs 30000) wait
                 (opt_or onError (fun _ _ t => (Ret tt, t))))
  | None => Ok (mkExecutorConfig (opt_or pollIntervalMs 500) (opt_or staleTimeoutMs 30000) None
                  (opt_or onError (fun _ _ t => (Ret tt, t))))
  end.

(** What [runAttempt] reads of a request; [rq_timeoutMs] is the
    definition's. *)
Record StepExecutionRequest : Type := mkStepRequest {
  rq_workflowId : string;
  rq_stepName : string;
  rq_input : json;
  rq_timeoutMs : option Z;
  rq_needs : option (list string);
  rq_priority : option Z;
  rq_version : option string;
  rq_run : option Z;
  rq_concurrencyKey : option string;
  rq_concurrencyScope : option string;
  rq_concurrencyLimit : option Z;
}.

Definition request_run (req : StepExecutionRequest) : Z := opt_or (rq_run req) 1.

Section executor.
Context {T : Type} (host : RunnerHost T) (self : StepQueueExecutorConfig T).

Abbreviation prog := (prog T).

(** ** Errors *)
Definition QueuedStepError (workflowId stepName message tag : string) : thrown :=
  TError (mkError "QueuedStepError" (Some tag) tag message [("workflowId", JStr workflowId); ("stepName", JStr stepName)]).

Definition StepWaitTimeoutError (req : StepExecutionRequest) (taskId : string) (ms : Z) : thrown :=
  engine_error host "StepWaitTimeoutError"
    [("workflowId", JStr (rq_workflowId req)); ("stepName", JStr (rq_stepName req)); ("taskId", JStr taskId); ("timeoutMs", JNum ms)]
    ("step " +:+ quoted (rq_stepName req) +:+ " of workflow " +:+ quoted (rq_workflowId req) +:+ " got no outcome within "
      +:+ str_of_Z ms +:+ "ms of being queued (task " +:+ taskId +:+ ")").

Definition StepWaitAbandonedError (req : StepExecutionRequest) (taskId : string) (status : option WorkflowStatus) : thrown :=
  engine_error host "StepWaitAbandonedError"
    ([("workflowId", JStr (rq_workflowId req)); ("stepName", JStr (rq_stepName req)); ("taskId", JStr taskId);
      ("reason", JStr (match status with None => "deleted" | Some _ => "terminal" end))] ++
     match status with Some s => [("status", JStr (status_name s))] | None => [] end)
    ("step " +:+ quoted (rq_stepName req) +:+ " stopped waiting: workflow " +:+ quoted (rq_workflowId req) +:+
     match status with None => " was deleted" | Some s => " is " +:+ status_name s end).

(** [attemptError]: rebuilt from what the worker reported. *)
Definition attemptError (req : StepExecutionRequest) (message : string) (tag : option string) : thrown :=
  match tag with
  | None => plain_error message
  | Some tag =>
      match bool_decide (tag = "StepTimeoutError"), rq_timeoutMs req with
      | true, Some ms =>
          engine_error host "StepTimeoutError"
            [("workflowId", JStr (rq_workflowId req)); ("stepName", JStr (rq_stepName req)); ("timeoutMs", JNum ms)] message
      | _, _ => QueuedStepError (rq_workflowId req) (rq_stepName req) message tag
      end
  end.

(** ** The wait *)
Definition p_attempt {X} (f : AttemptVars -> X * AttemptVars) : prog X := do_call (CAttempt f).

Definition enqueue_params (req : StepExecutionRequest) (attempt : Z) (deps : list (string * json)) (dependsOn : list string)
    : StepQueueEnqueueParams :=
  mkEnqueue (rq_workflowId req) (rq_stepName req) (rq_input req) (Some deps) (Some dependsOn) (rq_timeoutMs req)
    (rq_needs req) (rq_priority req) None (rq_version req) (Some attempt) (Some (request_run req)) None
    (rq_concurrencyKey req) (rq_concurrencyScope req) (rq_concurrencyLimit req).

Definition set_taskId (taskId : string) : prog unit :=
  p_attempt (fun v => (tt, mkAttemptVars taskId (av_deadline v) (av_polls v) (av_outcome v))).
Definition set_outcome (o : AttemptOutcome) : prog unit :=
  p_attempt (fun v => (tt, mkAttemptVars (av_taskId v) (av_deadline v) (av_polls v) (Some o))).
Definition next_poll : prog Z :=
  p_attempt (fun v => let n := av_polls v + 1 in (n, mkAttemptVars (av_taskId v) (av_deadline v) n (av_outcome v))).

(** [Math.max(1, Math.ceil(staleTimeoutMs / pollIntervalMs))]. *)
Definition requeueEveryNPolls : Z := Z.max 1 (- (- ec_staleTimeoutMs self / ec_pollIntervalMs self)).

Definition attempt_completed (task : MutableTask) : AttemptOutcome :=
  AttemptCompleted (ts_attempt (tk_spec task)) (opt_or (to_result (tk_outcome task)) JUndef)
    (to_stepMetadata (tk_outcome task)) (tc_claimedBy (tk_claim task)).

Definition attempt_failed (req : StepExecutionRequest) (task : MutableTask) : AttemptOutcome :=
  let o := tk_outcome task in
  AttemptFailed (ts_attempt (tk_spec task)) (attemptError req (opt_or (to_error o) "step task failed") (to_errorTag o))
    (bool_decide (to_errorTag o <> None)) (to_stepMetadata o) (tc_claimedBy (tk_claim task)) (to_durationMs o).

Definition gave_up (error : thrown) : prog PollTickResult :=
  do+ set_outcome (AttemptGaveUp error) in PRet TickStop.

(** The part of a check after the task was found not settled. *)
Definition check_run (req : StepExecutionRequest) (taskId : string) : prog PollTickResult :=
  let+ state := do_call (CLoadWorkflow (rq_workflowId req)) in
  match state with
  | None => gave_up (StepWaitAbandonedError req taskId None)
  | Some state =>
      let status := lc_status (ws_life state) in
      if isTerminalWorkflowStatus status then gave_up (StepWaitAbandonedError req taskId (Some status))
      else
        let+ now := do_call CNow in
        let+ deadline := p_attempt (fun v => (av_deadline v, v)) in
        match deadline, ec_stepWaitTimeoutMs self with
        | Some deadline, Some ms =>
            if deadline <=? now then
              let error := StepWaitTimeoutError req taskId ms in
              let+ taken := do_call (CTakeAway (mkFail taskId None (errorMessage host error) None 0 None)) in
              do+ (if taken : bool then do+ do_call (CConsume taskId) in PRet tt else PRet tt) in
              gave_up error
            else PRet TickIdle
        | _, _ => PRet TickIdle
        end
  end.

Definition wait_tick (req : StepExecutionRequest) (params : StepQueueEnqueueParams) : prog PollTickResult :=
  let+ polls := next_poll in
  if polls =? 0 then PRet TickIdle
  else
    do+ (if polls mod requeueEveryNPolls =? 0
         then do+ do_call (CRequeue (Stale (ec_staleTimeoutMs self))) in PRet tt else PRet tt) in
    let+ taskId := p_attempt (fun v => (av_taskId v, v)) in
    let+ task := do_call (CGet taskId) in
    match task with
    | Some t =>
        if is_settled t && negb (ts_run (tk_spec t) =? request_run req) then
          do+ do_call (CConsume taskId) in
          let+ again := do_call (CEnqueue params) in
          do+ set_taskId again in
          PRet TickIdle
        else if is_settled t then
          do+ do_call (CConsume taskId) in
          do+ set_outcome (if is_status TCompleted t then attempt_completed t else attempt_failed req t) in
          PRet TickStop
        else check_run req taskId
    | None => check_run req taskId
    end.

(** [runAttempt]: the enqueue, before the loop; then the passes of the loop. *)
Definition begin_attempt (params : StepQueueEnqueueParams) : prog unit :=
  let+ taskId := do_call (CEnqueue params) in
  let+ now := do_call CNow in
  p_attempt (fun _ => (tt, mkAttemptVars taskId (Z.add now <$> ec_stepWaitTimeoutMs self) (-1) None)).

Definition wait_loop : PollLoopConfig * LoopVars := newPollLoop (ec_pollIntervalMs self) None None.

Definition wait_pass (req : StepExecutionRequest) (params : StepQueueEnqueueParams) : nat -> prog (option nat) :=
  run_pass wait_loop.1 (wait_tick req params) (fun error info => do_call (CUser (ec_onError self error info))).

(** ** The coordinator's view of the queue *)
Fixpoint withoutRequeue {A} (p : prog A) : prog A :=
  match p with
  | PRet a => PRet a
  | PThrow e => PThrow e
  | PVis X c k =>
      match c in call _ X return (res thrown X -> prog A) -> prog A with
      | CRequeue _ => fun k => k (Ok (mkRequeue 0 0))
      | c => fun k => PVis _ c k
      end (fun r => withoutRequeue (k r))
  end.
End executor.
