(* ===== verification/QueueSystem.v ===== *)
(** Workers and step waits at work: any number of [DefaultWorker]s and of
    [runAttempt] calls over one step queue, one run storage and one worker
    registry ([distributed/worker.ts], [distributed/step-queue-executor.ts],
    [distributed/in-memory-step-queue.ts], [distributed/worker-registry.ts]).

    An event lets one process take its next call, a timer fire, a process
    die, a call fail before or after its effect, or somebody else use the
    queue, the storage or the registry. A log keeps what was enqueued,
    claimed, run and settled, and what the waits ended with. *)
From Stdlib Require Import QArith.
From S2P Require Import Prelude Leases LeaderLeases Json Journal RunState Storage StorageRows Exits Retry StepBody JournalStore StepQueue Programs PollLoop WorkerRegistry QueueCalls Worker StepQueueExecutor.
Open Scope string_scope.
Open Scope list_scope.
Open Scope Z_scope.

Section system.
Context {T : Type} (host : RunnerHost T) (localeCompare : string -> string -> Z).

(** ** The log *)
(** A worker is named by its number and its id. *)
Inductive LogEntry : Type :=
| LWorker (i : nat) (config : WorkerConfig T)
| LRegister (i : nat) (stepName : string) (registration : StepRegistration T)
| LEnqueue (p : StepQueueEnqueueParams) (taskId : string)
| LClaim (i : nat) (workerId : string) (task : StepTask)
| LRun (i : nat) (workerId : string) (task : StepTask) (registration : StepRegistration T) (value : json)
| LSettle (i : nat) (workerId : string) (task : StepTask)
| LOutcome (req : StepExecutionRequest) (outcome : AttemptOutcome).

(** Whose call it is. *)
Inductive Owner : Type :=
| OwWorker (i : nat) (self : WorkerConfig T)
| OwWait (req : StepExecutionRequest) (params : StepQueueEnqueueParams).

Inductive Spawn : Type :=
| SpLoop
| SpTask (task : StepTask) (controller : nat).

(** ** One call *)
Record Local : Type := mkLocal {
  lo_queue : InMemoryStepQueue;
  lo_storage : InMemoryWorkflowStorage;
  lo_workers : jmap string WorkerInfo;
  lo_host : T;
  lo_vars : WorkerVars T;
  lo_loop : LoopVars;
  lo_attempt : AttemptVars;
}.

Definition with_queue (q : InMemoryStepQueue) (l : Local) : Local :=
  mkLocal q (lo_storage l) (lo_workers l) (lo_host l) (lo_vars l) (lo_loop l) (lo_attempt l).
Definition with_storage (db : InMemoryWorkflowStorage) (l : Local) : Local :=
  mkLocal (lo_queue l) db (lo_workers l) (lo_host l) (lo_vars l) (lo_loop l) (lo_attempt l).
Definition with_workers (ws : jmap string WorkerInfo) (l : Local) : Local :=
  mkLocal (lo_queue l) (lo_storage l) ws (lo_host l) (lo_vars l) (lo_loop l) (lo_attempt l).
Definition with_host (t : T) (l : Local) : Local :=
  mkLocal (lo_queue l) (lo_storage l) (lo_workers l) t (lo_vars l) (lo_loop l) (lo_attempt l).
Definition with_vars (v : WorkerVars T) (l : Local) : Local :=
  mkLocal (lo_queue l) (lo_storage l) (lo_workers l) (lo_host l) v (lo_loop l) (lo_attempt l).
Definition with_loop (v : LoopVars) (l : Local) : Local :=
  mkLocal (lo_queue l) (lo_storage l) (lo_workers l) (lo_host l) (lo_vars l) v (lo_attempt l).
Definition with_attempt (v : AttemptVars) (l : Local) : Local :=
  mkLocal (lo_queue l) (lo_storage l) (lo_workers l) (lo_host l) (lo_vars l) (lo_loop l) v.

Record Effect (X : Type) : Type := mkEffect {
  ef_answer : outcome X;
  ef_local : Local;
  ef_log : list LogEntry;
  ef_spawn : option Spawn;
}.
Arguments mkEffect {X}.
Arguments ef_answer {X}.
Arguments ef_local {X}.
Arguments ef_log {X}.
Arguments ef_spawn {X}.

Definition done {X} (x : X) (l : Local) : option (Effect X) := Some (mkEffect (Ret x) l [] None).

Definition settle_log (who : Owner) (task : StepTask) (settled : bool) : list LogEntry :=
  match who with
  | OwWorker i self => if settled then [LSettle i (wc_workerId self) task] else []
  | OwWait _ _ => []
  end.

Definition claim_log (who : Owner) (tasks : list StepTask) : list LogEntry :=
  match who with
  | OwWorker i self => LClaim i (wc_workerId self) <$> tasks
  | OwWait _ _ => []
  end.

Definition run_log (who : Owner) (task : StepTask) (registration : StepRegistration T) (o : outcome json) : list LogEntry :=
  match who, o with
  | OwWorker i self, Ret value => [LRun i (wc_workerId self) task registration value]
  | _, _ => []
  end.

Definition run_registry_call (now : Z) (op : registry_call) (ws : jmap string WorkerInfo) : jmap string WorkerInfo :=
  match op with
  | RegRegister workerId capabilities concurrency metadata => register_worker now workerId capabilities concurrency metadata ws
  | RegDrain workerId => drain workerId ws
  | RegDeregister workerId => deregister now workerId ws
  end.

(** [now] is the clock. [late] lets a timer win the race the call is:
    against the handler, whose effects have come about or not, or against
    the tasks [stop] waits for. [None] is a call that still waits. *)
Definition perform {X} (now : Z) (late : option bool) (who : Owner) (c : call T X) (l : Local) : option (Effect X) :=
  match c in call _ X return option (Effect X) with
  | CEnqueue p =>
      let '(id, q) := enqueue now p (lo_queue l) in
      Some (mkEffect (Ret id) (with_queue q l) [LEnqueue p id] None)
  | CClaim p =>
      let '(tasks, q) := claim now p (lo_queue l) in
      Some (mkEffect (Ret tasks) (with_queue q l) (claim_log who tasks) None)
  | CRelease id token => let '(b, q) := release id token (lo_queue l) in done b (with_queue q l)
  | CBeat id token => let '(b, q) := heartbeat now id token (lo_queue l) in done b (with_queue q l)
  | CComplete task p =>
      let '(b, q) := complete now p (lo_queue l) in
      Some (mkEffect (Ret b) (with_queue q l) (settle_log who task b) None)
  | CFail task p =>
      let '(b, q) := fail now p (lo_queue l) in
      Some (mkEffect (Ret b) (with_queue q l) (settle_log who task b) None)
  | CTakeAway p => let '(b, q) := fail now p (lo_queue l) in done b (with_queue q l)
  | CGet id => done (get id (lo_queue l)) l
  | CConsume id => let '(b, q) := consume now id (lo_queue l) in done b (with_queue q l)
  | CRequeue mode =>
      match requeueStuck now mode None None (lo_queue l) with
      | (Ok r, q) => done r (with_queue q l)
      | (Err e, q) => Some (mkEffect (Throws (store_error e)) (with_queue q l) [] None)
      end
  | CLoadWorkflow w =>
      match loadWorkflow w (lo_storage l) with
      | (Ok st, db) => done st (with_storage db l)
      | (Err e, db) => Some (mkEffect (Throws (store_error e)) (with_storage db l) [] None)
      end
  | CWorkers op => done tt (with_workers (run_registry_call now op (lo_workers l)) l)
  | CNow => done now l
  | CUser f => let '(o, t) := f (lo_host l) in Some (mkEffect o (with_host t l) [] None)
  | CRun task registration controller timeout f =>
      let '(o, t) := f (signal_of controller (lo_vars l)) (lo_host l) in
      match timeout, late with
      | Some e, Some applied => Some (mkEffect (Throws e) (if applied : bool then with_host t l else l) [] None)
      | _, _ => Some (mkEffect o (with_host t l) (run_log who task registration o) None)
      end
  | CVars f => let '(x, v) := f (lo_vars l) in done x (with_vars v l)
  | CAttempt f => let '(x, v) := f (lo_attempt l) in done x (with_attempt v l)
  | CLoop f => let '(x, v) := f (lo_loop l) in done x (with_loop v l)
  | CTimer _ => done tt (with_loop (loop_awake (lo_loop l)) l)
  | CAwaitLoop n => if run_over n (lo_loop l) then done tt l else None
  | CAwaitIdle n timeout =>
      match timeout, late with
      | Some _, Some _ => done true l
      | _, _ => if bool_decide (n ∈ wv_idleWaiters (lo_vars l)) then None else done false l
      end
  | CStartLoop _ => Some (mkEffect (Ret tt) l [] (Some SpLoop))
  | CLaunch task controller => Some (mkEffect (Ret tt) l [] (Some (SpTask task controller)))
  end.

(** Calls that leave the process may fail. *)
Definition may_fail {X} (c : call T X) : bool :=
  match c with
  | CEnqueue _ | CClaim _ | CRelease _ _ | CBeat _ _ | CComplete _ _ | CFail _ _ | CTakeAway _ | CGet _ | CConsume _
  | CRequeue _ | CLoadWorkflow _ | CWorkers _ => true
  | _ => false
  end.

(** The next call of a program. A failing call throws [e], its effect done
    or not; a call that never returns ends the process. *)
Record Progress (A : Type) : Type := mkProgress {
  go_prog : option (prog T A);
  go_local : Local;
  go_log : list LogEntry;
  go_spawn : option Spawn;
}.
Arguments mkProgress {A}.
Arguments go_prog {A}.
Arguments go_local {A}.
Arguments go_log {A}.
Arguments go_spawn {A}.

Definition take_step {A} (now : Z) (fault : option (bool * thrown)) (late : option bool) (who : Owner) (p : prog T A) (l : Local)
    : Progress A :=
  match p with
  | PVis X c k =>
      match fault, may_fail c with
      | Some (false, e), true => mkProgress (Some (k (Err e))) l [] None
      | _, _ =>
          match perform now late who c l with
          | None => mkProgress (Some p) l [] None
          | Some ef =>
              let next := match fault, may_fail c with
                          | Some (_, e), true => Some (k (Err e))
                          | _, _ => match ef_answer ef with
                                    | Ret x => Some (k (Ok x))
                                    | Throws e => Some (k (Err e))
                                    | Died => None
                                    end
                          end in
              mkProgress next (ef_local ef) (ef_log ef) (ef_spawn ef)
          end
      end
  | _ => mkProgress (Some p) l [] None
  end.

(** ** Processes *)
Record Wait : Type := mkWait {
  wt_executor : StepQueueExecutorConfig T;
  wt_sweeps : bool;
  wt_req : StepExecutionRequest;
  wt_params : StepQueueEnqueueParams;
}.

(** The executor of a coordinator does not sweep. *)
Definition queue_view {A} (w : Wait) (p : prog T A) : prog T A := if wt_sweeps w then p else withoutRequeue p.

Inductive Process : Type :=
| PrLoop (i : nat) (p : prog T (option nat))
| PrTask (i : nat) (p : prog T unit)
| PrBegin (w : Wait) (p : prog T unit)
| PrWait (w : Wait) (vars : AttemptVars) (loop : LoopVars) (p : prog T (option nat)).

Record Member : Type := mkMember { mb_config : WorkerConfig T; mb_vars : WorkerVars T; mb_loop : LoopVars }.

Record System : Type := mkSystem {
  qs_queue : InMemoryStepQueue;
  qs_storage : InMemoryWorkflowStorage;
  qs_registry : jmap string WorkerInfo;
  qs_host : T;
  qs_workers : gmap nat Member;
  qs_processes : gmap nat Process;
  qs_next : nat;
  qs_log : list LogEntry;
}.

Definition set_processes (m : gmap nat Process) (s : System) : System :=
  mkSystem (qs_queue s) (qs_storage s) (qs_registry s) (qs_host s) (qs_workers s) m (qs_next s) (qs_log s).
Definition set_process (pid : nat) (p : option Process) (s : System) : System :=
  set_processes (match p with Some p => <[pid := p]> (qs_processes s) | None => delete pid (qs_processes s) end) s.
Definition set_member (i : nat) (m : Member) (s : System) : System :=
  mkSystem (qs_queue s) (qs_storage s) (qs_registry s) (qs_host s) (<[i := m]> (qs_workers s)) (qs_processes s)
    (qs_next s) (qs_log s).
Definition add_log (entries : list LogEntry) (s : System) : System :=
  mkSystem (qs_queue s) (qs_storage s) (qs_registry s) (qs_host s) (qs_workers s) (qs_processes s) (qs_next s)
    (qs_log s ++ entries).

Definition spawn (p : Process) (s : System) : System :=
  mkSystem (qs_queue s) (qs_storage s) (qs_registry s) (qs_host s) (qs_workers s) (<[qs_next s := p]> (qs_processes s))
    (S (qs_next s)) (qs_log s).

Definition spawned (i : nat) (self : WorkerConfig T) (sp : option Spawn) (s : System) : System :=
  match sp with
  | Some SpLoop => spawn (PrLoop i (worker_pass self 0)) s
  | Some (SpTask task controller) => spawn (PrTask i (task_process host self task controller)) s
  | None => s
  end.

Definition no_attempt : AttemptVars := mkAttemptVars "" None 0 None.
Definition no_loop : LoopVars := mkLoopVars 0 false false false 0 false.

(** What a call sees, and what it leaves. *)
Definition worker_local (m : Member) (s : System) : Local :=
  mkLocal (qs_queue s) (qs_storage s) (qs_registry s) (qs_host s) (mb_vars m) (mb_loop m) no_attempt.
Definition wait_local (vars : AttemptVars) (loop : LoopVars) (s : System) : Local :=
  mkLocal (qs_queue s) (qs_storage s) (qs_registry s) (qs_host s) new_worker_vars loop vars.

Definition leave (l : Local) (log : list LogEntry) (s : System) : System :=
  mkSystem (lo_queue l) (lo_storage l) (lo_workers l) (lo_host l) (qs_workers s) (qs_processes s) (qs_next s)
    (qs_log s ++ log).

(** Where a loop's process goes: to its next iteration, or away, its promise
    resolved. *)
Definition step_worker {A} (pid i : nat) (m : Member) (after : prog T A -> LoopVars -> option Process * LoopVars)
    (pr : Progress A) (s : System) : System :=
  let l := go_local pr in
  let '(next, loop) := match go_prog pr with
                       | Some p => after p (lo_loop l)
                       | None => (None, lo_loop l)
                       end in
  spawned i (mb_config m) (go_spawn pr)
    (set_process pid next (set_member i (mkMember (mb_config m) (lo_vars l) loop) (leave l (go_log pr) s))).

Definition after_loop (i : nat) (self : WorkerConfig T) (p : prog T (option nat)) (loop : LoopVars) : option Process * LoopVars :=
  match p with
  | PRet (Some failures) => (Some (PrLoop i (worker_pass self failures)), loop)
  | PRet None | PThrow _ => (None, loop_ended loop)
  | _ => (Some (PrLoop i p), loop)
  end.

Definition after_task (i : nat) (p : prog T unit) (loop : LoopVars) : option Process * LoopVars :=
  match p with
  | PRet _ | PThrow _ => (None, loop)
  | _ => (Some (PrTask i p), loop)
  end.

Definition wait_program (w : Wait) (failures : nat) : prog T (option nat) :=
  queue_view w (wait_pass host (wt_executor w) (wt_req w) (wt_params w) failures).

(** A wait's next phase: the loop after the enqueue, its next iteration, or
    its end with the outcome. *)
Definition after_begin (w : Wait) (p : prog T unit) (vars : AttemptVars) (loop : LoopVars) : option Process :=
  match p with
  | PRet _ => Some (PrWait w vars (loop_start (wait_loop (wt_executor w)).2).2 (wait_program w 0))
  | PThrow _ => None
  | _ => Some (PrBegin w p)
  end.

Definition after_wait (w : Wait) (p : prog T (option nat)) (vars : AttemptVars) (loop : LoopVars)
    : option Process * list LogEntry :=
  match p with
  | PRet (Some failures) => (Some (PrWait w vars loop (wait_program w failures)), [])
  | PRet None => (None, match av_outcome vars with Some o => [LOutcome (wt_req w) o] | None => [] end)
  | PThrow _ => (None, [])
  | _ => (Some (PrWait w vars loop p), [])
  end.

Definition step_process (pid : nat) (now : Z) (fault : option (bool * thrown)) (late : option bool) (pr : Process) (s : System) : System :=
  match pr with
  | PrLoop i p =>
      match qs_workers s !! i with
      | Some m =>
          step_worker pid i m (after_loop i (mb_config m))
            (take_step now fault late (OwWorker i (mb_config m)) p (worker_local m s)) s
      | None => s
      end
  | PrTask i p =>
      match qs_workers s !! i with
      | Some m =>
          step_worker pid i m (after_task i)
            (take_step now fault late (OwWorker i (mb_config m)) p (worker_local m s)) s
      | None => s
      end
  | PrBegin w p =>
      let go := take_step now fault late (OwWait (wt_req w) (wt_params w)) p (wait_local no_attempt no_loop s) in
      let l := go_local go in
      set_process pid (p ← go_prog go; after_begin w p (lo_attempt l) (lo_loop l)) (leave l (go_log go) s)
  | PrWait w vars loop p =>
      let go := take_step now fault late (OwWait (wt_req w) (wt_params w)) p (wait_local vars loop s) in
      let l := go_local go in
      let '(next, log) := match go_prog go with
                          | Some p => after_wait w p (lo_attempt l) (lo_loop l)
                          | None => (None, [])
                          end in
      set_process pid next (leave l (go_log go ++ log) s)
  end.

(** ** Events *)
Inductive Event : Type :=
| EvWorker (i : nat) (config : WorkerConfig T) (intervalMs : Z)
| EvRegister (i : nat) (stepName : string) (handler : StepHandler T)
| EvStart (i : nat)
| EvStop (i : nat) (timeoutMs : option Z)
| EvAttempt (executor : StepQueueExecutorConfig T) (sweeps : bool) (req : StepExecutionRequest) (attempt : Z)
    (deps : list (string * json)) (dependsOn : list string)
| EvStep (pid : nat) (now : Z) (fault : option (bool * thrown)) (late : option bool)
| EvHeartbeat (i controller : nat)
| EvWorkerHeartbeat (i : nat) (now : Z)
| EvKill (pid : nat)
| EvQueue (now : Z) (op : queue_op)
| EvStorage (now : Z) (op : storage_op)
| EvDetectDead (now timeoutMs : Z)
| EvGc (now retainMs : Z).

Definition set_store (q : InMemoryStepQueue) (db : InMemoryWorkflowStorage) (ws : jmap string WorkerInfo) (s : System) : System :=
  mkSystem q db ws (qs_host s) (qs_workers s) (qs_processes s) (qs_next s) (qs_log s).

(** What others enqueue is logged as well. *)
Definition enqueue_log (now : Z) (op : queue_op) (q : InMemoryStepQueue) : list LogEntry :=
  match op with QEnqueue p => [LEnqueue p (enqueue now p q).1] | _ => [] end.

Definition system_step (e : Event) (s : System) : System :=
  match e with
  | EvWorker i config intervalMs =>
      match qs_workers s !! i with
      | Some _ => s
      | None => add_log [LWorker i config]
                  (set_member i (mkMember config new_worker_vars (newPollLoop intervalMs None None).2) s)
      end
  | EvRegister i stepName handler =>
      match qs_workers s !! i with
      | Some m =>
          add_log [LRegister i stepName (mkRegistration handler)]
            (set_member i (mkMember (mb_config m)
               (set_registry (register_step stepName handler (wv_registry (mb_vars m))) (mb_vars m)) (mb_loop m)) s)
      | None => s
      end
  | EvStart i => match qs_workers s !! i with Some m => spawn (PrTask i (start (mb_config m))) s | None => s end
  | EvStop i timeoutMs =>
      match qs_workers s !! i with Some m => spawn (PrTask i (stop (mb_config m) timeoutMs)) s | None => s end
  | EvAttempt executor sweeps req attempt deps dependsOn =>
      let params := enqueue_params req attempt deps dependsOn in
      let w := mkWait executor sweeps req params in
      spawn (PrBegin w (queue_view w (begin_attempt executor params))) s
  | EvStep pid now fault late =>
      match qs_processes s !! pid with Some pr => step_process pid now fault late pr s | None => s end
  | EvHeartbeat i controller =>
      match qs_workers s !! i with
      | Some m =>
          match wv_controllers (mb_vars m) !! controller with
          | Some c => if ct_beating c then spawn (PrTask i (heartbeatTask (mb_config m) (ct_task c) controller)) s else s
          | None => s
          end
      | None => s
      end
  | EvWorkerHeartbeat i now =>
      match qs_workers s !! i with
      | Some m =>
          match wv_intervals (mb_vars m) with
          | [] => s
          | _ => set_store (qs_queue s) (qs_storage s) (worker_heartbeat now (wc_workerId (mb_config m)) (qs_registry s)) s
          end
      | None => s
      end
  | EvKill pid => set_process pid None s
  | EvQueue now op =>
      set_store (run_queue_op now op (qs_queue s)) (qs_storage s) (qs_registry s) (add_log (enqueue_log now op (qs_queue s)) s)
  | EvStorage now op => set_store (qs_queue s) (run_storage_op localeCompare now op (qs_storage s)) (qs_registry s) s
  | EvDetectDead now timeoutMs => set_store (qs_queue s) (qs_storage s) (detectDead now timeoutMs (qs_registry s)).2 s
  | EvGc now retainMs => set_store (qs_queue s) (qs_storage s) (gc now retainMs (qs_registry s)).2 s
  end.

Definition run_system : list Event -> System -> System := fold_left (fun s e => system_step e s).

Definition initial_system (maxDeliveries : option Z) (namespace : option string) (instanceId : string) (t : T) : System :=
  mkSystem (new_queue maxDeliveries) (new_storage namespace instanceId) ∅ t ∅ ∅ 0 [].
End system.
Arguments mkEffect {T X}.
Arguments ef_answer {T X}.
Arguments ef_local {T X}.
Arguments ef_log {T X}.
Arguments ef_spawn {T X}.
Arguments mkProgress {T A}.
Arguments go_prog {T A}.
Arguments go_local {T A}.
Arguments go_log {T A}.
Arguments go_spawn {T A}.
