(* ===== verification/QueueLog.v ===== *)
(** How a step queue may change, and what it holds against the log of the
    system. While nobody completes or enqueues a task, tasks keep their
    specifications, settled tasks stay settled, completed ones stay as they
    are, and a claim token that was not there before is a new one
    ([distributed/in-memory-step-queue.ts]). Every task stems from an enqueue, a claim token names one logged claim, a completed task was run
    and settled under its claim, and nothing is settled twice. *)
From Stdlib Require Import QArith.
From S2P Require Import Prelude Leases LeaderLeases Json Journal RunState Storage StorageRows Exits Retry StepBody JournalStore StepQueue Programs PollLoop WorkerRegistry QueueCalls Worker StepQueueExecutor QueueSystem.
Open Scope string_scope.
Open Scope list_scope.
Open Scope Z_scope.

(** ** How a queue changes *)
Definition token_of (t : MutableTask) : option string := tc_claimToken (tk_claim t).

Record kept (t t' : MutableTask) : Prop := {
  kp_id : tk_id t' = tk_id t;
  kp_spec : tk_spec t' = tk_spec t;
  kp_settled : is_settled t = true -> is_settled t' = true;
  kp_completed : tk_status t' = TCompleted ->
    tk_status t = TCompleted /\ tk_outcome t' = tk_outcome t /\ tk_claim t' = tk_claim t;
}.

#[global] Instance kept_preorder : PreOrder kept.
Proof.
  split; [done|]. intros t u v [H1 H2 H3 H4] [K1 K2 K3 K4]. split; [congruence|congruence|auto|].
  intros Hv. destruct (K4 Hv) as (Hu & -> & ->). auto.
Qed.

(** The token is the same, under the same worker, or new. *)
Definition claim_kept (n n' : Z) (t t' : MutableTask) : Prop :=
  forall c, token_of t' = Some c ->
    (token_of t = Some c /\ tc_claimedBy (tk_claim t') = tc_claimedBy (tk_claim t)) \/
    exists k, n < k <= n' /\ c = claim_token k.

Record evolves (q q' : InMemoryStepQueue) : Prop := {
  ev_counter : q_counter q <= q_counter q';
  ev_task : forall id t', q_tasks q' !! id = Some t' ->
    exists t, q_tasks q !! id = Some t /\ kept t t' /\ claim_kept (q_counter q) (q_counter q') t t';
}.

#[global] Instance evolves_preorder : PreOrder evolves.
Proof.
  split.
  - intros q. split; [lia|]. intros id t Ht. exists t. split; [done|]. split; [done|]. intros c Hc. by left.
  - intros q1 q2 q3 [Hc1 H1] [Hc2 H2]. split; [lia|]. intros id t3 Ht3.
    destruct (H2 _ _ Ht3) as (t2 & Ht2 & Hk2 & Hcl2). destruct (H1 _ _ Ht2) as (t1 & Ht1 & Hk1 & Hcl1).
    exists t1. split; [done|]. split; [by etrans|]. intros c [[Hc Hb]|(k & Hk & ->)]%Hcl2.
    + apply Hcl1 in Hc as [[Hc Hb']|(k & Hk & ->)]; [left; split; [done|congruence]|right].
      exists k. split; [lia|done].
    + right. exists k. split; [lia|done].
Qed.

(** ** Single changes *)
Lemma evolves_put t t' n act q : q_tasks q !! tk_id t = Some t -> kept t t' -> q_counter q <= n ->
  claim_kept (q_counter q) n t t' ->
  evolves q (mkQueue (<[tk_id t' := t']> (q_tasks q)) act n (q_maxDeliveries q)).
Proof.
  intros Ht Hk Hn Hc. split; [done|]. intros id u. cbn. rewrite jlookup_insert. case_decide as Hi.
  - intros [= <-]. subst id. exists t. by rewrite (kp_id _ _ Hk).
  - intros Hu. exists u. split; [done|]. split; [done|]. intros c Hc'. by left.
Qed.

Lemma evolves_drop id act q : evolves q (mkQueue (delete id (q_tasks q)) act (q_counter q) (q_maxDeliveries q)).
Proof.
  split; [cbn; lia|]. intros i t. cbn. rewrite jlookup_delete. case_decide; [done|]. intros Ht. exists t.
  split; [done|]. split; [done|]. intros c Hc. by left.
Qed.

Lemma evolves_slot t q : evolves q (freeSlot t q).
Proof.
  unfold freeSlot. case_bool_decide; [|done]. split; [cbn; lia|]. intros i u Hu. exists u.
  split; [done|]. split; [done|]. intros c Hc. by left.
Qed.

(** A write to a running task that does not complete it. *)
Lemma write_kept now max t t' : task_write now max t t' -> tk_status t = TRunning -> tk_status t' <> TCompleted ->
  kept t t' /\ claim_kept 0 0 t t'.
Proof.
  intros Hw Hs Hn. split.
  - split; [by destruct Hw..| |done]. unfold is_settled, is_status. rewrite Hs. by repeat case_bool_decide.
  - intros c Hc. left. destruct Hw; cbn in *; try done; by rewrite Hc.
Qed.

Lemma claim_kept_mono n n' m m' t t' : claim_kept n n' t t' -> m <= n -> n' <= m' -> claim_kept m m' t t'.
Proof. intros Hc Hm Hm' c [H|(k & Hk & ->)]%Hc; [by left|right]. exists k. split; [lia|done]. Qed.

Lemma evolves_write now t t' q : q_tasks q !! tk_id t = Some t -> tk_status t = TRunning ->
  task_write now (q_maxDeliveries q) t t' -> tk_status t' <> TCompleted -> evolves q (put_task t' q).
Proof.
  intros Ht Hs Hw Hn. destruct (write_kept _ _ _ _ Hw Hs Hn) as [Hk Hc]. apply (evolves_put t); [done|done|lia|].
  intros c [H|(k & Hk' & ->)]%Hc; [by left|lia].
Qed.

Lemma running_of_claim t tok : isCurrentClaim (Some t) tok = true -> tk_status t = TRunning.
Proof. intros [H _]%andb_true_iff. by apply bool_decide_eq_true in H. Qed.

Lemma evolves_on_claim now id tok f q : ids_ok q ->
  (forall t, task_write now (q_maxDeliveries q) t (f t)) -> (forall t, tk_status t = TRunning -> tk_status (f t) <> TCompleted) ->
  evolves q (on_claim id tok f q).2.
Proof.
  intros [_ Hid] Hf Hn. unfold on_claim. destruct (q_tasks q !! id) as [t|] eqn:Ht; [|done].
  destruct (isCurrentClaim (Some t) tok) eqn:Hc; [|done]. apply running_of_claim in Hc.
  apply (evolves_write now t); [|done|apply Hf|by apply Hn]. by destruct (Hid _ _ Ht) as [-> _].
Qed.

Lemma evolves_release id tok q : ids_ok q -> evolves q (release id tok q).2.
Proof. intros Hq. apply (evolves_on_claim 0); [done|intros; apply w_release|done]. Qed.

Lemma evolves_heartbeat now id tok q : ids_ok q -> evolves q (heartbeat now id tok q).2.
Proof. intros Hq. apply (evolves_on_claim now); [done|intros; apply w_beat|]. intros t Ht. cbn. by rewrite Ht. Qed.

Lemma evolves_fail now p q : ids_ok q -> evolves q (fail now p q).2.
Proof. intros Hq. apply (evolves_on_claim now); [done|intros; apply w_fail|done]. Qed.

Lemma consumed_kept now t : kept t (consumed_task now t) /\ forall n, claim_kept n n t (consumed_task now t).
Proof. split; [by split|]. intros n c Hc. by left. Qed.

Lemma evolves_consume now id q : ids_ok q -> evolves q (consume now id q).2.
Proof.
  intros [_ Hid]. unfold consume. destruct (q_tasks q !! id) as [t|] eqn:Ht; [|done]. case_bool_decide; [done|].
  destruct (is_settled t); [|done]. destruct (consumed_kept now t) as [Hk Hc]. cbn [snd].
  etrans; [|apply evolves_slot]. apply (evolves_put t); [|done|lia|apply Hc]. by destruct (Hid _ _ Ht) as [-> _].
Qed.

(** ** Sweeps *)
Lemma evolves_consumeSettled now w steps q : counted q -> evolves q (consumeSettled now w steps q).2.
Proof.
  unfold consumeSettled. generalize 0. revert q. induction steps as [|s steps IH]; intros q n Hq; [done|]. cbn [foldl].
  unfold consume_key at 2. destruct (activeByKey q !! activeKey w s) as [id|]; [|by apply IH].
  pose proof (evolves_consume now id q (proj2 Hq)) as He.
  pose proof (rtc_moves_inv (fun _ => True) now counted q _ (counted_move _ now) Hq (consume_moves _ now id q (proj2 Hq))) as Hq'.
  destruct (consume now id q) as [b q']. etrans; [exact He|]. by apply IH.
Qed.

Lemma evolves_purge before q : evolves q (purge before q).2.
Proof.
  unfold purge. generalize (jm_entries (q_tasks q)) as l. intros l. generalize 0. revert q.
  induction l as [|[id t] l IH]; intros q n; [done|]. cbn [foldl]. unfold purge_task at 2.
  destruct (is_settled t && _); [|apply IH]. etrans; [|apply IH].
  etrans; [|apply evolves_slot]. apply evolves_drop.
Qed.

Lemma swept_kept now mode max t : kept t (swept now mode max t) /\ forall n, claim_kept n n t (swept now mode max t).
Proof.
  unfold swept. destruct (stuck now mode t) eqn:Hst; [|split; [done|]; intros n c Hc; by left].
  assert (tk_status t = TRunning) as Hs.
  { apply andb_true_iff in Hst as [Hst _]. by apply bool_decide_eq_true in Hst. }
  assert (forall t', task_write now max t t' -> tk_status t' <> TCompleted -> kept t t' /\ forall n, claim_kept n n t t') as Hw.
  { intros t' Hw Hn. destruct (write_kept _ _ _ _ Hw Hs Hn) as [Hk Hc]. split; [done|].
    intros n c [H|(k & Hk' & ->)]%Hc; [by left|lia]. }
  destruct (tk_deliveries t >=? max) eqn:Hd; apply Hw; try done; [apply w_dead|apply w_requeue]; lia.
Qed.

Lemma evolves_requeue now mode lease leases q : counted q -> evolves q (requeueStuck now mode lease leases q).2.
Proof.
  intros Hq. pose proof (snapshot_values _ (proj2 Hq)) as Hsn.
  pose proof (requeue_fold_swept now mode _ (mkRequeue 0 0) q Hsn) as Hf.
  pose proof (rtc_moves_inv (fun _ => True) now (fun a => q_counter q <= q_counter a) q _
    (fun a b Ha Hm => Z.le_trans _ _ _ Ha (counter_move _ now a b Hm)) (Z.le_refl _)
    (requeue_moves _ now mode _ (mkRequeue 0 0) q Hsn)) as Hc.
  assert (evolves q (let '(r, q') := foldl (requeue_one now mode) (mkRequeue 0 0, q) (jm_values (q_tasks q)) in
    (Ok (E:=StoreError) r, q')).2) as He.
  { destruct (foldl _ _ _) as [r q']. destruct Hf as (_ & _ & Hf). split; [done|]. intros id t'. cbn. rewrite Hf.
    destruct (q_tasks q !! id) as [t|] eqn:Ht; [|by case_decide]. intros Heq. exists t. split; [done|].
    case_decide as Hin; injection Heq as <-.
    - destruct (swept_kept now mode (q_maxDeliveries q) t) as [Hk Hcl]. split; [done|].
      apply (claim_kept_mono _ _ _ _ _ _ (Hcl (q_counter q))); [done|exact Hc].
    - split; [done|]. intros c Hc'. by left. }
  unfold requeueStuck, st_bind, st_lift, st_ret.
  destruct lease as [l|], leases as [store|]; [|exact He..]. destruct (assertCurrent l store); [exact He|done].
Qed.

(** ** Claims *)
(** What [claim] hands out is under new claims of the worker. *)
Record claims (now : Z) (p : StepQueueClaimParams) (q : InMemoryStepQueue) (out : list StepTask) (q' : InMemoryStepQueue) : Prop := {
  cm_evolves : evolves q q';
  cm_handed : forall st, st ∈ out -> exists t n, q_counter q < n <= q_counter q' /\
    st = toTask (claimed_task now (cl_workerId p) n t) /\
    q_tasks q' !! tk_id t = Some (claimed_task now (cl_workerId p) n t);
}.

Lemma claim_claims now p q : ids_ok q -> claims now p q (claim now p q).1 (claim now p q).2.
Proof.
  intros Hids. destruct (claim_loop_post now p (claim_candidates p q) (runningPerKey q) [] q) as (taken & out & Hout & Hpost).
  { by apply candidates_snapshot. }
  { apply candidates_pending. }
  { intros k. by rewrite runningPerKey_exact. }
  unfold claim. rewrite Hout, app_nil_l. set (q' := (claim_loop _ _ _ _ _ _).2) in *. destruct Hpost as [Hsub Hf Hrest _ _ _ Hcn].
  destruct (snapshot_sublist _ _ _ (candidates_snapshot p q Hids) (sublist_submseteq _ _ Hsub)) as [_ Hsnap].
  assert (forall t, t ∈ taken -> q_tasks q !! tk_id t = Some t /\ tk_status t = TPending) as Htk.
  { intros t Ht. rewrite Forall_forall in Hsnap. split; [by apply Hsnap|].
    pose proof (candidates_pending p q) as Hp. rewrite Forall_forall in Hp. apply Hp. by eapply elem_of_sublist. }
  split.
  - split; [done|]. intros id t' Ht'. destruct (decide (id ∈ (tk_id <$> taken))) as [Hin|Hin].
    + apply list_elem_of_fmap in Hin as (t & -> & Ht). destruct (Htk _ Ht) as [Hq Hp].
      apply list_elem_of_lookup in Ht as [i Hi]. destruct (Forall2_lookup_l _ _ _ _ _ Hf Hi) as (st & _ & n & Hn & _ & Hq').
      rewrite Hq' in Ht'. injection Ht' as <-. exists t. split; [done|]. split.
      * split; [done|done| |done]. unfold is_settled, is_status. rewrite Hp. by repeat case_bool_decide.
      * intros c [= <-]. right. by exists n.
    + rewrite (Hrest _ Hin) in Ht'. exists t'. split; [done|]. split; [done|]. intros c Hc. by left.
  - intros st Hst. apply list_elem_of_lookup in Hst as [i Hi].
    destruct (Forall2_lookup_r _ _ _ _ _ Hf Hi) as (t & _ & n & Hn & -> & Hq'). by exists t, n.
Qed.

(** ** Whole methods *)
(** The methods that neither enqueue nor complete. *)
Definition quiet (op : queue_op) : Prop :=
  match op with QEnqueue _ | QComplete _ => False | _ => True end.

Lemma evolves_op now op q : counted q -> quiet op -> evolves q (run_queue_op now op q).
Proof.
  intros Hq Hop. pose proof (proj2 Hq) as Hids. destruct op; try done; cbn [run_queue_op].
  - apply (cm_evolves _ _ _ _ _ (claim_claims now p q Hids)).
  - by apply evolves_release.
  - by apply evolves_fail.
  - by apply evolves_heartbeat.
  - by apply evolves_requeue.
  - apply evolves_purge.
  - by apply evolves_consume.
  - by apply evolves_consumeSettled.
Qed.

(** A sound queue stays sound. *)
Definition sound (q : InMemoryStepQueue) : Prop := counted q /\ queue_ok q.

Lemma sound_op now op q : sound q -> sound (run_queue_op now op q).
Proof.
  intros [Hc Hq]. pose proof (run_queue_ops_inv_all queue_ok [(now, op)] q) as H. cbn in H. apply H; [|done|done].
  intros n a b. apply queue_ok_move.
Qed.

Lemma sound_new max : sound (new_queue max).
Proof. split; [apply counted_new|apply queue_ok_new]. Qed.

(** ** What the log says *)

(** The specification a task gets from its enqueue. *)
Definition spec_of (p : StepQueueEnqueueParams) : TaskSpec := tk_spec (new_task 0 "" p).
Definition key_of_params (p : StepQueueEnqueueParams) : string := activeKey (en_workflowId p) (en_stepName p).

Lemma new_task_key now id p : task_key (new_task now id p) = key_of_params p.
Proof. done. Qed.

Section log.
Context {T : Type}.
Abbreviation log := (list (LogEntry (T:=T))).
Implicit Types (D E : log) (q : InMemoryStepQueue).

Definition settled_id (e : LogEntry (T:=T)) : option string :=
  match e with LSettle _ _ st => Some (sk_id st) | _ => None end.
Definition settled_ids D : list string := omap settled_id D.

(** The task was run by the worker that claimed it, and settled with what
    the handler returned. *)
Definition completed_ok D (t : MutableTask) : Prop :=
  exists i w st registration value,
    LClaim i w st ∈ D /\ LRun i w st registration value ∈ D /\ LSettle i w st ∈ D /\
    sk_id st = tk_id t /\ sk_spec st = tk_spec t /\ tc_claimedBy (tk_claim t) = Some w /\
    to_result (tk_outcome t) = Some value.

Definition claim_ok q (w : string) (st : StepTask) : Prop :=
  exists n, n <= q_counter q /\ sk_claimToken st = Some (claim_token n) /\
    forall id t, q_tasks q !! id = Some t -> token_of t = Some (claim_token n) ->
      id = sk_id st /\ tk_spec t = sk_spec st /\ tc_claimedBy (tk_claim t) = Some w.

Definition issued q (id : string) : Prop := exists n, n <= q_counter q /\ id = task_id n.

Record queue_log D q : Prop := {
  ql_sound : sound q;
  ql_claims : forall i w st, LClaim i w st ∈ D -> claim_ok q w st;
  ql_enqueued : forall p id, LEnqueue p id ∈ D -> issued q id /\
    forall t, q_tasks q !! id = Some t -> task_key t = key_of_params p;
  ql_origin : forall id t, q_tasks q !! id = Some t -> exists p, LEnqueue p id ∈ D /\ tk_spec t = spec_of p;
  ql_completed : forall id t, q_tasks q !! id = Some t -> tk_status t = TCompleted -> completed_ok D t;
  ql_settled : forall i w st, LSettle i w st ∈ D -> LClaim i w st ∈ D /\ issued q (sk_id st) /\
    forall t, q_tasks q !! sk_id st = Some t -> is_settled t = true;
  ql_once : NoDup (settled_ids D);
}.

Lemma completed_mono D D' t : D ⊆ D' -> completed_ok D t -> completed_ok D' t.
Proof. intros HD (i & w & st & g & v & H1 & H2 & H3 & H). exists i, w, st, g, v. auto. Qed.

Lemma claim_ok_evolves q q' w st : evolves q q' -> claim_ok q w st -> claim_ok q' w st.
Proof.
  intros [Hc He] (n & Hn & Htok & Hall). exists n. split; [lia|]. split; [done|]. intros id t' Ht' Hct.
  destruct (He _ _ Ht') as (t & Ht & Hk & Hcl). destruct (Hcl _ Hct) as [[Ht0 Hb]|(k & Hk' & Heq%claim_token_inj)]; [|lia].
  destruct (Hall _ _ Ht Ht0) as (Hid & Hsp & Hby). rewrite (kp_spec _ _ Hk), Hb. done.
Qed.

Lemma issued_mono q q' id : q_counter q <= q_counter q' -> issued q id -> issued q' id.
Proof. intros Hc (n & Hn & ->). exists n. split; [lia|done]. Qed.

Lemma kept_key t t' : kept t t' -> task_key t' = task_key t.
Proof. intros [_ Hs _ _]. unfold task_key. by rewrite Hs. Qed.

(** Changes of the queue alone. *)
Lemma queue_log_evolves D q q' : queue_log D q -> evolves q q' -> sound q' -> queue_log D q'.
Proof.
  intros [Hs Hcl He Ho Hc Hst Hn] Hev Hs'. pose proof Hev as [Hcn Htk]. split; try done.
  - intros i w st Hin. apply (claim_ok_evolves q); [done|by eapply Hcl].
  - intros p id Hin. destruct (He _ _ Hin) as [Hi Hk]. split; [by eapply issued_mono|]. intros t' Ht'.
    destruct (Htk _ _ Ht') as (t & Ht & Hkept & _). rewrite (kept_key _ _ Hkept). by apply Hk.
  - intros id t' Ht'. destruct (Htk _ _ Ht') as (t & Ht & Hkept & _). rewrite (kp_spec _ _ Hkept). by apply Ho.
  - intros id t' Ht' Hcomp. destruct (Htk _ _ Ht') as (t & Ht & Hkept & _).
    destruct (kp_completed _ _ Hkept Hcomp) as (Hct & Hout & Hcl'). unfold completed_ok.
    rewrite (kp_id _ _ Hkept), (kp_spec _ _ Hkept), Hout, Hcl'. by apply (Hc id).
  - intros i w st Hin. destruct (Hst _ _ _ Hin) as (H1 & H2 & H3). split; [done|]. split; [by eapply issued_mono|].
    intros t' Ht'. destruct (Htk _ _ Ht') as (t & Ht & Hkept & _). apply (kp_settled _ _ Hkept). by apply H3.
Qed.

(** Entries that say nothing of the queue. *)
Definition aside (e : LogEntry (T:=T)) : Prop :=
  match e with LEnqueue _ _ | LClaim _ _ _ | LSettle _ _ _ => False | _ => True end.

Lemma aside_notin D E e : Forall aside E -> ~ aside e -> e ∈ D ++ E -> e ∈ D.
Proof. intros HE Hn [?|He]%elem_of_app; [done|]. rewrite Forall_forall in HE. by destruct Hn; apply HE. Qed.

Lemma settled_app D E : settled_ids (D ++ E) = settled_ids D ++ settled_ids E.
Proof. apply omap_app. Qed.

Lemma aside_settled E : Forall aside E -> settled_ids E = [].
Proof. intros HE. induction HE as [|e E He HE IH]; [done|]. cbn. destruct e; cbn in *; done. Qed.

Lemma queue_log_aside D E q : queue_log D q -> Forall aside E -> queue_log (D ++ E) q.
Proof.
  intros [Hs Hcl He Ho Hc Hst Hn] HE. assert (D ⊆ D ++ E) as HD by by apply list_subseteq_app_l.
  split; [done|..].
  - intros i w st Hin%aside_notin; [by eapply Hcl|done|tauto].
  - intros p id Hin%aside_notin; [by apply He|done|tauto].
  - intros id t Ht. destruct (Ho _ _ Ht) as (p & Hp & Hsp). exists p. auto.
  - intros id t Ht Hct. eapply completed_mono; [exact HD|by eapply Hc].
  - intros i w st Hin%aside_notin; [|done|tauto]. destruct (Hst _ _ _ Hin) as (H1 & H2). auto.
  - by rewrite settled_app, (aside_settled E), app_nil_r.
Qed.

(** ** Enqueue *)
Lemma queue_log_enqueue D q now p : queue_log D q ->
  queue_log (D ++ [LEnqueue p (enqueue now p q).1]) (enqueue now p q).2.
Proof.
  intros [Hs Hcl He Ho Hc Hst Hn]. pose proof (sound_op now (QEnqueue p) q Hs) as Hs'. cbn [run_queue_op] in Hs'.
  assert (D ⊆ D ++ [LEnqueue p (enqueue now p q).1]) as HD by by apply list_subseteq_app_l.
  pose proof Hs as [[H0 [Hwf Hids]] Hqok].
  assert (issued (enqueue now p q).2 (enqueue now p q).1 /\
    (forall t, q_tasks (enqueue now p q).2 !! (enqueue now p q).1 = Some t -> task_key t = key_of_params p) /\
    q_counter q <= q_counter (enqueue now p q).2 /\
    forall id t, q_tasks (enqueue now p q).2 !! id = Some t -> q_tasks q !! id = Some t \/
      id = (enqueue now p q).1 /\ t = new_task now id p /\ ~ issued q id) as (Hi & Hkey & Hcn & Htk).
  { unfold enqueue. destruct (activeByKey q !! activeKey _ _) as [id|] eqn:Ha; cbn [fst snd].
    - apply (qk_active _ Hqok) in Ha as (t & Ht & _ & Hk). destruct (Hids _ _ Ht) as (_ & n & Hn' & ->).
      split; [exists n; split; [lia|done]|]. split; [intros u Hu; by simplify_eq|]. split; [lia|]. by left.
    - split; [exists (q_counter q + 1); split; [cbn; lia|done]|]. cbn. split.
      { intros t. rewrite jlookup_insert_eq. by intros [= <-]. }
      split; [lia|]. intros id t. rewrite jlookup_insert. case_decide as Hid; [|by left]. intros [= <-]. right.
      subst id. split; [done|]. split; [done|]. intros (n & Hle & Heq%task_id_inj). lia. }
  split; [done|..].
  - intros i w st [Hin|Hin%list_elem_of_singleton]%elem_of_app; [|done]. destruct (Hcl _ _ _ Hin) as (n & Hle & Htok & Hall).
    exists n. split; [lia|]. split; [done|]. intros id t [Ht|(-> & -> & _)]%Htk; [by apply Hall|done].
  - intros p' id [Hin|[= -> ->]%list_elem_of_singleton]%elem_of_app; [|done]. destruct (He _ _ Hin) as [Hi' Hk'].
    split; [by eapply issued_mono|]. intros t [Ht|(_ & _ & Hno)]%Htk; [by apply Hk'|done].
  - intros id t [Ht|(-> & -> & _)]%Htk.
    + destruct (Ho _ _ Ht) as (p' & Hp' & Hsp). exists p'. auto.
    + exists p. split; [|done]. apply elem_of_app. right. by apply list_elem_of_singleton.
  - intros id t [Ht|(-> & -> & _)]%Htk Hct; [|done]. eapply completed_mono; [exact HD|by eapply Hc].
  - intros i w st [Hin|Hin%list_elem_of_singleton]%elem_of_app; [|done]. destruct (Hst _ _ _ Hin) as (H1 & H2 & H3).
    split; [auto|]. split; [by eapply issued_mono|]. intros t [Ht|(_ & _ & Hno)]%Htk; [by apply H3|done].
  - rewrite settled_app. cbn. by rewrite app_nil_r.
Qed.

(** ** Claims *)
Lemma queue_log_claim D q now p i w : queue_log D q -> cl_workerId p = w ->
  queue_log (D ++ (LClaim i w <$> (claim now p q).1)) (claim now p q).2.
Proof.
  intros Hql <-. pose proof (ql_sound _ _ Hql) as Hs. pose proof (sound_op now (QClaim p) q Hs) as Hs'. cbn [run_queue_op] in Hs'.
  destruct (claim_claims now p q (proj2 (proj1 Hs))) as [Hev Hh]. apply (queue_log_evolves _ _ _ Hql) in Hev; [|done].
  set (q' := (claim now p q).2) in *. set (out := (claim now p q).1) in *. clear Hql Hs.
  assert (forall e : LogEntry (T:=T), e ∈ LClaim i (cl_workerId p) <$> out ->
    exists st, e = LClaim i (cl_workerId p) st /\ st ∈ out) as Hnew.
  { intros e (st & -> & Hst)%list_elem_of_fmap. by exists st. }
  assert (D ⊆ D ++ (LClaim i (cl_workerId p) <$> out)) as HD by by apply list_subseteq_app_l.
  destruct Hev as [_ Hcl He Ho Hc Hst Hn]. split; [done|..].
  - intros i' w' st [Hin|(st' & [= -> -> ->] & Hin)%Hnew]%elem_of_app; [by eapply Hcl|].
    destruct (Hh _ Hin) as (t & n & Hnn & -> & Ht). exists n. split; [lia|]. split; [done|]. intros id u Hu Htok.
    assert (id = tk_id t) as -> by (by apply (qk_token_owner _ (proj2 Hs') _ _ _ _ _ Hu Ht Htok)). by simplify_eq.
  - intros p' id [Hin|(st & ? & _)%Hnew]%elem_of_app; [by apply He|done].
  - intros id t Ht. destruct (Ho _ _ Ht) as (p' & Hp & Hsp). exists p'. auto.
  - intros id t Ht Hct. eapply completed_mono; [exact HD|by eapply Hc].
  - intros i' w' st [Hin|(st' & ? & _)%Hnew]%elem_of_app; [|done]. destruct (Hst _ _ _ Hin) as (H1 & H2). auto.
  - rewrite settled_app. assert (settled_ids (LClaim i (cl_workerId p) <$> out : log) = []) as ->; [|by rewrite app_nil_r].
    clear. induction out as [|st out IH]; [done|]. exact IH.
Qed.

(** ** Settling *)
(** A logged claim that still holds: the task, running under it. *)
Lemma claim_holds D q i w st tok t : queue_log D q -> LClaim i w st ∈ D -> sk_claimToken st = Some tok ->
  q_tasks q !! sk_id st = Some t -> isCurrentClaim (Some t) (Some tok) = true ->
  tk_id t = sk_id st /\ tk_spec t = sk_spec st /\ tc_claimedBy (tk_claim t) = Some w /\ tk_status t = TRunning.
Proof.
  intros Hql Hin Htok Ht Hcur. pose proof (running_of_claim _ _ Hcur) as Hrun.
  destruct (ql_claims _ _ Hql _ _ _ Hin) as (n & _ & Htok' & Hall). assert (tok = claim_token n) as -> by congruence.
  apply andb_true_iff in Hcur as [_ [Hx|Hx]%orb_true_iff]; apply bool_decide_eq_true in Hx; [done|].
  destruct (Hall _ _ Ht Hx) as (_ & Hsp & Hby). split; [|done].
  by destruct (proj2 (proj2 (proj1 (ql_sound _ _ Hql))) _ _ Ht) as [-> _].
Qed.

(** The two ways to settle share everything but the new task. *)
Lemma queue_log_settle D q i w st tok f : queue_log D q -> LClaim i w st ∈ D -> sk_claimToken st = Some tok ->
  sound (on_claim (sk_id st) (Some tok) f q).2 ->
  (forall t, tk_id (f t) = tk_id t /\ tk_spec (f t) = tk_spec t /\ tk_claim (f t) = tk_claim t /\ is_settled (f t) = true) ->
  (forall t, tk_status (f t) = TCompleted ->
    exists registration value, LRun i w st registration value ∈ D /\ to_result (tk_outcome (f t)) = Some value) ->
  let '(b, q') := on_claim (sk_id st) (Some tok) f q in
  queue_log (D ++ (if b then [LSettle i w st] else [])) q'.
Proof.
  intros Hql Hin Htok Hsound Hf Hrun. unfold on_claim in *. destruct (q_tasks q !! sk_id st) as [t|] eqn:Ht; [|by rewrite app_nil_r].
  destruct (isCurrentClaim (Some t) (Some tok)) eqn:Hcur; [|by rewrite app_nil_r]. cbn [snd] in Hsound.
  destruct (claim_holds _ _ _ _ _ _ _ Hql Hin Htok Ht Hcur) as (Hid & Hsp & Hby & Hstat).
  destruct Hql as [Hs Hcl He Ho Hc Hst Hn]. destruct (Hf t) as (Hfi & Hfs & Hfc & Hfst).
  assert (D ⊆ D ++ [LSettle i w st]) as HD by by apply list_subseteq_app_l.
  assert (forall id u, q_tasks (put_task (f t) q) !! id = Some u -> id = sk_id st /\ u = f t \/ id <> sk_id st /\ q_tasks q !! id = Some u) as Hput.
  { intros id u. cbn. rewrite jlookup_insert. case_decide as Hi; [|right; split; congruence]. intros [= <-]. left. split; [congruence|done]. }
  split; [done|..].
  - intros i' w' st' [Hin'|?%list_elem_of_singleton]%elem_of_app; [|done]. destruct (Hcl _ _ _ Hin') as (n & Hle & Htok' & Hall).
    exists n. split; [done|]. split; [done|]. intros id u [[-> ->]|[_ Hu]]%Hput Hut; [|by apply Hall].
    unfold token_of in Hut. rewrite Hfc in Hut. rewrite Hfs, Hfc. by apply Hall.
  - intros p id [Hin'|?%list_elem_of_singleton]%elem_of_app; [|done]. destruct (He _ _ Hin') as [Hi Hk]. split; [done|].
    intros u [[-> ->]|[_ Hu]]%Hput; [|by apply Hk]. unfold task_key. rewrite Hfs. by apply Hk.
  - intros id u [[-> ->]|[_ Hu]]%Hput.
    + destruct (Ho _ _ Ht) as (p & Hp & Hsp'). exists p. rewrite Hfs. auto.
    + destruct (Ho _ _ Hu) as (p & Hp & Hsp'). exists p. auto.
  - intros id u [[-> ->]|[_ Hu]]%Hput Hcomp; [|eapply completed_mono; [exact HD|by eapply Hc]].
    destruct (Hrun _ Hcomp) as (g & v & Hr & Hv). exists i, w, st, g, v. rewrite Hfi, Hfs, Hfc. split_and!; try done; [by apply HD..|].
    apply elem_of_app. right. by apply list_elem_of_singleton.
  - intros i' w' st' [Hin'|[= -> -> ->]%list_elem_of_singleton]%elem_of_app.
    + destruct (Hst _ _ _ Hin') as (H1 & H2 & H3). split; [by apply HD|]. split; [done|].
      intros u [[_ ->]|[_ Hu]]%Hput; [done|by apply H3].
    + split; [by apply HD|]. split; [|by intros u [[_ ->]|[? _]]%Hput].
      destruct (proj2 (proj2 (proj1 Hs)) _ _ Ht) as (_ & n & Hnn & ->). exists n. split; [cbn; lia|done].
  - rewrite settled_app. apply NoDup_app. split; [done|]. split; [|apply NoDup_singleton].
    intros x (e & Hine & He')%list_elem_of_omap ->%list_elem_of_singleton. destruct e as [| | | | |i' w' st'|]; try done.
    cbn in He'. injection He' as Heq. destruct (Hst _ _ _ Hine) as (_ & _ & H3). rewrite Heq in H3. specialize (H3 _ Ht).
    unfold is_settled, is_status in H3. rewrite Hstat in H3. by repeat case_bool_decide.
Qed.
End log.
