(* ===== verification/QueueSafety.v ===== *)
(** What workers and waits need of the log and keep of it, and that every
    one of their programs is safe ([distributed/worker.ts],
    [distributed/step-queue-executor.ts]). *)
From Stdlib Require Import QArith.
From S2P Require Import Prelude Leases LeaderLeases Json Journal RunState Storage StorageRows Exits Retry StepBody MachineStorage JournalStore StepQueue Programs PollLoop WorkerRegistry QueueCalls Worker StepQueueExecutor QueueSystem QueueLog.
Open Scope string_scope.
Open Scope list_scope.
Open Scope Z_scope.

Section contract.
Context {T : Type} (host : RunnerHost T).
Abbreviation log := (list (LogEntry (T:=T))).
Implicit Types (D E : log) (q : InMemoryStepQueue).

(** The variables of a worker speak of logged claims and registrations. *)
Record vars_ok (i : nat) (self : WorkerConfig T) D (v : WorkerVars T) : Prop := {
  vk_wf : jm_wf (wv_active v);
  vk_active : forall id st ctl, wv_active v !! id = Some (st, ctl) -> LClaim i (wc_workerId self) st ∈ D;
  vk_controllers : Forall (fun c => LClaim i (wc_workerId self) (ct_task c) ∈ D) (wv_controllers v);
  vk_registry : forall name reg, wv_registry v !! name = Some reg -> LRegister i name reg ∈ D;
}.

(** The result of a step, traced to the run that computed it. *)
Definition computed D (req : StepExecutionRequest) (attempt : Z) (result : json) (executorId : option string) : Prop :=
  exists i w st registration p,
    LEnqueue p (sk_id st) ∈ D /\ LClaim i w st ∈ D /\ LRun i w st registration result ∈ D /\ LSettle i w st ∈ D /\
    executorId = Some w /\ sk_spec st = spec_of p /\ attempt = ts_attempt (sk_spec st) /\
    ts_run (sk_spec st) = request_run req /\
    activeKey (ts_workflowId (sk_spec st)) (ts_stepName (sk_spec st)) = activeKey (rq_workflowId req) (rq_stepName req).

Definition outcome_ok D (req : StepExecutionRequest) (o : AttemptOutcome) : Prop :=
  match o with
  | AttemptCompleted attempt result _ executorId => computed D req attempt result executorId
  | _ => True
  end.

(** A wait follows a task that was enqueued under its step's key. *)
Record attempt_ok (req : StepExecutionRequest) (params : StepQueueEnqueueParams) D (v : AttemptVars) : Prop := {
  ak_task : av_taskId v = "" \/ exists p, LEnqueue p (av_taskId v) ∈ D /\ key_of_params p = key_of_params params;
  ak_outcome : forall o, av_outcome v = Some o -> outcome_ok D req o;
}.

(** What [get] answers. *)
Record got_ok D (id : string) (t : MutableTask) : Prop := {
  gk_id : tk_id t = id;
  gk_named : id <> "";
  gk_origin : exists p, LEnqueue p id ∈ D /\ tk_spec t = spec_of p;
  gk_key : forall p, LEnqueue p id ∈ D -> task_key t = key_of_params p;
  gk_completed : tk_status t = TCompleted -> completed_ok D t;
}.

Definition call_ok (who : Owner (T:=T)) D {X} (c : call T X) : Prop :=
  match who with
  | OwWorker i self =>
      let w := wc_workerId self in
      match c with
      | CClaim p => cl_workerId p = w
      | CComplete st p =>
          LClaim i w st ∈ D /\ exists tok value d registration, sk_claimToken st = Some tok /\
            p = mkComplete (sk_id st) (Some tok) value d None /\ LRun i w st registration value ∈ D
      | CFail st p => LClaim i w st ∈ D /\ exists tok, sk_claimToken st = Some tok /\ fa_taskId p = sk_id st /\ fa_claimToken p = Some tok
      | CRun st registration _ _ f =>
          LClaim i w st ∈ D /\ LRegister i (ts_stepName (sk_spec st)) registration ∈ D /\ f = attempt_run self st registration
      | CLaunch st _ => LClaim i w st ∈ D
      | CVars f => forall v, vars_ok i self D v -> vars_ok i self D (f v).2
      | _ => True
      end
  | OwWait req params =>
      match c with
      | CAttempt f => forall v, attempt_ok req params D v -> attempt_ok req params D (f v).2
      | CClaim _ | CComplete _ _ | CFail _ _ | CRun _ _ _ _ _ | CLaunch _ _ | CStartLoop _ => False
      | _ => True
      end
  end.

Definition answer_ok (who : Owner (T:=T)) D {X} (c : call T X) : res thrown X -> Prop :=
  match c in call _ X return res thrown X -> Prop with
  | CEnqueue p => fun r => forall id, r = Ok id -> LEnqueue p id ∈ D
  | CGet id => fun r => forall t, r = Ok (Some t) -> got_ok D id t
  | CClaim _ => fun r => match who with
                         | OwWorker i self => forall l, r = Ok l -> Forall (fun st => LClaim i (wc_workerId self) st ∈ D) l
                         | OwWait _ _ => True
                         end
  | CRun st registration _ _ _ => fun r => match who with
                         | OwWorker i self => forall value, r = Ok value -> LRun i (wc_workerId self) st registration value ∈ D
                         | OwWait _ _ => True
                         end
  | CVars f => fun r => match who with
                         | OwWorker i self => forall x, r = Ok x -> exists v, vars_ok i self D v /\ x = (f v).1
                         | OwWait _ _ => True
                         end
  | CAttempt f => fun r => match who with
                         | OwWorker i self => True
                         | OwWait req params => forall x, r = Ok x -> exists v, attempt_ok req params D v /\ x = (f v).1
                         end
  | _ => fun _ => True
  end.

Definition owner_contract (who : Owner (T:=T)) : Contract (call T) log := {|
  grows := (⊆);
  needs D X c := call_ok who D c;
  tells D X c r := answer_ok who D c r;
|}.

Lemma worker_vars_grow i self D D' v : D ⊆ D' -> vars_ok i self D v -> vars_ok i self D' v.
Proof.
  intros HD [H1 H2 H3 H4]. split; [done|..].
  - intros id st ctl Hst. by eapply HD, H2.
  - eapply Forall_impl; [exact H3|]. intros c. apply HD.
  - intros n g Hg. by apply HD, H4.
Qed.

Lemma computed_mono D D' req a r x : D ⊆ D' -> computed D req a r x -> computed D' req a r x.
Proof. intros HD (i & w & st & g & p & H1 & H2 & H3 & H4 & H). exists i, w, st, g, p. auto 6. Qed.

Lemma outcome_mono D D' req o : D ⊆ D' -> outcome_ok D req o -> outcome_ok D' req o.
Proof. intros HD. destruct o; [|done..]. by apply computed_mono. Qed.

Lemma attempt_mono req params D D' v : D ⊆ D' -> attempt_ok req params D v -> attempt_ok req params D' v.
Proof.
  intros HD [H1 H2]. split.
  - destruct H1 as [?|(p & Hp & Hk)]; [by left|right]. exists p. auto.
  - intros o Ho. by apply (outcome_mono D), H2.
Qed.

(** ** Loops *)
#[local] Instance loop_calls_safe who : SafeLoop (Contract0 := owner_contract who).
Proof. split; intros; [by apply safe_plain; destruct who..|done]. Qed.

(** ** Workers *)
Section worker.
Context (i : nat) (self : WorkerConfig T).
Abbreviation w := (wc_workerId self).
Abbreviation who := (OwWorker i self).
#[local] Instance worker_contract : Contract (call T) log := owner_contract who.

Lemma safe_get {X} (f : WorkerVars T -> X) D : safe (fun D' x => exists v, vars_ok i self D' v /\ x = f v) D (p_get f).
Proof. apply safe_call; [by intros D' _ v Hv|]. intros D' x _ Hx. by apply Hx. Qed.

Lemma safe_vars {X} (f : WorkerVars T -> X * WorkerVars T) D :
  (forall D' v, D ⊆ D' -> vars_ok i self D' v -> vars_ok i self D' (f v).2) ->
  safe (fun D' x => exists v, vars_ok i self D' v /\ x = (f v).1) D (p_vars f).
Proof. intros Hf. apply safe_call; [by intros D' HD v Hv; apply Hf|]. intros D' x _ Hx. by apply Hx. Qed.

Lemma safe_set (f : WorkerVars T -> WorkerVars T) D :
  (forall D' v, D ⊆ D' -> vars_ok i self D' v -> vars_ok i self D' (f v)) -> safe any D (p_set f).
Proof. intros Hf. eapply safe_weaken; [by apply safe_vars|done]. Qed.

Lemma safe_hook (f : option (T -> outcome unit * T)) D : safe any D (p_hook f).
Proof. destruct f; [by apply safe_plain|done]. Qed.

Lemma safe_report_event e D : safe any D (report self e).
Proof. apply safe_catch; [by apply safe_plain|done]. Qed.

Lemma safe_clock D : safe any D (p_now (T:=T)).
Proof. by apply safe_plain. Qed.

Lemma on_controller_ok f ctl D v : (forall c, ct_task (f c) = ct_task c) -> vars_ok i self D v ->
  vars_ok i self D (on_controller f ctl v).
Proof.
  intros Hf [H1 H2 H3 H4]. split; [done|done| |done]. cbn. apply Forall_alter; [done|]. intros c _. by rewrite Hf.
Qed.

Lemma safe_beating b ctl D : safe any D (p_set (T:=T) (set_beating b ctl)).
Proof. apply safe_set. intros D' v _. by apply on_controller_ok. Qed.

Definition from_run D (st : StepTask) (o : StepOutcome) : Prop :=
  match o with OutCompleted value _ => exists registration, LRun i w st registration value ∈ D | _ => True end.

Lemma from_run_growing st : growing (fun D o => from_run D st o).
Proof. intros D D' [value d|]; [|done]. cbn. intros HD (g & Hg). exists g. by apply HD. Qed.

Lemma safe_elapsed start D : safe any D (elapsed (T:=T) start).
Proof. apply (safe_bind any); [apply safe_clock|done]. Qed.

Lemma safe_outcome st start ctl D : LClaim i w st ∈ D ->
  safe (fun D' o => from_run D' st o) D (computeOutcome host self st start ctl).
Proof.
  intros Hst. unfold computeOutcome. eapply safe_bind; [apply safe_get|]. intros D1 g HD1 (v & Hv & ->).
  destruct (resolve_step _ (wv_registry v)) as [g|] eqn:Eg.
  2: { eapply safe_bind; [apply safe_get|]. intros D2 names _ _. apply (safe_bind any); [apply safe_elapsed|done]. }
  apply (vk_registry _ _ _ _ Hv) in Eg. apply safe_catch.
  - apply (safe_bind any); [apply safe_hook|]. intros D2 [] HD2 _.
    apply (safe_bind (fun D' value => LRun i w st g value ∈ D')).
    + apply safe_call; [|intros D' x _ Hx; by apply Hx]. intros D' HD'. split; [by apply HD', HD2, HD1|].
      split; [by apply HD', HD2|done].
    + intros D3 value HD3 Hr. apply (safe_bind any); [apply safe_elapsed|]. intros D4 d HD4 _. exists g. by apply HD4.
  - intros D2 e HD2. apply (safe_bind any); [apply safe_elapsed|done].
Qed.

Lemma safe_settle st tok o D : LClaim i w st ∈ D -> sk_claimToken st = Some tok -> from_run D st o ->
  safe any D (settle_call (T:=T) st tok o).
Proof.
  intros Hst Htok Ho. destruct o as [value d|e cause d]; cbn [settle_call from_run] in *.
  - apply safe_call; [|done]. intros D' HD. split; [by apply HD|]. destruct Ho as (g & Hg). exists tok, value, d, g. auto.
  - apply safe_call; [|done]. intros D' HD. split; [by apply HD|]. by exists tok.
Qed.

Lemma safe_commit_task st o D : LClaim i w st ∈ D -> from_run D st o -> safe any D (commit self st o).
Proof.
  intros Hst Ho. unfold commit. destruct (sk_claimToken st) as [tok|] eqn:Htok; [|apply safe_report_event].
  apply (safe_bind any).
  - apply safe_catch; [apply (safe_bind any); [by apply safe_settle|done]|]. intros D1 e _.
    apply (safe_bind any); [apply safe_report_event|done].
  - intros D1 settled _ _. destruct settled as [[]|]; [|done..]. apply safe_catch; [|intros D2 e _; apply safe_report_event].
    by destruct o; apply safe_hook.
Qed.

Lemma any_growing {A} : growing (any (A:=A)).
Proof. by intros D D' a. Qed.

Lemma safe_execute st ctl D : LClaim i w st ∈ D -> safe any D (executeTask host self st ctl).
Proof.
  intros Hst. unfold executeTask. apply (safe_bind any); [apply safe_clock|]. intros D1 start HD1 _.
  apply (safe_bind any); [apply safe_beating|]. intros D2 [] HD2 _.
  apply safe_finally; [apply any_growing| |intros D' _; apply safe_beating].
  eapply safe_bind; [apply safe_outcome; by apply HD2, HD1|]. intros D3 o HD3 Ho.
  eapply safe_bind; [apply safe_get|]. intros D4 aborted HD4 _. destruct aborted; [done|].
  apply safe_commit_task; [by apply HD4, HD3, HD2, HD1|]. by eapply from_run_growing; [exact HD4|].
Qed.

Lemma drop_active_ok id D v : vars_ok i self D v -> vars_ok i self D (drop_active id v).2.
Proof.
  intros [H1 H2 H3 H4]. split; [by apply jm_wf_delete| |done|done]. intros id' st ctl. cbn. rewrite jlookup_delete.
  case_decide; [done|apply H2].
Qed.

Lemma safe_task st ctl D : LClaim i w st ∈ D -> safe any D (task_process host self st ctl).
Proof.
  intros Hst. apply safe_finally; [apply any_growing| |].
  - apply safe_catch; [by apply safe_execute|]. intros D' e _. apply safe_report_event.
  - intros D' _. eapply safe_bind; [apply safe_vars; intros; by apply drop_active_ok|].
    intros D1 backlog _ _. destruct backlog; [by apply safe_plain|done].
Qed.

Lemma safe_heartbeat st ctl D : LClaim i w st ∈ D -> safe any D (heartbeatTask self st ctl).
Proof.
  intros Hst. unfold heartbeatTask. eapply safe_bind; [apply safe_get|]. intros D1 aborted HD1 _. destruct aborted; [done|].
  apply (safe_bind any).
  - apply safe_catch; [apply (safe_bind any); [by apply safe_plain|done]|]. intros D2 e _.
    apply (safe_bind any); [apply safe_report_event|done].
  - intros D2 held _ _. destruct held as [[]|]; try done. eapply safe_bind; [apply safe_get|]. intros D3 aborted _ _.
    destruct aborted; [done|]. apply (safe_bind any).
    + apply safe_set. intros D' v _ Hv. apply on_controller_ok; [done|]. by apply on_controller_ok.
    + intros D4 [] _ _. apply safe_catch; [apply safe_hook|]. intros D5 e _. apply safe_report_event.
Qed.

Lemma safe_give_back st D : safe any D (give_back self st).
Proof.
  apply safe_catch; [|intros D' e _; apply safe_report_event]. apply (safe_bind any); [by apply safe_plain|done].
Qed.

Definition all_claimed D (l : list StepTask) : Prop := Forall (fun st => LClaim i w st ∈ D) l.

Lemma claimed_mono : growing all_claimed.
Proof. intros D D' l HD Hl. eapply Forall_impl; [exact Hl|]. intros st. apply HD. Qed.

Lemma safe_filter f tasks accepted D : all_claimed D tasks -> all_claimed D accepted ->
  safe all_claimed D (applyTaskFilter self f tasks accepted).
Proof.
  revert accepted D. induction tasks as [|st tasks IH]; intros accepted D Ht Ha; [done|]. cbn [applyTaskFilter].
  apply Forall_cons in Ht as [Hst Ht]. apply (safe_bind any); [by apply safe_plain|]. intros D1 accept HD1 _.
  destruct accept.
  - apply IH; [by eapply claimed_mono|]. apply Forall_app. split; [by eapply claimed_mono|].
    apply Forall_singleton. by apply HD1.
  - apply (safe_bind any); [apply safe_give_back|]. intros D2 [] HD2 _.
    apply IH; (eapply claimed_mono; [|eassumption]); by etrans.
Qed.

Lemma add_active_ok st D v : LClaim i w st ∈ D -> vars_ok i self D v -> vars_ok i self D (add_active st v).2.
Proof.
  intros Hst [H1 H2 H3 H4]. split; [by apply jm_wf_insert| | |done].
  - intros id st' ctl. cbn. rewrite jlookup_insert. case_decide; [by intros [= <- _]|apply H2].
  - cbn. apply Forall_app. split; [done|]. by apply Forall_singleton.
Qed.

Lemma safe_launch st D : LClaim i w st ∈ D -> safe any D (launch (T:=T) st).
Proof.
  intros Hst. eapply safe_bind; [apply safe_vars; intros D' v HD Hv; apply add_active_ok; [by apply HD|done]|].
  intros D1 ctl HD1 _. apply safe_plain_at. intros D2 HD2. by apply HD2, HD1.
Qed.

Lemma safe_claim D : safe any D (claimOnce self).
Proof.
  unfold claimOnce. eapply safe_bind; [apply safe_get|]. intros D1 running HD1 _. destruct (_ <=? 0); [done|].
  eapply safe_bind; [apply safe_get|]. intros D2 names HD2 _. apply (safe_bind all_claimed).
  { apply safe_call; [done|]. intros D' l _ Hl. by apply Hl. }
  intros D3 claimed HD3 Hc. apply (safe_bind all_claimed).
  { destruct (wc_taskFilter self) as [f|]; [|done]. apply safe_filter; [done|by apply Forall_nil]. }
  intros D4 tasks HD4 Ht. apply (safe_bind any).
  - apply safe_each. intros D5 st HD5 Hin. apply safe_launch. apply HD5. unfold all_claimed in Ht. rewrite Forall_forall in Ht. by apply Ht.
  - intros D5 [] _ _. apply (safe_bind any); [|done]. apply safe_set. by intros D' v _ [H1 H2 H3 H4].
Qed.

Lemma safe_worker_pass n D : safe any D (worker_pass self n).
Proof. apply safe_pass; [intros D' _; apply safe_claim|intros D' e info _; apply safe_report_event]. Qed.

Lemma safe_await_start D : safe any D (await_start (T:=T)).
Proof.
  unfold await_start. apply (safe_bind any); [by apply safe_plain|]. intros D1 run _ _.
  apply (safe_bind any); [destruct run.2; [by apply safe_plain|done]|]. intros D2 [] _ _. by apply safe_plain.
Qed.

Lemma safe_start D : safe any D (start self).
Proof.
  unfold start. apply (safe_bind any); [by apply safe_plain|]. intros D1 running _ _. destruct running; [apply safe_await_start|].
  apply (safe_bind any); [|intros; apply safe_await_start]. destruct (wc_workerRegistry self); [|done].
  apply (safe_bind any); [by apply safe_plain|]. intros D2 [] _ _. apply safe_set. by intros D' v _ [H1 H2 H3 H4].
Qed.

Lemma safe_release_unfinished D : safe any D (releaseUnfinished self).
Proof.
  unfold releaseUnfinished. eapply safe_bind; [apply safe_get|]. intros D1 l HD1 _. apply (safe_bind any).
  - apply safe_each. intros D2 [st ctl] _ _. apply safe_set. intros D' v _. by apply on_controller_ok.
  - intros D2 [] _ _. apply safe_each. intros D3 [st ctl] _ _. apply safe_give_back.
Qed.

Lemma safe_stop timeoutMs D : safe any D (stop self timeoutMs).
Proof.
  unfold stop. apply (safe_bind any); [by apply safe_plain|]. intros D1 run _ _. apply (safe_bind any); [by apply safe_plain|].
  intros D2 [] _ _. apply (safe_bind any); [destruct (wc_workerRegistry self); [by apply safe_plain|done]|]. intros D3 [] _ _.
  eapply safe_bind.
  { apply safe_vars. intros D' v _ Hv. unfold add_waiter. case_bool_decide; [done|]. by destruct Hv. }
  intros D4 waiter _ _. apply (safe_bind any).
  { destruct waiter as [n|]; [|done]. apply (safe_bind any); [by apply safe_plain|]. intros D5 late _ _.
    destruct late; [apply safe_release_unfinished|done]. }
  intros D5 [] _ _. apply (safe_bind any).
  { apply safe_set. intros D' v _ Hv. unfold stop_heartbeat. destruct (wv_heartbeatTimer v); [|done]. by destruct Hv. }
  intros D6 [] _ _. destruct (wc_workerRegistry self); [by apply safe_plain|done].
Qed.
End worker.

(** ** Waits *)
Section wait.
Context (executor : StepQueueExecutorConfig T) (req : StepExecutionRequest) (attempt : Z) (deps : list (string * json))
  (dependsOn : list string).
Abbreviation params := (enqueue_params req attempt deps dependsOn).
Abbreviation waiter := (OwWait req params).
#[local] Instance wait_contract : Contract (call T) log := owner_contract waiter.

Lemma safe_attempt {X} (f : AttemptVars -> X * AttemptVars) D :
  (forall D' v, D ⊆ D' -> attempt_ok req params D' v -> attempt_ok req params D' (f v).2) ->
  safe (fun D' x => exists v, attempt_ok req params D' v /\ x = (f v).1) D (p_attempt f).
Proof. intros Hf. apply safe_call; [by intros D' HD v Hv; apply Hf|]. intros D' x _ Hx. by apply Hx. Qed.

Lemma safe_set_outcome o D : outcome_ok D req o -> safe any D (set_outcome (T:=T) o).
Proof.
  intros Ho. eapply safe_weaken; [apply safe_attempt|done]. intros D' v HD [H1 H2]. split; [done|]. intros o' [= <-].
  by apply (outcome_mono D).
Qed.

Lemma safe_gave_up e D : safe any D (gave_up (T:=T) e).
Proof. apply (safe_bind any); [by apply safe_set_outcome|done]. Qed.

Lemma safe_check taskId D : safe any D (check_run host executor req taskId).
Proof.
  unfold check_run. apply (safe_bind any); [by apply safe_plain|]. intros D1 state _ _.
  destruct state as [state|]; [|apply safe_gave_up]. destruct (isTerminalWorkflowStatus _); [apply safe_gave_up|].
  apply (safe_bind any); [by apply safe_plain|]. intros D2 now _ _. eapply safe_bind; [by apply safe_attempt|].
  intros D3 deadline _ _. destruct deadline as [deadline|], (ec_stepWaitTimeoutMs executor) as [ms|]; try done.
  destruct (deadline <=? now); [|done]. apply (safe_bind any); [by apply safe_plain|]. intros D4 taken _ _.
  apply (safe_bind any); [|intros; apply safe_gave_up]. destruct taken; [|done].
  apply (safe_bind any); [by apply safe_plain|done].
Qed.

(** The outcome of a completed task of this run. *)
Lemma completed_outcome D taskId t : got_ok D taskId t -> tk_status t = TCompleted ->
  ts_run (tk_spec t) = request_run req -> taskId = "" \/ (exists p, LEnqueue p taskId ∈ D /\ key_of_params p = key_of_params params) ->
  outcome_ok D req (attempt_completed t).
Proof.
  intros [Hid Hne (p & Hp & Hsp) Hk Hc] Hs Hrun [?|(p' & Hp' & Hkey)]; [done|]. specialize (Hk _ Hp').
  destruct (Hc Hs) as (i & w & st & g & v & H1 & H2 & H3 & H4 & H5 & H6 & H7).
  exists i, w, st, g, p. rewrite H7, H4, H5, Hid. cbn [opt_or from_option]. unfold id.
  split_and!; try done. trans (task_key t); [done|]. by rewrite Hk, Hkey.
Qed.

Lemma safe_set_task taskId D p : LEnqueue p taskId ∈ D -> key_of_params p = key_of_params params ->
  safe any D (set_taskId (T:=T) taskId).
Proof.
  intros Hp Hk. eapply safe_weaken; [apply safe_attempt|done]. intros D' v HD [H1 H2]. split; [|done]. right. exists p.
  split; [by apply HD|done].
Qed.

Lemma safe_enqueue D : safe (fun D' id => LEnqueue params id ∈ D') D (do_call (CEnqueue params)).
Proof. apply safe_call; [done|]. intros D' id _ Hid. by apply Hid. Qed.

Lemma safe_tick D : safe any D (wait_tick host executor req params).
Proof.
  unfold wait_tick. eapply safe_bind; [apply safe_attempt; by intros D' v _ [H1 H2]|]. intros D1 polls _ _.
  destruct (polls =? 0); [done|]. apply (safe_bind any).
  { destruct (polls mod _ =? 0); [|done]. apply (safe_bind any); [by apply safe_plain|done]. }
  intros D2 [] _ _. eapply safe_bind; [by apply safe_attempt|]. intros D3 taskId _ (v & Hv & ->).
  apply (safe_bind (fun D' t => forall u, t = Some u -> got_ok D' (av_taskId v) u)).
  { apply safe_call; [done|]. intros D' t _ Ht u ->. by apply Ht. }
  intros D4 t HD4 Ht. destruct t as [t|]; [|apply safe_check]. specialize (Ht t eq_refl).
  destruct (is_settled t && negb (ts_run (tk_spec t) =? request_run req)) eqn:Hother.
  - apply (safe_bind any); [by apply safe_plain|]. intros D5 b _ _. eapply safe_bind; [apply safe_enqueue|].
    intros D6 again _ Hag. apply (safe_bind any); [by apply (safe_set_task _ _ params)|done].
  - destruct (is_settled t) eqn:Hst; [|apply safe_check]. apply (safe_bind any); [by apply safe_plain|].
    intros D5 b HD5 _. apply (safe_bind any); [|done]. apply safe_set_outcome.
    destruct (is_status TCompleted t) eqn:Hc; [|done]. apply bool_decide_eq_true in Hc. cbn [andb] in Hother.
    apply negb_false_iff, Z.eqb_eq in Hother. apply (outcome_mono D4); [done|].
    apply (completed_outcome D4 (av_taskId v)); [done..|].
    apply (ak_task req params D4 v). by apply (attempt_mono req params D3).
Qed.

Lemma safe_begin D : safe any D (begin_attempt (T:=T) executor params).
Proof.
  unfold begin_attempt. eapply safe_bind; [apply safe_enqueue|]. intros D1 id _ Hid.
  apply (safe_bind any); [by apply safe_plain|]. intros D2 now HD2 _. eapply safe_weaken; [apply safe_attempt|done].
  intros D' v HD' _. split; [|done]. right. exists params. split; [by apply HD', HD2|done].
Qed.

Lemma safe_wait_pass n D : safe any D (wait_pass host executor req params n).
Proof. apply safe_pass; [intros D' _; apply safe_tick|]. intros D' e info _. by apply safe_plain. Qed.

(** Without its sweeps, a safe program is still safe. *)
Lemma safe_without {A} (Q : log -> A -> Prop) D p : safe Q D p -> safe Q D (withoutRequeue p).
Proof.
  revert D. induction p as [a|e|X c k IH]; intros D Hp; [done|done|].
  destruct c; cbn [withoutRequeue];
    try (intros D1 HD1; destruct (Hp D1 HD1) as [Hc Hk]; split; [done|]; intros D2 r HD2 Hr; by apply IH, Hk).
  apply IH. destruct (Hp D ltac:(done)) as [_ Hk]. by apply Hk.
Qed.

Lemma safe_view {A} (Q : log -> A -> Prop) sweeps D p :
  safe Q D p -> safe Q D (queue_view (mkWait executor sweeps req params) p).
Proof. destruct sweeps; [done|]. apply safe_without. Qed.
End wait.
End contract.
