(* ===== verification/QueueResults.v ===== *)
(** What the results of queued steps are worth: a step's result is what a
    worker's handler returned for the step's task, and no task is settled
    twice, whatever workers, waits, networks and processes do
    ([distributed/worker.ts], [distributed/step-queue-executor.ts]). *)
From Stdlib Require Import QArith Ascii.
From S2P Require Import Prelude Leases LeaderLeases Json Journal RunState Storage StorageRows Exits Retry StepBody MachineStorage JournalStore StepQueue Programs PollLoop WorkerRegistry QueueCalls Worker StepQueueExecutor QueueSystem QueueLog QueueSafety.
Open Scope string_scope.
Open Scope list_scope.
Open Scope Z_scope.

(** ** Keys *)
(** A key names one step of one workflow when step names have no colon. *)
Fixpoint colon_free (s : string) : bool :=
  match s with
  | EmptyString => true
  | String c s => negb (Ascii.eqb c ":"%char) && colon_free s
  end.

Lemma colon_free_app a b : colon_free (a +:+ ":" +:+ b) = false.
Proof.
  induction a as [|c a IH]; [done|]. change (negb (Ascii.eqb c ":"%char) && colon_free (a +:+ ":" +:+ b) = false).
  by rewrite IH, andb_false_r.
Qed.

Lemma colon_free_key a b c d : colon_free b = true -> "::" +:+ b = String a c +:+ "::" +:+ d -> False.
Proof.
  intros Hb. autorewrite with str. intros [= _ Hc].
  enough (exists x, b = x +:+ ":" +:+ d) as [x ->] by (by rewrite colon_free_app in Hb).
  destruct c as [|e c]; autorewrite with str in Hc; injection Hc as Hb'; [by exists ""|].
  exists (c +:+ ":"). rewrite string_app_assoc. by autorewrite with str.
Qed.

Lemma activeKey_inj w s w' s' : colon_free s = true -> colon_free s' = true ->
  activeKey w s = activeKey w' s' -> w = w' /\ s = s'.
Proof.
  intros Hs Hs'. unfold activeKey. revert w'. induction w as [|a w IH]; intros [|a' w'] Heq.
  - by apply string_app_inj_l in Heq; apply string_app_inj_l in Heq.
  - by destruct (colon_free_key a' s w' s').
  - by destruct (colon_free_key a s' w s).
  - autorewrite with str in Heq. injection Heq as -> Heq. by destruct (IH w' Heq) as [-> ->].
Qed.

Section results.
Context {T : Type} (host : RunnerHost T) (localeCompare : string -> string -> Z).
Abbreviation log := (list (LogEntry (T:=T))).
Implicit Types (D E : log) (q : InMemoryStepQueue).
Abbreviation safe_for who := (safe (Contract0 := owner_contract who)).

(** A logged run happened: the worker that had claimed the task ran its
    middleware around the handler registered for the step, which returned. *)
Definition runs_ok D : Prop := forall i w st registration value, LRun i w st registration value ∈ D ->
  exists self signal t t', w = wc_workerId self /\ LWorker i self ∈ D /\ LClaim i w st ∈ D /\
    LRegister i (ts_stepName (sk_spec st)) registration ∈ D /\
    attempt_run self st registration signal t = (Ret value, t').

Definition owner_ok (who : Owner (T:=T)) D (l : Local (T:=T)) : Prop :=
  match who with
  | OwWorker i self => LWorker i self ∈ D /\ vars_ok i self D (lo_vars l)
  | OwWait req params => attempt_ok req params D (lo_attempt l)
  end.

Record local_ok (who : Owner (T:=T)) D (l : Local (T:=T)) : Prop := {
  lk_queue : queue_log D (lo_queue l);
  lk_runs : runs_ok D;
  lk_owner : owner_ok who D l;
}.

Definition no_run (e : LogEntry (T:=T)) : Prop := match e with LRun _ _ _ _ _ => False | _ => True end.

Lemma runs_app D E : runs_ok D -> Forall no_run E -> runs_ok (D ++ E).
Proof.
  intros HD HE i w st g v [Hin|Hin]%elem_of_app.
  - destruct (HD _ _ _ _ _ Hin) as (self & sg & t & t' & H0 & H1 & H2 & H3 & H4).
    exists self, sg, t, t'. rewrite !elem_of_app. auto 6.
  - rewrite Forall_forall in HE. by apply HE in Hin.
Qed.

Lemma owner_mono who D D' l : D ⊆ D' -> owner_ok who D l -> owner_ok who D' l.
Proof.
  intros HD. destruct who as [i self|req params]; cbn; [|by apply attempt_mono]. intros [H1 H2].
  split; [by apply HD|by apply (worker_vars_grow _ _ D)].
Qed.

Lemma queue_changed who D l q : local_ok who D l -> evolves (lo_queue l) q -> sound q -> local_ok who D (with_queue q l).
Proof. intros [H1 H2 H3] He Hs. split; [by apply (queue_log_evolves _ (lo_queue l))|done|done]. Qed.

Lemma got_from_queue D q id t : queue_log D q -> get id q = Some t -> got_ok D id t.
Proof.
  intros Hq Hg. apply fmap_Some in Hg as (u & Hu & ->). destruct (proj2 (proj2 (proj1 (ql_sound _ _ Hq))) _ _ Hu) as (Hid & n & _ & Hn).
  split; [exact Hid|rewrite Hn; discriminate|exact (ql_origin _ _ Hq _ _ Hu)| |exact (ql_completed _ _ Hq _ _ Hu)].
  intros p Hp. destruct (ql_enqueued _ _ Hq _ _ Hp) as [_ Hk]. exact (Hk u Hu).
Qed.

Definition spawn_ok (who : Owner (T:=T)) D (sp : option Spawn) : Prop :=
  match sp, who with
  | None, _ => True
  | Some SpLoop, OwWorker _ _ => True
  | Some (SpTask st _), OwWorker i self => LClaim i (wc_workerId self) st ∈ D
  | Some _, OwWait _ _ => False
  end.

(** What one call leaves and answers. *)
Record effect_ok {X} (who : Owner (T:=T)) D (c : call T X) (ef : Effect X) : Prop := {
  eo_local : local_ok who (D ++ ef_log ef) (ef_local ef);
  eo_answer : match ef_answer ef with
              | Ret x => answer_ok who (D ++ ef_log ef) c (Ok x)
              | Throws e => answer_ok who (D ++ ef_log ef) c (Err e)
              | Died => True
              end;
  eo_spawn : spawn_ok who D (ef_spawn ef);
}.

(** A call that logs nothing. *)
Lemma effect_plain {X} who D (c : call T X) o l : local_ok who D l ->
  match o with Ret x => answer_ok who D c (Ok x) | Throws e => answer_ok who D c (Err e) | Died => True end ->
  effect_ok who D c (mkEffect o l [] None).
Proof. intros Hl Ha. split; cbn; rewrite ?app_nil_r; done. Qed.

Lemma effect_queue {X} who D (c : call T X) l now op x q : local_ok who D l -> quiet op ->
  q = run_queue_op now op (lo_queue l) -> (forall D', answer_ok who D' c (Ok x)) ->
  effect_ok who D c (mkEffect (Ret x) (with_queue q l) [] None).
Proof.
  intros Hl Hop -> Ha. pose proof (ql_sound _ _ (lk_queue _ _ _ Hl)) as Hs. apply effect_plain; [|by apply Ha].
  apply (queue_changed _ _ _ _ Hl); [apply evolves_op; [apply Hs|done]|by apply sound_op].
Qed.

Lemma effect_claim i self D l now p : local_ok (OwWorker i self) D l -> cl_workerId p = wc_workerId self ->
  effect_ok (OwWorker i self) D (CClaim p)
    (mkEffect (Ret (claim now p (lo_queue l)).1) (with_queue (claim now p (lo_queue l)).2 l)
       (LClaim i (wc_workerId self) <$> (claim now p (lo_queue l)).1) None).
Proof.
  intros [H1 H2 H3] Hp. split; cbn [ef_log ef_local ef_answer ef_spawn]; [|intros l' [= <-]|done].
  - split; [by apply queue_log_claim| |by eapply owner_mono; [apply list_subseteq_app_l|exact H3]].
    apply runs_app; [done|]. apply Forall_fmap, Forall_true. done.
  - apply Forall_forall. intros st Hst. apply elem_of_app. right. by apply list_elem_of_fmap_2.
Qed.

Lemma effect_enqueue who D l now p : local_ok who D l ->
  effect_ok who D (CEnqueue p)
    (mkEffect (Ret (enqueue now p (lo_queue l)).1) (with_queue (enqueue now p (lo_queue l)).2 l)
       [LEnqueue p (enqueue now p (lo_queue l)).1] None).
Proof.
  intros [H1 H2 H3]. split; cbn [ef_log ef_local ef_answer ef_spawn]; [|intros id [= <-]|done].
  - split; [by apply queue_log_enqueue| |by eapply owner_mono; [apply list_subseteq_app_l|exact H3]].
    apply runs_app; [done|]. by apply Forall_singleton.
  - apply elem_of_app. right. by apply list_elem_of_singleton.
Qed.

(** Settling under a logged claim. *)
Lemma effect_settle i self D l (c : call T bool) st tok f : local_ok (OwWorker i self) D l ->
  LClaim i (wc_workerId self) st ∈ D -> sk_claimToken st = Some tok ->
  sound (on_claim (sk_id st) (Some tok) f (lo_queue l)).2 ->
  (forall t, tk_id (f t) = tk_id t /\ tk_spec (f t) = tk_spec t /\ tk_claim (f t) = tk_claim t /\ is_settled (f t) = true) ->
  (forall t, tk_status (f t) = TCompleted ->
    exists registration value, LRun i (wc_workerId self) st registration value ∈ D /\ to_result (tk_outcome (f t)) = Some value) ->
  (forall D' b, answer_ok (OwWorker i self) D' c (Ok b)) ->
  let '(b, q) := on_claim (sk_id st) (Some tok) f (lo_queue l) in
  effect_ok (OwWorker i self) D c (mkEffect (Ret b) (with_queue q l) (settle_log (OwWorker i self) st b) None).
Proof.
  intros [H1 H2 H3] Hin Htok Hs Hf Hr Ha.
  pose proof (queue_log_settle D (lo_queue l) i (wc_workerId self) st tok f H1 Hin Htok Hs Hf Hr) as Hq.
  destruct (on_claim _ _ _ _) as [b q]. split; cbn [ef_log ef_local ef_answer ef_spawn]; [|apply Ha|done].
  split; [exact Hq| |by eapply owner_mono; [apply list_subseteq_app_l|exact H3]].
  apply runs_app; [done|]. cbn. destruct b; [by apply Forall_singleton|by apply Forall_nil].
Qed.

Lemma effect_run i self D l st reg f o t' signal : local_ok (OwWorker i self) D l ->
  LClaim i (wc_workerId self) st ∈ D -> LRegister i (ts_stepName (sk_spec st)) reg ∈ D -> f = attempt_run self st reg ->
  f signal (lo_host l) = (o, t') ->
  forall ctl late, effect_ok (OwWorker i self) D (CRun st reg ctl late f)
    (mkEffect o (with_host t' l) (run_log (OwWorker i self) st reg o) None).
Proof.
  intros [H1 H2 H3] Hin Hreg -> Hrun ctl late. destruct o as [v|e|]; cbn [run_log];
    [|apply effect_plain; [by split|done]..].
  pose proof (proj1 H3) as Hw. split; cbn [ef_log ef_local ef_answer ef_spawn]; [|intros x [= <-]|done].
  - split; [|intros i' w' st' g' v' [Hi|[= -> -> -> -> ->]%list_elem_of_singleton]%elem_of_app|
      by eapply owner_mono; [apply list_subseteq_app_l|exact H3]].
    + apply queue_log_aside; [done|by apply Forall_singleton].
    + destruct (H2 _ _ _ _ _ Hi) as (s' & sg & a & b & K0 & K1 & K2 & K3 & K4). exists s', sg, a, b. rewrite !elem_of_app. auto 6.
    + exists self, signal, (lo_host l), t'. rewrite !elem_of_app. auto 6.
  - apply elem_of_app. right. by apply list_elem_of_singleton.
Qed.

(** ** One call *)
Lemma call_effect_ok {X} who D now late (c : call T X) l ef : local_ok who D l -> call_ok who D c ->
  perform now late who c l = Some ef -> effect_ok who D c ef.
Proof.
  intros Hl Hc. pose proof Hl as [Hq Hr Hw]. pose proof (ql_sound _ _ Hq) as Hs.
  destruct c as [p|p|id tok|id tok|st p|st p|p|id|id|mode|wid|op| |Y f|st reg ctl tm f|Y f|Y f|Y f|ms|n|n tm|n|st ctl]; cbn [perform].
  - pose proof (effect_enqueue who D l now p Hl) as He. destruct (enqueue now p (lo_queue l)). by intros [= <-].
  - destruct who as [i self|]; [|done]. pose proof (effect_claim i self D l now p Hl Hc) as He.
    destruct (claim now p (lo_queue l)). by intros [= <-].
  - pose proof (effect_queue who D (CRelease id tok) l now (QRelease id tok)) as He. cbn [run_queue_op] in He.
    destruct (release id tok (lo_queue l)). intros [= <-]. by apply He.
  - pose proof (effect_queue who D (CBeat id tok) l now (QHeartbeat id tok)) as He. cbn [run_queue_op] in He.
    destruct (heartbeat now id tok (lo_queue l)). intros [= <-]. by apply He.
  - destruct who as [i self|]; [|done]. destruct Hc as (Hin & tok & v & d & g & Htok & -> & Hrun).
    pose proof (effect_settle i self D l (CComplete st (mkComplete (sk_id st) (Some tok) v d None)) st tok
      (completed_task now (mkComplete (sk_id st) (Some tok) v d None)) Hl Hin Htok) as He.
    unfold complete. cbn [co_taskId co_claimToken].
    destruct (on_claim _ _ _ _) as [b q] eqn:Eq. intros [= <-]. apply He.
    + pose proof (sound_op now (QComplete (mkComplete (sk_id st) (Some tok) v d None)) _ Hs) as Hso.
      cbn [run_queue_op] in Hso. unfold complete in Hso. cbn [co_taskId co_claimToken] in Hso. by rewrite Eq in Hso.
    + done.
    + intros t _. by exists g, v.
    + done.
  - destruct who as [i self|]; [|done]. destruct Hc as (Hin & tok & Htok & Hid & Hct).
    pose proof (effect_settle i self D l (CFail st p) st tok (failed_task now p) Hl Hin Htok) as He.
    unfold fail. rewrite Hid, Hct. destruct (on_claim _ _ _ _) as [b q] eqn:Eq. intros [= <-]. apply He.
    + pose proof (sound_op now (QFail p) _ Hs) as Hso. cbn [run_queue_op] in Hso. unfold fail in Hso.
      rewrite Hid, Hct in Hso. by rewrite Eq in Hso.
    + done.
    + done.
    + done.
  - pose proof (effect_queue who D (CTakeAway p) l now (QFail p)) as He. cbn [run_queue_op] in He.
    destruct (fail now p (lo_queue l)). intros [= <-]. by apply He.
  - intros [= <-]. apply effect_plain; [done|]. intros t [= Ht]. by apply (got_from_queue _ (lo_queue l)).
  - pose proof (effect_queue who D (CConsume id) l now (QConsume id)) as He. cbn [run_queue_op] in He.
    destruct (consume now id (lo_queue l)). intros [= <-]. by apply He.
  - pose proof (effect_queue who D (CRequeue mode) l now (QRequeue mode None None)) as He. cbn [run_queue_op] in He.
    assert (local_ok who D (with_queue (requeueStuck now mode None None (lo_queue l)).2 l)) as Hl'.
    { apply queue_changed; [done|by apply evolves_requeue, Hs|by apply (sound_op now (QRequeue mode None None))]. }
    destruct (requeueStuck now mode None None (lo_queue l)) as [[r|e] q]; intros [= <-]; [by apply He|by apply effect_plain].
  - destruct (loadWorkflow wid (lo_storage l)) as [[r|e] db]; intros [= <-]; by apply effect_plain.
  - intros [= <-]. by apply effect_plain.
  - intros [= <-]. by apply effect_plain.
  - destruct (f (lo_host l)) as [o t]. intros [= <-]. apply effect_plain; [done|by destruct o].
  - destruct who as [i self|]; [|done]. destruct Hc as (Hin & Hreg & Hf).
    destruct (f (signal_of ctl (lo_vars l)) (lo_host l)) as [o t'] eqn:Ef.
    pose proof (effect_run i self D l st reg f o t' _ Hl Hin Hreg Hf Ef ctl tm) as He.
    destruct tm as [e|]; [|by intros [= <-]]. destruct late as [applied|]; [|by intros [= <-]]. intros [= <-].
    apply effect_plain; [by destruct applied|done].
  - destruct (f (lo_vars l)) as [x v] eqn:Ef. intros [= <-]. destruct who as [i self|]; [|by apply effect_plain].
    destruct Hw as [Hw Hv]. pose proof (Hc _ Hv) as Hv'. rewrite Ef in Hv'. apply effect_plain; [by split|].
    intros y [= <-]. exists (lo_vars l). by rewrite Ef.
  - destruct (f (lo_attempt l)) as [x v] eqn:Ef. intros [= <-]. destruct who as [i self|]; [by apply effect_plain|].
    pose proof (Hc _ Hw) as Hv'. rewrite Ef in Hv'. apply effect_plain; [by split|].
    intros y [= <-]. exists (lo_attempt l). by rewrite Ef.
  - destruct (f (lo_loop l)) as [x v]. intros [= <-]. by apply effect_plain.
  - intros [= <-]. by apply effect_plain.
  - destruct (run_over n (lo_loop l)); [|done]. intros [= <-]. by apply effect_plain.
  - assert (forall b, effect_ok who D (CAwaitIdle n tm) (mkEffect (Ret b) l [] None)) as He by (intros; by apply effect_plain).
    destruct tm, late; [intros [= <-]; apply He|case_bool_decide; [done|]; intros [= <-]; apply He..].
  - intros [= <-]. split; cbn; rewrite ?app_nil_r; [done|done|by destruct who].
  - intros [= <-]. split; cbn; rewrite ?app_nil_r; [done|done|by destruct who].
Qed.

Lemma answer_err {X} who D (c : call T X) e : answer_ok who D c (Err e).
Proof. by destruct c, who. Qed.

Record progress_ok {A} (who : Owner (T:=T)) (Q : log -> A -> Prop) D (go : Progress A) : Prop := {
  po_local : local_ok who (D ++ go_log go) (go_local go);
  po_safe : forall p, go_prog go = Some p -> safe_for who Q (D ++ go_log go) p;
  po_spawn : spawn_ok who D (go_spawn go);
}.

Lemma progress_made {A} (Q : log -> A -> Prop) who D now fault late (p : prog T A) l :
  local_ok who D l -> safe_for who Q D p -> progress_ok who Q D (take_step now fault late who p l).
Proof.
  intros Hl Hp. assert (progress_ok who Q D (mkProgress (Some p) l [] None)) as Hstay.
  { split; cbn; rewrite ?app_nil_r; [done|by intros ? [= <-]|done]. }
  destruct p as [a|e|X c k]; cbn [take_step]; [done..|].
  destruct (Hp D ltac:(done)) as [Hc Hk]. change (call_ok who D c) in Hc.
  assert (forall ef next, perform now late who c l = Some ef ->
    (next = None \/ exists r, next = Some (k r) /\ answer_ok who (D ++ ef_log ef) c r) ->
    progress_ok who Q D (mkProgress next (ef_local ef) (ef_log ef) (ef_spawn ef))) as Hperf.
  { intros ef next Ef Hn. destruct (call_effect_ok _ _ _ _ _ _ _ Hl Hc Ef) as [H1 H2 H3]. split; cbn; [done| |done].
    intros p' ->. destruct Hn as [|(r & [= ->] & Ha)]; [done|]. apply Hk; [by apply list_subseteq_app_l|done]. }
  assert (forall ef, perform now late who c l = Some ef -> progress_ok who Q D (mkProgress
    match ef_answer ef with Ret x => Some (k (Ok x)) | Throws e => Some (k (Err e)) | Died => None end
    (ef_local ef) (ef_log ef) (ef_spawn ef))) as Hans.
  { intros ef Ef. apply Hperf; [done|]. destruct (call_effect_ok _ _ _ _ _ _ _ Hl Hc Ef) as [_ H2 _].
    destruct (ef_answer ef) as [x|e|]; [right; by exists (Ok x)|right; by exists (Err e)|by left]. }
  destruct fault as [[[] e]|].
  - destruct (perform now late who c l) as [ef|]; [|done]. destruct (may_fail c); [|by apply Hans].
    apply Hperf; [done|]. right. eexists. split; [done|]. apply answer_err.
  - destruct (may_fail c); [|destruct (perform now late who c l) as [ef|]; [by apply Hans|done]].
    split; cbn; rewrite ?app_nil_r; [done| |done]. intros p' [= <-]. apply Hk; [done|]. apply answer_err.
  - destruct (perform now late who c l) as [ef|]; [by apply Hans|done].
Qed.

(** ** Systems *)
Abbreviation workers := (gmap nat (Member (T:=T))).
Implicit Types (W : workers) (s : System (T:=T)).

Definition worker_safe W D (i : nat) {A} (p : prog T A) : Prop :=
  exists m, W !! i = Some m /\ safe_for (OwWorker i (mb_config m)) any D p.

Definition wait_safe D (w : Wait (T:=T)) {A} (p : prog T A) : Prop :=
  (exists attempt deps dependsOn, wt_params w = enqueue_params (wt_req w) attempt deps dependsOn) /\
  safe_for (OwWait (wt_req w) (wt_params w)) any D p.

Definition process_ok W D (pr : Process (T:=T)) : Prop :=
  match pr with
  | PrLoop i p => worker_safe W D i p
  | PrTask i p => worker_safe W D i p
  | PrBegin w p => wait_safe D w p
  | PrWait w v _ p => attempt_ok (wt_req w) (wt_params w) D v /\ wait_safe D w p
  end.

Definition worker_ok D (i : nat) (m : Member (T:=T)) : Prop :=
  LWorker i (mb_config m) ∈ D /\ vars_ok i (mb_config m) D (mb_vars m).

Record system_ok s : Prop := {
  so_queue : queue_log (qs_log s) (qs_queue s);
  so_runs : runs_ok (qs_log s);
  so_outcomes : forall req o, LOutcome req o ∈ qs_log s -> outcome_ok (qs_log s) req o;
  so_workers : map_Forall (worker_ok (qs_log s)) (qs_workers s);
  so_processes : map_Forall (fun _ => process_ok (qs_workers s) (qs_log s)) (qs_processes s);
}.

(** Workers keep their configurations. *)
Definition extends W W' : Prop := forall i m, W !! i = Some m -> exists m', W' !! i = Some m' /\ mb_config m' = mb_config m.

Lemma extends_insert W i m : (forall m0, W !! i = Some m0 -> mb_config m = mb_config m0) -> extends W (<[i := m]> W).
Proof.
  intros Hm j mj Hj. destruct (decide (i = j)) as [->|Hne].
  - exists m. rewrite lookup_insert_eq. split; [done|by apply Hm].
  - exists mj. by rewrite lookup_insert_ne.
Qed.

Lemma safe_grow {A} who (p : prog T A) D D' : D ⊆ D' -> safe_for who any D p -> safe_for who any D' p.
Proof. intros HD. apply (safe_mono (Contract0 := owner_contract who)); [by intros E E' x|exact HD]. Qed.

Lemma process_grows W W' D D' pr : extends W W' -> D ⊆ D' -> process_ok W D pr -> process_ok W' D' pr.
Proof.
  intros HW HD.
  assert (forall i A (p : prog T A), worker_safe W D i p -> worker_safe W' D' i p) as Hwork.
  { intros i A p (m & Hm & Hp). destruct (HW _ _ Hm) as (m' & Hm' & Hc). exists m'. split; [done|].
    rewrite Hc. by eapply safe_grow. }
  assert (forall w A (p : prog T A), wait_safe D w p -> wait_safe D' w p) as Hwait.
  { intros w A p [He Hp]. split; [done|]. by eapply safe_grow. }
  destruct pr as [i p|i p|w p|w v loop p]; cbn; [apply Hwork|apply Hwork|apply Hwait|].
  intros [Hv Hp]. split; [by eapply attempt_mono|by apply Hwait].
Qed.

Lemma worker_mono D D' i m : D ⊆ D' -> worker_ok D i m -> worker_ok D' i m.
Proof. intros HD [H1 H2]. split; [by apply HD|by eapply worker_vars_grow]. Qed.

Lemma replace_process_ok pid pr s : system_ok s ->
  match pr with Some pr => process_ok (qs_workers s) (qs_log s) pr | None => True end -> system_ok (set_process pid pr s).
Proof.
  intros [H1 H2 H3 H4 H5] Hpr. split; try done. destruct pr as [pr|]; cbn; [by apply map_Forall_insert_2|by apply map_Forall_delete].
Qed.

Lemma spawn_system_ok pr s : system_ok s -> process_ok (qs_workers s) (qs_log s) pr -> system_ok (spawn pr s).
Proof. intros [H1 H2 H3 H4 H5] Hpr. split; try done. cbn. by apply map_Forall_insert_2. Qed.

Lemma set_member_ok i m s : system_ok s -> worker_ok (qs_log s) i m ->
  (forall m0, qs_workers s !! i = Some m0 -> mb_config m = mb_config m0) -> system_ok (set_member i m s).
Proof.
  intros [H1 H2 H3 H4 H5] Hm Hc. split; try done; cbn; [by apply map_Forall_insert_2|].
  eapply map_Forall_impl; [exact H5|]. intros pid pr. apply process_grows; [by apply extends_insert|done].
Qed.

(** What a call left is put back; outcomes are not logged by calls. *)
Lemma leave_ok who l E s : system_ok s -> local_ok who (qs_log s ++ E) l ->
  (forall req o, LOutcome req o ∈ E -> outcome_ok (qs_log s ++ E) req o) -> system_ok (leave l E s).
Proof.
  intros [H1 H2 H3 H4 H5] [Hq Hr _] HE. assert (qs_log s ⊆ qs_log s ++ E) as HD by by apply list_subseteq_app_l.
  split; cbn; [done|done| | |].
  - intros req o [Hin|Hin]%elem_of_app; [|by apply HE]. eapply outcome_mono; [exact HD|by apply H3].
  - eapply map_Forall_impl; [exact H4|]. intros i m. by apply worker_mono.
  - eapply map_Forall_impl; [exact H5|]. intros pid pr. by apply process_grows; [intros i m Hm; exists m|].
Qed.

Definition no_outcome_entry (e : LogEntry (T:=T)) : Prop := match e with LOutcome _ _ => False | _ => True end.

Lemma step_log {A} now fault late who (p : prog T A) l : Forall no_outcome_entry (go_log (take_step now fault late who p l)).
Proof.
  assert (forall X (c : call T X) ef, perform now late who c l = Some ef -> Forall no_outcome_entry (ef_log ef)) as Hp.
  { intros X c ef Hf. destruct c; cbn [perform] in Hf; unfold done in Hf; repeat case_match; simplify_eq; cbn; try by repeat constructor.
    all: unfold settle_log, run_log, claim_log; repeat case_match; try by repeat constructor. by apply Forall_fmap, Forall_true. }
  destruct p as [a|e|X c k]; cbn [take_step]; [constructor..|].
  destruct (perform now late who c l) as [ef|] eqn:Ef; [pose proof (Hp _ _ _ Ef)|];
    destruct fault as [[[] e]|]; try destruct (may_fail c); cbn; done || constructor.
Qed.

Lemma spawned_ok i m D sp s : system_ok s -> qs_workers s !! i = Some m -> D ⊆ qs_log s ->
  spawn_ok (OwWorker i (mb_config m)) D sp -> system_ok (spawned host i (mb_config m) sp s).
Proof.
  intros Hs Hm HD Hsp. destruct sp as [[|st ctl]|]; cbn in *; [| |done]; (apply spawn_system_ok; [done|]); exists m.
  - split; [done|]. apply safe_worker_pass.
  - split; [done|]. apply safe_task. by apply HD.
Qed.

(** Where a worker's process goes next is safe. *)
Definition after_ok (i : nat) (self : WorkerConfig T) {A} (after : prog T A -> LoopVars -> option (Process (T:=T)) * LoopVars) : Prop :=
  forall D p loop, safe_for (OwWorker i self) any D p ->
    match (after p loop).1 with
    | Some pr => forall W m, W !! i = Some m -> mb_config m = self -> process_ok W D pr
    | None => True
    end.

Lemma after_loop_ok i self : after_ok i self (after_loop i self).
Proof.
  intros D p loop Hp. destruct p as [[failures|]|e|X c k]; cbn; try done; intros W m Hm <-; exists m; (split; [done|]).
  - apply safe_worker_pass.
  - exact Hp.
Qed.

Lemma after_task_ok i self : after_ok i self (after_task i).
Proof. intros D p loop Hp. destruct p as [[]|e|X c k]; cbn; try done. intros W m Hm <-. by exists m. Qed.

Lemma step_worker_ok {A} pid i m after (go : Progress A) s : system_ok s -> qs_workers s !! i = Some m ->
  progress_ok (OwWorker i (mb_config m)) any (qs_log s) go -> Forall no_outcome_entry (go_log go) ->
  after_ok i (mb_config m) after -> system_ok (step_worker host pid i m after go s).
Proof.
  intros Hs Hm [Hl Hp Hsp] Hlog Hafter. unfold step_worker.
  destruct (match go_prog go with Some p => _ | None => _ end) as [next loop] eqn:En.
  set (m' := mkMember (mb_config m) (lo_vars (go_local go)) loop).
  assert (system_ok (leave (go_local go) (go_log go) s)) as H1.
  { apply (leave_ok (OwWorker i (mb_config m))); [done|done|]. intros req o Hin. rewrite Forall_forall in Hlog. by apply Hlog in Hin. }
  assert (system_ok (set_member i m' (leave (go_local go) (go_log go) s))) as H2.
  { apply set_member_ok; [done|exact (lk_owner _ _ _ Hl)|]. intros m0. cbn. rewrite Hm. by intros [= <-]. }
  apply (spawned_ok i m' (qs_log s)).
  - apply replace_process_ok; [done|]. destruct (go_prog go) as [p|]; [|by injection En as <- _].
    pose proof (Hafter _ p (lo_loop (go_local go)) (Hp p eq_refl)) as Ha. rewrite En in Ha. cbn [fst] in Ha.
    destruct next as [pr|]; [|done]. apply (Ha _ m'); [by apply lookup_insert_eq|done].
  - by apply lookup_insert_eq.
  - by apply list_subseteq_app_l.
  - done.
Qed.

Lemma no_attempt_ok req params D : attempt_ok req params D no_attempt.
Proof. split; [by left|done]. Qed.

Lemma after_begin_ok W D (w : Wait (T:=T)) p v loop : wait_safe D w p -> attempt_ok (wt_req w) (wt_params w) D v ->
  match after_begin host w p v loop with Some pr => process_ok W D pr | None => True end.
Proof.
  intros [(attempt & deps & dependsOn & Hpar) Hp] Hv. destruct p as [[]|e|X c k]; cbn; [|done|].
  - split; [done|]. split; [by exists attempt, deps, dependsOn|]. unfold wait_program. destruct w as [ex sweeps req params].
    cbn [wt_params wt_req wt_executor] in *. subst params. apply safe_view, safe_wait_pass.
  - split; [by exists attempt, deps, dependsOn|done].
Qed.

Lemma after_wait_ok W D (w : Wait (T:=T)) p v loop : wait_safe D w p -> attempt_ok (wt_req w) (wt_params w) D v ->
  match (after_wait host w p v loop).1 with Some pr => process_ok W D pr | None => True end /\
  forall req o, LOutcome req o ∈ (after_wait host w p v loop).2 -> outcome_ok D req o.
Proof.
  intros [(attempt & deps & dependsOn & Hpar) Hp] Hv. destruct p as [[failures|]|e|X c k]; cbn.
  - split; [|by intros req o ?%elem_of_nil]. split; [done|]. split; [by exists attempt, deps, dependsOn|].
    unfold wait_program. destruct w as [ex sweeps req params]. cbn [wt_params wt_req wt_executor] in *. subst params.
    apply safe_view, safe_wait_pass.
  - split; [done|]. intros req o. destruct (av_outcome v) as [o'|] eqn:Eo; [|by intros ?%elem_of_nil].
    intros [= -> ->]%list_elem_of_singleton. by apply (ak_outcome _ _ _ _ Hv).
  - split; [done|]. by intros req o ?%elem_of_nil.
  - split; [|by intros req o ?%elem_of_nil]. split; [done|]. split; [by exists attempt, deps, dependsOn|done].
Qed.

Lemma wait_local_ok (w : Wait (T:=T)) v loop s : system_ok s -> attempt_ok (wt_req w) (wt_params w) (qs_log s) v ->
  local_ok (OwWait (wt_req w) (wt_params w)) (qs_log s) (wait_local v loop s).
Proof. intros [H1 H2 _ _ _] Hv. by split. Qed.

Lemma no_outcomes E D : Forall no_outcome_entry E -> forall req o, LOutcome req o ∈ E -> outcome_ok D req o.
Proof. intros HE req o Hin. rewrite Forall_forall in HE. by apply HE in Hin. Qed.

(** An outcome is logged after the call that set it. *)
Lemma leave_wait_ok (w : Wait (T:=T)) (l : Local (T:=T)) E O s : system_ok s -> local_ok (OwWait (wt_req w) (wt_params w)) (qs_log s ++ E) l ->
  Forall no_outcome_entry E -> Forall aside O -> Forall no_run O ->
  (forall req o, LOutcome req o ∈ O -> outcome_ok (qs_log s ++ E) req o) -> system_ok (leave l (E ++ O) s).
Proof.
  intros Hs [Hq Hr Hw] HE Ha Hn HO. assert (qs_log s ++ E ⊆ qs_log s ++ E ++ O) as HD.
  { rewrite app_assoc. by apply list_subseteq_app_l. }
  apply (leave_ok (OwWait (wt_req w) (wt_params w))); [done| |].
  - rewrite app_assoc. split; [by apply queue_log_aside|by apply runs_app|]. by eapply owner_mono; [apply list_subseteq_app_l|].
  - intros req o [Hin|Hin]%elem_of_app; [by apply (no_outcomes E)|]. eapply outcome_mono; [exact HD|by apply HO].
Qed.

Lemma process_step_ok pid now fault late pr s : system_ok s -> process_ok (qs_workers s) (qs_log s) pr ->
  system_ok (step_process host pid now fault late pr s).
Proof.
  intros Hs Hpr. assert (forall i m, qs_workers s !! i = Some m -> local_ok (OwWorker i (mb_config m)) (qs_log s) (worker_local m s)) as Hloc.
  { intros i m Hm. destruct Hs as [H1 H2 _ H4 _]. split; [done|done|]. exact (H4 _ _ Hm). }
  destruct pr as [i p|i p|w p|w v loop p]; cbn [step_process].
  - destruct Hpr as (m & Hm & Hp). rewrite Hm. apply step_worker_ok; [done|done| |apply step_log|apply after_loop_ok].
    apply progress_made; [by apply Hloc|done].
  - destruct Hpr as (m & Hm & Hp). rewrite Hm. apply step_worker_ok; [done|done| |apply step_log|apply after_task_ok].
    apply progress_made; [by apply Hloc|done].
  - destruct (progress_made any _ _ now fault late p _ (wait_local_ok w no_attempt no_loop s Hs (no_attempt_ok _ _ _)) (proj2 Hpr)) as [Hl Hp _].
    pose proof (step_log now fault late (OwWait (wt_req w) (wt_params w)) p (wait_local no_attempt no_loop s)) as Hlog.
    set (go := take_step _ _ _ _ _ _) in *. apply replace_process_ok.
    + apply (leave_ok (OwWait (wt_req w) (wt_params w))); [done|done|by apply no_outcomes].
    + destruct (go_prog go) as [p'|]; [|done]. cbn [mbind option_bind]. apply after_begin_ok; [|exact (lk_owner _ _ _ Hl)].
      split; [exact (proj1 Hpr)|by apply Hp].
  - destruct Hpr as [Hv Hw].
    destruct (progress_made any _ _ now fault late p _ (wait_local_ok w v loop s Hs Hv) (proj2 Hw)) as [Hl Hp _].
    pose proof (step_log now fault late (OwWait (wt_req w) (wt_params w)) p (wait_local v loop s)) as Hlog.
    set (go := take_step _ _ _ _ _ _) in *.
    assert (forall p', go_prog go = Some p' -> wait_safe (qs_log s ++ go_log go) w p') as Hgo.
    { intros p' Hp'. split; [exact (proj1 Hw)|by apply Hp]. }
    destruct (match go_prog go with Some _ => _ | None => _ end) as [next O] eqn:En.
    assert (match next with Some pr => process_ok (qs_workers s) (qs_log s ++ go_log go) pr | None => True end /\
      Forall aside O /\ Forall no_run O /\ forall req o, LOutcome req o ∈ O -> outcome_ok (qs_log s ++ go_log go) req o) as (Hnext & Ha & Hn & HO).
    { destruct (go_prog go) as [p'|]; [|injection En as <- <-; split_and!; [done|constructor|constructor|by intros req o ?%elem_of_nil]].
      pose proof (after_wait_ok (qs_workers s) _ w p' (lo_attempt (go_local go)) (lo_loop (go_local go)) (Hgo _ eq_refl) (lk_owner _ _ _ Hl)) as [K1 K2].
      assert (Forall aside (after_wait host w p' (lo_attempt (go_local go)) (lo_loop (go_local go))).2 /\
        Forall no_run (after_wait host w p' (lo_attempt (go_local go)) (lo_loop (go_local go))).2) as [K3 K4].
      { unfold after_wait. repeat case_match; split; repeat constructor. }
      rewrite En in K1, K2, K3, K4. done. }
    apply replace_process_ok; [by apply leave_wait_ok with w|]. destruct next as [pr|]; [|done]. cbn [qs_workers qs_log leave].
    rewrite app_assoc. eapply process_grows; [|by apply list_subseteq_app_l|exact Hnext]. intros i m Hm. by exists m.
Qed.

(** Others may do anything with the queue but complete tasks. *)
Definition allowed (e : Event (T:=T)) : Prop := match e with EvQueue _ (QComplete _) => False | _ => True end.

Lemma add_log_ok E s : system_ok s -> Forall aside E -> Forall no_run E -> Forall no_outcome_entry E -> system_ok (add_log E s).
Proof.
  intros [H1 H2 H3 H4 H5] Ha Hn Ho. assert (qs_log s ⊆ qs_log s ++ E) as HD by by apply list_subseteq_app_l.
  split; cbn; [by apply queue_log_aside|by apply runs_app| | |].
  - intros req o [Hin|Hin]%elem_of_app; [|by apply (no_outcomes E)]. eapply outcome_mono; [exact HD|by apply H3].
  - eapply map_Forall_impl; [exact H4|]. intros i m. by apply worker_mono.
  - eapply map_Forall_impl; [exact H5|]. intros pid pr. by apply process_grows; [intros i m Hm; exists m|].
Qed.

Lemma store_ok q db ws s : system_ok s -> queue_log (qs_log s) q -> system_ok (set_store q db ws s).
Proof. by intros [H1 H2 H3 H4 H5] Hq. Qed.

Lemma enqueue_step_ok now p s : system_ok s ->
  system_ok (set_store (enqueue now p (qs_queue s)).2 (qs_storage s) (qs_registry s)
    (add_log [LEnqueue p (enqueue now p (qs_queue s)).1] s)).
Proof.
  intros [H1 H2 H3 H4 H5]. set (E := [LEnqueue p _] : log).
  assert (qs_log s ⊆ qs_log s ++ E) as HD by by apply list_subseteq_app_l.
  split; cbn; [by apply queue_log_enqueue|by apply runs_app; [|apply Forall_singleton]| | |].
  - intros req o [Hin|?%list_elem_of_singleton]%elem_of_app; [|done]. eapply outcome_mono; [exact HD|by apply H3].
  - eapply map_Forall_impl; [exact H4|]. intros i m. by apply worker_mono.
  - eapply map_Forall_impl; [exact H5|]. intros pid pr. by apply process_grows; [intros i m Hm; exists m|].
Qed.

Lemma new_vars_ok i self D : vars_ok i self D new_worker_vars.
Proof. split; [apply jm_wf_empty|done|by apply Forall_nil|done]. Qed.

Lemma register_ok i m stepName handler s : system_ok s -> qs_workers s !! i = Some m ->
  system_ok (add_log [LRegister i stepName (mkRegistration handler)]
    (set_member i (mkMember (mb_config m)
       (set_registry (register_step stepName handler (wv_registry (mb_vars m))) (mb_vars m)) (mb_loop m)) s)).
Proof.
  intros [H1 H2 H3 H4 H5] Hm. pose proof (H4 _ _ Hm) as [Hw [K1 K2 K3 K4]].
  set (E := [LRegister i stepName (mkRegistration handler)] : log).
  assert (qs_log s ⊆ qs_log s ++ E) as HD by by apply list_subseteq_app_l.
  split; cbn; [by apply queue_log_aside; [|apply Forall_singleton]|by apply runs_app; [|apply Forall_singleton]| | |].
  - intros req o [Hin|?%list_elem_of_singleton]%elem_of_app; [|done]. eapply outcome_mono; [exact HD|by apply H3].
  - apply map_Forall_insert_2; [|eapply map_Forall_impl; [exact H4|]; intros j mj; by apply worker_mono].
    split; [by apply HD|]. split; [done| | |].
    + intros id st ctl Hst. by eapply HD, K2.
    + eapply Forall_impl; [exact K3|]. intros c. apply HD.
    + intros name reg. cbn. unfold register_step. rewrite jlookup_insert. case_decide as Hn; [|by intros Hr; apply HD, K4].
      intros [= <-]. subst name. apply elem_of_app. right. by apply list_elem_of_singleton.
  - eapply map_Forall_impl; [exact H5|]. intros pid pr. apply process_grows; [|done]. apply extends_insert.
    intros m0. rewrite Hm. by intros [= <-].
Qed.

Lemma attempt_event_ok executor sweeps req attempt deps dependsOn s : system_ok s ->
  let params := enqueue_params req attempt deps dependsOn in
  let w := mkWait executor sweeps req params in
  system_ok (spawn (PrBegin w (queue_view w (begin_attempt executor params))) s).
Proof.
  intros Hs params w. apply spawn_system_ok; [done|]. split; [by exists attempt, deps, dependsOn|].
  apply safe_view, safe_begin.
Qed.

Lemma event_ok e s : allowed e -> system_ok s -> system_ok (system_step host localeCompare e s).
Proof.
  intros He Hs. destruct e as [i config ms|i name h|i|i ms|ex sw req a d on|pid now fault late|i ctl|i now|pid|now op|now op|now ms|now ms];
    cbn [system_step].
  - destruct (qs_workers s !! i) as [m|] eqn:Hm; [done|]. destruct Hs as [H1 H2 H3 H4 H5].
    set (E := [LWorker i config] : log). assert (qs_log s ⊆ qs_log s ++ E) as HD by by apply list_subseteq_app_l.
    split; cbn; [by apply queue_log_aside; [|apply Forall_singleton]|by apply runs_app; [|apply Forall_singleton]| | |].
    + intros req o [Hin|?%list_elem_of_singleton]%elem_of_app; [|done]. eapply outcome_mono; [exact HD|by apply H3].
    + apply map_Forall_insert_2; [|eapply map_Forall_impl; [exact H4|]; intros j mj; by apply worker_mono].
      split; [|apply new_vars_ok]. apply elem_of_app. right. by apply list_elem_of_singleton.
    + eapply map_Forall_impl; [exact H5|]. intros pid pr. apply process_grows; [|done]. apply extends_insert.
      intros m0. by rewrite Hm.
  - destruct (qs_workers s !! i) as [m|] eqn:Hm; [|done]. by apply register_ok.
  - destruct (qs_workers s !! i) as [m|] eqn:Hm; [|done]. apply spawn_system_ok; [done|]. exists m. split; [done|]. apply safe_start.
  - destruct (qs_workers s !! i) as [m|] eqn:Hm; [|done]. apply spawn_system_ok; [done|]. exists m. split; [done|]. apply safe_stop.
  - by apply attempt_event_ok.
  - destruct (qs_processes s !! pid) as [pr|] eqn:Hp; [|done]. apply process_step_ok; [done|]. by apply (so_processes _ Hs _ _ Hp).
  - destruct (qs_workers s !! i) as [m|] eqn:Hm; [|done]. destruct (wv_controllers (mb_vars m) !! ctl) as [c|] eqn:Hc; [|done].
    destruct (ct_beating c); [|done]. apply spawn_system_ok; [done|]. exists m. split; [done|]. apply safe_heartbeat.
    destruct (so_workers _ Hs _ _ Hm) as [_ Hv]. pose proof (vk_controllers _ _ _ _ Hv) as Hall. rewrite Forall_forall in Hall.
    apply Hall. by eapply list_elem_of_lookup_2.
  - destruct (qs_workers s !! i) as [m|]; [|done]. destruct (wv_intervals (mb_vars m)); [done|]. by apply store_ok; [|apply Hs].
  - by apply replace_process_ok.
  - assert (match op with QEnqueue p => True | _ => quiet op /\ enqueue_log now op (qs_queue s) = ([] : log) end) as Hop by by destruct op.
    assert (quiet op /\ enqueue_log now op (qs_queue s) = ([] : log) ->
      system_ok (set_store (run_queue_op now op (qs_queue s)) (qs_storage s) (qs_registry s)
        (add_log (enqueue_log now op (qs_queue s)) s))) as Hquiet.
    { intros [Hq ->]. pose proof (ql_sound _ _ (so_queue _ Hs)) as Hsd. apply store_ok; [by apply add_log_ok|]. cbn.
      rewrite app_nil_r. apply (queue_log_evolves _ (qs_queue s)); [apply Hs|apply evolves_op; [apply Hsd|done]|by apply sound_op]. }
    destruct op; [by apply enqueue_step_ok|by apply Hquiet..].
  - by apply store_ok; [|apply Hs].
  - by apply store_ok; [|apply Hs].
  - by apply store_ok; [|apply Hs].
Qed.

Lemma events_ok events s : Forall allowed events -> system_ok s -> system_ok (run_system host localeCompare events s).
Proof.
  revert s. induction events as [|e events IH]; intros s; [done|]. intros [He Hes]%Forall_cons Hs.
  apply (IH _ Hes). by apply event_ok.
Qed.

Lemma empty_system_ok max namespace instanceId t : system_ok (initial_system max namespace instanceId t).
Proof.
  split; cbn; [|by intros i w st g v ?%elem_of_nil|by intros req o ?%elem_of_nil|apply map_Forall_empty|apply map_Forall_empty].
  split; cbn; [apply sound_new|by intros i w st ?%elem_of_nil|by intros p id ?%elem_of_nil|by intros id t'|by intros id t'|
    by intros i w st ?%elem_of_nil|constructor].
Qed.

(** C5. The result of a queued step was computed for it. Any number of
    workers and waiting coordinators share a queue; their calls interleave
    in any order, calls fail before or after their effect, processes die or
    stall, tasks go stale and are claimed again, results come late, and
    others enqueue, sweep, consume, fail and purge tasks at will. Whenever a
    wait ends with a result, a worker had claimed the step's task, ran its
    middleware around the handler registered for that step on exactly that
    task, which returned this result, and settled the task under that claim;
    the task's input and dependencies are those of an enqueue of the step,
    and it belongs to the same run. The queue tells steps apart by
    [workflowId::stepName], which is exact for step names without colons. *)
Theorem queued_results_are_computed max namespace instanceId (t : T) events : Forall allowed events ->
  let D := qs_log (run_system host localeCompare events (initial_system max namespace instanceId t)) in
  forall req attempt result meta executorId, LOutcome req (AttemptCompleted attempt result meta executorId) ∈ D ->
  exists i self st registration p,
    LWorker i self ∈ D /\ executorId = Some (wc_workerId self) /\
    LClaim i (wc_workerId self) st ∈ D /\ LSettle i (wc_workerId self) st ∈ D /\
    LRegister i (ts_stepName (sk_spec st)) registration ∈ D /\ LRun i (wc_workerId self) st registration result ∈ D /\
    (exists signal u u', attempt_run self st registration signal u = (Ret result, u')) /\
    LEnqueue p (sk_id st) ∈ D /\ sk_spec st = spec_of p /\
    attempt = ts_attempt (sk_spec st) /\ ts_run (sk_spec st) = request_run req /\
    activeKey (ts_workflowId (sk_spec st)) (ts_stepName (sk_spec st)) = activeKey (rq_workflowId req) (rq_stepName req) /\
    (colon_free (ts_stepName (sk_spec st)) = true -> colon_free (rq_stepName req) = true ->
     ts_workflowId (sk_spec st) = rq_workflowId req /\ ts_stepName (sk_spec st) = rq_stepName req).
Proof.
  intros Hev D req attempt result meta executorId Hin. pose proof (events_ok events _ Hev (empty_system_ok max namespace instanceId t)) as Hs.
  destruct (so_outcomes _ Hs _ _ Hin) as (i & w & st & g & p & H1 & H2 & H3 & H4 & H5 & H6 & H7 & H8 & H9).
  destruct (so_runs _ Hs _ _ _ _ _ H3) as (self & sg & u & u' & -> & K1 & K2 & K3 & K4).
  exists i, self, st, g, p. split_and!; try done; [by exists sg, u, u'|]. intros Hc1 Hc2. by apply activeKey_inj.
Qed.

(** C6. No task is settled twice. In the same systems, of all the claims a
    task is ever handed out under, at most one settles it; the worker that
    settles it had claimed it, and the task is settled from then on. *)
Theorem tasks_settle_once max namespace instanceId (t : T) events : Forall allowed events ->
  let s := run_system host localeCompare events (initial_system max namespace instanceId t) in
  NoDup (settled_ids (qs_log s)) /\
  forall i w st, LSettle i w st ∈ qs_log s ->
    LClaim i w st ∈ qs_log s /\
    forall u, q_tasks (qs_queue s) !! sk_id st = Some u -> is_settled u = true.
Proof.
  intros Hev s. destruct (so_queue _ (events_ok events _ Hev (empty_system_ok max namespace instanceId t))) as [_ _ _ _ _ Hst Hn].
  split; [exact Hn|]. intros i w st Hin. by destruct (Hst _ _ _ Hin) as (H1 & _ & H3).
Qed.
End results.

(** ** Concrete systems *)
Definition sample_runner_host : RunnerHost unit :=
  mkRunnerHost unit (fun t => (0, t)) (fun t => (0%Q, t)) (fun _ t => (true, t)) (fun _ t => (false, t))
    (fun tag fields => mkError tag (Some tag) tag (js_String (fun _ => "") (prop "message" fields)) fields) (fun _ => "").

Definition sample_worker (id : string) (concurrency : Z) (taskFilter : option (StepTask -> unit -> outcome bool * unit)) : WorkerConfig unit :=
  (createWorker "" (Some id) None (Some concurrency) None None None false None None None taskFilter None None).1.

Definition sample_executor : StepQueueExecutorConfig unit := mkExecutorConfig 500 30000 None (fun _ _ t => (Ret tt, t)).

Definition sample_step (stepName : string) : StepExecutionRequest :=
  mkStepRequest "wf" stepName (JNum 7) None None None None None None None None.

Definition add_to_input (n : Z) : StepHandler unit := fun ctx t => (Ret (match wx_input ctx with JNum m => JNum (m + n) | v => v end), t).

Definition steps_of_process (pid n : nat) (now : Z) : list (Event (T:=unit)) := repeat (EvStep pid now None None) n.

Definition run_sample (events : list (Event (T:=unit))) : System :=
  run_system sample_runner_host (fun _ _ => 0) events (initial_system None None "i" tt).

(** Worker 0 claims the task and stalls; the task goes stale and worker 1
    claims and completes it; worker 0 runs it as well, and is refused. *)
Definition late_worker_events : list (Event (T:=unit)) :=
  [EvWorker 0 (sample_worker "w0" 1 None) 1000; EvRegister 0 "a" (add_to_input 100);
   EvWorker 1 (sample_worker "w1" 1 None) 1000; EvRegister 1 "a" (add_to_input 1);
   EvStart 0; EvStart 1; EvAttempt sample_executor false (sample_step "a") 1 [] []] ++
  steps_of_process 2 6 100 ++ steps_of_process 0 3 100 ++ steps_of_process 3 12 100 ++
  [EvQueue 40000 (QRequeue (Stale 30000) None None)] ++
  steps_of_process 1 3 40000 ++ steps_of_process 5 12 40000 ++ steps_of_process 6 12 40000 ++
  steps_of_process 4 12 40000 ++ steps_of_process 2 20 40500.

Definition settlers (s : System (T:=unit)) : list string :=
  omap (fun e => match e with LSettle _ w _ => Some w | _ => None end) (qs_log s).
Definition results_of (s : System (T:=unit)) : list (json * option string) :=
  omap (fun e => match e with LOutcome _ (AttemptCompleted _ r _ x) => Some (r, x) | _ => None end) (qs_log s).
Definition runners (s : System (T:=unit)) : list (string * json) :=
  omap (fun e => match e with LRun _ w _ _ r => Some (w, r) | _ => None end) (qs_log s).

Lemma late_worker_allowed : Forall allowed late_worker_events.
Proof. repeat (apply Forall_cons; split; [exact I|]). apply Forall_nil. exact I. Qed.

Lemma queued_results_are_computed_witness :
  let s := run_sample late_worker_events in
  runners s = [("w1", JNum 8); ("w0", JNum 107)] /\
  exists i (self : WorkerConfig unit) st registration,
    Some "w1" = Some (wc_workerId self) /\ LClaim i (wc_workerId self) st ∈ qs_log s /\
    LSettle i (wc_workerId self) st ∈ qs_log s /\ LRun i (wc_workerId self) st registration (JNum 8) ∈ qs_log s /\
    activeKey (ts_workflowId (sk_spec st)) (ts_stepName (sk_spec st)) = activeKey "wf" "a".
Proof.
  split; [vm_compute; reflexivity|].
  destruct (queued_results_are_computed sample_runner_host (fun _ _ => 0) None None "i" tt late_worker_events late_worker_allowed
    (sample_step "a") 1 (JNum 8) None (Some "w1")) as (i & self & st & g & p & H1 & H2 & H3 & H4 & H5 & H6 & H7 & H8 & H9 & H10 & H11 & H12 & _).
  - apply list_elem_of_lookup_2 with (i := 10%nat). vm_compute. reflexivity.
  - exists i, self, st, g. split; [exact H2|]. split; [exact H3|]. split; [exact H4|]. split; [exact H6|exact H12].
Defined.

Lemma tasks_settle_once_witness :
  let s := run_sample late_worker_events in
  settled_ids (qs_log s) = ["task-1"] /\ NoDup (settled_ids (qs_log s)).
Proof.
  split; [vm_compute; reflexivity|].
  apply (tasks_settle_once sample_runner_host (fun _ _ => 0) None None "i" tt late_worker_events). apply late_worker_allowed.
Defined.

(** ** What stalls and hooks do to a worker *)
(** The handlers a system is about to run. *)
Definition at_handler (pr : Process (T:=unit)) : bool :=
  match pr with
  | PrTask _ (PVis _ c _) => match c with CRun _ _ _ _ _ => true | _ => false end
  | _ => false
  end.
Definition handlers_running (s : System (T:=unit)) : nat := length (List.filter at_handler (map_to_list (qs_processes s)).*2).
Definition active_tasks (i : nat) (s : System (T:=unit)) : option nat := (fun m => length (jm_entries (wv_active (mb_vars m)))) <$> qs_workers s !! i.

(** A worker of concurrency 2 stalls, claims its own stale task anew and a
    third one: it runs three handlers, for two entries in [active]. *)
Definition own_stale_events : list (Event (T:=unit)) :=
  [EvWorker 0 (sample_worker "w0" 2 None) 1000; EvRegister 0 "a" (add_to_input 1); EvRegister 0 "b" (add_to_input 1);
   EvStart 0; EvAttempt sample_executor false (sample_step "a") 1 [] []] ++
  steps_of_process 1 6 100 ++ steps_of_process 0 3 100 ++ steps_of_process 2 12 100 ++ steps_of_process 3 3 100 ++
  [EvQueue 40000 (QRequeue (Stale 30000) None None)] ++ steps_of_process 2 12 40000 ++ steps_of_process 4 3 40000 ++
  [EvAttempt sample_executor false (sample_step "b") 1 [] []] ++ steps_of_process 5 6 40000 ++
  steps_of_process 2 12 40000 ++ steps_of_process 6 3 40000.

Lemma own_stale_task_exceeds_concurrency :
  handlers_running (run_sample own_stale_events) = 3%nat /\ active_tasks 0 (run_sample own_stale_events) = Some 2%nat.
Proof. vm_compute. split; reflexivity. Qed.

(** The end of the stale run takes the entry of the new run away. *)
Lemma stale_run_hides_new_run :
  let s := run_sample (own_stale_events ++ steps_of_process 3 12 40000 ++ steps_of_process 6 12 40000) in
  handlers_running s = 1%nat /\ active_tasks 0 s = Some 0%nat.
Proof. vm_compute. split; reflexivity. Qed.

(** A filter that throws leaves the tasks of its batch claimed, and nobody
    runs them. *)
Definition throwing_filter_events : list (Event (T:=unit)) :=
  [EvWorker 0 (sample_worker "w0" 1 (Some (fun _ t => (Throws (plain_error "filter"), t)))) 1000;
   EvRegister 0 "a" (add_to_input 1); EvStart 0; EvAttempt sample_executor false (sample_step "a") 1 [] []] ++
  steps_of_process 1 6 100 ++ steps_of_process 0 3 100 ++ steps_of_process 2 30 100.

Lemma throwing_filter_strands_claims :
  let s := run_sample throwing_filter_events in
  tk_status <$> q_tasks (qs_queue s) !! "task-1" = Some TRunning /\ active_tasks 0 s = Some 0%nat.
Proof. vm_compute. split; reflexivity. Qed.

(** [start] called twice before the worker is registered sets two
    intervals; [stop] clears one of them. *)
Definition registered_worker : WorkerConfig unit :=
  (createWorker "" (Some "w0") None None None None None true None None None None None None).1.
Definition double_start_events : list (Event (T:=unit)) :=
  [EvWorker 0 registered_worker 1000; EvStart 0; EvStart 0] ++ steps_of_process 0 1 100 ++ steps_of_process 1 1 100 ++
  steps_of_process 0 4 100 ++ steps_of_process 1 4 100 ++ [EvStop 0 None] ++ steps_of_process 3 1 100 ++
  steps_of_process 2 12 100 ++ steps_of_process 3 12 100.

Lemma double_start_leaks_interval :
  let s := run_sample double_start_events in
  wi_status <$> qs_registry s !! "w0" = Some WRetired /\ (fun m => length (wv_intervals (mb_vars m))) <$> qs_workers s !! 0%nat = Some 1%nat.
Proof. vm_compute. split; reflexivity. Qed.
