(* ===== verification/DurableScheduler.v ===== *)
(** The poll-based scheduler: [class DurableScheduler] of
    [scheduler/durable-scheduler.ts].

    A method is a program: a tree of calls of the storage, of the clock and
    of the instance's own variables, with what the code does for every
    answer. A program is split at every call, so what others do between two
    calls of it is a matter of who takes the next step. *)
From Stdlib Require Import QArith.
From S2P Require Import Prelude Leases LeaderLeases Json Journal RunState Storage Exits Retry Replay StepBody Checkpoint JournalStore MachineStorage SchedulerStorage Planning Programs.
Open Scope string_scope.
Open Scope list_scope.
Open Scope Z_scope.

Record SchedulerConfig : Type := mkSchedulerConfig {
  cf_instanceId : string;
  cf_pollIntervalMs : Z;
  cf_leaderLockTtlMs : Z;
  cf_namespace : option string;
  cf_batchSize : Z;
  cf_partition : option (Z * Z);
  cf_maxErrorBackoffMs : Z;
  cf_leaderKey : string;
}.

(** The constructor; [uuid] is the default instance id. *)
Definition newDurableScheduler (uuid : string) (instanceId : option string) (pollIntervalMs leaderLockTtlMs : option Z)
    (namespace : option string) (batchSize : option Z) (partition : option (Z * Z)) (maxErrorBackoffMs : option Z)
    : res thrown SchedulerConfig :=
  let poll := opt_or pollIntervalMs 1000 in
  let config := mkSchedulerConfig (opt_or instanceId uuid) poll (opt_or leaderLockTtlMs (poll * 3)) namespace
                  (opt_or batchSize 100) partition (Z.max (opt_or maxErrorBackoffMs 30000) poll)
                  (schedulerLeaderKey namespace partition) in
  match partition with
  | Some (index, count) =>
      if (count <? 1) || (index <? 0) || (count <=? index)
      then Err (plain_error ("Invalid partition: index=" +:+ str_of_Z index +:+ ", count=" +:+ str_of_Z count))
      else Ok config
  | None => Ok config
  end.

Inductive SchedulerErrorPhase : Type := PhPoll | PhCommit | PhSchedule | PhRelease.
Record SchedulerErrorEvent : Type := mkErrorEvent {
  ev_phase : SchedulerErrorPhase;
  ev_error : thrown;
  ev_scheduleId : option string;
}.

(** Ticks of one poll; [acked] is kept by the stream. *)
Record PollBatch : Type := mkPollBatch {
  pb_lease : option LeaderLease;
  pb_plans : list PlannedSchedule;
  pb_ticks : list ScheduleTick;
  pb_tickEnds : list Z;
}.

Inductive LoopState : Type :=
| LPoll (failures : nat)
| LEmit (batch : PollBatch) (index : nat).

Definition LoopStep : Type := option ScheduleTick * LoopState.

(** Variables of an instance, and of one of its streams: the batch that was
    emitted in part, with the number of its acknowledged ticks. *)
Record Instance : Type := mkInstance { in_heldLease : option LeaderLease; in_activeStreams : Z }.
Definition StreamVars : Type := option (PollBatch * nat).

(** ** Programs *)
Section programs.
Context {T : Type}.

Inductive call : Type -> Type :=
| CAcquire (key instanceId : string) (ttlMs : Z) : call (option LeaderLease)
| CReleaseLeader (lease : LeaderLease) : call unit
| CFindDue (now limit : Z) (namespace : option string) : call (list string)
| CLoadSchedule (id : string) : call (option DurableScheduleConfig)
| CLoadScheduleState (id : string) : call (option ScheduleState)
| CLoadSchedules (ids : list string) : call (jmap string DurableScheduleConfig)
| CLoadScheduleStates (ids : list string) : call (jmap string ScheduleState)
| CCommitPoll (updates : list ScheduleCommit) (lease : option LeaderLease) : call (list string)
| CUpsert (config : DurableScheduleConfig) : call unit
| CSetNextRun (id : string) (next : option Z) : call unit
| CSetEnabled (id : string) (enabled : bool) : call unit
| CDelete (id : string) : call unit
| CList (enabled : option bool) (namespace : option string) (limit offset : option Z) : call (list DurableScheduleConfig)
| CCount (enabled : option bool) (namespace : option string) : call Z
| CSleep (ms : Z) : call unit
| CReport (event : SchedulerErrorEvent) : call unit
| CHost {X : Type} (f : T -> outcome X * T) : call X
| CInstance {X : Type} (f : Instance -> X * Instance) : call X
| CStream {X : Type} (f : StreamVars -> X * StreamVars) : call X.
End programs.
Arguments call : clear implicits.
Abbreviation prog T := (Programs.prog (call T)).

Section scheduler.
Context `{Recurrence} {T : Type} (host : SchedulerHost T) (self : SchedulerConfig).

Abbreviation prog := (prog T).
Abbreviation call := (call T).

Definition p_now : prog Z := do_call (CHost (fun t => let '(n, t) := sh_now host t in (Ret n, t))).
Definition p_sync {X} (f : T -> outcome X * T) : prog X := do_call (CHost f).

(** [report]: a hook that throws is ignored. *)
Definition report (e : SchedulerErrorEvent) : prog unit := p_catch (do_call (CReport e)) (fun _ => PRet tt).

(** ** Management *)
Definition with_namespace (namespace : option string) (c : DurableScheduleConfig) : DurableScheduleConfig :=
  mkConfig (sc_id c) (sc_name c) namespace (sc_cron c) (sc_rrule c) (sc_intervalMs c) (sc_timezone c) (sc_enabled c)
    (sc_startAt c) (sc_endAt c) (sc_jitterMs c) (sc_metadata c) (sc_maxCatchUp c).

Definition register (config : DurableScheduleConfig) : prog unit :=
  do+ p_lift (validateScheduleConfig host config) in
  let namespace := opt_else (sc_namespace config) (cf_namespace self) in
  do+ do_call (CUpsert (with_namespace namespace config)) in
  if is_enabled config then
    let+ now := p_now in do_call (CSetNextRun (sc_id config) (Some now))
  else PRet tt.

(** The fields of a patch that are present. *)
Record SchedulePatch : Type := mkSchedulePatch {
  sp_name : option (option string);
  sp_namespace : option (option string);
  sp_cron : option (option string);
  sp_rrule : option (option string);
  sp_intervalMs : option (option Z);
  sp_timezone : option (option string);
  sp_enabled : option (option bool);
  sp_startAt : option (option Z);
  sp_endAt : option (option Z);
  sp_jitterMs : option (option Z);
  sp_metadata : option (option (list (string * json)));
  sp_maxCatchUp : option (option Z);
}.

Definition merge_patch (scheduleId : string) (c : DurableScheduleConfig) (p : SchedulePatch) : DurableScheduleConfig :=
  mkConfig scheduleId (opt_or (sp_name p) (sc_name c)) (opt_or (sp_namespace p) (sc_namespace c))
    (opt_or (sp_cron p) (sc_cron c)) (opt_or (sp_rrule p) (sc_rrule c)) (opt_or (sp_intervalMs p) (sc_intervalMs c))
    (opt_or (sp_timezone p) (sc_timezone c)) (opt_or (sp_enabled p) (sc_enabled c)) (opt_or (sp_startAt p) (sc_startAt c))
    (opt_or (sp_endAt p) (sc_endAt c)) (opt_or (sp_jitterMs p) (sc_jitterMs c)) (opt_or (sp_metadata p) (sc_metadata c))
    (opt_or (sp_maxCatchUp p) (sc_maxCatchUp c)).

Definition update (scheduleId : string) (patch : SchedulePatch) : prog unit :=
  let+ current := do_call (CLoadSchedule scheduleId) in
  match current with
  | None => PThrow (plain_error ("Cannot update schedule " +:+ quoted scheduleId +:+ " — does not exist"))
  | Some current =>
      let merged := merge_patch scheduleId current patch in
      do+ p_lift (validateScheduleConfig host merged) in
      do+ do_call (CUpsert merged) in
      if is_enabled merged then
        let+ next := p_sync (computeNextRun host merged) in do_call (CSetNextRun scheduleId next)
      else PRet tt
  end.

Definition unregister (scheduleId : string) : prog unit := do_call (CDelete scheduleId).
Definition pause (scheduleId : string) : prog unit := do_call (CSetEnabled scheduleId false).
Definition resume (scheduleId : string) : prog unit := do_call (CSetEnabled scheduleId true).

Definition list_ (enabled : option bool) (namespace : option string) (limit offset : option Z) : prog (list DurableScheduleConfig) :=
  do_call (CList enabled (opt_else namespace (cf_namespace self)) limit offset).
Definition count (enabled : option bool) (namespace : option string) : prog Z :=
  do_call (CCount enabled (opt_else namespace (cf_namespace self))).

Definition nextFireTimes (scheduleId : string) (n : Z) : prog (list Z) :=
  let+ config := do_call (CLoadSchedule scheduleId) in
  match config with
  | None => PRet []
  | Some config =>
      let+ state := match sc_intervalMs config with
                    | Some _ => do_call (CLoadScheduleState scheduleId)
                    | None => PRet None
                    end in
      let+ now := p_now in
      p_lift (previewFireTimes config (match state with Some s => ss_lastFired s | None => None end) n now)
  end.

(** ** Manual fires *)
Definition MANUAL_FIRE_ATTEMPTS : nat := 10.

Fixpoint manual_ticks (config : DurableScheduleConfig) (scheduleId : string) (state : ScheduleState) (now number : Z)
    (occurrences : list Z) : list ScheduleTick :=
  match occurrences with
  | [] => []
  | scheduledAt :: rest =>
      mkTick scheduleId (sc_name config) scheduledAt now (ss_incarnation state) number (sc_metadata config) ::
      manual_ticks config scheduleId state now (number + 1) rest
  end.

Definition manual_commit (scheduleId : string) (state : ScheduleState) (now : Z) (ticks : list ScheduleTick) : ScheduleCommit :=
  mkCommit scheduleId (Some now) (Some (Z.of_nat (length ticks))) None (Some (ss_tickCount state))
    (Some (ss_incarnation state)) None (Some ticks).

Fixpoint fire_attempts (attempts : nat) (scheduleId : string) (occurrences : DurableScheduleConfig -> prog (list Z))
    : prog (option (list ScheduleTick)) :=
  match attempts with
  | O =>
      PThrow (plain_error ("Schedule " +:+ quoted scheduleId +:+ ": tickCount kept changing; manual fire gave up after "
        +:+ str_of_Z (Z.of_nat MANUAL_FIRE_ATTEMPTS) +:+ " attempts"))
  | S attempts =>
      let+ config := do_call (CLoadSchedule scheduleId) in
      let+ state := do_call (CLoadScheduleState scheduleId) in
      match config, state with
      | Some config, Some state =>
          let+ times := occurrences config in
          match times with
          | [] => PRet (Some [])
          | _ =>
              let+ now := p_now in
              let ticks := manual_ticks config scheduleId state now (ss_tickCount state) times in
              let+ conflicts := do_call (CCommitPoll [manual_commit scheduleId state now ticks] None) in
              match conflicts with
              | [] => PRet (Some ticks)
              | _ => fire_attempts attempts scheduleId occurrences
              end
          end
      | _, _ => PRet None
      end
  end.

Definition fireManually (scheduleId : string) (occurrences : DurableScheduleConfig -> prog (list Z))
    : prog (option (list ScheduleTick)) := fire_attempts MANUAL_FIRE_ATTEMPTS scheduleId occurrences.

Definition triggerNow (scheduleId : string) : prog (option ScheduleTick) :=
  let+ ticks := fireManually scheduleId (fun _ => let+ now := p_now in PRet [now]) in
  PRet (match ticks with Some (t :: _) => Some t | _ => None end).

Definition backfill_times (from to : Z) (config : DurableScheduleConfig) : prog (list Z) :=
  match nonempty_str (sc_cron config), nonempty_str (sc_rrule config) with
  | Some c, _ => p_lift (backfillCron c (schedule_tz config) from to)
  | None, Some r => do+ p_lift (rrule_parse r) in PRet (rrule_between r from to false)
  | None, None => PRet []
  end.

Definition backfill (scheduleId : string) (from to : Z) : prog (list ScheduleTick) :=
  let+ ticks := fireManually scheduleId (backfill_times from to) in
  PRet (opt_or ticks []).

(** ** The poll *)
Definition emptyBatch : PollBatch := mkPollBatch None [] [] [].

Fixpoint tick_ends (n : Z) (plans : list PlannedSchedule) : list Z :=
  match plans with
  | [] => []
  | p :: plans => let n := n + Z.of_nat (length (pl_ticks p)) in n :: tick_ends n plans
  end.

Definition batch_of (lease : LeaderLease) (plans : list PlannedSchedule) : PollBatch :=
  mkPollBatch (Some lease) plans (flat_map pl_ticks plans) (tick_ends 0 plans).

Fixpoint report_errors (plans : list PlannedSchedule) : prog unit :=
  match plans with
  | [] => PRet tt
  | p :: plans =>
      do+ (if has_error p
           then report (mkErrorEvent PhSchedule (opt_or (pl_error p) (TValue JUndef)) (Some (pl_id p)))
           else PRet tt) in
      report_errors plans
  end.

Definition is_target (scheduleId : option string) (id : string) : bool :=
  if truthy_str scheduleId && negb (bool_decide (scheduleId = Some id)) then false
  else match cf_partition self with
       | Some (index, count) => schedulePartition id count =? index
       | None => true
       end.

Definition pollOnce (scheduleId : option string) : prog PollBatch :=
  let+ lease := do_call (CAcquire (cf_leaderKey self) (cf_instanceId self) (cf_leaderLockTtlMs self)) in
  do+ do_call (CInstance (fun i => (tt, mkInstance lease (in_activeStreams i)))) in
  match lease with
  | None => PRet emptyBatch
  | Some l =>
      let fetchLimit := cf_batchSize self * match cf_partition self with Some (_, count) => count | None => 1 end in
      let+ now := p_now in
      let+ dueIds := do_call (CFindDue now fetchLimit (cf_namespace self)) in
      let targetIds := js_slice (List.filter (is_target scheduleId) dueIds) 0 (Some (cf_batchSize self)) in
      match targetIds with
      | [] => PRet emptyBatch
      | _ =>
          let+ configs := do_call (CLoadSchedules targetIds) in
          let+ states := do_call (CLoadScheduleStates targetIds) in
          let+ plans := p_sync (planDueTicks host targetIds configs states) in
          do+ report_errors plans in
          PRet (batch_of l plans)
      end
  end.

(** ** The commit *)
Fixpoint disable_errors (plans : list PlannedSchedule) : prog unit :=
  match plans with
  | [] => PRet tt
  | p :: plans =>
      do+ (if has_error p then do_call (CSetEnabled (pl_id p) false) else PRet tt) in
      disable_errors plans
  end.

Definition commitPlannedSchedules (plans : list PlannedSchedule) (lease : option LeaderLease) : prog (list string) :=
  match plans with
  | [] => PRet []
  | _ =>
      let+ result := do_call (CCommitPoll (pl_commit <$> plans) lease) in
      do+ disable_errors plans in
      PRet result
  end.

(** The plans whose ticks are all acknowledged, and those without ticks. *)
Definition ready_plans (batch : PollBatch) (acked : nat) : list PlannedSchedule :=
  omap (fun '(p, tick_end) =>
    if bool_decide (pl_ticks p = []) || (tick_end <=? Z.of_nat acked) then Some p else None)
    (zip (pb_plans batch) (pb_tickEnds batch)).

Definition commitEff (batch : PollBatch) (acked : nat) : prog unit :=
  match ready_plans batch acked with
  | [] => PRet tt
  | ready =>
      p_catch (do+ commitPlannedSchedules ready (pb_lease batch) in PRet tt)
        (fun error => report (mkErrorEvent PhCommit error None))
  end.

(** ** The stream *)
Definition pollEff (scheduleId : option string) : prog (option PollBatch) :=
  p_catch (let+ b := pollOnce scheduleId in PRet (Some b))
    (fun error => do+ report (mkErrorEvent PhPoll error None) in PRet None).

Definition errorBackoffMs (failures : nat) : Z :=
  Z.min (cf_maxErrorBackoffMs self) (cf_pollIntervalMs self * 2 ^ Z.of_nat failures).

Definition afterBatch (batch : PollBatch) : prog LoopStep :=
  do+ commitEff batch (length (pb_ticks batch)) in
  do+ do_call (CSleep (cf_pollIntervalMs self)) in
  PRet (None, LPoll 0).

Definition set_open (o : StreamVars) : prog unit := do_call (CStream (fun _ => (tt, o))).

(** One step of the stream. Being pulled at an index means that the consumer
    is done with the tick before it. *)
Definition loop_step (scheduleId : option string) (state : LoopState) : prog LoopStep :=
  match state with
  | LEmit batch index =>
      do+ set_open (Some (batch, index)) in
      match pb_ticks batch !! index with
      | Some tick => PRet (Some tick, LEmit batch (S index))
      | None => do+ set_open None in afterBatch batch
      end
  | LPoll failures =>
      let+ result := pollEff scheduleId in
      match result with
      | None =>
          do+ do_call (CSleep (errorBackoffMs (S failures))) in
          PRet (None, LPoll (S failures))
      | Some batch =>
          match pb_ticks batch with
          | [] => afterBatch batch
          | tick :: _ =>
              do+ set_open (Some (batch, O)) in
              PRet (Some tick, LEmit batch 1)
          end
      end
  end.

Definition releaseEff : prog unit :=
  let+ lease := do_call (CInstance (fun i => (in_heldLease i, mkInstance None (in_activeStreams i)))) in
  match lease with
  | None => PRet tt
  | Some l => p_catch (do_call (CReleaseLeader l)) (fun error => report (mkErrorEvent PhRelease error None))
  end.

(** On stop: commit what was acknowledged, then hand over the lease. *)
Definition finalize : prog unit :=
  let+ batch := do_call (CStream (fun v => (v, None))) in
  do+ match batch with Some (b, acked) => commitEff b acked | None => PRet tt end in
  let+ active := do_call (CInstance (fun i => let n := in_activeStreams i - 1 in (n, mkInstance (in_heldLease i) n))) in
  if active =? 0 then releaseEff else PRet tt.

Definition start_stream : prog unit :=
  do_call (CInstance (fun i => (tt, mkInstance (in_heldLease i) (in_activeStreams i + 1)))).
End scheduler.
