(* ===== verification/SchedulerSystem.v ===== *)
(** Schedulers at work: any number of [DurableScheduler] instances over one
    [InMemorySchedulerStorage], with their streams, consumers and callers
    ([scheduler/durable-scheduler.ts]).

    An event lets one process take its next call, a consumer pull or stop, a
    process die, a storage call fail before or after its effect, or somebody
    else write to the storage. What consumers acknowledged and what manual
    fires recorded is kept beside the storage. *)
From Stdlib Require Import QArith.
From S2P Require Import Prelude Leases LeaderLeases Json Journal RunState Storage Exits Retry Replay StepBody Checkpoint JournalStore MachineStorage SchedulerStorage Planning Programs DurableScheduler.
Open Scope string_scope.
Open Scope list_scope.
Open Scope Z_scope.

(** A tick: schedule, incarnation, number. *)
Definition TickKey : Type := string * string * Z.
Definition key_of (t : ScheduleTick) : TickKey := (ti_scheduleId t, ti_incarnation t, ti_tickNumber t).

Section system.
Context `{Recurrence} {T : Type} (host : SchedulerHost T).

(** ** One call *)
Record Local : Type := mkLocal {
  lo_store : InMemorySchedulerStorage;
  lo_host : T;
  lo_instance : Instance;
  lo_vars : StreamVars;
}.

Definition on_store (f : InMemorySchedulerStorage -> InMemorySchedulerStorage) (l : Local) : outcome unit * Local :=
  (Ret tt, mkLocal (f (lo_store l)) (lo_host l) (lo_instance l) (lo_vars l)).

(** [now] is the clock of the storage, [fresh] the token of a new
    incarnation. *)
Definition perform {X} (now : Z) (fresh : string) (c : call T X) (l : Local) : outcome X * Local :=
  match c in call _ X return outcome X * Local with
  | CAcquire key instanceId ttlMs =>
      let '(lease, store) := tryAcquireLeader now key instanceId ttlMs (lo_store l) in
      (Ret lease, mkLocal store (lo_host l) (lo_instance l) (lo_vars l))
  | CReleaseLeader lease => on_store (releaseLeader now lease) l
  | CFindDue at_ limit namespace => (Ret (findDue at_ limit namespace (lo_store l)), l)
  | CLoadSchedule id => (Ret (loadSchedule id (lo_store l)), l)
  | CLoadScheduleState id => (Ret (loadScheduleState id (lo_store l)), l)
  | CLoadSchedules ids => (Ret (loadSchedules ids (lo_store l)), l)
  | CLoadScheduleStates ids => (Ret (loadScheduleStates ids (lo_store l)), l)
  | CCommitPoll updates lease =>
      match commitPoll updates lease (lo_store l) with
      | (Ok conflicts, store) => (Ret conflicts, mkLocal store (lo_host l) (lo_instance l) (lo_vars l))
      | (Err e, store) => (Throws (store_error e), mkLocal store (lo_host l) (lo_instance l) (lo_vars l))
      end
  | CUpsert config => on_store (upsertSchedule now fresh config) l
  | CSetNextRun id next => on_store (setNextRun id next) l
  | CSetEnabled id enabled => on_store (setEnabled now id enabled) l
  | CDelete id => on_store (deleteSchedule id) l
  | CList enabled namespace limit offset => (Ret (listSchedules enabled namespace None limit offset (lo_store l)), l)
  | CCount enabled namespace => (Ret (countSchedules enabled namespace None (lo_store l)), l)
  | CSleep _ => (Ret tt, l)
  | CReport _ => (Ret tt, l)
  | CHost f => let '(o, t) := f (lo_host l) in (o, mkLocal (lo_store l) t (lo_instance l) (lo_vars l))
  | CInstance f => let '(x, i) := f (lo_instance l) in (Ret x, mkLocal (lo_store l) (lo_host l) i (lo_vars l))
  | CStream f => let '(x, v) := f (lo_vars l) in (Ret x, mkLocal (lo_store l) (lo_host l) (lo_instance l) v)
  end.

(** Calls that leave the process may fail. *)
Definition may_fail {X} (c : call T X) : bool :=
  match c with CHost _ | CInstance _ | CStream _ => false | _ => true end.

(** The numbers a manual fire records: a commit without a lease that went
    through. *)
Definition entry_keys (u : ScheduleCommit) : list TickKey :=
  match su_expectedTickCount u, su_expectedIncarnation u, su_tickIncrement u with
  | Some c, Some i, Some n => (fun m => (su_id u, i, m)) <$> seqZ c n
  | _, _, _ => []
  end.

Definition manual_keys {X} (c : call T X) (store : InMemorySchedulerStorage) : list TickKey :=
  match c with
  | CCommitPoll updates None =>
      match commitPoll updates None store with
      | (Ok [], _) => flat_map entry_keys updates
      | _ => []
      end
  | _ => []
  end.

(** ** Processes *)
Inductive Phase : Type :=
| SIdle (state : LoopState)
| SRun (p : prog T LoopStep)
| SEnd (p : prog T unit).

(** A stream has the schedule it follows; a method call, or what is left of
    an interrupted one, has none. *)
Record Process : Type := mkProcess {
  pr_instance : nat;
  pr_schedule : option string;
  pr_vars : StreamVars;
  pr_phase : Phase;
}.

Record System : Type := mkSystem {
  sy_store : InMemorySchedulerStorage;
  sy_host : T;
  sy_instances : gmap nat (SchedulerConfig * Instance);
  sy_processes : gmap nat Process;
  sy_emitted : list TickKey;
  sy_acked : list TickKey;
  sy_manual : list TickKey;
}.

Definition set_process (pid : nat) (p : option Process) (s : System) : System :=
  mkSystem (sy_store s) (sy_host s) (sy_instances s)
    (match p with Some p => <[pid := p]> (sy_processes s) | None => delete pid (sy_processes s) end)
    (sy_emitted s) (sy_acked s) (sy_manual s).

Definition set_phase (p : Process) (ph : Phase) : Process := mkProcess (pr_instance p) (pr_schedule p) (pr_vars p) ph.

(** The next call of a program. A failing call throws [e], its effect done
    or not; a call that never returns ends the process. *)
Definition take_step {A} (now : Z) (fresh : string) (fault : option (bool * thrown)) (p : prog T A) (l : Local)
    : option (prog T A) * Local * list TickKey :=
  match p with
  | PVis _ c k =>
      let '(o, l') := perform now fresh c l in
      match fault with
      | Some (applied, e) =>
          if may_fail c then
            if applied : bool then (Some (k (Err e)), l', manual_keys c (lo_store l)) else (Some (k (Err e)), l, [])
          else (Some p, l, [])
      | None =>
          match o with
          | Ret x => (Some (k (Ok x)), l', manual_keys c (lo_store l))
          | Throws e => (Some (k (Err e)), l', manual_keys c (lo_store l))
          | Died => (None, l', manual_keys c (lo_store l))
          end
      end
  | _ => (Some p, l, [])
  end.

(** A stream whose step has ended: it has a tick for its consumer, or goes
    on, or fails. *)
Definition settle (self : SchedulerConfig) (pr : Process) : option Process * list TickKey :=
  match pr_phase pr with
  | SRun (PRet (Some tick, state)) => (Some (set_phase pr (SIdle state)), [key_of tick])
  | SRun (PRet (None, state)) => (Some (set_phase pr (SRun (loop_step host self (pr_schedule pr) state))), [])
  | SRun (PThrow _) => (Some (set_phase pr (SEnd finalize)), [])
  | SEnd (PRet _) | SEnd (PThrow _) => (None, [])
  | _ => (Some pr, [])
  end.

(** ** Events *)
Inductive Method : Type :=
| MRegister (config : DurableScheduleConfig)
| MUpdate (scheduleId : string) (patch : SchedulePatch)
| MUnregister (scheduleId : string)
| MPause (scheduleId : string)
| MResume (scheduleId : string)
| MTriggerNow (scheduleId : string)
| MBackfill (scheduleId : string) (from to : Z)
| MNextFireTimes (scheduleId : string) (n : Z).

Definition method_prog (self : SchedulerConfig) (m : Method) : prog T unit :=
  match m with
  | MRegister config => register host self config
  | MUpdate id patch => update host id patch
  | MUnregister id => unregister id
  | MPause id => pause id
  | MResume id => resume id
  | MTriggerNow id => do+ triggerNow host id in PRet tt
  | MBackfill id from to => do+ backfill host id from to in PRet tt
  | MNextFireTimes id n => do+ nextFireTimes host id n in PRet tt
  end.

Inductive Event : Type :=
| EvInstance (i : nat) (config : SchedulerConfig)
| EvStream (pid i : nat) (scheduleId : option string)
| EvCall (pid i : nat) (m : Method)
| EvPull (pid : nat)
| EvStep (pid : nat) (now : Z) (fresh : string) (fault : option (bool * thrown))
| EvStop (pid rest : nat)
| EvCrash (pid : nat)
| EvForeign (now : Z) (op : scheduler_op).

(** The tick a consumer is done with when it pulls again. *)
Definition acknowledged (state : LoopState) : list TickKey :=
  match state with
  | LEmit batch (S i) => match pb_ticks batch !! i with Some t => [key_of t] | None => [] end
  | _ => []
  end.

Definition step_process (pid : nat) (now : Z) (fresh : string) (fault : option (bool * thrown)) (pr : Process)
    (self : SchedulerConfig) (inst : Instance) (s : System) : System :=
  let l := mkLocal (sy_store s) (sy_host s) inst (pr_vars pr) in
  let '(ph, l', manual) :=
    match pr_phase pr with
    | SIdle st => (Some (SIdle st), l, [])
    | SRun p => let '(p', l', m) := take_step now fresh fault p l in (SRun <$> p', l', m)
    | SEnd p => let '(p', l', m) := take_step now fresh fault p l in (SEnd <$> p', l', m)
    end in
  let '(pr', emitted) :=
    match ph with
    | Some ph => settle self (mkProcess (pr_instance pr) (pr_schedule pr) (lo_vars l') ph)
    | None => (None, [])
    end in
  set_process pid pr'
    (mkSystem (lo_store l') (lo_host l') (<[pr_instance pr := (self, lo_instance l')]> (sy_instances s)) (sy_processes s)
       (sy_emitted s ++ emitted) (sy_acked s) (sy_manual s ++ manual)).

Definition system_step (e : Event) (s : System) : System :=
  match e with
  | EvInstance i config =>
      if bool_decide (is_Some (sy_instances s !! i)) then s
      else mkSystem (sy_store s) (sy_host s) (<[i := (config, mkInstance None 0)]> (sy_instances s)) (sy_processes s)
        (sy_emitted s) (sy_acked s) (sy_manual s)
  | EvStream pid i scheduleId =>
      match sy_instances s !! i with
      | Some (self, inst) =>
          set_process pid (Some (mkProcess i scheduleId None (SIdle (LPoll 0))))
            (mkSystem (sy_store s) (sy_host s)
               (<[i := (self, mkInstance (in_heldLease inst) (in_activeStreams inst + 1))]> (sy_instances s))
               (sy_processes s) (sy_emitted s) (sy_acked s) (sy_manual s))
      | None => s
      end
  | EvCall pid i m =>
      match sy_instances s !! i with
      | Some (self, _) => set_process pid (Some (mkProcess i None None (SEnd (method_prog self m)))) s
      | None => s
      end
  | EvPull pid =>
      match sy_processes s !! pid with
      | Some (mkProcess i sid vars (SIdle state)) =>
          match sy_instances s !! i with
          | Some (self, _) =>
              set_process pid (Some (mkProcess i sid vars (SRun (loop_step host self sid state))))
                (mkSystem (sy_store s) (sy_host s) (sy_instances s) (sy_processes s) (sy_emitted s)
                   (sy_acked s ++ acknowledged state) (sy_manual s))
          | None => s
          end
      | _ => s
      end
  | EvStep pid now fresh fault =>
      match sy_processes s !! pid with
      | Some pr =>
          match sy_instances s !! pr_instance pr with
          | Some (self, inst) => step_process pid now fresh fault pr self inst s
          | None => s
          end
      | None => s
      end
  | EvStop pid rest =>
      match sy_processes s !! pid with
      | Some pr =>
          match pr_phase pr with
          | SIdle _ => set_process pid (Some (set_phase pr (SEnd finalize))) s
          | SRun p =>
              (** the call under way goes on without the stream *)
              set_process pid (Some (set_phase pr (SEnd finalize)))
                (set_process rest (Some (set_phase pr (SEnd (do+ p in PRet tt)))) s)
          | SEnd _ => s
          end
      | None => s
      end
  | EvCrash pid => set_process pid None s
  | EvForeign now op =>
      mkSystem (run_scheduler_op now op (sy_store s)) (sy_host s) (sy_instances s) (sy_processes s)
        (sy_emitted s) (sy_acked s) (sy_manual s)
  end.

Definition run_system : list Event -> System -> System := fold_left (fun s e => system_step e s).

Definition initial_system (t : T) : System := mkSystem new_scheduler t ∅ ∅ [] [] [].
End system.
