(* ===== verification/SchedulerDelivery.v ===== *)
(** Why no tick number is lost: a poll counts a tick only after its consumer
    acknowledged it ([scheduler/durable-scheduler.ts], class docs). *)
From Stdlib Require Import QArith.
From S2P Require Import Prelude Leases LeaderLeases Json Journal RunState Storage Exits Retry Replay StepBody Checkpoint JournalStore MachineStorage SchedulerStorage Planning Programs DurableScheduler SchedulerSystem.
Open Scope string_scope.
Open Scope list_scope.
Open Scope Z_scope.

Section delivery.
Context `{Recurrence} {T : Type} (host : SchedulerHost T).
Implicit Types (D : list TickKey) (u : ScheduleCommit) (b : PollBatch) (pl : PlannedSchedule).

(** ** Commits *)
(** An entry that advances a schedule over the numbers it names only. *)
Definition numbered u : Prop :=
  su_tickIncrement u = None \/
  exists c i n, su_expectedTickCount u = Some c /\ su_expectedIncarnation u = Some i /\ su_tickIncrement u = Some n.

(** All of them in [D]. *)
Definition update_ok D u : Prop := numbered u /\ entry_keys u ⊆ D.

Lemma update_ok_mono D D' u : D ⊆ D' -> update_ok D u -> update_ok D' u.
Proof. intros HD [Hn Hk]. split; [done|]. by etrans. Qed.

Definition counted D (s : InMemorySchedulerStorage) : Prop :=
  forall id st, sched_state s !! id = Some st -> 0 <= ss_tickCount st /\
    forall n, 0 <= n < ss_tickCount st -> (id, ss_incarnation st, n) ∈ D.

Lemma counted_mono D D' s : D ⊆ D' -> counted D s -> counted D' s.
Proof. intros HD Hc id st Hst. destruct (Hc id st Hst) as [H0 Hn]. split; [done|]. intros n Hr. by apply HD, Hn. Qed.

Lemma counted_put D s id st m : counted D s -> sched_state m = <[id := st]> (sched_state s) ->
  (0 <= ss_tickCount st /\ forall n, 0 <= n < ss_tickCount st -> (id, ss_incarnation st, n) ∈ D) -> counted D m.
Proof.
  intros Hc Hm Hst id' st'. rewrite Hm, jlookup_insert. case_decide as Hid; [|apply Hc]. intros [= <-]. by subst id'.
Qed.

Lemma committed_count D u st : conflicting u (Some st) = false -> update_ok D u ->
  (0 <= ss_tickCount st /\ forall n, 0 <= n < ss_tickCount st -> (su_id u, ss_incarnation st, n) ∈ D) ->
  0 <= ss_tickCount (committed_state u st) /\
  forall n, 0 <= n < ss_tickCount (committed_state u st) -> (su_id u, ss_incarnation (committed_state u st), n) ∈ D.
Proof.
  intros Hc [Hn Hk] [H0 Hall].
  assert (ss_incarnation (committed_state u st) = ss_incarnation st) as -> by apply committed_state_forward.
  assert (ss_tickCount (committed_state u st) = ss_tickCount st \/
    exists n, su_tickIncrement u = Some n /\ 0 < n /\ ss_tickCount (committed_state u st) = ss_tickCount st + n) as [->|(n & Hi & Hpos & ->)].
  { unfold committed_state. destruct (su_firedAt u); [|left; by destruct (su_lastError u)].
    destruct (su_tickIncrement u) as [n|]; [|left; by destruct (su_lastError u)].
    destruct (n >? 0) eqn:E; [right; exists n|left]; destruct (su_lastError u); cbn; repeat split; lia. }
  { done. }
  split; [lia|]. intros m Hm. destruct (decide (m < ss_tickCount st)); [apply Hall; lia|].
  destruct Hn as [Hn|(c & i & n' & Hec & Hei & Hin)]; [congruence|]. assert (n' = n) as -> by congruence.
  unfold conflicting, guarded in Hc. rewrite Hec, Hei in Hc. rewrite (bool_decide_true (Some c <> None)) in Hc by done.
  cbn [orb andb] in Hc. apply orb_false_iff in Hc as [Hc1%bool_decide_eq_false Hc2%bool_decide_eq_false].
  apply dec_stable in Hc1, Hc2. apply Hk. unfold entry_keys. rewrite Hec, Hei, Hi. apply list_elem_of_fmap.
  exists m. rewrite Hc2. split; [done|]. apply elem_of_seqZ. lia.
Qed.

Lemma commit_one_counted D acc u : counted D acc.2 -> update_ok D u -> counted D (commit_one acc u).2.
Proof.
  intros Hc Hu. destruct (commit_one_state acc u) as [Hs|(st & Hst & Hcf & Hs)].
  - intros id st. rewrite Hs. apply Hc.
  - eapply counted_put; [exact Hc|exact Hs|]. apply committed_count; [done|done|]. by apply Hc.
Qed.

Lemma commit_fold_counted D us acc : counted D acc.2 -> Forall (update_ok D) us -> counted D (foldl commit_one acc us).2.
Proof.
  revert acc. induction us as [|u us IH]; intros acc Hc Hus; [done|]. apply Forall_cons in Hus as [Hu Hus].
  apply IH; [by apply commit_one_counted|done].
Qed.

Lemma commitPoll_counted D us lease s : counted D s -> Forall (update_ok D) us -> counted D (commitPoll us lease s).2.
Proof.
  intros Hc Hus. unfold commitPoll. destruct (match lease with Some _ => _ | None => _ end); [|done].
  pose proof (commit_fold_counted D us ([], s) Hc Hus) as Hf. by destruct (foldl commit_one ([], s) us).
Qed.

(** A conflict leaves the storage as it is. *)
Lemma commit_one_conflict u s : (commit_one ([], s) u).1 = [] \/ (commit_one ([], s) u).2 = s.
Proof.
  unfold commit_one. destruct (conflicting u _); [by right|]. left.
  destruct (schedules s !! su_id u); [|done]. case_bool_decide; [done|]. by destruct (sched_state s !! su_id u).
Qed.

Lemma commitPoll_conflict u lease s : (commitPoll [u] lease s).1 <> Ok [] -> (commitPoll [u] lease s).2 = s.
Proof.
  unfold commitPoll. destruct (match lease with Some _ => _ | None => _ end); [|done]. cbn [foldl].
  pose proof (commit_one_conflict u s) as Hc. destruct (commit_one ([], s) u) as [c s']. cbn in *.
  intros Hne. by destruct Hc as [-> | ->].
Qed.

(** Writes that do not count. *)
Definition uncounting (op : scheduler_op) : Prop :=
  match op with SRecordFire _ _ _ | SCommitPoll _ _ => False | _ => True end.

Lemma counted_same D s m : sched_state m = sched_state s -> counted D s -> counted D m.
Proof. intros Hm Hc id st. rewrite Hm. apply Hc. Qed.

Lemma counted_upsert D now fresh cfg s : counted D s -> counted D (upsertSchedule now fresh cfg s).
Proof.
  intros Hc. eapply counted_put; [exact Hc|apply upsert_sched_state|].
  destruct (sched_state s !! sc_id cfg) as [st|] eqn:Est; cbn; [by apply Hc|]. split; [done|]. intros n. lia.
Qed.

Lemma counted_foreign D now op s : uncounting op -> counted D s -> counted D (run_scheduler_op now op s).
Proof.
  intros Hop Hc. destruct op; cbn [run_scheduler_op]; try done.
  - by destruct next.
  - by apply counted_upsert.
  - unfold insertSchedule. case_match; [done|]. by apply counted_upsert.
  - intros id' st. cbn. rewrite jlookup_delete. case_decide; [done|apply Hc].
  - unfold setEnabled, seedNextRun. destruct (schedules s !! id); [|done]. eapply counted_same; [|exact Hc]. by repeat case_match.
Qed.

(** ** Batches *)
Definition tick_keys (ts : list ScheduleTick) : list TickKey := key_of <$> ts.

(** A plan counts its own ticks and nothing else. *)
Definition plan_ok pl : Prop :=
  su_id (pl_commit pl) = pl_id pl /\ numbered (pl_commit pl) /\ entry_keys (pl_commit pl) = tick_keys (pl_ticks pl).

Definition batch_ok b : Prop := b = emptyBatch \/ exists l plans, b = batch_of l plans /\ Forall plan_ok plans.

(** The first [n] ticks of a batch are acknowledged. *)
Definition acked_upto D b (n : nat) : Prop := tick_keys (take n (pb_ticks b)) ⊆ D.

Definition vars_ok D (v : StreamVars) : Prop :=
  match v with Some (b, n) => batch_ok b /\ acked_upto D b n | None => True end.

Lemma acked_mono D D' b n : D ⊆ D' -> acked_upto D b n -> acked_upto D' b n.
Proof. unfold acked_upto. by intros HD ->. Qed.

Lemma vars_mono D D' v : D ⊆ D' -> vars_ok D v -> vars_ok D' v.
Proof. intros HD. destruct v as [[b n]|]; [|done]. intros [Hb Ha]. split; [done|by eapply acked_mono]. Qed.

Lemma tick_ends_covered plans : forall n pl e,
  (pl, e) ∈ zip plans (tick_ends n plans) -> forall t, t ∈ pl_ticks pl ->
  t ∈ take (Z.to_nat (e - n)) (flat_map pl_ticks plans).
Proof.
  induction plans as [|p plans IH]; intros n pl e; cbn [tick_ends zip_with flat_map]; [intros Hin; by apply not_elem_of_nil in Hin|].
  intros [[= -> ->]|Hin]%elem_of_cons t Ht.
  - rewrite Z.add_simpl_l, Nat2Z.id, take_app_length. done.
  - specialize (IH _ _ _ Hin t Ht). rewrite take_app. apply elem_of_app. right.
    replace (Z.to_nat (e - n) - length (pl_ticks p))%nat with (Z.to_nat (e - (n + Z.of_nat (length (pl_ticks p))))); [done|lia].
Qed.

Lemma ready_ok D b n : batch_ok b -> acked_upto D b n -> Forall (update_ok D) (pl_commit <$> ready_plans b n).
Proof.
  intros [->|(l & plans & -> & Hall)] Ha; [by apply Forall_nil|]. apply Forall_fmap, Forall_forall.
  intros pl Hin. unfold ready_plans in Hin. cbn [pb_plans pb_tickEnds batch_of] in Hin.
  apply list_elem_of_omap in Hin as ([p e] & Hz & Hr). cbn beta iota in Hr.
  destruct (bool_decide (pl_ticks p = []) || (e <=? Z.of_nat n)) eqn:Hcond; [|done]. injection Hr as ->.
  rewrite Forall_forall in Hall. destruct (Hall pl) as (_ & Hn & Hk); [by apply elem_of_zip_l in Hz|].
  split; [done|]. cbn. rewrite Hk. apply orb_true_iff in Hcond as [Hc%bool_decide_eq_true|Hc%Z.leb_le].
  - rewrite Hc. by apply list_subseteq_nil.
  - intros k (t & -> & Ht)%list_elem_of_fmap. apply Ha. apply list_elem_of_fmap_2. cbn [pb_ticks batch_of].
    pose proof (tick_ends_covered plans 0 pl e Hz t Ht) as Hcov. rewrite Z.sub_0_r in Hcov.
    apply elem_of_take in Hcov as (j & Hj & Hlt). apply elem_of_take. exists j. split; [done|lia].
Qed.

(** ** Safe programs *)
Definition call_ok {X} D (c : call T X) : Prop :=
  match c with
  | CCommitPoll us (Some _) => Forall (update_ok D) us
  | CCommitPoll us None => exists u, us = [u] /\ numbered u
  | CStream f => forall v, vars_ok D v -> vars_ok D (f v).2
  | _ => True
  end.

(** What a call may answer. *)
Definition answer_ok {X} D (c : call T X) : res thrown X -> Prop :=
  match c in call _ X return res thrown X -> Prop with
  | CLoadSchedules _ => fun r => forall m id cfg, r = Ok m -> m !! id = Some cfg -> sc_id cfg = id
  | CLoadSchedule id => fun r => forall cfg, r = Ok (Some cfg) -> sc_id cfg = id
  | CHost f => fun r => match r with Ok x => exists t t', f t = (Ret x, t') | Err e => exists t t', f t = (Throws e, t') end
  | CStream f => fun r => match r with Ok x => exists v, vars_ok D v /\ x = (f v).1 | Err _ => False end
  | _ => fun _ => True
  end.

#[global] Instance scheduler_contract : Contract (call T) (list TickKey) := {
  grows := (⊆);
  needs D X c := call_ok D c;
  tells D X c r := answer_ok D c r;
}.

(** ** Plans count their ticks *)
Lemma keys_of_ticks id inc (ts : list ScheduleTick) :
  Forall (fun t => ti_scheduleId t = id /\ ti_incarnation t = inc) ts ->
  tick_keys ts = (fun m => (id, inc, m)) <$> (ti_tickNumber <$> ts).
Proof.
  induction ts as [|t ts IH]; [done|]. intros [[<- <-] Hall]%Forall_cons. cbn. by rewrite <- IH.
Qed.

Lemma computed_ticks config last n inc (t t' : T) ticks : computeDueTicks host config last n inc t = (Ret ticks, t') ->
  ti_tickNumber <$> ticks = seqZ n (Z.of_nat (length ticks)) /\
  Forall (fun k => ti_scheduleId k = sc_id config /\ ti_incarnation k = inc) ticks.
Proof.
  unfold computeDueTicks, makeTick, clock_now, a_bind, a_sync, a_ret. destruct (sh_now host t) as [now t1].
  destruct (not_started config now); [by intros [= <- _]|]. destruct (ended config now); [by intros [= <- _]|].
  destruct last as [last|].
  - destruct (occurrences_of config now last (catch_up_limit config) t1) as [[times|e|] t2]; [|done|done].
    destruct (make_ticks_spec host config inc times n t2) as (ts & t3 & E & Hs & Hn & Hi). rewrite E. intros [= <- _].
    rewrite <- Hs, length_fmap in Hn. done.
  - destruct (sh_now host t1) as [at_ t2]. intros [= <- _]. cbn. split; [done|]. by repeat constructor.
Qed.

Lemma drop_plan_ok id : plan_ok (drop_plan id).
Proof. split; [done|]. split; [by left|done]. Qed.

Lemma plan_live_ok id config state (t t' : T) pl : sc_id config = id ->
  plan_live host id config state t = (Ret pl, t') -> plan_ok pl.
Proof.
  intros Hid. unfold plan_live, a_catch, clock_now, a_bind, a_sync, a_ret.
  assert (forall e t1, (let (o, s) := let '(a, s) := sh_now host t1 in (Ret a, s) in
      match o with
      | Ret a => (Ret (mkPlan id [] (error_commit id state (thrown_message host e) a) (Some e)), s)
      | Throws e => (Throws e, s) | Died => (Died, s) end) = (Ret pl, t') -> plan_ok pl) as Herr.
  { intros e t1. destruct (sh_now host t1) as [a t2]. intros [= <- _]. split; [done|]. split; [by left|done]. }
  destruct (computeDueTicks host config (ss_lastFired state) (ss_tickCount state) (ss_incarnation state) t) as [[due|e|] t1] eqn:Ed;
    [|apply Herr|done].
  destruct (computeNextRun host config t1) as [[next|e|] t2]; [|apply Herr|done].
  destruct (jitterNextRun host config next t2) as [[delayed|e|] t3]; [|apply Herr|done].
  intros [= <- _]. destruct (computed_ticks _ _ _ _ _ _ _ Ed) as [Hn Hi]. rewrite Hid in Hi.
  unfold plan_ok, tick_commit. cbn [pl_commit pl_ticks pl_id]. rewrite (keys_of_ticks id _ _ Hi), Hn.
  destruct (last due) as [l|] eqn:El.
  - split; [done|]. split; [right; by eexists _, _, _|done].
  - apply last_None in El as ->. split; [done|]. split; [by left|done].
Qed.

Lemma planned_ok ids configs states : (forall id cfg, configs !! id = Some cfg -> sc_id cfg = id) ->
  forall (t t' : T) plans, planDueTicks host ids configs states t = (Ret plans, t') -> Forall plan_ok plans.
Proof.
  intros Hc. induction ids as [|id ids IH]; intros t t' plans; cbn [planDueTicks]; [intros [= <- _]; constructor|].
  unfold a_bind. destruct (plan_one host configs states id t) as [[pl|e|] t1] eqn:E1; [|done|done].
  destruct (planDueTicks host ids configs states t1) as [[ps|e|] t2] eqn:E2; [|done|done]. intros [= <- _].
  constructor; [|by apply (IH _ _ _ E2)]. revert E1. unfold plan_one.
  destruct (configs !! id) as [config|] eqn:Ec; [|intros [= <- _]; apply drop_plan_ok].
  destruct (states !! id) as [state|]; [|intros [= <- _]; apply drop_plan_ok].
  destruct (is_enabled config); [|intros [= <- _]; apply drop_plan_ok]. apply plan_live_ok. by apply Hc.
Qed.

(** ** Every program of a scheduler is safe *)
Context (self : SchedulerConfig).

Lemma safe_report D e : safe any D (report (T:=T) e).
Proof. apply safe_catch; [by apply safe_plain|done]. Qed.

Lemma safe_report_errors D plans : safe any D (report_errors (T:=T) plans).
Proof.
  revert D. induction plans as [|pl plans IH]; intros D; [done|]. cbn [report_errors].
  apply (safe_bind any); [destruct (has_error pl); [apply safe_report|done]|]. intros D' [] _ _. apply IH.
Qed.

Lemma safe_now D : safe any D (p_now host).
Proof. by apply safe_plain. Qed.

Lemma safe_poll scheduleId D : safe (fun _ b => batch_ok b) D (pollOnce host self scheduleId).
Proof.
  unfold pollOnce. apply (safe_bind any); [by apply safe_plain|]. intros D1 lease _ _.
  apply (safe_bind any); [by apply safe_plain|]. intros D2 [] _ _. destruct lease as [l|]; [|by left].
  apply (safe_bind any); [apply safe_now|]. intros D3 now _ _. apply (safe_bind any); [by apply safe_plain|].
  intros D4 due _ _. destruct (js_slice _ _ _) as [|i ids]; [by left|].
  apply (safe_bind (fun _ m => forall id cfg, m !! id = Some cfg -> sc_id cfg = id)).
  { apply safe_call; [done|]. intros D5 m _ Hm id cfg. by apply Hm. }
  intros D5 configs _ Hconfigs. apply (safe_bind any); [by apply safe_plain|]. intros D6 states _ _.
  apply (safe_bind (fun _ plans => Forall plan_ok plans)).
  { apply safe_call; [done|]. intros D7 plans _ (t & t' & E). by apply (planned_ok _ _ _ Hconfigs _ _ _ E). }
  intros D7 plans _ Hplans. apply (safe_bind any); [apply safe_report_errors|]. intros D8 [] _ _. right. by exists l, plans.
Qed.

Lemma safe_disable D plans : safe any D (disable_errors (T:=T) plans).
Proof.
  revert D. induction plans as [|pl plans IH]; intros D; [done|]. cbn [disable_errors].
  apply (safe_bind any); [destruct (has_error pl); [by apply safe_plain|done]|]. intros D' [] _ _. apply IH.
Qed.

Lemma safe_commit D b n : batch_ok b -> acked_upto D b n -> safe any D (commitEff (T:=T) b n).
Proof.
  intros Hb Ha. unfold commitEff. pose proof (ready_ok D b n Hb Ha) as Hr.
  destruct (ready_plans b n) as [|pl ready] eqn:Er; [done|].
  apply safe_catch; [|intros D' e _; apply safe_report].
  apply (safe_bind any); [|done]. unfold commitPlannedSchedules.
  assert (exists l, pb_lease b = Some l) as (l & ->).
  { destruct Hb as [->|(l & plans & -> & _)]; [|by exists l]. done. }
  apply (safe_bind any).
  - apply safe_call; [|done]. intros D' HD. eapply Forall_impl; [exact Hr|]. intros u. by apply update_ok_mono.
  - intros D' r _ _. apply (safe_bind any); [apply safe_disable|]. done.
Qed.

(** A state of the loop whose tick was taken, and one that still waits for
    its consumer. *)
Definition run_ok D (st : LoopState) : Prop :=
  match st with LEmit b i => batch_ok b /\ acked_upto D b i | LPoll _ => True end.
Definition idle_ok D (st : LoopState) : Prop :=
  match st with LEmit b i => batch_ok b /\ acked_upto D b (pred i) | LPoll _ => True end.
Definition step_ok D (r : LoopStep) : Prop :=
  match r with
  | (Some tick, st) => idle_ok D st /\ acknowledged st = [key_of tick]
  | (None, st) => run_ok D st
  end.

Lemma safe_set_open D v : vars_ok D v -> safe any D (set_open (T:=T) v).
Proof. intros Hv. apply safe_call; [|done]. intros D' HD w _. by apply (vars_mono D). Qed.

Lemma safe_after_batch D b : batch_ok b -> acked_upto D b (length (pb_ticks b)) -> safe step_ok D (afterBatch (T:=T) self b).
Proof.
  intros Hb Ha. apply (safe_bind any); [by apply safe_commit|]. intros D1 [] _ _.
  apply (safe_bind any); [by apply safe_plain|]. done.
Qed.

Lemma safe_poll_eff scheduleId D : safe (fun _ r => match r with Some b => batch_ok b | None => True end) D (pollEff host self scheduleId).
Proof.
  unfold pollEff. apply safe_catch.
  - apply (safe_bind _ _ _ _ _ (safe_poll scheduleId D)). done.
  - intros D' e _. apply (safe_bind any); [apply safe_report|]. done.
Qed.

Lemma safe_loop_step scheduleId D st : run_ok D st -> safe step_ok D (loop_step host self scheduleId st).
Proof.
  intros Hst. destruct st as [failures|b i]; cbn [loop_step].
  - apply (safe_bind _ _ _ _ _ (safe_poll_eff scheduleId D)). intros D1 r _ Hr. destruct r as [b|].
    + assert (acked_upto D1 b 0) as H0 by (apply list_subseteq_nil).
      destruct (pb_ticks b) as [|tick ts] eqn:Et.
      * apply safe_after_batch; [done|]. by rewrite Et.
      * apply (safe_bind any); [by apply safe_set_open|]. intros D2 [] _ _. split.
        -- split; [done|]. apply list_subseteq_nil.
        -- cbn. by rewrite Et.
    + apply (safe_bind any); [by apply safe_plain|]. done.
  - destruct Hst as [Hb Ha]. apply (safe_bind any); [by apply safe_set_open|]. intros D1 [] HD1 _.
    apply (acked_mono _ _ _ _ HD1) in Ha. destruct (pb_ticks b !! i) as [tick|] eqn:Et.
    { split; [by split|]. cbn. by rewrite Et. }
    apply (safe_bind any); [by apply safe_set_open|]. intros D2 [] HD2 _. apply safe_after_batch; [done|].
    apply (acked_mono _ _ _ _ HD2). apply lookup_ge_None in Et. unfold acked_upto in *.
    rewrite take_ge in Ha by done. by rewrite take_ge.
Qed.

Lemma safe_finalize D : safe any D (finalize (T:=T)).
Proof.
  unfold finalize. apply (safe_bind (fun D' v => vars_ok D' v)).
  { apply safe_call; [done|]. intros D' v _ (w & Hw & ->). done. }
  intros D1 v _ Hv. apply (safe_bind any).
  { destruct v as [[b n]|]; [|done]. destruct Hv as [Hb Ha]. by apply safe_commit. }
  intros D2 [] _ _. apply (safe_bind any); [by apply safe_plain|]. intros D3 active _ _.
  destruct (active =? 0); [|done]. unfold releaseEff. apply (safe_bind any); [by apply safe_plain|].
  intros D4 [l|] _ _; [|done]. apply safe_catch; [by apply safe_plain|]. intros D5 e _. apply safe_report.
Qed.

Lemma safe_lift {X} D (r : res thrown X) : safe any D (p_lift (call:=call T) r).
Proof. by destruct r. Qed.

Lemma safe_fire attempts id occurrences D : (forall D cfg, safe any D (occurrences cfg)) ->
  safe any D (fire_attempts host attempts id occurrences).
Proof.
  intros Ho. revert D. induction attempts as [|n IH]; intros D; [done|]. cbn [fire_attempts].
  apply (safe_bind any); [by apply safe_plain|]. intros D1 config _ _. apply (safe_bind any); [by apply safe_plain|].
  intros D2 state _ _. destruct config as [config|], state as [state|]; try done.
  apply (safe_bind any); [apply Ho|]. intros D3 times _ _. destruct times as [|u times]; [done|].
  apply (safe_bind any); [apply safe_now|]. intros D4 now _ _. apply (safe_bind any).
  - apply safe_plain. intros D'. eexists. split; [done|]. right. by eexists _, _, _.
  - intros D5 conflicts _ _. destruct conflicts; [done|]. apply IH.
Qed.

Lemma safe_method D m : safe any D (method_prog host self m).
Proof.
  destruct m as [config|id patch|id|id|id|id|id from to|id n]; cbn [method_prog]; try (by apply safe_plain).
  - apply (safe_bind any); [apply safe_lift|]. intros D1 [] _ _. apply (safe_bind any); [by apply safe_plain|].
    intros D2 [] _ _. destruct (is_enabled config); [|done]. apply (safe_bind any); [apply safe_now|].
    intros D3 now _ _. by apply safe_plain.
  - apply (safe_bind any); [by apply safe_plain|]. intros D1 [current|] _ _; [|done].
    apply (safe_bind any); [apply safe_lift|]. intros D2 [] _ _. apply (safe_bind any); [by apply safe_plain|].
    intros D3 [] _ _. destruct (is_enabled _); [|done]. apply (safe_bind any); [by apply safe_plain|].
    intros D4 next _ _. by apply safe_plain.
  - apply (safe_bind any); [|done]. apply (safe_bind any); [|done]. apply safe_fire. intros D' cfg.
    apply (safe_bind any); [apply safe_now|]. done.
  - apply (safe_bind any); [|done]. apply (safe_bind any); [|done]. apply safe_fire. intros D' cfg. unfold backfill_times.
    destruct (nonempty_str (sc_cron cfg)); [apply safe_lift|]. destruct (nonempty_str (sc_rrule cfg)); [|done].
    apply (safe_bind any); [apply safe_lift|]. done.
  - apply (safe_bind any); [|done]. apply (safe_bind any); [by apply safe_plain|]. intros D1 [config|] _ _; [|done].
    apply (safe_bind any); [destruct (sc_intervalMs config); [by apply safe_plain|done]|]. intros D2 state _ _.
    apply (safe_bind any); [apply safe_now|]. intros D3 now _ _. apply safe_lift.
Qed.
End delivery.

(** ** The invariant of a system *)
Section invariant.
Context `{Recurrence} {T : Type} (host : SchedulerHost T).
Implicit Types (D M E : list TickKey) (l : Local (T:=T)).

Record local_ok D M l : Prop := {
  lk_store : scheduler_ok (lo_store l);
  lk_counted : counted (D ++ M) (lo_store l);
  lk_vars : vars_ok D (lo_vars l);
}.

Lemma collect_found {V} (find : string -> option V) ids : forall (out : jmap string V) id v,
  foldl (fun out id => match find id with Some v => <[id := v]> out | None => out end) out ids !! id = Some v ->
  out !! id = Some v \/ find id = Some v.
Proof.
  induction ids as [|i ids IH]; intros out id v; cbn [foldl]; [by left|]. intros [Hl|Hl]%IH; [|by right].
  destruct (find i) as [w|] eqn:Ei; [|by left]. rewrite jlookup_insert in Hl. case_decide as Hid; [|by left].
  right. by rewrite <- Hid, Ei.
Qed.

Lemma loaded_ids s ids id cfg : scheduler_ok s -> loadSchedules ids s !! id = Some cfg -> sc_id cfg = id.
Proof. intros Hs Hl. apply collect_found in Hl as [Hl|Hl]; [done|]. by apply (sok_cfg _ Hs). Qed.

Lemma store_op_ok D M l now op : uncounting op -> local_ok D M l ->
  local_ok D M (mkLocal (run_scheduler_op now op (lo_store l)) (lo_host l) (lo_instance l) (lo_vars l)).
Proof.
  intros Hop [Hs Hc Hv]. split; cbn; [by apply run_scheduler_op_ok|by apply counted_foreign|done].
Qed.

Lemma keys_grow D M (K : list TickKey) : D ++ M ⊆ D ++ M ++ K.
Proof. rewrite app_assoc. by apply list_subseteq_app_l. Qed.

Lemma commit_ok D M l us lease : local_ok D M l -> call_ok (T:=T) D (CCommitPoll us lease) ->
  local_ok D (M ++ manual_keys (T:=T) (CCommitPoll us lease) (lo_store l))
    (mkLocal (commitPoll us lease (lo_store l)).2 (lo_host l) (lo_instance l) (lo_vars l)).
Proof.
  intros [Hs Hc Hv] Hok. split; cbn [lo_store lo_vars]; [exact (run_scheduler_op_ok 0 (SCommitPoll us lease) _ Hs)| |done].
  destruct lease as [le|]; cbn [call_ok manual_keys] in *.
  - rewrite app_nil_r. apply commitPoll_counted; [done|]. eapply Forall_impl; [exact Hok|]. intros u.
    by apply update_ok_mono, list_subseteq_app_l.
  - destruct Hok as (u & -> & Hn). destruct (commitPoll [u] None (lo_store l)) as [r s'] eqn:E. cbn [snd].
    pose proof (commitPoll_conflict u None (lo_store l)) as Hcf. rewrite E in Hcf. cbn [fst snd] in Hcf.
    destruct r as [[|x cs]|e]; [|rewrite Hcf by done; apply (counted_mono (D ++ M)); [apply keys_grow|done]..].
    replace s' with (commitPoll [u] None (lo_store l)).2 by (by rewrite E). apply commitPoll_counted.
    + apply (counted_mono (D ++ M)); [apply keys_grow|done].
    + apply Forall_singleton. split; [done|]. cbn. rewrite app_nil_r, app_assoc. by apply list_subseteq_app_r.
Qed.

Lemma perform_ok {X} D M now fresh (c : call T X) l : local_ok D M l -> call_ok D c ->
  local_ok D (M ++ manual_keys c (lo_store l)) (perform now fresh c l).2 /\
  match (perform now fresh c l).1 with
  | Ret x => answer_ok D c (Ok x)
  | Throws e => answer_ok D c (Err e)
  | Died => True
  end.
Proof.
  intros Hl Hc. pose proof (lk_store _ _ _ Hl) as Hst.
  destruct c as [key i ttl|lease|n lim ns|id|id|ids|ids|us lease|cfg|id next|id b|id|en ns lim off|en ns|ms|ev|X f|X f|X f];
    cbn [perform manual_keys]; rewrite ?app_nil_r; try (split; [done|done]).
  - pose proof (store_op_ok D M l now (SAcquire key i ttl) I Hl) as Ho. cbn [run_scheduler_op] in Ho.
    by destruct (tryAcquireLeader now key i ttl (lo_store l)).
  - split; [exact (store_op_ok D M l now (SRelease lease) I Hl)|done].
  - split; [done|]. intros cfg [= Hcfg]. by apply (sok_cfg _ Hst).
  - split; [done|]. intros m id cfg [= <-]. by apply loaded_ids.
  - pose proof (commit_ok D M l us lease Hl Hc) as Ho. cbn [manual_keys] in Ho.
    destruct (commitPoll us lease (lo_store l)) as [[conflicts|e] s'] eqn:E; cbn in *; (split; [|done]);
      destruct lease; rewrite ?E in Ho; done.
  - split; [exact (store_op_ok D M l now (SUpsert fresh cfg) I Hl)|done].
  - split; [exact (store_op_ok D M l now (SSetNextRun id next) I Hl)|done].
  - split; [exact (store_op_ok D M l now (SSetEnabled id b) I Hl)|done].
  - split; [exact (store_op_ok D M l now (SDelete id) I Hl)|done].
  - destruct (f (lo_host l)) as [o t'] eqn:Ef. split; [by destruct Hl|]. destruct o; cbn; [by exists (lo_host l), t'|by exists (lo_host l), t'|done].
  - destruct (f (lo_instance l)) as [x i']. split; [by destruct Hl|done].
  - pose proof (Hc _ (lk_vars _ _ _ Hl)) as Hv. destruct (f (lo_vars l)) as [x v'] eqn:Ef. split; [by destruct Hl|].
    cbn. exists (lo_vars l). split; [apply (lk_vars _ _ _ Hl)|by rewrite Ef].
Qed.

Definition phase_ok D E (ph : Phase (T:=T)) : Prop :=
  match ph with
  | SIdle st => idle_ok D st /\ acknowledged st ⊆ E
  | SRun p => safe step_ok D p
  | SEnd p => safe any D p
  end.

Definition process_ok D E (pr : Process (T:=T)) : Prop := vars_ok D (pr_vars pr) /\ phase_ok D E (pr_phase pr).

Lemma run_mono D D' st : D ⊆ D' -> run_ok D st -> run_ok D' st.
Proof. intros HD. destruct st as [f|b i]; [done|]. intros [Hb Ha]. split; [done|by eapply acked_mono]. Qed.

Lemma idle_mono D D' st : D ⊆ D' -> idle_ok D st -> idle_ok D' st.
Proof. intros HD. destruct st as [f|b i]; [done|]. intros [Hb Ha]. split; [done|by eapply acked_mono]. Qed.

Lemma step_mono : growing (call:=call T) step_ok.
Proof.
  intros D D' [[tick|] st] HD; cbn; [|by apply run_mono]. intros [Hi Ha]. split; [by apply (idle_mono D)|done].
Qed.

Lemma process_mono D D' E E' pr : D ⊆ D' -> E ⊆ E' -> process_ok D E pr -> process_ok D' E' pr.
Proof.
  intros HD HE [Hv Hp]. split; [by eapply vars_mono|]. destruct (pr_phase pr) as [st|p|p]; cbn in *.
  - destruct Hp as [Hi Ha]. split; [by eapply idle_mono|by etrans].
  - by apply (safe_mono _ D), Hp; [apply step_mono|].
  - apply (safe_mono _ D), Hp; [|done]. done.
Qed.

(** One call of a safe program. *)
Lemma take_step_ok {A} (Q : list TickKey -> A -> Prop) D M now fresh fault (p : prog T A) l p' l' m :
  local_ok D M l -> safe Q D p -> take_step now fresh fault p l = (p', l', m) ->
  local_ok D (M ++ m) l' /\ match p' with Some p' => safe Q D p' | None => True end.
Proof.
  intros Hl Hp. destruct p as [a|e|X c k]; cbn [take_step]; [intros [= <- <- <-]; by rewrite app_nil_r..|].
  destruct (Hp D ltac:(done)) as [Hc Hk]. specialize (Hk D). destruct (perform_ok D M now fresh c l Hl Hc) as [Hl' Ha].
  destruct (perform now fresh c l) as [o l2]. cbn [fst snd] in *.
  destruct fault as [[applied e]|].
  - destruct (may_fail c) eqn:Hf; [|intros [= <- <- <-]; by rewrite app_nil_r].
    assert (answer_ok D c (Err e)) as Herr by (by destruct c).
    destruct applied; intros [= <- <- <-]; rewrite ?app_nil_r; (split; [done|by apply Hk]).
  - destruct o as [x|e|]; intros [= <- <- <-]; (split; [done|try done; by apply Hk]).
Qed.

(** A step that ended leaves its stream waiting with a tick, or at work. *)
Lemma settle_ok D E self (pr : Process (T:=T)) pr' emitted : process_ok D E pr -> settle host self pr = (pr', emitted) ->
  match pr' with Some pr' => process_ok D (E ++ emitted) pr' | None => True end.
Proof.
  intros [Hv Hp]. unfold settle. destruct pr as [i sid v ph]. cbn [pr_phase pr_vars pr_schedule pr_instance set_phase] in *.
  destruct ph as [st|[[[tick|] st]|e|X c k]|[[]|e|X c k]]; intros [= <- <-]; rewrite ?app_nil_r; try done.
  - destruct Hp as [Hi Ha]. split; [done|]. split; [done|]. cbn in Ha. rewrite Ha. by apply list_subseteq_app_r.
  - split; [done|]. by apply safe_loop_step.
  - split; [done|]. apply safe_finalize.
Qed.

(** ** Systems *)
Record system_ok (s : System (T:=T)) : Prop := {
  so_store : scheduler_ok (sy_store s);
  so_counted : counted (sy_acked s ++ sy_manual s) (sy_store s);
  so_processes : map_Forall (fun _ pr => process_ok (sy_acked s) (sy_emitted s) pr) (sy_processes s);
  so_acked : sy_acked s ⊆ sy_emitted s;
}.

Lemma set_process_ok pid pr s : system_ok s ->
  match pr with Some pr => process_ok (sy_acked s) (sy_emitted s) pr | None => True end -> system_ok (set_process pid pr s).
Proof.
  intros [Hs Hc Hp Ha] Hpr. split; try done. destruct pr as [pr|]; cbn; [by apply map_Forall_insert_2|by apply map_Forall_delete].
Qed.

Lemma step_process_ok pid now fresh fault pr self inst s : system_ok s -> process_ok (sy_acked s) (sy_emitted s) pr ->
  system_ok (step_process host pid now fresh fault pr self inst s).
Proof.
  intros [Hs Hc Hps Ha] [Hv Hph]. unfold step_process. set (l := mkLocal _ _ _ _).
  assert (local_ok (sy_acked s) (sy_manual s) l) as Hl by done.
  destruct (match pr_phase pr with SIdle st => _ | SRun p => _ | SEnd p => _ end) as [[ph l'] manual] eqn:Estep.
  assert (local_ok (sy_acked s) (sy_manual s ++ manual) l' /\
    match ph with Some ph => phase_ok (sy_acked s) (sy_emitted s) ph | None => True end) as [Hl' Hph'].
  { destruct (pr_phase pr) as [st|p|p].
    - injection Estep as <- <- <-. by rewrite app_nil_r.
    - destruct (take_step now fresh fault p l) as [[p' l2] m] eqn:Et. injection Estep as <- <- <-.
      destruct (take_step_ok _ _ _ _ _ _ _ _ _ _ _ Hl Hph Et) as [Hl2 Hp']. split; [done|]. by destruct p'.
    - destruct (take_step now fresh fault p l) as [[p' l2] m] eqn:Et. injection Estep as <- <- <-.
      destruct (take_step_ok _ _ _ _ _ _ _ _ _ _ _ Hl Hph Et) as [Hl2 Hp']. split; [done|]. by destruct p'. }
  destruct Hl' as [Hs' Hc' Hv'].
  destruct (match ph with Some ph => _ | None => _ end) as [pr' emitted] eqn:Eset.
  apply set_process_ok.
  - split; cbn; [done|done| |].
    + eapply map_Forall_impl; [exact Hps|]. intros k q. apply process_mono; [done|by apply list_subseteq_app_l].
    + by apply list_subseteq_app_l.
  - destruct ph as [ph|]; [|by injection Eset as <- _]. cbn [sy_acked sy_emitted].
    by eapply settle_ok; [|exact Eset].
Qed.

(** Writes to the storage that this model leaves to others. *)
Definition allowed (e : Event) : Prop := match e with EvForeign _ op => uncounting op | _ => True end.

Lemma acknowledged_ok D D' E st : idle_ok D st -> D ⊆ D' -> acknowledged st ⊆ D' -> run_ok D' st.
Proof.
  destruct st as [f|b [|i]]; [done| |].
  - intros [Hb _] _ _. split; [done|]. apply list_subseteq_nil.
  - cbn [idle_ok acknowledged run_ok Nat.pred]. intros [Hb Ha] HD Hk. split; [done|].
    apply (acked_mono _ _ _ _ HD) in Ha. unfold acked_upto in *. destruct (pb_ticks b !! i) as [t|] eqn:Et.
    + rewrite (take_S_r _ _ _ Et). unfold tick_keys in *. rewrite fmap_app. by apply list_subseteq_app_iff_l.
    + apply lookup_ge_None in Et. rewrite take_ge in Ha by done. by rewrite take_ge by lia.
Qed.

Lemma system_step_ok e s : allowed e -> system_ok s -> system_ok (system_step host e s).
Proof.
  intros He Hok. pose proof Hok as [Hs Hc Hp Ha].
  destruct e as [i cfg|pid i sid|pid i m|pid|pid now fresh fault|pid rest|pid|now op]; cbn [system_step].
  - case_bool_decide; [done|]. by split.
  - destruct (sy_instances s !! i) as [[self inst]|]; [|done]. apply set_process_ok; [by split|].
    split; [done|]. split; [done|]. apply list_subseteq_nil.
  - destruct (sy_instances s !! i) as [[self inst]|]; [|done]. apply set_process_ok; [done|].
    split; [done|]. apply safe_method.
  - destruct (sy_processes s !! pid) as [[i sid v ph]|] eqn:Ep; [|done]. destruct ph as [st|p|p]; [|done|done].
    destruct (sy_instances s !! i) as [[self inst]|]; [|done].
    destruct (map_Forall_lookup_1 _ _ _ _ Hp Ep) as [Hv [Hi Hack]]. cbn [pr_vars pr_phase] in *. apply set_process_ok.
    + split; cbn; [done| | |].
      * apply (counted_mono (sy_acked s ++ sy_manual s)); [|done]. intros k. rewrite !elem_of_app. tauto.
      * eapply map_Forall_impl; [exact Hp|]. intros k q. apply process_mono; [by apply list_subseteq_app_l|done].
      * by apply list_subseteq_app_iff_l.
    + cbn. split; [eapply vars_mono; [|exact Hv]; by apply list_subseteq_app_l|]. apply safe_loop_step.
      apply (acknowledged_ok (sy_acked s) _ (sy_emitted s)); [done|by apply list_subseteq_app_l|by apply list_subseteq_app_r].
  - destruct (sy_processes s !! pid) as [pr|] eqn:Ep; [|done]. destruct (sy_instances s !! pr_instance pr) as [[self inst]|]; [|done].
    apply step_process_ok; [done|]. by apply (map_Forall_lookup_1 _ _ _ _ Hp Ep).
  - destruct (sy_processes s !! pid) as [pr|] eqn:Ep; [|done].
    destruct (map_Forall_lookup_1 _ _ _ _ Hp Ep) as [Hv Hph]. destruct (pr_phase pr) as [st|p|p] eqn:Eph; [| |done].
    + apply set_process_ok; [done|]. split; [done|]. apply safe_finalize.
    + apply set_process_ok; [apply set_process_ok; [done|]|].
      * split; [done|]. apply (safe_bind _ _ _ _ _ Hph). done.
      * split; [done|]. apply safe_finalize.
  - by apply set_process_ok.
  - split; cbn; [by apply run_scheduler_op_ok|by apply counted_foreign|done|done].
Qed.

Lemma run_system_ok events s : Forall allowed events -> system_ok s -> system_ok (run_system host events s).
Proof.
  revert s. induction events as [|e events IH]; intros s; [done|]. intros [He Hes]%Forall_cons Hs.
  apply (IH _ Hes). by apply system_step_ok.
Qed.

Lemma initial_ok (t : T) : system_ok (initial_system t).
Proof.
  split; cbn; [apply (run_scheduler_ops_ok [])| |apply map_Forall_empty|done]. intros id st. done.
Qed.

(** C14. No tick number is lost, whatever happens. Any number of scheduler
    instances, streams and callers share a storage; calls interleave in any
    order, consumers stop and processes die at any point, storage calls fail
    with or without their effect, leadership moves, schedules are edited,
    deleted and created anew. In every state the storage has counted a
    number of a schedule's incarnation only if that number was acknowledged
    by a consumer, to whom it had been handed, or was recorded by a manual
    fire. *)
Theorem counted_ticks_were_delivered (t : T) events : Forall allowed events ->
  let s := run_system host events (initial_system t) in
  forall id st n, loadScheduleState id (sy_store s) = Some st -> 0 <= n < ss_tickCount st ->
    let k := (id, ss_incarnation st, n) in
    (k ∈ sy_acked s /\ k ∈ sy_emitted s) \/ k ∈ sy_manual s.
Proof.
  intros Hev s id st n Hst Hn k. destruct (run_system_ok events (initial_system t) Hev (initial_ok t)) as [_ Hc _ Ha].
  fold s in Hc, Ha. unfold loadScheduleState in Hst. case_bool_decide; [done|]. destruct (Hc id st Hst) as [_ Hk].
  apply Hk, elem_of_app in Hn as [Hn|Hn]; [left; split; [done|by apply Ha]|by right].
Qed.
End invariant.

(** A schedule is registered, polled, its tick taken, and a second tick
    recorded by hand; then the process dies. *)
Definition the_scheduler : SchedulerConfig := mkSchedulerConfig "a" 1000 3000 None 100 None 30000 "scheduler/-".
Definition steps_of (pid n : nat) : list Event := repeat (EvStep pid 600500 "inc" None) n.
Definition delivery_events : list Event :=
  [EvInstance 0 the_scheduler; EvCall 1 0 (MRegister (sample_config "s"))] ++ steps_of 1 3 ++
  [EvStream 2 0 None; EvPull 2] ++ steps_of 2 8 ++ [EvPull 2] ++ steps_of 2 3 ++
  [EvCall 3 0 (MTriggerNow "s")] ++ steps_of 3 5 ++ [EvCrash 2; EvForeign 600600 (SSetEnabled "s" false)].

Definition delivered_system : System :=
  run_system (H := every_minute) sample_host delivery_events (initial_system tt).

Lemma counted_ticks_were_delivered_witness :
  let s := delivered_system in
  option_map ss_tickCount (loadScheduleState "s" (sy_store s)) = Some 2 /\
  (("s", "inc", 0) ∈ sy_acked s /\ ("s", "inc", 0) ∈ sy_emitted s \/ ("s", "inc", 0) ∈ sy_manual s) /\
  sy_manual s = [("s", "inc", 1)].
Proof.
  split; [vm_compute; reflexivity|]. split; [|vm_compute; reflexivity].
  apply (@counted_ticks_were_delivered every_minute unit sample_host tt delivery_events) with
    (id := "s") (st := mkScheduleState (Some 600500) 2 "inc" None) (n := 0).
  - repeat constructor.
  - vm_compute. reflexivity.
  - cbn. lia.
Defined.
