(* ===== verification/SchedulerRedelivery.v ===== *)
(** Why an unacknowledged tick comes back: a poll writes nothing, a stop
    commits only what was acknowledged, and the next poll numbers its ticks
    from the same fire state ([scheduler/durable-scheduler.ts]). *)
From Stdlib Require Import QArith.
From S2P Require Import Prelude Leases LeaderLeases Json Journal RunState Storage Exits Retry Replay StepBody Checkpoint JournalStore MachineStorage SchedulerStorage Planning Programs DurableScheduler SchedulerSystem SchedulerDelivery.
Open Scope string_scope.
Open Scope list_scope.
Open Scope Z_scope.

Section redelivery.
Context `{RecurrenceLaws} {T : Type} (host : SchedulerHost T).
Context (random_unit : forall t : T, (0 <= (sh_random host t).1 < 1)%Q).
Implicit Types (l : Local (T:=T)) (id : string) (now : Z).

(** A program that runs with nobody in between. *)
Fixpoint run_prog {A} now (fresh : string) (p : prog T A) l : outcome A * Local :=
  match p with
  | PRet a => (Ret a, l)
  | PThrow e => (Throws e, l)
  | PVis _ c k =>
      match perform now fresh c l with
      | (Ret x, l) => run_prog now fresh (k (Ok x)) l
      | (Throws e, l) => run_prog now fresh (k (Err e)) l
      | (Died, l) => (Died, l)
      end
  end.

Lemma run_bind {A B} now fresh (p : prog T A) (f : A -> prog T B) l :
  run_prog now fresh (p_bind p f) l =
    match run_prog now fresh p l with
    | (Ret a, l) => run_prog now fresh (f a) l
    | (Throws e, l) => (Throws e, l)
    | (Died, l) => (Died, l)
    end.
Proof.
  revert l. induction p as [a|e|X c k IH]; intros l; cbn; [done|done|].
  destruct (perform now fresh c l) as [[x|e|] l']; [apply IH|apply IH|done].
Qed.

Lemma run_catch {A} now fresh (p : prog T A) h l :
  run_prog now fresh (p_catch p h) l =
    match run_prog now fresh p l with
    | (Throws e, l) => run_prog now fresh (h e) l
    | r => r
    end.
Proof.
  revert l. induction p as [a|e|X c k IH]; intros l; cbn; [done|by destruct (run_prog _ _ (h e) l) as [[] ]|].
  destruct (perform now fresh c l) as [[x|e|] l']; [apply IH|apply IH|done].
Qed.

Lemma run_call {X} now fresh (c : call T X) l : run_prog now fresh (do_call c) l = perform now fresh c l.
Proof. cbn. by destruct (perform now fresh c l) as [[x|e|] l']. Qed.

Lemma run_report now fresh e l : run_prog now fresh (report e) l = (Ret tt, l).
Proof. done. Qed.

Lemma run_report_errors now fresh plans l : run_prog now fresh (report_errors plans) l = (Ret tt, l).
Proof.
  induction plans as [|p plans IH]; [done|]. cbn [report_errors]. rewrite run_bind.
  destruct (has_error p); [rewrite run_report|]; exact IH.
Qed.

(** ** Rows of one schedule *)
Definition row (s : InMemorySchedulerStorage) id : option DurableScheduleConfig * option ScheduleState * option Z :=
  (schedules s !! id, sched_state s !! id, nextRun s !! id).

Lemma commit_one_row acc u id : su_id u <> id -> row (commit_one acc u).2 id = row acc.2 id.
Proof.
  destruct acc as [c s]. intros Hne. unfold commit_one, row. cbn [snd]. destruct (conflicting u _); [done|].
  destruct (schedules s !! su_id u) as [cfg|]; [|cbn; by rewrite jlookup_delete_ne].
  case_bool_decide; [done|]. destruct (sched_state s !! su_id u) as [st|]; [|cbn; by rewrite jlookup_delete_ne].
  destruct (negb (is_enabled cfg) || _); [|destruct (su_nextRun u) as [[n|]|]]; (destruct (su_ticks u) as [[|t ts]|]);
    cbn; by rewrite ?jlookup_insert_ne, ?jlookup_delete_ne.
Qed.

Lemma commit_one_schedules acc u : schedules (commit_one acc u).2 = schedules acc.2.
Proof.
  destruct acc as [c s]. unfold commit_one. cbn [snd]. destruct (conflicting u _); [done|].
  destruct (schedules s !! su_id u) as [cfg|]; [|done]. case_bool_decide; [done|].
  destruct (sched_state s !! su_id u) as [st|]; [|done].
  destruct (negb (is_enabled cfg) || _); [|destruct (su_nextRun u) as [[n|]|]]; by destruct (su_ticks u) as [[|t ts]|].
Qed.

Lemma commit_fold_row us id : Forall (fun u => su_id u <> id) us -> forall acc,
  row (foldl commit_one acc us).2 id = row acc.2 id /\ schedules (foldl commit_one acc us).2 = schedules acc.2.
Proof.
  induction 1 as [|u us Hu Hus IH]; intros acc; [done|]. cbn [foldl]. destruct (IH (commit_one acc u)) as [-> ->].
  by rewrite commit_one_row, commit_one_schedules.
Qed.

Lemma commitPoll_row us lease s id : Forall (fun u => su_id u <> id) us ->
  row (commitPoll us lease s).2 id = row s id /\ schedules (commitPoll us lease s).2 = schedules s.
Proof.
  intros Hus. unfold commitPoll. destruct (match lease with Some _ => _ | None => _ end); [|done].
  pose proof (commit_fold_row us id Hus ([], s)) as Hf. by destruct (foldl commit_one ([], s) us).
Qed.

Lemma setEnabled_row now id' b s id : scheduler_ok s -> id' <> id -> row (setEnabled now id' b s) id = row s id.
Proof.
  intros [_ Hc _] Hne. unfold setEnabled, row. destruct (schedules s !! id') as [cfg|] eqn:E; [|done].
  apply Hc in E. destruct b; cbn [negb].
  - unfold seedNextRun. rewrite E. case_bool_decide; cbn; by rewrite ?jlookup_insert_ne.
  - cbn. by rewrite jlookup_insert_ne, jlookup_delete_ne.
Qed.

(** ** Storages a poll can work with *)
Record pollable l : Prop := {
  pb_ok : scheduler_ok (lo_store l);
  pb_plannable : forall id c, schedules (lo_store l) !! id = Some c -> plannable c;
}.

Lemma plannable_enabled b c : plannable c -> plannable (with_enabled b c).
Proof. done. Qed.

Lemma setEnabled_plannable now id' b s : (forall id c, schedules s !! id = Some c -> plannable c) ->
  forall id c, schedules (setEnabled now id' b s) !! id = Some c -> plannable c.
Proof.
  intros Hp id c. unfold setEnabled, seedNextRun. destruct (schedules s !! id') as [cfg|] eqn:E; [|apply Hp].
  assert (<[id' := with_enabled b cfg]> (schedules s) !! id = Some c -> plannable c) as Hi; [|by repeat case_match].
  rewrite jlookup_insert. case_decide; [|apply Hp]. intros [= <-]. by apply plannable_enabled, (Hp id').
Qed.

(** ** A poll *)
Context (self : SchedulerConfig) (scheduleId : option string).

Definition targets now (s : InMemorySchedulerStorage) : list string :=
  js_slice (List.filter (is_target self scheduleId)
    (findDue now (cf_batchSize self * match cf_partition self with Some (_, count) => count | None => 1 end) (cf_namespace self) s))
    0 (Some (cf_batchSize self)).

Definition lease_free now l : Prop :=
  mem_live_holder now (cf_leaderKey self) (sched_leases (lo_store l)) = None \/
  mem_live_holder now (cf_leaderKey self) (sched_leases (lo_store l)) = Some (cf_instanceId self).

(** A plan that fires what is due at a reading of the clock: at least one
    tick, with the numbers that follow [state]. *)
Definition numbered_from (config : DurableScheduleConfig) (state : ScheduleState) id (p : PlannedSchedule) : Prop :=
  pl_id p = id /\ pl_ticks p <> [] /\
  tick_keys (pl_ticks p) = (fun n => (id, ss_incarnation state, n)) <$> seqZ (ss_tickCount state) (Z.of_nat (length (pl_ticks p))) /\
  exists t, due_spec config state (sh_now host t).1 (pl_ticks p).

(** The schedule has something to fire, whenever the clock is read. *)
Definition stays_due (config : DurableScheduleConfig) (state : ScheduleState) : Prop :=
  forall t, has_due config state (sh_now host t).1.

Lemma first_sublist {A} (x : list A) n : sublist (js_slice x 0 (Some n)) x.
Proof.
  unfold js_slice. etrans; [apply sublist_take|]. apply sublist_drop.
Qed.

Lemma targets_NoDup now s : jm_wf (nextRun s) -> NoDup (targets now s).
Proof.
  intros Hwf. unfold targets. eapply sublist_NoDup; [|apply first_sublist].
  apply NoDup_ListNoDup, List.NoDup_filter, NoDup_ListNoDup. unfold findDue.
  eapply sublist_NoDup; [|apply fmap_sublist, first_sublist]. rewrite jsort_perm. by apply due_rows_ids.
Qed.

Lemma collect_kept {V} (find : string -> option V) ids : forall (out : jmap string V) id v,
  find id = Some v -> (id ∈ ids \/ out !! id = Some v) ->
  foldl (fun out id => match find id with Some v => <[id := v]> out | None => out end) out ids !! id = Some v.
Proof.
  induction ids as [|i ids IH]; intros out id v Hf Hin; cbn [foldl].
  { destruct Hin as [Hin|Hin]; [by apply not_elem_of_nil in Hin|done]. }
  apply (IH _ _ _ Hf). destruct Hin as [[->|Hin]%elem_of_cons|Hout]; [right|by left|right].
  - rewrite Hf. apply jlookup_insert_eq.
  - destruct (find i) as [w|] eqn:Ei; [|done]. rewrite jlookup_insert. case_decide as Hi; [|done]. by subst; congruence.
Qed.

Lemma poll_alone now fresh l id config state :
  pollable l -> lease_free now l -> id ∈ targets (sh_now host (lo_host l)).1 (lo_store l) ->
  schedules (lo_store l) !! id = Some config -> sched_state (lo_store l) !! id = Some state ->
  is_enabled config = true -> evaluates config -> stays_due config state ->
  exists lease plans l1, run_prog now fresh (pollOnce host self scheduleId) l = (Ret (batch_of lease plans), l1) /\
    (exists p, p ∈ plans /\ numbered_from config state id p) /\ Forall plan_ok plans /\ NoDup (pl_id <$> plans) /\
    (forall i, row (lo_store l1) i = row (lo_store l) i) /\ pollable l1.
Proof.
  intros [Hok Hpl] Hfree Hid Hc Hst Hen Hev Hdue.
  destruct (mem_acquire_free now (cf_leaderKey self) (cf_instanceId self) (cf_leaderLockTtlMs self) (sched_leases (lo_store l)) Hfree)
    as (x & Hacq & _).
  unfold pollOnce. rewrite run_bind, run_call. cbn [perform tryAcquireLeader InMemorySchedulerStorage_leases].
  rewrite Hacq. cbn [on_leases fst snd].
  rewrite run_bind, run_call. cbn [perform lo_instance].
  rewrite run_bind. unfold p_now. rewrite run_call. cbn [perform lo_host].
  destruct (sh_now host (lo_host l)) as [n t1]. cbn [fst] in Hid. cbn [lo_store lo_instance lo_vars].
  rewrite run_bind, run_call. cbn [perform lo_store].
  pose proof (targets_NoDup n (lo_store l) (sok_next _ Hok)) as Hnd.
  unfold targets in Hid, Hnd. change (findDue n) with (fun a b s => findDue n a b s) in *. cbn beta in *.
  change (findDue n ?a ?b (set_leases x (lo_store l))) with (findDue n a b (lo_store l)).
  set (ids := js_slice (List.filter _ _) _ _) in *.
  destruct ids as [|i0 ids0] eqn:Eids; [by apply not_elem_of_nil in Hid|]. rewrite <- Eids in *. clear Eids.
  rewrite run_bind, run_call. cbn [perform lo_store]. rewrite run_bind, run_call. cbn [perform lo_store].
  set (configs := loadSchedules ids _). set (states := loadScheduleStates ids _).
  assert (configs !! id = Some config) as Hcid by (apply (collect_kept (fun i => schedules (lo_store l) !! i)); [done|by left]).
  assert (states !! id = Some state) as Hsid.
  { apply (collect_kept (fun i => loadScheduleState i (set_leases x (lo_store l)))); [|by left].
    unfold loadScheduleState. cbn. by rewrite bool_decide_false by (by rewrite Hc). }
  assert (forall i c, configs !! i = Some c -> sc_id c = i /\ plannable c) as Hcfg.
  { intros i c Hi. apply (collect_found (fun i => schedules (lo_store l) !! i)) in Hi as [Hi|Hi]; [done|].
    split; [by apply (sok_cfg _ Hok)|by apply (Hpl i)]. }
  rewrite run_bind. unfold p_sync. rewrite run_call. cbn [perform lo_host].
  destruct (plans_exact host random_unit (fun n => exists t, n = (sh_now host t).1) ltac:(by eexists) ids configs states t1)
    as (plans & t2 & E & Hids & Hspec).
  { intros i c _ Hi. by apply (Hcfg i c). }
  rewrite E. rewrite run_bind, run_report_errors. eexists _, plans, _. split; [done|].
  assert (Forall plan_ok plans) as Hpok by (apply (planned_ok host ids configs states) with (t := t1) (t' := t2); [intros i c Hi; by apply Hcfg|done]).
  split; [|split; [done|split; [by rewrite Hids|split; [done|split; [|done]]]]].
  - rewrite <- Hids in Hid. apply list_elem_of_fmap in Hid as (p & Hpid & Hp). exists p. split; [done|].
    rewrite Forall_forall in Hspec, Hpok. specialize (Hspec p Hp). unfold plan_spec in Hspec. rewrite <- Hpid in Hspec.
    rewrite Hcid, Hsid, Hen in Hspec. destruct Hspec as (now1 & now2 & (t3 & ->) & _ & Hspec & _).
    destruct (Hspec Hev) as (_ & next & delayed & Hspec1 & _). pose proof Hspec1 as (Hn & Hi & _). split; [done|].
    split; [by apply (due_fires config state (sh_now host t3).1)|]. split; [|by exists t3].
    destruct (Hcfg id config Hcid) as [Hcidd _]. rewrite Hcidd in Hi. by rewrite (keys_of_ticks id _ _ Hi), Hn.
  - destruct Hok as [H1 H2 H3]. by split.
Qed.

(** ** A commit of what was acknowledged *)
Lemma ready_others lease plans acked p e :
  NoDup (pl_id <$> plans) -> (p, e) ∈ zip plans (tick_ends 0 plans) -> pl_ticks p <> [] -> Z.of_nat acked < e ->
  Forall (fun q => q ∈ plans /\ pl_id q <> pl_id p) (ready_plans (batch_of lease plans) acked).
Proof.
  intros Hnd Hp Hne Hlt. apply Forall_forall. intros q Hq. unfold ready_plans in Hq. cbn [pb_plans pb_tickEnds batch_of] in Hq.
  apply list_elem_of_omap in Hq as ([q' e'] & Hz & Hr). cbn beta iota in Hr.
  destruct (bool_decide (pl_ticks q' = []) || (e' <=? Z.of_nat acked)) eqn:Hcond; [|done]. injection Hr as ->.
  apply list_elem_of_lookup in Hp as (i & Hi), Hz as (j & Hj).
  apply lookup_zip_with_Some in Hi as (p1 & e1 & [= -> ->] & Hip & Hie).
  apply lookup_zip_with_Some in Hj as (q1 & e2 & [= -> ->] & Hjq & Hje).
  split; [by eapply list_elem_of_lookup_2|]. intros Hid.
  assert (i = j) as <-.
  { apply (NoDup_lookup _ _ _ (pl_id p1) Hnd); rewrite list_lookup_fmap, ?Hip, ?Hjq; cbn; congruence. }
  simplify_eq. apply orb_true_iff in Hcond as [Hc%bool_decide_eq_true|Hc%Z.leb_le]; [done|lia].
Qed.

Lemma disable_alone now fresh id plans : forall l, pollable l -> Forall (fun q => pl_id q <> id) plans ->
  exists l2, run_prog now fresh (disable_errors plans) l = (Ret tt, l2) /\
    row (lo_store l2) id = row (lo_store l) id /\ pollable l2.
Proof.
  induction plans as [|q plans IH]; intros l Hl Hne; [by exists l|]. apply Forall_cons in Hne as [Hq Hne].
  cbn [disable_errors]. rewrite run_bind. destruct (has_error q); [|by apply IH].
  rewrite run_call. cbn [perform on_store]. destruct Hl as [Hok Hpl].
  destruct (IH (mkLocal (setEnabled now (pl_id q) false (lo_store l)) (lo_host l) (lo_instance l) (lo_vars l))) as (l2 & E & Hr & Hl2).
  - split; [exact (run_scheduler_op_ok now (SSetEnabled (pl_id q) false) _ Hok)|]. by apply setEnabled_plannable.
  - done.
  - exists l2. split; [exact E|]. rewrite Hr. split; [by apply setEnabled_row|done].
Qed.

Lemma commit_alone now fresh l lease plans acked p e :
  pollable l -> Forall plan_ok plans -> NoDup (pl_id <$> plans) ->
  (p, e) ∈ zip plans (tick_ends 0 plans) -> pl_ticks p <> [] -> Z.of_nat acked < e ->
  exists l2, run_prog now fresh (commitEff (batch_of lease plans) acked) l = (Ret tt, l2) /\
    row (lo_store l2) (pl_id p) = row (lo_store l) (pl_id p) /\ pollable l2.
Proof.
  intros Hl Hpok Hnd Hz Hne Hlt. pose proof (ready_others lease plans acked p e Hnd Hz Hne Hlt) as Hr.
  unfold commitEff. destruct (ready_plans (batch_of lease plans) acked) as [|q ready]; [by exists l|].
  rewrite run_catch, run_bind. unfold commitPlannedSchedules. rewrite run_bind, run_call. cbn [perform pb_lease batch_of].
  set (us := pl_commit <$> q :: ready). pose proof Hl as [Hok Hpl].
  assert (Forall (fun u => su_id u <> pl_id p) us) as Hus.
  { apply Forall_fmap. eapply Forall_impl; [exact Hr|]. intros x [Hx Hxid]. rewrite Forall_forall in Hpok.
    destruct (Hpok x Hx) as [Hid _]. cbn. by rewrite Hid. }
  destruct (commitPoll_row us (Some lease) (lo_store l) (pl_id p) Hus) as [Hrow Hsch].
  pose proof (run_scheduler_op_ok now (SCommitPoll us (Some lease)) _ Hok) as Hok2. cbn [run_scheduler_op] in Hok2.
  destruct (commitPoll us (Some lease) (lo_store l)) as [[conflicts|err] s2]; cbn [snd] in *.
  - rewrite run_bind.
    destruct (disable_alone now fresh (pl_id p) (q :: ready) (mkLocal s2 (lo_host l) (lo_instance l) (lo_vars l))) as (l2 & E & Hrow2 & Hl2).
    + split; cbn; [done|]. rewrite Hsch. exact Hpl.
    + eapply Forall_impl; [exact Hr|]. by intros x [_ Hx].
    + rewrite E. exists l2. split; [done|]. rewrite Hrow2. done.
  - rewrite run_report. eexists. split; [done|]. split; [done|]. split; cbn; [done|]. rewrite Hsch. exact Hpl.
Qed.
End redelivery.

Section again.
Context `{RecurrenceLaws} {T : Type} (host : SchedulerHost T).
Context (random_unit : forall t : T, (0 <= (sh_random host t).1 < 1)%Q).
Implicit Types (l : Local (T:=T)) (now : Z) (self : SchedulerConfig).

(** C15. At least once: a tick that was not acknowledged comes back under its
    number. A leader that polls a due schedule with an occurrence to fire gets
    exactly the ticks that are due, at least one, numbered on from the
    schedule's count, and writes nothing but the lease. If it stops before its
    consumer acknowledged the last of them - whether or not its lease still
    holds, and whatever the other schedules of the batch commit - the schedule
    keeps its fire state and its due time, and whoever polls it next, in any
    instance, again gets the ticks that are due, at least one, under the same
    numbers. *)
Theorem unacknowledged_ticks_return now fresh l self sid id config state :
  pollable l -> lease_free self now l -> id ∈ targets self sid (sh_now host (lo_host l)).1 (lo_store l) ->
  row (lo_store l) id = (Some config, Some state, nextRun (lo_store l) !! id) ->
  is_enabled config = true -> evaluates config -> stays_due host config state ->
  exists batch l1 p e, run_prog now fresh (pollOnce host self sid) l = (Ret batch, l1) /\
    (p, e) ∈ zip (pb_plans batch) (pb_tickEnds batch) /\ numbered_from host config state id p /\
    (forall i, row (lo_store l1) i = row (lo_store l) i) /\
    forall acked, Z.of_nat acked < e ->
      exists l2, run_prog now fresh (commitEff batch acked) l1 = (Ret tt, l2) /\
        row (lo_store l2) id = row (lo_store l) id /\
        forall now' fresh' self' sid',
          lease_free self' now' l2 -> id ∈ targets self' sid' (sh_now host (lo_host l2)).1 (lo_store l2) ->
          exists batch' l3 p', run_prog now' fresh' (pollOnce host self' sid') l2 = (Ret batch', l3) /\
            p' ∈ pb_plans batch' /\ numbered_from host config state id p'.
Proof.
  intros Hl Hfree Hid Hrow Hen Hev Hdue. pose proof Hrow as [= Hc Hst].
  destruct (poll_alone host random_unit self sid now fresh l id config state Hl Hfree Hid Hc Hst Hen Hev Hdue)
    as (lease & plans & l1 & E & (p & Hp & Hnum) & Hpok & Hnd & Hrows & Hl1).
  apply list_elem_of_lookup in Hp as (i & Hi).
  assert (exists e, (p, e) ∈ zip plans (tick_ends 0 plans)) as (e & He).
  { assert (length (tick_ends 0 plans) = length plans) as Hlen.
    { clear. generalize 0. induction plans as [|q plans IH]; intros n; cbn; [done|by rewrite IH]. }
    destruct (lookup_lt_is_Some_2 (tick_ends 0 plans) i) as (e & He); [rewrite Hlen; by eapply lookup_lt_Some|].
    exists e. apply (list_elem_of_lookup_2 _ i). apply lookup_zip_with_Some. by exists p, e. }
  exists (batch_of lease plans), l1, p, e. split; [done|]. split; [done|]. split; [done|]. split; [done|].
  pose proof Hnum as (Hpid & Hne & _). intros acked Hlt.
  destruct (commit_alone now fresh l1 lease plans acked p e Hl1 Hpok Hnd He Hne Hlt) as (l2 & E2 & Hrow2 & Hl2).
  exists l2. split; [done|]. rewrite Hpid in Hrow2. rewrite Hrow2, Hrows. split; [done|].
  intros now' fresh' self' sid' Hfree' Hid'. rewrite Hrows, Hrow in Hrow2. injection Hrow2 as Hc2 Hst2 _.
  destruct (poll_alone host random_unit self' sid' now' fresh' l2 id config state Hl2 Hfree' Hid' Hc2 Hst2 Hen Hev Hdue)
    as (lease' & plans' & l3 & E3 & (p' & Hp' & Hnum') & _).
  exists (batch_of lease' plans'), l3, p'. done.
Qed.
End again.

(** Two due schedules; the consumer takes the tick of the first only, and
    another instance polls once the lease has run out. *)
Definition two_schedules : InMemorySchedulerStorage :=
  run_scheduler_ops [(0, SUpsert "i" (sample_config "s")); (1, SUpsert "j" (cron_config "a" "* * * * *" 3))] new_scheduler.
Definition polling : Local (T:=unit) := mkLocal two_schedules tt (mkInstance None 1) None.
Definition another_scheduler : SchedulerConfig := mkSchedulerConfig "b" 1000 3000 None 100 None 30000 "scheduler/-".

Lemma two_plannable : pollable (H := every_minute) polling.
Proof.
  split; [apply run_scheduler_ops_ok|]. intros id c Hl%jlookup_elem.
  assert (jm_entries (schedules two_schedules) =
    [("s", with_enabled true (sample_config "s")); ("a", with_enabled true (cron_config "a" "* * * * *" 3))]) as E
    by (vm_compute; reflexivity).
  cbn [lo_store polling] in Hl. rewrite E in Hl. clear E.
  apply elem_of_cons in Hl as [[= -> ->]|Hl]; [|apply list_elem_of_singleton in Hl as [= -> ->]];
    (split; [done|]); left; by vm_compute.
Qed.

Lemma unacknowledged_ticks_return_witness :
  exists batch l1 l2 batch' l3 p',
    run_prog 5 "" (pollOnce (H := every_minute) sample_host the_scheduler None) polling = (Ret batch, l1) /\
    run_prog 5 "" (commitEff batch 1) l1 = (Ret tt, l2) /\
    run_prog 10000 "" (pollOnce (H := every_minute) sample_host another_scheduler None) l2 = (Ret batch', l3) /\
    p' ∈ pb_plans batch' /\
    numbered_from (H := every_minute) (H0 := every_minute_laws) sample_host (with_enabled true (cron_config "a" "* * * * *" 3))
      (mkScheduleState None 0 "j" None) "a" p'.
Proof.
  destruct (unacknowledged_ticks_return (H := every_minute) (H0 := every_minute_laws) sample_host ltac:(intros t; split; by vm_compute)
    5 "" polling the_scheduler None "a" (with_enabled true (cron_config "a" "* * * * *" 3)) (mkScheduleState None 0 "j" None)
    two_plannable) as (batch & l1 & p & e & E & He & Hnum & _ & Hagain).
  - left. vm_compute. reflexivity.
  - vm_compute. right. left.
  - vm_compute. reflexivity.
  - vm_compute. reflexivity.
  - vm_compute. reflexivity.
  - intros t. split; [reflexivity|]. split; [reflexivity|exact I].
  - pose proof E as E'. vm_compute in E'. injection E' as Hb Hl1. rewrite <- Hb in He. destruct Hnum as [Hpid _].
    assert (1 < e) as Hlt.
    { vm_compute in He. apply elem_of_cons in He as [[= -> ->]|He]; [by vm_compute in Hpid|].
      by apply list_elem_of_singleton in He as [= -> ->]. }
    destruct (Hagain 1%nat Hlt) as (l2 & E2 & _ & Hnext). pose proof E2 as E2'. rewrite <- Hb, <- Hl1 in E2'.
    vm_compute in E2'. injection E2' as Hl2.
    destruct (Hnext 10000 "" another_scheduler None) as (batch' & l3 & p' & E3 & Hp' & Hnum').
    + left. rewrite <- Hl2. vm_compute. reflexivity.
    + rewrite <- Hl2. vm_compute. left.
    + by exists batch, l1, l2, batch', l3, p'.
Defined.

(** A manual fire moves the last fire to now: an occurrence that was due but
    not polled yet is not missed any more and never fires. *)
Definition due_cron : Local (T:=unit) :=
  mkLocal (set_state (<["a" := mkScheduleState (Some 540000) 7 "j" None]> (sched_state two_schedules)) two_schedules)
    tt (mkInstance None 1) None.
Definition planned_times (r : outcome PollBatch * Local (T:=unit)) : list (Z * Z) :=
  match r.1 with
  | Ret b => (fun k => (ti_tickNumber k, ti_scheduledAt k)) <$> List.filter (fun k => bool_decide (ti_scheduleId k = "a")) (pb_ticks b)
  | _ => []
  end.

Example manual_fire_swallows :
  planned_times (run_prog 5 "" (pollOnce (H := every_minute) sample_host the_scheduler None) due_cron) = [(7, 600000)] /\
  let r := run_prog 5 "" (triggerNow sample_host "a") due_cron in
  match r.1 with Ret (Some k) => (ti_tickNumber k, ti_scheduledAt k) = (7, 600500) | _ => False end /\
  planned_times (run_prog 5 "" (pollOnce (H := every_minute) sample_host the_scheduler None) r.2) = [].
Proof. by vm_compute. Qed.
