(* ===== verification/MemoryScheduler.v ===== *)
(** The in-process scheduler: [scheduler/in-memory-scheduler.ts].

    A stream follows one schedule: it computes the next fire time, waits on
    a timer and looks at the schedule again before it emits. Registering
    makes a new object, pausing changes it in place; [live !== config]
    compares objects, here numbers. The merged stream of all schedules runs
    one such stream per id. *)
From Stdlib Require Import QArith.
From S2P Require Import Prelude Leases LeaderLeases Json Journal RunState Storage Exits Retry Replay StepBody Checkpoint MachineStorage SchedulerStorage Planning.
Open Scope string_scope.
Open Scope list_scope.
Open Scope Z_scope.

Record ScheduleEntry : Type := mkScheduleEntry {
  se_object : nat;
  se_config : DurableScheduleConfig;
  se_paused : bool;
  se_incarnation : string;
}.

Record InMemoryScheduler : Type := mkMemoryScheduler {
  ms_schedules : jmap string ScheduleEntry;
  ms_objects : nat;
}.

Definition PAUSED_RECHECK_MS : Z := 1000.

Section memory.
Context `{Recurrence} {T : Type} (host : SchedulerHost T).
Implicit Types (m : InMemoryScheduler) (entry : ScheduleEntry) (now : Z).

(** [fresh] is a new incarnation token. *)
Definition register (fresh : string) (config : DurableScheduleConfig) m : res thrown unit * InMemoryScheduler :=
  match validateScheduleConfig host config with
  | Err e => (Err e, m)
  | Ok _ =>
      let incarnation := match ms_schedules m !! sc_id config with Some e => se_incarnation e | None => fresh end in
      (Ok tt, mkMemoryScheduler
         (<[sc_id config := mkScheduleEntry (ms_objects m) config (negb (is_enabled config)) incarnation]> (ms_schedules m))
         (S (ms_objects m)))
  end.

Definition unregister (scheduleId : string) m : InMemoryScheduler :=
  mkMemoryScheduler (delete scheduleId (ms_schedules m)) (ms_objects m).

Definition set_paused (paused : bool) (scheduleId : string) m : InMemoryScheduler :=
  match ms_schedules m !! scheduleId with
  | Some e =>
      mkMemoryScheduler (<[scheduleId := mkScheduleEntry (se_object e) (se_config e) paused (se_incarnation e)]> (ms_schedules m))
        (ms_objects m)
  | None => m
  end.

Definition pause : string -> InMemoryScheduler -> InMemoryScheduler := set_paused true.
Definition resume : string -> InMemoryScheduler -> InMemoryScheduler := set_paused false.

Definition list_ m : list DurableScheduleConfig :=
  (fun e => with_enabled (negb (se_paused e)) (se_config e)) <$> jm_values (ms_schedules m).

(** ** The stream of one schedule *)
Inductive StreamState : Type :=
| Pulled (tickNumber : Z)
| PausedWait (tickNumber : Z)
| StartWait (tickNumber : Z)
| FireWait (entry : ScheduleEntry) (nextFireTime tickNumber : Z)
| StreamEnded
| StreamFailed (e : thrown).

Definition getNextCronTime (expression tz : string) (after : Z) : res thrown Z :=
  match cron_parse expression tz with
  | Err e => Err e
  | Ok _ =>
      match cron_nextRun expression tz after with
      | Some t => Ok t
      | None => Err (plain_error ("Cron expression " +:+ quoted expression +:+ " has no next fire time after " +:+
                  sh_date_string host after))
      end
  end.

Definition getNextRruleTime (rruleStr : string) (after : Z) : res thrown Z :=
  match rrule_parse rruleStr with
  | Err e => Err e
  | Ok _ =>
      match rrule_after rruleStr after false with
      | Some t => Ok t
      | None => Err (plain_error ("RRULE " +:+ quoted rruleStr +:+ " has no next occurrence after " +:+ sh_date_string host after))
      end
  end.

(** A schedule has one of the three triggers. *)
Definition next_fire (config : DurableScheduleConfig) now : res thrown Z :=
  match nonempty_str (sc_cron config), nonempty_str (sc_rrule config) with
  | Some c, _ => getNextCronTime c (schedule_tz config) now
  | None, Some r => getNextRruleTime r now
  | None, None => Ok (now + opt_or (sc_intervalMs config) 0)
  end.

(** Up to the timer: the state that waits and for how long. *)
Definition computeAndSleep entry (tickNumber : Z) (t : T) : StreamState * Z * T :=
  let config := se_config entry in
  let '(now, t) := sh_now host t in
  if not_started config now then (StartWait tickNumber, opt_or (sc_startAt config) 0 - now, t)
  else if past_end config now then (StreamEnded, 0, t)
  else
    match next_fire config now with
    | Err e => (StreamFailed e, 0, t)
    | Ok next =>
        if past_end config next then (StreamEnded, 0, t)
        else
          let '(jitter, t) := jitterDelayMs host config t in
          (FireWait entry next tickNumber, Z.max 0 (next - now) + jitter, t)
    end.

(** A pull. *)
Definition stream_pull (scheduleId : string) m (tickNumber : Z) (t : T) : StreamState * Z * T :=
  match ms_schedules m !! scheduleId with
  | None => (StreamEnded, 0, t)
  | Some e => if se_paused e then (PausedWait tickNumber, PAUSED_RECHECK_MS, t) else computeAndSleep e tickNumber t
  end.

Definition tick_of entry (scheduledAt firedAt tickNumber : Z) : ScheduleTick :=
  mkTick (sc_id (se_config entry)) (sc_name (se_config entry)) scheduledAt firedAt (se_incarnation entry) tickNumber
    (sc_metadata (se_config entry)).

(** The timer fires; without a tick the stream pulls itself again. *)
Definition stream_wake (scheduleId : string) m (st : StreamState) (t : T) : StreamState * option ScheduleTick * T :=
  match st with
  | PausedWait n => ((if bool_decide (is_Some (ms_schedules m !! scheduleId)) then Pulled n else StreamEnded), None, t)
  | StartWait n => (Pulled n, None, t)
  | FireWait entry next n =>
      match ms_schedules m !! scheduleId with
      | None => (StreamEnded, None, t)
      | Some live =>
          if negb (bool_decide (se_object live = se_object entry)) || se_paused live then (Pulled n, None, t)
          else let '(now, t) := sh_now host t in (Pulled (n + 1), Some (tick_of entry next now n), t)
      end
  | st => (st, None, t)
  end.

(** ** A scheduler with one of its streams *)
Inductive MemoryEvent : Type :=
| ERegister (fresh : string) (config : DurableScheduleConfig)
| EUnregister (scheduleId : string)
| EPause (scheduleId : string)
| EResume (scheduleId : string)
| EPull
| EWake.

Record Running : Type := mkRunning {
  ru_scheduler : InMemoryScheduler;
  ru_stream : StreamState;
  ru_ticks : list ScheduleTick;
  ru_host : T;
}.

Definition memory_step (scheduleId : string) (e : MemoryEvent) (r : Running) : Running :=
  let m := ru_scheduler r in
  let with_scheduler m := mkRunning m (ru_stream r) (ru_ticks r) (ru_host r) in
  match e with
  | ERegister fresh config => with_scheduler (register fresh config m).2
  | EUnregister id => with_scheduler (unregister id m)
  | EPause id => with_scheduler (pause id m)
  | EResume id => with_scheduler (resume id m)
  | EPull =>
      match ru_stream r with
      | Pulled n => let '(st, _, t) := stream_pull scheduleId m n (ru_host r) in mkRunning m st (ru_ticks r) t
      | _ => r
      end
  | EWake =>
      let '(st, tick, t) := stream_wake scheduleId m (ru_stream r) (ru_host r) in
      mkRunning m st (match tick with Some k => ru_ticks r ++ [k] | None => ru_ticks r end) t
  end.

Definition run_memory (scheduleId : string) : list MemoryEvent -> Running -> Running :=
  fold_left (fun r e => memory_step scheduleId e r).

Definition new_running (t : T) : Running := mkRunning (mkMemoryScheduler ∅ 0) (Pulled 0) [] t.

(** ** What a stream emits *)
(** Entries are kept under their ids; an object number belongs to one
    registration, whose config and incarnation do not change. *)
Record memory_ok (r : Running) : Prop := {
  mo_ids : forall id e, ms_schedules (ru_scheduler r) !! id = Some e -> sc_id (se_config e) = id;
  mo_objects : forall id e, ms_schedules (ru_scheduler r) !! id = Some e -> (se_object e < ms_objects (ru_scheduler r))%nat;
  mo_waiting : forall entry next n, ru_stream r = FireWait entry next n ->
    (se_object entry < ms_objects (ru_scheduler r))%nat /\
    forall id e, ms_schedules (ru_scheduler r) !! id = Some e -> se_object e = se_object entry ->
      se_config e = se_config entry /\ se_incarnation e = se_incarnation entry;
  mo_distinct : forall id e id' e', ms_schedules (ru_scheduler r) !! id = Some e ->
    ms_schedules (ru_scheduler r) !! id' = Some e' -> se_object e = se_object e' -> id = id';
}.

Lemma computeAndSleep_entry entry n t st ms t' entry' next n' :
  computeAndSleep entry n t = (st, ms, t') -> st = FireWait entry' next n' -> entry' = entry /\ n' = n.
Proof.
  unfold computeAndSleep. destruct (sh_now host t) as [now t1]. destruct (not_started _ _); [by intros [= <- _ _]|].
  destruct (past_end _ _); [by intros [= <- _ _]|]. destruct (next_fire _ _) as [f|e]; [|by intros [= <- _ _]].
  destruct (past_end _ _); [by intros [= <- _ _]|]. destruct (jitterDelayMs _ _ _) as [j t2].
  by intros [= <- _ _] [= <- _ <-].
Qed.

Lemma set_paused_ok b id r : memory_ok r ->
  memory_ok (mkRunning (set_paused b id (ru_scheduler r)) (ru_stream r) (ru_ticks r) (ru_host r)).
Proof.
  intros [Hi Ho Hw Hd]. unfold set_paused. destruct (ms_schedules (ru_scheduler r) !! id) as [old|] eqn:E; [|by split].
  split; cbn.
  - intros i e. rewrite jlookup_insert. case_decide; [intros [= <-]; cbn; subst; by apply Hi|apply Hi].
  - intros i e. rewrite jlookup_insert. case_decide; [intros [= <-]; cbn; by apply (Ho id)|apply Ho].
  - intros entry next n Hst. destruct (Hw entry next n Hst) as [Hlt Hsame]. split; [done|]. intros i e.
    rewrite jlookup_insert. case_decide; [intros [= <-]; cbn; by apply (Hsame id)|apply Hsame].
  - intros i e1 i' e2. rewrite !jlookup_insert. repeat case_decide; [congruence| | |apply Hd].
    + intros [= <-] Hl Heq. cbn in Heq. subst. by apply (Hd i old i' e2).
    + intros Hl [= <-] Heq. cbn in Heq. subst. by apply (Hd i e1 i' old).
Qed.

(** A stream that does not wait for a fire time keeps the invariant. *)
Lemma other_state_ok r st ticks t : memory_ok r -> (forall entry next n, st = FireWait entry next n -> ru_stream r = st) ->
  memory_ok (mkRunning (ru_scheduler r) st ticks t).
Proof.
  intros [Hi Ho Hw Hd] Hst. split; cbn; [done|done| |done]. intros entry next n ->. by apply (Hw entry next n), (Hst entry next n).
Qed.

Lemma memory_step_ok scheduleId e r : memory_ok r -> memory_ok (memory_step scheduleId e r).
Proof.
  intros Hok. pose proof Hok as [Hi Ho Hw Hd]. destruct e as [fresh config|id|id|id| |]; cbn [memory_step].
  - unfold register. destruct (validateScheduleConfig host config); [|by split]. split; cbn [ru_scheduler ms_schedules ms_objects ru_stream snd].
    + intros id e'. rewrite jlookup_insert. case_decide as Hk; [intros [= <-]; done|apply Hi].
    + intros id e'. rewrite jlookup_insert. case_decide; [intros [= <-]; cbn; lia|]. intros Hl%Ho. lia.
    + intros entry next n Hst. destruct (Hw entry next n Hst) as [Hlt Hsame]. split; [lia|]. intros id e'.
      rewrite jlookup_insert. case_decide; [intros [= <-]; cbn; lia|apply Hsame].
    + intros id e1 id' e2. rewrite !jlookup_insert. repeat case_decide; [congruence| | |apply Hd].
      * intros [= <-] Hl%Ho. cbn. lia.
      * intros Hl%Ho [= <-]. cbn. lia.
  - split; cbn; [intros i e'|intros i e'|intros entry next n Hst; destruct (Hw entry next n Hst) as [Hlt Hsame]; split; [done|]; intros i e'
      |intros i e1 i' e2]; rewrite !jlookup_delete; repeat case_decide; try done; [apply Hi|apply Ho|apply Hsame|apply Hd].
  - by apply set_paused_ok.
  - by apply set_paused_ok.
  - destruct (ru_stream r) as [n|n|n|en nx n| |er] eqn:Est; try done.
    destruct (stream_pull scheduleId (ru_scheduler r) n (ru_host r)) as [[st ms] t'] eqn:Ep.
    unfold stream_pull in Ep. destruct (ms_schedules (ru_scheduler r) !! scheduleId) as [e|] eqn:El.
    + destruct (se_paused e); [injection Ep as <- _ _; by apply other_state_ok|].
      split; cbn; [done|done| |done]. intros entry next n' ->.
      destruct (computeAndSleep_entry _ _ _ _ _ _ _ _ _ Ep eq_refl) as [-> ->].
      split; [by apply (Ho scheduleId)|]. intros i e' Hl Heq.
      assert (i = scheduleId) as -> by (by apply (Hd i e' scheduleId e)). by rewrite El in Hl; injection Hl as ->.
    + injection Ep as <- _ _. by apply other_state_ok.
  - destruct (stream_wake scheduleId (ru_scheduler r) (ru_stream r) (ru_host r)) as [[st tick] t'] eqn:Ewk.
    apply other_state_ok; [done|]. intros entry next n ->. unfold stream_wake in Ewk.
    destruct (ru_stream r) as [k|k|k|en nx k| |er]; try (by injection Ewk).
    + by case_bool_decide.
    + destruct (ms_schedules (ru_scheduler r) !! scheduleId) as [live|]; [|done].
      destruct (negb _ || _); [done|]. by destruct (sh_now host (ru_host r)).
Qed.

(** The number a stream gives its next tick. *)
Definition next_number (st : StreamState) : option Z :=
  match st with
  | Pulled n | PausedWait n | StartWait n | FireWait _ _ n => Some n
  | StreamEnded | StreamFailed _ => None
  end.

Lemma pull_number scheduleId m n t : match next_number (stream_pull scheduleId m n t).1.1 with Some k => k = n | None => True end.
Proof.
  unfold stream_pull. destruct (ms_schedules m !! scheduleId) as [e|]; [|done]. destruct (se_paused e); [done|].
  unfold computeAndSleep. destruct (sh_now host t) as [now t1]. destruct (not_started _ _); [done|].
  destruct (past_end _ _); [done|]. destruct (next_fire _ _); [|done]. destruct (past_end _ _); [done|].
  by destruct (jitterDelayMs _ _ _).
Qed.

(** A tick is emitted only while its schedule is registered, runs, and is
    the registration that was waited for: it carries what is registered. *)
Lemma wake_emits scheduleId r st tick t : memory_ok r ->
  stream_wake scheduleId (ru_scheduler r) (ru_stream r) (ru_host r) = (st, Some tick, t) ->
  exists live next n, ms_schedules (ru_scheduler r) !! scheduleId = Some live /\ se_paused live = false /\
    next_number (ru_stream r) = Some n /\ st = Pulled (n + 1) /\ tick = tick_of live next (sh_now host (ru_host r)).1 n.
Proof.
  intros Hok. unfold stream_wake. destruct (ru_stream r) as [k|k|k|entry next n| |er] eqn:Est; try done.
  destruct (ms_schedules (ru_scheduler r) !! scheduleId) as [live|] eqn:El; [|done].
  case_bool_decide as Hobj; cbn [negb orb]; [|done]. destruct (se_paused live) eqn:Ep; [done|].
  destruct (sh_now host (ru_host r)) as [now t1]. intros [= <- <- _]. exists live, next, n.
  destruct (mo_waiting _ Hok entry next n Est) as [_ Hsame]. destruct (Hsame scheduleId live El Hobj) as [Hc Hinc].
  unfold tick_of. by rewrite Hc, Hinc.
Qed.

Definition numbers_ok (r : Running) : Prop :=
  ti_tickNumber <$> ru_ticks r = seqZ 0 (Z.of_nat (length (ru_ticks r))) /\
  match next_number (ru_stream r) with Some n => n = Z.of_nat (length (ru_ticks r)) | None => True end.

Lemma numbers_step scheduleId e r : memory_ok r -> numbers_ok r -> numbers_ok (memory_step scheduleId e r).
Proof.
  intros Hok [Hn Hst]. destruct e as [fresh config|id|id|id| |]; cbn [memory_step]; try done.
  - destruct (ru_stream r) as [n|n|n|en nx n| |er] eqn:Est; try (by split; rewrite ?Est).
    pose proof (pull_number scheduleId (ru_scheduler r) n (ru_host r)) as Hp.
    destruct (stream_pull _ _ _ _) as [[st ms] t']. split; [done|]. cbn in *. destruct (next_number st); [|done]. by rewrite Hp.
  - destruct (stream_wake scheduleId (ru_scheduler r) (ru_stream r) (ru_host r)) as [[st [tick|]] t'] eqn:Ewk.
    + destruct (wake_emits _ _ _ _ _ Hok Ewk) as (live & next & n & _ & _ & Hnum & -> & ->). rewrite Hnum in Hst.
      unfold numbers_ok. cbn. rewrite length_app, fmap_app, Hn. cbn [length]. split; [|lia].
      rewrite Nat2Z.inj_add, seqZ_app by lia. f_equal. rewrite <- Hst, Z.add_0_l, seqZ_cons by lia. by rewrite seqZ_nil by lia.
    + split; [done|]. cbn. unfold stream_wake in Ewk.
      destruct (ru_stream r) as [k|k|k|entry next k| |er]; try (by injection Ewk as <- _).
      * injection Ewk as <- _. by case_bool_decide.
      * destruct (ms_schedules _ !! scheduleId) as [live|]; [|by injection Ewk as <- _].
        destruct (negb _ || _); [by injection Ewk as <- _|]. by destruct (sh_now host _).
Qed.

(** However a schedule is registered anew, paused, resumed and removed while
    a stream follows it: the ticks of the stream are numbered from 0 without
    gaps, and it emits only what is registered at that moment. *)
Lemma memory_stream_ticks scheduleId events (t : T) :
  let r := run_memory scheduleId events (new_running t) in
  ti_tickNumber <$> ru_ticks r = seqZ 0 (Z.of_nat (length (ru_ticks r))) /\
  forall st tick t', stream_wake scheduleId (ru_scheduler r) (ru_stream r) (ru_host r) = (st, Some tick, t') ->
    exists live next, ms_schedules (ru_scheduler r) !! scheduleId = Some live /\ se_paused live = false /\
      tick = tick_of live next (sh_now host (ru_host r)).1 (Z.of_nat (length (ru_ticks r))).
Proof.
  intros r. assert (memory_ok r /\ numbers_ok r) as [Hok [Hn Hst]].
  { unfold r, run_memory. assert (memory_ok (new_running t) /\ numbers_ok (new_running t)) as Hi.
    { split; [by split|]. by split. }
    revert Hi. generalize (new_running t). induction events as [|e events IH]; intros r0 [Hm Hnum]; [done|]. cbn [fold_left].
    apply IH. split; [by apply memory_step_ok|by apply numbers_step]. }
  split; [done|]. intros st tick t' Hwk. destruct (wake_emits _ _ _ _ _ Hok Hwk) as (live & next & n & Hl & Hp & Hnum & _ & ->).
  rewrite Hnum in Hst. subst n. by exists live, next.
Qed.
End memory.

(** Every stream numbers its ticks from 0: a consumer that starts anew gets
    tick 0 of the same incarnation again, for another occurrence, and so a
    second run id [s.inc.0]. *)
Definition ticking (n : Z) : SchedulerHost Z := mkSchedulerHost (fun t => (t, t + n)) (fun t => (0, t))%Q (fun _ => "").

Example restarted_stream_repeats_numbers :
  let run t := run_memory (H := every_minute) (ticking 100) "s" [ERegister "inc" (sample_config "s"); EPull; EWake] (new_running t) in
  (fun k => scheduleTickRunId (ti_scheduleId k) (ti_incarnation k) (ti_tickNumber k)) <$> ru_ticks (run 0) = ["s.inc.0"] /\
  (fun k => scheduleTickRunId (ti_scheduleId k) (ti_incarnation k) (ti_tickNumber k)) <$> ru_ticks (run 5000) = ["s.inc.0"] /\
  ti_scheduledAt <$> ru_ticks (run 0) <> ti_scheduledAt <$> ru_ticks (run 5000).
Proof. by vm_compute. Qed.

(** A schedule that is removed and registered again while its stream waits
    has a new incarnation, whose ticks go on with the old number. *)
Example new_incarnation_keeps_counting :
  let r := run_memory (H := every_minute) (ticking 100) "s"
    [ERegister "one" (sample_config "s"); EPull; EWake; EPull; EUnregister "s"; ERegister "two" (sample_config "s"); EWake; EPull; EWake]
    (new_running 0) in
  (fun k => (ti_incarnation k, ti_tickNumber k)) <$> ru_ticks r = [("one", 0); ("two", 1)].
Proof. vm_compute. reflexivity. Qed.
